(* ===== verification/_CoqProject ===== *)
-Q . S2P
Prelude.v
Versions.v
Values.v
SPDeps.v
Recorder.v
LazyDeps.v
Nodes.v
Graph.v
SharedCache.v
VersionTracker.v
KeyIndex.v
Transaction.v
CoreState.v
Soundness.v
Findings.v
TaskState.v
Task.v
CritGraph.v
CritTopo.v
CritPaths.v
CritMarks.v
CritPotential.v
CritCorrect.v
QueryTraversal.v
QueryGraph.v
QueryLayout.v
QueryBuild.v
QuerySearch.v
QueryFindPath.v
QueryDepthLimited.v
QueryPostorder.v
TimeSpan.v
SignalNodes.v
SignalWork.v
SignalExample.v
SignalChains.v
SignalWorkSpec.v
SignalPaths.v
SignalDiscovery.v
SignalFinish.v
SignalReceiver.v
SignalReceiverSpec.v
SignalProto.v
SignalReport.v
RustStr.v
RustStrSpec.v
Patch.v
PatchHunks.v
PatchSpec.v
PatchSafe.v
RustOrd.v
ModVersion.v
ModSelect.v
ModDiscovery.v
ModSelectSpec.v
ModResolution.v
ModGraph.v
ModGraphSpec.v
ModNames.v
ModGraphCorrect.v
ModRepos.v
ModReposSpec.v
ModReposCorrect.v
ModExamples.v
DirData.v
DirSpec.v
DirBuilder.v
DirBuilderSpec.v
DirFingerprint.v
DirBuilderCorrect.v
DirWalk.v
DirWalkSpec.v
DirSelector.v
DirSelectorSpec.v
DirMerge.v
DirMergeSpec.v
DirMergeCorrect.v
DirLazy.v
DirInterner.v
