(* ===== verification/Prelude.v ===== *)
(** * A verified model of the computation engine, the query graphs, the critical path, module resolution and directories

    The program is a build tool.  This library models and proves six of its parts.

    [src/deps/dice/dice/src] holds DICE, the engine on which the rest of the program computes
    everything it caches: source listings, packages, configured targets, analyses, actions.  A
    computation is a key; a key's value at a version depends on the values of other keys at that
    version and, at the leaves, on injected keys that transactions change.  DICE keeps for each
    key the versions at which its last value is known to be right, and recomputes only what a
    change can have affected.

    [src/app/bz_query/src/query] holds the graph algorithms under the query commands: generic
    traversals, the asynchronous construction of the graph of the nodes that can be reached, its
    layouts, reversal and truncation, and the searches that resolve nodes as they go.

    [src/app/bz_critical_path/src] computes, after a build, the slowest chain of actions and how
    much the build would gain if one of them cost nothing.

    [src/app/bz_build_signals_impl/src] collects, during a build, what was evaluated, when and after
    what, and turns it at the end into a report of where the time went.

    [src/app/bz_common/src/bazel] resolves external modules: it discovers the modules that the root
    module requires from a registry, selects one version of each, names the repositories, and
    patches the sources.

    [src/app/bz_directory/src/directory] holds the directories of files that actions take and
    produce: copy-on-write trees with fingerprints, which are merged, walked, filtered and shared.

    ** How the parts of the engine interact

    A transaction ([Transaction]) records changes under key numbers ([KeyIndex]) and sends them
    to the core state ([CoreState]), which owns the version tracker ([VersionTracker]), the
    versioned graph ([Graph]) of nodes ([Nodes]), and hands out one cache per version
    ([SharedCache]).  A computation at a version asks the cache for the task ([Task],
    [TaskState]) of a key; the task's worker asks the core state for the node.  The answer is a
    match, a previous value to be checked against its recorded dependencies ([SPDeps]), or a
    request to compute.  Computing records dependencies ([Recorder]); the result goes back to the
    graph, which intersects the version ranges ([Versions]) of the dependencies, registers the
    reverse dependencies ([LazyDeps]) and keeps the paths of invalidation ([Values]).

    ** How the report of a build comes about

    A key evaluated by the engine becomes one or two signals ([key_activated]); the receiver
    ([SignalReceiver]) adds what the sequence of signals tells and calls the backend, which builds
    the graph of the build with the builder of [CritGraph].  At the end the backend
    ([SignalPaths], [SignalWork]) adds discovery edges with [Graph_add_edges] and computes three
    paths: the critical path with [compute_critical_path_potentials] ([CritPotential]), the slowest
    path and the path through real work.  [SignalProto] turns them into the entries of the event.

    ** How modules are resolved

    The requirements of the root module, after overrides ([apply_bzlmod_dep_overrides]) and with the
    extra ones of the configuration ([parse_extra_bzlmod_root_dep]), are fetched round by round
    ([bzlmod_discovery]), each module adding its own requirements.  [select_bzlmod_modules] takes the
    greatest version of each name by [bzlmod_version_cmp] ([ModVersion]), keeps what the root reaches
    through the selected versions, in two orders, and names the repositories.
    [bzlmod_dep_graph_from_selection] ([ModGraph]) adds what each repository sees under which name, and
    a unique name for each module extension; [resolve_bcr_modules_from_dep_graph] ([ModRepos]) adds
    the repositories that extensions and repository rules generate, and returns the external
    modules, all aliases and the toolchains.  The files of a selected module are patched by [Patch].

    ** How directories work

    A [DirectoryBuilder] ([DirData]) is a map of entries that can be changed, or an immutable
    directory, whose entries are sorted and which knows its size and its fingerprint; changing it
    copies one level ([DirectoryBuilder_as_mut]).  [DirectoryBuilder_fingerprint] makes immutable
    directories, and [ImmutableDirectory_shared] ([DirInterner]) makes those shared ones, of which there
    is one for each content.  Merging ([DirMerge]) keeps shared directories that do not change, and
    the lazy builder ([DirLazy]) merges the largest directories first for that reason.  The theorems
    describe a directory by the map [node_at] from paths to what they lead to; directories with the same
    map are equivalent ([builder_equiv]).

    ** Files

    [Prelude] holds panics as values ([outcome]), their monad, tactics and generic lemmas.

    For the engine ([src/deps/dice/dice/src]):

    - [Versions]: [versions.rs].  Version numbers, ranges, sorted disjoint sets of ranges.
    - [Values]: [impls/value.rs], [api/key.rs], [api/storage_type.rs].
    - [SPDeps]: [impls/deps/encoding.rs], [impls/deps/graph.rs], [impls/deps/iterator.rs].  The
      recorded dependencies packed in [u32] words, and their nested iterators.
    - [Recorder]: [impls/deps.rs] and the slot protocol of [impls/ctx.rs].
    - [LazyDeps]: [impls/core/graph/lazy_deps.rs].
    - [Nodes]: [impls/core/graph/nodes.rs], [impls/core/graph/types.rs].
    - [Graph]: [impls/core/graph/storage.rs], with the invariant of the graph.
    - [SharedCache]: [impls/cache.rs].
    - [VersionTracker]: [impls/core/versions.rs].
    - [KeyIndex]: [impls/key_index.rs].
    - [Transaction]: [impls/transaction.rs].
    - [CoreState]: [impls/core/internals.rs], [impls/core/processor.rs], [impls/core/state.rs].
    - [Soundness]: the message loop against a reference semantics.
    - [Findings]: executions that leave the contracts and serve a wrong value.
    - [TaskState], [Task]: [impls/task/state.rs], [impls/task/critical.rs],
      [impls/task/dice.rs].  A task under any interleaving of its threads.

    For the query graphs ([src/app/bz_query/src/query]):

    - [QueryTraversal]: [graph/vec_as_map.rs], [graph/vec_as_set.rs], [graph/visited.rs],
      [graph/dfs.rs], [graph/bfs.rs].  Visited sets behind an interface, postorder, preorder and
      breadth-first traversal over any successor function.
    - [QueryGraph]: [graph/graph.rs].  The graph, its builder, the asynchronous construction and
      every operation on the result, with the unit tests.
    - [QueryLayout]: renumbering, reversal, postorder and the depth limit, proved against a
      description of a graph by its keys.
    - [QueryBuild]: the construction under every order in which the lookups finish.
    - [QuerySearch]: [graph/async_bfs.rs], [traversal.rs].  The searches that resolve nodes as they
      go, with the unit tests; their contracts are in [QueryFindPath], [QueryDepthLimited] and
      [QueryPostorder].

    For the critical path ([src/app/bz_critical_path/src]):

    - [CritGraph]: [types.rs], [graph.rs], [builder.rs].  Typed vertex vectors, the packed graph,
      its reversal and extension, the builder.
    - [CritTopo]: [Graph::topo_sort].
    - [CritPaths]: [Graph::find_longest_paths] and [critical_path_accessor.rs].
    - [CritMarks], [CritPotential], [CritCorrect]: [potential.rs].  The marks of the vertices that
      reach or are reached from the critical path, the work list and the heap, and the theorem
      about the whole.

    For the report of a build ([src/app/bz_build_signals_impl/src], [src/app/bz_build_signals/src]):

    - [TimeSpan]: [src/app/bz_util/src/time_span.rs], [env.rs].  Durations, instants, spans, the
      durations and the phases of waiting of a node.
    - [SignalNodes]: [node_key.rs], the data of [lib.rs].  Keys with the equality of the source,
      hash maps over such an equality, the data and the report entry of a node.
    - [SignalWork]: [backend/longest_path_graph.rs], the critical path through real work; its
      contract is proved in [SignalChains] and [SignalWorkSpec].
    - [SignalPaths]: the rest of [backend/longest_path_graph.rs] and the interface of backends
      ([BuildListenerBackend]); the contracts are proved in [SignalDiscovery] and [SignalFinish].
    - [SignalReceiver]: the sender and the receiver of [lib.rs], proved against the history of the
      signals in [SignalReceiverSpec].
    - [SignalProto]: [enhancement.rs] and the event of [lib.rs], proved in [SignalReport].
    - [SignalExample]: a build for the examples.

    For the modules ([src/app/bz_common/src/bazel]):

    - [RustStr], [RustStrSpec]: [str] of the standard library, as bytes of UTF-8.
    - [RustOrd]: [Ord], [BTreeMap] and [BTreeSet] of the standard library.
    - [Patch]: [bzlmod/patch.rs], with the unit tests.  Hunks are proved in [PatchHunks], whole
      patches in [PatchSpec], and what no patch can do in [PatchSafe].
    - [ModVersion]: [bzlmod/validation.rs].
    - [ModSelect]: the resolution in [bzlmod.rs]; discovery is proved in [ModDiscovery], selection in
      [ModSelectSpec], and their contracts are in [ModResolution].
    - [ModGraph]: the graph of resolved modules in [bzlmod.rs], [bzlmod/cell_aliases.rs]; its aliases are
      proved in [ModGraphSpec], the names of extensions in [ModNames], the contracts are in
      [ModGraphCorrect].
    - [ModRepos]: generated repositories and the result in [bzlmod.rs], the keys of
      [bzlmod/lockfile.rs]; proved in [ModReposSpec] and [ModReposCorrect].
    - [ModExamples]: the unit tests, and names that lead elsewhere.

    For the directories ([src/app/bz_directory/src/directory]):

    - [DirData], [DirSpec]: [entry.rs], [directory_data.rs], [exclusive_directory.rs],
      [immutable_directory.rs], [shared_directory.rs], the data of [builder.rs], and [SmallMap] of
      [src/deps/starlark-rust/starlark_map]; the maps of entries, well-formed directories and their
      content, with their laws.
    - [DirBuilder]: [builder.rs] without merges, [find.rs], [path_accumulator.rs]; proved in
      [DirBuilderSpec] and [DirBuilderCorrect].
    - [DirFingerprint]: fingerprints and content, and a digest for examples.
    - [DirWalk]: [walk.rs], [directory_iterator.rs]; proved in [DirWalkSpec].
    - [DirSelector]: [directory_selector.rs]; proved in [DirSelectorSpec].
    - [DirMerge]: the two implementations of merging in [builder.rs]; proved in [DirMergeSpec] and
      [DirMergeCorrect].
    - [DirLazy]: [builder_lazy.rs].
    - [DirInterner]: [dashmap_directory_interner.rs], [ExclusiveDirectory::shared].

    ** Conventions

    A method [Type::method] is [Type_method]; a loop inside a method is a [Fixpoint] named after
    what it does.  A method on [&mut self] returns the new [self].  [Option] and [Result] stay
    [option] and sums; a panic ([assert!], [unwrap], [unreachable!], an index out of range) is
    [Panic], and "never panics" is a theorem.  [u32] and [u8] arithmetic is written with its
    wrap-around; version numbers, counters of transactions and epochs are [usize] counters that
    start at zero and grow by one, and are numbers of [N].  [Arc] sharing of immutable data is
    not observable; a shared mutable object is a store ([cs_caches]) or the shared state of a
    run ([Task]).  A hash set is iterated in the order of [elements]; no theorem depends on it.

    ** What the theorems show

    - The data: range sets compute unions, intersections and clipping in place as sets of
      versions; the packed dependencies and the key numbers round-trip; the recorder's words
      iterate as the tree of the calls recorded.
    - The graph: lookups answer exactly from the verified ranges and the force-dirty history;
      an update stores exactly the versions at which the dependencies agree, as long as none of
      them is valid forever only from a later version on ([fresh_at]); an invalidation that
      reports a change reaches every dependent that is still valid; [graph_inv] makes the last
      two fit.
    - The state: the message loop never panics on well-behaved requests ([request_pre]); the
      cache refines a map; the tracker counts the transactions; a task is completed once
      whatever the interleaving.
    - The engine: [lookup_sound] and [recording_sound].  Given a deterministic reference
      semantics, every value served in a state that is [reachable] is the one computing from
      scratch gives, at every version in the ranges served with it.  [reachable] asks that the
      requests keep [request_pre] and [allowed]: no rewinds, no clearing, correct computations
      over fresh dependencies, rehydration with the value of the entry.  [Findings] shows states
      outside of it that serve wrong values.
    - Query graphs: traversals end and visit what can be reached, once, in the order they
      promise; the construction resolves exactly the reachable nodes or explains a failure by a
      path from a root; [build_stable_dfs_correct] shows that the stable layout does not depend
      on the order of the lookups; the depth limit keeps the nodes within the distance; the path
      search is shortest; the two postorder traversals agree.
    - Critical path: topological sorting decides acyclicity; the longest paths are longest among
      all walks; [potentials_correct] shows that the single pass with a heap computes, for each
      vertex of the critical path, what recomputing the longest path without its weight gives.
    - Reports: [receiver_correct] shows what the backend is told; [finish_correct] what it computes
      from that, including the labels of discovery, the slowest path and the errors for cycles;
      [real_work_critical_path_correct] that the path through real work is a most expensive chain;
      [reports_account_for_build] that the entries of a report account for the elapsed time when
      nodes end after what they depend on ([timed]).
    - Modules: [resolution_correct] shows that discovery and selection end, and that the selected
      versions meet every requirement of the root and of each other; [selection_correct] the
      choice, the orders and the names; [repo_mappings_correct] that each module other than
      [bazel_tools] and the root see exactly what is declared for them, and when the name of a
      dependency leads to it; [extension_names_correct] that extensions and their
      repositories have different names; [generated_repos_correct] that no name of the result leads
      nowhere; [bzlmod_version_order] that versions are totally preordered;
      [git_diff_applies] that a patch in the format of [git diff] ([print_changes]) makes the changes it
      was printed from; [apply_patch_safe] that no patch leaves its directory or touches a file it
      does not name, and what is left when an operation of the file system fails.
    - Directories: [insert_correct], [mkdir_remove_correct] and [lookups_correct] say what each operation
      does to the content and which error it reports; [merge_correct] and [merge_compatible_correct]
      that the two implementations of merging agree, and when; [fingerprint_correct] that fingerprints
      identify the content; [walk_correct] and [selector_correct] what is visited and kept;
      [lazy_builder_correct] that the order of what is merged does not matter; [interner_correct] that
      there is one shared directory for each content, whatever the order of drops.

    ** Bounds and fuel

    The worklist of [invalidate_rdeps_loop] has fuel one more than the number of nodes; each
    round takes a key that was queued once, so the loop ends before it ([invalidate_spec]
    shows no panic).  Iterating packed dependencies takes a fuel that [recorder_correct] bounds
    by the size of the tree.
    The traversals of [QueryTraversal] take one step per root, node and edge ([search_fuel],
    [graph_work]), breadth-first search one per node, and the construction one per node; their
    theorems ask for that much fuel.  [topo_fuel] and [visit_fuel] count vertices and edges, and
    the critical path theorems have no hypothesis on fuel.  Indices are [u32], [i32] with a
    sentinel, or [usize]: checked conversions panic or return the errors of the source, and the
    theorems state the sizes under which they do not.  Costs are [u64] microseconds with
    wrap-around; [no_overflow] is a hypothesis on the longest path.
    In the report, a loop over a stack has fuel for each vertex and edge ([collect_fuel],
    [discovery_fuel]), and a recursion or a loop that stops at a repeated vertex has one step more
    than there are vertices; the theorems have no hypothesis on fuel.  Instants are nanoseconds on a
    clock of either sign, durations up to [Duration_MAX]; sums of durations saturate as in the
    source, offsets and durations of messages saturate at their width.
    Discovery takes one round per key at most, and selection one step per requirement of a discovered
    module ([select_fuel]); the depth of [dependency_visit] is the number of selected keys.  A unique
    name is found with one attempt more than there are names ([unused_candidate]).  The loop
    over a patch takes one step per line ([patch_loop]).  [usize] positions in files are [nat], the
    signed offsets of the search [Z].
    A merge goes as deep as the first directory ([builder_height]), a filter as deep as the selector
    ([selector_height]); their results are total.  A walk or a search ends with any fuel above a number
    that its theorem gives.  Sizes of directories are [u64] and saturate.

    ** Not modelled

    Futures, wakers and executors (a task's waiters are counted, not polled; a stream of futures
    yields in the order a schedule picks), user code (the [compute] of a key enters as the
    reference semantics, lookups and child visitors of queries as functions), allocation and
    memory accounting, tracing, the storage of paged-out values (a parameter), introspection
    dumps.  The scoped threads of the critical path run one after the other, since they share
    nothing that changes; its hash map from keys is the interface [KeyMap].  In [Soundness],
    rewinds and clearing the graph are left out because they change what an existing version
    means; [CoreState] covers them for panics and invariants.  Of the report of a build, the formatting of
    durations and of log lines is left out, and the fields of the event that only describe the
    command; the clock is an argument, the types of other parts of the program are the interface
    [SignalTypes], and the channel of signals is a list.  Of module resolution, the
    evaluation of a [MODULE.bazel] file is a parameter ([evaluate]), and so are serialization to JSON
    and hashing ([Serializers]); the protocol of registries, reading lock files, caches of
    resolutions, the contents of generated repositories, and the global tables in which cells are
    registered are left out.  The fetches of a round are joined in order, so that of several errors
    the first is reported.  Patches are applied to a map from paths to files: the file system
    may fail any operation ([IoFailures]), a directory is a path with files below it, and empty
    directories are not represented.  The number in the name of an extension is unbounded
    ([extension_candidate]).  A rewind of the cache of a version is one step
    ([SharedCache_rewind]); a task starts without a cancellation handle, and the progress reports
    of its worker are left out ([thread_step]).  The digest of directories is a parameter
    ([DirectoryDigester]), without collisions where fingerprints are compared ([CollisionFree]); the index
    of hashes in a [SmallMap] is not represented, and of the locks of the interner only that each
    operation is atomic.  The rest of the repository is not
    modelled: see the list of components. *)
From stdpp Require Export base tactics numbers list gmap option sorting fin_sets fin_maps fin_map_dom.
From Stdlib Require Export NArith ZArith Lia.

(** * Panics as values *)

(** A Rust computation that may panic ([assert!], [unwrap], [expect], [unreachable!],
    an out-of-range index).  [Option] and [Result] of the source stay [option] and sums;
    only a panic is [Panic]. *)
Inductive outcome (A : Type) : Type :=
| Ok (a : A)
| Panic.
Arguments Ok {_} _.
Arguments Panic {_}.

Global Instance outcome_ret : MRet outcome := @Ok.
Global Instance outcome_bind : MBind outcome := λ A B f m,
  match m with Ok a => f a | Panic => Panic end.
Global Instance outcome_fmap : FMap outcome := λ A B f m,
  match m with Ok a => Ok (f a) | Panic => Panic end.

Declare Scope dice_scope.
Delimit Scope dice_scope with dice.

(** [assert!(b)] *)
Definition rust_assert (b : bool) : outcome unit := if b then Ok tt else Panic.

(** [o.unwrap()], [o.expect(..)] *)
Definition expect {A} (o : option A) : outcome A :=
  match o with Some a => Ok a | None => Panic end.

(** [unreachable!()], [panic!()] *)
Definition unreachable {A} : outcome A := Panic.

Notation "'assert!' b ';;' k" := (mbind (M:=outcome) (λ _ : unit, k) (rust_assert b))
  (at level 100, b at level 99, k at level 200, right associativity) : dice_scope.

(** A computation that returns a value satisfying [P]. *)
Definition returns {A} (m : outcome A) (P : A → Prop) : Prop :=
  match m with Ok a => P a | Panic => False end.

Lemma returns_Ok {A} (m : outcome A) (P : A → Prop) :
  returns m P ↔ ∃ a, m = Ok a ∧ P a.
Proof. destruct m; cbn; naive_solver. Qed.

Lemma returns_bind {A B} (m : outcome A) (f : A → outcome B) (P : A → Prop) (Q : B → Prop) :
  returns m P → (∀ a, P a → returns (f a) Q) → returns (m ≫= f) Q.
Proof. destruct m; cbn; eauto. Qed.

Lemma returns_mono {A} (m : outcome A) (P Q : A → Prop) :
  returns m P → (∀ a, P a → Q a) → returns m Q.
Proof. destruct m; cbn; eauto. Qed.

Lemma returns_impl_eq {A} (m : outcome A) (P : A → Prop) (a : A) :
  returns m P → m = Ok a → P a.
Proof. intros H ->; exact H. Qed.

Lemma bind_Ok {A B} (m : outcome A) (f : A → outcome B) (b : B) :
  m ≫= f = Ok b ↔ ∃ a, m = Ok a ∧ f a = Ok b.
Proof. destruct m; cbn; naive_solver. Qed.

Lemma rust_assert_Ok (b : bool) (u : unit) : rust_assert b = Ok u ↔ b = true.
Proof. destruct b, u; cbn; naive_solver. Qed.

Lemma expect_Ok {A} (o : option A) (a : A) : expect o = Ok a ↔ o = Some a.
Proof. destruct o; cbn; naive_solver. Qed.

(** * Generic lemmas and automation *)

(** [slice::partition_point(pred)]: the number of leading elements satisfying [pred].  The
    standard library specifies it for a slice partitioned by [pred] ([partitioned] below). *)
Fixpoint partition_point {A} (pred : A → bool) (l : list A) : nat :=
  match l with
  | [] => 0
  | x :: l' => if pred x then S (partition_point pred l') else 0
  end.

Definition partitioned {A} (pred : A → bool) (l : list A) : Prop :=
  ∃ l1 l2, l = l1 ++ l2 ∧ Forall (λ x, pred x = true) l1 ∧ Forall (λ x, pred x = false) l2.

Lemma partition_point_exact {A} (pred : A → bool) (l1 : list A) (l2 : list A) :
  Forall (λ x, pred x = true) l1 →
  match l2 with [] => True | x :: _ => pred x = false end →
  partition_point pred (l1 ++ l2) = length l1.
Proof.
  intros H1 H2. induction H1 as [|x l1 Hx H1 IH]; simpl; [|by rewrite Hx, IH].
  destruct l2; simpl; [done|by rewrite H2].
Qed.

Lemma partition_point_exact_Forall {A} (pred : A → bool) (l1 l2 : list A) :
  Forall (λ x, pred x = true) l1 → Forall (λ x, pred x = false) l2 →
  partition_point pred (l1 ++ l2) = length l1.
Proof. intros H1 H2. apply partition_point_exact; [done|]. by destruct H2. Qed.

Lemma drop_app_add {A} (l1 l2 : list A) n :
  drop (length l1 + n) (l1 ++ l2) = drop n l2.
Proof. rewrite drop_app_ge by lia. f_equal. lia. Qed.

Lemma drop_app_add' {A} (l1 l2 : list A) n m :
  drop (length l1 + n + m) (l1 ++ l2) = drop (n + m) l2.
Proof. rewrite <- Nat.add_assoc. apply drop_app_add. Qed.

Lemma take_app_add {A} (l1 l2 : list A) n :
  take (length l1 + n) (l1 ++ l2) = l1 ++ take n l2.
Proof. rewrite take_app_ge by lia. do 2 f_equal. lia. Qed.

Lemma list_insert_middle {A} (l1 l2 : list A) x y n :
  n = length l1 → <[n:=y]> (l1 ++ x :: l2) = l1 ++ y :: l2.
Proof. intros ->. by rewrite insert_app_r_alt, Nat.sub_diag by lia. Qed.

(** [Option::is_none_or] *)
Definition is_none_or {A} (o : option A) (f : A → bool) : bool :=
  match o with None => true | Some a => f a end.

(** [u32] addition of a release build. *)
Definition u32_add (a b : N) : N := ((a + b) mod 2 ^ 32)%N.

(** Case analysis on the boolean comparisons of [N] that occur in the goal or a hypothesis. *)
Ltac case_N_bool :=
  repeat match goal with
  | |- context [N.leb ?a ?b] => destruct (N.leb_spec a b)
  | |- context [N.ltb ?a ?b] => destruct (N.ltb_spec a b)
  | |- context [N.eqb ?a ?b] => destruct (N.eqb_spec a b)
  | H : context [N.leb ?a ?b] |- _ => destruct (N.leb_spec a b)
  | H : context [N.ltb ?a ?b] |- _ => destruct (N.ltb_spec a b)
  | H : context [N.eqb ?a ?b] |- _ => destruct (N.eqb_spec a b)
  end.

(** Inversion of a chain of binds known to return. *)
Ltac inv_bind :=
  repeat match goal with
  | H : _ ≫= _ = Ok _ |- _ => apply bind_Ok in H as (? & ? & ?)
  | H : expect _ = Ok _ |- _ => apply expect_Ok in H
  | H : rust_assert _ = Ok _ |- _ => apply rust_assert_Ok in H
  | H : Ok _ = Ok _ |- _ => injection H as H; try subst
  | H : mret _ = Ok _ |- _ => injection H as H; try subst
  | H : Panic = Ok _ |- _ => discriminate H
  end.

(** * Loops *)

(** [for x in l { .. }] over a state that the body updates and may panic on. *)
Fixpoint for_each {A S} (f : S → A → outcome S) (s : S) (l : list A) : outcome S :=
  match l with
  | [] => Ok s
  | x :: l => s ← f s x; for_each f s l
  end.

(** The loop rule: [I done s] relates the elements already visited to the state. *)
Lemma for_each_inv {A S} (f : S → A → outcome S) (I : list A → S → Prop) (l : list A) (s : S) :
  I [] s →
  (∀ done x rest s, l = done ++ x :: rest → I done s → returns (f s x) (I (done ++ [x]))) →
  returns (for_each f s l) (I l).
Proof.
  intros H0 Hstep.
  enough (∀ rest done s, l = done ++ rest → I done s → returns (for_each f s rest) (I l)) as H
    by exact (H l [] s eq_refl H0).
  clear s H0. induction rest as [|x rest IH]; intros done s El Hs; cbn [for_each].
  { rewrite app_nil_r in El. by subst. }
  eapply returns_bind; [exact (Hstep done x rest s El Hs)|].
  intros s' Hs'. apply (IH (done ++ [x])); [by rewrite <- app_assoc|done].
Qed.

Lemma for_each_app {A S} (f : S → A → outcome S) (l1 l2 : list A) (s : S) :
  for_each f s (l1 ++ l2) = for_each f s l1 ≫= λ s, for_each f s l2.
Proof.
  revert s. induction l1 as [|x l1 IH]; intros s; cbn; [done|].
  destruct (f s x); cbn; [apply IH|done].
Qed.

(** [u32::try_from(n)] of a [usize]. *)
Definition u32_try_from (n : nat) : option N :=
  if (N.of_nat n <=? 2 ^ 32 - 1)%N then Some (N.of_nat n) else None.

Lemma u32_try_from_Some n : (N.of_nat n <= 2 ^ 32 - 1)%N → u32_try_from n = Some (N.of_nat n).
Proof. intros H. unfold u32_try_from. by rewrite (proj2 (N.leb_le _ _) H). Qed.

Lemma u32_add_small a b : (a + b < 2 ^ 32)%N → u32_add a b = (a + b)%N.
Proof. apply N.mod_small. Qed.

(** * Measures of searches *)

Lemma sum_list_with_ext {A} (f g : A → nat) l :
  (∀ x, x ∈ l → f x = g x) → sum_list_with f l = sum_list_with g l.
Proof.
  intros H. induction l as [|x l IH]; cbn; [done|]. rewrite H by set_solver. f_equal.
  apply IH. set_solver.
Qed.

(** The total cost of the elements of [all] that have not been seen. *)
Definition unseen {A} `{EqDecision A} (cost : A → nat) (all seen : list A) : nat :=
  sum_list_with (λ v, if decide (v ∈ seen) then 0 else cost v) all.

Lemma unseen_ext {A} `{EqDecision A} (cost : A → nat) all s1 s2 :
  (∀ v, v ∈ s1 ↔ v ∈ s2) → unseen cost all s1 = unseen cost all s2.
Proof.
  intros H. apply sum_list_with_ext. intros v _. specialize (H v). repeat case_decide; tauto.
Qed.

Lemma unseen_cons {A} `{EqDecision A} (cost : A → nat) all seen j :
  NoDup all → j ∈ all → j ∉ seen → unseen cost all seen = unseen cost all (j :: seen) + cost j.
Proof.
  intros Hnd [l Hl]%elem_of_Permutation Hs. unfold unseen. rewrite Hl in Hnd.
  apply NoDup_cons in Hnd as [Hjl _]. rewrite Hl. cbn.
  rewrite decide_False, (decide_True) by (done || set_solver).
  rewrite (sum_list_with_ext _ (λ v, if decide (v ∈ j :: seen) then 0 else cost v) l); [lia|].
  intros v Hv. apply decide_ext. set_solver.
Qed.

Lemma unseen_le {A} `{EqDecision A} (cost : A → nat) all seen :
  unseen cost all seen ≤ unseen cost all [].
Proof.
  unfold unseen. induction all as [|v all IH]; cbn; [done|].
  rewrite (decide_False (P := v ∈ [])) by set_solver. case_decide; lia.
Qed.

Create HintDb dice.
