(* ===== verification/Versions.v ===== *)
(** Versions of the DICE graph: version numbers, half-open version ranges and sorted sets of
    disjoint ranges, from [src/deps/dice/dice/src/versions.rs].

    [VersionNumber] is a [usize] newtype; it is modelled by [N].  A range is [[begin, end)]
    with an optional end; [VersionRange_new] asserts that it is not empty, so every function
    that builds a range returns an [outcome].  [VersionRanges] is the vector of ranges.  The
    invariant [ranges_wf] says that the vector is strictly sorted with a gap between
    neighbours; the theorems characterise every operation by the set of versions it denotes. *)
From S2P Require Import Prelude.
Local Open Scope N_scope.
Local Open Scope dice_scope.

(** * Definitions *)

Notation VersionNumber := N (only parsing).

Definition VersionNumber_ZERO : VersionNumber := 0.
Definition VersionNumber_new (num : N) : VersionNumber := num.
Definition VersionNumber_inc (v : VersionNumber) : VersionNumber := v + 1.
(** [checked_sub(1).expect("shouldn't underflow")] *)
Definition VersionNumber_dec (v : VersionNumber) : outcome VersionNumber :=
  assert! (1 <=? v);; Ok (v - 1).
Definition VersionNumber_sub (a b : VersionNumber) : Z := (Z.of_N a - Z.of_N b)%Z.

Record VersionRange := mkRange {
  vr_begin : VersionNumber;
  vr_end : option VersionNumber;
}.

Global Instance VersionRange_eq_dec : EqDecision VersionRange.
Proof. solve_decision. Defined.

Definition VersionRange_new (b : VersionNumber) (e : option VersionNumber)
  : outcome VersionRange :=
  match e with
  | Some e' => assert! (b <? e');; Ok (mkRange b e)
  | None => Ok (mkRange b e)
  end.

Definition VersionRange_bounded (b e : VersionNumber) : outcome VersionRange :=
  VersionRange_new b (Some e).

(** [VersionRange::new(begin, None)], whose assertion is skipped. *)
Definition VersionRange_begins_with (b : VersionNumber) : VersionRange := mkRange b None.

Definition contains_end_exclusive (v b : VersionNumber) (e : option VersionNumber) : bool :=
  (b <=? v) && is_none_or e (λ e, v <? e).

Definition VersionRange_intersect (self other : VersionRange) : outcome (option VersionRange) :=
  if contains_end_exclusive (vr_begin self) (vr_begin other) (vr_end other)
     || contains_end_exclusive (vr_begin other) (vr_begin self) (vr_end self)
  then
    let b := N.max (vr_begin self) (vr_begin other) in
    let e := match vr_end self, vr_end other with
             | Some x, Some y => Some (N.min x y)
             | None, x => x
             | y, None => y
             end in
    r ← VersionRange_new b e; Ok (Some r)
  else Ok None.

(** The updated range and the new range that starts at [at_]. *)
Definition VersionRange_split (self : VersionRange) (at_ : VersionNumber)
  : outcome (VersionRange * option VersionRange) :=
  if vr_begin self <? at_ then
    match vr_end self with
    | Some e =>
        if at_ <? e then
          r ← VersionRange_bounded at_ e; Ok (mkRange (vr_begin self) (Some at_), Some r)
        else Ok (self, None)
    | None => Ok (mkRange (vr_begin self) (Some at_), Some (VersionRange_begins_with at_))
    end
  else Ok (self, None).

Definition is_between_end_inclusive (v b : VersionNumber) (e : option VersionNumber) : bool :=
  (b <=? v) && is_none_or e (λ e, v <=? e).

Definition VersionRange_merge_unchecked (self other : VersionRange) : outcome VersionRange :=
  VersionRange_new (N.min (vr_begin self) (vr_begin other))
    (match vr_end self, vr_end other with
     | None, _ => None
     | _, None => None
     | Some e1, Some e2 => Some (N.max e1 e2)
     end).

Definition VersionRange_merge (self other : VersionRange) : outcome (option VersionRange) :=
  if is_between_end_inclusive (vr_begin self) (vr_begin other) (vr_end other)
     || is_between_end_inclusive (vr_begin other) (vr_begin self) (vr_end self)
  then r ← VersionRange_merge_unchecked self other; Ok (Some r)
  else Ok None.

(** [RangeBounds::contains] for the bounds [Included(begin)], [Excluded(end)] or [Unbounded]. *)
Definition VersionRange_contains (r : VersionRange) (v : VersionNumber) : bool :=
  (vr_begin r <=? v) && match vr_end r with None => true | Some e => v <? e end.

Definition end_cmp (e1 e2 : option VersionNumber) : comparison :=
  match e1, e2 with
  | None, None => Eq
  | None, Some _ => Gt
  | Some _, None => Lt
  | Some x, Some y => N.compare x y
  end.

Definition VersionRange_cmp (self other : VersionRange) : comparison :=
  match N.compare (vr_begin self) (vr_begin other) with
  | Eq => end_cmp (vr_end self) (vr_end other)
  | c => c
  end.

(** [a < b] of the derived [PartialOrd]. *)
Definition VersionRange_lt (a b : VersionRange) : bool :=
  match VersionRange_cmp a b with Lt => true | _ => false end.

Notation VersionRanges := (list VersionRange) (only parsing).

Definition VersionRange_into_ranges (r : VersionRange) : VersionRanges := [r].

Definition VersionRanges_last (self : VersionRanges) : option VersionRange := last self.

Fixpoint find_upper_bound_rev (rev_ranges : list VersionRange) (v : VersionNumber)
  : outcome (option VersionNumber) :=
  match rev_ranges with
  | [] => Ok None
  | range :: rest =>
      if vr_begin range <=? v then
        if VersionRange_contains range v then Ok (Some v)
        else
          e ← expect (vr_end range);
          e ← VersionNumber_dec e;
          assert! (e <? v);; Ok (Some e)
      else find_upper_bound_rev rest v
  end.

Definition VersionRanges_find_value_upper_bound (self : VersionRanges) (v : VersionNumber)
  : outcome (option VersionNumber) :=
  find_upper_bound_rev (reverse self) v.

(** [match r.end { Some(end) if end < range.begin => true, _ => false }] *)
Definition ends_before (range r : VersionRange) : bool :=
  match vr_end r with Some e => e <? vr_begin range | None => false end.

Definition VersionRanges_union_range (self : VersionRanges) (range : VersionRange)
  : outcome VersionRanges :=
  let len := length self in
  let idx := partition_point (ends_before range) self in
  if decide (idx = len) then Ok (self ++ [range])
  else
    at_idx ← expect (self !! idx);
    m ← VersionRange_merge at_idx range;
    match m with
    | None => Ok (take idx self ++ range :: drop idx self)
    | Some merged =>
        let first_non_overlap :=
          match vr_end merged with
          | None => len
          | Some e =>
              (idx + 1 + partition_point (λ r, vr_begin r <=? e)%N (drop (idx + 1) self))%nat
          end in
        let last_overlap := (first_non_overlap - 1)%nat in
        merged' ← (if decide (idx < last_overlap)%nat then
                     r ← expect (self !! last_overlap); VersionRange_merge_unchecked merged r
                   else Ok merged);
        let self' := <[idx := merged']> self in
        Ok (take (idx + 1) self' ++ drop first_non_overlap self')
    end.

Definition VersionRanges_insert (self : VersionRanges) (range : VersionRange)
  : outcome VersionRanges := VersionRanges_union_range self range.

(** The order in which the two peekable iterators of [union] and [intersect] are consumed:
    the smaller of the two heads first, [other]'s on a tie. *)
Fixpoint merge_order (this other : list VersionRange) : list VersionRange :=
  let fix inner (other : list VersionRange) : list VersionRange :=
    match this, other with
    | this_range :: this', other_range :: other' =>
        if VersionRange_lt this_range other_range
        then this_range :: merge_order this' other
        else other_range :: inner other'
    | _ :: _, [] => this
    | [], _ => other
    end in
  inner other.

Fixpoint union_loop (seq : list VersionRange) (pending : option VersionRange)
  (out : list VersionRange) : outcome (option VersionRange * list VersionRange) :=
  match seq with
  | [] => Ok (pending, out)
  | smaller :: seq' =>
      match pending with
      | None => union_loop seq' (Some smaller) out
      | Some last =>
          m ← VersionRange_merge last smaller;
          match m with
          | Some merged => union_loop seq' (Some merged) out
          | None => union_loop seq' (Some smaller) (out ++ [last])
          end
      end
  end.

Definition VersionRanges_union (self other : VersionRanges) : outcome VersionRanges :=
  '(pending, out) ← union_loop (merge_order self other) None [];
  Ok (match pending with Some last => out ++ [last] | None => out end).

Definition VersionRanges_union_in_place (self other : VersionRanges) : outcome VersionRanges :=
  VersionRanges_union self other.

(** [cmp::max_by] on the end points: the second argument on a tie. *)
Definition max_by_end (r1 r2 : VersionRange) : VersionRange :=
  match end_cmp (vr_end r1) (vr_end r2) with Gt => r1 | _ => r2 end.

Fixpoint intersect_loop (seq : list VersionRange) (pending : option VersionRange)
  (out : list VersionRange) : outcome (list VersionRange) :=
  match seq with
  | [] => Ok out
  | smaller :: seq' =>
      match pending with
      | Some r =>
          i ← VersionRange_intersect r smaller;
          match i with
          | Some x => intersect_loop seq' (Some (max_by_end r smaller)) (out ++ [x])
          | None => intersect_loop seq' (Some smaller) out
          end
      | None => intersect_loop seq' (Some smaller) out
      end
  end.

Definition VersionRanges_intersect (self other : VersionRanges) : outcome VersionRanges :=
  intersect_loop (merge_order self other) None [].

Definition VersionRanges_intersect_in_place (self other : VersionRanges)
  : outcome VersionRanges :=
  if decide (self = other) then Ok self else VersionRanges_intersect self other.

(** The loop [for j in (0..len).rev()] on the reversed vector: pops ranges that start at or
    after [e], then clips the last one. *)
Fixpoint clip_end_rev (rev_ranges : list VersionRange) (e : VersionNumber)
  : list VersionRange :=
  match rev_ranges with
  | [] => []
  | v :: rest =>
      if vr_begin v <? e then
        match vr_end v with
        | Some this_end =>
            if this_end <? e then v :: rest else mkRange (vr_begin v) (Some e) :: rest
        | None => mkRange (vr_begin v) (Some e) :: rest
        end
      else clip_end_rev rest e
  end.

(** The [while i < len] loop and the [drain(0..i)] (or [clear]) that follows it. *)
Fixpoint clip_begin (ranges : list VersionRange) (b : VersionNumber) : list VersionRange :=
  match ranges with
  | [] => []
  | v :: rest =>
      if match vr_end v with Some e => e <=? b | None => false end
      then clip_begin rest b
      else (if vr_begin v <? b then mkRange b (vr_end v) else v) :: rest
  end.

Definition VersionRanges_is_empty (self : VersionRanges) : bool :=
  match self with [] => true | _ => false end.

(** The updated ranges and the returned flag. *)
Definition VersionRanges_intersect_range (self : VersionRanges) (range : VersionRange)
  : outcome (VersionRanges * bool) :=
  if VersionRanges_is_empty self then Ok (self, false)
  else
    first ← expect (head self);
    last_ ← expect (last self);
    let self_begin := vr_begin first in
    let self_end := vr_end last_ in
    let covered :=
      (vr_begin range <=? self_begin) &&
      match self_end, vr_end range with
      | Some _, None => true
      | Some self_end, Some range_end => self_end <=? range_end
      | _, _ => false
      end in
    if covered then Ok (self, false)
    else
      let self' := match vr_end range with
                   | Some e => reverse (clip_end_rev (reverse self) e)
                   | None => self
                   end in
      Ok (clip_begin self' (vr_begin range), true).

Definition VersionRanges_contains (self : VersionRanges) (v : VersionNumber) : outcome bool :=
  u ← VersionRanges_find_value_upper_bound self v;
  Ok (match u with Some u => u =? v | None => false end).

Definition VersionRanges_clear (_ : VersionRanges) : VersionRanges := [].

(** [shrink_to_fit] changes only the capacity. *)
Definition VersionRanges_into_arc (self : VersionRanges) : VersionRanges := self.

Definition VersionRanges_to_introspectable (self : VersionRanges)
  : list (N * option N) :=
  map (λ v, (vr_begin v, vr_end v)) self.

(** * Specification *)

Arguments VersionRange_new : simpl never.

(** The versions a range and a set of ranges denote. *)
Definition in_range (v : VersionNumber) (r : VersionRange) : Prop :=
  vr_begin r ≤ v ∧ match vr_end r with Some e => v < e | None => True end.

Definition in_ranges (v : VersionNumber) (l : VersionRanges) : Prop :=
  Exists (in_range v) l.

Definition range_wf (r : VersionRange) : Prop :=
  match vr_end r with Some e => vr_begin r < e | None => True end.

(** [r1] ends strictly before [r2] begins: disjoint and not adjacent. *)
Definition range_sep (r1 r2 : VersionRange) : Prop :=
  match vr_end r1 with Some e => e < vr_begin r2 | None => False end.

(** The representation invariant of [VersionRanges]: no range is empty, and the vector is
    sorted with a gap between any two ranges. *)
Definition ranges_wf (l : VersionRanges) : Prop :=
  Forall range_wf l ∧ StronglySorted range_sep l.

Global Instance range_wf_dec r : Decision (range_wf r).
Proof. unfold range_wf. destruct (vr_end r); apply _. Defined.
Global Instance range_sep_dec : RelDecision range_sep.
Proof. intros r1 r2. unfold range_sep. destruct (vr_end r1); apply _. Defined.
Global Instance ranges_wf_dec l : Decision (ranges_wf l).
Proof. unfold ranges_wf. apply _. Defined.

(** No upper bound: every version from some point on is included. *)
Definition unbounded (l : VersionRanges) : Prop :=
  ∃ r, last l = Some r ∧ vr_end r = None.

Notation "v ∈ᵣ l" := (in_ranges v l) (at level 70) : dice_scope.

(** ** Single ranges *)

(** Destructs every range and every optional end, then decides by linear arithmetic. *)
Ltac range_lia :=
  unfold in_range, range_wf, range_sep in *;
  repeat match goal with
  | r : VersionRange |- _ => destruct r as [? [?|]]
  | e : option N |- _ => destruct e as [?|]
  end; cbn in *; case_N_bool; cbn in *; try lia.

Lemma VersionRange_contains_spec r v : VersionRange_contains r v = true ↔ in_range v r.
Proof. unfold VersionRange_contains. range_lia; naive_solver lia. Qed.

Global Instance in_range_dec v r : Decision (in_range v r).
Proof.
  refine (cast_if (decide (VersionRange_contains r v = true)));
    by rewrite <- VersionRange_contains_spec.
Defined.

Lemma in_ranges_cons v r l : v ∈ᵣ (r :: l) ↔ in_range v r ∨ v ∈ᵣ l.
Proof. apply Exists_cons. Qed.

Lemma in_ranges_app v l1 l2 : v ∈ᵣ (l1 ++ l2) ↔ v ∈ᵣ l1 ∨ v ∈ᵣ l2.
Proof. apply Exists_app. Qed.

Lemma in_ranges_nil v : v ∈ᵣ [] ↔ False.
Proof. apply Exists_nil. Qed.

Lemma in_ranges_singleton v r : v ∈ᵣ [r] ↔ in_range v r.
Proof. rewrite in_ranges_cons, in_ranges_nil. tauto. Qed.

Lemma VersionRange_new_wf b e :
  range_wf (mkRange b e) → VersionRange_new b e = Ok (mkRange b e).
Proof. unfold VersionRange_new, rust_assert. range_lia; done. Qed.

Lemma VersionRange_intersect_spec r1 r2 :
  range_wf r1 → range_wf r2 →
  returns (VersionRange_intersect r1 r2) (λ o,
    match o with
    | Some r =>
        range_wf r ∧ (∀ v, in_range v r ↔ in_range v r1 ∧ in_range v r2) ∧
        vr_begin r = N.max (vr_begin r1) (vr_begin r2)
    | None => ∀ v, ¬ (in_range v r1 ∧ in_range v r2)
    end).
Proof.
  intros W1 W2. unfold VersionRange_intersect, contains_end_exclusive.
  destruct r1 as [b1 [e1|]], r2 as [b2 [e2|]]; cbn in *; case_N_bool; cbn;
    rewrite ?VersionRange_new_wf by (unfold range_wf in *; cbn in *; lia);
    unfold in_range, range_wf in *; cbn in *; try split_and!; intros; lia.
Qed.

Lemma VersionRange_merge_unchecked_spec r1 r2 :
  range_wf r1 → range_wf r2 →
  returns (VersionRange_merge_unchecked r1 r2) (λ r, range_wf r ∧
    vr_begin r = N.min (vr_begin r1) (vr_begin r2) ∧
    vr_end r = match vr_end r1, vr_end r2 with
               | Some e1, Some e2 => Some (N.max e1 e2)
               | _, _ => None
               end).
Proof.
  intros W1 W2. unfold VersionRange_merge_unchecked.
  destruct r1 as [b1 [e1|]], r2 as [b2 [e2|]]; cbn in *;
    rewrite ?VersionRange_new_wf by (unfold range_wf in *; cbn in *; lia);
    unfold range_wf in *; cbn in *; repeat split; auto; lia.
Qed.

(** Merging succeeds exactly when the ranges overlap or touch, and denotes their union. *)
Lemma VersionRange_merge_spec r1 r2 :
  range_wf r1 → range_wf r2 →
  returns (VersionRange_merge r1 r2) (λ o,
    match o with
    | Some r =>
        range_wf r ∧ (∀ v, in_range v r ↔ in_range v r1 ∨ in_range v r2) ∧
        vr_begin r = N.min (vr_begin r1) (vr_begin r2) ∧
        vr_end r = match vr_end r1, vr_end r2 with
                   | Some e1, Some e2 => Some (N.max e1 e2)
                   | _, _ => None
                   end
    | None => range_sep r1 r2 ∨ range_sep r2 r1
    end).
Proof.
  intros W1 W2. unfold VersionRange_merge, is_between_end_inclusive.
  pose proof (VersionRange_merge_unchecked_spec r1 r2 W1 W2) as Hm.
  destruct (_ || _) eqn:E.
  - destruct (VersionRange_merge_unchecked r1 r2) as [r|]; [|done].
    cbn in *. destruct Hm as (Hw & Hb & He). split_and!; auto. intros v.
    destruct r as [b e]; cbn in *; subst. range_lia.
  - cbn. range_lia.
Qed.

(** ** Lists of ranges *)

Lemma ranges_wf_nil : ranges_wf [].
Proof. split; constructor. Qed.

Lemma ranges_wf_cons r l :
  ranges_wf (r :: l) ↔ range_wf r ∧ ranges_wf l ∧ Forall (range_sep r) l.
Proof. unfold ranges_wf. rewrite Forall_cons, StronglySorted_cons. tauto. Qed.

Lemma ranges_wf_singleton r : ranges_wf [r] ↔ range_wf r.
Proof. rewrite ranges_wf_cons. pose proof ranges_wf_nil. naive_solver. Qed.

Lemma ranges_wf_app l1 l2 :
  ranges_wf (l1 ++ l2) ↔
  ranges_wf l1 ∧ ranges_wf l2 ∧ (∀ x y, x ∈ l1 → y ∈ l2 → range_sep x y).
Proof. unfold ranges_wf. rewrite Forall_app, StronglySorted_app. naive_solver. Qed.

Lemma ranges_wf_snoc l r :
  ranges_wf (l ++ [r]) ↔ ranges_wf l ∧ range_wf r ∧ ∀ x, x ∈ l → range_sep x r.
Proof. rewrite ranges_wf_app, ranges_wf_singleton. set_solver. Qed.

Lemma ranges_wf_elem l r : ranges_wf l → r ∈ l → range_wf r.
Proof. intros [H _]. by apply Forall_forall. Qed.

Lemma in_ranges_elem v l : v ∈ᵣ l ↔ ∃ r, r ∈ l ∧ in_range v r.
Proof. unfold in_ranges. rewrite Exists_exists. done. Qed.

(** ** [find_value_upper_bound] and [contains] *)

Lemma find_value_upper_bound_spec l v :
  ranges_wf l →
  returns (VersionRanges_find_value_upper_bound l v) (λ o,
    match o with
    | Some u => u ∈ᵣ l ∧ u ≤ v ∧ ∀ w, w ∈ᵣ l → w ≤ v → w ≤ u
    | None => ∀ w, w ∈ᵣ l → v < w
    end).
Proof.
  unfold VersionRanges_find_value_upper_bound.
  induction l as [|r l IH] using rev_ind; [intros _ w; by rewrite in_ranges_nil|].
  rewrite reverse_snoc, ranges_wf_snoc. intros (Wl & Wr & Hsep). simpl.
  assert (∀ w, w ∈ᵣ l → w < vr_begin r) as Hbelow.
  { intros w (x & Hx & Hw)%in_ranges_elem. specialize (Hsep x Hx). range_lia. }
  destruct (N.leb_spec (vr_begin r) v) as [Hle|Hgt].
  - destruct (VersionRange_contains r v) eqn:Hc.
    + apply VersionRange_contains_spec in Hc. cbn.
      rewrite in_ranges_app, in_ranges_singleton. auto.
    + assert (¬ in_range v r) as Hn by (rewrite <- VersionRange_contains_spec; congruence).
      destruct r as [b [e|]]; cbn in *; [|exfalso; range_lia].
      unfold VersionNumber_dec, rust_assert. unfold in_range, range_wf in *; cbn in *.
      destruct (N.leb_spec 1 e); [|lia]; cbn. destruct (N.ltb_spec (e - 1) v); [|lia]; cbn.
      rewrite in_ranges_app, in_ranges_singleton. split_and!; [right; range_lia|lia|].
      intros w. rewrite in_ranges_app, in_ranges_singleton. intros [Hw%Hbelow|Hw] ?; range_lia.
  - eapply returns_mono; [by apply IH|]. intros [u|]; cbn.
    + intros (Hu & ? & Hmax). split_and!; [by rewrite in_ranges_app; left|done|].
      intros w. rewrite in_ranges_app, in_ranges_singleton. intros [?|Hw] ?; [auto|range_lia].
    + intros Hall w. rewrite in_ranges_app, in_ranges_singleton. intros [?|Hw]; [auto|range_lia].
Qed.

Lemma VersionRanges_contains_spec l v :
  ranges_wf l → ∃ b, VersionRanges_contains l v = Ok b ∧ (b = true ↔ v ∈ᵣ l).
Proof.
  intros W. unfold VersionRanges_contains. pose proof (find_value_upper_bound_spec l v W) as H.
  destruct (VersionRanges_find_value_upper_bound l v) as [[u|]|]; [| |done]; cbn in *.
  - eexists; split; [done|]. destruct H as (Hu & Hle & Hmax). rewrite N.eqb_eq.
    split; [by intros ->|]. intros Hv. specialize (Hmax v Hv). lia.
  - eexists; split; [done|]. split; [done|]. intros Hv%H. lia.
Qed.

(** ** [union_range] *)

(** The sorted order makes the predicates passed to [partition_point] monotone along the
    vector, which is the precondition of the standard library's binary search. *)
Lemma ends_before_partitioned l range :
  ranges_wf l → partitioned (ends_before range) l.
Proof.
  induction l as [|r l IH]; [by exists [], []|].
  rewrite ranges_wf_cons. intros (Wr & Wl & Hsep).
  destruct (ends_before range r) eqn:E.
  - destruct (IH Wl) as (l1 & l2 & -> & H1 & H2). exists (r :: l1), l2. by repeat constructor.
  - exists [], (r :: l). split_and!; [done|done|]. constructor; [done|].
    destruct Wl as [Wl _]. rewrite Forall_forall in *. intros x Hx.
    specialize (Hsep x Hx). specialize (Wl x Hx). unfold ends_before in *. range_lia; done.
Qed.

Lemma begins_by_partitioned l e :
  ranges_wf l → partitioned (λ r, vr_begin r <=? e) l.
Proof.
  induction l as [|r l IH]; [by exists [], []|].
  rewrite ranges_wf_cons. intros (Wr & Wl & Hsep).
  destruct (N.leb_spec (vr_begin r) e).
  - destruct (IH Wl) as (l1 & l2 & -> & H1 & H2). exists (r :: l1), l2.
    split_and!; [done|constructor; [by apply N.leb_le|done]|done].
  - exists [], (r :: l). split_and!; [done|done|]. constructor; [by apply N.leb_gt|].
    eapply Forall_impl; [exact Hsep|]. intros x Hx. apply N.leb_gt. range_lia.
Qed.

(** A range that reaches the beginning of every element of a sorted list absorbs the list once
    merged with its last element. *)
Lemma absorb_last m l y :
  range_wf m → ranges_wf l → last l = Some y →
  (∀ x, x ∈ l → vr_begin m ≤ vr_begin x ∧
                match vr_end m with Some e => vr_begin x ≤ e | None => True end) →
  returns (VersionRange_merge_unchecked m y) (λ r,
    range_wf r ∧ vr_begin r = vr_begin m ∧
    (∀ v, in_range v r ↔ in_range v m ∨ v ∈ᵣ l) ∧
    (vr_end r = vr_end m ∨ vr_end r = vr_end y)).
Proof.
  intros Wm Wl [l' ->]%last_Some Hx. apply ranges_wf_snoc in Wl as (Wl & Wy & Hsep).
  eapply returns_mono; [by apply VersionRange_merge_unchecked_spec|].
  intros r (Wr & Hb & He). destruct (Hx y ltac:(set_solver)) as [Hby Hey].
  split_and!; [done|lia| |].
  - intros v. rewrite in_ranges_app, in_ranges_singleton.
    assert (v ∈ᵣ l' → in_range v m) as Hin.
    { intros (x & Hxl & Hxv)%in_ranges_elem. destruct (Hx x ltac:(set_solver)).
      specialize (Hsep x Hxl). clear Hx. range_lia. }
    transitivity (in_range v m ∨ in_range v y); [|tauto]. clear Hx Hsep Hin.
    destruct r as [rb re]; cbn in *; subst. range_lia.
  - rewrite He. destruct (vr_end m) as [em|], (vr_end y) as [ey|]; auto.
    destruct (N.max_spec em ey) as [[_ ->]|[_ ->]]; auto.
Qed.

Lemma absorb_opt_ok m l :
  range_wf m → ranges_wf l →
  ∃ m', (match last l with
         | Some y => VersionRange_merge_unchecked m y
         | None => Ok m
         end) = Ok m'.
Proof.
  intros Wm Wl. destruct (last l) as [y|] eqn:Hy; [|eauto].
  assert (range_wf y) as Wy.
  { eapply ranges_wf_elem; [exact Wl|]. apply last_Some in Hy as [? ->]. set_solver. }
  pose proof (VersionRange_merge_unchecked_spec m y Wm Wy) as H.
  apply returns_Ok in H as (? & ? & _). eauto.
Qed.

Lemma ends_before_sep l range :
  Forall (λ r, ends_before range r = true) l → ∀ a, a ∈ l → range_sep a range.
Proof.
  rewrite Forall_forall. intros H a Ha. specialize (H a Ha). unfold ends_before, range_sep in *.
  destruct (vr_end a); [by apply N.ltb_lt|done].
Qed.

Lemma insert_between l1 x l2 range :
  ranges_wf (l1 ++ x :: l2) → range_wf range →
  (∀ a, a ∈ l1 → range_sep a range) → range_sep range x →
  ranges_wf (l1 ++ range :: x :: l2).
Proof.
  rewrite !ranges_wf_app, !ranges_wf_cons. intros (W1 & (Wx & W2 & Hx) & Hsep) Wr Hl1 Hrx.
  split_and!; try done.
  - constructor; [done|]. rewrite Forall_forall in *. intros y Hy. specialize (Hx y Hy).
    unfold range_wf in Wx. unfold range_sep in *. destruct (vr_end range), (vr_end x); try done; lia.
  - intros a b Ha. rewrite elem_of_cons. intros [->|Hb]; auto.
Qed.

(** What [union_range] builds, with the vector split at its insertion point and at the first
    range it does not overlap. *)
Lemma union_range_shape l1 x m1 m2 range :
  ranges_wf (l1 ++ x :: m1 ++ m2) → range_wf range →
  (∀ a, a ∈ l1 → range_sep a range) →
  ∀ merged, VersionRange_merge x range = Ok (Some merged) →
  (∀ a, a ∈ m1 → match vr_end merged with Some e => vr_begin a ≤ e | None => True end) →
  (∀ a, a ∈ m2 → match vr_end merged with Some e => e < vr_begin a | None => False end) →
  ∀ merged', (match last m1 with
              | Some y => VersionRange_merge_unchecked merged y
              | None => Ok merged
              end) = Ok merged' →
  ranges_wf (l1 ++ merged' :: m2) ∧
  ∀ v, v ∈ᵣ (l1 ++ merged' :: m2) ↔ v ∈ᵣ (l1 ++ x :: m1 ++ m2) ∨ in_range v range.
Proof.
  intros W Wr Hl1 merged Hmerge Hm1 Hm2 merged' Hlast.
  apply ranges_wf_app in W as (Wl1 & Wx & Hsep1).
  apply ranges_wf_cons in Wx as (Wx & Wm & Hsepx).
  apply ranges_wf_app in Wm as (Wm1 & Wm2 & Hsep12).
  rewrite Forall_app, !Forall_forall in Hsepx. destruct Hsepx as [Hx1 Hx2].
  pose proof (VersionRange_merge_spec x range Wx Wr) as Hspec. rewrite Hmerge in Hspec.
  destruct Hspec as (Wmg & Hin & Hb & He).
  assert (range_wf merged' ∧ vr_begin merged' = vr_begin merged ∧
          (∀ v, in_range v merged' ↔ in_range v merged ∨ v ∈ᵣ m1) ∧
          (∀ a, a ∈ m2 → range_sep merged' a)) as (Wm' & Hb' & Hin' & Hsep').
  { destruct (last m1) as [y|] eqn:Hy.
    - assert (∀ a, a ∈ m1 → vr_begin merged ≤ vr_begin a) as Hbm.
      { intros a Ha. specialize (Hx1 a Ha). rewrite Hb. clear -Hx1 Wx. range_lia. }
      pose proof (absorb_last merged m1 y Wmg Wm1 Hy (λ a Ha, conj (Hbm a Ha) (Hm1 a Ha))) as Habs.
      rewrite Hlast in Habs. destruct Habs as (? & ? & ? & Hend).
      split_and!; try done. intros a Ha. unfold range_sep.
      assert (y ∈ m1) by (apply last_Some in Hy as [? ->]; set_solver).
      destruct Hend as [-> | ->]; [by apply Hm2|by apply Hsep12].
    - injection Hlast as <-. apply last_None in Hy as ->.
      split_and!; try done. intros v. rewrite in_ranges_nil. tauto. }
  split.
  - apply ranges_wf_app. split_and!; [done| |].
    + apply ranges_wf_cons. split_and!; [done|done|by apply Forall_forall].
    + intros a b Ha. rewrite elem_of_cons. intros [->|Hb2].
      * specialize (Hl1 a Ha). specialize (Hsep1 a x Ha ltac:(set_solver)).
        unfold range_sep in *. rewrite Hb', Hb. destruct (vr_end a); lia.
      * apply Hsep1; set_solver.
  - intros v. rewrite !in_ranges_app, !in_ranges_cons, !in_ranges_app, Hin', Hin. tauto.
Qed.

(** [union_range] computed on a vector split at the insertion point. *)
Lemma union_range_eval l1 x m1 m2 range merged :
  Forall (λ r, ends_before range r = true) l1 → ends_before range x = false →
  VersionRange_merge x range = Ok (Some merged) →
  (match vr_end merged with
   | Some e => Forall (λ r, vr_begin r <=? e = true) m1 ∧ Forall (λ r, vr_begin r <=? e = false) m2
   | None => m2 = []
   end) →
  VersionRanges_union_range (l1 ++ x :: m1 ++ m2) range =
    (merged' ← match last m1 with
               | Some y => VersionRange_merge_unchecked merged y
               | None => Ok merged
               end; Ok (l1 ++ merged' :: m2)).
Proof.
  intros Hl1 Hx Hmerge Hm. unfold VersionRanges_union_range.
  rewrite (partition_point_exact _ l1), length_app by (cbn; auto). cbn [length].
  rewrite decide_False by lia. rewrite list_lookup_middle by done. cbn [expect mbind outcome_bind].
  rewrite Hmerge. cbn [mbind outcome_bind].
  assert (drop (length l1 + 1) (l1 ++ x :: m1 ++ m2) = m1 ++ m2) as Hd.
  { rewrite drop_app_add. done. }
  set (fno := match vr_end merged with None => _ | Some _ => _ end).
  assert (fno = length l1 + 1 + length m1)%nat as Hfno.
  { subst fno. destruct (vr_end merged) as [e|].
    - rewrite Hd. destruct Hm as [H1 H2]. rewrite (partition_point_exact_Forall _ m1 m2); auto.
    - subst. rewrite length_app. cbn. lia. }
  clearbody fno. subst fno.
  assert (∀ r', take (length l1 + 1) (<[length l1:=r']> (l1 ++ x :: m1 ++ m2)) ++
     drop (length l1 + 1 + length m1) (<[length l1:=r']> (l1 ++ x :: m1 ++ m2)) =
     l1 ++ r' :: m2) as Hres.
  { intros r'. rewrite list_insert_middle by done. rewrite take_app_add, drop_app_add'. cbn.
    rewrite take_0, drop_app_length, <- app_assoc. done. }
  destruct (last m1) as [y|] eqn:Hy.
  - apply last_Some in Hy as [m1' ->]. rewrite length_app. cbn [length].
    rewrite decide_True by lia.
    replace (length l1 + 1 + (length m1' + 1) - 1)%nat with (length l1 + S (length m1'))%nat by lia.
    rewrite lookup_app_r by lia.
    replace (length l1 + S (length m1') - length l1)%nat with (S (length m1')) by lia.
    cbn [lookup list_lookup].
    rewrite (lookup_app_l (m1' ++ [y])) by (rewrite length_app; cbn; lia).
    rewrite list_lookup_middle by done. cbn [expect mbind outcome_bind].
    destruct (VersionRange_merge_unchecked merged y); [|done]. cbn [mbind outcome_bind]. f_equal.
    rewrite <- Hres. by rewrite length_app.
  - apply last_None in Hy as ->. rewrite decide_False by (cbn; lia). cbn [mbind outcome_bind].
    f_equal. apply Hres.
Qed.

(** Inserting a range keeps the invariant and adds exactly its versions. *)
Lemma union_range_spec l range :
  ranges_wf l → range_wf range →
  returns (VersionRanges_union_range l range) (λ l',
    ranges_wf l' ∧ ∀ v, v ∈ᵣ l' ↔ v ∈ᵣ l ∨ in_range v range).
Proof.
  intros W Wr.
  destruct (ends_before_partitioned l range W) as (l1 & [|x l2] & -> & Hl1 & Hl2).
  - rewrite app_nil_r in *. unfold VersionRanges_union_range.
    pose proof (partition_point_exact (ends_before range) l1 [] Hl1 I) as Hp.
    rewrite app_nil_r in Hp. rewrite Hp, decide_True by done.
    cbn. rewrite ranges_wf_snoc. split; [|intros; by rewrite in_ranges_app, in_ranges_singleton].
    split_and!; [done|done|]. by apply ends_before_sep.
  - apply Forall_cons in Hl2 as [Hx _]. pose proof W as W'.
    apply ranges_wf_app in W' as (_ & W' & Hsep). apply ranges_wf_cons in W' as (Wx & Wl2 & Hsepx).
    pose proof (VersionRange_merge_spec x range Wx Wr) as Hspec.
    destruct (VersionRange_merge x range) as [[merged|]|] eqn:Hm; [| |done].
    + assert (∃ m1 m2, l2 = m1 ++ m2 ∧
        match vr_end merged with
        | Some e => Forall (λ r, vr_begin r <=? e = true) m1 ∧
                    Forall (λ r, vr_begin r <=? e = false) m2
        | None => m2 = []
        end) as (m1 & m2 & -> & Hm12).
      { destruct (vr_end merged) as [e|]; [by apply begins_by_partitioned|].
        exists l2, []. by rewrite app_nil_r. }
      erewrite union_range_eval by done.
      destruct Hspec as (Wm & _ & Hb & He). apply ranges_wf_app in Wl2 as (Wm1 & _ & _).
      pose proof (absorb_opt_ok merged m1 Wm Wm1) as [merged' Hm'].
      rewrite Hm'. cbn. eapply union_range_shape; try done.
      * by apply ends_before_sep.
      * intros a Ha. destruct (vr_end merged); [|done]. destruct Hm12 as [Hm12 _].
        rewrite Forall_forall in Hm12. by apply N.leb_le, Hm12.
      * intros a Ha. destruct (vr_end merged); [|subst; set_solver]. destruct Hm12 as [_ Hm12].
        rewrite Forall_forall in Hm12. by apply N.leb_gt, Hm12.
    + unfold VersionRanges_union_range.
      rewrite (partition_point_exact _ l1) by auto. rewrite length_app. cbn [length].
      rewrite decide_False by lia. rewrite list_lookup_middle by done.
      cbn [expect mbind outcome_bind]. rewrite Hm. cbn [mbind outcome_bind returns].
      rewrite take_app_length, drop_app_length.
      split; [|intros v; rewrite !in_ranges_app, !in_ranges_cons; tauto].
      destruct Hspec as [Hs|Hs]; [exfalso; unfold ends_before in Hx; range_lia; done|].
      apply insert_between; auto. by apply ends_before_sep.
Qed.

(** ** [union] and [intersect] *)

(** [seq] consumes the elements of [l1] and of [l2] in their order. *)
Inductive interleave {A} : list A → list A → list A → Prop :=
| interleave_nil : interleave [] [] []
| interleave_l x l1 l2 seq : interleave l1 l2 seq → interleave (x :: l1) l2 (x :: seq)
| interleave_r x l1 l2 seq : interleave l1 l2 seq → interleave l1 (x :: l2) (x :: seq).

Lemma interleave_elem {A} (l1 l2 seq : list A) x :
  interleave l1 l2 seq → x ∈ seq ↔ x ∈ l1 ∨ x ∈ l2.
Proof. induction 1; set_solver. Qed.

Lemma interleave_nil_l {A} (l : list A) : interleave [] l l.
Proof. induction l; by constructor. Qed.

Lemma interleave_nil_r {A} (l : list A) : interleave l [] l.
Proof. induction l; by constructor. Qed.

Lemma merge_order_interleave l1 l2 : interleave l1 l2 (merge_order l1 l2).
Proof.
  revert l2; induction l1 as [|x l1 IH1]; intros l2.
  { destruct l2; simpl; [constructor|apply interleave_nil_l]. }
  induction l2 as [|y l2 IH2]; simpl; [apply interleave_nil_r|].
  destruct (VersionRange_lt x y); constructor; [apply IH1|apply IH2].
Qed.

Definition begins_le (a b : VersionRange) : Prop := vr_begin a ≤ vr_begin b.

Global Instance begins_le_trans : Transitive begins_le.
Proof. unfold begins_le. intros ???. lia. Qed.

Lemma VersionRange_lt_begins a b :
  (VersionRange_lt a b = true → begins_le a b) ∧
  (VersionRange_lt a b = false → begins_le b a).
Proof.
  unfold VersionRange_lt, VersionRange_cmp, begins_le.
  destruct (N.compare_spec (vr_begin a) (vr_begin b)); split; intros; try done; lia.
Qed.

Lemma ranges_wf_begins l : ranges_wf l → StronglySorted begins_le l.
Proof.
  intros [Hw Hs]. induction Hs as [|x l Hs IH Hsep]; constructor.
  - apply IH. by inversion Hw.
  - inversion_clear Hw as [|?? Wx Wl]. eapply Forall_impl; [exact Hsep|].
    intros y Hy. unfold begins_le. range_lia.
Qed.

Lemma merge_order_sorted l1 l2 :
  StronglySorted begins_le l1 → StronglySorted begins_le l2 →
  StronglySorted begins_le (merge_order l1 l2).
Proof.
  intros H1. revert l2; induction H1 as [|x l1 Hs1 IH1 Hx]; intros l2 H2.
  { destruct l2; done. }
  induction H2 as [|y l2 Hs2 IH2 Hy]; simpl; [by constructor|].
  destruct (VersionRange_lt x y) eqn:E; apply VersionRange_lt_begins in E.
  - constructor; [apply IH1; by constructor|]. apply Forall_forall. intros z.
    rewrite (interleave_elem _ _ _ _ (merge_order_interleave _ _)), elem_of_cons.
    rewrite !Forall_forall in *. intros [?|[->|?]]; auto. etrans; [exact E|auto].
  - constructor; [exact IH2|]. apply Forall_forall. intros z.
    rewrite (interleave_elem _ _ _ _ (merge_order_interleave (x :: l1) l2)), elem_of_cons.
    rewrite !Forall_forall in *. intros [[->|?]|?]; auto. etrans; [exact E|auto].
Qed.

Lemma union_loop_spec seq p out :
  StronglySorted begins_le (p :: seq) → Forall range_wf seq → ranges_wf (out ++ [p]) →
  returns (union_loop seq (Some p) out) (λ '(p', out'), ∃ last, p' = Some last ∧
    ranges_wf (out' ++ [last]) ∧
    ∀ v, v ∈ᵣ (out' ++ [last]) ↔ v ∈ᵣ (out ++ [p]) ∨ v ∈ᵣ seq).
Proof.
  revert p out. induction seq as [|s seq IH]; intros p out Hs Hw Wo; simpl.
  { exists p. split_and!; [done|done|]. intros v. rewrite in_ranges_nil. tauto. }
  apply StronglySorted_cons in Hs as [Hp Hs]. apply StronglySorted_cons in Hs as [Hs1 Hs].
  apply Forall_cons in Hp as [Hps Hp]. apply Forall_cons in Hw as [Ws Hw].
  pose proof Wo as Wo'. apply ranges_wf_snoc in Wo' as (Wout & Wp & Hsep).
  pose proof (VersionRange_merge_spec p s Wp Ws) as Hm.
  destruct (VersionRange_merge p s) as [[m|]|]; [| |done]; cbn in Hm |- *.
  - destruct Hm as (Wm & Hin & Hb & _).
    assert (vr_begin m = vr_begin p) as Hbm by (unfold begins_le in *; lia).
    eapply returns_mono; [apply IH|].
    + constructor; [done|]. unfold begins_le in *. by rewrite Hbm.
    + done.
    + apply ranges_wf_snoc. split_and!; [done|done|]. intros x Hx. specialize (Hsep x Hx).
      unfold range_sep in *. by rewrite Hbm.
    + intros [p' out'] (last & -> & W & Hv). exists last. split_and!; [done|done|].
      intros v. rewrite Hv, !in_ranges_app, !in_ranges_singleton, in_ranges_cons, Hin. tauto.
  - assert (range_sep p s) as Hsep2.
    { destruct Hm as [?|Hsp]; [done|]. exfalso. unfold begins_le in Hps. clear -Hsp Hps Wp Ws.
      range_lia. }
    eapply returns_mono; [apply IH|].
    + by constructor.
    + done.
    + rewrite ranges_wf_snoc. split_and!; [done|done|]. intros x.
      rewrite elem_of_app, list_elem_of_singleton. intros [Hx| ->]; [|done].
      specialize (Hsep x Hx). clear -Hsep Hsep2 Wp. range_lia.
    + intros [p' out'] (last & -> & W & Hv). exists last. split_and!; [done|done|].
      intros v. rewrite Hv, !in_ranges_app, !in_ranges_singleton, in_ranges_cons. tauto.
Qed.

Lemma union_spec l1 l2 :
  ranges_wf l1 → ranges_wf l2 →
  returns (VersionRanges_union l1 l2) (λ l,
    ranges_wf l ∧ ∀ v, v ∈ᵣ l ↔ v ∈ᵣ l1 ∨ v ∈ᵣ l2).
Proof.
  intros W1 W2. unfold VersionRanges_union.
  pose proof (merge_order_interleave l1 l2) as Hil.
  pose proof (merge_order_sorted l1 l2 (ranges_wf_begins _ W1) (ranges_wf_begins _ W2)) as Hs.
  assert (Forall range_wf (merge_order l1 l2)) as Hw.
  { apply Forall_forall. intros x. rewrite (interleave_elem _ _ _ x Hil).
    intros [?|?]; [by eapply (ranges_wf_elem l1)|by eapply (ranges_wf_elem l2)]. }
  assert (∀ v, v ∈ᵣ merge_order l1 l2 ↔ v ∈ᵣ l1 ∨ v ∈ᵣ l2) as Hv.
  { intros v. rewrite !in_ranges_elem. setoid_rewrite (interleave_elem _ _ _ _ Hil). naive_solver. }
  destruct (merge_order l1 l2) as [|p seq]; simpl.
  { cbn. split; [apply ranges_wf_nil|done]. }
  apply Forall_cons in Hw as [Wp Hw].
  eapply returns_bind; [apply (union_loop_spec seq p []); [done|done|by apply ranges_wf_singleton]|].
  intros [p' out] (last & -> & W & Hin). cbn. split; [done|].
  intros v. rewrite Hin, <- Hv, in_ranges_cons. simpl. rewrite in_ranges_singleton. tauto.
Qed.

(** [q] ends no later than [p]. *)
Definition ends_le (q p : VersionRange) : Prop :=
  match vr_end q, vr_end p with
  | Some eq_, Some ep => eq_ ≤ ep
  | None, Some _ => False
  | _, None => True
  end.

Lemma ends_le_trans a b c : ends_le a b → ends_le b c → ends_le a c.
Proof. unfold ends_le. range_lia. Qed.

Lemma range_wf_begin r : range_wf r → in_range (vr_begin r) r.
Proof. range_lia. Qed.

(** A range included in [a] ends before whatever [a] ends before. *)
Lemma sub_range_sep o a s :
  range_wf o → (∀ v, in_range v o → in_range v a) → range_sep a s → range_sep o s.
Proof.
  intros Wo Hsub Hsep. destruct o as [bo [eo|]], a as [ba [ea|]], s as [bs es]; unfold range_sep in *;
    cbn in *; try done.
  - specialize (Hsub (eo - 1)). unfold in_range, range_wf in *; cbn in *. lia.
  - specialize (Hsub (N.max bo ea)). unfold in_range, range_wf in *; cbn in *. lia.
Qed.

(** The loop invariant of [intersect]: [ca] and [cb] are the consumed prefixes of the two
    vectors, [p] the consumed range with the largest end, [out] the intersections so far. *)
Record intersect_inv (ca cb : list VersionRange) (p : VersionRange)
  (out : list VersionRange) : Prop := {
  ii_out_wf : ranges_wf out;
  ii_out : ∀ v, v ∈ᵣ out ↔ v ∈ᵣ ca ∧ v ∈ᵣ cb;
  ii_src : ∀ o, o ∈ out →
    (∃ a, a ∈ ca ∧ ∀ v, in_range v o → in_range v a) ∧
    (∃ b, b ∈ cb ∧ ∀ v, in_range v o → in_range v b);
  ii_p : p ∈ ca ∨ p ∈ cb;
  ii_max : ∀ q, q ∈ ca ∨ q ∈ cb → ends_le q p;
}.

Lemma intersect_inv_sym ca cb p out : intersect_inv ca cb p out → intersect_inv cb ca p out.
Proof.
  intros [Wo Hout Hsrc Hp Hmax]; split; [done| | | |].
  - intros v. rewrite Hout. tauto.
  - intros o Ho. destruct (Hsrc o Ho). auto.
  - tauto.
  - intros q Hq. apply Hmax. tauto.
Qed.


Lemma max_by_end_max r1 r2 :
  (max_by_end r1 r2 = r1 ∨ max_by_end r1 r2 = r2) ∧
  ends_le r1 (max_by_end r1 r2) ∧ ends_le r2 (max_by_end r1 r2).
Proof.
  unfold max_by_end, end_cmp, ends_le.
  destruct r1 as [b1 [e1|]], r2 as [b2 [e2|]]; cbn; try destruct (N.compare_spec e1 e2);
    cbn; split_and!; auto; lia.
Qed.

(** One iteration, for the next range [s] taken from the first vector. *)
Lemma intersect_step ca cb p out s :
  intersect_inv ca cb p out → ranges_wf (ca ++ [s]) → ranges_wf cb →
  (∀ q, q ∈ ca ∨ q ∈ cb → begins_le q s) →
  returns (VersionRange_intersect p s) (λ i,
    match i with
    | Some x => intersect_inv (ca ++ [s]) cb (max_by_end p s) (out ++ [x])
    | None => intersect_inv (ca ++ [s]) cb s out
    end).
Proof.
  intros [Wo Hout Hsrc Hp Hmax] Wca Wcb Hbeg.
  apply ranges_wf_snoc in Wca as (Wca & Ws & Hsep).
  assert (range_wf p) as Wp by (destruct Hp; eauto using ranges_wf_elem).
  pose proof (Hbeg p Hp) as Hbp.
  (* from [s] on, whatever was consumed is covered by [p] *)
  assert (∀ v, in_range v s → v ∈ᵣ cb → in_range v p) as Hcb.
  { intros v Hv (q & Hq & Hqv)%in_ranges_elem. specialize (Hmax q (or_intror Hq)).
    unfold begins_le, ends_le in *. clear -Hv Hqv Hmax Hbp. range_lia. }
  assert (p ∈ ca → ∀ v, in_range v s → in_range v p → False) as Hdisj.
  { intros Hpa v Hv Hpv. specialize (Hsep p Hpa). clear -Hv Hpv Hsep. range_lia. }
  assert (∀ v, in_range v s → in_range v p → v ∈ᵣ cb) as Hcb'.
  { intros v Hv Hpv. destruct Hp as [Hp|Hp]; [by edestruct Hdisj|apply in_ranges_elem; eauto]. }
  pose proof (VersionRange_intersect_spec p s Wp Ws) as Hi.
  destruct (VersionRange_intersect p s) as [[x|]|]; [| |done]; cbn in Hi |- *.
  - destruct Hi as (Wx & Hx & Hbx). destruct (max_by_end_max p s) as (Hsel & Hmp & Hms).
    assert (p ∈ cb) as Hpb.
    { destruct Hp as [Hp|]; [|done]. exfalso. apply (Hdisj Hp (vr_begin x)); apply Hx;
        by apply range_wf_begin. }
    split.
    + apply ranges_wf_snoc. split_and!; [done|done|]. intros o Ho.
      destruct (Hsrc o Ho) as [(a & Ha & Hoa) _].
      eapply (sub_range_sep o a); [exact (ranges_wf_elem _ _ Wo Ho)|done|].
      specialize (Hsep a Ha). unfold range_sep, begins_le in *.
      replace (vr_begin x) with (vr_begin s) by lia. done.
    + intros v. rewrite !in_ranges_app, !in_ranges_singleton, Hout, Hx.
      specialize (Hcb v). specialize (Hcb' v). tauto.
    + intros o. rewrite elem_of_app, list_elem_of_singleton. intros [Ho| ->].
      * destruct (Hsrc o Ho) as [(a & ? & ?) (b & ? & ?)]. set_solver.
      * split; [exists s|exists p]; (split; [set_solver|]); intros v Hv%Hx; tauto.
    + destruct Hsel as [-> | ->]; set_solver.
    + intros q. rewrite elem_of_app, list_elem_of_singleton.
      intros [[Hq| ->]|Hq]; eauto using ends_le_trans.
  - assert (ends_le p s) as Hps.
    { specialize (Hi (vr_begin s)). unfold ends_le, begins_le in *. clear -Hi Hbp Ws. range_lia. }
    split; [done| | | |].
    + intros v. rewrite in_ranges_app, in_ranges_singleton, Hout.
      specialize (Hcb v). specialize (Hi v). tauto.
    + intros o Ho. destruct (Hsrc o Ho) as [(a & ? & ?) ?]. set_solver.
    + set_solver.
    + intros q. rewrite elem_of_app, list_elem_of_singleton.
      intros [[Hq| ->]|Hq]; eauto using ends_le_trans. unfold ends_le. destruct (vr_end s); [lia|done].
Qed.

Lemma intersect_loop_spec seq l1 l2 ca cb p out :
  interleave l1 l2 seq → StronglySorted begins_le seq →
  ranges_wf (ca ++ l1) → ranges_wf (cb ++ l2) →
  (∀ q s, q ∈ ca ∨ q ∈ cb → s ∈ seq → begins_le q s) →
  intersect_inv ca cb p out →
  returns (intersect_loop seq (Some p) out) (λ l,
    ranges_wf l ∧ ∀ v, v ∈ᵣ l ↔ v ∈ᵣ (ca ++ l1) ∧ v ∈ᵣ (cb ++ l2)).
Proof.
  intros Hil. revert ca cb p out.
  induction Hil as [|s l1 l2 seq Hil IH|s l1 l2 seq Hil IH];
    intros ca cb p out Hs W1 W2 Hbeg Hinv; simpl.
  - rewrite !app_nil_r. destruct Hinv; auto.
  - apply StronglySorted_cons in Hs as [Hss Hs]. rewrite Forall_forall in Hss.
    rewrite (cons_middle s ca l1), (assoc_L (++)) in W1 |- *. pose proof W1 as W1'.
    apply ranges_wf_app in W1' as (Wca & _). pose proof W2 as Wcb. apply ranges_wf_app in Wcb as [Wcb _].
    eapply returns_bind.
    { apply (intersect_step ca cb p out s); auto. intros q Hq. apply Hbeg; set_solver. }
    assert (∀ q s', q ∈ ca ++ [s] ∨ q ∈ cb → s' ∈ seq → begins_le q s') as Hbeg'.
    { intros q s'. rewrite elem_of_app, list_elem_of_singleton.
      intros [[?| ->]|?] ?; [apply Hbeg| |apply Hbeg]; set_solver. }
    intros [x|] Hi; apply IH; auto.
  - apply StronglySorted_cons in Hs as [Hss Hs]. rewrite Forall_forall in Hss.
    rewrite (cons_middle s cb l2), (assoc_L (++)) in W2 |- *. pose proof W2 as W2'.
    apply ranges_wf_app in W2' as (Wcb & _). pose proof W1 as Wca. apply ranges_wf_app in Wca as [Wca _].
    eapply returns_bind.
    { apply (intersect_step cb ca p out s); auto using intersect_inv_sym.
      intros q Hq. apply Hbeg; set_solver. }
    assert (∀ q s', q ∈ ca ∨ q ∈ cb ++ [s] → s' ∈ seq → begins_le q s') as Hbeg'.
    { intros q s'. rewrite elem_of_app, list_elem_of_singleton.
      intros [?|[?| ->]] ?; [apply Hbeg|apply Hbeg|]; set_solver. }
    intros [x|] Hi%intersect_inv_sym; apply IH; auto.
Qed.

Lemma intersect_inv_first s : range_wf s → intersect_inv [s] [] s [].
Proof.
  split; [apply ranges_wf_nil| | | |]; intros; rewrite ?in_ranges_nil; try set_solver.
  assert (q = s) as -> by set_solver. unfold ends_le. destruct (vr_end s); [lia|done].
Qed.

Lemma intersect_spec l1 l2 :
  ranges_wf l1 → ranges_wf l2 →
  returns (VersionRanges_intersect l1 l2) (λ l,
    ranges_wf l ∧ ∀ v, v ∈ᵣ l ↔ v ∈ᵣ l1 ∧ v ∈ᵣ l2).
Proof.
  intros W1 W2. unfold VersionRanges_intersect.
  pose proof (merge_order_interleave l1 l2) as Hil.
  pose proof (merge_order_sorted l1 l2 (ranges_wf_begins _ W1) (ranges_wf_begins _ W2)) as Hs.
  destruct Hil as [|s l1 l2 seq Hil|s l1 l2 seq Hil]; simpl.
  - split; [apply ranges_wf_nil|]. intros v. rewrite in_ranges_nil. tauto.
  - apply StronglySorted_cons in Hs as [Hss Hs]. rewrite Forall_forall in Hss.
    apply (intersect_loop_spec seq l1 l2 [s] []); auto; [set_solver|].
    apply intersect_inv_first. eapply ranges_wf_elem; [exact W1|set_solver].
  - apply StronglySorted_cons in Hs as [Hss Hs]. rewrite Forall_forall in Hss.
    apply (intersect_loop_spec seq l1 l2 [] [s]); auto; [set_solver|].
    apply intersect_inv_sym, intersect_inv_first. eapply ranges_wf_elem; [exact W2|set_solver].
Qed.

Lemma intersect_in_place_spec l1 l2 :
  ranges_wf l1 → ranges_wf l2 →
  returns (VersionRanges_intersect_in_place l1 l2) (λ l,
    ranges_wf l ∧ ∀ v, v ∈ᵣ l ↔ v ∈ᵣ l1 ∧ v ∈ᵣ l2).
Proof.
  intros W1 W2. unfold VersionRanges_intersect_in_place. case_decide as E.
  - cbn. subst. split; [done|]. tauto.
  - by apply intersect_spec.
Qed.

(** ** [intersect_range] *)

Lemma clip_end_rev_spec l e :
  ranges_wf l →
  ranges_wf (reverse (clip_end_rev (reverse l) e)) ∧
  ∀ v, v ∈ᵣ reverse (clip_end_rev (reverse l) e) ↔ v ∈ᵣ l ∧ v < e.
Proof.
  induction l as [|r l IH] using rev_ind; intros W.
  { cbn. split; [done|]. intros v. rewrite in_ranges_nil. tauto. }
  rewrite reverse_snoc. apply ranges_wf_snoc in W as (Wl & Wr & Hsep). simpl.
  assert (∀ v, v ∈ᵣ l → v < vr_begin r) as Hlow.
  { intros v (x & Hx & Hv)%in_ranges_elem. specialize (Hsep x Hx). clear -Hsep Hv. range_lia. }
  destruct (N.ltb_spec (vr_begin r) e) as [Hlt|Hge].
  - set (r' := match vr_end r with
               | Some this_end => if this_end <? e then r else mkRange (vr_begin r) (Some e)
               | None => mkRange (vr_begin r) (Some e) end).
    replace (match vr_end r with Some _ => _ | None => _ end) with (r' :: reverse l)
      by (subst r'; repeat case_match; done).
    rewrite reverse_cons, reverse_involutive.
    assert (vr_begin r' = vr_begin r ∧ range_wf r' ∧ ∀ v, in_range v r' ↔ in_range v r ∧ v < e)
      as (Hb & Wr' & Hr') by (subst r'; clear -Hlt Wr; split_and!; [| |intros v]; range_lia).
    split.
    + apply ranges_wf_snoc. split_and!; [done|done|]. intros x Hx. unfold range_sep in *.
      rewrite Hb. by apply Hsep.
    + intros v. rewrite !in_ranges_app, !in_ranges_singleton, Hr'.
      specialize (Hlow v). split; [|tauto]. intros [Hv|?]; [|tauto].
      split; [tauto|]. specialize (Hlow Hv). lia.
  - destruct (IH Wl) as [W' Hv']. split; [done|]. intros v.
    rewrite Hv', in_ranges_app, in_ranges_singleton. split; [tauto|].
    intros [[?|Hr] ?]; [tauto|]. clear -Hr Hge H. exfalso. range_lia.
Qed.

Lemma clip_begin_spec l b :
  ranges_wf l →
  ranges_wf (clip_begin l b) ∧ ∀ v, v ∈ᵣ clip_begin l b ↔ v ∈ᵣ l ∧ b ≤ v.
Proof.
  induction l as [|r l IH]; intros W; simpl.
  { split; [done|]. intros v. rewrite in_ranges_nil. tauto. }
  apply ranges_wf_cons in W as (Wr & Wl & Hsep).
  assert (∀ v, v ∈ᵣ l → ∃ e, vr_end r = Some e ∧ e < v) as Hhigh.
  { intros v (x & Hx & Hv)%in_ranges_elem. rewrite Forall_forall in Hsep.
    specialize (Hsep x Hx). unfold range_sep in Hsep. destruct (vr_end r) as [e|]; [|done].
    exists e. split; [done|]. destruct Hv. lia. }
  destruct (match vr_end r with Some e => e <=? b | None => false end) eqn:E.
  - destruct (IH Wl) as [W' Hv']. split; [done|]. intros v. rewrite Hv', in_ranges_cons.
    split; [tauto|]. intros [[Hr|?] ?]; [|tauto]. exfalso. clear -Hr E H. range_lia.
  - assert (b ≤ vr_begin r ∨ match vr_end r with Some e => b < e | None => True end) as Hbe
      by (clear -E; range_lia; done).
    split.
    + apply ranges_wf_cons. split_and!; [|done|].
      * clear -Wr E. range_lia; done.
      * eapply Forall_impl; [exact Hsep|]. intros x. unfold range_sep. by destruct (vr_begin r <? b).
    + intros v. rewrite !in_ranges_cons.
      assert (v ∈ᵣ l → b ≤ v) as Hl.
      { intros (e & He & ?)%Hhigh. rewrite He in E. apply N.leb_gt in E. lia. }
      assert (in_range v (if vr_begin r <? b then mkRange b (vr_end r) else r) ↔
              in_range v r ∧ b ≤ v) as -> by (clear; range_lia).
      tauto.
Qed.

(** Every version of the set lies between the first beginning and the last end. *)
Lemma ranges_wf_bounds l first last_ v :
  ranges_wf l → head l = Some first → last l = Some last_ → v ∈ᵣ l →
  vr_begin first ≤ v ∧ match vr_end last_ with Some e => v < e | None => True end.
Proof.
  intros W Hf Hl (x & Hx & Hv)%in_ranges_elem. split.
  - apply ranges_wf_begins in W. destruct l as [|f l]; [done|]. injection Hf as ->.
    apply StronglySorted_cons in W as [W _]. rewrite Forall_forall in W. destruct Hv as [Hv _].
    apply elem_of_cons in Hx as [->|Hx]; [done|]. specialize (W x Hx). unfold begins_le in W. lia.
  - apply last_Some in Hl as [l' ->]. apply ranges_wf_snoc in W as (_ & Wl & Hsep).
    apply elem_of_app in Hx as [Hx|Hx%list_elem_of_singleton]; [|subst; apply Hv].
    specialize (Hsep x Hx). clear -Wl Hsep Hv. range_lia.
Qed.

(** Restricting to a range keeps the invariant and exactly the versions of the range; the flag
    is only [false] when nothing had to be removed. *)
Lemma intersect_range_spec l range :
  ranges_wf l → range_wf range →
  returns (VersionRanges_intersect_range l range) (λ '(l', changed),
    ranges_wf l' ∧ (∀ v, v ∈ᵣ l' ↔ v ∈ᵣ l ∧ in_range v range) ∧
    (changed = false → l' = l)).
Proof.
  intros W Wr. unfold VersionRanges_intersect_range.
  destruct l as [|first l]; [cbn; split_and!; [done| |done]; intros; rewrite in_ranges_nil; tauto|].
  cbn [VersionRanges_is_empty head expect mbind outcome_bind].
  destruct (last (first :: l)) as [last_|] eqn:Hlast; [|by apply last_None in Hlast].
  cbn [expect mbind outcome_bind].
  destruct (_ && _) eqn:Hcov; cbn [returns].
  - split_and!; [done| |done]. intros v. split; [|tauto]. intros Hv. split; [done|].
    apply andb_true_iff in Hcov as [Hb He]. apply N.leb_le in Hb.
    eapply (ranges_wf_bounds _ first last_) in Hv; [|done..].
    clear -Hv Hb He. unfold in_range in *. range_lia; done.
  - set (l' := match vr_end range with Some e => _ | None => first :: l end).
    assert (ranges_wf l' ∧ ∀ v, v ∈ᵣ l' ↔ v ∈ᵣ (first :: l) ∧
              match vr_end range with Some e => v < e | None => True end) as [W' Hv'].
    { subst l'. destruct (vr_end range); [by apply clip_end_rev_spec|]. split; [done|]. tauto. }
    destruct (clip_begin_spec l' (vr_begin range) W') as [W'' Hv'']. split_and!; [done| |done].
    intros v. rewrite Hv'', Hv'. unfold in_range. tauto.
Qed.

(** The flag for a prefix range [[0, e)]: whether some version at or after [e] was removed. *)
Lemma intersect_range_flag l e l' changed :
  ranges_wf l → 0 < e → VersionRanges_intersect_range l (mkRange 0 (Some e)) = Ok (l', changed) →
  changed = true ↔ ∃ v, v ∈ᵣ l ∧ e ≤ v.
Proof.
  intros W He. unfold VersionRanges_intersect_range.
  destruct l as [|first l].
  { cbn. intros [= <- <-]. split; [done|]. intros (v & Hv & _). by apply in_ranges_nil in Hv. }
  cbn [VersionRanges_is_empty head expect mbind outcome_bind vr_begin vr_end].
  destruct (last (first :: l)) as [last_|] eqn:Hlast; [|by apply last_None in Hlast].
  cbn [expect mbind outcome_bind]. rewrite (proj2 (N.leb_le 0 _)) by lia. cbn [andb].
  assert (range_wf last_ ∧ ∀ v, in_range v last_ → v ∈ᵣ (first :: l)) as [Wlast Hin].
  { apply last_Some in Hlast as [l0 E]. rewrite E in *. apply ranges_wf_snoc in W as (_ & ? & _).
    split; [done|]. intros v ?. rewrite in_ranges_app, in_ranges_singleton. auto. }
  destruct (vr_end last_) as [le|] eqn:Ele.
  - destruct (N.leb_spec le e); intros [= _ <-].
    + split; [done|]. intros (v & Hv & ?). eapply (ranges_wf_bounds _ first last_) in Hv; [|done..].
      rewrite Ele in Hv. lia.
    + split; [|done]. intros _. exists (N.max e (vr_begin last_)). split; [|lia].
      apply Hin. unfold in_range, range_wf in *. rewrite Ele in *. lia.
  - intros [= _ <-]. split; [|done]. intros _. exists (N.max e (vr_begin last_)). split; [|lia].
    apply Hin. unfold in_range. rewrite Ele. split; [lia|done].
Qed.

(** ** The representation is canonical *)

Lemma in_ranges_head_tail r l v :
  ranges_wf (r :: l) → v ∈ᵣ l ↔ v ∈ᵣ (r :: l) ∧ ¬ in_range v r.
Proof.
  intros (Wr & Wl & Hsep)%ranges_wf_cons. rewrite in_ranges_cons. split; [|tauto].
  intros Hv. split; [auto|]. apply in_ranges_elem in Hv as (x & Hx & Hv).
  rewrite Forall_forall in Hsep. specialize (Hsep x Hx). clear -Hsep Hv. range_lia.
Qed.

Lemma ranges_wf_first_gap r l e : ranges_wf (r :: l) → vr_end r = Some e → ¬ e ∈ᵣ (r :: l).
Proof.
  intros (Wr & Wl & Hsep)%ranges_wf_cons He. rewrite in_ranges_cons. intros [Hr|Hl].
  - unfold in_range in Hr. rewrite He in Hr. lia.
  - apply in_ranges_elem in Hl as (x & Hx & [Hv _]). rewrite Forall_forall in Hsep.
    specialize (Hsep x Hx). unfold range_sep in Hsep. rewrite He in Hsep. lia.
Qed.

Lemma ranges_wf_head_le r l v : ranges_wf (r :: l) → v ∈ᵣ (r :: l) → vr_begin r ≤ v.
Proof.
  intros W Hv. destruct (last (r :: l)) as [x|] eqn:E; [|by apply last_None in E].
  exact (proj1 (ranges_wf_bounds _ r x v W eq_refl E Hv)).
Qed.

Lemma ranges_head_eq r1 l1 r2 l2 :
  ranges_wf (r1 :: l1) → ranges_wf (r2 :: l2) →
  (∀ v, v ∈ᵣ (r1 :: l1) ↔ v ∈ᵣ (r2 :: l2)) → r1 = r2.
Proof.
  intros W1 W2 Heq.
  pose proof (proj1 (ranges_wf_cons _ _) W1) as (Wr1 & _ & _).
  pose proof (proj1 (ranges_wf_cons _ _) W2) as (Wr2 & _ & _).
  assert (vr_begin r1 = vr_begin r2) as Hb.
  { apply N.le_antisymm.
    - apply (ranges_wf_head_le _ l1); [done|]. apply Heq, in_ranges_cons.
      left. by apply range_wf_begin.
    - apply (ranges_wf_head_le _ l2); [done|]. apply Heq, in_ranges_cons.
      left. by apply range_wf_begin. }
  assert (∀ e, vr_end r1 = Some e → ¬ in_range e r2) as H12.
  { intros e He Hin. eapply (ranges_wf_first_gap r1 l1); eauto. apply Heq, in_ranges_cons. auto. }
  assert (∀ e, vr_end r2 = Some e → ¬ in_range e r1) as H21.
  { intros e He Hin. eapply (ranges_wf_first_gap r2 l2); eauto. apply Heq, in_ranges_cons. auto. }
  destruct r1 as [b1 e1], r2 as [b2 e2]; cbn in *; subst b2. f_equal.
  unfold in_range, range_wf in *. destruct e1 as [e1|], e2 as [e2|]; cbn in *.
  - specialize (H12 _ eq_refl). specialize (H21 _ eq_refl). f_equal. lia.
  - specialize (H12 _ eq_refl). lia.
  - specialize (H21 _ eq_refl). lia.
  - done.
Qed.

(** Two vectors that satisfy the invariant and denote the same versions are equal. *)
Lemma ranges_wf_ext l1 l2 :
  ranges_wf l1 → ranges_wf l2 → (∀ v, v ∈ᵣ l1 ↔ v ∈ᵣ l2) → l1 = l2.
Proof.
  assert (∀ r l, ranges_wf (r :: l) → (∀ v, v ∈ᵣ (r :: l) ↔ v ∈ᵣ []) → False) as Hnil.
  { intros r l W Heq. apply (in_ranges_nil (vr_begin r)), Heq, in_ranges_cons. left.
    apply ranges_wf_cons in W as (? & _). by apply range_wf_begin. }
  revert l2. induction l1 as [|r1 l1 IH]; intros [|r2 l2] W1 W2 Heq; [done| | |].
  - edestruct (Hnil r2 l2); [done|]. naive_solver.
  - edestruct (Hnil r1 l1); done.
  - assert (r1 = r2) as -> by (by eapply ranges_head_eq).
    f_equal. apply IH.
    + by apply ranges_wf_cons in W1 as (_ & ? & _).
    + by apply ranges_wf_cons in W2 as (_ & ? & _).
    + intros v. rewrite (in_ranges_head_tail r2 l1 v W1), (in_ranges_head_tail r2 l2 v W2), Heq. done.
Qed.

Lemma unbounded_spec l : ranges_wf l → unbounded l ↔ ∃ n, ∀ v, n ≤ v → v ∈ᵣ l.
Proof.
  intros W. split.
  - intros (r & [l' ->]%last_Some & He). exists (vr_begin r). intros v Hv.
    rewrite in_ranges_app, in_ranges_singleton. right. unfold in_range. rewrite He. done.
  - intros [n Hn]. destruct (last l) as [r|] eqn:Hr.
    + exists r. split; [done|]. destruct (vr_end r) as [e|] eqn:He; [|done].
      destruct (head l) as [f|] eqn:Hf; [|destruct l; done].
      pose proof (Hn (N.max n e) ltac:(lia)) as Hv.
      apply (ranges_wf_bounds _ f r) in Hv as [_ Hv]; [|done..]. rewrite He in Hv. lia.
    + apply last_None in Hr as ->. specialize (Hn n ltac:(lia)). by apply in_ranges_nil in Hn.
Qed.

Lemma unbounded_in l v u : ranges_wf l → unbounded l → v ∈ᵣ l →
  (∀ r, last l = Some r → vr_begin r ≤ v) → v ≤ u → u ∈ᵣ l.
Proof.
  intros W (r & Hr & He) _ Hb Hu. specialize (Hb r Hr). apply last_Some in Hr as [l' ->].
  rewrite in_ranges_app, in_ranges_singleton. right. unfold in_range. rewrite He. split; [lia|done].
Qed.

Lemma begins_with_wf v : ranges_wf (VersionRange_into_ranges (VersionRange_begins_with v)).
Proof. by apply ranges_wf_singleton. Qed.

Lemma in_begins_with u v :
  u ∈ᵣ VersionRange_into_ranges (VersionRange_begins_with v) ↔ v ≤ u.
Proof. unfold VersionRange_into_ranges. rewrite in_ranges_singleton. unfold in_range. cbn. tauto. Qed.

#[export] Hint Resolve ranges_wf_nil begins_with_wf : dice.

(** * Properties *)

(** Inserting a range into a well-formed set of ranges never panics,
    keeps the set sorted, disjoint and gap-separated, and adds exactly the versions of the
    range; the vector is partitioned for both binary searches the code makes. *)
Theorem insert_range_correct (l : VersionRanges) (range : VersionRange) :
  ranges_wf l → range_wf range →
  ∃ l', VersionRanges_insert l range = Ok l' ∧ ranges_wf l' ∧
    (∀ v, v ∈ᵣ l' ↔ v ∈ᵣ l ∨ in_range v range) ∧
    partitioned (ends_before range) l ∧
    (∀ e, partitioned (λ r, vr_begin r <=? e) l).
Proof.
  intros W Wr.
  pose proof (union_range_spec l range W Wr) as (l' & E & W' & Hv)%returns_Ok. exists l'.
  split_and!; auto using ends_before_partitioned, begins_by_partitioned.
Qed.

Lemma insert_range_correct_witness :
  ∃ l', VersionRanges_insert [mkRange 1 (Some 3); mkRange 5 (Some 7); mkRange 9 None]
          (mkRange 3 (Some 6)) = Ok l' ∧ 2 ∈ᵣ l' ∧ ¬ 8 ∈ᵣ l'.
Proof.
  destruct (insert_range_correct [mkRange 1 (Some 3); mkRange 5 (Some 7); mkRange 9 None]
    (mkRange 3 (Some 6))) as (l' & E & _ & Hv & _).
  - apply (bool_decide_unpack _). vm_compute. exact I.
  - vm_compute. reflexivity.
  - exists l'. split; [exact E|]. rewrite !Hv, !in_ranges_cons, !in_ranges_nil.
    unfold in_range; cbn. split; [left; left; lia|lia].
Defined.

(** The in-place insertion with its binary searches and the linear
    merge of two sorted vectors agree: inserting one range equals the union with the
    singleton set. *)
Theorem union_range_is_union (l : VersionRanges) (range : VersionRange) :
  ranges_wf l → range_wf range →
  VersionRanges_union_range l range = VersionRanges_union l (VersionRange_into_ranges range).
Proof.
  intros W Wr.
  pose proof (union_range_spec l range W Wr) as (l1 & -> & W1 & H1)%returns_Ok.
  pose proof (union_spec l [range] W (proj2 (ranges_wf_singleton _) Wr))
    as (l2 & E2 & W2 & H2)%returns_Ok.
  unfold VersionRange_into_ranges. rewrite E2. f_equal. apply ranges_wf_ext; [done|done|].
  intros v. by rewrite H1, H2, in_ranges_singleton.
Qed.

Lemma union_range_is_union_witness :
  VersionRanges_union_range [mkRange 1 (Some 3); mkRange 5 (Some 7)] (mkRange 2 (Some 5)) =
  VersionRanges_union [mkRange 1 (Some 3); mkRange 5 (Some 7)] [mkRange 2 (Some 5)].
Proof.
  apply (union_range_is_union [mkRange 1 (Some 3); mkRange 5 (Some 7)] (mkRange 2 (Some 5))).
  - apply (bool_decide_unpack _). vm_compute. exact I.
  - vm_compute. reflexivity.
Defined.

(** The linear-time union and intersection of two well-formed sets
    never panic, return well-formed sets, and compute union and intersection of the denoted
    versions. *)
Theorem union_intersect_correct (l1 l2 : VersionRanges) :
  ranges_wf l1 → ranges_wf l2 →
  ∃ u i, VersionRanges_union_in_place l1 l2 = Ok u ∧
    VersionRanges_intersect_in_place l1 l2 = Ok i ∧ ranges_wf u ∧ ranges_wf i ∧
    ∀ v, (v ∈ᵣ u ↔ v ∈ᵣ l1 ∨ v ∈ᵣ l2) ∧ (v ∈ᵣ i ↔ v ∈ᵣ l1 ∧ v ∈ᵣ l2).
Proof.
  intros W1 W2.
  pose proof (union_spec l1 l2 W1 W2) as (u & Eu & Wu & Hu)%returns_Ok.
  pose proof (intersect_in_place_spec l1 l2 W1 W2) as (i & Ei & Wi & Hi)%returns_Ok.
  exists u, i. split_and!; auto.
Qed.

Lemma union_intersect_correct_witness :
  ∃ u i, VersionRanges_union_in_place [mkRange 0 (Some 4); mkRange 6 None] [mkRange 2 (Some 8)]
         = Ok u ∧
    VersionRanges_intersect_in_place [mkRange 0 (Some 4); mkRange 6 None] [mkRange 2 (Some 8)]
         = Ok i ∧ 5 ∈ᵣ u ∧ ¬ 5 ∈ᵣ i.
Proof.
  destruct (union_intersect_correct [mkRange 0 (Some 4); mkRange 6 None] [mkRange 2 (Some 8)])
    as (u & i & Eu & Ei & _ & _ & H).
  - apply (bool_decide_unpack _). vm_compute. exact I.
  - apply (bool_decide_unpack _). vm_compute. exact I.
  - exists u, i. split; [exact Eu|]. split; [exact Ei|]. destruct (H 5) as [-> ->].
    rewrite !in_ranges_cons, !in_ranges_nil. unfold in_range; cbn. split; lia.
Defined.

(** The lookup of the largest verified version at most [v]
    never panics on a well-formed set; it returns that maximum when there is one and [None]
    exactly when every version of the set is greater than [v].  [contains] decides
    membership. *)
Theorem find_value_upper_bound_correct (l : VersionRanges) (v : VersionNumber) :
  ranges_wf l →
  (∃ o, VersionRanges_find_value_upper_bound l v = Ok o ∧
     match o with
     | Some u => u ∈ᵣ l ∧ u ≤ v ∧ ∀ w, w ∈ᵣ l → w ≤ v → w ≤ u
     | None => ∀ w, w ∈ᵣ l → v < w
     end) ∧
  (∃ b, VersionRanges_contains l v = Ok b ∧ (b = true ↔ v ∈ᵣ l)).
Proof.
  intros W. split; [apply returns_Ok; by apply find_value_upper_bound_spec|].
  by apply VersionRanges_contains_spec.
Qed.

Lemma find_value_upper_bound_correct_witness :
  VersionRanges_find_value_upper_bound [mkRange 1 (Some 3); mkRange 5 (Some 7)] 4 = Ok (Some 2) ∧
  (∀ w, w ∈ᵣ [mkRange 1 (Some 3); mkRange 5 (Some 7)] → w ≤ 4 → w ≤ 2).
Proof.
  destruct (find_value_upper_bound_correct [mkRange 1 (Some 3); mkRange 5 (Some 7)] 4)
    as [(o & E & H) _].
  - apply (bool_decide_unpack _). vm_compute. exact I.
  - assert (o = Some 2) as ->.
    { vm_compute in E. injection E as <-. reflexivity. }
    split; [exact E|]. apply H.
Defined.

(** Clipping a well-formed set to a range never panics, keeps it
    well-formed and keeps exactly the versions inside the range.  It returns [false] only when
    the set is unchanged, and for a prefix [[0, e)] it returns [true] exactly when a version at
    or after [e] was removed. *)
Theorem intersect_range_correct (l : VersionRanges) (range : VersionRange) :
  ranges_wf l → range_wf range →
  ∃ l' changed, VersionRanges_intersect_range l range = Ok (l', changed) ∧ ranges_wf l' ∧
    (∀ v, v ∈ᵣ l' ↔ v ∈ᵣ l ∧ in_range v range) ∧
    (changed = false → l' = l) ∧
    (∀ e, range = mkRange 0 (Some e) → changed = true ↔ ∃ v, v ∈ᵣ l ∧ e ≤ v).
Proof.
  intros W Wr. pose proof (intersect_range_spec l range W Wr) as ([l' c] & E & W' & Hv & Hc)%returns_Ok.
  exists l', c. split_and!; auto. intros e ->. eapply intersect_range_flag; eauto.
Qed.

Lemma intersect_range_correct_witness :
  ∃ l' changed,
    VersionRanges_intersect_range [mkRange 1 (Some 3); mkRange 5 None] (mkRange 0 (Some 6))
    = Ok (l', changed) ∧ changed = true ∧ ¬ 6 ∈ᵣ l'.
Proof.
  destruct (intersect_range_correct [mkRange 1 (Some 3); mkRange 5 None] (mkRange 0 (Some 6)))
    as (l' & c & E & _ & Hv & _ & Hf).
  - apply (bool_decide_unpack _). vm_compute. exact I.
  - vm_compute. reflexivity.
  - exists l', c. split; [exact E|]. split.
    + apply (Hf 6); [reflexivity|]. exists 6. split; [|lia].
      rewrite !in_ranges_cons. unfold in_range; cbn. right; left. split; [lia|exact I].
    + rewrite Hv. intros [_ [_ Hlt]]; cbn in Hlt; lia.
Defined.
