(* ===== verification/Values.v ===== *)
(** Values of the DICE graph and the invalidation paths tracked with them, from
    [src/deps/dice/dice/src/impls/value.rs], with the two enumerations of the key API it uses
    ([api/key.rs], [api/storage_type.rs]).

    A value is a trait object; its dynamic [equality] and [validity] are those of the user's
    key type and are the interface [DiceValueDyn] here. *)
From S2P Require Import Prelude Versions.
Local Open Scope N_scope.

(** * Definitions *)

(** [DiceKey] is a [u32] index newtype. *)
Notation DiceKey := N (only parsing).

(** The operations of a type-erased value: [Key::equality] and [Key::validity]. *)
Class DiceValueDyn (V : Type) := {
  value_equality : V → V → bool;
  value_validity : V → bool;
}.

(** Numbers as values, for concrete examples. *)
Definition N_value : DiceValueDyn N := {| value_equality := N.eqb; value_validity := λ _, true |}.

Inductive StorageType := Normal | Injected.
Inductive InvalidationSourcePriority := PriorityIgnored | PriorityNormal | PriorityHigh.

Global Instance StorageType_eq_dec : EqDecision StorageType.
Proof. solve_decision. Defined.
Global Instance InvalidationSourcePriority_eq_dec : EqDecision InvalidationSourcePriority.
Proof. solve_decision. Defined.

Inductive DiceValidity := Valid | Transient.

Global Instance DiceValidity_eq_dec : EqDecision DiceValidity.
Proof. solve_decision. Defined.

Definition DiceValidity_and (self other : DiceValidity) : DiceValidity :=
  match other with Transient => Transient | Valid => self end.

Section MaybeValid.
Context {V : Type} `{!DiceValueDyn V}.

(** [DiceValidValue] wraps a value that is valid; it is represented by the value. *)
Inductive MaybeValidDiceValue :=
| MaybePresent (v : V)
| MaybeTransient (v : V).

Definition MaybeValidDiceValue_new (value : V) (deps_validity : DiceValidity)
  : MaybeValidDiceValue :=
  match (if value_validity value then deps_validity else Transient) with
  | Valid => MaybePresent value
  | Transient => MaybeTransient value
  end.

Definition MaybeValidDiceValue_valid (value : V) : MaybeValidDiceValue := MaybePresent value.

Definition MaybeValidDiceValue_validity (self : MaybeValidDiceValue) : DiceValidity :=
  match self with MaybeTransient _ => Transient | _ => Valid end.

Definition MaybeValidDiceValue_value (self : MaybeValidDiceValue) : V :=
  match self with MaybePresent v | MaybeTransient v => v end.

(** [Ok(valid)] is [inl], [Err(self)] is [inr]. *)
Definition MaybeValidDiceValue_into_valid_value (self : MaybeValidDiceValue)
  : V + MaybeValidDiceValue :=
  match self with
  | MaybePresent v => inl v
  | MaybeTransient v => inr (MaybeTransient v)
  end.
End MaybeValid.
Arguments MaybeValidDiceValue : clear implicits.

(** A chain of keys from a node to the source of its last invalidation. *)
Inductive InvalidationPath :=
| PathClean
| PathUnknown
| PathInvalidated (node : InvalidationPathNode)
with InvalidationPathNode :=
| mkPathNode (key : DiceKey) (version : VersionNumber) (cause : InvalidationPath).

Definition path_key (n : InvalidationPathNode) : DiceKey :=
  match n with mkPathNode k _ _ => k end.
Definition path_version (n : InvalidationPathNode) : VersionNumber :=
  match n with mkPathNode _ v _ => v end.
Definition path_cause (n : InvalidationPathNode) : InvalidationPath :=
  match n with mkPathNode _ _ c => c end.

Definition InvalidationPath_for_dependent (self : InvalidationPath) (key : DiceKey)
  : InvalidationPath :=
  match self with
  | PathClean => PathClean
  | PathUnknown => PathUnknown
  | PathInvalidated v => PathInvalidated (mkPathNode key (path_version v) self)
  end.

Definition InvalidationPath_at_version (self : InvalidationPath) (v : VersionNumber)
  : InvalidationPath :=
  match self with
  | PathInvalidated t => if v <? path_version t then PathUnknown else self
  | _ => self
  end.

Definition InvalidationPath_update (self other : InvalidationPath) : InvalidationPath :=
  match other with
  | PathInvalidated o =>
      match self with
      | PathInvalidated this =>
          if path_version o <? path_version this then self else PathInvalidated o
      | PathUnknown => self
      | PathClean => PathInvalidated o
      end
  | _ => self
  end.

Record TrackedInvalidationPaths := mkPaths {
  paths_normal : InvalidationPath;
  paths_high : InvalidationPath;
}.

Definition TrackedInvalidationPaths_for_dependent (self : TrackedInvalidationPaths)
  (key : DiceKey) : TrackedInvalidationPaths :=
  mkPaths (InvalidationPath_for_dependent (paths_normal self) key)
          (InvalidationPath_for_dependent (paths_high self) key).

Definition TrackedInvalidationPaths_clean : TrackedInvalidationPaths :=
  mkPaths PathClean PathClean.

Definition TrackedInvalidationPaths_at_version (self : TrackedInvalidationPaths)
  (v : VersionNumber) : TrackedInvalidationPaths :=
  mkPaths (InvalidationPath_at_version (paths_normal self) v)
          (InvalidationPath_at_version (paths_high self) v).

Definition TrackedInvalidationPaths_new (priority : InvalidationSourcePriority)
  (key : DiceKey) (version : VersionNumber) : TrackedInvalidationPaths :=
  let path := PathInvalidated (mkPathNode key version PathClean) in
  match priority with
  | PriorityIgnored => TrackedInvalidationPaths_clean
  | PriorityNormal => mkPaths path PathClean
  | PriorityHigh => mkPaths path path
  end.

Definition TrackedInvalidationPaths_update (self new_paths : TrackedInvalidationPaths)
  : TrackedInvalidationPaths :=
  mkPaths (InvalidationPath_update (paths_normal self) (paths_normal new_paths))
          (InvalidationPath_update (paths_high self) (paths_high new_paths)).

(** [valid] is an [Arc<VersionRanges>]: sharing is not observable, every mutation of it in the
    code goes through [Arc::make_mut] or replaces the pointer. *)
Record DiceComputedValue {V : Type} := mkComputed {
  cv_value : MaybeValidDiceValue V;
  cv_valid : VersionRanges;
  cv_invalidation_paths : TrackedInvalidationPaths;
}.
Arguments DiceComputedValue : clear implicits.

Definition DiceComputedValue_new {V} (value : MaybeValidDiceValue V) (valid : VersionRanges)
  (paths : TrackedInvalidationPaths) : DiceComputedValue V := mkComputed V value valid paths.

Definition DiceComputedValue_versions {V} (self : DiceComputedValue V) : VersionRanges :=
  cv_valid self.

Definition DiceComputedValue_into_parts {V} (self : DiceComputedValue V)
  : MaybeValidDiceValue V * TrackedInvalidationPaths :=
  (cv_value self, cv_invalidation_paths self).

(** * Invalidation paths: what a path says *)

(** The source of a path: the key at the end of the cause chain. *)
Fixpoint path_source (p : InvalidationPath) : option DiceKey :=
  match p with
  | PathInvalidated n => node_source n
  | _ => None
  end
with node_source (n : InvalidationPathNode) : option DiceKey :=
  match n with
  | mkPathNode k _ PathClean => Some k
  | mkPathNode _ _ c => path_source c
  end.

(** All nodes of the chain carry the version of its source, and the chain ends [Clean]. *)
Fixpoint path_wf (p : InvalidationPath) : Prop :=
  match p with
  | PathInvalidated n => node_wf n
  | _ => True
  end
with node_wf (n : InvalidationPathNode) : Prop :=
  match n with
  | mkPathNode _ v c =>
      match c with
      | PathClean => True
      | PathUnknown => False
      | PathInvalidated m => path_version m = v ∧ node_wf m
      end
  end.

Definition path_wf_at (p : InvalidationPath) (k : DiceKey) (v : VersionNumber) : Prop :=
  match p with PathInvalidated n => path_version n = v ∧ path_wf p ∧ path_source p = Some k
             | _ => False end.

(** The order in which [update] replaces paths: [Clean], then by version, then [Unknown]. *)
Definition path_rank (p : InvalidationPath) : option (option VersionNumber) :=
  match p with
  | PathClean => None
  | PathInvalidated n => Some (Some (path_version n))
  | PathUnknown => Some None
  end.

Lemma for_dependent_wf p k :
  path_wf p → path_wf (InvalidationPath_for_dependent p k) ∧
  path_source (InvalidationPath_for_dependent p k) = path_source p ∧
  path_rank (InvalidationPath_for_dependent p k) = path_rank p.
Proof. destruct p as [| |[k' v c]]; cbn; auto. Qed.

Lemma path_update_wf p q : path_wf p → path_wf q → path_wf (InvalidationPath_update p q).
Proof. destruct p as [| |m], q as [| |n]; cbn; try done. by case_match. Qed.

Lemma path_at_version_wf p v : path_wf p → path_wf (InvalidationPath_at_version p v).
Proof. destruct p as [| |m]; cbn; try done. by case_match. Qed.

Lemma path_at_version_le p v n :
  InvalidationPath_at_version p v = PathInvalidated n → path_version n ≤ v.
Proof. destruct p as [| |m]; cbn; try done. destruct (N.ltb_spec v (path_version m)); naive_solver. Qed.

Lemma path_update_latest p n q :
  InvalidationPath_update p (PathInvalidated n) = q →
  match p with
  | PathUnknown => q = PathUnknown
  | PathClean => q = PathInvalidated n
  | PathInvalidated m =>
      path_rank q = Some (Some (N.max (path_version m) (path_version n)))
  end.
Proof.
  intros <-. destruct p as [| |m]; cbn; try done.
  destruct (N.ltb_spec (path_version n) (path_version m)); cbn; do 2 f_equal; lia.
Qed.

(** * Properties *)

(** Along a chain of dependents, an invalidation path keeps the
    version and the source key of the invalidation it starts from: extending a path to any
    list of dependents, merging it with another path and restricting it to a version all keep
    the chain well-formed, and the source key recorded by [TrackedInvalidationPaths::new]
    stays at the end of the chain. *)
Theorem invalidation_paths_wf (priority : InvalidationSourcePriority) (key : DiceKey)
  (version : VersionNumber) (dependents : list DiceKey) (other : InvalidationPath)
  (v : VersionNumber) :
  path_wf other →
  let start := paths_normal (TrackedInvalidationPaths_new priority key version) in
  let path := foldl InvalidationPath_for_dependent start dependents in
  path_wf (InvalidationPath_at_version (InvalidationPath_update path other) v) ∧
  (priority ≠ PriorityIgnored → path_wf_at path key version) ∧
  (∀ n, InvalidationPath_at_version (InvalidationPath_update path other) v = PathInvalidated n →
     path_version n ≤ v).
Proof.
  intros Wo start path.
  assert (path_wf path ∧ path_source path = path_source start ∧ path_rank path = path_rank start)
    as (Wp & Hs & Hr).
  { subst path start. clear. assert (path_wf (paths_normal (TrackedInvalidationPaths_new priority key version)))
      as W by (destruct priority; cbn; done).
    revert W. generalize (paths_normal (TrackedInvalidationPaths_new priority key version)).
    induction dependents as [|k l IH]; intros p W; cbn; [done|].
    destruct (for_dependent_wf p k W) as (W' & <- & <-). auto. }
  split_and!.
  - by apply path_at_version_wf, path_update_wf.
  - intros Hp. subst start. destruct priority; [done| |]; cbn in Hs, Hr;
      unfold path_wf_at; destruct path as [| |n]; try done; cbn in Hr; by simplify_eq.
  - intros n. apply path_at_version_le.
Qed.

Lemma invalidation_paths_wf_witness :
  path_wf_at (foldl InvalidationPath_for_dependent
    (paths_normal (TrackedInvalidationPaths_new PriorityHigh 7 3)) [8; 9]) 7 3.
Proof.
  destruct (invalidation_paths_wf PriorityHigh 7 3 [8; 9] PathUnknown 5) as (_ & H & _).
  - exact I.
  - apply H. discriminate.
Defined.
