(* ===== verification/SPDeps.v ===== *)
(** Series-parallel dependency graphs, from [src/deps/dice/dice/src/impls/deps/encoding.rs],
    [impls/deps/graph.rs] and [impls/deps/iterator.rs], and the recorder of a computation's
    dependencies, from [impls/deps.rs].

    A computed node stores its dependencies as a flat vector of keys and a [Vec<u32>] that
    encodes their series-parallel structure.  The abstract value is a tree: a series is a list
    of keys and parallel nodes, a parallel node is a list of series.  The theorems show that
    the packed words decode to what was written, and that the flat representation built by
    [insert] and [insert_parallel] iterates as exactly the tree of the recorded calls. *)
From S2P Require Import Prelude Versions Values.
Local Open Scope N_scope.
Local Open Scope dice_scope.

(** * Encoding *)

Inductive SPSeriesHeader :=
| HeaderSimple (key_count : N)
| HeaderComplex (key_count spec_count : N).

Inductive SPItem :=
| ItemKeys (key_count : N)
| ItemParallel (key_count spec_count : N).

Inductive SPTag :=
| TagHeaderSimple | TagHeaderComplexKeys | TagHeaderComplexSpecs
| TagItemKeys | TagItemParallelKeys | TagItemParallelSpecs.

Inductive SPDecoderError :=
| InvalidItem (expected : list SPTag) (actual : option (SPTag * N)) (remaining : list (N * N))
| InvalidTag (tag : N).

Definition SPTag_encode (t : SPTag) : N :=
  match t with
  | TagHeaderSimple => 0
  | TagHeaderComplexKeys => 1
  | TagHeaderComplexSpecs => 2
  | TagItemKeys => 3
  | TagItemParallelKeys => 4
  | TagItemParallelSpecs => 5
  end.

(** [Err] is [inl].  The [assert!(r.encode() == v)] of the source is [SPTag_decode_assert]. *)
Definition SPTag_decode (v : N) : SPDecoderError + SPTag :=
  if v =? 0 then inr TagHeaderSimple
  else if v =? 1 then inr TagHeaderComplexKeys
  else if v =? 2 then inr TagHeaderComplexSpecs
  else if v =? 3 then inr TagItemKeys
  else if v =? 4 then inr TagItemParallelKeys
  else if v =? 5 then inr TagItemParallelSpecs
  else inl (InvalidTag v).

(** The word written by [push]: a 4-bit tag and a 28-bit value. *)
Definition encode_word (tag : SPTag) (value : N) : N :=
  N.lor (N.shiftl (SPTag_encode tag) 28) value.

Definition push (vec : list N) (tag : SPTag) (value : N) : outcome (list N) :=
  assert! (value <? N.shiftl 1 28);; Ok (vec ++ [encode_word tag value]).

Definition write_series_header (self : list N) (header : SPSeriesHeader) : outcome (list N) :=
  match header with
  | HeaderSimple key_count => push self TagHeaderSimple key_count
  | HeaderComplex key_count spec_count =>
      self ← push self TagHeaderComplexKeys key_count;
      push self TagHeaderComplexSpecs spec_count
  end.

Definition write_item (self : list N) (item : SPItem) : outcome (list N) :=
  match item with
  | ItemKeys key_count => push self TagItemKeys key_count
  | ItemParallel key_count spec_count =>
      self ← push self TagItemParallelKeys key_count;
      push self TagItemParallelSpecs spec_count
  end.

Definition SPSeriesHeader_encoded_len (self : SPSeriesHeader) : N :=
  match self with HeaderSimple _ => 1 | HeaderComplex _ spec_count => 2 + spec_count end.

Definition SPItem_encoded_len (self : SPItem) : N :=
  match self with ItemKeys _ => 1 | ItemParallel _ _ => 2 end.

Definition SPSeriesHeader_keys_len (self : SPSeriesHeader) : N :=
  match self with HeaderSimple key_count => key_count | HeaderComplex key_count _ => key_count end.

(** ** Decoding: a decoder is the rest of the words *)

Definition SPDecoder_split (v : N) : N * N := (N.shiftr v 28, N.land v 0x0FFFFFFF).

Definition SPDecoder_read (self : list N) : (SPDecoderError + option (SPTag * N)) * list N :=
  match self with
  | [] => (inr None, [])
  | v :: rest =>
      let '(tag, val) := SPDecoder_split v in
      (match SPTag_decode tag with
       | inl e => inl e
       | inr t => inr (Some (t, val))
       end, rest)
  end.

(** The pairs [debug_string] prints; producing the string drains the iterator. *)
Definition debug_words (self : list N) : list (N * N) := map SPDecoder_split self.

Definition SPDecoder_read_series_header (self : list N)
  : (SPDecoderError + option SPSeriesHeader) * list N :=
  match SPDecoder_read self with
  | (inl e, rest) => (inl e, rest)
  | (inr None, rest) => (inr None, rest)
  | (inr (Some (TagHeaderSimple, key_count)), rest) => (inr (Some (HeaderSimple key_count)), rest)
  | (inr (Some (TagHeaderComplexKeys, key_count)), rest) =>
      match SPDecoder_read rest with
      | (inl e, rest') => (inl e, rest')
      | (inr (Some (TagHeaderComplexSpecs, spec_count)), rest') =>
          (inr (Some (HeaderComplex key_count spec_count)), rest')
      | (inr v, rest') => (inl (InvalidItem [TagHeaderComplexSpecs] v (debug_words rest')), [])
      end
  | (inr (Some v), rest) =>
      (inl (InvalidItem [TagHeaderSimple; TagHeaderComplexKeys] (Some v) (debug_words rest)), [])
  end.

Definition SPDecoder_read_item (self : list N) : (SPDecoderError + option SPItem) * list N :=
  match SPDecoder_read self with
  | (inl e, rest) => (inl e, rest)
  | (inr None, rest) => (inr None, rest)
  | (inr (Some (TagItemKeys, key_count)), rest) => (inr (Some (ItemKeys key_count)), rest)
  | (inr (Some (TagItemParallelKeys, key_count)), rest) =>
      match SPDecoder_read rest with
      | (inl e, rest') => (inl e, rest')
      | (inr (Some (TagItemParallelSpecs, spec_count)), rest') =>
          (inr (Some (ItemParallel key_count spec_count)), rest')
      | (inr v, rest') => (inl (InvalidItem [TagItemParallelSpecs] v (debug_words rest')), [])
      end
  | (inr (Some v), rest) =>
      (inl (InvalidItem [TagItemKeys; TagItemParallelKeys] (Some v) (debug_words rest)), [])
  end.

(** [slice::split_at]: panics when the index is past the end. *)
Definition slice_split_at {A} (l : list A) (n : N) : outcome (list A * list A) :=
  assert! (n <=? N.of_nat (length l));; Ok (take (N.to_nat n) l, drop (N.to_nat n) l).

(** * The dependency graph *)

Record SPDepsMany := mkMany {
  many_deps : list DiceKey;
  many_spec : list N;
  many_trailing_deps_start : N;
}.

Inductive SeriesParallelDeps :=
| SPNone
| SPOne (k : DiceKey)
| SPMany (many : SPDepsMany).

Global Instance SPDepsMany_eq_dec : EqDecision SPDepsMany.
Proof. solve_decision. Defined.
Global Instance SeriesParallelDeps_eq_dec : EqDecision SeriesParallelDeps.
Proof. solve_decision. Defined.

(** [usize::try_into::<u32>().unwrap()] *)
Definition usize_to_u32 (n : nat) : outcome N :=
  assert! (N.of_nat n <? 2 ^ 32);; Ok (N.of_nat n).

Definition SPDepsMany_new : SPDepsMany := mkMany [] [] 0.

Definition SPDepsMany_push (self : SPDepsMany) (k : DiceKey) : SPDepsMany :=
  mkMany (many_deps self ++ [k]) (many_spec self) (many_trailing_deps_start self).

Definition SPDepsMany_serial_from_vec (vec : list DiceKey) : SPDepsMany := mkMany vec [] 0.

(** The [SPDepsMany] that [upgrade_to_many] leaves in place. *)
Definition SeriesParallelDeps_upgrade_to_many (self : SeriesParallelDeps) : SPDepsMany :=
  match self with
  | SPNone => SPDepsMany_new
  | SPOne v => SPDepsMany_push SPDepsMany_new v
  | SPMany v => v
  end.

Definition SeriesParallelDeps_insert (self : SeriesParallelDeps) (k : DiceKey)
  : SeriesParallelDeps :=
  match self with
  | SPNone => SPOne k
  | SPOne _ => SPMany (SPDepsMany_push (SeriesParallelDeps_upgrade_to_many self) k)
  | SPMany v => SPMany (SPDepsMany_push v k)
  end.

Definition SeriesParallelDeps_header (self : SeriesParallelDeps) : outcome SPSeriesHeader :=
  match self with
  | SPNone => Ok (HeaderSimple 0)
  | SPOne _ => Ok (HeaderSimple 1)
  | SPMany many =>
      match many_spec many with
      | [] => n ← usize_to_u32 (length (many_deps many)); Ok (HeaderSimple n)
      | _ =>
          n ← usize_to_u32 (length (many_deps many));
          s ← usize_to_u32 (length (many_spec many));
          Ok (HeaderComplex n s)
      end
  end.

Definition SeriesParallelDeps_serial_from_vec (vec : list DiceKey) : SeriesParallelDeps :=
  match vec with
  | [] => SPNone
  | [k] => SPOne k
  | _ => SPMany (SPDepsMany_serial_from_vec vec)
  end.

Definition SeriesParallelDeps_iter_keys (self : SeriesParallelDeps) : list DiceKey :=
  match self with SPNone => [] | SPOne v => [v] | SPMany m => many_deps m end.

Definition SeriesParallelDeps_is_empty (self : SeriesParallelDeps) : bool :=
  match self with
  | SPNone => true
  | SPOne _ => false
  | SPMany many => match many_deps many with [] => true | _ => false end
  end.

(** One iteration of the loop over the parallel series. *)
Definition insert_parallel_dep (st : list DiceKey * list N) (dep : SeriesParallelDeps)
  : outcome (list DiceKey * list N) :=
  let '(deps, spec) := st in
  header ← SeriesParallelDeps_header dep;
  spec ← write_series_header spec header;
  match dep with
  | SPNone => Ok (deps, spec)
  | SPOne v => Ok (deps ++ [v], spec)
  | SPMany other => Ok (deps ++ many_deps other, spec ++ many_spec other)
  end.

Fixpoint insert_parallel_loop (st : list DiceKey * list N) (parallel : list SeriesParallelDeps)
  : outcome (list DiceKey * list N) :=
  match parallel with
  | [] => Ok st
  | dep :: parallel' => st ← insert_parallel_dep st dep; insert_parallel_loop st parallel'
  end.

Definition SPDepsMany_insert_parallel (self : SPDepsMany) (parallel : list SeriesParallelDeps)
  (new_keys new_specs : N) : outcome SPDepsMany :=
  let ndeps := N.of_nat (length (many_deps self)) in
  assert! (many_trailing_deps_start self <=? ndeps);;
  n ← usize_to_u32 (N.to_nat (ndeps - many_trailing_deps_start self));
  let trailing_keys := if n =? 0 then None else Some (ItemKeys n) in
  let parallel_item := ItemParallel new_keys new_specs in
  let total_new_specs :=
    new_specs + match trailing_keys with Some v => SPItem_encoded_len v | None => 0 end
    + SPItem_encoded_len parallel_item in
  let expected_total_specs := N.of_nat (length (many_spec self)) + total_new_specs in
  spec ← match trailing_keys with
         | Some v => write_item (many_spec self) v
         | None => Ok (many_spec self)
         end;
  spec ← write_item spec parallel_item;
  '(deps, spec) ← insert_parallel_loop (many_deps self, spec) parallel;
  assert! (N.of_nat (length spec) =? expected_total_specs);;
  start ← usize_to_u32 (length deps);
  Ok (mkMany deps spec start).

Definition SeriesParallelDeps_insert_parallel (self : SeriesParallelDeps)
  (parallel : list SeriesParallelDeps) (new_keys new_specs : N) : outcome SeriesParallelDeps :=
  many ← SPDepsMany_insert_parallel (SeriesParallelDeps_upgrade_to_many self) parallel
           new_keys new_specs;
  Ok (SPMany many).

(** * Iteration *)

Record SeriesNodeIterator := mkSeriesIter {
  si_deps : list DiceKey;
  si_specs : list N;
  si_keys_to_next_spec : N;
}.

Record ParallelNodeIterator := mkParallelIter {
  pi_deps : list DiceKey;
  pi_specs : list N;
}.

Inductive SeriesParallelDepsIteratorItem :=
| IterKey (k : DiceKey)
| IterParallel (p : ParallelNodeIterator).

Definition SeriesNodeIterator_new (deps : list DiceKey) (specs : list N) : SeriesNodeIterator :=
  mkSeriesIter deps specs 0.

Definition u32_MAX : N := 2 ^ 32 - 1.

(** The tail of [SeriesNodeIterator::next]: count down and take the next key. *)
Definition series_next_key (self : SeriesNodeIterator)
  : outcome (option SeriesParallelDepsIteratorItem * SeriesNodeIterator) :=
  assert! (1 <=? si_keys_to_next_spec self);;
  let k := si_keys_to_next_spec self - 1 in
  match si_deps self with
  | [] => Ok (None, mkSeriesIter [] (si_specs self) k)
  | d :: deps => Ok (Some (IterKey d), mkSeriesIter deps (si_specs self) k)
  end.

Definition SeriesNodeIterator_next (self : SeriesNodeIterator)
  : outcome (option SeriesParallelDepsIteratorItem * SeriesNodeIterator) :=
  if si_keys_to_next_spec self =? 0 then
    match SPDecoder_read_item (si_specs self) with
    | (inl _, _) => Panic
    | (inr (Some (ItemKeys key_count)), specs) =>
        series_next_key (mkSeriesIter (si_deps self) specs key_count)
    | (inr (Some (ItemParallel key_count spec_count)), specs) =>
        '(keys, deps) ← slice_split_at (si_deps self) key_count;
        '(sub, specs) ← slice_split_at specs spec_count;
        Ok (Some (IterParallel (mkParallelIter keys sub)), mkSeriesIter deps specs 0)
    | (inr None, specs) => series_next_key (mkSeriesIter (si_deps self) specs u32_MAX)
    end
  else series_next_key self.

Definition ParallelNodeIterator_next (self : ParallelNodeIterator)
  : outcome (option SeriesNodeIterator * ParallelNodeIterator) :=
  let split (key_count spec_count : N) (specs : list N) :=
    '(keys, deps) ← slice_split_at (pi_deps self) key_count;
    '(sub, specs) ← slice_split_at specs spec_count;
    Ok (Some (mkSeriesIter keys sub 0), mkParallelIter deps specs) in
  match SPDecoder_read_series_header (pi_specs self) with
  | (inl _, _) => Panic
  | (inr None, specs) => Ok (None, mkParallelIter (pi_deps self) specs)
  | (inr (Some (HeaderComplex key_count spec_count)), specs) => split key_count spec_count specs
  | (inr (Some (HeaderSimple key_count)), specs) => split key_count 0 specs
  end.

(** * Round trip of the packed words *)

Definition fits (n : N) : Prop := n < 2 ^ 28.

Definition item_fits (i : SPItem) : Prop :=
  match i with ItemKeys n => fits n | ItemParallel n s => fits n ∧ fits s end.
Definition header_fits (h : SPSeriesHeader) : Prop :=
  match h with HeaderSimple n => fits n | HeaderComplex n s => fits n ∧ fits s end.

Definition item_words (i : SPItem) : list N :=
  match i with
  | ItemKeys n => [encode_word TagItemKeys n]
  | ItemParallel n s => [encode_word TagItemParallelKeys n; encode_word TagItemParallelSpecs s]
  end.
Definition header_words (h : SPSeriesHeader) : list N :=
  match h with
  | HeaderSimple n => [encode_word TagHeaderSimple n]
  | HeaderComplex n s => [encode_word TagHeaderComplexKeys n; encode_word TagHeaderComplexSpecs s]
  end.

Lemma SPTag_decode_assert v t : SPTag_decode v = inr t → SPTag_encode t = v.
Proof.
  unfold SPTag_decode. repeat (case_match; [intros [= <-]; symmetry; by apply N.eqb_eq|]). done.
Qed.

Lemma SPTag_decode_encode t : SPTag_decode (SPTag_encode t) = inr t.
Proof. by destruct t. Qed.

Lemma split_encode_word t v :
  fits v → SPDecoder_split (encode_word t v) = (SPTag_encode t, v).
Proof.
  intros Hv. unfold fits in Hv. unfold SPDecoder_split, encode_word. f_equal.
  - rewrite N.shiftr_lor, N.shiftr_shiftl_l, N.shiftl_0_r, N.shiftr_div_pow2 by lia.
    rewrite N.div_small by exact Hv. apply N.lor_0_r.
  - change 0x0FFFFFFF with (N.ones 28).
    rewrite N.land_lor_distr_l, !N.land_ones, N.shiftl_mul_pow2.
    rewrite N.Div0.mod_mul, N.mod_small by exact Hv. apply N.lor_0_l.
Qed.

Lemma read_encode_word t v rest :
  fits v → SPDecoder_read (encode_word t v :: rest) = (inr (Some (t, v)), rest).
Proof.
  intros Hv. unfold SPDecoder_read. rewrite split_encode_word by done.
  by rewrite SPTag_decode_encode.
Qed.

Lemma push_fits vec t v : fits v → push vec t v = Ok (vec ++ [encode_word t v]).
Proof.
  intros Hv. unfold push, rust_assert. destruct (N.ltb_spec v (N.shiftl 1 28)) as [|H]; [done|].
  exfalso. change (N.shiftl 1 28) with (2 ^ 28) in H. unfold fits in Hv. lia.
Qed.

Lemma push_overflow vec t v : ¬ fits v → push vec t v = Panic.
Proof.
  intros Hv. unfold push, rust_assert. destruct (N.ltb_spec v (N.shiftl 1 28)) as [H|]; [|done].
  exfalso. change (N.shiftl 1 28) with (2 ^ 28) in H. by apply Hv.
Qed.

Lemma write_item_words vec i : item_fits i → write_item vec i = Ok (vec ++ item_words i).
Proof.
  destruct i; cbn; intros; destruct_and?; rewrite ?push_fits by done; cbn; [done|].
  rewrite push_fits by done. by rewrite <- app_assoc.
Qed.

Lemma write_header_words vec h :
  header_fits h → write_series_header vec h = Ok (vec ++ header_words h).
Proof.
  destruct h; cbn; intros; destruct_and?; rewrite ?push_fits by done; cbn; [done|].
  rewrite push_fits by done. by rewrite <- app_assoc.
Qed.

Lemma read_item_words i rest :
  item_fits i → SPDecoder_read_item (item_words i ++ rest) = (inr (Some i), rest).
Proof.
  unfold SPDecoder_read_item. destruct i; cbn [item_fits item_words app]; intros; destruct_and?;
    by rewrite !read_encode_word by done.
Qed.

Lemma read_header_words h rest :
  header_fits h → SPDecoder_read_series_header (header_words h ++ rest) = (inr (Some h), rest).
Proof.
  unfold SPDecoder_read_series_header.
  destruct h; cbn [header_fits header_words app]; intros; destruct_and?;
    by rewrite !read_encode_word by done.
Qed.

Definition is_error {A} (r : (SPDecoderError + option A) * list N) : Prop :=
  match r with (inl (InvalidItem _ _ _), []) => True | _ => False end.

(** Items and series headers whose counts fit in 28 bits are read back
    from the words they are written as, leaving the rest of the stream; writing a count that
    does not fit panics; reading a header where an item was written, or an item where a
    header was written, is an [InvalidItem] error. *)
Theorem encoding_roundtrip (vec rest : list N) (i : SPItem) (h : SPSeriesHeader) :
  item_fits i → header_fits h →
  (∃ ws, write_item vec i = Ok (vec ++ ws) ∧
     SPDecoder_read_item (ws ++ rest) = (inr (Some i), rest) ∧
     N.of_nat (length ws) = SPItem_encoded_len i ∧
     is_error (SPDecoder_read_series_header (ws ++ rest))) ∧
  (∃ ws, write_series_header vec h = Ok (vec ++ ws) ∧
     SPDecoder_read_series_header (ws ++ rest) = (inr (Some h), rest) ∧
     is_error (SPDecoder_read_item (ws ++ rest))) ∧
  (∀ n t, 2 ^ 28 ≤ n → push vec t n = Panic).
Proof.
  intros Hi Hh. split_and!.
  - exists (item_words i). split_and!; auto using write_item_words, read_item_words.
    + by destruct i.
    + unfold SPDecoder_read_series_header. destruct i; cbn [item_fits item_words app] in *;
        destruct_and?; by rewrite !read_encode_word by done.
  - exists (header_words h). split_and!; auto using write_header_words, read_header_words.
    unfold SPDecoder_read_item. destruct h; cbn [header_fits header_words app] in *;
      destruct_and?; by rewrite !read_encode_word by done.
  - intros n t Hn. apply push_overflow. unfold fits. lia.
Qed.

Lemma encoding_roundtrip_witness :
  ∃ ws, write_item [] (ItemParallel 100 101) = Ok ws ∧
    SPDecoder_read_item ws = (inr (Some (ItemParallel 100 101)), []).
Proof.
  destruct (encoding_roundtrip [] [] (ItemParallel 100 101) (HeaderSimple 4))
    as [(ws & Hw & Hr & _) _].
  - split; vm_compute; reflexivity.
  - vm_compute. reflexivity.
  - exists ws. rewrite app_nil_r in Hr. split; [exact Hw|exact Hr].
Defined.

(** * The abstract graph *)

(** A series is a list of nodes; a parallel node is a list of series. *)
Inductive sp_node :=
| TKey (k : DiceKey)
| TPar (children : list (list sp_node)).

Section sp_node_ind.
Variable P : sp_node → Prop.
Hypothesis HKey : ∀ k, P (TKey k).
Hypothesis HPar : ∀ cs, Forall (Forall P) cs → P (TPar cs).

Fixpoint sp_node_nested_ind (n : sp_node) : P n :=
  match n with
  | TKey k => HKey k
  | TPar cs => HPar cs
      ((fix go (cs : list (list sp_node)) : Forall (Forall P) cs :=
          match cs with
          | [] => List.Forall_nil _
          | c :: cs => List.Forall_cons _ _ _
              ((fix go' (c : list sp_node) : Forall P c :=
                  match c with
                  | [] => List.Forall_nil _
                  | n :: c => List.Forall_cons _ _ _ (sp_node_nested_ind n) (go' c)
                  end) c) (go cs)
          end) cs)
  end.
End sp_node_ind.

Fixpoint node_keys (n : sp_node) : list DiceKey :=
  match n with
  | TKey k => [k]
  | TPar cs => flat_map (λ c, flat_map node_keys c) cs
  end.
Definition series_keys (s : list sp_node) : list DiceKey := flat_map node_keys s.
Definition children_keys (cs : list (list sp_node)) : list DiceKey := flat_map series_keys cs.

(** Words of a series from those of its parallel nodes ([None] is a key): a run of keys is
    written only when a parallel node follows it. *)
Fixpoint group (pending : N) (l : list (option (list N))) : list N :=
  match l with
  | [] => []
  | None :: l' => group (pending + 1) l'
  | Some w :: l' =>
      (if pending =? 0 then [] else item_words (ItemKeys pending)) ++ w ++ group 0 l'
  end.

(** The number of keys after the last parallel node. *)
Fixpoint trailing (pending : N) (l : list (option (list N))) : N :=
  match l with
  | [] => pending
  | None :: l' => trailing (pending + 1) l'
  | Some _ :: l' => trailing 0 l'
  end.

Definition header_of (keys : list DiceKey) (words : list N) : SPSeriesHeader :=
  match words with
  | [] => HeaderSimple (N.of_nat (length keys))
  | _ => HeaderComplex (N.of_nat (length keys)) (N.of_nat (length words))
  end.

Fixpoint node_words (n : sp_node) : option (list N) :=
  match n with
  | TKey _ => None
  | TPar cs =>
      let body := flat_map (λ c, let w := group 0 (map node_words c) in
                                 header_words (header_of (flat_map node_keys c) w) ++ w) cs in
      Some (item_words (ItemParallel
              (N.of_nat (length (flat_map (λ c, flat_map node_keys c) cs)))
              (N.of_nat (length body))) ++ body)
  end.

Definition series_words (s : list sp_node) : list N := group 0 (map node_words s).
Definition series_header (s : list sp_node) : SPSeriesHeader :=
  header_of (series_keys s) (series_words s).
Definition child_words (c : list sp_node) : list N :=
  header_words (series_header c) ++ series_words c.
Definition children_words (cs : list (list sp_node)) : list N := flat_map child_words cs.

Lemma node_words_par cs :
  node_words (TPar cs) =
  Some (item_words (ItemParallel (N.of_nat (length (children_keys cs)))
                                 (N.of_nat (length (children_words cs)))) ++ children_words cs).
Proof. done. Qed.

(** A dependency set represents a series. *)
Definition spec_of (d : SeriesParallelDeps) : list N :=
  match d with SPMany m => many_spec m | _ => [] end.

Definition represents (s : list sp_node) (d : SeriesParallelDeps) : Prop :=
  SeriesParallelDeps_iter_keys d = series_keys s ∧ spec_of d = series_words s ∧
  match d with
  | SPMany m => many_trailing_deps_start m + trailing 0 (map node_words s) =
                N.of_nat (length (series_keys s))
  | _ => trailing 0 (map node_words s) = N.of_nat (length (series_keys s))
  end.

(** All counts of the encoding fit in 28 bits. *)
Definition series_fits (s : list sp_node) : Prop :=
  fits (N.of_nat (length (series_keys s))) ∧ fits (N.of_nat (length (series_words s))).

(** Full traversal of the iterators. *)
Fixpoint collect_series (fuel : nat) (it : SeriesNodeIterator) : outcome (list sp_node) :=
  match fuel with
  | O => Panic
  | S fuel =>
      '(o, it') ← SeriesNodeIterator_next it;
      match o with
      | None => Ok []
      | Some (IterKey k) => rest ← collect_series fuel it'; Ok (TKey k :: rest)
      | Some (IterParallel p) =>
          cs ← collect_parallel fuel p;
          rest ← collect_series fuel it'; Ok (TPar cs :: rest)
      end
  end
with collect_parallel (fuel : nat) (it : ParallelNodeIterator) : outcome (list (list sp_node)) :=
  match fuel with
  | O => Panic
  | S fuel =>
      '(o, it') ← ParallelNodeIterator_next it;
      match o with
      | None => Ok []
      | Some si =>
          c ← collect_series fuel si;
          rest ← collect_parallel fuel it'; Ok (c :: rest)
      end
  end.

(** [SeriesParallelDeps::iter], fully traversed. *)
Definition collect_deps_tree (fuel : nat) (d : SeriesParallelDeps) : outcome (list sp_node) :=
  match d with
  | SPNone => Ok []
  | SPOne k => Ok [TKey k]
  | SPMany m => collect_series fuel (SeriesNodeIterator_new (many_deps m) (many_spec m))
  end.

Fixpoint node_size (n : sp_node) : nat :=
  match n with
  | TKey _ => 1
  | TPar cs => 1 + list_sum (map (λ c, 1 + list_sum (map node_size c))%nat cs)
  end.
Definition series_size (s : list sp_node) : nat := list_sum (map node_size s).
Definition children_size (cs : list (list sp_node)) : nat :=
  list_sum (map (λ c, 1 + series_size c)%nat cs).

(** ** Insertions refine appending to the tree *)

Lemma group_snoc_key p l : group p (l ++ [None]) = group p l.
Proof. revert p; induction l as [|[w|] l IH]; intros p; cbn; by rewrite ?IH. Qed.

Lemma group_snoc_par p l w :
  group p (l ++ [Some w]) =
  group p l ++ (if trailing p l =? 0 then [] else item_words (ItemKeys (trailing p l))) ++ w.
Proof.
  revert p; induction l as [|[w'|] l IH]; intros p; cbn [group trailing app].
  - by rewrite app_nil_r.
  - by rewrite IH, <- !app_assoc.
  - by rewrite IH.
Qed.

Lemma trailing_snoc_key p l : trailing p (l ++ [None]) = trailing p l + 1.
Proof. revert p; induction l as [|[w|] l IH]; intros p; cbn; by rewrite ?IH. Qed.

Lemma trailing_snoc_par p l w : trailing p (l ++ [Some w]) = 0.
Proof. revert p; induction l as [|[w'|] l IH]; intros p; cbn; by rewrite ?IH. Qed.

Lemma series_keys_snoc s n : series_keys (s ++ [n]) = series_keys s ++ node_keys n.
Proof. unfold series_keys. rewrite flat_map_app. cbn. by rewrite app_nil_r. Qed.

Lemma represents_none : represents [] SPNone.
Proof. done. Qed.

Lemma insert_represents s d k :
  represents s d → represents (s ++ [TKey k]) (SeriesParallelDeps_insert d k).
Proof.
  unfold represents. rewrite series_keys_snoc, length_app. cbn [node_keys length].
  unfold series_words. rewrite map_app. cbn [map node_words].
  rewrite group_snoc_key, trailing_snoc_key.
  destruct d as [|k'|m]; cbn; intros (Hk & Hs & Ht); (split_and!; [|done|]).
  - by rewrite <- Hk.
  - rewrite <- Hk in *. cbn in *. lia.
  - by rewrite <- Hk.
  - rewrite <- Hk in *. cbn in *. lia.
  - by rewrite Hk.
  - lia.
Qed.

Lemma upgrade_represents s d :
  represents s d → represents s (SPMany (SeriesParallelDeps_upgrade_to_many d)).
Proof. unfold represents. destruct d; cbn; intros (Hk & Hs & Ht); split_and!; auto; lia. Qed.

Lemma header_represents s d :
  represents s d → series_fits s → SeriesParallelDeps_header d = Ok (series_header s).
Proof.
  intros (Hk & Hs & _) [Fk Fs]. unfold series_header, header_of. rewrite <- Hk, <- Hs.
  rewrite <- Hk in Fk. rewrite <- Hs in Fs. unfold fits in *.
  destruct d as [|k|m]; cbn in *; try done.
  unfold usize_to_u32, rust_assert. rewrite !(proj2 (N.ltb_lt _ _)) by lia. cbn. by destruct (many_spec m).
Qed.

Lemma series_words_snoc_par s cs :
  series_words (s ++ [TPar cs]) =
  series_words s ++
  (if trailing 0 (map node_words s) =? 0 then []
   else item_words (ItemKeys (trailing 0 (map node_words s)))) ++
  item_words (ItemParallel (N.of_nat (length (children_keys cs)))
                           (N.of_nat (length (children_words cs)))) ++ children_words cs.
Proof. unfold series_words. rewrite map_app. cbn [map]. by rewrite node_words_par, group_snoc_par. Qed.

Lemma children_fits cs c :
  c ∈ cs → fits (N.of_nat (length (children_keys cs))) →
  fits (N.of_nat (length (children_words cs))) → series_fits c.
Proof.
  intros (l1 & l2 & ->)%list_elem_of_split. unfold children_keys, children_words, series_fits, fits.
  rewrite !flat_map_app. cbn [flat_map]. unfold child_words. rewrite !length_app. lia.
Qed.

Lemma insert_parallel_loop_represents cs ds deps spec :
  Forall2 represents cs ds → Forall series_fits cs →
  insert_parallel_loop (deps, spec) ds = Ok (deps ++ children_keys cs, spec ++ children_words cs).
Proof.
  intros H HF. revert deps spec. induction H as [|c d cs ds Hr H IH]; intros deps spec; cbn.
  - by rewrite !app_nil_r.
  - inversion_clear HF as [|?? Hc HF']. rewrite (header_represents _ _ Hr Hc). cbn.
    rewrite write_header_words.
    2:{ destruct Hc as [F1 F2]. unfold series_header, header_of.
        destruct (series_words c) eqn:E; cbn in *; auto. }
    destruct Hr as (Hk & Hs & _). rewrite <- Hk. unfold child_words. rewrite <- Hs.
    destruct d as [|k|m]; cbn; rewrite IH by done; rewrite ?app_nil_r, <- ?app_assoc; done.
Qed.

Lemma trailing_le s : trailing 0 (map node_words s) ≤ N.of_nat (length (series_keys s)).
Proof.
  induction s as [|n s IH] using rev_ind; [done|].
  rewrite map_app, series_keys_snoc, length_app. cbn [map].
  destruct n; cbn [node_words]; rewrite ?trailing_snoc_key, ?trailing_snoc_par; cbn; lia.
Qed.

Lemma usize_to_u32_Ok n : N.of_nat n < 2 ^ 32 → usize_to_u32 n = Ok (N.of_nat n).
Proof. intros H. unfold usize_to_u32, rust_assert. by rewrite (proj2 (N.ltb_lt _ _)). Qed.

Lemma insert_parallel_represents s d cs ds :
  represents s d → Forall2 represents cs ds → series_fits (s ++ [TPar cs]) →
  ∃ d', SeriesParallelDeps_insert_parallel d ds
          (N.of_nat (length (children_keys cs))) (N.of_nat (length (children_words cs))) = Ok d' ∧
        represents (s ++ [TPar cs]) d'.
Proof.
  intros Hd%upgrade_represents Hcs [Fk Fw].
  unfold SeriesParallelDeps_insert_parallel.
  set (m := SeriesParallelDeps_upgrade_to_many d) in *. clearbody m.
  destruct Hd as (Hk & Hs & Ht). cbn in Hk, Hs.
  pose proof (trailing_le s) as Hle. pose proof Fk as Fk'. pose proof Fw as Fw'.
  rewrite series_keys_snoc in Fk'. change (node_keys (TPar cs)) with (children_keys cs) in *.
  rewrite series_words_snoc_par in Fw'. unfold fits in Fk', Fw'. rewrite length_app in Fk'. rewrite !length_app in Fw'.
  unfold SPDepsMany_insert_parallel. rewrite Hk, Hs.
  unfold rust_assert at 1. rewrite (proj2 (N.leb_le _ _)) by lia. cbn [mbind outcome_bind].
  replace (N.to_nat (N.of_nat (length (series_keys s)) - many_trailing_deps_start m))
    with (N.to_nat (trailing 0 (map node_words s))) by lia.
  rewrite usize_to_u32_Ok by lia. cbn [mbind outcome_bind]. rewrite N2Nat.id.
  set (t := trailing 0 (map node_words s)) in *.
  assert ((match (if t =? 0 then None else Some (ItemKeys t)) with
           | Some v => write_item (series_words s) v
           | None => Ok (series_words s) end) =
          Ok (series_words s ++ if t =? 0 then [] else item_words (ItemKeys t))) as ->.
  { destruct (t =? 0); [by rewrite app_nil_r|]. apply write_item_words. cbn. unfold fits. lia. }
  cbn [mbind outcome_bind].
  rewrite write_item_words by (split; unfold fits; lia). cbn [mbind outcome_bind].
  rewrite (insert_parallel_loop_represents cs) by
    (done || (apply Forall_forall; intros c Hc;
              apply (children_fits cs c Hc); unfold fits; lia)).
  cbn [mbind outcome_bind]. rewrite <- !app_assoc, <- series_words_snoc_par.
  assert (N.of_nat (length (series_words (s ++ [TPar cs]))) =?
     N.of_nat (length (series_words s)) +
     (N.of_nat (length (children_words cs)) +
      match (if t =? 0 then None else Some (ItemKeys t)) with
      | Some v => SPItem_encoded_len v | None => 0 end +
      SPItem_encoded_len (ItemParallel (N.of_nat (length (children_keys cs)))
                           (N.of_nat (length (children_words cs))))) = true) as ->.
  { apply N.eqb_eq. rewrite series_words_snoc_par, !length_app. fold t.
    destruct (t =? 0); cbn [length item_words SPItem_encoded_len]; lia. }
  cbn [mbind outcome_bind rust_assert].
  rewrite usize_to_u32_Ok by (rewrite length_app; lia). cbn [mbind outcome_bind].
  eexists. split; [done|]. unfold represents. cbn.
  rewrite series_keys_snoc, map_app. cbn [map node_words]. rewrite trailing_snoc_par.
  split_and!; [done|done|]. rewrite N.add_0_r. done.
Qed.

(** ** The iterators traverse the tree *)

Fixpoint leading (s : list sp_node) : N :=
  match s with TKey _ :: s' => 1 + leading s' | _ => 0 end.
Fixpoint after_leading (s : list sp_node) : list sp_node :=
  match s with TKey _ :: s' => after_leading s' | _ => s end.

Lemma group_leading p s :
  group p (map node_words s) =
  match after_leading s with
  | [] => []
  | r => (if p + leading s =? 0 then [] else item_words (ItemKeys (p + leading s))) ++
         series_words r
  end.
Proof.
  revert p; induction s as [|[k|cs] s IH]; intros p; [done| |].
  - cbn [map node_words group after_leading leading]. rewrite IH.
    by replace (p + 1 + leading s) with (p + (1 + leading s)) by lia.
  - cbn [after_leading leading]. rewrite N.add_0_r. unfold series_words.
    cbn [map]. rewrite node_words_par. cbn [group]. done.
Qed.

Lemma series_words_par cs s :
  series_words (TPar cs :: s) =
  item_words (ItemParallel (N.of_nat (length (children_keys cs)))
                           (N.of_nat (length (children_words cs)))) ++
  children_words cs ++ series_words s.
Proof. unfold series_words. cbn [map]. rewrite node_words_par. cbn [group app]. by rewrite <- app_assoc. Qed.

Lemma length_group_le l p : (length (group 0 l) ≤ length (group p l))%nat.
Proof.
  assert (∀ p q : N, p ≤ q → (length (group p l) ≤ length (group q l))%nat) as H; [|apply H; lia].
  clear p. induction l as [|[w|] l IH]; intros p q Hpq; cbn [group]; [done| |apply IH; lia].
  rewrite !length_app. destruct (N.eqb_spec p 0), (N.eqb_spec q 0); cbn; lia.
Qed.

Lemma leading_le s : leading s ≤ N.of_nat (length (series_keys s)).
Proof.
  induction s as [|[k|cs] s IH]; cbn [leading]; [done| |lia].
  change (series_keys (TKey k :: s)) with (k :: series_keys s). cbn [length]. lia.
Qed.

Lemma series_fits_tail n s : series_fits (n :: s) → series_fits s.
Proof.
  intros [H1 H2]. unfold series_fits, fits in *.
  unfold series_keys in H1. cbn [flat_map] in H1. rewrite length_app in H1.
  fold (series_keys s) in H1. split; [lia|].
  destruct n as [k|cs].
  - unfold series_words in *. cbn [map node_words group] in H2.
    pose proof (length_group_le (map node_words s) (0 + 1)). lia.
  - rewrite series_words_par, !length_app in H2. lia.
Qed.

Lemma slice_split_at_app {A} (l1 l2 : list A) :
  slice_split_at (l1 ++ l2) (N.of_nat (length l1)) = Ok (l1, l2).
Proof.
  unfold slice_split_at, rust_assert. rewrite (proj2 (N.leb_le _ _)) by (rewrite length_app; lia).
  cbn. by rewrite Nat2N.id, take_app_length, drop_app_length.
Qed.

(** Starting at the first word is the same as having read the count of the leading keys. *)
Lemma series_next_start s :
  series_fits s →
  SeriesNodeIterator_next (mkSeriesIter (series_keys s) (series_words s) 0) =
  SeriesNodeIterator_next (mkSeriesIter (series_keys s) (series_words (after_leading s))
    (match after_leading s with [] => u32_MAX | _ => leading s end)).
Proof.
  intros [F _]. pose proof (leading_le s) as Hl. unfold series_words at 1. rewrite group_leading.
  rewrite N.add_0_l. destruct (after_leading s) as [|n r] eqn:E; [done|].
  destruct (N.eqb_spec (leading s) 0) as [->|Hn]; [done|].
  unfold SeriesNodeIterator_next at 1. cbn [si_keys_to_next_spec si_specs si_deps].
  rewrite N.eqb_refl, read_item_words by (cbn; unfold fits in *; lia).
  unfold SeriesNodeIterator_next. cbn [si_keys_to_next_spec]. by destruct (N.eqb_spec (leading s) 0).
Qed.

(** The state of a traversal that has [k] keys to go before the next word. *)
Definition mid_run (s : list sp_node) (k : N) : Prop :=
  k = leading s ∨ (after_leading s = [] ∧ leading s < k).

Definition traversal_ok (fuel : nat) : Prop :=
  (∀ s k, series_fits s → mid_run s k → (series_size s < fuel)%nat →
     collect_series fuel (mkSeriesIter (series_keys s) (series_words (after_leading s)) k) = Ok s) ∧
  (∀ cs, Forall series_fits cs → (children_size cs < fuel)%nat →
     collect_parallel fuel (mkParallelIter (children_keys cs) (children_words cs)) = Ok cs).

Lemma traversal_start fuel s :
  traversal_ok fuel → series_fits s → (series_size s < fuel)%nat →
  collect_series fuel (mkSeriesIter (series_keys s) (series_words s) 0) = Ok s.
Proof.
  intros [H _] Hf Hs. destruct fuel as [|fuel]; [lia|].
  rewrite <- (H s (match after_leading s with [] => u32_MAX | _ => leading s end)); [|done| |done].
  - cbn [collect_series]. by rewrite series_next_start.
  - unfold mid_run. destruct (after_leading s) eqn:E; [|by left]. right. split; [done|].
    pose proof (leading_le s). destruct Hf as [F _]. unfold fits, u32_MAX in *. lia.
Qed.

Lemma traversal_par_next cs s :
  series_fits (TPar cs :: s) →
  SeriesNodeIterator_next (mkSeriesIter (series_keys (TPar cs :: s)) (series_words (TPar cs :: s)) 0) =
  Ok (Some (IterParallel (mkParallelIter (children_keys cs) (children_words cs))),
      mkSeriesIter (series_keys s) (series_words s) 0).
Proof.
  intros [F1 F2]. rewrite series_words_par in *.
  change (series_keys (TPar cs :: s)) with (children_keys cs ++ series_keys s) in *.
  unfold fits in *. rewrite length_app in F1. rewrite !length_app in F2.
  unfold SeriesNodeIterator_next. cbn [si_keys_to_next_spec si_specs si_deps]. rewrite N.eqb_refl.
  rewrite read_item_words by (split; unfold fits; lia).
  rewrite slice_split_at_app. cbn [mbind outcome_bind]. by rewrite slice_split_at_app.
Qed.

Lemma traversal_children_next c cs :
  series_fits c →
  ParallelNodeIterator_next (mkParallelIter (children_keys (c :: cs)) (children_words (c :: cs))) =
  Ok (Some (mkSeriesIter (series_keys c) (series_words c) 0),
      mkParallelIter (children_keys cs) (children_words cs)).
Proof.
  intros [F1 F2]. unfold children_keys, children_words. cbn [flat_map].
  fold (children_keys cs) (children_words cs).
  unfold child_words, series_header. rewrite <- app_assoc.
  unfold ParallelNodeIterator_next. cbn [pi_specs pi_deps].
  rewrite read_header_words by (unfold header_of; destruct (series_words c); cbn in *; auto).
  unfold header_of. destruct (series_words c) as [|w ws] eqn:E.
  - cbn [app]. rewrite slice_split_at_app. cbn [mbind outcome_bind].
    change (slice_split_at (children_words cs) 0)
      with (slice_split_at ([] ++ children_words cs) (N.of_nat (length (A:=N) []))).
    by rewrite slice_split_at_app.
  - rewrite slice_split_at_app. cbn [mbind outcome_bind]. rewrite slice_split_at_app. done.
Qed.

Lemma node_size_par cs : node_size (TPar cs) = S (children_size cs).
Proof. done. Qed.

Lemma series_size_cons n s : series_size (n :: s) = (node_size n + series_size s)%nat.
Proof. done. Qed.
Lemma children_size_cons c cs : children_size (c :: cs) = (1 + series_size c + children_size cs)%nat.
Proof. done. Qed.

Lemma traversal fuel : traversal_ok fuel.
Proof.
  induction fuel as [|fuel IH]; [split; intros; lia|]. pose proof IH as [IHs IHp]. split.
  - intros [|[a|cs] s] k Hf Hk Hsz.
    + destruct Hk as [-> | [_ Hk]]; [done|]. cbn [collect_series series_keys flat_map after_leading].
      unfold SeriesNodeIterator_next. cbn in *. case_N_bool; try lia.
      unfold series_next_key, rust_assert. cbn. by rewrite (proj2 (N.leb_le _ _)) by lia.
    + cbn [collect_series].
      assert (1 ≤ k) by (destruct Hk as [-> | [_ Hk]]; cbn [leading] in *; lia).
      assert (SeriesNodeIterator_next (mkSeriesIter (series_keys (TKey a :: s))
                (series_words (after_leading (TKey a :: s))) k) =
              Ok (Some (IterKey a),
                  mkSeriesIter (series_keys s) (series_words (after_leading s)) (k - 1))) as ->.
      { unfold SeriesNodeIterator_next. cbn [si_keys_to_next_spec]. case_N_bool; [lia|].
        unfold series_next_key, rust_assert. cbn. by rewrite (proj2 (N.leb_le _ _)) by lia. }
      cbn [mbind outcome_bind]. rewrite IHs; [done|by eapply series_fits_tail| |].
      * destruct Hk as [-> | [E Hk]]; cbn [leading after_leading] in *; [left|right; split; [done|]]; lia.
      * rewrite series_size_cons in Hsz. cbn in Hsz. lia.
    + assert (k = 0) as -> by (destruct Hk as [Hk | [E _]]; cbn in *; done).
      cbn [collect_series after_leading]. rewrite traversal_par_next by done.
      rewrite series_size_cons, node_size_par in Hsz.
      cbn [mbind outcome_bind]. rewrite IHp.
      * cbn [mbind outcome_bind]. rewrite traversal_start; [done|done|by eapply series_fits_tail|].
        lia.
      * destruct Hf as [F1 F2]. rewrite series_words_par in F2.
        change (series_keys (TPar cs :: s)) with (children_keys cs ++ series_keys s) in F1.
        unfold fits in *. rewrite length_app in F1. rewrite !length_app in F2.
        apply Forall_forall. intros c Hc. apply (children_fits cs c Hc); unfold fits; lia.
      * lia.
  - intros [|c cs] Hf Hsz; [done|]. inversion_clear Hf as [|?? Hc Hcs]. cbn [collect_parallel].
    rewrite traversal_children_next by done. rewrite children_size_cons in Hsz.
    cbn [mbind outcome_bind]. rewrite traversal_start by (done || lia).
    cbn [mbind outcome_bind]. rewrite IHp; [done|done|]. lia.
Qed.

Lemma represents_collect s d fuel :
  represents s d → series_fits s → (series_size s < fuel)%nat → collect_deps_tree fuel d = Ok s.
Proof.
  intros (Hk & Hs & Ht) Hf Hsz. destruct d as [|k|m]; cbn in *.
  - destruct s as [|[a|cs] s]; [done|done|]. rewrite series_words_par in Hs. done.
  - destruct s as [|[a|cs] s]; [done| |rewrite series_words_par in Hs; done].
    change (series_keys (TKey a :: s)) with (a :: series_keys s) in Hk. injection Hk as -> Hk.
    destruct s as [|[b|cs] s]; [done|done|].
    unfold series_words in Hs. cbn [map node_words group] in Hs. done.
  - unfold SeriesNodeIterator_new. rewrite Hk, Hs. apply traversal_start; auto using traversal.
Qed.
