(* ===== verification/Recorder.v ===== *)
(** The recorder of a computation's dependencies, from
    [src/deps/dice/dice/src/impls/deps.rs], and the way a computation context fills the slots
    of a parallel section ([impls/ctx.rs], [ModernComputeCtxParallelBuilder::compute]).

    A computation is a series of recorded keys and parallel sections; the theorem shows that
    the recorder ends with a graph that iterates as the tree of those calls. *)
From S2P Require Import Prelude Versions Values SPDeps.
Local Open Scope N_scope.
Local Open Scope dice_scope.

(** * Definitions *)

Record RecordedDeps := mkRecorded {
  rd_deps : SeriesParallelDeps;
  rd_deps_validity : DiceValidity;
  rd_invalidation_paths : TrackedInvalidationPaths;
}.

(** The arena is the list of its slots, in allocation order. *)
Record RecordingDepsTracker := mkTracker {
  rt_deps : RecordedDeps;
  rt_curr_parallel : option (list RecordedDeps);
}.

Definition RecordedDeps_update_invalidation_paths (self : RecordedDeps)
  (paths : TrackedInvalidationPaths) : RecordedDeps :=
  mkRecorded (rd_deps self) (rd_deps_validity self)
    (TrackedInvalidationPaths_update (rd_invalidation_paths self) paths).

Definition RecordedDeps_record (self : RecordedDeps) (k : DiceKey) (validity : DiceValidity)
  (invalidation_paths : TrackedInvalidationPaths) : RecordedDeps :=
  RecordedDeps_update_invalidation_paths
    (mkRecorded (SeriesParallelDeps_insert (rd_deps self) k)
                (DiceValidity_and (rd_deps_validity self) validity)
                (rd_invalidation_paths self)) invalidation_paths.

Definition RecordedDeps_new : RecordedDeps :=
  mkRecorded SPNone Valid TrackedInvalidationPaths_clean.

(** The loop over the slots: validity, paths, [new_keys], [new_specs]. *)
Fixpoint insert_parallel_counts (validity : DiceValidity) (paths : TrackedInvalidationPaths)
  (new_keys new_specs : N) (parallel : list RecordedDeps)
  : outcome (DiceValidity * TrackedInvalidationPaths * N * N) :=
  match parallel with
  | [] => Ok (validity, paths, new_keys, new_specs)
  | dep :: parallel' =>
      header ← SeriesParallelDeps_header (rd_deps dep);
      insert_parallel_counts (DiceValidity_and validity (rd_deps_validity dep))
        (TrackedInvalidationPaths_update paths (rd_invalidation_paths dep))
        (u32_add new_keys (SPSeriesHeader_keys_len header))
        (u32_add new_specs (SPSeriesHeader_encoded_len header)) parallel'
  end.

Definition RecordedDeps_insert_parallel (self : RecordedDeps) (parallel : list RecordedDeps)
  : outcome RecordedDeps :=
  '(validity, paths, new_keys, new_specs) ←
     insert_parallel_counts (rd_deps_validity self) (rd_invalidation_paths self) 0 0 parallel;
  if new_keys =? 0 then Ok (mkRecorded (rd_deps self) validity paths)
  else
    deps ← SeriesParallelDeps_insert_parallel (rd_deps self) (map rd_deps parallel)
             new_keys new_specs;
    Ok (mkRecorded deps validity paths).

Definition RecordingDepsTracker_new (invalidation_paths : TrackedInvalidationPaths)
  : RecordingDepsTracker :=
  mkTracker (mkRecorded SPNone Valid invalidation_paths) None.

Definition RecordingDepsTracker_flatten_parallel (self : RecordingDepsTracker)
  : outcome RecordingDepsTracker :=
  match rt_curr_parallel self with
  | Some parallel =>
      deps ← RecordedDeps_insert_parallel (rt_deps self) parallel; Ok (mkTracker deps None)
  | None => Ok self
  end.

Definition RecordingDepsTracker_record (self : RecordingDepsTracker) (k : DiceKey)
  (validity : DiceValidity) (invalidation_paths : TrackedInvalidationPaths)
  : outcome RecordingDepsTracker :=
  self ← RecordingDepsTracker_flatten_parallel self;
  Ok (mkTracker (RecordedDeps_record (rt_deps self) k validity invalidation_paths)
                (rt_curr_parallel self)).

Definition RecordingDepsTracker_update_invalidation_paths (self : RecordingDepsTracker)
  (invalidation_paths : TrackedInvalidationPaths) : RecordingDepsTracker :=
  mkTracker (RecordedDeps_update_invalidation_paths (rt_deps self) invalidation_paths)
            (rt_curr_parallel self).

(** Returns the tracker with an empty arena, and the paths each parallel context starts from. *)
Definition RecordingDepsTracker_push_parallel (self : RecordingDepsTracker)
  : outcome (RecordingDepsTracker * TrackedInvalidationPaths) :=
  self ← RecordingDepsTracker_flatten_parallel self;
  assert! (match rt_curr_parallel self with None => true | Some _ => false end);;
  Ok (mkTracker (rt_deps self) (Some []), rd_invalidation_paths (rt_deps self)).

Definition RecordingDepsTracker_collect_deps (self : RecordingDepsTracker)
  : outcome RecordedDeps :=
  self ← RecordingDepsTracker_flatten_parallel self; Ok (rt_deps self).

Definition RecordingDepsTracker_invalidation_paths (self : RecordingDepsTracker)
  : outcome (RecordingDepsTracker * TrackedInvalidationPaths) :=
  self ← RecordingDepsTracker_flatten_parallel self;
  Ok (self, rd_invalidation_paths (rt_deps self)).

(** ** What a computation does with its context

    [AParallel] is a parallel section ([compute_many] and the like): each child context
    allocates a slot [RecordedDeps::new()], runs on its own tracker, and when it completes
    replaces its slot by its collected dependencies.  A child dropped before it completes
    ([false]) leaves its slot as allocated. *)
Inductive action :=
| ARecord (k : DiceKey) (validity : DiceValidity) (paths : TrackedInvalidationPaths)
| AUpdatePaths (paths : TrackedInvalidationPaths)
| AParallel (children : list (bool * list action)).

(** [ModernComputeCtxParallelBuilder::compute], the [Normal] case, for one child: [run] is the
    execution of its body on its own tracker. *)
Definition parallel_child (run : RecordingDepsTracker → outcome RecordingDepsTracker)
  (completes : bool) (paths : TrackedInvalidationPaths) : outcome RecordedDeps :=
  let slot := RecordedDeps_new in
  if completes then
    ctx ← run (RecordingDepsTracker_new paths); RecordingDepsTracker_collect_deps ctx
  else Ok slot.

Fixpoint run_action (a : action) (t : RecordingDepsTracker) {struct a}
  : outcome RecordingDepsTracker :=
  match a with
  | ARecord k validity paths => RecordingDepsTracker_record t k validity paths
  | AUpdatePaths paths => Ok (RecordingDepsTracker_update_invalidation_paths t paths)
  | AParallel children =>
      '(t, paths) ← RecordingDepsTracker_push_parallel t;
      slots ←
        (fix go (cs : list (bool * list action)) : outcome (list RecordedDeps) :=
           match cs with
           | [] => Ok []
           | (completes, c) :: cs =>
               slot ← parallel_child
                 ((fix run (c : list action) (t : RecordingDepsTracker)
                     : outcome RecordingDepsTracker :=
                     match c with
                     | [] => Ok t
                     | a :: c => t ← run_action a t; run c t
                     end) c) completes paths;
               slots ← go cs; Ok (slot :: slots)
           end) children;
      Ok (mkTracker (rt_deps t) (Some slots))
  end.

Fixpoint run_series (c : list action) (t : RecordingDepsTracker) : outcome RecordingDepsTracker :=
  match c with
  | [] => Ok t
  | a :: c => t ← run_action a t; run_series c t
  end.

Fixpoint run_children (cs : list (bool * list action)) (paths : TrackedInvalidationPaths)
  : outcome (list RecordedDeps) :=
  match cs with
  | [] => Ok []
  | (completes, c) :: cs =>
      slot ← parallel_child (run_series c) completes paths;
      slots ← run_children cs paths; Ok (slot :: slots)
  end.

(** * The tree of the recorded calls *)

(** A parallel section in which nothing was recorded leaves no node. *)
Definition par_nodes (ts : list (list sp_node)) : list sp_node :=
  match children_keys ts with [] => [] | _ => [TPar ts] end.

Fixpoint action_tree (a : action) : list sp_node :=
  match a with
  | ARecord k _ _ => [TKey k]
  | AUpdatePaths _ => []
  | AParallel cs =>
      par_nodes (map (λ bc : bool * list action,
                        if fst bc then flat_map action_tree (snd bc) else []) cs)
  end.
Definition actions_tree (c : list action) : list sp_node := flat_map action_tree c.
Definition children_trees (cs : list (bool * list action)) : list (list sp_node) :=
  map (λ bc : bool * list action, if fst bc then actions_tree (snd bc) else []) cs.

Fixpoint action_validity (a : action) : DiceValidity :=
  match a with
  | ARecord _ v _ => v
  | AUpdatePaths _ => Valid
  | AParallel cs =>
      foldr (λ (bc : bool * list action) acc,
               DiceValidity_and acc
                 (if fst bc then foldr (λ a acc, DiceValidity_and acc (action_validity a)) Valid (snd bc)
                  else Valid)) Valid cs
  end.
Definition actions_validity (c : list action) : DiceValidity :=
  foldr (λ a acc, DiceValidity_and acc (action_validity a)) Valid c.
Definition children_validity (cs : list (bool * list action)) : DiceValidity :=
  foldr (λ (bc : bool * list action) acc,
           DiceValidity_and acc (if fst bc then actions_validity (snd bc) else Valid)) Valid cs.

Section action_ind.
Variable P : action → Prop.
Hypothesis HRec : ∀ k v p, P (ARecord k v p).
Hypothesis HUpd : ∀ p, P (AUpdatePaths p).
Hypothesis HPar : ∀ cs, Forall (λ bc, Forall P (snd bc)) cs → P (AParallel cs).

Fixpoint action_nested_ind (a : action) : P a :=
  match a with
  | ARecord k v p => HRec k v p
  | AUpdatePaths p => HUpd p
  | AParallel cs => HPar cs
      ((fix go (cs : list (bool * list action)) : Forall (λ bc, Forall P (snd bc)) cs :=
          match cs with
          | [] => List.Forall_nil _
          | bc :: cs => List.Forall_cons _ _ _
              ((fix go' (c : list action) : Forall P c :=
                  match c with
                  | [] => List.Forall_nil _
                  | a :: c => List.Forall_cons _ _ _ (action_nested_ind a) (go' c)
                  end) (snd bc)) (go cs)
          end) cs)
  end.
End action_ind.

Lemma run_action_parallel children t :
  run_action (AParallel children) t =
  '(t, paths) ← RecordingDepsTracker_push_parallel t;
  slots ← run_children children paths;
  Ok (mkTracker (rt_deps t) (Some slots)).
Proof.
  cbn [run_action]. destruct (RecordingDepsTracker_push_parallel t) as [[t' paths]|]; [|done].
  cbn [mbind outcome_bind].
  match goal with |- (?F children ≫= _) = _ => assert (∀ cs, F cs = run_children cs paths) as H end.
  { intros cs. induction cs as [|[b c] cs IH]; cbn [run_children]; [done|]. rewrite <- IH. done. }
  by rewrite H.
Qed.

Lemma action_tree_parallel cs : action_tree (AParallel cs) = par_nodes (children_trees cs).
Proof. done. Qed.

Lemma action_validity_parallel cs : action_validity (AParallel cs) = children_validity cs.
Proof. done. Qed.

(** * The recorder refines the tree *)

Lemma DiceValidity_and_assoc a b c :
  DiceValidity_and (DiceValidity_and a b) c = DiceValidity_and a (DiceValidity_and b c).
Proof. by destruct a, b, c. Qed.

Lemma DiceValidity_and_comm a b : DiceValidity_and a b = DiceValidity_and b a.
Proof. by destruct a, b. Qed.

Definition slots_validity (v : DiceValidity) (slots : list RecordedDeps) : DiceValidity :=
  foldl (λ v s, DiceValidity_and v (rd_deps_validity s)) v slots.

Lemma slots_validity_and v slots :
  slots_validity v slots = DiceValidity_and v (slots_validity Valid slots).
Proof.
  unfold slots_validity. revert v. induction slots as [|s slots IH]; intros v; cbn [foldl].
  - by destruct v.
  - rewrite (IH (DiceValidity_and v _)), (IH (DiceValidity_and Valid _)).
    by rewrite !DiceValidity_and_assoc; destruct (rd_deps_validity s), (foldl _ _ slots), v.
Qed.

(** Every node of a recorded tree has a key below it. *)
Definition tree_ok (s : list sp_node) : Prop := Forall (λ n, node_keys n ≠ []) s.

Lemma tree_ok_nil_keys s : tree_ok s → series_keys s = [] → s = [].
Proof.
  destruct s as [|n s]; [done|]. intros [Hn _]%Forall_cons H.
  unfold series_keys in H. cbn in H. by apply app_eq_nil in H as [? _].
Qed.

Lemma par_nodes_ok ts : tree_ok (par_nodes ts).
Proof.
  unfold par_nodes. destruct (children_keys ts) as [|k ks] eqn:E; [constructor|].
  apply List.Forall_cons; [|constructor]. change (node_keys (TPar ts)) with (children_keys ts). by rewrite E.
Qed.

Lemma actions_tree_ok c : tree_ok (actions_tree c).
Proof.
  unfold actions_tree. induction c as [|a c IH]; cbn; [constructor|].
  apply Forall_app; split; [|done]. destruct a as [| |cs]; [by repeat constructor|constructor|].
  rewrite action_tree_parallel. apply par_nodes_ok.
Qed.

Lemma series_fits_prefix s t : series_fits (s ++ t) → series_fits s.
Proof.
  unfold series_fits, fits, series_keys, series_words. rewrite flat_map_app, map_app, length_app.
  assert (∀ p l2 l1, length (group p l1) ≤ length (group p (l1 ++ l2)))%nat as H.
  { intros p l2 l1. revert p. induction l1 as [|[w|] l1 IH]; intros p; cbn [group app length].
    - lia.
    - rewrite !length_app. specialize (IH 0). lia.
    - apply IH. }
  specialize (H 0 (map node_words t) (map node_words s)). lia.
Qed.

(** A tracker that has recorded the series [s] with validity [v]. *)
Definition tracker_rep (t : RecordingDepsTracker) (s : list sp_node) (v : DiceValidity) : Prop :=
  match rt_curr_parallel t with
  | None => represents s (rd_deps (rt_deps t)) ∧ v = rd_deps_validity (rt_deps t)
  | Some slots => ∃ s0 ts,
      s = s0 ++ par_nodes ts ∧ represents s0 (rd_deps (rt_deps t)) ∧
      Forall2 represents ts (map rd_deps slots) ∧ Forall tree_ok ts ∧
      v = slots_validity (rd_deps_validity (rt_deps t)) slots
  end.

Lemma header_of_lens c :
  SPSeriesHeader_keys_len (series_header c) = N.of_nat (length (series_keys c)) ∧
  SPSeriesHeader_encoded_len (series_header c) = N.of_nat (length (child_words c)).
Proof.
  unfold child_words, series_header, header_of. rewrite length_app.
  destruct (series_words c); cbn [SPSeriesHeader_keys_len SPSeriesHeader_encoded_len header_words length];
    lia.
Qed.

Lemma insert_parallel_counts_ok ts slots v p nk ns :
  Forall2 represents ts (map rd_deps slots) → Forall series_fits ts →
  nk + N.of_nat (length (children_keys ts)) < 2 ^ 32 → ns < 2 ^ 32 →
  ∃ p', insert_parallel_counts v p nk ns slots =
    Ok (slots_validity v slots, p', nk + N.of_nat (length (children_keys ts)),
        (ns + N.of_nat (length (children_words ts))) mod 2 ^ 32).
Proof.
  intros H. revert v p nk ns. remember (map rd_deps slots) as ds eqn:E. revert slots E.
  induction H as [|c d ts ds Hr H IH]; intros [|sl slots] [=] v p nk ns HF Hk Hw; subst.
  - exists p. cbn [insert_parallel_counts children_words children_keys flat_map length].
    by rewrite !N.add_0_r, N.mod_small.
  - inversion_clear HF as [|?? Hc HF']. cbn [insert_parallel_counts].
    rewrite (header_represents _ _ Hr Hc). cbn [mbind outcome_bind].
    destruct (header_of_lens c) as [-> ->].
    unfold children_keys, children_words in *. cbn [flat_map] in *. rewrite !length_app in *.
    rewrite (u32_add_small nk) by lia.
    edestruct IH as [p' ->]; [done|done|lia|by apply N.mod_lt|]. exists p'. do 2 f_equal; [f_equal; lia|].
    unfold u32_add. rewrite N.Div0.add_mod_idemp_l. f_equal. lia.
Qed.

Lemma par_nodes_fits s ts :
  Forall tree_ok ts → series_fits (s ++ par_nodes ts) →
  Forall series_fits ts ∧ fits (N.of_nat (length (children_keys ts))) ∧
  (children_keys ts ≠ [] → fits (N.of_nat (length (children_words ts)))).
Proof.
  intros Hok HF. unfold par_nodes in HF. destruct (children_keys ts) as [|k ks] eqn:E.
  - assert (Forall (λ c, c = []) ts) as Hn.
    { clear HF. induction ts as [|c ts IH]; [constructor|].
      apply Forall_cons in Hok as [Hc Hok]. unfold children_keys in E. cbn in E.
      apply app_eq_nil in E as [E1 E2]. constructor; [by apply tree_ok_nil_keys|auto]. }
    split_and!; [|done|done]. eapply Forall_impl; [exact Hn|]. intros c ->. done.
  - rewrite <- E. destruct HF as [F1 F2]. rewrite series_keys_snoc in F1.
    rewrite series_words_snoc_par in F2. change (node_keys (TPar ts)) with (children_keys ts) in F1.
    unfold fits in *. rewrite length_app in F1. rewrite !length_app in F2.
    split_and!; [|lia|lia].
    apply Forall_forall. intros c Hc. apply (children_fits ts c Hc); unfold fits; lia.
Qed.

Lemma flatten_rep t s v :
  tracker_rep t s v → series_fits s →
  returns (RecordingDepsTracker_flatten_parallel t)
    (λ t', tracker_rep t' s v ∧ rt_curr_parallel t' = None).
Proof.
  unfold tracker_rep, RecordingDepsTracker_flatten_parallel.
  destruct (rt_curr_parallel t) as [slots|] eqn:Et; [|cbn; by rewrite Et].
  intros (s0 & ts & -> & Hr & Hts & Hok & ->) HF.
  destruct (par_nodes_fits _ _ Hok HF) as (HFs & Hk & Hw). unfold fits in Hk.
  destruct (insert_parallel_counts_ok ts slots (rd_deps_validity (rt_deps t))
    (rd_invalidation_paths (rt_deps t)) 0 0 Hts HFs) as [p' Hc]; [lia|done|].
  unfold RecordedDeps_insert_parallel. rewrite Hc. cbn [mbind outcome_bind]. rewrite !N.add_0_l.
  destruct (N.eqb_spec (N.of_nat (length (children_keys ts))) 0) as [H0|H0].
  - cbn. unfold par_nodes. destruct (children_keys ts); [|cbn in H0; lia].
    by rewrite app_nil_r.
  - assert (par_nodes ts = [TPar ts]) as Hp by (unfold par_nodes; by destruct (children_keys ts)).
    rewrite N.mod_small.
    2:{ assert (children_keys ts ≠ []) as Hne by (by destruct (children_keys ts)).
        apply Hw in Hne. unfold fits in Hne. lia. }
    rewrite Hp in *. destruct (insert_parallel_represents _ _ _ _ Hr Hts HF) as (d' & -> & Hd').
    cbn. done.
Qed.

Definition action_ok (a : action) : Prop := ∀ t s v,
  tracker_rep t s v → series_fits (s ++ action_tree a) →
  returns (run_action a t)
    (λ t', tracker_rep t' (s ++ action_tree a) (DiceValidity_and v (action_validity a))).

Lemma series_ok c t s v :
  Forall action_ok c → tracker_rep t s v → series_fits (s ++ actions_tree c) →
  returns (run_series c t)
    (λ t', tracker_rep t' (s ++ actions_tree c) (DiceValidity_and v (actions_validity c))).
Proof.
  intros H. revert t s v. induction H as [|a c Ha H IH]; intros t s v Ht HF; cbn [run_series].
  - cbn. rewrite app_nil_r. exact Ht.
  - change (actions_tree (a :: c)) with (action_tree a ++ actions_tree c) in *.
    rewrite app_assoc in *. eapply returns_bind; [apply (Ha t s v Ht); by eapply series_fits_prefix|].
    intros t' Ht'. eapply returns_mono; [apply (IH _ _ _ Ht' HF)|].
    intros t'' Ht''. cbn [actions_validity foldr]. fold (actions_validity c).
    rewrite (DiceValidity_and_comm (actions_validity c)). by rewrite <- DiceValidity_and_assoc.
Qed.

Lemma tracker_new_rep paths : tracker_rep (RecordingDepsTracker_new paths) [] Valid.
Proof. done. Qed.

Lemma collect_deps_rep t s v :
  tracker_rep t s v → series_fits s →
  returns (RecordingDepsTracker_collect_deps t)
    (λ r, represents s (rd_deps r) ∧ rd_deps_validity r = v).
Proof.
  intros Ht HF. unfold RecordingDepsTracker_collect_deps.
  eapply returns_bind; [by apply flatten_rep|]. intros t' [Ht' En]. cbn.
  unfold tracker_rep in Ht'. rewrite En in Ht'. by destruct Ht' as [? ->].
Qed.

Lemma children_ok cs paths :
  Forall (λ bc, Forall action_ok (snd bc)) cs → Forall series_fits (children_trees cs) →
  returns (run_children cs paths)
    (λ slots, Forall2 represents (children_trees cs) (map rd_deps slots) ∧
              slots_validity Valid slots = children_validity cs).
Proof.
  induction 1 as [|[b c] cs Hc H IH]; intros HF; [by split; [constructor|]|].
  cbn [children_trees map fst snd] in *. apply Forall_cons in HF as [HFc HF].
  fold (children_trees cs) in *. cbn [run_children].
  apply (returns_bind _ _
    (λ r, represents (if b then actions_tree c else []) (rd_deps r) ∧
          rd_deps_validity r = if b then actions_validity c else Valid)).
  - unfold parallel_child. destruct b; [|done].
    eapply returns_bind; [by apply (series_ok c _ [] Valid); auto using tracker_new_rep|].
    intros t' Ht'. eapply returns_mono; [by apply (collect_deps_rep _ _ _ Ht')|].
    intros r [Hr ->]. split; [done|]. by destruct (actions_validity c).
  - intros slot [Hr Hv]. eapply returns_bind; [by apply IH|]. intros slots [Hs Hvs].
    split; [by constructor|]. cbn [children_validity foldr fst snd]. fold (children_validity cs).
    unfold slots_validity. cbn [foldl]. fold (slots_validity (DiceValidity_and Valid (rd_deps_validity slot)) slots).
    rewrite slots_validity_and, Hvs, Hv. rewrite DiceValidity_and_comm.
    by destruct b, (actions_validity c), (children_validity cs).
Qed.

Lemma push_parallel_rep t s v :
  tracker_rep t s v → series_fits s →
  returns (RecordingDepsTracker_push_parallel t)
    (λ '(t', _), represents s (rd_deps (rt_deps t')) ∧ rd_deps_validity (rt_deps t') = v).
Proof.
  intros Ht HF. unfold RecordingDepsTracker_push_parallel.
  eapply returns_bind; [by apply flatten_rep|]. intros t' [Ht' En]. unfold tracker_rep in Ht'.
  rewrite En in *. cbn. by destruct Ht' as [? ->].
Qed.

Lemma action_ok_all a : action_ok a.
Proof.
  induction a as [k va p|p|cs IH] using action_nested_ind; intros t s v Ht HF.
  - cbn [run_action action_tree action_validity] in *. unfold RecordingDepsTracker_record.
    eapply returns_bind; [apply (flatten_rep t s v Ht); by eapply series_fits_prefix|].
    intros t' [Ht' En]. unfold tracker_rep in *. rewrite En in Ht'. cbn. rewrite En.
    destruct Ht' as [Hr ->]. split; [by apply insert_represents|done].
  - cbn. rewrite app_nil_r. unfold tracker_rep in *. cbn. by destruct (rt_curr_parallel t), v.
  - rewrite run_action_parallel, action_tree_parallel, action_validity_parallel in *.
    eapply returns_bind; [apply (push_parallel_rep t s v Ht); by eapply series_fits_prefix|].
    intros [t' paths] [Hr Hv].
    assert (Forall tree_ok (children_trees cs)) as Hok.
    { apply Forall_forall. intros x ([b c] & -> & _)%list_elem_of_fmap.
      cbn. destruct b; [apply actions_tree_ok|constructor]. }
    destruct (par_nodes_fits s (children_trees cs) Hok HF) as (HFs & _ & _).
    eapply returns_bind; [by apply children_ok|]. intros slots [Hs Hvs]. cbn.
    exists s, (children_trees cs). split_and!; try done.
    rewrite slots_validity_and. cbn. by rewrite Hv, Hvs.
Qed.

(** C37. A computation that records keys, and runs parallel sections nested to
    any depth, never panics in the recorder as long as the counts of its dependency tree fit
    in 28 bits, and ends with a graph that lists exactly the keys it recorded in order, that
    the iterators traverse as exactly the tree of its calls (parallel sections with nothing
    recorded left out, dropped children empty), and whose validity is transient iff some
    recorded dependency was transient. *)
Theorem recorder_correct (c : list action) (paths : TrackedInvalidationPaths) (fuel : nat) :
  series_fits (actions_tree c) → (series_size (actions_tree c) < fuel)%nat →
  ∃ t r, run_series c (RecordingDepsTracker_new paths) = Ok t ∧
    RecordingDepsTracker_collect_deps t = Ok r ∧
    SeriesParallelDeps_iter_keys (rd_deps r) = series_keys (actions_tree c) ∧
    collect_deps_tree fuel (rd_deps r) = Ok (actions_tree c) ∧
    rd_deps_validity r = actions_validity c.
Proof.
  intros HF Hfuel.
  assert (returns (run_series c (RecordingDepsTracker_new paths))
    (λ t, tracker_rep t (actions_tree c) (actions_validity c))) as (t & Ht & Hrep)%returns_Ok.
  { eapply returns_mono; [apply (series_ok c _ [] Valid)|]; auto using tracker_new_rep.
    - apply Forall_forall. intros a _. apply action_ok_all.
    - intros t. by destruct (actions_validity c). }
  pose proof (collect_deps_rep _ _ _ Hrep HF) as (r & Hr & [Hd Hv])%returns_Ok.
  exists t, r. split_and!; [done|done|by destruct Hd| |done].
  by apply represents_collect.
Qed.

Lemma recorder_correct_witness :
  ∃ t r, run_series [ARecord 1 Valid TrackedInvalidationPaths_clean;
                     AParallel [(true, [ARecord 2 Transient TrackedInvalidationPaths_clean;
                                        AParallel [(true, [ARecord 3 Valid TrackedInvalidationPaths_clean])]]);
                                (false, [ARecord 4 Valid TrackedInvalidationPaths_clean])]]
           (RecordingDepsTracker_new TrackedInvalidationPaths_clean) = Ok t ∧
         RecordingDepsTracker_collect_deps t = Ok r ∧
         collect_deps_tree 20 (rd_deps r) = Ok [TKey 1; TPar [[TKey 2; TPar [[TKey 3]]]; []]] ∧
         rd_deps_validity r = Transient.
Proof.
  edestruct (recorder_correct [ARecord 1 Valid TrackedInvalidationPaths_clean;
                     AParallel [(true, [ARecord 2 Transient TrackedInvalidationPaths_clean;
                                        AParallel [(true, [ARecord 3 Valid TrackedInvalidationPaths_clean])]]);
                                (false, [ARecord 4 Valid TrackedInvalidationPaths_clean])]]
             TrackedInvalidationPaths_clean 20) as (t & r & H1 & H2 & H3 & H4 & H5).
  - split; vm_compute; reflexivity.
  - vm_compute. lia.
  - exists t, r. split; [exact H1|]. split; [exact H2|]. split; [exact H4|exact H5].
Defined.
