(* ===== verification/LazyDeps.v ===== *)
(** The lazily deduplicated set of reverse dependencies, from
    [src/deps/dice/dice/src/impls/core/graph/lazy_deps.rs].

    The vector is sorted and deduplicated only when a block of insertions at a new version
    starts and the vector has grown past a threshold; as a set it always holds exactly the
    keys inserted since the last [drain]. *)
From S2P Require Import Prelude Versions Values.
Local Open Scope N_scope.

(** * Definitions *)

Inductive LazyState :=
| LazyNew
| LazyGrowing (latest_version : VersionNumber) (this_version_count min_size : N).

Record LazyDepsSet := mkLazy {
  lazy_data : list DiceKey;
  lazy_state : LazyState;
}.

(** [Vec::sort] *)
Definition vec_sort (l : list N) : list N := merge_sort N.le l.

(** [Vec::dedup]: removes consecutive repeated elements. *)
Fixpoint vec_dedup (l : list N) : list N :=
  match l with
  | x :: (y :: _) as l' => if x =? y then vec_dedup l' else x :: vec_dedup l'
  | _ => l
  end.

Definition LazyDepsSet_new : LazyDepsSet := mkLazy [] LazyNew.

Definition LazyDepsSet_insert (self : LazyDepsSet) (v : VersionNumber) (k : DiceKey)
  : LazyDepsSet :=
  let self :=
    match lazy_state self with
    | LazyNew => mkLazy (lazy_data self) (LazyGrowing v 1 0)
    | LazyGrowing latest_version this_version_count min_size =>
        if latest_version =? v then
          mkLazy (lazy_data self)
            (LazyGrowing latest_version (u32_add this_version_count 1) min_size)
        else if latest_version <? v then
          let min_size := N.max min_size this_version_count in
          let resize_threshold := N.max 10 (min_size * 3 / 2) in
          if resize_threshold <? N.of_nat (length (lazy_data self)) then
            let data := vec_dedup (vec_sort (lazy_data self)) in
            mkLazy data (LazyGrowing v 1 (N.of_nat (length data) mod 2 ^ 32))
          else mkLazy (lazy_data self) (LazyGrowing v 1 min_size)
        else self
    end in
  mkLazy (lazy_data self ++ [k]) (lazy_state self).

(** The drained keys and the emptied set. *)
Definition LazyDepsSet_drain (self : LazyDepsSet) : list DiceKey * LazyDepsSet :=
  (lazy_data self, mkLazy [] LazyNew).

Definition LazyDepsSet_iter (self : LazyDepsSet) : list DiceKey := lazy_data self.

(** * The set it represents *)

Lemma vec_dedup_cons2 x y l :
  vec_dedup (x :: y :: l) = if x =? y then vec_dedup (y :: l) else x :: vec_dedup (y :: l).
Proof. done. Qed.

Lemma vec_dedup_elem l x : x ∈ vec_dedup l ↔ x ∈ l.
Proof.
  induction l as [|y [|z l] IH]; [done|done|].
  rewrite vec_dedup_cons2. destruct (N.eqb_spec y z) as [->|Hn].
  - rewrite IH. set_solver.
  - rewrite !elem_of_cons. rewrite IH. set_solver.
Qed.

Lemma vec_sort_elem l x : x ∈ vec_sort l ↔ x ∈ l.
Proof. unfold vec_sort. by rewrite merge_sort_Permutation. Qed.

Lemma LazyDepsSet_insert_elem s v k x :
  x ∈ lazy_data (LazyDepsSet_insert s v k) ↔ x ∈ lazy_data s ∨ x = k.
Proof.
  unfold LazyDepsSet_insert. cbn. rewrite elem_of_app, list_elem_of_singleton.
  repeat case_match; cbn; try done. by rewrite vec_dedup_elem, vec_sort_elem.
Qed.

Lemma vec_dedup_NoDup l : Sorted N.le l → NoDup (vec_dedup l).
Proof.
  assert (Transitive N.le) as Htr by (intros ???; lia).
  intros H%Sorted_StronglySorted; [|done]. induction H as [|x l H IH Hx]; [constructor|].
  destruct l as [|y l]; [repeat constructor; set_solver|].
  rewrite vec_dedup_cons2. destruct (N.eqb_spec x y) as [->|Hn]; [done|].
  constructor; [|done]. rewrite vec_dedup_elem. intros Hin. apply Forall_cons in Hx as [Hxy Hx].
  apply elem_of_cons in Hin as [->|Hin]; [done|]. inversion_clear H as [|?? _ Hy].
  rewrite Forall_forall in Hy. specialize (Hy _ Hin). lia.
Qed.

Inductive lazy_op := OpInsert (v : VersionNumber) (k : DiceKey) | OpDrain.

Definition lazy_run (s : LazyDepsSet) (op : lazy_op) : LazyDepsSet :=
  match op with
  | OpInsert v k => LazyDepsSet_insert s v k
  | OpDrain => snd (LazyDepsSet_drain s)
  end.

(** The reference: a finite set. *)
Definition set_run (s : gset DiceKey) (op : lazy_op) : gset DiceKey :=
  match op with OpInsert _ k => s ∪ {[k]} | OpDrain => ∅ end.

(** After any sequence of insertions (at any versions) and drains, the
    keys the set iterates over, and the keys a drain returns, are exactly those of a plain set
    run on the same operations: the postponed sort-and-deduplicate never loses or invents a
    key.  When it runs it leaves no duplicates. *)
Theorem lazy_deps_set_refines (ops : list lazy_op) :
  let s := foldl lazy_run LazyDepsSet_new ops in
  list_to_set (LazyDepsSet_iter s) = foldl set_run ∅ ops ∧
  list_to_set (fst (LazyDepsSet_drain s)) = foldl set_run ∅ ops ∧
  NoDup (vec_dedup (vec_sort (lazy_data s))).
Proof.
  intros s. assert (list_to_set (LazyDepsSet_iter s) = foldl set_run ∅ ops) as H.
  { subst s. induction ops as [|op ops IH] using rev_ind; [done|].
    rewrite !foldl_app. cbn [foldl]. rewrite <- IH. destruct op as [v k|]; cbn [lazy_run set_run]; [|done].
    apply set_eq. intros x. unfold LazyDepsSet_iter.
    rewrite elem_of_list_to_set, LazyDepsSet_insert_elem. set_solver. }
  split_and!; [done|exact H|]. apply vec_dedup_NoDup, Sorted_merge_sort. intros x y. lia.
Qed.
