(* ===== verification/Nodes.v ===== *)
(** Nodes of the versioned graph, from
    [src/deps/dice/dice/src/impls/core/graph/nodes.rs], with the result types of
    [core/graph/types.rs] and [ValueReusable] of [core/graph/storage.rs].

    A node is occupied (a computed value with its verified version ranges), injected (every
    value ever injected, by version) or vacant (only a force-dirty history).  The operations
    return the updated node; a panic of the source is [Panic]. *)
From S2P Require Import Prelude Versions Values SPDeps LazyDeps.
Local Open Scope N_scope.
Local Open Scope dice_scope.

(** * Force-dirty history *)

Record ForceDirtyHistory := mkHistory {
  fd_versions : option (list VersionNumber * InvalidationSourcePriority);
}.

Definition ForceDirtyHistory_new : ForceDirtyHistory := mkHistory None.

Definition ForceDirtyHistory_force_dirty (self : ForceDirtyHistory) (v : VersionNumber)
  (invalidation_priority : InvalidationSourcePriority) : outcome (ForceDirtyHistory * bool) :=
  match fd_versions self with
  | Some (versions, priority) =>
      l ← expect (last versions);
      if l =? v then Ok (self, false)
      else Ok (mkHistory (Some (versions ++ [v], priority)), true)
  | None => Ok (mkHistory (Some ([v], invalidation_priority)), true)
  end.

(** The loop over the dirtied versions from the latest: [(begin, end)]. *)
Fixpoint get_x_loop (rev_dirties : list VersionNumber) (version : VersionNumber)
  (end_ : option VersionNumber) : option VersionNumber * option VersionNumber :=
  match rev_dirties with
  | [] => (None, end_)
  | dirty_v :: rest =>
      if dirty_v <=? version then (Some dirty_v, end_) else get_x_loop rest version (Some dirty_v)
  end.

Definition ForceDirtyHistory_get_x (self : ForceDirtyHistory) (version : VersionNumber)
  : outcome (VersionRange * InvalidationSourcePriority) :=
  match fd_versions self with
  | None => Ok (VersionRange_begins_with VersionNumber_ZERO, PriorityNormal)
  | Some (dirties, invalidation_priority) =>
      r ← match get_x_loop (reverse dirties) version None with
          | (Some begin_, Some end_) => VersionRange_bounded begin_ end_
          | (Some begin_, None) => Ok (VersionRange_begins_with begin_)
          | (None, Some end_) => VersionRange_bounded (VersionNumber_new 0) end_
          | (None, None) => Ok (VersionRange_begins_with VersionNumber_ZERO)
          end;
      Ok (r, invalidation_priority)
  end.

Definition ForceDirtyHistory_restricted_range (self : ForceDirtyHistory)
  (version : VersionNumber) : outcome VersionRange :=
  '(r, _) ← ForceDirtyHistory_get_x self version; Ok r.

Definition ForceDirtyHistory_to_introspectable (self : ForceDirtyHistory) : list N :=
  match fd_versions self with Some (versions, _) => versions | None => [] end.

(** * Node data *)

(** [DataKey] is a [u128] newtype of the pagable store. *)
Notation DataKey := N (only parsing).

Section Nodes.
Context {V : Type} `{!DiceValueDyn V}.

Record PagableNodeValue := mkPagable {
  pv_value : option V;
  pv_data_key : option DataKey;
}.

Definition PagableNodeValue_hydrated (value : V) : PagableNodeValue := mkPagable (Some value) None.

Definition PagableNodeValue_expect_hydrated (self : PagableNodeValue) : outcome V :=
  expect (pv_value self).

Definition PagableNodeValue_as_hydrated (self : PagableNodeValue) : option V := pv_value self.

Record NodeMetadata := mkMeta {
  md_deps : SeriesParallelDeps;
  md_rdeps : LazyDepsSet;
  md_verified_ranges : VersionRanges;
  md_dirtied_history : ForceDirtyHistory;
}.

Record OccupiedGraphNode := mkOccupied {
  occ_key : DiceKey;
  occ_res : PagableNodeValue;
  occ_metadata : NodeMetadata;
  occ_invalidation_paths : TrackedInvalidationPaths;
}.

Record VacantGraphNode := mkVacant {
  vac_key : DiceKey;
  vac_dirtied_history : ForceDirtyHistory;
  vac_invalidation_priority : InvalidationSourcePriority;
}.

Record InjectedNodeData := mkInjectedData {
  inj_value : V;
  inj_first_valid_version : VersionNumber;
  inj_valid_versions : VersionRanges;
}.

(** [values] is a [SortedVectorMap]: an association list sorted by version. *)
Record InjectedGraphNode := mkInjected {
  inj_key : DiceKey;
  inj_values : list (VersionNumber * InjectedNodeData);
  inj_rdeps : LazyDepsSet;
  inj_invalidation_paths : TrackedInvalidationPaths;
}.

Inductive VersionedGraphNode :=
| Occupied (e : OccupiedGraphNode)
| InjectedNode (e : InjectedGraphNode)
| Vacant (e : VacantGraphNode).

(** ** Results *)

Record VersionedGraphKey := mkGraphKey { gk_v : VersionNumber; gk_k : DiceKey }.

Record VersionedGraphResultMismatch := mkMismatch {
  mm_entry : V;
  mm_prev_verified_version : VersionNumber;
  mm_deps_to_validate : SeriesParallelDeps;
}.

Record PagedOutMatch := mkPagedOutMatch {
  pom_data_key : DataKey;
  pom_valid : VersionRanges;
  pom_invalidation_paths : TrackedInvalidationPaths;
}.

Record PagedOutMismatch := mkPagedOutMismatch {
  pmm_data_key : DataKey;
  pmm_prev_verified_version : VersionNumber;
  pmm_deps_to_validate : SeriesParallelDeps;
}.

Inductive VersionedGraphResult :=
| Match (v : DiceComputedValue V)
| MatchPagedOut (m : PagedOutMatch)
| CheckDeps (m : VersionedGraphResultMismatch)
| CheckDepsPagedOut (m : PagedOutMismatch)
| Compute
| RejectedDueToGraphClear.

(** The drained rdeps, when there are any to invalidate. *)
Inductive InvalidateResult :=
| NoChange
| Changed (rdeps : option (list DiceKey)).

Inductive ValueReusable :=
| EqualityBased
| VersionBased (version : VersionNumber).

(** * Metadata *)

Definition NodeMetadata_should_add_rdep_at (self : NodeMetadata) (v : VersionNumber) : bool :=
  match VersionRanges_last (md_verified_ranges self) with
  | Some last =>
      if v <? vr_begin last then false
      else match vr_end last with Some _ => false | None => true end
  | None => true
  end.

Definition NodeMetadata_ever_valid_after (self : NodeMetadata) (v : VersionNumber) : bool :=
  match VersionRanges_last (md_verified_ranges self) with
  | Some last => match vr_end last with Some end_ => v <? end_ | None => true end
  | None => false
  end.

(** Field updates. *)
Definition meta_set_rdeps (m : NodeMetadata) (r : LazyDepsSet) : NodeMetadata :=
  mkMeta (md_deps m) r (md_verified_ranges m) (md_dirtied_history m).
Definition meta_set_ranges (m : NodeMetadata) (r : VersionRanges) : NodeMetadata :=
  mkMeta (md_deps m) (md_rdeps m) r (md_dirtied_history m).
Definition meta_set_history (m : NodeMetadata) (h : ForceDirtyHistory) : NodeMetadata :=
  mkMeta (md_deps m) (md_rdeps m) (md_verified_ranges m) h.
Definition occ_set_meta (o : OccupiedGraphNode) (m : NodeMetadata) : OccupiedGraphNode :=
  mkOccupied (occ_key o) (occ_res o) m (occ_invalidation_paths o).
Definition occ_set_res (o : OccupiedGraphNode) (r : PagableNodeValue) : OccupiedGraphNode :=
  mkOccupied (occ_key o) r (occ_metadata o) (occ_invalidation_paths o).
Definition occ_set_paths (o : OccupiedGraphNode) (p : TrackedInvalidationPaths)
  : OccupiedGraphNode := mkOccupied (occ_key o) (occ_res o) (occ_metadata o) p.

(** * Occupied nodes *)

Definition OccupiedGraphNode_new (key : DiceKey) (res : V) (deps : SeriesParallelDeps)
  (verified_ranges : VersionRanges) (dirtied_history : ForceDirtyHistory)
  (invalidation_paths : TrackedInvalidationPaths) : OccupiedGraphNode :=
  mkOccupied key (PagableNodeValue_hydrated res)
    (mkMeta deps LazyDepsSet_new (VersionRanges_into_arc verified_ranges) dirtied_history)
    invalidation_paths.

Definition OccupiedGraphNode_mark_unchanged (self : OccupiedGraphNode) (version : VersionNumber)
  (valid_deps_versions : VersionRanges) (new_invalidation_paths : TrackedInvalidationPaths)
  : outcome OccupiedGraphNode :=
  let m := occ_metadata self in
  restricted ← ForceDirtyHistory_restricted_range (md_dirtied_history m) version;
  '(valid, _) ← VersionRanges_intersect_range valid_deps_versions restricted;
  this ← VersionRange_bounded version (VersionNumber_new (version + 1));
  valid ← VersionRanges_insert valid this;
  ranges ← (if VersionRanges_is_empty valid then Ok (md_verified_ranges m)
            else VersionRanges_union_in_place (md_verified_ranges m) valid);
  Ok (mkOccupied (occ_key self) (occ_res self) (meta_set_ranges m ranges)
       (TrackedInvalidationPaths_update (occ_invalidation_paths self) new_invalidation_paths)).

Definition OccupiedGraphNode_rehydrate (self : OccupiedGraphNode) (value : V)
  : OccupiedGraphNode :=
  occ_set_res self (mkPagable (Some value) (pv_data_key (occ_res self))).

Definition OccupiedGraphNode_set_paged_out (self : OccupiedGraphNode) (data_key : DataKey)
  : OccupiedGraphNode := occ_set_res self (mkPagable None (Some data_key)).

Definition OccupiedGraphNode_computed_val (self : OccupiedGraphNode)
  (for_version : VersionNumber) : outcome (DiceComputedValue V) :=
  v ← PagableNodeValue_expect_hydrated (occ_res self);
  Ok (DiceComputedValue_new (MaybeValidDiceValue_valid v)
        (md_verified_ranges (occ_metadata self))
        (TrackedInvalidationPaths_at_version (occ_invalidation_paths self) for_version)).

Definition OccupiedGraphNode_on_injected (self : OccupiedGraphNode) (version : VersionNumber)
  (value : V) (invalidation_priority : InvalidationSourcePriority)
  : OccupiedGraphNode * InvalidateResult :=
  let same := match PagableNodeValue_as_hydrated (occ_res self) with
              | Some existing => value_equality existing value
              | None => false
              end in
  if same then (self, NoChange)
  else
    let '(rdeps, empty) := LazyDepsSet_drain (md_rdeps (occ_metadata self)) in
    (mkOccupied (occ_key self) (PagableNodeValue_hydrated value)
       (mkMeta SPNone empty (VersionRange_into_ranges (VersionRange_begins_with version))
          (md_dirtied_history (occ_metadata self)))
       (TrackedInvalidationPaths_update (occ_invalidation_paths self)
          (TrackedInvalidationPaths_new invalidation_priority (occ_key self) version)),
     Changed (Some rdeps)).

Definition OccupiedGraphNode_at_version (self : OccupiedGraphNode) (v : VersionNumber)
  : outcome VersionedGraphResult :=
  let m := occ_metadata self in
  let res := occ_res self in
  found ← VersionRanges_find_value_upper_bound (md_verified_ranges m) v;
  match found with
  | Some found =>
      if found =? v then
        match pv_value res with
        | Some _ => cv ← OccupiedGraphNode_computed_val self v; Ok (Match cv)
        | None =>
            data_key ← expect (pv_data_key res);
            Ok (MatchPagedOut (mkPagedOutMatch data_key (md_verified_ranges m)
                  (TrackedInvalidationPaths_at_version (occ_invalidation_paths self) v)))
        end
      else
        restricted ← ForceDirtyHistory_restricted_range (md_dirtied_history m) v;
        if VersionRange_contains restricted found then
          match pv_value res with
          | Some value => Ok (CheckDeps (mkMismatch value found (md_deps m)))
          | None =>
              data_key ← expect (pv_data_key res);
              Ok (CheckDepsPagedOut (mkPagedOutMismatch data_key found (md_deps m)))
          end
        else Ok Compute
  | None => Ok Compute
  end.

Definition OccupiedGraphNode_add_rdep_at (self : OccupiedGraphNode) (v : VersionNumber)
  (k : DiceKey) : OccupiedGraphNode :=
  let m := occ_metadata self in
  if NodeMetadata_should_add_rdep_at m v
  then occ_set_meta self (meta_set_rdeps m (LazyDepsSet_insert (md_rdeps m) v k))
  else self.

Definition OccupiedGraphNode_mark_invalidated (self : OccupiedGraphNode) (v : VersionNumber)
  (invalidation_priority : option InvalidationSourcePriority)
  : outcome (OccupiedGraphNode * bool) :=
  let self :=
    match invalidation_priority with
    | Some p => occ_set_paths self (TrackedInvalidationPaths_update (occ_invalidation_paths self)
                                      (TrackedInvalidationPaths_new p (occ_key self) v))
    | None => self
    end in
  let m := occ_metadata self in
  '(ranges, changed) ←
     (if v =? VersionNumber_ZERO then
        Ok (VersionRanges_clear (md_verified_ranges m),
            negb (VersionRanges_is_empty (md_verified_ranges m)))
      else
        before ← VersionRange_bounded VersionNumber_ZERO v;
        VersionRanges_intersect_range (md_verified_ranges m) before);
  Ok (occ_set_meta self (meta_set_ranges m ranges), changed).

(** [self.metadata.rdeps.drain()] in the [Changed] result. *)
Definition occ_drain (self : OccupiedGraphNode) : OccupiedGraphNode * InvalidateResult :=
  let '(rdeps, empty) := LazyDepsSet_drain (md_rdeps (occ_metadata self)) in
  (occ_set_meta self (meta_set_rdeps (occ_metadata self) empty), Changed (Some rdeps)).

Definition OccupiedGraphNode_force_dirty (self : OccupiedGraphNode) (v : VersionNumber)
  (invalidation_priority : InvalidationSourcePriority)
  : outcome (OccupiedGraphNode * InvalidateResult) :=
  '(self, _) ← OccupiedGraphNode_mark_invalidated self v (Some invalidation_priority);
  '(h, dirtied) ← ForceDirtyHistory_force_dirty (md_dirtied_history (occ_metadata self)) v
                    invalidation_priority;
  let self := occ_set_meta self (meta_set_history (occ_metadata self) h) in
  Ok (if (dirtied : bool) then occ_drain self else (self, NoChange)).

Definition OccupiedGraphNode_is_verified_at (self : OccupiedGraphNode) (version : VersionNumber)
  : outcome bool := VersionRanges_contains (md_verified_ranges (occ_metadata self)) version.

Definition ValueReusable_is_reusable (self : ValueReusable) (new_value : V)
  (new_deps : SeriesParallelDeps) (value : OccupiedGraphNode) : outcome bool :=
  match self with
  | EqualityBased =>
      if decide (new_deps = md_deps (occ_metadata value)) then
        Ok (match PagableNodeValue_as_hydrated (occ_res value) with
            | Some v => value_equality new_value v
            | None => false
            end)
      else Ok false
  | VersionBased version => OccupiedGraphNode_is_verified_at value version
  end.

(** * Vacant nodes *)

Definition VacantGraphNode_new (key : DiceKey) (invalidation_priority : InvalidationSourcePriority)
  : VacantGraphNode := mkVacant key ForceDirtyHistory_new invalidation_priority.

Definition VacantGraphNode_force_dirty (self : VacantGraphNode) (v : VersionNumber)
  (invalidation_priority : InvalidationSourcePriority) : outcome (VacantGraphNode * bool) :=
  assert! (bool_decide (vac_invalidation_priority self = invalidation_priority));;
  '(h, b) ← ForceDirtyHistory_force_dirty (vac_dirtied_history self) v invalidation_priority;
  Ok (mkVacant (vac_key self) h (vac_invalidation_priority self), b).

(** * Injected nodes *)

Definition InjectedGraphNode_new_node_data (value : V) (version : VersionNumber)
  : InjectedNodeData :=
  mkInjectedData value version (VersionRange_into_ranges (VersionRange_begins_with version)).

(** [SortedVectorMap::insert]: replaces the entry with an equal key. *)
Fixpoint sorted_map_insert (k : VersionNumber) (x : InjectedNodeData)
  (m : list (VersionNumber * InjectedNodeData)) : list (VersionNumber * InjectedNodeData) :=
  match m with
  | [] => [(k, x)]
  | (k', x') :: m' =>
      if k <? k' then (k, x) :: m
      else if k =? k' then (k, x) :: m'
      else (k', x') :: sorted_map_insert k x m'
  end.

(** [values_mut().next_back()] assigned. *)
Definition set_last_valid (m : list (VersionNumber * InjectedNodeData)) (r : VersionRanges)
  : list (VersionNumber * InjectedNodeData) :=
  match last m with
  | Some (k, d) =>
      removelast m ++ [(k, mkInjectedData (inj_value d) (inj_first_valid_version d) r)]
  | None => m
  end.

Definition InjectedGraphNode_on_injected (self : InjectedGraphNode) (version : VersionNumber)
  (value : V) (invalidation_priority : InvalidationSourcePriority)
  : outcome (InjectedGraphNode * InvalidateResult) :=
  let changed (values : list (VersionNumber * InjectedNodeData)) :=
    let '(rdeps, empty) := LazyDepsSet_drain (inj_rdeps self) in
    (mkInjected (inj_key self)
       (sorted_map_insert version (InjectedGraphNode_new_node_data value version) values) empty
       (TrackedInvalidationPaths_update (inj_invalidation_paths self)
          (TrackedInvalidationPaths_new invalidation_priority (inj_key self) version)),
     Changed (Some rdeps)) in
  match last (inj_values self) with
  | Some (_, v) =>
      if value_equality (inj_value v) value then Ok (self, NoChange)
      else
        r ← VersionRange_bounded (inj_first_valid_version v) version;
        Ok (changed (set_last_valid (inj_values self) (VersionRange_into_ranges r)))
  | None => Ok (changed (inj_values self))
  end.

(** [range(..=v).next_back()] *)
Definition InjectedGraphNode_data_at (self : InjectedGraphNode) (v : VersionNumber)
  : option (VersionNumber * InjectedNodeData) :=
  last (filter (λ kd, kd.1 ≤ v) (inj_values self)).

Definition InjectedGraphNode_at_version (self : InjectedGraphNode) (v : VersionNumber)
  : VersionedGraphResult :=
  match InjectedGraphNode_data_at self v with
  | Some (_, data) =>
      Match (DiceComputedValue_new (MaybeValidDiceValue_valid (inj_value data))
               (inj_valid_versions data)
               (TrackedInvalidationPaths_at_version (inj_invalidation_paths self) v))
  | None => Compute
  end.

Definition InjectedGraphNode_add_rdep_at (self : InjectedGraphNode) (v : VersionNumber)
  (k : DiceKey) : outcome InjectedGraphNode :=
  if existsb (λ kd, kd.1 <=? v) (reverse (inj_values self)) then
    Ok (mkInjected (inj_key self) (inj_values self) (LazyDepsSet_insert (inj_rdeps self) v k)
          (inj_invalidation_paths self))
  else unreachable.

Definition InjectedGraphNode_new (k : DiceKey) (v : VersionNumber) (value : V)
  (invalidation_priority : InvalidationSourcePriority) : InjectedGraphNode :=
  mkInjected k [(v, InjectedGraphNode_new_node_data value v)] LazyDepsSet_new
    (TrackedInvalidationPaths_new invalidation_priority k v).

Definition InjectedGraphNode_latest (self : InjectedGraphNode) : outcome InjectedNodeData :=
  kd ← expect (last (inj_values self)); Ok (kd.2).

(** * Graph nodes *)

Definition VersionedGraphNode_force_dirty (self : VersionedGraphNode) (v : VersionNumber)
  (invalidation_priority : InvalidationSourcePriority)
  : outcome (VersionedGraphNode * InvalidateResult) :=
  match self with
  | Occupied e =>
      '(e, r) ← OccupiedGraphNode_force_dirty e v invalidation_priority; Ok (Occupied e, r)
  | Vacant e =>
      '(e, b) ← VacantGraphNode_force_dirty e v invalidation_priority;
      Ok (Vacant e, if (b : bool) then Changed None else NoChange)
  | InjectedNode _ => Panic
  end.

Definition VersionedGraphNode_mark_invalidated (self : VersionedGraphNode) (v : VersionNumber)
  (invalidation_priority : option InvalidationSourcePriority)
  : outcome (VersionedGraphNode * InvalidateResult) :=
  match self with
  | Occupied e =>
      '(e, b) ← OccupiedGraphNode_mark_invalidated e v invalidation_priority;
      if (b : bool) then let '(e, r) := occ_drain e in Ok (Occupied e, r)
      else Ok (Occupied e, NoChange)
  | Vacant _ | InjectedNode _ => Panic
  end.

Definition VersionedGraphNode_at_version (self : VersionedGraphNode) (v : VersionNumber)
  : outcome VersionedGraphResult :=
  match self with
  | Occupied entry => OccupiedGraphNode_at_version entry v
  | Vacant _ => Ok Compute
  | InjectedNode entry => Ok (InjectedGraphNode_at_version entry v)
  end.

Definition VersionedGraphNode_add_rdep_at (self : VersionedGraphNode) (v : VersionNumber)
  (k : DiceKey) : outcome VersionedGraphNode :=
  match self with
  | Occupied occ => Ok (Occupied (OccupiedGraphNode_add_rdep_at occ v k))
  | InjectedNode inj => inj ← InjectedGraphNode_add_rdep_at inj v k; Ok (InjectedNode inj)
  | Vacant _ => unreachable
  end.

Definition VersionedGraphNode_on_injected (self : VersionedGraphNode) (version : VersionNumber)
  (value : V) (invalidation_priority : InvalidationSourcePriority)
  : outcome (VersionedGraphNode * InvalidateResult) :=
  match self with
  | Occupied occ =>
      let '(occ, r) := OccupiedGraphNode_on_injected occ version value invalidation_priority in
      Ok (Occupied occ, r)
  | InjectedNode inj =>
      '(inj, r) ← InjectedGraphNode_on_injected inj version value invalidation_priority;
      Ok (InjectedNode inj, r)
  | Vacant vac =>
      Ok (Occupied (OccupiedGraphNode_new (vac_key vac) value SPNone
            (VersionRange_into_ranges (VersionRange_begins_with version))
            (vac_dirtied_history vac)
            (TrackedInvalidationPaths_new invalidation_priority (vac_key vac) version)),
          Changed None)
  end.

(** The part of [on_computed] after the reuse test: the restricted ranges, and the new entry
    unless the stored one is newer. *)
Definition on_computed_new (self : VersionedGraphNode) (key : VersionedGraphKey) (value : V)
  (valid_deps_versions : VersionRanges) (deps : SeriesParallelDeps)
  (invalidation_paths : TrackedInvalidationPaths) (dirtied_history : ForceDirtyHistory)
  (overwrite_entry : bool) : outcome (VersionedGraphNode * (DiceComputedValue V * bool)) :=
  '(restricted, priority) ← ForceDirtyHistory_get_x dirtied_history (gk_v key);
  let invalidation_paths :=
    if 0 <? vr_begin restricted
    then TrackedInvalidationPaths_update invalidation_paths
           (TrackedInvalidationPaths_new priority (gk_k key) (vr_begin restricted))
    else invalidation_paths in
  '(valid, _) ← VersionRanges_intersect_range valid_deps_versions restricted;
  computed_version ← VersionRange_bounded (gk_v key) (VersionNumber_new (gk_v key + 1));
  valid ← VersionRanges_insert valid computed_version;
  if overwrite_entry then
    let new := OccupiedGraphNode_new (gk_k key) value deps valid dirtied_history
                 invalidation_paths in
    ret ← OccupiedGraphNode_computed_val new (gk_v key);
    Ok (Occupied new, (ret, true))
  else
    Ok (self, (DiceComputedValue_new (MaybeValidDiceValue_valid value) valid invalidation_paths,
               true)).

Definition VersionedGraphNode_on_computed (self : VersionedGraphNode) (key : VersionedGraphKey)
  (value : V) (valid_deps_versions : VersionRanges) (reusable : ValueReusable)
  (deps : SeriesParallelDeps) (invalidation_paths : TrackedInvalidationPaths)
  : outcome (VersionedGraphNode * (DiceComputedValue V * bool)) :=
  match self with
  | Occupied entry =>
      reuse ← ValueReusable_is_reusable reusable value deps entry;
      if (reuse : bool) then
        entry ← OccupiedGraphNode_mark_unchanged entry (gk_v key) valid_deps_versions
                  invalidation_paths;
        ret ← OccupiedGraphNode_computed_val entry (gk_v key);
        Ok (Occupied entry, (ret, false))
      else
        on_computed_new self key value valid_deps_versions deps invalidation_paths
          (md_dirtied_history (occ_metadata entry))
          (negb (NodeMetadata_ever_valid_after (occ_metadata entry) (gk_v key)))
  | Vacant entry =>
      on_computed_new self key value valid_deps_versions deps invalidation_paths
        (vac_dirtied_history entry) true
  | InjectedNode _ => unreachable
  end.

Definition VersionedGraphNode_valid_versions_at (self : VersionedGraphNode) (v : VersionNumber)
  : outcome (option VersionRanges) :=
  match self with
  | Occupied occ =>
      b ← VersionRanges_contains (md_verified_ranges (occ_metadata occ)) v;
      Ok (if (b : bool) then Some (md_verified_ranges (occ_metadata occ)) else None)
  | InjectedNode inj =>
      kd ← expect (InjectedGraphNode_data_at inj v); Ok (Some (inj_valid_versions (kd.2)))
  | Vacant _ => unreachable
  end.

Definition VersionedGraphNode_intersect_valid_versions_at (self : VersionedGraphNode)
  (v : VersionNumber) (deps_verified_ranges : VersionRanges) : outcome VersionRanges :=
  o ← VersionedGraphNode_valid_versions_at self v;
  match o with
  | None => Ok (VersionRanges_clear deps_verified_ranges)
  | Some valid_ranges => VersionRanges_intersect_in_place deps_verified_ranges valid_ranges
  end.

End Nodes.
Global Arguments PagableNodeValue : clear implicits.
Global Arguments OccupiedGraphNode : clear implicits.
Global Arguments InjectedNodeData : clear implicits.
Global Arguments InjectedGraphNode : clear implicits.
Global Arguments VersionedGraphNode : clear implicits.
Global Arguments VersionedGraphResultMismatch : clear implicits.
Global Arguments VersionedGraphResult : clear implicits.

(** * Force-dirty histories restrict reuse to versions with no dirtying between them *)

Definition dirties (h : ForceDirtyHistory) : list VersionNumber :=
  ForceDirtyHistory_to_introspectable h.

(** The dirtied versions are recorded in increasing order. *)
Definition history_wf (h : ForceDirtyHistory) : Prop :=
  StronglySorted N.lt (dirties h) ∧
  match fd_versions h with Some (l, _) => l ≠ [] | None => True end.

Global Instance history_wf_dec h : Decision (history_wf h).
Proof.
  unfold history_wf. apply and_dec; [apply _|]. destruct (fd_versions h) as [[l p]|]; apply _.
Defined.

(** No dirtying of the history separates two versions. *)
Definition same_epoch (h : ForceDirtyHistory) (u v : VersionNumber) : Prop :=
  ∀ d, d ∈ dirties h → d ≤ u ↔ d ≤ v.

Global Instance same_epoch_equiv h : Equivalence (same_epoch h).
Proof.
  split.
  - intros v d _. done.
  - intros u v H d Hd. by rewrite (H d Hd).
  - intros u v w H1 H2 d Hd. by rewrite (H1 d Hd), (H2 d Hd).
Qed.

Lemma dirties_new : dirties ForceDirtyHistory_new = [].
Proof. done. Qed.

Lemma history_new_wf : history_wf ForceDirtyHistory_new.
Proof. split; [constructor|done]. Qed.

Lemma get_x_loop_spec l v e :
  StronglySorted N.lt l →
  match get_x_loop (reverse l) v e with
  | (None, e') => (∀ d, d ∈ l → v < d) ∧
                  (e' = match l with [] => e | d :: _ => Some d end)
  | (Some b, e') => b ∈ l ∧ b ≤ v ∧ (∀ d, d ∈ l → d ≤ v → d ≤ b) ∧
                  ((e' = e ∧ ∀ d, d ∈ l → d ≤ v) ∨
                   (∃ n, e' = Some n ∧ n ∈ l ∧ v < n ∧ ∀ d, d ∈ l → v < d → n ≤ d))
  end.
Proof.
  revert e. induction l as [|d l IH] using rev_ind; intros e Hs; [split; [set_solver|done]|].
  rewrite reverse_snoc. cbn [get_x_loop].
  assert (∀ x, x ∈ l → x < d) as Hlt.
  { intros x Hx. apply (StronglySorted_app_1_elem_of N.lt _ _ x d Hs Hx). set_solver. }
  apply StronglySorted_app in Hs as (_ & Hsl & _).
  destruct (N.leb_spec d v) as [Hd|Hd].
  - split_and!; [set_solver|done| |left; split; [done|]];
      intros x [Hx|Hx]%elem_of_app; try (apply Hlt in Hx; lia); set_solver.
  - specialize (IH (Some d) Hsl). destruct (get_x_loop (reverse l) v (Some d)) as [[b|] e'].
    + destruct IH as (Hb & Hbv & Hmax & He). split_and!; [set_solver|done| |right].
      * intros x [Hx|Hx]%elem_of_app ?; [by apply Hmax|]. assert (x = d) as -> by set_solver. lia.
      * destruct He as [[-> He] | (n & -> & Hn & Hvn & Hmin)].
        -- exists d. split_and!; [done|set_solver|done|]. intros x [Hx|Hx]%elem_of_app ?.
           ++ apply He in Hx. lia.
           ++ assert (x = d) as -> by set_solver. lia.
        -- exists n. split_and!; [done|set_solver|done|]. intros x [Hx|Hx]%elem_of_app ?.
           ++ by apply Hmin.
           ++ assert (x = d) as -> by set_solver. apply Hlt in Hn. lia.
    + destruct IH as [Hall ->]. split.
      * intros x [Hx|Hx]%elem_of_app; [by apply Hall|]. assert (x = d) as -> by set_solver. done.
      * by destruct l.
Qed.

Lemma get_x_spec h v :
  history_wf h →
  returns (ForceDirtyHistory_get_x h v) (λ '(r, _),
    range_wf r ∧ in_range v r ∧ ∀ u, in_range u r ↔ same_epoch h u v).
Proof.
  intros [Hs Hne]. unfold ForceDirtyHistory_get_x, dirties, same_epoch in *.
  unfold ForceDirtyHistory_to_introspectable in *. unfold dirties, ForceDirtyHistory_to_introspectable.
  destruct (fd_versions h) as [[l p]|]; cbn in Hs.
  2:{ cbn. split_and!; [done|split; cbn; [unfold VersionNumber_ZERO; lia|done]|]. intros u. split; [set_solver|].
      intros _. split; cbn; [unfold VersionNumber_ZERO; lia|done]. }
  pose proof (get_x_loop_spec l v None Hs) as H.
  destruct (get_x_loop (reverse l) v None) as [[b|] [n|]].
  - destruct H as (Hb & Hbv & Hmax & [[? _] | (n' & [= <-] & Hn & Hvn & Hmin)]); [done|].
    unfold VersionRange_bounded. rewrite VersionRange_new_wf by (cbn; lia). cbn.
    split_and!; [cbn; lia|split; cbn; lia|]. intros u. unfold in_range. cbn. split.
    + intros [H1 H2] d Hd. pose proof (Hmax d Hd). pose proof (Hmin d Hd). lia.
    + intros H. pose proof (H b Hb). pose proof (H n Hn). lia.
  - destruct H as (Hb & Hbv & Hmax & [[_ Hall] | (n' & ? & _)]); [|done]. cbn.
    split_and!; [done|split; cbn; [lia|done]|]. intros u. unfold in_range. cbn. split.
    + intros [H1 _] d Hd. pose proof (Hmax d Hd). pose proof (Hall d Hd). lia.
    + intros H. pose proof (H b Hb). split; [lia|done].
  - destruct H as [Hall Hn]. destruct l as [|d l]; [done|]. injection Hn as ->.
    pose proof (Hall d ltac:(set_solver)) as Hvd. unfold VersionRange_bounded.
    rewrite VersionRange_new_wf by (cbn; unfold VersionNumber_new; lia). cbn.
    split_and!; [cbn; unfold VersionNumber_new; lia|split; cbn; unfold VersionNumber_new; lia|].
    intros u. unfold in_range. cbn. unfold VersionNumber_new. split.
    + intros [H1 H2] x Hx. pose proof (Hall x Hx).
      apply elem_of_cons in Hx as [->|Hx]; [lia|]. inversion_clear Hs as [|?? _ Hf].
      rewrite Forall_forall in Hf. specialize (Hf x Hx). lia.
    + intros H. pose proof (H d ltac:(set_solver)). lia.
  - destruct H as [_ Hn]. by destruct l.
Qed.

Lemma restricted_range_spec h v :
  history_wf h →
  returns (ForceDirtyHistory_restricted_range h v) (λ r,
    range_wf r ∧ in_range v r ∧ ∀ u, in_range u r ↔ same_epoch h u v).
Proof.
  intros H. unfold ForceDirtyHistory_restricted_range.
  eapply returns_bind; [by apply get_x_spec|]. intros [r p]. done.
Qed.

Lemma force_dirty_spec h v p :
  history_wf h → (∀ d, d ∈ dirties h → d ≤ v) →
  returns (ForceDirtyHistory_force_dirty h v p) (λ '(h', b),
    history_wf h' ∧ (∀ d, d ∈ dirties h' ↔ d ∈ dirties h ∨ d = v) ∧
    (b = false ↔ v ∈ dirties h) ∧ (b = false → h' = h)).
Proof.
  intros [Hs Hne] Hle. unfold ForceDirtyHistory_force_dirty, dirties, history_wf in *.
  unfold ForceDirtyHistory_to_introspectable in *. unfold dirties, ForceDirtyHistory_to_introspectable.
  destruct (fd_versions h) as [[l p']|] eqn:E; cbn in *.
  - destruct (last l) as [d|] eqn:El; [|by apply last_None in El]. cbn.
    apply last_Some in El as [l' ->].
    assert (∀ x, x ∈ l' → x < d) as Hlt.
    { intros x Hx. apply (StronglySorted_app_1_elem_of N.lt _ _ x d Hs Hx). set_solver. }
    destruct (N.eqb_spec d v) as [->|Hn].
    + cbn. rewrite E. split_and!; try done; set_solver.
    + cbn. pose proof (Hle d ltac:(set_solver)) as Hd. split_and!.
      * apply StronglySorted_app_2; [|done|repeat constructor].
        intros x y Hx Hy. assert (y = v) as -> by set_solver.
        apply elem_of_app in Hx as [Hx|Hx]; [apply Hlt in Hx; lia|].
        assert (x = d) as -> by set_solver. lia.
      * by destruct l'.
      * set_solver.
      * split; [done|]. intros [Hx|Hx]%elem_of_app; [apply Hlt in Hx; lia|set_solver].
      * done.
  - split_and!; [repeat constructor|done|set_solver| |done]. split; [done|set_solver].
Qed.

(** For a node dirtied at increasing versions, recording one more
    dirtying at a version not before the last one keeps the history increasing and reports
    whether it is new, and the restricted range of a version is exactly the set of versions
    that no recorded dirtying separates from it: a cached value is reused across versions
    only if the node was not force-dirtied in between. *)
Theorem force_dirty_history_correct (h : ForceDirtyHistory) (v w : VersionNumber)
  (p : InvalidationSourcePriority) :
  history_wf h → (∀ d, d ∈ dirties h → d ≤ w) →
  ∃ h' b r, ForceDirtyHistory_force_dirty h w p = Ok (h', b) ∧ history_wf h' ∧
    (∀ d, d ∈ dirties h' ↔ d ∈ dirties h ∨ d = w) ∧ (b = false ↔ w ∈ dirties h) ∧
    ForceDirtyHistory_restricted_range h' v = Ok r ∧ VersionRange_contains r v = true ∧
    (∀ u, VersionRange_contains r u = true ↔ same_epoch h' u v).
Proof.
  intros H Hle. pose proof (force_dirty_spec h w p H Hle) as ([h' b] & E & Hh & Hd & Hb & _)%returns_Ok.
  pose proof (restricted_range_spec h' v Hh) as (r & Er & _ & Hv & Hr)%returns_Ok.
  exists h', b, r. split_and!; try done.
  - by apply VersionRange_contains_spec.
  - intros u. by rewrite VersionRange_contains_spec.
Qed.

Lemma force_dirty_history_correct_witness :
  ∃ h' b r, ForceDirtyHistory_force_dirty (mkHistory (Some ([3; 5], PriorityNormal))) 9 PriorityHigh
              = Ok (h', b) ∧
    ForceDirtyHistory_restricted_range h' 6 = Ok r ∧ VersionRange_contains r 6 = true ∧
    (∀ u, VersionRange_contains r u = true ↔ same_epoch h' u 6).
Proof.
  destruct (force_dirty_history_correct (mkHistory (Some ([3; 5], PriorityNormal))) 6 9 PriorityHigh)
    as (h' & b & r & H1 & _ & _ & _ & H2 & H3 & H4).
  - apply (bool_decide_unpack _). vm_compute. exact I.
  - apply (proj1 (Forall_forall (λ d, d ≤ 9) _)).
    apply (bool_decide_unpack _). vm_compute. exact I.
  - exists h', b, r. split; [exact H1|]. split; [exact H2|]. split; [exact H3|exact H4].
Defined.

(** * Injected nodes keep every value they were given *)

Section InjectedProps.
Context {V : Type} `{!DiceValueDyn V}.

(** The stored ranges partition the versions from the first injection on. *)
Fixpoint values_wf (m : list (VersionNumber * InjectedNodeData V)) : Prop :=
  match m with
  | [] => True
  | (k, d) :: m' =>
      inj_first_valid_version d = k ∧
      match m' with
      | [] => inj_valid_versions d = [mkRange k None]
      | (k', _) :: _ => k < k' ∧ inj_valid_versions d = [mkRange k (Some k')]
      end ∧ values_wf m'
  end.

Definition injected_wf (n : InjectedGraphNode V) : Prop :=
  values_wf (inj_values n) ∧ inj_values n ≠ [].

Definition keyed (m : list (VersionNumber * InjectedNodeData V)) : list (VersionNumber * V) :=
  map (λ kd, (kd.1, inj_value kd.2)) m.

(** The entry with the greatest version not after [v]. *)
Definition current_at {A} (m : list (VersionNumber * A)) (v : VersionNumber)
  : option (VersionNumber * A) := last (filter (λ kd, kd.1 ≤ v) m).

Lemma current_at_cons {A} k (x : A) m v :
  current_at ((k, x) :: m) v =
  match current_at m v with
  | Some r => Some r
  | None => if decide (k ≤ v) then Some (k, x) else None
  end.
Proof.
  unfold current_at. rewrite filter_cons. cbn [fst].
  destruct (decide (k ≤ v)); [|by destruct (last _)].
  rewrite last_cons. by destruct (last _).
Qed.

Lemma current_at_snoc {A} k (x : A) m v :
  current_at (m ++ [(k, x)]) v = if decide (k ≤ v) then Some (k, x) else current_at m v.
Proof.
  unfold current_at. rewrite filter_app, filter_cons. cbn [fst].
  destruct (decide (k ≤ v)); cbn; [by rewrite last_snoc|]. by rewrite app_nil_r.
Qed.

Lemma current_at_keyed m v :
  current_at (keyed m) v = (λ kd, (kd.1, inj_value kd.2)) <$> current_at m v.
Proof.
  induction m as [|[k d] m IH]; [done|]. cbn [keyed map fst snd]. rewrite !current_at_cons.
  fold (keyed m). rewrite IH. destruct (current_at m v); cbn; [done|]. by case_decide.
Qed.

Lemma values_wf_head_lt k d m k' d' :
  values_wf ((k, d) :: m) → (k', d') ∈ m → k < k'.
Proof.
  revert k d. induction m as [|[k1 d1] m IH]; intros k d W Hin; [set_solver|].
  destruct W as (_ & [Hlt _] & W). apply elem_of_cons in Hin as [[= -> ->]|Hin]; [done|].
  transitivity k1; [done|]. by eapply IH.
Qed.

Lemma current_at_None {A} (m : list (VersionNumber * A)) v :
  current_at m v = None ↔ ∀ k x, (k, x) ∈ m → v < k.
Proof.
  induction m as [|[k x] m IH]; [split; [set_solver|done]|]. rewrite current_at_cons.
  destruct (current_at m v) as [r|] eqn:E.
  - split; [done|]. intros H. assert (Some r = None) as [=]. apply IH. set_solver.
  - case_decide as Hk; (split; [|]); try done.
    + intros H. pose proof (H k x ltac:(set_solver)). lia.
    + intros _ k' x' [[= -> ->]|Hin]%elem_of_cons; [lia|]. eapply IH; eauto.
Qed.

Lemma data_at_current (n : InjectedGraphNode V) v : InjectedGraphNode_data_at n v = current_at (inj_values n) v.
Proof. done. Qed.

Lemma data_at_spec m v k d :
  values_wf m → current_at m v = Some (k, d) →
  inj_first_valid_version d = k ∧ k ≤ v ∧ v ∈ᵣ inj_valid_versions d ∧
  ranges_wf (inj_valid_versions d) ∧
  (∀ u, u ∈ᵣ inj_valid_versions d → current_at m u = Some (k, d)).
Proof.
  induction m as [|[k0 d0] m IH]; [done|].
  intros W. rewrite current_at_cons. destruct (current_at m v) as [r|] eqn:E.
  - intros [= ->]. destruct W as (_ & Hm & W). destruct (IH W eq_refl) as (? & ? & Hv & Hwf & Hu).
    split_and!; try done. intros u Hu'. by rewrite current_at_cons, (Hu u Hu').
  - case_decide as Hk; [|done]. intros [= -> ->].
    pose proof (proj1 (current_at_None m v) E) as Hgt. pose proof W as W'.
    destruct W as (Hf & Hm & W). split; [done|]. split; [done|].
    destruct m as [|[k1 d1] m].
    + rewrite Hm. split_and!.
      * apply in_ranges_singleton. split; cbn; [lia|done].
      * by apply ranges_wf_singleton.
      * intros u [Hu _]%in_ranges_singleton. cbn in Hu. rewrite current_at_cons. cbn.
        by rewrite decide_True.
    + destruct Hm as [Hlt Hm]. pose proof (Hgt k1 d1 ltac:(set_solver)) as Hv1. rewrite Hm. split_and!.
      * apply in_ranges_singleton. split; cbn; lia.
      * by apply ranges_wf_singleton.
      * intros u [Hu1 Hu2]%in_ranges_singleton. cbn in Hu1, Hu2. rewrite current_at_cons.
        assert (current_at ((k1, d1) :: m) u = None) as ->; [|by rewrite decide_True].
        apply current_at_None. intros k' d' [[= -> ->]|Hin]%elem_of_cons; [done|].
        pose proof (values_wf_head_lt _ _ _ _ _ W Hin). lia.
Qed.

Lemma sorted_map_insert_last (m : list (VersionNumber * InjectedNodeData V)) w x :
  (∀ k d, (k, d) ∈ m → k < w) → sorted_map_insert w x m = m ++ [(w, x)].
Proof.
  induction m as [|[k d] m IH]; intros H; [done|]. cbn.
  pose proof (H k d ltac:(set_solver)). case_N_bool; try lia. rewrite IH; [done|]. set_solver.
Qed.

Lemma values_wf_extend m k d w x :
  values_wf (m ++ [(k, d)]) → k < w →
  values_wf ((m ++ [(k, mkInjectedData (inj_value d) (inj_first_valid_version d)
                         [mkRange k (Some w)])]) ++ [(w, InjectedGraphNode_new_node_data x w)]).
Proof.
  induction m as [|[k0 d0] m IH]; intros W Hlt.
  - destruct W as (Hf & _ & _). cbn. rewrite Hf. done.
  - cbn [app] in *. destruct W as (Hf & Hm & W). specialize (IH W Hlt).
    split; [done|]. split; [|done]. destruct m as [|[k1 d1] m]; cbn in *; done.
Qed.

Lemma keyed_app m1 m2 : keyed (m1 ++ m2) = keyed m1 ++ keyed m2.
Proof. apply map_app. Qed.

(** What an injection does to a well-formed node. *)
Lemma injected_on_injected_spec n w x p :
  injected_wf n → (∀ k d, (k, d) ∈ inj_values n → k < w) →
  returns (InjectedGraphNode_on_injected n w x p) (λ '(n', r),
    injected_wf n' ∧ inj_key n' = inj_key n ∧
    ∃ k d, last (inj_values n) = Some (k, d) ∧
      if value_equality (inj_value d) x then n' = n ∧ r = NoChange
      else keyed (inj_values n') = keyed (inj_values n) ++ [(w, x)] ∧
           r = Changed (Some (lazy_data (inj_rdeps n))) ∧ lazy_data (inj_rdeps n') = []).
Proof.
  intros [W Hne] Hlt. unfold InjectedGraphNode_on_injected.
  destruct (last (inj_values n)) as [[k d]|] eqn:El; [|by apply last_None in El].
  pose proof El as El'. apply last_Some in El' as [m Em].
  destruct (value_equality (inj_value d) x) eqn:Eq.
  { cbn. split_and!; [done|done|]. exists k, d. by rewrite Eq. }
  assert (k < w) as Hkw by (apply (Hlt k d); rewrite Em; set_solver).
  assert (inj_first_valid_version d = k) as Hf.
  { rewrite Em in W. clear -W. induction m as [|[k0 d0] m IH]; cbn [app] in W;
      [by destruct W|]. destruct W as (_ & _ & W). auto. }
  unfold VersionRange_bounded. rewrite VersionRange_new_wf by (cbn; lia). cbn.
  unfold set_last_valid. rewrite El, Em, removelast_last, Hf.
  rewrite sorted_map_insert_last.
  2:{ intros k' d' [Hin|Hin]%elem_of_app; [apply (Hlt k' d'); rewrite Em; set_solver|].
      by assert (k' = k) as -> by set_solver. }
  split_and!.
  - rewrite Em in W. pose proof (values_wf_extend m k d w x W Hkw) as H. rewrite Hf in H.
    split; [exact H|]. cbn. by destruct m.
  - done.
  - exists k, d. rewrite Eq. split; [done|]. split_and!; [|done|done].
    rewrite !keyed_app. done.
Qed.

(** A sequence of injections [(version, value, priority)]. *)
Fixpoint inject_all (n : InjectedGraphNode V)
  (l : list (VersionNumber * V * InvalidationSourcePriority)) : outcome (InjectedGraphNode V) :=
  match l with
  | [] => Ok n
  | (v, x, p) :: l' => '(n, _) ← InjectedGraphNode_on_injected n v x p; inject_all n l'
  end.

Definition injections (l : list (VersionNumber * V * InvalidationSourcePriority))
  : list (VersionNumber * V) := map fst l.

(** The node serves, at each version, a value equal to the one injected last. *)
Definition serves (K L : list (VersionNumber * V)) : Prop := ∀ v,
  match current_at L v, current_at K v with
  | Some (_, y), Some (_, x) => x = y ∨ value_equality x y = true
  | None, None => True
  | _, _ => False
  end.

Definition versions_lt (L : list (VersionNumber * V)) (w : VersionNumber) : Prop :=
  ∀ k x, (k, x) ∈ L → k < w.

Definition served_node (n : InjectedGraphNode V) (L : list (VersionNumber * V)) : Prop :=
  injected_wf n ∧ serves (keyed (inj_values n)) L ∧
  (∀ k d, (k, d) ∈ inj_values n → ∃ x, (k, x) ∈ L).

Lemma current_at_last {A} (m : list (VersionNumber * A)) k x v :
  last m = Some (k, x) → k ≤ v → current_at m v = Some (k, x).
Proof. intros [m' ->]%last_Some Hk. rewrite current_at_snoc. by rewrite decide_True. Qed.

Lemma on_injected_served n L w x p :
  served_node n L → versions_lt L w →
  returns (InjectedGraphNode_on_injected n w x p) (λ '(n', _), served_node n' (L ++ [(w, x)])).
Proof.
  intros (W & Hs & Hk) HL.
  assert (∀ k d, (k, d) ∈ inj_values n → k < w) as Hlt.
  { intros k d Hin. destruct (Hk k d Hin) as [y Hy]. by eapply HL. }
  eapply returns_mono; [by apply injected_on_injected_spec|].
  intros [n' r] (W' & _ & k & d & El & H). split; [done|].
  destruct (value_equality (inj_value d) x) eqn:Eq.
  - destruct H as [-> _]. split; [|intros k' d' Hin; destruct (Hk k' d' Hin) as [y ?]; exists y; set_solver].
    intros v. rewrite current_at_snoc. case_decide as Hv; [|apply Hs].
    rewrite (current_at_last (keyed (inj_values n)) k (inj_value d)); [by right| |].
    + unfold keyed. by rewrite fmap_last, El.
    + assert (k < w); [|lia]. apply (Hlt k d). apply last_Some in El as [m ->]. set_solver.
  - destruct H as [E _]. split.
    + rewrite E. intros v. rewrite !current_at_snoc. case_decide; [by left|apply Hs].
    + intros k' d' Hin. assert ((k', inj_value d') ∈ keyed (inj_values n')) as Hin'.
      { unfold keyed. apply list_elem_of_fmap. by exists (k', d'). }
      rewrite E in Hin'. apply elem_of_app in Hin' as [Hin'|Hin']; [|set_solver].
      unfold keyed in Hin'. apply list_elem_of_fmap in Hin' as ([k2 d2] & [= -> _] & Hin2).
      destruct (Hk _ _ Hin2) as [y ?]. exists y. set_solver.
Qed.

Lemma inject_all_served n L l :
  served_node n L → StronglySorted (λ a b, a.1 < b.1) (L ++ injections l) →
  returns (inject_all n l) (λ n', served_node n' (L ++ injections l)).
Proof.
  revert n L. induction l as [|[[v x] p] l IH]; intros n L Hn Hs.
  - cbn in *. by rewrite app_nil_r.
  - cbn [inject_all injections map fst] in *. fold (injections l) in *.
    eapply returns_bind; [apply (on_injected_served n L v x p Hn)|].
    + intros k y Hin. apply (StronglySorted_app_1_elem_of _ _ _ (k, y) (v, x) Hs Hin). set_solver.
    + intros [n' _] Hn'. replace (L ++ (v, x) :: injections l) with ((L ++ [(v, x)]) ++ injections l) in *
        by (by rewrite <- app_assoc). by apply IH.
Qed.

(** An injected key serves, at every version from its first injection on,
    a value equal to the one injected last at or before that version, however many injections
    came later; before the first injection it is to be computed.  The version ranges returned
    with the value contain the version, and at every version they contain the same value is
    served. *)
Theorem injected_history (k : DiceKey) (v0 : VersionNumber) (x0 : V)
  (p0 : InvalidationSourcePriority)
  (l : list (VersionNumber * V * InvalidationSourcePriority)) :
  StronglySorted (λ a b, a.1 < b.1) ((v0, x0) :: injections l) →
  ∃ n, inject_all (InjectedGraphNode_new k v0 x0 p0) l = Ok n ∧
    ∀ v, match current_at ((v0, x0) :: injections l) v with
         | None => InjectedGraphNode_at_version n v = Compute
         | Some (_, y) => ∃ x valid paths,
             InjectedGraphNode_at_version n v = Match (mkComputed V (MaybePresent x) valid paths) ∧
             (x = y ∨ value_equality x y = true) ∧ v ∈ᵣ valid ∧
             ∀ u, u ∈ᵣ valid → ∃ paths',
               InjectedGraphNode_at_version n u = Match (mkComputed V (MaybePresent x) valid paths')
         end.
Proof.
  intros Hs.
  assert (served_node (InjectedGraphNode_new k v0 x0 p0) [(v0, x0)]) as H0.
  { split; [by split|]. split.
    - intros v. cbn. rewrite current_at_cons. cbn. case_decide; [by left|done].
    - cbn. intros k' d Hin. exists x0. set_solver. }
  pose proof (inject_all_served _ _ _ H0 Hs) as (n & En & (W & Hserves & _))%returns_Ok.
  exists n. split; [done|]. intros v. specialize (Hserves v).
  change ([(v0, x0)] ++ injections l) with ((v0, x0) :: injections l) in Hserves.
  rewrite current_at_keyed in Hserves. unfold InjectedGraphNode_at_version.
  rewrite data_at_current. destruct (current_at _ v) as [[k1 y]|] eqn:Ey.
  - destruct (current_at (inj_values n) v) as [[k2 d]|] eqn:Ed; [|done]. cbn in Hserves.
    destruct W as [W _]. destruct (data_at_spec _ _ _ _ W Ed) as (_ & _ & Hv & _ & Hu).
    exists (inj_value d), (inj_valid_versions d), (TrackedInvalidationPaths_at_version (inj_invalidation_paths n) v).
    split_and!; [done|done|done|]. intros u Hu'. rewrite data_at_current, (Hu u Hu'). by eexists.
  - by destruct (current_at (inj_values n) v).
Qed.

End InjectedProps.

Lemma injected_history_witness :
  let _ : DiceValueDyn N := {| value_equality := N.eqb; value_validity := λ _, true |} in
  ∃ n, inject_all (InjectedGraphNode_new 7 1 100 PriorityNormal)
         [(3, 200, PriorityNormal); (4, 200, PriorityHigh); (8, 100, PriorityNormal)] = Ok n ∧
    ∃ x valid paths,
      InjectedGraphNode_at_version n 5 = Match (mkComputed N (MaybePresent x) valid paths) ∧
      (x = 200 ∨ N.eqb x 200 = true) ∧ 5 ∈ᵣ valid.
Proof.
  intros D.
  destruct (injected_history 7 1 100 PriorityNormal
     [(3, 200, PriorityNormal); (4, 200, PriorityHigh); (8, 100, PriorityNormal)]) as (n & H1 & H2).
  - repeat (apply SSorted_cons || apply SSorted_nil || apply List.Forall_cons || apply List.Forall_nil);
      cbn; lia.
  - exists n. split; [exact H1|]. specialize (H2 5). vm_compute in H2.
    destruct H2 as (x & valid & paths & E & Hx & Hv & _). exists x, valid, paths. split; [exact E|].
    split; [exact Hx|exact Hv].
Defined.
