(* ===== verification/Graph.v ===== *)
(** The versioned graph, from [src/deps/dice/dice/src/impls/core/graph/storage.rs]: lookups,
    recording of computed values with their dependencies, and transitive invalidation.

    The graph is a finite map from keys to nodes.  The structural invariant [graph_inv] is what
    makes invalidation complete: a node that is still valid at every later version depends only
    on nodes that are, and is registered as a reverse dependency of each of them. *)
From S2P Require Import Prelude Versions Values SPDeps LazyDeps Nodes.
Local Open Scope N_scope.
Local Open Scope dice_scope.

Notation VersionedGraph V := (gmap DiceKey (VersionedGraphNode V)) (only parsing).

Section Graph.
Context {V : Type} `{!DiceValueDyn V}.

(** * Definitions *)


Inductive InvalidateKind :=
| ForceDirty
| Invalidate
| Update (value : V) (storage : StorageType).

Definition VersionedGraph_new : VersionedGraph V := ∅.

Definition VersionedGraph_get (self : VersionedGraph V) (key : VersionedGraphKey)
  : outcome (VersionedGraphResult V) :=
  match self !! gk_k key with
  | Some entry => VersionedGraphNode_at_version entry (gk_v key)
  | None => Ok Compute
  end.

Definition VersionedGraph_update_empty (self : VersionedGraph V) (key : DiceKey)
  (v : VersionNumber) (value : V) (valid_deps_versions : VersionRanges)
  (deps : SeriesParallelDeps) (invalidation_paths : TrackedInvalidationPaths)
  : outcome (VersionedGraph V * DiceComputedValue V) :=
  computed ← VersionRange_bounded v (VersionNumber_new (v + 1));
  valid ← VersionRanges_insert valid_deps_versions computed;
  let entry := OccupiedGraphNode_new key value deps valid ForceDirtyHistory_new
                 invalidation_paths in
  res ← OccupiedGraphNode_computed_val entry v;
  Ok (<[key := Occupied entry]> self, res).

(** The loop of [update] over the dependencies: register the reverse dependency and intersect
    the valid versions. *)
Fixpoint update_deps (self : VersionedGraph V) (key : VersionedGraphKey) (deps : list DiceKey)
  (valid_deps_versions : VersionRanges) : outcome (VersionedGraph V * VersionRanges) :=
  match deps with
  | [] => Ok (self, valid_deps_versions)
  | dep :: deps' =>
      node ← expect (self !! dep);
      node ← VersionedGraphNode_add_rdep_at node (gk_v key) (gk_k key);
      valid ← VersionedGraphNode_intersect_valid_versions_at node (gk_v key) valid_deps_versions;
      update_deps (<[dep := node]> self) key deps' valid
  end.

Definition VersionedGraph_update (self : VersionedGraph V) (key : VersionedGraphKey) (value : V)
  (reusable : ValueReusable) (deps : SeriesParallelDeps) (storage_type : StorageType)
  (invalidation_paths : TrackedInvalidationPaths)
  : outcome (VersionedGraph V * (DiceComputedValue V * bool)) :=
  match storage_type with
  | Injected => unreachable
  | Normal =>
      '(self, valid_deps_versions) ←
         update_deps self key (SeriesParallelDeps_iter_keys deps)
           (VersionRange_into_ranges (VersionRange_begins_with VersionNumber_ZERO));
      let invalidation_paths :=
        TrackedInvalidationPaths_for_dependent invalidation_paths (gk_k key) in
      match self !! gk_k key with
      | Some entry =>
          '(entry, res) ← VersionedGraphNode_on_computed entry key value valid_deps_versions
                            reusable deps invalidation_paths;
          Ok (<[gk_k key := entry]> self, res)
      | None =>
          '(self, res) ← VersionedGraph_update_empty self (gk_k key) (gk_v key) value
                           valid_deps_versions deps invalidation_paths;
          Ok (self, (res, true))
      end
  end.

(** The inner loop: push the drained keys that were not queued before. *)
Fixpoint push_rdeps (rdeps : list DiceKey) (queue : list DiceKey) (queued : gset DiceKey)
  : list DiceKey * gset DiceKey :=
  match rdeps with
  | [] => (queue, queued)
  | dep :: rdeps' =>
      if decide (dep ∈ queued) then push_rdeps rdeps' queue queued
      else push_rdeps rdeps' (dep :: queue) (queued ∪ {[dep]})
  end.

(** The worklist; the head of [queue] is the end of the vector the source pops from.  [Panic]
    on exhausted fuel, which [invalidate_rdeps_loop_spec] excludes. *)
Fixpoint invalidate_rdeps_loop (fuel : nat) (self : VersionedGraph V) (version : VersionNumber)
  (queue : list DiceKey) (queued : gset DiceKey) : outcome (VersionedGraph V) :=
  match queue with
  | [] => Ok self
  | rdep :: queue =>
      match fuel with
      | O => Panic
      | S fuel =>
          match self !! rdep with
          | None => invalidate_rdeps_loop fuel self version queue queued
          | Some node =>
              '(node, r) ← VersionedGraphNode_mark_invalidated node version None;
              let self := <[rdep := node]> self in
              match r with
              | Changed (Some rdeps) =>
                  let '(queue, queued) := push_rdeps rdeps queue queued in
                  invalidate_rdeps_loop fuel self version queue queued
              | _ => invalidate_rdeps_loop fuel self version queue queued
              end
          end
      end
  end.

(** The iteration order of the hash set is that of [elements]; nothing below depends on it. *)
Definition VersionedGraph_invalidate_rdeps (self : VersionedGraph V) (version : VersionNumber)
  (queued : gset DiceKey) : outcome (VersionedGraph V) :=
  invalidate_rdeps_loop (S (size self)) self version (elements queued) queued.

(** The entry for a key that has none. *)
Definition invalidate_new_entry (key : VersionedGraphKey) (invalidate : InvalidateKind)
  (invalidation_priority : InvalidationSourcePriority) : outcome (VersionedGraphNode V) :=
  match invalidate with
  | Update value Injected =>
      Ok (InjectedNode (InjectedGraphNode_new (gk_k key) (gk_v key) value invalidation_priority))
  | Update value Normal =>
      Ok (Occupied (OccupiedGraphNode_new (gk_k key) value SPNone
            (VersionRange_into_ranges (VersionRange_begins_with (gk_v key)))
            ForceDirtyHistory_new
            (TrackedInvalidationPaths_new invalidation_priority (gk_k key) (gk_v key))))
  | _ =>
      '(node, _) ← VacantGraphNode_force_dirty
                     (VacantGraphNode_new (gk_k key) invalidation_priority) (gk_v key)
                     invalidation_priority;
      Ok (Vacant node)
  end.

Definition VersionedGraph_invalidate (self : VersionedGraph V) (key : VersionedGraphKey)
  (invalidate : InvalidateKind) (invalidation_priority : InvalidationSourcePriority)
  : outcome (VersionedGraph V * bool) :=
  match self !! gk_k key with
  | None =>
      new_entry ← invalidate_new_entry key invalidate invalidation_priority;
      Ok (<[gk_k key := new_entry]> self, true)
  | Some entry =>
      '(entry, res) ←
         match invalidate with
         | Invalidate =>
             VersionedGraphNode_mark_invalidated entry (gk_v key) (Some invalidation_priority)
         | ForceDirty => VersionedGraphNode_force_dirty entry (gk_v key) invalidation_priority
         | Update value _ =>
             VersionedGraphNode_on_injected entry (gk_v key) value invalidation_priority
         end;
      let self := <[gk_k key := entry]> self in
      match res with
      | Changed rdeps =>
          self ← VersionedGraph_invalidate_rdeps self (gk_v key) (list_to_set (default [] rdeps));
          Ok (self, true)
      | NoChange => Ok (self, false)
      end
  end.

(** * The structural invariant *)

Definition occ_ranges (o : OccupiedGraphNode V) : VersionRanges :=
  md_verified_ranges (occ_metadata o).
Definition occ_deps (o : OccupiedGraphNode V) : list DiceKey :=
  SeriesParallelDeps_iter_keys (md_deps (occ_metadata o)).
Definition occ_history (o : OccupiedGraphNode V) : ForceDirtyHistory :=
  md_dirtied_history (occ_metadata o).

Definition node_key (n : VersionedGraphNode V) : DiceKey :=
  match n with Occupied o => occ_key o | InjectedNode i => inj_key i | Vacant e => vac_key e end.

Definition node_rdeps (n : VersionedGraphNode V) : list DiceKey :=
  match n with
  | Occupied o => lazy_data (md_rdeps (occ_metadata o))
  | InjectedNode i => lazy_data (inj_rdeps i)
  | Vacant _ => []
  end.

(** The node without its reverse dependencies. *)
Definition strip (n : VersionedGraphNode V) : VersionedGraphNode V :=
  match n with
  | Occupied o => Occupied (occ_set_meta o (meta_set_rdeps (occ_metadata o) LazyDepsSet_new))
  | InjectedNode i =>
      InjectedNode (mkInjected (inj_key i) (inj_values i) LazyDepsSet_new (inj_invalidation_paths i))
  | Vacant e => Vacant e
  end.

(** A set of versions that does not change after version [w]. *)
Definition settled (w : VersionNumber) (l : VersionRanges) : Prop :=
  ∀ u, w < u → u ∈ᵣ l ↔ (w + 1) ∈ᵣ l.

Definition node_wf (w : VersionNumber) (n : VersionedGraphNode V) : Prop :=
  match n with
  | Occupied o =>
      ranges_wf (occ_ranges o) ∧ settled w (occ_ranges o) ∧
      history_wf (occ_history o) ∧ (∀ d, d ∈ dirties (occ_history o) → d ≤ w) ∧
      (pv_value (occ_res o) ≠ None ∨ pv_data_key (occ_res o) ≠ None)
  | InjectedNode i => injected_wf i ∧ ∀ k d, (k, d) ∈ inj_values i → k ≤ w
  | Vacant e =>
      history_wf (vac_dirtied_history e) ∧ ∀ d, d ∈ dirties (vac_dirtied_history e) → d ≤ w
  end.

(** The node is valid at every version from some version on. *)
Definition node_live (n : VersionedGraphNode V) : Prop :=
  match n with
  | Occupied o => unbounded (occ_ranges o)
  | InjectedNode _ => True
  | Vacant _ => False
  end.

(** The invariant at version [w], with a set of keys still to be invalidated. *)
Record graph_inv_pending (w : VersionNumber) (pending : gset DiceKey) (g : VersionedGraph V)
  : Prop := {
  gi_wf : ∀ k n, g !! k = Some n → node_wf w n ∧ node_key n = k;
  gi_rdeps : ∀ d n k, g !! d = Some n → k ∈ node_rdeps n → ∃ o, g !! k = Some (Occupied o);
  gi_deps : ∀ k o, g !! k = Some (Occupied o) → unbounded (occ_ranges o) → k ∉ pending →
    ∀ d, d ∈ occ_deps o → ∃ n, g !! d = Some n ∧ node_live n ∧ k ∈ node_rdeps n;
}.

Definition graph_inv (w : VersionNumber) (g : VersionedGraph V) : Prop := graph_inv_pending w ∅ g.

Lemma strip_fields n n' :
  strip n = strip n' →
  node_key n = node_key n' ∧ (∀ w, node_wf w n ↔ node_wf w n') ∧ (node_live n ↔ node_live n').
Proof.
  destruct n as [[k r [d rd rg h] p]|[k vs rd p]|e], n' as [[k' r' [d' rd' rg' h'] p']|[k' vs' rd' p']|e'];
    cbn; intros [=]; subst; done.
Qed.

Lemma strip_occupied o n' :
  strip (Occupied o) = strip n' → ∃ o', n' = Occupied o' ∧ occ_ranges o' = occ_ranges o ∧
    occ_deps o' = occ_deps o ∧ md_deps (occ_metadata o') = md_deps (occ_metadata o) ∧
    occ_history o' = occ_history o ∧ occ_res o' = occ_res o ∧ occ_key o' = occ_key o ∧
    occ_invalidation_paths o' = occ_invalidation_paths o.
Proof.
  destruct o as [k r [d rd rg h] p], n' as [[k' r' [d' rd' rg' h'] p']|i|e]; cbn; intros [=]; subst.
  eexists. split; [done|]. done.
Qed.

Lemma settled_mono w w' l : settled w l → w ≤ w' → settled w' l.
Proof. intros H Hle u Hu. rewrite (H u), (H (w' + 1)) by lia. done. Qed.

Lemma unbounded_settled w l : ranges_wf l → settled w l → unbounded l ↔ (w + 1) ∈ᵣ l.
Proof.
  intros W H. rewrite unbounded_spec by done. split.
  - intros [n Hn]. apply (H (N.max n (w + 1))); [lia|]. apply Hn. lia.
  - intros Hw. exists (w + 1). intros v Hv. apply H; [lia|done].
Qed.

Lemma node_wf_mono w w' n : node_wf w n → w ≤ w' → node_wf w' n.
Proof.
  destruct n as [o|i|e]; cbn.
  - intros (H1 & H2 & H3 & H4 & H5) Hle. split_and!; try done; [by eapply settled_mono|].
    intros d Hd. specialize (H4 d Hd). lia.
  - intros [H1 H2] Hle. split; [done|]. intros k d Hin. specialize (H2 k d Hin). lia.
  - intros [H1 H2] Hle. split; [done|]. intros d Hd. specialize (H2 d Hd). lia.
Qed.

Lemma graph_inv_mono w w' P g : graph_inv_pending w P g → w ≤ w' → graph_inv_pending w' P g.
Proof.
  intros [H1 H2 H3] Hle. split; try done. intros k n Hn. destruct (H1 k n Hn) as [Hw Hk].
  split; [by eapply node_wf_mono|done].
Qed.

Lemma graph_inv_new w : graph_inv w VersionedGraph_new.
Proof. split; intros *; unfold VersionedGraph_new; by rewrite lookup_empty. Qed.

(** * Marking a node invalidated *)

(** [o'] is [o] with some verified versions from [w] on removed, and perhaps other rdeps. *)
Definition occ_cut (w : VersionNumber) (o o' : OccupiedGraphNode V) : Prop :=
  occ_key o' = occ_key o ∧ occ_res o' = occ_res o ∧
  md_deps (occ_metadata o') = md_deps (occ_metadata o) ∧ occ_history o' = occ_history o ∧
  ranges_wf (occ_ranges o') ∧
  (occ_ranges o' = occ_ranges o ∨ ∀ u, u ∈ᵣ occ_ranges o' ↔ u ∈ᵣ occ_ranges o ∧ u < w).

Definition all_before (w : VersionNumber) (l : VersionRanges) : Prop := ∀ u, u ∈ᵣ l → u < w.

Lemma occ_mark_invalidated_spec o w p :
  ranges_wf (occ_ranges o) →
  returns (OccupiedGraphNode_mark_invalidated o w p) (λ '(o', b),
    occ_cut w o o' ∧ all_before w (occ_ranges o') ∧
    (∀ u, u ∈ᵣ occ_ranges o' ↔ u ∈ᵣ occ_ranges o ∧ u < w) ∧
    md_rdeps (occ_metadata o') = md_rdeps (occ_metadata o) ∧
    (p = None → occ_invalidation_paths o' = occ_invalidation_paths o) ∧
    (b = false → occ_ranges o' = occ_ranges o)).
Proof.
  intros W. unfold OccupiedGraphNode_mark_invalidated.
  set (o1 := match p with Some _ => _ | None => _ end).
  assert (occ_key o1 = occ_key o ∧ occ_res o1 = occ_res o ∧ occ_metadata o1 = occ_metadata o ∧
          (p = None → occ_invalidation_paths o1 = occ_invalidation_paths o)) as (Hk & Hr & Hm & Hp)
    by (by subst o1; destruct p).
  clearbody o1. unfold occ_cut, all_before, occ_ranges, occ_history in *. rewrite <- Hm in W |- *.
  destruct (N.eqb_spec w VersionNumber_ZERO) as [->|Hw].
  - cbn. unfold VersionNumber_ZERO. split_and!; try done.
    + apply ranges_wf_nil.
    + right. intros u. rewrite in_ranges_nil. split; [done|]. lia.
    + intros u. by rewrite in_ranges_nil.
    + intros u. rewrite in_ranges_nil. split; [done|]. lia.
    + by destruct (md_verified_ranges (occ_metadata o1)).
  - unfold VersionNumber_ZERO in *. unfold VersionRange_bounded.
    rewrite VersionRange_new_wf by (cbn; lia). cbn [mbind outcome_bind].
    eapply returns_bind; [apply intersect_range_spec; [done|cbn; lia]|].
    intros [l b] (Wl & Hl & Hb). cbn.
    assert (∀ u, u ∈ᵣ l ↔ u ∈ᵣ md_verified_ranges (occ_metadata o1) ∧ u < w) as Hl'.
    { intros u. rewrite Hl. unfold in_range. cbn. intuition lia. }
    split_and!; try done; [by right|]. intros u Hu. by apply Hl' in Hu as [_ ?].
Qed.

Lemma occ_cut_refl w o : ranges_wf (occ_ranges o) → occ_cut w o o.
Proof. intros. unfold occ_cut. split_and!; auto. Qed.

Lemma occ_cut_trans w o1 o2 o3 : occ_cut w o1 o2 → occ_cut w o2 o3 → occ_cut w o1 o3.
Proof.
  intros (A1 & A2 & A3 & A4 & _ & A6) (B1 & B2 & B3 & B4 & B5 & B6). unfold occ_cut.
  split_and!; try congruence. destruct B6 as [E|B6].
  - rewrite E. done.
  - right. intros u. rewrite B6. destruct A6 as [E|A6]; [by rewrite E|]. rewrite A6. tauto.
Qed.

Definition node_cut (w : VersionNumber) (n n' : VersionedGraphNode V) : Prop :=
  match n, n' with
  | Occupied o, Occupied o' => occ_cut w o o'
  | Occupied _, _ => False
  | _, _ => n' = n
  end.

(** The whole graph after some nodes were cut at [w]. *)
Definition graph_cut (w : VersionNumber) (g g' : VersionedGraph V) : Prop := ∀ k,
  match g !! k, g' !! k with
  | Some n, Some n' => node_cut w n n'
  | None, None => True
  | _, _ => False
  end.

Lemma graph_cut_refl w v g :
  (∀ k n, g !! k = Some n → node_wf v n) → graph_cut w g g.
Proof.
  intros H k. destruct (g !! k) as [[o|i|e]|] eqn:E; cbn; try done.
  apply occ_cut_refl. by apply H in E as (? & _).
Qed.

Lemma graph_cut_trans w g1 g2 g3 : graph_cut w g1 g2 → graph_cut w g2 g3 → graph_cut w g1 g3.
Proof.
  intros H1 H2 k. specialize (H1 k). specialize (H2 k).
  destruct (g1 !! k) as [n1|], (g2 !! k) as [n2|], (g3 !! k) as [n3|]; try done.
  destruct n1, n2, n3; cbn in *; try done; try congruence. by eapply occ_cut_trans.
Qed.

Lemma occ_cut_wf w o o' : occ_cut w o o' → node_wf w (Occupied o) → node_wf w (Occupied o').
Proof.
  intros (H1 & H2 & H3 & H4 & H5 & H6) (W & S & Hh & Hd & Hr). cbn. rewrite H2, H4.
  split_and!; try done. destruct H6 as [->|H6]; [done|].
  intros u Hu. rewrite !H6. split; intros [_ ?]; lia.
Qed.

Lemma unbounded_not_before w l : ranges_wf l → unbounded l → ¬ all_before w l.
Proof.
  intros W H Hb. apply unbounded_spec in H as [n Hn]; [|done].
  assert (N.max n w < w) by (apply Hb, Hn; lia). lia.
Qed.

(** Replacing the node of [k], with every live dependent of [k] left pending. *)
Lemma replace_step w P P' g k n2 :
  graph_inv_pending w P g → node_wf w n2 → node_key n2 = k →
  (∀ o, g !! k = Some (Occupied o) → ∃ o2, n2 = Occupied o2) →
  (∀ j, j ∈ node_rdeps n2 → ∃ n, g !! k = Some n ∧ j ∈ node_rdeps n) →
  (∀ o2, n2 = Occupied o2 → unbounded (occ_ranges o2) → occ_deps o2 = []) →
  (∀ j o', g !! j = Some (Occupied o') → unbounded (occ_ranges o') → j ≠ k →
     j ∈ P ∨ k ∈ occ_deps o' → j ∈ P') →
  graph_inv_pending w P' (<[k := n2]> g).
Proof.
  intros [G1 G2 G3] W2 K2 Hocc Hrd Hlive HP. split.
  - intros k' n. rewrite lookup_insert_Some. intros [[<- <-]|[_ Hn]]; auto.
  - intros d n j Hd Hj.
    assert (∃ o, g !! j = Some (Occupied o)) as [o Ho].
    { apply lookup_insert_Some in Hd as [[<- <-]|[_ Hd]]; [|by eapply G2].
      destruct (Hrd j Hj) as (n0 & Hn0 & Hj0). by eapply G2. }
    destruct (decide (j = k)) as [->|Hne]; [|exists o; by rewrite lookup_insert_ne].
    destruct (Hocc o Ho) as [o2 ->]. exists o2. by rewrite lookup_insert_eq.
  - intros j o Hj Hu HjP d Hd. apply lookup_insert_Some in Hj as [[<- ->]|[Hne Hj]].
    { rewrite (Hlive o eq_refl Hu) in Hd. set_solver. }
    assert (j ∉ P ∧ d ≠ k) as [HjP0 Hdk].
    { split; [intros ?|intros ->]; apply HjP; eapply HP; eauto. }
    destruct (G3 j o Hj Hu HjP0 d Hd) as (n & Hn & Hl & Hr). exists n.
    by rewrite lookup_insert_ne.
Qed.

Lemma push_rdeps_spec rdeps queue queued queue' queued' :
  push_rdeps rdeps queue queued = (queue', queued') →
  (∀ x, x ∈ queue' ↔ x ∈ queue ∨ (x ∈ rdeps ∧ x ∉ queued)) ∧
  (∀ x, x ∈ queued' ↔ x ∈ queued ∨ x ∈ rdeps).
Proof.
  revert queue queued. induction rdeps as [|d rdeps IH]; intros queue queued; cbn [push_rdeps].
  - intros [= <- <-]. set_solver.
  - case_decide; intros [H1 H2]%IH; split; intros x; rewrite ?H1, ?H2; [set_solver..| |set_solver].
    destruct (decide (x = d)); set_solver.
Qed.

(** Each key is queued at most once, so the work left never grows. *)
Lemma push_rdeps_measure (D : gset DiceKey) rdeps queue queued queue' queued' :
  push_rdeps rdeps queue queued = (queue', queued') → (∀ x, x ∈ rdeps → x ∈ D) →
  (length queue' + size (D ∖ queued') = length queue + size (D ∖ queued))%nat.
Proof.
  revert queue queued. induction rdeps as [|d rdeps IH]; intros queue queued; cbn [push_rdeps].
  - by intros [= <- <-].
  - intros H HD. case_decide as Hd; apply IH in H; try set_solver. rewrite H. cbn [length].
    assert (D ∖ queued = {[d]} ∪ D ∖ (queued ∪ {[d]})) as ->.
    { apply set_eq. intros x. destruct (decide (x = d)); set_solver. }
    rewrite (size_union {[d]}), size_singleton by set_solver. lia.
Qed.

Lemma node_wf_cut w o o' :
  occ_cut w o o' → node_wf w (Occupied o) → occ_key o' = occ_key o ∧ node_wf w (Occupied o').
Proof. intros H W. split; [by destruct H|by eapply occ_cut_wf]. Qed.

Lemma graph_cut_insert w v g k o o' :
  (∀ x n, g !! x = Some n → node_wf v n) →
  g !! k = Some (Occupied o) → occ_cut w o o' → graph_cut w g (<[k := Occupied o']> g).
Proof.
  intros W Hk Hc x. destruct (decide (x = k)) as [->|Hne].
  - by rewrite Hk, lookup_insert_eq.
  - rewrite lookup_insert_ne by done. by apply (graph_cut_refl w v).
Qed.

(** One iteration: the popped node after [mark_invalidated], and the drained keys. *)
Lemma mark_invalidated_node_spec o w p :
  node_wf w (Occupied o) →
  returns (VersionedGraphNode_mark_invalidated (Occupied o) w p) (λ '(n', r), ∃ o',
    n' = Occupied o' ∧ occ_cut w o o' ∧ all_before w (occ_ranges o') ∧
    (∀ u, u ∈ᵣ occ_ranges o' ↔ u ∈ᵣ occ_ranges o ∧ u < w) ∧
    ((r = NoChange ∧ occ_ranges o' = occ_ranges o ∧ node_rdeps n' = node_rdeps (Occupied o)) ∨
     (r = Changed (Some (node_rdeps (Occupied o))) ∧ node_rdeps n' = []))).
Proof.
  intros (W & _). unfold VersionedGraphNode_mark_invalidated.
  eapply returns_bind; [by apply occ_mark_invalidated_spec|].
  intros [o' b] (Hc & Hb & Hu & Hr & _ & Hf). destruct b; cbn.
  - eexists. split; [done|]. split_and!.
    + destruct Hc as (?&?&?&?&?&?). unfold occ_cut. cbn. done.
    + exact Hb.
    + exact Hu.
    + right. by rewrite Hr.
  - exists o'. split_and!; try done. left. split_and!; auto. by rewrite Hr.
Qed.

Lemma invalidate_rdeps_loop_spec fuel w g queue queued :
  graph_inv_pending w (list_to_set queue) g →
  (∀ k, k ∈ queue → ∃ o, g !! k = Some (Occupied o)) →
  (∀ k, k ∈ queued → k ∈ queue ∨ ∃ o, g !! k = Some (Occupied o) ∧ all_before w (occ_ranges o)) →
  (length queue + size (dom g ∖ queued) ≤ fuel)%nat →
  returns (invalidate_rdeps_loop fuel g w queue queued) (λ g',
    graph_inv w g' ∧ graph_cut w g g' ∧
    ∀ k, k ∈ queued → ∃ o, g' !! k = Some (Occupied o) ∧ all_before w (occ_ranges o)).
Proof.
  revert g queue queued. induction fuel as [|fuel IH]; intros g queue queued Hinv Hocc Hq Hfuel.
  all: assert (∀ x n, g !! x = Some n → node_wf w n) as Hwf
    by (intros x n Hx; by apply (gi_wf _ _ _ Hinv) in Hx as [? _]).
  all: destruct queue as [|r queue]; cbn [invalidate_rdeps_loop].
  1,3: split_and!; [exact Hinv|by apply (graph_cut_refl _ w)|];
       intros k [Hk|Hk]%Hq; [set_solver|done].
  { cbn in Hfuel. lia. }
  destruct (Hocc r ltac:(set_solver)) as [o Ho]. rewrite Ho.
  destruct (gi_wf _ _ _ Hinv _ _ Ho) as [Wo Ko].
  eapply returns_bind; [by apply mark_invalidated_node_spec|].
  intros [n' res] (o' & -> & Hcut & Hbef & _ & Hres).
  destruct (node_wf_cut _ _ _ Hcut Wo) as [Ko' Wo']. cbn in Ko.
  assert (∀ j, j ∈ node_rdeps (Occupied o) → j ∈ dom g) as Hdom.
  { intros j Hj. destruct (gi_rdeps _ _ _ Hinv _ _ _ Ho Hj) as [oj Hoj]. by eapply elem_of_dom_2. }
  set (q := match res with Changed (Some l) => push_rdeps l queue queued | _ => (queue, queued) end).
  assert (q = push_rdeps (match res with Changed (Some l) => l | _ => [] end) queue queued) as Eq
    by (subst q; by destruct Hres as [(-> & _)|(-> & _)]).
  assert ((match res with
           | Changed (Some rdeps) => let '(queue0, queued0) := push_rdeps rdeps queue queued in
               invalidate_rdeps_loop fuel (<[r:=Occupied o']> g) w queue0 queued0
           | _ => invalidate_rdeps_loop fuel (<[r:=Occupied o']> g) w queue queued end) =
          invalidate_rdeps_loop fuel (<[r:=Occupied o']> g) w q.1 q.2) as ->.
  { subst q. destruct Hres as [(-> & _)|(-> & _)]; [done|]. by destruct (push_rdeps _ _ _). }
  clearbody q. destruct q as [queue' queued']. cbn [fst snd].
  destruct (push_rdeps_spec _ _ _ _ _ (eq_sym Eq)) as [Hqe Hqd].
  pose proof (push_rdeps_measure (dom g) _ _ _ _ _ (eq_sym Eq)) as Hm.
  assert (∀ x, x ∈ queue' → ∃ o1, <[r:=Occupied o']> g !! x = Some (Occupied o1)) as Hocc'.
  { intros x Hx. destruct (decide (x = r)) as [->|Hne]; [rewrite lookup_insert_eq; eauto|].
    rewrite lookup_insert_ne by done. apply Hqe in Hx as [Hx|[Hx _]]; [apply Hocc; set_solver|].
    destruct Hres as [(-> & _)|(-> & _)]; [set_solver|]. by eapply (gi_rdeps _ _ _ Hinv). }
  eapply returns_mono; [apply IH|].
  - eapply replace_step; [exact Hinv|done|cbn; congruence|by eauto| | |].
    + intros j Hj. exists (Occupied o). split; [done|].
      destruct Hres as [(_ & _ & E)|(_ & E)]; rewrite E in Hj; set_solver.
    + intros o2 [= <-] Hu. exfalso. eapply unbounded_not_before; [|exact Hu|exact Hbef]. by destruct Wo'.
    + intros j oj Hj Hu Hne HP. apply elem_of_list_to_set. apply Hqe.
      assert (ranges_wf (occ_ranges oj)) as Wj by (by apply Hwf in Hj as (? & _)).
      destruct (decide (j ∈ queue)) as [|Hjq]; [by left|].
      assert (j ∉ queued) as Hjd.
      { intros [Hin|(oj' & Hoj' & Hb)]%Hq; [set_solver|]. simplify_map_eq.
        by eapply unbounded_not_before. }
      right. split; [|done]. destruct HP as [HP|HP]; [set_solver|].
      destruct (gi_deps _ _ _ Hinv j oj Hj Hu ltac:(set_solver) r HP) as (n & Hn & Hl & Hjr).
      simplify_map_eq. destruct Hres as [(-> & E & _)|(-> & _)]; [|done].
      exfalso. rewrite <- E in Hl. eapply unbounded_not_before; [|exact Hl|exact Hbef]. by destruct Wo'.
  - exact Hocc'.
  - intros k Hk. apply Hqd in Hk. destruct (decide (k = r)) as [->|Hne].
    { right. exists o'. by rewrite lookup_insert_eq. }
    rewrite lookup_insert_ne by done.
    destruct (decide (k ∈ queued)) as [Hin|Hnin].
    + destruct (Hq k Hin) as [Hkq|Hkb]; [|by right]. left. apply Hqe. left. set_solver.
    + destruct Hk as [?|Hk]; [done|]. left. apply Hqe. by right.
  - rewrite dom_insert_lookup_L by (by rewrite Ho). rewrite Hm; [cbn in Hfuel; lia|].
    intros x Hx. apply Hdom. by destruct Hres as [(-> & _)|(-> & _)]; [set_solver|].
  - intros g' (Hg' & Hc' & Hq'). split_and!; [done| |].
    + eapply graph_cut_trans; [|exact Hc']. by apply (graph_cut_insert w w g r o).
    + intros k Hk. apply Hq', Hqd. by left.
Qed.

(** * Invalidating a key *)

(** When an invalidation at version [w] does not panic and keeps the invariant: injected keys are
    only updated, and at increasing versions; a key is not force-dirtied twice at one version;
    a vacant key keeps its priority. *)
Definition invalidate_pre (w : VersionNumber) (old : option (VersionedGraphNode V))
  (kind : InvalidateKind) (priority : InvalidationSourcePriority) : Prop :=
  match old, kind with
  | None, _ => True
  | Some (Occupied o), ForceDirty => w ∉ dirties (occ_history o)
  | Some (Occupied o), _ => True
  | Some (Vacant e), ForceDirty => vac_invalidation_priority e = priority
  | Some (Vacant e), Update _ _ => True
  | Some (Vacant e), Invalidate => False
  | Some (InjectedNode i), Update _ _ => ∀ k d, (k, d) ∈ inj_values i → k < w
  | Some (InjectedNode i), _ => False
  end.

(** A fresh entry holding an updated value. *)
Definition occ_updated (w : VersionNumber) (x : V) (o : OccupiedGraphNode V) : Prop :=
  pv_value (occ_res o) = Some x ∧ md_deps (occ_metadata o) = SPNone ∧
  ∀ u, u ∈ᵣ occ_ranges o ↔ w ≤ u.

(** The entry of the key right after the invalidation, before its dependents are visited. *)
Definition entry_after (w : VersionNumber) (kind : InvalidateKind)
  (old : option (VersionedGraphNode V)) (n1 : VersionedGraphNode V) : Prop :=
  match old, kind with
  | None, Update x Injected => ∃ i, n1 = InjectedNode i ∧ keyed (inj_values i) = [(w, x)] ∧
      lazy_data (inj_rdeps i) = []
  | None, Update x Normal => ∃ o, n1 = Occupied o ∧ occ_updated w x o
  | None, _ => ∃ e, n1 = Vacant e ∧ dirties (vac_dirtied_history e) = [w]
  | Some (Occupied o), ForceDirty => ∃ o1, n1 = Occupied o1 ∧ occ_res o1 = occ_res o ∧
      md_deps (occ_metadata o1) = md_deps (occ_metadata o) ∧
      (∀ u, u ∈ᵣ occ_ranges o1 ↔ u ∈ᵣ occ_ranges o ∧ u < w) ∧
      ∀ d, d ∈ dirties (occ_history o1) ↔ d ∈ dirties (occ_history o) ∨ d = w
  | Some (Occupied o), Invalidate => ∃ o1, n1 = Occupied o1 ∧ occ_cut w o o1 ∧
      ∀ u, u ∈ᵣ occ_ranges o1 ↔ u ∈ᵣ occ_ranges o ∧ u < w
  | Some (Occupied o), Update x _ =>
      (n1 = Occupied o ∧ ∃ y, pv_value (occ_res o) = Some y ∧ value_equality y x = true) ∨
      ∃ o1, n1 = Occupied o1 ∧ occ_updated w x o1
  | Some (Vacant e), Update x _ => ∃ o, n1 = Occupied o ∧ occ_updated w x o
  | Some (Vacant e), _ => ∃ e1, n1 = Vacant e1 ∧
      ∀ d, d ∈ dirties (vac_dirtied_history e1) ↔ d ∈ dirties (vac_dirtied_history e) ∨ d = w
  | Some (InjectedNode i), Update x _ => ∃ i1 k d, n1 = InjectedNode i1 ∧
      last (inj_values i) = Some (k, d) ∧
      if value_equality (inj_value d) x then i1 = i
      else keyed (inj_values i1) = keyed (inj_values i) ++ [(w, x)] ∧ lazy_data (inj_rdeps i1) = []
  | Some (InjectedNode i), _ => False
  end.

Definition drained (r : InvalidateResult) : list DiceKey :=
  match r with Changed (Some l) => l | _ => [] end.

(** What the operation on the entry itself establishes. *)
Definition entry_step (w : VersionNumber) (k : DiceKey) (entry n1 : VersionedGraphNode V)
  (r : InvalidateResult) : Prop :=
  node_wf w n1 ∧ node_key n1 = k ∧
  ((r = NoChange ∧ n1 = entry) ∨
   ((∀ o, entry = Occupied o → ∃ o2, n1 = Occupied o2) ∧
    (∀ j, j ∈ node_rdeps n1 → j ∈ node_rdeps entry) ∧
    (∀ o2, n1 = Occupied o2 → unbounded (occ_ranges o2) → occ_deps o2 = []) ∧
    (∀ j, node_live entry → j ∈ node_rdeps entry → j ∈ drained r) ∧
    (∀ j, j ∈ drained r → j ∈ node_rdeps entry))).

Definition entry_invalidate (entry : VersionedGraphNode V) (w : VersionNumber)
  (kind : InvalidateKind) (priority : InvalidationSourcePriority)
  : outcome (VersionedGraphNode V * InvalidateResult) :=
  match kind with
  | Invalidate => VersionedGraphNode_mark_invalidated entry w (Some priority)
  | ForceDirty => VersionedGraphNode_force_dirty entry w priority
  | Update value _ => VersionedGraphNode_on_injected entry w value priority
  end.

Lemma settled_begins_with w : settled w (VersionRange_into_ranges (VersionRange_begins_with w)).
Proof. intros u Hu. rewrite !in_begins_with. lia. Qed.

Lemma entry_mark_invalidated w o p :
  node_wf w (Occupied o) →
  returns (entry_invalidate (Occupied o) w Invalidate p) (λ '(n1, r),
    entry_step w (occ_key o) (Occupied o) n1 r ∧ entry_after w Invalidate (Some (Occupied o)) n1).
Proof.
  intros W. eapply returns_mono; [by apply mark_invalidated_node_spec|].
  intros [n1 r] (o' & -> & Hc & Hb & Hu & Hr). destruct (node_wf_cut _ _ _ Hc W) as [Hk W'].
  split; [|by exists o']. split; [done|]. split; [done|]. right. split_and!.
  - intros ? [= <-]. by exists o'.
  - intros j Hj. by destruct Hr as [(_ & _ & E)|(_ & E)]; rewrite E in Hj; [|set_solver].
  - intros ? [= <-] Hl. exfalso. eapply unbounded_not_before; [|exact Hl|exact Hb]. by destruct W'.
  - intros j Hl Hj. destruct Hr as [(-> & E & _)|(-> & _)]; [|done]. exfalso.
    cbn in Hl. rewrite <- E in Hl. eapply unbounded_not_before; [|exact Hl|exact Hb]. by destruct W'.
  - intros j Hj. by destruct Hr as [(-> & _)|(-> & _)]; [set_solver|].
Qed.

Lemma entry_force_dirty w o p :
  node_wf w (Occupied o) → w ∉ dirties (occ_history o) →
  returns (entry_invalidate (Occupied o) w ForceDirty p) (λ '(n1, r),
    entry_step w (occ_key o) (Occupied o) n1 r ∧ entry_after w ForceDirty (Some (Occupied o)) n1 ∧
    r ≠ NoChange).
Proof.
  intros W Hd. pose proof W as (Wr & _ & Hh & Hle & _). cbn [entry_invalidate VersionedGraphNode_force_dirty].
  apply (returns_bind _ _ (λ '(o1, r), entry_step w (occ_key o) (Occupied o) (Occupied o1) r ∧
                               entry_after w ForceDirty (Some (Occupied o)) (Occupied o1) ∧ r ≠ NoChange));
    [|by intros [o1 r]].
  unfold OccupiedGraphNode_force_dirty.
  eapply returns_bind; [by apply occ_mark_invalidated_spec|].
  intros [o1 b] (Hc & Hb & Hu & Hrd & _ & _). cbn beta iota.
  destruct (node_wf_cut _ _ _ Hc W) as [Hk W1].
  pose proof Hc as (_ & Hres & Hdeps & Hhist & Hwf & _). unfold occ_history in Hhist. rewrite Hhist.
  eapply returns_bind; [by apply force_dirty_spec|].
  intros [h b'] (Hh' & Hd' & Hb' & _). destruct b'; [|by destruct (Hd (proj1 Hb' eq_refl))].
  cbn. split; [|split; [|done]].
  - split_and!; [|done|right].
    + destruct W1 as (_ & S1 & _ & _ & Hv). cbn. split_and!; try done.
      intros d [Hin| ->]%Hd'; [by apply Hle|lia].
    + split_and!.
      * intros ? [= <-]. eauto.
      * set_solver.
      * intros ? [= <-] Hl. exfalso. eapply unbounded_not_before; [|exact Hl|exact Hb]. done.
      * intros j _. by rewrite Hrd.
      * intros j. by rewrite Hrd.
  - eexists. split; [done|]. split_and!; done.
Qed.

Lemma occ_new_updated w k x p v :
  node_wf w (Vacant v) ∨ v = VacantGraphNode_new k p →
  let o := OccupiedGraphNode_new k x SPNone
             (VersionRange_into_ranges (VersionRange_begins_with w)) (vac_dirtied_history v)
             (TrackedInvalidationPaths_new p k w) in
  node_wf w (Occupied o) ∧ occ_updated w x o ∧ node_rdeps (Occupied o) = [].
Proof.
  intros Hv o. assert (node_wf w (Vacant v)) as [Hh Hd].
  { destruct Hv as [?| ->]; [done|]. split; [apply history_new_wf|]. cbn. set_solver. }
  split_and!; [|split_and!|done]; try done.
  - cbn. split_and!; try done; [apply begins_with_wf|apply settled_begins_with|]. by left.
  - intros u. apply in_begins_with.
Qed.

Lemma entry_update w n x s p :
  node_wf w n → invalidate_pre w (Some n) (Update x s) p →
  returns (entry_invalidate n w (Update x s) p) (λ '(n1, r),
    entry_step w (node_key n) n n1 r ∧ entry_after w (Update x s) (Some n) n1 ∧
    (r = NoChange → n1 = n)).
Proof.
  intros W Hpre. destruct n as [o|i|e]; cbn [entry_invalidate VersionedGraphNode_on_injected].
  - unfold OccupiedGraphNode_on_injected, PagableNodeValue_as_hydrated.
    destruct (match pv_value (occ_res o) with Some _ => _ | None => false end) eqn:Eq.
    { cbn. split; [split_and!; [done|done|by left]|]. split; [|done]. left. split; [done|].
      destruct (pv_value (occ_res o)) as [y|]; [by exists y|done]. }
    destruct W as (Wr & _ & Hh & Hle & _). cbn. split; [|split; [|done]].
    + split_and!; [|done|right].
      * cbn. split_and!; try done; [apply begins_with_wf|apply settled_begins_with|by left].
      * split_and!; try done; [by eauto|set_solver|]. by intros ? [= <-].
    + right. eexists. split; [done|]. split_and!; try done. intros u. apply in_begins_with.
  - destruct W as [Wi Hle]. cbn in Hpre.
    eapply returns_bind; [by apply injected_on_injected_spec|].
    intros [i1 r] (Wi' & Hk & k & d & El & H). cbn.
    destruct (value_equality (inj_value d) x) eqn:Eq.
    { destruct H as [-> ->]. split; [split_and!; [done|done|by left]|].
      split; [|done]. exists i, k, d. by rewrite Eq. }
    destruct H as (Hv & -> & Hr). split; [|split; [exists i1, k, d; by rewrite Eq|done]].
    split_and!; [|done|right].
    + split; [done|]. intros k' d' Hin.
      assert ((k', inj_value d') ∈ keyed (inj_values i1)) as Hin'.
      { unfold keyed. apply list_elem_of_fmap. by exists (k', d'). }
      rewrite Hv in Hin'. apply elem_of_app in Hin' as [Hin'|Hin']; [|set_solver].
      unfold keyed in Hin'. apply list_elem_of_fmap in Hin' as ([k2 d2] & [= -> _] & Hin2). by eapply Hle.
    + cbn. split_and!; try done. rewrite Hr. set_solver.
  - destruct (occ_new_updated w (vac_key e) x p e (or_introl W)) as (Ho & Hu & Hr).
    cbn. split; [|split; [by eexists|done]].
    split_and!; [done|done|right]. split_and!; try done. by intros ? [= <-].
Qed.

Lemma entry_force_dirty_vacant w e p :
  node_wf w (Vacant e) → vac_invalidation_priority e = p →
  returns (entry_invalidate (Vacant e) w ForceDirty p) (λ '(n1, r),
    entry_step w (vac_key e) (Vacant e) n1 r ∧ entry_after w ForceDirty (Some (Vacant e)) n1 ∧
    (r = NoChange → n1 = Vacant e)).
Proof.
  intros [Hh Hle] Hp. cbn [entry_invalidate VersionedGraphNode_force_dirty].
  unfold VacantGraphNode_force_dirty. rewrite bool_decide_eq_true_2 by done.
  apply (returns_bind _ _ (λ '(e1, b), entry_step w (vac_key e) (Vacant e) (Vacant e1)
             (if (b : bool) then Changed None else NoChange) ∧
           entry_after w ForceDirty (Some (Vacant e)) (Vacant e1) ∧ (b = false → e1 = e))).
  2:{ intros [e1 b] (H1 & H2 & H3). split_and!; [done|done|]. destruct b; [done|]. by rewrite H3. }
  cbn [mbind outcome_bind rust_assert].
  eapply returns_bind; [by apply force_dirty_spec|].
  intros [h b] (Hh' & Hd' & _ & He). cbn. split; [|split; [by eexists|]].
  - split_and!; [|done|right].
    + split; [done|]. cbn. intros d [Hin| ->]%Hd'; [by apply Hle|lia].
    + split_and!; try done. by destruct b.
  - intros Hb. rewrite (He Hb). by destruct e.
Qed.

Lemma entry_invalidate_spec w k n kind p :
  node_wf w n → node_key n = k → invalidate_pre w (Some n) kind p →
  returns (entry_invalidate n w kind p) (λ '(n1, r),
    entry_step w k n n1 r ∧ entry_after w kind (Some n) n1 ∧
    (r = NoChange → kind = Invalidate ∨ n1 = n)).
Proof.
  intros W <- Hpre. destruct kind as [| |x s]; (destruct n as [o|i|e]; cbn in Hpre; try done).
  - eapply returns_mono; [by apply entry_force_dirty|]. intros [n1 r] (?&?&?). by split_and!.
  - eapply returns_mono; [by apply entry_force_dirty_vacant|]. intros [n1 r] (?&?&?).
    split_and!; auto.
  - eapply returns_mono; [by apply entry_mark_invalidated|]. intros [n1 r] (?&?). split_and!; auto.
  - eapply returns_mono; [by apply (entry_update w (Occupied o) x s p)|].
    intros [n1 r] (?&?&?). split_and!; auto.
  - eapply returns_mono; [by apply (entry_update w (InjectedNode i) x s p)|].
    intros [n1 r] (?&?&?). split_and!; auto.
  - eapply returns_mono; [by apply (entry_update w (Vacant e) x s p)|].
    intros [n1 r] (?&?&?). split_and!; auto.
Qed.

Lemma new_entry_spec w k kind p :
  returns (invalidate_new_entry (mkGraphKey w k) kind p) (λ n1,
    node_wf w n1 ∧ node_key n1 = k ∧ node_rdeps n1 = [] ∧ entry_after w kind None n1 ∧
    ∀ o2, n1 = Occupied o2 → occ_deps o2 = []).
Proof.
  assert (returns ('(node, _) ← VacantGraphNode_force_dirty (VacantGraphNode_new k p) w p;
                   Ok (Vacant (V:=V) node)) (λ n1,
    node_wf w n1 ∧ node_key n1 = k ∧ node_rdeps n1 = [] ∧ entry_after w ForceDirty None n1 ∧
    ∀ o2, n1 = Occupied o2 → occ_deps o2 = [])) as Hv.
  { unfold VacantGraphNode_force_dirty. rewrite bool_decide_eq_true_2 by done. cbn.
    split_and!; try done; [split; [repeat constructor|done]| |by eexists].
    intros d Hd. assert (d = w) as -> by set_solver. done. }
  destruct kind as [| |x [|]]; cbn [invalidate_new_entry gk_k gk_v]; [done|done| |].
  - destruct (occ_new_updated w k x p _ (or_intror eq_refl)) as (Ho & Hu & Hr).
    cbn [returns]. split; [exact Ho|]. split; [done|]. split; [done|]. split; [by eexists|].
    by intros ? [= <-].
  - cbn. split_and!; try done; [|by eexists].
    intros k' d [= -> ->]%list_elem_of_singleton. done.
Qed.

(** The specification of [VersionedGraph::invalidate]. *)
Definition invalidate_post (w : VersionNumber) (g : VersionedGraph V) (k : DiceKey)
  (kind : InvalidateKind) (res : VersionedGraph V * bool) : Prop :=
  let '(g', changed) := res in
  graph_inv w g' ∧
  (∃ n1, entry_after w kind (g !! k) n1 ∧ graph_cut w (<[k := n1]> g) g') ∧
  (changed = true → ∀ j o, g !! j = Some (Occupied o) → unbounded (occ_ranges o) →
     k ∈ occ_deps o → ∃ o', g' !! j = Some (Occupied o') ∧ all_before w (occ_ranges o')) ∧
  (changed = false → kind ≠ Invalidate → g' = g).

Lemma invalidate_spec w g k kind p :
  graph_inv w g → invalidate_pre w (g !! k) kind p →
  returns (VersionedGraph_invalidate g (mkGraphKey w k) kind p) (invalidate_post w g k kind).
Proof.
  intros Hinv Hpre. unfold VersionedGraph_invalidate. cbn [gk_k gk_v].
  assert (∀ x n, g !! x = Some n → node_wf w n) as Hwf
    by (intros x n Hx; by apply (gi_wf _ _ _ Hinv) in Hx as [? _]).
  destruct (g !! k) as [n|] eqn:Ek.
  2:{ eapply returns_bind; [apply new_entry_spec|]. intros n1 (W1 & K1 & R1 & A1 & D1).
      assert (graph_inv w (<[k:=n1]> g)) as Hg1.
      { eapply (replace_step w ∅); [done|done|done|congruence|rewrite R1; set_solver|eauto|].
        intros j o Hj Hu Hne [?|Hk]; [set_solver|].
        destruct (gi_deps _ _ _ Hinv j o Hj Hu ltac:(set_solver) k Hk) as (n & Hn & _). congruence. }
      cbn. split_and!; [done| | |done].
      - exists n1. rewrite Ek. split; [done|]. apply (graph_cut_refl w w). intros x n Hx.
        by apply (gi_wf _ _ _ Hg1) in Hx as [? _].
      - intros _ j o Hj Hu Hk.
        destruct (gi_deps _ _ _ Hinv j o Hj Hu ltac:(set_solver) k Hk) as (n & Hn & _). congruence. }
  destruct (gi_wf _ _ _ Hinv _ _ Ek) as [Wn Kn].
  eapply returns_bind; [apply (entry_invalidate_spec w k n kind p Wn Kn Hpre)|].
  intros [n1 r] ((W1 & K1 & HS) & HA & HN).
  destruct HS as [[-> ->]|(S1 & S2 & S3 & S4 & S5)].
  { cbn. rewrite insert_id by done. split_and!; [done| |done|done].
    exists n. rewrite Ek. split; [done|]. rewrite insert_id by done. by apply (graph_cut_refl w w). }
  assert (graph_inv_pending w (list_to_set (drained r)) (<[k:=n1]> g)) as Hg1.
  { eapply (replace_step w ∅); [done|done|done| |by eauto|done|].
    - intros o Ho. apply (S1 o). congruence.
    - intros j o Hj Hu Hne [?|Hk]; [set_solver|].
      destruct (gi_deps _ _ _ Hinv j o Hj Hu ltac:(set_solver) k Hk) as (n' & Hn' & Hl & Hr).
      rewrite Ek in Hn'. injection Hn' as <-. apply elem_of_list_to_set. by apply S4. }
  assert (∀ j o, g !! j = Some (Occupied o) → unbounded (occ_ranges o) → k ∈ occ_deps o →
            j ∈ drained r) as Hdep.
  { intros j o Hj Hu Hk.
    destruct (gi_deps _ _ _ Hinv j o Hj Hu ltac:(set_solver) k Hk) as (n' & Hn' & Hl & Hr).
    rewrite Ek in Hn'. injection Hn' as <-. by apply S4. }
  assert (∀ x n, <[k:=n1]> g !! x = Some n → node_wf w n) as Hwf1
    by (intros x n' Hx; by apply (gi_wf _ _ _ Hg1) in Hx as [? _]).
  destruct r as [|rdeps].
  { cbn in Hg1 |- *. split_and!; [exact Hg1| |done|].
    - exists n1. rewrite Ek. split; [done|]. by apply (graph_cut_refl w w).
    - intros _ Hk. destruct (HN eq_refl) as [?| ->]; [done|]. by apply insert_id. }
  unfold VersionedGraph_invalidate_rdeps.
  assert (drained (Changed rdeps) = default [] rdeps) as Ed by (by destruct rdeps).
  rewrite Ed in *. set (Q := list_to_set (default [] rdeps) : gset DiceKey) in *.
  eapply returns_bind; [apply (invalidate_rdeps_loop_spec _ w _ (elements Q) Q)|].
  - by rewrite list_to_set_elements_L.
  - intros j Hj%elem_of_elements. subst Q. apply elem_of_list_to_set in Hj. apply S5 in Hj.
    destruct (gi_rdeps _ _ _ Hinv _ _ _ Ek Hj) as [o Ho].
    destruct (decide (j = k)) as [->|Hne]; [|exists o; by rewrite lookup_insert_ne].
    destruct (S1 o ltac:(congruence)) as [o2 ->]. exists o2. by rewrite lookup_insert_eq.
  - intros j Hj. left. by apply elem_of_elements.
  - assert (Q ⊆ dom (<[k:=n1]> g)) as HQ.
    { intros j Hj. apply elem_of_list_to_set in Hj. apply S5 in Hj.
      destruct (gi_rdeps _ _ _ Hinv _ _ _ Ek Hj) as [o Ho]. rewrite dom_insert.
      apply elem_of_union_r. by eapply elem_of_dom_2. }
    change (length (elements Q)) with (size Q).
    rewrite <- (size_dom (<[k:=n1]> g)), size_difference by done.
    apply subseteq_size in HQ. lia.
  - intros g' (Hg' & Hc & Hq). cbn. split_and!; [done| | |done].
    + exists n1. rewrite Ek. by split.
    + intros _ j o Hj Hu Hk. apply Hq. subst Q. apply elem_of_list_to_set. by eapply Hdep.
Qed.

(** * Completeness of invalidation *)

(** [j] reaches [k] through nodes that are valid at every later version. *)
Inductive depends_on (g : VersionedGraph V) (k : DiceKey) : DiceKey → Prop :=
| depends_direct j o :
    g !! j = Some (Occupied o) → unbounded (occ_ranges o) → k ∈ occ_deps o → depends_on g k j
| depends_trans j o d :
    g !! j = Some (Occupied o) → unbounded (occ_ranges o) → d ∈ occ_deps o →
    depends_on g k d → depends_on g k j.

Lemma graph_cut_occ w g g' j o :
  graph_cut w g g' → g !! j = Some (Occupied o) →
  ∃ o', g' !! j = Some (Occupied o') ∧ occ_cut w o o'.
Proof.
  intros H Hj. specialize (H j). rewrite Hj in H. destruct (g' !! j) as [[o'| |]|]; try done. eauto.
Qed.

Lemma invalidate_dependents w g k kind g' :
  graph_inv w g → invalidate_post w g k kind (g', true) →
  ∀ j, depends_on g k j → j ≠ k →
    ∃ o', g' !! j = Some (Occupied o') ∧ all_before w (occ_ranges o').
Proof.
  intros Hinv (Hg' & (n1 & _ & Hc) & Hd & _) j Hj.
  assert (∀ j o, g !! j = Some (Occupied o) → j ≠ k →
            ∃ o', g' !! j = Some (Occupied o') ∧ occ_cut w o o') as Hcut.
  { intros i oi Hi Hne. eapply graph_cut_occ; [exact Hc|]. by rewrite lookup_insert_ne. }
  induction Hj as [j o Hj Hu Hk|j o d Hj Hu Hdj Hdk IH]; intros Hne; [by eapply Hd|].
  destruct (decide (d = k)) as [->|Hdk']; [by eapply Hd|]. destruct (IH Hdk') as (od & Hod & Hbd).
  destruct (Hcut j o Hj Hne) as (o' & Ho' & (_ & _ & Hdeps & _ & Wr & Hr)).
  exists o'. split; [done|]. destruct Hr as [Er|Hr]; [|intros u Hu'; by apply Hr in Hu' as [_ ?]].
  exfalso. rewrite <- Er in Hu.
  destruct (gi_deps _ _ _ Hg' j o' Ho' Hu ltac:(set_solver) d) as (n & Hn & Hl & _).
  { unfold occ_deps. by rewrite Hdeps. }
  rewrite Hod in Hn. injection Hn as <-. eapply unbounded_not_before; [|exact Hl|exact Hbd].
  by apply (gi_wf _ _ _ Hg') in Hod as [(? & _) _].
Qed.

(** * Lookups *)

(** The last version before [v] at which the node is verified. *)
Definition last_verified (o : OccupiedGraphNode V) (v u : VersionNumber) : Prop :=
  u ∈ᵣ occ_ranges o ∧ u < v ∧ ∀ u', u' ∈ᵣ occ_ranges o → u' ≤ v → u' ≤ u.

(** What a lookup of an occupied node at version [v] says. *)
Definition occupied_result (o : OccupiedGraphNode V) (v : VersionNumber)
  (r : VersionedGraphResult V) : Prop :=
  match r with
  | Match cv => v ∈ᵣ occ_ranges o ∧
      ∃ x, pv_value (occ_res o) = Some x ∧
        cv = mkComputed V (MaybePresent x) (occ_ranges o)
               (TrackedInvalidationPaths_at_version (occ_invalidation_paths o) v)
  | MatchPagedOut m => v ∈ᵣ occ_ranges o ∧ pv_value (occ_res o) = None ∧
      pv_data_key (occ_res o) = Some (pom_data_key m) ∧ pom_valid m = occ_ranges o
  | CheckDeps m => ¬ v ∈ᵣ occ_ranges o ∧ pv_value (occ_res o) = Some (mm_entry m) ∧
      mm_deps_to_validate m = md_deps (occ_metadata o) ∧
      last_verified o v (mm_prev_verified_version m) ∧
      same_epoch (occ_history o) (mm_prev_verified_version m) v
  | CheckDepsPagedOut m => ¬ v ∈ᵣ occ_ranges o ∧ pv_value (occ_res o) = None ∧
      pv_data_key (occ_res o) = Some (pmm_data_key m) ∧
      pmm_deps_to_validate m = md_deps (occ_metadata o) ∧
      last_verified o v (pmm_prev_verified_version m) ∧
      same_epoch (occ_history o) (pmm_prev_verified_version m) v
  | Compute => ¬ v ∈ᵣ occ_ranges o ∧
      ∀ u, u ∈ᵣ occ_ranges o → u ≤ v → ∃ d, d ∈ dirties (occ_history o) ∧ u < d ≤ v
  | RejectedDueToGraphClear => False
  end.

Lemma occ_at_version_spec o v w :
  node_wf w (Occupied o) →
  returns (OccupiedGraphNode_at_version o v) (occupied_result o v).
Proof.
  intros (Wr & _ & Wh & _ & Hpv).
  unfold OccupiedGraphNode_at_version, occupied_result, occ_ranges, occ_history in *.
  eapply returns_bind; [by apply find_value_upper_bound_spec|]. intros [u|].
  2:{ intros Hnone. cbn. split; [intros Hv; apply Hnone in Hv; lia|].
      intros u Hu Hle. apply Hnone in Hu. lia. }
  intros (Hu & Huv & Hmax). destruct (N.eqb_spec u v) as [->|Hne].
  - unfold OccupiedGraphNode_computed_val, PagableNodeValue_expect_hydrated.
    destruct (pv_value (occ_res o)) as [x|] eqn:Ex.
    + cbn. eauto.
    + destruct (pv_data_key (occ_res o)) as [dk|]; [by cbn|]. by destruct Hpv.
  - assert (¬ v ∈ᵣ md_verified_ranges (occ_metadata o)) as Hnv.
    { intros Hv. apply Hmax in Hv; lia. }
    eapply returns_bind; [by apply restricted_range_spec|]. intros r (_ & _ & Hr).
    destruct (VersionRange_contains r u) eqn:Ec.
    + apply VersionRange_contains_spec in Ec. apply Hr in Ec.
      destruct (pv_value (occ_res o)) as [x|] eqn:Ex.
      * cbn. split_and!; try done. split_and!; [done|lia|done].
      * destruct (pv_data_key (occ_res o)) as [dk|]; [|by destruct Hpv]. cbn. split_and!; try done.
        split_and!; [done|lia|done].
    + cbn. split; [done|]. intros u' Hu' Hle. pose proof (Hmax u' Hu' Hle) as Hle'.
      assert (¬ same_epoch (md_dirtied_history (occ_metadata o)) u v) as Hn.
      { rewrite <- Hr, <- VersionRange_contains_spec. by rewrite Ec. }
      destruct (decide (Exists (λ d, u < d ∧ d ≤ v) (dirties (md_dirtied_history (occ_metadata o)))))
        as [Hex|Hex].
      { apply Exists_exists in Hex as (d & Hd & ? & ?). exists d. split; [done|]. lia. }
      exfalso. apply Hn. intros d Hd. apply not_Exists_Forall in Hex; [|intros ?; apply _].
      rewrite Forall_forall in Hex. specialize (Hex d Hd). cbn in Hex. lia.
Qed.

Definition is_match (r : VersionedGraphResult V) : Prop :=
  match r with Match _ | MatchPagedOut _ => True | _ => False end.

(** * Recording a computed value *)

(** A dependency that has been seen at [v]. *)
Definition dep_usable (v : VersionNumber) (n : VersionedGraphNode V) : Prop :=
  match n with
  | Occupied _ => True
  | InjectedNode i => ∃ k d, (k, d) ∈ inj_values i ∧ k ≤ v
  | Vacant _ => False
  end.

(** The dependency is known to have the same value at [v] and at [u]. *)
Definition dep_valid (v : VersionNumber) (n : VersionedGraphNode V) (u : VersionNumber) : Prop :=
  match n with
  | Occupied o => v ∈ᵣ occ_ranges o ∧ u ∈ᵣ occ_ranges o
  | InjectedNode i =>
      ∃ k d, current_at (inj_values i) v = Some (k, d) ∧ u ∈ᵣ inj_valid_versions d
  | Vacant _ => False
  end.

(** The node is valid from [v] on. *)
Definition covers (v : VersionNumber) (n : VersionedGraphNode V) : Prop :=
  match n with
  | Occupied o => ∀ u, v ≤ u → u ∈ᵣ occ_ranges o
  | InjectedNode _ => True
  | Vacant _ => False
  end.

(** A node that is verified at [v] and valid forever has been valid since [v].  At the latest
    version this always holds ([fresh_at_current]); it can fail only for a computation that
    finishes at an older version. *)
Definition fresh_at (v : VersionNumber) (n : VersionedGraphNode V) : Prop :=
  match n with
  | Occupied o => v ∈ᵣ occ_ranges o → unbounded (occ_ranges o) → covers v n
  | _ => True
  end.

Lemma fresh_at_current w n : node_wf w n → fresh_at w n.
Proof.
  destruct n as [o| |]; cbn; try done. intros (W & S & _) Hw Hu u Hle.
  apply (unbounded_settled w) in Hu; [|done..]. destruct (decide (u = w)) as [->|Hne]; [done|].
  apply S; [lia|done].
Qed.

Lemma strip_dep n n' v :
  strip n = strip n' →
  (dep_usable v n ↔ dep_usable v n') ∧ (∀ u, dep_valid v n u ↔ dep_valid v n' u) ∧
  (covers v n ↔ covers v n') ∧ (fresh_at v n ↔ fresh_at v n').
Proof.
  destruct n as [[k r [d rd rg h] p]|[k vs rd p]|e], n' as [[k' r' [d' rd' rg' h'] p']|[k' vs' rd' p']|e'];
    cbn; intros [=]; subst; done.
Qed.

Lemma last_begin_le l r v :
  ranges_wf l → last l = Some r → (∀ u, v ≤ u → u ∈ᵣ l) → vr_begin r ≤ v.
Proof.
  intros W [l' ->]%last_Some Hall. apply ranges_wf_snoc in W as (_ & Wr & Hsep).
  destruct (N.le_gt_cases (vr_begin r) v) as [|Hlt]; [done|exfalso].
  assert (vr_begin r - 1 ∈ᵣ (l' ++ [r])) as Hin by (apply Hall; lia).
  apply in_ranges_app in Hin as [Hin|Hin].
  - apply in_ranges_elem in Hin as (x & Hx & Hin). specialize (Hsep x Hx).
    unfold range_sep, in_range in *. destruct (vr_end x); [lia|done].
  - apply in_ranges_singleton in Hin as [Hin _]. lia.
Qed.

Lemma should_add_covers v o w :
  node_wf w (Occupied o) → covers v (Occupied o) →
  NodeMetadata_should_add_rdep_at (occ_metadata o) v = true.
Proof.
  intros (W & _) Hc. cbn in Hc. unfold NodeMetadata_should_add_rdep_at, VersionRanges_last.
  fold (occ_ranges o). destruct (last (occ_ranges o)) as [r|] eqn:El; [|done].
  pose proof (last_begin_le _ _ _ W El Hc). case_N_bool; [lia|].
  destruct (vr_end r) as [e|] eqn:Ee; [|done]. exfalso.
  assert (N.max v e ∈ᵣ occ_ranges o) as Hin by (apply Hc; lia).
  apply last_Some in El as [l' El]. rewrite El in *. apply ranges_wf_snoc in W as (_ & _ & Hsep).
  apply in_ranges_app in Hin as [Hin|Hin].
  - apply in_ranges_elem in Hin as (x & Hx & Hin). specialize (Hsep x Hx).
    unfold range_sep, in_range in *. destruct (vr_end x); [lia|done].
  - apply in_ranges_singleton in Hin as [_ Hin]. rewrite Ee in Hin. lia.
Qed.

Lemma add_rdep_spec w v k n :
  node_wf w n → dep_usable v n →
  returns (VersionedGraphNode_add_rdep_at n v k) (λ n',
    strip n' = strip n ∧ (∀ j, j ∈ node_rdeps n' → j ∈ node_rdeps n ∨ j = k) ∧
    (∀ j, j ∈ node_rdeps n → j ∈ node_rdeps n') ∧ (covers v n → k ∈ node_rdeps n')).
Proof.
  intros W Hu. destruct n as [o|i|e]; cbn [VersionedGraphNode_add_rdep_at]; [| |done].
  - cbn [returns]. pose proof (should_add_covers v o w W) as Hadd.
    unfold OccupiedGraphNode_add_rdep_at.
    destruct (NodeMetadata_should_add_rdep_at (occ_metadata o) v).
    + split_and!; [done|intros j Hj; by apply LazyDepsSet_insert_elem in Hj| |];
        intros; apply LazyDepsSet_insert_elem; auto.
    + split_and!; [done|auto|done|]. intros Hc. by apply Hadd in Hc.
  - unfold InjectedGraphNode_add_rdep_at.
    assert (existsb (λ kd, kd.1 <=? v) (reverse (inj_values i)) = true) as ->.
    { destruct Hu as (k' & d & Hin & Hle). apply existsb_exists. exists (k', d).
      split; [apply list_elem_of_In; by rewrite elem_of_reverse|]. by apply N.leb_le. }
    cbn [mbind outcome_bind returns].
    split_and!; [done|intros j Hj; by apply LazyDepsSet_insert_elem in Hj| |];
      intros; apply LazyDepsSet_insert_elem; auto.
Qed.

Lemma intersect_valid_versions_spec w v n l :
  node_wf w n → dep_usable v n → ranges_wf l →
  returns (VersionedGraphNode_intersect_valid_versions_at n v l) (λ l',
    ranges_wf l' ∧ ∀ u, u ∈ᵣ l' ↔ u ∈ᵣ l ∧ dep_valid v n u).
Proof.
  intros W Hu Wl. unfold VersionedGraphNode_intersect_valid_versions_at,
    VersionedGraphNode_valid_versions_at.
  destruct n as [o|i|e]; [| |done].
  - destruct W as (Wr & _). unfold occ_ranges in *.
    destruct (VersionRanges_contains_spec _ v Wr) as (b & -> & Hb). cbn [mbind outcome_bind].
    destruct b.
    + eapply returns_mono; [by apply intersect_in_place_spec|]. intros l' [Wl' Hl'].
      split; [done|]. intros u. rewrite Hl'. cbn. unfold occ_ranges.
      assert (v ∈ᵣ md_verified_ranges (occ_metadata o)) by (by apply Hb). tauto.
    + cbn. split; [apply ranges_wf_nil|]. intros u. rewrite in_ranges_nil. split; [done|].
      intros (_ & Hv & _). by apply Hb in Hv.
  - destruct W as [[Wv _] _]. rewrite data_at_current.
    destruct (current_at (inj_values i) v) as [[k d]|] eqn:E.
    + destruct (data_at_spec _ _ _ _ Wv E) as (_ & _ & _ & Wd & _). cbn [mbind outcome_bind expect].
      eapply returns_mono; [by apply intersect_in_place_spec|]. intros l' [Wl' Hl'].
      split; [done|]. intros u. rewrite Hl'. cbn. split.
      * intros [? ?]. split; [done|]. by exists k, d.
      * intros (? & k' & d' & E' & ?). rewrite E in E'. by injection E' as <- <-.
    + destruct Hu as (k & d & Hin & Hle). apply current_at_None with (k := k) (x := d) in E; [lia|done].
Qed.

(** The graph after [k] was registered with its dependencies [ds]: nodes keep all but their
    reverse dependencies, [k] is added to dependencies only, and to those that may stay valid. *)
Definition grown (v : VersionNumber) (k : DiceKey) (ds : list DiceKey) (g g' : VersionedGraph V)
  : Prop := ∀ x,
  match g !! x, g' !! x with
  | None, None => True
  | Some n, Some n' =>
      strip n' = strip n ∧ (∀ j, j ∈ node_rdeps n' → j ∈ node_rdeps n ∨ (j = k ∧ x ∈ ds)) ∧
      (∀ j, j ∈ node_rdeps n → j ∈ node_rdeps n') ∧
      (x ∈ ds → covers v n → k ∈ node_rdeps n')
  | _, _ => False
  end.

Lemma grown_cons v k d ds g n n1 g' :
  g !! d = Some n → strip n1 = strip n → (∀ j, j ∈ node_rdeps n1 → j ∈ node_rdeps n ∨ j = k) →
  (∀ j, j ∈ node_rdeps n → j ∈ node_rdeps n1) → (covers v n → k ∈ node_rdeps n1) →
  grown v k ds (<[d := n1]> g) g' → grown v k (d :: ds) g g'.
Proof.
  intros Hd Hs H1 H2 H3 H x. specialize (H x). destruct (decide (x = d)) as [->|Hne].
  - rewrite lookup_insert_eq in H. rewrite Hd. destruct (g' !! d) as [n'|]; [|done].
    destruct H as (S & A & B & C). destruct (strip_dep n1 n v Hs) as (_ & _ & Hc & _).
    split_and!; [congruence| |auto|].
    + intros j [Hj|[-> _]]%A; [|right; set_solver].
      apply H1 in Hj as [?| ->]; [by left|right; set_solver].
    + intros _ Hcov. apply B, H3, Hcov.
  - rewrite lookup_insert_ne in H by done. destruct (g !! x) as [m|], (g' !! x) as [m'|]; try done.
    destruct H as (S & A & B & C). split_and!; auto; [set_solver|].
    intros [->|Hin]%elem_of_cons; [done|auto].
Qed.

Lemma update_deps_spec w g v k ds l :
  (∀ x n, g !! x = Some n → node_wf w n) →
  (∀ d, d ∈ ds → ∃ n, g !! d = Some n ∧ dep_usable v n) → ranges_wf l →
  returns (update_deps g (mkGraphKey v k) ds l) (λ '(g', l'),
    grown v k ds g g' ∧ ranges_wf l' ∧
    ∀ u, u ∈ᵣ l' ↔ u ∈ᵣ l ∧ ∀ d n, d ∈ ds → g !! d = Some n → dep_valid v n u).
Proof.
  revert g l. induction ds as [|d ds IH]; intros g l Hwf Hds Wl; cbn [update_deps].
  - cbn. split_and!; [|done|].
    + intros x. destruct (g !! x); [|done]. split_and!; auto. set_solver.
    + intros u. split; [intros ?; split; [done|set_solver]|by intros [? _]].
  - destruct (Hds d ltac:(set_solver)) as (n & Hn & Hu). rewrite Hn. cbn [mbind outcome_bind expect].
    pose proof (Hwf _ _ Hn) as Wn.
    eapply returns_bind; [by apply (add_rdep_spec w)|]. intros n1 (Hs & H1 & H2 & H3).
    destruct (strip_fields _ _ Hs) as (_ & Hwf1 & _). destruct (strip_dep _ _ v Hs) as (Hus & Hval & _).
    eapply returns_bind; [apply (intersect_valid_versions_spec w v n1 l); [by apply Hwf1|by apply Hus|done]|].
    intros l1 [Wl1 Hl1]. cbn [gk_v gk_k] in *.
    assert (∀ x n', <[d:=n1]> g !! x = Some n' → ∃ n0, g !! x = Some n0 ∧ strip n' = strip n0) as Hg1.
    { intros x n' [[<- <-]|[_ Hx]]%lookup_insert_Some; eauto. }
    eapply returns_mono; [apply (IH (<[d:=n1]> g) l1)|].
    + intros x n' (n0 & Hx & Hs0)%Hg1. apply (strip_fields _ _ Hs0). by eapply Hwf.
    + intros d' Hd'. destruct (decide (d' = d)) as [->|Hne].
      * exists n1. rewrite lookup_insert_eq. split; [done|by apply Hus].
      * rewrite lookup_insert_ne by done. apply Hds. set_solver.
    + done.
    + intros [g' l'] (HG & Wl' & Hl'). split_and!; [by eapply grown_cons|done|].
      intros u. rewrite Hl', Hl1. split.
      * intros [[Hul Hv] Hall]. split; [done|]. intros d' n' Hd' Hn'.
        destruct (decide (d' = d)) as [->|Hne]; [simplify_eq; by apply Hval|].
        apply (Hall d'); [set_solver|by rewrite lookup_insert_ne].
      * intros [Hul Hall]. split; [split; [done|apply Hval, (Hall d); [set_solver|done]]|].
        intros d' n' Hd' Hn'. destruct (decide (d' = d)) as [->|Hne].
        -- rewrite lookup_insert_eq in Hn'. simplify_eq. apply Hval, (Hall d); [set_solver|done].
        -- rewrite lookup_insert_ne in Hn' by done. apply (Hall d'); [set_solver|done].
Qed.

(** The versions a value computed at [v] is valid for: those where all dependencies are known to
    agree and that no force-dirtying separates from [v], and [v] itself. *)
Definition computed_ranges (h : ForceDirtyHistory) (v : VersionNumber) (deps_valid : VersionRanges)
  (l : VersionRanges) : Prop :=
  ranges_wf l ∧ ∀ u, u ∈ᵣ l ↔ (u ∈ᵣ deps_valid ∧ same_epoch h u v) ∨ u = v.

Lemma in_single v u : in_range u (mkRange v (Some (v + 1))) ↔ u = v.
Proof. unfold in_range. cbn. lia. Qed.

Lemma restrict_insert_spec h v valid r :
  ranges_wf valid → range_wf r → (∀ u, in_range u r ↔ same_epoch h u v) →
  returns ('(valid, _) ← VersionRanges_intersect_range valid r;
           this ← VersionRange_bounded v (VersionNumber_new (v + 1));
           VersionRanges_insert valid this) (computed_ranges h v valid).
Proof.
  intros Wv Wr Hr. eapply returns_bind; [by apply intersect_range_spec|].
  intros [l b] (Wl & Hl & _). unfold VersionRange_bounded, VersionNumber_new.
  rewrite VersionRange_new_wf by (cbn; lia). cbn [mbind outcome_bind].
  eapply returns_mono; [apply union_range_spec; [done|cbn; lia]|].
  intros l' [Wl' Hl']. split; [done|]. intros u. rewrite Hl', Hl, Hr, in_single. done.
Qed.

Lemma mark_unchanged_spec w o v valid p :
  node_wf w (Occupied o) → ranges_wf valid →
  returns (OccupiedGraphNode_mark_unchanged o v valid p) (λ o', ∃ l,
    computed_ranges (occ_history o) v valid l ∧ ranges_wf (occ_ranges o') ∧
    (∀ u, u ∈ᵣ occ_ranges o' ↔ u ∈ᵣ occ_ranges o ∨ u ∈ᵣ l) ∧
    occ_key o' = occ_key o ∧ occ_res o' = occ_res o ∧
    md_deps (occ_metadata o') = md_deps (occ_metadata o) ∧
    md_rdeps (occ_metadata o') = md_rdeps (occ_metadata o) ∧ occ_history o' = occ_history o).
Proof.
  intros (Wr & _ & Wh & _) Wv. unfold OccupiedGraphNode_mark_unchanged, occ_ranges, occ_history in *.
  eapply returns_bind; [by apply restricted_range_spec|]. intros r (Wrr & _ & Hr).
  pose proof (restrict_insert_spec _ v valid r Wv Wrr Hr) as H.
  destruct (VersionRanges_intersect_range valid r) as [[l b]|]; [|done]. cbn [mbind outcome_bind] in *.
  destruct (VersionRange_bounded v (VersionNumber_new (v + 1))) as [this|]; [|done].
  cbn [mbind outcome_bind] in *. destruct (VersionRanges_insert l this) as [l'|]; [|done].
  cbn [mbind outcome_bind returns] in *.
  assert (returns (if VersionRanges_is_empty l' then Ok (md_verified_ranges (occ_metadata o))
    else VersionRanges_union_in_place (md_verified_ranges (occ_metadata o)) l') (λ m,
      ranges_wf m ∧ ∀ u, u ∈ᵣ m ↔ u ∈ᵣ md_verified_ranges (occ_metadata o) ∨ u ∈ᵣ l')) as Hm.
  { destruct l' as [|x l']; [|apply union_spec; [done|by destruct H]].
    cbn. split; [done|]. intros u. rewrite in_ranges_nil. tauto. }
  eapply returns_bind; [exact Hm|]. intros m [Wm Hm']. cbn. exists l'. split_and!; done.
Qed.

Lemma on_computed_new_spec self v k x valid deps paths h (overwrite : bool) :
  history_wf h → ranges_wf valid →
  returns (on_computed_new self (mkGraphKey v k) x valid deps paths h overwrite)
    (λ '(n', (cv, b)), ∃ l p', computed_ranges h v valid l ∧
      cv_value (V:=V) cv = MaybePresent x ∧ cv_valid (V:=V) cv = l ∧ b = true ∧
      n' = if overwrite then Occupied (OccupiedGraphNode_new k x deps l h p') else self).
Proof.
  intros Wh Wv. unfold on_computed_new. cbn [gk_v gk_k].
  eapply returns_bind; [by apply get_x_spec|]. intros [r pr] (Wr & _ & Hr).
  pose proof (restrict_insert_spec _ v valid r Wv Wr Hr) as H.
  destruct (VersionRanges_intersect_range valid r) as [[l b]|]; [|done]. cbn [mbind outcome_bind] in *.
  destruct (VersionRange_bounded v (VersionNumber_new (v + 1))) as [this|]; [|done].
  cbn [mbind outcome_bind] in *. destruct (VersionRanges_insert l this) as [l'|]; [|done].
  cbn [mbind outcome_bind returns] in *. destruct overwrite; cbn; [eexists l', _|exists l', paths]; split_and!; done.
Qed.

(** The history of the key being computed. *)
Definition prior_history (old : option (VersionedGraphNode V)) : ForceDirtyHistory :=
  match old with
  | Some (Occupied o) => occ_history o
  | Some (Vacant e) => vac_dirtied_history e
  | _ => ForceDirtyHistory_new
  end.

(** What [update] may assume of the stored entry of the key: it is not an injected key, and for
    a version-based reuse the entry verified at the checked version has the checked
    dependencies and is hydrated. *)
Definition update_pre (reusable : ValueReusable) (deps : SeriesParallelDeps)
  (old : option (VersionedGraphNode V)) : Prop :=
  match old, reusable with
  | Some (InjectedNode _), _ => False
  | Some (Occupied o), VersionBased p =>
      p ∈ᵣ occ_ranges o → md_deps (occ_metadata o) = deps ∧ pv_value (occ_res o) ≠ None
  | _, _ => True
  end.

(** Is the stored entry reused? *)
Definition reused (reusable : ValueReusable) (x : V) (deps : SeriesParallelDeps)
  (o : OccupiedGraphNode V) : Prop :=
  match reusable with
  | EqualityBased => deps = md_deps (occ_metadata o) ∧
      ∃ y, pv_value (occ_res o) = Some y ∧ value_equality x y = true
  | VersionBased p => p ∈ᵣ occ_ranges o
  end.

(** A new entry for the value [x], valid at [l]. *)
Definition new_entry (k : DiceKey) (x : V) (deps : SeriesParallelDeps) (l : VersionRanges)
  (h : ForceDirtyHistory) (o' : OccupiedGraphNode V) : Prop :=
  ∃ paths, o' = OccupiedGraphNode_new k x deps l h paths.

(** The stored entry [o'], the computed value [cv] and the change flag [b] after the computation
    at [v] of value [x], given the versions [l] the computed value is valid for: a reused entry
    gains the versions [l]; any other entry is replaced, unless it is valid at [v] or later. *)
Definition stored_after (v : VersionNumber) (k : DiceKey) (x : V) (reusable : ValueReusable)
  (deps : SeriesParallelDeps) (l : VersionRanges) (old : option (VersionedGraphNode V))
  (cv : DiceComputedValue V) (b : bool) (o' : OccupiedGraphNode V) : Prop :=
  (∃ o, old = Some (Occupied o) ∧ reused reusable x deps o ∧
     occ_res o' = occ_res o ∧ md_deps (occ_metadata o') = md_deps (occ_metadata o) ∧
     md_rdeps (occ_metadata o') = md_rdeps (occ_metadata o) ∧
     occ_history o' = occ_history o ∧ ranges_wf (occ_ranges o') ∧
     (∀ u, u ∈ᵣ occ_ranges o' ↔ u ∈ᵣ occ_ranges o ∨ u ∈ᵣ l) ∧
     cv_valid cv = occ_ranges o' ∧ b = false ∧
     ∃ y, pv_value (occ_res o) = Some y ∧ cv_value cv = MaybePresent y) ∨
  (cv_value cv = MaybePresent x ∧ cv_valid cv = l ∧ b = true ∧
   (new_entry k x deps l (prior_history old) o' ∧
      (∀ o, old = Some (Occupied o) → ¬ reused reusable x deps o ∧ all_before v (occ_ranges o)) ∨
    old = Some (Occupied o') ∧ ¬ reused reusable x deps o' ∧
      (∃ u, v ≤ u ∧ u ∈ᵣ occ_ranges o'))).

Lemma reused_spec w reusable x deps o :
  node_wf w (Occupied o) →
  ∃ b, ValueReusable_is_reusable reusable x deps o = Ok b ∧ (b = true ↔ reused reusable x deps o).
Proof.
  intros (Wr & _). unfold ValueReusable_is_reusable, reused, PagableNodeValue_as_hydrated,
    OccupiedGraphNode_is_verified_at. destruct reusable as [|p].
  - case_decide as Hd.
    + destruct (pv_value (occ_res o)) as [y|].
      * eexists. split; [done|]. split; [intros ?; split; [done|by eauto]|]. intros (_ & y' & [= <-] & ?). done.
      * exists false. split; [done|]. split; [done|]. by intros (_ & y' & ? & _).
    + exists false. split; [done|]. split; [done|]. by intros [? _].
  - by apply VersionRanges_contains_spec.
Qed.

Lemma ever_valid_after_spec w v o :
  node_wf w (Occupied o) →
  if NodeMetadata_ever_valid_after (occ_metadata o) v then ∃ u, v ≤ u ∧ u ∈ᵣ occ_ranges o
  else all_before v (occ_ranges o).
Proof.
  intros (W & _). unfold NodeMetadata_ever_valid_after, VersionRanges_last, all_before.
  fold (occ_ranges o). destruct (last (occ_ranges o)) as [r|] eqn:El.
  2:{ apply last_None in El. rewrite El. intros u Hu. by apply in_ranges_nil in Hu. }
  pose proof El as [l' El']%last_Some. assert (range_wf r) as Wr.
  { rewrite El' in W. by apply ranges_wf_snoc in W as (_ & ? & _). }
  assert (∀ u, in_range u r → u ∈ᵣ occ_ranges o) as Hr.
  { intros u Hu. rewrite El'. apply in_ranges_app. right. by apply in_ranges_singleton. }
  unfold range_wf, in_range in Wr, Hr. destruct (vr_end r) as [e|] eqn:Ee.
  - case_N_bool; [exists (N.max v (vr_begin r)); split; [lia|apply Hr; lia]|].
    intros u Hu. destruct (head (occ_ranges o)) as [f|] eqn:Ef.
    + destruct (ranges_wf_bounds _ _ _ _ W Ef El Hu) as [_ Hlt]. rewrite Ee in Hlt. lia.
    + apply head_None in Ef. rewrite Ef in Hu. by apply in_ranges_nil in Hu.
  - exists (N.max v (vr_begin r)). split; [lia|apply Hr; lia].
Qed.

(** An entry that is never valid from a version on is not live. *)
Lemma all_before_not_unbounded w v o :
  node_wf w (Occupied o) → all_before v (occ_ranges o) → ¬ unbounded (occ_ranges o).
Proof. intros (W & _) Hb Hu. by eapply unbounded_not_before. Qed.

Lemma on_computed_spec w v k x n valid reusable deps paths :
  node_wf w n → update_pre reusable deps (Some n) → ranges_wf valid → node_key n = k →
  returns (VersionedGraphNode_on_computed n (mkGraphKey v k) x valid reusable deps paths)
    (λ '(n', (cv, b)), ∃ o' l, n' = Occupied o' ∧ occ_key o' = k ∧
       computed_ranges (prior_history (Some n)) v valid l ∧
       stored_after v k x reusable deps l (Some n) cv b o').
Proof.
  intros W Hpre Wv Hk. destruct n as [o|i|e]; cbn [VersionedGraphNode_on_computed]; [|done|].
  - destruct (reused_spec w reusable x deps o W) as (b & -> & Hb). cbn [mbind outcome_bind gk_v].
    destruct b.
    + eapply returns_bind; [by apply (mark_unchanged_spec w)|].
      intros o' (l & Hl & Wo' & Ho' & Hk' & Hres & Hdeps & Hrd & Hh).
      assert (∃ y, pv_value (occ_res o) = Some y) as [y Hy].
      { pose proof (proj1 Hb eq_refl) as Hr. unfold reused in Hr. cbn in Hpre. destruct reusable.
        - destruct Hr as (_ & y & ? & _). eauto.
        - destruct (Hpre Hr) as [_ Hne]. destruct (pv_value (occ_res o)); [eauto|done]. }
      unfold OccupiedGraphNode_computed_val, PagableNodeValue_expect_hydrated. rewrite Hres, Hy. cbn.
      exists o', l. split_and!; [done|by rewrite Hk'|done|]. left. exists o.
      split_and!; try done; [by apply Hb|by eauto].
    + assert (¬ reused reusable x deps o) as Hnr by (intros H; by apply Hb in H).
      pose proof (ever_valid_after_spec w v o W) as Hev. destruct W as (Wr & S & Wh & Hd & Hp).
      eapply returns_mono; [by apply on_computed_new_spec|].
      intros [n' [cv b']] (l & p' & Hl & Hcv & Hval & -> & ->).
      destruct (NodeMetadata_ever_valid_after (occ_metadata o) v) eqn:Ev; cbn [negb].
      * exists o, l. split_and!; try done. right. split_and!; try done. right.
        by split_and!.
      * eexists _, l. split_and!; try done. right. split_and!; try done. left. split; [by eexists|].
        intros ? [= <-]. by split.
  - destruct W as [Wh Hd]. eapply returns_mono; [by apply on_computed_new_spec|].
    intros [n' [cv b']] (l & p' & Hl & Hcv & Hval & -> & ->).
    eexists _, l. split_and!; try done. right. split_and!; try done. left. split; [by eexists|done].
Qed.

Lemma injected_valid_shape (m : list (VersionNumber * InjectedNodeData V)) v k d :
  values_wf m → current_at m v = Some (k, d) →
  (k, d) ∈ m ∧ (inj_valid_versions d = [mkRange k None] ∨
    ∃ k' d', (k', d') ∈ m ∧ inj_valid_versions d = [mkRange k (Some k')]).
Proof.
  induction m as [|[k0 d0] m IH]; [done|]. intros (_ & Hm & W). rewrite current_at_cons.
  destruct (current_at m v) as [r|].
  - intros [= ->]. destruct (IH W eq_refl) as [Hin H]. split; [set_solver|].
    destruct H as [?|(k' & d' & ? & ?)]; [by left|]. right. exists k', d'. split; [set_solver|done].
  - case_decide; [|done]. intros [= -> ->]. split; [set_solver|].
    destruct m as [|[k1 d1] m]; [by left|]. destruct Hm as [_ Hm]. right. exists k1, d1. set_solver.
Qed.

Lemma dep_valid_settled w v n u :
  node_wf w n → w < u → dep_valid v n u ↔ dep_valid v n (w + 1).
Proof.
  destruct n as [o|i|e]; cbn; [| |done].
  - intros (_ & S & _) Hu. by rewrite (S u Hu).
  - intros [[W _] Hle] Hu.
    assert (∀ k d, current_at (inj_values i) v = Some (k, d) →
              u ∈ᵣ inj_valid_versions d ↔ w + 1 ∈ᵣ inj_valid_versions d) as H.
    { intros k d E. destruct (injected_valid_shape _ _ _ _ W E) as [Hin [-> | (k' & d' & Hin' & ->)]];
        rewrite !in_ranges_singleton; unfold in_range; cbn.
      - apply Hle in Hin. intuition lia.
      - apply Hle in Hin, Hin'. lia. }
    split; intros (k & d & E & Hv); exists k, d; (split; [done|]); by eapply H.
Qed.

Lemma same_epoch_settled h w u v :
  (∀ d, d ∈ dirties h → d ≤ w) → w < u → same_epoch h u v ↔ same_epoch h (w + 1) v.
Proof.
  intros Hle Hu. unfold same_epoch.
  split; intros H d Hd; rewrite <- (H d Hd); specialize (Hle d Hd); lia.
Qed.

(** The dependencies agree at [v] and [u]. *)
Definition deps_agree (g : VersionedGraph V) (v : VersionNumber) (ds : list DiceKey)
  (u : VersionNumber) : Prop := ∀ d n, d ∈ ds → g !! d = Some n → dep_valid v n u.

Lemma computed_ranges_settled w g v ds h l valid :
  (∀ x n, g !! x = Some n → node_wf w n) → (∀ d, d ∈ dirties h → d ≤ w) → v ≤ w →
  (∀ u, u ∈ᵣ valid ↔ deps_agree g v ds u) → computed_ranges h v valid l → settled w l.
Proof.
  intros Hwf Hle Hv Hval [_ Hl] u Hu. rewrite !Hl, !Hval, (same_epoch_settled h w u v) by done.
  assert (deps_agree g v ds u ↔ deps_agree g v ds (w + 1)) as ->.
  { unfold deps_agree. split; intros H d n Hd Hn; specialize (H d n Hd Hn);
      by apply (dep_valid_settled w v n u) in H; eauto. }
  assert (u ≠ v ∧ w + 1 ≠ v) by lia. intuition.
Qed.

(** The specification of [VersionedGraph::update]. *)
Definition update_post (w : VersionNumber) (g : VersionedGraph V) (v : VersionNumber) (k : DiceKey)
  (x : V) (reusable : ValueReusable) (deps : SeriesParallelDeps)
  (res : VersionedGraph V * (DiceComputedValue V * bool)) : Prop :=
  let '(g', (cv, b)) := res in
  graph_inv w g' ∧
  ∃ g1 valid l o',
    grown v k (SeriesParallelDeps_iter_keys deps) g g1 ∧
    (∀ u, u ∈ᵣ valid ↔ deps_agree g v (SeriesParallelDeps_iter_keys deps) u) ∧
    computed_ranges (prior_history (g1 !! k)) v valid l ∧
    stored_after v k x reusable deps l (g1 !! k) cv b o' ∧
    g' = <[k := Occupied o']> g1.

Lemma grown_some v k ds g g1 x n1 :
  grown v k ds g g1 → g1 !! x = Some n1 →
  ∃ n, g !! x = Some n ∧ strip n1 = strip n ∧
    (∀ j, j ∈ node_rdeps n1 → j ∈ node_rdeps n ∨ (j = k ∧ x ∈ ds)) ∧
    (∀ j, j ∈ node_rdeps n → j ∈ node_rdeps n1) ∧ (x ∈ ds → covers v n → k ∈ node_rdeps n1).
Proof. intros H Hx. specialize (H x). rewrite Hx in H. destruct (g !! x) as [n|]; [|done]. by exists n. Qed.

Lemma grown_some' v k ds g g1 x n :
  grown v k ds g g1 → g !! x = Some n →
  ∃ n1, g1 !! x = Some n1 ∧ strip n1 = strip n ∧
    (∀ j, j ∈ node_rdeps n → j ∈ node_rdeps n1) ∧ (x ∈ ds → covers v n → k ∈ node_rdeps n1).
Proof.
  intros H Hx. specialize (H x). rewrite Hx in H. destruct (g1 !! x) as [n1|]; [|done]. exists n1. naive_solver.
Qed.

Section update_inv.
Context (w v : VersionNumber) (k : DiceKey) (x : V) (reusable : ValueReusable)
  (deps : SeriesParallelDeps) (g g1 : VersionedGraph V) (valid l : VersionRanges)
  (cv : DiceComputedValue V) (b : bool) (o' : OccupiedGraphNode V).
Let ds := SeriesParallelDeps_iter_keys deps.
Hypothesis Hinv : graph_inv w g.
Hypothesis Hv : v ≤ w.
Hypothesis Hk : k ∉ ds.
Hypothesis Hds : ∀ d, d ∈ ds → ∃ n, g !! d = Some n ∧ dep_usable v n ∧ fresh_at v n.
Hypothesis Hpre : update_pre reusable deps (g1 !! k).
Hypothesis Hgrown : grown v k ds g g1.
Hypothesis Hvalid : ∀ u, u ∈ᵣ valid ↔ deps_agree g v ds u.
Hypothesis Hl : computed_ranges (prior_history (g1 !! k)) v valid l.
Hypothesis Hkey : occ_key o' = k.
Hypothesis Hst : stored_after v k x reusable deps l (g1 !! k) cv b o'.

Lemma update_wf1 y n : g1 !! y = Some n → node_wf w n ∧ node_key n = y.
Proof.
  intros (n0 & Hn0 & Hs & _)%(grown_some _ _ _ _ _ _ _ Hgrown).
  destruct (strip_fields _ _ Hs) as (-> & Hw & _). destruct (gi_wf _ _ _ Hinv _ _ Hn0) as [Hn ?].
  split; [by apply Hw|done].
Qed.

Lemma update_prior_le d :
  history_wf (prior_history (g1 !! k)) ∧ (d ∈ dirties (prior_history (g1 !! k)) → d ≤ w).
Proof.
  destruct (g1 !! k) as [[o|i|e]|] eqn:E; try (split; [apply history_new_wf|cbn; set_solver]).
  all: apply update_wf1 in E as [W _]; cbn in *; naive_solver.
Qed.

Lemma update_l_settled : settled w l.
Proof.
  eapply (computed_ranges_settled w g v ds); [|intros d; apply update_prior_le|done|exact Hvalid|exact Hl].
  intros y n Hy. by apply (gi_wf _ _ _ Hinv) in Hy as [? _].
Qed.

(** If the computed ranges are unbounded then every dependency is live and knows [k]. *)
Lemma update_l_live d :
  w + 1 ∈ᵣ l → d ∈ ds → ∃ n, g1 !! d = Some n ∧ node_live n ∧ k ∈ node_rdeps n.
Proof.
  intros Hw Hd. apply Hl in Hw as [[Hw _]|]; [|lia]. apply Hvalid in Hw.
  destruct (Hds d Hd) as (n & Hn & _ & Hf). pose proof (Hw d n Hd Hn) as Hdv.
  destruct (gi_wf _ _ _ Hinv _ _ Hn) as [Wn _].
  assert (node_live n ∧ covers v n) as [Hlive Hcov].
  { destruct n as [o|i|e]; cbn in Hdv; [|done|done]. destruct Hdv as [Hv1 Hw1].
    destruct Wn as (Wr & S & _). assert (unbounded (occ_ranges o)) by (by apply (unbounded_settled w)).
    split; [done|by apply Hf]. }
  destruct (grown_some' _ _ _ _ _ _ _ Hgrown Hn) as (n1 & Hn1 & Hs & _ & Hr).
  exists n1. split_and!; [done|by apply (strip_fields _ _ Hs)|by apply Hr].
Qed.

Lemma update_o'_wf : node_wf w (Occupied o').
Proof.
  pose proof update_l_settled as Sl. pose proof Hl as [Wl Hl']. pose proof update_prior_le as Hh.
  destruct Hst as [(o & Ho & _ & Hres & _ & _ & Hhist & Wr & Hr & _)|(_ & _ & _ & [[[p' Hp] _]|[Ho _]])].
  - destruct (update_wf1 _ _ Ho) as [(Wo & So & Wh & Hd & Hpv) _]. cbn. rewrite Hhist, Hres.
    split_and!; try done. intros u Hu. by rewrite !Hr, (So u Hu), (Sl u Hu).
  - rewrite Hp. cbn. split_and!; [done|done|by apply (Hh 0)|intros d; apply Hh|by left].
  - by apply update_wf1 in Ho as [? _].
Qed.

(** A live entry of [k] stays live and keeps its reverse dependencies. *)
Lemma update_keeps_live n :
  g1 !! k = Some n → node_live n →
  node_live (Occupied o') ∧ ∀ j, j ∈ node_rdeps n → j ∈ node_rdeps (Occupied o').
Proof.
  intros Hn Hlive. pose proof update_o'_wf as (Wo' & So' & _).
  destruct Hst as [(o & Ho & _ & _ & _ & Hrd & _ & Wr & Hr & _)|(_ & _ & _ & [[_ Hno]|[Ho _]])];
    rewrite Hn in *.
  - injection Ho as ->. destruct (update_wf1 _ _ Hn) as [(Wo & So & _) _]. cbn in *.
    apply (unbounded_settled w) in Hlive; [|done..].
    split; [apply (unbounded_settled w); [done..|]; apply Hr; by left|]. intros j. by rewrite Hrd.
  - destruct n as [o|i|e]; cbn in Hlive, Hpre; [|done|done].
    destruct (Hno o eq_refl) as [_ Hb]. destruct (update_wf1 _ _ Hn) as [Wo _].
    by destruct (all_before_not_unbounded w v o Wo Hb).
  - injection Ho as ->. done.
Qed.

Lemma update_occupied j o :
  g !! j = Some (Occupied o) → ∃ o2, <[k := Occupied o']> g1 !! j = Some (Occupied o2).
Proof.
  intros Hj. destruct (decide (j = k)) as [->|Hne]; [exists o'; by rewrite lookup_insert_eq|].
  rewrite lookup_insert_ne by done.
  destruct (grown_some' _ _ _ _ _ _ _ Hgrown Hj) as (n1 & Hn1 & Hs & _).
  destruct (strip_occupied _ _ (eq_sym Hs)) as (o2 & -> & _). by exists o2.
Qed.

(** A live dependency edge of [g] is one of the updated graph. *)
Lemma update_edge d n j :
  g !! d = Some n → node_live n → j ∈ node_rdeps n →
  ∃ n', <[k := Occupied o']> g1 !! d = Some n' ∧ node_live n' ∧ j ∈ node_rdeps n'.
Proof.
  intros Hd Hlive Hj. destruct (grown_some' _ _ _ _ _ _ _ Hgrown Hd) as (n1 & Hn1 & Hs & Hr & _).
  assert (node_live n1) as Hlive1 by (by apply (strip_fields _ _ Hs)).
  destruct (decide (d = k)) as [->|Hne].
  - exists (Occupied o'). rewrite lookup_insert_eq.
    destruct (update_keeps_live n1 Hn1 Hlive1) as [? Hr']. auto.
  - exists n1. rewrite lookup_insert_ne by done. auto.
Qed.

Lemma update_rdeps_origin d n j :
  <[k := Occupied o']> g1 !! d = Some n → j ∈ node_rdeps n →
  j = k ∨ ∃ n0, g !! d = Some n0 ∧ j ∈ node_rdeps n0.
Proof.
  intros Hd Hj.
  assert (∃ n1, g1 !! d = Some n1 ∧ j ∈ node_rdeps n1) as (n1 & Hn1 & Hj1).
  { apply lookup_insert_Some in Hd as [[<- <-]|[_ Hd]]; [|by eauto].
    destruct Hst as [(o & Ho & _ & _ & _ & Hrd & _)|(_ & _ & _ & [[[p' Hp] _]|[Ho _]])].
    - exists (Occupied o). split; [done|]. cbn in *. by rewrite <- Hrd.
    - rewrite Hp in Hj. cbn in Hj. set_solver.
    - by exists (Occupied o'). }
  destruct (grown_some _ _ _ _ _ _ _ Hgrown Hn1) as (n0 & Hn0 & _ & Hor & _).
  destruct (Hor j Hj1) as [Hj0|[Hj0 _]]; [right; eauto|by left].
Qed.

(** The entry of [k] has the dependencies it had, or those just computed. *)
Lemma update_own_edges d :
  unbounded (occ_ranges o') → d ∈ occ_deps o' →
  ∃ n, <[k := Occupied o']> g1 !! d = Some n ∧ node_live n ∧ k ∈ node_rdeps n.
Proof.
  intros Hu Hd. pose proof update_o'_wf as (Wo' & So' & _).
  apply (unbounded_settled w) in Hu; [|done..].
  assert (∀ o, g1 !! k = Some (Occupied o) → w + 1 ∈ᵣ occ_ranges o → d ∈ occ_deps o →
    ∃ n, <[k := Occupied o']> g1 !! d = Some n ∧ node_live n ∧ k ∈ node_rdeps n) as Hold.
  { intros o Ho Hw Hdo. destruct (update_wf1 _ _ Ho) as [(Wo & So & _) _].
    destruct (grown_some _ _ _ _ _ _ _ Hgrown Ho) as (n0 & Hn0 & Hs & _).
    destruct (strip_occupied _ _ Hs) as (o0 & -> & Er & Ed & _).
    destruct (gi_deps _ _ _ Hinv k o0 Hn0) with (d := d) as (n & Hn & Hlive & Hin).
    - rewrite Er. by apply (unbounded_settled w).
    - set_solver.
    - by rewrite Ed.
    - by eapply update_edge. }
  assert (w + 1 ∈ᵣ l → d ∈ ds →
    ∃ n, <[k := Occupied o']> g1 !! d = Some n ∧ node_live n ∧ k ∈ node_rdeps n) as Hnew.
  { intros Hw Hin. destruct (update_l_live d Hw Hin) as (n & ? & ?). exists n.
    rewrite lookup_insert_ne by (intros ->; done). done. }
  destruct Hst as [(o & Ho & Hre & _ & Edeps & _ & _ & _ & Hr & _)|(_ & _ & _ & [[[p' Hp] _]|[Ho _]])].
  - assert (d ∈ occ_deps o) as Hdo by (unfold occ_deps in *; by rewrite <- Edeps).
    apply Hr in Hu as [Hu|Hu]; [by eapply Hold|]. apply Hnew; [done|].
    assert (md_deps (occ_metadata o) = deps) as Ed.
    { rewrite Ho in Hpre. cbn in Hpre. unfold reused in Hre.
      destruct reusable; [by destruct Hre|by destruct (Hpre Hre)]. }
    unfold occ_deps in Hdo. by rewrite Ed in Hdo.
  - rewrite Hp in Hu, Hd. apply Hnew; [exact Hu|exact Hd].
  - by eapply Hold.
Qed.

Lemma update_graph_inv : graph_inv w (<[k := Occupied o']> g1).
Proof.
  split.
  - intros y n [[Ek En]|[_ Hn]]%lookup_insert_Some; [|by apply update_wf1].
    rewrite <- En, <- Ek. split; [apply update_o'_wf|done].
  - intros d n j Hd Hj. destruct (update_rdeps_origin d n j Hd Hj) as [->|(n0 & Hn0 & Hj0)].
    + exists o'. by rewrite lookup_insert_eq.
    + destruct (gi_rdeps _ _ _ Hinv _ _ _ Hn0 Hj0) as [o Ho]. by eapply update_occupied.
  - intros j o Hj Hu _ d Hd. apply lookup_insert_Some in Hj as [[Ek Eo]|[Hne Hj]].
    { injection Eo as Eo. rewrite <- Eo in Hu, Hd. rewrite <- Ek. by apply update_own_edges. }
    destruct (grown_some _ _ _ _ _ _ _ Hgrown Hj) as (n0 & Hn0 & Hs & _).
    destruct (strip_occupied _ _ Hs) as (o0 & -> & Er & Ed & _).
    destruct (gi_deps _ _ _ Hinv j o0 Hn0) with (d := d) as (n & Hn & Hlive & Hin);
      [by rewrite Er|set_solver|by rewrite Ed|by eapply update_edge].
Qed.
End update_inv.

Lemma update_pre_strip reusable deps n1 n :
  strip n1 = strip n → update_pre reusable deps (Some n) → update_pre reusable deps (Some n1).
Proof.
  destruct n1 as [[k r [d rd rg h] p]|[k vs rd p]|e], n as [[k' r' [d' rd' rg' h'] p']|[k' vs' rd' p']|e'];
    cbn; intros [=]; subst; done.
Qed.

Lemma update_spec w g v k x reusable deps paths :
  graph_inv w g → v ≤ w → k ∉ SeriesParallelDeps_iter_keys deps →
  (∀ d, d ∈ SeriesParallelDeps_iter_keys deps →
     ∃ n, g !! d = Some n ∧ dep_usable v n ∧ fresh_at v n) →
  update_pre reusable deps (g !! k) →
  returns (VersionedGraph_update g (mkGraphKey v k) x reusable deps Normal paths)
    (update_post w g v k x reusable deps).
Proof.
  intros Hinv Hv Hk Hds Hpre. unfold VersionedGraph_update. cbn [gk_v gk_k].
  eapply returns_bind.
  { apply (update_deps_spec w); [|naive_solver|apply begins_with_wf].
    intros y n Hy. by apply (gi_wf _ _ _ Hinv) in Hy as [? _]. }
  intros [g1 valid] (Hg & Wval & Hval).
  assert (∀ u, u ∈ᵣ valid ↔ deps_agree g v (SeriesParallelDeps_iter_keys deps) u) as Hval'.
  { intros u. rewrite Hval, in_begins_with. unfold VersionNumber_ZERO, deps_agree.
    split; [by intros [_ ?]|]. intros ?. split; [lia|done]. }
  destruct (g1 !! k) as [n1|] eqn:E1.
  - destruct (grown_some _ _ _ _ _ _ _ Hg E1) as (n & Hn & Hs & _).
    destruct (gi_wf _ _ _ Hinv _ _ Hn) as [Wn Kn].
    destruct (strip_fields _ _ Hs) as (Hk1 & Hw1 & _). rewrite Hn in Hpre.
    eapply returns_bind.
    { eapply (on_computed_spec w); [by apply Hw1|by eapply update_pre_strip|done|congruence]. }
    intros [n' [cv b]] (o' & l & -> & Hko & Hl & Hst). cbn.
    split; [|by exists g1, valid, l, o'; rewrite E1].
    eapply (update_graph_inv w v k x reusable deps g g1 valid l cv b o'); try done; rewrite E1; try done.
    by eapply update_pre_strip.
  - unfold VersionedGraph_update_empty, VersionRange_bounded, VersionNumber_new.
    rewrite VersionRange_new_wf by (cbn; lia). cbn [mbind outcome_bind].
    pose proof (union_range_spec valid (mkRange v (Some (v + 1))) Wval ltac:(cbn; lia))
      as (l & El & Wl & Hl)%returns_Ok.
    unfold VersionRanges_insert. rewrite El. cbn.
    assert (computed_ranges ForceDirtyHistory_new v valid l) as Hcr.
    { split; [done|]. intros u. rewrite Hl, in_single.
      assert (same_epoch ForceDirtyHistory_new u v) by (intros d; rewrite dirties_new; set_solver). tauto. }
    match goal with |- context [<[k := Occupied ?o]> g1] => set (o' := o) end.
    match goal with |- context [stored_after _ _ _ _ _ _ _ ?c _ _] => set (cv := c) end.
    assert (stored_after v k x reusable deps l (g1 !! k) cv true o') as Hst.
    { right. split_and!; [done..|]. left. rewrite E1. split; [by eexists|done]. }
    split; [|exists g1, valid, l, o'; by rewrite E1 in *].
    eapply (update_graph_inv w v k x reusable deps g g1 valid l cv true o'); try done; by rewrite E1.
Qed.

(** What recording the computed value [x] leaves at its key, given the entry [old] that was there
    and the versions [l] the value is valid for; as [stored_after], but reading the entry of the
    graph before the key was registered with its dependencies. *)
Definition update_stored (v : VersionNumber) (k : DiceKey) (x : V) (deps : SeriesParallelDeps)
  (l : VersionRanges) (old : option (VersionedGraphNode V)) (cv : DiceComputedValue V) (b : bool)
  (o' : OccupiedGraphNode V) : Prop :=
  (∃ o y, old = Some (Occupied o) ∧ md_deps (occ_metadata o) = deps ∧
     pv_value (occ_res o) = Some y ∧ value_equality x y = true ∧
     occ_res o' = occ_res o ∧ md_deps (occ_metadata o') = deps ∧ occ_history o' = occ_history o ∧
     (∀ u, u ∈ᵣ occ_ranges o' ↔ u ∈ᵣ occ_ranges o ∨ u ∈ᵣ l) ∧
     cv_value cv = MaybePresent y ∧ cv_valid cv = occ_ranges o' ∧ b = false) ∨
  ((∀ o, old = Some (Occupied o) → ¬ reused EqualityBased x deps o) ∧
   cv_value cv = MaybePresent x ∧ cv_valid cv = l ∧ b = true ∧
   ((∃ o, old = Some (Occupied o) ∧ (∃ u, v ≤ u ∧ u ∈ᵣ occ_ranges o) ∧
          strip (Occupied o') = strip (Occupied o)) ∨
    (∀ o, old = Some (Occupied o) → all_before v (occ_ranges o)) ∧
    new_entry k x deps l (prior_history old) o')).

Lemma grown_history v k ds g g1 j :
  grown v k ds g g1 → prior_history (g1 !! j) = prior_history (g !! j).
Proof.
  intros H. specialize (H j).
  destruct (g !! j) as [[[k' r [d rd rg h] p]|i|e]|], (g1 !! j) as [[[k1 r1 [d1 rd1 rg1 h1] p1]|i1|e1]|];
    try done; destruct H as [[=] _]; cbn; congruence.
Qed.

(** The occupied entries before and after registering reverse dependencies. *)
Lemma grown_occupied v k ds g g1 j o1 :
  grown v k ds g g1 → g1 !! j = Some (Occupied o1) →
  ∃ o, g !! j = Some (Occupied o) ∧ strip (Occupied o1) = strip (Occupied o).
Proof.
  intros H (n & Hn & Hs & _)%(grown_some _ _ _ _ _ _ _ H).
  destruct (strip_occupied _ _ Hs) as (o & -> & _). by exists o.
Qed.

Lemma grown_occupied' v k ds g g1 j o :
  grown v k ds g g1 → g !! j = Some (Occupied o) →
  ∃ o1, g1 !! j = Some (Occupied o1) ∧ strip (Occupied o1) = strip (Occupied o).
Proof.
  intros H (n & Hn & Hs & _)%(grown_some' _ _ _ _ _ _ _ H).
  destruct (strip_occupied _ _ (eq_sym Hs)) as (o1 & -> & _). by exists o1.
Qed.

Lemma reused_strip reusable x deps o1 o :
  strip (Occupied o1) = strip (Occupied o) → reused reusable x deps o1 ↔ reused reusable x deps o.
Proof.
  intros (o0 & [= <-] & Er & _ & Ed & _ & Ev & _)%strip_occupied. unfold reused. by rewrite Er, Ed, Ev.
Qed.

Lemma stored_at_version v k x reusable deps l old cv b o' :
  stored_after v k x reusable deps l old cv b o' → v ∈ᵣ l → v ∈ᵣ cv_valid cv.
Proof.
  intros [(o & _ & _ & _ & _ & _ & _ & _ & Hr & -> & _)|(_ & -> & _)] Hl; [|done].
  apply Hr. by right.
Qed.

Lemma update_stored_grown v k x deps l ds g g1 cv b o' :
  grown v k ds g g1 → stored_after v k x EqualityBased deps l (g1 !! k) cv b o' →
  update_stored v k x deps l (g !! k) cv b o'.
Proof.
  intros Hg H. pose proof (grown_history _ _ _ _ _ k Hg) as Hh.
  destruct H as [(o1 & Ho1 & Hre & Eres & Ed & _ & Eh & _ & Hr & Ev & -> & y & Hy & Ec)|(Ec & Ev & -> & Hc)].
  - left. destruct (grown_occupied _ _ _ _ _ _ _ Hg Ho1) as (o & Ho & Hs).
    destruct Hre as (Hd & y' & Hy' & Heq). rewrite Hy in Hy'. injection Hy' as <-.
    destruct (strip_occupied _ _ Hs) as (o0 & [= <-] & Sr & _ & Sd & Sh & Sv & _).
    exists o, y. rewrite Sr, Sv, Sh in *. split_and!; try done; congruence.
  - right. split_and!; try done.
    + intros o (o1 & Ho1 & Hs)%(grown_occupied' _ _ _ _ _ _ _ Hg).
      rewrite <- (reused_strip _ _ _ _ _ Hs). destruct Hc as [[_ Hno]|(Ho & Hno & _)]; [by apply Hno|].
      rewrite Ho1 in Ho. by injection Ho as <-.
    + rewrite <- Hh. destruct Hc as [[Hnew Hno]|(Ho & _ & u & Hu & Hin)].
      * right. split; [|done]. intros o (o1 & Ho1 & Hs)%(grown_occupied' _ _ _ _ _ _ _ Hg).
        destruct (strip_occupied _ _ Hs) as (o0 & [= <-] & -> & _). by apply Hno.
      * left. destruct (grown_occupied _ _ _ _ _ _ _ Hg Ho) as (o & Ho0 & Hs).
        exists o. split_and!; [done| |done]. destruct (strip_occupied _ _ Hs) as (o0 & [= <-] & -> & _).
        by exists u.
Qed.

(** * Properties *)

(** C2. An invalidation of a key at the latest version that finds an entry it may be
    applied to ([invalidate_pre]) never panics and terminates, keeps the graph invariant, leaves
    every value, dependency list and force-dirty history of the other nodes as they were and
    their verified versions before the invalidation untouched.  When it reports a change, no
    node that transitively depends on the key through still-valid nodes can be matched at the
    invalidation's version or any later one; when it reports none, an update or force-dirtying
    leaves the graph as it was. *)
Theorem invalidation_complete (w : VersionNumber) (g : VersionedGraph V) (k : DiceKey)
  (kind : InvalidateKind) (p : InvalidationSourcePriority) :
  graph_inv w g → invalidate_pre w (g !! k) kind p →
  ∃ g' changed, VersionedGraph_invalidate g (mkGraphKey w k) kind p = Ok (g', changed) ∧
    graph_inv w g' ∧
    (∀ j o, j ≠ k → g !! j = Some (Occupied o) → ∃ o', g' !! j = Some (Occupied o') ∧
       occ_res o' = occ_res o ∧ occ_deps o' = occ_deps o ∧ occ_history o' = occ_history o ∧
       (∀ u, u < w → u ∈ᵣ occ_ranges o' ↔ u ∈ᵣ occ_ranges o)) ∧
    (changed = true → ∀ j u, depends_on g k j → j ≠ k → w ≤ u →
       ∃ r, VersionedGraph_get g' (mkGraphKey u j) = Ok r ∧ ¬ is_match r) ∧
    (changed = false → kind ≠ Invalidate → g' = g).
Proof.
  intros Hinv Hpre. pose proof (invalidate_spec w g k kind p Hinv Hpre)
    as ([g' changed] & E & Hpost)%returns_Ok.
  exists g', changed. pose proof Hpost as (Hg' & (n1 & _ & Hc) & _ & Hsame). split_and!; [done|done| | |done].
  - intros j o Hne Hj. destruct (graph_cut_occ _ _ _ j o Hc) as (o' & Ho' & Hcut);
      [by rewrite lookup_insert_ne|].
    exists o'. destruct Hcut as (_ & H2 & H3 & H4 & _ & H6). unfold occ_deps. rewrite H3.
    split_and!; try done. intros u Hu. destruct H6 as [->|H6]; [done|]. rewrite H6. tauto.
  - intros -> j u Hd Hne Hu.
    destruct (invalidate_dependents w g k kind g' Hinv Hpost j Hd Hne) as (o' & Ho' & Hb).
    destruct (gi_wf _ _ _ Hg' _ _ Ho') as [Wo' _].
    pose proof (occ_at_version_spec o' u w Wo') as (r & Er & Hr)%returns_Ok.
    exists r. unfold VersionedGraph_get. cbn. rewrite Ho'. cbn. split; [done|].
    intros Hm. destruct r; try done; destruct Hr as [Hin _]; apply Hb in Hin; lia.
Qed.

(** C29. A lookup never panics.  An occupied node matches exactly at its verified
    versions (as paged out when its value is not in memory); otherwise it asks to check the
    dependencies from the latest earlier verified version if no force-dirtying came between,
    and to compute if there is none.  An injected node serves the value current at the version;
    vacant and missing nodes are computed. *)
Theorem lookup_correct (w : VersionNumber) (g : VersionedGraph V) (v : VersionNumber)
  (k : DiceKey) :
  graph_inv w g →
  ∃ r, VersionedGraph_get g (mkGraphKey v k) = Ok r ∧
    match g !! k with
    | Some (Occupied o) => occupied_result o v r
    | Some (InjectedNode i) =>
        match current_at (inj_values i) v with
        | Some (_, d) => v ∈ᵣ inj_valid_versions d ∧ ∃ paths,
            r = Match (mkComputed V (MaybePresent (inj_value d)) (inj_valid_versions d) paths)
        | None => r = Compute
        end
    | Some (Vacant _) | None => r = Compute
    end.
Proof.
  intros Hinv. unfold VersionedGraph_get. cbn [gk_k gk_v].
  destruct (g !! k) as [[o|i|e]|] eqn:E; [| |by eexists..];
    destruct (gi_wf _ _ _ Hinv _ _ E) as [W _]; cbn [VersionedGraphNode_at_version].
  - by apply returns_Ok, (occ_at_version_spec o v w).
  - eexists. split; [done|]. unfold InjectedGraphNode_at_version. rewrite data_at_current.
    destruct (current_at (inj_values i) v) as [[k' d]|] eqn:Ec; [|done].
    destruct W as [[W _] _]. split; [by apply (data_at_spec _ _ _ _ W) in Ec as (_ & _ & ? & _)|by eexists].
Qed.

(** C28. Recording a computed value at version [v], with dependencies that
    are in the graph, never panics and keeps the graph invariant, as long as no dependency
    verified at [v] became valid forever only after [v] (at the latest version that always
    holds).  The computed value is valid exactly at [v] and at the versions where every
    dependency agrees with [v] and that no force-dirtying of the key separates from [v].  An
    entry with an equal value and the same dependencies is kept and becomes valid at these
    versions too; any other entry that is valid at [v] or later is left as it is, and everything
    else is replaced by a new entry valid at exactly these versions.  The other nodes stay as
    they are, except that dependencies may gain the key as a reverse dependency. *)
Theorem update_keeps_invariant (w : VersionNumber) (g : VersionedGraph V) (v : VersionNumber)
  (k : DiceKey) (x : V) (deps : SeriesParallelDeps) (paths : TrackedInvalidationPaths) :
  graph_inv w g → v ≤ w → k ∉ SeriesParallelDeps_iter_keys deps →
  (∀ d, d ∈ SeriesParallelDeps_iter_keys deps →
     ∃ n, g !! d = Some n ∧ dep_usable v n ∧ (v = w ∨ fresh_at v n)) →
  (∀ i, g !! k ≠ Some (InjectedNode i)) →
  ∃ g1 o' l cv b,
    VersionedGraph_update g (mkGraphKey v k) x EqualityBased deps Normal paths
      = Ok (<[k := Occupied o']> g1, (cv, b)) ∧
    graph_inv w (<[k := Occupied o']> g1) ∧ v ∈ᵣ cv_valid cv ∧
    grown v k (SeriesParallelDeps_iter_keys deps) g g1 ∧
    (∀ u, u ∈ᵣ l ↔ (deps_agree g v (SeriesParallelDeps_iter_keys deps) u ∧
                    same_epoch (prior_history (g !! k)) u v) ∨ u = v) ∧
    update_stored v k x deps l (g !! k) cv b o'.
Proof.
  intros Hinv Hv Hk Hds Hi.
  assert (returns (VersionedGraph_update g (mkGraphKey v k) x EqualityBased deps Normal paths)
            (update_post w g v k x EqualityBased deps)) as ([g' [cv b]] & E & Hg' & Hr)%returns_Ok.
  { apply update_spec; try done.
    - intros d Hd. destruct (Hds d Hd) as (n & Hn & Hu & Hf). exists n. split_and!; try done.
      destruct Hf as [->|Hf]; [|done]. apply fresh_at_current.
      by apply (gi_wf _ _ _ Hinv) in Hn as [? _].
    - destruct (g !! k) as [[o|i|e]|] eqn:E; try done. by destruct (Hi i). }
  destruct Hr as (g1 & valid & l & o' & Hgr & Hval & [_ Hl] & Hst & ->).
  rewrite (grown_history _ _ _ _ _ _ Hgr) in Hl.
  exists g1, o', l, cv, b. split_and!; try done.
  - apply (stored_at_version _ _ _ _ _ _ _ _ _ _ Hst). apply Hl. by right.
  - intros u. by rewrite Hl, Hval.
  - by eapply update_stored_grown.
Qed.

End Graph.
Global Arguments InvalidateKind : clear implicits.

(** * A concrete graph *)

Section Example.
Local Existing Instance N_value.

(** Key 2, computed from key 1; both valid since version 0. *)
Definition example_graph : VersionedGraph N :=
  <[1 := Occupied (OccupiedGraphNode_add_rdep_at
           (OccupiedGraphNode_new 1 10 SPNone [mkRange 0 None] ForceDirtyHistory_new
              TrackedInvalidationPaths_clean) 1 2)]>
  (<[2 := Occupied (OccupiedGraphNode_new 2 11 (SPOne 1) [mkRange 0 None] ForceDirtyHistory_new
              TrackedInvalidationPaths_clean)]> ∅).

Lemma example_range_facts w :
  ranges_wf [mkRange 0 None] ∧ settled w [mkRange 0 None] ∧ unbounded [mkRange 0 None].
Proof.
  split_and!; [by apply ranges_wf_singleton| |by exists (mkRange 0 None)].
  intros u _. rewrite !in_ranges_singleton. unfold in_range. cbn. intuition lia.
Qed.

Lemma example_graph_lookup k n :
  example_graph !! k = Some n →
  (k = 1 ∧ node_rdeps n = [2] ∨ k = 2 ∧ node_rdeps n = []) ∧
  ∃ o, n = Occupied o ∧ occ_key o = k ∧ occ_ranges o = [mkRange 0 None] ∧
    occ_history o = ForceDirtyHistory_new ∧ pv_value (occ_res o) ≠ None ∧
    occ_deps o = if decide (k = 2) then [1] else [].
Proof.
  unfold example_graph. intros [[<- <-]|[_ [[<- <-]|[_ H]]%lookup_insert_Some]]%lookup_insert_Some.
  - split; [by left|]. by eexists.
  - split; [by right|]. by eexists.
  - by rewrite lookup_empty in H.
Qed.

Lemma example_graph_inv w : graph_inv w example_graph.
Proof.
  destruct (example_range_facts w) as (W & S & U). split.
  - intros k n (_ & o & -> & Hk & Hr & Hh & Hv & _)%example_graph_lookup. split; [|done].
    cbn. rewrite Hr, Hh. split_and!; try done; [apply history_new_wf|set_solver|by left].
  - intros d n k [Hd _]%example_graph_lookup Hin.
    destruct Hd as [[-> E]|[-> E]]; rewrite E in Hin; [|set_solver].
    assert (k = 2) as -> by set_solver. by eexists.
  - intros k o (_ & o' & [= <-] & _ & _ & _ & _ & Hd)%example_graph_lookup _ _ d Hin.
    rewrite Hd in Hin. case_decide as Hk; [|set_solver]. assert (d = 1) as -> by set_solver.
    eexists. split; [done|]. split; [exact U|]. subst k. set_solver.
Qed.

Lemma invalidation_complete_witness :
  ∃ g', VersionedGraph_invalidate example_graph (mkGraphKey 2 1) ForceDirty PriorityNormal
          = Ok (g', true) ∧
    ∃ r, VersionedGraph_get g' (mkGraphKey 5 2) = Ok r ∧ ¬ is_match r.
Proof.
  destruct (invalidation_complete 2 example_graph 1 ForceDirty PriorityNormal)
    as (g' & changed & E & _ & _ & H & _).
  - apply example_graph_inv.
  - apply (bool_decide_unpack _). vm_compute. exact I.
  - assert (changed = true) as Hc.
    { vm_compute in E. injection E as _ E. by rewrite <- E. }
    exists g'. rewrite Hc in E. split; [exact E|]. apply (H Hc 2 5); [|lia|lia].
    eapply depends_direct; [vm_compute; reflexivity| |]; vm_compute.
    + eexists. split; reflexivity.
    + apply list_elem_of_here.
Defined.

Lemma lookup_correct_witness :
  ∃ r, VersionedGraph_get example_graph (mkGraphKey 3 2) = Ok r ∧
    match example_graph !! 2 with
    | Some (Occupied o) => occupied_result o 3 r
    | _ => False
    end.
Proof.
  destruct (lookup_correct 4 example_graph 3 2 (example_graph_inv 4)) as (r & E & H).
  exists r. split; [exact E|]. exact H.
Defined.

Lemma update_keeps_invariant_witness :
  ∃ g' cv b, VersionedGraph_update example_graph (mkGraphKey 3 7) 12 EqualityBased (SPOne 1) Normal
               TrackedInvalidationPaths_clean = Ok (g', (cv, b)) ∧ graph_inv 4 g' ∧
    3 ∈ᵣ cv_valid cv ∧ b = true.
Proof.
  destruct (update_keeps_invariant 4 example_graph 3 7 12 (SPOne 1) TrackedInvalidationPaths_clean)
    as (g1 & o' & l & cv & b & E & Hg & Hv & _ & _ & Hst).
  - apply example_graph_inv.
  - lia.
  - apply (bool_decide_unpack _). vm_compute. exact I.
  - intros d Hd. apply list_elem_of_singleton in Hd as ->. eexists. split; [vm_compute; reflexivity|].
    split; [exact I|]. right. intros _ _ u _. apply in_ranges_singleton. split; [|exact I]. apply N.le_0_l.
  - intros i H. vm_compute in H. discriminate.
  - exists (<[7 := Occupied o']> g1), cv, b. split; [exact E|]. split; [exact Hg|].
    split; [exact Hv|]. destruct Hst as [(o & y & Ho & _)|(_ & _ & _ & Hb & _)]; [|exact Hb].
    vm_compute in Ho. discriminate.
Defined.

End Example.
