(* ===== verification/SharedCache.v ===== *)
(** The per-version cache of computations, from [src/deps/dice/dice/src/impls/cache.rs].

    A key's task lives in [storage] until its result is promoted to the append-only table
    [completed]; a rewind hides the entry of [completed] behind the overlay [rewound].  Tasks
    are identified by numbers and their progress is a parameter of the operations, since it
    changes concurrently with the cache.  Each operation is one atomic step: [get] holds the
    entry lock of its key. *)
From S2P Require Import Prelude Versions Values.
Local Open Scope N_scope.
Local Open Scope dice_scope.

(** A task's identity: two references to one task are the same number. *)
Notation TaskId := N (only parsing).

Section SharedCache.
Context {V : Type}.

(** * Definitions *)

(** What [DiceTask::get_finished_value] reports: [None], [Some(Ok(value))], [Some(Err(_))]. *)
Inductive TaskStatus :=
| TaskPending
| TaskFinished (value : DiceComputedValue V)
| TaskCancelled.

Definition task_is_pending (s : TaskStatus) : bool :=
  match s with TaskPending => true | _ => false end.

Record CacheData := mkCache {
  cache_completed : gmap DiceKey (DiceComputedValue V);
  cache_storage : gmap DiceKey TaskId;
  cache_is_cancelled : bool;
  cache_rewound : gmap DiceKey (option (DiceComputedValue V));
  cache_has_rewound : bool;
}.

Inductive DiceTaskRef :=
| RefComputed (value : DiceComputedValue V)
| RefOccupied (task : TaskId)
| RefVacant
| RefTransactionCancelled.

Definition SharedCache_key_hash (key : DiceKey) : N := (key * 0x9e3779b97f4a7c15) mod 2 ^ 64.

Definition SharedCache_new : CacheData := mkCache ∅ ∅ false ∅ false.

Definition SharedCache_try_get_rewound (self : CacheData) (key : DiceKey)
  : option (option (DiceComputedValue V)) :=
  if cache_has_rewound self then cache_rewound self !! key else None.

Definition SharedCache_try_get_computed (self : CacheData) (key : DiceKey)
  : option (DiceComputedValue V) :=
  match SharedCache_try_get_rewound self key with
  | Some overlay => overlay
  | None => cache_completed self !! key
  end.

(** Promotion of a finished task; [assert!(original.is_none())] is the check of [completed]. *)
Definition cache_promote (self : CacheData) (key : DiceKey) (result : DiceComputedValue V)
  : outcome CacheData :=
  match (if cache_has_rewound self then cache_rewound self !! key else None) with
  | Some _ =>
      Ok (mkCache (cache_completed self) (delete key (cache_storage self))
            (cache_is_cancelled self) (<[key := Some result]> (cache_rewound self))
            (cache_has_rewound self))
  | None =>
      assert! (match cache_completed self !! key with None => true | Some _ => false end);;
      Ok (mkCache (<[key := result]> (cache_completed self)) (delete key (cache_storage self))
            (cache_is_cancelled self) (cache_rewound self) (cache_has_rewound self))
  end.

Definition SharedCache_get (status : TaskId → TaskStatus) (self : CacheData) (key : DiceKey)
  : outcome (DiceTaskRef * CacheData) :=
  match SharedCache_try_get_computed self key with
  | Some computed => Ok (RefComputed computed, self)
  | None =>
      match cache_storage self !! key with
      | Some e =>
          match status e with
          | TaskFinished result =>
              self ← cache_promote self key result; Ok (RefComputed result, self)
          | _ => Ok (if cache_is_cancelled self then RefTransactionCancelled else RefOccupied e, self)
          end
      | None => Ok (if cache_is_cancelled self then RefTransactionCancelled else RefVacant, self)
      end
  end.

(** What the caller of [get] does with a vacant or occupied entry. *)
Definition cache_insert_task (self : CacheData) (key : DiceKey) (task : TaskId) : CacheData :=
  mkCache (cache_completed self) (<[key := task]> (cache_storage self)) (cache_is_cancelled self)
    (cache_rewound self) (cache_has_rewound self).

Definition SharedCache_rewind (self : CacheData) (key : DiceKey) : CacheData :=
  mkCache (cache_completed self) (delete key (cache_storage self)) (cache_is_cancelled self)
    (<[key := None]> (cache_rewound self)) true.

Definition SharedCache_active_tasks_count (self : CacheData) : nat :=
  (size (cache_storage self) + size (cache_completed self))%nat.

(** The tasks left pending, all of which are sent a cancellation. *)
Definition SharedCache_cancel_pending_tasks (status : TaskId → TaskStatus) (self : CacheData)
  : CacheData * list TaskId :=
  (mkCache (cache_completed self) (cache_storage self) true (cache_rewound self)
     (cache_has_rewound self),
   filter (λ t, Is_true (task_is_pending (status t))) (snd <$> map_to_list (cache_storage self))).

(** * The map it implements *)

Inductive cached :=
| Absent
| Running (task : TaskId)
| Known (value : DiceComputedValue V).

(** What the cache holds for a key, given the progress of the tasks. *)
Definition view (status : TaskId → TaskStatus) (c : CacheData) (k : DiceKey) : cached :=
  let stored :=
    match cache_storage c !! k with
    | None => Absent
    | Some t => match status t with TaskFinished v => Known v | _ => Running t end
    end in
  match cache_rewound c !! k with
  | Some (Some v) => Known v
  | Some None => stored
  | None => match cache_completed c !! k with Some v => Known v | None => stored end
  end.

Record cache_wf (c : CacheData) : Prop := {
  cw_flag : cache_has_rewound c = false → cache_rewound c = ∅;
  cw_storage : ∀ k t, cache_storage c !! k = Some t → cache_rewound c !! k = None →
    cache_completed c !! k = None;
  cw_overlay : ∀ k v, cache_rewound c !! k = Some (Some v) → cache_storage c !! k = None;
}.

Lemma cache_new_wf : cache_wf SharedCache_new.
Proof. split; [done|..]; intros *; cbn; by rewrite lookup_empty. Qed.

Lemma try_get_rewound_spec c k :
  cache_wf c → SharedCache_try_get_rewound c k = cache_rewound c !! k.
Proof.
  intros W. unfold SharedCache_try_get_rewound. destruct (cache_has_rewound c) eqn:E; [done|].
  by rewrite (cw_flag c W E), lookup_empty.
Qed.

Definition view_ref (cancelled : bool) (x : cached) : DiceTaskRef :=
  match x with
  | Known v => RefComputed v
  | Running t => if cancelled then RefTransactionCancelled else RefOccupied t
  | Absent => if cancelled then RefTransactionCancelled else RefVacant
  end.

Lemma cache_promote_spec status c k t v :
  cache_wf c → SharedCache_try_get_computed c k = None → cache_storage c !! k = Some t →
  status t = TaskFinished v →
  returns (cache_promote c k v) (λ c', cache_wf c' ∧ cache_is_cancelled c' = cache_is_cancelled c ∧
    view status c k = Known v ∧ ∀ status' k', (k' = k → status' t = TaskFinished v) →
      view status' c' k' = view status' c k').
Proof.
  intros W Hc Hs Ht. unfold SharedCache_try_get_computed in Hc. rewrite try_get_rewound_spec in Hc by done.
  unfold cache_promote. change (if cache_has_rewound c then cache_rewound c !! k else None)
    with (SharedCache_try_get_rewound c k). rewrite try_get_rewound_spec by done.
  destruct (cache_rewound c !! k) as [[o|]|] eqn:Er; [done| |].
  - cbn. split_and!; [|done|unfold view; by rewrite Er, Hs, Ht|].
    + split; cbn.
      * intros Hf. apply (cw_flag c W) in Hf. rewrite Hf, lookup_empty in Er. done.
      * intros k' t' [Hne Hk']%lookup_delete_Some. rewrite lookup_insert_ne by done. by apply (cw_storage c W k' t').
      * intros k' v' [[<- _]|[Hne Hk']]%lookup_insert_Some; [by rewrite lookup_delete_eq|].
        rewrite lookup_delete_ne by done. by apply (cw_overlay c W k' v').
    + intros status' k' Hk'. unfold view. cbn. destruct (decide (k' = k)) as [->|Hne].
      * rewrite lookup_insert_eq, Er, Hs. by rewrite Hk'.
      * by rewrite lookup_insert_ne, lookup_delete_ne by done.
  - rewrite Hc. cbn. split_and!; [|done|unfold view; by rewrite Er, Hc, Hs, Ht|].
    + split; cbn.
      * apply (cw_flag c W).
      * intros k' t' [Hne Hk']%lookup_delete_Some. rewrite lookup_insert_ne by done. by apply (cw_storage c W k' t').
      * intros k' v' Hk'. destruct (decide (k' = k)) as [->|Hne]; [congruence|].
        rewrite lookup_delete_ne by done. by apply (cw_overlay c W k' v').
    + intros status' k' Hk'. unfold view. cbn. destruct (decide (k' = k)) as [->|Hne].
      * rewrite lookup_insert_eq, Er, Hc, Hs. by rewrite Hk'.
      * by rewrite lookup_insert_ne, lookup_delete_ne by done.
Qed.

Lemma cache_get_spec status c k :
  cache_wf c →
  returns (SharedCache_get status c k) (λ '(r, c'),
    cache_wf c' ∧ r = view_ref (cache_is_cancelled c) (view status c k) ∧
    cache_is_cancelled c' = cache_is_cancelled c ∧
    ∀ status' k', (∀ t v, status t = TaskFinished v → status' t = TaskFinished v) →
      view status' c' k' = view status' c k').
Proof.
  intros W. unfold SharedCache_get. destruct (SharedCache_try_get_computed c k) as [v|] eqn:Ec.
  { cbn. split_and!; try done. unfold SharedCache_try_get_computed in Ec.
    rewrite try_get_rewound_spec in Ec by done. unfold view.
    destruct (cache_rewound c !! k) as [[o|]|]; [by injection Ec as ->|done|by rewrite Ec]. }
  pose proof Ec as Ec'. unfold SharedCache_try_get_computed in Ec'.
  rewrite try_get_rewound_spec in Ec' by done.
  assert (view status c k = match cache_storage c !! k with
    | None => Absent | Some t => match status t with TaskFinished v => Known v | _ => Running t end end) as Ev.
  { unfold view. destruct (cache_rewound c !! k) as [[o|]|]; [done|done|by rewrite Ec']. }
  destruct (cache_storage c !! k) as [t|] eqn:Es; [|cbn; by rewrite Ev].
  destruct (status t) as [|v|] eqn:Et; [cbn; by rewrite Ev| |cbn; by rewrite Ev].
  pose proof (cache_promote_spec status c k t v W Ec Es Et) as H.
  eapply returns_bind; [exact H|]. intros c' (W' & Hcan & _ & Hv'). cbn. rewrite Ev.
  split_and!; try done. intros status' k' Hmono. apply Hv'. intros _. by apply Hmono.
Qed.

Lemma cache_rewind_spec c k :
  cache_wf c → cache_wf (SharedCache_rewind c k) ∧
  ∀ status k', view status (SharedCache_rewind c k) k' = if decide (k' = k) then Absent else view status c k'.
Proof.
  intros W. split.
  - split; cbn; [done| |].
    + intros k' t [Hne Hk']%lookup_delete_Some. rewrite lookup_insert_ne by done. by apply (cw_storage c W k' t).
    + intros k' v [[_ ?]|[Hne Hk']]%lookup_insert_Some; [done|].
      rewrite lookup_delete_ne by done. by apply (cw_overlay c W k' v).
  - intros status k'. unfold view. cbn. case_decide as Hk.
    + subst. by rewrite lookup_insert_eq, lookup_delete_eq.
    + by rewrite lookup_insert_ne, lookup_delete_ne by done.
Qed.

(** A task is inserted only for a key whose value is not known. *)
Lemma cache_insert_spec s c k t :
  cache_wf c → (∀ v, view s c k ≠ Known v) →
  cache_wf (cache_insert_task c k t) ∧
  ∀ status k', view status (cache_insert_task c k t) k' =
    if decide (k' = k) then match status t with TaskFinished v => Known v | _ => Running t end
    else view status c k'.
Proof.
  intros W Hk.
  assert (∀ v, cache_rewound c !! k ≠ Some (Some v)) as Hov.
  { intros v E. apply (Hk v). unfold view. by rewrite E. }
  assert (cache_rewound c !! k = None → cache_completed c !! k = None) as Hcomp.
  { intros E. destruct (cache_completed c !! k) as [v|] eqn:E'; [|done].
    exfalso. apply (Hk v). unfold view. by rewrite E, E'. }
  split.
  - split; cbn; [apply (cw_flag c W)| |].
    + intros k' t' [[<- <-]|[Hne Hk']]%lookup_insert_Some; [done|]. by apply (cw_storage c W k' t').
    + intros k' v Hk'. rewrite lookup_insert_ne; [by apply (cw_overlay c W k' v)|]. intros <-. by apply Hov in Hk'.
  - intros status k'. unfold view. cbn. case_decide as E; [subst|by rewrite lookup_insert_ne].
    rewrite lookup_insert_eq. destruct (cache_rewound c !! k) as [[v|]|] eqn:Er; [|done|].
    + by destruct (Hov v).
    + by rewrite Hcomp.
Qed.

(** * Properties *)

(** The operations that happen to a cache, each with the progress of the tasks at that moment. *)
Inductive cache_op :=
| CGet (k : DiceKey)
| CInsert (k : DiceKey) (t : TaskId)
| CRewind (k : DiceKey).

(** A task is inserted right after a [get] that found none that can be joined. *)
Definition run_cache_op (status : TaskId → TaskStatus) (c : CacheData) (op : cache_op)
  : outcome CacheData :=
  match op with
  | CGet k => '(_, c) ← SharedCache_get status c k; Ok c
  | CInsert k t =>
      '(r, c) ← SharedCache_get status c k;
      match r with RefVacant | RefOccupied _ => Ok (cache_insert_task c k t) | _ => Ok c end
  | CRewind k => Ok (SharedCache_rewind c k)
  end.

Fixpoint run_cache (c : CacheData) (ops : list ((TaskId → TaskStatus) * cache_op))
  : outcome CacheData :=
  match ops with
  | [] => Ok c
  | (status, op) :: ops => c ← run_cache_op status c op; run_cache c ops
  end.

(** Finished tasks keep their result. *)
Fixpoint progress_monotone (ops : list ((TaskId → TaskStatus) * cache_op)) : Prop :=
  match ops with
  | [] => True
  | (s, _) :: ops' =>
      match ops' with
      | (s', _) :: _ => (∀ t v, s t = TaskFinished v → s' t = TaskFinished v)
      | [] => True
      end ∧ progress_monotone ops'
  end.

(** The reference: a map from keys to their newest task, a known value staying known. *)
Definition ref_op (status : TaskId → TaskStatus) (cancelled : bool) (m : DiceKey → option TaskId)
  (op : cache_op) : DiceKey → option TaskId :=
  match op with
  | CGet _ => m
  | CInsert k t =>
      if cancelled then m
      else match m k with
           | Some t0 => match status t0 with
                        | TaskFinished _ => m
                        | _ => λ k', if decide (k' = k) then Some t else m k'
                        end
           | None => λ k', if decide (k' = k) then Some t else m k'
           end
  | CRewind k => λ k', if decide (k' = k) then None else m k'
  end.

Definition ref_view (status : TaskId → TaskStatus) (m : DiceKey → option TaskId) (k : DiceKey)
  : cached :=
  match m k with
  | None => Absent
  | Some t => match status t with TaskFinished v => Known v | _ => Running t end
  end.

(** The cache shows what the reference shows, now and at any later progress of the tasks. *)
Definition cache_shows (s : TaskId → TaskStatus) (c : CacheData) (m : DiceKey → option TaskId)
  : Prop :=
  ∀ s', (∀ t v, s t = TaskFinished v → s' t = TaskFinished v) → ∀ k, view s' c k = ref_view s' m k.

Lemma run_cache_op_shows s c m op :
  cache_wf c → cache_shows s c m →
  returns (run_cache_op s c op) (λ c', cache_wf c' ∧
    cache_is_cancelled c' = cache_is_cancelled c ∧
    cache_shows s c' (ref_op s (cache_is_cancelled c) m op)).
Proof.
  intros W Hs. destruct op as [k|k t|k]; cbn [run_cache_op ref_op].
  - eapply returns_bind; [by apply cache_get_spec|]. intros [r c'] (W' & _ & Hc & Hv). cbn.
    split_and!; try done. intros s' Hm k'. rewrite Hv by done. by apply Hs.
  - eapply returns_bind; [by apply cache_get_spec|]. intros [r c'] (W' & -> & Hc & Hv).
    assert (cache_shows s c' m) as Hs'. { intros s' Hm k'. rewrite Hv by done. by apply Hs. }
    rewrite Hs by done. unfold ref_view at 1.
    assert (∀ t0, m k = t0 → match t0 with Some t1 => ∀ v, s t1 ≠ TaskFinished v | None => True end →
      cache_wf (cache_insert_task c' k t) ∧
      cache_shows s (cache_insert_task c' k t) (λ k', if decide (k' = k) then Some t else m k')) as Hins.
    { intros t0 Et0 Hnf. destruct (cache_insert_spec s c' k t W') as [Wi Hi].
      - intros v. rewrite Hs' by done. unfold ref_view. rewrite Et0.
        destruct t0 as [t1|]; [|done]. specialize (Hnf v). destruct (s t1); congruence.
      - split; [done|]. intros s' Hm k'. rewrite Hi. unfold ref_view. case_decide; [done|]. by apply Hs'. }
    destruct (m k) as [t0|] eqn:Em.
    + destruct (s t0) as [|v|] eqn:Et; cbn [view_ref].
      * destruct (cache_is_cancelled c); cbn; [done|].
        destruct (Hins _ eq_refl); [by rewrite Et|]. done.
      * cbn. split_and!; try done. by destruct (cache_is_cancelled c).
      * destruct (cache_is_cancelled c); cbn; [done|].
        destruct (Hins _ eq_refl); [by rewrite Et|]. done.
    + cbn [view_ref]. destruct (cache_is_cancelled c); cbn; [done|]. by destruct (Hins _ eq_refl).
  - destruct (cache_rewind_spec c k W) as [Wr Hr]. cbn. split_and!; try done.
    intros s' Hm k'. rewrite Hr. unfold ref_view. case_decide; [done|]. by apply Hs.
Qed.

Fixpoint ref_run (cancelled : bool) (m : DiceKey → option TaskId)
  (ops : list ((TaskId → TaskStatus) * cache_op)) : DiceKey → option TaskId :=
  match ops with
  | [] => m
  | (s, op) :: ops => ref_run cancelled (ref_op s cancelled m op) ops
  end.

Lemma run_cache_shows s c m ops :
  cache_wf c → cache_shows s c m →
  match ops with (s', _) :: _ => ∀ t v, s t = TaskFinished v → s' t = TaskFinished v | [] => True end →
  progress_monotone ops →
  returns (run_cache c ops) (λ c', cache_wf c' ∧ cache_is_cancelled c' = cache_is_cancelled c ∧
    ∃ s', cache_shows s' c' (ref_run (cache_is_cancelled c) m ops) ∧
      (ops = [] → s' = s) ∧ (∀ so, last ops = Some so → s' = fst so)).
Proof.
  revert s c m. induction ops as [|[s1 op] ops IH]; intros s c m W Hs Hfirst Hmono.
  - cbn. split_and!; try done. by exists s.
  - cbn [run_cache ref_run]. destruct Hmono as [Hnext Hmono].
    assert (cache_shows s1 c m) as Hs1. { intros s' Hm k. apply Hs. intros t v Ht. by apply Hm, Hfirst. }
    eapply returns_bind; [by apply run_cache_op_shows|]. intros c' (W' & Hc & Hs').
    eapply returns_mono; [apply (IH s1 c' _ W' Hs' Hnext Hmono)|]. intros c'' (W'' & Hc' & s' & Hs'' & Hnil & Hlast).
    rewrite Hc in *. split_and!; try done. exists s'. split_and!; try done.
    intros so. rewrite last_cons. destruct (last ops) as [x|] eqn:El; [intros [= <-]; by apply Hlast|].
    intros [= <-]. apply Hnil. by apply last_None.
Qed.

(** C38. From an empty cache, any sequence of lookups, task insertions and
    rewinds, interleaved with tasks finishing or being cancelled, never fails the promotion
    assertion, and every lookup afterwards answers exactly what a plain map from keys to their
    newest task would: the task's value once it finished, the task to join while it runs, and
    nothing for a key that is new or was rewound and not requested again.  In particular a
    rewound key never shows a value computed before the rewind. *)
Theorem cache_refines_map (ops : list ((TaskId → TaskStatus) * cache_op))
  (s : TaskId → TaskStatus) (k : DiceKey) :
  progress_monotone (ops ++ [(s, CGet k)]) →
  ∃ c r c', run_cache SharedCache_new ops = Ok c ∧ SharedCache_get s c k = Ok (r, c') ∧
    r = view_ref false (ref_view s (ref_run false (λ _, None) ops) k).
Proof.
  intros Hmono.
  assert (progress_monotone ops ∧
          ∀ so, last ops = Some so → ∀ t v, fst so t = TaskFinished v → s t = TaskFinished v) as [Hm Hl].
  { clear -Hmono. induction ops as [|[s1 op] ops IH]; [done|]. cbn [app] in Hmono.
    destruct Hmono as [H1 H2]. destruct (IH H2) as [IH1 IH2]. split.
    - split; [|done]. by destruct ops as [|[s2 op2] ops].
    - intros so. rewrite last_cons. destruct (last ops) eqn:El; [intros [= <-]; by apply IH2|].
      apply last_None in El as ->. intros [= <-]. exact H1. }
  pose (s0 := λ _ : TaskId, TaskPending).
  assert (cache_shows s0 SharedCache_new (λ _, None)) as H0.
  { intros s' _ k'. unfold view, ref_view. cbn. by rewrite !lookup_empty. }
  pose proof (run_cache_shows s0 _ _ ops cache_new_wf H0) as H.
  destruct (run_cache SharedCache_new ops) as [c|].
  - destruct H as (W & Hc & s' & Hs & Hnil & Hlast); [by destruct ops as [|[? ?] ?]|done|].
    pose proof (cache_get_spec s c k W) as ([r c'] & E & _ & -> & _)%returns_Ok.
    exists c, (view_ref (cache_is_cancelled c) (view s c k)), c'. split; [done|]. split; [done|].
    rewrite Hc, Hs; [done|]. destruct (last ops) as [so|] eqn:El.
    + rewrite (Hlast so eq_refl). by apply Hl.
    + apply last_None in El. rewrite (Hnil El). done.
  - exfalso. apply H; [by destruct ops as [|[? ?] ?]|done].
Qed.

End SharedCache.
Global Arguments CacheData : clear implicits.
Global Arguments TaskStatus : clear implicits.

(** Key 1 is computed by task 5, rewound, and recomputed by task 6. *)
Lemma cache_refines_map_witness :
  let cv n := mkComputed N (MaybePresent n) [mkRange 3 None] TrackedInvalidationPaths_clean in
  let s0 := λ t : TaskId, TaskPending in
  let s1 := λ t : TaskId, if t =? 5 then TaskFinished (cv 10) else TaskPending in
  let s2 := λ t : TaskId, if t =? 5 then TaskFinished (cv 10)
                          else if t =? 6 then TaskFinished (cv 20) else TaskPending in
  ∃ c r c', run_cache SharedCache_new
      [(s0, CInsert 1 5); (s1, CGet 1); (s1, CRewind 1); (s1, CInsert 1 6)] = Ok c ∧
    SharedCache_get s2 c 1 = Ok (r, c') ∧ r = RefComputed (cv 20).
Proof.
  intros cv s0 s1 s2.
  destruct (cache_refines_map [(s0, CInsert 1 5); (s1, CGet 1); (s1, CRewind 1); (s1, CInsert 1 6)] s2 1)
    as (c & r & c' & H1 & H2 & H3).
  - cbn [app progress_monotone]. repeat split; try (intros t v H; exact H).
    + intros t v H. discriminate.
    + intros t v. unfold s1, s2. destruct (t =? 5); [intros H; exact H|discriminate].
  - exists c, r, c'. split; [exact H1|]. split; [exact H2|]. rewrite H3. vm_compute. reflexivity.
Defined.
