(* ===== verification/VersionTracker.v ===== *)
(** The tracker of versions in use, from [src/deps/dice/dice/src/impls/core/versions.rs].

    Every transaction holds a reference to its version; the first one activates the version
    under a fresh epoch and the last one deactivates it.  The theorem characterises exactly
    when an epoch is relevant: while some transaction of that activation is alive. *)
From S2P Require Import Prelude Versions.
Local Open Scope N_scope.
Local Open Scope dice_scope.

(** * Definitions *)

Notation VersionEpoch := N (only parsing).

(** A [SharedCache] is a reference-counted handle: caches are numbered by the activation that
    created them, and their contents are kept in a store ([CoreState]). *)
Notation CacheHandle := N (only parsing).

Record ActiveVersionData := mkActive {
  av_per_transaction_data : CacheHandle;
  av_ref_count : N;
  av_version_epoch : VersionEpoch;
}.

Record VersionTracker := mkVersionTracker {
  vt_current : VersionNumber;
  vt_invalid_before : VersionNumber;
  vt_active_versions : gmap VersionNumber ActiveVersionData;
  vt_epoch_tracker : N;
}.

(** The epoch handed out, and the next state of the counter. *)
Definition VersionEpochTracker_next (self : N) : VersionEpoch * N := (self, self + 1).
Definition VersionEpochTracker_new : N := 0.

Definition VersionTracker_new : VersionTracker :=
  mkVersionTracker VersionNumber_ZERO VersionNumber_ZERO ∅ VersionEpochTracker_new.

Definition VersionTracker_currently_active (self : VersionTracker) : list (N * CacheHandle) :=
  (λ d, (av_ref_count d, av_per_transaction_data d)) <$> (snd <$> map_to_list (vt_active_versions self)).

Definition VersionTracker_current (self : VersionTracker) : VersionNumber := vt_current self.

Definition VersionTracker_at (self : VersionTracker) (v : VersionNumber)
  : VersionTracker * (VersionEpoch * CacheHandle) :=
  let '(entry, epochs) :=
    match vt_active_versions self !! v with
    | Some e => (e, vt_epoch_tracker self)
    | None =>
        let '(version_epoch, epochs) := VersionEpochTracker_next (vt_epoch_tracker self) in
        (mkActive version_epoch 0 version_epoch, epochs)
    end in
  let entry := mkActive (av_per_transaction_data entry) (av_ref_count entry + 1)
                 (av_version_epoch entry) in
  (mkVersionTracker (vt_current self) (vt_invalid_before self)
     (<[v := entry]> (vt_active_versions self)) epochs,
   (av_version_epoch entry, av_per_transaction_data entry)).

Definition VersionTracker_is_relevant (self : VersionTracker) (v : VersionNumber)
  (epoch : VersionEpoch) : bool :=
  match vt_active_versions self !! v with
  | Some active => av_version_epoch active =? epoch
  | None => false
  end.

Definition VersionTracker_cache_if_relevant (self : VersionTracker) (v : VersionNumber)
  (epoch : VersionEpoch) : option CacheHandle :=
  active ← vt_active_versions self !! v;
  if av_version_epoch active =? epoch then Some (av_per_transaction_data active) else None.

Definition VersionTracker_should_reject (self : VersionTracker) (v : VersionNumber) : bool :=
  v <? vt_invalid_before self.

Definition VersionTracker_drop_at_version (self : VersionTracker) (v : VersionNumber)
  : outcome (VersionTracker * option CacheHandle) :=
  entry ← expect (vt_active_versions self !! v);
  assert! (1 <=? av_ref_count entry);;
  let ref_count := av_ref_count entry - 1 in
  let set active := mkVersionTracker (vt_current self) (vt_invalid_before self) active
                      (vt_epoch_tracker self) in
  if ref_count =? 0 then
    Ok (set (delete v (vt_active_versions self)), Some (av_per_transaction_data entry))
  else
    Ok (set (<[v := mkActive (av_per_transaction_data entry) ref_count (av_version_epoch entry)]>
               (vt_active_versions self)), None).

(** [VersionForWrites] borrows the tracker until [commit] or [undo]. *)
Definition VersionForWrites_version (tracker : VersionTracker) : VersionNumber :=
  VersionNumber_inc (vt_current tracker).

Definition VersionForWrites_commit (tracker : VersionTracker) : VersionTracker * VersionNumber :=
  let v := VersionNumber_inc (vt_current tracker) in
  (mkVersionTracker v (vt_invalid_before tracker) (vt_active_versions tracker)
     (vt_epoch_tracker tracker), v).

Definition VersionForWrites_undo (tracker : VersionTracker) : VersionTracker * VersionNumber :=
  (tracker, vt_current tracker).

Definition VersionTracker_clear (self : VersionTracker) : VersionTracker :=
  let v := VersionNumber_inc (vt_current self) in
  mkVersionTracker v v (vt_active_versions self) (vt_epoch_tracker self).

(** * Transactions *)

(** A live transaction: the version it reads and the epoch it was given. *)
Definition token : Type := VersionNumber * VersionEpoch.

Definition count_at (v : VersionNumber) (ts : list token) : nat :=
  length (filter (λ t : token, t.1 = v) ts).

Record tracker_inv (t : VersionTracker) (ts : list token) : Prop := {
  ti_active : ∀ v d, vt_active_versions t !! v = Some d →
    av_ref_count d = N.of_nat (count_at v ts) ∧ count_at v ts ≠ O ∧
    av_version_epoch d < vt_epoch_tracker t ∧ av_per_transaction_data d = av_version_epoch d;
  ti_tokens : ∀ v e, (v, e) ∈ ts →
    ∃ d, vt_active_versions t !! v = Some d ∧ av_version_epoch d = e;
}.

Fixpoint remove_one (x : token) (l : list token) : list token :=
  match l with [] => [] | y :: l' => if decide (x = y) then l' else y :: remove_one x l' end.

Inductive tracker_op :=
| TAt (v : VersionNumber)
| TDrop (tok : token)
| TCommit
| TClear.

(** One step of the tracker with the list of live transactions; dropping a transaction that is
    not live cannot happen. *)
Definition tracker_step (st : VersionTracker * list token) (op : tracker_op)
  : outcome (VersionTracker * list token) :=
  let '(t, ts) := st in
  match op with
  | TAt v => let '(t, (e, _)) := VersionTracker_at t v in Ok (t, (v, e) :: ts)
  | TDrop tok =>
      if decide (tok ∈ ts) then
        '(t, _) ← VersionTracker_drop_at_version t (tok.1); Ok (t, remove_one tok ts)
      else Ok (t, ts)
  | TCommit => Ok (fst (VersionForWrites_commit t), ts)
  | TClear => Ok (VersionTracker_clear t, ts)
  end.

Fixpoint tracker_run (st : VersionTracker * list token) (ops : list tracker_op)
  : outcome (VersionTracker * list token) :=
  match ops with
  | [] => Ok st
  | op :: ops => st ← tracker_step st op; tracker_run st ops
  end.

Lemma count_at_cons v t ts :
  count_at v (t :: ts) = ((if decide (t.1 = v) then 1 else 0) + count_at v ts)%nat.
Proof. unfold count_at. rewrite filter_cons. by case_decide. Qed.

Lemma count_at_elem v ts : count_at v ts ≠ O ↔ ∃ e, (v, e) ∈ ts.
Proof.
  induction ts as [|[v' e'] ts IH]; [split; [done|set_solver]|].
  rewrite count_at_cons. cbn. case_decide as Hv.
  - subst. split; [intros _; exists e'; set_solver|done].
  - cbn. rewrite IH. split; intros [e He]; exists e; set_solver.
Qed.

Lemma count_at_remove_one v x ts :
  x ∈ ts → count_at v ts = ((if decide (x.1 = v) then 1 else 0) + count_at v (remove_one x ts))%nat.
Proof.
  induction ts as [|y ts IH]; [set_solver|]. intros Hin. cbn [remove_one].
  destruct (decide (x = y :> token)) as [->|Hne]; [by rewrite count_at_cons|].
  rewrite !count_at_cons, IH by set_solver. lia.
Qed.

Lemma remove_one_elem x y ts : y ∈ remove_one x ts → y ∈ ts.
Proof.
  induction ts as [|z ts IH]; [done|]. cbn. case_decide; set_solver.
Qed.

Lemma tracker_inv_new : tracker_inv VersionTracker_new [].
Proof. split; [intros v d; cbn; by rewrite lookup_empty|intros v e; set_solver]. Qed.

Lemma at_spec t ts v :
  tracker_inv t ts →
  let '(t', (e, c)) := VersionTracker_at t v in
  tracker_inv t' ((v, e) :: ts) ∧ c = e ∧
  (vt_active_versions t !! v = None → e = vt_epoch_tracker t) ∧
  (∀ e', (v, e') ∈ ts → e = e') ∧ vt_epoch_tracker t ≤ vt_epoch_tracker t' ∧
  e < vt_epoch_tracker t'.
Proof.
  intros [H1 H2]. unfold VersionTracker_at, VersionEpochTracker_next.
  assert (∀ u e n, (∀ w d, vt_active_versions t !! w = Some d → w ≠ v →
             av_ref_count d = N.of_nat (count_at w ts)) →
           e = u → u < n → (∀ w d, vt_active_versions t !! w = Some d → av_version_epoch d < n) →
           (∀ e', (v, e') ∈ ts → e = e') →
    tracker_inv (mkVersionTracker (vt_current t) (vt_invalid_before t)
      (<[v := mkActive u (N.of_nat (count_at v ts) + 1) e]> (vt_active_versions t)) n) ((v, e) :: ts)) as Hmk.
  { intros u e n Hoth -> Hn Hall Huniq. split.
    - intros w d Hw. rewrite count_at_cons. cbn in *.
      apply lookup_insert_Some in Hw as [[<- <-]|[Hne Hw]].
      + rewrite decide_True by done. cbn. split_and!; try done. lia.
      + rewrite decide_False by done. destruct (H1 w d Hw) as (? & ? & ? & ?). eauto.
    - intros w e' [[= -> ->]|Hin]%elem_of_cons; cbn.
      + exists (mkActive u (N.of_nat (count_at v ts) + 1) u). by rewrite lookup_insert_eq.
      + destruct (decide (w = v)) as [->|Hne].
        * rewrite lookup_insert_eq. eexists. split; [done|]. cbn. by apply Huniq.
        * rewrite lookup_insert_ne by done. by apply H2. }
  destruct (vt_active_versions t !! v) as [d|] eqn:Ed; cbn.
  - destruct (H1 v d Ed) as (Hrc & Hne & Hlt & Hc). rewrite Hrc.
    assert (∀ e', (v, e') ∈ ts → av_version_epoch d = e') as Huniq.
    { intros e' He'. destruct (H2 v e' He') as (d' & Hd' & <-). congruence. }
    rewrite Hc. split_and!; try done. apply Hmk; [|done|done| |done].
    + intros w d' Hw _. by apply (H1 w d' Hw).
    + intros w d' Hw. by apply (H1 w d' Hw).
  - assert (count_at v ts = O) as Hz.
    { destruct (decide (count_at v ts = O)) as [|Hn]; [done|]. apply count_at_elem in Hn as [e He].
      destruct (H2 v e He) as (d & Hd & _). congruence. }
    assert (∀ e', (v, e') ∈ ts → vt_epoch_tracker t = e') as Huniq.
    { intros e' He'. destruct (H2 v e' He') as (d & Hd & _). congruence. }
    split_and!; try done; try lia. replace 1 with (N.of_nat (count_at v ts) + 1) by lia.
    apply Hmk; [|done|lia| |done].
    + intros w d Hw _. by apply (H1 w d Hw).
    + intros w d Hw. destruct (H1 w d Hw) as (_ & _ & ? & _). lia.
Qed.

Lemma drop_spec t ts v e :
  tracker_inv t ts → (v, e) ∈ ts →
  returns (VersionTracker_drop_at_version t v) (λ '(t', o),
    tracker_inv t' (remove_one (v, e) ts) ∧ vt_epoch_tracker t' = vt_epoch_tracker t ∧
    (o = Some e ↔ count_at v (remove_one (v, e) ts) = O)).
Proof.
  intros [H1 H2] Hin. destruct (H2 v e Hin) as (d & Hd & He). destruct (H1 v d Hd) as (Hrc & Hne & Hlt & Hc).
  pose proof (count_at_remove_one v (v, e) ts Hin) as Hcount. cbn in Hcount. rewrite decide_True in Hcount by done.
  unfold VersionTracker_drop_at_version. rewrite Hd. cbn [mbind outcome_bind expect].
  unfold rust_assert. rewrite (proj2 (N.leb_le _ _)) by lia. cbn [mbind outcome_bind].
  set (ts' := remove_one (v, e) ts) in *.
  assert (∀ w, w ≠ v → count_at w ts' = count_at w ts) as Hoth.
  { intros w Hw. pose proof (count_at_remove_one w (v, e) ts Hin) as H. cbn in H.
    rewrite decide_False in H by done. subst ts'. lia. }
  destruct (N.eqb_spec (av_ref_count d - 1) 0) as [Hz|Hz]; cbn; (split_and!; [split|done|]).
  - intros w d' Hd'. cbn in Hd'. apply lookup_delete_Some in Hd' as [Hw Hd']. rewrite Hoth by done. by apply H1.
  - intros w e' Hin'. cbn. assert (w ≠ v) as Hw.
    { intros ->. assert (count_at v ts' ≠ O) by (apply count_at_elem; by exists e'). lia. }
    rewrite lookup_delete_ne by done. apply H2. by eapply remove_one_elem.
  - rewrite Hc, He. split; [intros _; lia|done].
  - intros w d' Hd'. cbn in *. apply lookup_insert_Some in Hd' as [[<- <-]|[Hw Hd']]; cbn.
    + split_and!; try done; lia.
    + rewrite Hoth by done. by apply H1.
  - intros w e' Hin'%remove_one_elem. cbn. destruct (decide (w = v)) as [->|Hw].
    + rewrite lookup_insert_eq. eexists. split; [done|]. cbn. destruct (H2 v e' Hin') as (d' & Hd' & <-). congruence.
    + rewrite lookup_insert_ne by done. by apply H2.
  - split; [done|]. lia.
Qed.

Lemma tracker_step_spec t ts op :
  tracker_inv t ts →
  returns (tracker_step (t, ts) op) (λ '(t', ts'),
    tracker_inv t' ts' ∧ vt_epoch_tracker t ≤ vt_epoch_tracker t' ∧
    ∀ v e, (v, e) ∈ ts' → e < vt_epoch_tracker t → (v, e) ∈ ts).
Proof.
  intros H. destruct op as [v|[v e]| |]; cbn [tracker_step].
  - pose proof (at_spec t ts v H) as Hat. destruct (VersionTracker_at t v) as [t' [e c]].
    destruct Hat as (Hi & _ & Hnew & _ & Hle & _). cbn. split_and!; [done|done|].
    intros w e' [[= -> ->]|Hin]%elem_of_cons Hlt; [|done].
    destruct (vt_active_versions t !! v) as [d|] eqn:Ed.
    + destruct (ti_active t ts H v d Ed) as (_ & Hne & _). apply count_at_elem in Hne as [e2 He2].
      destruct (ti_tokens _ _ Hi v e) as (d1 & Hd1 & E1); [set_solver|].
      destruct (ti_tokens _ _ Hi v e2) as (d2 & Hd2 & E2); [set_solver|]. by simplify_eq.
    + rewrite (Hnew eq_refl) in Hlt. lia.
  - case_decide as Hin; [|cbn; split_and!; [done|done|tauto]].
    eapply returns_bind; [by apply (drop_spec t ts v e)|]. intros [t' o] (Hi & He & _). cbn.
    split_and!; [done|by rewrite He|]. intros w e' Hin' _. by eapply remove_one_elem.
  - cbn. split_and!; [|done|tauto]. by destruct H as [H1 H2].
  - cbn. split_and!; [|done|tauto]. by destruct H as [H1 H2].
Qed.

Lemma tracker_run_spec t ts ops :
  tracker_inv t ts →
  returns (tracker_run (t, ts) ops) (λ '(t', ts'),
    tracker_inv t' ts' ∧ vt_epoch_tracker t ≤ vt_epoch_tracker t' ∧
    ∀ v e, (v, e) ∈ ts' → e < vt_epoch_tracker t → (v, e) ∈ ts).
Proof.
  revert t ts. induction ops as [|op ops IH]; intros t ts H; cbn [tracker_run].
  - cbn. split_and!; [done|done|tauto].
  - eapply returns_bind; [by apply tracker_step_spec|]. intros [t1 ts1] (H1 & Hle1 & Hs1).
    eapply returns_mono; [by apply IH|]. intros [t2 ts2] (H2 & Hle2 & Hs2).
    split_and!; [done|lia|]. intros v e Hin Hlt. apply Hs1; [|done]. apply Hs2; [done|lia].
Qed.

Lemma is_relevant_spec t ts v e :
  tracker_inv t ts → VersionTracker_is_relevant t v e = true ↔ (v, e) ∈ ts.
Proof.
  intros [H1 H2]. unfold VersionTracker_is_relevant. split.
  - destruct (vt_active_versions t !! v) as [d|] eqn:Ed; [|done]. intros <-%N.eqb_eq.
    destruct (H1 v d Ed) as (_ & Hne & _). apply count_at_elem in Hne as [e He].
    destruct (H2 v e He) as (d' & Hd' & <-). congruence.
  - intros Hin. destruct (H2 v e Hin) as (d & -> & ->). by apply N.eqb_eq.
Qed.

(** * Properties *)

