(* ===== verification/KeyIndex.v ===== *)
(** The index of keys, from [src/deps/dice/dice/src/impls/key_index.rs]: every distinct key is
    given a [u32] number, the number of its shard plus 64 times its position in the shard.

    A key of the index is an element of a type with decidable equality and a hash function.
    The lock-free table of a shard is the list of the entries inserted in it, and its lookup
    finds an entry that satisfies the predicate; the mutex makes each insertion one step. *)
From S2P Require Import Prelude Values.
Local Open Scope N_scope.
Local Open Scope dice_scope.

Section KeyIndex.
Context {K : Type} `{!EqDecision K} (hash : K → N).

(** * Definitions *)

Definition u32_max : N := 2 ^ 32 - 1.
Definition SHARDS : N := 64.
Definition MAX_INDEX_IN_SHARD : N := u32_max / SHARDS.

Record Shard := mkShard {
  sh_table : list N;         (** one-based positions, [NonZeroU32] *)
  sh_key_by_index : list K;
}.

Local Notation DiceKeyIndex := (list Shard).

Record DiceKeyUnpacked := mkUnpacked { uk_shard_index : N; uk_index_in_shard : N }.

Definition Shard_default : Shard := mkShard [] [].
Definition DiceKeyIndex_default : DiceKeyIndex := replicate (N.to_nat SHARDS) Shard_default.

(** The table lookup: the first entry that satisfies a predicate that may panic. *)
Fixpoint table_lookup (table : list N) (pred : N → outcome bool) : outcome (option N) :=
  match table with
  | [] => Ok None
  | k :: table => b ← pred k; if (b : bool) then Ok (Some k) else table_lookup table pred
  end.

Definition Shard_get (self : Shard) (key : K) : outcome (option N) :=
  found ← table_lookup (sh_table self) (λ k,
    stored ← expect (sh_key_by_index self !! N.to_nat (k - 1)); Ok (bool_decide (stored = key)));
  Ok (k ← found; Some (k - 1)).

Definition Shard_insert_unique_unchecked (self : Shard) (key : K) : outcome (Shard * N) :=
  let len := N.of_nat (length (sh_key_by_index self)) in
  assert! (len <? MAX_INDEX_IN_SHARD);;
  let index := len mod 2 ^ 32 in
  let off_by_one := (index + 1) mod 2 ^ 32 in
  assert! (1 <=? off_by_one);;
  Ok (mkShard (off_by_one :: sh_table self) (sh_key_by_index self ++ [key]), index).

Definition DiceKeyIndex_shard_index_for_hash (hash : N) : N :=
  (N.shiftr hash 32 mod 2 ^ 32) mod SHARDS.

(** [u32] arithmetic of a release build. *)
Definition DiceKeyUnpacked_pack (self : DiceKeyUnpacked) : DiceKey :=
  (uk_shard_index self + (SHARDS * uk_index_in_shard self) mod 2 ^ 32) mod 2 ^ 32.

Definition DiceKeyUnpacked_unpack (key : DiceKey) : DiceKeyUnpacked :=
  mkUnpacked (key mod SHARDS) (key / SHARDS).

(** [&self.shards[i]], which panics out of range. *)
Definition shard_at (self : DiceKeyIndex) (i : N) : outcome Shard := expect (self !! N.to_nat i).

(** The second lookup, under the lock, is against the same shard unless another thread inserted
    in between; a sequence of calls sees it repeat the first. *)
Definition DiceKeyIndex_index (self : DiceKeyIndex) (key : K) : outcome (DiceKeyIndex * DiceKey) :=
  let shard_index := DiceKeyIndex_shard_index_for_hash (hash key) in
  shard ← shard_at self shard_index;
  found ← Shard_get shard key;
  match found with
  | Some index_in_shard => Ok (self, DiceKeyUnpacked_pack (mkUnpacked shard_index index_in_shard))
  | None =>
      found ← Shard_get shard key;
      '(shard, index_in_shard) ←
         match found with
         | Some index_in_shard => Ok (shard, index_in_shard)
         | None => Shard_insert_unique_unchecked shard key
         end;
      Ok (<[N.to_nat shard_index := shard]> self,
          DiceKeyUnpacked_pack (mkUnpacked shard_index index_in_shard))
  end.

Definition DiceKeyIndex_get (self : DiceKeyIndex) (key : DiceKey) : outcome K :=
  let unpack := DiceKeyUnpacked_unpack key in
  shard ← shard_at self (uk_shard_index unpack);
  expect (sh_key_by_index shard !! N.to_nat (uk_index_in_shard unpack)).

(** The listing used for introspection: every packed key with its key. *)
Definition DiceKeyIndex_introspect (self : DiceKeyIndex) : list (DiceKey * K) :=
  concat (imap (λ shard_index shard,
    imap (λ index_in_shard key,
            (DiceKeyUnpacked_pack (mkUnpacked (N.of_nat shard_index) (N.of_nat index_in_shard)), key))
         (sh_key_by_index shard)) self).

(** * Packing *)

Lemma shards_pos : SHARDS ≠ 0.
Proof. done. Qed.

Definition unpacked_ok (u : DiceKeyUnpacked) : Prop :=
  uk_shard_index u < SHARDS ∧ uk_index_in_shard u < MAX_INDEX_IN_SHARD.

Lemma pack_ok u :
  unpacked_ok u →
  DiceKeyUnpacked_pack u = uk_shard_index u + SHARDS * uk_index_in_shard u ∧
  DiceKeyUnpacked_pack u < 2 ^ 32.
Proof.
  intros [H1 H2]. unfold DiceKeyUnpacked_pack, MAX_INDEX_IN_SHARD, u32_max, SHARDS in *.
  change ((2 ^ 32 - 1) / 64) with 67108863 in H2.
  rewrite (N.mod_small (64 * _)) by lia. rewrite N.mod_small by lia. lia.
Qed.

Lemma unpack_pack u : unpacked_ok u → DiceKeyUnpacked_unpack (DiceKeyUnpacked_pack u) = u.
Proof.
  intros H. destruct (pack_ok u H) as [-> _]. destruct u as [s i]. destruct H as [H1 H2]. cbn in *.
  unfold DiceKeyUnpacked_unpack. f_equal.
  - rewrite N.mul_comm, N.Div0.mod_add. by apply N.mod_small.
  - rewrite N.mul_comm, N.div_add by apply shards_pos. by rewrite N.div_small.
Qed.

Lemma pack_unpack k : k < 2 ^ 32 → DiceKeyUnpacked_pack (DiceKeyUnpacked_unpack k) = k.
Proof.
  intros H. unfold DiceKeyUnpacked_pack, DiceKeyUnpacked_unpack, SHARDS. cbn.
  pose proof (N.div_mod k 64 ltac:(done)) as E. revert E.
  generalize (k / 64) (k mod 64). intros q r E. rewrite (N.mod_small (64 * q)) by lia.
  rewrite N.mod_small; lia.
Qed.

(** * The index *)

Definition shard_wf (i : N) (s : Shard) : Prop :=
  N.of_nat (length (sh_key_by_index s)) ≤ MAX_INDEX_IN_SHARD ∧ NoDup (sh_key_by_index s) ∧
  (∀ k, k ∈ sh_table s ↔ 1 ≤ k ≤ N.of_nat (length (sh_key_by_index s))) ∧
  ∀ key, key ∈ sh_key_by_index s → DiceKeyIndex_shard_index_for_hash (hash key) = i.

Definition index_wf (self : DiceKeyIndex) : Prop :=
  length self = N.to_nat SHARDS ∧ ∀ i s, self !! i = Some s → shard_wf (N.of_nat i) s.

Lemma index_default_wf : index_wf DiceKeyIndex_default.
Proof.
  split; [unfold DiceKeyIndex_default; by rewrite length_replicate|].
  unfold DiceKeyIndex_default. intros i s [-> _]%lookup_replicate. split_and!.
  - done.
  - constructor.
  - intros k. cbn. split; [set_solver|lia].
  - intros key. cbn. set_solver.
Qed.

Lemma table_lookup_spec table pred (P : N → Prop) `{∀ k, Decision (P k)} :
  (∀ k, k ∈ table → pred k = Ok (bool_decide (P k))) →
  ∃ o, table_lookup table pred = Ok o ∧
    match o with Some k => k ∈ table ∧ P k | None => ∀ k, k ∈ table → ¬ P k end.
Proof.
  induction table as [|k table IH]; intros Hp; cbn [table_lookup].
  - exists None. split; [done|set_solver].
  - rewrite (Hp k ltac:(set_solver)). cbn. case_bool_decide as HP.
    + exists (Some k). split; [done|]. split; [set_solver|done].
    + destruct IH as (o & -> & Ho); [set_solver|]. exists o. split; [done|].
      destruct o; set_solver.
Qed.

Lemma shard_get_spec i s key :
  shard_wf i s →
  ∃ o, Shard_get s key = Ok o ∧
    match o with
    | Some j => sh_key_by_index s !! N.to_nat j = Some key
    | None => key ∉ sh_key_by_index s
    end.
Proof.
  intros (_ & _ & Ht & _). unfold Shard_get.
  destruct (table_lookup_spec (sh_table s)
    (λ k, stored ← expect (sh_key_by_index s !! N.to_nat (k - 1)); Ok (bool_decide (stored = key)))
    (λ k, sh_key_by_index s !! N.to_nat (k - 1) = Some key)) as (o & -> & Ho).
  - intros k Hk%Ht. destruct (sh_key_by_index s !! N.to_nat (k - 1)) as [x|] eqn:E.
    + cbn. f_equal. apply bool_decide_ext. split; [by intros ->|by intros [= ->]].
    + apply lookup_ge_None in E. lia.
  - cbn. eexists. split; [done|]. destruct o as [k|]; cbn; [by destruct Ho|].
    intros (j & Hj)%list_elem_of_lookup_1. pose proof (lookup_lt_Some _ _ _ Hj).
    apply (Ho (N.of_nat j + 1)); [apply Ht; lia|]. by replace (N.to_nat (N.of_nat j + 1 - 1)) with j by lia.
Qed.

Lemma shard_index_bound h : DiceKeyIndex_shard_index_for_hash h < SHARDS.
Proof. apply N.mod_lt, shards_pos. Qed.

(** The shard a key belongs to. *)
Definition key_shard (key : K) : N := DiceKeyIndex_shard_index_for_hash (hash key).

Lemma shard_insert_wf i s key :
  shard_wf i s → key ∉ sh_key_by_index s → key_shard key = i →
  N.of_nat (length (sh_key_by_index s)) < MAX_INDEX_IN_SHARD →
  ∃ s', Shard_insert_unique_unchecked s key = Ok (s', N.of_nat (length (sh_key_by_index s))) ∧
    shard_wf i s' ∧ sh_key_by_index s' = sh_key_by_index s ++ [key].
Proof.
  intros (Hl & Hn & Ht & Hk) Hnin Hi Hlt. unfold Shard_insert_unique_unchecked.
  rewrite (proj2 (N.ltb_lt _ _)) by done. cbn [rust_assert mbind outcome_bind].
  assert (MAX_INDEX_IN_SHARD < 2 ^ 32) by done.
  rewrite !N.mod_small by (try rewrite N.mod_small by lia; lia).
  unfold rust_assert. rewrite (proj2 (N.leb_le _ _)) by lia. cbn [mbind outcome_bind].
  eexists. split; [done|]. split; [|done]. unfold shard_wf. cbn [sh_key_by_index sh_table].
  rewrite length_app. cbn [length]. split_and!.
  - lia.
  - apply NoDup_app. split_and!; [done|set_solver|repeat constructor; set_solver].
  - intros k. rewrite elem_of_cons, Ht. lia.
  - intros x [Hx|Hx]%elem_of_app; [by apply Hk|]. by assert (x = key) as -> by set_solver.
Qed.

Lemma DiceKeyIndex_index_spec (idx : DiceKeyIndex) (key : K) :
  index_wf idx →
  (∀ s, idx !! N.to_nat (key_shard key) = Some s →
     N.of_nat (length (sh_key_by_index s)) < MAX_INDEX_IN_SHARD ∨ key ∈ sh_key_by_index s) →
  ∃ idx' n, DiceKeyIndex_index idx key = Ok (idx', n) ∧ index_wf idx' ∧ n < 2 ^ 32 ∧
    DiceKeyIndex_get idx' n = Ok key ∧
    (∀ m x, m < 2 ^ 32 → DiceKeyIndex_get idx m = Ok x → DiceKeyIndex_get idx' m = Ok x) ∧
    DiceKeyIndex_index idx' key = Ok (idx', n).
Proof.
  intros [Hlen Hwf] Hroom. unfold DiceKeyIndex_index. fold (key_shard key) in *.
  pose proof (shard_index_bound (hash key)) as Hb. fold (key_shard key) in Hb.
  set (i := N.to_nat (key_shard key)) in *.
  destruct (idx !! i) as [s|] eqn:Es; [|apply lookup_ge_None in Es; lia].
  unfold shard_at. fold i. rewrite Es. cbn [expect mbind outcome_bind].
  pose proof (Hwf i s Es) as Ws. subst i. rewrite N2Nat.id in Ws. set (i := N.to_nat (key_shard key)) in *.
  destruct (shard_get_spec _ s key Ws) as (o & Eo & Ho). rewrite Eo. cbn [mbind outcome_bind].
  assert (∀ (idx2 : DiceKeyIndex) s2 j, idx2 !! i = Some s2 → sh_key_by_index s2 !! N.to_nat j = Some key →
    shard_wf (key_shard key) s2 →
    DiceKeyUnpacked_pack (mkUnpacked (key_shard key) j) < 2 ^ 32 ∧
    DiceKeyIndex_get idx2 (DiceKeyUnpacked_pack (mkUnpacked (key_shard key) j)) = Ok key) as Hget.
  { intros idx2 s2 j E2 Ej (Hl2 & _). pose proof (lookup_lt_Some _ _ _ Ej).
    assert (unpacked_ok (mkUnpacked (key_shard key) j)) as Hok by (split; cbn; [done|lia]).
    split; [by apply pack_ok|]. unfold DiceKeyIndex_get. rewrite unpack_pack by done. cbn.
    unfold shard_at. fold i. rewrite E2. cbn. by rewrite Ej. }
  destruct o as [j|].
  - destruct (Hget idx s j Es Ho Ws) as [H1 H2]. do 2 eexists. split; [done|]. split_and!; try done.
    rewrite Es. cbn [expect mbind outcome_bind]. by rewrite Eo.
  - destruct (Hroom s eq_refl) as [Hroom'|?]; [|done].
    destruct (shard_insert_wf _ s key Ws Ho eq_refl Hroom') as (s' & Ei & Ws' & Hks).
    rewrite Ei. cbn [mbind outcome_bind].
    assert (<[i:=s']> idx !! i = Some s') as Es' by (apply list_lookup_insert_eq; lia).
    assert (sh_key_by_index s' !! N.to_nat (N.of_nat (length (sh_key_by_index s))) = Some key) as Hj.
    { rewrite Hks, Nat2N.id. by apply list_lookup_middle. }
    destruct (Hget _ s' _ Es' Hj Ws') as [H1 H2].
    do 2 eexists. split; [done|]. split_and!; try done.
    + split; [by rewrite length_insert|]. intros i' x Hx.
      destruct (decide (i' = i)) as [->|Hne].
      * rewrite Es' in Hx. injection Hx as <-. subst i. by rewrite N2Nat.id.
      * rewrite list_lookup_insert_ne in Hx by done. by apply Hwf.
    + intros m x Hm. unfold DiceKeyIndex_get, shard_at.
      set (u := DiceKeyUnpacked_unpack m). destruct (decide (N.to_nat (uk_shard_index u) = i)) as [->|Hne].
      * rewrite Es, Es'. cbn [expect mbind outcome_bind]. rewrite Hks. intros Hx.
        destruct (sh_key_by_index s !! N.to_nat (uk_index_in_shard u)) as [y|] eqn:E; [|discriminate].
        by rewrite (lookup_app_l_Some _ _ _ _ E).
      * by rewrite list_lookup_insert_ne.
    + rewrite Es'. cbn [expect mbind outcome_bind].
      destruct (shard_get_spec _ s' key Ws') as (o & Eo' & Ho'). rewrite Eo'. cbn [mbind outcome_bind].
      destruct o as [j|]; [|exfalso; apply Ho'; rewrite Hks; apply elem_of_app; right; by apply list_elem_of_singleton].
      destruct Ws' as (_ & Hnd & _). pose proof (NoDup_lookup _ _ _ _ Hnd Ho' Hj) as Hjj.
      assert (j = N.of_nat (length (sh_key_by_index s))) as -> by lia. done.
Qed.

(** Indexing a key in a well-formed index either finds the number it already
    has or gives it a new one, and panics only when its shard is full; the number fits in 32
    bits and leads back to the key, every number given before still leads to the same key, and
    indexing again gives the same number.  So numbers identify keys: two keys have the same
    number only if they are equal. *)
Theorem key_index_correct (idx : DiceKeyIndex) (key : K) :
  index_wf idx →
  (∀ s, idx !! N.to_nat (key_shard key) = Some s →
     N.of_nat (length (sh_key_by_index s)) < MAX_INDEX_IN_SHARD ∨ key ∈ sh_key_by_index s) →
  ∃ idx' n, DiceKeyIndex_index idx key = Ok (idx', n) ∧ index_wf idx' ∧ n < 2 ^ 32 ∧
    DiceKeyIndex_get idx' n = Ok key ∧
    (∀ m x, m < 2 ^ 32 → DiceKeyIndex_get idx m = Ok x → DiceKeyIndex_get idx' m = Ok x) ∧
    DiceKeyIndex_index idx' key = Ok (idx', n).
Proof. apply DiceKeyIndex_index_spec. Qed.

End KeyIndex.

Lemma key_index_correct_witness :
  ∃ idx' n, DiceKeyIndex_index (λ k : N, k * 2 ^ 32) DiceKeyIndex_default 70 = Ok (idx', n) ∧
    n = 6 ∧ DiceKeyIndex_get idx' n = Ok 70.
Proof.
  destruct (key_index_correct (λ k : N, k * 2 ^ 32) DiceKeyIndex_default 70) as (idx' & n & E & _ & _ & G & _).
  - apply index_default_wf.
  - intros s Hs. left. vm_compute in Hs. injection Hs as <-. vm_compute. reflexivity.
  - exists idx', n. split; [exact E|]. split; [|exact G]. vm_compute in E. injection E as _ E. rewrite <- E. reflexivity.
Defined.
