(* ===== verification/Transaction.v ===== *)
(** The changes of a transaction before it is committed, from
    [src/deps/dice/dice/src/impls/transaction.rs].

    The user's key types are a parameter: each key has a storage type, an invalidation
    priority and a validity for its values. *)
From S2P Require Import Prelude Versions Values KeyIndex.
Local Open Scope N_scope.
Local Open Scope dice_scope.

Inductive ChangeType {V : Type} :=
| ChangeInvalidate
| ChangeUpdateValue (value : V) (storage : StorageType)
| TestingSoftDirty.
Global Arguments ChangeType : clear implicits.

Section Transaction.
Context {K V : Type} `{!EqDecision K, !DiceValueDyn V} (hash : K → N).
Context (storage_type : K → StorageType) (invalidation_source_priority : K → InvalidationSourcePriority).

(** * Definitions *)

Inductive DiceError :=
| InjectedKeyInvalidated (key : K)
| InvalidChange (key : K)
| Duplicate (key : K).

(** The index of keys is shared with the rest of DICE and only grows. *)
Record Changes := mkChanges {
  ch_changes : gmap DiceKey (ChangeType V * InvalidationSourcePriority);
  ch_key_index : list (Shard (K:=K));
}.

Definition Changes_new (key_index : list (Shard (K:=K))) : Changes := mkChanges ∅ key_index.

(** The updated changes, and the error if there is one ([Ok(())] is [None]).  A duplicate is
    reported after it replaced the earlier change. *)
Definition Changes_change (self : Changes) (key : K) (change : ChangeType V)
  : outcome (Changes * option DiceError) :=
  match change, storage_type key with
  | ChangeInvalidate, Injected => Ok (self, Some (InjectedKeyInvalidated key))
  | _, _ =>
      '(idx, k) ← DiceKeyIndex_index hash (ch_key_index self) key;
      let changes := <[k := (change, invalidation_source_priority key)]> (ch_changes self) in
      match ch_changes self !! k with
      | Some _ =>
          key ← DiceKeyIndex_get idx k; Ok (mkChanges changes idx, Some (Duplicate key))
      | None => Ok (mkChanges changes idx, None)
      end
  end.

Definition Changes_len (self : Changes) : nat := size (ch_changes self).

(** [try_for_each]: stops at the first error. *)
Fixpoint try_for_each {A} (f : Changes → A → outcome (Changes * option DiceError)) (self : Changes)
  (l : list A) : outcome (Changes * option DiceError) :=
  match l with
  | [] => Ok (self, None)
  | a :: l =>
      '(self, e) ← f self a;
      match e with Some e => Ok (self, Some e) | None => try_for_each f self l end
  end.

Definition TransactionUpdater_changed (self : Changes) (changed : list K)
  : outcome (Changes * option DiceError) :=
  try_for_each (λ self k, Changes_change self k ChangeInvalidate) self changed.

Definition TransactionUpdater_changed_to (self : Changes) (changed : list (K * V))
  : outcome (Changes * option DiceError) :=
  try_for_each (λ self '(k, new_value),
    match MaybeValidDiceValue_into_valid_value (MaybeValidDiceValue_new new_value Valid) with
    | inl validated_value =>
        Changes_change self k (ChangeUpdateValue validated_value (storage_type k))
    | inr _ => Ok (self, Some (InvalidChange k))
    end) self changed.

Definition TransactionUpdater_pending_change_count (self : Changes) : nat := Changes_len self.

(** The argument of [update_state] in [commit_to_state]. *)
Definition commit_changes (self : Changes)
  : list (DiceKey * ChangeType V * InvalidationSourcePriority) :=
  (λ '(k, (t, p)), (k, t, p)) <$> map_to_list (ch_changes self).

(** * Properties *)

(** Room for a key in its shard. *)
Definition has_room (idx : list (Shard (K:=K))) (key : K) : Prop :=
  ∀ s, idx !! N.to_nat (key_shard hash key) = Some s →
    N.of_nat (length (sh_key_by_index s)) < MAX_INDEX_IN_SHARD ∨ key ∈ sh_key_by_index s.

(** A change recorded under a number is for the key of that number, and respects its storage. *)
Definition changes_wf (self : Changes) : Prop :=
  index_wf hash (ch_key_index self) ∧
  ∀ k t p, ch_changes self !! k = Some (t, p) →
    ∃ key, DiceKeyIndex_get (ch_key_index self) k = Ok key ∧ k < 2 ^ 32 ∧
      p = invalidation_source_priority key ∧
      (t = ChangeInvalidate → storage_type key = Normal).

Lemma changes_new_wf idx : index_wf hash idx → changes_wf (Changes_new idx).
Proof. intros H. split; [done|]. intros k t p. cbn. by rewrite lookup_empty. Qed.

(** The change recorded for a key, found through its number. *)
Definition recorded (self : Changes) (key : K)
  : option (ChangeType V * InvalidationSourcePriority) :=
  match DiceKeyIndex_index hash (ch_key_index self) key with
  | Ok (_, k) => ch_changes self !! k
  | Panic => None
  end.

Definition injected_invalidated (key : K) (change : ChangeType V) : bool :=
  match change, storage_type key with ChangeInvalidate, Injected => true | _, _ => false end.

(** Recording one change. *)
Lemma change_spec self key change :
  changes_wf self → has_room (ch_key_index self) key → injected_invalidated key change = false →
  returns (Changes_change self key change) (λ '(self', e),
    changes_wf self' ∧ e = (if recorded self key then Some (Duplicate key) else None) ∧
    ∃ k, DiceKeyIndex_get (ch_key_index self') k = Ok key ∧
      ch_changes self' = <[k := (change, invalidation_source_priority key)]> (ch_changes self) ∧
      recorded self key = ch_changes self !! k ∧
      recorded self' key = Some (change, invalidation_source_priority key)).
Proof.
  intros [Wi Wc] Hroom Hinj.
  destruct (DiceKeyIndex_index_spec hash (ch_key_index self) key Wi Hroom)
    as (idx' & k & Ei & Wi' & Hk & Hget & Hold & Hagain).
  assert (Changes_change self key change =
    '(idx, k) ← DiceKeyIndex_index hash (ch_key_index self) key;
    let changes := <[k := (change, invalidation_source_priority key)]> (ch_changes self) in
    match ch_changes self !! k with
    | Some _ => key ← DiceKeyIndex_get idx k; Ok (mkChanges changes idx, Some (Duplicate key))
    | None => Ok (mkChanges changes idx, None)
    end) as ->.
  { unfold Changes_change, injected_invalidated in *. by destruct change, (storage_type key). }
  unfold recorded. rewrite Ei. cbn [mbind outcome_bind]. rewrite Hget. cbn [mbind outcome_bind].
  set (new := mkChanges (<[k:=(change, invalidation_source_priority key)]> (ch_changes self)) idx').
  assert (changes_wf new) as Hnew.
  { split; [done|]. cbn. intros k' t p [[<- [= <- <-]]|[Hne Hk']]%lookup_insert_Some.
    - exists key. split_and!; try done. intros ->. unfold injected_invalidated in Hinj.
      by destruct (storage_type key).
    - destruct (Wc _ _ _ Hk') as (key' & Hg & Hlt & ?). exists key'. split_and!; try done; [by apply Hold|naive_solver..]. }
  assert (∃ k0, DiceKeyIndex_get idx' k0 = Ok key ∧ ch_changes new = <[k0 := (change, invalidation_source_priority key)]> (ch_changes self) ∧
      ch_changes self !! k = ch_changes self !! k0 ∧
      match DiceKeyIndex_index hash (ch_key_index new) key with
      | Ok (_, k) => ch_changes new !! k | Panic => None end = Some (change, invalidation_source_priority key)) as Hex.
  { exists k. split_and!; try done. cbn. rewrite Hagain. by rewrite lookup_insert_eq. }
  destruct (ch_changes self !! k) as [x|] eqn:Ek; cbn; (split_and!; [done|done|exact Hex]).
Qed.

(** Recording a change never panics while there is room in the index.  A
    request to invalidate an injected key is an error and records nothing; any other change is
    recorded for its key, with the key's priority, and is reported as a duplicate exactly when
    the transaction already had a change for that key.  Hence the changes handed to the core
    state have distinct keys and never invalidate an injected key. *)
Theorem changes_correct (self : Changes) (key : K) (change : ChangeType V) :
  changes_wf self → has_room (ch_key_index self) key →
  ∃ self' e, Changes_change self key change = Ok (self', e) ∧ changes_wf self' ∧
    (if injected_invalidated key change then self' = self ∧ e = Some (InjectedKeyInvalidated key)
     else e = (if recorded self key then Some (Duplicate key) else None) ∧
          recorded self' key = Some (change, invalidation_source_priority key)) ∧
    NoDup (commit_changes self').*1.*1 ∧
    (∀ k t p, (k, t, p) ∈ commit_changes self' → t = ChangeInvalidate →
       ∃ key', DiceKeyIndex_get (ch_key_index self') k = Ok key' ∧ storage_type key' = Normal).
Proof.
  intros W Hroom.
  assert (∃ self' e, Changes_change self key change = Ok (self', e) ∧ changes_wf self' ∧
    (if injected_invalidated key change then self' = self ∧ e = Some (InjectedKeyInvalidated key)
     else e = (if recorded self key then Some (Duplicate key) else None) ∧
          recorded self' key = Some (change, invalidation_source_priority key)))
    as (self' & e & E & W' & H).
  { destruct (injected_invalidated key change) eqn:Ei.
    - exists self, (Some (InjectedKeyInvalidated key)). unfold injected_invalidated, Changes_change in *.
      by destruct change, (storage_type key).
    - pose proof (change_spec self key change W Hroom Ei) as ([self' e] & E & W' & He & k & _ & _ & _ & Hr)%returns_Ok.
      by exists self', e. }
  exists self', e. split_and!; try done.
  - unfold commit_changes. rewrite <- !list_fmap_compose.
    erewrite list_fmap_ext; [apply NoDup_fst_map_to_list|]. by intros ? [k [t p]] _.
  - intros k t p Hin ->. unfold commit_changes in Hin.
    apply list_elem_of_fmap in Hin as ([k' [t' p']] & [= -> <- ->] & Hin).
    apply elem_of_map_to_list in Hin. destruct W' as [_ W']. destruct (W' _ _ _ Hin) as (key' & ? & _ & _ & Hs).
    exists key'. split; [done|by apply Hs].
Qed.

End Transaction.

Lemma changes_correct_witness :
  let _ := N_value in
  let st := λ k : N, if k =? 1 then Injected else Normal in
  let pr := λ _ : N, PriorityNormal in
  ∃ self' e, Changes_change (V:=N) (λ k, k) st pr (Changes_new DiceKeyIndex_default) 5 ChangeInvalidate
      = Ok (self', e) ∧ e = None ∧ NoDup (commit_changes self').*1.*1.
Proof.
  intros D st pr.
  destruct (changes_correct (V:=N) (λ k, k) st pr (Changes_new DiceKeyIndex_default) 5 ChangeInvalidate)
    as (self' & e & E & _ & H & Hn & _).
  - apply changes_new_wf, index_default_wf.
  - intros s Hs. left. vm_compute in Hs. injection Hs as <-. vm_compute. reflexivity.
  - exists self', e. split; [exact E|]. split; [|exact Hn].
    assert (injected_invalidated (V:=N) st 5 ChangeInvalidate = false) as Ei by reflexivity.
    rewrite Ei in H. destruct H as [He _]. rewrite He. vm_compute. reflexivity.
Defined.
