(* ===== verification/CoreState.v ===== *)
(** The core state of DICE and its message loop, from
    [src/deps/dice/dice/src/impls/core/internals.rs], [core/processor.rs] and the requests of
    [core/state.rs].

    The state is owned by one thread that handles requests one at a time, so a run of the
    engine is a sequence of requests.  The caches the version tracker hands out are shared with
    the transactions: they live in a store indexed by their handles. *)
From S2P Require Import Prelude Versions Values SPDeps LazyDeps Nodes Graph SharedCache.
From S2P Require Import VersionTracker KeyIndex Transaction.
Local Open Scope N_scope.
Local Open Scope dice_scope.

Section CoreState.
Context {V : Type} `{!DiceValueDyn V}.

(** * Definitions *)

(** The store serialises a value; [inl] is an I/O error, [inr None] a value it declines. *)
Context {Error : Type} (storage_page_out : DiceKey → V → Error + option DataKey).

Record CoreState := mkCore {
  cs_version_tracker : VersionTracker;
  cs_graph : VersionedGraph V;
  cs_pending_termination_tasks : list TaskId;
  cs_caches : gmap CacheHandle (CacheData V);  (** contents of the shared caches *)
}.

Definition CoreState_new : CoreState := mkCore VersionTracker_new VersionedGraph_new [] ∅.

Definition set_graph (self : CoreState) (g : VersionedGraph V) : CoreState :=
  mkCore (cs_version_tracker self) g (cs_pending_termination_tasks self) (cs_caches self).
Definition set_tracker (self : CoreState) (t : VersionTracker) : CoreState :=
  mkCore t (cs_graph self) (cs_pending_termination_tasks self) (cs_caches self).
Definition set_pending (self : CoreState) (p : list TaskId) : CoreState :=
  mkCore (cs_version_tracker self) (cs_graph self) p (cs_caches self).
Definition set_caches (self : CoreState) (c : gmap CacheHandle (CacheData V)) : CoreState :=
  mkCore (cs_version_tracker self) (cs_graph self) (cs_pending_termination_tasks self) c.

Definition invalidate_kind (change : ChangeType V) : InvalidateKind V :=
  match change with
  | ChangeInvalidate => ForceDirty
  | ChangeUpdateValue v s => Update v s
  | TestingSoftDirty => Invalidate
  end.

(** The loop over the updates: the graph and [changes_recorded]. *)
Fixpoint apply_updates (g : VersionedGraph V) (v : VersionNumber)
  (updates : list (DiceKey * ChangeType V * InvalidationSourcePriority)) (changes_recorded : bool)
  : outcome (VersionedGraph V * bool) :=
  match updates with
  | [] => Ok (g, changes_recorded)
  | (key, change, invalidation_priority) :: updates =>
      '(g, changed) ← VersionedGraph_invalidate g (mkGraphKey v key) (invalidate_kind change)
                        invalidation_priority;
      apply_updates g v updates (changes_recorded || changed)
  end.

Definition CoreState_update_state (self : CoreState)
  (updates : list (DiceKey * ChangeType V * InvalidationSourcePriority))
  : outcome (CoreState * VersionNumber) :=
  let v := VersionForWrites_version (cs_version_tracker self) in
  '(g, changes_recorded) ← apply_updates (cs_graph self) v updates false;
  let '(t, v) := if (changes_recorded : bool) then VersionForWrites_commit (cs_version_tracker self)
                 else VersionForWrites_undo (cs_version_tracker self) in
  Ok (set_tracker (set_graph self g) t, v).

(** A new activation creates its cache. *)
Definition CoreState_ctx_at_version (self : CoreState) (v : VersionNumber)
  : CoreState * (VersionEpoch * CacheHandle) :=
  let '(t, (e, c)) := VersionTracker_at (cs_version_tracker self) v in
  let caches := match vt_active_versions (cs_version_tracker self) !! v with
                | Some _ => cs_caches self
                | None => <[c := SharedCache_new]> (cs_caches self)
                end in
  (set_caches (set_tracker self t) caches, (e, c)).

Definition CoreState_current_version (self : CoreState) : VersionNumber :=
  VersionTracker_current (cs_version_tracker self).

(** [status] is the progress of the tasks when the request is handled. *)
Definition CoreState_drop_ctx_at_version (status : TaskId → TaskStatus V) (self : CoreState)
  (v : VersionNumber) : outcome CoreState :=
  '(t, evicted) ← VersionTracker_drop_at_version (cs_version_tracker self) v;
  let self := set_tracker self t in
  match evicted with
  | None => Ok self
  | Some evicted_cache =>
      c ← expect (cs_caches self !! evicted_cache);
      let pending := filter (λ t, Is_true (task_is_pending (status t)))
                       (cs_pending_termination_tasks self) in
      let '(c, cancelled) := SharedCache_cancel_pending_tasks status c in
      Ok (set_pending (set_caches self (<[evicted_cache := c]> (cs_caches self)))
            (pending ++ cancelled))
  end.

Definition CoreState_lookup_key (self : CoreState) (key : VersionedGraphKey)
  : outcome (VersionedGraphResult V) :=
  if VersionTracker_should_reject (cs_version_tracker self) (gk_v key)
  then Ok RejectedDueToGraphClear
  else VersionedGraph_get (cs_graph self) key.

(** The loop over the keys: the cache, the graph and the number of keys rewound. *)
Fixpoint rewind_keys (c : CacheData V) (g : VersionedGraph V) (keys : list DiceKey)
  (v : VersionNumber) (rewound : N) : outcome (CacheData V * VersionedGraph V * N) :=
  match keys with
  | [] => Ok (c, g, rewound)
  | key :: keys =>
      match g !! key with
      | Some (InjectedNode _) => rewind_keys c g keys v rewound
      | _ =>
          let c := SharedCache_rewind c key in
          '(g, _) ← VersionedGraph_invalidate g (mkGraphKey v key) ForceDirty PriorityNormal;
          rewind_keys c g keys v (rewound + 1)
      end
  end.

Definition CoreState_rewind (self : CoreState) (keys : list DiceKey) (v : VersionNumber)
  (epoch : VersionEpoch) : outcome (CoreState * N) :=
  match VersionTracker_cache_if_relevant (cs_version_tracker self) v epoch with
  | None => Ok (self, 0)
  | Some handle =>
      c ← expect (cs_caches self !! handle);
      '(c, g, rewound) ← rewind_keys c (cs_graph self) keys v 0;
      Ok (set_caches (set_graph self g) (<[handle := c]> (cs_caches self)), rewound)
  end.

Inductive CancellationReason := OutdatedEpoch | Rejected.

Definition CoreState_update_computed (self : CoreState) (key : VersionedGraphKey)
  (epoch : VersionEpoch) (storage : StorageType) (value : V) (reusability : ValueReusable)
  (deps : SeriesParallelDeps) (invalidation_paths : TrackedInvalidationPaths)
  : outcome (CoreState * (CancellationReason + DiceComputedValue V)) :=
  if negb (VersionTracker_is_relevant (cs_version_tracker self) (gk_v key) epoch) then
    Ok (self, inl OutdatedEpoch)
  else if VersionTracker_should_reject (cs_version_tracker self) (gk_v key) then
    Ok (self, inl Rejected)
  else
    '(g, (cv, _)) ← VersionedGraph_update (cs_graph self) key value reusability deps storage
                      invalidation_paths;
    Ok (set_graph self g, inr cv).

Definition CoreState_get_tasks_pending_cancellation (status : TaskId → TaskStatus V)
  (self : CoreState) : CoreState * list TaskId :=
  let pending := filter (λ t, Is_true (task_is_pending (status t)))
                   (cs_pending_termination_tasks self) in
  (set_pending self pending, pending).

(** The graph is dropped on another thread. *)
Definition CoreState_unstable_drop_everything (self : CoreState) : CoreState :=
  set_graph (set_tracker self (VersionTracker_clear (cs_version_tracker self))) ∅.

(** One iteration of [page_out]: the node after it, or the error that ends the loop. *)
Definition page_out_node (key : DiceKey) (node : VersionedGraphNode V)
  : Error + VersionedGraphNode V :=
  match node with
  | Occupied occ =>
      match pv_data_key (occ_res occ) with
      | Some existing_data_key =>
          inr (match PagableNodeValue_as_hydrated (occ_res occ) with
               | Some _ => Occupied (OccupiedGraphNode_set_paged_out occ existing_data_key)
               | None => node
               end)
      | None =>
          match PagableNodeValue_as_hydrated (occ_res occ) with
          | None => inr node
          | Some value =>
              match storage_page_out key value with
              | inl e => inl e
              | inr (Some data_key) => inr (Occupied (OccupiedGraphNode_set_paged_out occ data_key))
              | inr None => inr node
              end
          end
      end
  | _ => inr node
  end.

(** The loop over the nodes in the iteration order [keys] of the map; an error leaves the nodes
    visited before it paged out. *)
Fixpoint page_out_nodes (g : VersionedGraph V) (keys : list DiceKey)
  : VersionedGraph V * option Error :=
  match keys with
  | [] => (g, None)
  | key :: keys =>
      match g !! key with
      | Some node =>
          match page_out_node key node with
          | inl e => (g, Some e)
          | inr node => page_out_nodes (<[key := node]> g) keys
          end
      | None => page_out_nodes g keys
      end
  end.

(** [configured]: a storage is configured. *)
Definition CoreState_page_out (configured : bool) (self : CoreState) : CoreState * option Error :=
  if configured then
    let '(g, r) := page_out_nodes (cs_graph self) (fst <$> map_to_list (cs_graph self)) in
    (set_graph self g, r)
  else (self, None).

Definition CoreState_rehydrate (self : CoreState) (key : DiceKey) (value : V) : CoreState :=
  match cs_graph self !! key with
  | Some (Occupied occ) =>
      set_graph self (<[key := Occupied (OccupiedGraphNode_rehydrate occ value)]> (cs_graph self))
  | _ => self
  end.

Record Metrics := mkMetrics {
  key_count : nat;
  currently_active_key_count : nat;
  active_transaction_count : N;
}.

Definition CoreState_metrics (self : CoreState) : Metrics :=
  let active := VersionTracker_currently_active (cs_version_tracker self) in
  mkMetrics (size (cs_graph self))
    (list_sum ((λ '(_, c), match cs_caches self !! c with
                           | Some c => SharedCache_active_tasks_count c | None => O end) <$> active))
    (foldr N.add 0 (fst <$> active) mod 2 ^ 32).

Definition CoreState_existing_graph_keys (self : CoreState) : list DiceKey :=
  fst <$> map_to_list (cs_graph self).

Definition current_graph_value (self : CoreState) (key : DiceKey)
  : outcome (option (MaybeValidDiceValue V)) :=
  match cs_graph self !! key with
  | None => Ok None
  | Some node =>
      r ← VersionedGraphNode_at_version node (CoreState_current_version self);
      Ok (match r with
          | Match value => Some (cv_value value)
          | CheckDeps mismatch => Some (MaybeValidDiceValue_valid (mm_entry mismatch))
          | _ => None
          end)
  end.

Fixpoint CoreState_current_graph_values (self : CoreState) (keys : list DiceKey)
  : outcome (list (option (MaybeValidDiceValue V))) :=
  match keys with
  | [] => Ok []
  | key :: keys =>
      v ← current_graph_value self key;
      vs ← CoreState_current_graph_values self keys; Ok (v :: vs)
  end.

(** * The message loop *)

(** [StateRequest], without the response channels; [MakeAvailableForAllocative] and
    [Introspection] only read the state. *)
Inductive StateRequest :=
| UpdateState (changes : list (DiceKey * ChangeType V * InvalidationSourcePriority))
| CurrentVersion
| CtxAtVersion (version : VersionNumber)
| DropCtxAtVersion (version : VersionNumber)
| LookupKey (key : VersionedGraphKey)
| Rewind (keys : list DiceKey) (version : VersionNumber) (epoch : VersionEpoch)
| UpdateComputed (key : VersionedGraphKey) (epoch : VersionEpoch) (storage : StorageType)
    (value : V) (deps : SeriesParallelDeps) (invalidation_paths : TrackedInvalidationPaths)
| UpdateMismatchAsUnchanged (key : VersionedGraphKey) (epoch : VersionEpoch)
    (storage : StorageType) (previous : VersionedGraphResultMismatch V)
    (invalidation_paths : TrackedInvalidationPaths)
| GetTasksPendingCancellation
| UnstableDropEverything
| PageOut (configured : bool)
| Rehydrate (key : DiceKey) (value : V)
| GetMetrics
| ExistingGraphKeys
| CurrentGraphValues (keys : list DiceKey)
| MakeAvailableForAllocative.

Inductive StateResponse :=
| RespVersion (v : VersionNumber)
| RespCtx (version : VersionNumber) (epoch : VersionEpoch) (cache : CacheHandle)
| RespNone
| RespLookup (r : VersionedGraphResult V)
| RespCount (n : N)
| RespComputed (r : CancellationReason + DiceComputedValue V)
| RespTasks (ts : list TaskId)
| RespPageOut (e : option Error)
| RespMetrics (m : Metrics)
| RespKeys (ks : list DiceKey)
| RespValues (vs : list (option (MaybeValidDiceValue V))).

(** [StateProcessor::iteration] *)
Definition StateProcessor_iteration (status : TaskId → TaskStatus V) (self : CoreState)
  (message : StateRequest) : outcome (CoreState * StateResponse) :=
  match message with
  | UpdateState changes =>
      '(self, v) ← CoreState_update_state self changes; Ok (self, RespVersion v)
  | CtxAtVersion version =>
      let '(self, (version_epoch, cache)) := CoreState_ctx_at_version self version in
      Ok (self, RespCtx version version_epoch cache)
  | DropCtxAtVersion version =>
      self ← CoreState_drop_ctx_at_version status self version; Ok (self, RespNone)
  | CurrentVersion => Ok (self, RespVersion (CoreState_current_version self))
  | LookupKey key => r ← CoreState_lookup_key self key; Ok (self, RespLookup r)
  | Rewind keys version epoch =>
      '(self, n) ← CoreState_rewind self keys version epoch; Ok (self, RespCount n)
  | UpdateComputed key epoch storage value deps invalidation_paths =>
      '(self, r) ← CoreState_update_computed self key epoch storage value EqualityBased deps
                     invalidation_paths; Ok (self, RespComputed r)
  | UpdateMismatchAsUnchanged key epoch storage previous invalidation_paths =>
      '(self, r) ← CoreState_update_computed self key epoch storage (mm_entry previous)
                     (VersionBased (mm_prev_verified_version previous))
                     (mm_deps_to_validate previous) invalidation_paths; Ok (self, RespComputed r)
  | GetTasksPendingCancellation =>
      let '(self, ts) := CoreState_get_tasks_pending_cancellation status self in
      Ok (self, RespTasks ts)
  | UnstableDropEverything => Ok (CoreState_unstable_drop_everything self, RespNone)
  | PageOut configured =>
      let '(self, r) := CoreState_page_out configured self in Ok (self, RespPageOut r)
  | Rehydrate key value => Ok (CoreState_rehydrate self key value, RespNone)
  | GetMetrics => Ok (self, RespMetrics (CoreState_metrics self))
  | ExistingGraphKeys => Ok (self, RespKeys (CoreState_existing_graph_keys self))
  | CurrentGraphValues keys =>
      vs ← CoreState_current_graph_values self keys; Ok (self, RespValues vs)
  | MakeAvailableForAllocative => Ok (self, RespNone)
  end.

(** A run of the event loop, with the responses. *)
Fixpoint event_loop (self : CoreState)
  (messages : list ((TaskId → TaskStatus V) * StateRequest))
  : outcome (CoreState * list StateResponse) :=
  match messages with
  | [] => Ok (self, [])
  | (status, m) :: messages =>
      '(self, r) ← StateProcessor_iteration status self m;
      '(self, rs) ← event_loop self messages; Ok (self, r :: rs)
  end.

(** * Batches of invalidations *)

Definition update_key (u : DiceKey * ChangeType V * InvalidationSourcePriority) : DiceKey := u.1.1.

Definition update_pre_at (w : VersionNumber) (g : VersionedGraph V)
  (u : DiceKey * ChangeType V * InvalidationSourcePriority) : Prop :=
  let '(k, c, p) := u in invalidate_pre w (g !! k) (invalidate_kind c) p.

Lemma invalidate_pre_cut w (n n' : VersionedGraphNode V) kind p :
  node_cut w n n' → invalidate_pre w (Some n) kind p → invalidate_pre w (Some n') kind p.
Proof using Type.
  destruct n as [o|i|e], n' as [o'|i'|e']; cbn; try done; try (by intros [= ->]).
  intros (_ & _ & _ & Hh & _). unfold occ_history in *. by rewrite Hh.
Qed.

(** The other keys of a batch are still ready after one of them was invalidated. *)
Lemma update_pre_after w (g g' : VersionedGraph V) k kind b u :
  invalidate_post w g k kind (g', b) → update_key u ≠ k → update_pre_at w g u → update_pre_at w g' u.
Proof using Type.
  intros (_ & (n1 & _ & Hc) & _) Hne. destruct u as [[j c] p]. cbn in *. specialize (Hc j).
  rewrite lookup_insert_ne in Hc by done.
  destruct (g !! j) as [n|], (g' !! j) as [n'|]; try done. by apply invalidate_pre_cut.
Qed.

(** Induction over a batch, with a property of the changes done so far and the graph. *)
Lemma apply_updates_ind (w : VersionNumber)
  (P : list (DiceKey * ChangeType V * InvalidationSourcePriority) → VersionedGraph V → Prop)
  (updates done_ : list (DiceKey * ChangeType V * InvalidationSourcePriority)) g b :
  (∀ done0 k c p g0 g1 b1, P done0 g0 → graph_inv w g0 → k ∉ update_key <$> done0 →
     (k, c, p) ∈ updates → update_pre_at w g0 (k, c, p) →
     invalidate_post w g0 k (invalidate_kind c) (g1, b1) → P (done0 ++ [(k, c, p)]) g1) →
  P done_ g → graph_inv w g → NoDup (update_key <$> (done_ ++ updates)) →
  (∀ u, u ∈ updates → update_pre_at w g u) →
  returns (apply_updates g w updates b) (λ '(g', b'),
    P (done_ ++ updates) g' ∧ graph_inv w g' ∧
    (b' = false → b = false ∧ ((∀ u, u ∈ updates → u.1.2 ≠ TestingSoftDirty) → g' = g))).
Proof using Type.
  clear storage_page_out Error.
  revert done_ g b. induction updates as [|[[k c] p] updates IH]; intros done_ g b Hstep HP Hinv Hnd Hpre.
  - cbn. rewrite app_nil_r. done.
  - cbn [apply_updates]. rewrite fmap_app in Hnd. pose proof Hnd as Hnd'.
    apply NoDup_app in Hnd as (_ & Hdisj & Hnd2). cbn in Hnd2. apply NoDup_cons in Hnd2 as [Hk _].
    pose proof (Hpre (k, c, p) ltac:(set_solver)) as Hpk.
    eapply returns_bind; [by apply invalidate_spec|]. intros [g1 b1] Hpost.
    assert (k ∉ update_key <$> done_) as Hkd. { intros Hin. apply (Hdisj k Hin). cbn. set_solver. }
    eapply returns_mono; [apply (IH (done_ ++ [(k, c, p)]))|].
    + intros done0 k0 c0 p0 g0 g2 b2 ? ? ? Hin. apply Hstep; try done. set_solver.
    + eapply Hstep; try done. set_solver.
    + by destruct Hpost.
    + rewrite <- app_assoc. cbn [app]. by rewrite fmap_app.
    + intros u Hu. eapply update_pre_after; [exact Hpost| |apply Hpre; set_solver].
      intros <-. apply Hk. apply list_elem_of_fmap. by exists u.
    + intros [g' b'] (HP' & Hinv' & Hb'). rewrite <- app_assoc in HP'. cbn [app] in HP'.
      split_and!; [done|done|]. intros Hf. destruct (Hb' Hf) as [[-> ->]%orb_false_iff Hg'].
      split; [done|]. intros Hsoft. rewrite Hg' by (intros; apply Hsoft; set_solver).
      destruct Hpost as (_ & _ & _ & Hid). apply Hid; [done|].
      specialize (Hsoft (k, c, p) ltac:(set_solver)). cbn in Hsoft. by destruct c.
Qed.

(** * The invariant of the core state *)

(** With the live transactions [ts]: the tracker counts them, their caches exist, and the graph
    is well-formed at the current version. *)
Record core_inv (self : CoreState) (ts : list token) : Prop := {
  ci_tracker : tracker_inv (cs_version_tracker self) ts;
  ci_graph : graph_inv (CoreState_current_version self) (cs_graph self);
  ci_caches : ∀ v d, vt_active_versions (cs_version_tracker self) !! v = Some d →
    ∃ c, cs_caches self !! av_per_transaction_data d = Some c ∧ cache_wf c;
}.

Definition deps_ready (g : VersionedGraph V) (w v : VersionNumber) (k : DiceKey)
  (deps : SeriesParallelDeps) : Prop :=
  v ≤ w ∧ k ∉ SeriesParallelDeps_iter_keys deps ∧
  ∀ d, d ∈ SeriesParallelDeps_iter_keys deps →
    ∃ n, g !! d = Some n ∧ dep_usable v n ∧ fresh_at v n.

(** What the senders of requests guarantee. *)
Definition request_pre (self : CoreState) (ts : list token) (m : StateRequest) : Prop :=
  let cur := CoreState_current_version self in
  match m with
  | UpdateState changes =>
      NoDup (update_key <$> changes) ∧
      ∀ u, u ∈ changes → u.1.2 ≠ TestingSoftDirty ∧ update_pre_at (cur + 1) (cs_graph self) u
  | DropCtxAtVersion v => ∃ e, (v, e) ∈ ts
  | Rewind keys v epoch =>
      NoDup keys ∧ v = cur ∧ ∀ k, k ∈ keys →
        (∃ i, cs_graph self !! k = Some (InjectedNode i)) ∨
        invalidate_pre cur (cs_graph self !! k) ForceDirty PriorityNormal
  | UpdateComputed key epoch storage value deps _ =>
      storage = Normal ∧ deps_ready (cs_graph self) cur (gk_v key) (gk_k key) deps ∧
      update_pre EqualityBased deps (cs_graph self !! gk_k key)
  | UpdateMismatchAsUnchanged key epoch storage previous _ =>
      storage = Normal ∧
      deps_ready (cs_graph self) cur (gk_v key) (gk_k key) (mm_deps_to_validate previous) ∧
      update_pre (VersionBased (mm_prev_verified_version previous)) (mm_deps_to_validate previous)
        (cs_graph self !! gk_k key)
  | _ => True
  end.

(** The live transactions after a request. *)
Definition tokens_after (ts : list token) (m : StateRequest) (r : StateResponse) : list token :=
  match m, r with
  | CtxAtVersion v, RespCtx _ e _ => (v, e) :: ts
  | DropCtxAtVersion v, _ =>
      match find (λ t : token, t.1 =? v) ts with Some t => remove_one t ts | None => ts end
  | _, _ => ts
  end.

Lemma core_inv_new : core_inv CoreState_new [].
Proof.
  split; [apply tracker_inv_new|apply graph_inv_new|]. intros v d. cbn. by rewrite lookup_empty.
Qed.

Lemma update_state_inv self ts changes :
  core_inv self ts → request_pre self ts (UpdateState changes) →
  returns (CoreState_update_state self changes) (λ '(self', v),
    core_inv self' ts ∧ v = CoreState_current_version self' ∧
    CoreState_current_version self ≤ v ≤ CoreState_current_version self + 1).
Proof.
  intros [Ht Hg Hc] [Hnd Hpre]. unfold CoreState_update_state, VersionForWrites_version, VersionNumber_inc.
  set (cur := vt_current (cs_version_tracker self)).
  change (CoreState_current_version self) with cur in *.
  eapply returns_bind.
  { apply (apply_updates_ind (cur + 1) (λ _ _, True) changes []); try done.
    - eapply graph_inv_mono; [exact Hg|lia].
    - intros u Hu. by apply Hpre. }
  intros [g' b] (_ & Hg' & Hb). destruct b; cbn.
  - split_and!; [|done|unfold VersionNumber_inc; subst cur; lia..].
    split; [by destruct Ht|exact Hg'|exact Hc].
  - destruct (Hb eq_refl) as [_ Heq]. rewrite Heq by (intros u Hu; by apply Hpre).
    split_and!; [|done|subst cur; lia..]. by split.
Qed.

Lemma ctx_at_version_inv self ts v :
  core_inv self ts →
  let '(self', (e, c)) := CoreState_ctx_at_version self v in core_inv self' ((v, e) :: ts).
Proof.
  intros [Ht Hg Hc]. unfold CoreState_ctx_at_version.
  pose proof (at_spec _ _ v Ht) as Hat. unfold VersionTracker_at in *.
  destruct (vt_active_versions (cs_version_tracker self) !! v) as [d|] eqn:Ed; cbn in Hat |- *.
  - destruct Hat as (Hi & _). split; [exact Hi|exact Hg|]. cbn.
    intros v' d' [[<- <-]|[_ Hd']]%lookup_insert_Some; [by apply (Hc v d)|by apply (Hc v' d')].
  - destruct Hat as (Hi & _). split; [exact Hi|exact Hg|]. cbn.
    intros v' d' [[<- <-]|[_ Hd']]%lookup_insert_Some; cbn.
    + exists SharedCache_new. rewrite lookup_insert_eq. split; [done|apply cache_new_wf].
    + destruct (Hc v' d' Hd') as (c & Hc' & Wc).
      destruct (decide (vt_epoch_tracker (cs_version_tracker self) = av_per_transaction_data d')) as [E|Hne].
      * rewrite E, lookup_insert_eq. exists SharedCache_new. split; [done|apply cache_new_wf].
      * exists c. by rewrite lookup_insert_ne.
Qed.

Lemma cancel_pending_wf status c :
  cache_wf c → cache_wf (fst (SharedCache_cancel_pending_tasks (V:=V) status c)).
Proof. intros [H1 H2 H3]. by split. Qed.

Lemma drop_ctx_inv status self ts v e :
  core_inv self ts → (v, e) ∈ ts →
  returns (CoreState_drop_ctx_at_version status self v) (λ self', core_inv self' (remove_one (v, e) ts)).
Proof.
  intros [Ht Hg Hc] Hin. unfold CoreState_drop_ctx_at_version.
  pose proof (drop_spec _ _ v e Ht Hin) as H. pose proof (ti_tokens _ _ Ht v e Hin) as (d & Hd & He).
  unfold VersionTracker_drop_at_version in *. rewrite Hd in *. cbn [expect mbind outcome_bind] in *.
  destruct (1 <=? av_ref_count d); [|done]. cbn [rust_assert mbind outcome_bind] in *.
  destruct (Hc v d Hd) as (c & Hcd & Wc).
  destruct (av_ref_count d - 1 =? 0); cbn [mbind outcome_bind] in *; destruct H as (Hi & _).
  - cbn. rewrite Hcd. cbn. split; [exact Hi|exact Hg|]. cbn.
    intros v' d' [_ Hd']%lookup_delete_Some. destruct (Hc v' d' Hd') as (c' & Hc' & Wc').
    destruct (decide (av_per_transaction_data d = av_per_transaction_data d')) as [E|Hne].
    + rewrite E, lookup_insert_eq. eexists. split; [done|]. by apply (cancel_pending_wf status).
    + exists c'. by rewrite lookup_insert_ne.
  - cbn. split; [exact Hi|exact Hg|]. cbn.
    intros v' d' [[<- <-]|[_ Hd']]%lookup_insert_Some; [by exists c|by apply (Hc v' d')].
Qed.

Lemma rewind_keys_inv c g keys w n :
  cache_wf c → graph_inv w g → NoDup keys →
  (∀ k, k ∈ keys → (∃ i, g !! k = Some (InjectedNode i)) ∨
     invalidate_pre w (g !! k) ForceDirty PriorityNormal) →
  returns (rewind_keys c g keys w n) (λ '(c', g', _), cache_wf c' ∧ graph_inv w g').
Proof.
  revert c g n. induction keys as [|k keys IH]; intros c g n Wc Hg Hnd Hpre; cbn [rewind_keys]; [done|].
  apply NoDup_cons in Hnd as [Hk Hnd].
  assert (∀ n0, (∀ i, g !! k ≠ Some (InjectedNode i)) →
    returns ('(g, _) ← VersionedGraph_invalidate g (mkGraphKey w k) ForceDirty PriorityNormal;
             rewind_keys (SharedCache_rewind c k) g keys w n0)
      (λ '(c', g', _), cache_wf c' ∧ graph_inv w g')) as Hgo.
  { intros n0 Hni. destruct (Hpre k ltac:(set_solver)) as [[i Hi]|Hp]; [by destruct (Hni i)|].
    eapply returns_bind; [by apply invalidate_spec|]. intros [g1 b1] Hpost.
    pose proof Hpost as (Hg1 & (n1 & _ & Hc) & _).
    apply IH; [by apply cache_rewind_spec|done|done|].
    intros j Hj. assert (j ≠ k) as Hne by (intros ->; done).
    specialize (Hc j). rewrite lookup_insert_ne in Hc by done.
    destruct (Hpre j ltac:(set_solver)) as [[i Hi]|Hp'].
    - left. rewrite Hi in Hc. destruct (g1 !! j) as [nj|]; [|done]. cbn in Hc. subst nj. by eexists.
    - right. destruct (g !! j) as [nj|] eqn:Ej, (g1 !! j) as [nj'|]; try done.
      by eapply invalidate_pre_cut. }
  destruct (g !! k) as [[o|i|e]|] eqn:Ek; try (by apply Hgo).
  apply IH; [done..|]. intros j Hj. apply Hpre. set_solver.
Qed.

Lemma rewind_inv self ts keys v epoch :
  core_inv self ts → request_pre self ts (Rewind keys v epoch) →
  returns (CoreState_rewind self keys v epoch) (λ '(self', _), core_inv self' ts).
Proof.
  intros [Ht Hg Hc] (Hnd & -> & Hpre). unfold CoreState_rewind, VersionTracker_cache_if_relevant.
  destruct (vt_active_versions (cs_version_tracker self) !! CoreState_current_version self)
    as [d|] eqn:Ed; cbn; [|by split].
  destruct (av_version_epoch d =? epoch); cbn; [|by split].
  destruct (Hc _ d Ed) as (c & Hcd & Wc). rewrite Hcd. cbn [expect mbind outcome_bind].
  eapply returns_bind; [by apply rewind_keys_inv|]. intros [[c' g'] n] [Wc' Hg']. cbn.
  split; [exact Ht|exact Hg'|]. cbn. intros v' d' Hd'.
  destruct (decide (av_per_transaction_data d = av_per_transaction_data d')) as [E|Hne].
  - rewrite E, lookup_insert_eq. by eexists.
  - rewrite lookup_insert_ne by done. by apply (Hc v' d').
Qed.

Lemma update_computed_inv self ts key epoch x reuse deps paths :
  core_inv self ts → deps_ready (cs_graph self) (CoreState_current_version self) (gk_v key) (gk_k key) deps →
  update_pre reuse deps (cs_graph self !! gk_k key) →
  returns (CoreState_update_computed self key epoch Normal x reuse deps paths)
    (λ '(self', _), core_inv self' ts).
Proof.
  intros [Ht Hg Hc] (Hv & Hk & Hd) Hpre. unfold CoreState_update_computed.
  destruct (negb _); [by split|]. destruct (VersionTracker_should_reject _ _); [by split|].
  destruct key as [v k]. eapply returns_bind; [by apply (update_spec _ _ v k x reuse deps paths Hg Hv Hk Hd)|].
  intros [g' [cv b]] (Hg' & _). cbn. split; [exact Ht|exact Hg'|exact Hc].
Qed.

(** Changing where a value is kept does not concern the graph. *)
Lemma graph_inv_res w (g : VersionedGraph V) k o r :
  graph_inv w g → g !! k = Some (Occupied o) → (pv_value r ≠ None ∨ pv_data_key r ≠ None) →
  graph_inv w (<[k := Occupied (occ_set_res o r)]> g).
Proof.
  intros [G1 G2 G3] Ho Hr. split.
  - intros y n [[<- <-]|[_ Hn]]%lookup_insert_Some; [|by apply G1].
    destruct (G1 k _ Ho) as [(W1 & W2 & W3 & W4 & _) Hk]. split; [|exact Hk]. by split_and!.
  - intros d n j Hd Hj.
    assert (∃ n0, g !! d = Some n0 ∧ j ∈ node_rdeps n0) as (n0 & Hn0 & Hj0).
    { apply lookup_insert_Some in Hd as [[<- <-]|[_ Hd]]; eauto. }
    destruct (G2 d n0 j Hn0 Hj0) as [oj Hoj]. destruct (decide (j = k)) as [->|Hne].
    + rewrite lookup_insert_eq. by eexists.
    + rewrite lookup_insert_ne by done. by exists oj.
  - intros j oj Hj Hu HP d Hd.
    assert (∃ oj0, g !! j = Some (Occupied oj0) ∧ unbounded (occ_ranges oj0) ∧ d ∈ occ_deps oj0)
      as (oj0 & Hj0 & Hu0 & Hd0).
    { apply lookup_insert_Some in Hj as [[<- [= <-]]|[_ Hj]]; eauto. }
    destruct (G3 j oj0 Hj0 Hu0 HP d Hd0) as (n & Hn & Hl & Hjr).
    destruct (decide (d = k)) as [->|Hne].
    + rewrite lookup_insert_eq. rewrite Ho in Hn. injection Hn as <-. by eexists.
    + rewrite lookup_insert_ne by done. by exists n.
Qed.

Lemma page_out_nodes_inv w (g : VersionedGraph V) keys : graph_inv w g → graph_inv w (page_out_nodes g keys).1.
Proof.
  revert g. induction keys as [|k keys IH]; intros g Hg; cbn [page_out_nodes]; [done|].
  destruct (g !! k) as [n|] eqn:En; [|by apply IH].
  unfold page_out_node. destruct n as [o|i|e]; [|by rewrite insert_id; [apply IH|]..].
  assert (graph_inv w (<[k := Occupied o]> g)) as Hid by (by rewrite insert_id).
  destruct (pv_data_key (occ_res o)) as [dk|] eqn:Edk.
  - apply IH. destruct (PagableNodeValue_as_hydrated (occ_res o)); [|done].
    apply graph_inv_res; [done|done|by right].
  - destruct (PagableNodeValue_as_hydrated (occ_res o)) as [x|]; [|by apply IH].
    destruct (storage_page_out k x) as [err|[dk|]]; [done| |by apply IH].
    apply IH, graph_inv_res; [done|done|by right].
Qed.

(** The core state after a request keeps its invariant. *)
Lemma iteration_inv (status : TaskId → TaskStatus V) self ts m :
  core_inv self ts → request_pre self ts m →
  returns (StateProcessor_iteration status self m) (λ '(self', r),
    core_inv self' (tokens_after ts m r)).
Proof.
  intros Hinv Hpre. pose proof Hinv as [Ht Hg Hc].
  destruct m as [changes| |v|v|key|keys v epoch|key epoch st x deps paths|key epoch st prev paths
    | | |conf|k x| | |keys|]; cbn [StateProcessor_iteration].
  - eapply returns_bind; [by apply update_state_inv|]. intros [self' v] (H & _). exact H.
  - done.
  - pose proof (ctx_at_version_inv self ts v Hinv) as H.
    destruct (CoreState_ctx_at_version self v) as [self' [e c]]. exact H.
  - destruct Hpre as [e He]. unfold tokens_after.
    destruct (find (λ t : token, t.1 =? v) ts) as [[v' e']|] eqn:Ef.
    + apply find_some in Ef as [Hin Ev]. apply N.eqb_eq in Ev. cbn in Ev. subst v'.
      apply list_elem_of_In in Hin. eapply returns_bind; [by apply (drop_ctx_inv status self ts v e')|].
      intros self' H. exact H.
    + exfalso. apply list_elem_of_In in He. apply (find_none _ _ Ef) in He. cbn in He.
      by rewrite N.eqb_refl in He.
  - unfold CoreState_lookup_key. destruct (VersionTracker_should_reject _ _); [done|].
    destruct key as [v k]. unfold VersionedGraph_get. cbn [gk_k gk_v].
    eapply returns_bind with (P := λ _, True); [|done].
    destruct (cs_graph self !! k) as [[o|i|e]|] eqn:E; try done.
    apply (gi_wf _ _ _ Hg) in E as [W _]. cbn [VersionedGraphNode_at_version].
    eapply returns_mono; [by eapply (occ_at_version_spec o v)|done].
  - eapply returns_bind; [by apply (rewind_inv self ts keys v epoch)|]. intros [self' n] H. exact H.
  - destruct Hpre as (-> & Hd & Hp).
    eapply returns_bind; [by apply update_computed_inv|]. intros [self' r] H. exact H.
  - destruct Hpre as (-> & Hd & Hp).
    eapply returns_bind; [by apply update_computed_inv|]. intros [self' r] H. exact H.
  - done.
  - cbn. split; [by destruct Ht|apply graph_inv_new|exact Hc].
  - unfold CoreState_page_out. destruct conf; [|done].
    pose proof (page_out_nodes_inv _ (cs_graph self) (fst <$> map_to_list (cs_graph self)) Hg) as H.
    destruct (page_out_nodes _ _) as [g' r]. cbn. by split.
  - cbn. unfold CoreState_rehydrate. destruct (cs_graph self !! k) as [[o|i|e]|] eqn:E; try done.
    split; [exact Ht| |exact Hc]. apply graph_inv_res; [done|done|by left].
  - done.
  - done.
  - eapply returns_bind with (P := λ _, True); [|done].
    induction keys as [|k keys IH]; cbn [CoreState_current_graph_values]; [done|].
    eapply returns_bind with (P := λ _, True).
    + unfold current_graph_value. destruct (cs_graph self !! k) as [n|] eqn:E; [|done].
      eapply returns_bind with (P := λ _, True); [|done].
      destruct n as [o|i|e]; try done. apply (gi_wf _ _ _ Hg) in E as [W _].
      eapply returns_mono; [by eapply (occ_at_version_spec o)|done].
    + intros a _. eapply returns_bind; [exact (IH I)|done].
  - done.
Qed.

(** A run of requests, each satisfying its precondition when it is handled. *)
Inductive requests_ok : CoreState → list token → list ((TaskId → TaskStatus V) * StateRequest) → Prop :=
| requests_nil self ts : requests_ok self ts []
| requests_cons self ts status m ms :
    request_pre self ts m →
    (∀ self' r, StateProcessor_iteration status self m = Ok (self', r) →
       requests_ok self' (tokens_after ts m r) ms) →
    requests_ok self ts ((status, m) :: ms).

(** C26. Starting from the empty core state, the message loop handles any
    sequence of requests whose senders keep their side of the contract without a panic, and in
    the state it reaches the version tracker counts the live transactions, every active version
    has its cache, and the graph satisfies its invariant at the current version. *)
Theorem core_state_never_panics (ms : list ((TaskId → TaskStatus V) * StateRequest)) :
  requests_ok CoreState_new [] ms →
  ∃ self rs ts, event_loop CoreState_new ms = Ok (self, rs) ∧ core_inv self ts ∧
    length rs = length ms.
Proof.
  assert (∀ self ts, core_inv self ts → requests_ok self ts ms →
    returns (event_loop self ms) (λ '(self', rs),
      (∃ ts', core_inv self' ts') ∧ length rs = length ms)) as H.
  { induction ms as [|[status m] ms' IH]; intros self ts Hinv Hok.
    - cbn. split; [by exists ts|done].
    - inversion_clear Hok as [|????? Hpre Hnext]. cbn [event_loop].
      pose proof (iteration_inv status self ts m Hinv Hpre) as ([self1 r] & E & Hinv1)%returns_Ok.
      rewrite E. cbn [mbind outcome_bind].
      eapply returns_bind; [apply (IH self1 _ Hinv1); by apply Hnext|].
      intros [self2 rs] [Hts Hl]. cbn. split; [done|by rewrite Hl]. }
  intros Hok. pose proof (H _ _ core_inv_new Hok) as ([self rs] & E & (ts & Hinv) & Hl)%returns_Ok.
  by exists self, rs, ts.
Qed.

End CoreState.
Global Arguments CoreState : clear implicits.
Global Arguments StateRequest : clear implicits.
Global Arguments StateResponse : clear implicits.

(** Inject key 1, open a transaction, compute key 2 from it, and look it up. *)
Lemma core_state_never_panics_witness :
  let _ := N_value in
  let idle := λ _ : TaskId, TaskPending (V:=N) in
  ∃ self rs ts,
    event_loop (λ (_ : DiceKey) (_ : N), inr (A:=unit) None) CoreState_new
      [(idle, UpdateState [(1, ChangeUpdateValue 10 Injected, PriorityNormal)]);
       (idle, CtxAtVersion 1);
       (idle, UpdateComputed (mkGraphKey 1 2) 0 Normal 11 (SPOne 1) TrackedInvalidationPaths_clean);
       (idle, LookupKey (mkGraphKey 1 2))] = Ok (self, rs) ∧ core_inv self ts ∧ length rs = 4%nat.
Proof.
  intros D idle.
  destruct (core_state_never_panics (V:=N) (λ (_ : DiceKey) (_ : N), inr (A:=unit) None)
      [(idle, UpdateState [(1, ChangeUpdateValue 10 Injected, PriorityNormal)]);
       (idle, CtxAtVersion 1);
       (idle, UpdateComputed (mkGraphKey 1 2) 0 Normal 11 (SPOne 1) TrackedInvalidationPaths_clean);
       (idle, LookupKey (mkGraphKey 1 2))]) as (self & rs & ts & E & Hinv & Hl).
  - apply requests_cons.
    { split; [apply (bool_decide_unpack _); vm_compute; exact I|].
      intros u Hu. apply list_elem_of_singleton in Hu as ->. split; [discriminate|exact I]. }
    intros s1 r1 E1. vm_compute in E1. injection E1 as <- <-.
    apply requests_cons; [exact I|]. intros s2 r2 E2. vm_compute in E2. injection E2 as <- <-.
    apply requests_cons.
    { split; [reflexivity|]. split; [|exact I]. split; [vm_compute; discriminate|].
      split; [apply (bool_decide_unpack _); vm_compute; exact I|].
      intros d Hd. apply list_elem_of_singleton in Hd as ->. eexists. split; [vm_compute; reflexivity|].
      split; [|exact I]. do 2 eexists. split; [apply list_elem_of_here|]. vm_compute. discriminate. }
    intros s3 r3 E3. vm_compute in E3. injection E3 as <- <-.
    apply requests_cons; [exact I|]. intros s4 r4 E4. apply requests_nil.
  - exists self, rs, ts. split; [exact E|]. split; [exact Hinv|exact Hl].
Defined.
