(* ===== verification/Soundness.v ===== *)
(** Soundness of the incremental engine.

    The values that computing from scratch would give are a ghost function [sem] of the version
    and the key, with the dependencies [sdeps] that computation would record.  Computations are
    deterministic: if the dependencies of a key agree at two versions and the key was not
    force-dirtied in between then its value and its dependencies agree.  The theorem shows that
    the core state of [core/internals.rs], driven by commits, by correct computations and by
    successful dependency checks within the contract of [request_pre] and [allowed] (no rewinds,
    no clearing, fresh dependencies), only ever serves values equal to [sem]. *)
From S2P Require Import Prelude Versions Values SPDeps LazyDeps Nodes Graph SharedCache.
From S2P Require Import VersionTracker KeyIndex Transaction CoreState.
Local Open Scope N_scope.
Local Open Scope dice_scope.

Section Soundness.
Context {V : Type} `{!DiceValueDyn V}.

(** Equality of values is the user's. *)
Definition eqv (x y : V) : Prop := value_equality x y = true.
Local Infix "≡ᵥ" := eqv (at level 70).

(** * The reference semantics *)

Record semantics := mkSemantics {
  injected_key : DiceKey → bool;
  sem : VersionNumber → DiceKey → V;
  sdeps : VersionNumber → DiceKey → SeriesParallelDeps;
  dirtied : VersionNumber → DiceKey → Prop;
  rank : VersionNumber → DiceKey → nat;
}.

(** The keys a computation of [k] at [v] reads. *)
Definition reads (S : semantics) (v : VersionNumber) (k : DiceKey) : list DiceKey :=
  SeriesParallelDeps_iter_keys (sdeps S v k).

(** No force-dirtying of [k] separates the versions. *)
Definition undirtied (S : semantics) (k : DiceKey) (u v : VersionNumber) : Prop :=
  ∀ c, dirtied S c k → c ≤ u ↔ c ≤ v.

Record semantics_ok (S : semantics) : Prop := {
  so_equiv : Equivalence eqv;
  so_deterministic : ∀ u v k, injected_key S k = false → undirtied S k u v →
    (∀ d, d ∈ reads S v k → sem S u d ≡ᵥ sem S v d) →
    sem S u k ≡ᵥ sem S v k ∧ sdeps S u k = sdeps S v k;
  so_start : ∀ k, ¬ dirtied S VersionNumber_ZERO k;
  so_acyclic : ∀ v k d, d ∈ reads S v k → (rank S v d < rank S v k)%nat;
}.

Context (S : semantics) (HS : semantics_ok S).
Local Existing Instance so_equiv.

Lemma eqv_refl x : x ≡ᵥ x.
Proof. apply (so_equiv _ HS). Qed.
Lemma eqv_sym x y : x ≡ᵥ y → y ≡ᵥ x.
Proof. apply (so_equiv _ HS). Qed.
Lemma eqv_trans x y z : x ≡ᵥ y → y ≡ᵥ z → x ≡ᵥ z.
Proof. apply (so_equiv _ HS). Qed.

(** * The soundness invariant *)

(** At all its verified versions up to [w] the key has one value, the stored one, and the
    stored dependencies. *)
Definition ranges_sound (w : VersionNumber) (k : DiceKey) (l : VersionRanges)
  (value : option V) (deps : SeriesParallelDeps) : Prop :=
  ∀ v, v ≤ w → v ∈ᵣ l →
    (∀ x, value = Some x → x ≡ᵥ sem S v k) ∧ deps = sdeps S v k ∧
    ∀ u, u ≤ w → u ∈ᵣ l → sem S u k ≡ᵥ sem S v k.

(** Every force-dirtying up to [w] is in the history. *)
Definition history_complete (w : VersionNumber) (k : DiceKey) (h : ForceDirtyHistory) : Prop :=
  ∀ c, c ≤ w → dirtied S c k → c ∈ dirties h.

Definition node_sound (w : VersionNumber) (k : DiceKey) (n : VersionedGraphNode V) : Prop :=
  match n with
  | Occupied o =>
      injected_key S k = false ∧
      ranges_sound w k (occ_ranges o) (pv_value (occ_res o)) (md_deps (occ_metadata o)) ∧
      (w + 1 ∈ᵣ occ_ranges o → w ∈ᵣ occ_ranges o) ∧
      history_complete w k (occ_history o)
  | InjectedNode i =>
      injected_key S k = true ∧
      ∀ v k1 d, v ≤ w → current_at (inj_values i) v = Some (k1, d) → inj_value d ≡ᵥ sem S v k
  | Vacant e => injected_key S k = false ∧ history_complete w k (vac_dirtied_history e)
  end.

Record sound (w : VersionNumber) (g : VersionedGraph V) : Prop := {
  s_graph : graph_inv w g;
  s_node : ∀ k n, g !! k = Some n → node_sound w k n;
  s_none : ∀ k c, g !! k = None → c ≤ w → ¬ dirtied S c k;
}.

Lemma node_sound_strip w k n n' : strip n = strip n' → node_sound w k n ↔ node_sound w k n'.
Proof.
  destruct n as [[k1 r [d rd rg h] p]|[k1 vs rd p]|e], n' as [[k' r' [d' rd' rg' h'] p']|[k' vs' rd' p']|e'];
    cbn; intros [=]; subst; done.
Qed.

Lemma ranges_sound_mono w k l l' value value' deps :
  ranges_sound w k l value deps → (∀ u, u ≤ w → u ∈ᵣ l' → u ∈ᵣ l) →
  (∀ x, value' = Some x → value = Some x) → ranges_sound w k l' value' deps.
Proof.
  intros H Hsub Hv v Hle Hin. destruct (H v Hle (Hsub v Hle Hin)) as (H1 & H2 & H3).
  split_and!; [auto|done|]. intros u Hu Hin'. apply H3; auto.
Qed.

(** ** Computed ranges are sound *)

(** A dependency known to agree at two versions has equal values there. *)
Lemma dep_valid_sem w d n v u :
  node_wf w n → node_sound w d n → v ≤ w → u ≤ w → dep_valid v n u → sem S u d ≡ᵥ sem S v d.
Proof.
  destruct n as [o|i|e]; cbn; [| |done].
  - intros _ (_ & H & _) Hv Hu [Hvo Huo]. by apply (H v Hv Hvo).
  - intros [[W _] _] (_ & H) Hv Hu (k1 & dd & E & Hin).
    destruct (data_at_spec _ _ _ _ W E) as (_ & _ & _ & _ & Hall). specialize (Hall u Hin).
    eapply eqv_trans; [apply eqv_sym, (H u k1 dd Hu Hall)|by apply (H v k1 dd)].
Qed.

Lemma dep_valid_tail w d n v :
  node_wf w n → node_sound w d n → dep_valid v n (w + 1) → dep_valid v n w.
Proof.
  destruct n as [o|i|e]; cbn; [| |done].
  - intros _ (_ & _ & Ht & _) [Hv Hw]. auto.
  - intros [[W _] Hle] _ (k1 & dd & E & Hin). exists k1, dd. split; [done|].
    destruct (injected_valid_shape _ _ _ _ W E) as [Hk [Ev|(k' & d' & Hk' & Ev)]]; rewrite Ev in *;
      apply in_ranges_singleton in Hin as [Hb He]; apply in_ranges_singleton; split; cbn in *.
    + by apply Hle in Hk.
    + done.
    + by apply Hle in Hk.
    + apply Hle in Hk'. lia.
Qed.

Lemma computed_sound w g v k h valid l :
  sound w g → v ≤ w → injected_key S k = false →
  (∀ d, d ∈ reads S v k → ∃ n, g !! d = Some n) →
  (∀ u, u ∈ᵣ valid ↔ deps_agree g v (reads S v k) u) →
  history_complete w k h → (∀ d, d ∈ dirties h → d ≤ w) → computed_ranges h v valid l →
  (∀ u, u ≤ w → u ∈ᵣ l → sem S u k ≡ᵥ sem S v k ∧ sdeps S u k = sdeps S v k) ∧
  (w + 1 ∈ᵣ l → w ∈ᵣ l).
Proof.
  intros [Hg Hn _] Hv Hk Hex Hval Hh Hle [_ Hl]. split.
  - intros u Hu [[Hd He]| ->]%Hl; [|split; [apply eqv_refl|done]].
    apply Hval in Hd. apply (so_deterministic _ HS); [done| |].
    + intros c Hc. destruct (N.le_gt_cases c w) as [Hcw|Hcw]; [by apply He, Hh|]. lia.
    + intros d Hin. destruct (Hex d Hin) as [n Hdn]. destruct (gi_wf _ _ _ Hg _ _ Hdn) as [Wn _].
      by eapply (dep_valid_sem w d n); eauto.
  - intros [[Hd He]|?]%Hl; [|lia]. apply Hl. left. split.
    + apply Hval. apply Hval in Hd. intros d n Hin Hdn. destruct (gi_wf _ _ _ Hg _ _ Hdn) as [Wn _].
      eapply dep_valid_tail; eauto.
    + intros c Hc. rewrite <- (He c Hc). pose proof (Hle c Hc). lia.
Qed.

(** ** Recording a correct computation *)

(** What makes a reuse of the stored entry legitimate: the value and the dependencies of the
    checked version are those of the computed one, and the entry is in memory. *)
Definition reuse_ok (w : VersionNumber) (g : VersionedGraph V) (v : VersionNumber) (k : DiceKey)
  (reuse : ValueReusable) : Prop :=
  match reuse with
  | EqualityBased => True
  | VersionBased p => p ≤ w ∧ sem S p k ≡ᵥ sem S v k ∧ sdeps S p k = sdeps S v k ∧
      ∀ o, g !! k = Some (Occupied o) → p ∈ᵣ occ_ranges o → pv_value (occ_res o) ≠ None
  end.

Lemma reuse_update_pre w g v k reuse :
  sound w g → injected_key S k = false → reuse_ok w g v k reuse →
  update_pre reuse (sdeps S v k) (g !! k).
Proof.
  intros Hs Hi Hr. destruct (g !! k) as [n|] eqn:E; [|done].
  pose proof (s_node _ _ Hs k n E) as Hn. destruct n as [o|i|e]; cbn in Hn; [| |done].
  - cbn. destruct reuse as [|p]; [done|]. intros Hp. destruct Hr as (Hpw & _ & <- & Hh).
    destruct Hn as (_ & H & _). split; [by apply (H p)|by apply Hh].
  - destruct Hn as [Ht _]. congruence.
Qed.

(** The stored entry after the update. *)
Lemma stored_sound w v k x reuse g l old cv b o' :
  v ≤ w → injected_key S k = false → x ≡ᵥ sem S v k →
  (∀ o, old = Some (Occupied o) → node_sound w k (Occupied o)) →
  (∀ o, old = Some (Occupied o) → reused reuse x (sdeps S v k) o → reuse_ok w g v k reuse) →
  history_complete w k (prior_history old) →
  (∀ u, u ≤ w → u ∈ᵣ l → sem S u k ≡ᵥ sem S v k ∧ sdeps S u k = sdeps S v k) →
  (w + 1 ∈ᵣ l → w ∈ᵣ l) → v ∈ᵣ l →
  stored_after v k x reuse (sdeps S v k) l old cv b o' →
  node_sound w k (Occupied o') ∧
  ∃ y, cv_value cv = MaybePresent y ∧ ∀ u, u ≤ w → u ∈ᵣ cv_valid cv → y ≡ᵥ sem S u k.
Proof.
  intros Hv Hi Hx Hold Hro Hh Hl Htail Hvl
    [(o & -> & Hre & Eres & Edeps & _ & Ehist & _ & Hr & Ecv & _ & y & Hy & Ey)|(Ecv & Eval & _ & Hcase)].
  - destruct (Hold o eq_refl) as (_ & Hso & Hto & Hho). specialize (Hro o eq_refl Hre).
    (* the stored value and dependencies are those at [v] *)
    assert (y ≡ᵥ sem S v k ∧ md_deps (occ_metadata o) = sdeps S v k ∧
            ∀ u, u ≤ w → u ∈ᵣ occ_ranges o → sem S u k ≡ᵥ sem S v k) as (Hyv & Hdv & Hov).
    { destruct reuse as [|p]; cbn in Hre, Hro.
      - destruct Hre as (Hd & y' & Hy' & Heq). rewrite Hy in Hy'. injection Hy' as <-.
        assert (y ≡ᵥ sem S v k) as Hyv by (eapply eqv_trans; [apply eqv_sym, Heq|exact Hx]).
        split_and!; [done|done|]. intros u Hu Hin. destruct (Hso u Hu Hin) as (H1 & _).
        eapply eqv_trans; [apply eqv_sym, (H1 y Hy)|exact Hyv].
      - destruct Hro as (Hp & Hsp & Hdp & _). destruct (Hso p Hp Hre) as (H1 & H2 & H3).
        split_and!; [eapply eqv_trans; [by apply H1|done]|congruence|].
        intros u Hu Hin. eapply eqv_trans; [by apply H3|done]. }
    assert (∀ u, u ≤ w → u ∈ᵣ occ_ranges o' → sem S u k ≡ᵥ sem S v k ∧ sdeps S u k = sdeps S v k) as Hall.
    { intros u Hu [Hin|Hin]%Hr; [|by apply Hl]. split; [by apply Hov|].
      destruct (Hso u Hu Hin) as (_ & H2 & _). congruence. }
    split.
    + cbn. split_and!; [done| | |by rewrite Ehist].
      * intros u Hu Hin. destruct (Hall u Hu Hin) as [Hsu Hdu]. rewrite Eres, Edeps, Hdu. split_and!; [|done|].
        -- intros z Hz. rewrite Hy in Hz. injection Hz as <-. eapply eqv_trans; [exact Hyv|by apply eqv_sym].
        -- intros u' Hu' Hin'. eapply eqv_trans; [by apply (Hall u')|by apply eqv_sym].
      * rewrite !Hr. intros [?|?]; auto.
    + exists y. split; [done|]. rewrite Ecv. intros u Hu Hin.
      eapply eqv_trans; [exact Hyv|]. by apply eqv_sym, Hall.
  - split; [|exists x; split; [done|]; rewrite Eval; intros u Hu Hin; eapply eqv_trans; [exact Hx|];
             by apply eqv_sym, Hl].
    destruct Hcase as [[[p' ->] _]|[Ho _]]; [|by apply Hold].
    cbn. split_and!; [done| |done|done]. intros u Hu Hin. destruct (Hl u Hu Hin) as [Hsu Hdu].
    split_and!; [|done|].
    + intros z [= <-]. eapply eqv_trans; [exact Hx|by apply eqv_sym].
    + intros u' Hu' Hin'. eapply eqv_trans; [by apply (Hl u')|by apply eqv_sym].
Qed.

Lemma update_sound w g v k x reuse paths :
  sound w g → injected_key S k = false → x ≡ᵥ sem S v k → deps_ready g w v k (sdeps S v k) →
  reuse_ok w g v k reuse →
  returns (VersionedGraph_update g (mkGraphKey v k) x reuse (sdeps S v k) Normal paths)
    (λ '(g', (cv, _)), sound w g' ∧
       ∃ y, cv_value cv = MaybePresent y ∧ y ≡ᵥ sem S v k ∧ v ∈ᵣ cv_valid cv ∧
       ∀ u, u ≤ w → u ∈ᵣ cv_valid cv → y ≡ᵥ sem S u k).
Proof.
  intros Hs Hi Hx (Hv & Hk & Hd) Hr. pose proof Hs as [Hg Hn Hnone].
  eapply returns_mono; [apply (update_spec w g v k x reuse); try done; by eapply reuse_update_pre|].
  intros [g' [cv b]] (Hg' & g1 & valid & l & o' & Hgrown & Hval & Hl & Hst & ->).
  assert (∀ n1, g1 !! k = Some n1 → node_sound w k n1 ∧ node_wf w n1) as Hk1.
  { intros n1 Hn1. destruct (grown_some _ _ _ _ _ _ _ Hgrown Hn1) as (n & Hn0 & Hstr & _).
    split; [by apply (node_sound_strip _ _ _ _ Hstr), Hn|].
    apply (strip_fields _ _ Hstr). by apply (gi_wf _ _ _ Hg) in Hn0 as [? _]. }
  assert (history_complete w k (prior_history (g1 !! k)) ∧
          ∀ d, d ∈ dirties (prior_history (g1 !! k)) → d ≤ w) as [Hh Hle].
  { destruct (g1 !! k) as [[o|i|e]|] eqn:E.
    - destruct (Hk1 _ eq_refl) as [(_ & _ & _ & ?) (_ & _ & _ & ? & _)]. done.
    - destruct (Hk1 _ eq_refl) as [[? _] _]. congruence.
    - destruct (Hk1 _ eq_refl) as [[_ ?] [_ ?]]. done.
    - specialize (Hgrown k). rewrite E in Hgrown. destruct (g !! k) eqn:Ek; [done|].
      split; [|cbn; set_solver]. intros c Hc Hdc. by destruct (Hnone k c Ek Hc). }
  destruct (computed_sound w g v k (prior_history (g1 !! k)) valid l Hs Hv Hi) as [Hsl Htl]; try done.
  { intros d Hin. destruct (Hd d Hin) as (n & ? & _). by exists n. }
  assert (v ∈ᵣ l) as Hvl by (apply Hl; by right).
  destruct (stored_sound w v k x reuse g l (g1 !! k) cv b o') as [Ho' (y & Hy & Hyu)]; try done.
  { intros o Ho. by apply Hk1. }
  split.
  - split; [done| |].
    + intros j n [[<- <-]|[Hne Hj]]%lookup_insert_Some; [done|].
      destruct (grown_some _ _ _ _ _ _ _ Hgrown Hj) as (n0 & Hn0 & Hstr & _).
      by apply (node_sound_strip _ _ _ _ Hstr), Hn.
    + intros j c [Hj Hne]%lookup_insert_None. specialize (Hgrown j). rewrite Hj in Hgrown.
      destruct (g !! j) eqn:Ej; [done|]. by apply Hnone.
  - exists y. assert (v ∈ᵣ cv_valid cv) as Hvc.
    { destruct Hst as [(o & _ & _ & _ & _ & _ & _ & _ & Hr' & -> & _)|(_ & -> & _)]; [apply Hr'; by right|done]. }
    split_and!; [done|by apply Hyu|done|done].
Qed.

(** ** Committing a batch of changes *)

Local Notation change := (DiceKey * ChangeType V * InvalidationSourcePriority)%type.

(** The changes respect the kind of their keys. *)
Record changes_typed (changes : list change) : Prop := {
  ct_update : ∀ k x s p, (k, ChangeUpdateValue x s, p) ∈ changes → s = Injected ∧ injected_key S k = true;
  ct_soft : ∀ k p, (k, TestingSoftDirty, p) ∉ changes;
  ct_invalidate : ∀ k p, (k, ChangeInvalidate, p) ∈ changes → injected_key S k = false;
}.

(** What a commit at version [w] says about the reference semantics: the changed injected keys
    take their new values, the others keep theirs, and only keys changed without a value are
    dirtied. *)
Record commit_ok (w : VersionNumber) (changes : list change) : Prop := {
  co_dirtied : ∀ k, dirtied S w k → ∃ p, (k, ChangeInvalidate, p) ∈ changes;
  co_update : ∀ k x s p, (k, ChangeUpdateValue x s, p) ∈ changes → x ≡ᵥ sem S w k;
  co_unchanged : ∀ k, injected_key S k = true → k ∉ update_key <$> changes →
    sem S (w - 1) k ≡ᵥ sem S w k;
}.

(** How the entry of one key has changed during a batch. *)
Definition batch_entry (w : VersionNumber) (done_ : list change) (k : DiceKey)
  (old new : option (VersionedGraphNode V)) : Prop :=
  match old, new with
  | Some (Occupied o), Some (Occupied o') =>
      occ_res o' = occ_res o ∧ md_deps (occ_metadata o') = md_deps (occ_metadata o) ∧
      (occ_ranges o' = occ_ranges o ∨ ∀ u, u ∈ᵣ occ_ranges o' ↔ u ∈ᵣ occ_ranges o ∧ u < w) ∧
      (∀ c, c ∈ dirties (occ_history o) → c ∈ dirties (occ_history o')) ∧
      ∀ p, (k, ChangeInvalidate, p) ∈ done_ →
        w ∈ dirties (occ_history o') ∧ all_before w (occ_ranges o')
  | Some (InjectedNode i), Some (InjectedNode i') =>
      (inj_values i' = inj_values i ∧
       ∀ x s p, (k, ChangeUpdateValue x s, p) ∈ done_ →
         ∃ k0 d, last (inj_values i) = Some (k0, d) ∧ inj_value d ≡ᵥ x) ∨
      ∃ x s p, (k, ChangeUpdateValue x s, p) ∈ done_ ∧
        keyed (inj_values i') = keyed (inj_values i) ++ [(w, x)] ∧ lazy_data (inj_rdeps i') = []
  | Some (Vacant e), Some (Vacant e') =>
      (∀ c, c ∈ dirties (vac_dirtied_history e) → c ∈ dirties (vac_dirtied_history e')) ∧
      ∀ p, (k, ChangeInvalidate, p) ∈ done_ → w ∈ dirties (vac_dirtied_history e')
  | None, None => k ∉ update_key <$> done_
  | None, Some (Vacant e') =>
      w ∈ dirties (vac_dirtied_history e') ∧ ∃ p, (k, ChangeInvalidate, p) ∈ done_
  | None, Some (InjectedNode i') =>
      ∃ x s p, (k, ChangeUpdateValue x s, p) ∈ done_ ∧
        keyed (inj_values i') = [(w, x)] ∧ lazy_data (inj_rdeps i') = []
  | _, _ => False
  end.

Lemma change_key k c p (l : list change) : (k, c, p) ∈ l → k ∈ update_key <$> l.
Proof. intros H. apply list_elem_of_fmap. by exists (k, c, p). Qed.

Lemma batch_entry_start w k n :
  batch_entry w [] k n n.
Proof.
  destruct n as [[o|i|e]|]; cbn; [| | |set_solver].
  - split_and!; auto. set_solver.
  - left. split; [done|]. set_solver.
  - split; [done|]. set_solver.
Qed.

Lemma batch_entry_cut w done_ k old n n' :
  batch_entry w done_ k old (Some n) → node_cut w n n' → batch_entry w done_ k old (Some n').
Proof.
  destruct n as [o|i|e], n' as [o'|i'|e']; cbn [node_cut]; try done; try (by intros ? [= ->]).
  destruct old as [[o0|i0|e0]|]; try done. cbn. unfold occ_history, occ_ranges.
  intros (A1 & A2 & A3 & A4 & A5) (_ & B1 & B2 & B3 & _ & B5). unfold occ_history, occ_ranges in *.
  rewrite B3. split_and!; [congruence|congruence| |done|].
  - destruct B5 as [->|B5]; [done|]. right. intros u. rewrite B5.
    destruct A3 as [->|A3]; [done|]. rewrite A3. tauto.
  - intros p Hp. destruct (A5 p Hp) as [Hw Hb]. split; [done|].
    destruct B5 as [->|B5]; [done|]. intros u Hu. by apply B5 in Hu as [_ ?].
Qed.

Lemma batch_entry_other w done_ k old new u :
  batch_entry w done_ k old new → update_key u ≠ k → batch_entry w (done_ ++ [u]) k old new.
Proof.
  intros H Hne. assert (∀ c p, (k, c, p) ∈ done_ ++ [u] ↔ (k, c, p) ∈ done_) as Hin.
  { intros c p. rewrite elem_of_app, list_elem_of_singleton. split; [|tauto].
    intros [?| <-]; [done|]. by destruct Hne. }
  destruct old as [[o|i|e]|], new as [[o'|i'|e']|]; cbn in H |- *; try done.
  - destruct H as (H1 & H2 & H3 & H4 & H5). split_and!; try done. intros p Hp. apply (H5 p), Hin, Hp.
  - destruct H as [[H1 H2]|(x & s & p & H1 & H2)].
    + left. split; [done|]. intros x s p Hp. apply (H2 x s p), Hin, Hp.
    + right. exists x, s, p. split; [by apply Hin|done].
  - destruct H as [H1 H2]. split; [done|]. intros p Hp. apply (H2 p), Hin, Hp.
  - destruct H as (x & s & p & H1 & H2). exists x, s, p. split; [by apply Hin|done].
  - destruct H as [H1 [p Hp]]. split; [done|]. exists p. by apply Hin.
  - rewrite fmap_app. intros [?|Hk]%elem_of_app; [done|]. apply Hne. cbn in Hk. set_solver.
Qed.

Lemma batch_entry_key w done_ k c p old new n1 :
  batch_entry w done_ k old new → k ∉ update_key <$> done_ → (∀ n, old = Some n → node_sound (w - 1) k n) →
  (∀ x s, c = ChangeUpdateValue x s → s = Injected ∧ injected_key S k = true) →
  c ≠ TestingSoftDirty → (c = ChangeInvalidate → injected_key S k = false) →
  entry_after w (invalidate_kind c) new n1 →
  batch_entry w (done_ ++ [(k, c, p)]) k old (Some n1).
Proof.
  intros H Hk Hold Hup Hsoft Hinv HA.
  assert (∀ c' p', (k, c', p') ∈ done_ ++ [(k, c, p)] ↔ c' = c ∧ p' = p) as Hin.
  { intros c' p'. rewrite elem_of_app, list_elem_of_singleton. split; [|intros [-> ->]; by right].
    intros [Hd|[=]]; [|done]. exfalso. apply Hk. by eapply change_key. }
  assert (∀ c' p', (k, c', p') ∈ done_ → False) as Hnone.
  { intros c' p' Hd. apply Hk. by eapply change_key. }
  destruct old as [[o|i|e]|], new as [[o'|i'|e']|]; cbn in H; try done;
    try (by destruct H as (? & ? & ? & Hd & _); destruct (Hnone _ _ Hd));
    try (by destruct H as (? & ? & Hd); destruct (Hnone _ _ Hd)).
  - pose proof (Hold _ eq_refl) as (Hi & _). destruct c as [|x s|]; cbn in HA; [| |done].
    2:{ destruct (Hup x s eq_refl). congruence. }
    destruct HA as (o1 & -> & E1 & E2 & E3 & E4). destruct H as (H1 & H2 & H3 & H4 & _).
    cbn. split_and!; [congruence|congruence| | |].
    + right. intros u. rewrite E3. destruct H3 as [->|H3]; [done|]. rewrite H3. tauto.
    + intros c Hc. apply E4. left. by apply H4.
    + intros p' _. split; [apply E4; by right|]. intros u Hu. by apply E3 in Hu as [_ ?].
  - pose proof (Hold _ eq_refl) as (Hi & _). destruct c as [|x s|]; cbn in HA; [done| |done].
    destruct H as [[H _]|(x' & s' & p' & Hd & _)]; [|by destruct (Hnone _ _ Hd)].
    destruct HA as (i1 & k0 & d & -> & El & Hd). rewrite H in El.
    destruct (value_equality (inj_value d) x) eqn:Eq; cbn.
    + subst i1. left. split; [done|]. intros x' s' p' [[= -> ->] ->]%Hin. by exists k0, d.
    + right. exists x, s, p. split; [by apply Hin|]. by rewrite <- H.
  - pose proof (Hold _ eq_refl) as (Hi & _). destruct c as [|x s|]; cbn in HA; [| |done].
    2:{ destruct (Hup x s eq_refl). congruence. }
    destruct HA as (e1 & -> & E). destruct H as (H1 & _). cbn. split.
    + intros c Hc. apply E. left. by apply H1.
    + intros p' _. apply E. by right.
  - destruct c as [|x s|]; cbn in HA; [| |done].
    + destruct HA as (e & -> & E). cbn. rewrite E. split; [set_solver|]. exists p. by apply Hin.
    + destruct (Hup x s eq_refl) as [-> _]. destruct HA as (i & -> & E1 & E2). cbn.
      exists x, Injected, p. split; [by apply Hin|done].
Qed.

Lemma keyed_same_current (m m' : list (VersionNumber * InjectedNodeData V)) K v k d :
  keyed m' = keyed m ++ K → (∀ k x, (k, x) ∈ K → v < k) → current_at m' v = Some (k, d) →
  ∃ d0, current_at m v = Some (k, d0) ∧ inj_value d0 = inj_value d.
Proof.
  intros E HK Hc. assert (current_at (keyed m') v = Some (k, inj_value d)) as H
    by (by rewrite current_at_keyed, Hc).
  rewrite E in H. unfold current_at in H. rewrite filter_app in H.
  assert (filter (λ kd : VersionNumber * V, kd.1 ≤ v) K = []) as E0.
  { clear -HK. induction K as [|[k x] K IH]; [done|]. rewrite filter_cons_False.
    - apply IH. intros k' x' Hin. apply (HK k' x'). set_solver.
    - cbn. pose proof (HK k x ltac:(set_solver)). lia. }
  rewrite E0, app_nil_r in H. fold (current_at (keyed m) v) in H. rewrite current_at_keyed in H.
  destruct (current_at m v) as [[k0 d0]|] eqn:E1; [|done]. cbn in H. injection H as -> Hd. by exists d0.
Qed.

(** The current value of an injected node is the last one. *)
Lemma current_at_end w (i : InjectedGraphNode V) k d :
  node_wf w (InjectedNode i) → last (inj_values i) = Some (k, d) → ∀ v, w ≤ v →
  current_at (inj_values i) v = Some (k, d).
Proof.
  intros [_ Hle] El v Hv. eapply current_at_last; [exact El|].
  assert (k ≤ w); [|lia]. apply (Hle k d). apply last_Some in El as [m ->]. set_solver.
Qed.

Section Commit.
Context (cur w : VersionNumber) (g0 g : VersionedGraph V) (changes : list change).
Hypothesis (Hw : w = cur + 1) (Hs : sound cur g0) (Hg : graph_inv w g)
  (Hb : ∀ k, batch_entry w changes k (g0 !! k) (g !! k))
  (Hct : changes_typed changes) (Hc : commit_ok w changes).

Local Lemma w_prev : w - 1 = cur.
Proof. lia. Qed.
Local Lemma cur_lt : cur < w.
Proof. lia. Qed.
Local Lemma below_w v : v ≤ w → v ≤ cur ∨ v = w.
Proof. lia. Qed.

(** An injected node that the batch left alone has the same value before and after. *)
Lemma commit_injected k i i' :
  g0 !! k = Some (InjectedNode i) → g !! k = Some (InjectedNode i') →
  inj_values i' = inj_values i → sem S cur k ≡ᵥ sem S w k.
Proof.
  intros H0 H1 Hv. pose proof (Hb k) as Hk. rewrite H0, H1 in Hk.
  destruct (s_node _ _ Hs _ _ H0) as [Hi Hsem].
  destruct (decide (k ∈ update_key <$> changes)) as [Hin|Hnin].
  2:{ rewrite <- w_prev. by apply (co_unchanged _ _ Hc). }
  apply list_elem_of_fmap in Hin as ([[k' c] p] & Ek & Hin). cbn in Ek. subst k'.
  destruct Hk as [[_ Hd]|(x & s & p' & _ & E & _)].
  2:{ exfalso. rewrite Hv in E. apply (f_equal length) in E. rewrite length_app in E. cbn in E. lia. }
  destruct c as [|x s|].
  - apply (ct_invalidate _ Hct) in Hin. congruence.
  - destruct (Hd x s p Hin) as (k0 & d & El & Heq).
    destruct (gi_wf _ _ _ (s_graph _ _ Hs) _ _ H0) as [W _].
    pose proof (current_at_end _ _ _ _ W El cur ltac:(done)) as Ecur.
    pose proof (co_update _ _ Hc k x s p Hin) as Hx.
    eapply eqv_trans; [apply eqv_sym, (Hsem cur k0 d ltac:(done) Ecur)|].
    by eapply eqv_trans.
  - by destruct (ct_soft _ Hct k p).
Qed.

(** A computed node that is still valid at [w] has its value and dependencies unchanged. *)
Lemma commit_occupied k o' :
  g !! k = Some (Occupied o') → w ∈ᵣ occ_ranges o' →
  sem S w k ≡ᵥ sem S cur k ∧ sdeps S w k = sdeps S cur k.
Proof.
  remember (rank S cur k) as n eqn:En. revert k o' En.
  induction (lt_wf n) as [n _ IH]. intros k o' -> Ho' Hin'.
  pose proof (Hb k) as Hk. rewrite Ho' in Hk.
  destruct (g0 !! k) as [[o|i|e]|] eqn:E0; try done. destruct Hk as (_ & Ed & Hr & _ & Hinv).
  assert (occ_ranges o' = occ_ranges o) as Er.
  { destruct Hr as [?|Hr]; [done|]. pose proof (proj2 (proj1 (Hr w) Hin')). lia. }
  destruct (s_node _ _ Hs _ _ E0) as (Hi & Hrs & Ht & _). rewrite Er in Hin'.
  assert (cur ∈ᵣ occ_ranges o) as Hcur by (by (apply Ht; congruence)).
  destruct (Hrs cur ltac:(done) Hcur) as (_ & Hd & _).
  destruct (gi_wf _ _ _ (s_graph _ _ Hs) _ _ E0) as [(Wr & Sr & _) _].
  assert (unbounded (occ_ranges o')) as Hub.
  { rewrite Er. apply (unbounded_settled cur); [done|done|congruence]. }
  apply (so_deterministic _ HS); [done| |].
  - intros c Hdc. destruct (decide (c = w)) as [->|Hne]; [|lia].
    apply (co_dirtied _ _ Hc) in Hdc as [p Hp]. destruct (Hinv p Hp) as [_ Hbef].
    rewrite <- Er in Hin'. apply Hbef in Hin'. lia.
  - intros d Hin.
    assert (d ∈ occ_deps o') as Hdo by (unfold occ_deps; rewrite Ed, Hd; exact Hin).
    destruct (gi_deps _ _ _ Hg k o' Ho' Hub ltac:(set_solver) d Hdo) as (nd & Hnd & Hl & Hrd).
    destruct nd as [od|id|ed]; [| |done].
    + apply (IH (rank S cur d)) with od; [by apply (so_acyclic _ HS)|done|done|].
      pose proof (Hb d) as Hk2. rewrite Hnd in Hk2.
      destruct (g0 !! d) as [[o2| |]|] eqn:E2; try done. destruct Hk2 as (_ & _ & Hr2 & _).
      destruct (gi_wf _ _ _ Hg _ _ Hnd) as [(Wd & _) _].
      destruct Hr2 as [Hr2|Hr2].
      * destruct (gi_wf _ _ _ (s_graph _ _ Hs) _ _ E2) as [(W2 & S2 & _) _]. cbn in Hl.
        rewrite Hr2 in *. rewrite Hw. by apply (unbounded_settled cur).
      * exfalso. eapply unbounded_not_before; [exact Wd|exact Hl|]. intros u Hu. by apply Hr2 in Hu as [_ ?].
    + pose proof (Hb d) as Hk2. rewrite Hnd in Hk2. cbn in Hrd.
      destruct (g0 !! d) as [[|i2|]|] eqn:E2; try done.
      * apply eqv_sym. destruct Hk2 as [[Hv _]|(x & s & p & _ & _ & E)]; [by eapply commit_injected|].
        rewrite E in Hrd. set_solver.
      * destruct Hk2 as (x & s & p & _ & _ & E). rewrite E in Hrd. set_solver.
Qed.

Lemma commit_injected_sound k i :
  injected_key S k = true → g !! k = Some (InjectedNode i) → node_sound w k (InjectedNode i).
Proof.
  intros Hi Hn. split; [done|]. intros v k1 d Hv Hcur. pose proof (Hb k) as Hk. rewrite Hn in Hk.
  pose proof cur_lt as Hlt. destruct (g0 !! k) as [[|i0|]|] eqn:E0; try done.
  - destruct (s_node _ _ Hs _ _ E0) as [_ Hsem].
    destruct Hk as [[Ev Hd]|(x & s & p & Hin & E & _)].
    + destruct (below_w v Hv) as [Hle| ->]; [rewrite Ev in Hcur; by apply (Hsem v k1 d)|].
      assert (sem S cur k ≡ᵥ sem S w k) as Heq by (by eapply commit_injected).
      destruct (last (inj_values i0)) as [[k0 d0]|] eqn:El.
      2:{ apply last_None in El. rewrite Ev, El in Hcur. done. }
      destruct (gi_wf _ _ _ (s_graph _ _ Hs) _ _ E0) as [W _].
      rewrite Ev, (current_at_end _ _ _ _ W El) in Hcur by lia. injection Hcur as <- <-.
      eapply eqv_trans; [|exact Heq]. apply (Hsem cur k0 d0 ltac:(done)).
      by apply (current_at_end _ _ _ _ W El).
    + destruct (below_w v Hv) as [Hle| ->].
      * destruct (keyed_same_current _ _ _ v k1 d E) as (d0 & H0 & <-); [|done|by apply (Hsem v k1 d0)].
        intros k' y' [= -> ->]%list_elem_of_singleton. lia.
      * assert (current_at (keyed (inj_values i)) w = Some (k1, inj_value d)) as H
          by (by rewrite current_at_keyed, Hcur).
        rewrite E, current_at_snoc, decide_True in H by done. injection H as <- <-.
        by apply (co_update _ _ Hc) in Hin.
  - destruct Hk as (x & s & p & Hin & E & _).
    assert (current_at (keyed (inj_values i)) v = Some (k1, inj_value d)) as H
      by (by rewrite current_at_keyed, Hcur).
    rewrite E in H. change [(w, x)] with ([] ++ [(w, x)]) in H. rewrite current_at_snoc in H.
    case_decide as Hwv; [|done]. injection H as <- <-. assert (v = w) as -> by lia.
    by apply (co_update _ _ Hc) in Hin.
Qed.

Lemma commit_ranges_sound k o o' :
  g0 !! k = Some (Occupied o) → g !! k = Some (Occupied o') →
  ranges_sound w k (occ_ranges o') (pv_value (occ_res o')) (md_deps (occ_metadata o')).
Proof.
  intros E0 Hn. pose proof (Hb k) as Hk. rewrite E0, Hn in Hk.
  destruct Hk as (E1 & E2 & Hr & _), (s_node _ _ Hs _ _ E0) as (Hi & Hrs & Ht & _).
  rewrite E1, E2.
  assert (∀ v, v ≤ w → v ∈ᵣ occ_ranges o' → ∃ v', v' ≤ cur ∧ v' ∈ᵣ occ_ranges o ∧
            sem S v k ≡ᵥ sem S v' k ∧ sdeps S v k = sdeps S v' k) as Hback.
  { intros v Hv Hin.
    assert (v ∈ᵣ occ_ranges o) as Hino by (destruct Hr as [<-|Hr]; [done|by apply Hr in Hin as [? _]]).
    destruct (below_w v Hv) as [Hle| ->]; [exists v; split_and!; [done|done|apply eqv_refl|done]|].
    exists cur. rewrite Hw in Hino. split; [done|]. split; [by apply Ht|]. by eapply commit_occupied. }
  intros v Hv Hin. destruct (Hback v Hv Hin) as (v' & Hle & Hin' & Hsv & Hdv).
  destruct (Hrs v' Hle Hin') as (A1 & A2 & A3). split_and!.
  - intros x Hx. eapply eqv_trans; [by apply A1|by apply eqv_sym].
  - congruence.
  - intros u Hu Hinu. destruct (Hback u Hu Hinu) as (u' & Hleu & Hinu' & Hsu & _).
    eapply eqv_trans; [exact Hsu|]. eapply eqv_trans; [by apply A3|by apply eqv_sym].
Qed.

Lemma commit_node k n : g !! k = Some n → node_sound w k n.
Proof.
  intros Hn. pose proof (Hb k) as Hk. rewrite Hn in Hk. pose proof cur_lt as Hlt.
  destruct (g0 !! k) as [n0|] eqn:E0.
  - pose proof (s_node _ _ Hs _ _ E0) as Hn0. destruct (gi_wf _ _ _ (s_graph _ _ Hs) _ _ E0) as [W0 _].
    destruct n0 as [o|i|e], n as [o'|i'|e']; try done.
    + pose proof (commit_ranges_sound k o o' E0 Hn) as Hrs'.
      destruct Hk as (_ & _ & Hr & Hh & Hd), Hn0 as (Hi & _ & _ & Hco). cbn. split_and!; [done|done| |].
      * destruct Hr as [->|Hr]; [|intros [_ ?]%Hr; lia].
        destruct W0 as (_ & S0 & _). rewrite Hw. by apply S0; lia.
      * intros c Hle Hdc. destruct (below_w c Hle) as [Hle'| ->]; [by apply Hh, Hco|].
        apply (co_dirtied _ _ Hc) in Hdc as [p Hp]. by apply (Hd p).
    + apply commit_injected_sound; [|done]. by destruct Hn0.
    + destruct Hk as [Hh Hd], Hn0 as [Hi Hco]. split; [done|].
      intros c Hle Hdc. destruct (below_w c Hle) as [Hle'| ->]; [by apply Hh, Hco|].
      apply (co_dirtied _ _ Hc) in Hdc as [p Hp]. by apply (Hd p).
  - destruct n as [o'|i'|e']; [done| |].
    + apply commit_injected_sound; [|done]. destruct Hk as (x & s & p & Hin & _).
      by apply (ct_update _ Hct) in Hin as (_ & ?).
    + destruct Hk as [Hd [p Hp]]. split; [by apply (ct_invalidate _ Hct) in Hp|].
      intros c Hle Hdc. destruct (below_w c Hle) as [Hle'| ->]; [|done].
      by destruct (s_none _ _ Hs k c E0 Hle').
Qed.

Lemma commit_sound : sound w g.
Proof.
  split; [exact Hg|exact commit_node|].
  intros k c Hn Hle Hdc. pose proof (Hb k) as Hk. rewrite Hn in Hk.
  destruct (g0 !! k) as [[]|] eqn:E0; try done.
  destruct (below_w c Hle) as [Hle'| ->]; [by apply (s_none _ _ Hs k c E0 Hle')|].
  apply (co_dirtied _ _ Hc) in Hdc as [p Hp]. by eapply Hk, change_key.
Qed.

End Commit.

Lemma batch_sound cur g changes :
  sound cur g → NoDup (update_key <$> changes) → (∀ u, u ∈ changes → update_pre_at (cur + 1) g u) →
  changes_typed changes →
  returns (apply_updates g (cur + 1) changes false) (λ '(g', b),
    (b = true → commit_ok (cur + 1) changes → sound (cur + 1) g') ∧ (b = false → g' = g)).
Proof.
  intros Hs Hnd Hpre Hct.
  set (P := λ (done_ : list change) (g' : VersionedGraph V), ∀ k, batch_entry (cur + 1) done_ k (g !! k) (g' !! k)).
  eapply returns_mono; [apply (apply_updates_ind (cur + 1) P changes [] g)|].
  - intros done0 k c p g0 g1 b1 HP _ Hk Hin _ (_ & (n1 & HA & Hcut) & _) j.
    specialize (Hcut j). destruct (decide (j = k)) as [->|Hne].
    + rewrite lookup_insert_eq in Hcut. destruct (g1 !! k) as [n'|]; [|done].
      eapply batch_entry_cut; [|exact Hcut].
      eapply batch_entry_key; [apply HP|done| | | | |exact HA].
      * intros n Hn. replace (cur + 1 - 1) with cur by lia. by apply (s_node _ _ Hs).
      * intros x s ->. by apply (ct_update _ Hct k x s p).
      * intros ->. by apply (ct_soft _ Hct k p).
      * intros ->. by apply (ct_invalidate _ Hct k p).
    + rewrite lookup_insert_ne in Hcut by done. apply batch_entry_other; [|cbn; congruence].
      specialize (HP j). destruct (g0 !! j) as [n|], (g1 !! j) as [n'|]; try done.
      by eapply batch_entry_cut.
  - intros k. apply batch_entry_start.
  - eapply graph_inv_mono; [apply (s_graph _ _ Hs)|lia].
  - done.
  - done.
  - intros [g' b] (HP & Hg' & Hb). split.
    + intros _ Hc. by eapply commit_sound.
    + intros ->. destruct (Hb eq_refl) as [_ Heq]. apply Heq. intros [[k c] p] Hin. cbn. intros ->.
      by apply (ct_soft _ Hct k p).
Qed.

(** ** Changing where values are kept *)

Lemma sound_res w g k o r :
  sound w g → g !! k = Some (Occupied o) → (pv_value r ≠ None ∨ pv_data_key r ≠ None) →
  (∀ x, pv_value r = Some x → ∀ v, v ≤ w → v ∈ᵣ occ_ranges o → x ≡ᵥ sem S v k) →
  sound w (<[k := Occupied (occ_set_res o r)]> g).
Proof.
  intros [Hg Hn H0] Ho Hr Hv. split; [by apply graph_inv_res| |].
  - intros j n [[<- <-]|[_ Hj]]%lookup_insert_Some; [|by apply Hn].
    destruct (Hn _ _ Ho) as (Hi & Hrs & Ht & Hc). split_and!; [done| |done|done].
    intros v Hle Hin. destruct (Hrs v Hle Hin) as (_ & H2 & H3). split_and!; [|done|done].
    intros x Hx. by apply (Hv x).
  - intros j c [Hj _]%lookup_insert_None. by apply H0.
Qed.

Context {Error : Type} (storage_page_out : DiceKey → V → Error + option DataKey).

Lemma page_out_nodes_sound w g keys :
  sound w g → sound w (page_out_nodes storage_page_out g keys).1.
Proof.
  revert g. induction keys as [|k keys IH]; intros g Hs; cbn [page_out_nodes]; [done|].
  destruct (g !! k) as [n|] eqn:En; [|by apply IH].
  unfold page_out_node. destruct n as [o|i|e]; [|by rewrite insert_id; [apply IH|]..].
  assert (sound w (<[k := Occupied o]> g)) as Hid by (by rewrite insert_id).
  assert (∀ dk, sound w (<[k := Occupied (OccupiedGraphNode_set_paged_out o dk)]> g)) as Hpo.
  { intros dk. apply sound_res; [done|done|by right|done]. }
  destruct (pv_data_key (occ_res o)) as [dk|] eqn:Edk.
  - apply IH. by destruct (PagableNodeValue_as_hydrated (occ_res o)).
  - destruct (PagableNodeValue_as_hydrated (occ_res o)) as [x|]; [|by apply IH].
    destruct (storage_page_out k x) as [err|[dk|]]; [done|by apply IH|by apply IH].
Qed.

(** * The engine as a transition system *)

(** Lookups that were answered, with the versions they were for. *)
Local Notation answers := (list (VersionedGraphKey * VersionedGraphResult V))%type.

(** The mismatch was handed out by a lookup of [key]; a paged-out one was completed with the
    value the store holds, which is the one of the verified version. *)
Definition handed_out (handed : answers) (key : VersionedGraphKey)
  (m : VersionedGraphResultMismatch V) : Prop :=
  (key, CheckDeps m) ∈ handed ∨
  ∃ pm, (key, CheckDepsPagedOut pm) ∈ handed ∧
    mm_prev_verified_version m = pmm_prev_verified_version pm ∧
    mm_deps_to_validate m = pmm_deps_to_validate pm ∧
    mm_entry m ≡ᵥ sem S (pmm_prev_verified_version pm) (gk_k key).

(** What ties a request to the reference semantics: commits move to the next version of the
    semantics, computations are correct, an entry is reported unchanged only after its
    dependencies were found equal, and a rehydrated value is that of the entry it is stored in.
    Rewinds and clearing the graph, which change the meaning of existing versions, are left
    out. *)
Definition allowed (self : CoreState V) (handed : answers) (m : StateRequest V) : Prop :=
  let cur := CoreState_current_version self in
  match m with
  | UpdateState changes =>
      changes_typed changes ∧
      ∀ self' v, CoreState_update_state self changes = Ok (self', v) → v = cur + 1 →
        commit_ok (cur + 1) changes
  | LookupKey key => gk_v key ≤ cur
  | UpdateComputed key _ _ value deps _ =>
      injected_key S (gk_k key) = false ∧ value ≡ᵥ sem S (gk_v key) (gk_k key) ∧
      deps = sdeps S (gk_v key) (gk_k key)
  | UpdateMismatchAsUnchanged key _ _ previous _ =>
      handed_out handed key previous ∧
      ∀ d, d ∈ SeriesParallelDeps_iter_keys (mm_deps_to_validate previous) →
        sem S (gk_v key) d ≡ᵥ sem S (mm_prev_verified_version previous) d
  | Rehydrate key value =>
      ∀ o, cs_graph self !! key = Some (Occupied o) →
        ∀ v, v ≤ cur → v ∈ᵣ occ_ranges o → value ≡ᵥ sem S v key
  | Rewind _ _ _ | UnstableDropEverything => False
  | _ => True
  end.

Definition handed_after (handed : answers) (m : StateRequest V) (r : StateResponse V Error)
  : answers :=
  match m, r with LookupKey key, RespLookup res => (key, res) :: handed | _, _ => handed end.

(** The states the message loop reaches by requests that keep the contract of the senders
    ([request_pre]) and of the reference semantics ([allowed]): in particular there are no
    rewinds and no clearing, the dependencies of a recorded computation are fresh at its version
    ([fresh_at]), and a rehydrated value is that of the entry it is stored in.  Without one of
    these the conclusions below fail: see the examples of the file Findings. *)
Inductive reachable : CoreState V → list token → answers → Prop :=
| reachable_new : reachable CoreState_new [] []
| reachable_step status self ts handed m self' r :
    reachable self ts handed → request_pre self ts m → allowed self handed m →
    StateProcessor_iteration storage_page_out status self m = Ok (self', r) →
    reachable self' (tokens_after ts m r) (handed_after handed m r).

(** What a lookup of [k] at [v] promises, the current version being [w]. *)
Definition match_sound (w : VersionNumber) (key : VersionedGraphKey) (r : VersionedGraphResult V)
  : Prop :=
  let '(mkGraphKey v k) := key in
  match r with
  | Match cv => ∃ x, cv_value cv = MaybePresent x ∧ x ≡ᵥ sem S v k ∧ v ∈ᵣ cv_valid cv ∧
      ∀ u, u ≤ w → u ∈ᵣ cv_valid cv → x ≡ᵥ sem S u k
  | MatchPagedOut m => v ∈ᵣ pom_valid m ∧
      ∀ u, u ≤ w → u ∈ᵣ pom_valid m → sem S v k ≡ᵥ sem S u k
  | _ => True
  end.

(** The previous entry that a mismatch offers is the reference one, and no force-dirtying
    separates its version from the requested one. *)
Definition previous_sound (key : VersionedGraphKey) (r : VersionedGraphResult V) : Prop :=
  let '(mkGraphKey v k) := key in
  let reference p ds := injected_key S k = false ∧ p < v ∧ ds = sdeps S p k ∧ undirtied S k p v in
  match r with
  | CheckDeps (mkMismatch x p ds) => x ≡ᵥ sem S p k ∧ reference p ds
  | CheckDepsPagedOut (mkPagedOutMismatch _ p ds) => reference p ds
  | _ => True
  end.

Lemma get_sound w g v k :
  sound w g → v ≤ w → returns (VersionedGraph_get g (mkGraphKey v k)) (λ r,
    match_sound w (mkGraphKey v k) r ∧ previous_sound (mkGraphKey v k) r).
Proof.
  intros Hs Hv. unfold VersionedGraph_get. cbn [gk_k gk_v].
  destruct (g !! k) as [n|] eqn:E; [|done].
  destruct (gi_wf _ _ _ (s_graph _ _ Hs) _ _ E) as [W _]. pose proof (s_node _ _ Hs _ _ E) as Hn.
  destruct n as [o|i|e]; cbn [VersionedGraphNode_at_version]; [| |done].
  - eapply returns_mono; [by apply (occ_at_version_spec o v w)|].
    destruct Hn as (Hi & Hrs & _ & Hh).
    assert (∀ p, p < v → p ∈ᵣ occ_ranges o → same_epoch (occ_history o) p v →
              injected_key S k = false ∧ p < v ∧ md_deps (occ_metadata o) = sdeps S p k ∧
              undirtied S k p v) as Hprev.
    { intros p Hp Hin Hse. destruct (Hrs p ltac:(lia) Hin) as (_ & Hd & _). split_and!; try done.
      intros c Hdc. destruct (N.le_gt_cases c w) as [Hcw|Hcw]; [by apply Hse, Hh|lia]. }
    intros [cv|m|[x p ds]|[dk p ds]| |]; cbn.
    + intros (Hin & x & Hx & ->). split; [|done]. exists x. destruct (Hrs v Hv Hin) as (H1 & _ & H3).
      split_and!; [done|by apply H1|done|]. intros u Hu Hinu. by apply (Hrs u Hu Hinu).
    + intros (Hin & _ & _ & ->). split; [|done]. split; [done|]. intros u Hu Hinu.
      by apply (Hrs u Hu Hinu).
    + intros (_ & Hx & -> & (Hin & Hp & _) & Hse). split; [done|]. split; [|by apply Hprev].
      by apply (Hrs p ltac:(lia) Hin).
    + intros (_ & _ & _ & -> & (Hin & Hp & _) & Hse). split; [done|by apply Hprev].
    + done.
    + done.
  - unfold InjectedGraphNode_at_version. rewrite data_at_current.
    destruct Hn as [_ Hsem], W as [[W _] _].
    destruct (current_at (inj_values i) v) as [[k1 d]|] eqn:Ed; [|done].
    destruct (data_at_spec _ _ _ _ W Ed) as (_ & _ & Hin & _ & Hall). cbn. split; [|done].
    exists (inj_value d). split_and!; [done|by apply (Hsem v k1)|done|].
    intros u Hu Hinu. by apply (Hsem u k1), Hall.
Qed.

Definition engine_inv (self : CoreState V) (ts : list token) (handed : answers) : Prop :=
  core_inv self ts ∧ sound (CoreState_current_version self) (cs_graph self) ∧
  ∀ key r, (key, r) ∈ handed → previous_sound key r.


(** Recording a computed value, or a checked one, in a state of the engine. *)
Definition recorded_sound (w : VersionNumber) (key : VersionedGraphKey)
  (r : CancellationReason + DiceComputedValue V) : Prop :=
  match r with
  | inr cv => ∃ y, cv_value cv = MaybePresent y ∧ y ≡ᵥ sem S (gk_v key) (gk_k key) ∧
      gk_v key ∈ᵣ cv_valid cv ∧ ∀ u, u ≤ w → u ∈ᵣ cv_valid cv → y ≡ᵥ sem S u (gk_k key)
  | inl _ => True
  end.

Lemma update_computed_sound self key epoch x reuse paths :
  let w := CoreState_current_version self in
  sound w (cs_graph self) → injected_key S (gk_k key) = false →
  x ≡ᵥ sem S (gk_v key) (gk_k key) →
  deps_ready (cs_graph self) w (gk_v key) (gk_k key) (sdeps S (gk_v key) (gk_k key)) →
  reuse_ok w (cs_graph self) (gk_v key) (gk_k key) reuse →
  returns (CoreState_update_computed self key epoch Normal x reuse (sdeps S (gk_v key) (gk_k key)) paths)
    (λ '(self', r), CoreState_current_version self' = w ∧ sound w (cs_graph self') ∧
                    recorded_sound w key r).
Proof.
  intros w Hs Hi Hx Hd Hr. unfold CoreState_update_computed. destruct key as [v k]. cbn in *.
  destruct (negb _); [done|]. destruct (VersionTracker_should_reject _ _); [done|].
  eapply returns_bind; [by apply (update_sound w _ v k x reuse paths)|].
  intros [g' [cv b]] [Hs' H]. done.
Qed.

Lemma checked_sound w handed key m g :
  (∀ key r, (key, r) ∈ handed → previous_sound key r) → handed_out handed key m →
  gk_v key ≤ w →
  (∀ d, d ∈ SeriesParallelDeps_iter_keys (mm_deps_to_validate m) →
     sem S (gk_v key) d ≡ᵥ sem S (mm_prev_verified_version m) d) →
  update_pre (VersionBased (mm_prev_verified_version m)) (mm_deps_to_validate m) (g !! gk_k key) →
  injected_key S (gk_k key) = false ∧ mm_entry m ≡ᵥ sem S (gk_v key) (gk_k key) ∧
  mm_deps_to_validate m = sdeps S (gk_v key) (gk_k key) ∧
  reuse_ok w g (gk_v key) (gk_k key) (VersionBased (mm_prev_verified_version m)).
Proof.
  intros Hh Hm Hv Hagree Hpre. destruct key as [v k]. cbn in *. set (p := mm_prev_verified_version m) in *.
  assert (mm_entry m ≡ᵥ sem S p k ∧ injected_key S k = false ∧ p < v ∧
          mm_deps_to_validate m = sdeps S p k ∧ undirtied S k p v) as (Hx & Hi & Hp & Hds & Hu).
  { destruct Hm as [Hm|([dk p' ds] & Hm & Ep & Eds & Hx)].
    - specialize (Hh _ _ Hm). destruct m. exact Hh.
    - specialize (Hh _ _ Hm). cbn in *. subst p. rewrite Ep, Eds. by destruct Hh as (? & ? & ? & ?). }
  destruct (so_deterministic _ HS v p k Hi) as [Hsv Hdv].
  { intros c Hc. symmetry. by apply Hu. }
  { intros d Hd. apply Hagree. by rewrite Hds. }
  split; [done|]. split; [|split; [congruence|]].
  - eapply eqv_trans; [exact Hx|by apply eqv_sym].
  - split; [lia|]. split; [by apply eqv_sym|]. split; [done|]. intros o Ho Hin. rewrite Ho in Hpre. by apply Hpre.
Qed.

Lemma engine_inv_new : engine_inv CoreState_new [] [].
Proof.
  split; [apply core_inv_new|]. split; [|set_solver].
  split; [apply graph_inv_new|intros k n; unfold CoreState_new, VersionedGraph_new; cbn; by rewrite lookup_empty|].
  intros k c _ Hc Hd. change (c ≤ 0) in Hc. assert (c = 0) as -> by lia. by apply (so_start _ HS k).
Qed.

Lemma update_state_sound self ts handed changes :
  core_inv self ts → sound (CoreState_current_version self) (cs_graph self) →
  request_pre self ts (UpdateState changes) → allowed self handed (UpdateState changes) →
  returns (CoreState_update_state self changes) (λ '(self', v),
    sound (CoreState_current_version self') (cs_graph self')).
Proof.
  intros Hi Hs [Hnd Hpre] [Hct Hc].
  set (cur := CoreState_current_version self) in *.
  pose proof (batch_sound cur (cs_graph self) changes Hs Hnd (λ u Hu, proj2 (Hpre u Hu)) Hct) as H.
  unfold CoreState_update_state, VersionForWrites_version, VersionNumber_inc in *.
  change (vt_current (cs_version_tracker self)) with cur in *.
  apply returns_Ok in H as ([g' b] & E & Ht & Hf). rewrite E in *. cbn [mbind outcome_bind] in *.
  destruct b; cbn in *.
  - apply Ht; [done|]. by eapply Hc.
  - by rewrite Hf.
Qed.

Lemma same_graph_sound self self' :
  CoreState_current_version self' = CoreState_current_version self → cs_graph self' = cs_graph self →
  sound (CoreState_current_version self) (cs_graph self) →
  sound (CoreState_current_version self') (cs_graph self').
Proof. by intros -> ->. Qed.

Lemma drop_ctx_same status (self : CoreState V) v :
  match CoreState_drop_ctx_at_version status self v with
  | Ok self' => cs_graph self' = cs_graph self ∧
      CoreState_current_version self' = CoreState_current_version self
  | Panic => True
  end.
Proof.
  unfold CoreState_drop_ctx_at_version, VersionTracker_drop_at_version.
  destruct (vt_active_versions (cs_version_tracker self) !! v) as [d|]; [|done]. cbn.
  destruct (1 <=? av_ref_count d); [|done]. cbn. destruct (av_ref_count d - 1 =? 0); [|done]. cbn.
  by destruct (cs_caches self !! av_per_transaction_data d).
Qed.

(** What the response to a request promises. *)
Definition response_sound (w : VersionNumber) (m : StateRequest V) (r : StateResponse V Error) : Prop :=
  match m, r with
  | LookupKey key, RespLookup res => match_sound w key res ∧ previous_sound key res
  | UpdateComputed key _ _ _ _ _, RespComputed res
  | UpdateMismatchAsUnchanged key _ _ _ _, RespComputed res => recorded_sound w key res
  | _, _ => True
  end.

Lemma iteration_sound status self ts handed m :
  engine_inv self ts handed → request_pre self ts m → allowed self handed m →
  returns (StateProcessor_iteration storage_page_out status self m) (λ '(self', r),
    sound (CoreState_current_version self') (cs_graph self') ∧
    response_sound (CoreState_current_version self') m r).
Proof.
  intros (Hi & Hs & Hh) Hpre Hal.
  destruct m as [changes| |v|v|key|keys v epoch|key epoch st x deps paths|key epoch st prev paths
    | | |conf|k x| | |keys|]; cbn [StateProcessor_iteration]; try done.
  - eapply returns_bind; [by eapply update_state_sound|]. by intros [self' v].
  - unfold CoreState_ctx_at_version.
    assert (vt_current (VersionTracker_at (cs_version_tracker self) v).1
            = vt_current (cs_version_tracker self)) as Ec.
    { unfold VersionTracker_at. by destruct (vt_active_versions _ !! v). }
    destruct (VersionTracker_at (cs_version_tracker self) v) as [t [e c]]. cbn in *.
    split; [|done]. unfold CoreState_current_version, VersionTracker_current in *. cbn. by rewrite Ec.
  - pose proof (iteration_inv storage_page_out status self ts (DropCtxAtVersion v) Hi Hpre) as H.
    cbn [StateProcessor_iteration] in H. pose proof (drop_ctx_same status self v) as Hd.
    destruct (CoreState_drop_ctx_at_version status self v) as [self'|]; [|done].
    destruct Hd as [Eg Ev]. split; [by apply (same_graph_sound self)|done].
  - unfold CoreState_lookup_key. destruct key as [v k]. cbn [gk_v].
    destruct (VersionTracker_should_reject _ _); [by cbn|].
    eapply returns_bind; [by apply (get_sound _ _ v k Hs)|]. intros r Hr. done.
  - destruct Hpre as (-> & Hd & Hp), Hal as (Hik & Hx & ->).
    eapply returns_bind; [by apply update_computed_sound|].
    intros [self' r] (Ev & Hs' & Hr). cbn beta iota delta [returns]. rewrite Ev. done.
  - destruct Hpre as (-> & Hd & Hp), Hal as (Hm & Hag).
    destruct (checked_sound _ _ _ _ (cs_graph self) Hh Hm (proj1 Hd) Hag Hp) as (Hik & Hx & Eds & Hr).
    rewrite Eds in *.
    eapply returns_bind; [by apply update_computed_sound|].
    intros [self' r] (Ev & Hs' & Hr'). cbn beta iota delta [returns]. rewrite Ev. done.
  - unfold CoreState_page_out. destruct conf; [|done].
    pose proof (page_out_nodes_sound _ _ (fst <$> map_to_list (cs_graph self)) Hs) as H.
    by destruct (page_out_nodes _ _ _).
  - cbn. unfold CoreState_rehydrate. destruct (cs_graph self !! k) as [[o|i|e]|] eqn:E; try done.
    split; [|done]. apply sound_res; [done|done|by left|]. intros y [= <-]. by eapply Hal.
  - eapply returns_bind with (P := λ _, True); [|done].
    pose proof (iteration_inv storage_page_out status self ts (CurrentGraphValues keys) Hi Hpre) as H.
    cbn [StateProcessor_iteration] in H. by destruct (CoreState_current_graph_values self keys).
Qed.

Lemma reachable_inv self ts handed : reachable self ts handed → engine_inv self ts handed.
Proof.
  induction 1 as [|status self ts handed m self' r _ IH Hpre Hal E]; [apply engine_inv_new|].
  pose proof (iteration_inv storage_page_out status self ts m (proj1 IH) Hpre) as Hi.
  pose proof (iteration_sound status self ts handed m IH Hpre Hal) as Hr.
  rewrite E in Hi, Hr. destruct Hr as [Hs Hr]. split; [exact Hi|]. split; [exact Hs|].
  destruct IH as (_ & _ & Hh). intros key res Hin.
  destruct m, r; cbn in Hin; try (by apply Hh). apply elem_of_cons in Hin as [[= -> ->]|Hin]; [|by apply Hh].
  by destruct Hr.
Qed.

(** C1. In every state reached by requests that keep the contract ([reachable]: no
    rewinds, no clearing, correct computations over fresh dependencies, rehydration with the
    entry's own value), a lookup of any key at any existing version answers, and the answer is
    right: a match carries a value equal to what computing
    the key from scratch at that version gives, and at every existing version in the ranges
    returned with it; and a mismatch offers the value and the dependencies of an earlier version
    of a computed key that was not force-dirtied since. *)
Theorem lookup_sound self ts handed v k :
  reachable self ts handed → v ≤ CoreState_current_version self →
  ∃ r, CoreState_lookup_key self (mkGraphKey v k) = Ok r ∧
    match r with
    | Match cv => ∃ x, cv_value cv = MaybePresent x ∧ x ≡ᵥ sem S v k ∧ v ∈ᵣ cv_valid cv ∧
        ∀ u, u ≤ CoreState_current_version self → u ∈ᵣ cv_valid cv → x ≡ᵥ sem S u k
    | CheckDeps m => mm_prev_verified_version m < v ∧
        mm_entry m ≡ᵥ sem S (mm_prev_verified_version m) k ∧
        mm_deps_to_validate m = sdeps S (mm_prev_verified_version m) k ∧
        undirtied S k (mm_prev_verified_version m) v
    | _ => True
    end.
Proof.
  intros H Hv. destruct (reachable_inv _ _ _ H) as (_ & Hs & _). unfold CoreState_lookup_key. cbn [gk_v].
  destruct (VersionTracker_should_reject _ _); [by eexists|].
  pose proof (get_sound _ _ v k Hs Hv) as (r & E & Hm & Hp)%returns_Ok. exists r. split; [exact E|].
  destruct r as [cv| |[x p ds]| | |]; try done. by destruct Hp as (? & _ & ? & ? & ?).
Qed.


End Soundness.

(** A program with an injected key 1 and a computed key 2 that adds one to it. *)
Definition example_semantics : semantics (V:=N) :=
  let source v := if v <? 2 then 10 else 20 in
  mkSemantics (λ k, k =? 1)
    (λ v k, if k =? 1 then source v else if k =? 2 then source v + 1 else 0)
    (λ v k, if k =? 2 then SPOne 1 else SPNone)
    (λ _ _, False)
    (λ _ k, if k =? 2 then 1%nat else 0%nat).

Lemma example_semantics_ok : semantics_ok (DiceValueDyn0:=N_value) example_semantics.
Proof.
  split.
  - split.
    + intros x. apply N.eqb_refl.
    + intros x y H. apply N.eqb_eq in H as ->. apply N.eqb_refl.
    + intros x y z H1 H2. apply N.eqb_eq in H1 as ->. exact H2.
  - intros u v k Hi _ H. split; [|done]. cbn in *. rewrite Hi in *.
    destruct (N.eqb_spec k 2) as [->|Hne]; [|apply N.eqb_refl].
    specialize (H 1 ltac:(apply list_elem_of_here)). apply N.eqb_eq in H. cbn in H.
    apply N.eqb_eq. by rewrite H.
  - intros k [].
  - intros v k d. unfold reads. cbn. destruct (k =? 2); cbn; [|set_solver].
    intros ->%list_elem_of_singleton. cbn. lia.
Qed.

Definition example_store (_ : DiceKey) (_ : N) : unit + option DataKey := inr None.

(** Inject 10, compute key 2 at version 1, then inject 20. *)
Lemma example_reachable :
  let _ := N_value in
  ∃ self ts handed, reachable example_semantics example_store self ts handed ∧
    CoreState_current_version self = 2 ∧
    request_pre self ts (UpdateComputed (mkGraphKey 2 2) 1 Normal 21 (SPOne 1)
                           TrackedInvalidationPaths_clean).
Proof.
  intros D. set (idle := λ _ : TaskId, TaskPending (V:=N)).
  do 3 eexists. split.
  - eapply (reachable_step _ _ idle _ _ _ (UpdateState [(1, ChangeUpdateValue 20 Injected, PriorityNormal)])).
    + eapply (reachable_step _ _ idle _ _ _
                (UpdateComputed (mkGraphKey 1 2) 0 Normal 11 (SPOne 1) TrackedInvalidationPaths_clean)).
      * eapply (reachable_step _ _ idle _ _ _ (CtxAtVersion 1)).
        -- eapply (reachable_step _ _ idle _ _ _
                     (UpdateState [(1, ChangeUpdateValue 10 Injected, PriorityNormal)])).
           ++ apply reachable_new.
           ++ split; [apply (bool_decide_unpack _); vm_compute; exact I|].
              intros u ->%list_elem_of_singleton. split; [discriminate|exact I].
           ++ split.
              ** split; [|intros k p ?%list_elem_of_singleton; discriminate..].
                 intros k x s p [= -> -> -> ->]%list_elem_of_singleton. done.
              ** intros self' v _ _. split; [done| |].
                 --- intros k x s p [= -> -> -> ->]%list_elem_of_singleton. vm_compute. reflexivity.
                 --- intros k Hk%N.eqb_eq Hn. subst k. destruct Hn. apply list_elem_of_here.
           ++ vm_compute. reflexivity.
        -- exact I.
        -- exact I.
        -- vm_compute. reflexivity.
      * split; [reflexivity|]. split; [|exact I]. split; [vm_compute; discriminate|].
        split; [apply (bool_decide_unpack _); vm_compute; exact I|].
        intros d ->%list_elem_of_singleton. eexists. split; [vm_compute; reflexivity|].
        split; [|exact I]. do 2 eexists. split; [apply list_elem_of_here|]. vm_compute. discriminate.
      * split; [reflexivity|]. split; [vm_compute; reflexivity|reflexivity].
      * vm_compute. reflexivity.
    + split; [apply (bool_decide_unpack _); vm_compute; exact I|].
      intros u ->%list_elem_of_singleton. split; [discriminate|].
      intros k d Hin. vm_compute in Hin. apply list_elem_of_singleton in Hin as [= -> ->]. vm_compute. reflexivity.
    + split.
      * split; [|intros k p ?%list_elem_of_singleton; discriminate..].
        intros k x s p [= -> -> -> ->]%list_elem_of_singleton. done.
      * intros self' v _ _. split; [done| |].
        -- intros k x s p [= -> -> -> ->]%list_elem_of_singleton. vm_compute. reflexivity.
        -- intros k Hk%N.eqb_eq Hn. subst k. destruct Hn. apply list_elem_of_here.
    + vm_compute. reflexivity.
  - split; [vm_compute; reflexivity|].
    split; [reflexivity|]. split; [|exact I]. split; [vm_compute; discriminate|].
    split; [apply (bool_decide_unpack _); vm_compute; exact I|].
    intros d ->%list_elem_of_singleton. eexists. split; [vm_compute; reflexivity|].
    split; [|exact I]. do 2 eexists. split; [apply list_elem_of_here|]. vm_compute. discriminate.
Qed.

(** At version 2 the value 11 of version 1 is offered for checking; it is the reference one. *)
Lemma lookup_sound_witness :
  let _ := N_value in
  ∃ self ts handed, reachable example_semantics example_store self ts handed ∧
    ∃ r, CoreState_lookup_key self (mkGraphKey 2 2) = Ok r ∧
      match r with
      | Match cv => ∃ x, cv_value cv = MaybePresent x ∧ eqv x 21
      | CheckDeps m => mm_entry m = sem example_semantics (mm_prev_verified_version m) 2
      | _ => True
      end.
Proof.
  intros D. destruct example_reachable as (self & ts & handed & H & Hv & _).
  exists self, ts, handed. split; [exact H|].
  destruct (lookup_sound example_semantics example_semantics_ok example_store self ts handed 2 2 H)
    as (r & E & Hr).
  - rewrite Hv. apply N.le_refl.
  - exists r. split; [exact E|]. destruct r as [cv| |m| | |]; [| exact I| |exact I..].
    + destruct Hr as (x & Hx & He & _). exists x. split; [exact Hx|exact He].
    + destruct Hr as (_ & He & _). apply N.eqb_eq. exact He.
Defined.

