(* ===== verification/Findings.v ===== *)
(** Executions of the message loop of [core/internals.rs] that serve a value they should not.

    Each one leaves the contract of [request_pre] or [allowed] at the one point its comment
    names, and shows why the theorems of [CoreState] and [Soundness] need that clause. *)
From S2P Require Import Prelude Versions Values SPDeps LazyDeps Nodes Graph SharedCache.
From S2P Require Import VersionTracker KeyIndex Transaction CoreState.
Local Open Scope N_scope.
Local Open Scope dice_scope.

(** * Scripts *)

Definition script : Type := list ((TaskId → TaskStatus N) * StateRequest N).

(** Every value is written to the store under its key. *)
Definition store_all (k : DiceKey) (_ : N) : unit + option DataKey := inr (Some k).

Definition request (m : StateRequest N) : (TaskId → TaskStatus N) * StateRequest N :=
  (λ _, TaskPending, m).
Definition inject (k : DiceKey) (x : N) :=
  request (UpdateState [(k, ChangeUpdateValue x Injected, PriorityNormal)]).
Definition dirty (k : DiceKey) := request (UpdateState [(k, ChangeInvalidate, PriorityNormal)]).
Definition compute (v : VersionNumber) (e : VersionEpoch) (k : DiceKey) (x : N) (d : DiceKey) :=
  request (UpdateComputed (mkGraphKey v k) e Normal x (SPOne d) TrackedInvalidationPaths_clean).
Definition look (v : VersionNumber) (k : DiceKey) := request (LookupKey (mkGraphKey v k)).

(** What a lookup says, in short. *)
Inductive verdict := Serve (x : N) | PagedOut | Stale (x : N) (verified : VersionNumber) | Recompute.

Definition verdict_of (r : StateResponse N unit) : list verdict :=
  match r with
  | RespLookup (Match (mkComputed _ (MaybePresent x) _ _)) => [Serve x]
  | RespLookup (MatchPagedOut _) => [PagedOut]
  | RespLookup (CheckDeps m) => [Stale (mm_entry m) (mm_prev_verified_version m)]
  | RespLookup Compute => [Recompute]
  | _ => []
  end.

(** The answers to the lookups of a script. *)
Definition verdicts (s : script) : outcome (list verdict) :=
  '(_, rs) ← event_loop (DiceValueDyn0 := N_value) store_all CoreState_new s;
  Ok (mjoin (verdict_of <$> rs)).

(** * Executions *)

(** [NodeMetadata::should_add_rdep_at] records no reverse dependency when the last verified
    range of the dependency begins after the version of the computation, although the dependent
    inherits that range.  Key 1 depends on the injected key 0 and is verified at versions 1 and
    3 on; key 2, finishing at version 1, inherits both ranges without being registered; after 0
    is injected again at version 4, key 1 is stale there and key 2 is served. *)
Example rdep_missed_at_older_version :
  verdicts [inject 0 10; request (CtxAtVersion 1); inject 0 20; inject 0 10; request (CtxAtVersion 3);
            compute 1 0 1 100 0; compute 3 1 1 100 0; compute 1 0 2 100 1;
            inject 0 30; look 4 1; look 4 2]
  = Ok [Stale 100 3; Serve 100].
Proof. vm_compute. reflexivity. Qed.

(** [OccupiedGraphNode::force_dirty] reports no change when the version is already in the
    history, so a second rewind of a key at one version does not reach the dependents recorded
    since the first. *)
Example second_rewind_keeps_dependents :
  verdicts [inject 0 10; request (CtxAtVersion 1); compute 1 0 1 100 0;
            request (Rewind [1] 1 0); compute 1 0 1 101 0; compute 1 0 2 101 1;
            request (Rewind [1] 1 0); look 1 1; look 1 2]
  = Ok [Recompute; Serve 101].
Proof. vm_compute. reflexivity. Qed.

(** A rewind at an older active version adds a smaller version to the end of the force-dirty
    history.  Key 1 is force-dirtied at version 6; after a rewind at version 2 and a
    recomputation there, the recomputed value is served at version 6. *)
Example rewind_at_older_version_undoes_force_dirty :
  verdicts [inject 0 10; inject 0 20; request (CtxAtVersion 2); inject 9 1; inject 9 2; inject 9 3;
            compute 2 0 1 100 0; dirty 1; look 6 1;
            request (Rewind [1] 2 0); compute 2 0 1 300 0; look 6 1]
  = Ok [Recompute; Serve 300].
Proof. vm_compute. reflexivity. Qed.

(** [CoreState::rehydrate] overwrites the value of a node that is already hydrated.  The values
    are paged out while no transaction is open; a worker at version 1 is told that key 1 is
    paged out and reads 100 back from the store; key 1 is recomputed at version 2 to 200 before
    the worker's request arrives, and from then on version 2 is served 100. *)
Example rehydrate_overwrites_newer_value :
  verdicts [inject 0 10; request (CtxAtVersion 1); compute 1 0 1 100 0;
            request (DropCtxAtVersion 1); request (PageOut true);
            request (CtxAtVersion 1); look 1 1;
            inject 0 20; request (CtxAtVersion 2); compute 2 2 1 200 0; look 2 1;
            request (Rehydrate 1 100); look 2 1]
  = Ok [PagedOut; Serve 200; Serve 100].
Proof. vm_compute. reflexivity. Qed.
