(* ===== verification/TaskState.v ===== *)
(** The packed state of a task, from [src/deps/dice/dice/src/impls/task/state.rs]: the byte it is
    stored in, the transitions between the states, and one attempt of the compare-and-swap loop
    that performs them. *)
From S2P Require Import Prelude.
Local Open Scope N_scope.
Local Open Scope dice_scope.

(** * Definitions *)

Inductive IsProjecting := Projecting | NotProjecting.

Inductive DiceTaskState :=
| InitialLookup (p : IsProjecting)
| CheckingDeps (p : IsProjecting)
| Computing (p : IsProjecting)
| AwaitingPrevious (p : IsProjecting)
| Sync
| Ready
| Terminated.

Inductive TargetState :=
| ToInitialLookup | ToCheckingDeps | ToComputing | ToSync | ToReady | ToTerminated.

Global Instance IsProjecting_eq_dec : EqDecision IsProjecting.
Proof. solve_decision. Defined.
Global Instance DiceTaskState_eq_dec : EqDecision DiceTaskState.
Proof. solve_decision. Defined.

Definition IsProjecting_unpack (state : N) : IsProjecting :=
  if negb (N.land state (N.shiftl 1 3) =? 0) then Projecting else NotProjecting.

Definition IsProjecting_pack (self : IsProjecting) : N :=
  match self with Projecting => N.shiftl 1 3 | NotProjecting => 0 end.

Definition DiceTaskState_from_u8_state (state : N) : outcome DiceTaskState :=
  match N.land state 7 with
  | 0 => Ok (AwaitingPrevious (IsProjecting_unpack state))
  | 1 => Ok (InitialLookup (IsProjecting_unpack state))
  | 2 => Ok (CheckingDeps (IsProjecting_unpack state))
  | 3 => Ok (Computing (IsProjecting_unpack state))
  | 4 => Ok Sync
  | 5 => Ok Ready
  | 6 => Ok Terminated
  | _ => unreachable
  end.

Definition DiceTaskState_into_u8_state (self : DiceTaskState) : N :=
  match self with
  | AwaitingPrevious proj => IsProjecting_pack proj
  | InitialLookup proj => N.lor 1 (IsProjecting_pack proj)
  | CheckingDeps proj => N.lor 2 (IsProjecting_pack proj)
  | Computing proj => N.lor 3 (IsProjecting_pack proj)
  | Sync => 4
  | Ready => 5
  | Terminated => 6
  end.

Definition TargetState_into_dice_task_state_with_proj (self : TargetState) (proj : IsProjecting)
  : DiceTaskState :=
  match self with
  | ToInitialLookup => InitialLookup proj
  | ToCheckingDeps => CheckingDeps proj
  | ToComputing => Computing proj
  | ToSync => Sync
  | ToReady => Ready
  | ToTerminated => Terminated
  end.

Definition TargetState_into_dice_task_state (self : TargetState) : outcome DiceTaskState :=
  match self with
  | ToSync => Ok Sync
  | ToReady => Ok Ready
  | ToTerminated => Ok Terminated
  | _ => unreachable
  end.

Definition DiceTaskState_transition (self : DiceTaskState) (target : TargetState)
  : outcome (option DiceTaskState) :=
  let moved proj := Ok (Some (TargetState_into_dice_task_state_with_proj target proj)) in
  match self with
  | AwaitingPrevious proj =>
      match target with ToInitialLookup | ToSync | ToTerminated => moved proj | _ => unreachable end
  | InitialLookup proj => match target with ToReady => unreachable | _ => moved proj end
  | CheckingDeps proj =>
      match target with ToComputing | ToSync | ToTerminated => moved proj | _ => unreachable end
  | Computing proj => match target with ToSync | ToTerminated => moved proj | _ => unreachable end
  | Sync =>
      match target with
      | ToReady | ToTerminated => s ← TargetState_into_dice_task_state target; Ok (Some s)
      | _ => Ok None
      end
  | Ready => Ok None
  | Terminated => Ok None
  end.

Definition DiceTaskState_project (self : DiceTaskState) : outcome (option DiceTaskState) :=
  match self with
  | AwaitingPrevious _ => Ok (Some (AwaitingPrevious Projecting))
  | InitialLookup _ => Ok (Some (InitialLookup Projecting))
  | CheckingDeps _ => Ok (Some (CheckingDeps Projecting))
  | Computing _ => Ok (Some (Computing Projecting))
  | Sync => Ok None
  | Ready => Ok None
  | Terminated => unreachable
  end.

(** ** The atomic cell *)

Inductive TaskState := Continue | Finished.

(** [Retry]: the loop spins. *)
Inductive attempt := Returned (s : TaskState) | Retry.

(** One round of the loop of [transition]: an atomic [fetch_update] of the byte. *)
Definition AtomicDiceTaskState_transition (cell : N)
  (maybe_transition : DiceTaskState → outcome (option DiceTaskState)) : outcome (N * attempt) :=
  unpacked ← DiceTaskState_from_u8_state cell;
  next ← maybe_transition unpacked;
  match next with
  | Some s => Ok (DiceTaskState_into_u8_state s, Returned Continue)
  | None =>
      if decide (unpacked = Sync) then Ok (cell, Retry)
      else if decide (unpacked = Ready ∨ unpacked = Terminated) then Ok (cell, Returned Finished)
      else unreachable
  end.

Definition AtomicDiceTaskState_is_ready (cell : N) : outcome bool :=
  s ← DiceTaskState_from_u8_state cell; Ok (match s with Ready => true | _ => false end).

Definition AtomicDiceTaskState_is_terminated (cell : N) : outcome bool :=
  s ← DiceTaskState_from_u8_state cell; Ok (match s with Terminated => true | _ => false end).

(** [AtomicDiceTaskState::default()] *)
Definition AtomicDiceTaskState_default : N := 0.

Definition AtomicDiceTaskState_to (target : TargetState) (cell : N) : outcome (N * attempt) :=
  AtomicDiceTaskState_transition cell (λ s, DiceTaskState_transition s target).
Definition AtomicDiceTaskState_report_checking_deps := AtomicDiceTaskState_to ToCheckingDeps.
Definition AtomicDiceTaskState_report_initial_lookup := AtomicDiceTaskState_to ToInitialLookup.
Definition AtomicDiceTaskState_report_computing := AtomicDiceTaskState_to ToComputing.
Definition AtomicDiceTaskState_sync := AtomicDiceTaskState_to ToSync.
Definition AtomicDiceTaskState_report_ready := AtomicDiceTaskState_to ToReady.
Definition AtomicDiceTaskState_report_terminated := AtomicDiceTaskState_to ToTerminated.
Definition AtomicDiceTaskState_report_project (cell : N) : outcome (N * attempt) :=
  AtomicDiceTaskState_transition cell DiceTaskState_project.

Inductive DiceTaskStateForDebugging := AsyncInProgress | SyncInProgress | AsyncReady | AsyncDropped.

Definition AtomicDiceTaskState_introspect_state (cell : N) : outcome DiceTaskStateForDebugging :=
  s ← DiceTaskState_from_u8_state cell;
  Ok (match s with
      | InitialLookup _ | AwaitingPrevious _ | CheckingDeps _ | Computing _ => AsyncInProgress
      | Sync => SyncInProgress
      | Ready => AsyncReady
      | Terminated => AsyncDropped
      end).

(** * Properties *)

Lemma from_into s : DiceTaskState_from_u8_state (DiceTaskState_into_u8_state s) = Ok s.
Proof. by destruct s as [[]|[]|[]|[]| | |]. Qed.

Definition is_projecting (s : DiceTaskState) : bool :=
  match s with
  | InitialLookup Projecting | CheckingDeps Projecting | Computing Projecting
  | AwaitingPrevious Projecting => true
  | _ => false
  end.

(** How far the task is. *)
Definition stage (s : DiceTaskState) : nat :=
  match s with
  | AwaitingPrevious _ => 0 | InitialLookup _ => 1 | CheckingDeps _ => 2 | Computing _ => 3
  | Sync => 4 | Ready | Terminated => 5
  end.

Definition settled_state (s : DiceTaskState) : Prop := s = Ready ∨ s = Terminated.

(** The outcome of an attempt on a cell that holds [s]. *)
Lemma attempt_on s f :
  AtomicDiceTaskState_transition (DiceTaskState_into_u8_state s) f =
  next ← f s;
  match next with
  | Some s' => Ok (DiceTaskState_into_u8_state s', Returned Continue)
  | None =>
      if decide (s = Sync) then Ok (DiceTaskState_into_u8_state s, Retry)
      else if decide (s = Ready ∨ s = Terminated)
      then Ok (DiceTaskState_into_u8_state s, Returned Finished)
      else unreachable
  end.
Proof. unfold AtomicDiceTaskState_transition. rewrite from_into. done. Qed.

Lemma sync_attempt s :
  AtomicDiceTaskState_sync (DiceTaskState_into_u8_state s) =
    Ok (match s with
        | Sync => (DiceTaskState_into_u8_state s, Retry)
        | Ready | Terminated => (DiceTaskState_into_u8_state s, Returned Finished)
        | _ => (DiceTaskState_into_u8_state Sync, Returned Continue)
        end).
Proof. by destruct s as [[]|[]|[]|[]| | |]. Qed.

(** C40. The byte decodes to the state it was packed from.  Entering [Sync]
    is possible from every state before it, waits while another thread is in it and reports that
    the task is finished afterwards; only a thread in [Sync] can make the task ready, and it can
    always leave.  Every transition that happens moves the task forward, keeps the projecting bit
    until [Sync], and none leaves a settled state. *)
Theorem task_state_transitions (s : DiceTaskState) :
  let cell := DiceTaskState_into_u8_state s in
  DiceTaskState_from_u8_state cell = Ok s ∧ cell < 2 ^ 8 ∧
  AtomicDiceTaskState_sync cell =
    Ok (match s with
        | Sync => (cell, Retry)
        | Ready | Terminated => (cell, Returned Finished)
        | _ => (DiceTaskState_into_u8_state Sync, Returned Continue)
        end) ∧
  (∀ cell', AtomicDiceTaskState_report_ready cell = Ok (cell', Returned Continue) ↔
            s = Sync ∧ cell' = DiceTaskState_into_u8_state Ready) ∧
  ∀ f cell' a,
    f = DiceTaskState_project ∨ (∃ t, f = λ s, DiceTaskState_transition s t) →
    AtomicDiceTaskState_transition cell f = Ok (cell', a) →
    ∃ s', cell' = DiceTaskState_into_u8_state s' ∧ (stage s ≤ stage s')%nat ∧
      (settled_state s → s' = s ∧ a = Returned Finished) ∧
      ((stage s' < stage Sync)%nat → is_projecting s = true → is_projecting s' = true).
Proof.
  cbn zeta. split; [apply from_into|]. split; [by destruct s as [[]|[]|[]|[]| | |]|].
  split; [by destruct s as [[]|[]|[]|[]| | |]|]. split.
  { intros cell'. unfold AtomicDiceTaskState_report_ready, AtomicDiceTaskState_to. rewrite attempt_on.
    destruct s; cbn; (split; [|by intros [[=] _]] || split); try done; try (by intros [= <-]).
    by intros [_ ->]. }
  intros f cell' a Hf. rewrite attempt_on. intros H.
  apply bind_Ok in H as (next & E & H). destruct next as [s'|].
  - injection H as <- <-. exists s'. split; [done|].
    destruct Hf as [->|[t ->]]; [|destruct t]; destruct s as [p|p|p|p| | |]; cbn in E; try discriminate;
      injection E as <-; unfold settled_state; cbn; (split; [lia|]);
      (split; [naive_solver|]); destruct p || idtac; cbn; try done; lia.
  - assert (cell' = DiceTaskState_into_u8_state s ∧ (settled_state s → a = Returned Finished)) as [-> Ha].
    { destruct (decide (s = Sync)) as [->|Hs]; [injection H as <- <-; split; [done|by intros [|]]|].
      destruct (decide (s = Ready ∨ s = Terminated)); [|done]. by injection H as <- <-. }
    exists s. split_and!; auto.
Qed.
