(* ===== verification/Task.v ===== *)
(** The task shared by everyone who waits for one key at one version, from
    [src/deps/dice/dice/src/impls/task/dice.rs] and [task/critical.rs].

    Several threads work on a task at once.  Each operation of the source is a small program
    whose steps are the atomic accesses (the state byte, the value cell, the locked critical
    section); a run interleaves the programs in any order.  The state byte acts as a spinlock on
    the value cell. *)
From S2P Require Import Prelude Values TaskState.
Local Open Scope N_scope.
Local Open Scope dice_scope.

Section Task.
Context {V Reason ParentKey : Type}.
(** The key [slab::Slab::insert] uses next. *)
Context (vacant_key : gset N → N).

(** * Definitions *)

(** [CancellableResult<DiceComputedValue>] *)
Definition result : Type := Reason + DiceComputedValue V.

(** The handle a [NotCancelled] state owns is counted by the cancellations it was sent. *)
Inductive CancellationState :=
| CancelPending
| NotCancelled
| Cancelled (reason : Reason)
| NotCancellable.

(** The data behind the mutex of [DiceTaskInternalCritical]. *)
Record CriticalData := mkCritical {
  cr_dependants : option (gmap N ParentKey);
  cr_termination_observers : option (gset N);
  cr_cancellation : CancellationState;
  cr_handle_cancels : N;
}.

Record DiceTaskInternal := mkTask {
  task_state : N;
  task_critical : CriticalData;
  task_maybe_value : option result;
}.

Definition critical_new (c : CancellationState) : CriticalData := mkCritical (Some ∅) (Some ∅) c 0.

Definition DiceTaskInternal_new (c : CancellationState) : DiceTaskInternal :=
  mkTask AtomicDiceTaskState_default (critical_new c) None.

Definition Data_cancellation_reason (self : CriticalData) : option Reason :=
  match cr_cancellation self with Cancelled reason => Some reason | _ => None end.

Definition Data_cancel (self : CriticalData) (reason : Reason) : CriticalData :=
  match cr_cancellation self with
  | NotCancellable | Cancelled _ => self
  | NotCancelled =>
      mkCritical (cr_dependants self) (cr_termination_observers self) (Cancelled reason)
        (cr_handle_cancels self + 1)
  | CancelPending =>
      mkCritical (cr_dependants self) (cr_termination_observers self) (Cancelled reason)
        (cr_handle_cancels self)
  end.

Inductive DependedOnByResult :=
| DepCancelled (reason : Reason)
| DepPending (id : N)
| DepFinished.

Definition critical_depended_on_by (self : CriticalData) (k : ParentKey)
  : CriticalData * DependedOnByResult :=
  match Data_cancellation_reason self with
  | Some reason => (self, DepCancelled reason)
  | None =>
      match cr_dependants self with
      | None => (self, DepFinished)
      | Some wakers =>
          let id := vacant_key (dom wakers) in
          (mkCritical (Some (<[id := k]> wakers)) (cr_termination_observers self)
             (cr_cancellation self) (cr_handle_cancels self), DepPending id)
      end
  end.

Definition critical_await_termination (self : CriticalData) : CriticalData * option N :=
  match cr_termination_observers self with
  | None => (self, None)
  | Some wakers =>
      let id := vacant_key wakers in
      (mkCritical (cr_dependants self) (Some ({[id]} ∪ wakers)) (cr_cancellation self)
         (cr_handle_cancels self), Some id)
  end.

(** [handle.cancel()] of the handle passed in counts as well. *)
Definition critical_set_cancellation_handle (self : CriticalData) : outcome CriticalData :=
  match cr_cancellation self with
  | CancelPending =>
      Ok (mkCritical (cr_dependants self) (cr_termination_observers self) NotCancelled
            (cr_handle_cancels self))
  | Cancelled _ =>
      Ok (mkCritical (cr_dependants self) (cr_termination_observers self) (cr_cancellation self)
            (cr_handle_cancels self + 1))
  | NotCancelled | NotCancellable => unreachable
  end.

Inductive SlabId := Dependants (id : N) | TerminationObserver (id : N).

(** [Slab::remove] panics on a vacant key.  The reasons are [AllDependentsDropped] and
    [AllObserversDropped]. *)
Definition critical_drop_waiter (all_dependents_dropped all_observers_dropped : Reason)
  (self : CriticalData) (slab : SlabId) : outcome CriticalData :=
  match slab with
  | Dependants id =>
      match cr_dependants self with
      | None => Ok self
      | Some deps =>
          _ ← expect (deps !! id);
          let deps := delete id deps in
          let self := mkCritical (Some deps) (cr_termination_observers self)
                        (cr_cancellation self) (cr_handle_cancels self) in
          Ok (if decide (deps = ∅) then Data_cancel self all_dependents_dropped else self)
      end
  | TerminationObserver id =>
      match cr_termination_observers self with
      | None => Ok self
      | Some deps =>
          assert! bool_decide (id ∈ deps);;
          let deps := deps ∖ {[id]} in
          let self := mkCritical (cr_dependants self) (Some deps) (cr_cancellation self)
                        (cr_handle_cancels self) in
          Ok (if decide (deps = ∅) then Data_cancel self all_observers_dropped else self)
      end
  end.

Definition critical_wake_dependents (self : CriticalData) : outcome CriticalData :=
  _ ← expect (cr_dependants self);
  _ ← expect (cr_termination_observers self);
  Ok (mkCritical None None (cr_cancellation self) (cr_handle_cancels self)).

Context (all_dependents_dropped all_observers_dropped : Reason).

(** ** The programs *)

(** What the caller of [read_value] does with [None]: returns it ([get_finished_value]), goes on
    to register ([depended_on_by]), or unwraps it. *)
Inductive on_none := ReturnNone | ThenRegister (k : ParentKey) | MustBePresent.

Inductive thread :=
(** [set_value] (a result [inr]) and [report_terminated] ([inl]) *)
| SyncTo (r : result)
| WriteValue (r : result)
| Publish (r : result)
| WakeDependents (r : result)
(** [read_value]: the two loads of [is_ready(..) || is_terminated(..)], then the value *)
| LoadReady (k : on_none)
| LoadTerminated (k : on_none)
| FetchValue
(** the rest of [depended_on_by], and [await_termination] *)
| Register (k : ParentKey)
| AwaitTermination
(** a promise that is alive; its step is its drop *)
| Holding (slab : SlabId)
(** [DiceTask::cancel] and [set_cancellation_handle] *)
| Cancel (reason : Reason)
| SetHandle
(** what an operation returned *)
| Got (r : result)
| GotNone
| Refused (reason : Reason).

Definition set_state (t : DiceTaskInternal) (s : N) : DiceTaskInternal :=
  mkTask s (task_critical t) (task_maybe_value t).
Definition set_critical (t : DiceTaskInternal) (c : CriticalData) : DiceTaskInternal :=
  mkTask (task_state t) c (task_maybe_value t).

Definition thread_step (t : DiceTaskInternal) (th : thread) : outcome (DiceTaskInternal * thread) :=
  match th with
  | SyncTo r =>
      '(s, a) ← AtomicDiceTaskState_sync (task_state t);
      Ok (set_state t s,
          match a, r with
          | Returned Continue, _ => WriteValue r
          | Returned Finished, inr _ => LoadReady MustBePresent
          | Returned Finished, inl _ => GotNone
          | Retry, _ => SyncTo r
          end)
  | WriteValue r =>
      assert! (match task_maybe_value t with None => true | Some _ => false end);;
      Ok (mkTask (task_state t) (task_critical t) (Some r), Publish r)
  | Publish r =>
      '(s, a) ← match r with
                | inr _ => AtomicDiceTaskState_report_ready (task_state t)
                | inl _ => AtomicDiceTaskState_report_terminated (task_state t)
                end;
      Ok (set_state t s, match a with Returned _ => WakeDependents r | Retry => Publish r end)
  | WakeDependents r =>
      c ← critical_wake_dependents (task_critical t);
      Ok (set_critical t c, match r with inr _ => Got r | inl _ => GotNone end)
  | LoadReady k =>
      b ← AtomicDiceTaskState_is_ready (task_state t);
      Ok (t, if (b : bool) then FetchValue else LoadTerminated k)
  | LoadTerminated k =>
      b ← AtomicDiceTaskState_is_terminated (task_state t);
      if (b : bool) then Ok (t, FetchValue)
      else match k with
           | ReturnNone => Ok (t, GotNone)
           | ThenRegister key => Ok (t, Register key)
           | MustBePresent => unreachable
           end
  | FetchValue => v ← expect (task_maybe_value t); Ok (t, Got v)
  | Register k =>
      let '(c, r) := critical_depended_on_by (task_critical t) k in
      Ok (set_critical t c,
          match r with
          | DepCancelled reason => Refused reason
          | DepPending id => Holding (Dependants id)
          | DepFinished => LoadReady MustBePresent
          end)
  | AwaitTermination =>
      let '(c, r) := critical_await_termination (task_critical t) in
      Ok (set_critical t c,
          match r with
          | Some id => Holding (TerminationObserver id)
          | None => LoadReady MustBePresent
          end)
  | Holding slab =>
      c ← critical_drop_waiter all_dependents_dropped all_observers_dropped (task_critical t) slab;
      Ok (set_critical t c, GotNone)
  | Cancel reason => Ok (set_critical t (Data_cancel (task_critical t) reason), GotNone)
  | SetHandle =>
      c ← critical_set_cancellation_handle (task_critical t); Ok (set_critical t c, GotNone)
  | Got _ | GotNone | Refused _ => Ok (t, th)
  end.

(** A schedule names the thread that takes the next step. *)
Fixpoint run_schedule (schedule : list nat) (t : DiceTaskInternal) (threads : list thread)
  : outcome (DiceTaskInternal * list thread) :=
  match schedule with
  | [] => Ok (t, threads)
  | i :: schedule =>
      match threads !! i with
      | None => run_schedule schedule t threads
      | Some th =>
          '(t, th) ← thread_step t th; run_schedule schedule t (<[i := th]> threads)
      end
  end.

(** The programs threads begin with. *)
Definition is_start (th : thread) : bool :=
  match th with
  | SyncTo _ | LoadReady ReturnNone | LoadReady (ThenRegister _) | AwaitTermination | Cancel _
  | SetHandle => true
  | _ => false
  end.

(** * The invariant *)

(** Who holds the spinlock, and what has been written. *)
Inductive phase :=
| PhaseOpen
| PhaseWriting (i : nat) (r : result)
| PhasePublishing (i : nat) (r : result)
| PhaseWaking (i : nat) (r : result)
| PhaseDone (r : result).

Definition settled_of (r : result) : DiceTaskState :=
  match r with inr _ => Ready | inl _ => Terminated end.

Definition owner (ph : phase) : option nat :=
  match ph with
  | PhaseWriting i _ | PhasePublishing i _ | PhaseWaking i _ => Some i
  | PhaseOpen | PhaseDone _ => None
  end.

Definition published (ph : phase) : option result :=
  match ph with PhaseWaking _ r | PhaseDone r => Some r | _ => None end.

Definition waiting_open (c : CriticalData) : Prop :=
  cr_dependants c ≠ None ∧ cr_termination_observers c ≠ None.

Definition phase_ok (ph : phase) (t : DiceTaskInternal) (threads : list thread) : Prop :=
  match ph with
  | PhaseOpen => (∃ s, task_state t = DiceTaskState_into_u8_state s ∧ (stage s < stage Sync)%nat) ∧
      task_maybe_value t = None ∧ waiting_open (task_critical t)
  | PhaseWriting i r => task_state t = DiceTaskState_into_u8_state Sync ∧
      task_maybe_value t = None ∧ threads !! i = Some (WriteValue r) ∧ waiting_open (task_critical t)
  | PhasePublishing i r => task_state t = DiceTaskState_into_u8_state Sync ∧
      task_maybe_value t = Some r ∧ threads !! i = Some (Publish r) ∧ waiting_open (task_critical t)
  | PhaseWaking i r => task_state t = DiceTaskState_into_u8_state (settled_of r) ∧
      task_maybe_value t = Some r ∧ threads !! i = Some (WakeDependents r) ∧
      waiting_open (task_critical t)
  | PhaseDone r => task_state t = DiceTaskState_into_u8_state (settled_of r) ∧
      task_maybe_value t = Some r ∧ cr_dependants (task_critical t) = None ∧
      cr_termination_observers (task_critical t) = None
  end.

(** A thread in the middle of its program is where the phase allows. *)
Definition thread_ok (ph : phase) (i : nat) (th : thread) : Prop :=
  match th with
  | WriteValue _ | Publish _ | WakeDependents _ => owner ph = Some i
  | FetchValue | LoadReady MustBePresent => published ph ≠ None
  | LoadTerminated MustBePresent => ∃ reason, published ph = Some (inl reason)
  | Got r => published ph = Some r
  | _ => True
  end.

(** A live promise has its slot until the slots are taken, and no other promise has it. *)
Definition slot_live (c : CriticalData) (slab : SlabId) : Prop :=
  match slab with
  | Dependants id => match cr_dependants c with None => True | Some m => is_Some (m !! id) end
  | TerminationObserver id =>
      match cr_termination_observers c with None => True | Some m => id ∈ m end
  end.

Definition slots_ok (c : CriticalData) (threads : list thread) : Prop :=
  (∀ i slab, threads !! i = Some (Holding slab) → slot_live c slab) ∧
  (waiting_open c → ∀ i j slab, threads !! i = Some (Holding slab) → threads !! j = Some (Holding slab) → i = j).

(** The handle is set once, and is sent exactly one cancellation once both happened. *)
Definition handle_ok (c : CriticalData) (threads : list thread) : Prop :=
  (∃ i, (∀ j, threads !! j = Some SetHandle ↔ j = i) ∧ cr_handle_cancels c = 0 ∧
     (cr_cancellation c = CancelPending ∨ ∃ reason, cr_cancellation c = Cancelled reason)) ∨
  (∀ j, threads !! j ≠ Some SetHandle) ∧
    (cr_cancellation c = NotCancelled ∧ cr_handle_cancels c = 0 ∨
     ∃ reason, cr_cancellation c = Cancelled reason ∧ cr_handle_cancels c = 1).

Record task_inv (ph : phase) (t : DiceTaskInternal) (threads : list thread) : Prop := {
  ti_phase : phase_ok ph t threads;
  ti_threads : ∀ i th, threads !! i = Some th → thread_ok ph i th;
  ti_slots : slots_ok (task_critical t) threads;
  ti_handle : handle_ok (task_critical t) threads;
}.

(** The phase after a step of [th], thread [i]. *)
Definition phase_after (ph : phase) (i : nat) (th : thread) : phase :=
  match ph, th with
  | PhaseOpen, SyncTo r => PhaseWriting i r
  | PhaseWriting _ r, WriteValue _ => PhasePublishing i r
  | PhasePublishing _ r, Publish _ => PhaseWaking i r
  | PhaseWaking _ r, WakeDependents _ => PhaseDone r
  | _, _ => ph
  end.

(** ** The parts of the invariant *)

Definition cancel_step (c c' : CriticalData) : Prop :=
  ∃ c1, (c1 = c ∨ ∃ reason, c1 = Data_cancel c reason) ∧
    cr_cancellation c' = cr_cancellation c1 ∧ cr_handle_cancels c' = cr_handle_cancels c1.

Lemma handle_other c c' threads i th th' :
  handle_ok c threads → threads !! i = Some th → th ≠ SetHandle → th' ≠ SetHandle →
  cancel_step c c' → handle_ok c' (<[i := th']> threads).
Proof.
  intros H Hi Hne Hne' (c1 & Hc1 & E1 & E2). unfold handle_ok. rewrite E1, E2.
  assert (∀ j, <[i := th']> threads !! j = Some SetHandle ↔ threads !! j = Some SetHandle) as E.
  { intros j. destruct (decide (j = i)) as [->|Hj].
    - rewrite list_lookup_insert_eq by (by eapply lookup_lt_Some). rewrite Hi. naive_solver.
    - by rewrite list_lookup_insert_ne. }
  destruct H as [(i0 & H1 & H2 & H3)|[H1 H2]].
  - left. exists i0. split; [intros j; by rewrite E|].
    destruct Hc1 as [->|[reason ->]]; [done|]. unfold Data_cancel.
    destruct H3 as [Hc|[r Hc]]; rewrite Hc; cbn; rewrite ?Hc; eauto.
  - right. split; [intros j Hj; by apply (H1 j), E|].
    destruct Hc1 as [->|[reason ->]]; [done|]. unfold Data_cancel.
    destruct H2 as [[Hc Hn]|(r & Hc & Hn)]; rewrite Hc; cbn; rewrite ?Hc, ?Hn; eauto.
Qed.

Lemma handle_set c threads i :
  handle_ok c threads → threads !! i = Some SetHandle →
  returns (critical_set_cancellation_handle c) (λ c',
    handle_ok c' (<[i := GotNone]> threads) ∧ cr_dependants c' = cr_dependants c ∧
    cr_termination_observers c' = cr_termination_observers c).
Proof.
  intros [(i0 & H1 & H2 & H3)|[H1 _]] Hi; [|by destruct (H1 i)].
  apply H1 in Hi as Hi0. subst i0.
  assert (∀ j, <[i := GotNone]> threads !! j ≠ Some SetHandle) as E.
  { intros j. destruct (decide (j = i)) as [->|Hj].
    - rewrite list_lookup_insert_eq by (by eapply lookup_lt_Some). done.
    - rewrite list_lookup_insert_ne by done. intros Hj'. by apply H1 in Hj'. }
  unfold critical_set_cancellation_handle. destruct H3 as [Hc|[r Hc]]; rewrite Hc; cbn.
  - split; [|done]. right. split; [done|]. by left.
  - split; [|done]. right. split; [done|]. right. exists r. cbn. by rewrite H2.
Qed.

(** Slots change in three ways. *)
Lemma slots_same c c' threads i th th' :
  slots_ok c threads → threads !! i = Some th → (∀ slab, th' ≠ Holding slab) →
  cr_dependants c' = cr_dependants c → cr_termination_observers c' = cr_termination_observers c →
  slots_ok c' (<[i := th']> threads).
Proof.
  intros [H1 H2] Hi Hne Ed Eo.
  assert (∀ j slab, <[i := th']> threads !! j = Some (Holding slab) → threads !! j = Some (Holding slab)) as E.
  { intros j slab. rewrite list_lookup_insert_Some. intros [(_ & -> & _)|[_ ?]]; [by destruct (Hne slab)|done]. }
  split.
  - intros j slab Hj%E. specialize (H1 j slab Hj). unfold slot_live in *. by rewrite Ed, Eo.
  - unfold waiting_open. rewrite Ed, Eo. intros Ho j1 j2 slab Hj1%E Hj2%E. by eapply H2.
Qed.

Lemma slots_closed c c' threads i th th' :
  slots_ok c threads → threads !! i = Some th → (∀ slab, th' ≠ Holding slab) →
  cr_dependants c' = None → cr_termination_observers c' = None →
  slots_ok c' (<[i := th']> threads).
Proof.
  intros [H1 H2] Hi Hne Ed Eo. split; [|by intros [? _]].
  intros j slab _. unfold slot_live. rewrite Ed, Eo. by destruct slab.
Qed.

(** A fresh slot. *)
Lemma slots_new c c' threads i th slab :
  slots_ok c threads → threads !! i = Some th → waiting_open c → ¬ slot_live c slab → slot_live c' slab →
  (∀ s, slot_live c s → slot_live c' s) → slots_ok c' (<[i := Holding slab]> threads).
Proof.
  intros [H1 H2] Hi Ho Hfresh Hlive Hmono. split.
  - intros j s. rewrite list_lookup_insert_Some. intros [(_ & [= <-] & _)|[_ Hj]]; [done|]. eauto.
  - intros _ j1 j2 s. rewrite !list_lookup_insert_Some.
    intros [(-> & [= <-] & _)|[Hn1 Hj1]] [(-> & E & _)|[Hn2 Hj2]]; [done| | |by eapply H2].
    + by destruct Hfresh; eapply H1.
    + injection E as <-. by destruct Hfresh; eapply H1.
Qed.

(** A promise gives its slot back. *)
Lemma slots_drop c c' threads i slab th' :
  slots_ok c threads → threads !! i = Some (Holding slab) → (∀ slab, th' ≠ Holding slab) →
  waiting_open c → (∀ s, s ≠ slab → slot_live c s → slot_live c' s) →
  slots_ok c' (<[i := th']> threads).
Proof.
  intros [H1 H2] Hi Hne Ho Hlive.
  assert (∀ j s, <[i := th']> threads !! j = Some (Holding s) → j ≠ i ∧ threads !! j = Some (Holding s)) as E.
  { intros j s. rewrite list_lookup_insert_Some. intros [(_ & -> & _)|[? ?]]; [by destruct (Hne s)|auto]. }
  split.
  - intros j s [Hj1 Hj2]%E. apply Hlive; [|by eapply H1]. intros ->. by destruct Hj1; eapply H2.
  - intros _ j1 j2 s [_ Hj1]%E [_ Hj2]%E. by eapply H2.
Qed.

Hypothesis (vacant_fresh : ∀ s, vacant_key s ∉ s).

Lemma depended_on_by_slots c k threads i th :
  slots_ok c threads → threads !! i = Some th → (cr_dependants c ≠ None → waiting_open c) →
  let '(c', r) := critical_depended_on_by c k in
  slots_ok c' (<[i := match r with
                      | DepCancelled reason => Refused reason
                      | DepPending id => Holding (Dependants id)
                      | DepFinished => LoadReady MustBePresent
                      end]> threads) ∧
  (r = DepFinished → cr_dependants c = None) ∧
  (waiting_open c → waiting_open c') ∧ (cr_dependants c = None → c' = c) ∧ cancel_step c c'.
Proof.
  intros Hs Hi Ho. unfold critical_depended_on_by.
  assert (cancel_step c c) as Hcs by (exists c; auto).
  destruct (Data_cancellation_reason c) as [reason|]; [split_and!; [by eapply slots_same|done..]|].
  destruct (cr_dependants c) as [m|] eqn:Ed; [|split_and!; [by eapply slots_same|done..]].
  split_and!; [|done|by intros [_ ?]|done|exists c; cbn; auto].
  eapply slots_new; [exact Hs|exact Hi|by apply Ho|..]; unfold slot_live.
  - rewrite Ed. intros Hin%elem_of_dom. by destruct (vacant_fresh (dom m)).
  - cbn. by rewrite lookup_insert_eq.
  - cbn. intros [id|id]; [|done]. rewrite Ed. intros Hin. destruct (decide (id = vacant_key (dom m))) as [->|].
    + by rewrite lookup_insert_eq.
    + by rewrite lookup_insert_ne.
Qed.

Lemma await_termination_slots c threads i th :
  slots_ok c threads → threads !! i = Some th → (cr_termination_observers c ≠ None → waiting_open c) →
  let '(c', r) := critical_await_termination c in
  slots_ok c' (<[i := match r with
                      | Some id => Holding (TerminationObserver id)
                      | None => LoadReady MustBePresent
                      end]> threads) ∧
  (r = None → cr_termination_observers c = None) ∧
  (waiting_open c → waiting_open c') ∧ (cr_termination_observers c = None → c' = c) ∧ cancel_step c c'.
Proof.
  intros Hs Hi Ho. unfold critical_await_termination.
  assert (cancel_step c c) as Hcs by (exists c; auto).
  destruct (cr_termination_observers c) as [m|] eqn:Ed; [|split_and!; [by eapply slots_same|done..]].
  split_and!; [|done|by intros [? _]|done|exists c; cbn; auto].
  eapply slots_new; [exact Hs|exact Hi|by apply Ho|..]; unfold slot_live.
  - rewrite Ed. apply vacant_fresh.
  - cbn. set_solver.
  - cbn. intros [id|id]; [done|]. rewrite Ed. set_solver.
Qed.

Lemma drop_waiter_slots c slab threads i :
  slots_ok c threads → threads !! i = Some (Holding slab) →
  (waiting_open c ∨ cr_dependants c = None ∧ cr_termination_observers c = None) →
  returns (critical_drop_waiter all_dependents_dropped all_observers_dropped c slab) (λ c',
    slots_ok c' (<[i := GotNone]> threads) ∧ (waiting_open c → waiting_open c') ∧
    (cr_dependants c = None ∧ cr_termination_observers c = None → c' = c) ∧ cancel_step c c').
Proof.
  intros Hs Hi Ho. pose proof (proj1 Hs i slab Hi) as Hlive.
  assert (cancel_step c c) as Hcs by (exists c; auto).
  destruct slab as [id|id]; cbn in Hlive |- *.
  - destruct (cr_dependants c) as [m|] eqn:Ed; [|cbn; split_and!; [by eapply slots_same|done..]].
    destruct Hlive as [k Hk]. rewrite Hk. cbn.
    destruct Ho as [Ho|[? _]]; [|done].
    set (c1 := mkCritical _ _ _ _).
    assert (∀ c2, (c2 = c1 ∨ c2 = Data_cancel c1 all_dependents_dropped) →
      slots_ok c2 (<[i := GotNone]> threads) ∧ (waiting_open c → waiting_open c2) ∧
      (Some m = None ∧ cr_termination_observers c = None → c2 = c) ∧ cancel_step c c2) as H.
    { intros c2 Hc2.
      assert (cr_dependants c2 = Some (delete id m) ∧
              cr_termination_observers c2 = cr_termination_observers c) as [E1 E2].
      { destruct Hc2 as [->| ->]; [done|]. unfold Data_cancel. by destruct (cr_cancellation c1). }
      split_and!; [|by unfold waiting_open; rewrite E1, E2; intros [_ ?]|by intros [[=] _]|].
      - eapply slots_drop; [exact Hs|exact Hi|done|exact Ho|].
        intros [j|j] Hj; cbn; rewrite ?E1, ?E2, ?Ed; [|done]. rewrite lookup_delete_ne; [done|]. congruence.
      - destruct Hc2 as [->| ->]; [exists c; cbn; auto|].
        exists (Data_cancel c all_dependents_dropped). split; [eauto|].
        unfold Data_cancel. subst c1. cbn. by destruct (cr_cancellation c) eqn:Ec; cbn; rewrite ?Ec. }
    destruct (decide _); apply H; auto.
  - destruct (cr_termination_observers c) as [m|] eqn:Ed; [|cbn; split_and!; [by eapply slots_same|done..]].
    rewrite bool_decide_eq_true_2 by done. cbn. destruct Ho as [Ho|[_ ?]]; [|done].
    set (c1 := mkCritical _ _ _ _).
    assert (∀ c2, (c2 = c1 ∨ c2 = Data_cancel c1 all_observers_dropped) →
      slots_ok c2 (<[i := GotNone]> threads) ∧ (waiting_open c → waiting_open c2) ∧
      (cr_dependants c = None ∧ Some m = None → c2 = c) ∧ cancel_step c c2) as H.
    { intros c2 Hc2.
      assert (cr_termination_observers c2 = Some (m ∖ {[id]}) ∧
              cr_dependants c2 = cr_dependants c) as [E1 E2].
      { destruct Hc2 as [->| ->]; [done|]. unfold Data_cancel. by destruct (cr_cancellation c1). }
      split_and!; [|by unfold waiting_open; rewrite E1, E2; intros [? _]|by intros [_ [=]]|].
      - eapply slots_drop; [exact Hs|exact Hi|done|exact Ho|].
        intros [j|j] Hj; cbn; rewrite ?E1, ?E2, ?Ed; [done|]. intros Hin. apply elem_of_difference.
        split; [done|]. intros ->%elem_of_singleton. done.
      - destruct Hc2 as [->| ->]; [exists c; cbn; auto|].
        exists (Data_cancel c all_observers_dropped). split; [eauto|].
        unfold Data_cancel. subst c1. cbn. by destruct (cr_cancellation c) eqn:Ec; cbn; rewrite ?Ec. }
    destruct (decide _); apply H; auto.
Qed.

(** ** Steps keep the invariant *)

Lemma thread_ok_mono ph ph' j th :
  thread_ok ph j th → (owner ph = Some j → owner ph' = Some j) →
  (∀ r, published ph = Some r → published ph' = Some r) → thread_ok ph' j th.
Proof.
  intros H Ho Hp. destruct th as [r|r|r|r|[]|[]| |k| |slab|reason| |r| |reason]; cbn in *; auto.
  - destruct (published ph) as [r|] eqn:E; [|done]. by rewrite (Hp r).
  - destruct H as [reason H]. eauto.
  - destruct (published ph) as [r|] eqn:E; [|done]. by rewrite (Hp r).
Qed.

Lemma threads_step ph ph' i th' (threads : list thread) :
  (∀ j th, threads !! j = Some th → thread_ok ph j th) → thread_ok ph' i th' →
  (∀ j, j ≠ i → owner ph = Some j → owner ph' = Some j) →
  (∀ r, published ph = Some r → published ph' = Some r) →
  ∀ j th, <[i := th']> threads !! j = Some th → thread_ok ph' j th.
Proof.
  intros H Hi Ho Hp j th. rewrite list_lookup_insert_Some. intros [(-> & <- & _)|[Hne Hj]]; [done|].
  eapply thread_ok_mono; [by apply H| |done]. by apply Ho.
Qed.

(** A step that leaves the state byte and the value alone. *)
Lemma inv_frame ph t threads i th th' c' :
  task_inv ph t threads → threads !! i = Some th → owner ph ≠ Some i → thread_ok ph i th' →
  (waiting_open (task_critical t) → waiting_open c') →
  (cr_dependants (task_critical t) = None → cr_termination_observers (task_critical t) = None →
   cr_dependants c' = None ∧ cr_termination_observers c' = None) →
  slots_ok c' (<[i := th']> threads) → handle_ok c' (<[i := th']> threads) →
  task_inv ph (set_critical t c') (<[i := th']> threads).
Proof.
  intros [Hp Ht Hs Hh] Hi Ho Hth Hopen Hclosed Hs' Hh'. split; [|by eapply threads_step|done|done].
  assert (∀ j th0, threads !! j = Some th0 → owner ph = Some j → <[i := th']> threads !! j = Some th0) as Hj.
  { intros j th0 Hj Hoj. rewrite list_lookup_insert_ne; [done|]. intros ->. done. }
  destruct ph as [|j r|j r|j r|r]; cbn in *; naive_solver.
Qed.

Lemma phase_slots ph t threads :
  phase_ok ph t threads → waiting_open (task_critical t) ∨
    (∃ r, ph = PhaseDone r) ∧ cr_dependants (task_critical t) = None ∧
    cr_termination_observers (task_critical t) = None.
Proof. destruct ph as [| | | |r]; cbn; [naive_solver..|]. intros (_ & _ & ? & ?). right. eauto. Qed.

(** The state byte, as far as readers can tell. *)
Lemma phase_state ph t threads :
  phase_ok ph t threads → ∃ s, task_state t = DiceTaskState_into_u8_state s ∧
    match published ph with
    | Some r => s = settled_of r ∧ task_maybe_value t = Some r
    | None => (stage s < stage Ready)%nat
    end.
Proof.
  destruct ph; cbn.
  - intros ([s [? ?]] & _). exists s. split; [done|]. lia.
  - intros (? & _). exists Sync. split; [done|]. cbn. lia.
  - intros (? & _). exists Sync. split; [done|]. cbn. lia.
  - intros (? & ? & _). eauto.
  - intros (? & ? & _). eauto.
Qed.

Lemma set_critical_id t : set_critical t (task_critical t) = t.
Proof. by destruct t. Qed.

(** A step that only moves the thread on. *)
Lemma inv_move ph t threads i th th' :
  task_inv ph t threads → threads !! i = Some th → owner ph ≠ Some i → thread_ok ph i th' →
  (∀ slab, th' ≠ Holding slab) → th ≠ SetHandle → th' ≠ SetHandle →
  task_inv ph t (<[i := th']> threads).
Proof.
  intros H Hi Ho Hth Hns Hne Hne'. rewrite <- (set_critical_id t).
  eapply inv_frame; [exact H|exact Hi|done|done|done|done|..].
  - eapply slots_same; [apply (ti_slots _ _ _ H)|exact Hi|done|done|done].
  - eapply handle_other; [apply (ti_handle _ _ _ H)|exact Hi|done|done|]. exists (task_critical t). auto.
Qed.

(** ** Reading *)

Lemma step_load_ready ph t threads i k :
  task_inv ph t threads → threads !! i = Some (LoadReady k) → owner ph ≠ Some i →
  returns (thread_step t (LoadReady k)) (λ '(t', th'), task_inv ph t' (<[i := th']> threads)).
Proof.
  intros H Hi Ho. pose proof (phase_state _ _ _ (ti_phase _ _ _ H)) as (s & Es & Hs).
  pose proof (ti_threads _ _ _ H _ _ Hi) as Hth.
  cbn [thread_step]. unfold AtomicDiceTaskState_is_ready. rewrite Es, from_into. cbn.
  destruct (published ph) as [r|] eqn:Ep.
  - destruct Hs as [-> Hv]. destruct r as [reason|v]; cbn.
    + eapply inv_move; try done. destruct k; cbn; [done|done|]. by exists reason.
    + eapply inv_move; try done. cbn. by rewrite Ep.
  - assert (s ≠ Ready) as Hne by (intros ->; cbn in Hs; lia).
    assert (k ≠ MustBePresent) as Hk by (intros ->; by apply Hth).
    destruct s; try done; cbn; eapply inv_move; try done; by destruct k.
Qed.

Lemma step_load_terminated ph t threads i k :
  task_inv ph t threads → threads !! i = Some (LoadTerminated k) → owner ph ≠ Some i →
  returns (thread_step t (LoadTerminated k)) (λ '(t', th'), task_inv ph t' (<[i := th']> threads)).
Proof.
  intros H Hi Ho. pose proof (phase_state _ _ _ (ti_phase _ _ _ H)) as (s & Es & Hs).
  pose proof (ti_threads _ _ _ H _ _ Hi) as Hth.
  cbn [thread_step]. unfold AtomicDiceTaskState_is_terminated. rewrite Es, from_into. cbn.
  assert (∀ k', k = k' → k' ≠ MustBePresent →
    returns (match k with ReturnNone => Ok (t, GotNone) | ThenRegister key => Ok (t, Register key)
             | MustBePresent => unreachable end)
      (λ '(t', th'), task_inv ph t' (<[i := th']> threads))) as Hnone.
  { intros k' <- Hk. destruct k; cbn; [by eapply inv_move..|done]. }
  destruct (published ph) as [r|] eqn:Ep.
  - destruct Hs as [-> Hv]. destruct r as [reason|v]; cbn.
    + eapply inv_move; try done. cbn. by rewrite Ep.
    + apply (Hnone k eq_refl). intros ->. cbn in Hth. destruct Hth as [reason Hr]. congruence.
  - assert (s ≠ Terminated) as Hne by (intros ->; cbn in Hs; lia).
    assert (k ≠ MustBePresent) as Hk by (intros ->; destruct Hth as [reason Hr]; congruence).
    destruct s; try done; cbn; by apply (Hnone k eq_refl).
Qed.

(** ** Writing *)

(** The owner's step: the phase, the state byte and the value change together. *)
Lemma inv_owner ph ph' t t' threads i th th' :
  task_inv ph t threads → threads !! i = Some th → th ≠ SetHandle → th' ≠ SetHandle →
  (∀ slab, th' ≠ Holding slab) →
  phase_ok ph' t' (<[i := th']> threads) → thread_ok ph' i th' →
  (∀ j, j ≠ i → owner ph = Some j → owner ph' = Some j) →
  (∀ r, published ph = Some r → published ph' = Some r) →
  (task_critical t' = task_critical t ∨
   cr_dependants (task_critical t') = None ∧ cr_termination_observers (task_critical t') = None ∧
   cancel_step (task_critical t) (task_critical t')) →
  task_inv ph' t' (<[i := th']> threads).
Proof.
  intros [Hp Ht Hs Hh] Hi Hne Hne' Hns Hp' Hth' Ho Hpub Hc. split; [done|by eapply threads_step| |].
  - destruct Hc as [->|(Hd & Hob & _)]; [by eapply slots_same|by eapply slots_closed].
  - destruct Hc as [->|(_ & _ & Hc)]; eapply handle_other; try done.
    exists (task_critical t). auto.
Qed.

Lemma lookup_new i th' (threads : list thread) th :
  threads !! i = Some th → <[i := th']> threads !! i = Some th'.
Proof. intros H. apply list_lookup_insert_eq. by eapply lookup_lt_Some. Qed.

Lemma step_sync ph t threads i r :
  task_inv ph t threads → threads !! i = Some (SyncTo r) → owner ph ≠ Some i →
  returns (thread_step t (SyncTo r))
    (λ '(t', th'), task_inv (phase_after ph i (SyncTo r)) t' (<[i := th']> threads)).
Proof.
  intros H Hi Ho. pose proof (ti_phase _ _ _ H) as Hp. cbn [thread_step].
  assert (∀ s, task_state t = DiceTaskState_into_u8_state s →
            set_state t (DiceTaskState_into_u8_state s) = t) as Hid by (intros s <-; by destruct t).
  destruct ph as [|j r0|j r0|j r0|r0]; cbn [phase_after].
  - destruct Hp as ((s & Es & Hs) & Hv & Hw). rewrite Es, sync_attempt.
    assert (match s with
            | Sync => (DiceTaskState_into_u8_state s, Retry)
            | Ready | Terminated => (DiceTaskState_into_u8_state s, Returned Finished)
            | _ => (DiceTaskState_into_u8_state Sync, Returned Continue)
            end = (DiceTaskState_into_u8_state Sync, Returned Continue)) as ->
      by (destruct s; cbn in Hs; try done; lia).
    cbn [mbind outcome_bind returns].
    eapply (inv_owner PhaseOpen); try done; [|by left].
    cbn. split; [done|]. split; [done|]. split; [by eapply lookup_new|exact Hw].
  - destruct Hp as (Es & _). rewrite Es, sync_attempt. cbn [mbind outcome_bind returns].
    rewrite (Hid _ Es). by eapply inv_move.
  - destruct Hp as (Es & _). rewrite Es, sync_attempt. cbn [mbind outcome_bind returns].
    rewrite (Hid _ Es). by eapply inv_move.
  - destruct Hp as (Es & _). rewrite Es, sync_attempt. pose proof (Hid _ Es) as E'.
    destruct r0; cbn [settled_of mbind outcome_bind returns] in *; rewrite E';
      destruct r; by eapply inv_move.
  - destruct Hp as (Es & _). rewrite Es, sync_attempt. pose proof (Hid _ Es) as E'.
    destruct r0; cbn [settled_of mbind outcome_bind returns] in *; rewrite E';
      destruct r; by eapply inv_move.
Qed.

(** The owner's own steps. *)
Lemma step_owner ph t threads i th :
  task_inv ph t threads → threads !! i = Some th → owner ph = Some i →
  returns (thread_step t th)
    (λ '(t', th'), task_inv (phase_after ph i th) t' (<[i := th']> threads)).
Proof.
  intros H Hi Ho. pose proof (ti_phase _ _ _ H) as Hp.
  destruct ph as [|j r|j r|j r|r]; cbn in Ho; try done; injection Ho as ->.
  - destruct Hp as (Es & Hv & Hth & Hw). rewrite Hi in Hth. injection Hth as ->.
    cbn [thread_step]. rewrite Hv. cbn [rust_assert mbind outcome_bind returns phase_after].
    eapply (inv_owner (PhaseWriting i r)); try done; [|by left]. cbn.
    split; [done|]. split; [done|]. split; [by eapply lookup_new|exact Hw].
  - destruct Hp as (Es & Hv & Hth & Hw). rewrite Hi in Hth. injection Hth as ->.
    cbn [thread_step]. rewrite Es.
    assert (match r with
            | inl _ => AtomicDiceTaskState_report_terminated (DiceTaskState_into_u8_state Sync)
            | inr _ => AtomicDiceTaskState_report_ready (DiceTaskState_into_u8_state Sync)
            end = Ok (DiceTaskState_into_u8_state (settled_of r), Returned Continue)) as -> by (by destruct r).
    cbn [mbind outcome_bind returns phase_after].
    eapply (inv_owner (PhasePublishing i r)); try done; [|by left]. cbn.
    split; [done|]. split; [done|]. split; [by eapply lookup_new|exact Hw].
  - destruct Hp as (Es & Hv & Hth & Hw). rewrite Hi in Hth. injection Hth as ->.
    cbn [thread_step]. unfold critical_wake_dependents. destruct Hw as [Hd Hob].
    destruct (cr_dependants (task_critical t)) as [m|] eqn:Ed; [|done].
    destruct (cr_termination_observers (task_critical t)) as [m'|] eqn:Eo; [|done].
    cbn [expect mbind outcome_bind returns phase_after].
    eapply (inv_owner (PhaseWaking i r)); try done; try (by destruct r); cbn.
    + intros j Hj [= ->]. done.
    + right. split_and!; [done|done|]. exists (task_critical t). cbn. auto.
Qed.

(** ** The critical section *)

Lemma Data_cancel_waiting c reason :
  cr_dependants (Data_cancel c reason) = cr_dependants c ∧
  cr_termination_observers (Data_cancel c reason) = cr_termination_observers c.
Proof. unfold Data_cancel. by destruct (cr_cancellation c). Qed.

Lemma phase_after_other ph i th :
  owner ph ≠ Some i → (∀ r, th ≠ SyncTo r) → thread_ok ph i th → phase_after ph i th = ph.
Proof.
  intros Ho Hs Hth. destruct ph as [|j r|j r|j r|r], th; cbn in *; try done; try (by destruct (Hs r0)).
  by destruct (Hs r).
Qed.

Lemma step_critical ph t threads i th :
  task_inv ph t threads → threads !! i = Some th → owner ph ≠ Some i →
  (match th with Register _ | AwaitTermination | Holding _ | Cancel _ | SetHandle => True | _ => False end) →
  returns (thread_step t th) (λ '(t', th'), task_inv ph t' (<[i := th']> threads)).
Proof.
  intros H Hi Ho Hth. pose proof H as [Hp Ht Hs Hh].
  pose proof (phase_slots _ _ _ Hp) as Hslots.
  assert (waiting_open (task_critical t) ∨ cr_dependants (task_critical t) = None ∧
            cr_termination_observers (task_critical t) = None) as Hoc by naive_solver.
  destruct th as [| | | | | | |k| |slab|reason| | | |]; try done; cbn [thread_step].
  - pose proof (depended_on_by_slots _ k _ i _ Hs Hi ltac:(naive_solver)) as Hd.
    destruct (critical_depended_on_by _ k) as [c' r]. destruct Hd as (Hs' & Hf & Hw & Hcl & Hcs).
    cbn [returns]. eapply inv_frame; [exact H|exact Hi|done| |done| |exact Hs'|].
    + destruct r; cbn; try done. destruct Hslots as [[? _]|([r ->] & _)]; [by destruct (Hf eq_refl)|done].
    + intros Hn1 Hn2. by rewrite Hcl.
    + eapply handle_other; [exact Hh|exact Hi|done|by destruct r|done].
  - pose proof (await_termination_slots _ _ i _ Hs Hi ltac:(naive_solver)) as Hd.
    destruct (critical_await_termination _) as [c' r]. destruct Hd as (Hs' & Hf & Hw & Hcl & Hcs).
    cbn [returns]. eapply inv_frame; [exact H|exact Hi|done| |done| |exact Hs'|].
    + destruct r; cbn; try done. destruct Hslots as [[_ ?]|([r ->] & _)]; [by destruct (Hf eq_refl)|done].
    + intros Hn1 Hn2. by rewrite Hcl.
    + eapply handle_other; [exact Hh|exact Hi|done|by destruct r|done].
  - eapply returns_bind; [by apply (drop_waiter_slots _ slab _ i Hs Hi)|].
    intros c' (Hs' & Hw & Hcl & Hcs). cbn [returns].
    eapply inv_frame; [exact H|exact Hi|done|done|done| |exact Hs'|].
    + intros Hn1 Hn2. by rewrite Hcl.
    + by eapply handle_other.
  - cbn [returns]. destruct (Data_cancel_waiting (task_critical t) reason) as [E1 E2].
    eapply inv_frame; [exact H|exact Hi|done|done| | | |].
    + unfold waiting_open. by rewrite E1, E2.
    + rewrite E1, E2. done.
    + by eapply slots_same.
    + eapply handle_other; [exact Hh|exact Hi|done|done|]. exists (Data_cancel (task_critical t) reason). eauto.
  - eapply returns_bind; [by apply (handle_set _ _ i Hh Hi)|].
    intros c' (Hh' & E1 & E2). cbn [returns].
    eapply inv_frame; [exact H|exact Hi|done|done| | | |exact Hh'].
    + unfold waiting_open. by rewrite E1, E2.
    + by rewrite E1, E2.
    + by eapply slots_same.
Qed.

Lemma step_inv ph t threads i th :
  task_inv ph t threads → threads !! i = Some th →
  returns (thread_step t th) (λ '(t', th'), task_inv (phase_after ph i th) t' (<[i := th']> threads)).
Proof.
  intros H Hi. destruct (decide (owner ph = Some i)) as [Ho|Ho]; [by apply step_owner|].
  pose proof (ti_threads _ _ _ H _ _ Hi) as Hth.
  assert ((∃ r, th = SyncTo r) ∨ ∀ r, th ≠ SyncTo r) as [[r ->]|Hns]
    by (destruct th; naive_solver); [by apply step_sync|].
  rewrite phase_after_other by done.
  destruct th as [r|r|r|r|k|k| |k| |slab|reason| |r| |reason]; cbn in Hth; try done;
    try (by apply step_critical).
  - by destruct (Hns r).
  - by apply step_load_ready.
  - by apply step_load_terminated.
  - cbn [thread_step]. pose proof (phase_state _ _ _ (ti_phase _ _ _ H)) as (s & _ & Hs).
    destruct (published ph) as [r|] eqn:Ep; [|done]. destruct Hs as [_ ->]. cbn.
    eapply inv_move; try done.
  - cbn. by eapply inv_move.
  - cbn. by eapply inv_move.
  - cbn. by eapply inv_move.
Qed.

(** ** Whole runs *)

Lemma phase_after_published ph i th r :
  published ph = Some r → published (phase_after ph i th) = Some r.
Proof. destruct ph, th; cbn; congruence. Qed.

(** The result a thread carries. *)
Definition carries (th : thread) : option result :=
  match th with
  | SyncTo r | WriteValue r | Publish r | WakeDependents r | Got r => Some r
  | _ => None
  end.

Definition origin_ok (R : result → Prop) (t : DiceTaskInternal) (threads : list thread) : Prop :=
  (∀ i th r, threads !! i = Some th → carries th = Some r → R r) ∧
  ∀ r, task_maybe_value t = Some r → R r.

Lemma step_origin t th t' th' r :
  thread_step t th = Ok (t', th') →
  (carries th' = Some r ∨ task_maybe_value t' = Some r) →
  carries th = Some r ∨ task_maybe_value t = Some r.
Proof.
  intros E H. destruct th as [r0|r0|r0|r0|k|k| |k| |slab|reason| |r0| |reason]; cbn in E; inv_bind;
    repeat match goal with
    | x : _ * _ |- _ => destruct x
    | a : attempt |- _ => destruct a as [[]|]
    | r : result |- _ => destruct r
    | b : bool |- _ => destruct b
    | k : on_none |- _ => destruct k
    | E : context [critical_depended_on_by ?c ?k] |- _ => destruct (critical_depended_on_by c k) as [? []]
    | E : context [critical_await_termination ?c] |- _ => destruct (critical_await_termination c) as [? []]
    end; cbn in *; inv_bind; naive_solver.
Qed.

Lemma run_inv R schedule : ∀ ph t threads,
  task_inv ph t threads → origin_ok R t threads →
  returns (run_schedule schedule t threads) (λ '(t', threads'),
    ∃ ph', task_inv ph' t' threads' ∧ origin_ok R t' threads' ∧ length threads' = length threads ∧
      ∀ r, published ph = Some r → published ph' = Some r).
Proof.
  induction schedule as [|i schedule IH]; intros ph t threads H Ho; cbn [run_schedule].
  - cbn. by exists ph.
  - destruct (threads !! i) as [th|] eqn:Hi; [|by apply (IH ph)].
    pose proof (step_inv _ _ _ _ _ H Hi) as ([t' th'] & E & H')%returns_Ok.
    rewrite E. cbn [mbind outcome_bind].
    assert (origin_ok R t' (<[i := th']> threads)) as Ho'.
    { destruct Ho as [O1 O2]. split.
      - intros j thj r. rewrite list_lookup_insert_Some. intros [(-> & <- & _)|[_ Hj]]; [|by apply (O1 j)].
        intros Hc. destruct (step_origin _ _ _ _ r E (or_introl Hc)); [by eapply O1|by apply O2].
      - intros r Hv. destruct (step_origin _ _ _ _ r E (or_intror Hv)); [by eapply O1|by apply O2]. }
    eapply returns_mono; [by apply (IH _ _ _ H')|]. intros [t2 threads2] (ph2 & H2 & O2 & Hl & Hp).
    exists ph2. rewrite length_insert in Hl. split_and!; [done|done|done|].
    intros r Hr. by apply Hp, phase_after_published.
Qed.

Lemma start_inv threads i0 :
  Forall (λ th, is_start th = true) threads → (∀ j, threads !! j = Some SetHandle ↔ j = i0) →
  task_inv PhaseOpen (DiceTaskInternal_new CancelPending) threads.
Proof.
  intros Hst Hset. assert (∀ i th, threads !! i = Some th → is_start th = true) as Hs.
  { intros i th Hi. by apply (Forall_lookup_1 _ _ i th Hst). }
  split.
  - cbn. split_and!; [exists (AwaitingPrevious NotProjecting); split; [done|cbn; lia]|done|done].
  - intros i th Hi%Hs. by destruct th as [| | | |[]|[]| | | | | | | | |].
  - split; [intros i slab Hi%Hs; done|intros _ i j slab Hi%Hs; done].
  - left. exists i0. split_and!; [done|done|by left].
Qed.

(** C3. A new task is worked on by any number of threads: completing it with a value
    or a cancellation, polling for its result, registering as dependents or as observers of its
    termination and dropping those registrations, cancelling it, and one setting its
    cancellation handle.  However their atomic steps interleave, none panics: the value cell is
    written once, no one reads it before it is written, and the dependents are woken once.  All
    threads that obtain a result obtain the same one, which is one that a completing thread
    brought and agrees with the state byte; once some thread has it, it never changes; and the
    cancellation handle is sent exactly one cancellation if the task was cancelled and the
    handle set, in either order, and none otherwise. *)
Theorem task_agreement (threads : list thread) (schedule : list nat) :
  Forall (λ th, is_start th = true) threads →
  (∃ i, ∀ j, threads !! j = Some SetHandle ↔ j = i) →
  ∃ t threads', run_schedule schedule (DiceTaskInternal_new CancelPending) threads = Ok (t, threads') ∧
    (∀ i r, threads' !! i = Some (Got r) →
       task_maybe_value t = Some r ∧
       DiceTaskState_from_u8_state (task_state t) = Ok (match r with inr _ => Ready | inl _ => Terminated end) ∧
       (∃ j, threads !! j = Some (SyncTo r)) ∧
       ∀ more, ∃ t2 threads2, run_schedule more t threads' = Ok (t2, threads2) ∧
         ∀ j r2, threads2 !! j = Some (Got r2) → r2 = r) ∧
    (cr_handle_cancels (task_critical t) = 1 ↔
       (∀ j, threads' !! j ≠ Some SetHandle) ∧ ∃ reason, cr_cancellation (task_critical t) = Cancelled reason) ∧
    cr_handle_cancels (task_critical t) ≤ 1.
Proof.
  intros Hst [i0 Hset]. set (R := λ r, ∃ j, threads !! j = Some (SyncTo r)).
  assert (origin_ok R (DiceTaskInternal_new CancelPending) threads) as Ho.
  { split; [|done]. intros i th r Hi Hc. pose proof (Forall_lookup_1 _ _ i th Hst Hi) as Hs.
    destruct th; try done. cbn in Hc. injection Hc as ->. by exists i. }
  pose proof (run_inv R schedule _ _ _ (start_inv _ _ Hst Hset) Ho) as H.
  apply returns_Ok in H as ([t threads'] & E & ph & H & O & _ & _).
  exists t, threads'. split; [done|]. split; [|split].
  - intros i r Hi. pose proof (ti_threads _ _ _ H i _ Hi) as Hp. cbn in Hp.
    pose proof (phase_state _ _ _ (ti_phase _ _ _ H)) as (s & Es & Hs). rewrite Hp in Hs.
    destruct Hs as [-> Hv]. split_and!; [done| |by apply O|].
    + rewrite Es, from_into. by destruct r.
    + intros more. pose proof (run_inv R more _ _ _ H O) as ([t2 threads2] & E2 & ph2 & H2 & _ & _ & Hp2)%returns_Ok.
      exists t2, threads2. split; [done|]. intros j r2 Hj.
      pose proof (ti_threads _ _ _ H2 j _ Hj) as Hj2. cbn in Hj2. rewrite (Hp2 r Hp) in Hj2. by injection Hj2.
  - destruct (ti_handle _ _ _ H) as [(i & H1 & -> & H3)|[H1 [[Hc ->]|(reason & Hc & ->)]]].
    + split; [done|]. intros [Hn _]. destruct (Hn i). by apply H1.
    + split; [done|]. intros [_ [reason Hc']]. congruence.
    + split; [|done]. intros _. split; [done|by exists reason].
  - destruct (ti_handle _ _ _ H) as [(i & H1 & -> & H3)|[H1 [[Hc ->]|(reason & Hc & ->)]]]; lia.
Qed.

End Task.

(** Two threads race to complete, one registers as a dependent and one cancels. *)
Lemma task_agreement_witness :
  let vacant := λ s : gset N, fresh s in
  let v := inr (mkComputed N (MaybePresent 7) [] TrackedInvalidationPaths_clean) : result in
  let threads := [SyncTo v; SyncTo (inl tt); LoadReady (ThenRegister tt); SetHandle; Cancel tt] in
  let schedule := [0; 2; 1; 2; 4; 0; 2; 0; 3; 0; 1; 2; 0; 1]%nat in
  ∃ t threads', run_schedule vacant tt tt schedule (DiceTaskInternal_new CancelPending) threads = Ok (t, threads') ∧
    threads' !! 0%nat = Some (Got v) ∧ task_maybe_value t = Some v ∧
    cr_handle_cancels (task_critical t) ≤ 1.
Proof.
  intros vacant v threads schedule.
  destruct (task_agreement (ParentKey:=unit) vacant tt tt (is_fresh (A:=N) (C:=gset N)) threads schedule)
    as (t & threads' & E & Hgot & _ & Hle).
  - repeat (apply List.Forall_cons; [reflexivity|]). apply List.Forall_nil.
  - exists 3%nat. intros j. do 5 (destruct j as [|j]; [cbn; split; intros H; (discriminate H || reflexivity)|]).
    cbn. split; intros H; discriminate H.
  - assert (∀ x, run_schedule vacant tt tt schedule (DiceTaskInternal_new CancelPending) threads = Ok x →
             snd x !! 0%nat = Some (Got v)) as H0
      by (intros x Ex; vm_compute in Ex; injection Ex as <-; reflexivity).
    specialize (H0 _ E). exists t, threads'. split; [exact E|]. split; [exact H0|].
    split; [apply (Hgot 0%nat v H0)|exact Hle].
Defined.
