(* ===== verification/CritGraph.v ===== *)
(** The graph on which critical paths are computed, from [src/app/bz_critical_path/src]:
    vertex numbers and the vectors they index ([types.rs]), the builder ([builder.rs]), and the
    operations of [graph.rs] that build graphs: edge iteration, reversal by counting, and adding
    edges.  A graph stores all its edges in one vector, and for each vertex where its edges
    start and how many they are; [graph_of] gives the graph of an adjacency list, and the
    theorems say which adjacency list each operation computes.

    A [VertexId] is the [u32] it wraps, as a natural number; an [OptionalVertexId] is an [i32].
    [SmallMap] is not code of this program: the builder uses it through the class [KeyMap]. *)
From S2P Require Import Prelude.
Local Open Scope dice_scope.

(** * Vertices *)

Notation VertexId := nat (only parsing).

(** [v as i32] of a [u32]. *)
Definition i32_of_u32 (v : Z) : Z :=
  let w := (v mod 2 ^ 32)%Z in if (w <? 2 ^ 31)%Z then w else (w - 2 ^ 32)%Z.

(** [-1] is none. *)
Record OptionalVertexId := mkOptionalVertexId { opt_raw : Z }.

Definition OptionalVertexId_from (node : VertexId) : OptionalVertexId :=
  mkOptionalVertexId (i32_of_u32 (Z.of_nat node)).

Definition OptionalVertexId_none : OptionalVertexId := mkOptionalVertexId (-1).

Definition OptionalVertexId_is_some (self : OptionalVertexId) : bool := (0 <=? opt_raw self)%Z.

Definition OptionalVertexId_into_option (self : OptionalVertexId) : option VertexId :=
  if (0 <=? opt_raw self)%Z then Some (Z.to_nat (opt_raw self)) else None.

(** A vector indexed by vertices; an index out of range panics. *)
Notation VertexData := list (only parsing).

Definition VertexData_index {T} (self : VertexData T) (index : VertexId) : outcome T :=
  expect (self !! index).

(** [l[i] = x], which panics out of range. *)
Definition vec_set {T} (l : list T) (i : nat) (x : T) : outcome (list T) :=
  if i <? length l then Ok (<[i := x]> l) else Panic.

Definition VertexData_set {T} (self : VertexData T) (index : VertexId) (x : T) :
    outcome (VertexData T) := vec_set self index x.

Definition VertexData_keys {T} (self : VertexData T) : outcome (list VertexId) :=
  _ ← expect (u32_try_from (length self)); Ok (seq 0 (length self)).

Definition VertexData_get {T} (self : VertexData T) (index : VertexId) : option T := self !! index.

(** * Graphs *)

Record GraphVertex := mkGraphVertex { gv_edges_idx : N; gv_edges_count : N }.

Record Graph := mkGraph { g_vertices : VertexData GraphVertex; g_edges : list VertexId }.

Definition Graph_iter_vertices (self : Graph) : outcome (list VertexId) :=
  VertexData_keys (g_vertices self).

(** [&l[from..to]], which panics out of range. *)
Definition slice {A} (l : list A) (from to : nat) : outcome (list A) :=
  if (from <=? to) && (to <=? length l) then Ok (take (to - from) (drop from l)) else Panic.

Definition Graph_iter_edges (self : Graph) (idx : VertexId) : outcome (list VertexId) :=
  vertex ← VertexData_index (g_vertices self) idx;
  let range_from := N.to_nat (gv_edges_idx vertex) in
  let range_to := range_from + N.to_nat (gv_edges_count vertex) in
  slice (g_edges self) range_from range_to.

Definition Graph_iter_all_edges (self : Graph) : outcome (list (VertexId * VertexId)) :=
  vs ← Graph_iter_vertices self;
  for_each (λ acc i, es ← Graph_iter_edges self i; Ok (acc ++ ((λ j, (i, j)) <$> es))) [] vs.

Definition Graph_allocate_vertex_data {T} (self : Graph) (default : T) : VertexData T :=
  replicate (length (g_vertices self)) default.

(** The loop over the edges that counts the reverse edges of each vertex. *)
Definition count_edge (rv : VertexData GraphVertex) (edge : VertexId) :
    outcome (VertexData GraphVertex) :=
  v ← VertexData_index rv edge;
  VertexData_set rv edge (mkGraphVertex (gv_edges_idx v) (u32_add (gv_edges_count v) 1)).

(** The loop that lays the reverse edges out: each vertex starts where the previous one ends. *)
Fixpoint assign_edges_idx (idx : N) (rv : VertexData GraphVertex) : N * VertexData GraphVertex :=
  match rv with
  | [] => (idx, [])
  | v :: rv =>
      let '(idx', rv) := assign_edges_idx (u32_add idx (gv_edges_count v)) rv in
      (idx', mkGraphVertex idx (gv_edges_count v) :: rv)
  end.

(** One iteration of the loop that places the reverse edge of [from → to]. *)
Definition place_edge (rv : VertexData GraphVertex) (from : VertexId)
    (st : VertexData nat * list VertexId) (to : VertexId) :
    outcome (VertexData nat * list VertexId) :=
  let '(vertex_edge_offset, reverse_edges) := st in
  offset ← VertexData_index vertex_edge_offset to;
  v ← VertexData_index rv to;
  let at_ := N.to_nat (gv_edges_idx v) + offset in
  reverse_edges ← vec_set reverse_edges at_ from;
  vertex_edge_offset ← VertexData_set vertex_edge_offset to (S offset);
  Ok (vertex_edge_offset, reverse_edges).

Definition Graph_reversed (self : Graph) : outcome Graph :=
  rv ← for_each count_edge (Graph_allocate_vertex_data self (mkGraphVertex 0 0)) (g_edges self);
  let '(idx, reverse_vertices) := assign_edges_idx 0 rv in
  assert! N.to_nat idx =? length (g_edges self);;
  vs ← Graph_iter_vertices self;
  '(_, reverse_edges) ←
     for_each (λ st from, tos ← Graph_iter_edges self from;
                          for_each (place_edge reverse_vertices from) st tos)
       (Graph_allocate_vertex_data self 0, replicate (length (g_edges self)) 0) vs;
  Ok (mkGraph reverse_vertices reverse_edges).

Definition Graph_vertices_count (self : Graph) : nat := length (g_vertices self).
Definition Graph_edges_count (self : Graph) : nat := length (g_edges self).

(** The trait [AddEdges], and its instance for optional vertices. *)
Class AddEdges (T : Type) := edges_for_vertex : T → VertexId → outcome (list VertexId).

Definition AddEdges_OptionalVertexId : AddEdges (VertexData OptionalVertexId) := λ self idx,
  o ← VertexData_index self idx; Ok (option_list (OptionalVertexId_into_option o)).
Global Existing Instance AddEdges_OptionalVertexId.

(** [edges.push(e); edges_count += 1; all_edges_idx += 1] for each edge. *)
Definition push_edge (st : list VertexId * N * N) (e : VertexId) : outcome (list VertexId * N * N) :=
  let '(edges, edges_count, all_edges_idx) := st in
  Ok (edges ++ [e], u32_add edges_count 1, u32_add all_edges_idx 1).

Definition Graph_add_edges {T} `{AddEdges T} (self : Graph) (add : T) : outcome Graph :=
  vs ← Graph_iter_vertices self;
  '(vertices, edges, _) ←
     for_each (λ st from,
         let '(vertices, edges, all_edges_idx) := st in
         let edges_idx := all_edges_idx in
         es ← Graph_iter_edges self from;
         '(edges, edges_count, all_edges_idx) ← for_each push_edge (edges, 0%N, all_edges_idx) es;
         es ← edges_for_vertex add from;
         '(edges, edges_count, all_edges_idx) ←
            for_each push_edge (edges, edges_count, all_edges_idx) es;
         vertices ← VertexData_set vertices from (mkGraphVertex edges_idx edges_count);
         Ok (vertices, edges, all_edges_idx))
       (Graph_allocate_vertex_data self (mkGraphVertex 0 0), [], 0%N) vs;
  Ok (mkGraph vertices edges).

(** * The builder *)

(** The map from keys to vertices: what the builder and its clients use of [SmallMap], a map that
    iterates in the order of insertion. *)
Class KeyMap (K M : Type) := {
  km_new : M;
  km_get : M → K → option VertexId;
  km_insert : M → K → VertexId → M;
  km_get_index : M → nat → option K;
  km_entries : M → list (K * VertexId);
}.

Class KeyMapLaws (K M : Type) `{EqDecision K} `{KeyMap K M} := {
  km_new_entries : km_entries km_new = [];
  km_get_entries : ∀ m k v, NoDup (km_entries m).*1 → km_get m k = Some v ↔ (k, v) ∈ km_entries m;
  km_insert_entries : ∀ m k v, k ∉ (km_entries m).*1 →
    km_entries (km_insert m k v) = km_entries m ++ [(k, v)];
  km_get_index_entries : ∀ m i, km_get_index m i = (km_entries m).*1 !! i;
}.

Inductive PushError (K : Type) :=
| DuplicateKey (key : K)
| Overflow.
Arguments DuplicateKey {_} _.
Arguments Overflow {_}.

Section Builder.
Context {K D M : Type} `{EqDecision K} `{KeyMap K M}.

Record GraphBuilder := mkGraphBuilder {
  gb_keys : M;
  gb_data : list D;
  gb_vertices : list GraphVertex;
  gb_edges : list VertexId;
}.

Definition GraphBuilder_new : GraphBuilder := mkGraphBuilder km_new [] [] [].

(** The loop over the dependencies: unknown keys are skipped. *)
Fixpoint push_deps (keys : M) (edges : list VertexId) (edges_count : N) (deps : list K) :
    list VertexId * N :=
  match deps with
  | [] => (edges, edges_count)
  | dep :: deps =>
      match km_get keys dep with
      | Some dep_idx => push_deps keys (edges ++ [dep_idx]) (u32_add edges_count 1) deps
      | None => push_deps keys edges edges_count deps
      end
  end.

Definition i32_MAX : N := 2 ^ 31 - 1.

(** [&mut self] keeps what was done before an error. *)
Definition GraphBuilder_push (self : GraphBuilder) (key : K) (deps : list K) (data : D) :
    GraphBuilder * (unit + PushError K) :=
  match u32_try_from (length (gb_vertices self)) with
  | None => (self, inr Overflow)
  | Some idx =>
      if (i32_MAX <? idx)%N then (self, inr Overflow) else
      match km_get (gb_keys self) key with
      | Some _ => (self, inr (DuplicateKey key))
      | None =>
          let keys := km_insert (gb_keys self) key (N.to_nat idx) in
          let data := gb_data self ++ [data] in
          match u32_try_from (length (gb_edges self)) with
          | None => (mkGraphBuilder keys data (gb_vertices self) (gb_edges self), inr Overflow)
          | Some edges_idx =>
              let '(edges, edges_count) := push_deps keys (gb_edges self) 0 deps in
              (mkGraphBuilder keys data
                 (gb_vertices self ++ [mkGraphVertex edges_idx edges_count]) edges, inl tt)
          end
      end
  end.

Definition GraphBuilder_finish (self : GraphBuilder) : Graph * M * VertexData D :=
  (mkGraph (gb_vertices self) (gb_edges self), gb_keys self, gb_data self).

End Builder.
Arguments GraphBuilder _ _ : clear implicits.

(** * Adjacency lists *)

Fixpoint layout (idx : N) (adj : list (list VertexId)) : list GraphVertex :=
  match adj with
  | [] => []
  | es :: adj =>
      mkGraphVertex idx (N.of_nat (length es)) :: layout (idx + N.of_nat (length es)) adj
  end.

(** The graph of an adjacency list. *)
Definition graph_of (adj : list (list VertexId)) : Graph := mkGraph (layout 0 adj) (concat adj).

(** An adjacency list a graph can hold: counts fit [u32], edges lead to vertices. *)
Record adj_ok (adj : list (list VertexId)) : Prop := {
  ok_vertices : (N.of_nat (length adj) <= 2 ^ 32 - 1)%N;
  ok_edges : (N.of_nat (length (concat adj)) <= 2 ^ 32 - 1)%N;
  ok_targets : Forall (Forall (λ v, v < length adj)) adj;
}.

Lemma layout_length idx adj : length (layout idx adj) = length adj.
Proof. revert idx. induction adj as [|es adj IH]; intros idx; cbn; [done|by rewrite IH]. Qed.

Lemma layout_lookup idx adj v :
  layout idx adj !! v =
  (λ es, mkGraphVertex (idx + N.of_nat (length (concat (take v adj)))) (N.of_nat (length es)))
    <$> adj !! v.
Proof.
  revert idx v. induction adj as [|es adj IH]; intros idx [|v]; cbn; [done..| |].
  - f_equal. f_equal. lia.
  - rewrite IH. destruct (adj !! v); cbn; [|done]. do 2 f_equal. rewrite length_app. lia.
Qed.

Lemma layout_app idx adj1 adj2 :
  layout idx (adj1 ++ adj2) =
  layout idx adj1 ++ layout (idx + N.of_nat (length (concat adj1))) adj2.
Proof.
  revert idx. induction adj1 as [|es adj1 IH]; intros idx; cbn.
  - f_equal. lia.
  - rewrite IH. do 3 f_equal. rewrite length_app. lia.
Qed.

Lemma concat_split {A} (ls : list (list A)) v l :
  ls !! v = Some l → concat ls = concat (take v ls) ++ l ++ concat (drop (S v) ls).
Proof.
  intros H. rewrite <- (take_drop_middle ls v l H) at 1. rewrite concat_app. done.
Qed.

Lemma concat_take_le {A} (ls : list (list A)) v l :
  ls !! v = Some l → length (concat (take v ls)) + length l ≤ length (concat ls).
Proof. intros H. rewrite (concat_split ls v l H), !length_app. lia. Qed.

(** Updating inside one segment of a concatenation. *)
Lemma concat_insert {A} (ls : list (list A)) v l k x :
  ls !! v = Some l → k < length l →
  <[length (concat (take v ls)) + k := x]> (concat ls) = concat (<[v := <[k := x]> l]> ls).
Proof.
  intros H Hk. rewrite (concat_split ls v l H).
  rewrite insert_app_r_alt by lia. replace (_ + k - _) with k by lia.
  rewrite insert_app_l by done.
  rewrite <- (take_drop_middle ls v l H) at 3.
  rewrite insert_app_r_alt by (rewrite length_take; lia).
  rewrite length_take_le by (apply lookup_lt_Some in H; lia). rewrite Nat.sub_diag. cbn.
  rewrite concat_app. cbn. done.
Qed.

Lemma slice_concat {A} (ls : list (list A)) v l :
  ls !! v = Some l →
  slice (concat ls) (length (concat (take v ls))) (length (concat (take v ls)) + length l) = Ok l.
Proof.
  intros H. unfold slice. pose proof (concat_take_le ls v l H).
  rewrite (proj2 (Nat.leb_le _ _)), (proj2 (Nat.leb_le _ _)) by lia. cbn. f_equal.
  rewrite (concat_split ls v l H), drop_app_length.
  replace (_ + length l - _) with (length l) by lia. apply take_app_length.
Qed.

Lemma iter_edges_of adj v es :
  adj !! v = Some es → Graph_iter_edges (graph_of adj) v = Ok es.
Proof.
  intros H. unfold Graph_iter_edges, VertexData_index, graph_of. cbn [g_vertices g_edges].
  rewrite layout_lookup, H. cbn. rewrite ?N.add_0_l, !Nat2N.id. by apply slice_concat.
Qed.

Lemma iter_edges_out adj v :
  length adj ≤ v → Graph_iter_edges (graph_of adj) v = Panic.
Proof.
  intros H. unfold Graph_iter_edges, VertexData_index, graph_of. cbn [g_vertices].
  rewrite layout_lookup, lookup_ge_None_2 by done. done.
Qed.

Lemma iter_vertices_of adj :
  (N.of_nat (length adj) <= 2 ^ 32 - 1)%N →
  Graph_iter_vertices (graph_of adj) = Ok (seq 0 (length adj)).
Proof.
  intros H. unfold Graph_iter_vertices, VertexData_keys, graph_of. cbn [g_vertices].
  rewrite layout_length, u32_try_from_Some by done. done.
Qed.

Lemma VertexData_index_Ok {T} (d : VertexData T) v x : d !! v = Some x → VertexData_index d v = Ok x.
Proof. unfold VertexData_index. by intros ->. Qed.

Lemma vec_set_Ok {T} (d : list T) v x : v < length d → vec_set d v x = Ok (<[v := x]> d).
Proof. intros H. unfold vec_set. by rewrite (proj2 (Nat.ltb_lt _ _) H). Qed.

Lemma VertexData_set_Ok {T} (d : VertexData T) v x :
  v < length d → VertexData_set d v x = Ok (<[v := x]> d).
Proof. apply vec_set_Ok. Qed.

(** The edges of an adjacency list, in the order of the edge vector. *)
Definition all_edges_from (from : nat) (adj : list (list VertexId)) : list (VertexId * VertexId) :=
  concat (imap (λ i es, (λ j, (from + i, j)) <$> es) adj).
Definition all_edges adj := all_edges_from 0 adj.

(** The sources of the edges into [v], in order. *)
Definition incoming (v : VertexId) (es : list (VertexId * VertexId)) : list VertexId :=
  (filter (λ e, e.2 = v) es).*1.

(** The reverse adjacency list. *)
Definition rev_adj (adj : list (list VertexId)) : list (list VertexId) :=
  (λ v, incoming v (all_edges adj)) <$> seq 0 (length adj).

Lemma all_edges_from_cons from es adj :
  all_edges_from from (es :: adj) = ((λ j, (from, j)) <$> es) ++ all_edges_from (S from) adj.
Proof.
  unfold all_edges_from. cbn. f_equal.
  - apply list_fmap_ext. intros. f_equal. lia.
  - f_equal. apply imap_ext. intros. apply list_fmap_ext. intros. cbn. f_equal. lia.
Qed.

Lemma all_edges_from_snd from adj : (all_edges_from from adj).*2 = concat adj.
Proof.
  revert from. induction adj as [|es adj IH]; intros from; [done|].
  rewrite all_edges_from_cons, fmap_app, IH. cbn. f_equal.
  rewrite <- list_fmap_compose. cbn. apply list_fmap_id.
Qed.

Lemma elem_of_all_edges adj u v :
  (u, v) ∈ all_edges adj ↔ ∃ es, adj !! u = Some es ∧ v ∈ es.
Proof.
  unfold all_edges. enough (∀ from, (u, v) ∈ all_edges_from from adj ↔
    ∃ es, from ≤ u ∧ adj !! (u - from) = Some es ∧ v ∈ es) as E.
  { rewrite E. rewrite Nat.sub_0_r. naive_solver lia. }
  induction adj as [|es adj IH]; intros from.
  { cbn. split; [by intros ?%elem_of_nil|by intros (? & _ & [=] & _)]. }
  rewrite all_edges_from_cons, elem_of_app, IH, list_elem_of_fmap. split.
  - intros [(j & [= -> ->] & Hj)|(es' & Hle & Hl & Hv)].
    + exists es. rewrite Nat.sub_diag. done.
    + exists es'. split_and!; [lia| |done]. by replace (u - from) with (S (u - S from)) by lia.
  - intros (es' & Hle & Hl & Hv). destruct (decide (u = from)) as [->|].
    + rewrite Nat.sub_diag in Hl. cbn in Hl. simplify_eq. left. eauto.
    + right. exists es'. split_and!; [lia| |done].
      by replace (u - from) with (S (u - S from)) in Hl by lia.
Qed.

Lemma incoming_app v es1 es2 : incoming v (es1 ++ es2) = incoming v es1 ++ incoming v es2.
Proof. unfold incoming. by rewrite filter_app, fmap_app. Qed.

Lemma incoming_snoc_eq f t es : incoming t (es ++ [(f, t)]) = incoming t es ++ [f].
Proof. rewrite incoming_app. unfold incoming at 2. by rewrite (filter_cons_True _ _ []). Qed.

Lemma incoming_snoc_ne v f t es : v ≠ t → incoming v (es ++ [(f, t)]) = incoming v es.
Proof.
  intros H. rewrite incoming_app. unfold incoming at 2.
  rewrite (filter_cons_False _ _ []) by (cbn; congruence). cbn. by rewrite app_nil_r.
Qed.

Lemma elem_of_incoming u v es : u ∈ incoming v es ↔ (u, v) ∈ es.
Proof.
  unfold incoming. rewrite list_elem_of_fmap. split.
  - intros ([u' v'] & -> & [Hv Hin]%list_elem_of_filter). cbn in *. by subst.
  - intros Hin. exists (u, v). split; [done|]. by apply list_elem_of_filter.
Qed.

Lemma rev_adj_length adj : length (rev_adj adj) = length adj.
Proof. unfold rev_adj. by rewrite length_fmap, length_seq. Qed.

Lemma rev_adj_lookup adj v :
  v < length adj → rev_adj adj !! v = Some (incoming v (all_edges adj)).
Proof. intros H. unfold rev_adj. rewrite list_lookup_fmap, lookup_seq_lt by done. done. Qed.

(** * Edges of graphs *)

(** [u → v] is an edge. *)
Definition edge (adj : list (list VertexId)) (u v : VertexId) : Prop :=
  ∃ es, adj !! u = Some es ∧ v ∈ es.

Lemma edge_rev adj u v : adj_ok adj → edge (rev_adj adj) v u ↔ edge adj u v.
Proof.
  intros Hok. unfold edge at 2. rewrite <- elem_of_all_edges. split.
  - intros (es & Hl & Hin). pose proof (lookup_lt_Some _ _ _ Hl) as Hlt.
    rewrite rev_adj_length in Hlt. rewrite rev_adj_lookup in Hl by done. simplify_eq.
    by apply elem_of_incoming.
  - intros Hin. assert (v < length adj) as Hlt.
    { apply elem_of_all_edges in Hin as (es & Hl & Hin).
      pose proof (Forall_lookup_1 _ _ _ _ (ok_targets _ Hok) Hl) as Hf.
      by eapply Forall_forall in Hf. }
    eexists. split; [by apply rev_adj_lookup|]. by apply elem_of_incoming.
Qed.

Lemma edge_lt adj u v : adj_ok adj → edge adj u v → u < length adj ∧ v < length adj.
Proof.
  intros Hok (es & Hl & Hin). split; [by apply lookup_lt_Some in Hl|].
  pose proof (Forall_lookup_1 _ _ _ _ (ok_targets _ Hok) Hl) as Hf. by eapply Forall_forall in Hf.
Qed.

(** * Reversal *)

Lemma length_incoming_count v es :
  length (incoming v es) = length (filter (λ w, w = v) es.*2).
Proof.
  unfold incoming. rewrite length_fmap. induction es as [|[u w] es IH]; [done|].
  rewrite fmap_cons, !filter_cons. cbn. destruct (decide (w = v)); cbn; lia.
Qed.

Lemma incoming_total n es :
  Forall (λ e, e.2 < n) es → length (concat ((λ v, incoming v es) <$> seq 0 n)) = length es.
Proof.
  intros H. transitivity (length (filter (λ e, e.2 < n) es)).
  - clear H. induction n as [|n IH].
    + induction es as [|e es IH]; [done|]. rewrite filter_cons, decide_False by lia. exact IH.
    + rewrite seq_S, fmap_app, concat_app, length_app, IH. cbn. rewrite app_nil_r. clear IH.
      unfold incoming. rewrite length_fmap. induction es as [|e es IH]; [done|].
      rewrite !filter_cons. repeat case_decide; cbn; lia.
  - induction H; [done|]. rewrite filter_cons, decide_True by done. cbn. lia.
Qed.

Lemma all_edges_targets adj : adj_ok adj → Forall (λ e, e.2 < length adj) (all_edges adj).
Proof.
  intros Hok. apply Forall_forall. intros [u v] (es & Hl & Hin)%elem_of_all_edges.
  pose proof (Forall_lookup_1 _ _ _ _ (ok_targets _ Hok) Hl) as Hf. by eapply Forall_forall in Hf.
Qed.

Lemma all_edges_from_fst from adj e : e ∈ all_edges_from from adj → e.1 < from + length adj.
Proof.
  revert from. induction adj as [|es adj IH]; intros from; [by intros ?%elem_of_nil|].
  rewrite all_edges_from_cons, elem_of_app, list_elem_of_fmap. cbn.
  intros [(j & -> & _)|H%IH]; cbn; lia.
Qed.

Lemma rev_adj_total adj : adj_ok adj → length (concat (rev_adj adj)) = length (concat adj).
Proof.
  intros Hok. unfold rev_adj. rewrite incoming_total by by apply all_edges_targets.
  rewrite <- (all_edges_from_snd 0 adj), length_fmap. done.
Qed.

Lemma rev_adj_ok adj : adj_ok adj → adj_ok (rev_adj adj).
Proof.
  intros Hok. split.
  - rewrite rev_adj_length. apply Hok.
  - rewrite rev_adj_total by done. apply Hok.
  - rewrite rev_adj_length. unfold rev_adj. apply Forall_fmap, Forall_forall. intros v _.
    apply Forall_forall. intros u Hu%elem_of_incoming. cbn.
    by apply all_edges_from_fst in Hu.
Qed.

(** The counting loop. *)
Lemma count_edges_of n es :
  Forall (λ v, v < n) es → (N.of_nat (length es) <= 2 ^ 32 - 1)%N →
  returns (for_each count_edge (replicate n (mkGraphVertex 0 0)) es)
    (λ rv, rv = (λ v, mkGraphVertex 0 (N.of_nat (length (filter (λ w, w = v) es)))) <$> seq 0 n).
Proof.
  intros Hf Hlen. apply (for_each_inv count_edge (λ done rv,
    rv = (λ v, mkGraphVertex 0 (N.of_nat (length (filter (λ w, w = v) done)))) <$> seq 0 n)).
  { apply list_eq_same_length with n; rewrite ?length_fmap, ?length_seq, ?length_replicate; [done..|].
    intros i x y Hi. rewrite lookup_replicate, list_lookup_fmap, lookup_seq_lt by done.
    intros [-> _] [= <-]. done. }
  intros don v rest rv -> ->. unfold count_edge.
  apply Forall_app in Hf as [_ Hv%Forall_inv]. rewrite length_app in Hlen. cbn in Hlen.
  erewrite VertexData_index_Ok by (rewrite list_lookup_fmap, lookup_seq_lt by done; done).
  cbn -[N.pow filter seq fmap]. rewrite VertexData_set_Ok by (by rewrite length_fmap, length_seq).
  cbn -[N.pow filter seq fmap]. pose proof (length_filter (λ w, w = v) don).
  rewrite u32_add_small by lia.
  apply list_eq. intros i. destruct (decide (i = v)) as [->|Hne].
  - rewrite list_lookup_insert_eq by (by rewrite length_fmap, length_seq).
    rewrite list_lookup_fmap, lookup_seq_lt by done. cbn -[N.pow filter].
    rewrite filter_app, length_app, (filter_cons_True _ _ []) by done. cbn. do 2 f_equal. lia.
  - rewrite list_lookup_insert_ne by done. rewrite !list_lookup_fmap.
    destruct (seq 0 n !! i) as [w|] eqn:E; cbn -[N.pow filter]; [|done].
    apply lookup_seq in E as [-> _].
    rewrite filter_app, (filter_cons_False _ _ []) by (cbn; lia). cbn. by rewrite app_nil_r.
Qed.

(** The layout loop. *)
Lemma assign_edges_idx_of idx ls :
  (idx + N.of_nat (length (concat ls)) <= 2 ^ 32 - 1)%N →
  assign_edges_idx idx ((λ l : list VertexId, mkGraphVertex 0 (N.of_nat (length l))) <$> ls) =
  ((idx + N.of_nat (length (concat ls)))%N, layout idx ls).
Proof.
  revert idx. induction ls as [|l ls IH]; intros idx H; cbn -[N.pow] in *.
  { f_equal. lia. }
  rewrite length_app in *. rewrite u32_add_small, IH by lia. f_equal. lia.
Qed.

Section Placing.
Context (adj : list (list VertexId)) (Hok : adj_ok adj).

Let n := length adj.
Let es := all_edges adj.

(** What the placing loop has built once it has visited the edges [ps]. *)
Definition placed_offsets (ps : list (VertexId * VertexId)) : VertexData nat :=
  (λ v, length (incoming v ps)) <$> seq 0 n.
Definition placed_segments (ps : list (VertexId * VertexId)) : list (list VertexId) :=
  (λ v, incoming v ps ++ replicate (length (incoming v es) - length (incoming v ps)) 0) <$> seq 0 n.

Lemma placed_segments_lookup ps v :
  v < n → placed_segments ps !! v =
    Some (incoming v ps ++ replicate (length (incoming v es) - length (incoming v ps)) 0).
Proof. intros H. unfold placed_segments. by rewrite list_lookup_fmap, lookup_seq_lt. Qed.

Lemma incoming_prefix v ps rest : es = ps ++ rest → length (incoming v ps) ≤ length (incoming v es).
Proof. intros ->. rewrite incoming_app, length_app. lia. Qed.

(** The segments have the lengths of the final ones. *)
Lemma placed_segments_total ps rest k :
  es = ps ++ rest →
  length (concat (take k (placed_segments ps))) = length (concat (take k (rev_adj adj))).
Proof.
  intros E. unfold placed_segments, rev_adj. fold n es. rewrite <- !fmap_take, take_seq.
  generalize (seq 0 (k `min` n)). intros l. induction l as [|v l IH]; cbn; [done|].
  pose proof (incoming_prefix v ps rest E). fold es.
  rewrite !length_app, length_replicate, IH. lia.
Qed.

Lemma place_edge_step ps f t rest :
  es = ps ++ (f, t) :: rest →
  place_edge (layout 0 (rev_adj adj)) f (placed_offsets ps, concat (placed_segments ps)) t =
  Ok (placed_offsets (ps ++ [(f, t)]), concat (placed_segments (ps ++ [(f, t)]))).
Proof.
  intros E. pose proof (all_edges_targets adj Hok) as Hf. fold es n in Hf. rewrite E in Hf.
  apply Forall_app in Hf as [_ Ht%Forall_inv]. cbn in Ht.
  assert (length (incoming t (ps ++ [(f, t)])) = S (length (incoming t ps))) as Elen.
  { rewrite incoming_snoc_eq, length_app. cbn. lia. }
  assert (length (incoming t (ps ++ [(f, t)])) ≤ length (incoming t es)) as Hle.
  { apply incoming_prefix with rest. by rewrite <- app_assoc. }
  unfold place_edge, placed_offsets. cbv beta iota.
  rewrite (VertexData_index_Ok (_ <$> seq 0 n) t (length (incoming t ps)))
    by (by rewrite list_lookup_fmap, lookup_seq_lt).
  cbn -[layout seq fmap rev_adj].
  erewrite VertexData_index_Ok
    by (rewrite layout_lookup, rev_adj_lookup by done; cbn -[rev_adj]; done).
  cbn -[layout seq fmap rev_adj]. rewrite ?N.add_0_l, Nat2N.id.
  rewrite <- (placed_segments_total ps ((f, t) :: rest)) by done.
  pose proof (placed_segments_lookup ps t Ht) as El.
  set (l := incoming t ps ++ replicate (length (incoming t es) - length (incoming t ps)) 0) in *.
  assert (length (incoming t ps) < length l) as Hl.
  { unfold l. rewrite length_app, length_replicate. fold es in Hle. lia. }
  pose proof (concat_take_le _ _ _ El).
  rewrite (vec_set_Ok (concat _)) by lia. cbn -[layout seq fmap rev_adj].
  rewrite VertexData_set_Ok by (by rewrite length_fmap, length_seq). cbn -[seq fmap].
  rewrite (concat_insert _ _ _ _ _ El Hl). f_equal. f_equal.
  - apply list_eq. intros i. destruct (decide (i = t)) as [->|Hne].
    + rewrite list_lookup_insert_eq by (by rewrite length_fmap, length_seq).
      rewrite list_lookup_fmap, lookup_seq_lt by done. cbn -[incoming]. by rewrite Elen.
    + rewrite list_lookup_insert_ne by done. rewrite !list_lookup_fmap.
      destruct (seq 0 n !! i) as [w|] eqn:Ew; cbn -[incoming]; [|done].
      apply lookup_seq in Ew as [-> _]. by rewrite incoming_snoc_ne by (cbn; congruence).
  - f_equal. apply list_eq. intros i. destruct (decide (i = t)) as [->|Hne].
    + rewrite list_lookup_insert_eq by (by unfold placed_segments; rewrite length_fmap, length_seq).
      rewrite placed_segments_lookup by done. rewrite Elen. unfold l.
      rewrite insert_app_r_alt, Nat.sub_diag by lia.
      destruct (length (incoming t es) - length (incoming t ps)) as [|k] eqn:Ek; [lia|].
      replace (_ - S _) with k by lia. cbn. rewrite incoming_snoc_eq. by rewrite <- app_assoc.
    + rewrite list_lookup_insert_ne by done. unfold placed_segments. rewrite !list_lookup_fmap.
      destruct (seq 0 n !! i) as [w|] eqn:Ew; cbn -[incoming]; [|done].
      apply lookup_seq in Ew as [-> _]. by rewrite incoming_snoc_ne by (cbn; congruence).
Qed.
Lemma place_edges_of ps f tos rest :
  es = ps ++ ((λ t, (f, t)) <$> tos) ++ rest →
  for_each (place_edge (layout 0 (rev_adj adj)) f)
    (placed_offsets ps, concat (placed_segments ps)) tos =
  Ok (placed_offsets (ps ++ ((λ t, (f, t)) <$> tos)),
      concat (placed_segments (ps ++ ((λ t, (f, t)) <$> tos)))).
Proof.
  revert ps. induction tos as [|t tos IH]; intros ps E; cbn [fmap list_fmap] in *.
  { cbn. by rewrite app_nil_r. }
  cbn [for_each]. rewrite (place_edge_step ps f t (((λ t, (f, t)) <$> tos) ++ rest)) by done.
  cbn -[fmap]. rewrite (IH (ps ++ [(f, t)])) by (by rewrite E, <- app_assoc).
  by rewrite <- app_assoc.
Qed.

Lemma all_edges_snoc adj1 tos :
  all_edges (adj1 ++ [tos]) = all_edges adj1 ++ ((λ t, (length adj1, t)) <$> tos).
Proof.
  unfold all_edges, all_edges_from. rewrite imap_app, concat_app. cbn. rewrite app_nil_r.
  f_equal. apply list_fmap_ext. intros. f_equal. lia.
Qed.

Lemma place_all_of adj1 adj2 :
  adj = adj1 ++ adj2 →
  for_each (λ st from, tos ← Graph_iter_edges (graph_of adj) from;
                       for_each (place_edge (layout 0 (rev_adj adj)) from) st tos)
    (placed_offsets (all_edges adj1), concat (placed_segments (all_edges adj1)))
    (seq (length adj1) (length adj2)) =
  Ok (placed_offsets es, concat (placed_segments es)).
Proof.
  revert adj1. induction adj2 as [|tos adj2 IH]; intros adj1 E.
  { cbn. rewrite app_nil_r in E. unfold es. by rewrite <- E. }
  cbn [length seq for_each].
  rewrite (iter_edges_of adj (length adj1) tos)
    by (rewrite E, lookup_app_r, Nat.sub_diag by done; done).
  cbn [mbind outcome_bind]. rewrite (place_edges_of _ _ _ (all_edges_from (S (length adj1)) adj2)).
  - cbn [mbind outcome_bind]. rewrite <- all_edges_snoc.
    replace (S (length adj1)) with (length (adj1 ++ [tos])) by (rewrite length_app; cbn; lia).
    apply IH. by rewrite <- app_assoc.
  - unfold es. rewrite E. unfold all_edges, all_edges_from. rewrite imap_app, concat_app. f_equal.
    cbn. f_equal.
    + apply list_fmap_ext. intros. f_equal. lia.
    + f_equal. apply imap_ext. intros. apply list_fmap_ext. intros. cbn. f_equal. lia.
Qed.

Lemma placed_none :
  placed_offsets [] = replicate n 0 ∧
  concat (placed_segments []) = replicate (length (concat adj)) 0.
Proof.
  split.
  - apply list_eq. intros i. unfold placed_offsets. rewrite list_lookup_fmap.
    destruct (decide (i < n)).
    + by rewrite lookup_seq_lt, lookup_replicate_2 by done.
    + rewrite !lookup_ge_None_2; [done|rewrite length_replicate; lia|rewrite length_seq; lia].
  - rewrite <- (rev_adj_total adj Hok). unfold placed_segments, rev_adj. fold n es.
    induction (seq 0 n) as [|v l IH]; [done|]. cbn -[incoming].
    rewrite IH, length_app, replicate_add. cbn. by rewrite Nat.sub_0_r.
Qed.

Lemma placed_all : concat (placed_segments es) = concat (rev_adj adj).
Proof.
  unfold placed_segments, rev_adj. fold n es. f_equal. apply list_fmap_ext. intros.
  rewrite Nat.sub_diag. cbn. by rewrite app_nil_r.
Qed.

Lemma reversed_of : Graph_reversed (graph_of adj) = Ok (graph_of (rev_adj adj)).
Proof.
  unfold Graph_reversed, Graph_allocate_vertex_data.
  rewrite iter_vertices_of by apply Hok. cbn [g_vertices g_edges graph_of].
  rewrite layout_length.
  destruct (proj1 (returns_Ok _ _) (count_edges_of n (concat adj) ltac:(by apply Forall_concat, Hok)
    (ok_edges _ Hok))) as (rv & Erv & ->).
  fold n. rewrite Erv. clear Erv. cbn [mbind outcome_bind].
  assert (((λ v, mkGraphVertex 0 (N.of_nat (length (filter (λ w, w = v) (concat adj))))) <$> seq 0 n)
    = ((λ l : list VertexId, mkGraphVertex 0 (N.of_nat (length l))) <$> rev_adj adj)) as ->.
  { unfold rev_adj. fold n. rewrite <- list_fmap_compose. apply list_fmap_ext. intros i v _. cbn.
    rewrite length_incoming_count. unfold all_edges. by rewrite all_edges_from_snd. }
  pose proof (ok_edges _ Hok). rewrite assign_edges_idx_of by (by rewrite rev_adj_total).
  rewrite N.add_0_l, Nat2N.id, rev_adj_total, Nat.eqb_refl by done. cbn [rust_assert mbind outcome_bind].
  destruct placed_none as [E1 E2]. rewrite <- E1, <- E2.
  pose proof (place_all_of [] adj eq_refl) as E. cbn [length] in E. fold n in E.
  change (all_edges []) with (@nil (VertexId * VertexId)) in E. rewrite E.
  cbn [mbind outcome_bind]. by rewrite placed_all.
Qed.
End Placing.

(** * Adding edges *)

Lemma push_edges_of edges cnt idx es :
  (cnt + N.of_nat (length es) < 2 ^ 32)%N → (idx + N.of_nat (length es) < 2 ^ 32)%N →
  for_each push_edge (edges, cnt, idx) es =
  Ok (edges ++ es, (cnt + N.of_nat (length es))%N, (idx + N.of_nat (length es))%N).
Proof.
  revert edges cnt idx. induction es as [|e es IH]; intros edges cnt idx H1 H2; cbn -[N.pow] in *.
  { rewrite app_nil_r. do 2 f_equal; [f_equal|]; lia. }
  rewrite !u32_add_small, IH by lia. rewrite <- app_assoc. do 2 f_equal; [f_equal|]; lia.
Qed.

Section Adding.
Context {T} `{AddEdges T} (add : T) (adj adds : list (list VertexId)) (Hok : adj_ok adj).
Context (Hlen : length adds = length adj).
Context (Hadd : ∀ v es, adds !! v = Some es → edges_for_vertex add v = Ok es).

Let adj' := zip_with (++) adj adds.
Context (Hfit : (N.of_nat (length (concat adj')) <= 2 ^ 32 - 1)%N).

Lemma add_edges_loop k :
  k ≤ length adj →
  for_each (λ st from,
      let '(vertices, edges, all_edges_idx) := st in
      let edges_idx := all_edges_idx in
      es ← Graph_iter_edges (graph_of adj) from;
      '(edges, edges_count, all_edges_idx) ← for_each push_edge (edges, 0%N, all_edges_idx) es;
      es ← edges_for_vertex add from;
      '(edges, edges_count, all_edges_idx) ←
         for_each push_edge (edges, edges_count, all_edges_idx) es;
      vertices ← VertexData_set vertices from (mkGraphVertex edges_idx edges_count);
      Ok (vertices, edges, all_edges_idx))
    (replicate (length adj) (mkGraphVertex 0 0), [], 0%N) (seq 0 k) =
  Ok (layout 0 (take k adj') ++ replicate (length adj - k) (mkGraphVertex 0 0),
      concat (take k adj'), N.of_nat (length (concat (take k adj')))).
Proof.
  induction k as [|k IH]; intros Hk; [cbn; by rewrite Nat.sub_0_r|].
  rewrite seq_S, for_each_app, IH by lia. clear IH. cbn [mbind outcome_bind for_each Nat.add].
  destruct (lookup_lt_is_Some_2 adj k ltac:(lia)) as [es Hes].
  destruct (lookup_lt_is_Some_2 adds k ltac:(lia)) as [es' Hes'].
  assert (adj' !! k = Some (es ++ es')) as E.
  { unfold adj'. by rewrite lookup_zip_with, Hes; cbn; rewrite Hes'. }
  pose proof (concat_take_le _ _ _ E) as Hle. rewrite length_app in Hle.
  assert (length (take k adj') = k) as Ek.
  { rewrite length_take_le; [done|]. apply lookup_lt_Some in E. lia. }
  rewrite (iter_edges_of _ _ _ Hes). cbn [mbind outcome_bind].
  rewrite push_edges_of by lia. cbn [mbind outcome_bind].
  rewrite (Hadd _ _ Hes'). cbn [mbind outcome_bind].
  rewrite push_edges_of by lia. cbn [mbind outcome_bind].
  rewrite VertexData_set_Ok by (rewrite length_app, layout_length, length_replicate; lia).
  cbn [mbind outcome_bind]. rewrite (take_S_r _ _ _ E), concat_app, layout_app. cbn [concat layout].
  rewrite insert_app_r_alt, layout_length, Ek, Nat.sub_diag by (rewrite layout_length; lia).
  replace (length adj - k) with (S (length adj - S k)) by lia. cbn [replicate list_insert insert].
  rewrite app_nil_r, <- !app_assoc, !length_app, !Nat2N.inj_add, !N.add_0_l, N.add_assoc. done.
Qed.

Lemma add_edges_of : Graph_add_edges (graph_of adj) add = Ok (graph_of adj').
Proof.
  unfold Graph_add_edges, Graph_allocate_vertex_data.
  rewrite iter_vertices_of by apply Hok. cbn [mbind outcome_bind g_vertices graph_of].
  assert (length adj' = length adj) as El by (unfold adj'; rewrite length_zip_with; lia).
  rewrite layout_length, add_edges_loop by done. cbn [mbind outcome_bind].
  rewrite Nat.sub_diag, take_ge by lia. cbn [replicate]. by rewrite app_nil_r.
Qed.

Lemma add_edges_ok : Forall (Forall (λ v, v < length adj)) adds → adj_ok adj'.
Proof.
  intros Ha. assert (length adj' = length adj) as El by (unfold adj'; rewrite length_zip_with; lia).
  split; [rewrite El; apply Hok|done|]. rewrite El. apply Forall_lookup. intros i es E.
  unfold adj' in E. apply lookup_zip_with_Some in E as (x & y & -> & Hx & Hy).
  apply Forall_app. split; [exact (Forall_lookup_1 _ _ _ _ (ok_targets _ Hok) Hx)|].
  exact (Forall_lookup_1 _ _ _ _ Ha Hy).
Qed.
End Adding.

(** What optional vertices add. *)
Definition optional_edges (d : VertexData OptionalVertexId) : list (list VertexId) :=
  (λ o, option_list (OptionalVertexId_into_option o)) <$> d.

Lemma optional_edges_spec d v es :
  optional_edges d !! v = Some es → edges_for_vertex d v = Ok es.
Proof.
  unfold optional_edges. rewrite list_lookup_fmap.
  destruct (d !! v) as [o|] eqn:E; cbn; [|done]. intros [= <-].
  unfold edges_for_vertex, AddEdges_OptionalVertexId, VertexData_index. by rewrite E.
Qed.

(** Converting a vertex of the builder to an optional one loses nothing. *)
Lemma into_option_from v :
  (Z.of_nat v < 2 ^ 31)%Z → OptionalVertexId_into_option (OptionalVertexId_from v) = Some v.
Proof.
  intros H. unfold OptionalVertexId_into_option, OptionalVertexId_from, i32_of_u32. cbn -[Z.pow].
  rewrite Z.mod_small by lia. rewrite (proj2 (Z.ltb_lt _ _) H), (proj2 (Z.leb_le _ _)) by lia.
  by rewrite Nat2Z.id.
Qed.

Lemma is_some_into_option o :
  OptionalVertexId_is_some o = bool_decide (is_Some (OptionalVertexId_into_option o)).
Proof.
  unfold OptionalVertexId_is_some, OptionalVertexId_into_option. symmetry.
  destruct (0 <=? opt_raw o)%Z; [apply bool_decide_eq_true; eauto|].
  apply bool_decide_eq_false. by intros [? [=]].
Qed.

(** * The builder *)

Lemma NoDup_take {A} (l : list A) n : NoDup l → NoDup (take n l).
Proof. intros H. rewrite <- (take_drop n l) in H. by apply NoDup_app in H as (? & _ & _). Qed.

Section BuilderSpec.
Context {K D M : Type} `{KeyMapLaws K M}.

Local Notation push := (K * list K * D)%type.
Definition push_key (p : push) : K := p.1.1.

(** The position of a key in a list of keys. *)
Definition key_index (ks : list K) (k : K) : option VertexId := fst <$> list_find (k =.) ks.

(** The adjacency list of a sequence of accepted pushes: the dependencies known when the key has
    just been inserted. *)
Definition builder_adj (ps : list push) : list (list VertexId) :=
  imap (λ i p, omap (key_index (push_key <$> take (S i) ps)) p.1.2) ps.

Record builder_inv (b : GraphBuilder D M) (ps : list push) : Prop := {
  bi_keys : km_entries (gb_keys b) = imap (λ i p, (push_key p, i)) ps;
  bi_nodup : NoDup (push_key <$> ps);
  bi_data : gb_data b = snd <$> ps;
  bi_graph : mkGraph (gb_vertices b) (gb_edges b) = graph_of (builder_adj ps);
  bi_count : (N.of_nat (length ps) <= 2 ^ 31)%N;
  bi_fit : (N.of_nat (length (concat (builder_adj ps))) <= 2 ^ 32 - 1)%N;
}.

Lemma key_index_Some ks k v :
  NoDup ks → key_index ks k = Some v ↔ ks !! v = Some k.
Proof.
  intros Hnd. unfold key_index. split.
  - destruct (list_find _ ks) as [[i x]|] eqn:E; cbn; [|done]. intros [= <-].
    apply list_find_Some in E as (? & -> & _). done.
  - intros Hl. destruct (list_find (k =.) ks) as [[i x]|] eqn:E; cbn.
    + apply list_find_Some in E as (Hi & -> & _). f_equal. exact (NoDup_lookup _ _ _ _ Hnd Hi Hl).
    + apply list_find_None in E. eapply Forall_lookup_1 in E; [|done]. done.
Qed.

Lemma builder_adj_length ps : length (builder_adj ps) = length ps.
Proof. apply length_imap. Qed.

Lemma builder_adj_snoc ps p :
  builder_adj (ps ++ [p]) =
  builder_adj ps ++ [omap (key_index (push_key <$> (ps ++ [p]))) p.1.2].
Proof.
  unfold builder_adj. rewrite imap_app. cbn [imap]. f_equal.
  - apply imap_ext. intros i x Hx. cbn. apply lookup_lt_Some in Hx.
    by rewrite take_app_le by lia.
  - rewrite Nat.add_0_r, take_ge by (rewrite length_app; cbn; lia). done.
Qed.

Lemma entries_keys (ps : list push) : (imap (λ i p, (push_key p, i)) ps).*1 = push_key <$> ps.
Proof.
  apply list_eq. intros i. rewrite !list_lookup_fmap, list_lookup_imap.
  destruct (ps !! i); done.
Qed.

Lemma km_get_spec m (ps : list push) k v :
  km_entries m = imap (λ i p, (push_key p, i)) ps → NoDup (push_key <$> ps) →
  km_get m k = Some v ↔ (push_key <$> ps) !! v = Some k.
Proof.
  intros E Hnd. rewrite km_get_entries by (by rewrite E, entries_keys).
  rewrite E, list_elem_of_lookup, list_lookup_fmap. split.
  - intros (i & Hi). rewrite list_lookup_imap in Hi. destruct (ps !! i) as [p|] eqn:Ep; [|done].
    cbn in Hi. simplify_eq. by rewrite Ep.
  - intros Hv. exists v. rewrite list_lookup_imap. destruct (ps !! v) as [p|]; [|done].
    cbn in *. by simplify_eq.
Qed.

Lemma km_get_key_index m (ps : list push) k :
  km_entries m = imap (λ i p, (push_key p, i)) ps → NoDup (push_key <$> ps) →
  km_get m k = key_index (push_key <$> ps) k.
Proof.
  intros E Hnd. apply option_eq. intros v. by rewrite km_get_spec, key_index_Some.
Qed.

Lemma push_deps_spec (m : M) edges cnt deps f :
  (∀ k, km_get m k = f k) →
  (cnt + N.of_nat (length (omap f deps)) <= 2 ^ 32 - 1)%N →
  push_deps m edges cnt deps = (edges ++ omap f deps, (cnt + N.of_nat (length (omap f deps)))%N).
Proof.
  intros Hf. revert edges cnt. induction deps as [|d deps IH]; intros edges cnt Hfit;
    cbn -[N.pow] in *.
  { rewrite app_nil_r, N.add_0_r. done. }
  rewrite Hf. destruct (f d) as [v|]; cbn -[N.pow] in *; [|by apply IH].
  rewrite u32_add_small, IH by lia. rewrite <- app_assoc. f_equal. lia.
Qed.

Lemma builder_new_inv : builder_inv GraphBuilder_new [].
Proof. split; cbn; [apply km_new_entries|constructor|done..]. Qed.

(** In the graph of the pushes, edges lead to keys pushed before, or to the key itself when it is
    its own dependency. *)
Lemma builder_edge ps u v :
  NoDup (push_key <$> ps) → edge (builder_adj ps) u v →
  v ≤ u ∧ ∃ p k, ps !! u = Some p ∧ k ∈ p.1.2 ∧ (push_key <$> ps) !! v = Some k ∧
            (v = u → push_key p ∈ p.1.2).
Proof.
  intros Hnd (es & Hl & Hin). unfold builder_adj in Hl. rewrite list_lookup_imap in Hl.
  destruct (ps !! u) as [p|] eqn:Ep; [|done]. cbn in Hl. simplify_eq.
  apply list_elem_of_omap in Hin as (k & Hk & Hi).
  apply key_index_Some in Hi; [|by rewrite fmap_take; apply NoDup_take].
  rewrite fmap_take in Hi. apply lookup_take_Some in Hi as [Hi Hlt].
  split; [lia|]. exists p, k. split_and!; try done. intros ->.
  rewrite list_lookup_fmap, Ep in Hi. cbn in Hi. by simplify_eq.
Qed.

Lemma builder_inv_ok b ps : builder_inv b ps → adj_ok (builder_adj ps).
Proof.
  intros [_ Hnd _ _ Hc Hf]. split; rewrite ?builder_adj_length; [lia|done|].
  apply Forall_lookup. intros u es Hl. apply Forall_forall. intros v Hv.
  destruct (builder_edge ps u v Hnd (ex_intro _ es (conj Hl Hv))) as (Hle & p & _ & Hp & _).
  apply lookup_lt_Some in Hp. lia.
Qed.

Lemma push_accepted b ps p :
  builder_inv b ps → push_key p ∉ push_key <$> ps → (N.of_nat (length ps) <= i32_MAX)%N →
  (N.of_nat (length (concat (builder_adj (ps ++ [p])))) <= 2 ^ 32 - 1)%N →
  ∃ b', GraphBuilder_push b p.1.1 p.1.2 p.2 = (b', inl tt) ∧ builder_inv b' (ps ++ [p]).
Proof.
  intros Hb Hk Hc Hfit. pose proof (builder_inv_ok b ps Hb) as Hok.
  destruct b as [keys data vs es]. destruct Hb as [Hkeys Hnd Hdata Hg Hcount Hfit0].
  cbn [gb_keys gb_data gb_vertices gb_edges] in *. injection Hg as -> ->.
  unfold GraphBuilder_push. cbn [gb_keys gb_data gb_vertices gb_edges]. unfold i32_MAX in *.
  rewrite layout_length, builder_adj_length, u32_try_from_Some by lia.
  rewrite (proj2 (N.ltb_ge _ _)) by done.
  assert (km_get keys p.1.1 = None) as ->.
  { apply eq_None_not_Some. intros [v Hv%(km_get_spec _ ps)]; [|done..].
    apply Hk. by eapply list_elem_of_lookup_2. }
  rewrite u32_try_from_Some, Nat2N.id by done.
  assert (km_entries (km_insert keys p.1.1 (length ps)) = imap (λ i p, (push_key p, i)) (ps ++ [p]))
    as Hins.
  { rewrite km_insert_entries, Hkeys, imap_app by (by rewrite Hkeys, entries_keys). cbn.
    by rewrite Nat.add_0_r. }
  assert (NoDup (push_key <$> (ps ++ [p]))) as Hnd'.
  { rewrite fmap_app. apply NoDup_app. split_and!; [done| |apply NoDup_singleton].
    intros x Hx ->%list_elem_of_singleton. done. }
  rewrite builder_adj_snoc, concat_app in Hfit. cbn [concat] in Hfit.
  rewrite app_nil_r, length_app in Hfit.
  rewrite (push_deps_spec _ _ _ _ (key_index (push_key <$> (ps ++ [p]))))
    by (try lia; intros; by apply km_get_key_index).
  eexists. split; [done|]. split; cbn [gb_keys gb_data gb_vertices gb_edges]; try done.
  - by rewrite Hdata, fmap_app.
  - rewrite builder_adj_snoc. unfold graph_of. rewrite layout_app, concat_app. cbn [layout concat].
    by rewrite app_nil_r, !N.add_0_l.
  - rewrite length_app. cbn [length]. lia.
  - rewrite builder_adj_snoc, concat_app. cbn [concat]. rewrite app_nil_r, length_app. lia.
Qed.

(** The builder refines the list of the pushes it accepted.  A push under a
    key already present is refused and changes nothing, a push of a vertex beyond [i32::MAX] is
    refused and changes nothing, and any other push is accepted as long as the edges fit [u32].
    Finishing gives the graph whose edges are, for each push, its dependencies known by then, so
    every edge leads to an earlier vertex or from a key to itself; the keys find exactly their
    vertices, and the data are those pushed, in order. *)
Theorem builder_correct b ps (Hb : builder_inv b ps) :
  (∀ key deps data,
     let p := (key, deps, data) in
     (N.of_nat (length (concat (builder_adj (ps ++ [p])))) <= 2 ^ 32 - 1)%N →
     match GraphBuilder_push b key deps data with
     | (b', inl _) =>
         key ∉ push_key <$> ps ∧ (N.of_nat (length ps) <= i32_MAX)%N ∧ builder_inv b' (ps ++ [p])
     | (b', inr (DuplicateKey k)) => k = key ∧ key ∈ push_key <$> ps ∧ b' = b
     | (b', inr Overflow) => (i32_MAX < N.of_nat (length ps))%N ∧ b' = b
     end) ∧
  match GraphBuilder_finish b with
  | (g, keys, data) =>
      g = graph_of (builder_adj ps) ∧ adj_ok (builder_adj ps) ∧ data = snd <$> ps ∧
      (∀ u v, edge (builder_adj ps) u v →
         v < u ∨ v = u ∧ ∃ p, ps !! u = Some p ∧ push_key p ∈ p.1.2) ∧
      (∀ k v, km_get keys k = Some v ↔ (push_key <$> ps) !! v = Some k) ∧
      (∀ v, km_get_index keys v = (push_key <$> ps) !! v)
  end.
Proof.
  split.
  - intros key deps data p Hfit.
    destruct (decide (N.of_nat (length ps) <= i32_MAX)%N) as [Hc|Hc].
    + destruct (decide (key ∈ push_key <$> ps)) as [Hin|Hin].
      * destruct Hb as [Hkeys Hnd _ Hg _ _]. injection Hg as Hvs _. unfold GraphBuilder_push.
        rewrite Hvs, layout_length, builder_adj_length, u32_try_from_Some
          by (unfold i32_MAX in Hc; lia).
        rewrite (proj2 (N.ltb_ge _ _)) by done.
        pose proof Hin as [v Hv]%list_elem_of_lookup.
        rewrite (proj2 (km_get_spec _ ps key v Hkeys Hnd)) by done. done.
      * destruct (push_accepted b ps p Hb Hin Hc Hfit) as (b' & E & ?). cbn in E. by rewrite E.
    + destruct Hb as [_ _ _ Hg Hcount _]. injection Hg as Hvs _. unfold GraphBuilder_push.
      rewrite Hvs, layout_length, builder_adj_length, u32_try_from_Some by lia.
      rewrite (proj2 (N.ltb_lt _ _)) by lia. split; [lia|done].
  - pose proof (builder_inv_ok b ps Hb). destruct Hb as [Hkeys Hnd Hdata Hg _ _].
    unfold GraphBuilder_finish. rewrite Hg, Hdata. split_and!; try done.
    + intros u v He. destruct (builder_edge ps u v Hnd He) as (Hle & p & k & Hp & _ & _ & Hself).
      destruct (decide (v = u)) as [->|]; [right; naive_solver|left; lia].
    + intros k v. by apply km_get_spec.
    + intros v. rewrite km_get_index_entries, Hkeys. by rewrite entries_keys.
Qed.
End BuilderSpec.

(** * A concrete map *)

(** The association list, newest last. *)
Global Instance assoc_KeyMap {K} `{EqDecision K} : KeyMap K (list (K * VertexId)) := {
  km_new := [];
  km_get m k := (λ x, x.2.2) <$> list_find (λ e, e.1 = k) m;
  km_insert m k v := m ++ [(k, v)];
  km_get_index m i := m.*1 !! i;
  km_entries m := m;
}.

Global Instance assoc_KeyMapLaws {K} `{EqDecision K} : KeyMapLaws K (list (K * VertexId)).
Proof.
  split; [done| |done|done].
  intros m k v Hnd. cbn in *. split.
  - destruct (list_find _ m) as [[i [k' v']]|] eqn:E; cbn; [|done]. intros [= <-].
    apply list_find_Some in E as (Hi & Hk & _). cbn in Hk. subst. by eapply list_elem_of_lookup_2.
  - intros [i Hi]%list_elem_of_lookup.
    destruct (list_find (λ e, e.1 = k) m) as [[j [k' v']]|] eqn:E; cbn.
    + apply list_find_Some in E as (Hj & Hk & _). cbn in Hk. subst k'.
      assert (i = j) as ->; [|by simplify_eq].
      eapply (NoDup_lookup m.*1 i j k); [done| |]; by rewrite list_lookup_fmap, ?Hi, ?Hj.
    + apply list_find_None in E. eapply Forall_lookup_1 in E; [|done]. done.
Qed.

(** * Properties of the graph operations *)

(** Reversing a graph by counting its edges does not panic and gives the graph
    in which the edges of [v] are the sources of the edges into [v], in the order of the vertices
    and of their edges, each as often as the edge occurs; the result can be reversed in turn. *)
Theorem reversed_correct adj (Hok : adj_ok adj) :
  Graph_reversed (graph_of adj) = Ok (graph_of (rev_adj adj)) ∧
  adj_ok (rev_adj adj) ∧
  (∀ v, v < length adj →
     Graph_iter_edges (graph_of (rev_adj adj)) v = Ok (incoming v (all_edges adj))) ∧
  (∀ u v, edge (rev_adj adj) v u ↔ edge adj u v).
Proof.
  split_and!; [by apply reversed_of|by apply rev_adj_ok| |intros; by apply edge_rev].
  intros v Hv. by apply iter_edges_of, rev_adj_lookup.
Qed.

(** Adding optional edges gives the graph in which each vertex keeps its
    edges and has the added one after them, as long as all edges fit [u32]. *)
Theorem add_edges_correct adj (d : VertexData OptionalVertexId) (Hok : adj_ok adj)
    (Hlen : length d = length adj)
    (Hd : Forall (λ o, match OptionalVertexId_into_option o with
                       | Some v => v < length adj
                       | None => True
                       end) d)
    (Hfit : (N.of_nat (length (concat (zip_with (++) adj (optional_edges d)))) <= 2 ^ 32 - 1)%N) :
  Graph_add_edges (graph_of adj) d = Ok (graph_of (zip_with (++) adj (optional_edges d))) ∧
  adj_ok (zip_with (++) adj (optional_edges d)) ∧
  (∀ u v, edge (zip_with (++) adj (optional_edges d)) u v ↔
     edge adj u v ∨ u < length adj ∧ ∃ o, d !! u = Some o ∧ OptionalVertexId_into_option o = Some v).
Proof.
  assert (length (optional_edges d) = length adj) as El by (unfold optional_edges; by rewrite length_fmap).
  split_and!.
  - apply add_edges_of; [done..|apply optional_edges_spec|done].
  - apply add_edges_ok; [done..|]. unfold optional_edges. apply Forall_fmap.
    eapply Forall_impl; [exact Hd|]. intros o. cbn.
    destruct (OptionalVertexId_into_option o); cbn; [by repeat constructor|constructor].
  - intros u v. unfold edge. setoid_rewrite lookup_zip_with_Some. unfold optional_edges.
    setoid_rewrite list_lookup_fmap_Some. split.
    + intros (es & (x & y & -> & Hx & o & -> & Ho) & [Hv|Hv]%elem_of_app); [naive_solver|].
      right. split; [by apply lookup_lt_Some in Hx|]. exists o. split; [done|].
      destruct (OptionalVertexId_into_option o); cbn in Hv; [|by apply elem_of_nil in Hv].
      by apply list_elem_of_singleton in Hv as ->.
    + assert (∀ u, u < length adj → is_Some (d !! u)) as Hd'
        by (intros; apply lookup_lt_is_Some_2; lia).
      intros [(es & Hes & Hv)|(Hu & o & Ho & Hv)].
      * destruct (Hd' u) as [o Ho]; [by apply lookup_lt_Some in Hes|].
        eexists. split; [by eauto 10|]. apply elem_of_app. by left.
      * destruct (lookup_lt_is_Some_2 adj u Hu) as [es Hes].
        eexists. split; [by eauto 10|]. apply elem_of_app. right. rewrite Hv. cbn.
        by apply list_elem_of_singleton.
Qed.

(** * Concrete graphs *)

(** Keys 3, 2 (depending on 3), 1, 0 (depending on 1 and 2): vertices 0 to 3. *)
Definition test_pushes : list (nat * list nat * nat) :=
  [(3, [], 30); (2, [3], 20); (1, [], 10); (0, [1; 2], 0)].
Definition test_adj : list (list VertexId) := [[]; [0]; []; [2; 1]].

Definition push_all (b : GraphBuilder nat (list (nat * VertexId))) (ps : list (nat * list nat * nat)) :=
  foldl (λ b p, (GraphBuilder_push b p.1.1 p.1.2 p.2).1) b ps.

Lemma test_adj_ok : adj_ok test_adj.
Proof. split; [done..|]. repeat constructor; cbn; lia. Qed.

Lemma test_builder_inv : builder_inv (push_all GraphBuilder_new test_pushes) test_pushes.
Proof. split; [done| |done..]. apply (bool_decide_unpack _). vm_compute. done. Qed.

Lemma builder_correct_witness :
  builder_inv (push_all GraphBuilder_new test_pushes) test_pushes ∧
  builder_adj test_pushes = test_adj ∧
  (GraphBuilder_push (push_all GraphBuilder_new test_pushes) 7 [0; 9] 70).2 = inl tt ∧
  (GraphBuilder_push (push_all GraphBuilder_new test_pushes) 2 [] 0).2 = inr (DuplicateKey 2) ∧
  (GraphBuilder_finish (push_all GraphBuilder_new test_pushes)).1.1 = graph_of (builder_adj test_pushes).
Proof.
  split; [exact test_builder_inv|]. split; [by vm_compute|]. split; [by vm_compute|].
  split; [by vm_compute|].
  exact (proj1 (proj2 (builder_correct (push_all GraphBuilder_new test_pushes) test_pushes
                         test_builder_inv))).
Defined.

Lemma reversed_correct_witness :
  rev_adj test_adj = [[1]; [3]; [3]; []] ∧
  Graph_reversed (graph_of test_adj) = Ok (graph_of (rev_adj test_adj)).
Proof. split; [by vm_compute|]. exact (proj1 (reversed_correct test_adj test_adj_ok)). Defined.

Definition test_optional : VertexData OptionalVertexId :=
  [OptionalVertexId_none; OptionalVertexId_from 0; OptionalVertexId_none; OptionalVertexId_from 0].

Lemma add_edges_correct_witness :
  Graph_add_edges (graph_of test_adj) test_optional =
  Ok (graph_of [[]; [0; 0]; []; [2; 1; 0]]).
Proof.
  refine (proj1 (add_edges_correct test_adj test_optional test_adj_ok eq_refl _ _)).
  - repeat constructor; cbn; lia.
  - by vm_compute.
Defined.

(** A key that depends on itself makes a cycle: the builder does not only build DAGs. *)
Example self_dependency_makes_a_cycle :
  match GraphBuilder_push (GraphBuilder_new (M := list (nat * VertexId))) 5 [5] tt with
  | (b, r) => r = inl tt ∧ edge [[0]] 0 0 ∧ (GraphBuilder_finish b).1.1 = graph_of [[0]]
  end.
Proof.
  vm_compute. split_and!; [done| |done]. exists [0]. split; [done|]. by apply list_elem_of_singleton.
Qed.
