(* ===== verification/CritTopo.v ===== *)
(** Topological sorting of the critical-path graph, from [Graph::topo_sort] in
    [src/app/bz_critical_path/src/graph.rs]: a depth-first search with an explicit stack of
    [Push] and [Pop] work items, which fills the order from its end and extracts a cycle from the
    stack.  The theorem says it ends, and with a topological order or a real cycle.

    The vector used as a stack is a list whose head is the last element of the vector. *)
From S2P Require Import Prelude CritGraph.
Local Open Scope dice_scope.

(** * Definitions *)

Inductive Work := Push | Pop.

Inductive TopoSortError := Cycle (nodes : list VertexId).

Record TopoState := mkTopoState {
  ts_state : VertexData (bool * bool);   (** (marked, visited) *)
  ts_topo_order : list VertexId;
  ts_current_topo_order_index : nat;
}.

(** The nodes collected walking the stack backward down to [j]. *)
Fixpoint collect_cycle (j : VertexId) (queue : list (VertexId * Work)) : list VertexId :=
  match queue with
  | [] => []
  | (node, Pop) :: queue => node :: (if node =? j then [] else collect_cycle j queue)
  | (_, Push) :: queue => collect_cycle j queue
  end.

(** The inner loop [while let Some((j, work)) = queue.pop()]. *)
Fixpoint topo_loop (fuel : nat) (self : Graph) (st : TopoState) (queue : list (VertexId * Work)) :
    outcome (TopoState + TopoSortError) :=
  match queue with
  | [] => Ok (inl st)
  | (j, work) :: queue =>
      match fuel with
      | 0 => Panic
      | S fuel =>
          '(marked, visited) ← VertexData_index (ts_state st) j;
          match work with
          | Push =>
              if (visited : bool) then topo_loop fuel self st queue
              else if (marked : bool) then Ok (inr (Cycle (reverse (j :: collect_cycle j queue))))
              else
                state ← VertexData_set (ts_state st) j (true, visited);
                es ← Graph_iter_edges self j;
                topo_loop fuel self
                  (mkTopoState state (ts_topo_order st) (ts_current_topo_order_index st))
                  (reverse ((λ k, (k, Push)) <$> es) ++ (j, Pop) :: queue)
          | Pop =>
              state ← VertexData_set (ts_state st) j (marked, true);
              topo_order ← vec_set (ts_topo_order st) (ts_current_topo_order_index st) j;
              topo_loop fuel self
                (mkTopoState state topo_order (ts_current_topo_order_index st - 1)) queue
          end
      end
  end.

(** The loop over the vertices, which returns early with a cycle. *)
Fixpoint topo_vertices (fuel : nat) (self : Graph) (st : TopoState) (vs : list VertexId) :
    outcome (TopoState + TopoSortError) :=
  match vs with
  | [] => Ok (inl st)
  | i :: vs =>
      r ← topo_loop fuel self st [(i, Push)];
      match r with
      | inl st => topo_vertices fuel self st vs
      | inr e => Ok (inr e)
      end
  end.

(** Every round pops one item; a vertex and each edge are pushed at most once. *)
Definition topo_fuel (self : Graph) : nat :=
  2 + length (g_vertices self) + length (g_edges self).

Definition Graph_topo_sort (self : Graph) : outcome (list VertexId + TopoSortError) :=
  vs ← Graph_iter_vertices self;
  r ← topo_vertices (topo_fuel self) self
        (mkTopoState (Graph_allocate_vertex_data self (false, false))
           (replicate (length (g_vertices self)) 0) (length (g_vertices self) - 1)) vs;
  match r with
  | inl st => Ok (inl (ts_topo_order st))
  | inr e => Ok (inr e)
  end.

(** * Walks and orders *)

Fixpoint is_walk (adj : list (list VertexId)) (l : list VertexId) : Prop :=
  match l with
  | u :: ((v :: _) as l') => edge adj u v ∧ is_walk adj l'
  | _ => True
  end.

Definition acyclic (adj : list (list VertexId)) : Prop :=
  ∀ u l, ¬ is_walk adj (u :: l ++ [u]).

(** Every edge leads to a later element of the list. *)
Fixpoint topo_ordered (adj : list (list VertexId)) (l : list VertexId) : Prop :=
  match l with
  | [] => True
  | u :: l => (∀ v, edge adj u v → v ∈ l) ∧ topo_ordered adj l
  end.

Lemma is_walk_app adj l1 u l2 :
  is_walk adj (l1 ++ u :: l2) ↔ is_walk adj (l1 ++ [u]) ∧ is_walk adj (u :: l2).
Proof.
  induction l1 as [|x l1 IH]; [cbn; naive_solver|].
  destruct l1 as [|y l1]; cbn in *; naive_solver.
Qed.

Lemma is_walk_cons adj u v l : is_walk adj (u :: v :: l) ↔ edge adj u v ∧ is_walk adj (v :: l).
Proof. done. Qed.

(** A walk that starts in an ordered list stays in it, further right at each step. *)
Lemma topo_ordered_walk adj l u w x :
  topo_ordered adj l → u ∈ l → NoDup l → is_walk adj (u :: w) → x ∈ w →
  ∃ l1 l2, l = l1 ++ u :: l2 ∧ x ∈ l2.
Proof.
  revert l u. induction w as [|v w IH]; intros l u Ht Hu Hnd Hw Hx; [by apply elem_of_nil in Hx|].
  apply list_elem_of_split in Hu as (l1 & l2 & ->). exists l1, l2. split; [done|].
  apply is_walk_cons in Hw as [Huv Hw].
  assert (topo_ordered adj (u :: l2)) as [Hu2 Ht2] by (clear -Ht; induction l1; naive_solver).
  apply elem_of_cons in Hx as [->|Hx]; [by apply Hu2|].
  apply NoDup_app in Hnd as (_ & _ & [_ Hnd]%NoDup_cons).
  destruct (IH l2 v Ht2 (Hu2 v Huv) Hnd Hw Hx) as (l3 & l4 & -> & ?). set_solver.
Qed.

Lemma topo_ordered_acyclic adj l :
  adj_ok adj → l ≡ₚ seq 0 (length adj) → topo_ordered adj l → acyclic adj.
Proof.
  intros Hok Hp Ht u w Hw.
  assert (NoDup l) as Hnd by (rewrite Hp; apply NoDup_seq).
  assert (u < length adj) as Hlt.
  { destruct w as [|v w]; cbn in Hw; destruct Hw as [He _]; by eapply edge_lt in He as [? _]. }
  assert (u ∈ l) as Hu by (rewrite Hp; apply elem_of_seq; lia).
  destruct (topo_ordered_walk adj l u (w ++ [u]) u Ht Hu Hnd Hw) as (l1 & l2 & -> & Hin).
  { set_solver. }
  apply NoDup_app in Hnd as (_ & _ & [? _]%NoDup_cons). done.
Qed.

(** * The invariant of the search *)

(** The nodes of the [Pop] items: the current path, innermost first. *)
Fixpoint pops (queue : list (VertexId * Work)) : list VertexId :=
  match queue with
  | [] => []
  | (j, Pop) :: queue => j :: pops queue
  | (_, Push) :: queue => pops queue
  end.

(** Each item was pushed as a child of the nearest [Pop] item below it. *)
Fixpoint stack_ok (adj : list (list VertexId)) (queue : list (VertexId * Work)) : Prop :=
  match queue with
  | [] => True
  | (j, _) :: queue =>
      (∀ p, head (pops queue) = Some p → edge adj p j) ∧ stack_ok adj queue
  end.

(** The children of a node of the path that are not visited are above it in the stack. *)
Definition children_ok adj (queue : list (VertexId * Work)) (L : list VertexId) : Prop :=
  ∀ above p below, queue = above ++ (p, Pop) :: below →
  ∀ c, edge adj p c → c ∈ L ∨ c ∈ above.*1.

Record search_inv (adj : list (list VertexId)) (queue : list (VertexId * Work)) (L : list VertexId) :
    Prop := {
  si_nodup : NoDup (pops queue ++ L);
  si_lt : ∀ v, v ∈ queue.*1 ∨ v ∈ L → v < length adj;
  si_stack : stack_ok adj queue;
  si_children : children_ok adj queue L;
  si_topo : topo_ordered adj L;
}.

Lemma pops_app q1 q2 : pops (q1 ++ q2) = pops q1 ++ pops q2.
Proof. induction q1 as [|[j []] q1 IH]; cbn; [done|done|by rewrite IH]. Qed.

Lemma pops_pushes (es : list VertexId) : pops ((λ k, (k, Push)) <$> es) = [].
Proof. by induction es. Qed.

Lemma pops_rev_pushes (es : list VertexId) : pops (reverse ((λ k, (k, Push)) <$> es)) = [].
Proof. rewrite <- fmap_reverse. apply pops_pushes. Qed.

Lemma elem_of_pops j queue : j ∈ pops queue ↔ (j, Pop) ∈ queue.
Proof. induction queue as [|[k []] queue IH]; cbn; set_solver. Qed.

Lemma elem_of_pops_fst j queue : j ∈ pops queue → j ∈ queue.*1.
Proof. intros H%elem_of_pops. apply list_elem_of_fmap. by exists (j, Pop). Qed.

Lemma stack_ok_app adj q1 q2 :
  (∀ j w, (j, w) ∈ q1 → ∀ p, head (pops q2) = Some p → edge adj p j) → pops q1 = [] →
  stack_ok adj q2 → stack_ok adj (q1 ++ q2).
Proof.
  intros H1 Hp H2. induction q1 as [|[j w] q1 IH]; [done|]. destruct w; [|done]. cbn in *.
  split; [|apply IH; set_solver]. rewrite pops_app, Hp. cbn. apply (H1 j Push). set_solver.
Qed.

(** The cycle found is a closed walk through distinct vertices. *)
Lemma collect_cycle_walk adj j queue :
  stack_ok adj queue → NoDup (pops queue) → j ∈ pops queue →
  ∃ mid rest, collect_cycle j queue = mid ++ [j] ∧ pops queue = mid ++ j :: rest ∧
    is_walk adj (reverse (collect_cycle j queue)).
Proof.
  intros Hs Hnd Hj. induction queue as [|[k w] queue IH]; [by apply elem_of_nil in Hj|].
  destruct Hs as [Hk Hs]. destruct w; cbn -[reverse] in *; [by apply IH|].
  apply NoDup_cons in Hnd as [Hk' Hnd].
  destruct (Nat.eqb_spec k j) as [->|Hne].
  { exists [], (pops queue). done. }
  apply elem_of_cons in Hj as [|Hj]; [done|].
  destruct (IH Hs Hnd Hj) as (mid & rest & E1 & E2 & Hw).
  exists (k :: mid), rest. rewrite E1, E2 in *. split_and!; [done..|].
  assert (∃ p r, mid ++ [j] = p :: r ∧ head (mid ++ j :: rest) = Some p) as (p & r & E3 & E4)
    by (destruct mid as [|p mid]; cbn; eauto).
  rewrite E4 in Hk. rewrite E3 in *. rewrite reverse_cons in Hw. rewrite !reverse_cons, <- app_assoc.
  apply is_walk_app. split; [done|]. cbn. split; [by apply Hk|done].
Qed.

(** * Termination measure *)

(** The work left for the vertices not yet seen: an item and the edges of each. *)
Definition unseen_work (adj : list (list VertexId)) (seen : list VertexId) : nat :=
  unseen (λ v, S (length (adj !!! v))) (seq 0 (length adj)) seen.

Lemma unseen_work_cons adj seen j :
  j < length adj → j ∉ seen →
  unseen_work adj seen = unseen_work adj (j :: seen) + S (length (adj !!! j)).
Proof.
  intros Hj Hs. apply (unseen_cons (λ v, S (length (adj !!! v)))); [apply NoDup_seq|apply elem_of_seq; lia|done].
Qed.

Lemma unseen_work_nil adj : unseen_work adj [] = length adj + length (concat adj).
Proof.
  unfold unseen_work, unseen. transitivity (sum_list_with (λ es, S (length es)) adj).
  - assert (∀ l k, sum_list_with (λ v, if decide (v ∈ []) then 0 else S (length ((replicate k [] ++ l) !!! v)))
              (seq k (length l)) = sum_list_with (λ es : list VertexId, S (length es)) l) as H;
      [|exact (H adj 0)].
    induction l as [|es l IH]; intros k; cbn [sum_list_with length seq]; [done|].
    rewrite decide_False by set_solver. f_equal.
    + rewrite list_lookup_total_alt, lookup_app_r, length_replicate, Nat.sub_diag by (by rewrite length_replicate).
      done.
    + rewrite <- (IH (S k)). apply sum_list_with_ext. intros v Hv%elem_of_seq. do 2 f_equal.
      rewrite !list_lookup_total_alt, !lookup_app_r, !length_replicate
        by (rewrite length_replicate; lia).
      by replace (v - k) with (S (v - S k)) by lia.
  - induction adj as [|es adj IH]; cbn; [done|]. rewrite length_app, IH. lia.
Qed.

(** * The search *)

Section Search.
Context (adj : list (list VertexId)) (Hok : adj_ok adj).
Let n := length adj.
Let g := graph_of adj.

(** The state of the code when [L] are visited and [queue] is on the stack. *)
Definition search_state (L : list VertexId) (queue : list (VertexId * Work)) : TopoState :=
  mkTopoState
    ((λ v, (bool_decide (v ∈ pops queue ∨ v ∈ L), bool_decide (v ∈ L))) <$> seq 0 n)
    (replicate (n - length L) 0 ++ L) (n - 1 - length L).

Lemma search_state_index L queue j :
  j < n → VertexData_index (ts_state (search_state L queue)) j =
    Ok (bool_decide (j ∈ pops queue ∨ j ∈ L), bool_decide (j ∈ L)).
Proof.
  intros H. apply VertexData_index_Ok. cbn. by rewrite list_lookup_fmap, lookup_seq_lt.
Qed.

Lemma search_state_length L queue : length (ts_state (search_state L queue)) = n.
Proof. cbn. by rewrite length_fmap, length_seq. Qed.

Lemma fmap_seq_update {A} (f f' : nat → A) j x :
  j < n → x = f' j → (∀ v, v ≠ j → f v = f' v) → <[j := x]> (f <$> seq 0 n) = f' <$> seq 0 n.
Proof.
  intros Hj -> Hf. apply list_eq. intros i. destruct (decide (i = j)) as [->|Hne].
  - rewrite list_lookup_insert_eq by (by rewrite length_fmap, length_seq).
    by rewrite list_lookup_fmap, lookup_seq_lt.
  - rewrite list_lookup_insert_ne, !list_lookup_fmap by done.
    destruct (seq 0 n !! i) as [v|] eqn:E; cbn; [|done]. apply lookup_seq in E as [-> _].
    f_equal. by apply Hf.
Qed.

Lemma search_inv_length L queue : search_inv adj queue L → length (pops queue) + length L ≤ n.
Proof.
  intros [Hnd Hlt _ _ _]. rewrite <- length_app, <- (length_seq n 0).
  apply submseteq_length, NoDup_submseteq; [done|]. intros v Hv. apply elem_of_seq.
  split; [lia|]. apply Hlt. apply elem_of_app in Hv as [?%elem_of_pops_fst|?]; auto.
Qed.

(** Dropping an item that was already visited. *)
Lemma inv_skip j queue L :
  search_inv adj ((j, Push) :: queue) L → j ∈ L → search_inv adj queue L.
Proof.
  intros [Hnd Hlt Hs Hc Ht] Hj. split; [done| |by destruct Hs| |done].
  - intros v Hv. apply Hlt. set_solver.
  - intros above p below -> c Hpc.
    destruct (Hc ((j, Push) :: above) p below eq_refl c Hpc) as [|Hin]; [by left|].
    cbn in Hin. apply elem_of_cons in Hin as [->|]; [by left|by right].
Qed.

(** Entering a vertex. *)
Lemma inv_push j queue L :
  search_inv adj ((j, Push) :: queue) L → j ∉ L → j ∉ pops queue →
  search_inv adj (reverse ((λ k, (k, Push)) <$> adj !!! j) ++ (j, Pop) :: queue) L.
Proof.
  intros [Hnd Hlt Hs Hc Ht] HjL Hjq.
  assert (j < length adj) as Hj by (apply Hlt; set_solver).
  destruct (lookup_lt_is_Some_2 adj j Hj) as [es Hes].
  assert (adj !!! j = es) as -> by by apply list_lookup_total_correct.
  assert (∀ k w, (k, w) ∈ reverse ((λ k, (k, Push)) <$> es) → k ∈ es) as Hes'.
  { intros k w Hk. rewrite elem_of_reverse in Hk. apply list_elem_of_fmap in Hk. naive_solver. }
  split; [| | | |done].
  - rewrite pops_app, pops_rev_pushes. cbn. apply NoDup_cons. split; [set_solver|done].
  - intros v. rewrite fmap_app, elem_of_app. intros [[Hv|Hv]|Hv]; [| |apply Hlt; by right].
    + apply list_elem_of_fmap in Hv as ([k w] & -> & Hk%Hes'). cbn.
      pose proof (Forall_lookup_1 _ _ _ _ (ok_targets _ Hok) Hes) as Hf. by eapply Forall_forall in Hf.
    + apply Hlt. left. exact Hv.
  - destruct Hs as [Hh Hs]. apply stack_ok_app; [|apply pops_rev_pushes|by split].
    cbn. intros k w Hk%Hes' p [= <-]. by exists es.
  - assert (∀ c, edge adj j c → c ∈ (reverse ((λ k, (k, Push)) <$> es)).*1) as Hjc.
    { intros c (es' & He & Hin). simplify_eq. rewrite <- fmap_reverse, <- list_fmap_compose. cbn.
      rewrite list_fmap_id. by apply elem_of_reverse. }
    intros above p below E c Hpc. apply app_eq_inv in E as [(k & E1 & E2)|(k & E1 & E2)].
    + destruct k as [|x k]; cbn in E2.
      * injection E2 as -> _. right. rewrite app_nil_r in E1. rewrite <- E1. by apply Hjc.
      * exfalso. injection E2 as <- _.
        assert ((p, Pop) ∈ reverse ((λ k, (k, Push)) <$> es)) as Hp by (rewrite E1; set_solver).
        rewrite elem_of_reverse in Hp. apply list_elem_of_fmap in Hp. naive_solver.
    + rewrite E1, fmap_app, elem_of_app. destruct k as [|x k]; cbn in E2.
      * injection E2 as -> _. right. left. by apply Hjc.
      * injection E2 as <- E2.
        destruct (Hc ((j, Push) :: k) p below) with c as [|Hin]; [cbn; by f_equal|done|by left|].
        right. cbn in *. set_solver.
Qed.

(** Leaving a vertex. *)
Lemma inv_pop j queue L :
  search_inv adj ((j, Pop) :: queue) L → search_inv adj queue (j :: L).
Proof.
  intros [Hnd Hlt Hs Hc Ht]. cbn in Hnd. split.
  - by rewrite <- Permutation_middle.
  - intros v [Hv|Hv]; apply Hlt; [set_solver|]. apply elem_of_cons in Hv as [->|]; set_solver.
  - by destruct Hs.
  - intros above p below -> c Hpc.
    destruct (Hc ((j, Pop) :: above) p below eq_refl c Hpc) as [|Hin]; [set_solver|].
    cbn in Hin. set_solver.
  - cbn. split; [|done]. intros v Hv. destruct (Hc [] j queue eq_refl v Hv); [done|set_solver].
Qed.

(** A closed walk through distinct vertices. *)
Definition cycle_of (c : list VertexId) : Prop :=
  ∃ j mid, c = j :: mid ++ [j] ∧ NoDup (j :: mid) ∧ is_walk adj c.

Definition loop_result (L : list VertexId) (queue : list (VertexId * Work))
    (r : TopoState + TopoSortError) : Prop :=
  match r with
  | inl st => ∃ L', st = search_state L' [] ∧ search_inv adj [] L' ∧
                    ∀ v, v ∈ queue.*1 ∨ v ∈ L → v ∈ L'
  | inr (Cycle c) => cycle_of c
  end.

Lemma loop_result_mono L queue L' queue' r :
  (∀ v, v ∈ queue.*1 ∨ v ∈ L → v ∈ queue'.*1 ∨ v ∈ L') →
  loop_result L' queue' r → loop_result L queue r.
Proof. intros H. destruct r as [st|[c]]; cbn; [|done]. intros (L2 & ? & ? & ?). exists L2. eauto. Qed.

Lemma cycle_found j queue L :
  search_inv adj ((j, Push) :: queue) L → j ∈ pops queue →
  cycle_of (reverse (j :: collect_cycle j queue)).
Proof.
  intros [Hnd _ [Hh Hs] _ _] Hj. cbn in Hnd. apply NoDup_app in Hnd as (Hnd & _ & _).
  destruct (collect_cycle_walk adj j queue Hs Hnd Hj) as (mid & rest & E1 & E2 & Hw).
  rewrite E1, E2 in *. exists j, (reverse mid). rewrite reverse_cons, reverse_app. split_and!.
  - done.
  - apply (NoDup_Permutation_proper (j :: mid)).
    + by rewrite reverse_Permutation.
    + rewrite <- (Permutation_middle mid rest j) in Hnd. apply NoDup_cons in Hnd as [Hj' Hnd].
      apply NoDup_app in Hnd as (Hnd & _ & _). apply NoDup_cons. split; [set_solver|done].
  - rewrite reverse_app in Hw. destruct mid as [|p mid].
    + cbn. split; [|done]. by apply Hh.
    + assert (reverse [j] ++ reverse (p :: mid) = (j :: reverse mid) ++ [p]) as E
        by (by rewrite reverse_singleton, reverse_cons).
      rewrite E in *. rewrite <- app_assoc. apply is_walk_app. split; [exact Hw|]. cbn.
      split; [by apply Hh|done].
Qed.

Lemma topo_loop_spec fuel L queue :
  search_inv adj queue L → length queue + unseen_work adj (pops queue ++ L) ≤ fuel →
  ∃ r, topo_loop fuel g (search_state L queue) queue = Ok r ∧ loop_result L queue r.
Proof.
  revert L queue. induction fuel as [|fuel IH]; intros L queue Hinv Hfuel.
  { destruct queue; cbn in *; [|lia]. eexists. split; [done|]. exists L. set_solver. }
  destruct queue as [|[j w] queue].
  { eexists. split; [done|]. exists L. set_solver. }
  assert (j < n) as Hj by (apply (si_lt _ _ _ Hinv); set_solver).
  cbn [topo_loop]. rewrite search_state_index by done. cbn [mbind outcome_bind].
  destruct w.
  - destruct (decide (j ∈ L)) as [HjL|HjL].
    { rewrite (bool_decide_true (j ∈ L)) by done.
      destruct (IH L queue) as (r & Hr & Hres); [by eapply inv_skip|cbn in Hfuel; lia|].
      exists r. split; [exact Hr|]. eapply loop_result_mono; [|done]. set_solver. }
    rewrite (bool_decide_false (j ∈ L)) by done. cbn [pops].
    destruct (decide (j ∈ pops queue)) as [Hjq|Hjq].
    { rewrite bool_decide_true by auto. eexists. split; [done|]. by eapply cycle_found. }
    rewrite bool_decide_false by naive_solver.
    rewrite (VertexData_set_Ok (ts_state _)) by (by rewrite search_state_length).
    cbn [mbind outcome_bind].
    destruct (lookup_lt_is_Some_2 adj j Hj) as [es Hes].
    unfold g. rewrite (iter_edges_of _ _ _ Hes). fold g. cbn [mbind outcome_bind].
    assert (adj !!! j = es) as E by by apply list_lookup_total_correct.
    pose proof (inv_push j queue L Hinv HjL Hjq) as Hinv'. rewrite E in Hinv'.
    destruct (IH _ _ Hinv') as (r & Hr & Hres).
    { rewrite length_app, length_reverse, length_fmap, pops_app, pops_rev_pushes.
      rewrite (unseen_work_cons adj _ j), E in Hfuel
        by (try done; cbn [pops]; rewrite elem_of_app; tauto).
      cbn [length pops app] in *. lia. }
    exists r. split.
    2: { eapply loop_result_mono; [|done]. intros v. rewrite fmap_app, elem_of_app. cbn. tauto. }
    rewrite <- Hr. f_equal. unfold search_state. cbn. f_equal.
    rewrite pops_app, pops_rev_pushes. cbn [app pops].
    apply fmap_seq_update; [done| |].
    + f_equal; symmetry; [apply bool_decide_true; set_solver|by apply bool_decide_false].
    + intros v Hv. f_equal. apply bool_decide_ext. set_solver.
  - pose proof (search_inv_length _ _ Hinv) as Hlen. cbn in Hlen.
    rewrite (VertexData_set_Ok (ts_state _)) by (by rewrite search_state_length).
    cbn [mbind outcome_bind]. rewrite vec_set_Ok
      by (cbn; rewrite length_app, length_replicate; lia). cbn [mbind outcome_bind].
    destruct (IH (j :: L) queue) as (r & Hr & Hres); [by apply inv_pop| |].
    { cbn in Hfuel. unfold unseen_work in *. rewrite (unseen_ext _ _ _ (j :: pops queue ++ L)) by set_solver. lia. }
    exists r. split; [|eapply loop_result_mono; [|done]; set_solver].
    rewrite <- Hr. f_equal. unfold search_state. cbn [ts_state ts_topo_order ts_current_topo_order_index].
    f_equal.
    + apply fmap_seq_update; [done| |].
      * f_equal; [|symmetry; apply bool_decide_true; set_solver].
        apply bool_decide_ext. cbn [pops]. set_solver.
      * intros v Hv. cbn [pops]. f_equal; apply bool_decide_ext; set_solver.
    + cbn [length]. replace (n - length L) with (S (n - S (length L))) by lia.
      rewrite replicate_S_end, <- app_assoc. cbn [app].
      rewrite insert_app_r_alt, length_replicate by (rewrite length_replicate; lia).
      by replace (n - 1 - length L - (n - S (length L))) with 0 by lia.
    + cbn [length]. lia.
Qed.

Lemma topo_vertices_spec L vs :
  search_inv adj [] L → Forall (λ v, v < n) vs →
  ∃ r, topo_vertices (topo_fuel g) g (search_state L []) vs = Ok r ∧
       loop_result L ((λ v, (v, Push)) <$> vs) r.
Proof.
  intros Hinv Hvs. revert L Hinv. induction Hvs as [|i vs Hi Hvs IH]; intros L Hinv.
  { eexists. split; [done|]. exists L. set_solver. }
  cbn [topo_vertices].
  change (search_state L []) with (search_state L [(i, Push)]).
  destruct (topo_loop_spec (topo_fuel g) L [(i, Push)]) as (r & -> & Hres).
  { destruct Hinv as [Hnd Hlt _ _ Ht]. split; [done| |by split| |done].
    - intros v [Hv|Hv]; [|apply Hlt; by right]. cbn in Hv. apply list_elem_of_singleton in Hv as ->. done.
    - intros above p below E. destruct above as [|? [|]]; discriminate E. }
  { cbn [length pops app]. unfold topo_fuel, g, graph_of. cbn [g_vertices g_edges].
    rewrite layout_length. transitivity (1 + unseen_work adj []); [|rewrite unseen_work_nil; lia].
    apply Nat.add_le_mono_l, unseen_le. }
  cbn [mbind outcome_bind]. destruct r as [st|e].
  - destruct Hres as (L' & -> & Hinv' & Hsub). destruct (IH L' Hinv') as (r & -> & Hr).
    eexists. split; [done|]. eapply loop_result_mono; [|done]. cbn. set_solver.
  - eexists. split; [done|]. done.
Qed.

Lemma topo_sort_spec :
  ∃ r, Graph_topo_sort g = Ok r ∧
    match r with
    | inl order => order ≡ₚ seq 0 n ∧ topo_ordered adj order
    | inr (Cycle c) => cycle_of c
    end.
Proof.
  unfold Graph_topo_sort, Graph_allocate_vertex_data.
  assert (Graph_iter_vertices g = Ok (seq 0 n)) as -> by apply iter_vertices_of, Hok.
  cbn [mbind outcome_bind].
  assert (mkTopoState (replicate (length (g_vertices g)) (false, false))
            (replicate (length (g_vertices g)) 0) (length (g_vertices g) - 1) = search_state [] []) as ->.
  { unfold search_state, g, graph_of. cbn [g_vertices]. rewrite layout_length. f_equal.
    - apply list_eq. intros i. rewrite list_lookup_fmap. destruct (decide (i < n)).
      + rewrite lookup_replicate_2, lookup_seq_lt by done. cbn.
        by rewrite !bool_decide_false by set_solver.
      + rewrite !lookup_ge_None_2; [done|rewrite length_seq; lia|rewrite length_replicate; lia].
    - cbn [length]. by rewrite app_nil_r, Nat.sub_0_r.
    - cbn [length]. lia. }
  destruct (topo_vertices_spec [] (seq 0 n)) as (r & -> & Hr).
  { split; [constructor|set_solver|done| |done]. intros [|? ?] ? ? E; discriminate E. }
  { apply Forall_seq. intros. lia. }
  cbn [mbind outcome_bind]. destruct r as [st|[c]].
  - destruct Hr as (L & -> & [Hnd Hlt _ _ Ht] & Hsub). eexists. split; [done|].
    cbn [pops app] in Hnd. assert (L ≡ₚ seq 0 n) as Hp.
    { apply NoDup_Permutation; [done|apply NoDup_seq|]. intros v. rewrite elem_of_seq. split.
      - intros Hv. pose proof (Hlt v (or_intror Hv)). unfold n. lia.
      - intros Hv. apply Hsub. left. rewrite <- list_fmap_compose. cbn. rewrite list_fmap_id.
        by apply elem_of_seq. }
    cbn [ts_topo_order search_state]. rewrite (Permutation_length Hp), length_seq, Nat.sub_diag. done.
  - eexists. split; done.
Qed.
End Search.

(** * Properties *)

(** C35. Topological sorting ends on every graph.  On an acyclic graph it returns
    every vertex once, each before the vertices its edges lead to; otherwise it returns a cycle:
    a closed walk along edges that passes its start twice and every other vertex once.  Which of
    the two is decided by whether the graph is acyclic. *)
Theorem topo_sort_correct adj (Hok : adj_ok adj) :
  ∃ r, Graph_topo_sort (graph_of adj) = Ok r ∧
    match r with
    | inl order =>
        acyclic adj ∧ order ≡ₚ seq 0 (length adj) ∧
        ∀ i u v, order !! i = Some u → edge adj u v → ∃ j, i < j ∧ order !! j = Some v
    | inr (Cycle c) =>
        ¬ acyclic adj ∧ ∃ j mid, c = j :: mid ++ [j] ∧ NoDup (j :: mid) ∧ is_walk adj c
    end.
Proof.
  destruct (topo_sort_spec adj Hok) as ([order|[c]] & Hr & Hres); eexists; (split; [exact Hr|]).
  - destruct Hres as [Hp Ht]. split_and!; [by eapply topo_ordered_acyclic|done|].
    clear Hp Hr. induction order as [|x order IH]; intros i u v Hi He; [done|].
    destruct Ht as [Hx Ht]. destruct i as [|i]; cbn in Hi.
    + simplify_eq. apply Hx in He as [j Hj]%list_elem_of_lookup. exists (S j). split; [lia|done].
    + destruct (IH Ht i u v Hi He) as (j & Hj & Hv). exists (S j). split; [lia|done].
  - split; [|exact Hres]. destruct Hres as (j & mid & -> & _ & Hw). intros Ha. by apply (Ha j mid).
Qed.

(** The graph of [test_topo_sort], and that of [test_topo_sort_cycle] with its added edge. *)
Definition cycle_adj : list (list VertexId) := [[]; []; [0; 3]; [2; 1]; [3]].

Lemma cycle_adj_ok : adj_ok cycle_adj.
Proof. split; [done..|]. repeat constructor; cbn; lia. Qed.

Lemma topo_sort_correct_witness :
  (∃ order, Graph_topo_sort (graph_of test_adj) = Ok (inl order) ∧ order = [3; 2; 1; 0]) ∧
  Graph_topo_sort (graph_of cycle_adj) = Ok (inr (Cycle [2; 3; 2])) ∧
  (∃ r, Graph_topo_sort (graph_of cycle_adj) = Ok r).
Proof.
  split; [eexists; split; [by vm_compute|done]|]. split; [by vm_compute|].
  destruct (topo_sort_correct cycle_adj cycle_adj_ok) as (r & Hr & _). by exists r.
Defined.
