(* ===== verification/CritPaths.v ===== *)
(** Longest paths, from [Graph::find_longest_paths] in [src/app/bz_critical_path/src/graph.rs]
    and [src/app/bz_critical_path/src/critical_path_accessor.rs]: given an order in which the
    edges of a vertex lead to earlier vertices, the cost of the longest path from each vertex and
    the next vertex on it, and the path itself read back from them.

    Costs are compared by runtime and then by length.  Their [u64] and [u32] sums wrap as in a
    release build; the theorems ask that no path has a runtime of 2^64 or more. *)
From S2P Require Import Prelude CritGraph CritTopo.
Local Open Scope dice_scope.

(** * Definitions *)

Record PathCost := mkPathCost { pc_runtime : N; pc_len : N }.

Definition PathCost_default : PathCost := mkPathCost 0 0.
Global Instance PathCost_inhabited : Inhabited PathCost := populate PathCost_default.
Global Instance OptionalVertexId_inhabited : Inhabited OptionalVertexId :=
  populate OptionalVertexId_none.

Definition u64_add (a b : N) : N := ((a + b) mod 2 ^ 64)%N.
Definition u64_sub (a b : N) : N := ((a + (2 ^ 64 - b mod 2 ^ 64)) mod 2 ^ 64)%N.
Definition u32_sub (a b : N) : N := ((a + (2 ^ 32 - b mod 2 ^ 32)) mod 2 ^ 32)%N.

(** The derived [Add] and [Ord]. *)
Definition PathCost_add (a b : PathCost) : PathCost :=
  mkPathCost (u64_add (pc_runtime a) (pc_runtime b)) (u32_add (pc_len a) (pc_len b)).

Definition PathCost_lt (a b : PathCost) : bool :=
  (pc_runtime a <? pc_runtime b)%N ||
  ((pc_runtime a =? pc_runtime b)%N && (pc_len a <? pc_len b)%N).

(** The loop over the dependencies that keeps the first largest cost. *)
Definition max_step (costs : VertexData PathCost) (max : option (PathCost * VertexId))
    (from : VertexId) : outcome (option (PathCost * VertexId)) :=
  from_cost ← VertexData_index costs from;
  let replace := match max with
                 | Some (max_cost, _) => PathCost_lt max_cost from_cost
                 | None => true
                 end in
  Ok (if replace then Some (from_cost, from) else max).

(** One iteration of the loop over the vertices. *)
Definition longest_step (self : Graph) (weights : VertexData N)
    (st : VertexData PathCost * VertexData OptionalVertexId) (idx : VertexId) :
    outcome (VertexData PathCost * VertexData OptionalVertexId) :=
  let '(costs, predecessor) := st in
  es ← Graph_iter_edges self idx;
  max ← for_each (max_step costs) None es;
  w ← VertexData_index weights idx;
  let me := mkPathCost w 1 in
  match max with
  | Some (cost, vertex) =>
      costs ← VertexData_set costs idx (PathCost_add cost me);
      predecessor ← VertexData_set predecessor idx (OptionalVertexId_from vertex);
      Ok (costs, predecessor)
  | None =>
      costs ← VertexData_set costs idx me;
      predecessor ← VertexData_set predecessor idx OptionalVertexId_none;
      Ok (costs, predecessor)
  end.

Definition Graph_find_longest_paths (self : Graph) (reverse_topo_order : list VertexId)
    (weights : VertexData N) : outcome (VertexData PathCost * VertexData OptionalVertexId) :=
  for_each (longest_step self weights)
    (Graph_allocate_vertex_data self PathCost_default,
     Graph_allocate_vertex_data self OptionalVertexId_none) reverse_topo_order.

Record CriticalPathAccessor := mkCriticalPathAccessor {
  cpa_predecessors : VertexData OptionalVertexId;
  cpa_cost_from_source : VertexData PathCost;
}.

(** One iteration of the loop that writes the path from its end. *)
Definition accessor_step (self : CriticalPathAccessor) (critical_path_len : nat)
    (st : list VertexId * VertexId) (i : nat) : outcome (list VertexId * VertexId) :=
  let '(critical_path, idx) := st in
  critical_path ← vec_set critical_path (critical_path_len - 1 - i) idx;
  if i =? critical_path_len - 1 then Ok (critical_path, idx) else
    o ← VertexData_index (cpa_predecessors self) idx;
    idx ← expect (OptionalVertexId_into_option o);
    Ok (critical_path, idx).

Definition critical_path_for_vertex_and_cost (self : CriticalPathAccessor) (sink : VertexId)
    (cost : PathCost) : outcome (list VertexId) :=
  let critical_path_len := N.to_nat (pc_len cost) in
  '(critical_path, _) ← for_each (accessor_step self critical_path_len)
                          (replicate critical_path_len 0, sink) (seq 0 critical_path_len);
  Ok critical_path.

Definition critical_path_for_vertex (self : CriticalPathAccessor) (sink : VertexId) :
    outcome (option (PathCost * list VertexId)) :=
  match VertexData_get (cpa_cost_from_source self) sink with
  | None => Ok None
  | Some cost =>
      critical_path ← critical_path_for_vertex_and_cost self sink cost;
      Ok (Some (cost, critical_path))
  end.

(** * The order of costs *)

Definition cost_le (a b : PathCost) : Prop :=
  (pc_runtime a < pc_runtime b ∨ pc_runtime a = pc_runtime b ∧ pc_len a <= pc_len b)%N.

(** The sum of costs without wrap-around. *)
Definition cost_plus (a b : PathCost) : PathCost :=
  mkPathCost (pc_runtime a + pc_runtime b) (pc_len a + pc_len b).

Lemma PathCost_lt_false a b : PathCost_lt a b = false ↔ cost_le b a.
Proof.
  unfold PathCost_lt, cost_le. rewrite orb_false_iff, andb_false_iff, !N.ltb_ge, N.eqb_neq. lia.
Qed.

Lemma PathCost_lt_true a b : PathCost_lt a b = true ↔ ¬ cost_le b a.
Proof. rewrite <- PathCost_lt_false. by destruct (PathCost_lt a b). Qed.

Global Instance cost_le_preorder : PreOrder cost_le.
Proof. split; [intros ?|intros ???]; unfold cost_le; lia. Qed.

Lemma cost_le_total a b : cost_le a b ∨ cost_le b a.
Proof. unfold cost_le; lia. Qed.

Lemma cost_le_antisym a b : cost_le a b → cost_le b a → a = b.
Proof. destruct a, b; unfold cost_le; cbn. intros. f_equal; lia. Qed.

Lemma cost_plus_mono a a' b b' : cost_le a a' → cost_le b b' → cost_le (cost_plus a b) (cost_plus a' b').
Proof. unfold cost_le, cost_plus; cbn; lia. Qed.

Lemma PathCost_add_plus a b :
  (pc_runtime a + pc_runtime b < 2 ^ 64)%N → (pc_len a + pc_len b < 2 ^ 32)%N →
  PathCost_add a b = cost_plus a b.
Proof.
  intros H1 H2. unfold PathCost_add, cost_plus, u64_add. f_equal; [by apply N.mod_small|].
  by apply u32_add_small.
Qed.

(** * Costs of walks *)

Definition walk_cost (weights : list N) (l : list VertexId) : PathCost :=
  foldr (λ v c, cost_plus c (mkPathCost (weights !!! v) 1)) PathCost_default l.

Lemma walk_cost_cons weights v l :
  walk_cost weights (v :: l) = cost_plus (walk_cost weights l) (mkPathCost (weights !!! v) 1).
Proof. done. Qed.

Lemma cost_plus_comm a b : cost_plus a b = cost_plus b a.
Proof. unfold cost_plus. f_equal; lia. Qed.

Lemma cost_plus_assoc a b c : cost_plus a (cost_plus b c) = cost_plus (cost_plus a b) c.
Proof. unfold cost_plus; cbn. f_equal; lia. Qed.

Lemma cost_plus_default_l a : cost_plus PathCost_default a = a.
Proof. destruct a. done. Qed.

Lemma walk_cost_app weights l1 l2 :
  walk_cost weights (l1 ++ l2) = cost_plus (walk_cost weights l1) (walk_cost weights l2).
Proof.
  induction l1 as [|v l1 IH]; cbn [app]; [by rewrite cost_plus_default_l|].
  rewrite !walk_cost_cons, IH, <- !cost_plus_assoc. f_equal. apply cost_plus_comm.
Qed.

Lemma walk_cost_len weights l : pc_len (walk_cost weights l) = N.of_nat (length l).
Proof. induction l as [|v l IH]; [done|]. rewrite walk_cost_cons. cbn. rewrite IH. lia. Qed.

Lemma walk_cost_perm weights l1 l2 : l1 ≡ₚ l2 → walk_cost weights l1 = walk_cost weights l2.
Proof.
  induction 1 as [|x l1 l2 _ IH|x y l|l1 l2 l3 _ IH1 _ IH2]; [done| | |congruence].
  - by rewrite !walk_cost_cons, IH.
  - rewrite !walk_cost_cons, <- !cost_plus_assoc. f_equal. apply cost_plus_comm.
Qed.

Definition no_overflow (adj : list (list VertexId)) (weights : list N) : Prop :=
  ∀ l, is_walk adj l → (pc_runtime (walk_cost weights l) < 2 ^ 64)%N.

(** [c] is the cost of a longest walk from [v]. *)
Definition longest (adj : list (list VertexId)) (weights : list N) (v : VertexId) (c : PathCost) :
    Prop :=
  (∃ l, is_walk adj (v :: l) ∧ walk_cost weights (v :: l) = c) ∧
  ∀ l, is_walk adj (v :: l) → cost_le (walk_cost weights (v :: l)) c.

Lemma longest_unique adj weights v c1 c2 :
  longest adj weights v c1 → longest adj weights v c2 → c1 = c2.
Proof.
  intros [(l1 & Hw1 & E1) H1] [(l2 & Hw2 & E2) H2].
  apply cost_le_antisym; [rewrite <- E1; by apply H2|rewrite <- E2; by apply H1].
Qed.

(** * Walks of an acyclic graph *)

Lemma is_walk_tail adj u l : is_walk adj (u :: l) → is_walk adj l.
Proof. destruct l; cbn; naive_solver. Qed.

Lemma is_walk_app_r adj l1 l2 : is_walk adj (l1 ++ l2) → is_walk adj l2.
Proof. induction l1; [done|]. intros H%is_walk_tail. auto. Qed.

Lemma is_walk_app_l adj l1 l2 : is_walk adj (l1 ++ l2) → is_walk adj l1.
Proof.
  induction l1 as [|u [|v l1] IH]; [done|done|].
  cbn [app]. rewrite !is_walk_cons. intros [? ?]. split; [done|]. by apply IH.
Qed.

Lemma walk_nodup adj l : acyclic adj → is_walk adj l → NoDup l.
Proof.
  intros Ha. induction l as [|u l IH]; intros Hw; [constructor|].
  apply NoDup_cons. split; [|by apply IH, is_walk_tail with u].
  intros (l1 & l2 & ->)%list_elem_of_split.
  apply (Ha u l1). rewrite app_comm_cons in Hw. apply (is_walk_app adj (u :: l1) u l2) in Hw as [Hw _].
  exact Hw.
Qed.

Lemma walk_lt adj u l : adj_ok adj → u < length adj → is_walk adj (u :: l) → Forall (λ v, v < length adj) (u :: l).
Proof.
  intros Hok. revert u. induction l as [|v l IH]; intros u Hu Hw; [by repeat constructor|].
  apply is_walk_cons in Hw as [He Hw]. constructor; [done|]. apply IH; [|done].
  by eapply edge_lt in He as [_ ?].
Qed.

Lemma walk_submseteq adj u l :
  adj_ok adj → acyclic adj → u < length adj → is_walk adj (u :: l) → u :: l ⊆+ seq 0 (length adj).
Proof.
  intros Hok Ha Hu Hw. apply NoDup_submseteq; [by eapply walk_nodup|].
  pose proof (walk_lt adj u l Hok Hu Hw) as Hf. intros v Hv. eapply Forall_forall in Hf; [|done].
  apply elem_of_seq. lia.
Qed.

Lemma walk_length adj u l :
  adj_ok adj → acyclic adj → u < length adj → is_walk adj (u :: l) → length (u :: l) ≤ length adj.
Proof.
  intros. rewrite <- (length_seq (length adj) 0). by apply submseteq_length, walk_submseteq.
Qed.

(** If all the weights together fit, so does every walk. *)
Lemma no_overflow_total adj weights :
  adj_ok adj → acyclic adj → length weights = length adj →
  (pc_runtime (walk_cost weights (seq 0 (length adj))) < 2 ^ 64)%N → no_overflow adj weights.
Proof.
  intros Hok Ha Hlen Htot [|u l] Hw; [done|].
  destruct (decide (u < length adj)) as [Hu|Hu].
  - destruct (submseteq_Permutation _ _ (walk_submseteq adj u l Hok Ha Hu Hw)) as [k Hk].
    rewrite (walk_cost_perm _ _ _ Hk), walk_cost_app in Htot. cbn [cost_plus pc_runtime] in Htot. lia.
  - destruct l as [|v l]; [|exfalso; apply Hu; apply is_walk_cons in Hw as [He _]; by eapply edge_lt in He as [? _]].
    cbn -[N.pow]. rewrite list_lookup_total_alt, lookup_ge_None_2 by lia. done.
Qed.

(** * Correctness of the search *)

Section Longest.
Context (adj : list (list VertexId)) (weights : VertexData N).
Context (Hok : adj_ok adj) (Ha : acyclic adj) (Hw : length weights = length adj).
Context (Hov : no_overflow adj weights).
Let n := length adj.
Let g := graph_of adj.

Lemma longest_len v c : v < n → longest adj weights v c → (pc_len c <= N.of_nat n)%N.
Proof.
  intros Hv [(l & Hl & <-) _]. rewrite walk_cost_len. pose proof (walk_length adj v l Hok Ha Hv Hl). lia.
Qed.

Lemma longest_runtime v c : longest adj weights v c → (pc_runtime c < 2 ^ 64)%N.
Proof. intros [(l & Hl & <-) _]. by apply Hov. Qed.

(** A longest walk from a vertex with edges goes on along a longest walk from a best target. *)
Lemma longest_extend v u c :
  edge adj v u → longest adj weights u c →
  (∀ u' c', edge adj v u' → longest adj weights u' c' → cost_le c' c) →
  (∀ u', edge adj v u' → ∃ c', longest adj weights u' c') →
  longest adj weights v (cost_plus c (mkPathCost (weights !!! v) 1)).
Proof.
  intros He [(l & Hl & <-) Hmax] Hbest Hall. split.
  - exists (u :: l). split; [by apply is_walk_cons|done].
  - intros [|u' l'] Hl'; rewrite walk_cost_cons.
    + apply cost_plus_mono; [|done]. destruct (walk_cost weights (u :: l)). unfold cost_le; cbn. lia.
    + apply is_walk_cons in Hl' as [He' Hl']. apply cost_plus_mono; [|done].
      destruct (Hall u' He') as [c' Hc']. transitivity c'; [by apply Hc'|by eapply Hbest].
Qed.

Lemma longest_sink v : adj !! v = Some [] → longest adj weights v (mkPathCost (weights !!! v) 1).
Proof.
  intros Hv. split; [by exists []|]. intros [|u l] Hl; [done|].
  apply is_walk_cons in Hl as [(es & He & Hin) _]. simplify_eq. by apply elem_of_nil in Hin.
Qed.

(** What the arrays hold for a vertex that was visited. *)
Definition vertex_done (costs : VertexData PathCost) (predecessor : VertexData OptionalVertexId)
    (v : VertexId) : Prop :=
  longest adj weights v (costs !!! v) ∧
  match OptionalVertexId_into_option (predecessor !!! v) with
  | Some u => edge adj v u ∧
              costs !!! v = cost_plus (costs !!! u) (mkPathCost (weights !!! v) 1)
  | None => costs !!! v = mkPathCost (weights !!! v) 1
  end.

Lemma max_loop_spec costs es :
  length costs = n → Forall (λ v, v < n) es →
  returns (for_each (max_step costs) None es) (λ max,
    match max with
    | None => es = []
    | Some (c, u) => u ∈ es ∧ costs !!! u = c ∧ ∀ u', u' ∈ es → cost_le (costs !!! u') c
    end).
Proof.
  intros Hlen Hes. apply (for_each_inv (max_step costs) (λ don max,
    match max with
    | None => don = []
    | Some (c, u) => u ∈ don ∧ costs !!! u = c ∧ ∀ u', u' ∈ don → cost_le (costs !!! u') c
    end)); [done|].
  intros don v rest max -> Hmax. apply Forall_app in Hes as [_ Hv%Forall_inv].
  unfold max_step.
  rewrite (VertexData_index_Ok _ _ (costs !!! v)) by (apply list_lookup_lookup_total_lt; lia).
  cbn [mbind outcome_bind returns].
  destruct max as [[c u]|]; cbn.
  - destruct Hmax as (Hu & Hc & Hle). destruct (PathCost_lt c (costs !!! v)) eqn:E.
    + apply PathCost_lt_true in E. split_and!; [set_solver|done|].
      intros u' [Hu'|Hu'%list_elem_of_singleton]%elem_of_app; [|by subst].
      transitivity c; [by apply Hle|]. by destruct (cost_le_total c (costs !!! v)).
    + apply PathCost_lt_false in E. split_and!; [set_solver|done|].
      intros u' [Hu'|Hu'%list_elem_of_singleton]%elem_of_app; [by apply Hle|by subst].
  - subst don. split_and!; [set_solver|done|]. intros u' Hu'%list_elem_of_singleton. by subst.
Qed.

Context (Hfit : (Z.of_nat n <= 2 ^ 31)%Z).

Lemma lookup_total_insert_ne_eq {A} `{!Inhabited A} (l : list A) i j x :
  i ≠ j → <[i := x]> l !!! j = l !!! j.
Proof. intros. by apply list_lookup_total_insert_ne. Qed.

(** Writing the entry of a vertex leaves the entries of the others done. *)
Lemma vertex_done_insert costs pred idx c o v :
  vertex_done costs pred v → v ≠ idx →
  (∀ u, OptionalVertexId_into_option (pred !!! v) = Some u → u ≠ idx) →
  vertex_done (<[idx := c]> costs) (<[idx := o]> pred) v.
Proof.
  intros [Hl Hp] Hne Hu. unfold vertex_done. rewrite !lookup_total_insert_ne_eq by done.
  split; [done|]. destruct (OptionalVertexId_into_option (pred !!! v)) as [u|]; [|done].
  by rewrite lookup_total_insert_ne_eq by (apply not_eq_sym, Hu; done).
Qed.

Lemma topo_ordered_app_r l1 l2 : topo_ordered adj (l1 ++ l2) → topo_ordered adj l2.
Proof. induction l1; cbn; naive_solver. Qed.

Lemma topo_ordered_closed l u v : topo_ordered adj l → u ∈ l → edge adj u v → v ∈ l.
Proof.
  induction l as [|x l IH]; cbn; [by intros _ ?%elem_of_nil|].
  intros [Hx Ht] [->|Hu]%elem_of_cons He; apply elem_of_cons; right; [by apply Hx|by apply IH].
Qed.

Lemma longest_step_spec don idx costs pred :
  topo_ordered adj (idx :: reverse don) → idx ∉ don → idx < n → Forall (λ v, v < n) don →
  length costs = n → length pred = n → (∀ v, v ∈ don → vertex_done costs pred v) →
  returns (longest_step g weights (costs, pred) idx) (λ st,
    length st.1 = n ∧ length st.2 = n ∧ ∀ v, v ∈ don ++ [idx] → vertex_done st.1 st.2 v).
Proof.
  intros [Hidx Htopo] Hnotin Hlt Hdon Hlc Hlp Hdone.
  destruct (lookup_lt_is_Some_2 adj idx Hlt) as [es Hes].
  assert (∀ u, u ∈ es → u ∈ don) as Hsub.
  { intros u Hu. apply elem_of_reverse, Hidx. by exists es. }
  assert (∀ v, v ∈ don → v ≠ idx ∧ ∀ u, OptionalVertexId_into_option (pred !!! v) = Some u → u ≠ idx)
    as Hne.
  { intros v Hv. split; [by intros ->|]. intros u Hu ->. destruct (Hdone v Hv) as [_ Hp].
    rewrite Hu in Hp. destruct Hp as [He _]. apply Hnotin, elem_of_reverse.
    eapply topo_ordered_closed; [done|by apply elem_of_reverse|done]. }
  unfold longest_step. unfold g. rewrite (iter_edges_of _ _ _ Hes). cbn [mbind outcome_bind].
  eapply returns_bind.
  { apply max_loop_spec; [done|]. apply Forall_forall. intros u Hu%Hsub.
    by eapply (proj1 (Forall_forall _ _)) in Hdon. }
  intros max Hmax.
  rewrite (VertexData_index_Ok _ _ (weights !!! idx))
    by (apply list_lookup_lookup_total_lt; rewrite Hw; exact Hlt).
  cbn [mbind outcome_bind].
  destruct max as [[c u]|].
  - destruct Hmax as (Hu & Hc & Hle). pose proof (Hsub u Hu) as Hud.
    destruct (Hdone u Hud) as [Hlong _]. rewrite Hc in Hlong.
    assert (u < n) as Hun by by eapply (proj1 (Forall_forall _ _)) in Hdon.
    assert (longest adj weights idx (cost_plus c (mkPathCost (weights !!! idx) 1))) as Hnew.
    { apply longest_extend with u; [by exists es|done| |].
      - intros u' c' (es' & He & Hin) Hc'. simplify_eq.
        destruct (Hdone u' (Hsub _ Hin)) as [Hl _].
        rewrite (longest_unique _ _ _ _ _ Hc' Hl). by apply Hle.
      - intros u' (es' & He & Hin). simplify_eq. destruct (Hdone u' (Hsub _ Hin)) as [Hl _]. eauto. }
    rewrite PathCost_add_plus.
    2: { exact (longest_runtime _ _ Hnew). }
    2: { cbn [pc_len]. pose proof (longest_len _ _ Hun Hlong). 
         pose proof (ok_vertices _ Hok : (N.of_nat n <= 2 ^ 32 - 1)%N). lia. }
    rewrite VertexData_set_Ok by lia. cbn [mbind outcome_bind].
    rewrite VertexData_set_Ok by lia. cbn [mbind outcome_bind returns fst snd].
    rewrite !length_insert. split_and!; [done..|].
    intros v [Hv|Hv%list_elem_of_singleton]%elem_of_app.
    + destruct (Hne v Hv). apply vertex_done_insert; [by apply Hdone|done|done].
    + subst v. unfold vertex_done. rewrite !list_lookup_total_insert_eq by lia.
      split; [done|]. rewrite into_option_from by lia. split; [by exists es|].
      rewrite lookup_total_insert_ne_eq by (intros ->; done). by rewrite Hc.
  - subst es. rewrite VertexData_set_Ok by lia. cbn [mbind outcome_bind].
    rewrite VertexData_set_Ok by lia. cbn [mbind outcome_bind returns fst snd].
    rewrite !length_insert. split_and!; [done..|].
    intros v [Hv|Hv%list_elem_of_singleton]%elem_of_app.
    + destruct (Hne v Hv). apply vertex_done_insert; [by apply Hdone|done|done].
    + subst v. unfold vertex_done. rewrite !list_lookup_total_insert_eq by lia.
      split; [by apply longest_sink|done].
Qed.

Lemma find_longest_spec order :
  order ≡ₚ seq 0 n → topo_ordered adj (reverse order) →
  returns (Graph_find_longest_paths g order weights) (λ st,
    length st.1 = n ∧ length st.2 = n ∧ ∀ v, v < n → vertex_done st.1 st.2 v).
Proof.
  intros Hp Ht. unfold Graph_find_longest_paths, Graph_allocate_vertex_data, g, graph_of.
  cbn [g_vertices]. rewrite layout_length.
  eapply returns_mono.
  { apply (for_each_inv _ (λ don st, length st.1 = n ∧ length st.2 = n ∧
      ∀ v, v ∈ don → vertex_done st.1 st.2 v)).
    { cbn. rewrite !length_replicate. split_and!; [done..|]. by intros v ?%elem_of_nil. }
    intros don idx rest [costs pred] E (Hlc & Hlp & Hdone). cbn [fst snd] in *.
    assert (NoDup order) as Hnd by (rewrite Hp; apply NoDup_seq).
    assert (Forall (λ v, v < n) order) as Hf.
    { rewrite Hp. apply Forall_seq. lia. }
    rewrite E in Hnd, Hf, Ht. apply Forall_app in Hf as [Hf [Hidx _]%Forall_cons].
    apply NoDup_app in Hnd as (_ & Hnot & _).
    apply longest_step_spec; try done.
    - rewrite reverse_app, reverse_cons, <- app_assoc in Ht. by apply topo_ordered_app_r in Ht.
    - intros Hin. apply (Hnot idx Hin). apply elem_of_cons. by left. }
  intros [costs pred] (Hlc & Hlp & Hdone). split_and!; [done..|]. intros v Hv.
  apply Hdone. rewrite Hp. apply elem_of_seq. lia.
Qed.

Lemma longest_len_pos v c : longest adj weights v c → (1 <= pc_len c)%N.
Proof. intros [(l & _ & <-) _]. rewrite walk_cost_len. cbn. lia. Qed.

(** * The accessor *)

Section Accessor.
Context (costs : VertexData PathCost) (pred : VertexData OptionalVertexId).
Context (Hlc : length costs = n) (Hlp : length pred = n).
Context (Hdone : ∀ v, v < n → vertex_done costs pred v).
Let acc := mkCriticalPathAccessor pred costs.

(** The state of the loop after [i] rounds out of [len]: the [i] last places hold the vertices
    passed, and the rest of the cost is the cost of the current vertex. *)
Definition accessor_inv (sink : VertexId) (len i : nat) (st : list VertexId * VertexId) : Prop :=
  ∃ R, st.1 = replicate (len - i) 0 ++ R ∧ length R = i ∧
    (if decide (i < len)
     then is_walk adj (reverse R ++ [st.2]) ∧ head (reverse R ++ [st.2]) = Some sink ∧ st.2 < n ∧
          cost_plus (walk_cost weights R) (costs !!! st.2) = costs !!! sink ∧
          N.of_nat (len - i) = pc_len (costs !!! st.2)
     else is_walk adj (reverse R) ∧ head (reverse R) = Some sink ∧
          walk_cost weights R = costs !!! sink).

Lemma accessor_step_spec sink len i st :
  i < len → accessor_inv sink len i st →
  returns (accessor_step acc len st i) (accessor_inv sink len (S i)).
Proof.
  intros Hi (R & E & HR & H). rewrite decide_True in H by done.
  destruct st as [path idx]. cbn [fst snd] in *. destruct H as (Hwalk & Hhead & Hidx & Hcost & Hlen).
  destruct (Hdone idx Hidx) as [Hlong Hpred].
  unfold accessor_step. rewrite vec_set_Ok by (rewrite E, length_app, length_replicate; lia).
  cbn [mbind outcome_bind].
  assert (<[len - 1 - i := idx]> path = replicate (len - S i) 0 ++ idx :: R) as ->.
  { rewrite E. replace (len - i) with (S (len - S i)) by lia. rewrite replicate_S_end, <- app_assoc.
    rewrite insert_app_r_alt, length_replicate by (rewrite length_replicate; lia).
    by replace (len - 1 - i - (len - S i)) with 0 by lia. }
  destruct (Nat.eqb_spec i (len - 1)) as [Hlast|Hlast].
  - exists (idx :: R). split_and!; [done|cbn; lia|]. rewrite decide_False by lia.
    rewrite reverse_cons, walk_cost_cons. split_and!; [done..|]. rewrite <- Hcost. f_equal.
    destruct (OptionalVertexId_into_option (pred !!! idx)) as [u|]; [|done].
    exfalso. destruct Hpred as [He Hc]. destruct (edge_lt adj _ _ Hok He) as [_ Hu].
    destruct (Hdone u Hu) as [Hlu _]. pose proof (longest_len_pos _ _ Hlu).
    rewrite Hc in Hlen. cbn in Hlen. lia.
  - cbn [acc cpa_predecessors].
    rewrite (VertexData_index_Ok _ _ (pred !!! idx)) by (apply list_lookup_lookup_total_lt; lia).
    cbn [mbind outcome_bind].
    destruct (OptionalVertexId_into_option (pred !!! idx)) as [u|].
    2: { exfalso. rewrite Hpred in Hlen. cbn in Hlen. lia. }
    destruct Hpred as [He Hc]. destruct (edge_lt adj _ _ Hok He) as [_ Hu].
    cbn [expect mbind outcome_bind returns]. exists (idx :: R).
    split_and!; [done|cbn; lia|]. rewrite decide_True by lia. cbn [fst snd].
    rewrite reverse_cons, <- app_assoc. cbn [app]. split_and!.
    + apply is_walk_app. split; [done|]. cbn. done.
    + destruct (reverse R); done.
    + exact Hu.
    + rewrite walk_cost_cons, <- Hcost, Hc, <- cost_plus_assoc. f_equal. apply cost_plus_comm.
    + rewrite Hc in Hlen. cbn in Hlen. lia.
Qed.

Lemma path_for_vertex_spec sink :
  sink < n →
  returns (critical_path_for_vertex_and_cost acc sink (costs !!! sink)) (λ path,
    is_walk adj (reverse path) ∧ head (reverse path) = Some sink ∧
    walk_cost weights path = costs !!! sink).
Proof.
  intros Hs. destruct (Hdone sink Hs) as [Hlong _]. pose proof (longest_len_pos _ _ Hlong).
  unfold critical_path_for_vertex_and_cost. set (len := N.to_nat _).
  eapply returns_bind.
  { apply (for_each_inv _ (λ don st, accessor_inv sink len (length don) st)).
    - exists []. cbn. rewrite Nat.sub_0_r, app_nil_r. split_and!; [done..|].
      rewrite decide_True by (unfold len; lia). split_and!; try done.
      + apply cost_plus_default_l.
      + unfold len. by rewrite N2Nat.id.
    - intros don i rest st E Hst. rewrite length_app, Nat.add_1_r.
      assert (i = length don ∧ i < len) as [-> ?].
      { assert (seq 0 len !! length don = Some i) as Hl
          by (rewrite E, lookup_app_r, Nat.sub_diag by done; done).
        apply lookup_seq in Hl. lia. }
      by apply accessor_step_spec. }
  intros [path idx] (R & E & _ & H'). rewrite length_seq, Nat.sub_diag in *. cbn in E. subst path.
  rewrite decide_False in H' by lia. exact H'.
Qed.

(** Every vertex has an answer: a longest walk from it, listed from its far end. *)
Lemma accessor_spec v :
  v < n → ∃ cost path,
    critical_path_for_vertex acc v = Ok (Some (cost, path)) ∧ longest adj weights v cost ∧
    is_walk adj (reverse path) ∧ head (reverse path) = Some v ∧ walk_cost weights path = cost.
Proof.
  intros Hv. pose proof (Hdone v Hv) as [Hlong _]. pose proof (path_for_vertex_spec v Hv) as Hpath.
  apply returns_Ok in Hpath as (path & Epath & ? & ? & ?).
  exists (costs !!! v), path. split_and!; [|done..].
  unfold critical_path_for_vertex, VertexData_get. cbn [acc cpa_cost_from_source].
  rewrite (list_lookup_lookup_total_lt costs v) by lia. by rewrite Epath.
Qed.
End Accessor.
End Longest.

(** Reading a topological order backward is a topological order of the reverse graph. *)
Lemma topo_ordered_rev adj order :
  adj_ok adj → order ≡ₚ seq 0 (length adj) → topo_ordered adj order →
  topo_ordered (rev_adj adj) (reverse order).
Proof.
  intros Hok Hp Ht.
  enough (∀ l1 l2, order = l1 ++ l2 → topo_ordered (rev_adj adj) (reverse l1)) as H
    by (apply (H order []); by rewrite app_nil_r).
  intros l1. induction l1 as [|x l1 IH] using rev_ind; intros l2 E; [done|].
  rewrite reverse_app. cbn. rewrite <- app_assoc in E. split; [|by eapply IH].
  intros u Hu%(edge_rev adj u x Hok). apply elem_of_reverse.
  assert (u ∈ order) as Hin.
  { rewrite Hp. apply elem_of_seq. apply edge_lt in Hu as [? _]; [lia|done]. }
  assert (NoDup order) as Hnd by (rewrite Hp; apply NoDup_seq).
  rewrite E in Hin. apply elem_of_app in Hin as [?|[->|Hin]%elem_of_cons]; [done| |].
  - exfalso. assert (acyclic adj) as Ha by by eapply topo_ordered_acyclic.
    by apply (Ha x []).
  - exfalso. rewrite E in Ht, Hnd. apply topo_ordered_app_r in Ht as [_ Ht].
    apply (topo_ordered_closed adj l2 u x) in Ht; [|done|done].
    apply NoDup_app in Hnd as (_ & _ & [? _]%NoDup_cons). done.
Qed.

Lemma rev_adj_edge_rev adj u v : adj_ok adj → edge (rev_adj (rev_adj adj)) u v ↔ edge adj u v.
Proof. intros Hok. rewrite edge_rev by (by apply rev_adj_ok). by apply edge_rev. Qed.

(** * Reachability *)

Lemma walk_reaches adj u l v : is_walk adj (u :: l) → v ∈ u :: l → rtc (edge adj) u v.
Proof.
  revert u. induction l as [|x l IH]; intros u Hw Hv.
  { apply list_elem_of_singleton in Hv as ->. done. }
  apply is_walk_cons in Hw as [He Hw]. apply elem_of_cons in Hv as [->|Hv]; [done|].
  apply rtc_l with x; [done|]. by apply IH.
Qed.

Lemma reaches_walk adj u v :
  rtc (edge adj) u v → ∃ m k, is_walk adj (m ++ [v]) ∧ m ++ [v] = u :: k.
Proof.
  induction 1 as [u|u x v He _ (m & k & Hw & E)]; [by exists [], []|].
  exists (u :: m), (m ++ [v]). split; [|done]. cbn [app]. rewrite E in *. by apply is_walk_cons.
Qed.

(** Going from [u] to [v] and on along a walk. *)
Lemma reaches_then_walk adj u v l :
  rtc (edge adj) u v → is_walk adj (v :: l) →
  ∃ k, is_walk adj (u :: k) ∧ ∀ x, x ∈ v :: l → x ∈ u :: k.
Proof.
  intros Hr Hw. destruct (reaches_walk adj u v Hr) as (m & k & Hw1 & E).
  assert (m ++ v :: l = u :: k ++ l) as E2 by (rewrite app_comm_cons, <- E, <- app_assoc; done).
  exists (k ++ l). rewrite <- E2. split; [by apply is_walk_app|]. set_solver.
Qed.

(** A walk whose vertices are all comparable with [c] can be rerouted through [c]. *)
Lemma walk_through_from adj c v l :
  is_walk adj (v :: l) → rtc (edge adj) v c →
  (∀ x, x ∈ l → rtc (edge adj) x c ∨ rtc (edge adj) c x) →
  ∃ k, is_walk adj (v :: k) ∧ ∀ x, x = c ∨ x ∈ v :: l → x ∈ v :: k.
Proof.
  revert v. induction l as [|u l IH]; intros v Hw Hvc Hcmp.
  { destruct (reaches_then_walk adj v c [] Hvc I) as (k & Hk & Hin). exists k. set_solver. }
  apply is_walk_cons in Hw as [He Hw].
  destruct (Hcmp u) as [Huc|Hcu]; [set_solver| |].
  - destruct (IH u Hw Huc) as (k & Hk & Hin); [set_solver|].
    exists (u :: k). split; [by apply is_walk_cons|]. set_solver.
  - destruct (reaches_then_walk adj c u l Hcu Hw) as (k1 & Hk1 & Hin1).
    destruct (reaches_then_walk adj v c k1 Hvc Hk1) as (k2 & Hk2 & Hin2).
    exists k2. split; [done|]. set_solver.
Qed.

Lemma walk_through adj c v l :
  is_walk adj (v :: l) → (∀ x, x ∈ v :: l → rtc (edge adj) x c ∨ rtc (edge adj) c x) →
  ∃ u k, is_walk adj (u :: k) ∧ (u = v ∨ u = c) ∧ ∀ x, x = c ∨ x ∈ v :: l → x ∈ u :: k.
Proof.
  intros Hw Hcmp. destruct (Hcmp v) as [Hvc|Hcv]; [set_solver| |].
  - destruct (walk_through_from adj c v l Hw Hvc) as (k & Hk & Hin); [set_solver|].
    exists v, k. auto.
  - destruct (reaches_then_walk adj c v l Hcv Hw) as (k & Hk & Hin). exists c, k. set_solver.
Qed.

Lemma is_walk_reverse adj l : adj_ok adj → is_walk (rev_adj adj) (reverse l) ↔ is_walk adj l.
Proof.
  intros Hok. induction l as [|u [|v l] IH]; [done|done|].
  rewrite reverse_cons, reverse_cons, <- app_assoc. cbn [app]. rewrite is_walk_app.
  rewrite reverse_cons in IH. rewrite IH, is_walk_cons. cbn.
  rewrite (edge_rev adj u v Hok). tauto.
Qed.

Lemma rtc_rev adj u v : adj_ok adj → rtc (edge (rev_adj adj)) u v ↔ rtc (edge adj) v u.
Proof.
  intros Hok. split; induction 1 as [|x y z He _ IH]; [done| |done|].
  - apply rtc_r with y; [done|]. by apply edge_rev.
  - apply rtc_r with y; [done|]. by apply edge_rev.
Qed.

Lemma rtc_antisym adj u v : acyclic adj → rtc (edge adj) u v → rtc (edge adj) v u → u = v.
Proof.
  intros Ha Huv Hvu. destruct Huv as [|u x v He Hxv]; [done|]. exfalso.
  destruct (reaches_walk adj x u) as (m & k & Hw & E); [by etrans|].
  apply (Ha u m). rewrite E in *. by apply is_walk_cons.
Qed.

(** A cost is the larger the more vertices the walk has. *)
Lemma walk_cost_submseteq weights l k :
  l ⊆+ k → cost_le (walk_cost weights l) (walk_cost weights k).
Proof.
  intros [r Hr]%submseteq_Permutation. rewrite (walk_cost_perm _ _ _ Hr), walk_cost_app.
  generalize (walk_cost weights l) (walk_cost weights r). intros [] []. unfold cost_le; cbn. lia.
Qed.

(** Setting the weight of a vertex to zero. *)
Lemma walk_cost_drop_notin weights c l :
  c ∉ l → walk_cost (<[c := 0%N]> weights) l = walk_cost weights l.
Proof.
  induction l as [|v l IH]; [done|]. intros [Hne Hl]%not_elem_of_cons.
  rewrite !walk_cost_cons, IH by done. by rewrite list_lookup_total_insert_ne.
Qed.

Lemma walk_cost_drop_in weights c l :
  c < length weights → NoDup l → c ∈ l →
  walk_cost weights l =
  cost_plus (walk_cost (<[c := 0%N]> weights) l) (mkPathCost (weights !!! c) 0).
Proof.
  intros Hc Hnd [l' Hp]%elem_of_Permutation. rewrite Hp in Hnd. apply NoDup_cons in Hnd as [Hin _].
  rewrite !(walk_cost_perm _ _ _ Hp), !walk_cost_cons, walk_cost_drop_notin by done.
  rewrite list_lookup_total_insert_eq by done. unfold cost_plus; cbn. f_equal; lia.
Qed.

(** * Properties *)

(** On an acyclic graph whose vertices fit [i32] and whose walks do not
    overflow, visiting each vertex after its dependencies computes for every vertex the cost of
    the longest walk from it, by runtime and then by number of vertices; and the accessor reads
    back, for every vertex, a walk that starts there and has that cost, listed from its far end.
    For a vertex out of range the accessor answers [None].  Nothing panics. *)
Theorem longest_paths_correct adj weights order (Hok : adj_ok adj)
    (Hp : order ≡ₚ seq 0 (length adj)) (Ht : topo_ordered adj (reverse order))
    (Hw : length weights = length adj) (Hov : no_overflow adj weights)
    (Hfit : (Z.of_nat (length adj) <= 2 ^ 31)%Z) :
  ∃ costs pred,
    Graph_find_longest_paths (graph_of adj) order weights = Ok (costs, pred) ∧
    (∀ v, v < length adj → ∃ c path,
       critical_path_for_vertex (mkCriticalPathAccessor pred costs) v = Ok (Some (c, path)) ∧
       longest adj weights v c ∧
       is_walk adj (reverse path) ∧ head (reverse path) = Some v ∧ walk_cost weights path = c) ∧
    (∀ v, length adj ≤ v →
       critical_path_for_vertex (mkCriticalPathAccessor pred costs) v = Ok None).
Proof.
  assert (acyclic adj) as Ha.
  { eapply topo_ordered_acyclic; [done| |exact Ht]. by rewrite reverse_Permutation. }
  pose proof (find_longest_spec adj weights Hok Ha Hw Hov Hfit order Hp Ht) as H.
  apply returns_Ok in H as ([costs pred] & E & Hlc & Hlp & Hdone). cbn [fst snd] in *.
  exists costs, pred. split_and!; [done| |].
  - exact (accessor_spec adj weights Hok Hw costs pred Hlc Hlp Hdone).
  - intros v Hv. unfold critical_path_for_vertex, VertexData_get. cbn [cpa_cost_from_source].
    by rewrite lookup_ge_None_2 by lia.
Qed.

(** The graph and weights of [test_longest_paths]. *)
Definition test_weights : VertexData N := [20; 10; 15; 5]%N.

Lemma test_acyclic : acyclic test_adj.
Proof.
  apply (topo_ordered_acyclic test_adj [3; 2; 1; 0]); [exact test_adj_ok| |].
  - cbn. apply (bool_decide_unpack _). by vm_compute.
  - cbn. split_and!; try done; intros v (es & Hes & Hv); cbn in Hes; simplify_eq; set_solver.
Qed.

Lemma test_no_overflow : no_overflow test_adj test_weights.
Proof. by apply no_overflow_total; [exact test_adj_ok|exact test_acyclic|..]. Qed.

Lemma longest_paths_correct_witness :
  (∃ pred,
     Graph_find_longest_paths (graph_of test_adj) [0; 1; 2; 3] test_weights =
     Ok ([mkPathCost 20 1; mkPathCost 30 2; mkPathCost 15 1; mkPathCost 35 3], pred) ∧
     critical_path_for_vertex
       (mkCriticalPathAccessor pred [mkPathCost 20 1; mkPathCost 30 2; mkPathCost 15 1; mkPathCost 35 3]) 3
     = Ok (Some (mkPathCost 35 3, [0; 1; 3]))) ∧
  ∃ costs pred, Graph_find_longest_paths (graph_of test_adj) [0; 1; 2; 3] test_weights = Ok (costs, pred).
Proof.
  split; [eexists; split; by vm_compute|].
  destruct (longest_paths_correct test_adj test_weights [0; 1; 2; 3]) as (costs & pred & H & _).
  - exact test_adj_ok.
  - done.
  - cbn. split_and!; try done; intros v (es & Hes & Hv); cbn in Hes; simplify_eq; set_solver.
  - done.
  - exact test_no_overflow.
  - done.
  - by exists costs, pred.
Defined.
