(* ===== verification/CritMarks.v ===== *)
(** The marking of the vertices reachable from the critical path, from the [GraphVisitor] of
    [src/app/bz_critical_path/src/potential.rs]: a recursive search that marks with an index what
    is reachable and has no mark yet.  Visiting from a sequence of vertices leaves on each vertex
    the index of the first of them that reaches it.

    The recursion of the code is a fuel that runs out on its nesting depth, which the number of
    unmarked vertices bounds; the size of the machine stack is not modelled. *)
From S2P Require Import Prelude CritGraph CritTopo CritPaths.
Local Open Scope dice_scope.

(** * Definitions *)

(** [GraphVisitor::visit]: marks what is reachable and not yet marked. *)
Fixpoint visit (fuel : nat) (graph : Graph) (cp_idx : VertexId)
    (mark : VertexData OptionalVertexId) (vertex_idx : VertexId) :
    outcome (VertexData OptionalVertexId) :=
  match fuel with
  | 0 => Panic
  | S fuel =>
      o ← VertexData_index mark vertex_idx;
      if OptionalVertexId_is_some o then Ok mark else
      mark ← VertexData_set mark vertex_idx (OptionalVertexId_from cp_idx);
      es ← Graph_iter_edges graph vertex_idx;
      for_each (visit fuel graph cp_idx) mark es
  end.

(** Each nested call has marked one vertex more. *)
Definition visit_fuel (graph : Graph) : nat := S (length (g_vertices graph)).

(** Visiting from the vertices of the critical path, with their indices, in the given order. *)
Definition visit_all (graph : Graph) (mark : VertexData OptionalVertexId)
    (cps : list (VertexId * VertexId)) : outcome (VertexData OptionalVertexId) :=
  for_each (λ mark c, visit (visit_fuel graph) graph c.1 mark c.2) mark cps.

(** * Marks *)

Definition mark_of (m : VertexData OptionalVertexId) (v : VertexId) : option VertexId :=
  OptionalVertexId_into_option (m !!! v).

Definition unmarked (m : VertexData OptionalVertexId) : nat :=
  length (filter (λ o, OptionalVertexId_into_option o = None) m).

Lemma mark_of_insert_eq m v o :
  v < length m → mark_of (<[v := o]> m) v = OptionalVertexId_into_option o.
Proof. intros H. unfold mark_of. by rewrite list_lookup_total_insert_eq. Qed.

Lemma mark_of_insert_ne m v o u : v ≠ u → mark_of (<[v := o]> m) u = mark_of m u.
Proof. intros H. unfold mark_of. by rewrite list_lookup_total_insert_ne. Qed.

Lemma mark_of_Some_lt m v i : mark_of m v = Some i → v < length m.
Proof.
  intros H. destruct (decide (v < length m)); [done|]. unfold mark_of in H.
  by rewrite list_lookup_total_alt, lookup_ge_None_2 in H by lia.
Qed.

Lemma unmarked_insert m v o :
  v < length m → mark_of m v = None → OptionalVertexId_into_option o ≠ None →
  unmarked m = S (unmarked (<[v := o]> m)).
Proof.
  intros Hv Hm Ho. unfold unmarked, mark_of in *.
  destruct (lookup_lt_is_Some_2 m v Hv) as [x Hx]. rewrite (list_lookup_total_correct _ _ _ Hx) in Hm.
  rewrite (insert_take_drop m v o Hv). rewrite <- (take_drop_middle m v x Hx) at 1.
  rewrite !filter_app, !length_app, filter_cons_True, filter_cons_False by done. cbn. lia.
Qed.

Lemma unmarked_mono m m' :
  length m = length m' → (∀ v, mark_of m' v = None → mark_of m v = None) → unmarked m' ≤ unmarked m.
Proof.
  revert m'. induction m as [|o m IH]; intros [|o' m'] Hl H; [done..|].
  injection Hl as Hl. unfold unmarked in *. rewrite !filter_cons.
  pose proof (H 0) as H0. cbn in H0.
  assert (length (filter (λ o, OptionalVertexId_into_option o = None) m') ≤
          length (filter (λ o, OptionalVertexId_into_option o = None) m)).
  { apply IH; [done|]. intros v. exact (H (S v)). }
  unfold mark_of in H0. cbn in H0. repeat case_decide; cbn; try lia. exfalso. auto.
Qed.

Section Visit.
Context (adj : list (list VertexId)) (Hok : adj_ok adj).
Let n := length adj.
Let g := graph_of adj.

(** What visiting [vs] with the index [cp] does to the marks. *)
Record visited (cp : VertexId) (m : VertexData OptionalVertexId) (vs : list VertexId)
    (m' : VertexData OptionalVertexId) : Prop := {
  vi_length : length m' = length m;
  vi_old : ∀ u i, mark_of m u = Some i → mark_of m' u = Some i;
  vi_new : ∀ u i, mark_of m u = None → mark_of m' u = Some i →
    i = cp ∧ (∃ v, v ∈ vs ∧ rtc (edge adj) v u) ∧ ∀ x, edge adj u x → mark_of m' x ≠ None;
  vi_marked : ∀ v, v ∈ vs → mark_of m' v ≠ None;
}.

Lemma visited_unmarked cp m vs m' : visited cp m vs m' → unmarked m' ≤ unmarked m.
Proof.
  intros [Hl Ho _ _]. apply unmarked_mono; [done|]. intros v Hv.
  destruct (mark_of m v) as [i|] eqn:E; [|done]. apply Ho in E. congruence.
Qed.

Lemma visited_nil cp m : visited cp m [] m.
Proof. split; [done|done|congruence|by intros ? ?%elem_of_nil]. Qed.

Lemma visited_cons cp m v m1 vs m2 :
  visited cp m [v] m1 → visited cp m1 vs m2 → visited cp m (v :: vs) m2.
Proof.
  intros [Hl1 Ho1 Hn1 Hm1] [Hl2 Ho2 Hn2 Hm2].
  assert (∀ u, mark_of m1 u ≠ None → mark_of m2 u ≠ None) as Hup.
  { intros u Hu. destruct (mark_of m1 u) as [i|] eqn:E; [|done]. by rewrite (Ho2 _ _ E). }
  split; [congruence|auto| |].
  - intros u i Hu Hu2. destruct (mark_of m1 u) as [j|] eqn:E.
    + pose proof (Ho2 _ _ E) as E2. rewrite E2 in Hu2. simplify_eq.
      destruct (Hn1 u i Hu E) as (-> & (v' & Hv' & Hr) & Hx).
      split_and!; [done| |by auto]. exists v'. split; [set_solver|done].
    + destruct (Hn2 u i E Hu2) as (-> & (v' & Hv' & Hr) & Hx).
      split_and!; [done| |done]. exists v'. split; [set_solver|done].
  - intros x [->|Hx]%elem_of_cons; [|by apply Hm2]. apply Hup, Hm1. set_solver.
Qed.

Lemma visit_list_spec fuel cp m vs :
  (∀ m v, length m = n → v < n → unmarked m < fuel →
     returns (visit fuel g cp m v) (visited cp m [v])) →
  length m = n → Forall (λ v, v < n) vs → unmarked m < fuel →
  returns (for_each (visit fuel g cp) m vs) (visited cp m vs).
Proof.
  intros Hvisit Hl Hvs Hu. revert m Hl Hu. induction Hvs as [|v vs Hv Hvs IH]; intros m Hl Hu.
  { apply visited_nil. }
  cbn [for_each]. eapply returns_bind; [by apply Hvisit|]. intros m1 H1.
  pose proof (visited_unmarked _ _ _ _ H1). pose proof (vi_length _ _ _ _ H1).
  eapply returns_mono; [apply IH; lia|]. intros m2 H2. by eapply visited_cons.
Qed.

Lemma visit_spec fuel cp m v :
  (Z.of_nat cp < 2 ^ 31)%Z → length m = n → v < n → unmarked m < fuel →
  returns (visit fuel g cp m v) (visited cp m [v]).
Proof.
  intros Hcp. revert m v. induction fuel as [|fuel IH]; intros m v Hl Hv Hu; [lia|].
  cbn [visit]. rewrite (VertexData_index_Ok _ _ (m !!! v)) by (apply list_lookup_lookup_total_lt; lia).
  cbn [mbind outcome_bind]. rewrite is_some_into_option. fold (mark_of m v).
  destruct (mark_of m v) as [i|] eqn:Ev.
  { rewrite bool_decide_true by eauto. split; [done|done|congruence|].
    intros x ->%list_elem_of_singleton. congruence. }
  rewrite bool_decide_false by (by intros [? ?]).
  rewrite (VertexData_set_Ok m) by lia. cbn [mbind outcome_bind].
  destruct (lookup_lt_is_Some_2 adj v Hv) as [es Hes].
  change (Graph_iter_edges g v) with (Graph_iter_edges (graph_of adj) v).
  rewrite (iter_edges_of _ _ _ Hes). cbn [mbind outcome_bind].
  pose proof (into_option_from cp Hcp) as Hcp'.
  set (m1 := <[v := OptionalVertexId_from cp]> m).
  assert (mark_of m1 v = Some cp) as E1 by (unfold m1; by rewrite mark_of_insert_eq by lia).
  assert (∀ u, u ≠ v → mark_of m1 u = mark_of m u) as E2
    by (intros; unfold m1; by rewrite mark_of_insert_ne).
  eapply returns_mono.
  { apply visit_list_spec; [done|unfold m1; by rewrite length_insert| |].
    - exact (Forall_lookup_1 _ _ _ _ (ok_targets _ Hok) Hes).
    - rewrite (unmarked_insert m v (OptionalVertexId_from cp)) in Hu; [fold m1 in Hu; lia|lia|done|].
      by rewrite Hcp'. }
  intros m2 [Hl2 Ho Hn Hm]. split.
  - rewrite Hl2. unfold m1. by rewrite length_insert.
  - intros u i Hui. apply Ho. rewrite E2; [done|]. intros ->. congruence.
  - intros u i Hui Hui2. destruct (decide (u = v)) as [->|Hne].
    + rewrite (Ho _ _ E1) in Hui2. simplify_eq. split_and!; [done| |].
      * exists v. split; [set_solver|done].
      * intros x (es' & He & Hx). simplify_eq. by apply Hm.
    + destruct (Hn u i) as (-> & (e & He & Hr) & Hx); [by rewrite E2|done|].
      split_and!; [done| |done]. exists v. split; [set_solver|].
      apply rtc_l with e; [by exists es|done].
  - intros x ->%list_elem_of_singleton. by rewrite (Ho _ _ E1).
Qed.

(** * Visiting a sequence *)

(** A set closed under edges contains what its elements reach. *)
Lemma rtc_closed (P : VertexId → Prop) c u :
  (∀ y z, P y → edge adj y z → P z) → P c → rtc (edge adj) c u → P u.
Proof. intros Hcl Hc Hr. revert Hc. induction Hr; eauto. Qed.

(** The index of the first of [cs] that reaches [u]. *)
Definition first_reaching (cs : list (VertexId * VertexId)) (u : VertexId) (o : option VertexId) :
    Prop :=
  match o with
  | Some i => ∃ pre c post, cs = pre ++ (i, c) :: post ∧ rtc (edge adj) c u ∧
                            ∀ d, d ∈ pre → ¬ rtc (edge adj) d.2 u
  | None => ∀ d, d ∈ cs → ¬ rtc (edge adj) d.2 u
  end.

Lemma visit_all_spec cs :
  Forall (λ c, (Z.of_nat c.1 < 2 ^ 31)%Z ∧ c.2 < n) cs →
  returns (visit_all g (replicate n OptionalVertexId_none) cs) (λ m,
    length m = n ∧ ∀ u, u < n → first_reaching cs u (mark_of m u)).
Proof.
  intros Hcs. unfold visit_all.
  apply (for_each_inv _ (λ don m, length m = n ∧ ∀ u, u < n → first_reaching don u (mark_of m u))).
  { rewrite length_replicate. split; [done|]. intros u Hu. unfold mark_of.
    rewrite list_lookup_total_alt, lookup_replicate_2 by done. by intros d ?%elem_of_nil. }
  intros don [i c] rest m E [Hl Hm]. rewrite E in Hcs.
  apply Forall_app in Hcs as [_ [[Hi Hc] _]%Forall_cons]. cbn [fst snd] in *.
  eapply returns_mono.
  { apply visit_spec; [done|done|done|]. unfold visit_fuel, g, graph_of. cbn [g_vertices].
    rewrite layout_length. fold n. unfold unmarked.
    pose proof (length_filter (λ o, OptionalVertexId_into_option o = None) m). lia. }
  intros m' [Hl' Ho Hn Hmk].
  assert (∀ u x, mark_of m u ≠ None → edge adj u x → mark_of m x ≠ None) as Hclosed.
  { intros u x Hu He Hx. destruct (edge_lt adj u x Hok He) as [Hun Hxn].
    destruct (mark_of m u) as [j|] eqn:Eu; [|done].
    specialize (Hm u Hun) as Hmu. rewrite Eu in Hmu. destruct Hmu as (pre & d & post & -> & Hr & _).
    specialize (Hm x Hxn). rewrite Hx in Hm. apply (Hm (j, d)); [set_solver|].
    by eapply rtc_r. }
  assert (∀ u x, mark_of m' u ≠ None → edge adj u x → mark_of m' x ≠ None) as Hclosed'.
  { intros u x Hu He. destruct (mark_of m u) as [j|] eqn:Eu.
    - assert (mark_of m x ≠ None) as Hx by (eapply Hclosed; [|done]; congruence).
      destruct (mark_of m x) as [k|] eqn:Ex; [|done]. by rewrite (Ho _ _ Ex).
    - destruct (mark_of m' u) as [j|] eqn:Eu'; [|done]. by eapply Hn. }
  split; [congruence|]. intros u Hu. specialize (Hm u Hu).
  destruct (mark_of m u) as [j|] eqn:Eu.
  - rewrite (Ho _ _ Eu). destruct Hm as (pre & d & post & -> & Hr & Hpre).
    exists pre, d, (post ++ [(i, c)]). by rewrite <- app_assoc.
  - destruct (mark_of m' u) as [j|] eqn:Eu'.
    + destruct (Hn u j Eu Eu') as (-> & (v & ->%list_elem_of_singleton & Hr) & _).
      exists don, c, []. done.
    + intros d [Hd|Hd%list_elem_of_singleton]%elem_of_app; [by apply Hm|]. subst d. cbn.
      intros Hr. assert (mark_of m' u ≠ None); [|done].
      apply (rtc_closed (λ y, mark_of m' y ≠ None) c u); [|apply Hmk; set_solver|done].
      intros y z Hy Hyz. by eapply Hclosed'.
Qed.
End Visit.
