(* ===== verification/CritPotential.v ===== *)
(** The critical path and its potentials, from [src/app/bz_critical_path/src/potential.rs]: the
    longest path of a weighted acyclic graph, and for each vertex on it what the longest path
    would cost if that vertex took no time.  The code finds the latter with one pass over the
    vertices: the longest path through each vertex competes at exactly the positions of the
    critical path that are incomparable with the vertex.  The theorem says that the answer is the
    one recomputing from scratch gives.

    The pairs of threads of a [thread::scope] work on disjoint data and are joined before their
    results are used, so they are run one after the other; a panic in one is a panic of both. *)
From S2P Require Import Prelude CritGraph CritTopo CritPaths CritMarks.
Local Open Scope dice_scope.

(** * Definitions *)

Record Potentials := mkPotentials {
  pot_critical_path : list VertexId;
  pot_critical_path_cost : PathCost;
  pot_updated_critical_path_cost : list PathCost;
  pot_accessor : CriticalPathAccessor;
}.

(** [Iterator::max_by_key]: the last of the greatest. *)
Definition max_by_cost (l : list (VertexId * PathCost)) : option (VertexId * PathCost) :=
  foldl (λ acc x, match acc with
                  | None => Some x
                  | Some m => if PathCost_lt x.2 m.2 then Some m else Some x
                  end) None l.

(** [critical_path.iter()] *)
Definition enumerate (l : list VertexId) : list (VertexId * VertexId) := imap (λ i v, (i, v)) l.

(** The cost of the longest path through a vertex. *)
Definition vertex_cost_step (cost_from_source cost_to_sink : VertexData PathCost)
    (weights : VertexData N) (vertices_cost : VertexData PathCost) (idx : VertexId) :
    outcome (VertexData PathCost) :=
  a ← VertexData_index cost_from_source idx;
  b ← VertexData_index cost_to_sink idx;
  let cost := PathCost_add a b in
  w ← VertexData_index weights idx;
  VertexData_set vertices_cost idx
    (mkPathCost (u64_sub (pc_runtime cost) w) (u32_sub (pc_len cost) 1)).

Inductive WorkItem :=
| NodeValid (idx : VertexId) (invalid_at : option VertexId)
| Compute.

Definition work_order (item : WorkItem) : nat :=
  match item with NodeValid _ _ => 0 | Compute => 1 end.

(** The work of a vertex: valid past its last predecessor on the path, up to its first
    successor. *)
Definition node_work (last_cp_predecessor first_cp_successor : VertexData OptionalVertexId)
    (idx : VertexId) : outcome (VertexId * WorkItem) :=
  pred ← VertexData_index last_cp_predecessor idx;
  succ ← VertexData_index first_cp_successor idx;
  let valid_at := match OptionalVertexId_into_option pred with
                  | Some pred => S pred
                  | None => 0
                  end in
  Ok (valid_at, NodeValid idx (OptionalVertexId_into_option succ)).

(** The stable sort by [(index, order of the item)]. *)
Definition work_le (a b : VertexId * WorkItem) : bool :=
  (a.1 <? b.1) || ((a.1 =? b.1) && (work_order a.2 <=? work_order b.2)).

Fixpoint work_insert (x : VertexId * WorkItem) (l : list (VertexId * WorkItem)) :
    list (VertexId * WorkItem) :=
  match l with
  | [] => [x]
  | y :: l => if work_le x y then x :: y :: l else y :: work_insert x l
  end.

Definition sort_work (l : list (VertexId * WorkItem)) : list (VertexId * WorkItem) :=
  foldr work_insert [] l.

(** An entry of the heap, and the order of the tuples: by cost, then [None] before [Some]. *)
Notation HeapItem := (PathCost * option VertexId)%type (only parsing).

Definition option_lt (a b : option VertexId) : bool :=
  match a, b with
  | None, Some _ => true
  | Some a, Some b => a <? b
  | _, None => false
  end.

Definition heap_lt (a b : HeapItem) : bool :=
  PathCost_lt a.1 b.1 || (negb (PathCost_lt b.1 a.1) && option_lt a.2 b.2).

(** The binary heap, as the list of its entries from the greatest down: [push] inserts, [peek] is
    the head, [pop] the tail. *)
Fixpoint heap_push (x : HeapItem) (heap : list HeapItem) : list HeapItem :=
  match heap with
  | [] => [x]
  | y :: heap => if heap_lt x y then y :: heap_push x heap else x :: y :: heap
  end.

(** [while let Some(item) = heap.peek()]: drops the entries that are invalid by now and stops at
    the first valid one. *)
Fixpoint heap_peek_valid (critical_path_index : VertexId) (heap : list HeapItem) :
    list HeapItem * option PathCost :=
  match heap with
  | [] => ([], None)
  | (cost, Some invalid_at) :: heap' =>
      if critical_path_index <? invalid_at then (heap, Some cost)
      else heap_peek_valid critical_path_index heap'
  | (cost, None) :: _ => (heap, Some cost)
  end.

(** One iteration of the loop over the work. *)
Definition work_step (vertices_cost : VertexData PathCost) (st : list HeapItem * list PathCost)
    (w : VertexId * WorkItem) : outcome (list HeapItem * list PathCost) :=
  let '(heap, updated) := st in
  let '(critical_path_index, item) := w in
  match item with
  | NodeValid idx invalid_at =>
      cost ← VertexData_index vertices_cost idx;
      Ok (heap_push (cost, invalid_at) heap, updated)
  | Compute =>
      let '(heap, replacement) := heap_peek_valid critical_path_index heap in
      match replacement with
      | None => Ok (heap, updated)
      | Some replacement_cost =>
          curr_cost ← VertexData_index updated critical_path_index;
          updated ← (if PathCost_lt curr_cost replacement_cost
                     then VertexData_set updated critical_path_index replacement_cost
                     else Ok updated);
          Ok (heap, updated)
      end
  end.

(** The cost of the critical path without the runtime of each of its vertices. *)
Definition drop_step (critical_path_cost : PathCost) (weights : VertexData N)
    (updated : list PathCost) (c : VertexId * VertexId) : outcome (list PathCost) :=
  w ← VertexData_index weights c.2;
  VertexData_set updated c.1
    (mkPathCost (u64_sub (pc_runtime critical_path_cost) w) (pc_len critical_path_cost)).

(** What follows the two searches for longest paths when the graph is not empty. *)
Definition potentials_of_path (deps rdeps : Graph) (weights : VertexData N)
    (cost_to_sink : VertexData PathCost) (accessor : CriticalPathAccessor)
    (critical_path_sink : VertexId) (critical_path_cost : PathCost) : outcome Potentials :=
  critical_path ← critical_path_for_vertex_and_cost accessor critical_path_sink critical_path_cost;
  last_cp_predecessor ←
    visit_all rdeps (Graph_allocate_vertex_data deps OptionalVertexId_none)
      (reverse (enumerate critical_path));
  first_cp_successor ←
    visit_all deps (Graph_allocate_vertex_data deps OptionalVertexId_none)
      (enumerate critical_path);
  vs ← Graph_iter_vertices deps;
  vertices_cost ←
    for_each (vertex_cost_step (cpa_cost_from_source accessor) cost_to_sink weights)
      (Graph_allocate_vertex_data deps PathCost_default) vs;
  nodes ← for_each (λ acc idx, w ← node_work last_cp_predecessor first_cp_successor idx;
                               Ok (acc ++ [w])) [] vs;
  let work := sort_work (((λ i, (i, Compute)) <$> seq 0 (length critical_path)) ++ nodes) in
  updated ← for_each (drop_step critical_path_cost weights)
              (replicate (length critical_path) PathCost_default) (enumerate critical_path);
  '(_, updated) ← for_each (work_step vertices_cost) ([], updated) work;
  Ok (mkPotentials critical_path critical_path_cost updated accessor).

Definition compute_critical_path_potentials (deps : Graph) (weights : VertexData N) :
    outcome (Potentials + TopoSortError) :=
  rdeps ← Graph_reversed deps;
  topo_order ← Graph_topo_sort deps;
  match topo_order with
  | inr e => Ok (inr e)
  | inl topo_order =>
      '(cost_to_sink, _) ← Graph_find_longest_paths rdeps topo_order weights;
      '(cost_from_source, predecessors) ←
         Graph_find_longest_paths deps (reverse topo_order) weights;
      let accessor := mkCriticalPathAccessor predecessors cost_from_source in
      match max_by_cost (imap (λ i c, (i, c)) cost_from_source) with
      | None => Ok (inl (mkPotentials [] PathCost_default [] accessor))
      | Some (critical_path_sink, critical_path_cost) =>
          r ← potentials_of_path deps rdeps weights cost_to_sink accessor
                critical_path_sink critical_path_cost;
          Ok (inl r)
      end
  end.

(** On the graph of [test_longest_paths]. *)
Example test_potentials :
  (λ r, match r with
        | Ok (inl p) => Some (pot_critical_path p, pot_critical_path_cost p,
                              pot_updated_critical_path_cost p)
        | _ => None
        end) (compute_critical_path_potentials (graph_of test_adj) test_weights) =
  Some ([0; 1; 3], mkPathCost 35 3,
        [mkPathCost 20 2; mkPathCost 25 3; mkPathCost 30 3]).
Proof. by vm_compute. Qed.

(** * The heap *)

(** From the greatest cost down. *)
Fixpoint heap_ok (heap : list HeapItem) : Prop :=
  match heap with
  | [] => True
  | x :: heap => (∀ y, y ∈ heap → cost_le y.1 x.1) ∧ heap_ok heap
  end.

Lemma elem_of_heap_push x y heap : y ∈ heap_push x heap ↔ y = x ∨ y ∈ heap.
Proof.
  induction heap as [|z heap IH]; cbn; [set_solver|]. destruct (heap_lt x z); set_solver.
Qed.

Lemma heap_lt_le x y : heap_lt x y = true → cost_le x.1 y.1.
Proof.
  unfold heap_lt. intros [H|[H _]%andb_true_iff]%orb_true_iff.
  - apply PathCost_lt_true in H. by destruct (cost_le_total x.1 y.1).
  - apply negb_true_iff, PathCost_lt_false in H. done.
Qed.

Lemma heap_not_lt_le x y : heap_lt x y = false → cost_le y.1 x.1.
Proof. unfold heap_lt. intros [H _]%orb_false_iff. by apply PathCost_lt_false. Qed.

Lemma heap_push_ok x heap : heap_ok heap → heap_ok (heap_push x heap).
Proof.
  induction heap as [|y heap IH]; cbn; [set_solver|]. intros [Hy Hh].
  destruct (heap_lt x y) eqn:E; cbn.
  - split; [|by apply IH]. intros z [->|Hz]%elem_of_heap_push; [by apply heap_lt_le|by apply Hy].
  - apply heap_not_lt_le in E. split; [|by split]. intros z [->|Hz]%elem_of_cons; [done|].
    transitivity y.1; [by apply Hy|done].
Qed.

(** Still valid at an index of the path. *)
Definition valid_until (invalid_at : option VertexId) (i : VertexId) : Prop :=
  match invalid_at with Some k => i < k | None => True end.

Lemma heap_peek_valid_spec i heap :
  heap_ok heap →
  let '(heap', r) := heap_peek_valid i heap in
  heap_ok heap' ∧ (∀ x, x ∈ heap' → x ∈ heap) ∧
  (∀ x, x ∈ heap → x ∈ heap' ∨ ¬ valid_until x.2 i) ∧
  match r with
  | Some c => (∃ k, (c, k) ∈ heap ∧ valid_until k i) ∧ ∀ x, x ∈ heap' → cost_le x.1 c
  | None => heap' = []
  end.
Proof.
  induction heap as [|[c [k|]] heap IH]; cbn [heap_peek_valid]; intros Hok.
  - split_and!; try done. auto.
  - destruct Hok as [Hc Hok]. destruct (Nat.ltb_spec i k) as [Hik|Hik].
    + split_and!; [by split|done|auto|exists (Some k); set_solver|]. set_solver.
    + specialize (IH Hok). destruct (heap_peek_valid i heap) as [heap' r].
      destruct IH as (H1 & H2 & H3 & H4). split_and!; [done|set_solver| |].
      * intros x [->|Hx]%elem_of_cons; [right; cbn; lia|by apply H3].
      * destruct r; [|done]. destruct H4 as ((k' & ? & ?) & ?). split; [|done]. exists k'. set_solver.
  - destruct Hok as [Hc Hok]. split_and!; [by split|done|auto|exists None; set_solver|]. set_solver.
Qed.

(** * The work list *)

Lemma work_le_total x y : work_le x y = false → work_le y x = true.
Proof.
  unfold work_le. rewrite orb_false_iff, andb_false_iff, orb_true_iff, andb_true_iff.
  rewrite !Nat.ltb_ge, Nat.eqb_neq, Nat.leb_gt, Nat.ltb_lt, Nat.eqb_eq, Nat.leb_le. lia.
Qed.

Lemma work_le_spec x y :
  work_le x y = true ↔ x.1 < y.1 ∨ x.1 = y.1 ∧ work_order x.2 ≤ work_order y.2.
Proof.
  unfold work_le. by rewrite orb_true_iff, andb_true_iff, Nat.ltb_lt, Nat.eqb_eq, Nat.leb_le.
Qed.

Fixpoint work_sorted (l : list (VertexId * WorkItem)) : Prop :=
  match l with
  | [] => True
  | x :: l => (∀ y, y ∈ l → work_le x y = true) ∧ work_sorted l
  end.

Lemma work_insert_perm x l : work_insert x l ≡ₚ x :: l.
Proof.
  induction l as [|y l IH]; cbn; [done|]. destruct (work_le x y); [done|].
  rewrite IH. apply Permutation_swap.
Qed.

Lemma work_insert_sorted x l : work_sorted l → work_sorted (work_insert x l).
Proof.
  induction l as [|y l IH]; cbn; [set_solver|]. intros [Hy Hl].
  destruct (work_le x y) eqn:E; cbn.
  - split; [|by split]. intros z [->|Hz]%elem_of_cons; [done|]. specialize (Hy z Hz).
    rewrite work_le_spec in *. lia.
  - split; [|by apply IH]. intros z Hz. rewrite work_insert_perm in Hz.
    apply elem_of_cons in Hz as [->|Hz]; [by apply work_le_total|by apply Hy].
Qed.

Lemma sort_work_spec l : sort_work l ≡ₚ l ∧ work_sorted (sort_work l).
Proof.
  induction l as [|x l [IH1 IH2]]; cbn; [done|]. split; [|by apply work_insert_sorted].
  by rewrite work_insert_perm, IH1.
Qed.

Lemma work_sorted_split l1 x l2 :
  work_sorted (l1 ++ x :: l2) →
  (∀ y, y ∈ l1 → work_le y x = true) ∧ (∀ y, y ∈ l2 → work_le x y = true).
Proof.
  induction l1 as [|z l1 IH]; cbn; [set_solver|]. intros [Hz Hs]. destruct (IH Hs) as [H1 H2].
  split; [|done]. intros y [->|Hy]%elem_of_cons; [apply Hz; set_solver|by apply H1].
Qed.

(** * The pass over the work *)

Section Pass.
Context (vertices_cost base : list PathCost) (work : list (VertexId * WorkItem)).
Context (Hsorted : work_sorted work).
Context (Hnodes : ∀ a v k, (a, NodeValid v k) ∈ work → v < length vertices_cost).
Context (Hcomputes : ∀ i, (i, Compute) ∈ work → i < length base).
Context (Honce : ∀ l1 i l2, work = l1 ++ (i, Compute) :: l2 → (i, Compute) ∉ l1).

(** The vertices that compete at index [i]. *)
Definition competes (i : VertexId) (c : PathCost) : Prop :=
  ∃ a v k, (a, NodeValid v k) ∈ work ∧ a ≤ i ∧ valid_until k i ∧ vertices_cost !!! v = c.

Definition best (i : VertexId) (c : PathCost) : Prop :=
  (c = base !!! i ∨ competes i c) ∧ cost_le (base !!! i) c ∧ ∀ c', competes i c' → cost_le c' c.

Record pass_inv (don : list (VertexId * WorkItem)) (st : list HeapItem * list PathCost) : Prop := {
  pi_heap : heap_ok st.1;
  pi_from : ∀ x, x ∈ st.1 → ∃ a v, (a, NodeValid v x.2) ∈ don ∧ vertices_cost !!! v = x.1;
  pi_in : ∀ a v k, (a, NodeValid v k) ∈ don →
    (vertices_cost !!! v, k) ∈ st.1 ∨ ∃ j, (j, Compute) ∈ don ∧ ¬ valid_until k j;
  pi_length : length st.2 = length base;
  pi_done : ∀ i, (i, Compute) ∈ don → best i (st.2 !!! i);
  pi_todo : ∀ i, (i, Compute) ∉ don → st.2 !!! i = base !!! i;
}.

Lemma pass_node don a v k rest st :
  work = don ++ (a, NodeValid v k) :: rest → pass_inv don st →
  returns (work_step vertices_cost st (a, NodeValid v k)) (pass_inv (don ++ [(a, NodeValid v k)])).
Proof.
  intros E [Hh Hfrom Hin Hlen Hdone Htodo]. destruct st as [heap upd]. cbn [fst snd] in *.
  cbn [work_step]. rewrite (VertexData_index_Ok _ _ (vertices_cost !!! v)).
  2: { apply list_lookup_lookup_total_lt, (Hnodes a v k). rewrite E. set_solver. }
  cbn [mbind outcome_bind returns]. split; cbn [fst snd].
  - by apply heap_push_ok.
  - intros x [->|Hx]%elem_of_heap_push; [exists a, v; set_solver|].
    destruct (Hfrom x Hx) as (a' & v' & ? & ?). exists a', v'. set_solver.
  - intros a' v' k' [H|[= -> -> ->]%list_elem_of_singleton]%elem_of_app.
    + destruct (Hin _ _ _ H) as [?|(j & ? & ?)].
      * left. apply elem_of_heap_push. by right.
      * right. exists j. set_solver.
    + left. apply elem_of_heap_push. by left.
  - done.
  - intros i [?|H]%elem_of_app; [by apply Hdone|]. by apply list_elem_of_singleton in H.
  - intros i Hi. apply Htodo. set_solver.
Qed.

(** At a [Compute], the competitors are the valid entries of the heap. *)
Lemma competes_heap don i rest st c :
  work = don ++ (i, Compute) :: rest → pass_inv don st →
  competes i c ↔ ∃ k, (c, k) ∈ st.1 ∧ valid_until k i.
Proof.
  intros E [Hh Hfrom Hin _ _ _]. pose proof Hsorted as Hs. rewrite E in Hs.
  apply work_sorted_split in Hs as [Hbefore Hafter]. split.
  - intros (a & v & k & Hw & Ha & Hk & <-). rewrite E in Hw. exists k. split; [|done].
    assert ((a, NodeValid v k) ∈ don) as Hd.
    { apply elem_of_app in Hw as [?|[[=]|Hw]%elem_of_cons]; [done|]. exfalso.
      apply Hafter, work_le_spec in Hw. cbn in Hw. lia. }
    destruct (Hin _ _ _ Hd) as [?|(j & Hj & Hjk)]; [done|]. exfalso. apply Hjk.
    apply Hbefore, work_le_spec in Hj. cbn in Hj. destruct k as [k|]; cbn in *; [lia|done].
  - intros (k & Hx & Hk). destruct (Hfrom _ Hx) as (a & v & Hd & Hv). cbn in *.
    exists a, v, k. split_and!; [rewrite E; set_solver| |done|done].
    apply Hbefore, work_le_spec in Hd. cbn in Hd. lia.
Qed.

Lemma pass_compute don i rest st :
  work = don ++ (i, Compute) :: rest → pass_inv don st →
  returns (work_step vertices_cost st (i, Compute)) (pass_inv (don ++ [(i, Compute)])).
Proof.
  intros E Hinv. pose proof (λ c, competes_heap don i rest st c E Hinv) as Hcomp.
  destruct Hinv as [Hh Hfrom Hin Hlen Hdone Htodo]. destruct st as [heap upd]. cbn [fst snd] in *.
  assert (i < length base) as Hi by (apply Hcomputes; rewrite E; set_solver).
  assert ((i, Compute) ∉ don) as Hnew by (by eapply Honce).
  cbn [work_step]. pose proof (heap_peek_valid_spec i heap Hh) as Hpeek.
  destruct (heap_peek_valid i heap) as [heap' r].
  destruct Hpeek as (Hh' & Hsub & Hdrop & Hr).
  assert (∀ upd', length upd' = length base → best i (upd' !!! i) →
            (∀ j, j ≠ i → upd' !!! j = upd !!! j) → pass_inv (don ++ [(i, Compute)]) (heap', upd'))
    as Hclose.
  { intros upd' Hl Hb Hother. split; cbn [fst snd]; [done| | |done| |].
    - intros x Hx. destruct (Hfrom x (Hsub x Hx)) as (a & v & ? & ?). exists a, v. set_solver.
    - intros a v k [H|H]%elem_of_app; [|by apply list_elem_of_singleton in H].
      destruct (Hin _ _ _ H) as [Hx|(j & ? & ?)]; [|right; exists j; set_solver].
      destruct (Hdrop _ Hx) as [?|?]; [by left|]. right. exists i. set_solver.
    - intros j Hj. destruct (decide (j = i)) as [->|Hne]; [done|]. rewrite Hother by done.
      apply Hdone. set_solver.
    - intros j Hj. rewrite Hother by set_solver. apply Htodo. set_solver. }
  assert (upd !!! i = base !!! i) as Ebase by by apply Htodo.
  destruct r as [c|].
  - destruct Hr as ((k & Hck & Hk) & Hmax).
    assert (competes i c) as Hc by (apply Hcomp; eauto).
    assert (∀ c', competes i c' → cost_le c' c) as Hle.
    { intros c' (k' & Hx & Hk')%Hcomp. destruct (Hdrop _ Hx) as [Hx'|?]; [by apply Hmax in Hx'|done]. }
    rewrite (VertexData_index_Ok _ _ (upd !!! i)) by (apply list_lookup_lookup_total_lt; lia).
    cbn [mbind outcome_bind]. rewrite Ebase. destruct (PathCost_lt (base !!! i) c) eqn:Elt.
    + rewrite VertexData_set_Ok by lia. cbn [mbind outcome_bind returns]. apply Hclose.
      * by rewrite length_insert.
      * rewrite list_lookup_total_insert_eq by lia. split_and!; [by right| |done].
        apply PathCost_lt_true in Elt. by destruct (cost_le_total (base !!! i) c).
      * intros j Hj. by rewrite list_lookup_total_insert_ne.
    + cbn [mbind outcome_bind returns]. apply PathCost_lt_false in Elt. apply Hclose; [done| |done].
      rewrite Ebase. split_and!; [by left|done|]. intros c' Hc'. transitivity c; [by apply Hle|done].
  - subst heap'. cbn [returns]. apply Hclose; [done| |done]. rewrite Ebase. split_and!; [by left|done|].
    intros c' (k' & Hx & Hk')%Hcomp. destruct (Hdrop _ Hx) as [Hx'|?]; [by apply elem_of_nil in Hx'|done].
Qed.

Lemma pass_spec :
  returns (for_each (work_step vertices_cost) ([], base) work) (λ st,
    length st.2 = length base ∧ ∀ i, (i, Compute) ∈ work → best i (st.2 !!! i)).
Proof.
  eapply returns_mono.
  { apply (for_each_inv _ pass_inv).
    - split; cbn; [done|by intros ? ?%elem_of_nil|by intros ??? ?%elem_of_nil|done|by intros ? ?%elem_of_nil|done].
    - intros don [a [v k|]] rest st E Hst; [by eapply pass_node|by eapply pass_compute]. }
  intros st [_ _ _ Hl Hd _]. done.
Qed.
End Pass.

(** * Loops that fill a vector *)

Lemma fill_spec {A B} `{!Inhabited A} (step : list A → B → outcome (list A)) (key : B → nat)
    (f : nat → A) (n : nat) (init : list A) (items : list B) :
  length init = n →
  (∀ l x, length l = n → x ∈ items → key x < n ∧ step l x = Ok (<[key x := f (key x)]> l)) →
  returns (for_each step init items) (λ l, length l = n ∧ ∀ x, x ∈ items → l !!! key x = f (key x)).
Proof.
  intros Hinit Hstep.
  apply (for_each_inv _ (λ don l, length l = n ∧ ∀ x, x ∈ don → l !!! key x = f (key x))).
  { split; [done|]. by intros x ?%elem_of_nil. }
  intros don x rest l E [Hl Hd]. destruct (Hstep l x Hl) as [Hk ->]; [rewrite E; set_solver|].
  cbn [returns]. rewrite length_insert. split; [done|].
  intros y Hy. destruct (decide (key y = key x)) as [->|Hne].
  - by rewrite list_lookup_total_insert_eq by lia.
  - rewrite list_lookup_total_insert_ne by done. apply Hd.
    apply elem_of_app in Hy as [?|Hy%list_elem_of_singleton]; [done|congruence].
Qed.

Lemma collect_spec {B} (step : nat → outcome B) (f : nat → B) (vs : list nat) :
  (∀ v, v ∈ vs → step v = Ok (f v)) →
  for_each (λ acc v, w ← step v; Ok (acc ++ [w])) [] vs = Ok (f <$> vs).
Proof.
  intros H. enough (∀ acc, for_each (λ acc v, w ← step v; Ok (acc ++ [w])) acc vs = Ok (acc ++ (f <$> vs)))
    as E by exact (E []).
  induction vs as [|v vs IH]; intros acc; cbn [for_each fmap list_fmap]; [by rewrite app_nil_r|].
  rewrite H by set_solver. cbn [mbind outcome_bind]. rewrite IH by set_solver. by rewrite <- app_assoc.
Qed.

Lemma max_by_cost_spec l :
  match max_by_cost l with
  | Some m => m ∈ l ∧ ∀ x, x ∈ l → cost_le x.2 m.2
  | None => l = []
  end.
Proof.
  unfold max_by_cost. induction l as [|x l IH] using rev_ind; [done|].
  rewrite foldl_snoc. destruct (foldl _ None l) as [m|].
  - destruct IH as [Hm Hle]. destruct (PathCost_lt x.2 m.2) eqn:E.
    + split; [set_solver|]. intros y [Hy|Hy%list_elem_of_singleton]%elem_of_app; [by apply Hle|].
      subst y. apply PathCost_lt_true in E. by destruct (cost_le_total x.2 m.2).
    + apply PathCost_lt_false in E. split; [set_solver|].
      intros y [Hy|Hy%list_elem_of_singleton]%elem_of_app; [|by subst].
      transitivity m.2; [by apply Hle|done].
  - subst l. split; [set_solver|]. intros y Hy%list_elem_of_singleton. by subst.
Qed.

(** * Wrap-around *)

Lemma wrap_sub k a b w r :
  (a + b = r + w)%N → (r < 2 ^ k)%N → (w < 2 ^ k)%N →
  ((((a + b) mod 2 ^ k) + (2 ^ k - w mod 2 ^ k)) mod 2 ^ k = r)%N.
Proof.
  intros E Hr Hw. rewrite (N.mod_small w) by done. rewrite E.
  rewrite N.Div0.add_mod_idemp_l. replace (r + w + (2 ^ k - w))%N with (r + 1 * 2 ^ k)%N by lia.
  rewrite N.Div0.mod_add. by apply N.mod_small.
Qed.

Lemma u64_sub_exact a w : (a < 2 ^ 64)%N → (w <= a)%N → u64_sub a w = (a - w)%N.
Proof.
  intros Ha Hw. unfold u64_sub. rewrite (N.mod_small w) by lia.
  replace (a + (2 ^ 64 - w))%N with ((a - w) + 1 * 2 ^ 64)%N by lia.
  rewrite N.Div0.mod_add. apply N.mod_small. lia.
Qed.

Lemma cost_plus_cancel a b m : cost_le (cost_plus a m) (cost_plus b m) → cost_le a b.
Proof. unfold cost_le, cost_plus; cbn. lia. Qed.

Lemma no_overflow_rev adj weights : adj_ok adj → no_overflow adj weights → no_overflow (rev_adj adj) weights.
Proof.
  intros Hok Hov l Hl. rewrite <- (reverse_involutive l) in Hl.
  apply (proj1 (is_walk_reverse adj _ Hok)), Hov in Hl.
  by rewrite (walk_cost_perm _ _ _ (reverse_Permutation l)) in Hl.
Qed.

Lemma walk_lookup_reaches adj l i j x y :
  is_walk adj l → l !! i = Some x → l !! j = Some y → i ≤ j → rtc (edge adj) x y.
Proof.
  revert i j. induction l as [|u l IH]; intros i j Hw Hi Hj Hij; [done|].
  destruct i as [|i].
  - cbn in Hi. simplify_eq. eapply walk_reaches; [done|]. by eapply list_elem_of_lookup_2.
  - destruct j as [|j]; [lia|]. eapply (IH i j); [by eapply is_walk_tail|done|done|lia].
Qed.

(** * The longest walk through a vertex *)

Section Through.
Context (adj : list (list VertexId)) (weights : VertexData N).
Context (Hok : adj_ok adj) (Ha : acyclic adj) (Hw : length weights = length adj).
Context (Hov : no_overflow adj weights).
Let n := length adj.

(** [c] is the cost of a longest walk through [v]. *)
Definition longest_through (v : VertexId) (c : PathCost) : Prop :=
  (∃ u l, u < n ∧ is_walk adj (u :: l) ∧ v ∈ u :: l ∧ walk_cost weights (u :: l) = c) ∧
  ∀ l, is_walk adj l → v ∈ l → cost_le (walk_cost weights l) c.

Lemma through_step cost_from_source cost_to_sink vertices_cost v :
  v < n → length cost_from_source = n → length cost_to_sink = n → length vertices_cost = n →
  longest adj weights v (cost_from_source !!! v) →
  longest (rev_adj adj) weights v (cost_to_sink !!! v) →
  ∃ c, vertex_cost_step cost_from_source cost_to_sink weights vertices_cost v =
         Ok (<[v := c]> vertices_cost) ∧ longest_through v c.
Proof.
  intros Hv Hl1 Hl2 Hl3 [(l1 & Hw1 & E1) Hmax1] [(l2 & Hw2 & E2) Hmax2].
  rewrite <- (reverse_involutive (v :: l2)) in Hw2. apply (proj1 (is_walk_reverse adj _ Hok)) in Hw2.
  rewrite reverse_cons in Hw2.
  set (L := reverse l2 ++ v :: l1).
  assert (is_walk adj L) as HL by (by apply is_walk_app).
  assert (cost_plus (walk_cost weights L) (mkPathCost (weights !!! v) 1) =
          cost_plus (cost_from_source !!! v) (cost_to_sink !!! v)) as Esum.
  { unfold L. rewrite walk_cost_app, <- E1, <- E2, (walk_cost_perm _ (reverse l2) l2)
      by apply reverse_Permutation. rewrite (walk_cost_cons _ v l2).
    rewrite (cost_plus_comm (walk_cost weights l2)), <- cost_plus_assoc. f_equal. }
  assert (∃ u l, L = u :: l ∧ u < n) as (u0 & l0 & EL & Hu0).
  { unfold L. destruct (reverse l2) as [|x l'] eqn:E; [by exists v, l1|].
    exists x, (l' ++ v :: l1). split; [done|].
    destruct l' as [|y l']; cbn in Hw2; destruct Hw2 as [He _]; by eapply edge_lt in He as [? _]. }
  assert (longest_through v (walk_cost weights L)) as Hthrough.
  { split.
    - exists u0, l0. rewrite <- EL. split_and!; [done|done|unfold L; set_solver|done].
    - intros l Hl (l3 & l4 & ->)%list_elem_of_split.
      apply cost_plus_cancel with (mkPathCost (weights !!! v) 1). rewrite Esum.
      rewrite walk_cost_app, (cost_plus_comm (walk_cost weights l3)), <- cost_plus_assoc.
      apply is_walk_app in Hl as [Hw3 Hw4]. apply cost_plus_mono; [by apply Hmax1|].
      rewrite <- walk_cost_cons, (walk_cost_perm _ (v :: l3) (v :: reverse l3))
        by (by rewrite reverse_Permutation).
      apply Hmax2. rewrite <- (reverse_involutive (v :: reverse l3)).
      apply (proj2 (is_walk_reverse adj _ Hok)). by rewrite reverse_cons, reverse_involutive. }
  exists (walk_cost weights L). split; [|done].
  unfold vertex_cost_step.
  rewrite (VertexData_index_Ok cost_from_source v (cost_from_source !!! v))
    by (apply list_lookup_lookup_total_lt; lia). cbn [mbind outcome_bind].
  rewrite (VertexData_index_Ok cost_to_sink v (cost_to_sink !!! v))
    by (apply list_lookup_lookup_total_lt; lia). cbn [mbind outcome_bind].
  rewrite (VertexData_index_Ok weights v (weights !!! v))
    by (apply list_lookup_lookup_total_lt; rewrite Hw; exact Hv). cbn [mbind outcome_bind].
  rewrite VertexData_set_Ok by lia. do 2 f_equal.
  pose proof (Hov L HL) as Hr. pose proof (Hov [v] I) as Hwv. cbn -[N.pow] in Hwv.
  assert (length L ≤ n) as Hlen by (rewrite EL in *; by apply walk_length).
  pose proof (ok_vertices _ Hok : (N.of_nat n <= 2 ^ 32 - 1)%N).
  pose proof (f_equal pc_runtime Esum) as Er. pose proof (f_equal pc_len Esum) as El.
  cbn [cost_plus pc_runtime pc_len] in Er, El. pose proof (walk_cost_len weights L) as Elen.
  unfold PathCost_add, u64_sub, u64_add, u32_sub, u32_add. cbn [pc_runtime pc_len].
  destruct (walk_cost weights L) as [r len]. cbn [pc_runtime pc_len] in *. f_equal.
  - apply wrap_sub; lia.
  - apply wrap_sub; lia.
Qed.
End Through.
