(* ===== verification/CritCorrect.v ===== *)
(** Correctness of [compute_critical_path_potentials]: the critical path is a longest path of the
    graph, and the cost given for each of its vertices is the cost of a longest path of the graph
    in which that vertex weighs nothing.

    The heart is an exchange argument.  A vertex competes at a position of the critical path when
    it is incomparable with the vertex there.  A path through a competitor avoids that vertex, so
    its cost is unchanged; a path none of whose vertices compete consists of vertices comparable
    with it, can be rerouted through it, and so costs no more than the critical path. *)
From S2P Require Import Prelude CritGraph CritTopo CritPaths CritMarks CritPotential.
Local Open Scope dice_scope.

(** [c] is the cost of a longest path of the graph. *)
Definition critical_cost (adj : list (list VertexId)) (weights : list N) (c : PathCost) : Prop :=
  (∃ u l, u < length adj ∧ is_walk adj (u :: l) ∧ walk_cost weights (u :: l) = c) ∧
  ∀ u l, u < length adj → is_walk adj (u :: l) → cost_le (walk_cost weights (u :: l)) c.

Section Correct.
Context (adj : list (list VertexId)) (weights : VertexData N).
Context (Hok : adj_ok adj) (Ha : acyclic adj) (Hw : length weights = length adj).
Context (Hov : no_overflow adj weights) (Hfit : (Z.of_nat (length adj) <= 2 ^ 31)%Z).
Let n := length adj.

(** * The critical path *)

Section Path.
Context (path : list VertexId).
Context (Hwalk : is_walk adj (reverse path)) (Hlt : Forall (λ v, v < n) path).

Lemma path_nodup : NoDup path.
Proof.
  rewrite <- (reverse_Permutation path). by eapply walk_nodup.
Qed.

Lemma path_length : length path ≤ n.
Proof.
  rewrite <- (length_seq n 0). apply submseteq_length, NoDup_submseteq; [apply path_nodup|].
  intros v Hv. eapply Forall_forall in Hlt; [|done]. apply elem_of_seq. lia.
Qed.

(** Later vertices of the path reach the earlier ones. *)
Lemma path_reaches i j c d :
  path !! i = Some c → path !! j = Some d → i ≤ j → rtc (edge adj) d c.
Proof.
  intros Hi Hj Hij. pose proof (lookup_lt_Some _ _ _ Hi). pose proof (lookup_lt_Some _ _ _ Hj).
  eapply (walk_lookup_reaches adj (reverse path) (length path - S j) (length path - S i)).
  - done.
  - rewrite reverse_lookup by lia. replace (_ - S _) with j by lia. done.
  - rewrite reverse_lookup by lia. replace (_ - S _) with i by lia. done.
  - lia.
Qed.

Lemma enumerate_lookup i : enumerate path !! i = (λ v, (i, v)) <$> path !! i.
Proof. apply list_lookup_imap. Qed.

Lemma elem_of_enumerate i c : (i, c) ∈ enumerate path ↔ path !! i = Some c.
Proof.
  rewrite list_elem_of_lookup. setoid_rewrite enumerate_lookup. split.
  - intros (j & Hj). destruct (path !! j) as [v|] eqn:E; [|done]. cbn in Hj. by simplify_eq.
  - intros H. exists i. by rewrite H.
Qed.

(** The positions around an entry of the enumeration. *)
Lemma enumerate_split pre k c post :
  enumerate path = pre ++ (k, c) :: post →
  path !! k = Some c ∧ (∀ x, x ∈ pre → x.1 < k) ∧ (∀ x, x ∈ post → k < x.1).
Proof.
  intros E. assert (∀ a x, (pre ++ (k, c) :: post) !! a = Some x → x.1 = a ∧ path !! a = Some x.2) as H.
  { intros a x. rewrite <- E, enumerate_lookup. destruct (path !! a); cbn; [|done]. by intros [= <-]. }
  destruct (H (length pre) (k, c)) as [Ek Hk]; [by rewrite lookup_app_r, Nat.sub_diag|]. cbn in *.
  subst k. split_and!; [done| |].
  - intros x [a Ha']%list_elem_of_lookup. pose proof (lookup_lt_Some _ _ _ Ha').
    destruct (H a x) as [-> _]; [by rewrite lookup_app_l|done].
  - intros x [a Ha']%list_elem_of_lookup.
    destruct (H (S (length pre + a)) x) as [-> _]; [|lia].
    rewrite lookup_app_r by lia. by replace (_ - length pre) with (S a) by lia.
Qed.

(** The marks decide comparability with the vertices of the path. *)
Lemma valid_at_spec u o i c :
  first_reaching (rev_adj adj) (reverse (enumerate path)) u o → path !! i = Some c →
  if decide (match o with Some p => S p | None => 0 end ≤ i)
  then ¬ rtc (edge adj) u c else rtc (edge adj) u c.
Proof.
  intros Ho Hi. destruct o as [p|].
  - destruct Ho as (pre & d & post & E & Hr & Hpre). apply (proj1 (rtc_rev adj _ _ Hok)) in Hr.
    apply (f_equal reverse) in E.
    rewrite reverse_involutive, reverse_app, reverse_cons, <- app_assoc in E. cbn in E.
    destruct (enumerate_split _ _ _ _ E) as (Hp & Hbefore & _). case_decide as Hpi.
    + intros Hu. apply (Hpre (i, c)); [|by apply (proj2 (rtc_rev adj _ _ Hok))].
      assert ((i, c) ∈ enumerate path) as Hin by by apply elem_of_enumerate.
      rewrite E in Hin. apply elem_of_app in Hin as [Hin|Hin]; [apply Hbefore in Hin; cbn in Hin; lia|].
      apply elem_of_cons in Hin as [[= -> ->]|Hin]; [lia|]. by rewrite elem_of_reverse in Hin.
    + transitivity d; [done|]. eapply path_reaches; [done|done|lia].
  - rewrite decide_True by lia. intros Hu. apply (Ho (i, c)); [|by apply (proj2 (rtc_rev adj _ _ Hok))].
    by apply elem_of_reverse, elem_of_enumerate.
Qed.

Lemma valid_until_spec u o i c :
  first_reaching adj (enumerate path) u o → path !! i = Some c →
  (valid_until o i ∧ ¬ rtc (edge adj) c u) ∨ (¬ valid_until o i ∧ rtc (edge adj) c u).
Proof.
  intros Ho Hi. destruct o as [k|]; cbn.
  - destruct Ho as (pre & d & post & E & Hr & Hpre).
    destruct (enumerate_split _ _ _ _ E) as (Hk & _ & Hafter).
    destruct (decide (i < k)) as [Hik|Hik]; [left|right]; (split; [done|]).
    + intros Hu. apply (Hpre (i, c)); [|done].
      assert ((i, c) ∈ enumerate path) as Hin by by apply elem_of_enumerate.
      rewrite E in Hin. apply elem_of_app in Hin as [Hin|[[= -> ->]|Hin]%elem_of_cons]; [done|lia|].
      apply Hafter in Hin. cbn in Hin. lia.
    + transitivity d; [|done]. eapply path_reaches; [done|done|lia].
  - left. split; [done|]. intros Hu. apply (Ho (i, c)); [|done]. by apply elem_of_enumerate.
Qed.

(** * The exchange argument *)

Context (crit : PathCost).
Context (Hcost : walk_cost weights path = crit) (Hne : path ≠ []).
Context (Hmax : ∀ u l, u < n → is_walk adj (u :: l) → cost_le (walk_cost weights (u :: l)) crit).

Definition incomparable (v c : VertexId) : Prop := ¬ rtc (edge adj) v c ∧ ¬ rtc (edge adj) c v.

(** The cost of the path without the runtime of [c]. *)
Definition dropped (c : VertexId) : PathCost :=
  mkPathCost (pc_runtime crit - weights !!! c) (pc_len crit).

Lemma crit_runtime c : c ∈ path → (weights !!! c <= pc_runtime crit)%N.
Proof.
  intros Hc. pose proof (walk_cost_drop_in weights c path) as E.
  rewrite <- Hcost, E; [cbn; lia| |apply path_nodup|done].
  eapply Forall_forall in Hlt; [|done]. by rewrite Hw.
Qed.

Lemma dropped_cost c : c ∈ path → walk_cost (<[c := 0%N]> weights) path = dropped c.
Proof.
  intros Hc. pose proof (walk_cost_drop_in weights c path) as E.
  assert (c < length weights) as Hcl by (eapply Forall_forall in Hlt; [|done]; by rewrite Hw).
  specialize (E Hcl path_nodup Hc). unfold dropped. rewrite <- Hcost, E.
  destruct (walk_cost (<[c:=0%N]> weights) path). cbn. f_equal; lia.
Qed.

Lemma reverse_path_cons : ∃ u l, reverse path = u :: l ∧ u < n.
Proof.
  destruct (reverse path) as [|u l] eqn:E.
  - exfalso. apply Hne. by rewrite <- (reverse_involutive path), E.
  - exists u, l. split; [done|]. rewrite <- reverse_Permutation, E in Hlt. by inversion Hlt.
Qed.

(** A path without competitors costs no more than the critical path. *)
Lemma no_competitor_le c u l :
  c ∈ path → u < n → is_walk adj (u :: l) →
  (∀ v, v ∈ u :: l → rtc (edge adj) v c ∨ rtc (edge adj) c v) →
  cost_le (walk_cost (<[c := 0%N]> weights) (u :: l)) (dropped c).
Proof.
  intros Hc Hu Hl Hcmp. pose proof (crit_runtime c Hc) as Hle.
  assert (c < n) as Hcn by (eapply Forall_forall in Hlt; [|done]; done).
  pose proof (walk_nodup adj _ Ha Hl) as Hnd.
  destruct (decide (c ∈ u :: l)) as [Hin|Hin].
  - pose proof (Hmax u l Hu Hl) as Hle2.
    rewrite (walk_cost_drop_in weights c (u :: l)) in Hle2 by (by rewrite ?Hw).
    destruct (walk_cost (<[c:=0%N]> weights) (u :: l)). unfold cost_le, dropped in *. cbn in *. lia.
  - rewrite walk_cost_drop_notin by done.
    destruct (walk_through adj c u l Hl Hcmp) as (x & k & Hk & Hx & Hsub).
    assert (x < n) as Hxn by (destruct Hx as [->| ->]; done).
    pose proof (Hmax x k Hxn Hk) as Hle2.
    assert (cost_le (walk_cost weights (c :: u :: l)) (walk_cost weights (x :: k))) as Hle3.
    { apply walk_cost_submseteq, NoDup_submseteq; [by apply NoDup_cons|].
      intros v [->|Hv]%elem_of_cons; apply Hsub; auto. }
    pose proof (transitivity Hle3 Hle2) as Hle4. rewrite (walk_cost_cons _ c) in Hle4.
    destruct (walk_cost weights (u :: l)). unfold cost_le, dropped, cost_plus in *. cbn in *. lia.
Qed.

(** What the pass over the work computes at [c] is the cost of a longest path when [c] weighs
    nothing. *)
Lemma replacement_correct c r :
  c ∈ path →
  (∀ v, v < n → (rtc (edge adj) v c ∨ rtc (edge adj) c v) ∨ incomparable v c) →
  (r = dropped c ∨ ∃ v, v < n ∧ incomparable v c ∧ longest_through adj weights v r) →
  cost_le (dropped c) r →
  (∀ v, v < n → incomparable v c → ∃ x, longest_through adj weights v x ∧ cost_le x r) →
  critical_cost adj (<[c := 0%N]> weights) r.
Proof.
  intros Hc Hdec Hr Hdrop Hcomp. split.
  - destruct Hr as [->|(v & Hv & [Hvc Hcv] & (u & l & Hu & Hl & Hin & <-) & _)].
    + destruct reverse_path_cons as (u & l & E & Hu). exists u, l. rewrite <- E. split_and!; [done..|].
      rewrite (walk_cost_perm _ _ path) by apply reverse_Permutation. by apply dropped_cost.
    + exists u, l. split_and!; [done..|]. apply walk_cost_drop_notin. intros Hcl.
      apply list_elem_of_lookup in Hin as [i Hi]. apply list_elem_of_lookup in Hcl as [j Hj].
      destruct (decide (i ≤ j)).
      * apply Hvc. eapply walk_lookup_reaches; [exact Hl|done|done|done].
      * apply Hcv. eapply walk_lookup_reaches; [exact Hl|done|done|lia].
  - intros u l Hu Hl.
    assert ((∃ v, v ∈ u :: l ∧ incomparable v c) ∨
            ∀ v, v ∈ u :: l → rtc (edge adj) v c ∨ rtc (edge adj) c v) as [Hv|Hv].
    { pose proof (walk_lt adj u l Hok Hu Hl) as Hf. clear Hl.
      induction Hf as [|v k Hv Hf IH]; [right; by intros ? ?%elem_of_nil|].
      destruct (Hdec v Hv) as [Hn|Hi]; [|left; exists v; set_solver].
      destruct IH as [(v' & ? & ?)|IH]; [left; exists v'; set_solver|].
      right. intros v' [->|Hv']%elem_of_cons; [done|by apply IH]. }
    + destruct Hv as (v & Hin & Hi). pose proof (walk_lt adj u l Hok Hu Hl) as Hf.
      assert (v < n) as Hvn by (eapply Forall_forall in Hf; done).
      destruct (Hcomp v Hvn Hi) as (x & [_ Hx] & Hxr). transitivity x; [|done].
      rewrite walk_cost_drop_notin; [by apply Hx|]. intros Hcl. destruct Hi as [Hvc Hcv].
      apply list_elem_of_lookup in Hin as [i Hi']. apply list_elem_of_lookup in Hcl as [j Hj].
      destruct (decide (i ≤ j)).
      * apply Hvc. eapply walk_lookup_reaches; [exact Hl|done|done|done].
      * apply Hcv. eapply walk_lookup_reaches; [exact Hl|done|done|lia].
    + transitivity (dropped c); [|done]. by apply no_competitor_le.
Qed.
End Path.

(** * The code after the two searches *)

Section Pass.
Context (cost_from_source cost_to_sink : VertexData PathCost) (pred : VertexData OptionalVertexId).
Context (Hl1 : length cost_from_source = n) (Hl2 : length cost_to_sink = n) (Hl3 : length pred = n).
Context (Hfrom : ∀ v, v < n → vertex_done adj weights cost_from_source pred v).
Context (Hto : ∀ v, v < n → longest (rev_adj adj) weights v (cost_to_sink !!! v)).
Context (sink : VertexId) (crit : PathCost).
Context (Hsink : sink < n) (Hcrit : crit = cost_from_source !!! sink).
Context (Hmost : ∀ v, v < n → cost_le (cost_from_source !!! v) crit).
Let accessor := mkCriticalPathAccessor pred cost_from_source.

Lemma crit_max u l : u < n → is_walk adj (u :: l) → cost_le (walk_cost weights (u :: l)) crit.
Proof.
  intros Hu Hl. destruct (Hfrom u Hu) as [[_ H] _]. transitivity (cost_from_source !!! u); auto.
Qed.

(** The costs of the longest paths through the vertices. *)
Lemma vertices_cost_spec :
  returns (for_each (vertex_cost_step cost_from_source cost_to_sink weights)
             (replicate n PathCost_default) (seq 0 n)) (λ vc,
    length vc = n ∧ ∀ v, v < n → longest_through adj weights v (vc !!! v)).
Proof.
  eapply returns_mono.
  { apply (for_each_inv _ (λ don vc,
      length vc = n ∧ ∀ v, v ∈ don → longest_through adj weights v (vc !!! v))).
    { rewrite length_replicate. split; [done|]. by intros v ?%elem_of_nil. }
    intros don v rest vc E [Hl Hd].
    assert (v < n) as Hv.
    { assert (v ∈ seq 0 n) as Hin by (rewrite E; set_solver). apply elem_of_seq in Hin. lia. }
    destruct (through_step adj weights Hok Ha Hw Hov cost_from_source cost_to_sink vc v)
      as (c & -> & Hc); [done..|by apply Hfrom|by apply Hto|].
    cbn [returns]. rewrite length_insert. split; [done|]. intros u Hu.
    destruct (decide (u = v)) as [->|Hne]; [by rewrite list_lookup_total_insert_eq by lia|].
    rewrite list_lookup_total_insert_ne by done. apply Hd.
    apply elem_of_app in Hu as [?|Hu%list_elem_of_singleton]; done. }
  intros vc [Hl Hd]. split; [done|]. intros v Hv. apply Hd, elem_of_seq. lia.
Qed.

(** The work list, as a function of the marks. *)
Definition node_item (m1 m2 : VertexData OptionalVertexId) (v : VertexId) : VertexId * WorkItem :=
  (match mark_of m1 v with Some p => S p | None => 0 end, NodeValid v (mark_of m2 v)).

Lemma node_work_eq m1 m2 v :
  length m1 = n → length m2 = n → v < n → node_work m1 m2 v = Ok (node_item m1 m2 v).
Proof.
  intros H1 H2 Hv. unfold node_work.
  rewrite (VertexData_index_Ok m1 v (m1 !!! v)) by (apply list_lookup_lookup_total_lt; lia).
  cbn [mbind outcome_bind].
  rewrite (VertexData_index_Ok m2 v (m2 !!! v)) by (apply list_lookup_lookup_total_lt; lia). done.
Qed.

Definition work_list (m1 m2 : VertexData OptionalVertexId) (len : nat) : list (VertexId * WorkItem) :=
  sort_work (((λ i, (i, Compute)) <$> seq 0 len) ++ (node_item m1 m2 <$> seq 0 n)).

Lemma elem_of_work m1 m2 len x :
  x ∈ work_list m1 m2 len ↔
  (∃ i, i < len ∧ x = (i, Compute)) ∨ (∃ v, v < n ∧ x = node_item m1 m2 v).
Proof.
  unfold work_list. rewrite (proj1 (sort_work_spec _)), elem_of_app, !list_elem_of_fmap.
  setoid_rewrite elem_of_seq. split.
  - intros [(i & -> & ?)|(v & -> & ?)]; [left; exists i|right; exists v]; (split; [lia|done]).
  - intros [(i & ? & ->)|(v & ? & ->)]; [left; exists i|right; exists v]; (split; [done|lia]).
Qed.

Lemma work_once m1 m2 len l1 x l2 : work_list m1 m2 len = l1 ++ x :: l2 → x ∉ l1.
Proof.
  intros E Hx. assert (NoDup (work_list m1 m2 len)) as Hnd.
  { unfold work_list. rewrite (proj1 (sort_work_spec _)). apply NoDup_app. split_and!.
    - apply NoDup_fmap_2; [by intros ?? [=]|apply NoDup_seq].
    - intros y (i & -> & _)%list_elem_of_fmap (v & [=] & _)%list_elem_of_fmap.
    - apply NoDup_fmap_2; [by intros ?? [=]|apply NoDup_seq]. }
  rewrite E in Hnd. apply NoDup_app in Hnd as (_ & Hd & _). apply (Hd x Hx). set_solver.
Qed.

(** The competitors at position [i] are the vertices incomparable with the vertex there. *)
Lemma competes_spec path m1 m2 vc i c r :
  is_walk adj (reverse path) →
  (∀ v, v < n → first_reaching (rev_adj adj) (reverse (enumerate path)) v (mark_of m1 v)) →
  (∀ v, v < n → first_reaching adj (enumerate path) v (mark_of m2 v)) →
  path !! i = Some c →
  competes vc (work_list m1 m2 (length path)) i r ↔
  ∃ v, v < n ∧ incomparable v c ∧ vc !!! v = r.
Proof.
  intros Hwalk H1 H2 Hi. unfold competes. setoid_rewrite elem_of_work. split.
  - intros (a & v & k & [(? & _ & [=])|(v' & Hv & [= -> <- ->])] & Ha' & Hk & <-).
    exists v. split_and!; [done| |done].
    pose proof (valid_at_spec path Hwalk v _ i c (H1 v Hv) Hi) as H. rewrite decide_True in H by done.
    destruct (valid_until_spec path Hwalk v _ i c (H2 v Hv) Hi) as [[_ ?]|[? _]]; done.
  - intros (v & Hv & [Hvc Hcv] & <-). eexists _, v, _. split_and!.
    + right. exists v. split; [done|reflexivity].
    + pose proof (valid_at_spec path Hwalk v _ i c (H1 v Hv) Hi) as H.
      destruct (decide (match mark_of m1 v with Some p => S p | None => 0 end ≤ i)); done.
    + destruct (valid_until_spec path Hwalk v _ i c (H2 v Hv) Hi) as [[? _]|[_ ?]]; done.
    + done.
Qed.

Definition potentials_ok (p : Potentials) : Prop :=
  pot_critical_path_cost p = crit ∧ pot_accessor p = accessor ∧
  is_walk adj (reverse (pot_critical_path p)) ∧
  walk_cost weights (pot_critical_path p) = crit ∧
  Forall (λ v, v < n) (pot_critical_path p) ∧
  length (pot_updated_critical_path_cost p) = length (pot_critical_path p) ∧
  ∀ i c, pot_critical_path p !! i = Some c →
    critical_cost adj (<[c := 0%N]> weights) (pot_updated_critical_path_cost p !!! i).

Lemma comparable_dec path m1 m2 i c v :
  is_walk adj (reverse path) →
  (∀ v, v < n → first_reaching (rev_adj adj) (reverse (enumerate path)) v (mark_of m1 v)) →
  (∀ v, v < n → first_reaching adj (enumerate path) v (mark_of m2 v)) →
  path !! i = Some c → v < n →
  (rtc (edge adj) v c ∨ rtc (edge adj) c v) ∨ incomparable v c.
Proof.
  intros Hwalk H1 H2 Hi Hv.
  pose proof (valid_at_spec path Hwalk v _ i c (H1 v Hv) Hi) as H.
  destruct (valid_until_spec path Hwalk v _ i c (H2 v Hv) Hi) as [[_ ?]|[_ ?]]; [|auto].
  case_decide; [right; done|auto].
Qed.

Lemma potentials_of_path_spec :
  returns (potentials_of_path (graph_of adj) (graph_of (rev_adj adj)) weights cost_to_sink accessor
             sink crit) potentials_ok.
Proof.
  unfold potentials_of_path, Graph_allocate_vertex_data. cbn [graph_of g_vertices].
  rewrite layout_length, iter_vertices_of by apply Hok.
  eapply returns_bind.
  { rewrite Hcrit. by apply (path_for_vertex_spec adj weights Hok Hw cost_from_source pred Hl1 Hl3 Hfrom). }
  intros path (Hwalk & Hhead & Hcost). rewrite <- Hcrit in Hcost.
  assert (Forall (λ v, v < n) path) as Hlt.
  { rewrite <- reverse_Permutation. destruct (reverse path) as [|u l] eqn:E; [constructor|].
    cbn in Hhead. simplify_eq. by apply walk_lt. }
  assert (path ≠ []) as Hne by (by intros ->).
  pose proof (path_length path Hwalk Hlt) as Hplen.
  assert (Forall (λ c, (Z.of_nat c.1 < 2 ^ 31)%Z ∧ c.2 < n) (enumerate path)) as Hcs.
  { apply Forall_forall. intros [i c] Hic%elem_of_enumerate. cbn.
    pose proof (lookup_lt_Some _ _ _ Hic). split; [unfold n in *; lia|].
    by eapply Forall_lookup_1 in Hlt. }
  eapply returns_bind.
  { pose proof (visit_all_spec (rev_adj adj) (rev_adj_ok adj Hok) (reverse (enumerate path))) as H.
    rewrite rev_adj_length in H. apply H. by rewrite reverse_Permutation. }
  intros m1 [Hm1 Hf1].
  eapply returns_bind; [by apply visit_all_spec|]. intros m2 [Hm2 Hf2].
  cbn [mbind outcome_bind]. eapply returns_bind; [apply vertices_cost_spec|]. intros vc [Hvc Hthr].
  rewrite (collect_spec _ (node_item m1 m2))
    by (intros v Hv%elem_of_seq; apply node_work_eq; [done..|unfold n; lia]).
  cbn [mbind outcome_bind]. fold n. fold (work_list m1 m2 (length path)).
  eapply returns_bind.
  { apply (fill_spec _ fst (λ i, dropped crit (path !!! i)) (length path)); [by rewrite length_replicate|].
    intros l [i c] Hl Hic%elem_of_enumerate. cbn [fst].
    pose proof (lookup_lt_Some _ _ _ Hic) as Hi. split; [done|].
    unfold drop_step. cbn [fst snd].
    assert (c < n) as Hc by (by eapply Forall_lookup_1 in Hlt).
    rewrite (VertexData_index_Ok weights c (weights !!! c))
      by (apply list_lookup_lookup_total_lt; rewrite Hw; exact Hc).
    cbn [mbind outcome_bind]. rewrite VertexData_set_Ok by lia.
    rewrite (list_lookup_total_correct _ _ _ Hic). unfold dropped. rewrite u64_sub_exact; [done| |].
    - rewrite <- Hcost, <- (walk_cost_perm _ _ _ (reverse_Permutation path)). by apply Hov.
    - apply (crit_runtime path Hwalk Hlt crit Hcost). by eapply list_elem_of_lookup_2. }
  intros base [Hbase Hdrop]. eapply returns_bind.
  { apply (pass_spec vc base (work_list m1 m2 (length path))).
    - apply sort_work_spec.
    - intros a v k [(i & _ & [=])|(v' & Hv & [= _ <- _])]%elem_of_work. by rewrite Hvc.
    - intros i [(i' & Hi & [= ->])|(v & _ & [=])]%elem_of_work. by rewrite Hbase.
    - intros l1 i l2. apply work_once. }
  intros [heap upd] [Hupd Hbest]. cbn [fst snd] in *. cbn [returns].
  split_and!; cbn [pot_critical_path_cost pot_accessor pot_critical_path pot_updated_critical_path_cost];
    [done..|congruence|].
  intros i c Hi. pose proof (lookup_lt_Some _ _ _ Hi) as Hlen.
  assert (c ∈ path) as Hc by (by eapply list_elem_of_lookup_2).
  destruct (Hbest i) as (Hr & Hle & Hcomp); [apply elem_of_work; left; eauto|].
  specialize (Hdrop (i, c)). cbn [fst] in Hdrop. rewrite Hdrop in * by (by apply elem_of_enumerate).
  rewrite (list_lookup_total_correct _ _ _ Hi) in *.
  pose proof (λ r, competes_spec path m1 m2 vc i c r Hwalk Hf1 Hf2 Hi) as Hspec.
  apply (replacement_correct path Hwalk Hlt crit Hcost Hne crit_max c); [done| | |done|].
  - intros v Hv. by eapply comparable_dec.
  - destruct Hr as [->|Hr]; [by left|]. right. apply Hspec in Hr as (v & Hv & Hi' & <-).
    exists v. auto.
  - intros v Hv Hi'. exists (vc !!! v). split; [by apply Hthr|]. apply Hcomp, Hspec. eauto.
Qed.
End Pass.
End Correct.

(** The vertex at which the critical path ends. *)
Lemma critical_path_end (costs : list PathCost) :
  match max_by_cost (imap (λ i c, (i, c)) costs) with
  | Some (v, c) => v < length costs ∧ c = costs !!! v ∧
                   ∀ u, u < length costs → cost_le (costs !!! u) c
  | None => costs = []
  end.
Proof.
  pose proof (max_by_cost_spec (imap (λ i c, (i, c)) costs)) as Hmax.
  destruct (max_by_cost _) as [[v c]|].
  - destruct Hmax as [[i Hi]%list_elem_of_lookup Hmax]. rewrite list_lookup_imap in Hi.
    destruct (costs !! i) as [c'|] eqn:E; [|done]. cbn in Hi. injection Hi as -> ->.
    split_and!; [by eapply lookup_lt_Some|symmetry; by apply list_lookup_total_correct|].
    intros u Hu. apply (Hmax (u, costs !!! u)), list_elem_of_lookup. exists u.
    rewrite list_lookup_imap, (list_lookup_lookup_total_lt costs u) by done. done.
  - destruct costs; done.
Qed.

(** * The result *)

(** What the computation may return. *)
Definition potentials_result (adj : list (list VertexId)) (weights : list N)
    (r : Potentials + TopoSortError) : Prop :=
  match r with
  | inr (Cycle c) =>
      ¬ acyclic adj ∧ ∃ j mid, c = j :: mid ++ [j] ∧ NoDup (j :: mid) ∧ is_walk adj c
  | inl (mkPotentials path crit updated accessor) =>
      acyclic adj ∧
      is_walk adj (reverse path) ∧ walk_cost weights path = crit ∧
      Forall (λ v, v < length adj) path ∧
      (if decide (adj = []) then path = [] else critical_cost adj weights crit) ∧
      length updated = length path ∧
      (∀ i c, path !! i = Some c →
         ∃ cost, updated !! i = Some cost ∧ critical_cost adj (<[c := 0%N]> weights) cost) ∧
      (∀ v, v < length adj → ∃ cost path,
         critical_path_for_vertex accessor v = Ok (Some (cost, path)) ∧
         longest adj weights v cost ∧
         is_walk adj (reverse path) ∧ head (reverse path) = Some v ∧ walk_cost weights path = cost)
  end.

Lemma potentials_spec adj weights (Hok : adj_ok adj) (Hw : length weights = length adj)
    (Hov : acyclic adj → no_overflow adj weights) (Hfit : (Z.of_nat (length adj) <= 2 ^ 31)%Z) :
  ∃ r, compute_critical_path_potentials (graph_of adj) weights = Ok r ∧
    potentials_result adj weights r.
Proof.
  unfold compute_critical_path_potentials. rewrite reversed_of by done. cbn [mbind outcome_bind].
  destruct (topo_sort_spec adj Hok) as ([order|[c]] & -> & Hres); cbn [mbind outcome_bind].
  2: { eexists. split; [done|]. unfold potentials_result. split; [|exact Hres]. destruct Hres as (j & mid & -> & _ & Hwk).
       intros Ha. by apply (Ha j mid). }
  destruct Hres as [Hp Ht].
  assert (acyclic adj) as Ha by (by eapply topo_ordered_acyclic). specialize (Hov Ha).
  pose proof (topo_ordered_rev adj order Hok Hp Ht) as Ht'.
  assert (acyclic (rev_adj adj)) as Ha'.
  { eapply topo_ordered_acyclic; [by apply rev_adj_ok| |exact Ht'].
    by rewrite reverse_Permutation, rev_adj_length. }
  pose proof (find_longest_spec (rev_adj adj) weights (rev_adj_ok adj Hok) Ha') as H1.
  rewrite rev_adj_length in H1.
  specialize (H1 Hw (no_overflow_rev adj weights Hok Hov) Hfit order Hp Ht').
  apply returns_Ok in H1 as ([to_sink pred'] & -> & Hl2 & _ & Hto).
  cbn [mbind outcome_bind fst snd] in *.
  pose proof (find_longest_spec adj weights Hok Ha Hw Hov Hfit (reverse order)) as H2.
  rewrite reverse_involutive in H2. specialize (H2 (transitivity (reverse_Permutation order) Hp) Ht).
  apply returns_Ok in H2 as ([from_source pred] & -> & Hl1 & Hl3 & Hfrom).
  cbn [mbind outcome_bind fst snd] in *.
  pose proof (accessor_spec adj weights Hok Hw from_source pred Hl1 Hl3 Hfrom) as Hacc.
  pose proof (critical_path_end from_source) as Hend.
  destruct (max_by_cost _) as [[sink crit]|].
  - destruct Hend as (Hs & Hcrit & Hmost). assert (sink < length adj) as Hsink by lia.
    assert (∀ v, v < length adj → cost_le (from_source !!! v) crit) as Hmost'
      by (intros v Hv; apply Hmost; lia).
    pose proof (potentials_of_path_spec adj weights Hok Ha Hw Hov Hfit from_source to_sink pred
                  Hl1 Hl2 Hl3 Hfrom (λ v Hv, proj1 (Hto v Hv)) sink crit Hsink Hcrit Hmost') as Hp'.
    apply returns_Ok in Hp' as ([path crit' updated acc] & -> & E1 & E2 & Hwk & Hc & Hrange & Hlen & Hupd).
    cbn [mbind outcome_bind pot_critical_path_cost pot_accessor pot_critical_path
         pot_updated_critical_path_cost] in *. subst crit' acc.
    eexists. split; [done|]. unfold potentials_result. split_and!; [done..| |done| |done].
    + destruct (decide (adj = [])) as [->|]; [cbn in Hsink; lia|]. split.
      * destruct (Hfrom sink Hsink) as [[(l & Hl & El) _] _]. exists sink, l. by rewrite El.
      * intros u l Hu Hl. destruct (Hfrom u Hu) as [[_ Hle] _].
        transitivity (from_source !!! u); auto.
    + intros i c Hi. exists (updated !!! i). split; [|by apply Hupd].
      apply list_lookup_lookup_total_lt. rewrite Hlen. by eapply lookup_lt_Some.
  - eexists. split; [done|]. unfold potentials_result.
    assert (adj = []) as ->.
    { apply length_zero_iff_nil. by rewrite <- Hl1, Hend. }
    rewrite decide_True by done. split_and!; try done.
Qed.

(** * Properties *)

(** C4. For a graph whose vertices fit [i32] and whose weights do not overflow
    along a path, the computation ends without a panic.  On a cyclic graph it returns a cycle.  On
    an acyclic one it returns a path of the graph, listed from its far end, whose cost is that of
    a longest path; for each vertex on it the cost of a longest path of the graph in which that
    vertex weighs nothing; and an accessor that answers, for every vertex, with a longest path
    from it.  The empty graph gives the empty path. *)
Theorem potentials_correct adj weights (Hok : adj_ok adj) (Hw : length weights = length adj)
    (Hov : acyclic adj → no_overflow adj weights) (Hfit : (Z.of_nat (length adj) <= 2 ^ 31)%Z) :
  ∃ r, compute_critical_path_potentials (graph_of adj) weights = Ok r ∧
    potentials_result adj weights r.
Proof. by apply potentials_spec. Qed.

Lemma potentials_correct_witness :
  (∃ p, compute_critical_path_potentials (graph_of test_adj) test_weights = Ok (inl p) ∧
        pot_critical_path p = [0; 1; 3] ∧
        pot_updated_critical_path_cost p = [mkPathCost 20 2; mkPathCost 25 3; mkPathCost 30 3]) ∧
  ∃ r, compute_critical_path_potentials (graph_of test_adj) test_weights = Ok r.
Proof.
  split; [eexists; split_and!; by vm_compute|].
  destruct (potentials_correct test_adj test_weights test_adj_ok) as (r & Hr & _).
  - done.
  - intros _. exact test_no_overflow.
  - done.
  - by exists r.
Defined.
