(* ===== verification/QueryTraversal.v ===== *)
(** The generic graph traversals of the query engine, from [src/app/bz_query/src/query/graph]:
    the visited sets ([vec_as_map.rs], [vec_as_set.rs], [visited.rs]), depth-first traversal in
    postorder and preorder ([dfs.rs]) and breadth-first traversal ([bfs.rs]).

    The successors of a node are a function that may panic, since those of a graph index a vector.
    A visitor threads a state and may fail.  A vector used as a stack is a list whose head is the
    last element of the vector.  The hashes that [VisitedNodes] passes along are left out: they are
    always those of the node they come with.  Loops run on a fuel; the theorems give a bound from
    the nodes and edges that can be reached. *)
From S2P Require Import Prelude.
Local Open Scope dice_scope.

(** * Visited sets *)

Notation VecAsMap T := (list (option T)) (only parsing).

Definition VecAsMap_get {T} (self : VecAsMap T) (index : nat) : option T := self !! index ≫= id.

Definition VecAsMap_contains_key {T} (self : VecAsMap T) (index : nat) : bool :=
  bool_decide (is_Some (VecAsMap_get self index)).

(** [resize_with(index + 1, || None)] of a vector that is too short. *)
Definition VecAsMap_resize {T} (self : VecAsMap T) (index : nat) : VecAsMap T :=
  if length self <=? index then self ++ replicate (S index - length self) None else self.

(** The previous value and the map after the insertion. *)
Definition VecAsMap_insert {T} (self : VecAsMap T) (index : nat) (value : T) :
    option T * VecAsMap T :=
  let vec := VecAsMap_resize self index in
  (vec !! index ≫= id, <[index := Some value]> vec).

Definition VecAsMap_keys {T} (self : VecAsMap T) : list nat :=
  omap id (imap (λ i e, (λ _, i) <$> e) self).

Notation VecAsSet := (VecAsMap unit) (only parsing).

Definition VecAsSet_contains (self : VecAsSet) (index : nat) : bool :=
  VecAsMap_contains_key self index.

(** Whether the index was not already present. *)
Definition VecAsSet_insert (self : VecAsSet) (index : nat) : bool * VecAsSet :=
  let '(prev, self) := VecAsMap_insert self index tt in (bool_decide (prev = None), self).

(** The trait [VisitedNodes] and its two implementations. *)
Class VisitedNodes (A V : Type) := {
  vn_default : V;
  vn_contains : V → A → bool;
  vn_insert_clone : V → A → bool * V;
}.

Definition VisitedNodes_VecAsSet : VisitedNodes nat VecAsSet := {|
  vn_default := [];
  vn_contains := VecAsSet_contains;
  vn_insert_clone := VecAsSet_insert;
|}.
Global Existing Instance VisitedNodes_VecAsSet.

Definition VisitedNodes_UnorderedSet `{Countable A} : VisitedNodes A (gset A) := {|
  vn_default := ∅;
  vn_contains self node := bool_decide (node ∈ self);
  vn_insert_clone self node := (bool_decide (node ∉ self), {[node]} ∪ self);
|}.
Global Existing Instance VisitedNodes_UnorderedSet.

(** What a visited set promises: it is a set. *)
Class VisitedNodesLaws (A V : Type) `{VisitedNodes A V} := {
  vn_elem : V → A → Prop;
  vn_elem_default : ∀ x, ¬ vn_elem vn_default x;
  vn_elem_contains : ∀ s x, vn_contains s x = true ↔ vn_elem s x;
  vn_elem_insert : ∀ s x y, vn_elem (vn_insert_clone s x).2 y ↔ y = x ∨ vn_elem s y;
  vn_insert_new : ∀ s x, (vn_insert_clone s x).1 = negb (vn_contains s x);
}.

(** * Depth-first traversal *)

Inductive WorkItem (A : Type) :=
| PostVisit (n : A)
| Visit (n : A).
Arguments PostVisit {_} _.
Arguments Visit {_} _.

Section Traversal.
Context {A S E : Type} (successors : A → outcome (list A)).

(** The loop of [dfs_postorder_impl], with the visitor threading a state and failing. *)
Fixpoint dfs_postorder_loop {V} `{VisitedNodes A V} (visit : S → A → S * option E) (fuel : nat)
    (visited : V) (work : list (WorkItem A)) (s : S) : outcome (S * option E) :=
  match work with
  | [] => Ok (s, None)
  | curr :: work =>
      match fuel with
      | 0 => Panic
      | Datatypes.S fuel =>
          match curr with
          | Visit target =>
              let '(new, visited) := vn_insert_clone visited target in
              if negb new then dfs_postorder_loop visit fuel visited work s else
              succs ← successors target;
              dfs_postorder_loop visit fuel visited
                (reverse (Visit <$> filter (λ succ, vn_contains visited succ = false) succs)
                 ++ PostVisit target :: work) s
          | PostVisit target =>
              match visit s target with
              | (s, Some e) => Ok (s, Some e)
              | (s, None) => dfs_postorder_loop visit fuel visited work s
              end
          end
      end
  end.

Definition dfs_postorder_impl (V : Type) `{VisitedNodes A V} (visit : S → A → S * option E)
    (fuel : nat) (roots : list A) (s : S) : outcome (S * option E) :=
  dfs_postorder_loop visit fuel (vn_default : V) (reverse (Visit <$> roots)) s.

Definition dfs_postorder `{Countable A} (visit : S → A → S * option E)
    (fuel : nat) (roots : list A) (s : S) : outcome (S * option E) :=
  dfs_postorder_impl (gset A) visit fuel roots s.
End Traversal.

Section Preorder.
Context {S : Type} (successors : nat → outcome (list nat)) (visit : S → nat → S).

(** The inner loop of [dfs_preorder]: the successors are pushed and then reversed in place, so the
    first one is on top. *)
Fixpoint dfs_preorder_loop (fuel : nat) (visited : VecAsSet) (work : list nat) (s : S) :
    outcome (VecAsSet * S) :=
  match work with
  | [] => Ok (visited, s)
  | node :: work =>
      match fuel with
      | 0 => Panic
      | Datatypes.S fuel =>
          let '(new, visited) := VecAsSet_insert visited node in
          if negb new then dfs_preorder_loop fuel visited work s else
          let s := visit s node in
          succs ← successors node;
          dfs_preorder_loop fuel visited (reverse (reverse succs) ++ work) s
      end
  end.

Definition dfs_preorder (fuel : nat) (roots : list nat) (s : S) : outcome S :=
  '(_, s) ← for_each (λ st root, dfs_preorder_loop fuel st.1 [root] st.2) ([], s) roots;
  Ok s.
End Preorder.

(** * Breadth-first traversal *)

Section Breadth.
Context {A S : Type} `{Countable A} (successors : A → outcome (list A)) (visit : S → A → S).

(** Enqueue what has not been seen. *)
Definition bfs_push (st : gset A * list A) (n : A) : gset A * list A :=
  let '(visited, work) := st in
  if decide (n ∈ visited) then (visited, work) else ({[n]} ∪ visited, work ++ [n]).

Fixpoint bfs_loop (fuel : nat) (visited : gset A) (work : list A) (s : S) : outcome S :=
  match work with
  | [] => Ok s
  | curr :: work =>
      match fuel with
      | 0 => Panic
      | Datatypes.S fuel =>
          succs ← successors curr;
          let '(visited, work) := foldl bfs_push (visited, work) succs in
          bfs_loop fuel visited work (visit s curr)
      end
  end.

Definition bfs_preorder (fuel : nat) (roots : list A) (s : S) : outcome S :=
  let '(visited, work) := foldl bfs_push (∅, []) roots in bfs_loop fuel visited work s.
End Breadth.

(** The traversals of the unit tests. *)
Definition collect : list nat → nat → list nat := λ s n, s ++ [n].

Example test_dfs_preorder :
  dfs_preorder (λ n, Ok (filter (λ m, m ≤ 10) [n + 2; n + 3])) collect 100 [0; 1] [] =
  Ok [0; 2; 4; 6; 8; 10; 9; 7; 5; 3; 1].
Proof. by vm_compute. Qed.

Example test_bfs_preorder :
  bfs_preorder (λ n, Ok (filter (λ m, m ≤ 10) [n + 3; n + 5])) collect 100 [0] [] =
  Ok [0; 3; 5; 6; 8; 10; 9].
Proof. by vm_compute. Qed.

(** * The sets are sets *)

Lemma VecAsMap_get_resize {T} (m : VecAsMap T) i k :
  VecAsMap_get (VecAsMap_resize m i) k = VecAsMap_get m k.
Proof.
  unfold VecAsMap_get, VecAsMap_resize. destruct (Nat.leb_spec (length m) i); [|done].
  destruct (decide (k < length m)); [by rewrite lookup_app_l|].
  rewrite lookup_app_r, (lookup_ge_None_2 m) by lia.
  destruct (replicate _ _ !! (k - length m)) as [o|] eqn:E; [|done].
  by apply lookup_replicate in E as [-> _].
Qed.

Lemma VecAsMap_length_resize {T} (m : VecAsMap T) i :
  length (VecAsMap_resize m i) = length m `max` S i.
Proof.
  unfold VecAsMap_resize. destruct (Nat.leb_spec (length m) i); [|lia].
  rewrite length_app, length_replicate. lia.
Qed.

Lemma VecAsMap_get_insert {T} (m : VecAsMap T) i x j :
  VecAsMap_get (VecAsMap_insert m i x).2 j = if decide (i = j) then Some x else VecAsMap_get m j.
Proof.
  unfold VecAsMap_insert. cbn [snd]. rewrite <- (VecAsMap_get_resize m i j).
  pose proof (VecAsMap_length_resize m i). unfold VecAsMap_get.
  case_decide as E; [subst; by rewrite list_lookup_insert_eq by lia|].
  by rewrite list_lookup_insert_ne.
Qed.

Lemma VecAsMap_insert_prev {T} (m : VecAsMap T) i x :
  (VecAsMap_insert m i x).1 = VecAsMap_get m i.
Proof. apply VecAsMap_get_resize. Qed.

Lemma VecAsMap_get_nil {T} i : VecAsMap_get ([] : VecAsMap T) i = None.
Proof. done. Qed.

Global Instance VisitedNodesLaws_VecAsSet : VisitedNodesLaws nat VecAsSet.
Proof.
  refine {| vn_elem (s : VecAsSet) (x : nat) := is_Some (VecAsMap_get s x) |}.
  - intros x [? [=]].
  - intros s x. apply bool_decide_eq_true.
  - intros s x y.
    change (is_Some (VecAsMap_get (VecAsSet_insert s x).2 y) ↔ y = x ∨ is_Some (VecAsMap_get s y)).
    pose proof (VecAsMap_get_insert s x tt y) as E. unfold VecAsSet_insert.
    destruct (VecAsMap_insert s x tt) as [prev s']. cbn [snd] in *. rewrite E.
    case_decide; subst; [split; eauto|]. split; [auto|]. intros [->|]; done.
  - intros s x.
    change ((VecAsSet_insert s x).1 = negb (VecAsMap_contains_key s x)).
    pose proof (VecAsMap_insert_prev s x tt) as E. unfold VecAsSet_insert, VecAsMap_contains_key.
    destruct (VecAsMap_insert s x tt) as [prev s']. cbn [fst] in *. subst prev.
    by destruct (VecAsMap_get s x).
Defined.

Global Instance VisitedNodesLaws_UnorderedSet `{Countable A} : VisitedNodesLaws A (gset A).
Proof.
  refine {| vn_elem (s : gset A) x := x ∈ s |}.
  - intros x. cbn. set_solver.
  - intros s x. cbn. apply bool_decide_eq_true.
  - intros s x y. cbn. set_solver.
  - intros s x. cbn. by rewrite bool_decide_not.
Defined.

(** * A finite closed set of nodes *)

(** The edges along which the successors do not panic. *)
Definition succ_edge {A} (successors : A → outcome (list A)) (u v : A) : Prop :=
  ∃ l, successors u = Ok l ∧ v ∈ l.

Definition degree {A} (successors : A → outcome (list A)) (u : A) : nat :=
  match successors u with Ok l => length l | Panic => 0 end.

(** Every node of [universe] has successors, which are in it too. *)
Definition closed_under {A} (successors : A → outcome (list A)) (universe : list A) : Prop :=
  ∀ u, u ∈ universe → ∃ l, successors u = Ok l ∧ ∀ v, v ∈ l → v ∈ universe.

(** Reachable from one of the roots. *)
Definition reached {A} (successors : A → outcome (list A)) (roots : list A) (v : A) : Prop :=
  ∃ r, r ∈ roots ∧ rtc (succ_edge successors) r v.

(** Work for one item per root, and per node an item and its edges. *)
Definition search_fuel {A} `{EqDecision A} (successors : A → outcome (list A))
    (universe roots : list A) : nat :=
  length roots + unseen (λ v, S (degree successors v)) universe [].

Lemma closed_set_reached {A} (successors : A → outcome (list A)) (P : A → Prop) roots v :
  (∀ r, r ∈ roots → P r) → (∀ x y, P x → succ_edge successors x y → P y) →
  reached successors roots v → P v.
Proof.
  intros Hr Hc (r & Hin & H). assert (P r) as Hp by auto. clear Hr Hin. induction H; eauto.
Qed.

(** * Postorder *)

Section Postorder.
Context {A S E V : Type} `{EqDecision A} `{VisitedNodesLaws A V}.
Context (successors : A → outcome (list A)) (visit : S → A → S * option E).
Context (universe roots : list A) (Hnd : NoDup universe).
Context (Hclosed : closed_under successors universe) (Hroots : ∀ r, r ∈ roots → r ∈ universe).

Local Notation edge := (succ_edge successors).

(** Running the visitor along a list, up to its first error. *)
Fixpoint run_visits (s : S) (l : list A) : S * option E :=
  match l with
  | [] => (s, None)
  | x :: l => match visit s x with
              | (s, Some e) => (s, Some e)
              | (s, None) => run_visits s l
              end
  end.

(** The nodes entered and not left. *)
Fixpoint posts (work : list (WorkItem A)) : list A :=
  match work with
  | [] => []
  | PostVisit x :: work => x :: posts work
  | Visit _ :: work => posts work
  end.

Definition item_node (w : WorkItem A) : A := match w with PostVisit x | Visit x => x end.

(** Each item was pushed as a successor of the nearest node entered below it. *)
Fixpoint items_ok (work : list (WorkItem A)) : Prop :=
  match work with
  | [] => True
  | w :: work => (∀ p, head (posts work) = Some p → edge p (item_node w)) ∧ items_ok work
  end.

(** In postorder: a successor comes earlier, unless it leads back. *)
Definition postordered (P Q : list A) : Prop :=
  ∀ l1 u l2, P = l1 ++ u :: l2 → ∀ v, edge u v → v ∈ l1 ∨ rtc edge v u ∧ v ∈ Q.

(** [P] are the nodes left, in order. *)
Record post_inv (work : list (WorkItem A)) (P : list A) : Prop := {
  po_nodup : NoDup (posts work ++ P);
  po_in : ∀ x, x ∈ item_node <$> work ∨ x ∈ P → x ∈ universe ∧ reached successors roots x;
  po_items : items_ok work;
  po_children : ∀ above p below, work = above ++ PostVisit p :: below → ∀ c, edge p c →
    c ∈ P ∨ c ∈ posts work ∨ Visit c ∈ above;
  po_order : postordered P (posts work ++ P);
  po_roots : ∀ r, r ∈ roots → r ∈ P ∨ r ∈ posts work ∨ Visit r ∈ work;
}.

Lemma elem_of_posts x work : x ∈ posts work ↔ PostVisit x ∈ work.
Proof. induction work as [|[y|y] work IH]; cbn; set_solver. Qed.

Lemma posts_app w1 w2 : posts (w1 ++ w2) = posts w1 ++ posts w2.
Proof. induction w1 as [|[y|y] w1 IH]; cbn; [done|by rewrite IH|done]. Qed.

Lemma posts_visits (l : list A) : posts (Visit <$> l) = [].
Proof. by induction l. Qed.

Lemma posts_rev_visits (l : list A) : posts (reverse (Visit <$> l)) = [].
Proof. rewrite <- fmap_reverse. apply posts_visits. Qed.

(** The nodes entered are a path to the innermost. *)
Lemma posts_path work p x : items_ok work → head (posts work) = Some p → x ∈ posts work → rtc edge x p.
Proof.
  revert p. induction work as [|[y|y] work IH]; cbn; intros p Hi Hp Hx; [done| |by apply IH; [destruct Hi|..]].
  destruct Hi as [Hw Hi].
  injection Hp as ->. apply elem_of_cons in Hx as [->|Hx]; [done|].
  destruct (posts work) as [|q l] eqn:Eq; [by apply elem_of_nil in Hx|].
  apply rtc_r with q; [by apply IH|by apply Hw].
Qed.

Lemma items_ok_app w1 w2 :
  (∀ w, w ∈ w1 → ∀ p, head (posts w2) = Some p → edge p (item_node w)) → posts w1 = [] →
  items_ok w2 → items_ok (w1 ++ w2).
Proof.
  intros H1 Hp H2. induction w1 as [|w w1 IH]; [done|]. destruct w as [y|y]; [done|]. cbn in *.
  split; [|apply IH; set_solver]. rewrite posts_app, Hp. cbn. apply (H1 (Visit y)). set_solver.
Qed.

Lemma post_skip x work P :
  post_inv (Visit x :: work) P → x ∈ posts work ∨ x ∈ P → post_inv work P.
Proof.
  intros [Hn Hin Hit Hch Ho Hr] Hx. cbn in *. split; [done| |by destruct Hit| |done|].
  - intros y Hy. apply Hin. set_solver.
  - intros above p below -> c Hc. destruct (Hch (Visit x :: above) p below eq_refl c Hc) as [?|[?|Hv]];
      [auto|auto|]. apply elem_of_cons in Hv as [[= ->]|?]; [|auto]. tauto.
  - intros r Hr'. destruct (Hr r Hr') as [?|[?|Hv]]; [auto|auto|].
    apply elem_of_cons in Hv as [[= ->]|?]; [|auto]. tauto.
Qed.

Lemma post_enter x succs pushed work P :
  post_inv (Visit x :: work) P → x ∉ posts work → x ∉ P → successors x = Ok succs →
  (∀ c, c ∈ pushed → c ∈ succs) →
  (∀ c, c ∈ succs → c ∈ P ∨ c = x ∨ c ∈ posts work ∨ c ∈ pushed) →
  post_inv (reverse (Visit <$> pushed) ++ PostVisit x :: work) P.
Proof.
  intros [Hn Hin Hit Hch Ho Hr] Hx1 Hx2 Hs Hp1 Hp2. cbn [posts] in *.
  assert (posts (reverse (Visit <$> pushed) ++ PostVisit x :: work) = x :: posts work) as Epo
    by (by rewrite posts_app, posts_rev_visits).
  assert (x ∈ universe ∧ reached successors roots x) as [Hxu (r0 & Hr0 & Hreach)] by (apply Hin; set_solver).
  assert (∀ c, Visit c ∈ reverse (Visit <$> pushed) ↔ c ∈ pushed) as Hrev.
  { intros c. rewrite elem_of_reverse, list_elem_of_fmap. naive_solver. }
  assert (∀ c, PostVisit c ∉ reverse (Visit <$> pushed)) as Hrev'.
  { intros c. rewrite elem_of_reverse, list_elem_of_fmap. naive_solver. }
  split; rewrite ?Epo.
  - cbn. apply NoDup_cons. split; [set_solver|done].
  - intros y. rewrite fmap_app, elem_of_app. intros [[Hy|Hy]|Hy]; [|apply Hin; cbn in *; set_solver..].
    apply list_elem_of_fmap in Hy as (w & -> & Hw). rewrite elem_of_reverse in Hw.
    apply list_elem_of_fmap in Hw as (c & -> & Hc). cbn. split.
    + destruct (Hclosed x Hxu) as (l & El & Hl). rewrite Hs in El. simplify_eq. auto.
    + exists r0. split; [done|]. apply rtc_r with x; [done|]. exists succs. auto.
  - apply items_ok_app; [|apply posts_rev_visits|].
    + intros w Hw p [= <-]. rewrite elem_of_reverse in Hw.
      apply list_elem_of_fmap in Hw as (c & -> & Hc). exists succs. auto.
    + destruct Hit. split; done.
  - intros above p below Eq c Hc. apply app_eq_inv in Eq as [(k & E1 & E2)|(k & E1 & E2)].
    + destruct k as [|w k]; cbn in E2.
      * injection E2 as <- <-. rewrite app_nil_r in E1. subst above. destruct Hc as (l & El & Hc).
        rewrite Hs in El. simplify_eq. rewrite Hrev. destruct (Hp2 c Hc) as [?|[->|[?|?]]]; set_solver.
      * injection E2 as <- _. exfalso. apply (Hrev' p). rewrite E1. set_solver.
    + destruct k as [|w k]; cbn in E2.
      * injection E2 as <- <-. rewrite app_nil_r in E1. subst above. destruct Hc as (l & El & Hc).
        rewrite Hs in El. simplify_eq. rewrite Hrev. destruct (Hp2 c Hc) as [?|[->|[?|?]]]; set_solver.
      * injection E2 as <- ->. destruct (Hch (Visit x :: k) p below eq_refl c Hc) as [?|[?|Hv]];
          [auto|set_solver|]. right. apply elem_of_cons in Hv as [[= ->]|?]; set_solver.
  - intros l1 u l2 EP v Hv. destruct (Ho l1 u l2 EP v Hv) as [?|[? ?]]; [auto|right; set_solver].
  - intros r Hr'. destruct (Hr r Hr') as [?|[?|Hv]]; [auto|set_solver|].
    apply elem_of_cons in Hv as [[= ->]|?]; set_solver.
Qed.

Lemma post_leave x work P : post_inv (PostVisit x :: work) P → post_inv work (P ++ [x]).
Proof.
  intros [Hn Hin Hit Hch Ho Hr]. cbn [posts] in *.
  assert (posts work ++ P ++ [x] ≡ₚ (x :: posts work) ++ P) as Ep
    by (cbn; rewrite (Permutation_app_comm P [x]), Permutation_middle; done).
  split.
  - by rewrite Ep.
  - intros y Hy. apply Hin. set_solver.
  - by destruct Hit.
  - intros above p below -> c Hc.
    destruct (Hch (PostVisit x :: above) p below eq_refl c Hc) as [?|[?|Hv]]; [set_solver|set_solver|].
    apply elem_of_cons in Hv as [[=]|?]; auto.
  - intros l1 u l2 EP v Hv. apply app_eq_inv in EP as [(k & E1 & E2)|(k & E1 & E2)].
    + destruct k as [|w k]; cbn in E2; [|injection E2 as <- E2; symmetry in E2].
      * injection E2 as -> _. rewrite app_nil_r in E1. subst l1.
        destruct (Hch [] x work eq_refl v Hv) as [?|[Hp|Hv']]; [auto| |by apply elem_of_nil in Hv'].
        right. split; [|set_solver]. by apply (posts_path (PostVisit x :: work)).
      * subst P. destruct (Ho l1 u k eq_refl v Hv) as [?|[? Hq]]; [auto|]. right. split; [done|].
        rewrite Ep. set_solver.
    + destruct k as [|w k]; cbn in E2; [|by destruct k].
      injection E2 as <- _. rewrite app_nil_r in E1. subst l1.
      destruct (Hch [] x work eq_refl v Hv) as [?|[Hp|Hv']]; [auto| |by apply elem_of_nil in Hv'].
      right. split; [|set_solver]. by apply (posts_path (PostVisit x :: work)).
  - intros r Hr'. destruct (Hr r Hr') as [?|[?|Hv]]; [set_solver|set_solver|].
    apply elem_of_cons in Hv as [[=]|?]; auto.
Qed.

Let cost (v : A) : nat := Datatypes.S (degree successors v).

Lemma postorder_loop_spec fuel visited work s P :
  post_inv work P → (∀ x, vn_elem visited x ↔ x ∈ posts work ∨ x ∈ P) →
  length work + unseen cost universe (posts work ++ P) ≤ fuel →
  ∃ L, dfs_postorder_loop successors visit fuel visited work s = Ok (run_visits s L) ∧
       post_inv [] (P ++ L).
Proof using All.
  revert visited work s P. induction fuel as [|fuel IH]; intros visited work s P Hinv Hvis Hfuel.
  { destruct work; [|cbn in Hfuel; lia]. exists []. by rewrite app_nil_r. }
  destruct work as [|[x|x] work]; [exists []; by rewrite app_nil_r| |]; cbn [dfs_postorder_loop].
  - cbn [posts length app] in *.
    assert (x ∉ posts work) as Hx by (pose proof (po_nodup _ _ Hinv) as H'; cbn in H'; apply NoDup_cons in H' as [H' _]; set_solver).
    assert (∀ s', ∃ L, dfs_postorder_loop successors visit fuel visited work s' = Ok (run_visits s' L) ∧
                       post_inv [] ((P ++ [x]) ++ L)) as Hrest.
    { intros s'. apply IH; [by apply post_leave|set_solver|].
      rewrite (unseen_ext _ _ _ (x :: posts work ++ P)) by set_solver. lia. }
    destruct (visit s x) as [s' [e|]] eqn:Ev; destruct (Hrest s') as (L & E1 & HL);
      rewrite <- app_assoc in HL; exists (x :: L); cbn; rewrite Ev; done.
  - pose proof (vn_insert_new visited x) as Enew.
    pose proof (λ y, vn_elem_insert visited x y) as Eins.
    destruct (vn_insert_clone visited x) as [new visited']. cbn [fst snd] in *. subst new.
    cbn [posts length app] in *.
    destruct (vn_contains visited x) eqn:Ec; cbn [negb].
    + apply vn_elem_contains in Ec. apply IH; [|set_solver|cbn in Hfuel; lia].
      eapply post_skip; [done|]. by apply Hvis.
    + assert (¬ vn_elem visited x) as Hnot by (intros ?%vn_elem_contains; congruence).
      rewrite Hvis in Hnot. apply Decidable.not_or in Hnot as [Hx1 Hx2].
      assert (x ∈ universe) as Hxu by (eapply (po_in _ _ Hinv); cbn; set_solver).
      destruct (Hclosed x Hxu) as (succs & Es & _). rewrite Es. cbn [mbind outcome_bind].
      set (pushed := filter _ succs).
      assert (post_inv (reverse (Visit <$> pushed) ++ PostVisit x :: work) P) as Hinv'.
      { eapply post_enter; [done..| |].
        - intros c Hc. by apply list_elem_of_filter in Hc as [_ ?].
        - intros c Hc. destruct (vn_contains visited' c) eqn:Econ.
          + apply vn_elem_contains, Eins in Econ as [->|Econ]; [auto|]. apply Hvis in Econ. tauto.
          + do 3 right. by apply list_elem_of_filter. }
      assert (posts (reverse (Visit <$> pushed) ++ PostVisit x :: work) = x :: posts work) as Epo
        by (by rewrite posts_app, posts_rev_visits).
      apply IH; [done| |].
      * intros y. rewrite Epo, Eins, Hvis. set_solver.
      * rewrite Epo, length_app, length_reverse, length_fmap. cbn [length app].
        rewrite (unseen_cons cost universe (posts work ++ P) x) in Hfuel by (done || set_solver).
        assert (length pushed ≤ length succs) by apply length_filter.
        unfold cost at 2, degree in Hfuel. rewrite Es in Hfuel. lia.
Qed.

Lemma post_inv_roots : post_inv (reverse (Visit <$> roots)) [].
Proof using All.
  split.
  - rewrite posts_rev_visits. constructor.
  - intros x [Hx|Hx]; [|by apply elem_of_nil in Hx].
    apply list_elem_of_fmap in Hx as (w & -> & Hw). rewrite elem_of_reverse in Hw.
    apply list_elem_of_fmap in Hw as (r & -> & Hr). cbn. split; [auto|]. by exists r.
  - rewrite <- fmap_reverse. generalize (reverse roots). intros l.
    induction l as [|x l IH]; cbn; [done|]. split; [|done]. by rewrite posts_visits.
  - intros above p below Ew. exfalso.
    assert (PostVisit p ∈ reverse (Visit <$> roots)) as Hp by (rewrite Ew; set_solver).
    rewrite elem_of_reverse in Hp. apply list_elem_of_fmap in Hp. naive_solver.
  - intros l1 u l2 El. by destruct l1.
  - intros r Hr. right; right. rewrite elem_of_reverse. apply list_elem_of_fmap. eauto.
Qed.

Lemma postorder_spec fuel s :
  search_fuel successors universe roots ≤ fuel →
  ∃ L, dfs_postorder_impl successors V visit fuel roots s = Ok (run_visits s L) ∧
       NoDup L ∧ (∀ v, v ∈ L ↔ reached successors roots v) ∧ postordered L L.
Proof using All.
  intros Hfuel. unfold dfs_postorder_impl.
  destruct (postorder_loop_spec fuel vn_default (reverse (Visit <$> roots)) s []) as (L & Eloop & HL).
  - apply post_inv_roots.
  - intros x. rewrite posts_rev_visits. pose proof (vn_elem_default x). set_solver.
  - rewrite length_reverse, length_fmap, posts_rev_visits. exact Hfuel.
  - exists L. split; [done|]. cbn [app] in HL. destruct HL as [Hn Hin _ _ Ho Hr].
    cbn [posts app] in *. split_and!; [done| |done]. intros v. split.
    + intros Hv. apply Hin. by right.
    + apply (closed_set_reached successors (λ y, y ∈ L)).
      * intros r Hr'. destruct (Hr r Hr') as [?|[Hx|Hx]]; [done|by apply elem_of_nil in Hx..].
      * intros x y Hx Hxy. apply list_elem_of_split in Hx as (l1 & l2 & ->).
        destruct (Ho l1 x l2 eq_refl y Hxy) as [?|[_ ?]]; set_solver.
Qed.
End Postorder.

(** * Preorder *)

(** The recursive depth-first search that appends to the visited nodes: the reference for
    [dfs_preorder]. *)
Inductive dfs_rel {A} (children : A → list A) : list A → list A → list A → Prop :=
| dfs_done vis : dfs_rel children vis [] vis
| dfs_skip vis n todo vis' :
    n ∈ vis → dfs_rel children vis todo vis' → dfs_rel children vis (n :: todo) vis'
| dfs_visit vis n todo vis1 vis2 :
    n ∉ vis → dfs_rel children (vis ++ [n]) (children n) vis1 →
    dfs_rel children vis1 todo vis2 → dfs_rel children vis (n :: todo) vis2.

Section DfsRel.
Context {A : Type} (children : A → list A).

Local Notation child := (λ u v, v ∈ children u).

Lemma dfs_rel_fun vis todo v1 v2 :
  dfs_rel children vis todo v1 → dfs_rel children vis todo v2 → v1 = v2.
Proof.
  intros H. revert v2. induction H as [vis|vis n todo vis' Hn _ IH|vis n todo vis1 vis2 Hn _ IH1 _ IH2];
    intros v2 Hv; inversion Hv; subst; try done; [by apply IH|].
  match goal with Hx : dfs_rel _ (vis ++ [n]) _ ?m |- _ => apply IH1 in Hx; subst m end. by apply IH2.
Qed.

Lemma dfs_rel_app vis a b v :
  dfs_rel children vis (a ++ b) v ↔ ∃ m, dfs_rel children vis a m ∧ dfs_rel children m b v.
Proof.
  split.
  - revert vis. induction a as [|n a IH]; intros vis H; cbn in H.
    { exists vis. split; [constructor|done]. }
    inversion H; subst.
    + destruct (IH vis) as (m & ? & ?); [done|]. exists m. split; [by constructor|done].
    + match goal with Hx : dfs_rel _ ?v1 (a ++ b) _ |- _ => destruct (IH v1) as (m & ? & ?); [done|] end.
      exists m. split; [by econstructor|done].
  - intros (m & H1 & H2). induction H1; cbn; [done|by apply dfs_skip; auto|].
    eapply dfs_visit; eauto.
Qed.

Lemma dfs_rel_new vis todo vis' :
  dfs_rel children vis todo vis' → NoDup vis →
  NoDup vis' ∧ (∃ new, vis' = vis ++ new) ∧ (∀ x, x ∈ todo → x ∈ vis') ∧
  ∀ x, x ∈ vis' → x ∈ vis ∨ ((∃ r, r ∈ todo ∧ rtc child r x) ∧ ∀ y, y ∈ children x → y ∈ vis').
Proof.
  induction 1 as [vis|vis n todo vis' Hn H IH|vis n todo vis1 vis2 Hn H1 IH1 H2 IH2]; intros Hnd.
  - split_and!; [done|by exists []; rewrite app_nil_r|by intros x ?%elem_of_nil|auto].
  - destruct (IH Hnd) as (Hd & (new & ->) & Ht & Hx). split_and!; [done|by exists new| |].
    + intros x [->|?]%elem_of_cons; [set_solver|auto].
    + intros x Hv. destruct (Hx x Hv) as [?|[(r & ? & ?) ?]]; [auto|]. right.
      split; [exists r; set_solver|done].
  - destruct IH1 as (Hd1 & (new1 & ->) & Ht1 & Hx1).
    { apply NoDup_app. split_and!; [done|set_solver|apply NoDup_singleton]. }
    destruct (IH2 Hd1) as (Hd2 & (new2 & ->) & Ht2 & Hx2). split_and!; [done| | |].
    + exists ([n] ++ new1 ++ new2). by rewrite !app_assoc.
    + intros x [->|?]%elem_of_cons; [set_solver|auto].
    + intros x Hv. destruct (Hx2 x Hv) as [Hv1|[(r & ? & ?) ?]].
      * destruct (Hx1 x Hv1) as [[?|Hxn%list_elem_of_singleton]%elem_of_app|[(r & Hr & Hrx) Hc]].
        -- by left.
        -- subst x. right. split; [exists n; set_solver|]. intros y Hy. apply Ht1 in Hy. set_solver.
        -- right. split; [|set_solver]. exists n. split; [set_solver|]. by apply rtc_l with r.
      * right. split; [exists r; set_solver|done].
Qed.

Lemma dfs_rel_reached roots L v :
  dfs_rel children [] roots L → v ∈ L ↔ ∃ r, r ∈ roots ∧ rtc child r v.
Proof.
  intros H. destruct (dfs_rel_new [] roots L H) as (_ & _ & Ht & Hx); [constructor|]. split.
  - intros Hv. destruct (Hx v Hv) as [Hn|[? _]]; [by apply elem_of_nil in Hn|done].
  - intros (r & Hr & Hv). apply Ht in Hr. induction Hv as [|x y z Hxy _ IH]; [done|].
    apply IH. destruct (Hx x Hr) as [Hn|[_ Hc]]; [by apply elem_of_nil in Hn|by apply Hc].
Qed.
End DfsRel.

Definition children_of {A} (successors : A → outcome (list A)) (n : A) : list A :=
  match successors n with Ok l => l | Panic => [] end.

Lemma succ_edge_children {A} (successors : A → outcome (list A)) u v :
  succ_edge successors u v ↔ v ∈ children_of successors u.
Proof.
  unfold succ_edge, children_of. destruct (successors u) as [l|]; split.
  - by intros (l' & [= ->] & ?).
  - eauto.
  - by intros (l' & [=] & _).
  - by intros ?%elem_of_nil.
Qed.

Section PreorderSpec.
Context {S : Type} (successors : nat → outcome (list nat)) (visit : S → nat → S).
Context (universe : list nat) (Hnd : NoDup universe).
Context (Hclosed : closed_under successors universe).

Let cost (v : nat) : nat := Datatypes.S (degree successors v).

(** The set holds the nodes of [vis]. *)
Definition holds (visited : VecAsSet) (vis : list nat) : Prop :=
  ∀ x, is_Some (VecAsMap_get visited x) ↔ x ∈ vis.

Lemma preorder_loop_spec fuel visited vis work s :
  holds visited vis → (∀ x, x ∈ work → x ∈ universe) →
  length work + unseen cost universe vis ≤ fuel →
  ∃ new visited', dfs_preorder_loop successors visit fuel visited work s =
      Ok (visited', foldl visit s new) ∧ holds visited' (vis ++ new) ∧
    dfs_rel (children_of successors) vis work (vis ++ new).
Proof using All.
  revert visited vis work s. induction fuel as [|fuel IH]; intros visited vis work s Hv Hu Hfuel.
  { destruct work; [|cbn in Hfuel; lia]. exists [], visited. rewrite app_nil_r. split_and!; [done..|constructor]. }
  destruct work as [|n work].
  { exists [], visited. rewrite app_nil_r. split_and!; [done..|constructor]. }
  cbn [dfs_preorder_loop]. cbn [length] in Hfuel.
  pose proof (vn_insert_new (V := VecAsSet) visited n) as Enew.
  pose proof (λ y, vn_elem_insert (V := VecAsSet) visited n y) as Eins.
  pose proof (vn_elem_contains (V := VecAsSet) visited n) as Econ.
  cbn [vn_insert_clone VisitedNodes_VecAsSet vn_contains vn_elem VisitedNodesLaws_VecAsSet] in *.
  destruct (VecAsSet_insert visited n) as [new visited']. cbn [fst snd] in *. subst new.
  destruct (VecAsSet_contains visited n); cbn [negb].
  - assert (n ∈ vis) as Hn by (by apply Hv, Econ).
    destruct (IH visited' vis work s) as (new & v' & ? & ? & ?); [|set_solver|lia|].
    + intros x. specialize (Eins x). rewrite (Hv x) in Eins. rewrite Eins. set_solver.
    + exists new, v'. split_and!; [done..|]. by constructor.
  - assert (n ∉ vis) as Hn by (intros Hin; apply Hv, Econ in Hin; done).
    assert (n ∈ universe) as Hnu by set_solver.
    destruct (Hclosed n Hnu) as (succs & Es & Hs). rewrite Es. cbn [mbind outcome_bind].
    rewrite reverse_involutive.
    destruct (IH visited' (vis ++ [n]) (succs ++ work) (visit s n)) as (new & v' & Eloop & Hh & Hrel).
    + intros x. specialize (Eins x). rewrite (Hv x) in Eins. rewrite Eins. set_solver.
    + set_solver.
    + rewrite length_app. rewrite (unseen_cons cost universe vis n) in Hfuel by done.
      rewrite (unseen_ext cost universe (vis ++ [n]) (n :: vis)) by set_solver.
      unfold cost at 2, degree in Hfuel. rewrite Es in Hfuel. lia.
    + exists (n :: new), v'. rewrite <- app_assoc in Hh, Hrel. split_and!; [done..|].
      apply dfs_rel_app in Hrel as (m & H1 & H2). eapply dfs_visit; [done| |done].
      unfold children_of. by rewrite Es.
Qed.

Lemma preorder_spec fuel roots s :
  (∀ r, r ∈ roots → r ∈ universe) → 1 + unseen cost universe [] ≤ fuel →
  ∃ L, dfs_preorder successors visit fuel roots s = Ok (foldl visit s L) ∧
       dfs_rel (children_of successors) [] roots L.
Proof using All.
  intros Hroots Hfuel. unfold dfs_preorder.
  assert (∃ L visited, for_each (λ st root, dfs_preorder_loop successors visit fuel st.1 [root] st.2)
            ([], s) roots = Ok (visited, foldl visit s L) ∧ holds visited L ∧
            dfs_rel (children_of successors) [] roots L) as (L & visited & E & _ & Hrel).
  2: { exists L. rewrite E. done. }
  induction roots as [|r roots IH] using rev_ind.
  { exists [], []. split_and!; [done| |constructor]. intros x. split; [by intros [? [=]]|by intros ?%elem_of_nil]. }
  destruct IH as (L & visited & E & Hh & Hrel); [set_solver|].
  rewrite for_each_app, E. cbn [mbind outcome_bind for_each fst snd].
  destruct (preorder_loop_spec fuel visited L [r] (foldl visit s L)) as (new & v' & Eloop & Hh' & Hrel').
  - done.
  - set_solver.
  - cbn [length]. pose proof (unseen_le cost universe L). lia.
  - rewrite Eloop. cbn [mbind outcome_bind]. exists (L ++ new), v'. rewrite foldl_app.
    split_and!; [done..|]. apply dfs_rel_app. by exists L.
Qed.
End PreorderSpec.

(** * Breadth first *)

Section BreadthSpec.
Context {A S : Type} `{Countable A} (successors : A → outcome (list A)) (visit : S → A → S).
Context (universe roots : list A) (Hclosed : closed_under successors universe).
Context (Hroots : ∀ r, r ∈ roots → r ∈ universe).

Local Notation edge := (succ_edge successors).

(** At most [d] edges away from a root. *)
Fixpoint within (d : nat) (v : A) : Prop :=
  match d with
  | 0 => v ∈ roots
  | Datatypes.S d => within d v ∨ ∃ u, within d u ∧ edge u v
  end.

Lemma within_mono d e v : d ≤ e → within d v → within e v.
Proof. intros Hle Hv. induction Hle; [done|by left]. Qed.

Lemma within_reached v : reached successors roots v ↔ ∃ d, within d v.
Proof.
  split.
  - apply (closed_set_reached successors (λ v, ∃ d, within d v)); [by exists 0|].
    intros x y [d Hd] Hxy. exists (Datatypes.S d). right. eauto.
  - intros [d Hd]. revert v Hd. induction d as [|d IH]; intros v Hd; [by exists v|].
    destruct Hd as [Hd|(u & Hu & Huv)]; [by apply IH|]. destruct (IH u Hu) as (r & Hr & Hru).
    exists r. split; [done|]. by eapply rtc_r.
Qed.

Lemma within_universe d v : within d v → v ∈ universe.
Proof using Hclosed Hroots.
  revert v. induction d as [|d IH]; cbn; intros v; [by apply Hroots|].
  intros [Hv|(u & Hu%IH & l & El & Hv)]; [by apply IH|].
  destruct (Hclosed u Hu) as (l' & El' & Hl). rewrite El in El'. injection El' as <-. by apply Hl.
Qed.

(** No later element is nearer to the roots than an earlier one. *)
Definition by_distance (l : list A) : Prop :=
  ∀ l1 u l2 v l3, l = l1 ++ u :: l2 ++ v :: l3 → ∀ d, within d v → within d u.

Lemma by_distance_snoc l c :
  by_distance l → (∀ u d, u ∈ l → within d c → within d u) → by_distance (l ++ [c]).
Proof.
  intros Hl Hc l1 u l2 v l3 E d Hv. destruct l3 as [|x l3 _] using rev_ind.
  - rewrite app_comm_cons, app_assoc in E. apply app_inj_tail in E as [-> <-].
    apply (Hc u d); [set_solver|done].
  - replace (l1 ++ u :: l2 ++ v :: l3 ++ [x]) with ((l1 ++ u :: l2 ++ v :: l3) ++ [x]) in E
      by (simplify_list_eq; done).
    apply app_inj_tail in E as [-> _]. by apply (Hl l1 u l2 v l3).
Qed.

(** What pushing successors does: the new ones are enqueued, once each. *)
Lemma bfs_push_spec (visited : gset A) (work succs : list A) :
  ∃ new, foldl bfs_push (visited, work) succs = (list_to_set new ∪ visited, work ++ new) ∧
    NoDup new ∧ (∀ x, x ∈ new → x ∈ succs ∧ x ∉ visited) ∧
    ∀ x, x ∈ succs → x ∈ new ∨ x ∈ visited.
Proof.
  revert visited work. induction succs as [|c succs IH]; intros visited work; cbn [foldl].
  { exists []. rewrite app_nil_r. split_and!; [|constructor|by intros x ?%elem_of_nil..].
    f_equal. set_solver. }
  unfold bfs_push at 2. destruct (decide (c ∈ visited)) as [Hc|Hc].
  - destruct (IH visited work) as (new & -> & Hn & H1 & H2). exists new.
    split_and!; [done|done|set_solver|]. intros x [->|?]%elem_of_cons; auto.
  - destruct (IH ({[c]} ∪ visited) (work ++ [c])) as (new & -> & Hn & H1 & H2).
    exists (c :: new). split_and!.
    + rewrite <- app_assoc. f_equal. set_solver.
    + apply NoDup_cons. split; [|done]. intros Hx%H1. set_solver.
    + intros x [->|Hx%H1]%elem_of_cons; set_solver.
    + intros x [->|Hx%H2]%elem_of_cons; set_solver.
Qed.

(** [don] was visited and [q1 ++ q2] is queued: [q1] completes the nodes within [d]. *)
Record bfs_inv (d : nat) (don q1 q2 : list A) : Prop := {
  bf_nodup : NoDup (don ++ q1 ++ q2);
  bf_level : ∀ x, within d x ↔ x ∈ don ++ q1;
  bf_next : ∀ x, x ∈ q2 → within (Datatypes.S d) x;
  bf_done : ∀ x y, x ∈ don → edge x y → y ∈ don ++ q1 ++ q2;
  bf_sorted : by_distance (don ++ q1 ++ q2);
  bf_exact : ∀ x m, x ∈ q1 → m < d → ¬ within m x;
}.

(** When the level is finished the next one is complete. *)
Lemma bfs_next_level d don q2 : bfs_inv d don [] q2 → bfs_inv (Datatypes.S d) don q2 [].
Proof.
  intros [Hn Hl Hx Hd Hs _]. cbn [app] in *. rewrite app_nil_r in *. split; rewrite ?app_nil_r; try done.
  - intros x. cbn. split.
    + intros [Hw|(u & Hu & Hux)]; [apply Hl in Hw; set_solver|]. apply (Hd u x); [by apply Hl|done].
    + intros [Hw|Hw]%elem_of_app; [left; by apply Hl|]. exact (Hx x Hw).
  - by intros x ?%elem_of_nil.
  - intros x m Hin Hm Hw. apply NoDup_app in Hn as (_ & Hn & _). apply (Hn x); [|done].
    apply Hl. apply (within_mono m); [lia|done].
Qed.

Lemma bfs_step_inv d don c q1 q2 succs new :
  bfs_inv d don (c :: q1) q2 → successors c = Ok succs → NoDup new →
  (∀ x, x ∈ new → x ∈ succs ∧ x ∉ don ++ (c :: q1) ++ q2) →
  (∀ x, x ∈ succs → x ∈ new ∨ x ∈ don ++ (c :: q1) ++ q2) →
  bfs_inv d (don ++ [c]) q1 (q2 ++ new).
Proof.
  intros [Hn Hl Hx Hd Hs Hex] Es Hnew H1 H2.
  assert ((don ++ [c]) ++ q1 ++ q2 ++ new = (don ++ (c :: q1) ++ q2) ++ new) as E
    by (by rewrite <- !app_assoc).
  assert (within d c) as Hc by (apply Hl; set_solver).
  assert (∀ x, x ∈ new → within (Datatypes.S d) x ∧ ¬ within d x) as Hw.
  { intros x Hin. destruct (H1 x Hin) as [Hs' Hnot]. split.
    - right. exists c. split; [done|]. by exists succs.
    - intros Hw%Hl. set_solver. }
  split; rewrite ?E.
  - apply NoDup_app. split_and!; [done| |done]. intros x Hx' Hx2. by apply H1 in Hx2 as [_ ?].
  - intros x. rewrite Hl, <- app_assoc. done.
  - intros x [?|?]%elem_of_app; [by apply Hx|by apply Hw].
  - intros x y [Hxd|Hxc%list_elem_of_singleton]%elem_of_app He.
    + apply elem_of_app. left. by apply (Hd x).
    + subst x. destruct He as (l & El & Hy). rewrite Es in El. simplify_eq.
      apply elem_of_app. destruct (H2 y Hy); auto.
  - assert (∀ u, u ∈ don ++ (c :: q1) ++ q2 → within (Datatypes.S d) u) as Hold.
    { intros u. rewrite app_assoc, elem_of_app. intros [Hu|Hu]; [left; by apply Hl|by apply Hx]. }
    clear E H1 H2 Hnew. revert Hs. generalize (don ++ (c :: q1) ++ q2) Hold. clear -Hw Hroots Hclosed.
    induction new as [|x new IH]; intros l Hold Hs; [by rewrite app_nil_r|].
    rewrite cons_middle, app_assoc. apply IH; [set_solver| |].
    + intros u [?|Hu%list_elem_of_singleton]%elem_of_app; [auto|]. subst u. apply Hw. set_solver.
    + apply by_distance_snoc; [done|]. intros u e Hu He.
      destruct (Hw x) as [_ Hnot]; [set_solver|].
      apply (within_mono (Datatypes.S d)); [|by apply Hold].
      destruct (decide (e ≤ d)); [|lia]. exfalso. apply Hnot. by eapply within_mono.
  - intros x m Hin. apply Hex. set_solver.
Qed.

(** The front of the queue belongs to the current level or starts the next one. *)
Lemma bfs_front d don q1 q2 c q :
  bfs_inv d don q1 q2 → q1 ++ q2 = c :: q →
  ∃ e p1 p2, q = p1 ++ p2 ∧ bfs_inv e don (c :: p1) p2.
Proof.
  intros Hinv E. destruct q1 as [|x q1].
  - cbn in E. subst q2. exists (Datatypes.S d), q, []. rewrite app_nil_r. split; [done|by apply bfs_next_level].
  - injection E as -> <-. by exists d, q1, q2.
Qed.

(** The roots, once each, are the first level. *)
Lemma bfs_roots new :
  NoDup new → (∀ x, x ∈ new ↔ x ∈ roots) → bfs_inv 0 [] new [].
Proof.
  intros Hnd Hnew. split; cbn [app]; rewrite ?app_nil_r;
    [done| |by intros x ?%elem_of_nil|by intros x y ?%elem_of_nil| |lia].
  - intros x. by rewrite Hnew.
  - intros l1 u l2 v l3 E d _. apply (within_mono 0); [lia|]. cbn. apply Hnew. rewrite E. set_solver.
Qed.

(** When the queue is empty everything that can be reached was handled. *)
Lemma bfs_end d don v : bfs_inv d don [] [] → v ∈ don ↔ reached successors roots v.
Proof.
  intros [_ Hl _ Hd _ _]. rewrite !app_nil_r in *. split.
  - intros Hv%Hl. apply within_reached. eauto.
  - apply (closed_set_reached successors (λ y, y ∈ don)); [|intros x y; apply Hd].
    intros r Hr. apply Hl, (within_mono 0); [lia|done].
Qed.

Lemma bfs_inv_length d don q1 q2 :
  bfs_inv d don q1 q2 → length (don ++ q1 ++ q2) ≤ length universe.
Proof using Hclosed Hroots.
  intros [Hn Hl Hx _ _ _]. apply submseteq_length, NoDup_submseteq; [done|].
  intros x. rewrite app_assoc, elem_of_app. intros [Hin|Hin].
  - apply (within_universe d). by apply Hl.
  - apply (within_universe (Datatypes.S d)). by apply Hx.
Qed.

Lemma bfs_loop_spec fuel d don q1 q2 s :
  bfs_inv d don q1 q2 → length universe ≤ length don + fuel →
  ∃ L, bfs_loop successors visit fuel (list_to_set (don ++ q1 ++ q2)) (q1 ++ q2) s =
         Ok (foldl visit s L) ∧ ∃ d', bfs_inv d' (don ++ L) [] [].
Proof using All.
  revert d don q1 q2 s. induction fuel as [|fuel IH]; intros d don q1 q2 s Hinv Hfuel.
  all: pose proof (bfs_inv_length _ _ _ _ Hinv) as Hlen.
  - rewrite length_app in Hlen. destruct (q1 ++ q2) as [|x q] eqn:Eq; [|cbn in Hlen; lia].
    apply app_eq_nil in Eq as [-> ->]. exists []. split; [done|]. exists d. by rewrite app_nil_r.
  - destruct (q1 ++ q2) as [|c q] eqn:Eq.
    { apply app_eq_nil in Eq as [-> ->]. exists []. split; [done|]. exists d. by rewrite app_nil_r. }
    destruct (bfs_front _ _ _ _ _ _ Hinv Eq) as (e & p1 & p2 & -> & Hinv').
    clear Hinv Eq q1 q2 d.
    cbn [bfs_loop].
    assert (c ∈ universe) as Hcu.
    { apply (within_universe e), (bf_level _ _ _ _ Hinv'). set_solver. }
    destruct (Hclosed c Hcu) as (succs & Es & _). rewrite Es. cbn [mbind outcome_bind].
    destruct (bfs_push_spec (list_to_set (don ++ c :: p1 ++ p2)) (p1 ++ p2) succs)
      as (new & -> & Hnew & H1 & H2).
    setoid_rewrite elem_of_list_to_set in H1. setoid_rewrite elem_of_list_to_set in H2.
    pose proof (bfs_step_inv _ _ _ _ _ _ _ Hinv' Es Hnew H1 H2) as Hstep.
    destruct (IH e (don ++ [c]) p1 (p2 ++ new) (visit s c) Hstep) as (L & EL & HL).
    { rewrite length_app. cbn. lia. }
    exists (c :: L). split; [|by rewrite <- app_assoc in HL].
    cbn [foldl]. rewrite <- app_assoc, <- EL, (app_assoc p1). f_equal.
    rewrite !list_to_set_app_L. cbn [list_to_set]. set_solver.
Qed.

Lemma bfs_spec fuel s :
  length universe ≤ fuel →
  ∃ L, bfs_preorder successors visit fuel roots s = Ok (foldl visit s L) ∧
       NoDup L ∧ (∀ v, v ∈ L ↔ reached successors roots v) ∧ by_distance L.
Proof using All.
  intros Hfuel. unfold bfs_preorder.
  destruct (bfs_push_spec ∅ [] roots) as (new & -> & Hnew & H1 & H2).
  assert (bfs_inv 0 [] new []) as Hinv.
  { apply bfs_roots; [done|]. intros x. split; [intros Hx; by apply H1|intros Hx; destruct (H2 x Hx); set_solver]. }
  destruct (bfs_loop_spec fuel 0 [] new [] s Hinv Hfuel) as (L & EL & d & HL).
  exists L. cbn [app] in *. rewrite app_nil_r in EL. split_and!.
  - rewrite <- EL. f_equal. set_solver.
  - pose proof (bf_nodup _ _ _ _ HL) as Hn. by rewrite app_nil_r in Hn.
  - intros v. by eapply bfs_end.
  - pose proof (bf_sorted _ _ _ _ HL) as Hs. by rewrite app_nil_r in Hs.
Qed.
End BreadthSpec.

(** * The contracts *)

(** For every kind of visited set, given the fuel of one
    step per root, node and edge, the depth-first traversal ends without a panic.  It visits, up
    to the first error of the visitor and with that error as its result, each node that can be
    reached from the roots exactly once, and a node after all its successors unless a successor
    leads back to it. *)
Theorem dfs_postorder_correct {A S E V : Type} `{EqDecision A} `{VisitedNodesLaws A V}
    (successors : A → outcome (list A)) (visit : S → A → S * option E)
    (universe roots : list A) (fuel : nat) (s : S) :
  NoDup universe → closed_under successors universe → (∀ r, r ∈ roots → r ∈ universe) →
  search_fuel successors universe roots ≤ fuel →
  ∃ L, dfs_postorder_impl successors V visit fuel roots s = Ok (run_visits visit s L) ∧
       NoDup L ∧ (∀ v, v ∈ L ↔ reached successors roots v) ∧
       ∀ before v after, L = before ++ v :: after → ∀ w, succ_edge successors v w →
         w ∈ before ∨ rtc (succ_edge successors) w v.
Proof.
  intros Hnd Hclosed Hroots Hfuel.
  destruct (postorder_spec (V := V) successors visit universe roots Hnd Hclosed Hroots fuel s Hfuel)
    as (L & E1 & Hn & Hr & Ho).
  exists L. split_and!; [done..|]. intros before v after EL w Hw.
  destruct (Ho before v after EL w Hw) as [?|[? _]]; auto.
Qed.

Definition diamond (n : nat) : outcome (list nat) :=
  match n with 0 => Ok [1; 2] | 1 => Ok [3] | 2 => Ok [3; 0] | 3 => Ok [] | _ => Panic end.

Lemma diamond_closed : closed_under diamond [0; 1; 2; 3].
Proof.
  intros u Hu. repeat (apply elem_of_cons in Hu as [->|Hu]; [eexists; split; [reflexivity|set_solver]|]).
  by apply elem_of_nil in Hu.
Qed.

Lemma dfs_postorder_correct_witness :
  ∃ L, dfs_postorder_impl diamond VecAsSet (λ s n, (s ++ [n], @None unit)) 10 [0] [] =
         Ok (run_visits (λ s n, (s ++ [n], @None unit)) [] L) ∧
       NoDup L ∧ (∀ v, v ∈ L ↔ reached diamond [0] v) ∧
       ∀ before v after, L = before ++ v :: after → ∀ w, succ_edge diamond v w →
         w ∈ before ∨ rtc (succ_edge diamond) w v.
Proof.
  apply (dfs_postorder_correct (V := VecAsSet) diamond _ [0; 1; 2; 3] [0] 10 []).
  - by apply (bool_decide_unpack _); vm_compute.
  - exact diamond_closed.
  - set_solver.
  - by vm_compute.
Defined.

(** The stack-based preorder traversal is the recursive one:
    it ends without a panic and visits exactly the list that the recursive depth-first search
    from the roots appends, which is unique, has no repetition, and holds the nodes that can be
    reached. *)
Theorem dfs_preorder_correct {S : Type} (successors : nat → outcome (list nat))
    (visit : S → nat → S) (universe roots : list nat) (fuel : nat) (s : S) :
  NoDup universe → closed_under successors universe → (∀ r, r ∈ roots → r ∈ universe) →
  1 + unseen (λ v, Datatypes.S (degree successors v)) universe [] ≤ fuel →
  ∃ L, dfs_preorder successors visit fuel roots s = Ok (foldl visit s L) ∧
       dfs_rel (children_of successors) [] roots L ∧
       (∀ L', dfs_rel (children_of successors) [] roots L' → L' = L) ∧
       NoDup L ∧ ∀ v, v ∈ L ↔ reached successors roots v.
Proof.
  intros Hnd Hclosed Hroots Hfuel.
  destruct (preorder_spec successors visit universe Hnd Hclosed fuel roots s Hroots Hfuel)
    as (L & E1 & Hrel).
  exists L. split_and!; [done..| | |].
  - intros L' HL'. by eapply dfs_rel_fun.
  - apply (dfs_rel_new _ _ _ _ Hrel). constructor.
  - intros v. rewrite (dfs_rel_reached _ _ _ _ Hrel). unfold reached.
    split; intros (r & Hr & Hrv); exists r; (split; [done|]);
      (eapply (rtc_congruence id); [|exact Hrv]); intros x y; by rewrite succ_edge_children.
Qed.

Lemma dfs_preorder_correct_witness :
  ∃ L, dfs_preorder diamond collect 10 [0] [] = Ok (foldl collect [] L) ∧
       dfs_rel (children_of diamond) [] [0] L ∧
       (∀ L', dfs_rel (children_of diamond) [] [0] L' → L' = L) ∧
       NoDup L ∧ ∀ v, v ∈ L ↔ reached diamond [0] v.
Proof.
  apply (dfs_preorder_correct diamond collect [0; 1; 2; 3] [0] 10 []).
  - by apply (bool_decide_unpack _); vm_compute.
  - exact diamond_closed.
  - set_solver.
  - by vm_compute; lia.
Defined.

(** With one unit of fuel per node the breadth-first traversal
    ends without a panic, visits each node that can be reached exactly once, and visits the
    nodes in the order of their distance from the roots. *)
Theorem bfs_preorder_correct {A S : Type} `{Countable A} (successors : A → outcome (list A))
    (visit : S → A → S) (universe roots : list A) (fuel : nat) (s : S) :
  closed_under successors universe → (∀ r, r ∈ roots → r ∈ universe) →
  length universe ≤ fuel →
  ∃ L, bfs_preorder successors visit fuel roots s = Ok (foldl visit s L) ∧
       NoDup L ∧ (∀ v, v ∈ L ↔ reached successors roots v) ∧
       ∀ l1 u l2 v l3, L = l1 ++ u :: l2 ++ v :: l3 →
         ∀ d, within successors roots d v → within successors roots d u.
Proof. intros Hclosed Hroots Hfuel. by apply bfs_spec with universe. Qed.

Lemma bfs_preorder_correct_witness :
  ∃ L, bfs_preorder diamond collect 4 [0] [] = Ok (foldl collect [] L) ∧
       NoDup L ∧ (∀ v, v ∈ L ↔ reached diamond [0] v) ∧
       ∀ l1 u l2 v l3, L = l1 ++ u :: l2 ++ v :: l3 →
         ∀ d, within diamond [0] d v → within diamond [0] d u.
Proof.
  apply (bfs_preorder_correct diamond collect [0; 1; 2; 3] [0] 4 []).
  - exact diamond_closed.
  - set_solver.
  - done.
Defined.
