(* ===== verification/QueryGraph.v ===== *)
(** The resolved graph of the query engine, from [src/app/bz_query/src/query/graph/graph.rs]: the
    builder, the asynchronous construction, the two layouts, reversal and the depth limit.

    The lookup of a node and the visitor of its children are parameters ([NodeLookup] and
    [AsyncChildVisitor] of the source); both are functions of the key and the node.  The visitor
    calls the callback on a list of keys and then succeeds or fails; the callback itself never
    fails.  [FuturesUnordered] yields the pending lookups in any order: a schedule picks the next
    one, and every theorem holds for all schedules.  [u32] indices are numbers with the checked
    conversions of the source.  An error carries its contexts, the outermost first. *)
From S2P Require Import Prelude.
From S2P Require Import QueryTraversal.
Local Open Scope dice_scope.

(** [n.try_into().unwrap()] from [usize] to [u32]. *)
Definition u32_of_usize (n : nat) : outcome nat := N.to_nat <$> expect (u32_try_from n).

(** [n as u32] *)
Definition as_u32 (n : nat) : nat := N.to_nat (N.of_nat n mod 2 ^ 32).

Definition is_ok {A} (m : outcome A) : bool := match m with Ok _ => true | Panic => false end.

(** * The data *)

Record GraphNode (T : Type) := {
  gn_node : T;
  gn_children : list nat;
}.
Arguments Build_GraphNode {_} _ _.
Arguments gn_node {_} _.
Arguments gn_children {_} _.

Record Graph (K T : Type) `{Countable K} := {
  nodes : list (GraphNode T);
  node_to_index : gmap K nat;
}.
Arguments Build_Graph {_ _ _ _} _ _.
Arguments nodes {_ _ _ _} _.
Arguments node_to_index {_ _ _ _} _.

Record GraphBuilder (K T : Type) `{Countable K} := {
  gb_node_to_index : gmap K nat;
  gb_nodes : VecAsMap (GraphNode T);
}.
Arguments Build_GraphBuilder {_ _ _ _} _ _.
Arguments gb_node_to_index {_ _ _ _} _.
Arguments gb_nodes {_ _ _ _} _.

(** The contexts that the construction adds to an error. *)
Inductive Context (K : Type) :=
| ErrorTraversingChildrenOf (node_key : K)
| NodeHasNotNodeAssigned (parent_index : nat).
Arguments ErrorTraversingChildrenOf {_} _.
Arguments NodeHasNotNodeAssigned {_} _.

(** [VecAsMap::get_mut(index).unwrap()] followed by an update in place. *)
Definition VecAsMap_update {T} (self : VecAsMap T) (index : nat) (f : T → T) : outcome (VecAsMap T) :=
  t ← expect (VecAsMap_get self index); Ok (<[index := Some (f t)]> self).

Section Operations.
Context {K T : Type} `{Countable K}.
Implicit Types (self graph : Graph K T) (builder : GraphBuilder K T).

Definition Graph_get self (node : K) : outcome (option T) :=
  match node_to_index self !! node with
  | None => Ok None
  | Some index => n ← expect (nodes self !! index); Ok (Some (gn_node n))
  end.

(** ** [GraphBuilder] *)

Definition GraphBuilder_build builder : outcome (Graph K T) :=
  assert! bool_decide (length (gb_nodes builder) = size (gb_node_to_index builder)) ;;
  nodes ← expect (mapM id (gb_nodes builder));
  Ok (Build_Graph nodes (gb_node_to_index builder)).

Definition GraphBuilder_get_or_create_node builder (node : K) : outcome (nat * GraphBuilder K T) :=
  match gb_node_to_index builder !! node with
  | Some index => Ok (index, builder)
  | None =>
      new_index ← u32_of_usize (size (gb_node_to_index builder));
      Ok (new_index, Build_GraphBuilder (<[node := new_index]> (gb_node_to_index builder))
                                        (gb_nodes builder))
  end.

Definition GraphBuilder_insert builder (index : nat) (node : T) : outcome (GraphBuilder K T) :=
  let '(prev, nodes) := VecAsMap_insert (gb_nodes builder) index (Build_GraphNode node []) in
  assert! bool_decide (prev = None) ;;
  Ok (Build_GraphBuilder (gb_node_to_index builder) nodes).

(** ** Traversing the graph *)

(** [GraphSuccessorsImpl::for_each_successor] *)
Definition GraphSuccessorsImpl self (node : nat) : outcome (list nat) :=
  n ← expect (nodes self !! node); Ok (gn_children n).

Definition Graph_dfs_preorder_indices {S} (fuel : nat) self (roots : list nat) (visitor : S → nat → S)
    (s : S) : outcome S :=
  dfs_preorder (GraphSuccessorsImpl self) visitor fuel roots s.

(** [root.into_iter().map(|root| self.node_to_index[&root])] *)
Definition root_indices self (roots : list K) : outcome (list nat) :=
  expect (mapM (λ root, node_to_index self !! root) roots).

(** The visitor of [depth_first_postorder_traversal]; the outer state records a panic of its
    indexing. *)
Definition visit_node {S E} self (visitor : S → T → S * option E) (s : outcome S) (index : nat) :
    outcome S * option E :=
  match s, nodes self !! index with
  | Ok s, Some n => let '(s, r) := visitor s (gn_node n) in (Ok s, r)
  | _, _ => (Panic, None)
  end.

Definition Graph_depth_first_postorder_traversal {S E} (fuel : nat) self (root : list K)
    (visitor : S → T → S * option E) (s : S) : outcome (S * option E) :=
  roots ← root_indices self root;
  '(s, r) ← dfs_postorder_impl (GraphSuccessorsImpl self) VecAsSet (visit_node self visitor) fuel
              roots (Ok s);
  s ← s; Ok (s, r).

(** ** Changing the layout *)

(** [children.retain_mut(..)] *)
Fixpoint retain_children (remap : nat → outcome (option nat)) (children : list nat) :
    outcome (list nat) :=
  match children with
  | [] => Ok []
  | node :: children =>
      new_node ← remap node;
      rest ← retain_children remap children;
      Ok (match new_node with Some new_node => new_node :: rest | None => rest end)
  end.

(** [node_to_index.retain(..)]: the map with the indices that are kept, renumbered. *)
Definition retain_index (remap : nat → outcome (option nat)) (node_to_index : gmap K nat) :
    outcome (gmap K nat) :=
  assert! bool_decide (map_Forall (λ _ index, is_ok (remap index) = true) node_to_index) ;;
  Ok (omap (λ index, match remap index with Ok i => i | Panic => None end) node_to_index).

(** One round of the loop over the nodes of [index_remap_opt]. *)
Definition remap_node (remap : nat → outcome (option nat)) (count : nat)
    (new_nodes : VecAsMap (GraphNode T)) (entry : nat * GraphNode T) :
    outcome (VecAsMap (GraphNode T)) :=
  let '(i, node) := entry in
  old_id ← u32_of_usize i;
  new_id ← remap old_id;
  match new_id with
  | None => Ok new_nodes
  | Some new_id =>
      assert! new_id <? count ;;
      children ← retain_children remap (gn_children node);
      let '(prev, new_nodes) := VecAsMap_insert new_nodes new_id (Build_GraphNode (gn_node node) children) in
      assert! bool_decide (prev = None) ;;
      Ok new_nodes
  end.

Definition Graph_index_remap_opt self (remap : nat → outcome (option nat)) (count : nat) :
    outcome (Graph K T) :=
  new_nodes ← for_each (remap_node remap count) [] (imap pair (nodes self));
  node_to_index ← retain_index remap (node_to_index self);
  new_nodes ← expect (mapM id new_nodes);
  Ok (Build_Graph new_nodes node_to_index).

Definition Graph_index_remap self (remap : nat → outcome nat) : outcome (Graph K T) :=
  node_count ← u32_of_usize (length (nodes self));
  Graph_index_remap_opt self (λ i, Some <$> remap i) node_count.

(** [new_edges[child].push(node)] *)
Definition reverse_edge (node : nat) (new_edges : list (list nat)) (child : nat) :
    outcome (list (list nat)) :=
  edges ← expect (new_edges !! child); Ok (<[child := edges ++ [node]]> new_edges).

Definition Graph_reverse self : outcome (Graph K T) :=
  new_edges ← for_each (λ new_edges '(i, node), for_each (reverse_edge (as_u32 i)) new_edges (gn_children node))
                (replicate (length (nodes self)) []) (imap pair (nodes self));
  Ok (Build_Graph (zip_with (λ node new_edges, Build_GraphNode (gn_node node) new_edges)
                            (nodes self) new_edges) (node_to_index self)).

(** ** [take_max_depth] *)

Record DepthState := {
  ds_visited : VecAsMap nat;
  ids_to_keep : list nat;
  ds_edge : list nat;
}.

(** Number a node that has not been seen and put it on the frontier. *)
Definition keep_node (st : DepthState) (succ : nat) : outcome DepthState :=
  if VecAsMap_contains_key (ds_visited st) succ then Ok st else
  new_index ← u32_of_usize (length (ids_to_keep st));
  let '(prev, visited) := VecAsMap_insert (ds_visited st) succ new_index in
  assert! bool_decide (prev = None) ;;
  Ok {| ds_visited := visited; ids_to_keep := ids_to_keep st ++ [succ]; ds_edge := ds_edge st ++ [succ] |}.

(** [for _ in 0..edge.len()]: expand the nodes of the frontier. *)
Fixpoint expand_edge self (n : nat) (st : DepthState) : outcome DepthState :=
  match n with
  | 0 => Ok st
  | S n =>
      '(node, edge) ← expect (match ds_edge st with [] => None | x :: l => Some (x, l) end);
      succs ← GraphSuccessorsImpl self node;
      st ← for_each keep_node {| ds_visited := ds_visited st; ids_to_keep := ids_to_keep st; ds_edge := edge |} succs;
      expand_edge self n st
  end.

(** [for _ in 0..max_depth] *)
Fixpoint expand_levels self (max_depth : nat) (st : DepthState) : outcome DepthState :=
  match max_depth with
  | 0 => Ok st
  | S max_depth =>
      st ← expand_edge self (length (ds_edge st)) st;
      expand_levels self max_depth st
  end.

Definition Graph_take_max_depth self (roots : list K) (max_depth : nat) : outcome (Graph K T) :=
  st ← for_each (λ st root, root ← expect (node_to_index self !! root); keep_node st root)
         {| ds_visited := []; ids_to_keep := []; ds_edge := [] |} roots;
  st ← expand_levels self max_depth st;
  if bool_decide (length (nodes self) = length (ids_to_keep st)) then Ok self else
  count ← u32_of_usize (length (ids_to_keep st));
  Graph_index_remap_opt self (λ i, Ok (VecAsMap_get (ds_visited st) i)) count.
End Operations.

(** ** Building the graph *)

Section Build.
Context {K T E : Type} `{Countable K}.
Context (node_key : T → K) (lookup : K → E + T) (for_each_child : T → list K * option E).

Record BuildState := {
  bs_graph : GraphBuilder K T;
  bs_visited : VecAsMap (option nat);
  bs_queue : list (nat * K);
}.

(** The closure [push]: start the lookup of a node unless it was started before. *)
Definition build_push (st : BuildState) (target_ref : K) (target_index : nat) (parent : option nat) :
    BuildState :=
  if VecAsMap_contains_key (bs_visited st) target_index then st else
  {| bs_graph := bs_graph st;
     bs_visited := (VecAsMap_insert (bs_visited st) target_index parent).2;
     bs_queue := bs_queue st ++ [(target_index, target_ref)] |}.

Definition push_root (st : BuildState) (target : K) : outcome BuildState :=
  '(index, graph) ← GraphBuilder_get_or_create_node (bs_graph st) target;
  Ok (build_push {| bs_graph := graph; bs_visited := bs_visited st; bs_queue := bs_queue st |}
                 target index None).

(** The callback of [for_each_child]. *)
Definition push_child (target_index : nat) (st : BuildState) (child : K) : outcome BuildState :=
  '(child_index, graph) ← GraphBuilder_get_or_create_node (bs_graph st) child;
  nodes ← VecAsMap_update (gb_nodes graph) target_index
            (λ n, Build_GraphNode (gn_node n) (gn_children n ++ [child_index]));
  Ok (build_push {| bs_graph := Build_GraphBuilder (gb_node_to_index graph) nodes;
                    bs_visited := bs_visited st; bs_queue := bs_queue st |}
                 child child_index (Some target_index)).

(** The [try] block: handle a finished lookup. *)
Definition build_node (st : BuildState) (target_index : nat) (node : E + T) :
    outcome (BuildState * option E) :=
  match node with
  | inl e => Ok (st, Some e)
  | inr node =>
      graph ← GraphBuilder_insert (bs_graph st) target_index node;
      let '(children, result) := for_each_child node in
      st ← for_each (push_child target_index)
             {| bs_graph := graph; bs_visited := bs_visited st; bs_queue := bs_queue st |} children;
      Ok (st, result)
  end.

(** The contexts added while walking from the failed node to a root.  The walk has at most as many
    steps as there are nodes. *)
Fixpoint add_contexts (fuel : nat) (st : BuildState) (target : nat) (e : list (Context K)) :
    outcome (list (Context K)) :=
  match VecAsMap_get (bs_visited st) target with
  | Some (Some parent_index) =>
      match fuel with
      | 0 => Panic
      | S fuel =>
          match VecAsMap_get (gb_nodes (bs_graph st)) parent_index with
          | None => Ok (NodeHasNotNodeAssigned parent_index :: e)
          | Some parent =>
              add_contexts fuel st parent_index
                (ErrorTraversingChildrenOf (node_key (gn_node parent)) :: e)
          end
      end
  | _ => Ok e
  end.

(** [while let Some((target_index, node)) = queue.next().await]: [sched] picks the lookup that
    finishes next. *)
Fixpoint build_loop (sched : nat → nat) (fuel : nat) (st : BuildState) :
    outcome ((E * list (Context K)) + BuildState) :=
  match bs_queue st with
  | [] => Ok (inr st)
  | _ :: _ =>
      match fuel with
      | 0 => Panic
      | S fuel =>
          let i := sched fuel mod length (bs_queue st) in
          '(target_index, target_ref) ← expect (bs_queue st !! i);
          '(st, result) ← build_node
             {| bs_graph := bs_graph st; bs_visited := bs_visited st;
                bs_queue := delete i (bs_queue st) |} target_index (lookup target_ref);
          match result with
          | Some e => ctx ← add_contexts (length (bs_visited st)) st target_index []; Ok (inl (e, ctx))
          | None => build_loop sched fuel st
          end
      end
  end.

Definition Graph_build (sched : nat → nat) (fuel : nat) (root : list K) :
    outcome ((E * list (Context K)) + Graph K T) :=
  st ← for_each push_root
         {| bs_graph := Build_GraphBuilder ∅ []; bs_visited := []; bs_queue := [] |} root;
  r ← build_loop sched fuel st;
  match r with
  | inl e => Ok (inl e)
  | inr st => g ← GraphBuilder_build (bs_graph st); Ok (inr g)
  end.

(** The visitor of [build_stable_dfs]; the outcome records its assertion. *)
Definition number_node (st : outcome (VecAsMap nat * nat)) (old_index : nat) :
    outcome (VecAsMap nat * nat) :=
  '(old_to_new, new_index) ← st;
  let '(prev, old_to_new) := VecAsMap_insert old_to_new old_index new_index in
  assert! bool_decide (prev = None) ;;
  Ok (old_to_new, as_u32 (new_index + 1)).

Definition Graph_build_stable_dfs (sched : nat → nat) (fuel dfs_fuel : nat) (root : list K) :
    outcome ((E * list (Context K)) + Graph K T) :=
  r ← Graph_build sched fuel root;
  match r with
  | inl e => Ok (inl e)
  | inr graph =>
      roots ← root_indices graph root;
      st ← Graph_dfs_preorder_indices dfs_fuel graph roots number_node (Ok ([], 0));
      '(old_to_new, new_index) ← st;
      assert! bool_decide (length (nodes graph) = new_index) ;;
      g ← Graph_index_remap graph (λ old_index, expect (VecAsMap_get old_to_new old_index));
      Ok (inr g)
  end.
End Build.

(** The graphs of the unit tests: the nodes are numbers and the edges a list of pairs. *)
Definition test_lookup (k : nat) : unit + nat := inr k.

Definition test_children (edges : list (nat * nat)) (node : nat) : list nat * option unit :=
  (snd <$> filter (λ e, e.1 = node) edges, None).

Definition build_graph (start : list nat) (edges : list (nat * nat)) : option (Graph nat nat) :=
  match Graph_build id test_lookup (test_children edges) (λ _, 0) 10 start with
  | Ok (inr g) => Some g
  | _ => None
  end.

Example test_build_then_dfs_postorder :
  (build_graph [10] [(10, 20); (10, 30)] ≫= λ g,
     match Graph_depth_first_postorder_traversal 20 g [10] (λ s n, (s ++ [n], @None unit)) [] with
     | Ok (visited, None) => Some visited | _ => None end)
  = Some [30; 20; 10].
Proof. by vm_compute. Qed.

Definition bfs (g : Graph nat nat) (start : list nat) : option (list nat) :=
  match root_indices g start with
  | Ok roots =>
      match bfs_preorder (GraphSuccessorsImpl g)
              (λ s i, match nodes g !! i with Some n => s ++ [gn_node n] | None => s end) 10 roots [] with
      | Ok visited => Some visited | Panic => None end
  | Panic => None
  end.

Example test_take_max_depth :
  (build_graph [10; 30] [(10, 20); (10, 30); (20, 30); (30, 40)] ≫= λ g,
     mapM (λ '(roots, depth), match Graph_take_max_depth g roots depth with
                              | Ok g => bfs g roots | Panic => None end)
       [([10], 0); ([10], 1); ([10], 2); ([10], 3); ([10], 4); ([10; 30], 0); ([10; 30], 1)])
  = Some [[10]; [10; 20; 30]; [10; 20; 30; 40]; [10; 20; 30; 40]; [10; 20; 30; 40]; [10; 30];
          [10; 30; 20; 40]].
Proof. by vm_compute. Qed.
