(* ===== verification/QueryLayout.v ===== *)
(** Renumbering, reversing, traversing and truncating the resolved graph of the query engine:
    the operations of [src/app/bz_query/src/query/graph/graph.rs] on a finished graph.

    A graph is specified by the list of its keys in the order of their indices, the node of each
    key and the keys of its children ([represents]).  Such a description determines the graph. *)
From S2P Require Import Prelude.
From S2P Require Import QueryTraversal.
From S2P Require Import QueryGraph.
Local Open Scope dice_scope.

(** * What a graph represents *)

Definition indexes {K} `{Countable K} (m : gmap K nat) (L : list K) : Prop :=
  ∀ k i, m !! k = Some i ↔ L !! i = Some k.

Definition child_keys {K} (L : list K) : list nat → list K → Prop :=
  Forall2 (λ i c, L !! i = Some c).

Record represents {K T} `{Countable K} (g : Graph K T) (L : list K) (node_of : K → option T)
    (children : K → list K) : Prop := {
  rp_index : indexes (node_to_index g) L;
  rp_nodes : Forall2 (λ n k, node_of k = Some (gn_node n) ∧ child_keys L (gn_children n) (children k))
               (nodes g) L;
}.

Section Represents.
Context {K T : Type} `{Countable K}.
Implicit Types (m : gmap K nat) (L : list K) (g : Graph K T).

Lemma indexes_inj m L i j k : indexes m L → L !! i = Some k → L !! j = Some k → i = j.
Proof. intros Hm Hi%Hm Hj%Hm. congruence. Qed.

Lemma indexes_NoDup m L : indexes m L → NoDup L.
Proof. intros Hm. apply NoDup_alt. intros i j k. by apply (indexes_inj m). Qed.

Lemma indexes_nil : indexes (∅ : gmap K nat) [].
Proof. intros k i. by rewrite lookup_empty. Qed.

Lemma indexes_snoc m L k : indexes m L → k ∉ L → indexes (<[k := length L]> m) (L ++ [k]).
Proof.
  intros Hm Hk k' i. rewrite lookup_insert_Some, lookup_app_Some, list_lookup_singleton_Some, (Hm k' i).
  split.
  - intros [[-> <-]|[_ ?]]; [right|auto]. split; [done|]. split; [lia|done].
  - intros [Hi|(? & ? & ->)]; [|left; split; [done|lia]]. right. split; [|done].
    intros ->. apply Hk. by eapply list_elem_of_lookup_2.
Qed.

Lemma indexes_size m L : indexes m L → size m = length L.
Proof.
  intros Hm. rewrite <- size_dom, <- (size_list_to_set (C := gset K) L) by (by eapply indexes_NoDup).
  f_equal. apply leibniz_equiv. intros k. rewrite elem_of_dom, elem_of_list_to_set, list_elem_of_lookup.
  unfold is_Some. by setoid_rewrite (Hm k).
Qed.

Lemma child_keys_elem L ixs cs c : child_keys L ixs cs → c ∈ cs → c ∈ L.
Proof.
  intros Hc Hin. apply list_elem_of_lookup in Hin as [j Hj].
  destruct (Forall2_lookup_r _ _ _ _ _ Hc Hj) as (i & _ & Hi). by apply list_elem_of_lookup_2 in Hi.
Qed.

Lemma represents_lookup g L node_of children i k :
  represents g L node_of children → L !! i = Some k →
  ∃ n, nodes g !! i = Some n ∧ node_of k = Some (gn_node n) ∧
       child_keys L (gn_children n) (children k).
Proof. intros [_ Hn] Hi. destruct (Forall2_lookup_r _ _ _ _ _ Hn Hi) as (n & ? & ? & ?). eauto. Qed.

Lemma represents_length g L node_of children :
  represents g L node_of children → length (nodes g) = length L.
Proof. intros [_ Hn]. by apply Forall2_length in Hn. Qed.

Lemma represents_ext g L node_of children children' :
  (∀ k, k ∈ L → children' k = children k) →
  represents g L node_of children → represents g L node_of children'.
Proof.
  intros Hc [Hm Hn]. split; [done|]. apply Forall2_same_length_lookup_2; [by eapply Forall2_length|].
  intros i n k Hi Hk. rewrite Hc by (by eapply list_elem_of_lookup_2).
  by apply (Forall2_lookup_lr _ _ _ _ _ _ Hn Hi Hk).
Qed.

(** The description determines the graph. *)
Lemma represents_fun g1 g2 L node_of children :
  represents g1 L node_of children → represents g2 L node_of children → g1 = g2.
Proof.
  intros [Hi1 Hn1] [Hi2 Hn2]. destruct g1 as [n1 m1], g2 as [n2 m2]; cbn in *. f_equal.
  - apply list_eq. intros i. destruct (L !! i) as [k|] eqn:EL.
    + destruct (Forall2_lookup_r _ _ _ _ _ Hn1 EL) as ([x1 c1] & -> & E1 & C1).
      destruct (Forall2_lookup_r _ _ _ _ _ Hn2 EL) as ([x2 c2] & -> & E2 & C2). cbn in *.
      do 2 f_equal; [congruence|]. revert c2 C2. induction C1 as [|a c c1 cs Ha _ IH];
        intros c2 C2; inversion C2; subst; [done|]. f_equal; [by eapply (indexes_inj m1)|auto].
    + apply lookup_ge_None in EL. rewrite !lookup_ge_None_2; [done|..].
      * by rewrite (Forall2_length _ _ _ Hn2).
      * by rewrite (Forall2_length _ _ _ Hn1).
  - apply map_eq. intros k. apply option_eq. intros i. by rewrite (Hi1 k), (Hi2 k).
Qed.

Lemma represents_closed g L node_of children k c :
  represents g L node_of children → k ∈ L → c ∈ children k → c ∈ L.
Proof.
  intros Hg [i Hi]%list_elem_of_lookup Hc.
  destruct (represents_lookup _ _ _ _ _ _ Hg Hi) as (n & _ & _ & Hn). by eapply child_keys_elem.
Qed.

Lemma root_indices_spec g L node_of children roots :
  represents g L node_of children → (∀ r, r ∈ roots → r ∈ L) →
  ∃ ixs, root_indices g roots = Ok ixs ∧ child_keys L ixs roots.
Proof.
  intros [Hm _] Hr. unfold root_indices.
  assert (∃ ixs, mapM (λ r, node_to_index g !! r) roots = Some ixs ∧ child_keys L ixs roots)
    as (ixs & -> & ?); [|by exists ixs].
  induction roots as [|r roots IH]; cbn; [by exists []; repeat constructor|].
  destruct IH as (ixs & -> & His); [set_solver|].
  assert (r ∈ L) as [i Hi]%list_elem_of_lookup by set_solver.
  rewrite (proj2 (Hm r i)) by done. cbn. exists (i :: ixs). split; [done|by constructor].
Qed.

Lemma GraphSuccessorsImpl_spec g L node_of children i k :
  represents g L node_of children → L !! i = Some k →
  ∃ ixs, GraphSuccessorsImpl g i = Ok ixs ∧ child_keys L ixs (children k).
Proof.
  intros Hg Hi. destruct (represents_lookup _ _ _ _ _ _ Hg Hi) as (n & En & _ & Hc).
  unfold GraphSuccessorsImpl. rewrite En. cbn. eauto.
Qed.
End Represents.

(** A vector whose first [n] entries are present. *)
Lemma vec_full {T} (v : VecAsMap T) n :
  length v ≤ n → (∀ j, j < n → is_Some (VecAsMap_get v j)) →
  ∃ l, mapM id v = Some l ∧ length l = n ∧ ∀ j, l !! j = VecAsMap_get v j.
Proof.
  intros Hle Hfull.
  assert (length v = n) as Hlen.
  { destruct (decide (length v = n)) as [|Hne]; [done|]. destruct (Hfull (length v)) as [x Hx]; [lia|].
    unfold VecAsMap_get in Hx. by rewrite lookup_ge_None_2 in Hx. }
  clear Hle. revert n Hlen Hfull. induction v as [|o v IH]; intros n Hlen Hfull; cbn in Hlen; subst n.
  { by exists []. }
  destruct (IH (length v) eq_refl) as (l & El & Hl & Hg).
  { intros j Hj. apply (Hfull (S j)). lia. }
  destruct (Hfull 0 ltac:(lia)) as [x Hx]. cbn in Hx. destruct o as [y|]; [|done].
  exists (y :: l). cbn. rewrite El. cbn. split_and!; [done|by rewrite Hl|]. intros [|j]; [done|apply Hg].
Qed.

Lemma VecAsMap_length_insert {T} (m : VecAsMap T) i x :
  length (VecAsMap_insert m i x).2 = length m `max` S i.
Proof. cbn. rewrite length_insert. apply VecAsMap_length_resize. Qed.

Lemma u32_of_usize_Ok n : (N.of_nat n < 2 ^ 32)%N → u32_of_usize n = Ok n.
Proof.
  intros Hn. unfold u32_of_usize. rewrite u32_try_from_Some by lia. cbn. by rewrite Nat2N.id.
Qed.

Lemma as_u32_small n : (N.of_nat n < 2 ^ 32)%N → as_u32 n = n.
Proof. intros Hn. unfold as_u32. by rewrite N.mod_small, Nat2N.id. Qed.

Lemma filter_all {A} (P : A → Prop) `{∀ x, Decision (P x)} (l : list A) :
  (∀ x, x ∈ l → P x) → filter P l = l.
Proof.
  induction l as [|x l IH]; intros HP; [done|]. rewrite filter_cons, decide_True by set_solver.
  f_equal. apply IH. set_solver.
Qed.

Lemma imap_pair_split {A} (l : list A) don i x rest :
  imap pair l = don ++ (i, x) :: rest → i = length don ∧ l !! i = Some x.
Proof.
  intros E. assert (imap pair l !! length don = Some (i, x)) as Hx by (rewrite E; by apply list_lookup_middle).
  rewrite list_lookup_imap in Hx. destruct (l !! length don) eqn:El; [|done]. cbn in Hx.
  injection Hx as <- ->. done.
Qed.

(** * Renumbering *)

Section Remap.
Context {K T : Type} `{Countable K}.
Context (g : Graph K T) (L L' : list K) (node_of : K → option T) (children : K → list K).
Context (remap : nat → outcome (option nat)).
Context (Hg : represents g L node_of children) (Hnd : NoDup L') (Hsub : ∀ k, k ∈ L' → k ∈ L).
Context (Hsmall : (N.of_nat (length L) < 2 ^ 32)%N).

(** The new index of a key of [L'], and nothing for the other keys. *)
Context (Hremap : ∀ i k, L !! i = Some k →
  ∃ o, remap i = Ok o ∧ ∀ j, o = Some j ↔ L' !! j = Some k).

Definition kept (k : K) : list K := filter (.∈ L') (children k).

Lemma retain_children_spec ixs cs :
  child_keys L ixs cs →
  ∃ js, retain_children remap ixs = Ok js ∧ child_keys L' js (filter (.∈ L') cs).
Proof using Hremap.
  induction 1 as [|i c ixs cs Hi _ IH]; cbn [retain_children]; [by exists []; repeat constructor|].
  destruct (Hremap i c Hi) as (o & -> & Ho). destruct IH as (js & -> & Hjs). cbn [mbind outcome_bind].
  destruct o as [j|].
  - assert (L' !! j = Some c) as Hj by (by apply Ho). exists (j :: js). split; [done|].
    rewrite filter_cons, decide_True by (by eapply list_elem_of_lookup_2). by constructor.
  - exists js. split; [done|]. rewrite filter_cons, decide_False; [done|].
    intros [j Hj]%list_elem_of_lookup. by apply Ho in Hj.
Qed.

(** After the nodes [don], the new vector holds those of them that are kept. *)
Record remap_inv (don : list (nat * GraphNode T)) (v : VecAsMap (GraphNode T)) : Prop := {
  rm_length : length v ≤ length L';
  rm_sound : ∀ j n, VecAsMap_get v j = Some n → ∃ i k, i < length don ∧ L !! i = Some k ∧
    L' !! j = Some k ∧ node_of k = Some (gn_node n) ∧ child_keys L' (gn_children n) (kept k);
  rm_complete : ∀ i j k, i < length don → L !! i = Some k → L' !! j = Some k → is_Some (VecAsMap_get v j);
}.

Lemma remap_node_spec don i n rest v :
  imap pair (nodes g) = don ++ (i, n) :: rest → remap_inv don v →
  returns (remap_node remap (length L') v (i, n)) (remap_inv (don ++ [(i, n)])).
Proof using All.
  intros [-> Hn]%imap_pair_split [Hl Hs Hc].
  destruct (Forall2_lookup_l _ _ _ _ _ (rp_nodes _ _ _ _ Hg) Hn) as (k & Hk & Enode & Hch).
  assert (length don < length L) as Hlt by (by eapply lookup_lt_Some).
  cbn [remap_node]. rewrite u32_of_usize_Ok by lia. cbn [mbind outcome_bind].
  destruct (Hremap _ _ Hk) as (o & -> & Ho). cbn [mbind outcome_bind].
  assert (∀ i, i < length (don ++ [(length don, n)]) ↔ i < length don ∨ i = length don) as Hlen
    by (intros i; rewrite length_app; cbn; lia).
  destruct o as [j|].
  - assert (L' !! j = Some k) as Hj by (by apply Ho).
    assert (j < length L') as Hjl by (by eapply lookup_lt_Some).
    rewrite (proj2 (Nat.ltb_lt _ _) Hjl). cbn [rust_assert mbind outcome_bind].
    destruct (retain_children_spec _ _ Hch) as (js & -> & Hjs). cbn [mbind outcome_bind].
    pose proof (VecAsMap_insert_prev v j (Build_GraphNode (gn_node n) js)) as Eprev.
    pose proof (VecAsMap_get_insert v j (Build_GraphNode (gn_node n) js)) as Eget.
    pose proof (VecAsMap_length_insert v j (Build_GraphNode (gn_node n) js)) as Elen.
    destruct (VecAsMap_insert v j _) as [prev v']. cbn [fst snd] in *.
    rewrite bool_decide_eq_true_2; cbn [rust_assert mbind outcome_bind returns].
    + split; [lia| |].
      * intros j' n'. rewrite Eget. case_decide as Ej.
        -- intros [= <-]. subst j'. exists (length don), k. rewrite Hlen. cbn. split_and!; auto.
        -- intros (i & k' & ? & ?)%Hs. exists i, k'. rewrite Hlen. naive_solver.
      * intros i j' k'. rewrite Hlen, Eget. intros [Hi| ->] HL HL'; case_decide; [done|eauto|done|].
        rewrite Hk in HL. injection HL as <-. by destruct (NoDup_lookup L' j j' k Hnd Hj HL').
    + rewrite Eprev. destruct (VecAsMap_get v j) as [n'|] eqn:E; [|done].
      apply Hs in E as (i & k' & Hi & HL & HL' & _). rewrite Hj in HL'. injection HL' as <-.
      pose proof (indexes_inj _ _ _ _ _ (rp_index _ _ _ _ Hg) HL Hk). lia.
  - cbn [returns]. split; [done| |].
    + intros j n' (i & k' & ? & ?)%Hs. exists i, k'. rewrite Hlen. naive_solver.
    + intros i j k'. rewrite Hlen. intros [Hi| ->] HL HL'; [eauto|].
      rewrite Hk in HL. injection HL as <-. by apply Ho in HL'.
Qed.

Lemma retain_index_spec :
  ∃ m, retain_index remap (node_to_index g) = Ok m ∧ indexes m L'.
Proof using All.
  pose proof (rp_index _ _ _ _ Hg) as Hm. unfold retain_index. rewrite bool_decide_eq_true_2.
  - eexists. split; [done|]. intros k j. rewrite lookup_omap_Some. split.
    + intros (i & E & Hi%Hm). destruct (Hremap i k Hi) as (o & Eo & Ho). rewrite Eo in E. by apply Ho.
    + intros Hj. assert (k ∈ L) as [i Hi]%list_elem_of_lookup by (eapply Hsub, list_elem_of_lookup_2; done).
      exists i. split; [|by apply Hm]. destruct (Hremap i k Hi) as (o & -> & Ho). by apply Ho.
  - intros k i Hi%Hm. by destruct (Hremap i k Hi) as (o & -> & _).
Qed.

Lemma index_remap_opt_spec :
  ∃ g', Graph_index_remap_opt g remap (length L') = Ok g' ∧ represents g' L' node_of kept.
Proof using All.
  unfold Graph_index_remap_opt.
  assert (returns (for_each (remap_node remap (length L')) [] (imap pair (nodes g)))
            (remap_inv (imap pair (nodes g)))) as Hloop.
  { apply for_each_inv.
    - split; [cbn; lia|by intros j n ?|cbn; intros; lia].
    - intros don [i n] rest v E Hv. by eapply remap_node_spec. }
  apply returns_Ok in Hloop as (v & -> & [Hl Hs Hc]). cbn [mbind outcome_bind].
  destruct retain_index_spec as (m & -> & Hm). cbn [mbind outcome_bind].
  destruct (vec_full v (length L')) as (l & -> & Hlen & Hget); [done| |].
  { intros j [k Hk]%lookup_lt_is_Some.
    assert (k ∈ L) as [i Hi]%list_elem_of_lookup by (eapply Hsub, list_elem_of_lookup_2; done).
    eapply Hc; [|done..]. rewrite length_imap, (represents_length _ _ _ _ Hg). by eapply lookup_lt_Some. }
  cbn. eexists. split; [done|]. split; [done|]. cbn.
  apply Forall2_same_length_lookup_2; [done|]. intros j n k Hn Hk. rewrite Hget in Hn.
  destruct (Hs j n Hn) as (i & k' & _ & _ & Hk' & ? & ?). rewrite Hk in Hk'. by injection Hk' as <-.
Qed.
End Remap.

(** * Reversing the edges *)

Section Reverse.
Context {K T : Type} `{Countable K}.
Context (g : Graph K T) (L : list K) (node_of : K → option T) (children : K → list K).
Context (Hg : represents g L node_of children).
Context (Hsmall : (N.of_nat (length L) < 2 ^ 32)%N).

(** The parents of [k], once per edge, in the order of their indices. *)
Definition parents_in (ps : list K) (k : K) : list K :=
  ps ≫= λ p, (λ _, p) <$> filter (k =.) (children p).

(** The edges collected so far lead to the keys of [base]. *)
Definition edges_to (base : K → list K) (new_edges : list (list nat)) : Prop :=
  Forall2 (λ es k, child_keys L es (base k)) new_edges L.

Lemma reverse_edges_spec i p ixs cs base es :
  L !! i = Some p → child_keys L ixs cs → edges_to base es →
  returns (for_each (reverse_edge i) es ixs)
    (edges_to (λ k, base k ++ ((λ _, p) <$> filter (k =.) cs))).
Proof using Hg.
  intros Hp Hc. revert base es. induction Hc as [|j c ixs cs Hj _ IH]; intros base es Hes.
  { cbn. eapply Forall2_impl; [exact Hes|]. intros e k. by rewrite app_nil_r. }
  cbn [for_each]. destruct (Forall2_lookup_r _ _ _ _ _ Hes Hj) as (e & He & Hek).
  assert (reverse_edge i es j = Ok (<[j := e ++ [i]]> es)) as -> by (unfold reverse_edge; by rewrite He).
  cbn [mbind outcome_bind].
  eapply returns_mono; [apply (IH (λ k, base k ++ (if decide (k = c) then [p] else [])))|].
  - apply Forall2_same_length_lookup_2.
    { rewrite length_insert. by eapply Forall2_length. }
    intros j' e' k' Hj' Hk'. destruct (decide (j = j')) as [<-|Hne].
    + rewrite list_lookup_insert_eq in Hj' by (by eapply lookup_lt_Some). injection Hj' as <-.
      rewrite Hj in Hk'. injection Hk' as <-. rewrite decide_True by done.
      apply Forall2_app; [done|]. by repeat constructor.
    + rewrite list_lookup_insert_ne in Hj' by done.
      rewrite decide_False, app_nil_r.
      * by apply (Forall2_lookup_lr _ _ _ _ _ _ Hes Hj').
      * intros ->. apply Hne. by apply (indexes_inj _ _ _ _ _ (rp_index _ _ _ _ Hg) Hj).
  - intros es' Hes'. eapply Forall2_impl; [exact Hes'|]. intros e' k.
    rewrite filter_cons. case_decide; cbn [app]; by rewrite <- app_assoc.
Qed.

Lemma reverse_spec :
  ∃ g', Graph_reverse g = Ok g' ∧ represents g' L node_of (parents_in L).
Proof using All.
  unfold Graph_reverse. pose proof (represents_length _ _ _ _ Hg) as Hlen.
  match goal with |- context [for_each ?f ?s ?l] =>
    assert (returns (for_each f s l) (λ es, edges_to (parents_in (take (length l) L)) es)) as Hloop end.
  { apply (for_each_inv _ (λ don es, edges_to (parents_in (take (length don) L)) es)).
    - apply Forall2_same_length_lookup_2; [by rewrite length_replicate|].
      intros j e k [-> _]%lookup_replicate _. constructor.
    - intros don [i n] rest es [-> Hn]%imap_pair_split Hes.
      destruct (Forall2_lookup_l _ _ _ _ _ (rp_nodes _ _ _ _ Hg) Hn) as (p & Hp & _ & Hc).
      assert (length don < length L) as Hlt by (by eapply lookup_lt_Some).
      rewrite as_u32_small by lia.
      eapply returns_mono; [by eapply reverse_edges_spec|]. intros es' Hes'.
      rewrite length_app, Nat.add_1_r, (take_S_r _ _ p) by done.
      eapply Forall2_impl; [exact Hes'|]. intros e k. unfold parents_in.
      by rewrite bind_app, bind_singleton. }
  apply returns_Ok in Hloop as (es & -> & Hes). rewrite length_imap, Hlen, firstn_all in Hes.
  cbn [mbind outcome_bind]. eexists. split; [done|]. split; [by apply Hg|]. cbn.
  apply Forall2_same_length_lookup_2.
  { rewrite length_zip_with, Hlen, (Forall2_length _ _ _ Hes). lia. }
  intros i n k (m & e & -> & Hm & He)%lookup_zip_with_Some Hk. cbn.
  destruct (Forall2_lookup_lr _ _ _ _ _ _ (rp_nodes _ _ _ _ Hg) Hm Hk) as [? _]. split; [done|].
  by apply (Forall2_lookup_lr _ _ _ _ _ _ Hes He).
Qed.
End Reverse.

(** * Traversals in terms of keys *)

(** The edges between keys. *)
Definition key_succs {K} (children : K → list K) (k : K) : outcome (list K) := Ok (children k).

Lemma key_edge {K} (children : K → list K) k c :
  succ_edge (key_succs children) k c ↔ c ∈ children k.
Proof. unfold succ_edge, key_succs. naive_solver. Qed.

Section Keys.
Context {K T : Type} `{Countable K}.
Context (g : Graph K T) (L : list K) (node_of : K → option T) (children : K → list K).
Context (Hg : represents g L node_of children).

Lemma index_edge i j k :
  L !! i = Some k →
  succ_edge (GraphSuccessorsImpl g) i j ↔ ∃ c, L !! j = Some c ∧ c ∈ children k.
Proof using Hg.
  intros Hi. destruct (GraphSuccessorsImpl_spec _ _ _ _ _ _ Hg Hi) as (ixs & E & Hc).
  unfold succ_edge. rewrite E. split.
  - intros (l & [= <-] & [p Hp]%list_elem_of_lookup).
    destruct (Forall2_lookup_l _ _ _ _ _ Hc Hp) as (c & Hcp & Hj). exists c.
    split; [done|]. by eapply list_elem_of_lookup_2.
  - intros (c & Hj & [p Hp]%list_elem_of_lookup). exists ixs. split; [done|].
    destruct (Forall2_lookup_r _ _ _ _ _ Hc Hp) as (j' & Hj' & Hc').
    rewrite (indexes_inj _ _ _ _ _ (rp_index _ _ _ _ Hg) Hj Hc'). by eapply list_elem_of_lookup_2.
Qed.

Lemma index_closed : closed_under (GraphSuccessorsImpl g) (seq 0 (length L)).
Proof using Hg.
  intros i Hi%elem_of_seq. destruct (lookup_lt_is_Some_2 L i) as [k Hk]; [lia|].
  destruct (GraphSuccessorsImpl_spec _ _ _ _ _ _ Hg Hk) as (ixs & E & Hc). exists ixs. split; [done|].
  intros j [p Hp]%list_elem_of_lookup. destruct (Forall2_lookup_l _ _ _ _ _ Hc Hp) as (c & _ & Hj).
  apply elem_of_seq. apply lookup_lt_Some in Hj. lia.
Qed.

Lemma roots_in_range ixs roots r : child_keys L ixs roots → r ∈ ixs → r ∈ seq 0 (length L).
Proof.
  intros Hr [p Hp]%list_elem_of_lookup. destruct (Forall2_lookup_l _ _ _ _ _ Hr Hp) as (c & _ & Hj).
  apply elem_of_seq. apply lookup_lt_Some in Hj. lia.
Qed.

Lemma index_rtc i k : L !! i = Some k → ∀ j,
  rtc (succ_edge (GraphSuccessorsImpl g)) i j ↔
  ∃ c, L !! j = Some c ∧ rtc (succ_edge (key_succs children)) k c.
Proof using Hg.
  intros Hi j. split.
  - intros Hr. revert k Hi. induction Hr as [i|i m j Him _ IH]; intros k Hi; [by exists k|].
    apply (index_edge _ _ _ Hi) in Him as (c & Hm & Hc). destruct (IH c Hm) as (d & Hd & Hcd).
    exists d. split; [done|]. apply rtc_l with c; [by apply key_edge|done].
  - intros (c & Hj & Hr). revert i Hi. induction Hr as [k|k m c Hkm _ IH]; intros i Hi.
    + by rewrite (indexes_inj _ _ _ _ _ (rp_index _ _ _ _ Hg) Hi Hj).
    + apply key_edge in Hkm. assert (m ∈ L) as [p Hp]%list_elem_of_lookup.
      { eapply represents_closed; [done| |done]. by eapply list_elem_of_lookup_2. }
      apply rtc_l with p; [|by apply IH]. apply (index_edge _ _ _ Hi). eauto.
Qed.

Lemma index_reached ixs roots j :
  child_keys L ixs roots →
  reached (GraphSuccessorsImpl g) ixs j ↔
  ∃ c, L !! j = Some c ∧ reached (key_succs children) roots c.
Proof using Hg.
  intros Hr. unfold reached. split.
  - intros (i & [p Hp]%list_elem_of_lookup & Hij).
    destruct (Forall2_lookup_l _ _ _ _ _ Hr Hp) as (r & Hrp & Hi).
    destruct (proj1 (index_rtc _ _ Hi j) Hij) as (c & Hj & Hc). exists c. split; [done|]. exists r.
    split; [by eapply list_elem_of_lookup_2|done].
  - intros (c & Hj & r & [p Hp]%list_elem_of_lookup & Hrc).
    destruct (Forall2_lookup_r _ _ _ _ _ Hr Hp) as (i & Hip & Hi). exists i.
    split; [by eapply list_elem_of_lookup_2|]. apply (index_rtc _ _ Hi). eauto.
Qed.

(** The steps that a traversal needs: one per node and edge. *)
Definition graph_work : nat := sum_list_with (λ n, S (length (gn_children n))) (nodes g).

Lemma unseen_graph :
  unseen (λ v, S (degree (GraphSuccessorsImpl g) v)) (seq 0 (length L)) [] = graph_work.
Proof using Hg.
  unfold graph_work, unseen, degree, GraphSuccessorsImpl. rewrite <- (represents_length _ _ _ _ Hg).
  generalize (nodes g). intros l.
  rewrite (sum_list_with_ext _ (λ v, match l !! v with Some n => S (length (gn_children n)) | None => 1 end)).
  2: { intros v _. rewrite decide_False by set_solver. by destruct (l !! v). }
  induction l as [|n l IH]; [done|]. cbn [length seq sum_list_with]. f_equal.
  rewrite <- fmap_S_seq, <- IH. generalize (seq 0 (length l)). intros q.
  induction q as [|x q IHq]; cbn; [done|]. by rewrite IHq.
Qed.

(** ** Postorder *)

(** The visitor on the node of a key. *)
Definition visit_key {S E} (visitor : S → T → S * option E) (s : S) (k : K) : S * option E :=
  match node_of k with Some n => visitor s n | None => (s, None) end.

Lemma run_visits_keys {S E} (visitor : S → T → S * option E) ixs ks s :
  child_keys L ixs ks →
  run_visits (visit_node g visitor) (Ok s) ixs =
    (Ok (run_visits (visit_key visitor) s ks).1, (run_visits (visit_key visitor) s ks).2).
Proof using Hg.
  intros Hks. revert s. induction Hks as [|i k ixs ks Hi _ IH]; intros s; cbn [run_visits]; [done|].
  destruct (represents_lookup _ _ _ _ _ _ Hg Hi) as (n & En & Ek & _).
  unfold visit_node at 1, visit_key at 1 3. rewrite En, Ek.
  destruct (visitor s (gn_node n)) as [s' [e|]]; [done|]. by rewrite IH.
Qed.

Lemma keys_of_indices ixs :
  (∀ i, i ∈ ixs → i ∈ seq 0 (length L)) → ∃ ks, child_keys L ixs ks.
Proof.
  induction ixs as [|i ixs IH]; intros Hi; [by exists []; constructor|].
  destruct IH as [ks Hks]; [set_solver|]. assert (i ∈ seq 0 (length L)) as Hin%elem_of_seq by set_solver.
  destruct (lookup_lt_is_Some_2 L i) as [k Hk]; [lia|]. exists (k :: ks). by constructor.
Qed.

Lemma child_keys_NoDup ixs ks : child_keys L ixs ks → NoDup ixs ↔ NoDup ks.
Proof using Hg.
  intros Hks. rewrite !NoDup_alt. split.
  - intros Hn p q k Hp Hq. destruct (Forall2_lookup_r _ _ _ _ _ Hks Hp) as (i & Hip & Hi).
    destruct (Forall2_lookup_r _ _ _ _ _ Hks Hq) as (j & Hjq & Hj). apply (Hn p q i Hip).
    by rewrite (indexes_inj _ _ _ _ _ (rp_index _ _ _ _ Hg) Hi Hj).
  - intros Hn p q i Hp Hq. destruct (Forall2_lookup_l _ _ _ _ _ Hks Hp) as (k & Hkp & Hk).
    destruct (Forall2_lookup_l _ _ _ _ _ Hks Hq) as (k' & Hkq & Hk'). simplify_eq. eauto.
Qed.

Lemma child_keys_in ixs ks i k : child_keys L ixs ks → L !! i = Some k → i ∈ ixs ↔ k ∈ ks.
Proof using Hg.
  intros Hks Hi. split.
  - intros [p Hp]%list_elem_of_lookup. destruct (Forall2_lookup_l _ _ _ _ _ Hks Hp) as (k' & Hkp & Hk).
    simplify_eq. by eapply list_elem_of_lookup_2.
  - intros [p Hp]%list_elem_of_lookup. destruct (Forall2_lookup_r _ _ _ _ _ Hks Hp) as (j & Hjp & Hj).
    rewrite (indexes_inj _ _ _ _ _ (rp_index _ _ _ _ Hg) Hi Hj). by eapply list_elem_of_lookup_2.
Qed.

(** A depth-first search on indices is one on keys. *)
Lemma dfs_rel_keys vis todo vis' visK todoK :
  dfs_rel (children_of (GraphSuccessorsImpl g)) vis todo vis' →
  child_keys L vis visK → child_keys L todo todoK →
  ∃ visK', child_keys L vis' visK' ∧ dfs_rel children visK todoK visK'.
Proof using Hg.
  intros Hdfs. revert visK todoK.
  induction Hdfs as [vis|vis i todo vis' Hi _ IH|vis i todo vis1 vis2 Hi _ IH1 _ IH2]; intros visK todoK Hv Ht.
  - inversion Ht; subst. exists visK. split; [done|constructor].
  - apply Forall2_cons_inv_l in Ht as (k & todoK' & Hik & Ht & ->).
    destruct (IH _ _ Hv Ht) as (visK' & ? & ?). exists visK'. split; [done|].
    constructor; [by apply (child_keys_in vis visK i k)|done].
  - apply Forall2_cons_inv_l in Ht as (k & todoK' & Hik & Ht & ->).
    destruct (GraphSuccessorsImpl_spec _ _ _ _ _ _ Hg Hik) as (ixs & Es & Hc).
    destruct (IH1 (visK ++ [k]) (children k)) as (v1 & Hv1 & H1).
    + apply Forall2_app; [done|by repeat constructor].
    + unfold children_of. by rewrite Es.
    + destruct (IH2 _ _ Hv1 Ht) as (v2 & ? & ?). exists v2. split; [done|].
      apply dfs_visit with v1; [|done..]. intros Hk. apply Hi. by apply (child_keys_in vis visK i k).
Qed.

Lemma child_keys_sub ixs ks k : child_keys L ixs ks → k ∈ ks → ∃ i, L !! i = Some k ∧ i ∈ ixs.
Proof.
  intros Hks [p Hp]%list_elem_of_lookup. destruct (Forall2_lookup_r _ _ _ _ _ Hks Hp) as (i & Hip & Hi).
  exists i. split; [done|by eapply list_elem_of_lookup_2].
Qed.

Lemma postorder_keys_spec {S E} (visitor : S → T → S * option E) fuel roots s :
  (∀ r, r ∈ roots → r ∈ L) → length roots + graph_work ≤ fuel →
  ∃ ks, Graph_depth_first_postorder_traversal fuel g roots visitor s =
          Ok (run_visits (visit_key visitor) s ks) ∧
        NoDup ks ∧ (∀ k, k ∈ ks ↔ reached (key_succs children) roots k) ∧
        ∀ before k after, ks = before ++ k :: after → ∀ c, c ∈ children k →
          c ∈ before ∨ rtc (succ_edge (key_succs children)) c k.
Proof using Hg.
  intros Hroots Hfuel. unfold Graph_depth_first_postorder_traversal.
  destruct (root_indices_spec _ _ _ _ _ Hg Hroots) as (ixs & -> & Hixs). cbn [mbind outcome_bind].
  destruct (postorder_spec (V := list (option unit)) (GraphSuccessorsImpl g) (visit_node g visitor)
    (seq 0 (length L)) ixs (NoDup_seq _ _) index_closed) with (fuel := fuel) (s := Ok s)
    as (Li & E1 & Hn & Hr & Ho).
  { intros r. by eapply roots_in_range. }
  { unfold search_fuel. rewrite unseen_graph. by rewrite (Forall2_length _ _ _ Hixs). }
  rewrite E1. cbn [mbind outcome_bind].
  assert (∃ ks, child_keys L Li ks) as [ks Hks].
  { apply keys_of_indices. intros i (c & Hc & _)%Hr%(index_reached _ _ _ Hixs).
    apply elem_of_seq. apply lookup_lt_Some in Hc. lia. }
  exists ks. rewrite (run_visits_keys visitor Li ks s Hks). cbn. split_and!.
  - by rewrite <- surjective_pairing.
  - by apply (child_keys_NoDup Li).
  - intros k. split.
    + intros (i & Hi & Hin)%(child_keys_sub _ _ _ Hks).
      apply Hr in Hin. destruct (proj1 (index_reached _ _ i Hixs) Hin) as (c & Hc & ?). by simplify_eq.
    + intros Hk. assert (k ∈ L) as [i Hi]%list_elem_of_lookup.
      { revert Hk. apply (closed_set_reached _ (λ x, x ∈ L)); [done|]. intros x y Hx Hxy%key_edge.
        by eapply represents_closed. }
      apply (child_keys_in _ _ _ _ Hks Hi), Hr, (index_reached _ _ _ Hixs). eauto.
  - intros before k after -> c Hc. apply Forall2_app_inv_r in Hks as (b & l & Hb & Hl & ->).
    apply Forall2_cons_inv_r in Hl as (i & a & Hi & Ha & ->).
    assert (k ∈ L) as Hk by (by eapply list_elem_of_lookup_2).
    pose proof (represents_closed _ _ _ _ _ _ Hg Hk Hc) as [j Hj]%list_elem_of_lookup.
    destruct (Ho b i a eq_refl j) as [Hjb|[Hrtc _]].
    + apply (index_edge _ _ _ Hi). eauto.
    + left. by apply (child_keys_in _ _ _ _ Hb Hj).
    + right. destruct (proj1 (index_rtc _ _ Hj i) Hrtc) as (k' & Hk' & ?). by simplify_eq.
Qed.
End Keys.

(** * The depth limit *)

Section Depth.
Context {K T : Type} `{Countable K}.
Context (g : Graph K T) (L : list K) (node_of : K → option T) (children : K → list K).
Context (Hg : represents g L node_of children).
Context (Hsmall : (N.of_nat (length L) < 2 ^ 32)%N).

(** The nodes kept so far are those of the keys [ks], numbered in order; those of [fs] are on the
    frontier. *)
Record keep_inv (st : DepthState) (ks fs : list K) : Prop := {
  ki_keys : child_keys L (ids_to_keep st) ks;
  ki_edge : child_keys L (ds_edge st) fs;
  ki_visited : ∀ i j, VecAsMap_get (ds_visited st) i = Some j ↔ ids_to_keep st !! j = Some i;
  ki_nodup : NoDup ks;
}.

Lemma keep_inv_lookup st ks fs i k j :
  keep_inv st ks fs → L !! i = Some k →
  VecAsMap_get (ds_visited st) i = Some j ↔ ks !! j = Some k.
Proof using Hg.
  intros Hst Hi. rewrite (ki_visited _ _ _ Hst). split.
  - intros Hj. destruct (Forall2_lookup_l _ _ _ _ _ (ki_keys _ _ _ Hst) Hj) as (k' & Hk & Hi').
    by simplify_eq.
  - intros Hj. destruct (Forall2_lookup_r _ _ _ _ _ (ki_keys _ _ _ Hst) Hj) as (i' & Hi' & Hk).
    by rewrite (indexes_inj _ _ _ _ _ (rp_index _ _ _ _ Hg) Hi Hk).
Qed.

Lemma keep_inv_length st ks fs : keep_inv st ks fs → length (ids_to_keep st) = length ks ∧ length ks ≤ length L.
Proof.
  intros Hst. pose proof (ki_keys _ _ _ Hst) as Hk. split; [by eapply Forall2_length|].
  apply submseteq_length, NoDup_submseteq; [apply Hst|]. intros x Hx. by eapply child_keys_elem.
Qed.

Lemma keep_node_spec st ks fs i c :
  keep_inv st ks fs → L !! i = Some c →
  returns (keep_node st i) (λ st', (c ∈ ks ∧ st' = st) ∨ (c ∉ ks ∧ keep_inv st' (ks ++ [c]) (fs ++ [c]))).
Proof using Hg Hsmall.
  intros Hst Hi. unfold keep_node, VecAsMap_contains_key.
  pose proof (λ j, keep_inv_lookup _ _ _ _ _ j Hst Hi) as Hv.
  destruct (keep_inv_length _ _ _ Hst) as [Hlen Hle].
  destruct (VecAsMap_get (ds_visited st) i) as [j|] eqn:Eg.
  { rewrite bool_decide_eq_true_2 by eauto. left. split; [|done].
    eapply list_elem_of_lookup_2. by apply (Hv j). }
  rewrite bool_decide_eq_false_2 by (intros [? [=]]).
  assert (c ∉ ks) as Hc by (intros [j Hj]%list_elem_of_lookup; by apply Hv in Hj).
  rewrite u32_of_usize_Ok by lia. cbn [mbind outcome_bind].
  pose proof (VecAsMap_insert_prev (ds_visited st) i (length (ids_to_keep st))) as Eprev.
  pose proof (VecAsMap_get_insert (ds_visited st) i (length (ids_to_keep st))) as Eget.
  destruct (VecAsMap_insert _ _ _) as [prev v']. cbn [fst snd] in *. subst prev.
  rewrite Eg, bool_decide_eq_true_2 by done. cbn [rust_assert mbind outcome_bind returns].
  right. split; [done|]. split; cbn.
  - apply Forall2_app; [apply Hst|by repeat constructor].
  - apply Forall2_app; [apply Hst|by repeat constructor].
  - intros i' j. rewrite Eget, lookup_app. destruct (ids_to_keep st !! j) as [x|] eqn:Ej.
    + case_decide as Ei; [|by rewrite (ki_visited _ _ _ Hst), Ej]. subst i'.
      split; [intros [= <-]; by rewrite lookup_ge_None_2 in Ej|].
      intros [= ->]. apply (ki_visited _ _ _ Hst) in Ej. congruence.
    + case_decide as Ei.
      * subst i'. split; [intros [= <-]; by rewrite Nat.sub_diag|].
        intros E. apply lookup_lt_Some in E. cbn in E. apply lookup_ge_None in Ej. f_equal. lia.
      * rewrite (ki_visited _ _ _ Hst), Ej. split; [done|]. intros E.
        apply list_lookup_singleton_Some in E as [_ E]. congruence.
  - apply NoDup_app. split_and!; [apply Hst|set_solver|apply NoDup_singleton].
Qed.

Lemma keep_nodes_spec st ks fs ixs cs :
  keep_inv st ks fs → child_keys L ixs cs →
  returns (for_each keep_node st ixs) (λ st', ∃ new, keep_inv st' (ks ++ new) (fs ++ new) ∧
    (∀ c, c ∈ new → c ∈ cs) ∧ ∀ c, c ∈ cs → c ∈ ks ++ new).
Proof using Hg Hsmall.
  intros Hst Hc. revert st ks fs Hst. induction Hc as [|i c ixs cs Hi _ IH]; intros st ks fs Hst.
  { exists []. rewrite !app_nil_r. split_and!; [done|set_solver..]. }
  cbn [for_each]. eapply returns_bind; [by eapply keep_node_spec|].
  intros st' [[Hc ->]|[Hc Hst']].
  - eapply returns_mono; [by apply IH|]. intros st' (new & ? & ? & ?). exists new. set_solver.
  - eapply returns_mono; [by apply IH|]. intros st'' (new & Hst'' & ? & ?). exists (c :: new).
    rewrite <- !app_assoc in Hst''. split_and!; [done|set_solver..].
Qed.

Lemma expand_edge_spec n st ks f1 f2 :
  keep_inv st ks (f1 ++ f2) → length f1 = n →
  returns (expand_edge g n st) (λ st', ∃ new, keep_inv st' (ks ++ new) (f2 ++ new) ∧
    (∀ c, c ∈ new → ∃ p, p ∈ f1 ∧ c ∈ children p) ∧
    ∀ p c, p ∈ f1 → c ∈ children p → c ∈ ks ++ new).
Proof using Hg Hsmall.
  revert st ks f1 f2. induction n as [|n IH]; intros st ks f1 f2 Hst Hlen.
  { apply nil_length_inv in Hlen as ->. exists []. rewrite !app_nil_r. split_and!; [done|set_solver..]. }
  destruct f1 as [|p f1]; [done|]. cbn [expand_edge length] in *. injection Hlen as Hlen.
  pose proof (ki_edge _ _ _ Hst) as He. cbn [app] in He.
  apply Forall2_cons_inv_r in He as (i & edge & Hi & He & Ee). rewrite Ee. cbn [expect mbind outcome_bind].
  destruct (GraphSuccessorsImpl_spec _ _ _ _ _ _ Hg Hi) as (ixs & -> & Hc). cbn [mbind outcome_bind].
  eapply returns_bind; [eapply (keep_nodes_spec _ ks (f1 ++ f2)); [|exact Hc]; by destruct Hst|].
  intros st' (new1 & Hst' & H1 & H2). cbn beta. rewrite <- app_assoc in Hst'.
  eapply returns_mono; [by apply IH|]. intros st'' (new2 & Hst'' & H3 & H4).
  exists (new1 ++ new2). rewrite <- !app_assoc in *. split_and!; [done| |].
  - intros c [Hc1|(q & ? & ?)%H3]%elem_of_app; [exists p|exists q]; set_solver.
  - intros q c [->|Hq]%elem_of_cons Hcq; [|set_solver]. apply H2 in Hcq. set_solver.
Qed.

Context (roots : list K).

(** [ks] are the keys within [d] edges of the roots; only those on the frontier may have children
    that were not kept. *)
Definition level_inv (d : nat) (ks fs : list K) : Prop :=
  (∀ k, k ∈ ks ↔ within (key_succs children) roots d k) ∧ (∀ k, k ∈ fs → k ∈ ks) ∧
  ∀ k c, k ∈ ks → k ∉ fs → c ∈ children k → c ∈ ks.

Lemma expand_levels_spec max_depth d st ks fs :
  keep_inv st ks fs → level_inv d ks fs →
  returns (expand_levels g max_depth st) (λ st', ∃ ks' fs', keep_inv st' ks' fs' ∧ level_inv (max_depth + d) ks' fs').
Proof using Hg Hsmall.
  revert d st ks fs. induction max_depth as [|m IH]; intros d st ks fs Hst Hl; cbn [expand_levels].
  { exists ks, fs. done. }
  eapply returns_bind.
  { apply (expand_edge_spec _ st ks fs []); [by rewrite app_nil_r|].
    symmetry. eapply Forall2_length, (ki_edge _ _ _ Hst). }
  intros st' (new & Hst' & H1 & H2). cbn [app] in Hst'.
  replace (S m + d) with (m + S d) by lia. eapply IH; [exact Hst'|].
  destruct Hl as (Hw & Hf & Hc). split_and!; [|set_solver|].
  - intros k. cbn [within]. rewrite elem_of_app, Hw. split.
    + intros [?|(p & Hp & Hk)%H1]; [auto|]. right. exists p. rewrite key_edge. split; [|done]. apply Hw, Hf, Hp.
    + intros [?|(p & Hp%Hw & Hk%key_edge)]; [auto|]. rewrite <- Hw, <- elem_of_app.
      destruct (decide (p ∈ fs)); [by apply (H2 p)|]. apply elem_of_app. left. by apply (Hc p).
  - intros k c Hk Hnew Hck. destruct (decide (k ∈ fs)); [by apply (H2 k)|].
    apply elem_of_app. left. apply (Hc k); set_solver.
Qed.

Lemma keep_roots st ixs rs :
  child_keys L ixs rs →
  for_each (λ st root, root ← expect (node_to_index g !! root); keep_node st root) st rs =
  for_each keep_node st ixs.
Proof using Hg.
  intros Hr. revert st. induction Hr as [|i r ixs rs Hi _ IH]; intros st; cbn [for_each]; [done|].
  rewrite (proj2 (rp_index _ _ _ _ Hg r i) Hi). cbn [expect mbind outcome_bind].
  by destruct (keep_node st i); cbn.
Qed.

Lemma keep_all ks : (∀ k, k ∈ L → k ∈ ks) → represents g L node_of (kept ks children).
Proof using Hg.
  intros Hks. split; [apply Hg|]. apply Forall2_same_length_lookup_2; [by apply represents_length in Hg|].
  intros i n k Hn Hk. destruct (Forall2_lookup_lr _ _ _ _ _ _ (rp_nodes _ _ _ _ Hg) Hn Hk) as [? Hc].
  split; [done|]. unfold kept. rewrite filter_all; [done|]. intros c Hin.
  by eapply Hks, child_keys_elem.
Qed.

(** The kept graph: the nodes within the depth, and all the edges between them. *)
Lemma take_max_depth_spec max_depth :
  (∀ r, r ∈ roots → r ∈ L) →
  ∃ g' L', Graph_take_max_depth g roots max_depth = Ok g' ∧
    represents g' L' node_of (kept L' children) ∧
    ∀ k, k ∈ L' ↔ within (key_succs children) roots max_depth k.
Proof using Hg Hsmall.
  intros Hroots. unfold Graph_take_max_depth.
  destruct (root_indices_spec _ _ _ _ _ Hg Hroots) as (ixs & _ & Hixs). rewrite (keep_roots _ ixs) by done.
  assert (keep_inv {| ds_visited := []; ids_to_keep := []; ds_edge := [] |} [] []) as H0.
  { split; cbn; [constructor|constructor| |constructor]. intros i j. by rewrite VecAsMap_get_nil. }
  pose proof (keep_nodes_spec _ _ _ _ _ H0 Hixs) as Hinit.
  apply returns_Ok in Hinit as (st & -> & new & Hst & H1 & H2). cbn [mbind outcome_bind app] in *.
  assert (level_inv 0 new new) as Hl by (split_and!; [intros k; cbn; split; auto|auto|done]).
  pose proof (expand_levels_spec max_depth 0 st new new Hst Hl) as Hexp.
  apply returns_Ok in Hexp as (st' & -> & ks & fs & Hks & Hw & _). cbn [mbind outcome_bind].
  rewrite Nat.add_0_r in Hw. destruct (keep_inv_length _ _ _ Hks) as [Hlen Hle].
  assert (∀ k, k ∈ ks → k ∈ L) as Hsub by (intros k; eapply child_keys_elem; apply Hks).
  rewrite (represents_length _ _ _ _ Hg), Hlen. case_bool_decide as Eq.
  - assert (ks ≡ₚ L) as Hperm.
    { apply submseteq_length_Permutation; [|lia]. apply NoDup_submseteq; [apply Hks|done]. }
    exists g, L. split_and!; [done|by apply keep_all|]. intros k. by rewrite <- Hperm.
  - rewrite u32_of_usize_Ok by lia. cbn [mbind outcome_bind].
    destruct (index_remap_opt_spec g L ks node_of children (λ i, Ok (VecAsMap_get (ds_visited st') i)))
      as (g' & -> & Hg'); [done|apply Hks|done|done| |by exists g', ks].
    intros i k Hi. eexists. split; [done|]. intros j. by eapply keep_inv_lookup.
Qed.
End Depth.

(** * The contracts *)

(** Reversing a graph does not panic, keeps the nodes with their indices
    and gives each node as children its parents, once per edge and in the order of their
    indices. *)
Theorem reverse_correct {K T : Type} `{Countable K} (g : Graph K T) (L : list K)
    (node_of : K → option T) (children : K → list K) :
  represents g L node_of children → (N.of_nat (length L) < 2 ^ 32)%N →
  ∃ g', Graph_reverse g = Ok g' ∧ represents g' L node_of (parents_in children L) ∧
        ∀ p c, p ∈ parents_in children L c ↔ p ∈ L ∧ c ∈ children p.
Proof.
  intros Hg Hsmall. destruct (reverse_spec g L node_of children Hg Hsmall) as (g' & E & Hg').
  exists g'. split_and!; [done..|]. intros p c. unfold parents_in. rewrite list_elem_of_bind.
  setoid_rewrite list_elem_of_fmap. setoid_rewrite list_elem_of_filter. naive_solver.
Qed.

(** C36. The postorder traversal of a graph from some of its keys
    ends without a panic and runs the visitor on the node of each key that can be reached, once,
    after its children unless a child leads back to it, up to the first error of the visitor. *)
Theorem postorder_traversal_correct {K T S E : Type} `{Countable K} (g : Graph K T) (L : list K)
    (node_of : K → option T) (children : K → list K) (visitor : S → T → S * option E)
    (roots : list K) (fuel : nat) (s : S) :
  represents g L node_of children → (∀ r, r ∈ roots → r ∈ L) →
  length roots + graph_work g ≤ fuel →
  ∃ ks, Graph_depth_first_postorder_traversal fuel g roots visitor s =
          Ok (run_visits (visit_key node_of visitor) s ks) ∧
        NoDup ks ∧ (∀ k, k ∈ ks ↔ reached (key_succs children) roots k) ∧
        ∀ before k after, ks = before ++ k :: after → ∀ c, c ∈ children k →
          c ∈ before ∨ rtc (succ_edge (key_succs children)) c k.
Proof. intros. by eapply postorder_keys_spec. Qed.

(** Cutting a graph at a depth does not panic and gives the graph
    whose keys are exactly those at most [max_depth] edges away from a root, with their nodes and
    all the edges between them. *)
Theorem take_max_depth_correct {K T : Type} `{Countable K} (g : Graph K T) (L : list K)
    (node_of : K → option T) (children : K → list K) (roots : list K) (max_depth : nat) :
  represents g L node_of children → (N.of_nat (length L) < 2 ^ 32)%N → (∀ r, r ∈ roots → r ∈ L) →
  ∃ g' L', Graph_take_max_depth g roots max_depth = Ok g' ∧
    represents g' L' node_of (λ k, filter (.∈ L') (children k)) ∧
    ∀ k, k ∈ L' ↔ within (key_succs children) roots max_depth k.
Proof. intros. by eapply take_max_depth_spec. Qed.

(** The graph of the unit test of [take_max_depth]. *)
Definition chain_children (k : nat) : list nat :=
  match k with 10 => [20; 30] | 20 => [30] | 30 => [40] | _ => [] end.

Definition chain : Graph nat nat := {|
  nodes := [Build_GraphNode 10 [1; 2]; Build_GraphNode 20 [2]; Build_GraphNode 30 [3]; Build_GraphNode 40 []];
  node_to_index := <[40 := 3]> (<[30 := 2]> (<[20 := 1]> (<[10 := 0]> ∅)));
|}.

Lemma chain_represents : represents chain [10; 20; 30; 40] Some chain_children.
Proof.
  split.
  - assert (indexes (<[10 := 0]> (∅ : gmap nat nat)) [10]) as H1
      by (apply (indexes_snoc _ [] 10 indexes_nil); set_solver).
    assert (indexes (<[20 := 1]> (<[10 := 0]> (∅ : gmap nat nat))) [10; 20]) as H2
      by (apply (indexes_snoc _ [10] 20 H1); set_solver).
    assert (indexes (<[30 := 2]> (<[20 := 1]> (<[10 := 0]> (∅ : gmap nat nat)))) [10; 20; 30]) as H3
      by (apply (indexes_snoc _ [10; 20] 30 H2); set_solver).
    apply (indexes_snoc _ [10; 20; 30] 40 H3). set_solver.
  - cbn. repeat constructor.
Qed.

Lemma reverse_correct_witness :
  ∃ g', Graph_reverse chain = Ok g' ∧
        represents g' [10; 20; 30; 40] Some (parents_in chain_children [10; 20; 30; 40]) ∧
        ∀ p c, p ∈ parents_in chain_children [10; 20; 30; 40] c ↔
               p ∈ [10; 20; 30; 40] ∧ c ∈ chain_children p.
Proof. apply reverse_correct; [exact chain_represents|done]. Defined.

Lemma postorder_traversal_correct_witness :
  ∃ ks, Graph_depth_first_postorder_traversal 10 chain [20] (λ s n, (s ++ [n], @None unit)) [] =
          Ok (run_visits (visit_key Some (λ s n, (s ++ [n], @None unit))) [] ks) ∧
        NoDup ks ∧ (∀ k, k ∈ ks ↔ reached (key_succs chain_children) [20] k) ∧
        ∀ before k after, ks = before ++ k :: after → ∀ c, c ∈ chain_children k →
          c ∈ before ∨ rtc (succ_edge (key_succs chain_children)) c k.
Proof.
  apply (postorder_traversal_correct chain [10; 20; 30; 40]); [exact chain_represents|set_solver|].
  vm_compute. lia.
Defined.

Lemma take_max_depth_correct_witness :
  ∃ g' L', Graph_take_max_depth chain [10] 1 = Ok g' ∧
    represents g' L' Some (λ k, filter (.∈ L') (chain_children k)) ∧
    ∀ k, k ∈ L' ↔ within (key_succs chain_children) [10] 1 k.
Proof.
  apply (take_max_depth_correct chain [10; 20; 30; 40]); [exact chain_represents|done|set_solver].
Defined.
