(* ===== verification/QueryBuild.v ===== *)
(** The asynchronous construction of the resolved graph ([Graph::build] and
    [Graph::build_stable_dfs] of [src/app/bz_query/src/query/graph/graph.rs]), proved for every
    order in which the lookups finish. *)
From S2P Require Import Prelude.
From S2P Require Import QueryTraversal.
From S2P Require Import QueryGraph.
From S2P Require Import QueryLayout.
Local Open Scope dice_scope.

(** Consecutive keys of the list are edges. *)
Definition is_path {K} (children : K → list K) (l : list K) : Prop :=
  ∀ l1 x y l2, l = l1 ++ x :: y :: l2 → y ∈ children x.

Lemma is_path_singleton {K} (children : K → list K) k : is_path children [k].
Proof. intros [|? [|? ?]] x y l2 [=]. Qed.

Lemma is_path_snoc {K} (children : K → list K) l x y :
  is_path children (l ++ [x]) → y ∈ children x → is_path children ((l ++ [x]) ++ [y]).
Proof.
  intros Hl Hy l1 a b l2 E. destruct l2 as [|c l2 _] using rev_ind.
  - replace (l1 ++ [a; b]) with ((l1 ++ [a]) ++ [b]) in E by (by rewrite <- app_assoc).
    apply app_inj_tail in E as [E <-]. by apply app_inj_tail in E as [_ <-].
  - replace (l1 ++ a :: b :: l2 ++ [c]) with ((l1 ++ a :: b :: l2) ++ [c]) in E
      by (by rewrite <- app_assoc).
    apply app_inj_tail in E as [E _]. by apply (Hl l1 a b l2).
Qed.

(** [ks] and then [c] is a path that starts at a root. *)
Definition root_path {K} (children : K → list K) (roots ks : list K) (c : K) : Prop :=
  (∃ r, head (ks ++ [c]) = Some r ∧ r ∈ roots) ∧ is_path children (ks ++ [c]).

Lemma root_path_root {K} (children : K → list K) roots c : c ∈ roots → root_path children roots [] c.
Proof. intros Hc. split; [by exists c|apply is_path_singleton]. Qed.

Lemma root_path_snoc {K} (children : K → list K) roots ks p c :
  root_path children roots ks p → c ∈ children p → root_path children roots (ks ++ [p]) c.
Proof.
  intros [(r & Hr & Hin) Hp] Hc. split; [|by apply is_path_snoc].
  exists r. split; [|done]. by destruct ks.
Qed.

Lemma root_path_reached {K} (children : K → list K) (roots ks : list K) k :
  root_path children roots ks k → reached (key_succs children) roots k.
Proof.
  intros [(r & Hr & Hroot) Hpath]. exists r. split; [done|]. clear Hroot roots.
  revert r Hr Hpath. induction ks as [|x ks IH]; intros r Hr Hpath; cbn in *.
  - injection Hr as ->. constructor.
  - injection Hr as ->. assert (∃ y l, ks ++ [k] = y :: l) as (y & l & Ey) by (destruct ks; eauto).
    apply rtc_l with y.
    + apply key_edge. apply (Hpath [] r y l). by rewrite Ey.
    + apply IH; [by rewrite Ey|]. intros l1 a b l2 El. apply (Hpath (r :: l1) a b l2). by rewrite El.
Qed.

Section Spec.
Context {K T E : Type} `{Countable K}.
Context (node_key : T → K) (lookup : K → E + T) (for_each_child : T → list K * option E).

(** The children that the visitor reports for a key. *)
Definition kids (k : K) : list K :=
  match lookup k with inr n => (for_each_child n).1 | inl _ => [] end.

Definition node_at (k : K) : option T :=
  match lookup k with inr n => Some n | inl _ => None end.

(** The lookup of the key or the visitor of its children fails with [e]. *)
Definition fails (k : K) (e : E) : Prop :=
  lookup k = inl e ∨ ∃ n, lookup k = inr n ∧ (for_each_child n).2 = Some e.

(** [e] is the failure of a node, and the contexts name, from a root on, the nodes of a path
    to it. *)
Definition failure_trace (roots : list K) (e : E) (ctx : list (Context K)) : Prop :=
  ∃ ks k, root_path kids roots ks k ∧ fails k e ∧
    Forall2 (λ c p, ∃ n, lookup p = inr n ∧ c = ErrorTraversingChildrenOf (node_key n)) ctx ks.
End Spec.

Section Building.
Context {K T E : Type} `{Countable K}.
Context (node_key : T → K) (lookup : K → E + T) (for_each_child : T → list K * option E).
Context (universe roots : list K) (Hroots : ∀ r, r ∈ roots → r ∈ universe).

Local Notation kids := (kids lookup for_each_child).
Local Notation node_at := (node_at lookup).
Local Notation BuildState := (BuildState (K := K) (T := T)).
Local Notation st_nodes st := (gb_nodes (bs_graph st)).

Context (Hclosed : ∀ k c, k ∈ universe → c ∈ kids k → c ∈ universe).
Context (Hsmall : (N.of_nat (length universe) < 2 ^ 32)%N).

(** What is known of a node that was inserted: its children are complete, unless it is the one
    being handled, which has the children [cs] so far. *)
Definition node_ok (L : list K) (cur : option (nat * list K)) (i : nat) (k : K) (n : GraphNode T) : Prop :=
  match cur with
  | Some (t, cs) =>
      if decide (i = t) then child_keys L (gn_children n) cs
      else child_keys L (gn_children n) (kids k) ∧ (for_each_child (gn_node n)).2 = None
  | None => child_keys L (gn_children n) (kids k) ∧ (for_each_child (gn_node n)).2 = None
  end.

Record build_inv (st : BuildState) (L : list K) (cur : option (nat * list K)) : Prop := {
  bi_index : indexes (gb_node_to_index (bs_graph st)) L;
  bi_visited : ∀ i, is_Some (VecAsMap_get (bs_visited st) i) ↔ i < length L;
  bi_parent : ∀ i p, VecAsMap_get (bs_visited st) i = Some (Some p) →
    p < i ∧ is_Some (VecAsMap_get (st_nodes st) p) ∧
    ∃ kp k, L !! p = Some kp ∧ L !! i = Some k ∧ k ∈ kids kp;
  bi_root : ∀ i k, VecAsMap_get (bs_visited st) i = Some None → L !! i = Some k → k ∈ roots;
  bi_queue : ∀ i k, (i, k) ∈ bs_queue st → L !! i = Some k ∧ VecAsMap_get (st_nodes st) i = None;
  bi_nodup : NoDup (bs_queue st).*1;
  bi_pending : ∀ i, i < length L → i ∈ (bs_queue st).*1 ∨ is_Some (VecAsMap_get (st_nodes st) i);
  bi_node : ∀ i n, VecAsMap_get (st_nodes st) i = Some n →
    ∃ k, L !! i = Some k ∧ node_at k = Some (gn_node n) ∧ node_ok L cur i k n;
  bi_length : length (st_nodes st) ≤ length L;
  bi_universe : ∀ k, k ∈ L → k ∈ universe;
  bi_reached : ∀ k, k ∈ L → reached (key_succs kids) roots k;
}.

Lemma node_ok_prefix L L' cur i k n : L `prefix_of` L' → node_ok L cur i k n → node_ok L' cur i k n.
Proof.
  intros Hp. assert (∀ ixs cs, child_keys L ixs cs → child_keys L' ixs cs) as Hmono.
  { intros ixs cs Hc. eapply Forall2_impl; [exact Hc|]. intros j c Hj.
    destruct Hp as [l ->]. by apply lookup_app_l_Some. }
  unfold node_ok. destruct cur as [[t cs]|]; [case_decide|]; naive_solver.
Qed.

Lemma build_inv_small st L cur : build_inv st L cur → (N.of_nat (length L) < 2 ^ 32)%N ∧ length L ≤ length universe.
Proof using Hsmall.
  intros Hst. assert (length L ≤ length universe); [|lia].
  apply submseteq_length, NoDup_submseteq; [|apply Hst]. eapply indexes_NoDup, Hst.
Qed.

(** A node that may be numbered: a root, or a child of a node that was inserted. *)
Definition parent_ok (st : BuildState) (L : list K) (c : K) (parent : option nat) : Prop :=
  match parent with
  | None => c ∈ roots
  | Some p => is_Some (VecAsMap_get (st_nodes st) p) ∧ ∃ kp, L !! p = Some kp ∧ c ∈ kids kp
  end.

Lemma parent_ok_reached st L cur c parent :
  build_inv st L cur → parent_ok st L c parent → c ∈ universe ∧ reached (key_succs kids) roots c.
Proof using Hroots Hclosed.
  intros Hst. destruct parent as [p|]; cbn.
  - intros (_ & kp & Hp%list_elem_of_lookup_2 & Hc). split.
    + eapply Hclosed; [|done]. by apply Hst.
    + destruct (bi_reached _ _ _ Hst kp Hp) as (r & ? & ?). exists r. split; [done|].
      eapply rtc_r; [done|]. by apply key_edge.
  - intros Hc. split; [auto|]. by exists c.
Qed.

(** Numbering a node and starting its lookup, unless that was done before. *)
Lemma push_key_spec st L cur c parent :
  build_inv st L cur → parent_ok st L c parent →
  ∃ idx m L', GraphBuilder_get_or_create_node (bs_graph st) c =
                Ok (idx, Build_GraphBuilder m (st_nodes st)) ∧
    let st' := build_push {| bs_graph := Build_GraphBuilder m (st_nodes st);
                             bs_visited := bs_visited st; bs_queue := bs_queue st |} c idx parent in
    build_inv st' L' cur ∧ st_nodes st' = st_nodes st ∧ L' !! idx = Some c ∧ L `prefix_of` L' ∧
    length (bs_queue st') + length L = length (bs_queue st) + length L'.
Proof using All.
  intros Hst Hpar. unfold GraphBuilder_get_or_create_node.
  destruct (parent_ok_reached _ _ _ _ _ Hst Hpar) as [Hcu Hcr].
  destruct (build_inv_small _ _ _ Hst) as [Hlt _].
  pose proof (bi_index _ _ _ Hst) as Hm. destruct (gb_node_to_index (bs_graph st) !! c) as [i|] eqn:Ec.
  { exists i, (gb_node_to_index (bs_graph st)), L. apply Hm in Ec as Hi. split; [by destruct (bs_graph st)|].
    unfold build_push, VecAsMap_contains_key. cbn. rewrite bool_decide_eq_true_2.
    - cbn. split_and!; [|done..]. destruct Hst; by split.
    - apply (bi_visited _ _ _ Hst). by eapply lookup_lt_Some. }
  assert (c ∉ L) as HcL.
  { intros [i Hi]%list_elem_of_lookup. apply Hm in Hi. congruence. }
  rewrite (indexes_size _ _ Hm), u32_of_usize_Ok by done. cbn [mbind outcome_bind].
  eexists _, _, (L ++ [c]). split; [done|]. unfold build_push, VecAsMap_contains_key. cbn.
  assert (VecAsMap_get (bs_visited st) (length L) = None) as Enew.
  { destruct (VecAsMap_get (bs_visited st) (length L)) eqn:E1; [|done].
    assert (length L < length L) by (apply (bi_visited _ _ _ Hst); eauto). lia. }
  rewrite bool_decide_eq_false_2 by (rewrite Enew; by intros [? [=]]). cbn.
  split_and!; [|done|by apply list_lookup_middle|by exists [c]|rewrite !length_app; cbn; lia].
  pose proof (VecAsMap_get_insert (bs_visited st) (length L) parent) as Eget.
  assert (∀ i k, L !! i = Some k → (L ++ [c]) !! i = Some k) as Hold by (intros; by apply lookup_app_l_Some).
  destruct Hst as [_ Hv Hp Hr Hq Hn Hpe Hno Hl Hu Hre]. split; cbn -[VecAsMap_insert].
  - by apply indexes_snoc.
  - intros i. rewrite Eget, length_app. cbn. case_decide; [split; [lia|eauto]|]. rewrite Hv. lia.
  - intros i p. rewrite Eget. case_decide as Ei.
    + intros [= ->]. subst i. destruct Hpar as [Hs (kp & Hkp & Hc)]. split_and!; [by eapply lookup_lt_Some|done|].
      exists kp, c. split_and!; [auto|by apply list_lookup_middle|done].
    + intros (? & ? & kp & k & ? & ? & ?)%Hp. split_and!; [done..|]. exists kp, k. auto.
  - intros i k. rewrite Eget. case_decide as Ei.
    + intros [= ->] Hk. subst i. rewrite list_lookup_middle in Hk by done. by injection Hk as <-.
    + intros Hi Hk. apply (Hr i); [done|]. rewrite lookup_app_l in Hk; [done|]. apply Hv. eauto.
  - intros i k [[? ?]%Hq|[= -> ->]%list_elem_of_singleton]%elem_of_app; [auto|].
    split; [by apply list_lookup_middle|].
    unfold VecAsMap_get. by rewrite lookup_ge_None_2.
  - rewrite fmap_app. apply NoDup_app. split_and!; [done| |apply NoDup_singleton].
    intros i ([j k] & -> & [Hjk _]%Hq)%list_elem_of_fmap Hj%list_elem_of_singleton.
    apply lookup_lt_Some in Hjk. cbn in Hj. lia.
  - intros i. rewrite length_app, fmap_app, elem_of_app. cbn. intros Hi.
    destruct (decide (i = length L)) as [->|]; [left; right; set_solver|].
    destruct (Hpe i); [lia|auto|auto].
  - intros i n Hin. destruct (Hno i n Hin) as (k & ? & ? & ?). exists k. split_and!; [auto|done|].
    eapply node_ok_prefix; [|done]. by exists [c].
  - rewrite length_app. lia.
  - intros k [?|Hk%list_elem_of_singleton]%elem_of_app; [auto|by subst].
  - intros k [?|Hk%list_elem_of_singleton]%elem_of_app; [auto|by subst].
Qed.

Lemma push_root_spec st L c :
  build_inv st L None → c ∈ roots →
  returns (push_root st c) (λ st', ∃ L', build_inv st' L' None ∧ L `prefix_of` L' ∧ c ∈ L' ∧
    length (bs_queue st') + length L = length (bs_queue st) + length L').
Proof using All.
  intros Hst Hc. unfold push_root.
  destruct (push_key_spec _ _ _ c None Hst Hc) as (idx & m & L' & -> & Hst' & _ & Hi & Hp & Hn).
  cbn [mbind outcome_bind returns]. exists L'. split_and!; [done|done|by eapply list_elem_of_lookup_2|done].
Qed.

Lemma VecAsMap_get_update {A} (v : VecAsMap A) t x y j :
  VecAsMap_get v t = Some y →
  VecAsMap_get (<[t := Some x]> v) j = if decide (t = j) then Some x else VecAsMap_get v j.
Proof.
  unfold VecAsMap_get. intros Ey. case_decide as Hj; [|by rewrite list_lookup_insert_ne].
  subst j. rewrite list_lookup_insert_eq; [done|]. apply lookup_lt_is_Some_1. by destruct (v !! t).
Qed.

(** Adding a child to the node that is being handled. *)
Lemma add_child_inv st L t cs n idx c :
  build_inv st L (Some (t, cs)) → VecAsMap_get (st_nodes st) t = Some n → L !! idx = Some c →
  build_inv {| bs_graph := Build_GraphBuilder (gb_node_to_index (bs_graph st))
                 (<[t := Some (Build_GraphNode (gn_node n) (gn_children n ++ [idx]))]> (st_nodes st));
               bs_visited := bs_visited st; bs_queue := bs_queue st |} L (Some (t, cs ++ [c])).
Proof.
  intros [Hm Hv Hp Hr Hq Hn Hpe Hno Hl Hu Hre] Ht Hi.
  set (x := Build_GraphNode (gn_node n) (gn_children n ++ [idx])).
  pose proof (λ j, VecAsMap_get_update _ _ x _ j Ht) as Eget.
  assert (∀ j, is_Some (VecAsMap_get (<[t := Some x]> (st_nodes st)) j) ↔
               is_Some (VecAsMap_get (st_nodes st) j)) as Esome.
  { intros j. rewrite Eget. case_decide; [subst; rewrite Ht; split; eauto|done]. }
  split; cbn; try done.
  - intros i p E1. rewrite Esome. by apply Hp.
  - intros i k E1. destruct (Hq i k E1) as [? E2]. split; [done|]. apply eq_None_not_Some. rewrite Esome, E2.
    by intros [? [=]].
  - intros i. rewrite Esome. apply Hpe.
  - intros i m. rewrite Eget. unfold node_ok in *. case_decide as Hit.
    + subst i. intros [= <-]. destruct (Hno t n Ht) as (k & ? & ? & Hc). exists k. split_and!; [done..|].
      rewrite decide_True in Hc |- * by done. apply Forall2_app; [done|by repeat constructor].
    + intros Hm'. destruct (Hno i m Hm') as (k & ? & ? & Hc). exists k. split_and!; [done..|].
      by rewrite decide_False in Hc |- * by done.
  - by rewrite length_insert.
Qed.

Lemma push_child_spec st L t cs kt c :
  build_inv st L (Some (t, cs)) → is_Some (VecAsMap_get (st_nodes st) t) → L !! t = Some kt →
  c ∈ kids kt →
  returns (push_child t st c) (λ st', ∃ L', build_inv st' L' (Some (t, cs ++ [c])) ∧
    is_Some (VecAsMap_get (st_nodes st') t) ∧ L `prefix_of` L' ∧
    length (bs_queue st') + length L = length (bs_queue st) + length L').
Proof using All.
  intros Hst [n Hn] Ht Hc. unfold push_child.
  destruct (push_key_spec _ _ _ c (Some t) Hst) as (idx & m & L' & -> & Hst' & Enodes & Hi & Hp & Hlen).
  { cbn. split; [by exists n|]. by exists kt. }
  cbn [mbind outcome_bind gb_nodes gb_node_to_index]. unfold VecAsMap_update. rewrite Hn.
  cbn [expect mbind outcome_bind returns]. exists L'.
  pose proof (add_child_inv _ _ _ _ n idx c Hst') as Hadd. rewrite Enodes in Hadd. specialize (Hadd Hn Hi).
  unfold build_push in *. cbn in *. destruct (VecAsMap_contains_key (bs_visited st) idx); cbn in *.
  all: split_and!; [done| |done|done]; rewrite (VecAsMap_get_update _ _ _ _ _ Hn), decide_True; eauto.
Qed.

(** Taking a finished lookup from the queue and inserting its node. *)
Lemma insert_node_inv st L q t kt n :
  build_inv st L None → bs_queue st ≡ₚ (t, kt) :: q → lookup kt = inr n →
  ∃ graph, GraphBuilder_insert (bs_graph st) t n = Ok graph ∧
    build_inv {| bs_graph := graph; bs_visited := bs_visited st; bs_queue := q |} L (Some (t, [])) ∧
    is_Some (VecAsMap_get (gb_nodes graph) t).
Proof.
  intros [Hm Hv Hp Hr Hq Hn Hpe Hno Hl Hu Hre] Eq En. unfold GraphBuilder_insert.
  destruct (Hq t kt) as [Ht Hnone]; [rewrite Eq; set_solver|].
  pose proof (VecAsMap_insert_prev (st_nodes st) t (Build_GraphNode n [])) as Eprev.
  pose proof (VecAsMap_get_insert (st_nodes st) t (Build_GraphNode n [])) as Eget.
  pose proof (VecAsMap_length_insert (st_nodes st) t (Build_GraphNode n [])) as Elen.
  destruct (VecAsMap_insert _ _ _) as [prev v]. cbn [fst snd] in *. subst prev.
  rewrite bool_decide_eq_true_2 by done. cbn [rust_assert mbind outcome_bind].
  rewrite Eq in Hn. cbn in Hn. apply NoDup_cons in Hn as [Hnt Hn].
  assert (∀ j, is_Some (VecAsMap_get (st_nodes st) j) → is_Some (VecAsMap_get v j)) as Esome.
  { intros j Hj. rewrite Eget. case_decide; eauto. }
  eexists. split; [done|]. split; [|cbn; rewrite Eget, decide_True; eauto].
  split; cbn; try done.
  - intros i p (? & ? & ?)%Hp. split_and!; auto.
  - intros i k Hi. destruct (Hq i k) as [? E1]; [rewrite Eq; set_solver|]. split; [done|].
    rewrite Eget, decide_False; [done|]. intros <-. apply Hnt. apply list_elem_of_fmap. by exists (t, k).
  - intros i Hi. destruct (Hpe i Hi) as [Hin|?]; [|auto]. rewrite Eq in Hin. cbn in Hin.
    apply elem_of_cons in Hin as [->|?]; [|auto]. right. rewrite Eget, decide_True; eauto.
  - intros i m. rewrite Eget. unfold node_ok. case_decide as Hi.
    + subst i. intros [= <-]. exists kt. rewrite decide_True by done. unfold QueryBuild.node_at. rewrite En.
      split_and!; [done..|constructor].
    + intros (k & ? & ? & ?)%Hno. exists k. by rewrite decide_False by done.
  - apply lookup_lt_Some in Ht. lia.
Qed.

Local Notation fails := (fails lookup for_each_child).

(** The contexts only depend on the graph and the parents. *)
Lemma add_contexts_queue fuel g v q q' t e :
  add_contexts node_key fuel {| bs_graph := g; bs_visited := v; bs_queue := q |} t e =
  add_contexts node_key fuel {| bs_graph := g; bs_visited := v; bs_queue := q' |} t e.
Proof.
  revert t e. induction fuel as [|fuel IH]; intros t e; cbn; [done|].
  destruct (VecAsMap_get v t) as [[p|]|]; [|done..]. destruct (VecAsMap_get _ p); [apply IH|done].
Qed.

(** A path from a root to the node with index [t] and the contexts that name it. *)
Definition trace_to (k : K) (ctx : list (Context K)) (ks : list K) : Prop :=
  root_path kids roots ks k ∧
  Forall2 (λ c p, ∃ n, lookup p = inr n ∧ c = ErrorTraversingChildrenOf (node_key n)) ctx ks.

Lemma add_contexts_spec fuel st L cur t k e :
  build_inv st L cur → L !! t = Some k → t ≤ fuel →
  ∃ ctx ks, add_contexts node_key fuel st t e = Ok (ctx ++ e) ∧ trace_to k ctx ks.
Proof.
  intros Hst. revert t k e. induction fuel as [|fuel IH]; intros t k e Ht Hfuel.
  all: destruct (proj2 (bi_visited _ _ _ Hst t)) as [o Ho]; [by eapply lookup_lt_Some|].
  all: cbn [add_contexts]; rewrite Ho; destruct o as [p|].
  2,4: exists [], []; split; [done|]; split; [apply root_path_root; by eapply bi_root|constructor].
  all: destruct (bi_parent _ _ _ Hst _ _ Ho) as (Hlt & [n Hn] & kp & k' & Hp & Hk' & Hin).
  { lia. }
  rewrite Hn. rewrite Ht in Hk'. injection Hk' as <-.
  destruct (bi_node _ _ _ Hst _ _ Hn) as (kp' & Hp' & Hnode & _). rewrite Hp in Hp'. injection Hp' as <-.
  destruct (IH p kp (ErrorTraversingChildrenOf (node_key (gn_node n)) :: e) Hp ltac:(lia))
    as (ctx & ks & Ectx & Hpath & Hctx).
  exists (ctx ++ [ErrorTraversingChildrenOf (node_key (gn_node n))]), (ks ++ [kp]).
  rewrite Ectx, <- app_assoc. split; [done|]. split.
  - by apply root_path_snoc.
  - apply Forall2_app; [done|]. constructor; [|constructor]. exists (gn_node n). split; [|done].
    unfold QueryBuild.node_at in Hnode. destruct (lookup kp); [done|congruence].
Qed.

(** What handling a finished lookup does. *)
Lemma build_node_spec st L q t kt :
  build_inv st L None → bs_queue st ≡ₚ (t, kt) :: q →
  returns (build_node for_each_child {| bs_graph := bs_graph st; bs_visited := bs_visited st; bs_queue := q |}
             t (lookup kt))
    (λ '(st', result), match result with
       | None => ∃ L', build_inv st' L' None ∧ L `prefix_of` L' ∧
                   length (bs_queue st') + length L = length q + length L'
       | Some e => fails kt e ∧ ∃ q' L' cur,
           build_inv {| bs_graph := bs_graph st'; bs_visited := bs_visited st'; bs_queue := q' |} L' cur ∧
           L' !! t = Some kt
       end).
Proof using All.
  intros Hst Eq. destruct (bi_queue _ _ _ Hst t kt) as [Ht _]; [rewrite Eq; set_solver|].
  destruct (lookup kt) as [e|n] eqn:En; cbn [build_node bs_graph bs_visited bs_queue].
  { cbn. split; [by left|]. exists (bs_queue st), L, None. split; [|done]. by destruct st. }
  destruct (insert_node_inv _ _ _ _ _ _ Hst Eq En) as (graph & -> & Hins & Hsome). cbn [mbind outcome_bind].
  destruct (for_each_child n) as [cs result] eqn:Ech.
  assert (kids kt = cs) as Ekids by (unfold QueryBuild.kids; by rewrite En, Ech).
  set (st0 := {| bs_graph := graph; bs_visited := bs_visited st; bs_queue := q |}) in *.
  assert (returns (for_each (push_child t) st0 cs) (λ st', ∃ L', build_inv st' L' (Some (t, cs)) ∧
    is_Some (VecAsMap_get (st_nodes st') t) ∧ L `prefix_of` L' ∧
    length (bs_queue st') + length L = length q + length L')) as Hloop.
  { apply (for_each_inv _ (λ don st', ∃ L', build_inv st' L' (Some (t, don)) ∧
      is_Some (VecAsMap_get (st_nodes st') t) ∧ L `prefix_of` L' ∧
      length (bs_queue st') + length L = length q + length L')).
    - exists L. split_and!; [done|done|done|]. done.
    - intros don c rest st1 Ecs (L1 & H1 & H2 & Hp & Hn).
      assert (L1 !! t = Some kt) as Ht1 by (destruct Hp as [l ->]; by apply lookup_app_l_Some).
      eapply returns_mono; [eapply (push_child_spec _ _ _ _ kt c); [done..|]; rewrite Ekids, Ecs; set_solver|].
      intros st2 (L2 & H3 & H4 & Hp2 & Hn2). exists L2. split_and!; [done|done|by etrans|lia]. }
  apply returns_Ok in Hloop as (st1 & -> & L1 & H1 & [n1 Hn1] & Hp & Hlen). cbn [mbind outcome_bind returns].
  assert (L1 !! t = Some kt) as Ht1 by (destruct Hp as [l ->]; by apply lookup_app_l_Some).
  destruct result as [e|].
  - split; [right; exists n; by rewrite Ech|]. exists (bs_queue st1), L1, (Some (t, cs)). split; [|done].
    by destruct st1.
  - exists L1. split_and!; [|done|done]. destruct H1 as [Hm Hv Hpa Hr Hq Hn Hpe Hno Hl Hu Hre]. split; try done.
    intros i x Hx. destruct (Hno i x Hx) as (k & Hk & Enode & Hok). exists k. split_and!; [done..|].
    cbn in *. case_decide as Hi; [|done]. subst i. rewrite Ht1 in Hk. injection Hk as <-.
    rewrite Ekids. split; [done|]. unfold QueryBuild.node_at in Enode. rewrite En in Enode.
    injection Enode as <-. by rewrite Ech.
Qed.

Lemma build_loop_spec sched fuel st L :
  build_inv st L None → length universe + length (bs_queue st) ≤ length L + fuel →
  returns (build_loop node_key lookup for_each_child sched fuel st) (λ r, match r with
    | inr st' => ∃ L', build_inv st' L' None ∧ L `prefix_of` L' ∧ bs_queue st' = []
    | inl (e, ctx) => failure_trace node_key lookup for_each_child roots e ctx
    end).
Proof using All.
  revert st L. induction fuel as [|fuel IH]; intros st L Hst Hfuel;
    destruct (build_inv_small _ _ _ Hst) as [_ Hle]; cbn [build_loop];
    destruct (bs_queue st) as [|w q] eqn:Eq; try (by exists L); cbn [length] in Hfuel; [lia|].
  set (i := sched fuel mod length (w :: q)).
  assert (i < length (w :: q)) as Hi by (apply Nat.mod_upper_bound; done).
  destruct (lookup_lt_is_Some_2 _ _ Hi) as [[t kt] Hit]. rewrite Hit. cbn [expect mbind outcome_bind].
  assert (bs_queue st ≡ₚ (t, kt) :: delete i (w :: q)) as Hperm by (rewrite Eq; by apply delete_Permutation).
  eapply returns_bind; [by apply build_node_spec|].
  intros [st' [e|]]; cbn beta iota.
  - intros (Hf & q' & L' & cur & Hst' & Ht').
    destruct st' as [g' v' q0]. cbn [bs_visited bs_graph] in *. rewrite (add_contexts_queue _ _ _ _ q').
    assert (t < length v') as Hlt.
    { destruct (proj2 (bi_visited _ _ _ Hst' t)) as [o Ho]; [by eapply lookup_lt_Some|].
      cbn in Ho. unfold VecAsMap_get in Ho. apply lookup_lt_is_Some_1. by destruct (v' !! t). }
    destruct (add_contexts_spec (length v') _ _ _ t kt [] Hst' Ht') as (ctx & ks & -> & Hp & Hc); [lia|].
    cbn. rewrite app_nil_r. exists ks, kt. done.
  - intros (L' & Hst' & Hp & Hn).
    apply Permutation_length in Hperm. rewrite Eq in Hperm. cbn [length] in Hperm.
    eapply returns_mono; [apply (IH st' L' Hst'); lia|].
    intros [[e ctx]|st'']; [done|]. intros (L'' & ? & ? & ?). exists L''. split_and!; [done|by etrans|done].
Qed.

(** ** The whole construction *)

Lemma push_roots_spec :
  returns (for_each push_root {| bs_graph := Build_GraphBuilder ∅ []; bs_visited := []; bs_queue := [] |} roots)
    (λ st, ∃ L, build_inv st L None ∧ (∀ r, r ∈ roots → r ∈ L) ∧ length (bs_queue st) = length L).
Proof using All.
  eapply returns_mono; [apply (for_each_inv _ (λ don st, ∃ L, build_inv st L None ∧ (∀ r, r ∈ don → r ∈ L) ∧
    length (bs_queue st) = length L))|done].
  - exists []. split_and!; [|set_solver|done]. split; cbn.
    + apply indexes_nil.
    + intros i. split; [by intros [? [=]]|lia].
    + intros i p [=].
    + intros i k [=].
    + set_solver.
    + constructor.
    + lia.
    + intros i n [=].
    + done.
    + set_solver.
    + set_solver.
  - intros don r rest st Er (L & Hst & Hd & Hlen).
    eapply returns_mono; [apply (push_root_spec _ _ r Hst); rewrite Er; set_solver|].
    intros st' (L' & ? & [l ->] & ? & ?). exists (L ++ l). split_and!; [done|set_solver|lia].
Qed.

(** The graph of the nodes that can be reached, none of which fails. *)
Definition resolved (g : Graph K T) (L : list K) : Prop :=
  represents g L node_at kids ∧ (∀ k, k ∈ L ↔ reached (key_succs kids) roots k) ∧
  ∀ k e, k ∈ L → ¬ fails k e.

Lemma build_done st L :
  build_inv st L None → bs_queue st = [] → (∀ r, r ∈ roots → r ∈ L) →
  ∃ g, GraphBuilder_build (bs_graph st) = Ok g ∧ resolved g L.
Proof.
  intros Hst Eq HrL. pose proof (indexes_size _ _ (bi_index _ _ _ Hst)) as Hsize.
  destruct (vec_full (st_nodes st) (length L)) as (l & El & Hlen & Hget); [apply Hst| |].
  { intros j Hj. destruct (bi_pending _ _ _ Hst j Hj) as [Hin|]; [|done].
    rewrite Eq in Hin. by apply elem_of_nil in Hin. }
  unfold GraphBuilder_build. rewrite El. rewrite bool_decide_eq_true_2.
  2: { apply length_mapM in El. lia. }
  cbn. eexists. split; [done|].
  assert (∀ j n k, l !! j = Some n → L !! j = Some k →
    node_at k = Some (gn_node n) ∧ child_keys L (gn_children n) (kids k) ∧
    (for_each_child (gn_node n)).2 = None) as Hnodes.
  { intros j n k Hn Hk. rewrite Hget in Hn. destruct (bi_node _ _ _ Hst j n Hn) as (k' & Hk' & ? & Hok).
    rewrite Hk in Hk'. injection Hk' as <-. done. }
  assert (represents (Build_Graph l (gb_node_to_index (bs_graph st))) L node_at kids) as Hg.
  { split; [apply Hst|]. cbn. apply Forall2_same_length_lookup_2; [done|]. intros j n k Hn Hk.
    by destruct (Hnodes j n k Hn Hk) as (? & ? & ?). }
  split_and!; [done| |].
  - intros k. split; [apply Hst|]. apply (closed_set_reached _ (λ k, k ∈ L)); [done|].
    intros x y Hx Hxy%key_edge. by eapply represents_closed.
  - intros k e [j Hj]%list_elem_of_lookup Hf.
    destruct (lookup_lt_is_Some_2 l j) as [n Hn]; [rewrite Hlen; by eapply lookup_lt_Some|].
    destruct (Hnodes j n k Hn Hj) as (Hat & _ & Hok). unfold QueryBuild.node_at in Hat.
    destruct Hf as [E1|(n' & E1 & E2)]; rewrite E1 in Hat; [done|]. injection Hat as ->. congruence.
Qed.

Lemma build_spec sched fuel :
  length universe ≤ fuel →
  returns (Graph_build node_key lookup for_each_child sched fuel roots) (λ r, match r with
    | inr g => ∃ L, resolved g L
    | inl (e, ctx) => failure_trace node_key lookup for_each_child roots e ctx
    end).
Proof using All.
  intros Hfuel. unfold Graph_build. eapply returns_bind; [apply push_roots_spec|].
  intros st (L & Hst & HrL & Hlen).
  eapply returns_bind; [apply (build_loop_spec sched fuel st L Hst); lia|].
  intros [[e ctx]|st']; [done|]. intros (L' & Hst' & [l ->] & Eq).
  destruct (build_done _ _ Hst' Eq) as (g & -> & Hg); [set_solver|]. by exists (L ++ l).
Qed.

(** ** The stable layout *)

Lemma number_nodes_spec Li :
  NoDup Li → (N.of_nat (length Li) < 2 ^ 32)%N →
  ∃ v, foldl number_node (Ok ([], 0)) Li = Ok (v, length Li) ∧
       ∀ i j, VecAsMap_get v i = Some j ↔ Li !! j = Some i.
Proof.
  induction Li as [|i Li IH] using rev_ind; intros Hnd Hlt.
  { exists []. split; [done|]. intros i j. by rewrite VecAsMap_get_nil. }
  apply NoDup_app in Hnd as (Hnd & Hi & _). rewrite length_app in *. cbn [length] in *.
  destruct IH as (v & E1 & Hv); [done|lia|].
  rewrite foldl_app, E1. cbn [foldl number_node mbind outcome_bind].
  pose proof (VecAsMap_insert_prev v i (length Li)) as Eprev.
  pose proof (VecAsMap_get_insert v i (length Li)) as Eget.
  assert (VecAsMap_get v i = None) as Enone.
  { destruct (VecAsMap_get v i) as [j|] eqn:Ej; [|done]. apply Hv, list_elem_of_lookup_2 in Ej.
    exfalso. apply (Hi i); [done|set_solver]. }
  destruct (VecAsMap_insert v i (length Li)) as [prev v']. cbn [fst snd] in *. subst prev.
  rewrite Enone, bool_decide_eq_true_2 by done. cbn [rust_assert mbind outcome_bind].
  rewrite as_u32_small by lia. exists v'. split; [done|]. intros i' j. rewrite Eget.
  case_decide as Ei.
  - subst i'. split; [intros [= <-]; by apply list_lookup_middle|].
    intros [Hj|(Hle & Hj)]%lookup_app_Some.
    + apply list_elem_of_lookup_2 in Hj. exfalso. apply (Hi i); [done|set_solver].
    + apply list_lookup_singleton_Some in Hj as [? _]. f_equal. lia.
  - rewrite Hv, lookup_app_Some, list_lookup_singleton_Some. naive_solver.
Qed.

(** The steps of the traversal are bounded by the nodes and edges of the universe. *)
Definition universe_work : nat := sum_list_with (λ k, S (length (kids k))) universe.

Lemma graph_work_le g L : represents g L node_at kids → (∀ k, k ∈ L → k ∈ universe) → graph_work g ≤ universe_work.
Proof.
  intros Hg Hsub. assert (L ⊆+ universe) as [rest Hrest]%submseteq_Permutation.
  { apply NoDup_submseteq; [|done]. eapply indexes_NoDup, Hg. }
  unfold universe_work. rewrite Hrest, sum_list_with_app.
  assert (graph_work g = sum_list_with (λ k, S (length (kids k))) L) as ->; [|lia].
  unfold graph_work. destruct Hg as [_ Hn]. induction Hn as [|n k ns ks [_ Hc] _ IH]; cbn; [done|].
  rewrite IH. by rewrite (Forall2_length _ _ _ Hc).
Qed.

Lemma build_stable_dfs_spec sched fuel dfs_fuel :
  length universe ≤ fuel → 1 + universe_work ≤ dfs_fuel →
  returns (Graph_build_stable_dfs node_key lookup for_each_child sched fuel dfs_fuel roots) (λ r, match r with
    | inr g => ∃ L, resolved g L ∧ dfs_rel kids [] roots L
    | inl (e, ctx) => failure_trace node_key lookup for_each_child roots e ctx
    end).
Proof using All.
  intros Hfuel Hdfs. unfold Graph_build_stable_dfs. eapply returns_bind; [by apply build_spec|].
  intros [[e ctx]|g]; [done|]. intros (L & Hg & HL & Hok).
  assert (∀ r, r ∈ roots → r ∈ L) as HrL by (intros r Hr; apply HL; by exists r).
  assert (∀ k, k ∈ L → k ∈ universe) as HLu.
  { intros k Hk%HL. revert Hk. apply (closed_set_reached _ (λ k, k ∈ universe)); [done|].
    intros x y Hx Hxy%key_edge. by eapply Hclosed. }
  pose proof (indexes_NoDup _ _ (rp_index _ _ _ _ Hg)) as HndL.
  assert (length L ≤ length universe) as Hle by (by apply submseteq_length, NoDup_submseteq).
  destruct (root_indices_spec _ _ _ _ _ Hg HrL) as (ixs & -> & Hixs). cbn [mbind outcome_bind].
  unfold Graph_dfs_preorder_indices.
  destruct (preorder_spec (GraphSuccessorsImpl g) number_node (seq 0 (length L)) (NoDup_seq _ _)
    (index_closed _ _ _ _ Hg) dfs_fuel ixs (Ok ([], 0))) as (Li & -> & Hrel).
  { intros r. by eapply roots_in_range. }
  { rewrite (unseen_graph _ _ _ _ Hg). pose proof (graph_work_le _ _ Hg HLu). lia. }
  destruct (dfs_rel_keys _ _ _ _ Hg [] ixs Li [] roots Hrel) as (L' & HL' & Hrel'); [constructor|done|].
  assert (NoDup L') as Hnd' by (eapply dfs_rel_new; [exact Hrel'|constructor]).
  assert (∀ k, k ∈ L' ↔ k ∈ L) as Heq.
  { intros k. rewrite (dfs_rel_reached _ _ _ _ Hrel'), HL. unfold reached.
    split; intros (r & Hr & Hrk); exists r; (split; [done|]);
      (eapply (rtc_congruence id); [|exact Hrk]); intros x y; by rewrite key_edge. }
  assert (L' ≡ₚ L) as Hperm by (by apply NoDup_Permutation).
  assert (NoDup Li) as HndLi by (by eapply child_keys_NoDup).
  assert (length Li = length L) as HlenLi by (rewrite (Forall2_length _ _ _ HL'); by rewrite Hperm).
  destruct (number_nodes_spec Li HndLi) as (v & -> & Hv); [lia|]. cbn [mbind outcome_bind].
  rewrite (represents_length _ _ _ _ Hg), bool_decide_eq_true_2 by done. cbn [rust_assert mbind outcome_bind].
  unfold Graph_index_remap. rewrite (represents_length _ _ _ _ Hg), u32_of_usize_Ok by lia.
  cbn [mbind outcome_bind]. replace (length L) with (length L') by (by rewrite Hperm).
  match goal with |- context [Graph_index_remap_opt g ?r _] =>
    destruct (index_remap_opt_spec g L L' node_at kids r) as (g' & -> & Hg') end.
  - done.
  - done.
  - intros k. by rewrite Heq.
  - lia.
  - intros i k Hi. assert (i ∈ Li) as [j Hj]%list_elem_of_lookup.
    { apply (child_keys_in _ _ _ _ Hg _ _ _ _ HL' Hi), Heq. by eapply list_elem_of_lookup_2. }
    rewrite (proj2 (Hv i j) Hj). cbn. eexists. split; [done|]. intros j'.
    destruct (Forall2_lookup_l _ _ _ _ _ HL' Hj) as (k' & Hk' & Hi'). rewrite Hi in Hi'. injection Hi' as <-.
    split; [by intros [= <-]|]. intros Hj'. f_equal. exact (NoDup_lookup L' j j' k Hnd' Hk' Hj').
  - cbn. exists L'. split; [|done]. split_and!.
    + eapply represents_ext; [|exact Hg']. intros k Hk. unfold kept. symmetry. apply filter_all.
      intros c Hc. apply Heq. eapply represents_closed; [exact Hg| |exact Hc]. by apply Heq.
    + intros k. by rewrite Heq.
    + intros k e Hk. apply Hok. by apply Heq.
Qed.
End Building.

(** * The contracts *)

(** C25. Whatever the order in which the lookups finish, the construction
    ends, with one round per node, and does not panic.  It gives the graph of exactly the nodes
    that can be reached from the roots, each with its children in order, if none of them fails;
    otherwise it gives the error of a node that fails, and the contexts of the error name the
    nodes of a path from a root to that node. *)
Theorem build_correct {K T E : Type} `{Countable K} (node_key : T → K) (lookup : K → E + T)
    (for_each_child : T → list K * option E) (universe roots : list K) (sched : nat → nat) (fuel : nat) :
  (∀ r, r ∈ roots → r ∈ universe) →
  (∀ k c, k ∈ universe → c ∈ kids lookup for_each_child k → c ∈ universe) →
  (N.of_nat (length universe) < 2 ^ 32)%N → length universe ≤ fuel →
  ∃ r, Graph_build node_key lookup for_each_child sched fuel roots = Ok r ∧
    match r with
    | inr g => ∃ L, represents g L (node_at lookup) (kids lookup for_each_child) ∧
        (∀ k, k ∈ L ↔ reached (key_succs (kids lookup for_each_child)) roots k) ∧
        ∀ k e, k ∈ L → ¬ fails lookup for_each_child k e
    | inl (e, ctx) => failure_trace node_key lookup for_each_child roots e ctx
    end.
Proof.
  intros Hr Hc Hs Hf. apply returns_Ok. by apply build_spec with universe.
Qed.

(** C24. The stable construction does not depend on the order in
    which the lookups finish: if no node that can be reached fails, every order gives the same
    graph, whose indices follow the recursive depth-first search from the roots; if one fails,
    every order gives an error with its trace. *)
Theorem build_stable_dfs_correct {K T E : Type} `{Countable K} (node_key : T → K) (lookup : K → E + T)
    (for_each_child : T → list K * option E) (universe roots : list K) (fuel dfs_fuel : nat) :
  (∀ r, r ∈ roots → r ∈ universe) →
  (∀ k c, k ∈ universe → c ∈ kids lookup for_each_child k → c ∈ universe) →
  (N.of_nat (length universe) < 2 ^ 32)%N → length universe ≤ fuel →
  1 + universe_work lookup for_each_child universe ≤ dfs_fuel →
  ((∀ k e, reached (key_succs (kids lookup for_each_child)) roots k → ¬ fails lookup for_each_child k e) →
   ∃ g L, represents g L (node_at lookup) (kids lookup for_each_child) ∧
     dfs_rel (kids lookup for_each_child) [] roots L ∧
     ∀ sched, Graph_build_stable_dfs node_key lookup for_each_child sched fuel dfs_fuel roots = Ok (inr g)) ∧
  (∀ k e, reached (key_succs (kids lookup for_each_child)) roots k → fails lookup for_each_child k e →
   ∀ sched, ∃ e' ctx,
     Graph_build_stable_dfs node_key lookup for_each_child sched fuel dfs_fuel roots = Ok (inl (e', ctx)) ∧
     failure_trace node_key lookup for_each_child roots e' ctx).
Proof.
  intros Hr Hc Hs Hf Hdf.
  assert (∀ sched, ∃ r, Graph_build_stable_dfs node_key lookup for_each_child sched fuel dfs_fuel roots = Ok r ∧
    match r with
    | inr g => ∃ L, resolved lookup for_each_child roots g L ∧ dfs_rel (kids lookup for_each_child) [] roots L
    | inl (e, ctx) => failure_trace node_key lookup for_each_child roots e ctx
    end) as Hspec by (intros sched; apply returns_Ok; by apply build_stable_dfs_spec with universe).
  split.
  - intros Hok.
    assert (∀ e ctx, ¬ failure_trace node_key lookup for_each_child roots e ctx) as Hno.
    { intros e ctx (ks & k & Hpath & Hfail & _). apply (Hok k e); [|done]. by apply root_path_reached with ks. }
    destruct (Hspec id) as ([[e ctx]|g] & _ & Hg); [by apply Hno in Hg|].
    destruct Hg as (L & (Hg & _) & Hrel). exists g, L. split_and!; [done..|]. intros sched.
    destruct (Hspec sched) as ([[e ctx]|g'] & -> & Hg'); [by apply Hno in Hg'|].
    destruct Hg' as (L' & (Hg' & _) & Hrel').
    assert (L' = L) as -> by (by eapply dfs_rel_fun). do 2 f_equal. by eapply represents_fun.
  - intros k e Hk Hfail sched. destruct (Hspec sched) as ([[e' ctx]|g] & E1 & Hg); [by exists e', ctx|].
    destruct Hg as (L & (_ & HL & Hok) & _). by destruct (Hok k e (proj2 (HL k) Hk)).
Qed.

(** Numbers below 40, the node 13 cannot be looked up. *)
Definition lookup13 (k : nat) : unit + nat := if decide (k = 13) then inl tt else inr k.

Definition children13 (n : nat) : list nat * option unit :=
  (match n with 0 => [2; 1] | 1 => [3] | 2 => [3; 0] | 10 => [13] | _ => [] end, None).

Lemma children13_closed k c :
  k ∈ [0; 1; 2; 3; 10; 13] → c ∈ kids lookup13 children13 k → c ∈ [0; 1; 2; 3; 10; 13].
Proof.
  intros Hk. repeat (apply elem_of_cons in Hk as [->|Hk]; [vm_compute (kids _ _ _); set_solver|]).
  by apply elem_of_nil in Hk.
Qed.

Lemma build_correct_witness :
  ∃ r, Graph_build id lookup13 children13 (λ n, n) 6 [0; 10] = Ok r ∧
    match r with
    | inr g => ∃ L, represents g L (node_at lookup13) (kids lookup13 children13) ∧
        (∀ k, k ∈ L ↔ reached (key_succs (kids lookup13 children13)) [0; 10] k) ∧
        ∀ k e, k ∈ L → ¬ fails lookup13 children13 k e
    | inl (e, ctx) => failure_trace id lookup13 children13 [0; 10] e ctx
    end.
Proof.
  apply (build_correct id lookup13 children13 [0; 1; 2; 3; 10; 13]).
  - set_solver.
  - exact children13_closed.
  - done.
  - done.
Defined.

Lemma reached_from_0 k :
  reached (key_succs (kids lookup13 children13)) [0] k → k ∈ [0; 1; 2; 3].
Proof.
  apply (closed_set_reached _ (λ k, k ∈ [0; 1; 2; 3])); [set_solver|]. intros x y Hx Hy%key_edge. revert Hy.
  repeat (apply elem_of_cons in Hx as [->|Hx]; [vm_compute (kids _ _ _); set_solver|]).
  by apply elem_of_nil in Hx.
Qed.

Lemma no_failure_from_0 k e :
  reached (key_succs (kids lookup13 children13)) [0] k → ¬ fails lookup13 children13 k e.
Proof.
  intros Hk%reached_from_0 [Hf|(n & Hn & Hf)].
  - repeat (apply elem_of_cons in Hk as [->|Hk]; [done|]). by apply elem_of_nil in Hk.
  - repeat (apply elem_of_cons in Hk as [->|Hk]; [by injection Hn as <-|]). by apply elem_of_nil in Hk.
Qed.

Lemma build_stable_dfs_correct_witness :
  ∃ g L, represents g L (node_at lookup13) (kids lookup13 children13) ∧
     dfs_rel (kids lookup13 children13) [] [0] L ∧
     ∀ sched, Graph_build_stable_dfs id lookup13 children13 sched 6 20 [0] = Ok (inr g).
Proof.
  apply (build_stable_dfs_correct id lookup13 children13 [0; 1; 2; 3; 10; 13]).
  - set_solver.
  - exact children13_closed.
  - done.
  - done.
  - vm_compute. lia.
  - exact no_failure_from_0.
Defined.

(** The trace of a failure. *)
Example trace_of_13 :
  Graph_build_stable_dfs id lookup13 children13 (λ _, 1) 6 20 [0; 10] =
  Ok (inl (tt, [ErrorTraversingChildrenOf 10])).
Proof. by vm_compute. Qed.
