(* ===== verification/QuerySearch.v ===== *)
(** The searches of the query engine that resolve nodes as they go: the search for a shortest path
    ([src/app/bz_query/src/query/graph/async_bfs.rs]), the traversal up to a depth and the
    postorder traversal that waits on each lookup ([src/app/bz_query/src/query/traversal.rs]).

    [FuturesOrdered] yields the lookups in the order they were pushed, so a search is sequential.
    The lookup and the visitor of children are functions, as in [QueryGraph].  An error is the
    first failure with its contexts, the outermost first.  Loops run on a fuel of one step per
    node ([async_bfs_find_path], [async_depth_limited_traversal]) or per node and edge. *)
From S2P Require Import Prelude.
From S2P Require Import QueryTraversal.
From S2P Require Import QueryGraph.
From S2P Require Import QueryLayout.
From S2P Require Import QueryBuild.
Local Open Scope dice_scope.

(** * Definitions *)

Inductive SearchError (K E : Type) :=
| Failed (e : E)
| MissingNode (key : K)
| DuplicateNode (key : K).
Arguments Failed {_ _} _.
Arguments MissingNode {_ _} _.
Arguments DuplicateNode {_ _} _.

Record SearchNode (K T : Type) := {
  sn_parent : option K;
  sn_node : option T;
}.
Arguments Build_SearchNode {_ _} _ _.
Arguments sn_parent {_ _} _.
Arguments sn_node {_ _} _.

Section FindPath.
Context {K T E : Type} `{Countable K}.
Context (node_key : T → K) (lookup : K → E + T) (for_each_child : T → list K * option E).
Context (target : K → option T).

Notation BfsVisited := (gmap K (SearchNode K T)).

(** The loop of [take_path]: the nodes along the parents. *)
Fixpoint take_parents (fuel : nat) (visited : BfsVisited) (parent_key : option K) :
    outcome (SearchError K E + list T) :=
  match parent_key with
  | None => Ok (inr [])
  | Some key =>
      match fuel with
      | 0 => Panic
      | S fuel =>
          match visited !! key with
          | Some {| sn_parent := parent; sn_node := Some node |} =>
              rest ← take_parents fuel (delete key visited) parent;
              Ok (match rest with inl e => inl e | inr items => inr (node :: items) end)
          | _ => Ok (inl (MissingNode key))
          end
      end
  end.

Definition BfsVisited_take_path (self : BfsVisited) (last : K) : outcome (SearchError K E + list T) :=
  match self !! last with
  | None => Ok (inl (MissingNode last))
  | Some {| sn_node := Some _ |} => Ok (inl (DuplicateNode last))
  | Some {| sn_parent := parent; sn_node := None |} => take_parents (size self) (delete last self) parent
  end.

Record FindState := {
  fs_visited : BfsVisited;
  fs_queue : list (K * (E + T));
  fs_found : option T;
}.

(** One root: the search ends at once if it is a target. *)
Definition find_root (st : FindState) (root : T) : FindState :=
  if fs_found st then st else
  match fs_visited st !! node_key root with
  | Some _ => st
  | None =>
      match target (node_key root) with
      | Some t => {| fs_visited := fs_visited st; fs_queue := fs_queue st; fs_found := Some t |}
      | None =>
          {| fs_visited := <[node_key root := Build_SearchNode None None]> (fs_visited st);
             fs_queue := fs_queue st ++ [(node_key root, inr root)]; fs_found := None |}
      end
  end.

(** The callback of [for_each_child]. *)
Definition find_child (node : T) (st : FindState) (succ : K) : FindState :=
  if fs_found st then st else
  match fs_visited st !! succ with
  | Some _ => st
  | None =>
      match target succ with
      | Some t => {| fs_visited := fs_visited st; fs_queue := fs_queue st; fs_found := Some t |}
      | None =>
          {| fs_visited := <[succ := Build_SearchNode (Some (node_key node)) None]> (fs_visited st);
             fs_queue := fs_queue st ++ [(succ, lookup succ)]; fs_found := None |}
      end
  end.

Fixpoint find_loop (fuel : nat) (visited : BfsVisited) (queue : list (K * (E + T))) :
    outcome ((SearchError K E * list K) + option (list T)) :=
  match queue with
  | [] => Ok (inr None)
  | (key, node) :: queue =>
      match fuel with
      | 0 => Panic
      | S fuel =>
          match node with
          | inr node =>
              let '(children, result) := for_each_child node in
              let st := foldl (find_child node)
                {| fs_visited := visited; fs_queue := queue; fs_found := None |} children in
              match result, fs_found st with
              | Some e, _ => Ok (inl (Failed e, []))
              | None, Some found =>
                  path ← BfsVisited_take_path (fs_visited st) (node_key node);
                  match path with
                  | inl e => Ok (inl (e, []))
                  | inr parents => Ok (inr (Some (reverse ([found; node] ++ parents))))
                  end
              | None, None =>
                  match fs_visited st !! key with
                  | None => Ok (inl (MissingNode key, []))
                  | Some entry =>
                      match sn_node entry with
                      | Some _ => Ok (inl (DuplicateNode key, []))
                      | None => find_loop fuel
                          (<[key := Build_SearchNode (sn_parent entry) (Some node)]> (fs_visited st))
                          (fs_queue st)
                      end
                  end
              end
          | inl e =>
              nodes ← BfsVisited_take_path visited key;
              match nodes with
              | inl e => Ok (inl (e, []))
              | inr nodes => Ok (inl (Failed e, reverse (node_key <$> nodes) ++ [key]))
              end
          end
      end
  end.

Definition async_bfs_find_path (fuel : nat) (roots : list T) :
    outcome ((SearchError K E * list K) + option (list T)) :=
  let st := foldl find_root {| fs_visited := ∅; fs_queue := []; fs_found := None |} roots in
  match fs_found st with
  | Some t => Ok (inr (Some [t]))
  | None => find_loop fuel (fs_visited st) (fs_queue st)
  end.
End FindPath.

Section DepthLimited.
Context {K T E S : Type} `{Countable K}.
Context (lookup : K → E + T) (for_each_child : T → list K * option E).
Context (visit : S → T → S * option E) (max_depth : nat).

(** The closure [push]: parents of what was seen, and the queue of keys with their depth. *)
Definition limited_push (parent : option K) (depth : nat) (st : gmap K (option K) * list (K * nat))
    (key : K) : gmap K (option K) * list (K * nat) :=
  let '(visited, queue) := st in
  if visited !! key then st else (<[key := parent]> visited, queue ++ [(key, depth)]).

(** The contexts along the parents; the walk has at most as many steps as keys were seen. *)
Fixpoint limited_contexts (fuel : nat) (visited : gmap K (option K)) (key : K) (e : list K) :
    outcome (list K) :=
  match visited !! key with
  | Some (Some parent) =>
      match fuel with
      | 0 => Panic
      | Datatypes.S fuel => limited_contexts fuel visited parent (parent :: e)
      end
  | _ => Ok e
  end.

(** The [try] block. *)
Definition limited_node (visited : gmap K (option K)) (queue : list (K * nat)) (key : K) (depth : nat)
    (s : S) : (gmap K (option K) * list (K * nat)) * S * option E :=
  match lookup key with
  | inl e => ((visited, queue), s, Some e)
  | inr node =>
      if decide (depth = max_depth) then
        let '(s, r) := visit s node in ((visited, queue), s, r)
      else
        let '(children, result) := for_each_child node in
        let st := foldl (limited_push (Some key) (depth + 1)) (visited, queue) children in
        match result with
        | Some e => (st, s, Some e)
        | None => let '(s, r) := visit s node in (st, s, r)
        end
  end.

Fixpoint limited_loop (fuel : nat) (visited : gmap K (option K)) (queue : list (K * nat)) (s : S) :
    outcome (S * option (E * list K)) :=
  match queue with
  | [] => Ok (s, None)
  | (key, depth) :: queue =>
      match fuel with
      | 0 => Panic
      | Datatypes.S fuel =>
          let '((visited, queue), s, r) := limited_node visited queue key depth s in
          match r with
          | Some e => ctx ← limited_contexts (size visited) visited key []; Ok (s, Some (e, ctx))
          | None => limited_loop fuel visited queue s
          end
      end
  end.

Definition async_depth_limited_traversal (fuel : nat) (root : list K) (s : S) :
    outcome (S * option (E * list K)) :=
  let '(visited, queue) := foldl (limited_push None 0) (∅, []) root in
  limited_loop fuel visited queue s.
End DepthLimited.

Section FastPostorder.
Context {K T E S : Type} `{Countable K}.
Context (lookup : K → E + T) (for_each_child : T → list K * option E) (visit : S → T → S * option E).

Inductive FastWorkItem :=
| FastPostVisit (n : T)
| FastVisit (k : K).

Definition push_unvisited (visited : gset K) (work : list FastWorkItem) (child : K) : list FastWorkItem :=
  if decide (child ∈ visited) then work else FastVisit child :: work.

Fixpoint fast_loop (fuel : nat) (visited : gset K) (work : list FastWorkItem) (s : S) :
    outcome (S * option E) :=
  match work with
  | [] => Ok (s, None)
  | curr :: work =>
      match fuel with
      | 0 => Panic
      | Datatypes.S fuel =>
          match curr with
          | FastVisit target =>
              if decide (target ∈ visited) then fast_loop fuel visited work s else
              match lookup target with
              | inl e => Ok (s, Some e)
              | inr node =>
                  let '(children, result) := for_each_child node in
                  match result with
                  | Some e => Ok (s, Some e)
                  | None => fast_loop fuel ({[target]} ∪ visited)
                      (foldl (push_unvisited ({[target]} ∪ visited)) (FastPostVisit node :: work) children) s
                  end
              end
          | FastPostVisit target =>
              match visit s target with
              | (s, Some e) => Ok (s, Some e)
              | (s, None) => fast_loop fuel visited work s
              end
          end
      end
  end.

Definition async_fast_depth_first_postorder_traversal (fuel : nat) (root : list K) (s : S) :
    outcome (S * option E) :=
  fast_loop fuel ∅ (reverse (FastVisit <$> root)) s.
End FastPostorder.

(** [async_depth_first_postorder_traversal]: build the graph, then traverse it. *)
Definition async_depth_first_postorder_traversal {K T E S : Type} `{Countable K} (node_key : T → K)
    (lookup : K → E + T) (for_each_child : T → list K * option E) (visit : S → T → S * option E)
    (sched : nat → nat) (fuel dfs_fuel : nat) (root : list K) (s : S) :
    outcome (S * option (E * list (Context K))) :=
  r ← Graph_build node_key lookup for_each_child sched fuel root;
  match r with
  | inl e => Ok (s, Some e)
  | inr graph =>
      '(s, r) ← Graph_depth_first_postorder_traversal dfs_fuel graph root visit s;
      Ok (s, match r with Some e => Some (e, []) | None => None end)
  end.

(** The graphs of the unit tests of [async_bfs.rs]; the nodes of [errors] cannot be looked up. *)
Definition bfs_find_path (edges : list (nat * nat)) (errors roots : list nat) (goal : nat) :=
  async_bfs_find_path id (λ k, if decide (k ∈ errors) then inl tt else inr k)
    (λ n, (snd <$> filter (λ e, e.1 = n) edges, None))
    (λ k, if decide (k = goal) then Some k else None) 20 roots.

Example test_async_bfs_find_path_branch :
  bfs_find_path [(0, 1); (0, 3); (1, 2); (2, 3); (3, 4)] [] [0] <$> [0; 1; 2; 3; 4] =
  [Ok (inr (Some [0])); Ok (inr (Some [0; 1])); Ok (inr (Some [0; 1; 2])); Ok (inr (Some [0; 3]));
   Ok (inr (Some [0; 3; 4]))].
Proof. by vm_compute. Qed.

Example test_async_bfs_find_path_error :
  bfs_find_path [(0, 1); (1, 2); (2, 3)] [3] [0] 9 = Ok (inl (Failed tt, [0; 1; 2; 3])).
Proof. by vm_compute. Qed.

Example test_async_bfs_find_path_no_path :
  bfs_find_path [(0, 1); (1, 2); (1, 3); (1, 4); (2, 3); (3, 4)] [] [0] 10 = Ok (inr None).
Proof. by vm_compute. Qed.

Example test_async_depth_limited_traversal :
  async_depth_limited_traversal (λ k, @inr unit nat k)
    (λ n, (snd <$> filter (λ e, e.1 = n) [(0, 1); (0, 3); (1, 2); (2, 3); (3, 4)], None))
    (λ s n, (s ++ [n], None)) 1 10 [0] [] = Ok ([0; 1; 3], None).
Proof. by vm_compute. Qed.

(** A visitor that notes the nodes. *)
Definition note13 (s : list nat) (n : nat) : list nat * option unit := (s ++ [n], None).
