(* ===== verification/QueryFindPath.v ===== *)
(** [async_bfs_find_path] finds a shortest path or explains why it failed. *)
From S2P Require Import Prelude.
From S2P Require Import QueryTraversal.
From S2P Require Import QueryGraph.
From S2P Require Import QueryLayout.
From S2P Require Import QueryBuild.
From S2P Require Import QuerySearch.
Local Open Scope dice_scope.

(** * The shortest path *)

Section FindPathSpec.
Context {K T E : Type} `{Countable K}.
Context (node_key : T → K) (lookup : K → E + T) (for_each_child : T → list K * option E).
Context (target : K → option T).
Context (universe : list K) (roots : list T).

(** The node that the search uses for a key: a root stands for itself. *)
Definition resolve (k : K) : E + T :=
  match list_find (λ r, node_key r = k) roots with Some (_, r) => inr r | None => lookup k end.

Local Notation kids := (kids resolve for_each_child).
Local Notation fails := (fails resolve for_each_child).
Local Notation BfsVisited := (gmap K (SearchNode K T)).
Local Notation rkeys := (node_key <$> roots).
Local Notation within := (within (key_succs kids) rkeys).
Local Notation root_path := (root_path kids rkeys).
Local Notation bfs_inv := (bfs_inv (key_succs kids) rkeys).

Context (Hkey : ∀ k n, lookup k = inr n → node_key n = k).
Context (Hclosed : ∀ k c, k ∈ universe → c ∈ kids k → c ∈ universe).
Context (Hroots : ∀ r, r ∈ rkeys → r ∈ universe).

Lemma resolve_key k n : resolve k = inr n → node_key n = k.
Proof using Hkey.
  unfold resolve. destruct (list_find _ roots) as [[i r]|] eqn:Ef; [|apply Hkey].
  intros [= <-]. by apply list_find_Some in Ef as (_ & ? & _).
Qed.

Lemma resolve_lookup k : k ∉ rkeys → resolve k = lookup k.
Proof.
  intros Hk. unfold resolve. destruct (list_find _ roots) as [[i r]|] eqn:Ef; [|done].
  apply list_find_Some in Ef as (Hr%list_elem_of_lookup_2 & <- & _). destruct Hk.
  apply list_elem_of_fmap. eauto.
Qed.

Lemma keys_closed : closed_under (key_succs kids) universe.
Proof using Hclosed. intros k Hk. exists (kids k). split; [done|]. intros c. by apply Hclosed. Qed.

(** The exact distance from the roots. *)
Definition dist (m : nat) (k : K) : Prop := within m k ∧ ∀ j, j < m → ¬ within j k.

Lemma dist_fun m1 m2 k : dist m1 k → dist m2 k → m1 = m2.
Proof.
  intros [H1 N1] [H2 N2]. destruct (lt_eq_lt_dec m1 m2) as [[Hlt|Heq]|Hlt]; [|done|].
  - by destruct (N2 m1 Hlt).
  - by destruct (N1 m2 Hlt).
Qed.

(** What a key's parent is: none for a root, otherwise a handled key one level up. *)
Definition parent_is (don : list K) (k : K) (parent : option K) : Prop :=
  match parent with
  | None => k ∈ rkeys
  | Some p => p ∈ don ∧ k ∈ kids p ∧ ∃ m, dist m p ∧ dist (S m) k
  end.

Record find_inv (d : nat) (don q1 q2 : list K) (visited : BfsVisited) : Prop := {
  fi_bfs : bfs_inv d don q1 q2;
  fi_visited : ∀ k, is_Some (visited !! k) ↔ k ∈ don ++ q1 ++ q2;
  fi_target : ∀ k, k ∈ don ++ q1 ++ q2 → target k = None;
  fi_done : ∀ k n, visited !! k = Some n → k ∈ don →
    ∃ t, sn_node n = Some t ∧ resolve k = inr t ∧ (for_each_child t).2 = None;
  fi_pending : ∀ k n, visited !! k = Some n → k ∉ don → sn_node n = None;
  fi_parent : ∀ k n, visited !! k = Some n → parent_is don k (sn_parent n);
}.

(** Walking the parents gives the nodes of a path from a root, nearest first, one per level. *)
Lemma take_parents_spec d don q1 q2 visited m k fuel v parent :
  find_inv d don q1 q2 visited → dist m k → parent_is don k parent →
  (∀ j p, j < m → dist j p → v !! p = visited !! p) → size v ≤ fuel →
  ∃ ns ks, take_parents (E := E) fuel v parent = Ok (inr (reverse ns)) ∧
    Forall2 (λ n p, resolve p = inr n) ns ks ∧ root_path ks k ∧ length ks = m.
Proof.
  intros Hinv. revert m k v parent. induction fuel as [|fuel IH]; intros m k v parent Hd Hpar Hv Hsize.
  all: destruct parent as [p|]; cbn in Hpar.
  2,4: exists [], []; split_and!; [done|constructor|by apply root_path_root|];
       cbn; apply (dist_fun _ _ k); [|exact Hd]; split; [done|lia].
  all: destruct Hpar as (Hp & Hk & m' & Hdp & Hdk); pose proof (dist_fun _ _ _ Hd Hdk) as ->.
  all: assert (is_Some (visited !! p)) as [n Hn] by (apply (fi_visited _ _ _ _ _ Hinv); set_solver).
  all: assert (v !! p = Some n) as Hvp by (rewrite (Hv m') by (lia || done); done).
  { apply Nat.le_0_r, map_size_empty_inv in Hsize. by rewrite Hsize, lookup_empty in Hvp. }
  cbn [take_parents]. rewrite Hvp.
  destruct (fi_done _ _ _ _ _ Hinv p n Hn Hp) as (t & Et & Er & _).
  pose proof (fi_parent _ _ _ _ _ Hinv p n Hn) as Hpp. destruct n as [parent node]. cbn in Et, Hpp. subst node.
  destruct (IH m' p (delete p v) parent Hdp Hpp) as (ns & ks & -> & Hns & Hpath & Hlen).
  - intros j q Hj Hq. rewrite lookup_delete_ne; [apply (Hv j q); [lia|done]|].
    intros <-. pose proof (dist_fun _ _ _ Hdp Hq). lia.
  - rewrite map_size_delete_Some by (by eexists). lia.
  - cbn [mbind outcome_bind]. exists (ns ++ [t]), (ks ++ [p]). split_and!.
    + by rewrite reverse_app.
    + apply Forall2_app; [done|by repeat constructor].
    + by apply root_path_snoc.
    + rewrite length_app. cbn. lia.
Qed.

(** [take_path] on the key [c] at the front of the queue. *)
Lemma take_path_spec d don c q1 q2 visited v n :
  find_inv d don (c :: q1) q2 visited → visited !! c = Some n →
  (∀ k, is_Some (visited !! k) → v !! k = visited !! k) →
  ∃ ns ks, BfsVisited_take_path (E := E) v c = Ok (inr (reverse ns)) ∧
    Forall2 (λ n p, resolve p = inr n) ns ks ∧ root_path ks c ∧ length ks = d.
Proof.
  intros Hinv Hn Hv. pose proof (fi_bfs _ _ _ _ _ Hinv) as Hb.
  assert (c ∉ don) as Hc.
  { pose proof (bf_nodup _ _ _ _ _ _ Hb) as Hnd. apply NoDup_app in Hnd as (_ & Hnd & _).
    intros Hin. apply (Hnd c Hin). set_solver. }
  assert (dist d c) as Hd.
  { split; [apply (bf_level _ _ _ _ _ _ Hb); set_solver|]. intros j Hj. eapply bf_exact; [done| |done]. set_solver. }
  pose proof (fi_pending _ _ _ _ _ Hinv c n Hn Hc) as Enode.
  pose proof (fi_parent _ _ _ _ _ Hinv c n Hn) as Hpar.
  unfold BfsVisited_take_path. rewrite Hv, Hn by (by exists n). destruct n as [parent node]. cbn in Enode, Hpar. subst node.
  eapply take_parents_spec; [done..| |].
  - intros j p Hj Hp. rewrite lookup_delete_ne by (intros <-; pose proof (dist_fun _ _ _ Hd Hp); lia).
    apply Hv, (fi_visited _ _ _ _ _ Hinv). rewrite app_assoc. apply elem_of_app. left.
    apply (bf_level _ _ _ _ _ _ Hb). destruct Hp as [Hp _]. apply (within_mono _ _ j); [lia|done].
  - apply map_subseteq_size, delete_subseteq.
Qed.

Lemma find_child_found node st cs t :
  fs_found st = Some t → foldl (find_child node_key lookup target node) st cs = st.
Proof.
  intros Hf. induction cs as [|c cs IH]; cbn; [done|]. unfold find_child at 2. by rewrite Hf.
Qed.

(** What visiting the children does: the new keys are looked up, until a target is found. *)
Lemma find_children_spec node cs (v : BfsVisited) q :
  let st := foldl (find_child node_key lookup target node)
              {| fs_visited := v; fs_queue := q; fs_found := None |} cs in
  ∃ new, NoDup new ∧ (∀ x, x ∈ new → x ∈ cs ∧ v !! x = None ∧ target x = None) ∧
    (∀ k, fs_visited st !! k =
          if decide (k ∈ new) then Some (Build_SearchNode (Some (node_key node)) None) else v !! k) ∧
    fs_queue st = q ++ ((λ k, (k, lookup k)) <$> new) ∧
    match fs_found st with
    | None => ∀ x, x ∈ cs → x ∈ new ∨ is_Some (v !! x)
    | Some t => ∃ c, c ∈ cs ∧ target c = Some t
    end.
Proof.
  revert v q. induction cs as [|c cs IH]; intros v q; cbn [foldl].
  { exists []. rewrite app_nil_r. split_and!; [constructor|set_solver|done|done|set_solver]. }
  unfold find_child at 2 4 6. cbn [fs_found fs_visited fs_queue].
  destruct (v !! c) as [n|] eqn:Ec.
  { destruct (IH v q) as (new & Hnd & Hnew & Hv & Hq & Hf). exists new. split_and!; [done|set_solver|done|done|].
    destruct (fs_found _).
    - destruct Hf as (c' & ? & ?). exists c'. set_solver.
    - intros x [->|Hx]%elem_of_cons; [right; by exists n|auto]. }
  destruct (target c) as [t|] eqn:Et.
  { rewrite (find_child_found _ _ _ t) by done. exists []. cbn. rewrite app_nil_r.
    split_and!; [constructor|set_solver|done|done|]. exists c. set_solver. }
  match goal with |- context [foldl _ {| fs_visited := ?v'; fs_queue := ?q'; fs_found := None |} cs] =>
    destruct (IH v' q') as (new & Hnd & Hnew & Hv & Hq & Hf) end.
  assert (c ∉ new) as Hcn by (intros Hin%Hnew; destruct Hin as (_ & Hin & _); by rewrite lookup_insert_eq in Hin).
  exists (c :: new). split_and!.
  - by apply NoDup_cons.
  - intros x [->|Hx]%elem_of_cons; [set_solver|]. destruct (Hnew x Hx) as (? & Hvx & ?).
    apply lookup_insert_None in Hvx as [? _]. split_and!; [set_solver|done|done].
  - intros k. rewrite Hv. destruct (decide (k = c)) as [->|Hkc].
    + rewrite decide_False, decide_True, lookup_insert_eq by set_solver. done.
    + rewrite lookup_insert_ne by done. apply decide_ext. set_solver.
  - rewrite Hq, <- app_assoc. done.
  - destruct (fs_found _).
    + destruct Hf as (c' & ? & ?). exists c'. set_solver.
    + intros x [->|Hx]%elem_of_cons; [set_solver|]. destruct (Hf x Hx) as [?|[n Hn]]; [set_solver|].
      apply lookup_insert_Some in Hn as [[-> _]|[_ Hn]]; [set_solver|]. right. by exists n.
Qed.

(** The keys that are handled next keep the invariant. *)
Lemma find_step_inv d don c q1 q2 visited v n t new :
  find_inv d don (c :: q1) q2 visited → visited !! c = Some n → resolve c = inr t →
  (for_each_child t).2 = None → NoDup new →
  (∀ x, x ∈ new → x ∈ kids c ∧ visited !! x = None ∧ target x = None) →
  (∀ x, x ∈ kids c → x ∈ new ∨ is_Some (visited !! x)) →
  (∀ k, v !! k = if decide (k ∈ new) then Some (Build_SearchNode (Some c) None) else visited !! k) →
  find_inv d (don ++ [c]) q1 (q2 ++ new) (<[c := Build_SearchNode (sn_parent n) (Some t)]> v).
Proof using All.
  intros Hinv Hn Ht Hok Hnd Hnew Hall Hv. pose proof (fi_bfs _ _ _ _ _ Hinv) as Hb.
  assert (∀ x, is_Some (visited !! x) ↔ x ∈ don ++ (c :: q1) ++ q2) as Hdom by apply Hinv.
  assert (c ∉ new) as Hcn by (intros Hin%Hnew; destruct Hin as (_ & Hin & _); congruence).
  assert (bfs_inv d (don ++ [c]) q1 (q2 ++ new)) as Hb'.
  { eapply (bfs_step_inv _ _ _ keys_closed Hroots); [done|done|done| |].
    - intros x Hx. destruct (Hnew x Hx) as (? & Hvx & _). split; [done|]. intros Hin%Hdom.
      rewrite Hvx in Hin. by destruct Hin.
    - intros x Hx. destruct (Hall x Hx) as [?|?%Hdom]; auto. }
  assert (∀ x, x ∈ (don ++ [c]) ++ q1 ++ q2 ++ new ↔ x ∈ don ++ (c :: q1) ++ q2 ∨ x ∈ new) as Hsplit by set_solver.
  assert (dist d c) as Hdc.
  { split; [apply (bf_level _ _ _ _ _ _ Hb); set_solver|]. intros j Hj. eapply bf_exact; [exact Hb| |done]. set_solver. }
  split.
  - done.
  - intros k. rewrite Hsplit, <- Hdom. destruct (decide (k = c)) as [->|Hkc].
    + rewrite lookup_insert_eq, Hn. split; eauto.
    + rewrite lookup_insert_ne, Hv by done. case_decide; [split; eauto|]. naive_solver.
  - intros k [Hk|Hk]%Hsplit; [by apply (fi_target _ _ _ _ _ Hinv)|by apply Hnew].
  - intros k m Hm Hk. destruct (decide (k = c)) as [->|Hkc].
    + rewrite lookup_insert_eq in Hm. injection Hm as <-. cbn. eauto.
    + rewrite lookup_insert_ne, Hv in Hm by done. assert (k ∈ don) as Hkd by set_solver.
      rewrite decide_False in Hm; [by eapply (fi_done _ _ _ _ _ Hinv)|].
      intros Hin%Hnew. destruct Hin as (_ & Hin & _). assert (is_Some (visited !! k)) as [? ?] by (apply Hdom; set_solver).
      congruence.
  - intros k m Hm Hk. rewrite lookup_insert_ne, Hv in Hm by set_solver. case_decide.
    + by injection Hm as <-.
    + eapply (fi_pending _ _ _ _ _ Hinv); [done|set_solver].
  - intros k m Hm. assert (∀ k par, parent_is don k par → parent_is (don ++ [c]) k par) as Hmono.
    { intros k' [p|]; cbn; [|done]. intros (? & ? & ?). split_and!; [set_solver|done|done]. }
    destruct (decide (k = c)) as [->|Hkc].
    + rewrite lookup_insert_eq in Hm. injection Hm as <-. apply Hmono. by apply (fi_parent _ _ _ _ _ Hinv c n).
    + rewrite lookup_insert_ne, Hv in Hm by done. case_decide as Hkn.
      * injection Hm as <-. cbn. destruct (Hnew k Hkn) as (Hkc' & Hvk & _). split_and!; [set_solver|done|].
        exists d. split; [done|]. split.
        -- cbn. right. exists c. split; [apply Hdc|]. by apply key_edge.
        -- intros j Hj Hw. assert (within d k) as Hwd. { apply (within_mono _ _ j); [lia|]. exact Hw. }
           apply (bf_level _ _ _ _ _ _ Hb) in Hwd. assert (is_Some (visited !! k)) as [? ?] by (apply Hdom; set_solver).
           congruence.
      * apply Hmono. by apply (fi_parent _ _ _ _ _ Hinv).
Qed.

(** What the search may answer. *)
Definition find_result (r : (SearchError K E * list K) + option (list T)) : Prop :=
  match r with
  | inr (Some path) => ∃ ns ks c t, path = ns ++ [t] ∧ Forall2 (λ n p, resolve p = inr n) ns ks ∧
      root_path ks c ∧ target c = Some t ∧ ∀ k j, j < length ks → within j k → target k = None
  | inr None => ∀ k, reached (key_succs kids) rkeys k → target k = None ∧ ∀ e, ¬ fails k e
  | inl (Failed e, ctx) =>
      (∃ ks k, resolve k = inl e ∧ root_path ks k ∧ ctx = ks ++ [k]) ∨
      (∃ k n, reached (key_succs kids) rkeys k ∧ resolve k = inr n ∧
              (for_each_child n).2 = Some e ∧ ctx = [])
  | inl _ => False
  end.

Lemma nodes_keys ns ks : Forall2 (λ n p, resolve p = inr n) ns ks → node_key <$> ns = ks.
Proof using Hkey. induction 1 as [|n p ns ks Hp _ IH]; cbn; [done|]. by rewrite IH, (resolve_key p n Hp). Qed.

Lemma find_done d don visited :
  find_inv d don [] [] visited → find_result (inr None).
Proof.
  intros Hinv k Hk. apply (bfs_end _ _ d don _ (fi_bfs _ _ _ _ _ Hinv)) in Hk.
  assert (k ∈ don ++ [] ++ []) as Hk' by (by rewrite !app_nil_r).
  split; [by apply (fi_target _ _ _ _ _ Hinv)|]. intros e Hf.
  destruct (proj2 (fi_visited _ _ _ _ _ Hinv k) Hk') as [n Hn].
  destruct (fi_done _ _ _ _ _ Hinv k n Hn Hk) as (t & _ & Ht & Hok).
  destruct Hf as [Ef|(t' & Et & Ef)]; [by rewrite Ht in Ef|]. rewrite Ht in Et. injection Et as <-. congruence.
Qed.

Lemma find_loop_spec fuel d don q1 q2 visited :
  find_inv d don q1 q2 visited → length universe ≤ length don + fuel →
  returns (find_loop node_key lookup for_each_child target fuel visited
             ((λ k, (k, resolve k)) <$> (q1 ++ q2))) find_result.
Proof using All.
  revert d don q1 q2 visited. induction fuel as [|fuel IH]; intros d don q1 q2 visited Hinv Hfuel.
  all: pose proof (bfs_inv_length _ _ _ keys_closed Hroots _ _ _ _ (fi_bfs _ _ _ _ _ Hinv)) as Hlen;
    rewrite length_app in Hlen; destruct (q1 ++ q2) as [|c q] eqn:Eq; cbn [length] in Hlen;
    [apply app_eq_nil in Eq as [-> ->]; by eapply find_done|].
  { lia. }
  destruct (bfs_front _ _ _ keys_closed Hroots _ _ _ _ _ _ (fi_bfs _ _ _ _ _ Hinv) Eq) as (e & p1 & p2 & -> & Hb).
  assert (find_inv e don (c :: p1) p2 visited) as Hinv'.
  { destruct Hinv as [_ Hv Ht Hd Hp Hpar]. rewrite Eq in Hv, Ht. by split. }
  clear Hinv Eq q1 q2 d. cbn [fmap list_fmap find_loop].
  destruct (proj2 (fi_visited _ _ _ _ _ Hinv' c)) as [n Hn]; [set_solver|].
  assert (reached (key_succs kids) rkeys c) as Hreach.
  { apply within_reached. exists e. apply (bf_level _ _ _ _ _ _ Hb). set_solver. }
  destruct (resolve c) as [err|t] eqn:Ec.
  { destruct (take_path_spec _ _ _ _ _ visited visited n Hinv' Hn) as (ns & ks & -> & Hns & Hpath & _); [done|].
    cbn. left. exists ks, c. rewrite fmap_reverse, reverse_involutive, (nodes_keys _ _ Hns). done. }
  destruct (for_each_child t) as [cs result] eqn:Et.
  assert (kids c = cs) as Ekids by (unfold QueryBuild.kids; by rewrite Ec, Et).
  rewrite (resolve_key c t Ec).
  pose proof (find_children_spec t cs visited ((λ k, (k, resolve k)) <$> (p1 ++ p2))) as Hcs.
  cbn zeta in Hcs. set (st := foldl _ _ cs) in *.
  destruct Hcs as (new & Hnd & Hnew & Hv & Hq & Hf). rewrite (resolve_key c t Ec) in Hv.
  assert (∀ k, is_Some (visited !! k) → fs_visited st !! k = visited !! k) as Hsame.
  { intros k Hk. rewrite Hv, decide_False; [done|]. intros Hin%Hnew. destruct Hin as (_ & Hin & _).
    rewrite Hin in Hk. by destruct Hk. }
  destruct result as [err|].
  { cbn. right. exists c, t. by rewrite Et. }
  destruct (fs_found st) as [g|].
  - destruct (take_path_spec _ _ _ _ _ visited (fs_visited st) n Hinv' Hn Hsame) as (ns & ks & -> & Hns & Hpath & Hlk).
    destruct Hf as (x & Hx & Hg). cbn [mbind outcome_bind returns find_result].
    exists (ns ++ [t]), (ks ++ [c]), x, g. split_and!.
    + cbn [app]. by rewrite !reverse_cons, reverse_involutive.
    + apply Forall2_app; [done|by repeat constructor].
    + apply root_path_snoc; [done|]. by rewrite Ekids.
    + done.
    + intros k j Hj Hw. rewrite length_app in Hj. cbn in Hj. apply (fi_target _ _ _ _ _ Hinv').
      assert (k ∈ don ++ c :: p1) as Hk; [|set_solver].
      apply (bf_level _ _ _ _ _ _ Hb), (within_mono _ _ j); [lia|done].
  - rewrite Hsame, Hn by (by exists n). 
    assert (c ∉ don) as Hc.
    { pose proof (bf_nodup _ _ _ _ _ _ Hb) as Hn'. apply NoDup_app in Hn' as (_ & Hn' & _).
      intros Hin. apply (Hn' c Hin). set_solver. }
    rewrite (fi_pending _ _ _ _ _ Hinv' c n Hn Hc).
    assert (find_inv e (don ++ [c]) p1 (p2 ++ new)
              (<[c := Build_SearchNode (sn_parent n) (Some t)]> (fs_visited st))) as Hstep.
    { eapply find_step_inv; [done|done|done|by rewrite Et|done| | |done].
      - intros x Hx. rewrite Ekids. by apply Hnew.
      - intros x. rewrite Ekids. apply Hf. }
    assert (((λ k, (k, resolve k)) <$> (p1 ++ p2)) ++ ((λ k, (k, lookup k)) <$> new) =
            (λ k, (k, resolve k)) <$> (p1 ++ p2 ++ new)) as Equeue.
    { rewrite !fmap_app, <- app_assoc. do 2 f_equal. apply list_fmap_ext. intros i k Hk. f_equal.
      symmetry. apply resolve_lookup. intros Hr. apply list_elem_of_lookup_2, Hnew in Hk as (_ & Hk & _).
      assert (is_Some (visited !! k)) as [? ?]; [|congruence]. apply (fi_visited _ _ _ _ _ Hinv').
      rewrite app_assoc. apply elem_of_app. left. apply (bf_level _ _ _ _ _ _ Hb).
      by apply (within_mono _ _ 0); [lia|]. }
    rewrite Hq, Equeue. apply (IH _ _ _ _ _ Hstep). rewrite length_app. cbn. lia.
Qed.

Lemma resolve_first rs r rest :
  roots = rs ++ r :: rest → node_key r ∉ node_key <$> rs → resolve (node_key r) = inr r.
Proof.
  intros Er Hr. unfold resolve.
  assert (list_find (λ x, node_key x = node_key r) roots = Some (length rs, r)) as ->; [|done].
  apply list_find_Some. rewrite Er. split_and!; [by apply list_lookup_middle|done|].
  intros j y Hj Hlt Hy. apply Hr. apply list_elem_of_fmap. exists y. split; [done|].
  rewrite lookup_app_l in Hj by done. by eapply list_elem_of_lookup_2.
Qed.

(** The state after the roots [rs]: each key once, unless a target was among them. *)
Lemma find_roots_spec rs rest :
  roots = rs ++ rest →
  let st := foldl (find_root (E := E) node_key target)
              {| fs_visited := ∅; fs_queue := []; fs_found := None |} rs in
  match fs_found st with
  | Some t => ∃ r, r ∈ roots ∧ target (node_key r) = Some t
  | None => ∃ ks, NoDup ks ∧ (∀ x, x ∈ ks ↔ x ∈ node_key <$> rs) ∧ (∀ x, x ∈ ks → target x = None) ∧
      fs_queue st = (λ k, (k, resolve k)) <$> ks ∧
      ∀ k, fs_visited st !! k = if decide (k ∈ ks) then Some (Build_SearchNode None None) else None
  end.
Proof.
  revert rest. induction rs as [|r rs IH] using rev_ind; intros rest Er.
  { exists []. split_and!; [constructor|done|set_solver|done|]. intros k. apply lookup_empty. }
  rewrite <- app_assoc in Er. cbn [app] in Er. specialize (IH _ Er). cbn zeta in *. rewrite foldl_app. cbn [foldl].
  set (st := foldl _ _ rs) in *. unfold find_root. destruct (fs_found st) as [t|] eqn:Ef.
  { by rewrite Ef. }
  destruct IH as (ks & Hnd & Hks & Ht & Hq & Hv). rewrite Hv. case_decide as Hr.
  { rewrite Ef. exists ks. split_and!; [done| |done|done|done]. intros x. rewrite Hks, fmap_app.
    rewrite Hks in Hr. cbn. set_solver. }
  destruct (target (node_key r)) as [t|] eqn:Et; cbn.
  { exists r. split; [|done]. rewrite Er. set_solver. }
  exists (ks ++ [node_key r]). split_and!.
  - apply NoDup_app. split_and!; [done|set_solver|apply NoDup_singleton].
  - intros x. rewrite fmap_app, !elem_of_app, Hks. done.
  - intros x [Hx|Hx%list_elem_of_singleton]%elem_of_app; [auto|by subst].
  - rewrite Hq, fmap_app. cbn. rewrite (resolve_first rs r rest); [done|done|]. by rewrite <- Hks.
  - intros k. rewrite lookup_insert, Hv. destruct (decide (node_key r = k)) as [->|Hne].
    + rewrite decide_True by set_solver. done.
    + apply decide_ext. set_solver.
Qed.

Lemma find_path_spec fuel :
  length universe ≤ fuel →
  returns (async_bfs_find_path node_key lookup for_each_child target fuel roots) find_result.
Proof using All.
  intros Hfuel. unfold async_bfs_find_path.
  pose proof (find_roots_spec roots [] (eq_sym (app_nil_r roots))) as Hr. cbn zeta in Hr.
  set (st := foldl _ _ roots) in *. destruct (fs_found st) as [t|].
  - destruct Hr as (r & Hr & Ht). cbn. exists [], [], (node_key r), t. split_and!; [done|constructor| |done|].
    + apply root_path_root. apply list_elem_of_fmap. eauto.
    + cbn. lia.
  - destruct Hr as (ks & Hnd & Hks & Ht & -> & Hv).
    rewrite <- (app_nil_r ks). apply (find_loop_spec fuel 0 []); [|cbn; lia].
    split; cbn [app]; rewrite ?app_nil_r.
    + by apply (bfs_roots _ _ _ keys_closed Hroots).
    + intros k. rewrite Hv. case_decide; split; [done|eauto|by intros [? [=]]|done].
    + done.
    + intros k n _ Hk. by apply elem_of_nil in Hk.
    + intros k n. rewrite Hv. case_decide; [by intros [= <-]|done].
    + intros k n. rewrite Hv. case_decide; [intros [= <-]; by apply Hks|done].
Qed.
End FindPathSpec.

(** * The contract *)

(** C30. The search ends with one round per node and never reports a missing
    or duplicate node.  A path it returns is that of nodes along edges from a root to a target, and no
    target is nearer to the roots; without a path no target can be reached and nothing that can be
    reached fails; an error is that of a node that fails: when its lookup failed the contexts
    name the nodes of a path from a root up to it, and when its child visitor failed the error
    comes without a context. *)
Theorem find_path_correct {K T E : Type} `{Countable K} (node_key : T → K) (lookup : K → E + T)
    (for_each_child : T → list K * option E) (target : K → option T) (universe : list K)
    (roots : list T) (fuel : nat) :
  (∀ k n, lookup k = inr n → node_key n = k) →
  (∀ k c, k ∈ universe → c ∈ kids (resolve node_key lookup roots) for_each_child k → c ∈ universe) →
  (∀ r, r ∈ node_key <$> roots → r ∈ universe) → length universe ≤ fuel →
  ∃ r, async_bfs_find_path node_key lookup for_each_child target fuel roots = Ok r ∧
       find_result node_key lookup for_each_child target roots r.
Proof. intros Hk Hc Hr Hf. apply returns_Ok. by apply find_path_spec with universe. Qed.

Lemma test_universe_closed edges (universe : list nat) :
  (∀ e, e ∈ edges → e.2 ∈ universe) → ∀ k c, k ∈ universe →
  c ∈ kids (resolve id (λ k, @inr unit nat k) [0]) (λ n, (snd <$> filter (λ e, e.1 = n) edges, None)) k →
  c ∈ universe.
Proof.
  intros He k c _. unfold kids. destruct (resolve _ _ _ k) as [u|n]; cbn; [by intros ?%elem_of_nil|].
  intros ([a b] & -> & Hab)%list_elem_of_fmap. apply list_elem_of_filter in Hab as [_ Hab]. by apply (He (a, b)).
Qed.

Lemma find_path_correct_witness :
  ∃ r, async_bfs_find_path id (λ k, @inr unit nat k)
         (λ n, (snd <$> filter (λ e, e.1 = n) [(0, 1); (0, 3); (1, 2); (2, 3); (3, 4)], None))
         (λ k, if decide (k = 4) then Some k else None) 5 [0] = Ok r ∧
       find_result id (λ k, @inr unit nat k)
         (λ n, (snd <$> filter (λ e, e.1 = n) [(0, 1); (0, 3); (1, 2); (2, 3); (3, 4)], None))
         (λ k, if decide (k = 4) then Some k else None) [0] r.
Proof.
  apply (find_path_correct id _ _ _ [0; 1; 2; 3; 4] [0] 5).
  - intros k n Hn. by injection Hn.
  - apply test_universe_closed. set_solver.
  - set_solver.
  - done.
Defined.
