(* ===== verification/QueryDepthLimited.v ===== *)
(** [async_depth_limited_traversal] visits the nodes within a depth in the order of their distance. *)
From S2P Require Import Prelude.
From S2P Require Import QueryTraversal.
From S2P Require Import QueryGraph.
From S2P Require Import QueryLayout.
From S2P Require Import QueryBuild.
From S2P Require Import QuerySearch.
Local Open Scope dice_scope.

(** * Traversing up to a depth *)

Section DepthLimitedSpec.
Context {K T E S : Type} `{Countable K}.
Context (lookup : K → E + T) (for_each_child : T → list K * option E).
Context (visit : S → T → S * option E) (max_depth : nat).
Context (universe roots : list K).

Local Notation kids := (kids lookup for_each_child).
Local Notation fails := (fails lookup for_each_child).
Local Notation within := (within (key_succs kids) roots).
Local Notation bfs_inv := (bfs_inv (key_succs kids) roots).
Local Notation run := (run_visits (visit_key (node_at lookup) visit)).

Context (Hclosed : ∀ k c, k ∈ universe → c ∈ kids k → c ∈ universe).
Context (Hroots : ∀ r, r ∈ roots → r ∈ universe).

Lemma limited_closed : closed_under (key_succs kids) universe.
Proof using Hclosed. intros k Hk. exists (kids k). split; [done|]. intros c. by apply Hclosed. Qed.

(** The keys seen so far, in the order in which they were seen; a parent comes before its
    children. *)
Record parents_inv (visited : gmap K (option K)) (ord : list K) : Prop := {
  pi_size : size visited = length ord;
  pi_dom : ∀ k, is_Some (visited !! k) ↔ k ∈ ord;
  pi_root : ∀ k, visited !! k = Some None → k ∈ roots;
  pi_parent : ∀ i k p, ord !! i = Some k → visited !! k = Some (Some p) →
    ∃ j, j < i ∧ ord !! j = Some p ∧ k ∈ kids p;
}.

Lemma limited_contexts_spec fuel visited ord i k e :
  parents_inv visited ord → ord !! i = Some k → i ≤ fuel →
  ∃ ks, limited_contexts fuel visited k e = Ok (ks ++ e) ∧ root_path kids roots ks k.
Proof.
  intros Hinv. revert i k e. induction fuel as [|fuel IH]; intros i k e Hi Hfuel.
  all: assert (is_Some (visited !! k)) as [o Ho] by (apply (pi_dom _ _ Hinv); by eapply list_elem_of_lookup_2).
  all: cbn [limited_contexts]; rewrite Ho; destruct o as [p|].
  2,4: exists []; split; [done|]; apply root_path_root; by apply (pi_root _ _ Hinv).
  all: destruct (pi_parent _ _ Hinv i k p Hi Ho) as (j & Hlt & Hj & Hk).
  { lia. }
  destruct (IH j p (p :: e) Hj ltac:(lia)) as (ks & -> & Hpath).
  exists (ks ++ [p]). rewrite <- app_assoc. split; [done|]. by apply root_path_snoc.
Qed.

(** What pushing keys does: the new ones are queued, once each. *)
Lemma limited_push_spec par depth (v : gmap K (option K)) q cs :
  ∃ new v', foldl (limited_push par depth) (v, q) cs = (v', q ++ ((λ k, (k, depth)) <$> new)) ∧
    NoDup new ∧ (∀ x, x ∈ new → x ∈ cs ∧ v !! x = None) ∧ (∀ x, x ∈ cs → x ∈ new ∨ is_Some (v !! x)) ∧
    size v' = size v + length new ∧ ∀ k, v' !! k = if decide (k ∈ new) then Some par else v !! k.
Proof.
  revert v q. induction cs as [|c cs IH]; intros v q; cbn [foldl].
  { exists [], v. rewrite app_nil_r. split_and!; [done|constructor|set_solver|set_solver|cbn; lia|done]. }
  unfold limited_push at 2. destruct (v !! c) as [o|] eqn:Ec.
  { destruct (IH v q) as (new & v' & -> & ? & Hnew & Hcs & ? & ?). exists new, v'.
    split_and!; [done|done|set_solver| |done|done]. intros x [->|Hx]%elem_of_cons; [right; by exists o|auto]. }
  destruct (IH (<[c := par]> v) (q ++ [(c, depth)])) as (new & v' & -> & Hnd & Hnew & Hcs & Hsize & Hv).
  assert (c ∉ new) as Hcn by (intros Hin%Hnew; destruct Hin as (_ & Hin); by rewrite lookup_insert_eq in Hin).
  exists (c :: new), v'. split_and!.
  - by rewrite <- app_assoc.
  - by apply NoDup_cons.
  - intros x [->|Hx]%elem_of_cons; [set_solver|]. destruct (Hnew x Hx) as [? Hvx].
    apply lookup_insert_None in Hvx as [? _]. set_solver.
  - intros x [->|Hx]%elem_of_cons; [set_solver|]. destruct (Hcs x Hx) as [?|[n Hn]]; [set_solver|].
    apply lookup_insert_Some in Hn as [[-> _]|[_ Hn]]; [set_solver|]. right. by exists n.
  - rewrite Hsize, map_size_insert_None by done. cbn. lia.
  - intros k. rewrite Hv. destruct (decide (k = c)) as [->|Hkc].
    + rewrite decide_False, decide_True, lookup_insert_eq by set_solver. done.
    + rewrite lookup_insert_ne by done. apply decide_ext. set_solver.
Qed.

Lemma parents_step visited ord c i new v' :
  parents_inv visited ord → ord !! i = Some c → NoDup new →
  (∀ x, x ∈ new → x ∈ kids c ∧ visited !! x = None) → size v' = size visited + length new →
  (∀ k, v' !! k = if decide (k ∈ new) then Some (Some c) else visited !! k) →
  parents_inv v' (ord ++ new).
Proof.
  intros [Hs Hd Hr Hp] Hc Hnd Hnew Hsize Hv. split.
  - rewrite length_app. lia.
  - intros k. rewrite Hv, elem_of_app, <- Hd. case_decide; split; eauto. by intros [?|?].
  - intros k. rewrite Hv. case_decide; [done|apply Hr].
  - intros j k p Hj. rewrite Hv. case_decide as Hk.
    + intros [= <-]. exists i. split; [|split; [by apply lookup_app_l_Some|by apply Hnew]].
      destruct (decide (j < length ord)) as [Hlt|]; [|apply lookup_lt_Some in Hc; lia].
      rewrite lookup_app_l in Hj by done. apply list_elem_of_lookup_2, Hd in Hj.
      destruct (Hnew k Hk) as [_ Hn]. rewrite Hn in Hj. by destruct Hj.
    + intros Hvk. destruct (decide (j < length ord)) as [Hlt|].
      * rewrite lookup_app_l in Hj by done. destruct (Hp j k p Hj Hvk) as (j' & ? & ? & ?).
        exists j'. split_and!; [done|by apply lookup_app_l_Some|done].
      * rewrite lookup_app_r in Hj by lia. by apply list_elem_of_lookup_2 in Hj.
Qed.

(** The visits of a finished traversal satisfy [Q]; a failed one stopped at the node of a key, with
    the keys of a path to it. *)
Definition limited_result (s : S) (Q : list K → Prop) (r : S * option (E * list K)) : Prop :=
  match r with
  | (s', None) => ∃ L, Q L ∧ run s L = (s', None) ∧ ∀ k, k ∈ L → is_Some (node_at lookup k)
  | (s', Some (e, ctx)) => ∃ L k s1, run s L = (s1, None) ∧ root_path kids roots ctx k ∧
      ((fails k e ∧ s' = s1) ∨ ∃ n, lookup k = inr n ∧ visit s1 n = (s', Some e))
  end.

Lemma limited_result_cons s s1 c n (Q : list K → Prop) r :
  lookup c = inr n → visit s n = (s1, None) → limited_result s1 (λ L, Q (c :: L)) r → limited_result s Q r.
Proof.
  intros Hc Hv. assert (∀ L, run s (c :: L) = run s1 L) as Erun.
  { intros L. cbn. unfold visit_key at 1, node_at. by rewrite Hc, Hv. }
  destruct r as [s' [[e ctx]|]]; cbn.
  - intros (L & k & s2 & HL & ? & ?). exists (c :: L), k, s2. by rewrite Erun.
  - intros (L & HQ & HL & Hall). exists (c :: L). rewrite Erun. split_and!; [done|done|].
    intros k [->|?]%elem_of_cons; [|auto]. unfold node_at. rewrite Hc. by eexists.
Qed.

(** A node that fails ends the traversal with its path. *)
Lemma limited_fail visited ord i c s s' (Q : list K → Prop) e :
  parents_inv visited ord → ord !! i = Some c →
  ((fails c e ∧ s' = s) ∨ ∃ n, lookup c = inr n ∧ visit s n = (s', Some e)) →
  returns (ctx ← limited_contexts (size visited) visited c []; Ok (s', Some (e, ctx))) (limited_result s Q).
Proof.
  intros Hinv Hi Hc. destruct (limited_contexts_spec (size visited) _ _ _ _ [] Hinv Hi) as (ks & -> & Hks).
  { rewrite (pi_size _ _ Hinv). apply lookup_lt_Some in Hi. lia. }
  cbn. rewrite app_nil_r. exists [], c, s. by split_and!.
Qed.

(** The last level: nodes are visited and not expanded. *)
Lemma last_level_spec fuel visited ord q s :
  parents_inv visited ord → (∀ k, k ∈ q → k ∈ ord) → length q ≤ fuel →
  returns (limited_loop lookup for_each_child visit max_depth fuel visited ((λ k, (k, max_depth)) <$> q) s)
    (limited_result s (λ L, L = q)).
Proof.
  intros Hinv. revert q s. induction fuel as [|fuel IH]; intros q s Hq Hfuel;
    (destruct q as [|c q]; [by exists []; split_and!; [..|set_solver]|]); [cbn in Hfuel; lia|].
  cbn [fmap list_fmap limited_loop].
  assert (c ∈ ord) as [i Hi]%list_elem_of_lookup by set_solver.
  unfold limited_node. destruct (lookup c) as [e|n] eqn:Ec.
  { eapply limited_fail; [done..|]. left. split; [by left|done]. }
  rewrite decide_True by done. destruct (visit s n) as [s' [e|]] eqn:Ev.
  { eapply limited_fail; [done..|]. right. eauto. }
  eapply returns_mono; [apply IH; [set_solver|cbn in Hfuel; lia]|].
  intros r Hr. eapply limited_result_cons; [done..|]. cbn in Hr |- *.
  destruct r as [s1 [[e ctx]|]]; [done|]. cbn in *. destruct Hr as (L & -> & ? & ?). by exists q.
Qed.

Definition limited_visits (don L : list K) : Prop :=
  NoDup (don ++ L) ∧ (∀ k, k ∈ don ++ L ↔ within max_depth k) ∧
  by_distance (key_succs kids) roots (don ++ L).

(** The keys of the queue with their depths. *)
Definition labels (d : nat) (q1 q2 : list K) : list (K * nat) :=
  ((λ k, (k, d)) <$> q1) ++ ((λ k, (k, Datatypes.S d)) <$> q2).

Lemma limited_front d don q1 q2 :
  bfs_inv d don q1 q2 → d ≤ max_depth → (d = max_depth → q2 = []) →
  (q1 = [] ∧ q2 = []) ∨ ∃ e c p1 p2, labels d q1 q2 = labels e (c :: p1) p2 ∧ q1 ++ q2 = c :: p1 ++ p2 ∧
    bfs_inv e don (c :: p1) p2 ∧ e ≤ max_depth ∧ (e = max_depth → p2 = []).
Proof using Hclosed Hroots.
  intros Hb Hd Hmax. destruct q1 as [|c q1]; [|right; by exists d, c, q1, q2].
  destruct q2 as [|c q2]; [by left|]. right. exists (Datatypes.S d), c, q2, [].
  unfold labels. cbn [fmap list_fmap app]. rewrite !app_nil_r. split_and!; [done|done| | |done].
  - by apply (bfs_next_level _ _ _ limited_closed Hroots).
  - destruct (decide (d = max_depth)) as [Heq|]; [by specialize (Hmax Heq)|lia].
Qed.

Lemma limited_end d don : bfs_inv d don [] [] → d ≤ max_depth → limited_visits don [].
Proof.
  intros Hb Hd. unfold limited_visits. rewrite app_nil_r. split_and!.
  - pose proof (bf_nodup _ _ _ _ _ _ Hb) as Hn. by rewrite !app_nil_r in Hn.
  - intros k. split.
    + intros Hk. apply (within_mono _ _ d); [done|]. apply (bf_level _ _ _ _ _ _ Hb). by rewrite app_nil_r.
    + intros Hk. apply (bfs_end _ _ _ _ _ Hb), within_reached. by exists max_depth.
  - pose proof (bf_sorted _ _ _ _ _ _ Hb) as Hs. by rewrite !app_nil_r in Hs.
Qed.

Lemma limited_loop_spec fuel d don q1 q2 visited s :
  bfs_inv d don q1 q2 → parents_inv visited (don ++ q1 ++ q2) → d ≤ max_depth → (d = max_depth → q2 = []) →
  length universe ≤ length don + fuel →
  returns (limited_loop lookup for_each_child visit max_depth fuel visited (labels d q1 q2) s)
    (limited_result s (limited_visits don)).
Proof using All.
  revert d don q1 q2 visited s. induction fuel as [|fuel IH]; intros d don q1 q2 visited s Hb Hp Hd Hmax Hfuel.
  all: pose proof (bfs_inv_length _ _ _ limited_closed Hroots _ _ _ _ Hb) as Hlen; rewrite length_app in Hlen.
  all: destruct (limited_front _ _ _ _ Hb Hd Hmax) as [[-> ->]|(e & c & p1 & p2 & El & Eq & Hb' & He & Hlast)];
    [exists []; split_and!; [by eapply limited_end|done|set_solver]|].
  { rewrite Eq in Hlen. cbn in Hlen. lia. }
  rewrite El. rewrite Eq in Hlen, Hp. clear Hb Hd Hmax El Eq q1 q2 d. cbn [length] in Hlen.
  destruct (decide (e = max_depth)) as [->|Hne].
  { rewrite (Hlast eq_refl) in *. rewrite app_nil_r in Hlen, Hp. unfold labels.
    rewrite app_nil_r. eapply returns_mono; [apply (last_level_spec _ _ _ _ _ Hp); [set_solver|cbn; lia]|].
    intros [s' [[x ctx]|]]; [done|]. intros (L & -> & HL & Hall). exists (c :: p1). split_and!; [|done|done].
    split_and!; [|intros k; symmetry; apply (bf_level _ _ _ _ _ _ Hb')|].
    - pose proof (bf_nodup _ _ _ _ _ _ Hb') as Hn. by rewrite app_nil_r in Hn.
    - pose proof (bf_sorted _ _ _ _ _ _ Hb') as Hs. by rewrite app_nil_r in Hs. }
  unfold labels. cbn [fmap list_fmap app limited_loop].
  assert ((don ++ c :: p1 ++ p2) !! length don = Some c) as Hi by (by apply list_lookup_middle).
  unfold limited_node. destruct (lookup c) as [x|n] eqn:Ec.
  { eapply limited_fail; [done..|]. left. split; [by left|done]. }
  rewrite decide_False by done. destruct (for_each_child n) as [cs result] eqn:Ech.
  assert (kids c = cs) as Ekids by (unfold QueryBuild.kids; by rewrite Ec, Ech).
  match goal with |- context [foldl (limited_push ?par ?dep) (?v, ?q) cs] =>
    destruct (limited_push_spec par dep v q cs) as (new & v' & -> & Hnd & Hnew & Hcs & Hsize & Hv) end.
  assert (parents_inv v' ((don ++ c :: p1 ++ p2) ++ new)) as Hp'.
  { eapply parents_step; [done|done|done| |done|done]. by rewrite Ekids. }
  assert (((don ++ c :: p1 ++ p2) ++ new) !! length don = Some c) as Hi' by (by apply lookup_app_l_Some).
  destruct result as [x|].
  { eapply limited_fail; [done..|]. left. split; [|done]. right. exists n. by rewrite Ech. }
  destruct (visit s n) as [s' [x|]] eqn:Ev.
  { eapply limited_fail; [done..|]. right. eauto. }
  assert (bfs_inv e (don ++ [c]) p1 (p2 ++ new)) as Hstep.
  { eapply (bfs_step_inv _ _ _ limited_closed Hroots); [done|done|done| |]; rewrite Ekids.
    - intros k Hk. destruct (Hnew k Hk) as [? Hnone]. split; [done|].
      intros Hin. apply (pi_dom _ _ Hp) in Hin. rewrite Hnone in Hin. by destruct Hin.
    - intros k Hk. destruct (Hcs k Hk) as [?|?]; [auto|]. right. by apply (pi_dom _ _ Hp). }
  eapply returns_mono.
  - rewrite <- app_assoc, Nat.add_1_r, <- fmap_app. apply (IH e (don ++ [c]) p1 (p2 ++ new) v' s' Hstep).
    + replace ((don ++ [c]) ++ p1 ++ p2 ++ new) with ((don ++ c :: p1 ++ p2) ++ new); [done|].
      by rewrite <- !app_assoc; cbn; rewrite <- !app_assoc.
    + done.
    + done.
    + rewrite length_app. cbn. lia.
  - intros r Hr. eapply limited_result_cons; [done..|]. destruct r as [s1 [[x ctx]|]]; [done|].
    destruct Hr as (L & HQ & ? & ?). exists L. split_and!; [|done|done]. unfold limited_visits in *.
    by rewrite <- app_assoc in HQ.
Qed.

Lemma limited_spec fuel s :
  length universe ≤ fuel →
  returns (async_depth_limited_traversal lookup for_each_child visit max_depth fuel roots s)
    (limited_result s (limited_visits [])).
Proof using All.
  intros Hfuel. unfold async_depth_limited_traversal.
  destruct (limited_push_spec None 0 ∅ [] roots) as (new & v' & -> & Hnd & Hnew & Hcs & Hsize & Hv).
  rewrite app_nil_l. replace ((λ k, (k, 0)) <$> new) with (labels 0 new []) by (unfold labels; by rewrite app_nil_r).
  apply limited_loop_spec; [| |lia|done|done].
  - apply (bfs_roots _ _ _ limited_closed Hroots); [done|]. intros x. split; [intros Hx; by apply Hnew|].
    intros Hx. destruct (Hcs x Hx) as [?|[? Hn]]; [done|]. by rewrite lookup_empty in Hn.
  - cbn [app]. rewrite app_nil_r. split.
    + by rewrite Hsize, map_size_empty.
    + intros k. rewrite Hv, lookup_empty. case_decide; split; [done|eauto|by intros [? [=]]|done].
    + intros k. rewrite Hv, lookup_empty. case_decide as Hk; [|done]. intros _. by apply Hnew.
    + intros i k p _. rewrite Hv, lookup_empty. by case_decide.
Qed.
End DepthLimitedSpec.

(** * The contract *)

(** The traversal up to a depth ends with one round per node.  If
    nothing fails it visits exactly the nodes at most [max_depth] edges away from the roots, once
    each and in the order of their distance; otherwise it visits some nodes and stops with the
    error of a node or of its visit, whose contexts are the keys of a path from a root to it. *)
Theorem depth_limited_correct {K T E S : Type} `{Countable K} (lookup : K → E + T)
    (for_each_child : T → list K * option E) (visit : S → T → S * option E) (max_depth : nat)
    (universe roots : list K) (fuel : nat) (s : S) :
  (∀ k c, k ∈ universe → c ∈ kids lookup for_each_child k → c ∈ universe) →
  (∀ r, r ∈ roots → r ∈ universe) → length universe ≤ fuel →
  ∃ r, async_depth_limited_traversal lookup for_each_child visit max_depth fuel roots s = Ok r ∧
    match r with
    | (s', None) => ∃ L,
        (NoDup L ∧ (∀ k, k ∈ L ↔ within (key_succs (kids lookup for_each_child)) roots max_depth k) ∧
         by_distance (key_succs (kids lookup for_each_child)) roots L) ∧
        run_visits (visit_key (node_at lookup) visit) s L = (s', None) ∧
        ∀ k, k ∈ L → is_Some (node_at lookup k)
    | (s', Some (e, ctx)) => ∃ L k s1,
        run_visits (visit_key (node_at lookup) visit) s L = (s1, None) ∧
        root_path (kids lookup for_each_child) roots ctx k ∧
        ((fails lookup for_each_child k e ∧ s' = s1) ∨ ∃ n, lookup k = inr n ∧ visit s1 n = (s', Some e))
    end.
Proof.
  intros Hc Hr Hf. apply returns_Ok.
  exact (limited_spec lookup for_each_child visit max_depth universe roots Hc Hr fuel s Hf).
Qed.

Lemma depth_limited_correct_witness :
  ∃ r, async_depth_limited_traversal lookup13 children13 note13 1 6 [0; 10] [] = Ok r ∧
    match r with
    | (s', None) => ∃ L,
        (NoDup L ∧ (∀ k, k ∈ L ↔ within (key_succs (kids lookup13 children13)) [0; 10] 1 k) ∧
         by_distance (key_succs (kids lookup13 children13)) [0; 10] L) ∧
        run_visits (visit_key (node_at lookup13) note13) [] L = (s', None) ∧
        ∀ k, k ∈ L → is_Some (node_at lookup13 k)
    | (s', Some (e, ctx)) => ∃ L k s1,
        run_visits (visit_key (node_at lookup13) note13) [] L = (s1, None) ∧
        root_path (kids lookup13 children13) [0; 10] ctx k ∧
        ((fails lookup13 children13 k e ∧ s' = s1) ∨
         ∃ n, lookup13 k = inr n ∧ note13 s1 n = (s', Some e))
    end.
Proof.
  apply (depth_limited_correct lookup13 children13 _ 1 [0; 1; 2; 3; 10; 13]).
  - exact children13_closed.
  - set_solver.
  - done.
Defined.
