(* ===== verification/QueryPostorder.v ===== *)
(** The two postorder traversals, [async_fast_depth_first_postorder_traversal] and
    [async_depth_first_postorder_traversal], against the generic one. *)
From S2P Require Import Prelude.
From S2P Require Import QueryTraversal.
From S2P Require Import QueryGraph.
From S2P Require Import QueryLayout.
From S2P Require Import QueryBuild.
From S2P Require Import QuerySearch.
Local Open Scope dice_scope.

(** * Postorder while resolving *)

Section FastPostorderSpec.
Context {K T E S : Type} `{Countable K}.
Context (lookup : K → E + T) (for_each_child : T → list K * option E) (visit : S → T → S * option E).
Context (reach : K → Prop).

Local Notation kids := (kids lookup for_each_child).
Local Notation fails := (fails lookup for_each_child).

Context (Hreach : ∀ k c, reach k → c ∈ kids k → reach c).

(** The items of the two work stacks. *)
Definition same_item (w : FastWorkItem) (w' : WorkItem K) : Prop :=
  match w, w' with
  | FastVisit k, Visit k' => k = k' ∧ reach k
  | FastPostVisit n, PostVisit k => lookup k = inr n
  | _, _ => False
  end.

Lemma push_unvisited_spec (visited : gset K) (work : list FastWorkItem) (work' : list (WorkItem K)) cs :
  Forall2 same_item work work' → (∀ c, c ∈ cs → reach c) →
  Forall2 same_item (foldl (push_unvisited visited) work cs)
    (reverse (Visit <$> filter (λ c, bool_decide (c ∈ visited) = false) cs) ++ work').
Proof.
  revert work work'. induction cs as [|c cs IH]; intros work work' Hw Hc; cbn [foldl]; [done|].
  rewrite filter_cons. unfold push_unvisited at 2.
  destruct (decide (c ∈ visited)) as [Hin|Hin].
  - rewrite decide_False by (by rewrite bool_decide_eq_true_2). apply IH; [done|set_solver].
  - rewrite decide_True by (by apply bool_decide_eq_false_2).
    rewrite fmap_cons, reverse_cons, <- app_assoc. apply IH; [|set_solver].
    constructor; [|done]. split; [done|]. apply Hc. set_solver.
Qed.

(** The loop takes the steps of [dfs_postorder] on the keys, until a key fails. *)
Lemma fast_loop_spec fuel visited work work' s :
  Forall2 same_item work work' →
  fast_loop lookup for_each_child visit fuel visited work s =
    dfs_postorder_loop (key_succs kids) (visit_key (node_at lookup) visit) fuel visited work' s ∨
  ∃ s' k e, fast_loop lookup for_each_child visit fuel visited work s = Ok (s', Some e) ∧
    reach k ∧ fails k e.
Proof using Hreach.
  revert visited work work' s. induction fuel as [|fuel IH]; intros visited work work' s Hw;
    inversion Hw as [|w k work0 work0' Hk Hw']; subst; [by left|by left|by left|].
  cbn [fast_loop dfs_postorder_loop].
  destruct w as [n|k0], k as [k'|k']; cbn in Hk; try done.
  - unfold visit_key at 1, node_at. rewrite Hk. destruct (visit s n) as [s' [e|]]; [by left|by apply IH].
  - destruct Hk as [-> Hk]. cbn [vn_insert_clone VisitedNodes_UnorderedSet].
    destruct (decide (k' ∈ visited)) as [Hin|Hin].
    { rewrite bool_decide_eq_false_2 by (by intros ?). cbn [negb].
      replace ({[k']} ∪ visited) with visited by set_solver. by apply IH. }
    rewrite bool_decide_eq_true_2 by done. cbn [negb].
    destruct (lookup k') as [e|n] eqn:Ek.
    { right. exists s, k', e. split_and!; [done|done|by left]. }
    destruct (for_each_child n) as [cs result] eqn:Ech.
    assert (key_succs kids k' = Ok cs) as -> by (unfold key_succs, QueryBuild.kids; by rewrite Ek, Ech).
    cbn [mbind outcome_bind]. destruct result as [e|].
    { right. exists s, k', e. split_and!; [done|done|]. right. exists n. by rewrite Ech. }
    apply IH. apply push_unvisited_spec; [by constructor|]. intros c Hc. apply (Hreach k'); [done|].
    unfold QueryBuild.kids. by rewrite Ek, Ech.
Qed.
End FastPostorderSpec.

(** ** On the resolved graph *)

Section IndexSimulation.
Context {K T E S : Type} `{Countable K}.
Context (g : Graph K T) (L : list K) (node_of : K → option T) (children : K → list K).
Context (Hg : represents g L node_of children) (visitor : S → T → S * option E).

Definition same_index (w : WorkItem nat) (w' : WorkItem K) : Prop :=
  match w, w' with
  | Visit i, Visit k | PostVisit i, PostVisit k => L !! i = Some k
  | _, _ => False
  end.

Definition same_visited (v : VecAsSet) (v' : gset K) : Prop :=
  ∀ i k, L !! i = Some k → is_Some (VecAsMap_get v i) ↔ k ∈ v'.

Definition lift_result (r : outcome (S * option E)) : outcome (outcome S * option E) :=
  '(s, e) ← r; Ok (Ok s, e).

Lemma push_indices v v' ixs cs work work' :
  same_visited v v' → child_keys L ixs cs → Forall2 same_index work work' →
  Forall2 same_index
    (reverse (Visit <$> filter (λ i, VecAsSet_contains v i = false) ixs) ++ work)
    (reverse (Visit <$> filter (λ c, bool_decide (c ∈ v') = false) cs) ++ work').
Proof.
  intros Hv Hc. revert work work'. induction Hc as [|i c ixs cs Hi _ IH]; intros work work' Hw; [done|].
  rewrite !filter_cons.
  assert (VecAsSet_contains v i = bool_decide (c ∈ v')) as ->.
  { unfold VecAsSet_contains, VecAsMap_contains_key. apply bool_decide_ext. by apply Hv. }
  case_decide; [|by apply IH]. rewrite !fmap_cons, !reverse_cons, <- !app_assoc. apply IH. by constructor.
Qed.

Lemma postorder_sim fuel v v' work work' s :
  same_visited v v' → Forall2 same_index work work' →
  dfs_postorder_loop (GraphSuccessorsImpl g) (visit_node g visitor) fuel v work (Ok s) =
  lift_result (dfs_postorder_loop (key_succs children) (visit_key node_of visitor) fuel v' work' s).
Proof using Hg.
  revert v v' work work' s. induction fuel as [|fuel IH]; intros v v' work work' s Hv Hw;
    inversion Hw as [|w w' work0 work0' Hi Hw']; subst; [done|done|done|]. cbn [dfs_postorder_loop].
  destruct w as [i|i], w' as [k|k]; cbn in Hi; try done.
  - destruct (represents_lookup _ _ _ _ _ _ Hg Hi) as (n & En & Ek & _).
    unfold visit_node at 1, visit_key at 1. rewrite En, Ek.
    destruct (visitor s (gn_node n)) as [s' [e|]]; [done|by apply IH].
  - pose proof (VecAsMap_insert_prev v i tt) as Eprev. pose proof (VecAsMap_get_insert v i tt) as Eget.
    cbn [vn_insert_clone VisitedNodes_UnorderedSet VisitedNodes_VecAsSet]. unfold VecAsSet_insert.
    destruct (VecAsMap_insert v i tt) as [prev v1]. cbn [fst snd] in *. subst prev.
    assert (same_visited v1 ({[k]} ∪ v')) as Hv1.
    { intros j c Hj. rewrite Eget, elem_of_union, elem_of_singleton. case_decide as Hij.
      - subst j. rewrite Hi in Hj. injection Hj as <-. split; eauto.
      - rewrite (Hv j c Hj). split; [auto|]. intros [->|?]; [|done]. destruct Hij.
        by apply (indexes_inj _ _ _ _ _ (rp_index _ _ _ _ Hg) Hi Hj). }
    assert (bool_decide (VecAsMap_get v i = None) = bool_decide (k ∉ v')) as ->.
    { apply bool_decide_ext. by rewrite eq_None_not_Some, (Hv i k Hi). }
    destruct (bool_decide (k ∉ v')); cbn [negb]; [|by apply IH].
    destruct (GraphSuccessorsImpl_spec _ _ _ _ _ _ Hg Hi) as (ixs & -> & Hc).
    unfold key_succs at 1. cbn [mbind outcome_bind]. apply IH; [done|].
    apply push_indices; [done|done|]. by constructor.
Qed.

(** The traversal of the graph is the traversal over its keys. *)
Lemma graph_postorder_eq fuel roots s :
  (∀ r, r ∈ roots → r ∈ L) →
  Graph_depth_first_postorder_traversal fuel g roots visitor s =
  dfs_postorder (key_succs children) (visit_key node_of visitor) fuel roots s.
Proof using Hg.
  intros Hr. unfold Graph_depth_first_postorder_traversal.
  destruct (root_indices_spec _ _ _ _ _ Hg Hr) as (ixs & -> & Hixs). cbn [mbind outcome_bind].
  unfold dfs_postorder, dfs_postorder_impl. rewrite (postorder_sim fuel _ ∅ _ (reverse (Visit <$> roots))).
  - unfold lift_result. by destruct (dfs_postorder_loop _ _ _ _ _ _) as [[s' r]|].
  - intros i k _. cbn. split; [by intros [? [=]]|set_solver].
  - apply Forall2_reverse. clear Hr. induction Hixs; cbn; by constructor.
Qed.
End IndexSimulation.

(** * The contract *)

(** The traversal that resolves nodes as it goes either takes the
    steps of the generic postorder traversal over the keys or stops with the error of a node that
    can be reached and fails.  If no such node fails, it and the traversal that first builds the
    graph, whatever the order of its lookups, end without a panic and make the same visits: each
    node that can be reached, once, after its children unless a child leads back to it, up to the
    first error of the visitor. *)
Theorem postorder_traversals_agree {K T E S : Type} `{Countable K} (node_key : T → K) (lookup : K → E + T)
    (for_each_child : T → list K * option E) (visit : S → T → S * option E)
    (universe roots : list K) (build_fuel fuel : nat) (s : S) :
  NoDup universe → (∀ r, r ∈ roots → r ∈ universe) →
  (∀ k c, k ∈ universe → c ∈ kids lookup for_each_child k → c ∈ universe) →
  (N.of_nat (length universe) < 2 ^ 32)%N → length universe ≤ build_fuel →
  length roots + universe_work lookup for_each_child universe ≤ fuel →
  let traverse := async_fast_depth_first_postorder_traversal lookup for_each_child visit fuel roots s in
  let succs := key_succs (kids lookup for_each_child) in
  (traverse = dfs_postorder succs (visit_key (node_at lookup) visit) fuel roots s ∨
   ∃ s' k e, traverse = Ok (s', Some e) ∧ reached succs roots k ∧ fails lookup for_each_child k e) ∧
  ((∀ k e, reached succs roots k → ¬ fails lookup for_each_child k e) → ∃ L r,
     r = run_visits (visit_key (node_at lookup) visit) s L ∧ traverse = Ok r ∧
     (∀ sched, async_depth_first_postorder_traversal node_key lookup for_each_child visit sched build_fuel
                 fuel roots s = Ok (r.1, match r.2 with Some e => Some (e, []) | None => None end)) ∧
     NoDup L ∧ (∀ k, k ∈ L ↔ reached succs roots k) ∧
     ∀ before k after, L = before ++ k :: after → ∀ c, c ∈ kids lookup for_each_child k →
       c ∈ before ∨ rtc (succ_edge succs) c k).
Proof.
  intros Hnd Hr Hc Hsmall Hbf Hf traverse succs.
  assert (∀ k c, reached succs roots k → c ∈ kids lookup for_each_child k → reached succs roots c) as Hreach.
  { intros k c (r & Hrr & Hk) Hkc. exists r. split; [done|]. eapply rtc_r; [done|]. by apply key_edge. }
  assert (traverse = dfs_postorder succs (visit_key (node_at lookup) visit) fuel roots s ∨
    ∃ s' k e, traverse = Ok (s', Some e) ∧ reached succs roots k ∧ fails lookup for_each_child k e) as Hfast.
  { apply (fast_loop_spec lookup for_each_child visit (reached succs roots) Hreach).
    apply Forall2_reverse. assert (∀ r, r ∈ roots → reached succs roots r) as Hrr by (intros r ?; by exists r).
    revert Hrr. generalize (reached succs roots). intros P. clear. induction roots as [|r rs IH]; intros HP; cbn; [constructor|].
    constructor; [split; [done|apply HP; set_solver]|apply IH; set_solver]. }
  split; [done|]. intros Hok.
  destruct Hfast as [Efast|(s' & k & e & _ & Hk & Hfail)]; [|by destruct (Hok k e Hk)].
  destruct (postorder_spec (V := gset K) succs (visit_key (node_at lookup) visit) universe roots Hnd
    (λ k Hk, ex_intro _ _ (conj eq_refl (λ c, Hc k c Hk))) Hr fuel s) as (L & EL & HnL & HL & Ho).
  { unfold search_fuel. etrans; [|exact Hf]. apply Nat.add_le_mono_l, Nat.eq_le_incl.
    apply sum_list_with_ext. intros k _. rewrite decide_False by set_solver. done. }
  exists L, (run_visits (visit_key (node_at lookup) visit) s L). split_and!; [done|by rewrite Efast| |done|done|].
  - intros sched. unfold async_depth_first_postorder_traversal.
    pose proof (build_spec node_key lookup for_each_child universe roots Hr Hc Hsmall sched build_fuel Hbf) as Hb.
    apply returns_Ok in Hb as ([[e ctx]|g] & -> & Hg).
    { destruct Hg as (ks & k & Hpath & Hfail & _). destruct (Hok k e); [|done]. by apply root_path_reached with ks. }
    destruct Hg as (LG & Hg & HLG & _). cbn [mbind outcome_bind].
    rewrite (graph_postorder_eq _ _ _ _ Hg) by (intros r Hrr; apply HLG; by exists r).
    unfold dfs_postorder. fold succs. rewrite EL. cbn. by destruct (run_visits _ _ _).
  - intros before k after EL' c Hkc. destruct (Ho before k after EL' c) as [?|[? _]]; auto. by apply key_edge.
Qed.

Lemma postorder_traversals_agree_witness :
  ∃ L r,
    r = run_visits (visit_key (node_at lookup13) note13) [] L ∧
    async_fast_depth_first_postorder_traversal lookup13 children13 note13 20 [0] [] = Ok r ∧
    (∀ sched, async_depth_first_postorder_traversal id lookup13 children13 note13 sched 6 20 [0] [] =
                Ok (r.1, match r.2 with Some e => Some (e, []) | None => None end)) ∧
    NoDup L ∧ (∀ k, k ∈ L ↔ reached (key_succs (kids lookup13 children13)) [0] k) ∧
    ∀ before k after, L = before ++ k :: after → ∀ c, c ∈ kids lookup13 children13 k →
      c ∈ before ∨ rtc (succ_edge (key_succs (kids lookup13 children13))) c k.
Proof.
  apply (postorder_traversals_agree id lookup13 children13 note13 [0; 1; 2; 3; 10; 13] [0] 6 20 []).
  - by apply (bool_decide_unpack _); vm_compute.
  - set_solver.
  - exact children13_closed.
  - done.
  - done.
  - vm_compute. lia.
  - exact no_failure_from_0.
Defined.
