(* ===== verification/TimeSpan.v ===== *)
(** Instants, durations and spans of time: [src/app/bz_util/src/time_span.rs], and the durations
    and waiting data of a node of the build ([src/app/bz_build_signals/src/env.rs]).

    A [Duration] of the standard library is its number of nanoseconds in [N], at most
    [Duration_MAX]; an [Instant] is the number of nanoseconds since a fixed origin of the clock,
    kept by the platform as a 64-bit number of seconds and a part below one second.  Adding a
    duration to an instant panics out of range; the difference of two instants saturates at
    zero.  [now] of the clock is an argument. *)
From S2P Require Import Prelude.
From stdpp Require Import strings.
From Stdlib Require Import Ascii.
Local Open Scope dice_scope.

(** * The standard library's durations and instants *)

Notation Duration := N (only parsing).
Notation Instant := Z (only parsing).

Definition Duration_MAX : Duration := (2 ^ 64 * 10 ^ 9 - 1)%N.
Definition Duration_ZERO : Duration := 0%N.

Definition Duration_checked_add (a b : Duration) : option Duration :=
  if (a + b <=? Duration_MAX)%N then Some (a + b)%N else None.

Definition Duration_as_nanos (d : Duration) : N := d.
Definition Duration_as_micros (d : Duration) : N := (d / 1000)%N.
Definition Duration_as_millis (d : Duration) : N := (d / 1000000)%N.
Definition Duration_from_micros (us : N) : Duration := (us * 1000)%N.

(** [u64::try_from(n).unwrap_or(u64::MAX)]. *)
Definition u64_saturating_from (n : N) : N := if (n <=? 2 ^ 64 - 1)%N then n else (2 ^ 64 - 1)%N.

Definition Instant_in_range (i : Instant) : bool :=
  (- 2 ^ 63 * 10 ^ 9 <=? i)%Z && (i <? 2 ^ 63 * 10 ^ 9)%Z.

Definition Instant_add (i : Instant) (d : Duration) : outcome Instant :=
  let r := (i + Z.of_N d)%Z in if Instant_in_range r then Ok r else Panic.

Definition Instant_sub (i : Instant) (d : Duration) : outcome Instant :=
  let r := (i - Z.of_N d)%Z in if Instant_in_range r then Ok r else Panic.

Definition Instant_checked_duration_since (self earlier : Instant) : option Duration :=
  if (earlier <=? self)%Z then Some (Z.to_N (self - earlier)) else None.

(** [saturating_duration_since], and the subtraction of two instants. *)
Definition Instant_saturating_duration_since (self earlier : Instant) : Duration :=
  default Duration_ZERO (Instant_checked_duration_since self earlier).

(** * Spans *)

Inductive TimeSpanError := InvalidTimeOrder (start : Instant) (end_ : Instant).

Record TimeSpan := mkTimeSpan { ts_start : Instant; ts_end : Instant }.

Definition TimeSpan_new (start end_ : Instant) : TimeSpan + TimeSpanError :=
  if (start <=? end_)%Z then inl (mkTimeSpan start end_) else inr (InvalidTimeOrder start end_).

Definition TimeSpan_new_saturating (start end_ : Instant) : TimeSpan :=
  mkTimeSpan start (Z.max start end_).

Definition TimeSpan_new_unchecked (start end_ : Instant) : TimeSpan := mkTimeSpan start end_.

Definition TimeSpan_from_start_and_duration (start : Instant) (duration : Duration) :
    outcome TimeSpan :=
  end_ ← Instant_add start duration; Ok (mkTimeSpan start end_).

Definition TimeSpan_from_end_and_duration (end_ : Instant) (duration : Duration) :
    outcome TimeSpan :=
  start ← Instant_sub end_ duration; Ok (mkTimeSpan start end_).

Definition TimeSpan_empty_now (now : Instant) : TimeSpan := TimeSpan_new_unchecked now now.

Definition TimeSpan_start (self : TimeSpan) : Instant := ts_start self.
Definition TimeSpan_end (self : TimeSpan) : Instant := ts_end self.

Definition TimeSpan_duration (self : TimeSpan) : Duration :=
  Instant_saturating_duration_since (ts_end self) (ts_start self).

Definition TimeSpan_duration_millis (self : TimeSpan) : N :=
  Duration_as_millis (TimeSpan_duration self).
Definition TimeSpan_duration_micros (self : TimeSpan) : N :=
  Duration_as_micros (TimeSpan_duration self).
Definition TimeSpan_duration_nanos (self : TimeSpan) : N :=
  Duration_as_nanos (TimeSpan_duration self).

Definition TimeSpan_contains (self : TimeSpan) (instant : Instant) : bool :=
  (ts_start self <=? instant)%Z && (instant <=? ts_end self)%Z.

Definition TimeSpan_overlaps (self other : TimeSpan) : bool :=
  (ts_start self <=? ts_end other)%Z && (ts_start other <=? ts_end self)%Z.

Definition TimeSpan_intersection (self other : TimeSpan) : option TimeSpan :=
  let start := Z.max (ts_start self) (ts_start other) in
  let end_ := Z.min (ts_end self) (ts_end other) in
  if (start <=? end_)%Z then Some (TimeSpan_new_unchecked start end_) else None.

Definition TimeSpan_union (self other : TimeSpan) : TimeSpan :=
  TimeSpan_new_unchecked (Z.min (ts_start self) (ts_start other))
    (Z.max (ts_end self) (ts_end other)).

Definition TimeSpan_extend_to_include (self : TimeSpan) (instant : Instant) : TimeSpan :=
  if (instant <? ts_start self)%Z then mkTimeSpan instant (ts_end self)
  else if (ts_end self <? instant)%Z then mkTimeSpan (ts_start self) instant
  else self.

Definition TimeSpan_extended_to_include (self : TimeSpan) (instant : Instant) : TimeSpan :=
  TimeSpan_extend_to_include self instant.

Definition TimeSpan_shift (self : TimeSpan) (duration : Duration) : outcome TimeSpan :=
  start ← Instant_add (ts_start self) duration;
  end_ ← Instant_add (ts_end self) duration;
  Ok (mkTimeSpan start end_).

Definition TimeSpan_shifted (self : TimeSpan) (duration : Duration) : outcome TimeSpan :=
  start ← Instant_add (ts_start self) duration;
  end_ ← Instant_add (ts_end self) duration;
  Ok (TimeSpan_new_unchecked start end_).

Definition TimeSpan_is_empty (self : TimeSpan) : bool := (ts_start self =? ts_end self)%Z.

Definition TimeSpan_add (self : TimeSpan) (duration : Duration) : outcome TimeSpan :=
  TimeSpan_shifted self duration.

Definition TimeSpan_sub (self : TimeSpan) (duration : Duration) : outcome TimeSpan :=
  start ← Instant_sub (ts_start self) duration;
  end_ ← Instant_sub (ts_end self) duration;
  Ok (TimeSpan_new_unchecked start end_).

Record TimeSpanBuilder := mkTimeSpanBuilder { tsb_start : Instant }.

Definition TimeSpan_start_now (now : Instant) : TimeSpanBuilder := mkTimeSpanBuilder now.

Definition TimeSpanBuilder_end_now (self : TimeSpanBuilder) (now : Instant) : TimeSpan :=
  TimeSpan_new_unchecked (tsb_start self) now.

Definition TimeSpanBuilder_end_at (self : TimeSpanBuilder) (end_ : Instant) :
    TimeSpan + TimeSpanError := TimeSpan_new (tsb_start self) end_.

Definition TimeSpanBuilder_with_duration (self : TimeSpanBuilder) (duration : Duration) :
    outcome TimeSpan :=
  end_ ← Instant_add (tsb_start self) duration;
  Ok (TimeSpan_new_unchecked (tsb_start self) end_).

(** * Durations and waiting data of a node *)

Record NodeDuration := mkNodeDuration {
  nd_user : Duration;
  nd_total : TimeSpan;
  nd_queue : option Duration;
}.

Definition NodeDuration_critical_path_duration (self : NodeDuration) : Duration :=
  TimeSpan_duration (nd_total self).

Definition NodeDuration_zero (now : Instant) : outcome NodeDuration :=
  total ← TimeSpan_from_start_and_duration now Duration_ZERO;
  Ok (mkNodeDuration 0%N total None).

Inductive WaitingCategory :=
| Ready
| PreparingAction
| CheckingCaches
| MaterializingInputs
| ClaimingOutputs
| PreparingExecution
| LocalQueued
| LocalExecuting
| RemoteUploading
| RemoteExecuting
| RemoteDownloading
| DynamicExecuting
| MaterializerPrepare
| MaterializerStage2.

Global Instance WaitingCategory_eq_dec : EqDecision WaitingCategory.
Proof. solve_decision. Defined.

(** [to_snake_case] of [src/deps/gazebo/gazebo_derive/src/variant.rs], from which
    [#[derive(VariantName)]] computes [variant_name_lowercase]. *)
Definition is_ascii_uppercase (c : Ascii.ascii) : bool :=
  let n := Ascii.nat_of_ascii c in (65 <=? n) && (n <=? 90).
Definition to_ascii_lowercase (c : Ascii.ascii) : Ascii.ascii :=
  if is_ascii_uppercase c then Ascii.ascii_of_nat (Ascii.nat_of_ascii c + 32) else c.

Fixpoint snake_case_from (is_first : bool) (s : string) : string :=
  match s with
  | EmptyString => EmptyString
  | String c s =>
      if is_ascii_uppercase c then
        let rest := String (to_ascii_lowercase c) (snake_case_from false s) in
        if is_first then rest else String "_"%char rest
      else String c (snake_case_from false s)
  end.
Definition to_snake_case (s : string) : string := snake_case_from true s.

Definition WaitingCategory_variant_name (self : WaitingCategory) : string :=
  match self with
  | Ready => "Ready"
  | PreparingAction => "PreparingAction"
  | CheckingCaches => "CheckingCaches"
  | MaterializingInputs => "MaterializingInputs"
  | ClaimingOutputs => "ClaimingOutputs"
  | PreparingExecution => "PreparingExecution"
  | LocalQueued => "LocalQueued"
  | LocalExecuting => "LocalExecuting"
  | RemoteUploading => "RemoteUploading"
  | RemoteExecuting => "RemoteExecuting"
  | RemoteDownloading => "RemoteDownloading"
  | DynamicExecuting => "DynamicExecuting"
  | MaterializerPrepare => "MaterializerPrepare"
  | MaterializerStage2 => "MaterializerStage2"
  end.

Definition WaitingCategory_variant_name_lowercase (self : WaitingCategory) : string :=
  to_snake_case (WaitingCategory_variant_name self).

Record WaitingDataInitialized := mkWaitingDataInitialized {
  categorized_waiting : list (Instant * WaitingCategory);
}.

Record WaitingData := mkWaitingData { wd_0 : option WaitingDataInitialized }.

Definition WaitingData_new : WaitingData := mkWaitingData None.

Definition WaitingData_init (self : WaitingData) : WaitingDataInitialized :=
  default (mkWaitingDataInitialized []) (wd_0 self).

Definition WaitingData_start_waiting_category_at (self : WaitingData) (category : WaitingCategory)
    (start_time : Instant) : WaitingData :=
  mkWaitingData (Some (mkWaitingDataInitialized
    (categorized_waiting (WaitingData_init self) ++ [(start_time, category)]))).

Definition WaitingData_start_waiting_category_now (self : WaitingData)
    (category : WaitingCategory) (now : Instant) : WaitingData :=
  WaitingData_start_waiting_category_at self category now.

(** One iteration of the loop of [iter_spans]. *)
Definition waiting_span (l : list (Instant * WaitingCategory)) (end_time : Instant) (i : nat)
    (x : Instant * WaitingCategory) : TimeSpan * WaitingCategory :=
  let end_ := match l !! (i + 1) with Some x => x.1 | None => end_time end in
  (TimeSpan_new_saturating x.1 end_, x.2).

Definition WaitingData_iter_spans (self : WaitingData) (start_time end_time : Instant) :
    list (TimeSpan * WaitingCategory) :=
  match categorized_waiting <$> wd_0 self with
  | Some ((first, category) :: rest) =>
      let l := (first, category) :: rest in
      (TimeSpan_new_saturating start_time first, Ready) :: imap (waiting_span l end_time) l
  | _ => [(TimeSpan_new_saturating start_time end_time, Ready)]
  end.

(** * Unit tests *)

Local Notation "'millis' n" := (n * 1000000)%Z (at level 9, only parsing).
Local Notation "'secs' n" := (n * 1000000000)%Z (at level 9, only parsing).

Example test_new_timespan_invalid :
  TimeSpan_new 0 (- millis 100) = inr (InvalidTimeOrder 0 (- millis 100)).
Proof. reflexivity. Qed.

Example test_from_end_and_duration :
  TimeSpan_from_end_and_duration 0 (Z.to_N (millis 500)) = Ok (mkTimeSpan (- millis 500) 0).
Proof. reflexivity. Qed.

Example test_extend_to_include :
  let span := mkTimeSpan 0 (millis 100) in
  let span := TimeSpan_extend_to_include span (- millis 50) in
  TimeSpan_extend_to_include span (millis 150) = mkTimeSpan (- millis 50) (millis 150).
Proof. reflexivity. Qed.

Example test_arithmetic_operations :
  let span := mkTimeSpan 0 (millis 100) in
  TimeSpan_add span (Z.to_N (millis 50)) = Ok (mkTimeSpan (millis 50) (millis 150)) ∧
  TimeSpan_sub span (Z.to_N (millis 50)) = Ok (mkTimeSpan (- millis 50) (millis 50)).
Proof. split; reflexivity. Qed.

Example variant_names :
  WaitingCategory_variant_name_lowercase MaterializerStage2 = "materializer_stage2" ∧
  WaitingCategory_variant_name_lowercase CheckingCaches = "checking_caches".
Proof. split; reflexivity. Qed.

Example test_iter_spans_empty_waiting_data :
  WaitingData_iter_spans WaitingData_new 0 (secs 10) = [(mkTimeSpan 0 (secs 10), Ready)].
Proof. reflexivity. Qed.

Definition multiple_categories : WaitingData :=
  WaitingData_start_waiting_category_at
    (WaitingData_start_waiting_category_at
       (WaitingData_start_waiting_category_at WaitingData_new PreparingAction (secs 1))
       CheckingCaches (secs 4)) MaterializingInputs (secs 7).

Example test_iter_spans_multiple_categories :
  WaitingData_iter_spans multiple_categories 0 (secs 10) =
  [(mkTimeSpan 0 (secs 1), Ready); (mkTimeSpan (secs 1) (secs 4), PreparingAction);
   (mkTimeSpan (secs 4) (secs 7), CheckingCaches);
   (mkTimeSpan (secs 7) (secs 10), MaterializingInputs)].
Proof. reflexivity. Qed.

(** * Well-formed spans and the instants in them *)

Definition ts_wf (ts : TimeSpan) : Prop := (ts_start ts <= ts_end ts)%Z.

Ltac case_Z_bool :=
  repeat match goal with
  | |- context [Z.leb ?a ?b] => destruct (Z.leb_spec a b)
  | |- context [Z.ltb ?a ?b] => destruct (Z.ltb_spec a b)
  | H : context [Z.leb ?a ?b] |- _ => destruct (Z.leb_spec a b)
  | H : context [Z.ltb ?a ?b] |- _ => destruct (Z.ltb_spec a b)
  end.

Lemma new_wf start end_ ts : TimeSpan_new start end_ = inl ts → ts_wf ts.
Proof. unfold TimeSpan_new, ts_wf. case_Z_bool; [|done]. by intros [= <-]. Qed.

Lemma new_saturating_wf start end_ : ts_wf (TimeSpan_new_saturating start end_).
Proof. unfold ts_wf, TimeSpan_new_saturating. cbn. lia. Qed.

Lemma since_spec a b : Instant_saturating_duration_since a b = Z.to_N (a - b).
Proof.
  unfold Instant_saturating_duration_since, Instant_checked_duration_since.
  case_Z_bool; cbn; [done|]. unfold Duration_ZERO. lia.
Qed.

Lemma duration_spec ts : ts_wf ts → Z.of_N (TimeSpan_duration ts) = (ts_end ts - ts_start ts)%Z.
Proof. unfold ts_wf, TimeSpan_duration. rewrite since_spec. lia. Qed.

Lemma contains_spec ts t : TimeSpan_contains ts t = true ↔ (ts_start ts <= t <= ts_end ts)%Z.
Proof. unfold TimeSpan_contains. case_Z_bool; cbn; split; intros; try done; lia. Qed.

Lemma overlaps_spec a b :
  TimeSpan_overlaps a b = true ↔ (ts_start a <= ts_end b ∧ ts_start b <= ts_end a)%Z.
Proof. unfold TimeSpan_overlaps. case_Z_bool; cbn; split; intros; try done; lia. Qed.

Lemma contains_True ts t : TimeSpan_contains ts t ↔ (ts_start ts <= t <= ts_end ts)%Z.
Proof. rewrite <- contains_spec. by destruct (TimeSpan_contains ts t). Qed.

(** Consecutive spans from [from] to [to_], without a gap or an overlap. *)
Fixpoint tiles (from to_ : Instant) (l : list TimeSpan) : Prop :=
  match l with
  | [] => from = to_
  | ts :: l => ts_start ts = from ∧ ts_wf ts ∧ tiles (ts_end ts) to_ l
  end.

Fixpoint total_duration (l : list TimeSpan) : N :=
  match l with [] => 0%N | ts :: l => (TimeSpan_duration ts + total_duration l)%N end.

Lemma tiles_le from to_ l : tiles from to_ l → (from <= to_)%Z.
Proof.
  revert from. induction l as [|ts l IH]; intros from; cbn; [lia|].
  unfold ts_wf. intros (<- & ? & ?%IH). lia.
Qed.

Lemma tiles_total from to_ l : tiles from to_ l → Z.of_N (total_duration l) = (to_ - from)%Z.
Proof.
  revert from. induction l as [|ts l IH]; intros from; cbn; [lia|].
  intros (<- & Hwf & Ht). rewrite N2Z.inj_add, (IH _ Ht), duration_spec by done. lia.
Qed.

Lemma tiles_cover from to_ l t :
  tiles from to_ l → l ≠ [] → (from <= t <= to_)%Z →
  ∃ ts, ts ∈ l ∧ TimeSpan_contains ts t = true.
Proof.
  revert from. induction l as [|ts l IH]; intros from; [done|].
  intros (<- & Hwf & Ht) _ Hin. destruct (decide (t <= ts_end ts)%Z).
  { exists ts. rewrite contains_spec. split; [set_solver|lia]. }
  destruct l as [|ts' l]; [cbn in Ht; lia|].
  destruct (IH _ Ht) as (x & ? & ?); [done|lia|]. exists x. set_solver.
Qed.

(** The loop of [iter_spans], as a recursion over the boundaries. *)
Fixpoint spans_from (l : list (Instant * WaitingCategory)) (end_time : Instant) :
    list (TimeSpan * WaitingCategory) :=
  match l with
  | [] => []
  | x :: l => (TimeSpan_new_saturating x.1 (from_option fst end_time (head l)), x.2)
                :: spans_from l end_time
  end.

Lemma waiting_spans_from pre l end_time :
  imap (λ i x, waiting_span (pre ++ l) end_time (length pre + i) x) l = spans_from l end_time.
Proof.
  revert pre. induction l as [|x l IH]; intros pre; [done|]. cbn. f_equal.
  - unfold waiting_span. rewrite lookup_app_r by lia.
    replace (length pre + 0 + 1 - length pre) with 1 by lia. by destruct l.
  - rewrite <- (IH (pre ++ [x])). apply imap_ext. intros i y _. cbn.
    rewrite <- app_assoc, length_app. cbn. f_equal. lia.
Qed.

Lemma iter_spans_eq self start_time end_time :
  let l := from_option categorized_waiting [] (wd_0 self) in
  WaitingData_iter_spans self start_time end_time =
  (TimeSpan_new_saturating start_time (from_option fst end_time (head l)), Ready)
    :: spans_from l end_time.
Proof.
  unfold WaitingData_iter_spans. destruct (wd_0 self) as [[[|[first cat] rest]]|]; [done| |done].
  cbn [from_option fmap option_fmap option_map categorized_waiting head fst]. f_equal.
  exact (waiting_spans_from [] _ _).
Qed.

Lemma spans_from_tiles l end_time x :
  Sorted Z.le (x.1 :: l.*1 ++ [end_time]) →
  tiles x.1 end_time (spans_from (x :: l) end_time).*1.
Proof.
  revert x. induction l as [|y l IH]; intros x Hs; cbn in *;
    apply Sorted_inv in Hs as [Hs Hx]; apply HdRel_inv in Hx; unfold ts_wf; cbn.
  - rewrite Z.max_r by done. by split_and!.
  - rewrite Z.max_r by done. split; [done|]. split; [done|exact (IH y Hs)].
Qed.

Lemma spans_from_categories l end_time : (spans_from l end_time).*2 = l.*2.
Proof. induction l as [|x l IH]; cbn; [done|by rewrite IH]. Qed.

Lemma spans_from_wf l end_time : Forall (λ s, ts_wf s.1) (spans_from l end_time).
Proof. induction l; cbn; constructor; [apply new_saturating_wf|done]. Qed.

(** * Properties *)

(** Spans are closed intervals of instants.  For two well-formed spans, [overlaps] tells
    whether they have an instant in common; [intersection] is the span of the instants common to
    both, and none exactly when they do not overlap; [union] is the least span that contains
    both; extending a span to an instant gives the least span that contains both. *)
Theorem timespan_interval_algebra a b (Ha : ts_wf a) (Hb : ts_wf b) :
  (TimeSpan_overlaps a b = true ↔
     ∃ t, TimeSpan_contains a t = true ∧ TimeSpan_contains b t = true) ∧
  match TimeSpan_intersection a b with
  | Some i => ts_wf i ∧ ∀ t, TimeSpan_contains i t = TimeSpan_contains a t && TimeSpan_contains b t
  | None => TimeSpan_overlaps a b = false
  end ∧
  (∀ u, ts_wf u →
     (∀ t, TimeSpan_contains a t || TimeSpan_contains b t → TimeSpan_contains u t) ↔
     (∀ t, TimeSpan_contains (TimeSpan_union a b) t → TimeSpan_contains u t)) ∧
  (∀ u t, ts_wf u →
     TimeSpan_contains u t ∧ (∀ t', TimeSpan_contains a t' → TimeSpan_contains u t') ↔
     (∀ t', TimeSpan_contains (TimeSpan_extended_to_include a t) t' → TimeSpan_contains u t')).
Proof.
  unfold ts_wf in *. split_and!.
  - rewrite overlaps_spec. setoid_rewrite contains_spec. split.
    + intros [? ?]. exists (Z.max (ts_start a) (ts_start b)). lia.
    + intros (t & ? & ?). lia.
  - unfold TimeSpan_intersection. destruct (Z.leb_spec (Z.max (ts_start a) (ts_start b))
      (Z.min (ts_end a) (ts_end b))) as [Hle|Hlt].
    + split; [exact Hle|]. intros t. apply eq_true_iff_eq.
      rewrite andb_true_iff, !contains_spec. cbn. lia.
    + apply not_true_is_false. rewrite overlaps_spec. lia.
  - intros u Hu. setoid_rewrite orb_True. setoid_rewrite contains_True. cbn. split; intros H.
    + intros t Ht. pose proof (H (ts_start a)). pose proof (H (ts_end a)).
      pose proof (H (ts_start b)). pose proof (H (ts_end b)). lia.
    + intros t Ht. apply H. lia.
  - intros u t Hu. setoid_rewrite contains_True. unfold TimeSpan_extended_to_include,
      TimeSpan_extend_to_include. case_Z_bool; cbn; split; intros Hc.
    + intros t' Ht. destruct Hc as [? Hc]. specialize (Hc (ts_end a)). lia.
    + split; [apply Hc; lia|]. intros t' Ht. apply Hc. lia.
    + intros t' Ht. destruct Hc as [? Hc]. specialize (Hc (ts_start a)). lia.
    + split; [apply Hc; lia|]. intros t' Ht. apply Hc. lia.
    + intros t' Ht. by apply Hc.
    + split; [apply Hc; lia|]. intros t' Ht. by apply Hc.
Qed.

Lemma timespan_interval_algebra_witness :
  let a := mkTimeSpan 0 100 in let b := mkTimeSpan 50 150 in
  TimeSpan_intersection a b = Some (mkTimeSpan 50 100) ∧
  ∀ t, TimeSpan_contains (mkTimeSpan 50 100) t = TimeSpan_contains a t && TimeSpan_contains b t.
Proof.
  intros a b. split; [reflexivity|].
  exact (proj2 (proj1 (proj2 (timespan_interval_algebra a b ltac:(by vm_compute)
    ltac:(by vm_compute))))).
Defined.

(** A recorded sequence of waiting phases is laid out as spans labelled [Ready] and then with
    the categories in the order recorded; every span is well-formed whatever the instants.  When
    the instants do not decrease from the start time to the end time, the spans follow each other
    without a gap or an overlap, cover every instant between the two times, and their durations
    add up to the time between them. *)
Theorem iter_spans_tile self start_time end_time :
  let l := from_option categorized_waiting [] (wd_0 self) in
  let spans := WaitingData_iter_spans self start_time end_time in
  spans.*2 = Ready :: l.*2 ∧
  Forall ts_wf spans.*1 ∧
  (Sorted Z.le (start_time :: l.*1 ++ [end_time]) →
     tiles start_time end_time spans.*1 ∧
     (∀ t, (start_time <= t <= end_time)%Z → ∃ ts, ts ∈ spans.*1 ∧ TimeSpan_contains ts t = true) ∧
     Z.of_N (total_duration spans.*1) = (end_time - start_time)%Z).
Proof.
  intros l spans. subst spans. rewrite iter_spans_eq. fold l. cbn [fmap list_fmap].
  rewrite spans_from_categories. split; [done|]. split.
  { constructor; [apply new_saturating_wf|apply Forall_fmap, spans_from_wf]. }
  intros Hs.
  assert (tiles start_time end_time (spans_from ((start_time, Ready) :: l) end_time).*1) as Ht
    by (by apply spans_from_tiles).
  cbn [spans_from fmap list_fmap fst snd] in Ht. split; [done|]. split.
  - intros t Hin. by eapply tiles_cover.
  - by apply tiles_total.
Qed.

Lemma iter_spans_tile_witness :
  let spans := WaitingData_iter_spans multiple_categories 0 10000000000 in
  Z.of_N (total_duration spans.*1) = 10000000000%Z.
Proof.
  apply (iter_spans_tile multiple_categories 0 10000000000).
  cbn. repeat constructor; by vm_compute.
Defined.
