(* ===== verification/SignalNodes.v ===== *)
(** The nodes of the build graph whose critical path is reported after a build: the data of
    [src/app/bz_build_signals_impl/src/lib.rs], the dynamically typed keys of
    [src/app/bz_build_signals/src/node_key.rs] with their implementations, and the entries of the
    report.

    Labels, packages, artifacts and actions belong to other parts of the program; here they are
    only compared, printed and asked for a few attributes.  [SignalTypes] holds their types and
    [SignalOps] those attributes.  Equality of keys is the [Eq] the source declares: the finish key of an
    analysis compares the target only, so [NodeKey] has an equality coarser than [=], the class
    [RustEq], and the hash maps keyed by it ([hm_get], [hm_insert]) use that equality. *)
From S2P Require Import Prelude.
From S2P Require Import TimeSpan.
From S2P Require Import CritGraph.
From stdpp Require Import strings pretty.
Local Open Scope dice_scope.

(** * Equality of the source and hash maps *)

Class RustEq (A : Type) := rust_eq : A → A → bool.

Class RustEqLaws (A : Type) `{RustEq A} := {
  rust_eq_refl : ∀ a : A, rust_eq a a = true;
  rust_eq_sym : ∀ a b : A, rust_eq a b = true → rust_eq b a = true;
  rust_eq_trans : ∀ a b c : A, rust_eq a b = true → rust_eq b c = true → rust_eq a c = true;
}.

(** [#[derive(PartialEq)]] of a type whose equality is [=]. *)
Definition rust_eq_dec {A} `{EqDecision A} : RustEq A := λ a b, bool_decide (a = b).

Lemma rust_eq_dec_laws {A} `{EqDecision A} : @RustEqLaws A rust_eq_dec.
Proof.
  split; unfold rust_eq, rust_eq_dec; intros *; rewrite !bool_decide_eq_true; congruence.
Qed.

Section HashMaps.
Context {K V : Type} `{RustEq K}.

(** A [HashMap]: keys are pairwise different for [rust_eq]. *)
Definition HashMap : Type := list (K * V).

Fixpoint hm_get (m : HashMap) (k : K) : option V :=
  match m with
  | [] => None
  | (k', v) :: m => if rust_eq k' k then Some v else hm_get m k
  end.

(** [insert]: the value of an equal key is replaced, the key stays. *)
Fixpoint hm_insert (m : HashMap) (k : K) (v : V) : HashMap :=
  match m with
  | [] => [(k, v)]
  | (k', v') :: m => if rust_eq k' k then (k', v) :: m else (k', v') :: hm_insert m k v
  end.

Fixpoint hm_wf (m : HashMap) : Prop :=
  match m with
  | [] => True
  | (k, _) :: m => Forall (λ x, rust_eq k x.1 = false) m ∧ hm_wf m
  end.

Context `{!RustEqLaws K}.

Lemma rust_eq_false_sym a b : rust_eq a b = false → rust_eq b a = false.
Proof.
  intros E. destruct (rust_eq b a) eqn:E'; [|done]. apply rust_eq_sym in E'. congruence.
Qed.

(** Equal keys are compared alike. *)
Lemma rust_eq_left a b c : rust_eq a b = true → rust_eq a c = rust_eq b c.
Proof.
  intros E. apply eq_true_iff_eq. split; intros E'.
  - by apply (rust_eq_trans b a c); [apply rust_eq_sym|].
  - by apply (rust_eq_trans a b c).
Qed.

Lemma hm_get_ext m k k' : rust_eq k k' = true → hm_get m k = hm_get m k'.
Proof.
  intros E. induction m as [|[k1 v] m IH]; cbn; [done|].
  replace (rust_eq k1 k') with (rust_eq k1 k); [by rewrite IH|].
  apply eq_true_iff_eq. split; intros E'; (eapply rust_eq_trans; [exact E'|]); [done|].
  by apply rust_eq_sym.
Qed.

Lemma hm_get_insert m k v k' :
  hm_get (hm_insert m k v) k' = if rust_eq k k' then Some v else hm_get m k'.
Proof.
  induction m as [|[k1 v1] m IH]; cbn; [done|].
  destruct (rust_eq k1 k) eqn:E; cbn.
  - rewrite (rust_eq_left k1 k k' E). by destruct (rust_eq k k').
  - rewrite IH. destruct (rust_eq k1 k') eqn:E1; [|done].
    destruct (rust_eq k k') eqn:E2; [|done].
    apply rust_eq_sym in E2. rewrite (rust_eq_trans _ _ _ E1 E2) in E. done.
Qed.

Lemma hm_insert_wf m k v : hm_wf m → hm_wf (hm_insert m k v).
Proof.
  induction m as [|[k1 v1] m IH]; cbn; [done|]. intros [Hf Hm].
  destruct (rust_eq k1 k) eqn:E; cbn; [done|]. split; [|by apply IH].
  clear IH Hm. induction m as [|[k2 v2] m IH]; cbn; [by repeat constructor|].
  apply Forall_cons in Hf as [? Hf]. destruct (rust_eq k2 k); constructor; [done..|].
  by apply IH.
Qed.

Lemma hm_get_elem m k v : hm_wf m → hm_get m k = Some v ↔ ∃ k', rust_eq k' k = true ∧ (k', v) ∈ m.
Proof.
  induction m as [|[k1 v1] m IH]; cbn; [intros _; split; [done|]; by intros (? & _ & ?%elem_of_nil)|].
  intros [Hf Hm]. specialize (IH Hm). destruct (rust_eq k1 k) eqn:E.
  - split; [intros [= ->]; exists k1; set_solver|]. intros (k' & E' & [[= -> ->]|Hin]%elem_of_cons); [done|].
    rewrite Forall_forall in Hf. specialize (Hf _ Hin). cbn in Hf.
    apply rust_eq_sym in E'. by rewrite (rust_eq_trans _ _ _ E E') in Hf.
  - rewrite IH. split.
    + intros (k' & ? & ?). exists k'. set_solver.
    + intros (k' & E' & [[= -> ->]|Hin]%elem_of_cons); [congruence|eauto].
Qed.
End HashMaps.
Arguments HashMap _ _ : clear implicits.

(** * What other parts of the program provide *)

Class SignalTypes := {
  ActionKey : Type;
  ConfiguredTargetLabel : Type;
  EnsureProjectedArtifactKey : Type;
  EnsureTransitiveSetProjectionKey : Type;
  PackageLabel : Type;
  BuildArtifact : Type;
  AnonTarget : Type;
  DynamicLambdaResultsKey : Type;
  Artifact : Type;
  PromiseArtifactWrapper : Type;
  RegisteredAction : Type;
  EvaluationResult : Type;
  ActionExecutionKind : Type;
  CommandInvalidationInfo : Type;
  InputsError : Type;
  JoinError : Type;
  (** Messages of the event protocol. *)
  OwnerProto : Type;
  TargetLabelProto : Type;
  AnonTargetProto : Type;
  DynamicAnalysisProto : Type;
  ActionKey_eq_dec :: EqDecision ActionKey;
  ConfiguredTargetLabel_eq_dec :: EqDecision ConfiguredTargetLabel;
  EnsureProjectedArtifactKey_eq_dec :: EqDecision EnsureProjectedArtifactKey;
  EnsureTransitiveSetProjectionKey_eq_dec :: EqDecision EnsureTransitiveSetProjectionKey;
  PackageLabel_eq_dec :: EqDecision PackageLabel;
  BuildArtifact_eq_dec :: EqDecision BuildArtifact;
  AnonTarget_eq_dec :: EqDecision AnonTarget;
  DynamicLambdaResultsKey_eq_dec :: EqDecision DynamicLambdaResultsKey;
}.

(** [ArtifactGroup] of [src/app/bz_build_api/src/artifact_groups.rs]. *)
Inductive ArtifactGroup `{SignalTypes} :=
| ArtifactGroup_Artifact (a : Artifact)
| ArtifactGroup_TransitiveSetProjection (key : EnsureTransitiveSetProjectionKey)
| ArtifactGroup_Promise (p : PromiseArtifactWrapper).

Record TestExecutionBuildSignalKey `{SignalTypes} := mkTestExecutionBuildSignalKey {
  te_target : ConfiguredTargetLabel;
  te_suite : string;
  te_testcases : list string;
  te_variant : option string;
}.

Record TestListingBuildSignalKey `{SignalTypes} := mkTestListingBuildSignalKey {
  tl_target : ConfiguredTargetLabel;
  tl_suite : string;
}.

Global Instance TestExecutionBuildSignalKey_eq_dec `{SignalTypes} :
  EqDecision TestExecutionBuildSignalKey.
Proof. solve_decision. Defined.
Global Instance TestListingBuildSignalKey_eq_dec `{SignalTypes} :
  EqDecision TestListingBuildSignalKey.
Proof. solve_decision. Defined.

(** The attributes of opaque values. *)
Class SignalOps `{SignalTypes} := {
  ActionKey_owner_proto : ActionKey → OwnerProto;
  ActionKey_display : ActionKey → string;
  ConfiguredTargetLabel_as_proto : ConfiguredTargetLabel → TargetLabelProto;
  ConfiguredTargetLabel_display : ConfiguredTargetLabel → string;
  EnsureProjectedArtifactKey_display : EnsureProjectedArtifactKey → string;
  EnsureTransitiveSetProjectionKey_display : EnsureTransitiveSetProjectionKey → string;
  PackageLabel_display : PackageLabel → string;
  BuildArtifact_key : BuildArtifact → ActionKey;
  BuildArtifact_path : BuildArtifact → string;
  BuildArtifact_display : BuildArtifact → string;
  AnonTarget_as_proto : AnonTarget → AnonTargetProto;
  AnonTarget_display : AnonTarget → string;
  AnonTargetProto_default : AnonTargetProto;
  DynamicLambdaResultsKey_proto : DynamicLambdaResultsKey → DynamicAnalysisProto;
  DynamicLambdaResultsKey_display : DynamicLambdaResultsKey → string;
  Artifact_action_key : Artifact → option ActionKey;
  RegisteredAction_key : RegisteredAction → ActionKey;
  RegisteredAction_inputs : RegisteredAction → list ArtifactGroup + InputsError;
  RegisteredAction_category : RegisteredAction → string;
  RegisteredAction_identifier : RegisteredAction → option string;
  (** For each target of the package, the packages of its dependencies. *)
  EvaluationResult_target_deps : EvaluationResult → list (list PackageLabel);
  TestExecutionBuildSignalKey_debug : TestExecutionBuildSignalKey → string;
  TestListingBuildSignalKey_debug : TestListingBuildSignalKey → string;
}.

(** * Entries of the report *)

(** [CriticalPathEntry2.entry] of [src/app/bz_data/data.proto]. *)
Inductive Entry `{SignalTypes} :=
| Entry_Analysis (target : option TargetLabelProto) (target_rule_type_name : option string)
    (part : option N)
| Entry_ActionExecution (owner : option OwnerProto) (name : option (string * string))
    (execution_kind : ActionExecutionKind) (target_rule_type_name action_digest : option string)
    (invalidation_info : option CommandInvalidationInfo)
| Entry_FinalMaterialization (owner : option OwnerProto) (path : string)
| Entry_ComputeCriticalPath
| Entry_Load (package : string)
| Entry_Listing (package : string)
| Entry_GenericEntry (kind : string)
| Entry_TestExecution (target_label : option TargetLabelProto) (suite : string)
    (testcases : list string) (variant : option string)
| Entry_TestListing (target_label : option TargetLabelProto) (suite : string)
| Entry_Waiting (category : option string)
| Entry_DynamicAnalysis (analysis : DynamicAnalysisProto)
| Entry_EnsureTransitiveSetProjection
| Entry_AnonAnalysis (anon_target : option AnonTargetProto) (part : option N).

(** * Keys *)

Section Keys.
Context `{SO : SignalOps}.

Record AnalysisFinishNodeKey := mkAnalysisFinishNodeKey {
  af_target : ConfiguredTargetLabel;
  af_target_rule_type_name : option string;
}.

Record AnonTargetFinishNodeKey := mkAnonTargetFinishNodeKey {
  atf_display_name : string;
  atf_anon_target_proto : AnonTargetProto;
}.

(** The implementations of [BuildSignalsNodeKeyImpl]. *)
Inductive BuildSignalsNodeKey :=
| BSKey_AnalysisFinish (k : AnalysisFinishNodeKey)
| BSKey_AnonTargetFinish (k : AnonTargetFinishNodeKey)
| BSKey_AnonTarget (k : AnonTarget)
| BSKey_ConfiguredTargetNode (k : ConfiguredTargetLabel)
| BSKey_DynamicLambda (k : DynamicLambdaResultsKey).

Definition AnalysisFinishNodeKey_eqb (self other : AnalysisFinishNodeKey) : bool :=
  bool_decide (af_target self = af_target other).

Definition AnonTargetFinishNodeKey_eqb (self other : AnonTargetFinishNodeKey) : bool :=
  bool_decide (atf_display_name self = atf_display_name other).

(** [PartialEqAny]: keys of one type, equal in it. *)
Definition BuildSignalsNodeKey_eqb (self other : BuildSignalsNodeKey) : bool :=
  match self, other with
  | BSKey_AnalysisFinish a, BSKey_AnalysisFinish b => AnalysisFinishNodeKey_eqb a b
  | BSKey_AnonTargetFinish a, BSKey_AnonTargetFinish b => AnonTargetFinishNodeKey_eqb a b
  | BSKey_AnonTarget a, BSKey_AnonTarget b => bool_decide (a = b)
  | BSKey_ConfiguredTargetNode a, BSKey_ConfiguredTargetNode b => bool_decide (a = b)
  | BSKey_DynamicLambda a, BSKey_DynamicLambda b => bool_decide (a = b)
  | _, _ => false
  end.

Definition critical_path_entry_proto (self : BuildSignalsNodeKey) : option Entry :=
  match self with
  | BSKey_AnalysisFinish k =>
      Some (Entry_Analysis (Some (ConfiguredTargetLabel_as_proto (af_target k)))
              (af_target_rule_type_name k) (Some 2%N))
  | BSKey_AnonTargetFinish k => Some (Entry_AnonAnalysis (Some (atf_anon_target_proto k)) (Some 2%N))
  | BSKey_AnonTarget k => Some (Entry_AnonAnalysis (Some (AnonTarget_as_proto k)) None)
  | BSKey_ConfiguredTargetNode _ => None
  | BSKey_DynamicLambda k => Some (Entry_DynamicAnalysis (DynamicLambdaResultsKey_proto k))
  end.

Definition BuildSignalsNodeKey_kind (self : BuildSignalsNodeKey) : string :=
  match self with
  | BSKey_AnalysisFinish _ => "analysis_finish"
  | BSKey_AnonTargetFinish _ => "anon_target_finish"
  | BSKey_AnonTarget _ => "anon_target"
  | BSKey_ConfiguredTargetNode _ => "configure_target"
  | BSKey_DynamicLambda _ => "unknown"
  end.

Definition BuildSignalsNodeKey_display (self : BuildSignalsNodeKey) : string :=
  match self with
  | BSKey_AnalysisFinish k =>
      "AnalysisFinish(" +:+ ConfiguredTargetLabel_display (af_target k) +:+ ")"
  | BSKey_AnonTargetFinish k => "AnonTargetFinish(" +:+ atf_display_name k +:+ ")"
  | BSKey_AnonTarget k => AnonTarget_display k
  | BSKey_ConfiguredTargetNode k => ConfiguredTargetLabel_display k
  | BSKey_DynamicLambda k => DynamicLambdaResultsKey_display k
  end.

Inductive NodeKey :=
| NodeKey_BuildKey (k : ActionKey)
| NodeKey_AnalysisKey (k : ConfiguredTargetLabel)
| NodeKey_EnsureProjectedArtifactKey (k : EnsureProjectedArtifactKey)
| NodeKey_EnsureTransitiveSetProjectionKey (k : EnsureTransitiveSetProjectionKey)
| NodeKey_InterpreterResultsKey (k : PackageLabel)
| NodeKey_PackageListingKey (k : PackageLabel)
| NodeKey_FinalMaterialization (k : BuildArtifact)
| NodeKey_TestExecution (k : TestExecutionBuildSignalKey)
| NodeKey_TestListing (k : TestListingBuildSignalKey)
| NodeKey_Dyn (name : string) (k : BuildSignalsNodeKey).

(** [#[derive(PartialEq)]] *)
Global Instance NodeKey_eqb : RustEq NodeKey := λ self other,
  match self, other with
  | NodeKey_BuildKey a, NodeKey_BuildKey b => bool_decide (a = b)
  | NodeKey_AnalysisKey a, NodeKey_AnalysisKey b => bool_decide (a = b)
  | NodeKey_EnsureProjectedArtifactKey a, NodeKey_EnsureProjectedArtifactKey b =>
      bool_decide (a = b)
  | NodeKey_EnsureTransitiveSetProjectionKey a, NodeKey_EnsureTransitiveSetProjectionKey b =>
      bool_decide (a = b)
  | NodeKey_InterpreterResultsKey a, NodeKey_InterpreterResultsKey b => bool_decide (a = b)
  | NodeKey_PackageListingKey a, NodeKey_PackageListingKey b => bool_decide (a = b)
  | NodeKey_FinalMaterialization a, NodeKey_FinalMaterialization b => bool_decide (a = b)
  | NodeKey_TestExecution a, NodeKey_TestExecution b => bool_decide (a = b)
  | NodeKey_TestListing a, NodeKey_TestListing b => bool_decide (a = b)
  | NodeKey_Dyn n a, NodeKey_Dyn m b => bool_decide (n = m) && BuildSignalsNodeKey_eqb a b
  | _, _ => false
  end.

Definition NodeKey_display (self : NodeKey) : string :=
  match self with
  | NodeKey_BuildKey k => "BuildKey(" +:+ ActionKey_display k +:+ ")"
  | NodeKey_AnalysisKey k => "AnalysisKey(" +:+ ConfiguredTargetLabel_display k +:+ ")"
  | NodeKey_EnsureProjectedArtifactKey k =>
      "EnsureProjectedArtifactKey(" +:+ EnsureProjectedArtifactKey_display k +:+ ")"
  | NodeKey_EnsureTransitiveSetProjectionKey k =>
      "EnsureTransitiveSetProjectionKey(" +:+ EnsureTransitiveSetProjectionKey_display k +:+ ")"
  | NodeKey_InterpreterResultsKey k => "InterpreterResultsKey(" +:+ PackageLabel_display k +:+ ")"
  | NodeKey_PackageListingKey k => "PackageListingKey(" +:+ PackageLabel_display k +:+ ")"
  | NodeKey_FinalMaterialization k => "FinalMaterialization(" +:+ BuildArtifact_display k +:+ ")"
  | NodeKey_TestExecution k => "TestExecution(" +:+ TestExecutionBuildSignalKey_debug k +:+ ")"
  | NodeKey_TestListing k => "TestListing(" +:+ TestListingBuildSignalKey_debug k +:+ ")"
  | NodeKey_Dyn name k => name +:+ "(" +:+ BuildSignalsNodeKey_display k +:+ ")"
  end.

Definition NodeKey_variant_name (self : NodeKey) : string :=
  match self with
  | NodeKey_BuildKey _ => "BuildKey"
  | NodeKey_AnalysisKey _ => "AnalysisKey"
  | NodeKey_EnsureProjectedArtifactKey _ => "EnsureProjectedArtifactKey"
  | NodeKey_EnsureTransitiveSetProjectionKey _ => "EnsureTransitiveSetProjectionKey"
  | NodeKey_InterpreterResultsKey _ => "InterpreterResultsKey"
  | NodeKey_PackageListingKey _ => "PackageListingKey"
  | NodeKey_FinalMaterialization _ => "FinalMaterialization"
  | NodeKey_TestExecution _ => "TestExecution"
  | NodeKey_TestListing _ => "TestListing"
  | NodeKey_Dyn _ _ => "Dyn"
  end.

(** * Data *)

Record ActionNodeData := mkActionNodeData {
  and_action : RegisteredAction;
  and_execution_kind : ActionExecutionKind;
  and_target_rule_type_name : option string;
  and_action_digest : option string;
  and_invalidation_info : option CommandInvalidationInfo;
}.

Record AnalysisNodeData := mkAnalysisNodeData {
  an_target_rule_type_name : option string;
  an_part : option N;
}.

Definition AnalysisNodeData_with_part (self : AnalysisNodeData) (part : option N) :
    AnalysisNodeData := mkAnalysisNodeData (an_target_rule_type_name self) part.

Inductive NodeExtraData :=
| Extra_Action (a : ActionNodeData)
| Extra_Analysis (a : AnalysisNodeData)
| Extra_Load (r : option EvaluationResult)
| Extra_None.

Notation SpanId := N (only parsing).

Record NodeData := mkNodeData {
  nda_extra_data : NodeExtraData;
  nda_duration : NodeDuration;
  nda_waiting_data : WaitingData;
  nda_span_ids : list SpanId;
}.

Global Instance NodeData_inhabited : Inhabited NodeData :=
  populate (mkNodeData Extra_None (mkNodeDuration 0%N (mkTimeSpan 0 0) None) WaitingData_new []).

Global Instance NodeKey_inhabited : Inhabited NodeKey :=
  populate (NodeKey_Dyn "" (BSKey_AnonTargetFinish
    (mkAnonTargetFinishNodeKey "" AnonTargetProto_default))).

Definition into_generic_entry (self : NodeKey) : Entry :=
  Entry_GenericEntry match self with
  | NodeKey_Dyn _ d => BuildSignalsNodeKey_kind d
  | _ => to_snake_case (NodeKey_variant_name self)
  end.

Definition into_critical_path_entry_data (self : NodeKey) (extra_data : NodeExtraData) : Entry :=
  match self with
  | NodeKey_BuildKey key =>
      match extra_data with
      | Extra_Action a =>
          Entry_ActionExecution (Some (ActionKey_owner_proto key))
            (Some (RegisteredAction_category (and_action a),
                   default "" (RegisteredAction_identifier (and_action a))))
            (and_execution_kind a) (and_target_rule_type_name a) (and_action_digest a)
            (and_invalidation_info a)
      | _ => into_generic_entry self
      end
  | NodeKey_AnalysisKey key =>
      Entry_Analysis (Some (ConfiguredTargetLabel_as_proto key))
        match extra_data with Extra_Analysis d => an_target_rule_type_name d | _ => None end
        match extra_data with Extra_Analysis d => an_part d | _ => None end
  | NodeKey_FinalMaterialization key =>
      Entry_FinalMaterialization (Some (ActionKey_owner_proto (BuildArtifact_key key)))
        (BuildArtifact_path key)
  | NodeKey_InterpreterResultsKey key => Entry_Load (PackageLabel_display key)
  | NodeKey_PackageListingKey key => Entry_Listing (PackageLabel_display key)
  | NodeKey_EnsureProjectedArtifactKey _ => into_generic_entry self
  | NodeKey_EnsureTransitiveSetProjectionKey _ => Entry_EnsureTransitiveSetProjection
  | NodeKey_Dyn _ d =>
      match critical_path_entry_proto d with
      | Some entry =>
          match entry, extra_data with
          | Entry_AnonAnalysis anon part, Extra_Analysis node_data =>
              Entry_AnonAnalysis anon
                match part with None => an_part node_data | Some _ => part end
          | _, _ => entry
          end
      | None => into_generic_entry self
      end
  | NodeKey_TestExecution t =>
      Entry_TestExecution (Some (ConfiguredTargetLabel_as_proto (te_target t))) (te_suite t)
        (te_testcases t) (te_variant t)
  | NodeKey_TestListing t =>
      Entry_TestListing (Some (ConfiguredTargetLabel_as_proto (tl_target t))) (tl_suite t)
  end.

(** * Paths *)

Inductive CriticalPathError :=
| GraphBuildOverflow
| CycleDetected (message : string)
| CriticalPathError_JoinError (e : JoinError).

Record DetailedCriticalPathEntry := mkDetailedCriticalPathEntry {
  de_key : NodeKey;
  de_data : NodeData;
  de_potential_improvement : option Duration;
  de_deps_finished_time : option Instant;
  de_critical_path_duration : option Duration;
}.

Record DetailedCriticalPath := mkDetailedCriticalPath {
  dcp_entries : list DetailedCriticalPathEntry
}.

Definition DetailedCriticalPath_empty : DetailedCriticalPath := mkDetailedCriticalPath [].
Definition DetailedCriticalPath_new (entries : list DetailedCriticalPathEntry) :
    DetailedCriticalPath := mkDetailedCriticalPath entries.

Record BuildInfo := mkBuildInfo {
  bi_critical_path : DetailedCriticalPath;
  bi_build_graph_critical_path : DetailedCriticalPath;
  bi_slowest_path : DetailedCriticalPath;
  bi_num_nodes : N;
  bi_num_edges : N;
  bi_top_level_targets : list (ConfiguredTargetLabel * Duration);
}.

(** * The equality of keys *)

Lemma NodeKey_eqb_Dyn n a m b :
  rust_eq (NodeKey_Dyn n a) (NodeKey_Dyn m b) = bool_decide (n = m) && BuildSignalsNodeKey_eqb a b.
Proof. done. Qed.

(** The part of a key its equality looks at. *)
Definition bs_identity (k : BuildSignalsNodeKey) :
    ConfiguredTargetLabel + string + AnonTarget + ConfiguredTargetLabel + DynamicLambdaResultsKey :=
  match k with
  | BSKey_AnalysisFinish k => inl (inl (inl (inl (af_target k))))
  | BSKey_AnonTargetFinish k => inl (inl (inl (inr (atf_display_name k))))
  | BSKey_AnonTarget k => inl (inl (inr k))
  | BSKey_ConfiguredTargetNode k => inl (inr k)
  | BSKey_DynamicLambda k => inr k
  end.

Lemma bs_eqb_identity a b : BuildSignalsNodeKey_eqb a b = bool_decide (bs_identity a = bs_identity b).
Proof.
  destruct a, b; cbn [BuildSignalsNodeKey_eqb bs_identity];
    unfold AnalysisFinishNodeKey_eqb, AnonTargetFinishNodeKey_eqb;
    repeat case_bool_decide; congruence.
Qed.

Definition nk_identity (k : NodeKey) :=
  match k with
  | NodeKey_Dyn n k => inr (n, bs_identity k)
  | k => inl k
  end.

Lemma NodeKey_eqb_identity (a b : NodeKey) : rust_eq a b = true ↔ nk_identity a = nk_identity b.
Proof.
  destruct a, b; try (cbn; split; [discriminate|congruence]);
    try (unfold rust_eq; cbn; rewrite bool_decide_eq_true; split; congruence).
  rewrite NodeKey_eqb_Dyn, bs_eqb_identity, andb_true_iff, !bool_decide_eq_true. cbn.
  split; [by intros [-> ->]|by intros [= -> ->]].
Qed.

Global Instance NodeKey_eqb_laws : RustEqLaws NodeKey.
Proof. split; intros *; rewrite !NodeKey_eqb_identity; congruence. Qed.
End Keys.
