(* ===== verification/SignalWork.v ===== *)
(** The critical path through real work: [compute_real_work_critical_path] of
    [src/app/bz_build_signals_impl/src/backend/longest_path_graph.rs] and the functions under it.
    Nodes that did work have a span; between them, the graph is contracted.  A path costs the
    duration of its first node and, for each further one, the part of its time after the
    previous node ended.  [SignalWorkSpec] holds the theorem.

    [HashSet<VertexId>] and [HashMap<VertexId, _>] are [gset] and [gmap]; a stack is listed from
    its top. *)
From S2P Require Import Prelude.
From S2P Require Import TimeSpan.
From S2P Require Import CritGraph.
From S2P Require Import SignalNodes.
From stdpp Require Import strings pretty.
Local Open Scope dice_scope.

(** * Iterators *)

(** [Iterator::max] *)
Definition iter_max {A} (leb : A → A → bool) (l : list A) : option A :=
  match l with
  | [] => None
  | x :: l => Some (fold_left (λ m y, if leb m y then y else m) l x)
  end.

(** [filter_map] with a closure that may panic. *)
Fixpoint filter_map_outcome {A B} (f : A → outcome (option B)) (l : list A) : outcome (list B) :=
  match l with
  | [] => Ok []
  | x :: l => y ← f x; ys ← filter_map_outcome f l; Ok (option_list y ++ ys)
  end.

(** [map] with a closure that may panic. *)
Fixpoint map_outcome {A B} (f : A → outcome B) (l : list A) : outcome (list B) :=
  match l with
  | [] => Ok []
  | x :: l => y ← f x; ys ← map_outcome f l; Ok (y :: ys)
  end.

(** Over a total order, the result is an element and none is greater. *)
Lemma iter_max_spec {A} (leb : A → A → bool) (l : list A) (m : A) :
  (∀ x y, leb x y = true ∨ leb y x = true) →
  (∀ x y z, leb x y = true → leb y z = true → leb x z = true) →
  iter_max leb l = Some m → m ∈ l ∧ ∀ x, x ∈ l → leb x m = true.
Proof.
  intros Htot Htr. destruct l as [|x0 l]; [done|]. intros [= <-].
  assert (∀ x, leb x x = true) as Hrefl by (intros x; by destruct (Htot x x)).
  revert x0. induction l as [|y l IH]; intros x0; cbn [fold_left].
  { split; [by left|]. intros x Hx%list_elem_of_singleton. by subst x. }
  destruct (leb x0 y) eqn:E; [destruct (IH y) as [Hin Hmax]|destruct (IH x0) as [Hin Hmax]].
  - split; [set_solver|]. intros x [->|Hx]%elem_of_cons; [|by apply Hmax].
    apply (Htr _ y); [done|]. apply Hmax. by left.
  - split; [set_solver|]. intros x [->|[->|Hx]%elem_of_cons]%elem_of_cons;
      [apply Hmax; by left| |apply Hmax; by right].
    apply (Htr _ x0); [by destruct (Htot x0 y); [congruence|]|]. apply Hmax. by left.
Qed.

Lemma iter_max_None {A} (leb : A → A → bool) (l : list A) : iter_max leb l = None ↔ l = [].
Proof. by destruct l. Qed.

Lemma iter_max_N (l : list N) m :
  iter_max N.leb l = Some m → m ∈ l ∧ ∀ x, x ∈ l → (x <= m)%N.
Proof.
  intros E. apply iter_max_spec in E as [Hin Hmax].
  - split; [done|]. intros x Hx. by apply N.leb_le, Hmax.
  - intros x y. rewrite !N.leb_le. lia.
  - intros x y z. rewrite !N.leb_le. lia.
Qed.

Lemma iter_max_Z (l : list Z) m :
  iter_max Z.leb l = Some m → m ∈ l ∧ ∀ x, x ∈ l → (x <= m)%Z.
Proof.
  intros E. apply iter_max_spec in E as [Hin Hmax].
  - split; [done|]. intros x Hx. by apply Z.leb_le, Hmax.
  - intros x y. rewrite !Z.leb_le. lia.
  - intros x y z. rewrite !Z.leb_le. lia.
Qed.

Lemma filter_map_outcome_Ok {A B} (f : A → outcome (option B)) (g : A → option B) l :
  (∀ x, x ∈ l → f x = Ok (g x)) → filter_map_outcome f l = Ok (omap g l).
Proof.
  intros Hf. induction l as [|x l IH]; cbn; [done|].
  rewrite Hf by set_solver. cbn. rewrite IH by set_solver. cbn. by destruct (g x).
Qed.

Lemma map_outcome_Ok {A B} (f : A → outcome B) (g : A → B) l :
  (∀ x, x ∈ l → f x = Ok (g x)) → map_outcome f l = Ok (g <$> l).
Proof.
  intros Hf. induction l as [|x l IH]; cbn; [done|].
  rewrite Hf by set_solver. cbn. by rewrite IH by set_solver.
Qed.

(** * Definitions *)

Section Work.
Context `{SO : SignalOps} {M : Type} `{KM : KeyMap NodeKey M}.

Record TopLevelTarget := mkTopLevelTarget {
  tlt_target : ConfiguredTargetLabel;
  tlt_artifacts : list NodeKey;
}.

Record WorkPathState := mkWorkPathState {
  wps_cost : Duration;
  wps_predecessor : option VertexId;
}.

(** [&keys[v]] *)
Definition VertexKeys_index (keys : M) (v : VertexId) : outcome NodeKey :=
  expect (km_get_index keys v).

Definition is_critical_path_work_node (key : NodeKey) (data : NodeData) : bool :=
  match nda_span_ids data with
  | [] => false
  | _ =>
      match key with
      | NodeKey_BuildKey _ => match nda_extra_data data with Extra_Action _ => true | _ => false end
      | NodeKey_AnalysisKey _ =>
          match nda_extra_data data with Extra_Analysis _ => true | _ => false end
      | NodeKey_InterpreterResultsKey _ => true
      | NodeKey_PackageListingKey _ => true
      | NodeKey_FinalMaterialization _ => true
      | NodeKey_Dyn _ dyn_key =>
          match critical_path_entry_proto dyn_key with
          | Some (Entry_Analysis _ _ _ | Entry_AnonAnalysis _ _ | Entry_DynamicAnalysis _) => true
          | _ => false
          end
      | NodeKey_EnsureProjectedArtifactKey _
      | NodeKey_EnsureTransitiveSetProjectionKey _
      | NodeKey_TestExecution _
      | NodeKey_TestListing _ => false
      end
  end.

(** [is_critical_path_work_node(&keys[v], &data[v])] *)
Definition vertex_is_work (keys : M) (data : VertexData NodeData) (v : VertexId) : outcome bool :=
  key ← VertexKeys_index keys v;
  d ← VertexData_index data v;
  Ok (is_critical_path_work_node key d).

Definition action_key_for_node (data : NodeData) : option ActionKey :=
  match nda_extra_data data with
  | Extra_Action action => Some (RegisteredAction_key (and_action action))
  | _ => None
  end.

Local Instance ActionKey_rust_eq : RustEq ActionKey := rust_eq_dec.

Definition explicit_action_input_dependency_vertices (data : NodeData)
    (action_key_to_vertex : HashMap ActionKey VertexId) : list VertexId :=
  match nda_extra_data data with
  | Extra_Action action =>
      match RegisteredAction_inputs (and_action action) with
      | inl inputs =>
          omap (λ input,
            match input with
            | ArtifactGroup_Artifact artifact =>
                match Artifact_action_key artifact with
                | Some action_key => hm_get action_key_to_vertex action_key
                | None => None
                end
            | _ => None
            end) inputs
      | inr _ => []
      end
  | _ => []
  end.

(** The loop [while let Some(vertex) = stack.pop()]. *)
Fixpoint collect_loop (fuel : nat) (graph : Graph) (keys : M) (data : VertexData NodeData)
    (work : list VertexId) (work_seen visited : gset VertexId) (stack : list VertexId) :
    outcome (list VertexId) :=
  match stack with
  | [] => Ok work
  | vertex :: stack =>
      match fuel with
      | 0 => Panic
      | S fuel =>
          if decide (vertex ∈ visited) then
            collect_loop fuel graph keys data work work_seen visited stack
          else
            let visited := {[ vertex ]} ∪ visited in
            is_work ← vertex_is_work keys data vertex;
            if is_work : bool then
              if decide (vertex ∈ work_seen) then
                collect_loop fuel graph keys data work work_seen visited stack
              else
                collect_loop fuel graph keys data (work ++ [vertex]) ({[ vertex ]} ∪ work_seen)
                  visited stack
            else
              es ← Graph_iter_edges graph vertex;
              collect_loop fuel graph keys data work work_seen visited (reverse es ++ stack)
      end
  end.

(** Every round pops a root or an edge of a vertex visited for the first time. *)
Definition collect_fuel (graph : Graph) (roots : list VertexId) : nat :=
  length roots + length (g_edges graph).

Definition collect_reachable_work_vertices (graph : Graph) (keys : M)
    (data : VertexData NodeData) (roots : list VertexId) : outcome (list VertexId) :=
  collect_loop (collect_fuel graph roots) graph keys data [] ∅ ∅ (reverse roots).

Definition non_overlapping_duration (data : VertexData NodeData) (work dependency : VertexId) :
    outcome Duration :=
  w ← VertexData_index data work;
  d ← VertexData_index data dependency;
  let work_span := nd_total (nda_duration w) in
  let dependency_end := TimeSpan_end (nd_total (nda_duration d)) in
  let effective_start := Z.max (TimeSpan_start work_span) dependency_end in
  Ok (Instant_saturating_duration_since (TimeSpan_end work_span) effective_start).

(** [a.checked_add(b).unwrap_or(Duration::MAX)] *)
Definition Duration_sat_add (a b : Duration) : Duration :=
  default Duration_MAX (Duration_checked_add a b).

Local Notation Memo := (gmap VertexId WorkPathState).

Definition work_result : Type := (WorkPathState + CriticalPathError) * Memo * gset VertexId.

(** The loop over the dependencies; [rec] is the recursive call. *)
Fixpoint best_dependency (rec : Memo → gset VertexId → VertexId → outcome work_result)
    (data : VertexData NodeData) (work : VertexId) (best : option (Duration * VertexId))
    (memo : Memo) (visiting : gset VertexId) (deps : list VertexId) :
    outcome ((option (Duration * VertexId) + CriticalPathError) * Memo * gset VertexId) :=
  match deps with
  | [] => Ok (inl best, memo, visiting)
  | dep :: deps =>
      '(r, memo, visiting) ← rec memo visiting dep;
      match r with
      | inr e => Ok (inr e, memo, visiting)
      | inl dep_state =>
          contribution ← non_overlapping_duration data work dep;
          let cost := Duration_sat_add (wps_cost dep_state) contribution in
          let best :=
            if is_none_or best (λ b, (b.1 <? cost)%N) then Some (cost, dep) else best in
          best_dependency rec data work best memo visiting deps
      end
  end.

(** Recursion to depth [fuel]. *)
Fixpoint compute_work_path_state (fuel : nat) (keys : M) (data : VertexData NodeData)
    (work_deps : VertexData (list VertexId)) (memo : Memo) (visiting : gset VertexId)
    (work : VertexId) : outcome work_result :=
  match fuel with
  | 0 => Panic
  | S fuel =>
      match memo !! work with
      | Some state => Ok (inl state, memo, visiting)
      | None =>
          if decide (work ∈ visiting) then
            key ← VertexKeys_index keys work;
            Ok (inr (CycleDetected ("critical path dependency cycle at " +:+ NodeKey_display key)),
                memo, visiting)
          else
            let visiting := {[ work ]} ∪ visiting in
            deps ← VertexData_index work_deps work;
            '(r, memo, visiting) ←
               best_dependency (compute_work_path_state fuel keys data work_deps) data work None
                 memo visiting deps;
            match r with
            | inr e => Ok (inr e, memo, visiting)
            | inl best =>
                state ←
                  match best with
                  | Some (cost, predecessor) => Ok (mkWorkPathState cost (Some predecessor))
                  | None =>
                      d ← VertexData_index data work;
                      Ok (mkWorkPathState (TimeSpan_duration (nd_total (nda_duration d))) None)
                  end;
                Ok (inl state, <[work := state]> memo, visiting ∖ {[ work ]})
            end
      end
  end.

(** The loop [while let Some(vertex) = current]; [path] is in the order pushed. *)
Fixpoint work_path_loop (fuel : nat) (keys : M) (data : VertexData NodeData)
    (work_deps : VertexData (list VertexId)) (memo : Memo)
    (path : list DetailedCriticalPathEntry) (visited : gset VertexId)
    (current : option VertexId) :
    outcome (list DetailedCriticalPathEntry + CriticalPathError) :=
  match current with
  | None => Ok (inl path)
  | Some vertex =>
      match fuel with
      | 0 => Panic
      | S fuel =>
          key ← VertexKeys_index keys vertex;
          if decide (vertex ∈ visited) then
            Ok (inr (CycleDetected ("critical path predecessor cycle at " +:+ NodeKey_display key)))
          else
            let predecessor := memo !! vertex ≫= wps_predecessor in
            d ← VertexData_index data vertex;
            critical_path_duration ←
              match predecessor with
              | Some predecessor => non_overlapping_duration data vertex predecessor
              | None => Ok (TimeSpan_duration (nd_total (nda_duration d)))
              end;
            deps ← VertexData_index work_deps vertex;
            ends ← map_outcome (λ dep, d ← VertexData_index data dep;
                                       Ok (TimeSpan_end (nd_total (nda_duration d)))) deps;
            work_path_loop fuel keys data work_deps memo
              (path ++ [mkDetailedCriticalPathEntry key d None (iter_max Z.leb ends)
                          (Some critical_path_duration)])
              ({[ vertex ]} ∪ visited) predecessor
      end
  end.

Definition work_path_to_detailed_path (work : VertexId) (keys : M) (data : VertexData NodeData)
    (work_deps : VertexData (list VertexId)) (memo : Memo) :
    outcome (DetailedCriticalPath + CriticalPathError) :=
  r ← work_path_loop (S (length work_deps)) keys data work_deps memo [] ∅ (Some work);
  match r with
  | inl path => Ok (inl (DetailedCriticalPath_new (reverse path)))
  | inr e => Ok (inr e)
  end.

(** [deps.retain(|dep| dep != work && seen.insert(dep))] *)
Fixpoint retain_new (work : VertexId) (seen : gset VertexId) (deps : list VertexId) :
    list VertexId :=
  match deps with
  | [] => []
  | dep :: deps =>
      if decide (dep = work) then retain_new work seen deps
      else if decide (dep ∈ seen) then retain_new work seen deps
      else dep :: retain_new work ({[ dep ]} ∪ seen) deps
  end.

(** One iteration of the loop that fills [work_deps]. *)
Definition work_deps_step (graph : Graph) (keys : M) (data : VertexData NodeData)
    (action_key_to_vertex : HashMap ActionKey VertexId) (work_deps : VertexData (list VertexId))
    (work : VertexId) : outcome (VertexData (list VertexId)) :=
  d ← VertexData_index data work;
  let deps := explicit_action_input_dependency_vertices d action_key_to_vertex in
  es ← Graph_iter_edges graph work;
  reached ← collect_reachable_work_vertices graph keys data es;
  VertexData_set work_deps work (retain_new work ∅ (deps ++ reached)).

(** The loop over the work vertices that keeps the first greatest cost. *)
Fixpoint max_work_loop (keys : M) (data : VertexData NodeData)
    (work_deps : VertexData (list VertexId)) (memo : Memo) (visiting : gset VertexId)
    (max_work : option (VertexId * WorkPathState)) (works : list VertexId) :
    outcome (option (VertexId * WorkPathState) * Memo + CriticalPathError) :=
  match works with
  | [] => Ok (inl (max_work, memo))
  | work :: works =>
      '(r, memo, visiting) ←
         compute_work_path_state (S (length work_deps)) keys data work_deps memo visiting work;
      match r with
      | inr e => Ok (inr e)
      | inl state =>
          let max_work :=
            if is_none_or max_work (λ m, (wps_cost m.2 <? wps_cost state)%N)
            then Some (work, state) else max_work in
          max_work_loop keys data work_deps memo visiting max_work works
      end
  end.

(** The loop over the artifacts of a top-level target. *)
Definition target_work_step (graph : Graph) (keys : M) (data : VertexData NodeData)
    (work : gset VertexId) (artifact : NodeKey) : outcome (gset VertexId) :=
  match km_get keys artifact with
  | None => Ok work
  | Some vertex =>
      reached ← collect_reachable_work_vertices graph keys data [vertex];
      Ok (work ∪ list_to_set reached)
  end.

Definition target_duration (graph : Graph) (keys : M) (data : VertexData NodeData) (memo : Memo)
    (target : TopLevelTarget) : outcome (option (ConfiguredTargetLabel * Duration)) :=
  work ← for_each (target_work_step graph keys data) ∅ (tlt_artifacts target);
  Ok (match iter_max N.leb (omap (λ work, wps_cost <$> memo !! work) (elements work)) with
      | Some duration => Some (tlt_target target, duration)
      | None => None
      end).

(** [.filter(|idx| ..).collect()] *)
Definition filter_work (keys : M) (data : VertexData NodeData) (vs : list VertexId) :
    outcome (list VertexId) :=
  filter_map_outcome (λ v, b ← vertex_is_work keys data v; Ok (if b : bool then Some v else None)) vs.

(** [.filter_map(|idx| action_key_for_node(..).map(..)).collect::<HashMap<_, _>>()] *)
Definition action_vertices (data : VertexData NodeData) (work_vertices : list VertexId) :
    outcome (HashMap ActionKey VertexId) :=
  l ← filter_map_outcome (λ v, d ← VertexData_index data v; Ok ((λ k, (k, v)) <$> action_key_for_node d))
        work_vertices;
  Ok (fold_left (λ m p, hm_insert m p.1 p.2) l []).

Definition compute_real_work_critical_path (graph : Graph) (keys : M) (data : VertexData NodeData)
    (top_level_targets : list TopLevelTarget) :
    outcome (DetailedCriticalPath * list (ConfiguredTargetLabel * Duration) + CriticalPathError) :=
  vs ← Graph_iter_vertices graph;
  work_vertices ← filter_work keys data vs;
  match work_vertices with
  | [] => Ok (inl (DetailedCriticalPath_empty, []))
  | _ =>
      action_key_to_vertex ← action_vertices data work_vertices;
      work_deps ← for_each (work_deps_step graph keys data action_key_to_vertex)
                    (Graph_allocate_vertex_data graph []) work_vertices;
      r ← max_work_loop keys data work_deps ∅ ∅ None work_vertices;
      match r with
      | inr e => Ok (inr e)
      | inl (max_work, memo) =>
          r ← match max_work with
              | Some (work, _) => work_path_to_detailed_path work keys data work_deps memo
              | None => Ok (inl DetailedCriticalPath_empty)
              end;
          match r with
          | inr e => Ok (inr e)
          | inl critical_path =>
              targets ← filter_map_outcome (target_duration graph keys data memo) top_level_targets;
              Ok (inl (critical_path, targets))
          end
      end
  end.
End Work.
Arguments TopLevelTarget {_}.
