(* ===== verification/SignalExample.v ===== *)
(** A concrete build for the examples and witnesses of the signals: labels, packages and actions
    are numbers, and the map from keys to vertices is the association list of the builder's
    insertions. *)
From S2P Require Import Prelude.
From S2P Require Import TimeSpan.
From S2P Require Import CritGraph.
From S2P Require Import SignalNodes.
From S2P Require Import SignalWork.
From stdpp Require Import strings pretty.
Local Open Scope dice_scope.

Definition example_types : SignalTypes := {|
  ActionKey := nat; ConfiguredTargetLabel := nat; EnsureProjectedArtifactKey := nat;
  EnsureTransitiveSetProjectionKey := nat; PackageLabel := nat; BuildArtifact := nat;
  AnonTarget := nat; DynamicLambdaResultsKey := nat; Artifact := option nat;
  PromiseArtifactWrapper := unit; RegisteredAction := nat * list nat;
  EvaluationResult := list (list nat); ActionExecutionKind := unit;
  CommandInvalidationInfo := unit; InputsError := unit; JoinError := unit; OwnerProto := nat;
  TargetLabelProto := nat; AnonTargetProto := nat; DynamicAnalysisProto := nat;
|}.
Global Existing Instance example_types.

(** An action is its key and the actions whose outputs are its inputs. *)
Definition example_ops : SignalOps := {|
  ActionKey_owner_proto := λ k, k; ActionKey_display := λ k : nat, pretty k;
  ConfiguredTargetLabel_as_proto := λ k, k; ConfiguredTargetLabel_display := λ k : nat, pretty k;
  EnsureProjectedArtifactKey_display := λ k : nat, pretty k;
  EnsureTransitiveSetProjectionKey_display := λ k : nat, pretty k;
  PackageLabel_display := λ k : nat, pretty k;
  BuildArtifact_key := λ k, k; BuildArtifact_path := λ k : nat, pretty k;
  BuildArtifact_display := λ k : nat, pretty k;
  AnonTarget_as_proto := λ k, k; AnonTarget_display := λ k : nat, pretty k;
  AnonTargetProto_default := 0; DynamicLambdaResultsKey_proto := λ k, k;
  DynamicLambdaResultsKey_display := λ k : nat, pretty k;
  Artifact_action_key := λ a : option nat, a;
  RegisteredAction_key := fst;
  RegisteredAction_inputs := λ a : nat * list nat,
    inl ((λ k, ArtifactGroup_Artifact (H := example_types) (Some k)) <$> a.2);
  RegisteredAction_category := λ _, "run"; RegisteredAction_identifier := λ _, None;
  EvaluationResult_target_deps := λ r, r;
  TestExecutionBuildSignalKey_debug := te_suite;
  TestListingBuildSignalKey_debug := tl_suite;
|}.
Global Existing Instance example_ops.

Definition example_keymap : KeyMap NodeKey (list (NodeKey * VertexId)) := {|
  km_new := []; km_get := hm_get; km_insert := λ m k v, m ++ [(k, v)];
  km_get_index := λ m i, fst <$> m !! i; km_entries := λ m, m;
|}.
Global Existing Instance example_keymap.

Definition example_node (extra : NodeExtraData) (start end_ : Instant) (ids : list N) : NodeData :=
  mkNodeData extra (mkNodeDuration 0%N (mkTimeSpan start end_) None) WaitingData_new ids.

Definition example_action (k : nat) (inputs : list nat) : NodeExtraData :=
  Extra_Action (mkActionNodeData ((k, inputs) : RegisteredAction) tt None None None).

(** A package is loaded, its target 7 is analysed, action 1 runs, and action 2 uses its output
    through a projected artifact. *)
Definition example_signals : list (NodeKey * list NodeKey * NodeData) :=
  [(NodeKey_InterpreterResultsKey 5, [], example_node (Extra_Load None) 0 10 [1%N]);
   (NodeKey_AnalysisKey 7, [NodeKey_InterpreterResultsKey 5],
    example_node (Extra_Analysis (mkAnalysisNodeData None None)) 10 30 [2%N]);
   (NodeKey_BuildKey 1, [], example_node (example_action 1 []) 25 60 [3%N]);
   (NodeKey_EnsureProjectedArtifactKey 1, [NodeKey_BuildKey 1], example_node Extra_None 60 60 []);
   (NodeKey_BuildKey 2, [NodeKey_EnsureProjectedArtifactKey 1; NodeKey_AnalysisKey 7],
    example_node (example_action 2 [1]) 50 100 [4%N])].

Definition example_adj : list (list VertexId) := [[]; [0]; []; [2]; [3; 1]].
Definition example_keys : list (NodeKey * VertexId) := imap (λ i x, (x.1.1, i)) example_signals.
Definition example_data : VertexData NodeData := snd <$> example_signals.

Definition example_target : TopLevelTarget :=
  mkTopLevelTarget 7 [NodeKey_EnsureProjectedArtifactKey 1; NodeKey_BuildKey 9].

Example example_work_path :
  match compute_real_work_critical_path (graph_of example_adj) example_keys example_data
          [example_target] with
  | Ok (inl (path, targets)) =>
      de_key <$> dcp_entries path =
        [NodeKey_InterpreterResultsKey 5; NodeKey_AnalysisKey 7; NodeKey_BuildKey 2] ∧
      de_critical_path_duration <$> dcp_entries path = [Some 10%N; Some 20%N; Some 50%N] ∧
      targets = [(7, 35%N)]
  | _ => False
  end.
Proof. vm_compute. repeat split. Qed.
