(* ===== verification/SignalChains.v ===== *)
(** The costs of chains of work: what the memoised recursion [compute_work_path_state] and the
    loop [work_path_loop] of [SignalWork] compute, over any table of dependencies.  The
    recursion ends, finds for each node a most expensive chain below it, or a cycle; the loop
    walks the chain recorded in the memo. *)
From S2P Require Import Prelude.
From S2P Require Import TimeSpan.
From S2P Require Import CritGraph.
From S2P Require Import CritTopo.
From S2P Require Import SignalNodes.
From S2P Require Import SignalWork.
From stdpp Require Import strings pretty.
Local Open Scope dice_scope.

(** * Walks without a cycle *)

Definition cyclic (adj : list (list VertexId)) : Prop := ∃ u l, is_walk adj (u :: l ++ [u]).

(** Every walk from [v] ends. *)
Notation grounded adj := (Acc (λ b a, edge adj a b)).

Lemma is_walk_suffix adj l1 l2 : is_walk adj (l1 ++ l2) → is_walk adj l2.
Proof.
  induction l1 as [|x l1 IH]; [done|]. intros Hw. apply IH. destruct l1; cbn in *.
  - destruct l2; [done|by destruct Hw].
  - by destruct Hw.
Qed.

Lemma grounded_walk adj u l x : grounded adj u → is_walk adj (u :: l) → x ∈ u :: l → grounded adj x.
Proof.
  revert u. induction l as [|v l IH]; intros u Hu Hw; [by intros Hx%list_elem_of_singleton; subst x|].
  intros [->|Hx]%elem_of_cons; [done|]. apply is_walk_cons in Hw as [He Hw].
  apply (IH v); [by apply Hu|done|done].
Qed.

Lemma grounded_no_cycle adj u l : grounded adj u → ¬ is_walk adj (u :: l ++ [u]).
Proof.
  intros Hu. revert l. induction Hu as [u _ IH]. intros l Hw.
  destruct l as [|v l].
  - apply (IH u (proj1 Hw) []). exact Hw.
  - apply is_walk_cons in Hw as [He Hw]. apply (IH v He (l ++ [u])).
    change (v :: l ++ [u]) with ((v :: l) ++ [u]) in Hw.
    replace (v :: (l ++ [u]) ++ [v]) with ((v :: l) ++ u :: [v]) by (cbn; by rewrite <- app_assoc).
    apply is_walk_app. by split.
Qed.

Lemma grounded_walk_nodup adj u l : grounded adj u → is_walk adj (u :: l) → NoDup (u :: l).
Proof.
  revert u. induction l as [|v l IH]; intros u Hu Hw; [by repeat constructor; set_solver|].
  constructor.
  - intros Hin. apply list_elem_of_split in Hin as (l1 & l2 & E). rewrite E in Hw.
    apply (grounded_no_cycle adj u l1 Hu).
    change (u :: l1 ++ u :: l2) with ((u :: l1) ++ u :: l2) in Hw. by apply is_walk_app in Hw as [? _].
  - apply is_walk_cons in Hw as [He Hw]. apply IH; [by apply Hu|done].
Qed.

Lemma nodup_lt_length (l : list nat) n : NoDup l → Forall (λ v, v < n) l → length l ≤ n.
Proof.
  intros Hnd Hlt. rewrite <- (length_seq n 0). apply submseteq_length, NoDup_submseteq; [done|].
  intros x Hx. apply elem_of_seq. rewrite Forall_forall in Hlt. specialize (Hlt x Hx). lia.
Qed.

Definition sum_N (l : list N) : N := foldr N.add 0%N l.

Lemma sum_N_reverse l : sum_N (reverse l) = sum_N l.
Proof.
  unfold sum_N. apply (foldr_permutation_proper eq N.add 0%N); [..|by rewrite reverse_Permutation].
  intros. lia.
Qed.

Section Chains.
Context `{SO : SignalOps} {M : Type} `{KM : KeyMap NodeKey M}.
Context (keys : M) (data : VertexData NodeData) (wd : VertexData (list VertexId)).

Local Notation n := (length wd).
Local Notation Memo := (gmap VertexId WorkPathState).

Context (Hdata : length data = n).
Context (Hkeys : ∀ v, v < n → is_Some (km_get_index keys v)).
Context (Htargets : Forall (Forall (λ v, v < n)) wd).

Definition key_at (v : VertexId) : NodeKey := default inhabitant (km_get_index keys v).
Definition span_of (v : VertexId) : TimeSpan := nd_total (nda_duration (data !!! v)).
Definition duration_of (v : VertexId) : Duration := TimeSpan_duration (span_of v).

(** The time of [w] after [d] ended. *)
Definition contribution (w d : VertexId) : Duration :=
  Instant_saturating_duration_since (ts_end (span_of w))
    (Z.max (ts_start (span_of w)) (ts_end (span_of d))).

(** A chain is listed from the node that depends on the others. *)
Fixpoint chain_durations (l : list VertexId) : list Duration :=
  match l with
  | [] => []
  | v :: l' =>
      match l' with [] => duration_of v | d :: _ => contribution v d end :: chain_durations l'
  end.

(** The sum from the right, which stops at [Duration_MAX]. *)
Fixpoint sat_sum (ds : list Duration) : Duration :=
  match ds with
  | [] => 0%N
  | d :: ds => match ds with [] => d | _ => Duration_sat_add (sat_sum ds) d end
  end.

Definition chain_cost (l : list VertexId) : Duration := sat_sum (chain_durations l).

(** A chain down to a node without dependencies. *)
Definition complete (l : list VertexId) : Prop :=
  is_walk wd l ∧ ∃ x, last l = Some x ∧ wd !! x = Some [].

Definition max_cost (v : VertexId) (c : Duration) : Prop :=
  (∃ l, complete (v :: l) ∧ chain_cost (v :: l) = c) ∧
  ∀ l, complete (v :: l) → (chain_cost (v :: l) <= c)%N.

Lemma chain_cost_cons v d l :
  chain_cost (v :: d :: l) = Duration_sat_add (chain_cost (d :: l)) (contribution v d).
Proof. done. Qed.

Lemma complete_cons v d l : complete (v :: d :: l) ↔ edge wd v d ∧ complete (d :: l).
Proof.
  unfold complete. rewrite is_walk_cons. change (last (v :: d :: l)) with (last (d :: l)). tauto.
Qed.

Lemma sat_add_mono a a' b : (a <= a')%N → (Duration_sat_add a b <= Duration_sat_add a' b)%N.
Proof.
  intros Hle. unfold Duration_sat_add, Duration_checked_add. case_N_bool; cbn [from_option id]; lia.
Qed.

Lemma index_data v : v < n → VertexData_index data v = Ok (data !!! v).
Proof.
  intros Hv. unfold VertexData_index. by rewrite (list_lookup_lookup_total_lt data v) by lia.
Qed.

Lemma index_keys v : v < n → VertexKeys_index keys v = Ok (key_at v).
Proof.
  intros Hv. unfold VertexKeys_index, key_at. by destruct (Hkeys v Hv) as [k ->].
Qed.

Lemma edge_target v d : edge wd v d → v < n ∧ d < n.
Proof.
  intros (es & Hl & Hin). split; [by apply lookup_lt_Some in Hl|].
  pose proof (Forall_lookup_1 _ _ _ _ Htargets Hl) as Hf. by eapply Forall_forall in Hf.
Qed.

Lemma non_overlapping_spec w d :
  w < n → d < n → non_overlapping_duration data w d = Ok (contribution w d).
Proof.
  intros Hw Hd. unfold non_overlapping_duration. by rewrite !index_data.
Qed.

(** * The memo *)

Record memo_entry (memo : Memo) (v : VertexId) (s : WorkPathState) : Prop := {
  me_lt : v < n;
  me_grounded : grounded wd v;
  me_max : max_cost v (wps_cost s);
  me_pred : match wps_predecessor s with
    | None => wd !! v = Some [] ∧ wps_cost s = duration_of v
    | Some p => edge wd v p ∧ ∃ sp, memo !! p = Some sp ∧
                wps_cost s = Duration_sat_add (wps_cost sp) (contribution v p)
    end;
}.

Definition memo_ok (memo : Memo) : Prop := ∀ v s, memo !! v = Some s → memo_entry memo v s.

Lemma memo_entry_mono memo memo' v s : memo ⊆ memo' → memo_entry memo v s → memo_entry memo' v s.
Proof.
  intros Hsub [? ? ? Hp]. split; [done..|]. destruct (wps_predecessor s); [|done].
  destruct Hp as (? & sp & Hl & ?). split; [done|]. exists sp. split; [|done].
  by eapply lookup_weaken.
Qed.

Lemma memo_insert memo v s :
  memo_ok memo → memo !! v = None → memo_entry memo v s → memo_ok (<[v := s]> memo).
Proof.
  intros Hok Hv He u su. assert (memo ⊆ <[v := s]> memo) by by apply insert_subseteq.
  intros [[<- <-]|[? Hu]]%lookup_insert_Some; eapply memo_entry_mono; eauto.
Qed.

(** What the loop over the dependencies knows after [don]. *)
Definition best_ok (memo : Memo) (w : VertexId) (don : list VertexId)
    (best : option (Duration * VertexId)) : Prop :=
  match best with
  | None => don = []
  | Some (c, p) =>
      p ∈ don ∧ (∃ sp, memo !! p = Some sp ∧
                       c = Duration_sat_add (wps_cost sp) (contribution w p)) ∧
      ∀ d, d ∈ don → ∃ sd, memo !! d = Some sd ∧
                           (Duration_sat_add (wps_cost sd) (contribution w d) <= c)%N
  end.

Lemma best_ok_mono memo memo' w don best :
  memo ⊆ memo' → best_ok memo w don best → best_ok memo' w don best.
Proof.
  intros Hsub. destruct best as [[c p]|]; cbn; [|done].
  intros (? & (sp & Hp & ?) & Hall). split; [done|]. split.
  - exists sp. split; [by eapply lookup_weaken|done].
  - intros d Hd. destruct (Hall d Hd) as (sd & ? & ?). exists sd.
    split; [by eapply lookup_weaken|done].
Qed.

Lemma best_ok_snoc memo w don best d sd :
  best_ok memo w don best → memo !! d = Some sd →
  let cost := Duration_sat_add (wps_cost sd) (contribution w d) in
  best_ok memo w (don ++ [d])
    (if is_none_or best (λ b, (b.1 <? cost)%N) then Some (cost, d) else best).
Proof.
  intros Hb Hd cost. destruct best as [[c p]|]; cbn in *.
  - destruct Hb as (Hin & Hp & Hall). destruct (N.ltb_spec c cost); cbn.
    + split; [set_solver|]. split; [by exists sd|].
      intros e [He|He%list_elem_of_singleton]%elem_of_app; [|subst e; by exists sd].
      destruct (Hall e He) as (se & ? & ?). exists se. split; [done|lia].
    + split; [set_solver|]. split; [done|].
      intros e [He|He%list_elem_of_singleton]%elem_of_app; [by apply Hall|subst e; by exists sd].
  - subst don. split; [set_solver|]. split; [by exists sd|].
    intros e He%list_elem_of_singleton. subst e. by exists sd.
Qed.

(** The state computed for a node whose dependencies are in the memo. *)
Lemma best_entry memo w deps best :
  memo_ok memo → wd !! w = Some deps → best_ok memo w deps best →
  memo_entry memo w
    match best with
    | Some (cost, predecessor) => mkWorkPathState cost (Some predecessor)
    | None => mkWorkPathState (duration_of w) None
    end.
Proof.
  intros Hok Hw Hb. assert (w < n) as Hlt by (by apply lookup_lt_Some in Hw).
  destruct best as [[c p]|]; cbn in Hb.
  2: { subst deps. split; cbn; [done| | |done].
       - constructor. intros d (es & Hl & Hin). simplify_eq. by apply elem_of_nil in Hin.
       - split; [exists []; split; [split; [done|by exists w]|done]|].
         intros [|d l]; [done|]. rewrite complete_cons. intros [(es & Hl & Hin) _]. simplify_eq.
         by apply elem_of_nil in Hin. }
  destruct Hb as (Hin & (sp & Hsp & Hc) & Hall). split; cbn; [done| | |].
  - constructor. intros d (es & Hl & Hd). simplify_eq. destruct (Hall d Hd) as (sd & Hsd & _).
    by destruct (Hok d sd Hsd).
  - split.
    + destruct (Hok p sp Hsp) as [_ _ [(l & Hl & Hcl) _] _]. exists (p :: l).
      rewrite complete_cons, chain_cost_cons, Hcl. split; [|done]. split; [by exists deps|done].
    + intros [|d l].
      { intros [_ (x & [= <-] & Hx)]. simplify_eq. by apply elem_of_nil in Hin. }
      rewrite complete_cons, chain_cost_cons. intros [(es & Hl & Hd) Hcl]. simplify_eq.
      destruct (Hall d Hd) as (sd & Hsd & Hle). destruct (Hok d sd Hsd) as [_ _ [_ Hmax] _].
      etransitivity; [|exact Hle]. apply sat_add_mono. by apply Hmax.
  - split; [by exists deps|]. by exists sp.
Qed.

(** * The recursion *)

(** [st] holds the nodes being visited, the innermost first; the call is on [work]. *)
Record call_pre (memo : Memo) (st : list VertexId) (work : VertexId) : Prop := {
  cp_memo : memo_ok memo;
  cp_lt : work < n;
  cp_walk : is_walk wd (reverse (work :: st));
  cp_nodup : NoDup st;
  cp_bound : Forall (λ v, v < n) st;
  cp_fresh : Forall (λ v, memo !! v = None) st;
}.

Definition call_post (memo : Memo) (st : list VertexId) (work : VertexId) (r : work_result) : Prop :=
  match r with
  | (inl s, memo', visiting') =>
      visiting' = list_to_set st ∧ memo ⊆ memo' ∧ memo_ok memo' ∧ memo' !! work = Some s ∧
      Forall (λ v, memo' !! v = None) st
  | (inr e, _, _) => cyclic wd ∧ ∃ message, e = CycleDetected message
  end.

(** Meeting a node that is being visited closes a cycle. *)
Lemma visiting_cycle st work : is_walk wd (reverse (work :: st)) → work ∈ st → cyclic wd.
Proof.
  intros Hw Hin. apply list_elem_of_split in Hin as (l1 & l2 & ->).
  exists work, (reverse l1). rewrite reverse_cons, reverse_app, reverse_cons, <- !app_assoc in Hw.
  by apply is_walk_suffix in Hw.
Qed.

Lemma best_dependency_spec rec memo st work best don deps row :
  (∀ memo dep, call_pre memo (work :: st) dep →
     returns (rec memo (list_to_set (work :: st)) dep) (call_post memo (work :: st) dep)) →
  wd !! work = Some row → row = don ++ deps →
  call_pre memo st work → memo !! work = None → work ∉ st → best_ok memo work don best →
  returns (best_dependency rec data work best memo (list_to_set (work :: st)) deps) (λ r,
    match r with
    | (inl best, memo', visiting') =>
        visiting' = list_to_set (work :: st) ∧ memo ⊆ memo' ∧ memo_ok memo' ∧
        best_ok memo' work row best ∧ Forall (λ v, memo' !! v = None) (work :: st)
    | (inr e, _, _) => cyclic wd ∧ ∃ message, e = CycleDetected message
    end).
Proof.
  intros Hrec Hrow. revert memo best don. induction deps as [|dep deps IH];
    intros memo best don -> Hpre Hwork Hst Hbest; cbn [best_dependency].
  { rewrite app_nil_r in *. cbn. destruct Hpre. split_and!; try done. by constructor. }
  destruct Hpre as [Hok Hlt Hw Hnd Hbd Hfr].
  assert (edge wd work dep) as He by (exists (don ++ dep :: deps); set_solver).
  assert (call_pre memo (work :: st) dep) as Hcall.
  { split; [done|by apply (edge_target work dep)| |by constructor..].
    rewrite reverse_cons. rewrite reverse_cons in Hw |- *. rewrite <- app_assoc. cbn [app].
    apply is_walk_app. split; [done|]. by split. }
  eapply returns_bind; [by apply Hrec|]. intros [[[sd|e] memo'] visiting']; [|done].
  intros (-> & Hsub & Hok' & Hdep & Hfr'). rewrite non_overlapping_spec by
    (done || by apply (edge_target work dep)). cbn [mbind outcome_bind].
  apply Forall_cons in Hfr' as [Hw' Hfr'].
  eapply returns_mono.
  { apply (IH memo' _ (don ++ [dep])).
    - by rewrite <- app_assoc.
    - done.
    - done.
    - done.
    - apply best_ok_snoc; [|done]. by eapply best_ok_mono. }
  intros [[[b|e] memo''] visiting'']; [|done]. intros (-> & Hsub' & ?).
  split; [done|]. split; [by etrans|done].
Qed.

Lemma compute_state_spec fuel memo st work :
  call_pre memo st work → n < length st + fuel →
  returns (compute_work_path_state fuel keys data wd memo (list_to_set st) work)
    (call_post memo st work).
Proof.
  revert memo st work. induction fuel as [|fuel IH]; intros memo st work Hpre Hfuel;
    pose proof (nodup_lt_length st n (cp_nodup _ _ _ Hpre) (cp_bound _ _ _ Hpre)) as Hlen; [lia|].
  destruct Hpre as [Hok Hlt Hw Hnd Hbd Hfr]. cbn [compute_work_path_state].
  destruct (memo !! work) as [s|] eqn:Hm; [by cbn; split_and!|].
  destruct (decide (work ∈ (list_to_set st : gset VertexId))) as [Hin|Hin].
  { rewrite index_keys by done. cbn. apply elem_of_list_to_set in Hin.
    split; [by eapply visiting_cycle|by eexists]. }
  rewrite elem_of_list_to_set in Hin.
  destruct (lookup_lt_is_Some_2 wd work Hlt) as [row Hrow].
  rewrite (VertexData_index_Ok _ _ _ Hrow). cbn [mbind outcome_bind].
  change ({[work]} ∪ list_to_set st) with (list_to_set (C := gset VertexId) (work :: st)).
  eapply returns_bind.
  { apply (best_dependency_spec _ memo st work None [] row row); [|done..].
    intros memo' dep Hpre'. apply IH; [done|]. cbn. lia. }
  intros [[[best|e] memo'] visiting']; [|done].
  intros (-> & Hsub & Hok' & Hbest & Hfr'). apply Forall_cons in Hfr' as [Hw' Hfr'].
  pose proof (best_entry memo' work row best Hok' Hrow Hbest) as Hentry.
  set (s := match best with Some (c, p) => mkWorkPathState c (Some p) | None => _ end) in Hentry.
  assert (match best with
    | Some (c, p) => Ok (mkWorkPathState c (Some p))
    | None => d ← VertexData_index data work;
              Ok (mkWorkPathState (TimeSpan_duration (nd_total (nda_duration d))) None)
    end = Ok s) as -> by (destruct best as [[c p]|]; [done|by rewrite index_data]).
  cbn [mbind outcome_bind returns call_post]. split_and!.
  - set_solver.
  - etrans; [exact Hsub|]. by apply insert_subseteq.
  - by apply memo_insert.
  - by rewrite lookup_insert_eq.
  - rewrite Forall_forall in Hfr' |- *. intros v Hv. rewrite lookup_insert_ne by set_solver.
    by apply Hfr'.
Qed.

(** The loop over the nodes with work, and its greatest cost. *)
Definition max_ok (memo : Memo) (don : list VertexId) (m : option (VertexId * WorkPathState)) :
    Prop :=
  match m with
  | None => don = []
  | Some (w, s) => w ∈ don ∧ memo !! w = Some s ∧
      ∀ v, v ∈ don → ∃ sv, memo !! v = Some sv ∧ (wps_cost sv <= wps_cost s)%N
  end.

Lemma max_ok_snoc memo memo' don m w s :
  memo ⊆ memo' → max_ok memo don m → memo' !! w = Some s →
  max_ok memo' (don ++ [w])
    (if is_none_or m (λ m, (wps_cost m.2 <? wps_cost s)%N) then Some (w, s) else m).
Proof.
  intros Hsub Hm Hs. destruct m as [[w0 s0]|]; cbn in *.
  - destruct Hm as (Hin & Hw & Hall).
    assert (∀ v, v ∈ don → ∃ sv, memo' !! v = Some sv ∧ (wps_cost sv <= wps_cost s0)%N) as Hall'.
    { intros v Hv. destruct (Hall v Hv) as (sv & ? & ?). exists sv.
      split; [by eapply lookup_weaken|done]. }
    destruct (N.ltb_spec (wps_cost s0) (wps_cost s)); cbn.
    + split_and!; [set_solver|done|]. intros v [Hv|Hv%list_elem_of_singleton]%elem_of_app.
      * destruct (Hall' v Hv) as (sv & ? & ?). exists sv. split; [done|lia].
      * subst v. by exists s.
    + split_and!; [set_solver|by eapply lookup_weaken|].
      intros v [Hv|Hv%list_elem_of_singleton]%elem_of_app; [by apply Hall'|]. subst v. by exists s.
  - subst don. split_and!; [set_solver|done|]. intros v Hv%list_elem_of_singleton. subst v. by exists s.
Qed.

Lemma max_work_loop_spec memo m don works :
  memo_ok memo → max_ok memo don m → Forall (λ v, v < n) works →
  returns (max_work_loop keys data wd memo ∅ m works) (λ r,
    match r with
    | inl (m', memo') => memo_ok memo' ∧ max_ok memo' (don ++ works) m'
    | inr e => cyclic wd ∧ ∃ message, e = CycleDetected message
    end).
Proof.
  revert memo m don. induction works as [|w works IH]; intros memo m don Hok Hm Hlt;
    cbn [max_work_loop].
  { by rewrite app_nil_r. }
  apply Forall_cons in Hlt as [Hw Hlt].
  eapply returns_bind.
  { apply (compute_state_spec (S n) memo [] w); [|cbn; lia]. split; try done; by constructor. }
  intros [[[s|e] memo'] visiting']; [|done]. intros (-> & Hsub & Hok' & Hs & _).
  eapply returns_mono; [apply (IH memo' _ (don ++ [w])); [done|by eapply max_ok_snoc|done]|].
  intros [[m' memo'']|e]; [|done]. by rewrite <- app_assoc.
Qed.

(** * The path *)

(** The nodes that follow [v] along the predecessors of the memo. *)
Fixpoint pred_chain (memo : Memo) (v : VertexId) (l : list VertexId) : Prop :=
  match l with
  | [] => memo !! v ≫= wps_predecessor = None
  | p :: l => memo !! v ≫= wps_predecessor = Some p ∧ pred_chain memo p l
  end.

Lemma pred_chain_exists memo v s :
  memo_ok memo → memo !! v = Some s →
  ∃ l, pred_chain memo v l ∧ complete (v :: l) ∧ chain_cost (v :: l) = wps_cost s ∧
       Forall (λ u, u < n) (v :: l) ∧ NoDup (v :: l).
Proof.
  intros Hok Hv.
  enough (∃ l, pred_chain memo v l ∧ complete (v :: l) ∧ chain_cost (v :: l) = wps_cost s ∧
               Forall (λ u, u < n) (v :: l)) as (l & ? & Hc & ? & ?).
  { exists l. split_and!; try done.
    apply (grounded_walk_nodup wd); [exact (me_grounded _ _ _ (Hok v s Hv))|exact (proj1 Hc)]. }
  pose proof (me_grounded _ _ _ (Hok v s Hv)) as Hg. revert s Hv.
  induction Hg as [v _ IH]; intros s Hv. pose proof (Hok v s Hv) as [Hlt _ _ Hp].
  destruct (wps_predecessor s) as [p|] eqn:Es.
  - destruct Hp as (He & sp & Hsp & Hc). destruct (IH p He sp Hsp) as (l & Hl & Hcl & Hcost & Hb).
    exists (p :: l). cbn [pred_chain]. rewrite Hv. cbn [mbind option_bind]. rewrite complete_cons.
    split_and!; try done; [|by constructor]. by rewrite chain_cost_cons, Hcost.
  - destruct Hp as [Hw Hc]. exists []. cbn [pred_chain]. rewrite Hv. cbn [mbind option_bind].
    split_and!; [done|split; [done|by exists v]|done|by repeat constructor].
Qed.

Definition work_entry (v : VertexId) (d : Duration) : DetailedCriticalPathEntry :=
  mkDetailedCriticalPathEntry (key_at v) (data !!! v) None
    (iter_max Z.leb ((λ dep, ts_end (span_of dep)) <$> (wd !!! v))) (Some d).

Definition work_entries (l : list VertexId) : list DetailedCriticalPathEntry :=
  zip_with work_entry l (chain_durations l).

Lemma ends_spec v :
  v < n →
  map_outcome (λ dep, d ← VertexData_index data dep; Ok (TimeSpan_end (nd_total (nda_duration d))))
    (wd !!! v) = Ok ((λ dep, ts_end (span_of dep)) <$> (wd !!! v)).
Proof.
  intros Hv. apply map_outcome_Ok. intros d Hd.
  by rewrite index_data by (apply (edge_target v d); exists (wd !!! v);
    rewrite (list_lookup_lookup_total_lt wd v) by done; done).
Qed.

Lemma work_path_loop_spec fuel memo path visited v l :
  pred_chain memo v l → Forall (λ u, u < n) (v :: l) → NoDup (v :: l) →
  (∀ u, u ∈ v :: l → u ∉ visited) → length l < fuel →
  work_path_loop fuel keys data wd memo path visited (Some v) =
  Ok (inl (path ++ work_entries (v :: l))).
Proof.
  revert fuel path visited v. induction l as [|p l IH]; intros [|fuel] path visited v
    Hc Hlt Hnd Hvis Hfuel; try (cbn in Hfuel; lia); cbn [work_path_loop];
    pose proof (Forall_inv Hlt) as Hv;
    rewrite index_keys by done; cbn [mbind outcome_bind];
    rewrite decide_False by (apply Hvis; set_solver); rewrite index_data by done; cbn [mbind outcome_bind];
    cbn [pred_chain] in Hc.
  - rewrite Hc. cbn [mbind outcome_bind].
    rewrite (VertexData_index_Ok _ _ _ (list_lookup_lookup_total_lt wd v Hv)).
    cbn [mbind outcome_bind]. rewrite ends_spec by done. cbn [mbind outcome_bind].
    by destruct fuel.
  - destruct Hc as [Hp Hc]. rewrite Hp.
    apply Forall_cons in Hlt as [_ Hlt]. pose proof (Forall_inv Hlt) as Hpn. cbn [mbind outcome_bind].
    rewrite non_overlapping_spec by done. cbn [mbind outcome_bind].
    rewrite (VertexData_index_Ok _ _ _ (list_lookup_lookup_total_lt wd v Hv)).
    cbn [mbind outcome_bind]. rewrite ends_spec by done. cbn [mbind outcome_bind].
    apply NoDup_cons in Hnd as [Hni Hnd].
    rewrite IH; [|done|done|done| |cbn in Hfuel; lia].
    + rewrite <- app_assoc. done.
    + intros u Hu. apply not_elem_of_union. split; [set_solver|]. apply Hvis. set_solver.
Qed.

Lemma work_path_spec memo v s :
  memo_ok memo → memo !! v = Some s →
  ∃ l, complete (v :: l) ∧ chain_cost (v :: l) = wps_cost s ∧ Forall (λ u, u < n) (v :: l) ∧
    work_path_to_detailed_path v keys data wd memo =
    Ok (inl (mkDetailedCriticalPath (reverse (work_entries (v :: l))))).
Proof.
  intros Hok Hv. destruct (pred_chain_exists memo v s Hok Hv) as (l & Hl & Hc & Hcost & Hlt & Hnd).
  exists l. split_and!; [done..|]. unfold work_path_to_detailed_path.
  pose proof (nodup_lt_length (v :: l) n Hnd Hlt) as Hlen. cbn in Hlen.
  rewrite (work_path_loop_spec _ memo [] ∅ v l); [done|done|done|done|set_solver|lia].
Qed.

Lemma memo_acyclic memo :
  memo_ok memo → (∀ u v, edge wd u v → is_Some (memo !! u)) → ¬ cyclic wd.
Proof.
  intros Hok Hall (u & l & Hw). assert (∃ v, edge wd u v) as [v He].
  { destruct l as [|v l]; [exists u|exists v]; by destruct Hw. }
  destruct (Hall u v He) as [s Hs].
  by apply (grounded_no_cycle wd u l (me_grounded _ _ _ (Hok u s Hs))).
Qed.

Lemma chain_durations_length l : length (chain_durations l) = length l.
Proof. induction l as [|v l IH]; cbn; [done|by rewrite IH]. Qed.

Lemma work_entries_durations l :
  de_critical_path_duration <$> work_entries l = Some <$> chain_durations l.
Proof.
  unfold work_entries. pose proof (chain_durations_length l) as Hlen. revert Hlen.
  generalize (chain_durations l). clear.
  induction l as [|v l IH]; intros [|d ds]; cbn; [done..|]. intros [= Hlen]. by rewrite IH.
Qed.

Lemma work_entries_keys l : de_key <$> work_entries l = key_at <$> l.
Proof.
  unfold work_entries. pose proof (chain_durations_length l) as Hlen. revert Hlen.
  generalize (chain_durations l). clear.
  induction l as [|v l IH]; intros [|d ds]; cbn; [done..|]. intros [= Hlen]. by rewrite IH.
Qed.

(** * Costs and elapsed time *)

Lemma sat_add_le a b : (Duration_sat_add a b <= a + b)%N.
Proof. unfold Duration_sat_add, Duration_checked_add. case_N_bool; cbn [from_option id]; lia. Qed.

Lemma sat_sum_le ds : (sat_sum ds <= sum_N ds)%N.
Proof.
  induction ds as [|d ds IH]; [done|]. unfold sum_N in *. cbn [sat_sum foldr].
  destruct ds as [|d' ds]; [cbn; lia|]. pose proof (sat_add_le (sat_sum (d' :: ds)) d). lia.
Qed.

(** When nodes end after what they depend on, the durations of a chain add up to at most the time
    between the start of its first node and the end of its last. *)
Lemma chain_elapsed v l x :
  (∀ w d, edge wd w d → ts_end (span_of d) <= ts_end (span_of w))%Z →
  is_walk wd (v :: l) → last (v :: l) = Some x → ts_wf (span_of x) →
  (Z.of_N (sum_N (chain_durations (v :: l))) <= ts_end (span_of v) - ts_start (span_of x))%Z.
Proof.
  clear Hdata Hkeys Htargets. intros Hends. revert v.
  induction l as [|d l IH]; intros v Hw Hlast Hwf.
  { injection Hlast as ->. unfold sum_N. cbn. rewrite N.add_0_r. unfold duration_of.
    by rewrite duration_spec. }
  apply is_walk_cons in Hw as [He Hw]. specialize (IH d Hw Hlast Hwf). specialize (Hends v d He).
  change (chain_durations (v :: d :: l)) with (contribution v d :: chain_durations (d :: l)).
  unfold sum_N in *. cbn [foldr]. rewrite N2Z.inj_add.
  assert (Z.of_N (contribution v d) <= ts_end (span_of v) - ts_end (span_of d))%Z
    by (unfold contribution; rewrite since_spec; lia). lia.
Qed.

End Chains.
