(* ===== verification/SignalWorkSpec.v ===== *)
(** The critical path through real work, proved: what [compute_real_work_critical_path] of
    [SignalWork] returns for a graph given by its adjacency list.  [work_dep] describes the
    contracted graph; [SignalChains] holds the costs of chains in it. *)
From S2P Require Import Prelude.
From S2P Require Import TimeSpan.
From S2P Require Import CritGraph.
From S2P Require Import CritTopo.
From S2P Require Import SignalNodes.
From S2P Require Import SignalWork.
From S2P Require Import SignalChains.
From S2P Require Import SignalExample.
From stdpp Require Import strings pretty.
Local Open Scope dice_scope.

Lemma retain_new_elem work seen deps d :
  d ∈ retain_new work seen deps ↔ d ∈ deps ∧ d ≠ work ∧ d ∉ seen.
Proof.
  revert seen. induction deps as [|e deps IH]; intros seen; cbn.
  { rewrite elem_of_nil. tauto. }
  rewrite elem_of_cons. repeat case_decide; rewrite ?elem_of_cons, IH.
  - subst. naive_solver.
  - naive_solver.
  - rewrite not_elem_of_union, not_elem_of_singleton.
    destruct (decide (d = e)) as [->|]; naive_solver.
Qed.

Lemma rtc_first {A} (R : relation A) (P : A → Prop) (x y : A) :
  rtc R x y → (∀ a b, P a → R a b → P b) → P x → P y.
Proof. induction 1; eauto. Qed.

(** * Reaching work *)

Section Spec.
Context `{SO : SignalOps} {M : Type} `{KM : KeyMap NodeKey M}.
Context (adj : list (list VertexId)) (keys : M) (data : VertexData NodeData).

Local Notation n := (length adj).
Local Notation graph := (graph_of adj).

(** What the backend has after the builder finished: a key and data for each vertex. *)
Record backend_ok : Prop := {
  bo_adj : adj_ok adj;
  bo_data : length data = n;
  bo_keys : ∀ v, v < n → is_Some (km_get_index keys v);
  bo_get : ∀ k v, km_get keys k = Some v → v < n;
}.

Context (Hbo : backend_ok).

Definition is_work (v : VertexId) : bool :=
  is_critical_path_work_node (key_at keys v) (data !!! v).

(** One step through a node that is not work. *)
Definition pass (a b : VertexId) : Prop := is_work a = false ∧ edge adj a b.

(** Work reached from [u], itself or through nodes that are not work. *)
Definition reaches_work (u w : VertexId) : Prop := rtc pass u w ∧ is_work w = true.

Lemma vertex_is_work_spec v : v < n → vertex_is_work keys data v = Ok (is_work v).
Proof.
  intros Hv. unfold vertex_is_work, is_work, VertexKeys_index, key_at, VertexData_index.
  destruct (bo_keys Hbo v Hv) as [k ->].
  by rewrite (list_lookup_lookup_total_lt data v) by (rewrite (bo_data Hbo); done).
Qed.

Lemma iter_edges_at v : v < n → Graph_iter_edges graph v = Ok (adj !!! v).
Proof. intros Hv. apply iter_edges_of. by apply list_lookup_lookup_total_lt. Qed.

Lemma targets_at v x : v < n → x ∈ adj !!! v → x < n.
Proof.
  intros Hv Hx. apply (edge_lt adj v x (bo_adj Hbo)). exists (adj !!! v).
  split; [by apply list_lookup_lookup_total_lt|done].
Qed.

(** The edges of the vertices not yet visited. *)
Definition edges_left (visited : list VertexId) : nat :=
  unseen (λ v, length (adj !!! v)) (seq 0 n) visited.

Lemma edges_left_nil : edges_left [] = length (concat adj).
Proof.
  clear Hbo.
  unfold edges_left, unseen. rewrite (sum_list_with_ext _ (λ v, length (adj !!! v)))
    by (intros; rewrite decide_False by set_solver; done).
  enough (∀ l pre, adj = pre ++ l →
    sum_list_with (λ v, length (adj !!! v)) (seq (length pre) (length l)) = length (concat l)) as Hl
    by exact (Hl adj [] eq_refl).
  induction l as [|es l IH]; intros pre E; [done|]. cbn [length seq sum_list_with concat].
  rewrite length_app. f_equal.
  - rewrite (list_lookup_total_correct adj (length pre) es); [done|].
    rewrite E, lookup_app_r, Nat.sub_diag by done. done.
  - specialize (IH (pre ++ [es])). rewrite <- app_assoc, length_app in IH. cbn in IH.
    rewrite Nat.add_1_r in IH. by apply IH.
Qed.

Record collect_inv (roots work visited stack : list VertexId) : Prop := {
  ci_nodup : NoDup work;
  ci_work : ∀ w, w ∈ work → w ∈ visited ∧ is_work w = true;
  ci_seen : ∀ v, v ∈ visited → v ∉ work → is_work v = false;
  ci_closed : ∀ v x, v ∈ visited → is_work v = false → x ∈ adj !!! v → x ∈ visited ∨ x ∈ stack;
  ci_roots : ∀ r, r ∈ roots → r ∈ visited ∨ r ∈ stack;
  ci_reached : ∀ v, v ∈ visited ∨ v ∈ stack → v < n ∧ ∃ r, r ∈ roots ∧ rtc pass r v;
}.

Lemma collect_loop_spec fuel roots work visited stack :
  collect_inv roots work visited stack →
  length stack + edges_left visited ≤ fuel →
  returns (collect_loop fuel graph keys data work (list_to_set work) (list_to_set visited) stack)
    (λ l, ∃ visited, collect_inv roots l visited []).
Proof.
  revert work visited stack. induction fuel as [|fuel IH]; intros work visited [|v stack] Hi Hf;
    cbn [collect_loop]; [by exists visited|cbn in Hf; lia|by exists visited|].
  destruct Hi as [Hnd Hw Hs Hc Hr Hrc]. destruct (Hrc v) as [Hv (r & Hrr & Hrv)]; [set_solver|].
  destruct (decide _) as [Hin|Hin]; rewrite elem_of_list_to_set in Hin.
  { apply IH; [|cbn in Hf; lia]. split; [done..| | |]; set_solver. }
  rewrite vertex_is_work_spec by done. cbn [mbind outcome_bind].
  assert (edges_left visited = edges_left (v :: visited) + length (adj !!! v)) as El.
  { apply (unseen_cons (λ v, length (adj !!! v))); [apply NoDup_seq|apply elem_of_seq; lia|done]. }
  change ({[v]} ∪ list_to_set visited) with (list_to_set (C := gset VertexId) (v :: visited)).
  destruct (is_work v) eqn:Ew.
  - rewrite decide_False by (rewrite elem_of_list_to_set; intros Hin'; by apply Hin, Hw).
    replace ({[v]} ∪ list_to_set work) with (list_to_set (C := gset VertexId) (work ++ [v]))
      by (rewrite list_to_set_app_L; set_solver).
    apply IH; [|cbn in Hf; lia]. split.
    + apply NoDup_app. split_and!; [done| |by repeat constructor; set_solver].
      intros x Hx Heq%list_elem_of_singleton. subst x. by apply Hin, Hw.
    + intros w [Hw'|Heq%list_elem_of_singleton]%elem_of_app; [|subst w; set_solver].
      destruct (Hw w Hw'). set_solver.
    + intros x Hx Hxw. apply Hs; set_solver.
    + intros x y [->|Hx]%elem_of_cons Hxw Hy; [congruence|].
      destruct (Hc x y Hx Hxw Hy) as [?|[->|?]%elem_of_cons]; set_solver.
    + set_solver.
    + intros x Hx. apply Hrc. set_solver.
  - rewrite iter_edges_at by done. cbn [mbind outcome_bind].
    apply IH; [|rewrite length_app, length_reverse; cbn in Hf; lia]. split.
    + done.
    + intros w Hw'. destruct (Hw w Hw'). set_solver.
    + intros x [->|Hx]%elem_of_cons Hxw; [done|by apply Hs].
    + intros x y [->|Hx]%elem_of_cons Hxw Hy; [set_solver|].
      destruct (Hc x y Hx Hxw Hy) as [?|[->|?]%elem_of_cons]; set_solver.
    + set_solver.
    + intros x Hx. assert (x ∈ adj !!! v ∨ x ∈ visited ∨ x ∈ v :: stack) as [Hx'|Hx'] by set_solver.
      * split; [by apply (targets_at v)|]. exists r. split; [done|].
        eapply rtc_r; [exact Hrv|]. split; [done|]. exists (adj !!! v).
        split; [by apply list_lookup_lookup_total_lt|done].
      * by apply Hrc.
Qed.

Lemma collect_reachable_spec roots :
  Forall (λ r, r < n) roots →
  ∃ l, collect_reachable_work_vertices graph keys data roots = Ok l ∧ NoDup l ∧
    ∀ w, w ∈ l ↔ ∃ r, r ∈ roots ∧ reaches_work r w.
Proof.
  intros Hroots. rewrite Forall_forall in Hroots.
  assert (collect_inv roots [] [] (reverse roots)) as Hi.
  { split; [constructor|set_solver..| |].
    - intros r Hr. right. by apply elem_of_reverse.
    - intros v [Hv|Hv]; [set_solver|]. rewrite elem_of_reverse in Hv. split; [by apply Hroots|].
      exists v. split; [done|]. constructor. }
  apply (collect_loop_spec (collect_fuel graph roots)) in Hi;
    [|rewrite edges_left_nil, length_reverse; done].
  apply returns_Ok in Hi as (l & Hl & visited & [Hnd Hw Hs Hc Hr Hrc]).
  exists l. split; [exact Hl|]. split; [done|]. intros w. split.
  - intros Hin. destruct (Hw w Hin) as [Hv Hww]. destruct (Hrc w (or_introl Hv)) as (_ & r & ? & ?).
      exists r. by split.
  - intros (r & Hin & Hrw & Hww). destruct (decide (w ∈ l)) as [|Hni]; [done|exfalso].
      assert (w ∈ visited) as Hv.
      { apply (rtc_first pass (λ x, x ∈ visited) r w); [done| |].
        - intros a b Ha [Hna (es & Hes & Hb)].
          assert (b ∈ adj !!! a) as Hb' by (by rewrite (list_lookup_total_correct _ _ _ Hes)).
          destruct (Hc a b Ha Hna Hb') as [|Hb0]; [done|by apply elem_of_nil in Hb0].
        - destruct (Hr r Hin) as [|Hb0]; [done|by apply elem_of_nil in Hb0]. }
      rewrite (Hs w Hv Hni) in Hww. done.
Qed.

(** * The contracted graph *)

Definition works : list VertexId := omap (λ v, if is_work v then Some v else None) (seq 0 n).

Lemma elem_of_works v : v ∈ works ↔ v < n ∧ is_work v = true.
Proof.
  unfold works. rewrite list_elem_of_omap. split.
  - intros (x & Hx%elem_of_seq & E). destruct (is_work x) eqn:Ew; simplify_eq. split; [lia|done].
  - intros [Hv Hw]. exists v. rewrite Hw. split; [apply elem_of_seq; lia|done].
Qed.

Lemma filter_work_spec : filter_work keys data (seq 0 n) = Ok works.
Proof.
  apply filter_map_outcome_Ok. intros v Hv%elem_of_seq. by rewrite vertex_is_work_spec by lia.
Qed.

(** [v] did the work of the action [k]. *)
Definition produces (v : VertexId) (k : ActionKey) : Prop :=
  v < n ∧ is_work v = true ∧ action_key_for_node (data !!! v) = Some k.

(** When several nodes carry one action, the last counts. *)
Definition last_producer (k : ActionKey) (v : VertexId) : Prop :=
  produces v k ∧ ∀ v', produces v' k → v' ≤ v.

(** The artifact of an action that is an input of the action of [w]. *)
Definition explicit_dep (w d : VertexId) : Prop :=
  ∃ action inputs artifact k,
    nda_extra_data (data !!! w) = Extra_Action action ∧
    RegisteredAction_inputs (and_action action) = inl inputs ∧
    ArtifactGroup_Artifact artifact ∈ inputs ∧ Artifact_action_key artifact = Some k ∧
    last_producer k d.

(** [w] waits for [d]: an explicit input, or work reached from a dependency of [w] through nodes
    that are not work. *)
Definition work_dep (w d : VertexId) : Prop :=
  w < n ∧ is_work w = true ∧ d ≠ w ∧
  (explicit_dep w d ∨ ∃ x, edge adj w x ∧ reaches_work x d).

Local Existing Instance ActionKey_rust_eq.

Definition action_entry (v : VertexId) : option (ActionKey * VertexId) :=
  (λ k, (k, v)) <$> action_key_for_node (data !!! v).

Definition action_map : HashMap ActionKey VertexId :=
  fold_left (λ m p, hm_insert m p.1 p.2) (omap action_entry works) [].

Lemma action_vertices_spec : action_vertices data works = Ok action_map.
Proof.
  unfold action_vertices. rewrite (filter_map_outcome_Ok _ action_entry); [done|].
  intros v [Hv _]%elem_of_works. unfold VertexData_index.
  by rewrite (list_lookup_lookup_total_lt data v) by (rewrite (bo_data Hbo); done).
Qed.

Lemma hm_get_action_insert (m : HashMap ActionKey VertexId) k v k' :
  hm_get (hm_insert m k v) k' = if decide (k = k') then Some v else hm_get m k'.
Proof.
  pose proof (@rust_eq_dec_laws ActionKey _). rewrite hm_get_insert.
  unfold rust_eq, ActionKey_rust_eq, rust_eq_dec. by repeat case_decide || case_bool_decide.
Qed.

(** The last producer among the first [m] vertices. *)
Definition last_below (m : nat) (k : ActionKey) (v : VertexId) : Prop :=
  produces v k ∧ v < m ∧ ∀ v', v' < m → produces v' k → v' ≤ v.

Lemma last_below_skip m k v : ¬ produces m k → last_below (S m) k v ↔ last_below m k v.
Proof.
  intros Hm. unfold last_below. split; intros (Hp & Hlt & Hmax); (split; [done|]).
  - split; [|intros v' Hv'; apply Hmax; lia]. destruct (decide (v = m)) as [->|]; [done|lia].
  - split; [lia|]. intros v' Hv' Hp'. destruct (decide (v' = m)) as [->|]; [done|].
    apply Hmax; [lia|done].
Qed.

Lemma last_below_here m k v : produces m k → last_below (S m) k v ↔ v = m.
Proof.
  intros Hm. unfold last_below. split.
  - intros (_ & ? & Hmax). specialize (Hmax m ltac:(lia) Hm). lia.
  - intros ->. split_and!; [done|lia|]. intros. lia.
Qed.

Lemma action_map_below m k v :
  m ≤ n →
  hm_get (fold_left (λ m p, hm_insert m p.1 p.2) (omap action_entry
    (omap (λ v, if is_work v then Some v else None) (seq 0 m))) []) k = Some v ↔
  last_below m k v.
Proof.
  intros Hm. induction m as [|m IH]; [cbn; split; [done|intros (_ & ? & _); lia]|].
  specialize (IH ltac:(lia)). rewrite seq_S, !omap_app, fold_left_app.
  match type of IH with hm_get ?b k = _ ↔ _ => set (before := b) in *; clearbody before end.
  cbn [Nat.add omap list_omap]. destruct (is_work m) eqn:Ew.
  2: { cbn. rewrite IH, last_below_skip; [done|]. intros (_ & ? & _). congruence. }
  cbn [omap list_omap]. unfold action_entry.
  destruct (action_key_for_node (data !!! m)) as [k'|] eqn:Ek; cbn.
  2: { rewrite IH, last_below_skip; [done|]. intros (_ & _ & ?). congruence. }
  rewrite hm_get_action_insert. case_decide as Hk.
  - subst k'. rewrite last_below_here by (split_and!; [lia|done|done]).
    split; [by intros [= <-]|by intros ->].
  - rewrite IH, last_below_skip; [done|]. intros (_ & _ & ?). congruence.
Qed.

Lemma action_map_spec k v : hm_get action_map k = Some v ↔ last_producer k v.
Proof.
  unfold action_map, works, last_producer. rewrite action_map_below by done. split.
  - intros (? & ? & Hmax). split; [done|]. intros v' Hv'. apply Hmax; [by destruct Hv'|done].
  - intros [Hp Hmax]. split_and!; [done|by destruct Hp|]. intros v' _. apply Hmax.
Qed.

Lemma explicit_spec w d :
  d ∈ explicit_action_input_dependency_vertices (data !!! w) action_map ↔ explicit_dep w d.
Proof.
  unfold explicit_action_input_dependency_vertices, explicit_dep.
  destruct (nda_extra_data (data !!! w)) as [action| | |] eqn:Ea;
    try (rewrite elem_of_nil; split; [done|by intros (? & ? & ? & ? & ? & _)]).
  destruct (RegisteredAction_inputs (and_action action)) as [inputs|e] eqn:Ei.
  2: { rewrite elem_of_nil. split; [done|]. intros (action' & ? & ? & ? & [= <-] & ? & _). congruence. }
  rewrite list_elem_of_omap. split.
  - intros ([artifact|?|?] & Hin & Hx); [|done..].
    destruct (Artifact_action_key artifact) as [k|] eqn:Ek; [|done]. apply action_map_spec in Hx.
    by exists action, inputs, artifact, k.
  - intros (action' & inputs' & artifact & k & [= <-] & Hi & Hin & Hk & Hlast).
    rewrite Ei in Hi. injection Hi as <-. exists (ArtifactGroup_Artifact artifact).
    split; [done|]. rewrite Hk. by apply action_map_spec.
Qed.

(** The row of [work_deps] computed for [w]. *)
Definition row_ok (w : VertexId) (row : list VertexId) : Prop := ∀ d, d ∈ row ↔ work_dep w d.

Lemma work_deps_step_spec wd w :
  length wd = n → w ∈ works →
  ∃ row, row_ok w row ∧
    work_deps_step graph keys data action_map wd w = Ok (<[w := row]> wd).
Proof.
  intros Hlen [Hw Hww]%elem_of_works. unfold work_deps_step. unfold VertexData_index.
  rewrite (list_lookup_lookup_total_lt data w) by (rewrite (bo_data Hbo); done).
  cbn [expect mbind outcome_bind]. rewrite iter_edges_at by done. cbn [mbind outcome_bind].
  destruct (collect_reachable_spec (adj !!! w)) as (reached & -> & _ & Hr).
  { apply Forall_forall. intros x. by apply targets_at. }
  cbn [mbind outcome_bind]. rewrite VertexData_set_Ok by lia.
  eexists. split; [|done]. intros d. rewrite retain_new_elem, elem_of_app, explicit_spec, Hr.
  unfold work_dep. assert (∀ x, x ∈ adj !!! w ↔ edge adj w x) as He.
  { intros x. unfold edge. rewrite (list_lookup_lookup_total_lt adj w) by done. naive_solver. }
  setoid_rewrite He. split; [|intros (_ & _ & ? & ?); split_and!; [done..|set_solver]].
  by intros (? & ? & _).
Qed.

Record deps_inv (don : list VertexId) (wd : list (list VertexId)) : Prop := {
  di_length : length wd = n;
  di_done : ∀ w, w ∈ don → ∃ row, wd !! w = Some row ∧ row_ok w row;
  di_rest : ∀ w, w < n → w ∉ don → wd !! w = Some [];
}.

Lemma works_nodup : NoDup works.
Proof.
  unfold works. generalize (NoDup_seq 0 n). induction (seq 0 n) as [|v l IH]; cbn; [constructor|].
  intros [Hv Hl]%NoDup_cons. destruct (is_work v) eqn:Ew; [|by apply IH]. cbn.
  constructor; [|by apply IH]. rewrite list_elem_of_omap. intros (x & Hx & E).
  destruct (is_work x); simplify_eq. done.
Qed.

Lemma work_deps_spec :
  ∃ wd, length wd = n ∧ (∀ w d, edge wd w d ↔ work_dep w d) ∧
    for_each (work_deps_step graph keys data action_map) (Graph_allocate_vertex_data graph [])
      works = Ok wd.
Proof.
  pose proof (for_each_inv (work_deps_step graph keys data action_map) deps_inv works
    (Graph_allocate_vertex_data graph [])) as Hloop.
  apply returns_Ok in Hloop as (wd & Hwd & [Hlen Hdone Hrest]).
  - exists wd. split_and!; [done| |done]. intros w d. split.
    + intros (row & Hl & Hd). destruct (decide (w ∈ works)) as [Hw|Hw].
      * destruct (Hdone w Hw) as (row' & Hl' & Hrow). simplify_eq. by apply Hrow.
      * rewrite Hrest in Hl; [|by apply lookup_lt_Some in Hl; lia|done]. simplify_eq.
        by apply elem_of_nil in Hd.
    + intros Hd. assert (w ∈ works) as Hw by (apply elem_of_works; by destruct Hd as (? & ? & _)).
      destruct (Hdone w Hw) as (row & Hl & Hrow). exists row. split; [done|by apply Hrow].
  - unfold Graph_allocate_vertex_data, graph_of. cbn [g_vertices]. rewrite layout_length.
    split; [apply length_replicate|set_solver|]. intros w Hw _. by apply lookup_replicate_2.
  - intros don w rest wd E [Hlen Hdone Hrest].
    pose proof works_nodup as Hnd. rewrite E in Hnd. apply NoDup_app in Hnd as (_ & Hdis & _).
    destruct (work_deps_step_spec wd w Hlen) as (row & Hrow & ->); [rewrite E; set_solver|].
    assert (w < n) as Hw by (apply (elem_of_works w); rewrite E; set_solver).
    cbn. split.
    + by rewrite length_insert.
    + intros v [Hv|Hv%list_elem_of_singleton]%elem_of_app.
      * rewrite list_lookup_insert_ne; [by apply Hdone|]. intros ->. apply (Hdis v Hv). by left.
      * subst v. exists row. split; [|done]. apply list_lookup_insert_eq. lia.
    + intros v Hv Hni. rewrite list_lookup_insert_ne by set_solver. apply Hrest; set_solver.
Qed.

(** * Top-level targets *)

(** Work that the artifacts of a target wait for. *)
Definition target_work (t : TopLevelTarget) (w : VertexId) : Prop :=
  ∃ a v, a ∈ tlt_artifacts t ∧ km_get keys a = Some v ∧ reaches_work v w.

Lemma target_loop_spec artifacts (work0 : gset VertexId) :
  returns (for_each (target_work_step graph keys data) work0 artifacts) (λ work,
    ∀ w, w ∈ work ↔ w ∈ work0 ∨
      ∃ a v, a ∈ artifacts ∧ km_get keys a = Some v ∧ reaches_work v w).
Proof.
  revert work0. induction artifacts as [|a artifacts IH]; intros work0; cbn [for_each].
  { cbn. intros w. split; [by left|]. by intros [?|(? & ? & ?%elem_of_nil & _)]. }
  unfold target_work_step at 2. destruct (km_get keys a) as [v|] eqn:Ea; cbn [mbind outcome_bind].
  - destruct (collect_reachable_spec [v]) as (l & -> & _ & Hl).
    { repeat constructor. by eapply bo_get. }
    cbn [mbind outcome_bind]. eapply returns_mono; [apply IH|]. cbn. intros work Hwork w.
    rewrite Hwork, elem_of_union, elem_of_list_to_set, Hl. split.
    + intros [[?|(r & Hr%list_elem_of_singleton & ?)]|(b & x & ? & ? & ?)].
      * by left.
      * subst r. right. exists a, v. split; [by left|done].
      * right. exists b, x. split; [by right|done].
    + intros [?|(b & x & [->|Hb]%elem_of_cons & Hx & Hr)]; [by left; left| |right; by exists b, x].
      left. right. rewrite Ea in Hx. injection Hx as ->. exists x. split; [by left|done].
  - eapply returns_mono; [apply IH|]. cbn. intros work Hwork w. rewrite Hwork. split.
    + intros [?|(b & x & ? & ? & ?)]; [by left|]. right. exists b, x. split; [by right|done].
    + intros [?|(b & x & [->|Hb]%elem_of_cons & Hx & Hr)]; [by left|congruence|].
      right. by exists b, x.
Qed.

(** The duration reported for a target: the cost of the most expensive chain below it. *)
Definition target_cost (wd : list (list VertexId)) (t : TopLevelTarget) (c : option Duration) :
    Prop :=
  match c with
  | None => ∀ w, ¬ target_work t w
  | Some c =>
      (∃ w l, target_work t w ∧ complete wd (w :: l) ∧ chain_cost data (w :: l) = c) ∧
      ∀ w l, target_work t w → complete wd (w :: l) → (chain_cost data (w :: l) <= c)%N
  end.

Lemma reaches_work_in_works u w : u < n → reaches_work u w → w ∈ works.
Proof.
  intros Hu [Hr Hw]. apply elem_of_works. split; [|done].
  apply (rtc_first pass (λ x, x < n) u w); [done| |done]. intros a b _ [_ He].
  by apply (edge_lt adj a b (bo_adj Hbo)).
Qed.

Lemma work_dep_works w d : work_dep w d → d ∈ works.
Proof.
  intros (Hw & _ & _ & [(? & ? & ? & ? & _ & _ & _ & _ & [(? & ? & _) _])|(x & He & Hr)]).
  - by apply elem_of_works.
  - apply (reaches_work_in_works x); [by apply (edge_lt adj w x (bo_adj Hbo))|done].
Qed.

Lemma target_duration_spec wd memo t :
  memo_ok data wd memo → (∀ w, w ∈ works → is_Some (memo !! w)) →
  ∃ c, target_cost wd t c ∧
    target_duration graph keys data memo t = Ok ((λ c, (tlt_target t, c)) <$> c).
Proof.
  intros Hok Hall. unfold target_duration.
  pose proof (target_loop_spec (tlt_artifacts t) ∅) as (work & -> & Hwork)%returns_Ok.
  assert (∀ w, w ∈ work ↔ target_work t w) as Hw by (intros w; rewrite Hwork; set_solver).
  assert (∀ w, target_work t w → ∃ s, memo !! w = Some s ∧ max_cost data wd w (wps_cost s)) as Hm.
  { intros w (a & v & _ & Ha & Hr). destruct (Hall w) as [s Hs].
    - apply (reaches_work_in_works v); [by eapply bo_get|done].
    - exists s. split; [done|]. by destruct (Hok w s Hs). }
  cbn [mbind outcome_bind]. destruct (iter_max _ _) as [c|] eqn:E.
  - exists (Some c). split; [|done]. apply iter_max_N in E as [Hin Hmax]. split.
    + apply list_elem_of_omap in Hin as (w & Hwin & Hs). apply elem_of_elements, Hw in Hwin.
      destruct (Hm w Hwin) as (s & Hs' & (l & Hl & Hc) & _). rewrite Hs' in Hs. cbn in Hs.
      injection Hs as <-. by exists w, l.
    + intros w l Hwin Hl. destruct (Hm w Hwin) as (s & Hs & _ & Hle). etrans; [by apply Hle|].
      apply Hmax, list_elem_of_omap. exists w. rewrite Hs.
      split; [by apply elem_of_elements, Hw|done].
  - exists None. split; [|done]. intros w Hin. destruct (Hm w Hin) as (s & Hs & _).
    apply iter_max_None in E. apply Hw, elem_of_elements in Hin.
    assert (wps_cost s ∈ omap (λ w, wps_cost <$> memo !! w) (elements work)) as Hx.
    { apply list_elem_of_omap. exists w. by rewrite Hs. }
    rewrite E in Hx. by apply elem_of_nil in Hx.
Qed.

Lemma target_durations_spec wd memo ts :
  memo_ok data wd memo → (∀ w, w ∈ works → is_Some (memo !! w)) →
  ∃ cs, Forall2 (target_cost wd) ts cs ∧
    filter_map_outcome (target_duration graph keys data memo) ts =
    Ok (omap (λ tc, (λ c, (tlt_target tc.1, c)) <$> tc.2) (zip ts cs)).
Proof.
  intros Hok Hall. induction ts as [|t ts (cs & Hcs & IH)]; [by exists []|]. cbn [filter_map_outcome].
  destruct (target_duration_spec wd memo t Hok Hall) as (c & Hc & ->). rewrite IH.
  exists (c :: cs). split; [by constructor|]. by destruct c.
Qed.

(** * The result *)

(** What the computation may return for the table [wd] of dependencies. *)
Definition work_result_ok (wd : list (list VertexId)) (ts : list TopLevelTarget)
    (r : DetailedCriticalPath * list (ConfiguredTargetLabel * Duration) + CriticalPathError) :
    Prop :=
  match r with
  | inr e => cyclic wd ∧ ∃ message, e = CycleDetected message
  | inl (path, durations) =>
      ¬ cyclic wd ∧
      (if decide (works = []) then path = DetailedCriticalPath_empty else
       ∃ v l, v ∈ works ∧ complete wd (v :: l) ∧
         path = mkDetailedCriticalPath (reverse (work_entries keys data wd (v :: l))) ∧
         ∀ v' l', v' ∈ works → complete wd (v' :: l') →
           (chain_cost data (v' :: l') <= chain_cost data (v :: l))%N) ∧
      ∃ cs, Forall2 (target_cost wd) ts cs ∧
        durations = omap (λ tc, (λ c, (tlt_target tc.1, c)) <$> tc.2) (zip ts cs)
  end.

Lemma real_work_spec ts :
  ∃ wd, length wd = n ∧ (∀ w d, edge wd w d ↔ work_dep w d) ∧
  ∃ r, compute_real_work_critical_path graph keys data ts = Ok r ∧ work_result_ok wd ts r.
Proof.
  destruct work_deps_spec as (wd & Hlen & Hedge & Hwd). exists wd. split; [done|]. split; [done|].
  unfold compute_real_work_critical_path. rewrite iter_vertices_of by apply (bo_adj Hbo).
  cbn [mbind outcome_bind]. rewrite filter_work_spec. cbn [mbind outcome_bind].
  destruct (decide (works = [])) as [Ew|Ew].
  { rewrite Ew. eexists. split; [done|]. unfold work_result_ok.
    assert (∀ v, v ∉ works) as Hno by (intros v; rewrite Ew; apply not_elem_of_nil).
    assert (∀ w d, ¬ edge wd w d) as Hne.
    { intros w d (? & ? & _)%Hedge. by apply (Hno w), elem_of_works. }
    split; [|split; [by rewrite decide_True|]].
    - intros (u & [|x l] & Hw); cbn in Hw; [by apply (Hne u u), Hw|by apply (Hne u x), Hw].
    - exists ((λ _, None) <$> ts). split.
      + apply Forall2_fmap_r, Forall_Forall2_diag, Forall_forall. intros t _ w (a & v & _ & Ha & Hr).
        apply (Hno w), (reaches_work_in_works v); [by eapply bo_get|done].
      + induction ts; cbn; [done|by rewrite <- IHts]. }
  destruct works as [|w0 ws] eqn:Ews; [done|]. rewrite <- Ews in *. clear Ew.
  rewrite action_vertices_spec. cbn [mbind outcome_bind]. rewrite Hwd. cbn [mbind outcome_bind].
  assert (Forall (Forall (λ v, v < length wd)) wd) as Htg.
  { apply Forall_lookup. intros w row Hrow. apply Forall_forall. intros d Hd.
    assert (edge wd w d) as He%Hedge by (by exists row). rewrite Hlen.
    by apply elem_of_works, (work_dep_works w). }
  assert (Forall (λ v, v < length wd) works) as Hlt.
  { apply Forall_forall. intros v Hv. rewrite Hlen. by apply elem_of_works. }
  pose proof (max_work_loop_spec keys data wd ltac:(by rewrite Hlen, (bo_data Hbo))
    ltac:(rewrite Hlen; apply (bo_keys Hbo)) Htg ∅ None [] works) as Hloop.
  apply returns_Ok in Hloop as ([[m memo]|e] & Hloop & Hres);
    [| |intros ? ?; by rewrite lookup_empty|done|done].
  2: { rewrite Hloop. cbn [mbind outcome_bind]. by eexists. }
  rewrite Hloop. cbn [mbind outcome_bind]. destruct Hres as [Hok Hmax]. cbn [app] in Hmax.
  destruct m as [[v s]|]; [|cbn in Hmax; congruence]. destruct Hmax as (Hv & Hs & Hmax).
  assert (∀ w, w ∈ works → is_Some (memo !! w)) as Hall.
  { intros w Hw. destruct (Hmax w Hw) as (sw & ? & _). by exists sw. }
  destruct (work_path_spec keys data wd ltac:(by rewrite Hlen, (bo_data Hbo))
    ltac:(rewrite Hlen; apply (bo_keys Hbo)) Htg memo v s Hok Hs) as (l & Hl & Hcost & _ & ->).
  cbn [mbind outcome_bind].
  destruct (target_durations_spec wd memo ts Hok Hall) as (cs & Hcs & ->).
  eexists. split; [done|]. unfold work_result_ok. split; [|split].
  - apply (memo_acyclic data wd memo Hok). intros u x (? & ? & _)%Hedge.
    by apply Hall, elem_of_works.
  - rewrite decide_False by (rewrite Ews; done).
    exists v, l. split_and!; [done..|]. intros v' l' Hv' Hl'.
    destruct (Hmax v' Hv') as (sv & Hsv & Hle). rewrite Hcost. etrans; [|exact Hle].
    by destruct (Hok v' sv Hsv) as [_ _ [_ Hm] _]; apply Hm.
  - by exists cs.
Qed.

(** * Properties *)

(** C23. For the graph, keys and data of a finished builder, the computation ends without a panic.
    There is a table of the dependencies between nodes with work -- an explicit action input, or
    work reached through nodes without work -- such that: if the table has a cycle, that error is
    returned; otherwise the path returned, listed from its first node, is a chain of that table
    down to a node without dependencies, each entry with the part of its time that counts, and no
    chain from any node with work costs more; and the duration of each top-level target is the
    cost of the most expensive chain below its artifacts, where a target without work is left
    out. *)
Theorem real_work_critical_path_correct ts :
  ∃ wd, length wd = n ∧ (∀ w d, edge wd w d ↔ work_dep w d) ∧
  ∃ r, compute_real_work_critical_path graph keys data ts = Ok r ∧ work_result_ok wd ts r.
Proof. apply real_work_spec. Qed.

Lemma omap_all_Some {A B} (f : A → option B) (l : list A) (ys : list B) :
  f <$> l = Some <$> ys → omap f l = ys.
Proof.
  revert ys. induction l as [|x l IH]; intros [|y ys]; [done..|]. cbn. intros [= -> Hl].
  by rewrite (IH ys).
Qed.

Lemma head_work_entry wd v l :
  head (work_entries keys data wd (v :: l)) =
  Some (work_entry keys data wd v (default 0%N (head (chain_durations data (v :: l))))).
Proof. done. Qed.

Lemma last_work_entry wd v l x :
  last (v :: l) = Some x →
  ∃ c, last (work_entries keys data wd (v :: l)) = Some (work_entry keys data wd x c).
Proof.
  revert v. induction l as [|d l IH]; intros v Hl; [injection Hl as ->; by eexists|].
  destruct (IH d Hl) as [c Hc]. exists c. rewrite <- Hc. done.
Qed.

Lemma chain_last_work wd v l x :
  (∀ w d, edge wd w d ↔ work_dep w d) → v ∈ works → is_walk wd (v :: l) → last (v :: l) = Some x →
  x < n ∧ is_work x = true.
Proof.
  intros Hedge. revert v. induction l as [|d l IH]; intros v Hv Hw Hl.
  { injection Hl as ->. by apply elem_of_works. }
  apply is_walk_cons in Hw as [He Hw]. apply (IH d); [|done|done].
  apply (work_dep_works v). by apply Hedge.
Qed.

(** When every node with work ends no earlier than the work it waits for, the durations of the
    entries of the path add up to at most the time between the start of the first entry and the
    end of the last: no instant counts twice. *)
Lemma work_path_within_elapsed ts path durations
    (Hrun : compute_real_work_critical_path graph keys data ts = Ok (inl (path, durations)))
    (Hends : ∀ w d, work_dep w d → (ts_end (span_of data d) <= ts_end (span_of data w))%Z)
    (Hwf : ∀ v, v ∈ works → ts_wf (span_of data v)) :
  match head (dcp_entries path), last (dcp_entries path) with
  | Some first, Some final =>
      (Z.of_N (sum_N (omap de_critical_path_duration (dcp_entries path))) <=
       ts_end (nd_total (nda_duration (de_data final))) -
       ts_start (nd_total (nda_duration (de_data first))))%Z
  | _, _ => True
  end.
Proof.
  destruct (real_work_spec ts) as (wd & Hlen & Hedge & r & Hr & Hres).
  rewrite Hrun in Hr. injection Hr as <-. destruct Hres as (_ & Hpath & _).
  case_decide as Hw; [by subst path|]. destruct Hpath as (v & l & Hv & [Hwalk (x & Hx & Hleaf)] & -> & _).
  cbn [dcp_entries]. rewrite head_reverse, last_reverse, head_work_entry.
  destruct (last_work_entry wd v l x Hx) as [c ->]. cbn [work_entry de_data].
  replace (omap de_critical_path_duration (reverse (work_entries keys data wd (v :: l))))
    with (reverse (chain_durations data (v :: l))).
  - rewrite sum_N_reverse. apply (chain_elapsed data wd v l x); [|done|done|].
    + intros w d He. by apply Hends, Hedge.
    + apply Hwf, elem_of_works, (chain_last_work wd v l x Hedge Hv Hwalk Hx).
  - symmetry. apply omap_all_Some. by rewrite !fmap_reverse, work_entries_durations.
Qed.
End Spec.

(** * Witnesses *)

Lemma example_adj_ok : adj_ok example_adj.
Proof.
  split; [vm_compute; congruence..|]. unfold example_adj. repeat constructor; cbn; lia.
Qed.

Lemma example_backend_ok : backend_ok example_adj example_keys example_data.
Proof.
  split; [apply example_adj_ok|done| |].
  - intros v Hv. do 5 (destruct v as [|v]; [by eexists|]). cbn in Hv. lia.
  - intros k v Hk. apply hm_get_elem in Hk as (k' & _ & Hin).
    + unfold example_keys in Hin. cbn in Hin. rewrite !elem_of_cons in Hin.
      destruct Hin as [Hin|[Hin|[Hin|[Hin|[Hin|Hin]]]]]; [injection Hin as _ ->; cbn; lia..|].
      by apply elem_of_nil in Hin.
    + cbn. repeat split; repeat constructor.
Qed.

Lemma real_work_critical_path_correct_witness :
  ∃ wd, length wd = 5 ∧
  ∃ r, compute_real_work_critical_path (graph_of example_adj) example_keys example_data
         [example_target] = Ok r ∧
    work_result_ok example_adj example_keys example_data wd [example_target] r.
Proof.
  destruct (real_work_critical_path_correct _ _ _ example_backend_ok [example_target])
    as (wd & Hlen & _ & Hr). by exists wd.
Defined.

Lemma example_edge_lt u v : edge example_adj u v → v < u ∧ u < 5.
Proof.
  intros (es & Hl & Hin). pose proof (lookup_lt_Some _ _ _ Hl) as Hlt. cbn in Hlt.
  split; [|done]. do 5 (destruct u as [|u]; [cbn in Hl; injection Hl as <-;
    rewrite ?elem_of_cons, elem_of_nil in Hin; naive_solver lia|]). lia.
Qed.

Lemma example_work_dep_le w d :
  work_dep example_adj example_keys example_data w d → d ≤ w ∧ w < 5.
Proof.
  intros (Hw & _ & _ & Hx). split; [|done].
  destruct Hx as [(a & inputs & artifact & k & Ha & Hi & Hin & _ & [(Hd & _) _])|(x & He & Hr & _)].
  - cbn in Hd. do 4 (destruct w as [|w]; [cbn in Ha; try discriminate Ha; injection Ha as <-;
      cbn in Hi; injection Hi as <-; by apply elem_of_nil in Hin|]). lia.
  - apply example_edge_lt in He as [Hlt _]. assert (d ≤ x); [|lia].
    induction Hr as [|a b c [_ Hab] _ IH]; [done|]. apply example_edge_lt in Hab.
    specialize (IH ltac:(lia)). lia.
Qed.
