(* ===== verification/SignalPaths.v ===== *)
(** The backend that keeps the graph of the build, [LongestPathGraphBackend] of
    [src/app/bz_build_signals_impl/src/backend/longest_path_graph.rs]: it collects nodes and
    top-level targets, and when the build ends adds the edges that say who discovered a node,
    then computes the slowest path, the critical path of the graph and the one through real work
    ([SignalWork]).  Also here: [LoggingBackend::finish] ([backend/logging.rs]), and the interface
    [BuildListenerBackend] ([backend/backend.rs]) both implement.

    The three scoped threads share nothing that changes, so they run one after the other; a panic
    in one is a panic of the whole. *)
From S2P Require Import Prelude.
From S2P Require Import TimeSpan.
From S2P Require Import CritGraph.
From S2P Require Import CritTopo.
From S2P Require Import CritPaths.
From S2P Require Import CritPotential.
From S2P Require Import SignalNodes.
From S2P Require Import SignalWork.
From stdpp Require Import strings pretty.
Local Open Scope dice_scope.

(** [.join(" -> ")] *)
Fixpoint join_arrow (l : list string) : string :=
  match l with
  | [] => ""
  | [s] => s
  | s :: l => s +:+ " -> " +:+ join_arrow l
  end.

(** * The interface of backends *)

(** What [process_node] receives. *)
Record NodeSignal `{SignalOps} := mkNodeSignal {
  ns_key : NodeKey;
  ns_extra_data : NodeExtraData;
  ns_duration : NodeDuration;
  ns_dep_keys : list NodeKey;
  ns_span_ids : list N;
  ns_waiting_data : WaitingData;
}.

Class BuildListenerBackend `{SignalOps} (B : Type) := {
  process_node : B → NodeSignal → B;
  process_top_level_target : B → ConfiguredTargetLabel → list NodeKey → B;
  finish : B → HashMap NodeKey NodeKey → outcome (BuildInfo + CriticalPathError);
}.

Section Backend.
Context `{SO : SignalOps} {M : Type} `{KM : KeyMap NodeKey M}.

Record LongestPathGraphBackend := mkLongestPathGraphBackend {
  lp_builder : GraphBuilder NodeData M + CriticalPathError;
  lp_top_level_targets : list TopLevelTarget;
}.

Definition LongestPathGraphBackend_new : LongestPathGraphBackend :=
  mkLongestPathGraphBackend (inl GraphBuilder_new) [].

Definition LongestPathGraphBackend_process_node (self : LongestPathGraphBackend)
    (s : NodeSignal) : LongestPathGraphBackend :=
  match lp_builder self with
  | inr _ => self
  | inl builder =>
      let '(builder, res) :=
        GraphBuilder_push builder (ns_key s) (ns_dep_keys s)
          (mkNodeData (ns_extra_data s) (ns_duration s) (ns_waiting_data s) (ns_span_ids s)) in
      match res with
      | inl tt => mkLongestPathGraphBackend (inl builder) (lp_top_level_targets self)
      | inr Overflow => mkLongestPathGraphBackend (inr GraphBuildOverflow) (lp_top_level_targets self)
      | inr (DuplicateKey _) => mkLongestPathGraphBackend (inl builder) (lp_top_level_targets self)
      end
  end.

Definition LongestPathGraphBackend_process_top_level_target (self : LongestPathGraphBackend)
    (target : ConfiguredTargetLabel) (artifacts : list NodeKey) : LongestPathGraphBackend :=
  mkLongestPathGraphBackend (lp_builder self)
    (lp_top_level_targets self ++ [mkTopLevelTarget target artifacts]).

(** ** Discovery edges *)

(** The kinds of nodes that produce artifacts. *)
Definition is_artifact_key (key : NodeKey) : bool :=
  match key with
  | NodeKey_BuildKey _
  | NodeKey_EnsureTransitiveSetProjectionKey _
  | NodeKey_EnsureProjectedArtifactKey _ => true
  | _ => false
  end.

Notation Labels := (VertexData OptionalVertexId * nat)%type (only parsing).

(** The loop [while let Some(i) = queue.pop()]. *)
Fixpoint discovery_loop (fuel : nat) (graph : Graph) (keys : M) (analysis : VertexId)
    (st : Labels) (queue : list VertexId) : outcome Labels :=
  match queue with
  | [] => Ok st
  | i :: queue =>
      match fuel with
      | 0 => Panic
      | S fuel =>
          let '(first_analysis, count) := st in
          o ← VertexData_index first_analysis i;
          if OptionalVertexId_is_some o then discovery_loop fuel graph keys analysis st queue else
          key ← VertexKeys_index keys i;
          if is_artifact_key key then
            first_analysis ← VertexData_set first_analysis i (OptionalVertexId_from analysis);
            es ← Graph_iter_edges graph i;
            discovery_loop fuel graph keys analysis (first_analysis, S count) (reverse es ++ queue)
          else discovery_loop fuel graph keys analysis st queue
      end
  end.

(** Every round pops the artifact or an edge of a vertex labelled now. *)
Definition discovery_fuel (graph : Graph) : nat := 1 + length (g_edges graph).

Definition artifact_step (graph : Graph) (keys : M) (analysis : VertexId) (st : Labels)
    (artifact : NodeKey) : outcome Labels :=
  match km_get keys artifact with
  | None => Ok st
  | Some artifact => discovery_loop (discovery_fuel graph) graph keys analysis st [artifact]
  end.

Definition finish_key_of (target : ConfiguredTargetLabel) : NodeKey :=
  NodeKey_Dyn "AnalysisFinishKey"
    (BSKey_AnalysisFinish (mkAnalysisFinishNodeKey target None)).

Definition analysis_of (keys : M) (target : ConfiguredTargetLabel) : option VertexId :=
  match km_get keys (finish_key_of target) with
  | Some k => Some k
  | None => km_get keys (NodeKey_AnalysisKey target)
  end.

Definition target_step (graph : Graph) (keys : M) (st : Labels) (t : TopLevelTarget) :
    outcome Labels :=
  match analysis_of keys (tlt_target t) with
  | None => Ok st
  | Some analysis => for_each (artifact_step graph keys analysis) st (tlt_artifacts t)
  end.

Definition anon_step (keys : M) (st : Labels) (e : NodeKey * NodeKey) : outcome Labels :=
  let '(first_analysis, count) := st in
  match km_get keys e.1, km_get keys e.2 with
  | Some anon_vertex, Some analysis_vertex =>
      o ← VertexData_index first_analysis anon_vertex;
      if OptionalVertexId_is_some o then Ok st else
      first_analysis ← VertexData_set first_analysis anon_vertex
                         (OptionalVertexId_from analysis_vertex);
      Ok (first_analysis, S count)
  | _, _ => Ok st
  end.

(** The two loops of [finish] that fill [first_analysis]; the count is only a capacity hint. *)
Definition first_analyses (graph : Graph) (keys : M) (top_level_targets : list TopLevelTarget)
    (anon_target_discovery_edges : HashMap NodeKey NodeKey) :
    outcome (VertexData OptionalVertexId) :=
  st ← for_each (target_step graph keys)
         (Graph_allocate_vertex_data graph OptionalVertexId_none, 0) top_level_targets;
  '(first_analysis, _) ← for_each (anon_step keys) st anon_target_discovery_edges;
  Ok first_analysis.

(** ** The slowest path *)

(** One iteration of the loops that look for the vertex that ended last. *)
Definition latest_step (data : VertexData NodeData) (best : option (Instant * VertexId))
    (d : VertexId) : outcome (option (Instant * VertexId)) :=
  nd ← VertexData_index data d;
  let d_end := TimeSpan_end (nd_total (nda_duration nd)) in
  Ok (if is_none_or best (λ b, (b.1 <? d_end)%Z) then Some (d_end, d) else best).

Definition latest (data : VertexData NodeData) (ds : list VertexId) :
    outcome (option (Instant * VertexId)) := for_each (latest_step data) None ds.

(** [path.iter().position(|e| &e.key == cycle_target_key)] *)
Fixpoint position_of_key (key : NodeKey) (path : list DetailedCriticalPathEntry) : option nat :=
  match path with
  | [] => None
  | e :: path => if rust_eq (de_key e) key then Some 0 else S <$> position_of_key key path
  end.

Definition format_slowest_path_cycle_error (keys : M) (path : list DetailedCriticalPathEntry)
    (cycle_target : VertexId) : outcome CriticalPathError :=
  cycle_target_key ← VertexKeys_index keys cycle_target;
  let cycle_start_idx := default 0 (position_of_key cycle_target_key path) in
  let cycle_nodes := drop cycle_start_idx path in
  let cycle_len := length cycle_nodes + 1 in
  let cycle_desc := join_arrow ((NodeKey_display ∘ de_key <$> cycle_nodes)
                                  ++ [NodeKey_display cycle_target_key]) in
  Ok (CycleDetected (pretty cycle_len +:+ " nodes in cycle: " +:+ cycle_desc)).

(** The loop [while let Some(curr) = node]. *)
Fixpoint slowest_loop (fuel : nat) (graph : Graph) (keys : M) (data : VertexData NodeData)
    (visited : gset VertexId) (slowest_path : list DetailedCriticalPathEntry)
    (node : option VertexId) : outcome (list DetailedCriticalPathEntry + CriticalPathError) :=
  match node with
  | None => Ok (inl slowest_path)
  | Some curr =>
      match fuel with
      | 0 => Panic
      | S fuel =>
          if decide (curr ∈ visited) then
            e ← format_slowest_path_cycle_error keys slowest_path curr; Ok (inr e)
          else
            es ← Graph_iter_edges graph curr;
            prev ← latest data es;
            key ← VertexKeys_index keys curr;
            nd ← VertexData_index data curr;
            slowest_loop fuel graph keys data ({[ curr ]} ∪ visited)
              (slowest_path ++ [mkDetailedCriticalPathEntry key nd None (fst <$> prev) None])
              (snd <$> prev)
      end
  end.

Definition compute_slowest_paths (graph : Graph) (keys : M) (data : VertexData NodeData) :
    outcome (DetailedCriticalPath + CriticalPathError) :=
  vs ← Graph_iter_vertices graph;
  last ← latest data vs;
  r ← slowest_loop (S (Graph_vertices_count graph)) graph keys data ∅ [] (snd <$> last);
  match r with
  | inl slowest_path => Ok (inl (DetailedCriticalPath_new (reverse slowest_path)))
  | inr e => Ok (inr e)
  end.

(** ** The critical path of the graph *)

Definition format_topo_sort_cycle_error (error : TopoSortError) (keys : M) :
    outcome CriticalPathError :=
  let '(Cycle cycle_vertices) := error in
  names ← map_outcome (VertexKeys_index keys) cycle_vertices;
  Ok (CycleDetected (pretty (length cycle_vertices) +:+ " nodes in cycle: " +:+
                     join_arrow (NodeKey_display <$> names))).

(** The cost of the path of each artifact, or [None] at the first one that has none. *)
Fixpoint artifact_costs (keys : M) (accessor : CriticalPathAccessor) (artifacts : list NodeKey) :
    outcome (option (list PathCost)) :=
  match artifacts with
  | [] => Ok (Some [])
  | a :: artifacts =>
      match km_get keys a with
      | None => Ok None
      | Some idx =>
          p ← critical_path_for_vertex accessor idx;
          match p with
          | None => Ok None
          | Some (cost, _) =>
              costs ← artifact_costs keys accessor artifacts;
              Ok (match costs with Some costs => Some (cost :: costs) | None => None end)
          end
      end
  end.

(** [max_by_key(|p| p.0)]: the last of the greatest. *)
Definition max_path_cost (costs : list PathCost) : option PathCost :=
  iter_max (λ a b, negb (PathCost_lt b a)) costs.

Definition target_critical_path (keys : M) (accessor : CriticalPathAccessor) (t : TopLevelTarget) :
    outcome (option (ConfiguredTargetLabel * Duration)) :=
  costs ← artifact_costs keys accessor (tlt_artifacts t);
  Ok (match costs ≫= max_path_cost with
      | Some path_cost => Some (tlt_target t, Duration_from_micros (pc_runtime path_cost))
      | None => None
      end).

(** The entry of the vertex at position [cp_idx] of the critical path. *)
Definition critical_path_entry (graph : Graph) (keys : M) (data : VertexData NodeData)
    (critical_path_cost : PathCost) (replacement_durations : list PathCost)
    (c : VertexId * VertexId) : outcome DetailedCriticalPathEntry :=
  let '(cp_idx, vertex_idx) := c in
  key ← VertexKeys_index keys vertex_idx;
  node_data ← VertexData_index data vertex_idx;
  es ← Graph_iter_edges graph vertex_idx;
  ends ← map_outcome (λ d, nd ← VertexData_index data d;
                           Ok (TimeSpan_end (nd_total (nda_duration nd)))) es;
  replacement ← VertexData_index replacement_durations cp_idx;
  Ok (mkDetailedCriticalPathEntry key node_data
        (Some (Duration_from_micros
                 (u64_sub (pc_runtime critical_path_cost) (pc_runtime replacement))))
        (iter_max Z.leb ends) None).

Definition compute_critical_paths (graph : Graph) (keys : M) (data : VertexData NodeData)
    (durations : VertexData N) (top_level_targets : list TopLevelTarget) :
    outcome (DetailedCriticalPath * list (ConfiguredTargetLabel * Duration) + CriticalPathError) :=
  r ← compute_critical_path_potentials graph durations;
  match r with
  | inr e => e ← format_topo_sort_cycle_error e keys; Ok (inr e)
  | inl p =>
      targets ← filter_map_outcome (target_critical_path keys (pot_accessor p)) top_level_targets;
      entries ← map_outcome
                  (critical_path_entry graph keys data (pot_critical_path_cost p)
                     (pot_updated_critical_path_cost p))
                  (enumerate (pot_critical_path p));
      Ok (inl (DetailedCriticalPath_new entries, targets))
  end.

(** ** The end of the build *)

Definition node_micros (d : NodeData) : N :=
  u64_saturating_from
    (Duration_as_micros (NodeDuration_critical_path_duration (nda_duration d))).

Definition LongestPathGraphBackend_finish (self : LongestPathGraphBackend)
    (anon_target_discovery_edges : HashMap NodeKey NodeKey) :
    outcome (BuildInfo + CriticalPathError) :=
  match lp_builder self with
  | inr e => Ok (inr e)
  | inl builder =>
      let '(graph, keys, data) := GraphBuilder_finish builder in
      first_analysis ←
        first_analyses graph keys (lp_top_level_targets self) anon_target_discovery_edges;
      graph ← Graph_add_edges graph first_analysis;
      let durations := node_micros <$> data in
      build_graph_cp ←
        compute_critical_paths graph keys data durations (lp_top_level_targets self);
      work_cp ← compute_real_work_critical_path graph keys data (lp_top_level_targets self);
      slow ← compute_slowest_paths graph keys data;
      match slow, build_graph_cp, work_cp with
      | inr e, _, _ => Ok (inr e)
      | inl _, inr e, _ => Ok (inr e)
      | inl _, inl _, inr e => Ok (inr e)
      | inl slowest_path, inl (build_graph_critical_path, _),
        inl (critical_path, critical_path_for_top_level_targets) =>
          Ok (inl (mkBuildInfo critical_path build_graph_critical_path slowest_path
                     (N.of_nat (Graph_vertices_count graph)) (N.of_nat (Graph_edges_count graph))
                     critical_path_for_top_level_targets))
      end
  end.

Global Instance LongestPathGraphBackend_listener :
    BuildListenerBackend LongestPathGraphBackend := {|
  process_node := LongestPathGraphBackend_process_node;
  process_top_level_target := LongestPathGraphBackend_process_top_level_target;
  finish := LongestPathGraphBackend_finish;
|}.

(** [LoggingBackend::finish]; what its [process_node] logs is not modelled. *)
Definition LoggingBackend_finish (_ : HashMap NodeKey NodeKey) :
    outcome (BuildInfo + CriticalPathError) :=
  Ok (inl (mkBuildInfo DetailedCriticalPath_empty DetailedCriticalPath_empty
             DetailedCriticalPath_empty 0%N 0%N [])).

End Backend.
Arguments LongestPathGraphBackend {_} _.
