(* ===== verification/SignalDiscovery.v ===== *)
(** The discovery edges that [finish] of [SignalPaths] adds: which vertex is labelled with which
    analysis.  A vertex is labelled with the analysis of the first top-level target that reaches
    it through nodes that produce artifacts; anonymous targets take the analysis that is given
    for them, when they have none yet. *)
From S2P Require Import Prelude.
From S2P Require Import TimeSpan.
From S2P Require Import CritGraph.
From S2P Require Import SignalNodes.
From S2P Require Import SignalWork.
From S2P Require Import SignalChains.
From S2P Require Import SignalWorkSpec.
From S2P Require Import SignalPaths.
From S2P Require Import SignalExample.
From stdpp Require Import strings pretty.
Local Open Scope dice_scope.

Section Discovery.
Context `{SO : SignalOps} {M : Type} `{KM : KeyMap NodeKey M}.
Context (adj : list (list VertexId)) (keys : M) (data : VertexData NodeData).

Local Notation n := (length adj).
Local Notation graph := (graph_of adj).

Context (Hbo : backend_ok adj keys data) (Hfit : (Z.of_nat n <= 2 ^ 31)%Z).

(** [v] is a node that produces artifacts. *)
Definition is_art (v : VertexId) : bool := is_artifact_key (key_at keys v).

Definition art_step (a b : VertexId) : Prop := is_art a = true ∧ edge adj a b.

(** [v] is reached from [u] through nodes that produce artifacts, both included. *)
Definition art_reach (u v : VertexId) : Prop := rtc art_step u v ∧ is_art v = true.

(** The label of a vertex. *)
Definition label (labels : VertexData OptionalVertexId) (v : VertexId) : option VertexId :=
  labels !! v ≫= OptionalVertexId_into_option.

(** Labels are closed under edges to nodes that produce artifacts, apart from a queue. *)
Definition closed (labels : VertexData OptionalVertexId) (queue : list VertexId) : Prop :=
  ∀ v x, is_Some (label labels v) → edge adj v x → is_art x = true →
    is_Some (label labels x) ∨ x ∈ queue.

(** [labels] adds the label [a] to the vertices of [R] that had none in [labels0]. *)
Record extends (a : VertexId) (R : VertexId → Prop)
    (labels0 labels : VertexData OptionalVertexId) : Prop := {
  ext_length : length labels = length labels0;
  ext_old : ∀ v, is_Some (label labels0 v) → label labels v = label labels0 v;
  ext_new : ∀ v, label labels0 v = None → label labels v = None ∨ label labels v = Some a ∧ R v;
  ext_all : ∀ v, v < length labels0 → R v → is_Some (label labels v);
}.

Lemma extends_refl a (R : VertexId → Prop) labels : (∀ v, ¬ R v) → extends a R labels labels.
Proof. intros HR. split; [done|done|by left|]. intros v _ Hv. by apply HR in Hv. Qed.

Lemma extends_trans a (R1 R2 R : VertexId → Prop) l0 l1 l2 :
  extends a R1 l0 l1 → extends a R2 l1 l2 → (∀ v, R v ↔ R1 v ∨ R2 v) → extends a R l0 l2.
Proof.
  intros [Hl1 Ho1 Hn1 Ha1] [Hl2 Ho2 Hn2 Ha2] HR. split.
  - congruence.
  - intros v Hv. rewrite Ho2; [by apply Ho1|]. by rewrite Ho1.
  - intros v Hv. destruct (Hn1 v Hv) as [E1|[E1 HR1]].
    + destruct (Hn2 v E1) as [?|[? ?]]; [by left|]. right. split; [done|]. apply HR. by right.
    + right. rewrite Ho2 by (by rewrite E1). split; [done|]. apply HR. by left.
  - intros v Hv [HR1|HR2]%HR; [|apply Ha2; [congruence|done]].
    destruct (Ha1 v Hv HR1) as [x Hx]. rewrite Ho2 by (by rewrite Hx). by eexists.
Qed.

Lemma label_insert labels v a x :
  v < length labels → (Z.of_nat a < 2 ^ 31)%Z →
  label (<[v := OptionalVertexId_from a]> labels) x = if decide (x = v) then Some a else label labels x.
Proof.
  intros Hv Ha. unfold label. case_decide as E.
  - subst x. rewrite list_lookup_insert_eq by done. cbn. by apply into_option_from.
  - by rewrite list_lookup_insert_ne.
Qed.

Lemma is_some_label labels v o :
  labels !! v = Some o → OptionalVertexId_is_some o = bool_decide (is_Some (label labels v)).
Proof. intros E. unfold label. rewrite E. cbn. apply is_some_into_option. Qed.

(** ** One traversal *)

Record discovery_inv (a : VertexId) (roots : list VertexId)
    (labels0 labels : VertexData OptionalVertexId) (seen queue : list VertexId) : Prop := {
  dv_ext : extends a (λ v, v ∈ seen ∧ ∃ r, r ∈ roots ∧ art_reach r v) labels0 labels;
  dv_seen : ∀ v, v ∈ seen ↔ is_Some (label labels v);
  dv_closed : closed labels queue;
  dv_queue : ∀ v, v ∈ queue → v < n ∧ ∃ r, r ∈ roots ∧ rtc art_step r v;
  dv_roots : ∀ r, r ∈ roots → is_art r = true → is_Some (label labels r) ∨ r ∈ queue;
}.

Lemma label_step labels0 labels a roots seen queue i :
  a < n → length labels0 = n →
  discovery_inv a roots labels0 labels seen (i :: queue) →
  label labels i = None → is_art i = true →
  discovery_inv a roots labels0 (<[i := OptionalVertexId_from a]> labels) (i :: seen)
    (reverse (adj !!! i) ++ queue).
Proof.
  intros Ha Hlen [[Hl Ho Hn Hall] Hs Hc Hq Hr] Hi Hart.
  destruct (Hq i) as [Hin (r & Hrr & Hri)]; [by left|].
  assert (∀ x, label (<[i := OptionalVertexId_from a]> labels) x =
               if decide (x = i) then Some a else label labels x) as Hlab
    by (intros x; apply label_insert; lia).
  assert (∀ x, edge adj i x ↔ x ∈ adj !!! i) as He.
  { intros x. unfold edge. rewrite (list_lookup_lookup_total_lt adj i) by done. naive_solver. }
  split.
  - split; [by rewrite length_insert| | |].
    + intros v Hv. rewrite Hlab, decide_False; [by apply Ho|]. intros ->. rewrite <- Ho, Hi in Hv by done.
      by destruct Hv.
    + intros v Hv. rewrite Hlab. case_decide as E; [subst v|].
      * right. split; [done|]. split; [by left|]. by exists r.
      * destruct (Hn v Hv) as [?|[? [? ?]]]; [by left|]. right. split; [done|]. split; [by right|done].
    + intros v Hv [Hvs _]. rewrite Hlab. case_decide; [by eexists|].
      apply elem_of_cons in Hvs as [->|Hvs]; [done|by apply Hs].
  - intros v. rewrite Hlab, elem_of_cons, Hs. case_decide; [|naive_solver].
    split; [intros _; by eexists|by left].
  - intros v x Hv Hvx Hx. rewrite Hlab in Hv |- *.
    destruct (decide (x = i)); [by left; eexists|].
    destruct (decide (v = i)) as [->|].
    + right. apply elem_of_app. left. by apply elem_of_reverse, He.
    + destruct (Hc v x Hv Hvx Hx) as [?|[->|?]%elem_of_cons]; [by left|done|].
      right. apply elem_of_app. by right.
  - intros v [Hv|Hv]%elem_of_app; [|by apply Hq; right]. rewrite elem_of_reverse in Hv.
    apply He in Hv. split; [by apply (edge_lt adj i v (bo_adj _ _ _ Hbo))|].
    exists r. split; [done|]. eapply rtc_r; [exact Hri|by split].
  - intros x Hx Hxa. rewrite Hlab. case_decide; [by left; eexists|].
    destruct (Hr x Hx Hxa) as [?|[->|?]%elem_of_cons]; [by left|done|].
    right. apply elem_of_app. by right.
Qed.

Lemma discovery_loop_spec fuel a roots labels0 labels count seen queue :
  a < n → length labels0 = n →
  discovery_inv a roots labels0 labels seen queue →
  length queue + edges_left adj seen ≤ fuel →
  returns (discovery_loop fuel graph keys a (labels, count) queue)
    (λ st, ∃ seen, discovery_inv a roots labels0 st.1 seen []).
Proof.
  intros Ha Hlen. revert labels count seen queue.
  induction fuel as [|fuel IH]; intros labels count seen [|i queue] Hi Hf;
    cbn [discovery_loop]; [by exists seen|cbn in Hf; lia|by exists seen|].
  destruct (dv_queue _ _ _ _ _ _ Hi i) as [Hin _]; [by left|].
  destruct (lookup_lt_is_Some_2 labels i) as [o Ho].
  { rewrite (ext_length _ _ _ _ (dv_ext _ _ _ _ _ _ Hi)). lia. }
  rewrite (VertexData_index_Ok _ _ _ Ho). cbn [mbind outcome_bind].
  rewrite (is_some_label _ _ _ Ho). case_bool_decide as Hlab.
  { apply (IH _ _ seen); [|cbn in Hf; lia]. destruct Hi as [He Hs Hc Hq Hr]. split; [done|done| | |].
    - intros v x Hv Hvx Hx. destruct (Hc v x Hv Hvx Hx) as [?|[->|?]%elem_of_cons];
        [by left|by left|by right].
    - intros v Hv. apply Hq. by right.
    - intros r Hr' Hra. destruct (Hr r Hr' Hra) as [?|[->|?]%elem_of_cons];
        [by left|by left|by right]. }
  rewrite (index_keys keys adj (bo_keys _ _ _ Hbo)) by done. cbn [mbind outcome_bind].
  change (is_artifact_key (key_at keys i)) with (is_art i). destruct (is_art i) eqn:Ei.
  - rewrite VertexData_set_Ok by (by apply lookup_lt_Some in Ho). cbn [mbind outcome_bind].
    rewrite (iter_edges_at adj i) by done. cbn [mbind outcome_bind].
    apply (IH _ _ (i :: seen)).
    + apply (label_step labels0 labels a roots seen queue i Ha Hlen Hi); [|done].
      destruct (label labels i) eqn:E; [|done]. destruct Hlab. by eexists.
    + rewrite length_app, length_reverse. cbn in Hf.
      assert (edges_left adj seen = edges_left adj (i :: seen) + length (adj !!! i)); [|lia].
      apply (unseen_cons (λ v, length (adj !!! v))); [apply NoDup_seq|apply elem_of_seq; lia|].
      by rewrite (dv_seen _ _ _ _ _ _ Hi).
  - apply (IH _ _ seen); [|cbn in Hf; lia]. destruct Hi as [He Hs Hc Hq Hr]. split; [done|done| | |].
    + intros v x Hv Hvx Hx. destruct (Hc v x Hv Hvx Hx) as [?|[->|?]%elem_of_cons];
        [by left|congruence|by right].
    + intros v Hv. apply Hq. by right.
    + intros r Hr' Hra. destruct (Hr r Hr' Hra) as [?|[->|?]%elem_of_cons];
        [by left|congruence|by right].
Qed.

(** ** Artifacts and targets *)

Lemma reach_closed labels u v :
  closed labels [] → rtc art_step u v → is_Some (label labels u) → is_art v = true →
  is_Some (label labels v).
Proof.
  intros Hc Hr Hu Hv. induction Hr as [|u b v [Hua Hub] Hr IH]; [done|]. apply IH; [|done].
  assert (is_art b = true) as Hb by (destruct Hr as [|? ? ? [? _] _]; done).
  destruct (Hc u b Hu Hub Hb) as [|Hx]; [done|]. by apply elem_of_nil in Hx.
Qed.

Lemma artifact_step_spec a labels0 count artifact :
  a < n → length labels0 = n → closed labels0 [] →
  returns (artifact_step graph keys a (labels0, count) artifact) (λ st,
    extends a (λ v, ∃ x, km_get keys artifact = Some x ∧ art_reach x v) labels0 st.1 ∧
    closed st.1 []).
Proof.
  intros Ha Hlen Hc. unfold artifact_step. destruct (km_get keys artifact) as [x|] eqn:Ex.
  2: { split; [|done]. apply extends_refl. by intros v (? & ? & _). }
  set (seen := filter (λ v, is_Some (label labels0 v)) (seq 0 n)).
  assert (∀ v, v ∈ seen ↔ is_Some (label labels0 v)) as Hs.
  { intros v. unfold seen. rewrite list_elem_of_filter, elem_of_seq. split; [tauto|].
    intros Hv. split; [done|]. unfold label in Hv. destruct (labels0 !! v) eqn:E; [|by destruct Hv].
    apply lookup_lt_Some in E. lia. }
  assert (discovery_inv a [x] labels0 labels0 seen [x]) as Hi.
  { split.
    - split; [done|done|by left|]. intros v _ [Hv _]. by apply Hs.
    - done.
    - intros v y Hv Hvy Hy. destruct (Hc v y Hv Hvy Hy) as [?|Hx]; [by left|by apply elem_of_nil in Hx].
    - intros v Hv%list_elem_of_singleton. subst v. split; [by eapply (bo_get _ _ _ Hbo)|].
      exists x. split; [by left|done].
    - intros r Hr _. by right. }
  apply (discovery_loop_spec (discovery_fuel graph) a [x] labels0 labels0 count seen [x] Ha Hlen) in Hi.
  2: { unfold discovery_fuel. cbn [length]. apply le_n_S. cbn [g_edges graph_of].
       rewrite <- (edges_left_nil adj). apply unseen_le. }
  eapply returns_mono; [exact Hi|]. intros st (seen' & [[Hl Ho Hn _] Hs' Hc' _ Hr]). split; [|done].
  split; [done|done| |].
  - intros v Hv. destruct (Hn v Hv) as [?|(? & _ & r & Hrx%list_elem_of_singleton & ?)]; [by left|].
    subst r. right. split; [done|]. by exists x.
  - intros v _ (y & [= <-] & Hxv & Hv). apply (reach_closed st.1 x v); [done|done| |done].
    assert (is_art x = true) as Hx by (destruct Hxv as [|? ? ? [? _] _]; done).
    destruct (Hr x) as [|Hin]; [by left|done|done|by apply elem_of_nil in Hin].
Qed.

(** [v] is reached from an artifact of the target. *)
Definition target_art (t : TopLevelTarget) (v : VertexId) : Prop :=
  ∃ artifact x, artifact ∈ tlt_artifacts t ∧ km_get keys artifact = Some x ∧ art_reach x v.

Lemma artifacts_loop_spec a labels0 count artifacts :
  a < n → length labels0 = n → closed labels0 [] →
  returns (for_each (artifact_step graph keys a) (labels0, count) artifacts) (λ st,
    extends a (λ v, ∃ artifact x, artifact ∈ artifacts ∧ km_get keys artifact = Some x ∧
                                  art_reach x v) labels0 st.1 ∧
    closed st.1 []).
Proof.
  intros Ha. revert labels0 count. induction artifacts as [|b artifacts IH]; intros labels0 count Hlen Hc;
    cbn [for_each].
  { split; [|done]. apply extends_refl. by intros v (? & ? & ?%elem_of_nil & _). }
  eapply returns_bind; [by apply artifact_step_spec|]. intros [labels1 count1] [He1 Hc1].
  cbn [fst] in *. eapply returns_mono.
  { apply IH; [|done]. rewrite (ext_length _ _ _ _ He1). done. }
  intros st [He2 Hc2]. split; [|done]. eapply extends_trans; [exact He1|exact He2|].
  intros v. cbn. split.
  - intros (c & x & [->|Hin]%elem_of_cons & Hx & Hr); [left; by exists x|right; by exists c, x].
  - intros [(x & Hx & Hr)|(c & x & Hin & Hx & Hr)].
    + exists b, x. split; [by left|done].
    + exists c, x. split; [by right|done].
Qed.

(** The target makes [v] known. *)
Definition discovers (t : TopLevelTarget) (v : VertexId) : Prop :=
  is_Some (analysis_of keys (tlt_target t)) ∧ target_art t v.

(** The analysis of the first target that discovers [v]. *)
Definition first_label (ts : list TopLevelTarget) (v : VertexId) (o : option VertexId) : Prop :=
  match o with
  | Some a => ∃ l1 t l2, ts = l1 ++ t :: l2 ∧ analysis_of keys (tlt_target t) = Some a ∧
                         target_art t v ∧ ∀ t', t' ∈ l1 → ¬ discovers t' v
  | None => ∀ t, t ∈ ts → ¬ discovers t v
  end.

Lemma first_label_snoc ts t v o :
  (is_Some o ∨ ¬ discovers t v) → first_label ts v o → first_label (ts ++ [t]) v o.
Proof.
  intros Ht. destruct o as [a|]; cbn.
  - intros (l1 & t' & l2 & -> & ?). exists l1, t', (l2 ++ [t]). by rewrite <- app_assoc.
  - intros Hts t' [Hin|Hin%list_elem_of_singleton]%elem_of_app; [by apply Hts|]. subst t'.
    destruct Ht as [Ht|]; [by destruct Ht|done].
Qed.

Record labels_ok (don : list TopLevelTarget) (labels : VertexData OptionalVertexId) : Prop := {
  lo_length : length labels = n;
  lo_closed : closed labels [];
  lo_label : ∀ v, v < n → first_label don v (label labels v);
}.

Lemma analysis_of_lt t a : analysis_of keys t = Some a → a < n.
Proof.
  unfold analysis_of. destruct (km_get keys (finish_key_of t)) as [k|] eqn:E; intros Hk;
    simplify_eq; by eapply (bo_get _ _ _ Hbo).
Qed.

Lemma target_step_spec don t st :
  labels_ok don st.1 →
  returns (target_step graph keys st t) (λ st, labels_ok (don ++ [t]) st.1).
Proof.
  intros [Hlen Hc Hl]. destruct st as [labels count]. cbn [fst] in *. unfold target_step.
  destruct (analysis_of keys (tlt_target t)) as [a|] eqn:Ea.
  2: { split; [done|done|]. intros v Hv. apply first_label_snoc; [|by apply Hl].
       right. intros [Hx _]. rewrite Ea in Hx. by destruct Hx. }
  eapply returns_mono.
  { apply artifacts_loop_spec; [by eapply analysis_of_lt|done|done]. }
  intros [labels' count'] [[El Ho Hn Hall] Hc']. cbn [fst] in *. split; [congruence|done|].
  intros v Hv. specialize (Hl v Hv). destruct (label labels v) as [b|] eqn:Eb.
  - rewrite Ho, Eb by (by rewrite Eb). apply first_label_snoc; [by left|done].
  - destruct (Hn v Eb) as [E|[E HR]]; rewrite E.
    + apply first_label_snoc; [|done]. right. intros [_ HR].
      destruct (Hall v) as [x Hx]; [lia|done|congruence].
    + cbn. exists don, t, []. by split_and!.
Qed.

(** ** Anonymous targets *)

(** The label of [v] after the edges of anonymous targets. *)
Definition anon_label (edges : list (NodeKey * NodeKey)) (v : VertexId) (o o' : option VertexId) :
    Prop :=
  match o with
  | Some _ => o' = o
  | None =>
      match o' with
      | Some a => ∃ e, e ∈ edges ∧ km_get keys e.1 = Some v ∧ km_get keys e.2 = Some a
      | None => ∀ e, e ∈ edges → km_get keys e.1 = Some v → km_get keys e.2 = None
      end
  end.

Lemma anon_loop_spec edges labels0 count :
  length labels0 = n →
  returns (for_each (anon_step keys) (labels0, count) edges) (λ st,
    length st.1 = n ∧ ∀ v, v < n → anon_label edges v (label labels0 v) (label st.1 v)).
Proof.
  intros Hlen. eapply returns_mono; [apply (for_each_inv (anon_step keys) (λ don st,
    length st.1 = n ∧ ∀ v, v < n → anon_label don v (label labels0 v) (label st.1 v)))|].
  - split; [done|]. cbn [fst]. intros v _. unfold anon_label. destruct (label labels0 v); [done|].
    by intros e He%elem_of_nil.
  - intros don [k1 k2] rest [labels c] _ [Hl Hv]. cbn [fst] in *. unfold anon_step. cbn [fst snd].
    assert ((∀ v, km_get keys k1 = Some v → is_Some (label labels v) ∨ km_get keys k2 = None) →
      ∀ v, v < n → anon_label (don ++ [(k1, k2)]) v (label labels0 v) (label labels v)) as Hskip.
    { intros Hs v Hvn. specialize (Hv v Hvn). unfold anon_label in *.
      destruct (label labels0 v); [done|]. destruct (label labels v) eqn:E.
      - destruct Hv as (e & ? & ?). exists e. split; [by apply elem_of_app; left|done].
      - intros e [He|He%list_elem_of_singleton]%elem_of_app Hk; [by apply Hv|]. subst e. cbn in *.
        destruct (Hs v Hk) as [Hx|]; [|done]. rewrite E in Hx. by destruct Hx. }
    destruct (km_get keys k1) as [u|] eqn:E1; [|split; [done|by apply Hskip]].
    destruct (km_get keys k2) as [a|] eqn:E2; [|split; [done|apply Hskip; by right]].
    pose proof (bo_get _ _ _ Hbo _ _ E1) as Hu. pose proof (bo_get _ _ _ Hbo _ _ E2) as Ha.
    destruct (lookup_lt_is_Some_2 labels u ltac:(lia)) as [o Ho].
    rewrite (VertexData_index_Ok _ _ _ Ho). cbn [mbind outcome_bind].
    rewrite (is_some_label _ _ _ Ho). case_bool_decide as Hlab.
    { split; [done|]. apply Hskip. intros v [= <-]. by left. }
    rewrite VertexData_set_Ok by lia. cbn. split; [by rewrite length_insert|].
    intros v Hvn. rewrite label_insert by lia. destruct (decide (v = u)) as [->|Hne].
    + assert (label labels u = None) as En.
      { destruct (label labels u); [|done]. destruct Hlab. by eexists. }
      specialize (Hv u Hvn). rewrite En in Hv. unfold anon_label in *.
      destruct (label labels0 u); [done|]. exists (k1, k2).
      split; [apply elem_of_app; right; by left|done].
    + specialize (Hv v Hvn). unfold anon_label in *. destruct (label labels0 v); [done|].
      destruct (label labels v).
      * destruct Hv as (e & ? & ?). exists e. split; [by apply elem_of_app; left|done].
      * intros e [He|He%list_elem_of_singleton]%elem_of_app Hk; [by apply Hv|]. subst e. cbn in Hk.
        congruence.
  - done.
Qed.

(** The labels of the whole. *)
Definition discovery_label (ts : list TopLevelTarget) (edges : list (NodeKey * NodeKey))
    (v : VertexId) (o : option VertexId) : Prop :=
  ∃ o0, first_label ts v o0 ∧ anon_label edges v o0 o.

Lemma first_analyses_spec ts edges :
  ∃ labels, first_analyses graph keys ts edges = Ok labels ∧ length labels = n ∧
    ∀ v, v < n → discovery_label ts edges v (label labels v) ∧
                 ∀ a, label labels v = Some a → a < n.
Proof.
  enough (returns (first_analyses graph keys ts edges) (λ labels, length labels = n ∧
    ∀ v, v < n → discovery_label ts edges v (label labels v))) as Hr.
  { apply returns_Ok in Hr as (labels & -> & Hlen & Hl). exists labels. split_and!; [done..|].
    intros v Hv. split; [by apply Hl|]. intros a Ha. destruct (Hl v Hv) as (o0 & Hf & Han).
    unfold anon_label in Han. rewrite Ha in Han. destruct o0 as [b|].
    - injection Han as <-. destruct Hf as (? & t & ? & _ & Hat & _). by eapply analysis_of_lt.
    - destruct Han as (e & _ & _ & Hk). by eapply (bo_get _ _ _ Hbo). }
  unfold first_analyses. eapply returns_bind.
  { apply (for_each_inv _ (λ don st, labels_ok don st.1)).
    - unfold Graph_allocate_vertex_data, graph_of. cbn [g_vertices fst]. rewrite layout_length.
      assert (∀ v, label (replicate n OptionalVertexId_none) v = None) as Hnone.
      { intros v. unfold label. destruct (_ !! v) eqn:E; [|done].
        apply lookup_replicate in E as [-> _]. done. }
      split; [apply length_replicate| |].
      + intros v x Hv. rewrite Hnone in Hv. by destruct Hv.
      + intros v _. rewrite Hnone. by intros t Ht%elem_of_nil.
    - intros don t rest st _. apply target_step_spec. }
  intros [labels0 count] [Hlen _ Hl]. cbn [fst] in *.
  eapply returns_bind; [by apply (anon_loop_spec edges)|].
  intros [labels c] [Hlen' Hl']. cbn [fst returns] in *. split; [done|].
  intros v Hv. exists (label labels0 v). split; [by apply Hl|by apply Hl'].
Qed.
End Discovery.
