(* ===== verification/SignalFinish.v ===== *)
(** What the backend of [SignalPaths] reports at the end of a build: the slowest path, the
    critical path of the graph with the improvement each of its nodes allows, and the whole of
    [finish], which computes them on the graph with the discovery edges. *)
From S2P Require Import Prelude.
From S2P Require Import TimeSpan.
From S2P Require Import CritGraph.
From S2P Require Import CritTopo.
From S2P Require Import CritPaths.
From S2P Require Import CritPotential.
From S2P Require Import CritCorrect.
From S2P Require Import SignalNodes.
From S2P Require Import SignalWork.
From S2P Require Import SignalChains.
From S2P Require Import SignalWorkSpec.
From S2P Require Import SignalPaths.
From S2P Require Import SignalDiscovery.
From S2P Require Import SignalExample.
From stdpp Require Import strings pretty.
Local Open Scope dice_scope.

Section Finish.
Context `{SO : SignalOps} {M : Type} `{KM : KeyMap NodeKey M}.
Context (adj : list (list VertexId)) (keys : M) (data : VertexData NodeData).

Local Notation n := (length adj).
Local Notation graph := (graph_of adj).

Context (Hbo : backend_ok adj keys data).

Local Notation end_of v := (ts_end (span_of data v)).

Lemma data_at v : v < n → VertexData_index data v = Ok (data !!! v).
Proof. apply index_data. apply (bo_data _ _ _ Hbo). Qed.

Lemma key_index_at v : v < n → VertexKeys_index keys v = Ok (key_at keys v).
Proof. apply index_keys. apply (bo_keys _ _ _ Hbo). Qed.

(** * The slowest path *)

(** [d] is the first of those of [ds] that end last. *)
Definition last_ending (ds : list VertexId) (d : VertexId) : Prop :=
  ∃ l1 l2, ds = l1 ++ d :: l2 ∧ (∀ x, x ∈ l1 → (end_of x < end_of d)%Z) ∧
           ∀ x, x ∈ l2 → (end_of x <= end_of d)%Z.

Lemma latest_spec ds :
  Forall (λ v, v < n) ds →
  returns (latest data ds) (λ o,
    match o with None => ds = [] | Some (e, d) => e = end_of d ∧ last_ending ds d end).
Proof.
  intros Hds. apply (for_each_inv (latest_step data)
    (λ ds o, match o with None => ds = [] | Some (e, d) => e = end_of d ∧ last_ending ds d end)).
  { done. }
  intros don d rest o -> Ho. unfold latest_step.
  rewrite data_at by (rewrite Forall_forall in Hds; apply Hds; set_solver). cbn [mbind outcome_bind].
  change (TimeSpan_end (nd_total (nda_duration (data !!! d)))) with (end_of d).
  destruct o as [[e p]|]; cbn.
  - destruct Ho as [-> (l1 & l2 & -> & H1 & H2)]. destruct (Z.ltb_spec (end_of p) (end_of d)).
    + split; [done|]. exists (l1 ++ p :: l2), []. split; [done|]. split; [|by intros x ?%elem_of_nil].
      intros x [Hx|[->|Hx]%elem_of_cons]%elem_of_app; [|done|].
      * specialize (H1 x Hx). lia.
      * specialize (H2 x Hx). lia.
    + split; [done|]. exists l1, (l2 ++ [d]). rewrite <- app_assoc. split; [done|]. split; [done|].
      intros x [Hx|Hx%list_elem_of_singleton]%elem_of_app; [by apply H2|]. by subst x.
  - subst don. split; [done|]. exists [], []. split; [done|]. split; by intros x ?%elem_of_nil.
Qed.

(** The end of the latest is the maximum. *)
Lemma last_ending_max ds d : last_ending ds d → iter_max Z.leb ((λ x, end_of x) <$> ds) = Some (end_of d).
Proof.
  clear Hbo. intros (l1 & l2 & -> & H1 & H2). destruct (iter_max _ _) as [m|] eqn:E.
  - apply iter_max_Z in E as [Hin Hmax]. f_equal. apply Z.le_antisymm.
    + apply list_elem_of_fmap in Hin as (x & -> & [Hx|[->|Hx]%elem_of_cons]%elem_of_app); [|done|].
      * specialize (H1 x Hx). lia.
      * by apply H2.
    + apply Hmax, list_elem_of_fmap. exists d. split; [done|set_solver].
  - apply iter_max_None in E. apply fmap_nil_inv in E. by destruct l1.
Qed.

(** From [v], each time the first of the dependencies that end last, to a vertex without
    dependencies. *)
Fixpoint slow_chain (v : VertexId) (l : list VertexId) : Prop :=
  match l with
  | [] => adj !! v = Some []
  | p :: l => (∃ es, adj !! v = Some es ∧ last_ending es p) ∧ slow_chain p l
  end.

Definition slow_entry (v : VertexId) : DetailedCriticalPathEntry :=
  mkDetailedCriticalPathEntry (key_at keys v) (data !!! v) None
    (iter_max Z.leb ((λ x, end_of x) <$> (adj !!! v))) None.

Definition is_cycle_error (e : CriticalPathError) : Prop := ∃ message, e = CycleDetected message.

Lemma last_ending_in ds d : last_ending ds d → d ∈ ds.
Proof. intros (l1 & l2 & -> & _). set_solver. Qed.

Lemma slowest_loop_spec fuel vis path v :
  v < n → is_walk adj (reverse (v :: vis)) → NoDup vis → Forall (λ v, v < n) vis →
  n < length vis + fuel →
  returns (slowest_loop fuel graph keys data (list_to_set vis) path (Some v)) (λ r,
    match r with
    | inl path' => ∃ l, slow_chain v l ∧ path' = path ++ (slow_entry <$> v :: l)
    | inr e => cyclic adj ∧ is_cycle_error e
    end).
Proof.
  revert vis path v. induction fuel as [|fuel IH]; intros vis path v Hv Hw Hnd Hlt Hf;
    pose proof (nodup_lt_length vis n Hnd Hlt); [lia|]. cbn [slowest_loop].
  destruct (decide _) as [Hin|Hin]; rewrite elem_of_list_to_set in Hin.
  { unfold format_slowest_path_cycle_error. rewrite key_index_at by done. cbn.
    split; [by eapply visiting_cycle|by eexists]. }
  rewrite (iter_edges_at adj v) by done. cbn [mbind outcome_bind].
  assert (Forall (λ v, v < n) (adj !!! v)) as Htg.
  { apply Forall_forall. intros x. by apply (targets_at adj keys data Hbo). }
  destruct (proj1 (returns_Ok _ _) (latest_spec _ Htg)) as (o & -> & Ho). cbn [mbind outcome_bind].
  rewrite key_index_at by done. cbn [mbind outcome_bind]. rewrite data_at by done.
  cbn [mbind outcome_bind]. destruct o as [[e p]|].
  - destruct Ho as [-> Hp]. pose proof (last_ending_in _ _ Hp) as Hpin.
    assert (edge adj v p) as He.
    { exists (adj !!! v). split; [by apply list_lookup_lookup_total_lt|done]. }
    change ({[v]} ∪ list_to_set vis) with (list_to_set (C := gset VertexId) (v :: vis)).
    eapply returns_mono; [apply (IH (v :: vis))|].
    + by apply (targets_at adj keys data Hbo v).
    + rewrite reverse_cons. rewrite reverse_cons in Hw |- *. rewrite <- app_assoc. cbn [app].
      apply is_walk_app. split; [done|by split].
    + by constructor.
    + by constructor.
    + cbn. lia.
    + intros [path'|e]; [|done]. intros (l & Hl & ->). exists (p :: l). split.
      * split; [|done]. exists (adj !!! v). split; [by apply list_lookup_lookup_total_lt|done].
      * assert (slow_entry v = mkDetailedCriticalPathEntry (key_at keys v) (data !!! v) None
          (Some (end_of p)) None) as Ev by (unfold slow_entry; by rewrite (last_ending_max _ _ Hp)).
        rewrite <- app_assoc. cbn [app]. rewrite (fmap_cons slow_entry v (p :: l)), Ev. done.
  - destruct fuel; cbn; exists []; cbn; unfold slow_entry; rewrite Ho;
      (split; [rewrite <- Ho; by apply list_lookup_lookup_total_lt|done]).
Qed.

(** The slowest path of a graph. *)
Definition slowest_result (r : DetailedCriticalPath + CriticalPathError) : Prop :=
  match r with
  | inr e => cyclic adj ∧ is_cycle_error e
  | inl path =>
      if decide (adj = []) then path = DetailedCriticalPath_empty else
      ∃ v l, last_ending (seq 0 n) v ∧ slow_chain v l ∧
        path = mkDetailedCriticalPath (reverse (slow_entry <$> v :: l))
  end.

Lemma slowest_spec :
  ∃ r, compute_slowest_paths graph keys data = Ok r ∧ slowest_result r.
Proof.
  unfold compute_slowest_paths. rewrite iter_vertices_of by apply (bo_adj _ _ _ Hbo).
  cbn [mbind outcome_bind]. assert (Forall (λ v, v < n) (seq 0 n)) as Hseq.
  { apply Forall_forall. intros x Hx%elem_of_seq. lia. }
  destruct (proj1 (returns_Ok _ _) (latest_spec _ Hseq)) as (o & -> & Ho). cbn [mbind outcome_bind].
  unfold Graph_vertices_count, graph_of. cbn [g_vertices]. rewrite layout_length.
  destruct o as [[e v]|].
  - destruct Ho as [-> Hv]. assert (v < n) as Hlt.
    { apply last_ending_in, elem_of_seq in Hv. lia. }
    pose proof (slowest_loop_spec (S n) [] [] v Hlt) as Hloop.
    apply returns_Ok in Hloop as (r & Hr & Hres); [|done|constructor|constructor|cbn; lia].
    change (list_to_set []) with (∅ : gset VertexId) in Hr. unfold graph_of in Hr.
    cbn [fmap option_fmap option_map snd]. rewrite Hr. cbn [mbind outcome_bind].
    destruct r as [path|e]; [|by eexists]. eexists. split; [done|]. cbn.
    rewrite decide_False by (intros E; rewrite E in Hlt; cbn in Hlt; lia).
    destruct Hres as (l & Hl & ->). by exists v, l.
  - assert (adj = []) as En by (destruct adj; [done|by cbn in Ho]).
    eexists. split; [done|]. cbn. by rewrite decide_True.
Qed.

(** * The critical path of the graph *)

Section Critical.
Context (weights : VertexData N) (Hw : length weights = n).
Context (Hov : acyclic adj → no_overflow adj weights) (Hfit : (Z.of_nat n <= 2 ^ 31)%Z).

(** The entry of a vertex that, if it took no time, would leave a path of cost [cost]. *)
Definition critical_entry (crit : PathCost) (v : VertexId) (cost : PathCost) :
    DetailedCriticalPathEntry :=
  mkDetailedCriticalPathEntry (key_at keys v) (data !!! v)
    (Some (Duration_from_micros (pc_runtime crit - pc_runtime cost)))
    (iter_max Z.leb ((λ x, end_of x) <$> (adj !!! v))) None.

(** Without the time of a vertex [c] on it, a longest path costs less by at most that time. *)
Lemma replacement_bounds crit cost path c :
  acyclic adj → critical_cost adj weights crit →
  is_walk adj (reverse path) → walk_cost weights path = crit → c ∈ path → c < n →
  critical_cost adj (<[c := 0%N]> weights) cost →
  (pc_runtime cost <= pc_runtime crit <= pc_runtime cost + weights !!! c)%N.
Proof.
  intros Ha [_ Hmax] Hwalk Hcost Hc Hcn [(u & l & Hu & Hl & <-) Hmax']. split.
  - specialize (Hmax u l Hu Hl). apply (walk_nodup adj _ Ha) in Hl.
    destruct (decide (c ∈ u :: l)) as [Hin|Hin].
    + rewrite (walk_cost_drop_in weights c (u :: l)) in Hmax by (done || lia).
      unfold cost_le, cost_plus in Hmax. cbn [pc_runtime pc_len] in Hmax. lia.
    + rewrite walk_cost_drop_notin by done. unfold cost_le in Hmax. lia.
  - assert (NoDup path) as Hnd.
    { rewrite <- (reverse_Permutation path). by apply (walk_nodup adj). }
    pose proof (reverse_Permutation path) as Hp.
    destruct (reverse path) as [|u' l'] eqn:E; [by apply Permutation_nil_l in Hp; subst path; apply elem_of_nil in Hc|].
    assert (u' < n) as Hu'.
    { destruct (decide (u' = c)) as [->|Hne]; [done|]. destruct l' as [|x l'].
      - apply Permutation_singleton_l in Hp. subst path. apply list_elem_of_singleton in Hc. congruence.
      - by apply (edge_lt adj u' x (bo_adj _ _ _ Hbo)), Hwalk. }
    specialize (Hmax' u' l' Hu' Hwalk). rewrite (walk_cost_perm _ _ _ Hp) in Hmax'.
    rewrite <- Hcost, (walk_cost_drop_in weights c path) by (done || lia).
    unfold cost_le in Hmax'. unfold cost_plus. cbn [pc_runtime]. lia.
Qed.

(** The duration of a target: the greatest cost of a longest path from its artifacts, if all of
    them are in the graph and there is one. *)
Definition target_critical (t : TopLevelTarget) (o : option Duration) : Prop :=
  match o with
  | Some d => ∃ c,
      d = Duration_from_micros (pc_runtime c) ∧
      (∃ a v, a ∈ tlt_artifacts t ∧ km_get keys a = Some v ∧ longest adj weights v c) ∧
      ∀ a, a ∈ tlt_artifacts t → ∃ v c', km_get keys a = Some v ∧ longest adj weights v c' ∧ cost_le c' c
  | None => tlt_artifacts t = [] ∨ ∃ a, a ∈ tlt_artifacts t ∧ km_get keys a = None
  end.

Lemma artifact_costs_spec accessor artifacts :
  (∀ v, v < n → ∃ cost path, critical_path_for_vertex accessor v = Ok (Some (cost, path)) ∧
                             longest adj weights v cost) →
  returns (artifact_costs keys accessor artifacts) (λ o,
    match o with
    | Some costs => Forall2 (λ a c, ∃ v, km_get keys a = Some v ∧ longest adj weights v c)
                      artifacts costs
    | None => ∃ a, a ∈ artifacts ∧ km_get keys a = None
    end).
Proof.
  intros Hacc. induction artifacts as [|a artifacts IH]; cbn [artifact_costs]; [constructor|].
  destruct (km_get keys a) as [v|] eqn:Ea; [|exists a; split; [by left|done]].
  destruct (Hacc v) as (cost & path & -> & Hl); [by eapply (bo_get _ _ _ Hbo)|].
  cbn [mbind outcome_bind]. eapply returns_bind; [exact IH|]. intros [costs|].
  - intros Hf. cbn. constructor; [by exists v|done].
  - intros (b & Hb & ?). exists b. split; [by right|done].
Qed.

Lemma max_path_cost_spec costs c :
  max_path_cost costs = Some c → c ∈ costs ∧ ∀ x, x ∈ costs → cost_le x c.
Proof.
  assert (∀ a b, negb (PathCost_lt b a) = true ↔ cost_le a b) as Hle.
  { intros a b. rewrite negb_true_iff. apply PathCost_lt_false. }
  intros E. apply iter_max_spec in E as [Hin Hmax].
  - split; [done|]. intros x Hx. by apply Hle, Hmax.
  - intros x y. rewrite !Hle. apply cost_le_total.
  - intros x y z. rewrite !Hle. by etrans.
Qed.

Lemma target_critical_spec accessor t :
  (∀ v, v < n → ∃ cost path, critical_path_for_vertex accessor v = Ok (Some (cost, path)) ∧
                             longest adj weights v cost) →
  ∃ o, target_critical t o ∧
    target_critical_path keys accessor t = Ok ((λ d, (tlt_target t, d)) <$> o).
Proof.
  intros Hacc. unfold target_critical_path.
  pose proof (artifact_costs_spec accessor (tlt_artifacts t) Hacc) as (o & -> & Ho)%returns_Ok.
  cbn [mbind outcome_bind]. destruct o as [costs|]; cbn [option_bind mbind].
  2: { exists None. split; [by right|done]. }
  destruct (max_path_cost costs) as [c|] eqn:E.
  - apply max_path_cost_spec in E as [Hin Hmax]. exists (Some (Duration_from_micros (pc_runtime c))).
    split; [|done]. exists c. split; [done|]. split.
    + apply list_elem_of_lookup in Hin as [i Hi].
      destruct (Forall2_lookup_r _ _ _ _ _ Ho Hi) as (a & Ha & v & ? & ?).
      exists a, v. split; [by eapply list_elem_of_lookup_2|done].
    + intros a [i Hi]%list_elem_of_lookup.
      destruct (Forall2_lookup_l _ _ _ _ _ Ho Hi) as (c' & Hc' & v & ? & ?).
      exists v, c'. split_and!; [done..|]. apply Hmax. by eapply list_elem_of_lookup_2.
  - exists None. split; [|done]. left. unfold max_path_cost in E. apply iter_max_None in E. subst.
    by inversion Ho.
Qed.

(** What may be returned. *)
Definition critical_result (ts : list TopLevelTarget)
    (r : DetailedCriticalPath * list (ConfiguredTargetLabel * Duration) + CriticalPathError) :
    Prop :=
  match r with
  | inr e => cyclic adj ∧ is_cycle_error e
  | inl (path, durations) =>
      acyclic adj ∧
      (∃ cp crit costs,
         is_walk adj (reverse cp) ∧ Forall (λ v, v < n) cp ∧ walk_cost weights cp = crit ∧
         (if decide (adj = []) then cp = [] else critical_cost adj weights crit) ∧
         path = mkDetailedCriticalPath (zip_with (critical_entry crit) cp costs) ∧
         length costs = length cp ∧
         ∀ i v cost, cp !! i = Some v → costs !! i = Some cost →
           critical_cost adj (<[v := 0%N]> weights) cost ∧
           (pc_runtime cost <= pc_runtime crit <= pc_runtime cost + weights !!! v)%N) ∧
      ∃ ds, Forall2 target_critical ts ds ∧
        durations = omap (λ td, (λ d, (tlt_target td.1, d)) <$> td.2) (zip ts ds)
  end.

Lemma target_criticals_spec accessor ts :
  (∀ v, v < n → ∃ cost path, critical_path_for_vertex accessor v = Ok (Some (cost, path)) ∧
                             longest adj weights v cost) →
  ∃ ds, Forall2 target_critical ts ds ∧
    filter_map_outcome (target_critical_path keys accessor) ts =
    Ok (omap (λ td, (λ d, (tlt_target td.1, d)) <$> td.2) (zip ts ds)).
Proof.
  intros Hacc. induction ts as [|t ts (ds & Hds & IH)]; [by exists []|]. cbn [filter_map_outcome].
  destruct (target_critical_spec accessor t Hacc) as (d & Hd & ->). rewrite IH.
  exists (d :: ds). split; [by constructor|]. by destruct d.
Qed.

Lemma critical_entry_spec crit costs i v cost :
  v < n → costs !! i = Some cost → (pc_runtime cost <= pc_runtime crit)%N →
  (pc_runtime crit < 2 ^ 64)%N →
  SignalPaths.critical_path_entry graph keys data crit costs (i, v) = Ok (critical_entry crit v cost).
Proof.
  intros Hv Hc Hle Hlt. unfold SignalPaths.critical_path_entry, critical_entry.
  rewrite key_index_at by done. cbn [mbind outcome_bind]. rewrite data_at by done.
  cbn [mbind outcome_bind]. rewrite (iter_edges_at adj v) by done. cbn [mbind outcome_bind].
  rewrite (map_outcome_Ok _ (λ x, end_of x)).
  - cbn [mbind outcome_bind]. rewrite (VertexData_index_Ok _ _ _ Hc). cbn [mbind outcome_bind].
    by rewrite u64_sub_exact.
  - intros x Hx. by rewrite data_at by (by apply (targets_at adj keys data Hbo v)).
Qed.

Lemma topo_error_spec j mid :
  is_walk adj (j :: mid ++ [j]) →
  returns (format_topo_sort_cycle_error (Cycle (j :: mid ++ [j])) keys) is_cycle_error.
Proof.
  intros Hwalk. unfold format_topo_sort_cycle_error.
  assert (j < n) as Hj.
  { destruct mid as [|x mid]; cbn in Hwalk; destruct Hwalk as [He _];
      by apply (edge_lt adj _ _ (bo_adj _ _ _ Hbo)) in He as [? _]. }
  pose proof (walk_lt adj j (mid ++ [j]) (bo_adj _ _ _ Hbo) Hj Hwalk) as Hlt.
  rewrite (map_outcome_Ok _ (key_at keys)).
  - cbn. by eexists.
  - intros x Hx. apply key_index_at. by eapply Forall_forall in Hlt.
Qed.

Lemma map_entries_spec crit costs cp k :
  Forall (λ v, v < n) cp → (pc_runtime crit < 2 ^ 64)%N →
  (∀ i v, cp !! i = Some v → ∃ cost, costs !! (k + i) = Some cost ∧
                                     (pc_runtime cost <= pc_runtime crit)%N) →
  map_outcome (SignalPaths.critical_path_entry graph keys data crit costs)
    (imap (λ i v, (k + i, v)) cp) = Ok (zip_with (critical_entry crit) cp (drop k costs)).
Proof.
  intros Hlt Hcrit. revert k. induction cp as [|v cp IH]; intros k Hc; [done|].
  apply Forall_cons in Hlt as [Hv Hlt]. cbn [imap map_outcome].
  destruct (Hc 0 v eq_refl) as (cost & Hcost & Hle). rewrite Nat.add_0_r in *.
  rewrite (critical_entry_spec crit costs k v cost) by done. cbn [mbind outcome_bind].
  rewrite (drop_S costs cost k) by done. cbn [zip_with].
  replace (imap ((λ i v0, (k + i, v0)) ∘ S) cp) with (imap (λ i v0, (S k + i, v0)) cp)
    by (apply imap_ext; intros i x _; cbn; f_equal; lia).
  rewrite (IH Hlt (S k)); [done|]. intros i x Hi. destruct (Hc (S i) x Hi) as (c' & Hc' & ?).
  exists c'. by rewrite Nat.add_succ_r in Hc'.
Qed.

Lemma critical_spec ts :
  ∃ r, compute_critical_paths graph keys data weights ts = Ok r ∧ critical_result ts r.
Proof.
  unfold compute_critical_paths.
  destruct (potentials_spec adj weights (bo_adj _ _ _ Hbo) Hw Hov Hfit) as (r & -> & Hr).
  cbn [mbind outcome_bind]. destruct r as [[cp crit updated accessor]|[c]]; cbn in Hr.
  2: { destruct Hr as (_ & j & mid & -> & _ & Hwalk).
       pose proof (topo_error_spec j mid Hwalk) as (e & -> & He)%returns_Ok.
       eexists. split; [done|]. split; [by exists j, mid|done]. }
  destruct Hr as (Ha & Hwalk & Hcost & Hlt & Hcrit & Hlen & Hupd & Hacc).
  cbn [pot_accessor pot_critical_path_cost pot_updated_critical_path_cost pot_critical_path].
  destruct (target_criticals_spec accessor ts) as (ds & Hds & ->).
  { intros v Hv. destruct (Hacc v Hv) as (cost & path & ? & ? & _). by exists cost, path. }
  cbn [mbind outcome_bind].
  assert (∀ i v, cp !! i = Some v → ∃ cost, updated !! i = Some cost ∧
    critical_cost adj (<[v := 0%N]> weights) cost ∧
    (pc_runtime cost <= pc_runtime crit <= pc_runtime cost + weights !!! v)%N) as Hb.
  { intros i v Hi. destruct (Hupd i v Hi) as (cost & Hc & Hcc). exists cost.
    assert (v < n) as Hv by (by eapply Forall_lookup_1 in Hlt).
    rewrite decide_False in Hcrit by (intros En; rewrite En in Hv; cbn in Hv; lia).
    split_and!; [done|done|..]; apply (replacement_bounds crit cost cp v Ha Hcrit Hwalk Hcost);
      try done; by eapply list_elem_of_lookup_2. }
  assert (pc_runtime crit < 2 ^ 64)%N as Hcrit64.
  { rewrite <- Hcost, <- (walk_cost_perm _ _ _ (reverse_Permutation cp)). by apply (Hov Ha). }
  change (enumerate cp) with (imap (λ i v, (0 + i, v)) cp).
  rewrite (map_entries_spec crit updated cp 0 Hlt Hcrit64).
  2: { intros i v Hi. destruct (Hb i v Hi) as (cost & Hc & _ & ? & _). by exists cost. }
  cbn [mbind outcome_bind]. rewrite drop_0. eexists. split; [done|]. unfold critical_result.
  split; [done|]. split; [|by exists ds]. exists cp, crit, updated. split_and!; [done..|].
  intros i v cost Hi Hc. destruct (Hb i v Hi) as (cost' & Hc' & ? & ?). by simplify_eq.
Qed.

End Critical.
End Finish.

(** * Properties *)

(** Each entry carries the end of the one before it as the time its dependencies finished. *)
Fixpoint linked (prev : option Instant) `{SignalOps} (l : list DetailedCriticalPathEntry) : Prop :=
  match l with
  | [] => True
  | e :: l => de_deps_finished_time e = prev ∧
              linked (Some (ts_end (nd_total (nda_duration (de_data e))))) l
  end.

Lemma linked_snoc `{SignalOps} prev l x y :
  linked prev (l ++ [x]) →
  de_deps_finished_time y = Some (ts_end (nd_total (nda_duration (de_data x)))) →
  linked prev ((l ++ [x]) ++ [y]).
Proof.
  revert prev. induction l as [|z l IH]; intros prev; cbn.
  - intros [? _] ?. done.
  - intros [? Hl] Hy. split; [done|]. by apply IH.
Qed.

Lemma slow_chain_linked `{SO : SignalOps} {M : Type} `{KM : KeyMap NodeKey M} adj (keys : M) data v l :
  slow_chain adj data v l → linked None (reverse (slow_entry adj keys data <$> v :: l)).
Proof.
  revert v. induction l as [|p l IH]; intros v; cbn [slow_chain].
  - intros Hv. cbn. split; [|done]. by rewrite (list_lookup_total_correct _ _ _ Hv).
  - intros [(es & Hv & Hp) Hl]. rewrite fmap_cons, reverse_cons.
    rewrite fmap_cons, reverse_cons. apply linked_snoc.
    + rewrite <- reverse_cons, <- fmap_cons. by apply IH.
    + unfold slow_entry at 1. cbn [de_deps_finished_time].
      rewrite (list_lookup_total_correct _ _ _ Hv), (last_ending_max _ _ _ Hp). done.
Qed.

(** For the graph, keys and data of a finished builder, the slowest path is computed without a
    panic: from the first of the vertices that end last, each time to the first of the
    dependencies that end last, down to a vertex without dependencies; only a cycle of the graph
    is an error.  Listed from its first node, each entry after the first records the end of the
    one before it as the time its dependencies finished. *)
Theorem slowest_path_correct `{SO : SignalOps} {M : Type} `{KM : KeyMap NodeKey M} adj (keys : M)
    data (Hbo : backend_ok adj keys data) :
  ∃ r, compute_slowest_paths (graph_of adj) keys data = Ok r ∧
    slowest_result adj keys data r ∧
    ∀ path, r = inl path → linked None (dcp_entries path).
Proof.
  destruct (slowest_spec adj keys data Hbo) as (r & Hr & Hs). exists r. split_and!; [done..|].
  intros path ->. cbn in Hs. case_decide; [by subst path|]. destruct Hs as (v & l & _ & Hl & ->).
  by apply slow_chain_linked.
Qed.

Lemma slowest_path_correct_witness :
  ∃ path, compute_slowest_paths (graph_of example_adj) example_keys example_data = Ok (inl path) ∧
    linked None (dcp_entries path) ∧ length (dcp_entries path) = 3.
Proof.
  destruct (slowest_path_correct _ _ _ example_backend_ok) as (r & Hr & _ & Hl).
  vm_compute in Hr. injection Hr as <-.
  eexists. split; [vm_compute; reflexivity|]. split; [by apply Hl|done].
Defined.

Section End.
Context `{SO : SignalOps} {M : Type} `{KM : KeyMap NodeKey M}.
Context (adj : list (list VertexId)) (keys : M) (data : VertexData NodeData).

Local Notation n := (length adj).

(** The graph with the discovery edges. *)
Definition discovered (labels : VertexData OptionalVertexId) : list (list VertexId) :=
  zip_with (++) adj (optional_edges labels).

Lemma discovered_edge labels u v :
  length labels = n →
  edge (discovered labels) u v ↔ edge adj u v ∨ u < n ∧ label labels u = Some v.
Proof.
  intros Hlen. unfold discovered, edge, optional_edges, label. split.
  - intros (es & Hl & Hin). apply lookup_zip_with_Some in Hl as (x & y & -> & Hx & Hy).
    rewrite list_lookup_fmap in Hy. destruct (labels !! u) as [o|] eqn:Eo; [|done].
    injection Hy as <-. apply elem_of_app in Hin as [Hin|Hin]; [left; by exists x|right].
    split; [by apply lookup_lt_Some in Hx|]. cbn.
    destruct (OptionalVertexId_into_option o); cbn in Hin; [|by apply elem_of_nil in Hin].
    apply list_elem_of_singleton in Hin. by subst v.
  - intros [(es & Hl & Hin)|[Hu Hlab]].
    + destruct (lookup_lt_is_Some_2 labels u) as [o Ho]; [apply lookup_lt_Some in Hl; lia|].
      eexists. split; [apply lookup_zip_with_Some; eexists _, _; split_and!; [done|done|]|].
      * by rewrite list_lookup_fmap, Ho.
      * apply elem_of_app. by left.
    + destruct (lookup_lt_is_Some_2 adj u Hu) as [es Hes].
      destruct (labels !! u) as [o|] eqn:Ho; [|done]. cbn in Hlab.
      eexists. split; [apply lookup_zip_with_Some; eexists _, _; split_and!; [done|done|]|].
      * by rewrite list_lookup_fmap, Ho.
      * apply elem_of_app. right. cbn. rewrite Hlab. by left.
Qed.

Lemma optional_edges_concat labels : length (concat (optional_edges labels)) ≤ length labels.
Proof.
  induction labels as [|o labels IH]; [done|].
  change (optional_edges (o :: labels))
    with (option_list (OptionalVertexId_into_option o) :: optional_edges labels).
  cbn [concat]. rewrite length_app.
  assert (length (option_list (OptionalVertexId_into_option o)) ≤ 1)
    by (destruct (OptionalVertexId_into_option o); cbn; lia).
  change (length (o :: labels)) with (S (length labels)). lia.
Qed.

Lemma zip_app_concat (l k : list (list VertexId)) :
  length l = length k →
  length (concat (zip_with (++) l k)) = length (concat l) + length (concat k).
Proof.
  revert k. induction l as [|x l IH]; intros [|y k]; cbn; [done..|]. intros [= E].
  rewrite !length_app, (IH k E). lia.
Qed.

Context (Hbo : backend_ok adj keys data) (Hfit : (Z.of_nat n <= 2 ^ 31)%Z).
Context (Hedges : (N.of_nat (length (concat adj) + n) <= 2 ^ 32 - 1)%N).

Lemma discovered_ok labels :
  length labels = n → (∀ v a, v < n → label labels v = Some a → a < n) →
  Graph_add_edges (graph_of adj) labels = Ok (graph_of (discovered labels)) ∧
  length (discovered labels) = n ∧ backend_ok (discovered labels) keys data.
Proof.
  intros Hlen Hlab.
  assert (length (optional_edges labels) = n) as Hopt by (unfold optional_edges; by rewrite length_fmap).
  assert (length (discovered labels) = n) as Hd by (unfold discovered; rewrite length_zip_with; lia).
  assert (N.of_nat (length (concat (discovered labels))) <= 2 ^ 32 - 1)%N as Hc.
  { unfold discovered. rewrite zip_app_concat by done. pose proof (optional_edges_concat labels). lia. }
  split_and!; [|done|].
  - apply (add_edges_of labels adj (optional_edges labels)); [apply (bo_adj _ _ _ Hbo)|done| |done].
    intros v es. apply optional_edges_spec.
  - split; rewrite ?Hd; [|apply Hbo..]. apply (add_edges_ok adj (optional_edges labels));
      [apply (bo_adj _ _ _ Hbo)|done|done|].
    apply Forall_lookup. intros v es Hes. apply Forall_forall. intros x Hx.
    unfold optional_edges in Hes. rewrite list_lookup_fmap in Hes.
    destruct (labels !! v) as [o|] eqn:Eo; [|done]. injection Hes as <-.
    apply (Hlab v x); [apply lookup_lt_Some in Eo; lia|]. unfold label. rewrite Eo. cbn.
    destruct (OptionalVertexId_into_option o); cbn in Hx; [|by apply elem_of_nil in Hx].
    apply list_elem_of_singleton in Hx. by subst.
Qed.

Context (self : LongestPathGraphBackend M) (builder : GraphBuilder NodeData M).
Context (Hself : lp_builder self = inl builder).
Context (Hbuilder : GraphBuilder_finish builder = (graph_of adj, keys, data)).

(** What [finish] may return for the graph [adj'] with the discovery edges. *)
Definition finish_result (adj' : list (list VertexId)) (r : BuildInfo + CriticalPathError) : Prop :=
  ∃ wd, (∀ w d, edge wd w d ↔ work_dep adj' keys data w d) ∧
  match r with
  | inr e => is_cycle_error e ∧ (cyclic adj' ∨ cyclic wd)
  | inl info =>
      acyclic adj' ∧ ¬ cyclic wd ∧
      work_result_ok adj' keys data wd (lp_top_level_targets self)
        (inl (bi_critical_path info, bi_top_level_targets info)) ∧
      (∃ durations, critical_result adj' keys data (node_micros <$> data)
         (lp_top_level_targets self) (inl (bi_build_graph_critical_path info, durations))) ∧
      slowest_result adj' keys data (inl (bi_slowest_path info)) ∧
      bi_num_nodes info = N.of_nat n ∧ bi_num_edges info = N.of_nat (length (concat adj'))
  end.

(** C5. When the build ends, every vertex is labelled with the analysis of the first top-level
    target that reaches it through nodes that produce artifacts, or else, if it is an anonymous
    target, with the analysis recorded for it (durations together fitting 64 bits); the graph gets one edge for each label, and
    nothing panics.  If that graph and the table of the work have no cycle, the report holds the
    slowest path of that graph, a critical path of it with the improvement of each node, and a
    critical path through real work; otherwise a cycle is reported as an error. *)
Theorem finish_correct (edges : HashMap NodeKey NodeKey)
    (Htotal : (pc_runtime (walk_cost (node_micros <$> data) (seq 0 n)) < 2 ^ 64)%N) :
  ∃ labels, length labels = n ∧
    (∀ v, v < n → discovery_label adj keys (lp_top_level_targets self) edges v (label labels v)) ∧
    (∀ u v, edge (discovered labels) u v ↔ edge adj u v ∨ u < n ∧ label labels u = Some v) ∧
    ∃ r, LongestPathGraphBackend_finish self edges = Ok r ∧ finish_result (discovered labels) r.
Proof.
  destruct (first_analyses_spec adj keys data Hbo Hfit (lp_top_level_targets self) edges)
    as (labels & Hfirst & Hlen & Hlab).
  exists labels. split; [done|]. split; [intros v Hv; by apply Hlab|].
  split; [intros; by apply discovered_edge|].
  destruct (discovered_ok labels Hlen (λ v a Hv, proj2 (Hlab v Hv) a)) as (Hadd & Hd & Hbo').
  assert (length (node_micros <$> data) = length (discovered labels)) as Hw.
  { by rewrite length_fmap, Hd, (bo_data _ _ _ Hbo). }
  assert (acyclic (discovered labels) → no_overflow (discovered labels) (node_micros <$> data))
    as Hov.
  { intros Ha. apply no_overflow_total; [apply (bo_adj _ _ _ Hbo')|done|done|by rewrite Hd]. }
  destruct (critical_spec (discovered labels) keys data Hbo' (node_micros <$> data) Hw
    Hov ltac:(by rewrite Hd) (lp_top_level_targets self)) as (rc & Hrc & Hc).
  destruct (real_work_spec (discovered labels) keys data Hbo' (lp_top_level_targets self))
    as (wd & _ & Hwd & rw & Hrw & Hwork).
  destruct (slowest_spec (discovered labels) keys data Hbo') as (rs & Hrs & Hs).
  unfold LongestPathGraphBackend_finish. rewrite Hself, Hbuilder, Hfirst.
  cbn [mbind outcome_bind]. rewrite Hadd. cbn [mbind outcome_bind]. rewrite Hrc.
  cbn [mbind outcome_bind]. rewrite Hrw. cbn [mbind outcome_bind]. rewrite Hrs.
  cbn [mbind outcome_bind].
  destruct rs as [slow|e].
  2: { destruct Hs as [Hs ?]. eexists. split; [done|]. exists wd. split; [done|].
       split; [done|by left]. }
  destruct rc as [[bg durations]|e].
  2: { destruct Hc as [Hc ?]. eexists. split; [done|]. exists wd. split; [done|].
       split; [done|by left]. }
  destruct rw as [[cp targets]|e].
  2: { destruct Hwork as [Hwork ?]. eexists. split; [done|]. exists wd. split; [done|].
       split; [done|by right]. }
  eexists. split; [done|]. exists wd. split; [done|].
  cbn [bi_critical_path bi_top_level_targets bi_build_graph_critical_path bi_slowest_path
       bi_num_nodes bi_num_edges].
  pose proof (proj1 Hc) as Ha. pose proof (proj1 Hwork) as Hnc.
  split_and!; [done|done|done|by exists durations|done| |done].
  unfold Graph_vertices_count, graph_of. cbn [g_vertices]. by rewrite layout_length, Hd.
Qed.
End End.

(** A build of the example's nodes, one top-level target and no anonymous target. *)
Definition example_backend : LongestPathGraphBackend (list (NodeKey * VertexId)) :=
  LongestPathGraphBackend_process_top_level_target
    (foldl (λ b s, LongestPathGraphBackend_process_node b
       (mkNodeSignal _ _ s.1.1 (nda_extra_data s.2) (nda_duration s.2) s.1.2 (nda_span_ids s.2)
          (nda_waiting_data s.2)))
       LongestPathGraphBackend_new example_signals)
    7 [NodeKey_BuildKey 2].

Definition example_builder : GraphBuilder NodeData (list (NodeKey * VertexId)) :=
  match lp_builder example_backend with inl b => b | inr _ => GraphBuilder_new end.

(** The actions are discovered by the analysis of their target. *)
Example example_finish :
  match LongestPathGraphBackend_finish example_backend [] with
  | Ok (inl info) => bi_num_nodes info = 5%N ∧ bi_num_edges info = 7%N
  | _ => False
  end.
Proof. vm_compute. by split. Qed.

Lemma finish_correct_witness :
  ∃ labels r, LongestPathGraphBackend_finish example_backend [] = Ok r ∧
    finish_result example_adj example_keys example_data example_backend
      (discovered example_adj labels) r.
Proof.
  destruct (finish_correct example_adj example_keys example_data example_backend_ok
    ltac:(by vm_compute) ltac:(by vm_compute) example_backend example_builder eq_refl
    ltac:(by vm_compute) [] ltac:(by vm_compute)) as (labels & _ & _ & _ & r & Hr & Hres).
  exists labels, r. split; [exact Hr|exact Hres].
Defined.
