(* ===== verification/SignalReceiver.v ===== *)
(** How the signals of a build reach the backend: [BuildSignalSender::key_activated], which turns an
    evaluated key into one signal, or two when its analysis waited for anonymous targets, and
    [BuildSignalReceiver], which adds what only the sequence of signals tells: which package made
    another one known, which analysis discovered an anonymous target first, and that whoever
    depends on a split analysis waits for its second part
    ([src/app/bz_build_signals_impl/src/lib.rs], [test_signals.rs]).

    The channel between them delivers in order: the receiver runs over the list of the signals
    sent.  [now] of the clock is an argument. *)
From S2P Require Import Prelude.
From S2P Require Import TimeSpan.
From S2P Require Import CritGraph.
From S2P Require Import SignalNodes.
From S2P Require Import SignalWork.
From S2P Require Import SignalPaths.
From S2P Require Import SignalExample.
From stdpp Require Import strings pretty.
Local Open Scope dice_scope.

(** * Signals *)

Section Signals.
Context `{SO : SignalOps}.

(** The key of an evaluation, by the type it can be cast down to; the last case but one is a type
    that provides a [BuildSignalsNodeKey] on request. *)
Inductive DynKey :=
| DynKey_BuildKey (k : ActionKey)
| DynKey_AnalysisKey (k : ConfiguredTargetLabel)
| DynKey_EnsureProjectedArtifactKey (k : EnsureProjectedArtifactKey)
| DynKey_EnsureTransitiveSetProjectionKey (k : EnsureTransitiveSetProjectionKey)
| DynKey_InterpreterResultsKey (k : PackageLabel)
| DynKey_PackageListingKey (k : PackageLabel)
| DynKey_Provides (key_type_name : string) (node_key : BuildSignalsNodeKey)
| DynKey_Other.

Definition NodeKey_from_dyn_key (key : DynKey) : option NodeKey :=
  match key with
  | DynKey_BuildKey k => Some (NodeKey_BuildKey k)
  | DynKey_AnalysisKey k => Some (NodeKey_AnalysisKey k)
  | DynKey_EnsureProjectedArtifactKey k => Some (NodeKey_EnsureProjectedArtifactKey k)
  | DynKey_EnsureTransitiveSetProjectionKey k => Some (NodeKey_EnsureTransitiveSetProjectionKey k)
  | DynKey_InterpreterResultsKey k => Some (NodeKey_InterpreterResultsKey k)
  | DynKey_PackageListingKey k => Some (NodeKey_PackageListingKey k)
  | DynKey_Provides name k => Some (NodeKey_Dyn name k)
  | DynKey_Other => None
  end.

(** The data an evaluation leaves, by its type. *)
Record ActionExtraData := mkActionExtraData {
  ae_execution_kind : ActionExecutionKind;
  ae_target_rule_type_name : option string;
  ae_action_digest : option string;
  ae_invalidation_info : option CommandInvalidationInfo;
}.

Record AnalysisKeyActivationData := mkAnalysisKeyActivationData {
  ak_waiting_data : WaitingData;
  ak_time_span : TimeSpan;
  ak_spans : list N;
  ak_target_rule_type_name : option string;
  ak_anon_target_split : option TimeSpan;   (** [part2_time_span] *)
}.

Inductive EvaluationData :=
| BuildKeyActivationData (action : RegisteredAction) (extra : ActionExtraData)
    (duration : NodeDuration) (waiting_data : WaitingData) (spans : list N)
| AnalysisKeyData (data : AnalysisKeyActivationData)
| InterpreterResultsKeyActivationData (time_span : TimeSpan) (result : option EvaluationResult)
    (spans : list N)
| PackageListingKeyActivationData (time_span : TimeSpan) (spans : list N)
| EnsureTransitiveSetProjectionKeyActivationData (time_span : TimeSpan)
| OtherActivationData.

Inductive ActivationData :=
| Evaluated (data : option EvaluationData)
| Reused.

Definition ActionNodeData_from_extra_data (action : RegisteredAction) (extra : ActionExtraData) :
    ActionNodeData :=
  mkActionNodeData action (ae_execution_kind extra) (ae_target_rule_type_name extra)
    (ae_action_digest extra) (ae_invalidation_info extra).

Definition AnalysisNodeData_from_extra_data (target_rule_type_name : option string) :
    AnalysisNodeData := mkAnalysisNodeData target_rule_type_name None.

Record SplitDiscoveryData := mkSplitDiscoveryData {
  sd_discovering_analysis : NodeKey;
  sd_discovering_analysis_end : Instant;
  sd_anon_targets : list NodeKey;
}.

Record Evaluation := mkEvaluation {
  ev_key : NodeKey;
  ev_duration : NodeDuration;
  ev_dep_keys : list NodeKey;
  ev_spans : list N;
  ev_waiting_data : WaitingData;
  ev_extra_data : NodeExtraData;
  ev_split_discovery : option SplitDiscoveryData;
}.

(** [ResolvedArtifactGroupBuildSignalsKey] *)
Inductive ResolvedArtifactGroupBuildSignalsKey :=
| Resolved_EnsureTransitiveSetProjectionKey (k : EnsureTransitiveSetProjectionKey)
| Resolved_BuildKey (k : ActionKey).

Record TopLevelTargetSignal := mkTopLevelTargetSignal {
  tls_label : ConfiguredTargetLabel;
  tls_artifacts : list ResolvedArtifactGroupBuildSignalsKey;
}.

Record FinalMaterializationSignal := mkFinalMaterializationSignal {
  fm_artifact : BuildArtifact;
  fm_from_group : ArtifactGroup;
  fm_duration : NodeDuration;
  fm_span_id : option N;
  fm_waiting_data : WaitingData;
}.

Record TestExecutionSignal := mkTestExecutionSignal {
  tes_target : ConfiguredTargetLabel;
  tes_suite : string;
  tes_testcases : list string;
  tes_variant : option string;
  tes_deps : list ActionKey;
  tes_duration : NodeDuration;
}.

Record TestListingSignal := mkTestListingSignal {
  tls_target : ConfiguredTargetLabel;
  tls_suite : string;
  tls_deps : list ActionKey;
  tls_duration : NodeDuration;
}.

Inductive BuildSignal :=
| Signal_Evaluation (e : Evaluation)
| Signal_TopLevelTarget (t : TopLevelTargetSignal)
| Signal_FinalMaterialization (m : FinalMaterializationSignal)
| Signal_TestExecution (t : TestExecutionSignal)
| Signal_TestListing (t : TestListingSignal)
| Signal_BuildFinished.

(** * The sender *)

Definition make_finish_key (part1_key : NodeKey) (analysis_data : AnalysisNodeData) : NodeKey :=
  match part1_key with
  | NodeKey_AnalysisKey key =>
      NodeKey_Dyn "AnalysisFinishKey"
        (BSKey_AnalysisFinish
           (mkAnalysisFinishNodeKey key (an_target_rule_type_name analysis_data)))
  | NodeKey_Dyn name dyn_key =>
      if decide (name = "AnonTargetKey") then
        let anon_target_proto :=
          default AnonTargetProto_default
            match critical_path_entry_proto dyn_key with
            | Some (Entry_AnonAnalysis anon_target _) => anon_target
            | _ => None
            end in
        NodeKey_Dyn "AnonTargetFinishKey"
          (BSKey_AnonTargetFinish
             (mkAnonTargetFinishNodeKey (BuildSignalsNodeKey_display dyn_key) anon_target_proto))
      else part1_key
  | _ => part1_key
  end.

(** [matches!(k, NodeKey::Dyn(_, key) if key.kind() == "anon_target")] *)
Definition is_anon_dep (k : NodeKey) : bool :=
  match k with
  | NodeKey_Dyn _ key => bool_decide (BuildSignalsNodeKey_kind key = "anon_target")
  | _ => false
  end.

Definition whole_span (span : TimeSpan) : NodeDuration :=
  mkNodeDuration (TimeSpan_duration span) span None.

(** The signals sent for a key. *)
Definition key_activated (now : Instant) (key : DynKey) (deps : list DynKey)
    (activation_data : ActivationData) : outcome (list BuildSignal) :=
  match activation_data with
  | Reused => Ok []
  | Evaluated activation_data =>
      match NodeKey_from_dyn_key key with
      | None => Ok []
      | Some key =>
          zero ← NodeDuration_zero now;
          let dep_keys := omap NodeKey_from_dyn_key deps in
          let signal duration spans waiting_data extra_data :=
            mkEvaluation key duration dep_keys spans waiting_data extra_data None in
          Ok match activation_data with
          | Some (BuildKeyActivationData action extra duration waiting_data spans) =>
              [Signal_Evaluation (signal duration spans waiting_data
                 (Extra_Action (ActionNodeData_from_extra_data action extra)))]
          | Some (AnalysisKeyData d) =>
              let node_data := AnalysisNodeData_from_extra_data (ak_target_rule_type_name d) in
              match ak_anon_target_split d with
              | Some part2_time_span =>
                  let anon_deps := filter (λ k, is_anon_dep k = true) dep_keys in
                  let other_deps := filter (λ k, is_anon_dep k = false) dep_keys in
                  let part1 :=
                    mkEvaluation key (whole_span (ak_time_span d)) other_deps (ak_spans d)
                      (ak_waiting_data d)
                      (Extra_Analysis (AnalysisNodeData_with_part node_data (Some 1%N))) None in
                  let part2 :=
                    mkEvaluation (make_finish_key key node_data) (whole_span part2_time_span)
                      (key :: anon_deps) [] WaitingData_new
                      (Extra_Analysis (AnalysisNodeData_with_part node_data (Some 2%N)))
                      (Some (mkSplitDiscoveryData key (TimeSpan_end (ak_time_span d)) anon_deps)) in
                  [Signal_Evaluation part1; Signal_Evaluation part2]
              | None =>
                  [Signal_Evaluation (signal (whole_span (ak_time_span d)) (ak_spans d)
                     (ak_waiting_data d) (Extra_Analysis node_data))]
              end
          | Some (InterpreterResultsKeyActivationData time_span result spans) =>
              [Signal_Evaluation (signal (whole_span time_span) spans WaitingData_new
                 (Extra_Load result))]
          | Some (PackageListingKeyActivationData time_span spans) =>
              [Signal_Evaluation (signal (whole_span time_span) spans WaitingData_new Extra_None)]
          | Some (EnsureTransitiveSetProjectionKeyActivationData time_span) =>
              [Signal_Evaluation (signal (whole_span time_span) [] WaitingData_new Extra_None)]
          | Some OtherActivationData | None =>
              [Signal_Evaluation (signal zero [] WaitingData_new Extra_None)]
          end
      end
  end.
End Signals.

(** * The receiver *)

Section Receiver.
Context `{SO : SignalOps} {B : Type} `{LB : !BuildListenerBackend B}.

Local Instance PackageLabel_rust_eq : RustEq PackageLabel := rust_eq_dec.
Local Instance string_rust_eq : RustEq string := rust_eq_dec.

Record BuildSignalReceiver := mkBuildSignalReceiver {
  br_first_edge_to_load : HashMap PackageLabel PackageLabel;
  br_first_analysis_for_anon_target : HashMap NodeKey (NodeKey * Instant);
  br_split_analysis_finish_keys : HashMap NodeKey NodeKey;
  br_backend : B;
  br_test_listing_keys : HashMap string NodeKey;
}.

Definition BuildSignalReceiver_new (backend : B) : BuildSignalReceiver :=
  mkBuildSignalReceiver [] [] [] backend [].

Definition set_backend (self : BuildSignalReceiver) (backend : B) : BuildSignalReceiver :=
  mkBuildSignalReceiver (br_first_edge_to_load self) (br_first_analysis_for_anon_target self)
    (br_split_analysis_finish_keys self) backend (br_test_listing_keys self).

(** One iteration of the loop over the packages a load depends on: [entry(..).or_insert_with(..)]. *)
Definition load_edge_step (pkg : PackageLabel) (m : HashMap PackageLabel PackageLabel)
    (dep_pkg : PackageLabel) : HashMap PackageLabel PackageLabel :=
  if decide (dep_pkg = pkg) then m else
  match hm_get m dep_pkg with
  | Some _ => m
  | None => hm_insert m dep_pkg pkg
  end.

(** [.unique()]: the first of each. *)
Fixpoint unique (seen l : list PackageLabel) : list PackageLabel :=
  match l with
  | [] => []
  | x :: l => if decide (x ∈ seen) then unique seen l else x :: unique (x :: seen) l
  end.

(** [enrich_load]: the map and the dependencies after it. *)
Definition enrich_load (m : HashMap PackageLabel PackageLabel) (e : Evaluation) :
    HashMap PackageLabel PackageLabel * list NodeKey :=
  match ev_key e with
  | NodeKey_InterpreterResultsKey pkg =>
      let m :=
        match ev_extra_data e with
        | Extra_Load (Some load_result) =>
            fold_left (load_edge_step pkg)
              (unique [] (concat (EvaluationResult_target_deps load_result))) m
        | _ => m
        end in
      match hm_get m pkg with
      | Some first_edge =>
          (m, ev_dep_keys e ++ [NodeKey_InterpreterResultsKey first_edge])
      | None => (m, ev_dep_keys e)
      end
  | _ => (m, ev_dep_keys e)
  end.

(** One iteration of the loop over the discovered anonymous targets. *)
Definition discovery_step (analysis : NodeKey) (new_end : Instant)
    (m : HashMap NodeKey (NodeKey * Instant)) (anon_key : NodeKey) :
    HashMap NodeKey (NodeKey * Instant) :=
  match hm_get m anon_key with
  | None => hm_insert m anon_key (analysis, new_end)
  | Some old => if (new_end <? old.2)%Z then hm_insert m anon_key (analysis, new_end) else m
  end.

Definition process_evaluation (self : BuildSignalReceiver) (e : Evaluation) :
    BuildSignalReceiver :=
  let '(first_edge_to_load, dep_keys) := enrich_load (br_first_edge_to_load self) e in
  let dep_keys :=
    (λ dep, default dep (hm_get (br_split_analysis_finish_keys self) dep)) <$> dep_keys in
  let '(finish_keys, first_analysis) :=
    match ev_split_discovery e with
    | Some discovery =>
        (hm_insert (br_split_analysis_finish_keys self) (sd_discovering_analysis discovery)
           (ev_key e),
         fold_left (discovery_step (sd_discovering_analysis discovery)
                      (sd_discovering_analysis_end discovery))
           (sd_anon_targets discovery) (br_first_analysis_for_anon_target self))
    | None => (br_split_analysis_finish_keys self, br_first_analysis_for_anon_target self)
    end in
  mkBuildSignalReceiver first_edge_to_load first_analysis finish_keys
    (process_node (br_backend self)
       (mkNodeSignal _ _ (ev_key e) (ev_extra_data e) (ev_duration e) dep_keys (ev_spans e)
          (ev_waiting_data e)))
    (br_test_listing_keys self).

Definition process_top_level_signal (self : BuildSignalReceiver) (t : TopLevelTargetSignal) :
    BuildSignalReceiver :=
  set_backend self
    (process_top_level_target (br_backend self) (tls_label t)
       ((λ k, match k with
              | Resolved_BuildKey b => NodeKey_BuildKey b
              | Resolved_EnsureTransitiveSetProjectionKey e =>
                  NodeKey_EnsureTransitiveSetProjectionKey e
              end) <$> tls_artifacts t)).

Definition process_final_materialization (self : BuildSignalReceiver)
    (m : FinalMaterializationSignal) : BuildSignalReceiver :=
  let dep :=
    match fm_from_group m with
    | ArtifactGroup_TransitiveSetProjection key => NodeKey_EnsureTransitiveSetProjectionKey key
    | _ => NodeKey_BuildKey (BuildArtifact_key (fm_artifact m))
    end in
  set_backend self
    (process_node (br_backend self)
       (mkNodeSignal _ _ (NodeKey_FinalMaterialization (fm_artifact m)) Extra_None (fm_duration m)
          [dep] (option_list (fm_span_id m)) (fm_waiting_data m))).

Definition process_test_execution (self : BuildSignalReceiver) (s : TestExecutionSignal) :
    BuildSignalReceiver :=
  let key :=
    mkTestExecutionBuildSignalKey _ (tes_target s) (tes_suite s) (tes_testcases s) (tes_variant s) in
  let deps := NodeKey_BuildKey <$> tes_deps s in
  let listing_key := option_list (hm_get (br_test_listing_keys self) (tes_suite s)) in
  set_backend self
    (process_node (br_backend self)
       (mkNodeSignal _ _ (NodeKey_TestExecution key) Extra_None (tes_duration s)
          (deps ++ listing_key) [] WaitingData_new)).

Definition process_test_listing (self : BuildSignalReceiver) (s : TestListingSignal) :
    BuildSignalReceiver :=
  let node_key := NodeKey_TestListing (mkTestListingBuildSignalKey _ (tls_target s) (tls_suite s)) in
  let self :=
    mkBuildSignalReceiver (br_first_edge_to_load self) (br_first_analysis_for_anon_target self)
      (br_split_analysis_finish_keys self) (br_backend self)
      (hm_insert (br_test_listing_keys self) (tls_suite s) node_key) in
  set_backend self
    (process_node (br_backend self)
       (mkNodeSignal _ _ node_key Extra_None (tls_duration s) (NodeKey_BuildKey <$> tls_deps s) []
          WaitingData_new)).

(** The loop [while let Some(event) = receiver.next()]; an ended channel ends it too. *)
Fixpoint receive (self : BuildSignalReceiver) (events : list BuildSignal) : BuildSignalReceiver :=
  match events with
  | [] => self
  | event :: events =>
      match event with
      | Signal_Evaluation e => receive (process_evaluation self e) events
      | Signal_TopLevelTarget t => receive (process_top_level_signal self t) events
      | Signal_FinalMaterialization m => receive (process_final_materialization self m) events
      | Signal_TestExecution t => receive (process_test_execution self t) events
      | Signal_TestListing t => receive (process_test_listing self t) events
      | Signal_BuildFinished => self
      end
  end.

(** [run_and_log] up to the report. *)
Definition run (self : BuildSignalReceiver) (events : list BuildSignal) :
    outcome (BuildInfo + CriticalPathError) :=
  let self := receive self events in
  finish (br_backend self)
    ((λ e, (e.1, e.2.1)) <$> br_first_analysis_for_anon_target self).
End Receiver.
Arguments BuildSignalReceiver {_} _.
