(* ===== verification/SignalReceiverSpec.v ===== *)
(** The receiver of the build's signals against the history of what it received.  Its maps answer
    with what the history says: the first package that made another one known, the finish key of
    the last split of an analysis, the earliest discovery of an anonymous target.  The backend sees
    one call for each signal. *)
From S2P Require Import Prelude.
From S2P Require Import TimeSpan.
From S2P Require Import CritGraph.
From S2P Require Import SignalNodes.
From S2P Require Import SignalWork.
From S2P Require Import SignalPaths.
From S2P Require Import SignalExample.
From S2P Require Import SignalReceiver.
From stdpp Require Import strings pretty.
Local Open Scope dice_scope.

(** * The first, the last and the earliest event of a history *)

Section History.
Context {S V : Type}.
Implicit Types (P : S → V → Prop) (h : list S) (o : option V).

(** [o] is what [P] says of the last event it holds of. *)
Definition last_of P h o : Prop :=
  match o with
  | Some v => ∃ i s, h !! i = Some s ∧ P s v ∧
      ∀ j s' v', i < j → h !! j = Some s' → ¬ P s' v'
  | None => ∀ s v, s ∈ h → ¬ P s v
  end.

Definition first_of P h o : Prop :=
  match o with
  | Some v => ∃ i s, h !! i = Some s ∧ P s v ∧
      ∀ j s' v', j < i → h !! j = Some s' → ¬ P s' v'
  | None => ∀ s v, s ∈ h → ¬ P s v
  end.

(** The least in [time], the first of them. *)
Definition earliest_of (time : V → Z) P h o : Prop :=
  match o with
  | Some v => ∃ i s, h !! i = Some s ∧ P s v ∧
      ∀ j s' v', h !! j = Some s' → P s' v' →
        (time v <= time v')%Z ∧ (j < i → (time v < time v')%Z)
  | None => ∀ s v, s ∈ h → ¬ P s v
  end.

Lemma snoc_inv h s j s' : (h ++ [s]) !! j = Some s' → h !! j = Some s' ∨ j = length h ∧ s' = s.
Proof.
  intros [?|[? Hl]]%lookup_app_Some; [by left|right].
  apply list_lookup_singleton_Some in Hl as [? ->]. split; [lia|done].
Qed.

Lemma none_snoc P h s :
  (∀ s' v, s' ∈ h → ¬ P s' v) → (∀ v, ¬ P s v) → ∀ s' v, s' ∈ h ++ [s] → ¬ P s' v.
Proof. intros Hh Hs s' v [?|Hx%list_elem_of_singleton]%elem_of_app; [eauto|subst; eauto]. Qed.

Lemma last_of_hit P h s v : P s v → last_of P (h ++ [s]) (Some v).
Proof.
  intros Hs. exists (length h), s. split_and!; [by rewrite lookup_app_r, Nat.sub_diag|done|].
  intros j s' v' Hj [Hl|[-> _]]%snoc_inv; [apply lookup_lt_Some in Hl|]; lia.
Qed.

Lemma last_of_miss P h s o : (∀ v, ¬ P s v) → last_of P h o → last_of P (h ++ [s]) o.
Proof.
  intros Hs. destruct o as [v|]; cbn; [|by intros ?; apply none_snoc].
  intros (i & s0 & Hi & Hp & Hlast). exists i, s0. split_and!; [by apply lookup_app_l_Some|done|].
  intros j s' v' Hj [Hl|[-> ->]]%snoc_inv; eauto.
Qed.

Lemma first_of_hit P h s v : first_of P h None → P s v → first_of P (h ++ [s]) (Some v).
Proof.
  intros Hh Hs. exists (length h), s. split_and!; [by rewrite lookup_app_r, Nat.sub_diag|done|].
  intros j s' v' Hj [Hl|[-> _]]%snoc_inv; [|lia]. by eapply Hh, list_elem_of_lookup_2.
Qed.

Lemma first_of_old P h s v : first_of P h (Some v) → first_of P (h ++ [s]) (Some v).
Proof.
  intros (i & s0 & Hi & Hp & Hfirst). exists i, s0.
  split_and!; [by apply lookup_app_l_Some|done|]. apply lookup_lt_Some in Hi.
  intros j s' v' Hj [Hl|[-> _]]%snoc_inv; [by eapply Hfirst|lia].
Qed.

Lemma first_of_miss P h s o : (∀ v, ¬ P s v) → first_of P h o → first_of P (h ++ [s]) o.
Proof.
  intros Hs. destruct o as [v|]; [intros; by apply first_of_old|]. cbn. intros ?.
  by apply none_snoc.
Qed.

Lemma earliest_of_miss time P h s o :
  (∀ v, ¬ P s v) → earliest_of time P h o → earliest_of time P (h ++ [s]) o.
Proof.
  intros Hs. destruct o as [v|]; cbn; [|by intros ?; apply none_snoc].
  intros (i & s0 & Hi & Hp & Hle). exists i, s0. split_and!; [by apply lookup_app_l_Some|done|].
  intros j s' v' [Hl|[-> ->]]%snoc_inv; eauto. intros Hv'. by destruct (Hs v').
Qed.

(** An event that says one thing. *)
Lemma earliest_of_hit time P h s v o :
  (∀ v', P s v' ↔ v' = v) → earliest_of time P h o →
  earliest_of time P (h ++ [s])
    (Some match o with Some old => if (time v <? time old)%Z then v else old | None => v end).
Proof.
  intros Hs Ho. destruct o as [old|].
  - destruct Ho as (i & s0 & Hi & Hp & Hle). pose proof (lookup_lt_Some _ _ _ Hi).
    destruct (Z.ltb_spec (time v) (time old)) as [Hlt|Hge].
    + exists (length h), s. split_and!; [by rewrite lookup_app_r, Nat.sub_diag|by apply Hs|].
      intros j s' v' [Hl|[-> ->]]%snoc_inv Hv'; [|apply Hs in Hv' as ->; lia].
      destruct (Hle _ _ _ Hl Hv'). lia.
    + exists i, s0. split_and!; [by apply lookup_app_l_Some|done|].
      intros j s' v' [Hl|[-> ->]]%snoc_inv Hv'; [by eapply Hle|apply Hs in Hv' as ->; lia].
  - exists (length h), s. split_and!; [by rewrite lookup_app_r, Nat.sub_diag|by apply Hs|].
    intros j s' v' [Hl|[-> ->]]%snoc_inv Hv'; [|apply Hs in Hv' as ->; lia].
    by destruct (Ho s' v' (list_elem_of_lookup_2 _ _ _ Hl)).
Qed.
End History.

(** * What a history says *)

Section ReceiverSpec.
Context `{SO : SignalOps} {B : Type} `{LB : !BuildListenerBackend B}.
Local Existing Instance PackageLabel_rust_eq.
Local Existing Instance string_rust_eq.
Local Instance PackageLabel_laws : RustEqLaws PackageLabel := rust_eq_dec_laws.
Local Instance string_laws : RustEqLaws string := rust_eq_dec_laws.
Implicit Types (h : list BuildSignal) (e : Evaluation).

(** [s] says that the analysis [part1] ends with [finish]. *)
Definition splits (part1 : NodeKey) (s : BuildSignal) (finish : NodeKey) : Prop :=
  ∃ e d, s = Signal_Evaluation e ∧ ev_split_discovery e = Some d ∧
    rust_eq (sd_discovering_analysis d) part1 = true ∧ finish = ev_key e.

(** [s] is a successful load of [importer], some target of which depends on [pkg]. *)
Definition imports (pkg : PackageLabel) (s : BuildSignal) (importer : PackageLabel) : Prop :=
  ∃ e r, s = Signal_Evaluation e ∧ ev_key e = NodeKey_InterpreterResultsKey importer ∧
    ev_extra_data e = Extra_Load (Some r) ∧ pkg ∈ concat (EvaluationResult_target_deps r) ∧
    pkg ≠ importer.

(** [s] says that an analysis, with the time its first part ended, discovered [anon]. *)
Definition discovers (anon : NodeKey) (s : BuildSignal) (a : NodeKey * Instant) : Prop :=
  ∃ e d anon', s = Signal_Evaluation e ∧ ev_split_discovery e = Some d ∧
    anon' ∈ sd_anon_targets d ∧ rust_eq anon' anon = true ∧
    a = (sd_discovering_analysis d, sd_discovering_analysis_end d).

Definition lists_suite (suite : string) (s : BuildSignal) (k : NodeKey) : Prop :=
  ∃ t, s = Signal_TestListing t ∧ tls_suite t = suite ∧
    k = NodeKey_TestListing (mkTestListingBuildSignalKey _ (tls_target t) suite).

(** After [h], whoever depends on [dep] waits for [dep']. *)
Definition waits_for h (dep dep' : NodeKey) : Prop :=
  ∃ o, last_of (splits dep) h o ∧ dep' = default dep o.

(** The load through which the node of [k] became known. *)
Definition known_through h (k : NodeKey) (deps : list NodeKey) : Prop :=
  match k with
  | NodeKey_InterpreterResultsKey pkg =>
      ∃ o, first_of (imports pkg) h o ∧ deps = option_list (NodeKey_InterpreterResultsKey <$> o)
  | _ => deps = []
  end.

(** ** Calls of the backend *)

Inductive Call :=
| Call_process_node (s : NodeSignal)
| Call_process_top_level_target (target : ConfiguredTargetLabel) (artifacts : list NodeKey).

Definition apply_call (b : B) (c : Call) : B :=
  match c with
  | Call_process_node s => process_node b s
  | Call_process_top_level_target t artifacts => process_top_level_target b t artifacts
  end.

(** The call that the signal [s] causes after [h]. *)
Inductive call_of h : BuildSignal → Call → Prop :=
| call_evaluation e known deps :
    known_through h (ev_key e) known →
    Forall2 (waits_for h) (ev_dep_keys e ++ known) deps →
    call_of h (Signal_Evaluation e)
      (Call_process_node (mkNodeSignal _ _ (ev_key e) (ev_extra_data e) (ev_duration e) deps
         (ev_spans e) (ev_waiting_data e)))
| call_top_level_target target artifacts :
    call_of h (Signal_TopLevelTarget (mkTopLevelTargetSignal target artifacts))
      (Call_process_top_level_target target
         ((λ k, match k with
                | Resolved_BuildKey b => NodeKey_BuildKey b
                | Resolved_EnsureTransitiveSetProjectionKey e =>
                    NodeKey_EnsureTransitiveSetProjectionKey e
                end) <$> artifacts))
| call_final_materialization m :
    call_of h (Signal_FinalMaterialization m)
      (Call_process_node (mkNodeSignal _ _ (NodeKey_FinalMaterialization (fm_artifact m)) Extra_None
         (fm_duration m)
         [match fm_from_group m with
          | ArtifactGroup_TransitiveSetProjection key => NodeKey_EnsureTransitiveSetProjectionKey key
          | _ => NodeKey_BuildKey (BuildArtifact_key (fm_artifact m))
          end] (option_list (fm_span_id m)) (fm_waiting_data m)))
| call_test_execution t o :
    last_of (lists_suite (tes_suite t)) h o →
    call_of h (Signal_TestExecution t)
      (Call_process_node (mkNodeSignal _ _
         (NodeKey_TestExecution (mkTestExecutionBuildSignalKey _ (tes_target t) (tes_suite t)
            (tes_testcases t) (tes_variant t))) Extra_None (tes_duration t)
         ((NodeKey_BuildKey <$> tes_deps t) ++ option_list o) [] WaitingData_new))
| call_test_listing t :
    call_of h (Signal_TestListing t)
      (Call_process_node (mkNodeSignal _ _
         (NodeKey_TestListing (mkTestListingBuildSignalKey _ (tls_target t) (tls_suite t)))
         Extra_None (tls_duration t) (NodeKey_BuildKey <$> tls_deps t) [] WaitingData_new)).

(** One call per signal, each after the signals before it. *)
Definition calls_of h (calls : list Call) : Prop :=
  length calls = length h ∧
  ∀ i s c, h !! i = Some s → calls !! i = Some c → call_of (take i h) s c.

Lemma calls_of_snoc h calls s c :
  calls_of h calls → call_of h s c → calls_of (h ++ [s]) (calls ++ [c]).
Proof.
  intros [Hlen Hcalls] Hc. split; [rewrite !length_app; cbn; lia|].
  intros i s' c' [Hs|[-> ->]]%snoc_inv.
  - pose proof (lookup_lt_Some _ _ _ Hs). rewrite lookup_app_l, take_app_le by lia. eauto.
  - rewrite lookup_app_r, Hlen, Nat.sub_diag, take_app_length by lia. by intros [= <-].
Qed.

(** What the receiver sees of a sequence of events. *)
Fixpoint reported (events : list BuildSignal) : list BuildSignal :=
  match events with
  | [] | Signal_BuildFinished :: _ => []
  | s :: events => s :: reported events
  end.

(** * The invariant of the receiver *)

Record receiver_inv (b : B) h (self : BuildSignalReceiver B) (calls : list Call) : Prop := {
  ri_edge : ∀ pkg, first_of (imports pkg) h (hm_get (br_first_edge_to_load self) pkg);
  ri_split : ∀ k, last_of (splits k) h (hm_get (br_split_analysis_finish_keys self) k);
  ri_anon : ∀ k, earliest_of snd (discovers k) h (hm_get (br_first_analysis_for_anon_target self) k);
  ri_anon_wf : hm_wf (br_first_analysis_for_anon_target self);
  ri_suite : ∀ s, last_of (lists_suite s) h (hm_get (br_test_listing_keys self) s);
  ri_calls : calls_of h calls;
  ri_backend : br_backend self = foldl apply_call b calls;
}.

Lemma receiver_inv_new b : receiver_inv b [] (BuildSignalReceiver_new b) [].
Proof.
  split; [intros k s v Hs; by apply elem_of_nil in Hs..| |intros k s v Hs; by apply elem_of_nil in Hs
    | |done]; [done|by split].
Qed.

(** ** Loads *)

Lemma unique_elem seen l x : x ∈ unique seen l ↔ x ∈ l ∧ x ∉ seen.
Proof.
  revert seen. induction l as [|y l IH]; intros seen; cbn [unique].
  { rewrite elem_of_nil. naive_solver. }
  destruct (decide (y ∈ seen)); rewrite ?elem_of_cons, IH, ?elem_of_cons; [naive_solver|].
  destruct (decide (x = y)); naive_solver.
Qed.

Lemma rust_eq_decide (x y : PackageLabel) b : rust_eq x y = b → if b then x = y else x ≠ y.
Proof. unfold rust_eq, PackageLabel_rust_eq, rust_eq_dec. intros <-. by case_bool_decide. Qed.

Lemma load_edge_get pkg m x y :
  hm_get (load_edge_step pkg m y) x =
  match hm_get m x with
  | Some p => Some p
  | None => if decide (x = y ∧ x ≠ pkg) then Some pkg else None
  end.
Proof.
  unfold load_edge_step. destruct (decide (y = pkg)) as [->|Hy].
  { destruct (hm_get m x); [done|]. rewrite decide_False; naive_solver. }
  destruct (hm_get m y) eqn:Ey.
  - destruct (hm_get m x) eqn:Ex; [done|]. rewrite decide_False; naive_solver.
  - rewrite hm_get_insert. destruct (rust_eq y x) eqn:Hxy; apply rust_eq_decide in Hxy.
    { subst y. by rewrite Ey, decide_True. }
    destruct (hm_get m x); [done|]. rewrite decide_False; naive_solver.
Qed.

Lemma load_edges_get pkg l m x :
  hm_get (fold_left (load_edge_step pkg) l m) x =
  match hm_get m x with
  | Some p => Some p
  | None => if decide (x ∈ l ∧ x ≠ pkg) then Some pkg else None
  end.
Proof.
  revert m. induction l as [|y l IH]; intros m; cbn [fold_left].
  { destruct (hm_get m x); [done|]. rewrite decide_False; [done|]. by rewrite elem_of_nil; intros []. }
  rewrite IH, load_edge_get. destruct (hm_get m x); [done|].
  destruct (decide (x = y ∧ x ≠ pkg)), (decide (x ∈ l ∧ x ≠ pkg)), (decide (x ∈ y :: l ∧ x ≠ pkg))
    as [H1|H1]; rewrite elem_of_cons in H1; naive_solver.
Qed.

(** ** Anonymous targets *)

Definition earlier (a : NodeKey * Instant) (o : option (NodeKey * Instant)) : NodeKey * Instant :=
  match o with Some old => if (a.2 <? old.2)%Z then a else old | None => a end.

Lemma discovery_step_get a t m anon k :
  hm_get (discovery_step a t m anon) k =
  if rust_eq anon k then Some (earlier (a, t) (hm_get m k)) else hm_get m k.
Proof.
  unfold discovery_step, earlier. cbn [snd].
  destruct (hm_get m anon) as [old|] eqn:E; [destruct (Z.ltb_spec t old.2)|];
    rewrite ?hm_get_insert; destruct (rust_eq anon k) eqn:Ek; try done;
    rewrite <- (hm_get_ext _ _ _ Ek), E; try done.
  - rewrite (proj2 (Z.ltb_lt _ _)) by done. done.
  - rewrite (proj2 (Z.ltb_ge _ _)) by done. done.
Qed.

Lemma earlier_idem a o : earlier a (Some (earlier a o)) = earlier a o.
Proof.
  destruct o as [old|]; cbn; [|by rewrite Z.ltb_irrefl].
  destruct (Z.ltb_spec a.2 old.2); cbn; [by rewrite Z.ltb_irrefl|].
  by rewrite (proj2 (Z.ltb_ge _ _)).
Qed.

Lemma discoveries_get a t l m k :
  hm_get (fold_left (discovery_step a t) l m) k =
  if existsb (λ anon, rust_eq anon k) l then Some (earlier (a, t) (hm_get m k)) else hm_get m k.
Proof.
  revert m. induction l as [|anon l IH]; intros m; cbn [fold_left existsb]; [done|].
  rewrite IH, discovery_step_get. destruct (rust_eq anon k), (existsb _ l); cbn [orb]; try done.
  by rewrite earlier_idem.
Qed.

Lemma discoveries_wf a t l m : hm_wf m → hm_wf (fold_left (discovery_step a t) l m).
Proof.
  revert m. induction l as [|anon l IH]; intros m Hm; cbn [fold_left]; [done|]. apply IH.
  unfold discovery_step. destruct (hm_get m anon) as [old|]; [|by apply hm_insert_wf].
  destruct (_ <? _)%Z; [by apply hm_insert_wf|done].
Qed.

(** ** One signal *)

Lemma loads_spec h e m r importer :
  ev_key e = NodeKey_InterpreterResultsKey importer → ev_extra_data e = Extra_Load (Some r) →
  (∀ pkg, first_of (imports pkg) h (hm_get m pkg)) →
  ∀ pkg, first_of (imports pkg) (h ++ [Signal_Evaluation e])
    (hm_get (fold_left (load_edge_step importer)
       (unique [] (concat (EvaluationResult_target_deps r))) m) pkg).
Proof.
  intros Hk Hr Hm pkg. rewrite load_edges_get. specialize (Hm pkg).
  destruct (hm_get m pkg) as [p|]; [by apply first_of_old|].
  destruct (decide _) as [[Hin Hne]|Hno].
  - apply first_of_hit; [done|]. apply unique_elem in Hin as [Hin _]. by exists e, r.
  - apply first_of_miss; [|done]. intros v (e' & r' & [= <-] & Hk' & Hr' & Hin & Hne).
    apply Hno. rewrite unique_elem. rewrite Hr in Hr'. rewrite Hk in Hk'.
    injection Hr' as <-. injection Hk' as <-. split; [|done]. split; [done|]. apply not_elem_of_nil.
Qed.

Lemma no_imports_spec h e m :
  (∀ pkg p, ¬ imports pkg (Signal_Evaluation e) p) →
  (∀ pkg, first_of (imports pkg) h (hm_get m pkg)) →
  ∀ pkg, first_of (imports pkg) (h ++ [Signal_Evaluation e]) (hm_get m pkg).
Proof. intros Hno Hm pkg. by apply first_of_miss. Qed.

Lemma enrich_load_spec h e m :
  (∀ pkg, first_of (imports pkg) h (hm_get m pkg)) →
  (∀ pkg, first_of (imports pkg) (h ++ [Signal_Evaluation e]) (hm_get (enrich_load m e).1 pkg)) ∧
  ∃ known, known_through h (ev_key e) known ∧ (enrich_load m e).2 = ev_dep_keys e ++ known.
Proof.
  intros Hm. unfold enrich_load.
  assert (∀ k, ev_key e = k → (∀ pkg, k ≠ NodeKey_InterpreterResultsKey pkg) →
    ∀ pkg p, ¬ imports pkg (Signal_Evaluation e) p) as Hother.
  { intros k Hk Hne pkg p (e' & r & [= <-] & Hk' & _). apply (Hne p). congruence. }
  destruct (ev_key e) as [| | | |importer| | | | |] eqn:Hk;
    try (cbn [fst snd]; split; [by apply no_imports_spec; [apply (Hother _ eq_refl)|]|];
         exists []; split; [done|by rewrite app_nil_r]).
  set (m' := match ev_extra_data e with Extra_Load (Some r) => _ | _ => m end).
  assert (∀ pkg, first_of (imports pkg) (h ++ [Signal_Evaluation e]) (hm_get m' pkg)) as Hm'.
  { unfold m'. destruct (ev_extra_data e) as [| |[r|]|] eqn:Hr; [| |by apply loads_spec| |];
      (apply no_imports_spec; [|done]; intros pkg p (e' & r' & [= <-] & _ & Hr' & _); congruence). }
  assert (hm_get m' importer = hm_get m importer) as Hsame.
  { unfold m'. destruct (ev_extra_data e) as [| |[r|]|]; try done. rewrite load_edges_get.
    destruct (hm_get m importer); [done|]. rewrite decide_False; [done|]. by intros [_ []]. }
  destruct (hm_get m' importer) as [first|] eqn:Hf; cbn [fst snd]; (split; [done|]).
  - eexists. split; [exists (Some first); split; [rewrite Hsame; apply Hm|reflexivity]|done].
  - exists []. split; [exists None; split; [rewrite Hsame; apply Hm|done]|by rewrite app_nil_r].
Qed.

(** A signal that is no evaluation changes none of the maps about analyses and packages. *)
Definition no_evaluation (s : BuildSignal) : Prop := ∀ e, s ≠ Signal_Evaluation e.

Lemma no_evaluation_spec s (Hs : no_evaluation s) :
  (∀ k f, ¬ splits k s f) ∧ (∀ pkg p, ¬ imports pkg s p) ∧ (∀ k a, ¬ discovers k s a).
Proof.
  split_and!; [intros k f (e & d & -> & _)|intros pkg p (e & r & -> & _)|
    intros k a (e & d & x & -> & _)]; by apply (Hs e).
Qed.

Context (b : B).

Lemma process_evaluation_spec h self calls e :
  receiver_inv b h self calls →
  ∃ c, receiver_inv b (h ++ [Signal_Evaluation e]) (process_evaluation self e) (calls ++ [c]).
Proof.
  intros [Hedge Hsplit Hanon Hwf Hsuite Hcalls Hback]. unfold process_evaluation.
  destruct (enrich_load_spec h e _ Hedge) as (Hedge' & known & Hknown & Hdeps).
  destruct (enrich_load _ e) as [edges deps]; cbn [fst snd] in Hedge', Hdeps. subst deps.
  set (deps := _ <$> _).
  assert (call_of h (Signal_Evaluation e)
    (Call_process_node (mkNodeSignal _ _ (ev_key e) (ev_extra_data e) (ev_duration e) deps
       (ev_spans e) (ev_waiting_data e)))) as Hc.
  { apply (call_evaluation h e known deps); [done|]. unfold deps.
    apply Forall2_fmap_r, Forall_Forall2_diag, Forall_forall.
    intros dep _. eexists. split; [apply Hsplit|done]. }
  assert (∀ s, last_of (lists_suite s) (h ++ [Signal_Evaluation e])
    (hm_get (br_test_listing_keys self) s)) as Hsuite'.
  { intros s. apply last_of_miss; [|done]. by intros v (t & ? & _). }
  eexists. destruct (ev_split_discovery e) as [d|] eqn:Hd; split;
    cbn [br_first_edge_to_load br_split_analysis_finish_keys br_first_analysis_for_anon_target
         br_test_listing_keys br_backend]; try done; try (by apply calls_of_snoc);
    try (by rewrite foldl_app, <- Hback).
  - intros k. rewrite hm_get_insert. destruct (rust_eq _ k) eqn:Ek.
    + apply last_of_hit. by exists e, d.
    + apply last_of_miss; [|done]. intros v (e' & d' & [= <-] & Hd' & Ek' & _). congruence.
  - intros k. rewrite discoveries_get. destruct (existsb _ _) eqn:Ek.
    + apply existsb_exists in Ek as (anon & Hin & Ek).
      apply (earliest_of_hit snd (discovers k)); [|apply Hanon].
      intros v. split; [intros (e' & d' & ? & [= <-] & Hd' & _ & _ & ->); by simplify_eq|].
      intros ->. exists e, d, anon. split_and!; try done. by apply list_elem_of_In.
    + apply earliest_of_miss; [|done]. intros v (e' & d' & anon & [= <-] & Hd' & Hin & Ek' & _).
      rewrite Hd in Hd'. injection Hd' as <-. apply not_true_iff_false in Ek. apply Ek.
      apply existsb_exists. exists anon. split; [by apply list_elem_of_In|done].
  - by apply discoveries_wf.
  - intros k. apply last_of_miss; [|done]. intros v (e' & d' & [= <-] & Hd' & _). congruence.
  - intros k. apply earliest_of_miss; [|done].
    intros v (e' & d' & anon & [= <-] & Hd' & _). congruence.
Qed.

(** The other signals touch the backend and, for a listing, the map of the listings. *)
Lemma other_signal_spec h self calls s c (self' : BuildSignalReceiver B) :
  no_evaluation s → receiver_inv b h self calls → call_of h s c →
  br_first_edge_to_load self' = br_first_edge_to_load self →
  br_first_analysis_for_anon_target self' = br_first_analysis_for_anon_target self →
  br_split_analysis_finish_keys self' = br_split_analysis_finish_keys self →
  (∀ n, last_of (lists_suite n) (h ++ [s]) (hm_get (br_test_listing_keys self') n)) →
  br_backend self' = apply_call (br_backend self) c →
  receiver_inv b (h ++ [s]) self' (calls ++ [c]).
Proof.
  intros Hs [Hedge Hsplit Hanon Hwf Hsuite Hcalls Hback] Hc He Ha Hk Hl Hb.
  destruct (no_evaluation_spec s Hs) as (Hsp & Him & Hdi).
  split; rewrite ?He, ?Ha, ?Hk; try done.
  - intros pkg. by apply first_of_miss.
  - intros k. by apply last_of_miss.
  - intros k. by apply earliest_of_miss.
  - by apply calls_of_snoc.
  - by rewrite foldl_app, <- Hback.
Qed.

Lemma no_listing_spec h self calls s :
  (∀ t, s ≠ Signal_TestListing t) → receiver_inv b h self calls →
  ∀ n, last_of (lists_suite n) (h ++ [s]) (hm_get (br_test_listing_keys self) n).
Proof.
  intros Hs Hinv n. apply last_of_miss; [|apply Hinv]. intros v (t & -> & _). by apply (Hs t).
Qed.

Lemma process_test_listing_spec h self calls t :
  receiver_inv b h self calls →
  ∃ c, receiver_inv b (h ++ [Signal_TestListing t]) (process_test_listing self t) (calls ++ [c]).
Proof.
  intros Hinv. eexists. eapply other_signal_spec; try done; [constructor| |done].
  intros n. cbn. rewrite hm_get_insert.
  destruct (rust_eq (tls_suite t) n) eqn:En; unfold rust_eq, string_rust_eq, rust_eq_dec in En.
  - apply bool_decide_eq_true in En. subst n. apply last_of_hit. by exists t.
  - apply bool_decide_eq_false in En. apply last_of_miss; [|apply Hinv].
    intros v (t' & [= <-] & ? & _). done.
Qed.

Lemma receive_spec h self calls events :
  receiver_inv b h self calls →
  ∃ calls', receiver_inv b (h ++ reported events) (receive self events) calls'.
Proof.
  revert h self calls. induction events as [|s events IH]; intros h self calls Hinv; cbn.
  { exists calls. by rewrite app_nil_r. }
  assert (∀ self', (∃ c, receiver_inv b (h ++ [s]) self' (calls ++ [c])) →
    ∃ calls', receiver_inv b (h ++ s :: reported events) (receive self' events) calls') as Hnext.
  { intros self' [c Hc]. rewrite cons_middle, app_assoc. by eapply IH. }
  destruct s as [e|t|m|t|t|]; try apply Hnext.
  - by apply process_evaluation_spec.
  - destruct t as [target artifacts]. eexists.
    eapply other_signal_spec; try done; [apply call_top_level_target|by apply (no_listing_spec h self calls)|done].
  - eexists. eapply other_signal_spec; try done; [apply call_final_materialization|by apply (no_listing_spec h self calls)|done].
  - eexists. eapply other_signal_spec; try done; [apply call_test_execution, Hinv|by apply (no_listing_spec h self calls)|].
    done.
  - by apply process_test_listing_spec.
  - exists calls. by rewrite app_nil_r.
Qed.

Lemma receiver_spec events :
  let h := reported events in
  ∃ calls edges,
    calls_of h calls ∧ hm_wf edges ∧
    (∀ anon, ∃ o, earliest_of snd (discovers anon) h o ∧ hm_get edges anon = fst <$> o) ∧
    run (BuildSignalReceiver_new b) events = finish (foldl apply_call b calls) edges.
Proof.
  destruct (receive_spec [] _ [] events (receiver_inv_new b)) as [calls Hinv].
  rewrite app_nil_l in Hinv. set (self := receive _ _) in Hinv.
  exists calls, ((λ x, (x.1, x.2.1)) <$> br_first_analysis_for_anon_target self).
  destruct Hinv as [_ _ Hanon Hwf _ Hcalls Hback]. split; [done|]. split; [|split].
  - clear -Hwf. induction (br_first_analysis_for_anon_target self) as [|[k a] m IH]; [done|].
    destruct Hwf as [Hf Hwf]. split; [|by apply IH]. apply Forall_fmap. exact Hf.
  - intros anon. eexists. split; [apply Hanon|].
    clear. induction (br_first_analysis_for_anon_target self) as [|[k a] m IH]; [done|].
    cbn. by destruct (rust_eq k anon).
  - unfold run. fold self. by rewrite Hback.
Qed.

(** C12. For every sequence of events and every backend, the receiver makes one call of the
    backend for each signal before the end of the build.  A node's dependencies are those of its
    evaluation, for a package also the first one that imported it, each replaced by the second part
    of its analysis when that was split before; a test depends on the last listing of its suite.
    At the end the backend is given, for each anonymous target, the analysis whose first part
    ended earliest among those that discovered it. *)
Theorem receiver_correct events :
  let h := reported events in
  ∃ calls edges,
    calls_of h calls ∧ hm_wf edges ∧
    (∀ anon, ∃ o, earliest_of snd (discovers anon) h o ∧ hm_get edges anon = fst <$> o) ∧
    run (BuildSignalReceiver_new b) events = finish (foldl apply_call b calls) edges.
Proof. exact (receiver_spec events). Qed.

(** ** A split analysis *)

Lemma splits_ext k k' s f : rust_eq k k' = true → splits k s f → splits k' s f.
Proof.
  intros E (e & d & -> & Hd & E' & ->). exists e, d. split_and!; try done. by eapply rust_eq_trans.
Qed.

Lemma last_split h1 s h2 k f o :
  splits k s f → (∀ s' f', s' ∈ h2 → ¬ splits k s' f') →
  last_of (splits k) (h1 ++ s :: h2) o → o = Some f.
Proof.
  intros Hs Hno. destruct o as [f'|]; intros Hl.
  - destruct Hl as (i & s' & Hi & Hp & Hlast).
    destruct (Nat.lt_trichotomy i (length h1)) as [Hlt|[->|Hgt]].
    + exfalso. apply (Hlast (length h1) s f); [done| |done].
      by rewrite lookup_app_r, Nat.sub_diag by lia.
    + rewrite lookup_app_r, Nat.sub_diag in Hi by lia. injection Hi as <-.
      destruct Hs as (e & d & -> & _ & _ & ->), Hp as (e' & d' & [= <-] & _ & _ & ->). done.
    + exfalso. rewrite lookup_app_r in Hi by lia.
      destruct (i - length h1) as [|j] eqn:Ej; [lia|]. cbn in Hi.
      by eapply Hno; [eapply list_elem_of_lookup_2|].
  - exfalso. eapply Hl; [|done]. apply elem_of_app. right. apply elem_of_cons. by left.
Qed.

Lemma no_split h k o : (∀ s f, s ∈ h → ¬ splits k s f) → last_of (splits k) h o → o = None.
Proof.
  intros Hno. destruct o as [f|]; [|done]. intros (i & s & Hi & Hs & _). exfalso.
  by eapply Hno; [eapply list_elem_of_lookup_2|].
Qed.

(** The signals of an analysis that waited for anonymous targets. *)
Lemma key_activated_split now key deps d part2 k sigs :
  NodeKey_from_dyn_key key = Some k → ak_anon_target_split d = Some part2 →
  key_activated now key deps (Evaluated (Some (AnalysisKeyData d))) = Ok sigs →
  ∃ e1 e2 disc, sigs = [Signal_Evaluation e1; Signal_Evaluation e2] ∧
    ev_key e1 = k ∧ ev_duration e1 = whole_span (ak_time_span d) ∧
    ev_dep_keys e1 = filter (λ x, is_anon_dep x = false) (omap NodeKey_from_dyn_key deps) ∧
    ev_split_discovery e1 = None ∧
    ev_key e2 = make_finish_key k (AnalysisNodeData_from_extra_data (ak_target_rule_type_name d)) ∧
    ev_duration e2 = whole_span part2 ∧
    ev_dep_keys e2 = k :: filter (λ x, is_anon_dep x = true) (omap NodeKey_from_dyn_key deps) ∧
    ev_split_discovery e2 = Some disc ∧ sd_discovering_analysis disc = k ∧
    sd_discovering_analysis_end disc = TimeSpan_end (ak_time_span d) ∧
    sd_anon_targets disc = filter (λ x, is_anon_dep x = true) (omap NodeKey_from_dyn_key deps).
Proof.
  intros Hk Hs. unfold key_activated. rewrite Hk, Hs.
  destruct (NodeDuration_zero now) as [z|]; [|done]. cbn [mbind outcome_bind]. intros [= <-].
  eexists _, _, _. split; [reflexivity|]. done.
Qed.

Lemma make_finish_key_top_level target data :
  rust_eq (finish_key_of target) (make_finish_key (NodeKey_AnalysisKey target) data) = true.
Proof.
  unfold rust_eq, NodeKey_eqb, finish_key_of, make_finish_key, BuildSignalsNodeKey_eqb,
    AnalysisFinishNodeKey_eqb. cbn. by rewrite !bool_decide_true.
Qed.

(** When an analysis was split, whatever else is evaluated: the backend gets a node for its
    first part, without the anonymous targets, and after it a node for the second part, which
    depends on the first (not on itself); every node evaluated later that depends on the analysis
    depends in the graph on the second part; that is also the node that the discovery of a
    top-level target's artifacts looks for; and no anonymous target of it is recorded as
    discovered later than the end of the first part. *)
Theorem split_analysis_ordered now key deps d part2 k sigs before after calls
    (Hk : NodeKey_from_dyn_key key = Some k)
    (Hpart2 : ak_anon_target_split d = Some part2)
    (Hsigs : key_activated now key deps (Evaluated (Some (AnalysisKeyData d))) = Ok sigs)
    (Honce : ∀ s f, s ∈ before ++ after → ¬ splits k s f)
    (Hcalls : calls_of (before ++ sigs ++ after) calls) :
  ∃ c1 c2,
    calls !! length before = Some (Call_process_node c1) ∧
    calls !! S (length before) = Some (Call_process_node c2) ∧
    (ns_key c1 = k ∧ ns_duration c1 = whole_span (ak_time_span d)) ∧
    (ns_duration c2 = whole_span part2 ∧ ns_dep_keys c2 !! 0 = Some k) ∧
    (∀ i e c j dep, after !! i = Some (Signal_Evaluation e) →
       calls !! (2 + length before + i) = Some (Call_process_node c) →
       ev_dep_keys e !! j = Some dep → rust_eq dep k = true →
       ns_dep_keys c !! j = Some (ns_key c2)) ∧
    (∀ target, k = NodeKey_AnalysisKey target → rust_eq (finish_key_of target) (ns_key c2) = true) ∧
    (∀ anon o, anon ∈ omap NodeKey_from_dyn_key deps → is_anon_dep anon = true →
       earliest_of snd (discovers anon) (before ++ sigs ++ after) o →
       ∃ a t, o = Some (a, t) ∧ (t <= TimeSpan_end (ak_time_span d))%Z).
Proof.
  destruct (key_activated_split _ _ _ _ _ _ _ Hk Hpart2 Hsigs)
    as (e1 & e2 & disc & -> & Hk1 & Hd1 & _ & Hs1 & Hk2 & Hd2 & Hdeps2 & Hs2 & Ha & Hend & Hanon).
  cbn [app] in *. set (s2 := Signal_Evaluation e2) in *.
  set (h := before ++ Signal_Evaluation e1 :: s2 :: after) in *.
  assert (h !! length before = Some (Signal_Evaluation e1)) as Hh1.
  { by apply list_lookup_middle. }
  assert (h !! S (length before) = Some s2) as Hh2.
  { unfold h. rewrite lookup_app_r by lia. by replace (S _ - _) with 1 by lia. }
  destruct Hcalls as [Hlen Hcalls].
  destruct (lookup_lt_is_Some_2 calls (length before)) as [c1 Hc1].
  { rewrite Hlen. by eapply lookup_lt_Some. }
  destruct (lookup_lt_is_Some_2 calls (S (length before))) as [c2 Hc2].
  { rewrite Hlen. by eapply lookup_lt_Some. }
  assert (∀ i, i ≤ 1 → ∀ s f, s ∈ take (length before + i) h → ¬ splits k s f) as Hno.
  { intros i Hi s f Hin. unfold h in Hin. rewrite take_app_add in Hin.
    apply elem_of_app in Hin as [Hin|Hin]; [apply Honce, elem_of_app; by left|].
    destruct i as [|[|i]]; [by apply elem_of_nil in Hin| |lia]. cbn in Hin.
    apply list_elem_of_singleton in Hin as ->. intros (e & ? & [= <-] & ? & _). congruence. }
  pose proof (Hcalls _ _ _ Hh1 Hc1) as Hcall1. pose proof (Hcalls _ _ _ Hh2 Hc2) as Hcall2.
  inversion Hcall1 as [? known1 deps1 _ _ Heq1 Heqc1| | | |]; subst c1; clear Hcall1.
  inversion Hcall2 as [? known2 deps2 _ Hf2 Heq2 Heqc2| | | |]; subst c2; clear Hcall2.
  eexists _, _. split; [exact Hc1|]. split; [exact Hc2|]. cbn [ns_key ns_duration ns_dep_keys].
  split; [done|]. split.
  { split; [done|]. rewrite Hdeps2 in Hf2. cbn [app] in Hf2. inversion Hf2 as [|? dep' ? l' (o & Ho & ->)].
    subst. cbn. apply no_split in Ho as ->; [done|].
    replace (S (length before)) with (length before + 1) by lia. by apply Hno. }
  split; [|split].
  - intros i ev c j dep Hi Hc Hj E.
    assert (h !! (2 + length before + i) = Some (Signal_Evaluation ev)) as Hh.
    { unfold h. rewrite lookup_app_r by lia. by replace (_ + i - _) with (S (S i)) by lia. }
    pose proof (Hcalls _ _ _ Hh Hc) as Hcall.
    inversion Hcall as [? known' deps' _ Hf Heq Heqc| | | |]. subst. cbn [ns_dep_keys].
    destruct (Forall2_lookup_l _ _ _ j dep Hf) as (dep' & Hdep' & o & Ho & ->).
    { by apply lookup_app_l_Some. }
    rewrite Hdep'. f_equal.
    replace (take (2 + length before + i) h)
      with ((before ++ [Signal_Evaluation e1]) ++ s2 :: take i after) in Ho.
    2: { unfold h. replace (2 + length before + i) with (length before + S (S i)) by lia.
         rewrite take_app_add. cbn [take]. by rewrite <- app_assoc. }
    apply (last_split _ _ _ _ (ev_key e2)) in Ho as ->; [done| |].
    + exists e2, disc. split_and!; try done. rewrite Ha. by apply rust_eq_sym.
    + intros s' f' Hin Hsp. apply (Honce s' f'); [|by eapply splits_ext].
      rewrite <- (take_drop i after), !elem_of_app. by right; left.
  - intros target ->. rewrite Hk2. apply make_finish_key_top_level.
  - intros anon o Hin His Ho.
    assert (discovers anon s2 (k, TimeSpan_end (ak_time_span d))) as Hdisc.
    { exists e2, disc, anon. rewrite Ha, Hend. split_and!; try done.
      - rewrite Hanon. by apply list_elem_of_filter; split.
      - apply rust_eq_refl. }
    destruct o as [[a t]|].
    + exists a, t. split; [done|]. destruct Ho as (i & s & _ & _ & Hle).
      by apply (Hle _ _ _ Hh2 Hdisc).
    + exfalso. eapply Ho; [|exact Hdisc]. by eapply list_elem_of_lookup_2.
Qed.
End ReceiverSpec.

(** * A build with a split analysis *)

(** Package 5 is loaded and imports package 6, which is loaded next; the analysis of target 7 waits
    for the anonymous target 3 between 20 and 30; action 2 of the target follows. *)
Definition signals_sent (o : outcome (list BuildSignal)) : list BuildSignal :=
  match o with Ok l => l | Panic => [] end.

Definition example_split : AnalysisKeyActivationData :=
  mkAnalysisKeyActivationData WaitingData_new (mkTimeSpan 10 20) [2%N] None
    (Some (mkTimeSpan 30 40)).

Definition example_anon : DynKey := DynKey_Provides "AnonTargetKey" (BSKey_AnonTarget 3).

Definition example_split_signals : list BuildSignal :=
  signals_sent (key_activated 0 (DynKey_AnalysisKey 7)
    [DynKey_InterpreterResultsKey 5; example_anon]
    (Evaluated (Some (AnalysisKeyData example_split)))).

Definition example_before : list BuildSignal :=
  signals_sent (key_activated 0 (DynKey_InterpreterResultsKey 5) []
    (Evaluated (Some (InterpreterResultsKeyActivationData (mkTimeSpan 0 5) (Some [[6; 5]; [6]]) [1%N])))) ++
  signals_sent (key_activated 0 (DynKey_InterpreterResultsKey 6) []
    (Evaluated (Some (InterpreterResultsKeyActivationData (mkTimeSpan 5 10) None [4%N])))) ++
  signals_sent (key_activated 0 example_anon []
    (Evaluated (Some (AnalysisKeyData
      (mkAnalysisKeyActivationData WaitingData_new (mkTimeSpan 22 29) [5%N] None None))))).

Definition example_after : list BuildSignal :=
  signals_sent (key_activated 0 (DynKey_BuildKey 2)
    [DynKey_InterpreterResultsKey 6; DynKey_AnalysisKey 7]
    (Evaluated (Some (BuildKeyActivationData ((2, []) : RegisteredAction)
       (mkActionExtraData (H := example_types) tt None None None) (whole_span (mkTimeSpan 40 90)) WaitingData_new
       [3%N])))).

(** The slowest path goes through both parts of the analysis and the anonymous target, which the
    first part discovered. *)
Example example_run :
  match run (BuildSignalReceiver_new LongestPathGraphBackend_new)
          (example_before ++ example_split_signals ++ example_after ++
           [Signal_TopLevelTarget (mkTopLevelTargetSignal 7 [Resolved_BuildKey 2]);
            Signal_BuildFinished; Signal_TopLevelTarget (mkTopLevelTargetSignal 8 [])]) with
  | Ok (inl info) =>
      de_key <$> dcp_entries (bi_slowest_path info) =
        [NodeKey_InterpreterResultsKey 5; NodeKey_AnalysisKey 7;
         NodeKey_Dyn "AnonTargetKey" (BSKey_AnonTarget 3);
         NodeKey_Dyn "AnalysisFinishKey" (BSKey_AnalysisFinish (mkAnalysisFinishNodeKey 7 None));
         NodeKey_BuildKey 2]
  | _ => False
  end.
Proof. vm_compute. reflexivity. Qed.

Definition logging_backend : BuildListenerBackend unit := {|
  process_node := λ _ _, tt; process_top_level_target := λ _ _ _, tt;
  finish := λ _, LoggingBackend_finish;
|}.

Lemma split_analysis_ordered_witness :
  ∃ calls c1 c2 c,
    calls_of (example_before ++ example_split_signals ++ example_after) calls ∧
    calls !! 3 = Some (Call_process_node c1) ∧ calls !! 4 = Some (Call_process_node c2) ∧
    calls !! 5 = Some (Call_process_node c) ∧ ns_key c1 = NodeKey_AnalysisKey 7 ∧
    ns_dep_keys c2 !! 0 = Some (NodeKey_AnalysisKey 7) ∧ ns_dep_keys c !! 1 = Some (ns_key c2).
Proof.
  destruct (receiver_spec (LB := logging_backend) tt
    (example_before ++ example_split_signals ++ example_after)) as (calls & _ & Hcalls & _).
  change (reported _) with (example_before ++ example_split_signals ++ example_after) in Hcalls.
  destruct (split_analysis_ordered 0 (DynKey_AnalysisKey (H := example_types) 7)
    [DynKey_InterpreterResultsKey (H := example_types) 5; example_anon] example_split (mkTimeSpan 30 40)
    (NodeKey_AnalysisKey (H := example_types) 7) example_split_signals example_before example_after calls
    eq_refl eq_refl ltac:(by vm_compute)) as (c1 & c2 & H1 & H2 & [H3 _] & [_ H4] & H5 & _);
    [|exact Hcalls|].
  - assert (Forall (λ s, ∀ e, s = Signal_Evaluation e → ev_split_discovery e = None)
      (example_before ++ example_after)) as Hnone.
    { repeat constructor; by intros ? [= <-]. }
    intros s f Hin (e & d & He & Hd & _). rewrite Forall_forall in Hnone.
    by rewrite (Hnone _ Hin _ He) in Hd.
  - destruct (lookup_lt_is_Some_2 calls 5) as [c Hc]; [by rewrite (proj1 Hcalls); apply Nat.ltb_lt|].
    destruct Hcalls as [Hlen Hcalls].
    pose proof (Hcalls 5 _ _ eq_refl Hc) as Hcall. inversion Hcall; subst.
    eexists calls, c1, c2, _. split; [by split|]. split; [exact H1|]. split; [exact H2|].
    split; [exact Hc|]. split; [exact H3|]. split; [exact H4|].
    by apply (H5 0 _ _ 1 (NodeKey_AnalysisKey (H := example_types) 7) eq_refl Hc eq_refl).
Defined.
