(* ===== verification/SignalProto.v ===== *)
(** How the paths of a build become entries of its report: [CriticalPathProtoEnhancer], which
    fills the time between the nodes of a path with entries for waiting
    ([src/app/bz_build_signals_impl/src/enhancement.rs]), the two conversions of
    [DetailedCriticalPath], and the event at the end of [run_and_log]
    ([src/app/bz_build_signals_impl/src/lib.rs]).  The times at which the clock is read are
    arguments.  The message types are records; converting a duration to the message type is the
    interface [ProtoDurations]. *)
From S2P Require Import Prelude.
From S2P Require Import TimeSpan.
From S2P Require Import CritGraph.
From S2P Require Import SignalNodes.
From S2P Require Import SignalWork.
From S2P Require Import SignalPaths.
From S2P Require Import SignalReceiver.
From stdpp Require Import strings.
Local Open Scope dice_scope.

(** * Messages *)

(** [prost_types::Duration] *)
Record ProtoDuration := mkProtoDuration { pd_seconds : Z; pd_nanos : Z }.

Definition ProtoDuration_default : ProtoDuration := mkProtoDuration 0 0.

Definition i64_max : Z := (2 ^ 63 - 1)%Z.
Definition i32_max : Z := (2 ^ 31 - 1)%Z.

(** [Duration::try_into] for the message type. *)
Class ProtoDurations := Duration_try_into_proto : Duration → option ProtoDuration.

(** Its documentation: the seconds and the rest in nanoseconds, or a failure when the seconds
    do not fit. *)
Class ProtoDurationLaws `{ProtoDurations} : Prop := {
  try_into_fits d : (Z.of_N d / 10 ^ 9 <= i64_max)%Z →
    Duration_try_into_proto d =
      Some (mkProtoDuration (Z.of_N d / 10 ^ 9) (Z.of_N d mod 10 ^ 9));
  try_into_large d : (i64_max < Z.of_N d / 10 ^ 9)%Z → Duration_try_into_proto d = None;
}.

Definition duration_to_proto_saturating `{ProtoDurations} (duration : Duration) : ProtoDuration :=
  default (mkProtoDuration i64_max i32_max) (Duration_try_into_proto duration).

(** * Early timings of a command *)

Record EarlyCommandTiming := mkEarlyCommandTiming {
  et_command_start : Instant;
  et_early_spans : list (Instant * string);
  et_early_command_end : Instant;
}.

Record EarlyCommandTimingBuilder := mkEarlyCommandTimingBuilder {
  etb_command_start : Instant;
  etb_early_spans : list (Instant * string);
}.

Definition OTHER_COMMAND_START_OVERHEAD : string := "other-command-start-overhead".

Definition EarlyCommandTimingBuilder_new (command_start : Instant) : EarlyCommandTimingBuilder :=
  mkEarlyCommandTimingBuilder command_start [].

Definition EarlyCommandTimingBuilder_start_span (self : EarlyCommandTimingBuilder)
    (now : Instant) (name : string) : EarlyCommandTimingBuilder :=
  mkEarlyCommandTimingBuilder (etb_command_start self) (etb_early_spans self ++ [(now, name)]).

Definition EarlyCommandTimingBuilder_end_known_span (self : EarlyCommandTimingBuilder)
    (now : Instant) : EarlyCommandTimingBuilder :=
  mkEarlyCommandTimingBuilder (etb_command_start self)
    (etb_early_spans self ++ [(now, OTHER_COMMAND_START_OVERHEAD)]).

Definition EarlyCommandTimingBuilder_finish_early_command_timing
    (self : EarlyCommandTimingBuilder) (now : Instant) : EarlyCommandTiming :=
  mkEarlyCommandTiming (etb_command_start self) (etb_early_spans self) now.

Section Proto.
Context `{SO : SignalOps} `{PD : ProtoDurations}.

(** [CriticalPathEntry2] *)
Record CriticalPathEntry2 := mkCriticalPathEntry2 {
  cpe_span_ids : list N;
  cpe_duration : option ProtoDuration;
  cpe_user_duration : option ProtoDuration;
  cpe_queue_duration : option ProtoDuration;
  cpe_total_duration : option ProtoDuration;
  cpe_potential_improvement_duration : option ProtoDuration;
  cpe_non_critical_path_duration : option ProtoDuration;
  cpe_start_offset_ns : option N;
  cpe_entry : option Entry;
}.

Definition start_offset_ns (start command_start : Instant) : N :=
  u64_saturating_from
    (Duration_as_nanos (Instant_saturating_duration_since start command_start)).

(** * The enhancer *)

Definition CRITICAL_PATH_OVERHEAD : string := "critical_path_overhead".

Record CriticalPathProtoEnhancer := mkCriticalPathProtoEnhancer {
  en_command_start : Instant;
  en_last_entry_end : Instant;
  en_entries : list CriticalPathEntry2;
}.

Definition CriticalPathProtoEnhancer_new (command_start : Instant) : CriticalPathProtoEnhancer :=
  mkCriticalPathProtoEnhancer command_start command_start [].

Definition create_simple_entry (self : CriticalPathProtoEnhancer) (entry : Entry)
    (start_time : Instant) (duration non_critical_duration : Duration) : CriticalPathEntry2 :=
  let duration_proto := duration_to_proto_saturating duration in
  mkCriticalPathEntry2 [] (Some duration_proto) (Some ProtoDuration_default) None
    (Some duration_proto) (Some ProtoDuration_default)
    (Some (duration_to_proto_saturating non_critical_duration))
    (Some (start_offset_ns start_time (en_command_start self))) (Some entry).

(** Overlaps are only logged. *)
Definition add_entry_impl (self : CriticalPathProtoEnhancer) (waiting_category : option string)
    (time_span : TimeSpan) (entry : CriticalPathEntry2) : CriticalPathProtoEnhancer :=
  let entry_start := TimeSpan_start time_span in
  let missing_duration := Instant_saturating_duration_since entry_start (en_last_entry_end self) in
  let entries :=
    if (0 <? Duration_as_millis missing_duration)%N then
      en_entries self ++
      [create_simple_entry self
         (Entry_Waiting (Some (default CRITICAL_PATH_OVERHEAD waiting_category)))
         (en_last_entry_end self) Duration_ZERO missing_duration]
    else en_entries self in
  mkCriticalPathProtoEnhancer (en_command_start self) (TimeSpan_end time_span) (entries ++ [entry]).

Definition add_simple_entry (self : CriticalPathProtoEnhancer) (waiting_category : option string)
    (entry : Entry) (time_span : TimeSpan) (is_critical : bool) : CriticalPathProtoEnhancer :=
  let '(duration, non_critical_duration) :=
    if is_critical then (TimeSpan_duration time_span, Duration_ZERO)
    else (Duration_ZERO, TimeSpan_duration time_span) in
  add_entry_impl self waiting_category time_span
    (create_simple_entry self entry (TimeSpan_start time_span) duration non_critical_duration).

Definition ready_waiting_category (entry : Entry) : string :=
  match entry with
  | Entry_ActionExecution _ _ _ _ _ _ => "action_scheduling"
  | Entry_Analysis _ _ _ | Entry_AnonAnalysis _ _ | Entry_DynamicAnalysis _ => "analysis_scheduling"
  | Entry_FinalMaterialization _ _ => "materialization_scheduling"
  | Entry_ComputeCriticalPath => "critical_path_scheduling"
  | Entry_Load _ => "package_load_scheduling"
  | Entry_Listing _ => "package_listing_scheduling"
  | Entry_GenericEntry kind => kind +:+ "_scheduling"
  | Entry_Waiting _ => CRITICAL_PATH_OVERHEAD
  | Entry_TestExecution _ _ _ _ => "test_execution_scheduling"
  | Entry_TestListing _ _ => "test_listing_scheduling"
  | Entry_EnsureTransitiveSetProjection => "transitive_set_projection_scheduling"
  end.

(** One iteration of the loop of [add_entry] over the spans of waiting. *)
Definition add_waiting_span (ready_waiting_category : string) (waiting_span : TimeSpan)
    (self : CriticalPathProtoEnhancer) (x : TimeSpan * WaitingCategory) :
    CriticalPathProtoEnhancer :=
  match TimeSpan_intersection x.1 waiting_span with
  | Some time_span =>
      if (Duration_ZERO <? TimeSpan_duration time_span)%N then
        let category :=
          if decide (x.2 = Ready) then ready_waiting_category
          else WaitingCategory_variant_name_lowercase x.2 in
        add_simple_entry self (Some CRITICAL_PATH_OVERHEAD) (Entry_Waiting (Some category))
          time_span false
      else self
  | None => self
  end.

Definition add_entry (self : CriticalPathProtoEnhancer) (entry : DetailedCriticalPathEntry) :
    CriticalPathProtoEnhancer :=
  let data := de_data entry in
  let proto_entry := into_critical_path_entry_data (de_key entry) (nda_extra_data data) in
  let ready_waiting_category := ready_waiting_category proto_entry in
  let waiting_for_deps_start := en_last_entry_end self in
  let waiting_for_deps_end := default waiting_for_deps_start (de_deps_finished_time entry) in
  let self :=
    if negb (Instant_saturating_duration_since waiting_for_deps_end waiting_for_deps_start
             =? Duration_ZERO)%N then
      add_simple_entry self (Some CRITICAL_PATH_OVERHEAD) (Entry_Waiting (Some "for_deps"))
        (TimeSpan_new_saturating waiting_for_deps_start waiting_for_deps_end) false
    else self in
  let total := nd_total (nda_duration data) in
  let total :=
    if (TimeSpan_start total <? waiting_for_deps_end)%Z then
      TimeSpan_new_saturating waiting_for_deps_end (TimeSpan_end total)
    else total in
  let node_start := TimeSpan_start total in
  let waiting_span := TimeSpan_new_saturating waiting_for_deps_end node_start in
  let self :=
    fold_left (add_waiting_span ready_waiting_category waiting_span)
      (WaitingData_iter_spans (nda_waiting_data data) waiting_for_deps_end node_start) self in
  add_entry_impl self (Some CRITICAL_PATH_OVERHEAD) total
    (mkCriticalPathEntry2 (nda_span_ids data)
       (Some (duration_to_proto_saturating
          (default (TimeSpan_duration total) (de_critical_path_duration entry))))
       (Some (duration_to_proto_saturating (nd_user (nda_duration data))))
       (duration_to_proto_saturating <$> nd_queue (nda_duration data))
       (Some (duration_to_proto_saturating (TimeSpan_duration total)))
       (duration_to_proto_saturating <$> de_potential_improvement entry)
       None
       (Some (start_offset_ns (TimeSpan_start total) (en_command_start self)))
       (Some proto_entry)).

(** * The reports of a path *)

(** One iteration of the loop of [create_proto_entries_for_early_timings]. *)
Definition early_step (st : CriticalPathProtoEnhancer * string * Instant) (x : Instant * string) :
    CriticalPathProtoEnhancer * string * Instant :=
  let '(enhancer, current_kind, current_start) := st in
  let span_start := Z.max x.1 current_start in
  (add_simple_entry enhancer None (Entry_GenericEntry current_kind)
     (TimeSpan_new_saturating current_start span_start) true, x.2, span_start).

Definition create_proto_entries_for_early_timings (enhancer : CriticalPathProtoEnhancer)
    (early_command_timing : EarlyCommandTiming) : CriticalPathProtoEnhancer :=
  let '(enhancer, current_kind, current_start) :=
    fold_left early_step (et_early_spans early_command_timing)
      (enhancer, "buckd_command_init", et_command_start early_command_timing) in
  add_simple_entry enhancer None (Entry_GenericEntry current_kind)
    (TimeSpan_new_saturating current_start (et_early_command_end early_command_timing)) true.

Definition into_critical_path_proto (self : DetailedCriticalPath)
    (early_command_timing : EarlyCommandTiming) (critical_path_compute_start now : Instant) :
    list CriticalPathEntry2 :=
  let enhancer := CriticalPathProtoEnhancer_new (et_command_start early_command_timing) in
  let enhancer := create_proto_entries_for_early_timings enhancer early_command_timing in
  let enhancer := fold_left add_entry (dcp_entries self) enhancer in
  let enhancer :=
    add_simple_entry enhancer (Some "critical_path_final_work") Entry_ComputeCriticalPath
      (TimeSpan_new_saturating critical_path_compute_start now) true in
  en_entries enhancer.

Definition is_real_work_entry (entry : Entry) : bool :=
  match entry with
  | Entry_ActionExecution _ _ _ _ _ _ | Entry_Analysis _ _ _ | Entry_AnonAnalysis _ _
  | Entry_DynamicAnalysis _ | Entry_Load _ | Entry_Listing _ | Entry_FinalMaterialization _ _ => true
  | _ => false
  end.

Definition entry_into_real_work_critical_path_proto (self : DetailedCriticalPathEntry)
    (early_command_timing : EarlyCommandTiming) : option CriticalPathEntry2 :=
  let data := de_data self in
  match nda_span_ids data with
  | [] => None
  | _ =>
      let entry_data := into_critical_path_entry_data (de_key self) (nda_extra_data data) in
      if negb (is_real_work_entry entry_data) then None else
      Some (mkCriticalPathEntry2 (nda_span_ids data)
        (Some (duration_to_proto_saturating
           (default (NodeDuration_critical_path_duration (nda_duration data))
              (de_critical_path_duration self))))
        (Some (duration_to_proto_saturating (nd_user (nda_duration data))))
        (duration_to_proto_saturating <$> nd_queue (nda_duration data))
        (Some (duration_to_proto_saturating (TimeSpan_duration (nd_total (nda_duration data)))))
        (duration_to_proto_saturating <$> de_potential_improvement self)
        None
        (Some (start_offset_ns (TimeSpan_start (nd_total (nda_duration data)))
                 (et_command_start early_command_timing)))
        (Some entry_data))
  end.

Definition into_real_work_critical_path_proto (self : DetailedCriticalPath)
    (early_command_timing : EarlyCommandTiming) : list CriticalPathEntry2 :=
  omap (λ entry, entry_into_real_work_critical_path_proto entry early_command_timing)
    (dcp_entries self).

(** * The event of the build *)

(** [BuildGraphExecutionInfo], without what only describes the command. *)
Record BuildGraphExecutionInfo := mkBuildGraphExecutionInfo {
  bg_critical_path2 : list CriticalPathEntry2;
  bg_slowest_path : list CriticalPathEntry2;
  bg_num_nodes : N;
  bg_num_edges : N;
  bg_top_level_targets : list (TargetLabelProto * ProtoDuration);
  bg_build_graph_critical_path : list CriticalPathEntry2;
}.

(** [run_and_log]: the event sent, or the error returned.  The clock reads [now] before the backend
    finishes, and later at the end of each of the two conversions. *)
Definition run_and_log {B} `{LB : !BuildListenerBackend B} (self : BuildSignalReceiver B)
    (early : EarlyCommandTiming) (now graph_end slowest_end : Instant)
    (events : list BuildSignal) : outcome (BuildGraphExecutionInfo + CriticalPathError) :=
  info ← run self events;
  Ok match info with
     | inr e => inr e
     | inl info =>
         inl (mkBuildGraphExecutionInfo
           (into_real_work_critical_path_proto (bi_critical_path info) early)
           (into_critical_path_proto (bi_slowest_path info) early now slowest_end)
           (bi_num_nodes info) (bi_num_edges info)
           ((λ t, (ConfiguredTargetLabel_as_proto t.1,
                   default (mkProtoDuration i64_max 0) (Duration_try_into_proto t.2)))
              <$> bi_top_level_targets info)
           (into_critical_path_proto (bi_build_graph_critical_path info) early now graph_end))
     end.
End Proto.
