(* ===== verification/SignalReport.v ===== *)
(** The report of a path accounts for the time of the build: the entries that the enhancer emits
    follow each other from the start of the command to the end, without overlaps and with gaps of
    less than a millisecond, when no node starts its wait before the entry before it ended. *)
From S2P Require Import Prelude.
From S2P Require Import TimeSpan.
From S2P Require Import CritGraph.
From S2P Require Import SignalNodes.
From S2P Require Import SignalWork.
From S2P Require Import SignalPaths.
From S2P Require Import SignalExample.
From S2P Require Import SignalReceiver.
From S2P Require Import CritTopo.
From S2P Require Import CritPaths.
From S2P Require Import SignalChains.
From S2P Require Import SignalWorkSpec.
From S2P Require Import SignalFinish.
From S2P Require Import SignalProto.
From stdpp Require Import strings sorting.
Local Open Scope dice_scope.

Section Report.
Context `{SO : SignalOps} `{PL : ProtoDurationLaws}.
Local Open Scope Z_scope.

(** * The time an entry stands for *)

Definition proto_nanos (p : ProtoDuration) : Z := pd_seconds p * 10 ^ 9 + pd_nanos p.

(** The time of an entry, critical or not. *)
Definition entry_length (e : CriticalPathEntry2) : Z :=
  from_option proto_nanos 0 (cpe_duration e) +
  from_option proto_nanos 0 (cpe_non_critical_path_duration e).

Definition total_length (l : list CriticalPathEntry2) : Z :=
  foldr (λ e n, entry_length e + n) 0 l.

(** From [from] to [to_] the entries follow each other; what is missing before each is less than a
    millisecond. *)
Fixpoint accounts (command_start from to_ : Instant) (l : list CriticalPathEntry2) : Prop :=
  match l with
  | [] => from = to_
  | e :: l =>
      ∃ offset, cpe_start_offset_ns e = Some offset ∧
        from <= command_start + Z.of_N offset < from + 10 ^ 6 ∧ 0 <= entry_length e ∧
        accounts command_start (command_start + Z.of_N offset + entry_length e) to_ l
  end.

Lemma accounts_app cs from mid to_ l1 l2 :
  accounts cs from mid l1 → accounts cs mid to_ l2 → accounts cs from to_ (l1 ++ l2).
Proof.
  revert from. induction l1 as [|e l1 IH]; intros from; cbn; [by intros ->|].
  intros (o & ? & ? & ? & ?) ?. exists o. split_and!; try done; try lia. by apply IH.
Qed.

Lemma accounts_total cs from to_ l :
  accounts cs from to_ l →
  total_length l <= to_ - from <= total_length l + (10 ^ 6 - 1) * Z.of_nat (length l).
Proof.
  revert from. induction l as [|e l IH]; intros from; cbn [accounts total_length foldr length]; [lia|].
  intros (o & _ & ? & ? & H1%IH). unfold total_length in H1. lia.
Qed.

(** * Conversions that do not saturate *)

Lemma proto_fits d : Z.of_N d < 2 ^ 64 → proto_nanos (duration_to_proto_saturating d) = Z.of_N d.
Proof.
  intros Hd. unfold duration_to_proto_saturating. rewrite try_into_fits.
  - cbn. unfold proto_nanos. cbn [pd_seconds pd_nanos].
    pose proof (Z.div_mod (Z.of_N d) (10 ^ 9)). lia.
  - unfold i64_max. apply Z.lt_succ_r, Z.div_lt_upper_bound; lia.
Qed.

Lemma offset_fits cs t : cs <= t < cs + 2 ^ 64 → Z.of_N (start_offset_ns t cs) = t - cs.
Proof.
  intros Ht. unfold start_offset_ns, u64_saturating_from, Duration_as_nanos.
  rewrite since_spec. destruct (N.leb_spec (Z.to_N (t - cs)) (2 ^ 64 - 1)); lia.
Qed.

(** * One entry *)

(** The enhancer of a command that started at [cs] has accounted for the time until [last]. *)
Definition enhancer_inv (cs last : Instant) (self : CriticalPathProtoEnhancer) : Prop :=
  en_command_start self = cs ∧ en_last_entry_end self = last ∧ cs <= last ∧
  accounts cs cs last (en_entries self).

Lemma new_inv cs : enhancer_inv cs cs (CriticalPathProtoEnhancer_new cs).
Proof. by split_and!. Qed.

Lemma entry_impl_inv cs last self category ts e :
  enhancer_inv cs last self → ts_wf ts → last <= ts_start ts → ts_end ts < cs + 2 ^ 64 →
  cpe_start_offset_ns e = Some (start_offset_ns (ts_start ts) cs) →
  entry_length e = ts_end ts - ts_start ts →
  enhancer_inv cs (ts_end ts) (add_entry_impl self category ts e).
Proof.
  unfold ts_wf. intros (Hcs & Hlast & Hle & Hacc) Hwf Hstart Hend Hoff Hlen. unfold add_entry_impl.
  rewrite Hlast. split; [done|]. split; [done|]. split; [lia|]. cbn [en_entries].
  assert (Z.of_N (start_offset_ns (ts_start ts) cs) = ts_start ts - cs) as Ho.
  { apply offset_fits. lia. }
  assert (∀ from, from <= ts_start ts < from + 10 ^ 6 → accounts cs from (ts_end ts) [e]) as He.
  { intros from Hf. exists (start_offset_ns (ts_start ts) cs). rewrite Ho, Hlen. split; [done|].
    split; [lia|]. split; [lia|]. cbn. lia. }
  unfold TimeSpan_start, Duration_as_millis. rewrite since_spec.
  destruct (N.ltb_spec 0 (Z.to_N (ts_start ts - last) / 1000000)) as [Hgap|Hgap].
  - eapply accounts_app; [|apply (He (ts_start ts)); lia].
    eapply accounts_app; [done|]. exists (start_offset_ns last cs).
    rewrite offset_fits by lia. cbn [create_simple_entry cpe_start_offset_ns].
    rewrite Hcs. split; [done|]. split; [lia|]. unfold entry_length. cbn.
    rewrite !proto_fits by (unfold Duration_ZERO; lia). unfold Duration_ZERO. split; lia.
  - eapply accounts_app; [done|]. apply He. split; [lia|].
    assert (Z.to_N (ts_start ts - last) < 1000000)%N; [|lia].
    apply N.le_0_r in Hgap. by apply N.div_small_iff.
Qed.

Lemma simple_entry_inv cs last self category e ts critical :
  enhancer_inv cs last self → ts_wf ts → last <= ts_start ts → ts_end ts < cs + 2 ^ 64 →
  enhancer_inv cs (ts_end ts) (add_simple_entry self category e ts critical).
Proof.
  intros Hinv Hwf Hstart Hend. pose proof (duration_spec ts Hwf) as Hd. unfold ts_wf in Hwf.
  destruct Hinv as (Hcs & Hlast & Hle & Hacc). unfold add_simple_entry.
  destruct critical; apply (entry_impl_inv cs last); try done;
    try (cbn [create_simple_entry cpe_start_offset_ns]; by rewrite Hcs);
    unfold entry_length; cbn; rewrite !proto_fits by (unfold Duration_ZERO; lia);
    unfold Duration_ZERO; lia.
Qed.

(** * Waiting *)

(** [t], held between the end of the dependencies and the start of the node. *)
Definition clamp (lo hi t : Instant) : Instant := Z.max lo (Z.min t hi).

Lemma waiting_span_inv cs lo hi ready self a b category :
  lo <= hi → hi < cs + 2 ^ 64 → a <= b → enhancer_inv cs (clamp lo hi a) self →
  enhancer_inv cs (clamp lo hi b)
    (add_waiting_span ready (mkTimeSpan lo hi) self (mkTimeSpan a b, category)).
Proof.
  intros Hlh Hhi Hab Hinv. unfold add_waiting_span. cbn [fst snd].
  unfold TimeSpan_intersection. cbn [ts_start ts_end].
  destruct (Z.leb_spec (Z.max a lo) (Z.min b hi)) as [Hle|Hgt].
  - set (ts := TimeSpan_new_unchecked _ _).
    assert (ts_start ts = clamp lo hi a ∧ ts_end ts = clamp lo hi b) as [Hs He].
    { unfold ts, clamp. cbn. lia. }
    assert (ts_wf ts) as Hwf by (unfold ts_wf; rewrite Hs, He; unfold clamp; lia).
    pose proof (duration_spec ts Hwf) as Hd.
    destruct (N.ltb_spec Duration_ZERO (TimeSpan_duration ts)) as [Hlt|Hge].
    + rewrite <- He. apply (simple_entry_inv cs (clamp lo hi a)); [done|done|lia|].
      rewrite He. unfold clamp. lia.
    + unfold Duration_ZERO in Hge. replace (clamp lo hi b) with (clamp lo hi a) by lia. done.
  - replace (clamp lo hi b) with (clamp lo hi a) by (unfold clamp; lia). done.
Qed.

Lemma waiting_spans_inv cs lo hi ready self l a :
  lo <= hi → hi < cs + 2 ^ 64 → Sorted Z.le (a :: l.*1) →
  enhancer_inv cs (clamp lo hi (from_option fst hi (head l))) self →
  enhancer_inv cs hi
    (fold_left (add_waiting_span ready (mkTimeSpan lo hi)) (spans_from l hi) self).
Proof.
  intros Hlh Hhi. revert self a. induction l as [|[x category] l IH]; intros self a Hs Hinv.
  { cbn in *. unfold clamp in Hinv. by replace (Z.max lo (Z.min hi hi)) with hi in Hinv by lia. }
  cbn [spans_from fold_left]. apply Sorted_inv in Hs as [Hs _]. eapply (IH _ x Hs).
  unfold TimeSpan_new_saturating. cbn [fst snd]. set (y := from_option fst hi (head l)).
  destruct l as [|[x' category'] l]; cbn in y.
  - replace (clamp lo hi y) with (clamp lo hi (Z.max x y)) by (unfold clamp, y; lia).
    apply waiting_span_inv; [done|done|lia|done].
  - apply Sorted_inv in Hs as [_ Hx]. apply HdRel_inv in Hx. cbn in Hx.
    replace (Z.max x y) with y by (unfold y; lia).
    apply waiting_span_inv; [done|done|done|done].
Qed.

(** The instants at which the categories of waiting began, in the order of recording. *)
Definition waiting_sorted (w : WaitingData) : Prop :=
  Sorted Z.le (categorized_waiting (WaitingData_init w)).*1.

Lemma waiting_inv cs lo hi ready self w :
  lo <= hi → hi < cs + 2 ^ 64 → waiting_sorted w → enhancer_inv cs lo self →
  enhancer_inv cs hi
    (fold_left (add_waiting_span ready (TimeSpan_new_saturating lo hi))
       (WaitingData_iter_spans w lo hi) self).
Proof.
  intros Hlh Hhi Hs Hinv. rewrite iter_spans_eq.
  replace (from_option categorized_waiting [] (wd_0 w))
    with (categorized_waiting (WaitingData_init w)) by (by destruct (wd_0 w) eqn:E;
      unfold WaitingData_init; rewrite E).
  unfold waiting_sorted in Hs. set (l := categorized_waiting _) in *.
  unfold TimeSpan_new_saturating. rewrite (Z.max_r lo hi) by done. cbn [fold_left].
  set (y := from_option fst hi (head l)).
  eapply (waiting_spans_inv cs lo hi ready _ l (from_option fst hi (head l))); [done|done| |].
  { destruct l as [|x l]; cbn; [by repeat constructor|]. constructor; [done|by constructor]. }
  fold y. replace (clamp lo hi y) with (clamp lo hi (Z.max lo y)) by (unfold clamp; lia).
  apply waiting_span_inv; [done|done|lia|].
  by replace (clamp lo hi lo) with lo by (unfold clamp; lia).
Qed.

(** * The nodes of a path *)

Definition entry_deps_end (last : Instant) (e : DetailedCriticalPathEntry) : Instant :=
  default last (de_deps_finished_time e).

Definition entry_span (e : DetailedCriticalPathEntry) : TimeSpan :=
  nd_total (nda_duration (de_data e)).

(** The time accounted for after the entry of a node. *)
Definition entry_end (last : Instant) (e : DetailedCriticalPathEntry) : Instant :=
  Z.max (entry_deps_end last e) (ts_end (entry_span e)).

(** What the entry of a node after [last] needs. *)
Definition entry_ok (last : Instant) (e : DetailedCriticalPathEntry) : Prop :=
  ts_wf (entry_span e) ∧ last <= entry_deps_end last e ∧
  waiting_sorted (nda_waiting_data (de_data e)) ∧ de_critical_path_duration e = None.

Lemma add_entry_inv cs last self e :
  enhancer_inv cs last self → entry_ok last e → entry_end last e < cs + 2 ^ 64 →
  enhancer_inv cs (entry_end last e) (add_entry self e).
Proof.
  intros Hinv (Hwf & Hdeps & Hsorted & Hnone) Hend. unfold add_entry.
  pose proof Hinv as (Hcs & Hlast & Hle & _). rewrite Hlast, Hnone.
  fold (entry_deps_end last e) (entry_span e). unfold entry_end in *.
  set (lo := entry_deps_end last e) in *. unfold ts_wf in Hwf. cbv zeta.
  set (self1 := if negb _ then _ else self).
  assert (enhancer_inv cs lo self1) as H1.
  { unfold self1. rewrite since_spec. destruct (N.eqb_spec (Z.to_N (lo - last)) Duration_ZERO) as [E|E].
    - unfold Duration_ZERO in E. by replace lo with last by lia.
    - cbn [negb]. replace lo with (ts_end (TimeSpan_new_saturating last lo)) at 1
        by (cbn; unfold Duration_ZERO in E; lia).
      apply (simple_entry_inv cs last); [done|apply new_saturating_wf|cbn; lia|cbn; lia]. }
  clearbody self1. set (total := if (_ <? _) then _ else _).
  assert (ts_wf total ∧ lo <= ts_start total ∧ ts_end total = Z.max lo (ts_end (entry_span e)))
    as (Hwf' & Hlo & Htend).
  { unfold total, TimeSpan_start, TimeSpan_end, ts_wf. case_Z_bool; cbn; lia. }
  clearbody total. unfold ts_wf in Hwf'.
  pose proof (waiting_inv cs lo (ts_start total) (ready_waiting_category
    (into_critical_path_entry_data (de_key e) (nda_extra_data (de_data e)))) self1
    (nda_waiting_data (de_data e)) Hlo ltac:(lia) Hsorted H1) as H2.
  unfold TimeSpan_start. set (self2 := fold_left _ _ self1) in *. clearbody self2.
  rewrite <- Htend. apply (entry_impl_inv cs (ts_start total)); [done|done|lia|lia| |].
  - cbn [cpe_start_offset_ns]. by rewrite (proj1 H2).
  - unfold entry_length. cbn. rewrite proto_fits; rewrite duration_spec by done; lia.
Qed.

(** The nodes of a path, each waiting for what ended last before it. *)
Fixpoint path_ok (last : Instant) (l : list DetailedCriticalPathEntry) : Prop :=
  match l with
  | [] => True
  | e :: l => entry_ok last e ∧ path_ok (entry_end last e) l
  end.

Definition path_end (last : Instant) (l : list DetailedCriticalPathEntry) : Instant :=
  fold_left entry_end l last.

Lemma path_end_le last l : path_ok last l → last <= path_end last l.
Proof.
  revert last. induction l as [|e l IH]; intros last; cbn; [lia|]. intros [(_ & Hd & _) Hl].
  specialize (IH _ Hl). unfold path_end in IH. unfold entry_end in *. lia.
Qed.

Lemma path_inv cs last self l :
  enhancer_inv cs last self → path_ok last l → path_end last l < cs + 2 ^ 64 →
  enhancer_inv cs (path_end last l) (fold_left add_entry l self).
Proof.
  revert last self. induction l as [|e l IH]; intros last self Hinv; cbn; [done|].
  intros [He Hl] Hend. apply IH; [|done|done]. apply add_entry_inv; [done|done|].
  pose proof (path_end_le _ _ Hl) as Hle. unfold path_end in Hle. lia.
Qed.

(** * The whole report *)

(** The end of the early phases of a command. *)
Definition early_end (early : EarlyCommandTiming) : Instant :=
  Z.max (fold_left (λ t x, Z.max x.1 t) (et_early_spans early) (et_command_start early))
    (et_early_command_end early).

Lemma fold_max_le (l : list (Instant * string)) t : t <= fold_left (λ t x, Z.max x.1 t) l t.
Proof.
  revert t. induction l as [|x l IH]; intros t; cbn; [lia|]. specialize (IH (Z.max x.1 t)). lia.
Qed.

Lemma early_steps_inv cs l kind t self :
  enhancer_inv cs t self → fold_left (λ t x, Z.max x.1 t) l t < cs + 2 ^ 64 →
  ∃ self' kind', fold_left early_step l (self, kind, t) =
    (self', kind', fold_left (λ t x, Z.max x.1 t) l t) ∧
    enhancer_inv cs (fold_left (λ t x, Z.max x.1 t) l t) self'.
Proof.
  revert kind t self. induction l as [|x l IH]; intros kind t self Hinv; cbn; [by eexists _, _|].
  intros Hlt. pose proof (fold_max_le l (Z.max x.1 t)). apply IH; [|done].
  replace (Z.max x.1 t) with (ts_end (TimeSpan_new_saturating t (Z.max x.1 t))) at 1 by (cbn; lia).
  apply (simple_entry_inv cs t self None (Entry_GenericEntry kind)
    (TimeSpan_new_saturating t (Z.max x.1 t)) true);
    [done|apply new_saturating_wf|cbn; lia|cbn; lia].
Qed.

Lemma early_inv cs early self :
  et_command_start early = cs → early_end early < cs + 2 ^ 64 →
  enhancer_inv cs cs self →
  enhancer_inv cs (early_end early) (create_proto_entries_for_early_timings self early).
Proof.
  intros Hcs Hend Hinv. unfold create_proto_entries_for_early_timings, early_end in *.
  rewrite Hcs in *. set (l := et_early_spans early) in *.
  destruct (early_steps_inv cs l "buckd_command_init" cs self Hinv) as (self' & kind' & -> & Hinv');
    [lia|].
  set (t := fold_left _ l cs) in *.
  apply (simple_entry_inv cs t self' None (Entry_GenericEntry kind')
    (TimeSpan_new_saturating t (et_early_command_end early)) true);
    [done|apply new_saturating_wf|cbn; lia|cbn; lia].
Qed.

Lemma report_spec path early compute_start now :
  path_ok (early_end early) (dcp_entries path) →
  path_end (early_end early) (dcp_entries path) <= compute_start →
  Z.max compute_start now < et_command_start early + 2 ^ 64 →
  accounts (et_command_start early) (et_command_start early) (Z.max compute_start now)
    (into_critical_path_proto path early compute_start now).
Proof.
  intros Hok Hle Hnow. set (cs := et_command_start early) in *.
  pose proof (path_end_le _ _ Hok) as Hpe. unfold into_critical_path_proto. fold cs.
  apply (simple_entry_inv cs (path_end (early_end early) (dcp_entries path)) _
    (Some "critical_path_final_work") Entry_ComputeCriticalPath
    (TimeSpan_new_saturating compute_start now) true);
    [|apply new_saturating_wf|cbn; lia|cbn; lia].
  apply path_inv; [|done|lia]. apply early_inv; [done|lia|apply new_inv].
Qed.
End Report.

(** * The paths of a build *)

Section Build.
Context `{SO : SignalOps} `{PL : ProtoDurationLaws} {M : Type} `{KM : KeyMap NodeKey M}.
Context (adj : list (list VertexId)) (keys : M) (data : VertexData NodeData).
Context (Hbo : backend_ok adj keys data).
Local Notation n := (length adj).
Local Notation end_of v := (ts_end (span_of data v)).
Local Open Scope Z_scope.

(** What the durations of a build satisfy: spans are spans, waiting is recorded in order, nodes
    end after what they depend on, within the time between [start] and [stop]. *)
Record timed (start stop : Instant) : Prop := {
  td_node v : (v < n)%nat → ts_wf (span_of data v) ∧ waiting_sorted (nda_waiting_data (data !!! v)) ∧
    start <= end_of v <= stop;
  td_edge u v : edge adj u v → end_of v <= end_of u;
  td_order : start <= stop;
}.

(** The entry of a node in the slowest path and in the critical path of the graph. *)
Definition entry_for (v : VertexId) (e : DetailedCriticalPathEntry) : Prop :=
  de_data e = data !!! v ∧ de_critical_path_duration e = None ∧
  de_deps_finished_time e = iter_max Z.leb ((λ x, end_of x) <$> (adj !!! v)).

(** What ended last before [v] ended before [v], and not before any dependency. *)
Lemma deps_end_bounds start stop v e last :
  timed start stop → (v < n)%nat → entry_for v e → last <= end_of v →
  entry_deps_end last e <= end_of v ∧
  (last = start ∨ (∃ w, edge adj v w ∧ last = end_of w) → last <= entry_deps_end last e).
Proof.
  intros Ht Hv (_ & _ & Hd) Hlast. unfold entry_deps_end.
  destruct (lookup_lt_is_Some_2 adj v Hv) as [es Hes].
  rewrite Hd, (list_lookup_total_correct _ _ _ Hes). clear Hd.
  destruct (iter_max _ _) as [m|] eqn:E; cbn.
  - apply iter_max_Z in E as [Hin Hmax]. apply list_elem_of_fmap in Hin as (x & -> & Hx).
    assert (edge adj v x) as Hvx by (by exists es). split; [by apply (td_edge _ _ Ht)|].
    intros [->|(w & (es' & Hes' & Hw) & ->)].
    + apply (td_node _ _ Ht). by apply (edge_lt adj v x (bo_adj _ _ _ Hbo)).
    + apply Hmax, list_elem_of_fmap. exists w. split; [done|]. by simplify_eq.
  - split; [done|]. intros _. lia.
Qed.

Lemma path_timed start stop p l last :
  timed start stop → Forall2 entry_for p l → Forall (λ v, v < n)%nat p →
  is_walk adj (reverse p) →
  (last = start ∨ ∃ w, last = end_of w ∧ is_walk adj (reverse (w :: p)) ∧ (w < n)%nat) →
  path_ok last l ∧ last <= path_end last l <= stop.
Proof.
  intros Ht Hf. revert last. induction Hf as [|v e p l He Hf IH]; intros last Hlt Hwalk Hlast.
  { split; [done|]. unfold path_end. cbn. destruct Hlast as [->|(w & -> & _ & Hw)].
    - pose proof (td_order _ _ Ht). lia.
    - pose proof (td_node _ _ Ht w Hw). lia. }
  apply Forall_cons in Hlt as [Hv Hlt]. destruct (td_node _ _ Ht v Hv) as (Hwf & Hsorted & Hse).
  assert (last <= end_of v ∧ (last = start ∨ (∃ w, edge adj v w ∧ last = end_of w))) as [Hle Hor].
  { destruct Hlast as [->|(w & -> & Hw & _)]; [by split; [lia|left]|].
    rewrite !reverse_cons, <- app_assoc in Hw. apply is_walk_suffix, is_walk_cons in Hw as [Hw _].
    split; [by apply (td_edge _ _ Ht)|]. right. by exists w. }
  destruct (deps_end_bounds start stop v e last Ht Hv He Hle) as [Hde Hdeps]. specialize (Hdeps Hor).
  destruct He as (Hdata & Hnone & _).
  assert (entry_end last e = end_of v) as Hend.
  { unfold entry_end, entry_span. rewrite Hdata. change (nd_total _) with (span_of data v). lia. }
  destruct (IH (end_of v) Hlt) as [Hok Hpe].
  { rewrite reverse_cons in Hwalk. by apply is_walk_app_l in Hwalk. }
  { right. by exists v. }
  unfold path_end in *. cbn [path_ok fold_left]. rewrite Hend. split; [|lia].
  split; [|done]. unfold entry_ok, entry_span. rewrite Hdata. by split_and!.
Qed.

Lemma slow_chain_walk v l : slow_chain adj data v l → is_walk adj (v :: l).
Proof.
  revert v. induction l as [|p l IH]; intros v; [done|]. intros [(es & Hv & Hp) Hl].
  apply is_walk_cons. split; [|by apply IH]. exists es. split; [done|]. by apply (last_ending_in adj keys data Hbo).
Qed.

Lemma slowest_entries path :
  slowest_result adj keys data (inl path) →
  ∃ p, Forall2 entry_for p (dcp_entries path) ∧ Forall (λ v, v < n)%nat p ∧ is_walk adj (reverse p).
Proof.
  unfold slowest_result. case_decide; [intros ->; by exists []|]. intros (v & l & Hlast & Hl & ->).
  pose proof (slow_chain_walk v l Hl) as Hwalk. exists (reverse (v :: l)).
  rewrite reverse_involutive. split_and!; [|apply Forall_reverse|done].
  - cbn [dcp_entries]. rewrite <- fmap_reverse. apply Forall2_fmap_r, Forall_Forall2_diag, Forall_forall.
    intros x _. by split_and!.
  - apply (walk_lt adj v l (bo_adj _ _ _ Hbo)); [|done].
    apply (last_ending_in adj keys data Hbo) in Hlast. apply elem_of_seq in Hlast. lia.
Qed.

Lemma critical_entries weights ts path durations :
  critical_result adj keys data weights ts (inl (path, durations)) →
  ∃ p, Forall2 entry_for p (dcp_entries path) ∧ Forall (λ v, v < n)%nat p ∧ is_walk adj (reverse p).
Proof.
  intros (_ & (cp & crit & costs & Hwalk & Hlt & _ & _ & -> & Hlen & _) & _). exists cp.
  split_and!; [|done|done]. cbn [dcp_entries]. clear -Hlen. revert costs Hlen.
  induction cp as [|v cp IH]; intros [|c costs] Hlen; try done; cbn; constructor; [by split_and!|].
  apply IH. cbn in Hlen. lia.
Qed.

(** C6. The reports of the slowest path and of the critical path of the graph account for the
    time of the build, provided that every node ends after what it depends on, between the early
    phases of the command and the time the paths are computed ([timed]), that weights do not
    overflow along a path and the clock stays below [2 ^ 64] nanoseconds from the start.  Then
    the entries follow each other from the start of the command to the end of the computation,
    with gaps of less than a millisecond; so their durations, critical and waiting, add up to the
    elapsed time up to a millisecond for each.  Nodes that overlap what they depend on, which
    the code reports as overlaps, are not covered. *)
Theorem reports_account_for_build weights ts early compute_start now path
    (Hweights : length weights = n)
    (Hoverflow : acyclic adj → no_overflow adj weights)
    (Hfit : Z.of_nat n <= 2 ^ 31)
    (Htimed : timed (early_end early) compute_start)
    (Hnow : Z.max compute_start now < et_command_start early + 2 ^ 64)
    (Hpath : compute_slowest_paths (graph_of adj) keys data = Ok (inl path) ∨
       ∃ durations, compute_critical_paths (graph_of adj) keys data weights ts =
         Ok (inl (path, durations))) :
  let report := into_critical_path_proto path early compute_start now in
  let elapsed := Z.max compute_start now - et_command_start early in
  accounts (et_command_start early) (et_command_start early) (Z.max compute_start now) report ∧
  total_length report <= elapsed <= total_length report + (10 ^ 6 - 1) * Z.of_nat (length report).
Proof.
  assert (∃ p, Forall2 entry_for p (dcp_entries path) ∧ Forall (λ v, v < n)%nat p ∧
    is_walk adj (reverse p)) as (p & Hentries & Hlt & Hwalk).
  { destruct Hpath as [Hp|[ds Hp]].
    - destruct (slowest_spec adj keys data Hbo) as (r & Hr & Hs). rewrite Hp in Hr.
      injection Hr as <-. by apply slowest_entries.
    - destruct (critical_spec adj keys data Hbo weights Hweights Hoverflow Hfit ts) as (r & Hr & Hs).
      rewrite Hp in Hr. injection Hr as <-. by eapply critical_entries. }
  destruct (path_timed _ _ p _ (early_end early) Htimed Hentries Hlt Hwalk) as [Hok Hpe]; [by left|].
  cbv zeta. assert (accounts (et_command_start early) (et_command_start early)
    (Z.max compute_start now) (into_critical_path_proto path early compute_start now)) as Hacc.
  { apply report_spec; [done|lia|done]. }
  split; [done|]. by apply (accounts_total (et_command_start early)).
Qed.

(** ** Real work *)

(** The entry of a node of real work is one of those the report keeps. *)
Lemma work_node_reported k d :
  is_critical_path_work_node k d = true →
  nda_span_ids d ≠ [] ∧ is_real_work_entry (into_critical_path_entry_data k (nda_extra_data d)) = true.
Proof.
  unfold is_critical_path_work_node. destruct (nda_span_ids d) as [|i ids]; [done|].
  intros Hk. split; [done|]. destruct k; cbn; try done; try (by destruct (nda_extra_data d)).
  by destruct (critical_path_entry_proto _) as [[]|]; try done; destruct (nda_extra_data d).
Qed.

(** Entry [r] of the report stands for the node [e] of the path. *)
Definition reports (e : DetailedCriticalPathEntry) (r : CriticalPathEntry2) : Prop :=
  nda_span_ids (de_data e) ≠ [] ∧ cpe_span_ids r = nda_span_ids (de_data e) ∧
  cpe_entry r = Some (into_critical_path_entry_data (de_key e) (nda_extra_data (de_data e))) ∧
  is_Some (de_critical_path_duration e) ∧
  cpe_duration r = duration_to_proto_saturating <$> de_critical_path_duration e ∧
  cpe_non_critical_path_duration r = None.

Lemma work_entry_reported early wd v c :
  is_work keys data v = true →
  ∃ r, entry_into_real_work_critical_path_proto (work_entry keys data wd v c) early = Some r ∧
    reports (work_entry keys data wd v c) r.
Proof.
  unfold is_work. intros [Hids Hreal]%work_node_reported.
  unfold entry_into_real_work_critical_path_proto, reports, work_entry.
  cbn [de_key de_data de_critical_path_duration].
  destruct (nda_span_ids (data !!! v)) as [|i ids] eqn:E; [done|]. rewrite Hreal. cbn [negb].
  eexists. split; [reflexivity|]. split_and!; try done.
Qed.

Lemma complete_works wd v l :
  (∀ w d, edge wd w d ↔ work_dep adj keys data w d) → v ∈ works adj keys data →
  is_walk wd (v :: l) → Forall (λ x, is_work keys data x = true) (v :: l).
Proof.
  intros Hwd. revert v. induction l as [|p l IH]; intros v Hv Hwalk.
  - repeat constructor. by apply elem_of_works in Hv as [_ ?].
  - constructor; [by apply elem_of_works in Hv as [_ ?]|]. apply is_walk_cons in Hwalk as [He Hl].
    apply IH; [|done]. by eapply work_dep_works, Hwd.
Qed.

Lemma work_entries_reported early wd l :
  Forall (λ x, is_work keys data x = true) l →
  Forall2 reports (reverse (work_entries keys data wd l))
    (omap (λ e, entry_into_real_work_critical_path_proto e early)
       (reverse (work_entries keys data wd l))).
Proof.
  intros Hl. assert (Forall (λ e, ∃ r, entry_into_real_work_critical_path_proto e early = Some r ∧
    reports e r) (reverse (work_entries keys data wd l))) as He.
  { apply Forall_reverse. unfold work_entries. generalize (chain_durations data l).
    induction Hl as [|v l Hv _ IH]; intros [|d ds]; cbn; constructor; [|by apply IH].
    by apply work_entry_reported. }
  induction He as [|e es (r & Er & Hr) _ IH]; cbn; [constructor|]. rewrite Er. by constructor.
Qed.

Lemma reports_length l rs bound :
  Forall2 reports l rs → Z.of_N (sum_N (omap de_critical_path_duration l)) <= bound →
  bound < 2 ^ 64 →
  total_length rs = Z.of_N (sum_N (omap de_critical_path_duration l)).
Proof.
  intros Hl. revert bound. induction Hl as [|e r l rs He _ IH]; intros bound Hs Hb; [done|].
  destruct He as (_ & _ & _ & [c Hc] & Hd & Hn). rewrite Hc in Hd.
  unfold total_length, entry_length in *. cbn [foldr omap list_omap] in *. rewrite Hc in *.
  rewrite Hd, Hn. unfold sum_N in *. cbn [foldr fmap option_fmap option_map from_option] in *.
  rewrite (IH bound) by lia. rewrite proto_fits by lia. lia.
Qed.

(** The report of the critical path through real work has one entry for each node of the
    path, in order, with its spans, its description and the duration computed for it; and when
    nodes with work end no earlier than the work they wait for, these durations add up to at most
    the time between the start of the first node and the end of the last. *)
Theorem real_work_report_correct ts early path durations
    (Hrun : compute_real_work_critical_path (graph_of adj) keys data ts = Ok (inl (path, durations)))
    (Hends : ∀ w d, work_dep adj keys data w d → end_of d <= end_of w)
    (Hwf : ∀ v, v ∈ works adj keys data → ts_wf (span_of data v))
    (Hfits : ∀ v w, v ∈ works adj keys data → w ∈ works adj keys data →
       end_of w - ts_start (span_of data v) < 2 ^ 64) :
  let report := into_real_work_critical_path_proto path early in
  Forall2 reports (dcp_entries path) report ∧
  match head (dcp_entries path), last (dcp_entries path) with
  | Some first, Some final =>
      total_length report <= ts_end (entry_span final) - ts_start (entry_span first)
  | _, _ => report = []
  end.
Proof.
  pose proof (work_path_within_elapsed adj keys data Hbo ts path durations Hrun Hends Hwf) as Hsum.
  destruct (real_work_spec adj keys data Hbo ts) as (wd & Hlen & Hedge & r & Hr & Hres).
  rewrite Hrun in Hr. injection Hr as <-. destruct Hres as (_ & Hpath & _).
  case_decide as Hw; [subst path; split; [constructor|done]|].
  destruct Hpath as (v & l & Hv & [Hwalk (x & Hx & _)] & Hpath & _).
  unfold into_real_work_critical_path_proto. rewrite Hpath in *. cbn [dcp_entries] in *.
  pose proof (complete_works wd v l Hedge Hv Hwalk) as Hworks.
  pose proof (work_entries_reported early wd (v :: l) Hworks) as Hrep.
  split; [done|]. rewrite head_reverse, last_reverse, head_work_entry in *.
  destruct (last_work_entry keys data wd v l x Hx) as [c Hlast]. rewrite Hlast in *.
  unfold entry_span. cbn [work_entry de_data] in *.
  rewrite (reports_length _ _ _ Hrep Hsum); [done|].
  assert (x ∈ works adj keys data) as Hxw.
  { apply elem_of_works, (chain_last_work adj keys data Hbo wd v l x Hedge Hv Hwalk Hx). }
  exact (Hfits x v Hxw Hv).
Qed.
End Build.

(** * The report of the example *)

Definition example_proto : ProtoDurations := λ d,
  if (Z.of_N d / 10 ^ 9 <=? i64_max)%Z then
    Some (mkProtoDuration (Z.of_N d / 10 ^ 9) (Z.of_N d mod 10 ^ 9))
  else None.
Global Existing Instance example_proto.

Lemma example_proto_laws : ProtoDurationLaws.
Proof.
  split; intros d Hd; unfold Duration_try_into_proto, example_proto.
  - by rewrite (proj2 (Z.leb_le _ _)).
  - by rewrite (proj2 (Z.leb_gt _ _)).
Qed.

(** The command starts at -20, waits for files from -15 and starts to build at -5. *)
Definition example_early : EarlyCommandTiming :=
  EarlyCommandTimingBuilder_finish_early_command_timing
    (EarlyCommandTimingBuilder_start_span (EarlyCommandTimingBuilder_new (-20)) (-15)
       "file-watcher-wait") (-5).

Definition example_slowest : DetailedCriticalPath :=
  match compute_slowest_paths (graph_of example_adj) example_keys example_data with
  | Ok (inl path) => path
  | _ => DetailedCriticalPath_empty
  end.

Example example_report :
  (λ e, (cpe_start_offset_ns e, entry_length e)) <$>
    into_critical_path_proto example_slowest example_early 110 120 =
  [(Some 0%N, 5%Z); (Some 5%N, 10%Z); (Some 15%N, 30%Z); (Some 45%N, 35%Z); (Some 80%N, 0%Z);
   (Some 80%N, 40%Z); (Some 130%N, 10%Z)].
Proof. vm_compute. reflexivity. Qed.

Lemma example_timed : timed example_adj example_data (-5) 110.
Proof.
  split; [| |done].
  - intros v Hv. cbn in Hv. unfold waiting_sorted.
    do 5 (destruct v as [|v]; [vm_compute; repeat split; congruence || constructor|]). lia.
  - intros u v He. apply example_edge_lt in He as [Hvu Hu].
    do 5 (destruct u as [|u]; [do 5 (destruct v as [|v]; [vm_compute; congruence || lia|]); lia|]).
    lia.
Qed.

Lemma reports_account_for_build_witness :
  let report := into_critical_path_proto example_slowest example_early 110 120 in
  accounts (-20) (-20) 120 report ∧
  (total_length report <= 140 <= total_length report + (10 ^ 6 - 1) * 7)%Z.
Proof.
  refine (reports_account_for_build (PL := example_proto_laws) example_adj example_keys example_data
    example_backend_ok (replicate 5 0%N) [] example_early 110 120 example_slowest eq_refl _
    ltac:(by vm_compute) example_timed ltac:(by vm_compute) (or_introl eq_refl)).
  intros Ha. apply no_overflow_total; [apply example_backend_ok|done|done|by vm_compute].
Defined.

Definition example_work : DetailedCriticalPath * list (ConfiguredTargetLabel * Duration) :=
  match compute_real_work_critical_path (graph_of example_adj) example_keys example_data
          [example_target] with
  | Ok (inl r) => r
  | _ => (DetailedCriticalPath_empty, [])
  end.

Lemma real_work_report_correct_witness :
  Forall2 reports (dcp_entries example_work.1)
    (into_real_work_critical_path_proto example_work.1 example_early) ∧
  (total_length (into_real_work_critical_path_proto example_work.1 example_early) <= 100)%Z.
Proof.
  refine (real_work_report_correct (PL := example_proto_laws) example_adj example_keys
    example_data example_backend_ok [example_target] example_early example_work.1 example_work.2
    _ _ _ _).
  - vm_compute. reflexivity.
  - intros w d Hd. apply example_work_dep_le in Hd as [Hle Hw].
    do 5 (destruct w as [|w]; [do 5 (destruct d as [|d]; [vm_compute; congruence || lia|]); lia|]).
    lia.
  - intros v Hv. apply elem_of_works in Hv as [Hv _]. cbn in Hv.
    do 5 (destruct v as [|v]; [vm_compute; congruence|]). lia.
  - intros v w Hv Hw. apply elem_of_works in Hv as [Hv _]. apply elem_of_works in Hw as [Hw _].
    cbn in Hv, Hw.
    do 5 (destruct v as [|v]; [do 5 (destruct w as [|w]; [vm_compute; congruence || lia|]); lia|]).
    lia.
Defined.
