(* ===== verification/RustStr.v ===== *)
(** Strings of the standard library: [str] is its UTF-8 bytes.  Splitting, trimming, whitespace
    (the bytes of the characters with the Unicode property), lines, and numbers in decimal and
    octal, as the text formats of the program use them; printing and parsing back. *)
From S2P Require Import Prelude.
From stdpp Require Export strings.
From Stdlib Require Export Ascii.
Local Open Scope dice_scope.
Local Open Scope char_scope.

(** * Prefixes *)

Fixpoint strip_prefix (p s : string) : option string :=
  match p, s with
  | EmptyString, _ => Some s
  | String a p, String b s => if decide (a = b) then strip_prefix p s else None
  | String _ _, EmptyString => None
  end.

Definition starts_with (p s : string) : bool :=
  match strip_prefix p s with Some _ => true | None => false end.

Fixpoint strip_suffix_char (c : ascii) (s : string) : option string :=
  match s with
  | EmptyString => None
  | String x EmptyString => if decide (x = c) then Some EmptyString else None
  | String x s => String x <$> strip_suffix_char c s
  end.

(** [trim_matches] with a character. *)
Fixpoint trim_start_char (c : ascii) (s : string) : string :=
  match s with
  | String x s' => if decide (x = c) then trim_start_char c s' else s
  | EmptyString => EmptyString
  end.

Fixpoint trim_end_char (c : ascii) (s : string) : string :=
  match s with
  | EmptyString => EmptyString
  | String x s' =>
      match trim_end_char c s' with
      | EmptyString => if decide (x = c) then EmptyString else String x EmptyString
      | t => String x t
      end
  end.

Definition trim_matches_char (c : ascii) (s : string) : string :=
  trim_end_char c (trim_start_char c s).

(** * Splitting *)

(** [split(c)] *)
Fixpoint split_char (c : ascii) (s : string) : list string :=
  match s with
  | EmptyString => [EmptyString]
  | String x s =>
      if decide (x = c) then EmptyString :: split_char c s
      else match split_char c s with
           | w :: ws => String x w :: ws
           | [] => [String x EmptyString]
           end
  end.

(** [split_once(c)] *)
Fixpoint split_once_char (c : ascii) (s : string) : option (string * string) :=
  match s with
  | EmptyString => None
  | String x s =>
      if decide (x = c) then Some (EmptyString, s)
      else (λ p, (String x p.1, p.2)) <$> split_once_char c s
  end.

(** [split_once(sep)] *)
Fixpoint split_once_str (sep s : string) : option (string * string) :=
  match strip_prefix sep s with
  | Some rest => Some (EmptyString, rest)
  | None =>
      match s with
      | EmptyString => None
      | String x s => (λ p, (String x p.1, p.2)) <$> split_once_str sep s
      end
  end.

(** [join(sep)] *)
Fixpoint join_with (sep : string) (l : list string) : string :=
  match l with
  | [] => EmptyString
  | [w] => w
  | w :: l => w +:+ sep +:+ join_with sep l
  end.

(** * Whitespace *)

Definition byte_in (lo hi : nat) (a : ascii) : bool :=
  ((lo <=? nat_of_ascii a) && (nat_of_ascii a <=? hi))%nat.
Definition byte_is (n : nat) (a : ascii) : bool := (nat_of_ascii a =? n)%nat.

(** The characters with the property [White_Space], by the length of their encoding. *)
Definition whitespace1 (a : ascii) : bool := byte_in 9 13 a || byte_is 32 a.
Definition whitespace2 (a b : ascii) : bool := byte_is 194 a && (byte_is 133 b || byte_is 160 b).
Definition whitespace3 (a b c : ascii) : bool :=
  (byte_is 225 a && byte_is 154 b && byte_is 128 c) ||
  (byte_is 226 a && byte_is 128 b &&
     (byte_in 128 138 c || byte_is 168 c || byte_is 169 c || byte_is 175 c)) ||
  (byte_is 226 a && byte_is 129 b && byte_is 159 c) ||
  (byte_is 227 a && byte_is 128 b && byte_is 128 c).

Definition cons_first (x : ascii) (l : list string) : list string :=
  match l with w :: ws => String x w :: ws | [] => [String x EmptyString] end.

(** The pieces between whitespace characters. *)
Fixpoint whitespace_pieces (s : string) : list string :=
  match s with
  | EmptyString => [EmptyString]
  | String a s1 =>
      if whitespace1 a then EmptyString :: whitespace_pieces s1 else
      match s1 with
      | EmptyString => [String a EmptyString]
      | String b s2 =>
          if whitespace2 a b then EmptyString :: whitespace_pieces s2 else
          match s2 with
          | EmptyString => cons_first a (whitespace_pieces s1)
          | String c s3 =>
              if whitespace3 a b c then EmptyString :: whitespace_pieces s3
              else cons_first a (whitespace_pieces s1)
          end
      end
  end.

Definition is_empty_str (s : string) : bool :=
  match s with EmptyString => true | String _ _ => false end.

Definition split_whitespace (s : string) : list string :=
  filter (λ w, is_empty_str w = false) (whitespace_pieces s).

(** Only whitespace. *)
Definition blank (s : string) : bool := forallb is_empty_str (whitespace_pieces s).

Fixpoint trim_start (s : string) : string :=
  match s with
  | EmptyString => EmptyString
  | String a s1 =>
      if whitespace1 a then trim_start s1 else
      match s1 with
      | EmptyString => s
      | String b s2 =>
          if whitespace2 a b then trim_start s2 else
          match s2 with
          | EmptyString => s
          | String c s3 => if whitespace3 a b c then trim_start s3 else s
          end
      end
  end.

Fixpoint trim_end (s : string) : string :=
  match s with
  | EmptyString => EmptyString
  | String a s' => if blank s then EmptyString else String a (trim_end s')
  end.

Definition trim (s : string) : string := trim_end (trim_start s).

(** * Lines *)

Definition newline : ascii := ascii_of_nat 10.
Definition carriage_return : ascii := ascii_of_nat 13.

Fixpoint lines_of (parts : list string) : list string :=
  match parts with
  | [] => []
  | [last] => match last with EmptyString => [] | _ => [last] end
  | w :: parts => default w (strip_suffix_char carriage_return w) :: lines_of parts
  end.

(** [lines()] *)
Definition str_lines (s : string) : list string := lines_of (split_char newline s).

(** * Numbers *)

Definition digit_of (radix : N) (c : ascii) : option N :=
  let d := (N_of_ascii c - 48)%N in
  if (48 <=? N_of_ascii c)%N && (d <? radix)%N then Some d else None.

Fixpoint parse_digits (radix max acc : N) (s : string) : option N :=
  match s with
  | EmptyString => Some acc
  | String c s =>
      match digit_of radix c with
      | Some d =>
          let n := (acc * radix + d)%N in
          if (n <=? max)%N then parse_digits radix max n s else None
      | None => None
      end
  end.

(** [from_str_radix] of an unsigned type with greatest value [max]; [parse] with radix 10. *)
Definition parse_unsigned (radix max : N) (s : string) : option N :=
  match s with
  | EmptyString => None
  | String c rest =>
      if decide (c = "+") then
        match rest with EmptyString => None | _ => parse_digits radix max 0 rest end
      else parse_digits radix max 0 s
  end.

Definition usize_max : N := (2 ^ 64 - 1)%N.
Definition u64_max : N := (2 ^ 64 - 1)%N.
Definition u32_max_value : N := (2 ^ 32 - 1)%N.

(** [to_string()] of an unsigned number. *)
Definition digit_char (d : N) : ascii := ascii_of_N (48 + d).

Fixpoint number_digits (fuel : nat) (n : N) (acc : string) : string :=
  match fuel with
  | 0%nat => acc
  | S fuel =>
      let acc := String (digit_char (n mod 10)) acc in
      if (n <? 10)%N then acc else number_digits fuel (n / 10) acc
  end.

Definition number_to_string (n : N) : string := number_digits (S (N.to_nat (N.size n))) n EmptyString.

Example number_to_string_1204 : number_to_string 1204 = "1204"%string.
Proof. vm_compute. reflexivity. Qed.
Example number_to_string_0 : number_to_string 0 = "0"%string.
Proof. vm_compute. reflexivity. Qed.
Example str_lines_crlf : str_lines (String "a" (String carriage_return (String newline
  (String newline "b")))) = ["a"%string; EmptyString; "b"%string].
Proof. vm_compute. reflexivity. Qed.
Example split_whitespace_words : split_whitespace "  a/b c "%string = ["a/b"%string; "c"%string].
Proof. vm_compute. reflexivity. Qed.
Example trim_words : trim "  a b  "%string = "a b"%string.
Proof. vm_compute. reflexivity. Qed.
Example parse_octal : parse_unsigned 8 u32_max_value "100755"%string = Some 33261%N ∧
  parse_unsigned 8 u32_max_value "+8"%string = None.
Proof. vm_compute. by split. Qed.
