(* ===== verification/RustStrSpec.v ===== *)
(** Properties of the strings of [RustStr]: prefixes, splitting and joining, words and whitespace,
    lines, and printing numbers and parsing them back. *)
From S2P Require Import Prelude.
From S2P Require Import RustStr.
Local Open Scope dice_scope.
Local Open Scope string_scope.
Local Open Scope nat_scope.
Local Open Scope list_scope.

#[global] Arguments String.append !_ _ : simpl nomatch.

(** Every byte satisfies [p]. *)
Fixpoint str_forall (p : ascii → bool) (s : string) : bool :=
  match s with EmptyString => true | String a s => p a && str_forall p s end.

Lemma str_forall_app p s1 s2 : str_forall p (s1 +:+ s2) = str_forall p s1 && str_forall p s2.
Proof. induction s1 as [|a s1 IH]; simpl; [done|]. by rewrite IH, andb_assoc. Qed.

Lemma str_forall_impl (p q : ascii → bool) s :
  (∀ a, p a = true → q a = true) → str_forall p s = true → str_forall q s = true.
Proof.
  intros Hpq. induction s as [|a s IH]; simpl; [done|].
  intros [Ha Hs]%andb_true_iff. rewrite (Hpq a Ha). by apply IH.
Qed.

Definition not_char (c a : ascii) : bool := negb (bool_decide (a = c)).

Lemma not_char_true c a : not_char c a = true ↔ a ≠ c.
Proof. unfold not_char. by rewrite negb_true_iff, bool_decide_eq_false. Qed.

Lemma str_app_nil s : s +:+ EmptyString = s.
Proof. induction s as [|a s IH]; simpl; [done|]. by rewrite IH. Qed.

Lemma str_app_assoc s1 s2 s3 : (s1 +:+ s2) +:+ s3 = s1 +:+ (s2 +:+ s3).
Proof. induction s1 as [|a s1 IH]; simpl; [done|]. by rewrite IH. Qed.

(** * Prefixes *)

Lemma strip_prefix_app p s : strip_prefix p (p +:+ s) = Some s.
Proof. induction p as [|a p IH]; simpl; [done|]. by rewrite decide_True. Qed.

Lemma strip_prefix_Some p s r : strip_prefix p s = Some r → s = p +:+ r.
Proof.
  revert s. induction p as [|a p IH]; intros s; simpl; [by intros [= ->]|].
  destruct s as [|b s]; [done|]. destruct (decide (a = b)) as [->|]; [|done].
  intros H. by rewrite (IH _ H).
Qed.

Lemma strip_suffix_char_app c s : strip_suffix_char c (s +:+ String c EmptyString) = Some s.
Proof.
  induction s as [|a s IH]; simpl; [by rewrite decide_True|].
  destruct (s +:+ String c EmptyString) eqn:E; [by destruct s|].
  simpl in IH |- *. by rewrite IH.
Qed.

(** [s] does not end in [c]. *)
Definition no_suffix_char (c : ascii) (s : string) : Prop := strip_suffix_char c s = None.

Lemma trim_end_char_id c s : str_forall (not_char c) s = true → trim_end_char c s = s.
Proof.
  induction s as [|a s IH]; simpl; [done|]. intros [Ha Hs]%andb_true_iff. rewrite (IH Hs).
  destruct s; [|done]. by rewrite decide_False by (by apply not_char_true).
Qed.

Lemma trim_matches_char_id c s : str_forall (not_char c) s = true → trim_matches_char c s = s.
Proof.
  intros H. unfold trim_matches_char. destruct s as [|a s]; [done|]. simpl in H |- *.
  apply andb_true_iff in H as H'. destruct H' as [Ha _].
  rewrite decide_False by (by apply not_char_true). by apply trim_end_char_id.
Qed.

(** * Splitting and joining *)

Lemma split_char_nonempty c s : split_char c s ≠ [].
Proof. destruct s as [|a s]; simpl; [done|]. destruct (decide (a = c)); [done|]. by destruct (split_char c s). Qed.

Lemma split_char_one c s : str_forall (not_char c) s = true → split_char c s = [s].
Proof.
  induction s as [|a s IH]; simpl; [done|]. intros [Ha Hs]%andb_true_iff.
  rewrite decide_False by (by apply not_char_true). by rewrite (IH Hs).
Qed.

Lemma split_char_app c s1 s2 :
  str_forall (not_char c) s1 = true →
  split_char c (s1 +:+ String c s2) = s1 :: split_char c s2.
Proof.
  induction s1 as [|a s IH]; simpl; [by rewrite decide_True|]. intros [Ha Hs]%andb_true_iff.
  rewrite decide_False by (by apply not_char_true). by rewrite (IH Hs).
Qed.

Lemma join_with_cons sep w l : l ≠ [] → join_with sep (w :: l) = w +:+ sep +:+ join_with sep l.
Proof. by destruct l. Qed.

(** Joining with a character and splitting at it are inverses. *)
Lemma split_join_char c l :
  l ≠ [] → Forall (λ w, str_forall (not_char c) w = true) l →
  split_char c (join_with (String c EmptyString) l) = l.
Proof.
  induction l as [|w l IH]; [done|]. intros _ [Hw Hl]%Forall_cons.
  destruct l as [|w2 l]; [by apply split_char_one|].
  rewrite join_with_cons by done. simpl. rewrite split_char_app by done. f_equal. by apply IH.
Qed.

Lemma join_split_char c s : join_with (String c EmptyString) (split_char c s) = s.
Proof.
  induction s as [|a s IH]; simpl; [done|].
  pose proof (split_char_nonempty c s) as Hne.
  destruct (decide (a = c)) as [->|].
  - rewrite join_with_cons by done. simpl. by rewrite IH.
  - destruct (split_char c s) as [|w ws]; [done|]. destruct ws; simpl in IH |- *; by rewrite IH.
Qed.

Lemma split_char_no_sep c s : Forall (λ w, str_forall (not_char c) w = true) (split_char c s).
Proof.
  induction s as [|a s IH]; simpl; [by constructor|].
  destruct (decide (a = c)) as [->|Ha]; [by constructor|].
  destruct IH as [|w ws Hw Hws]; constructor; [| constructor |  | done].
  - simpl. by rewrite (proj2 (not_char_true _ _) Ha).
  - simpl. by rewrite (proj2 (not_char_true _ _) Ha), Hw.
Qed.

Lemma split_once_char_app c s1 s2 :
  str_forall (not_char c) s1 = true → split_once_char c (s1 +:+ String c s2) = Some (s1, s2).
Proof.
  induction s1 as [|a s IH]; simpl; [by rewrite decide_True|]. intros [Ha Hs]%andb_true_iff.
  rewrite decide_False by (by apply not_char_true). by rewrite (IH Hs).
Qed.

(** A text without the first character of a separator holds no part of it. *)
Lemma split_once_str_skip c sep s1 s2 :
  str_forall (not_char c) s1 = true →
  split_once_str (String c sep) (s1 +:+ s2) =
  (λ p, (s1 +:+ p.1, p.2)) <$> split_once_str (String c sep) s2.
Proof.
  induction s1 as [|a s IH]; intros H.
  - simpl (EmptyString +:+ s2). destruct (split_once_str _ s2) as [[]|]; done.
  - simpl in H. apply andb_true_iff in H as [Ha Hs]. apply not_char_true in Ha.
    simpl. rewrite decide_False by congruence. rewrite (IH Hs).
    by destruct (split_once_str _ s2) as [[]|].
Qed.

(** * Words *)

(** Visible ASCII. *)
Definition graphic (a : ascii) : bool := byte_in 33 126 a.
Definition word (s : string) : Prop := s ≠ EmptyString ∧ str_forall graphic s = true.

Lemma graphic_range a : graphic a = true ↔ 33 ≤ nat_of_ascii a ≤ 126.
Proof. unfold graphic, byte_in. rewrite andb_true_iff, !Nat.leb_le. done. Qed.

Lemma graphic_whitespace1 a : graphic a = true → whitespace1 a = false.
Proof.
  rewrite graphic_range. unfold whitespace1, byte_in, byte_is. intros H.
  destruct (Nat.leb_spec (nat_of_ascii a) 13), (Nat.eqb_spec (nat_of_ascii a) 32);
    rewrite ?andb_false_r; (done || lia).
Qed.

Lemma graphic_byte_is n a : graphic a = true → 127 ≤ n → byte_is n a = false.
Proof. rewrite graphic_range. intros H Hn. apply Nat.eqb_neq. lia. Qed.

Lemma graphic_whitespace2 a b : graphic a = true → whitespace2 a b = false.
Proof. intros H. unfold whitespace2. by rewrite graphic_byte_is by (done || lia). Qed.

Lemma graphic_whitespace3 a b c : graphic a = true → whitespace3 a b c = false.
Proof. intros H. unfold whitespace3. by rewrite !(graphic_byte_is _ a) by (done || lia). Qed.

Lemma cons_first_ne x l : l ≠ [] → ∃ w ws, l = w :: ws ∧ cons_first x l = String x w :: ws.
Proof. destruct l; [done|]. eauto. Qed.

Lemma whitespace_pieces_cons a s :
  graphic a = true → whitespace_pieces (String a s) = cons_first a (whitespace_pieces s).
Proof.
  intros H. cbn [whitespace_pieces]. rewrite (graphic_whitespace1 a H).
  destruct s as [|b s]; [done|]. rewrite (graphic_whitespace2 a b H).
  destruct s as [|c s]; [done|]. by rewrite (graphic_whitespace3 a b c H).
Qed.

Lemma whitespace_pieces_nonempty s : whitespace_pieces s ≠ [].
Proof.
  destruct s as [|a s]; [done|]. cbn [whitespace_pieces].
  repeat case_match; try done; by destruct (whitespace_pieces _).
Qed.

Lemma whitespace_pieces_app w s x ws :
  str_forall graphic w = true → whitespace_pieces s = x :: ws →
  whitespace_pieces (w +:+ s) = (w +:+ x) :: ws.
Proof.
  intros Hw Hs. induction w as [|a w IH]; [done|]. simpl in Hw.
  apply andb_true_iff in Hw as [Ha Hw]. change (String a w +:+ s) with (String a (w +:+ s)).
  rewrite whitespace_pieces_cons by done. by rewrite (IH Hw).
Qed.

Lemma whitespace_pieces_space s : whitespace_pieces (String " " s) = EmptyString :: whitespace_pieces s.
Proof. done. Qed.

Lemma split_whitespace_nil : split_whitespace EmptyString = [].
Proof. done. Qed.

Lemma split_whitespace_space s : split_whitespace (String " " s) = split_whitespace s.
Proof. done. Qed.

Lemma split_whitespace_word_space w s :
  word w → split_whitespace (w +:+ String " " s) = w :: split_whitespace s.
Proof.
  intros [Hne Hw]. unfold split_whitespace.
  rewrite (whitespace_pieces_app w _ _ _ Hw (whitespace_pieces_space s)).
  rewrite str_app_nil, filter_cons_True; [done|]. by destruct w.
Qed.

Lemma split_whitespace_word w : word w → split_whitespace w = [w].
Proof.
  intros [Hne Hw]. unfold split_whitespace.
  rewrite <- (str_app_nil w) at 1.
  rewrite (whitespace_pieces_app w EmptyString EmptyString [] Hw) by done.
  rewrite str_app_nil, filter_cons_True; [done|]. by destruct w.
Qed.

(** * Lines *)

(** A line of a text: no end of line inside it, and no carriage return before one. *)
Definition line_ok (w : string) : Prop :=
  str_forall (not_char newline) w = true ∧ strip_suffix_char carriage_return w = None.

Definition unlines (l : list string) : string :=
  foldr (λ w s, w +:+ String newline s) EmptyString l.

Lemma str_lines_unlines l : Forall line_ok l → str_lines (unlines l) = l.
Proof.
  unfold str_lines. induction 1 as [|w l [Hw Hcr] Hl IH]; [done|]. simpl.
  rewrite split_char_app by done.
  pose proof (split_char_nonempty newline (unlines l)) as Hne.
  destruct (split_char newline (unlines l)) as [|w2 ws]; [done|].
  cbn [lines_of] in IH |- *. rewrite Hcr. simpl. by f_equal.
Qed.

Lemma unlines_app l1 l2 : unlines (l1 ++ l2) = unlines l1 +:+ unlines l2.
Proof. induction l1 as [|w l IH]; simpl; [done|]. rewrite IH. by rewrite str_app_assoc. Qed.

Lemma unlines_join l :
  l ≠ [] → unlines l = join_with (String newline EmptyString) l +:+ String newline EmptyString.
Proof.
  induction l as [|w l IH]; [done|]. intros _. destruct l as [|w2 l]; [done|].
  change (unlines (w :: w2 :: l)) with (w +:+ String newline (unlines (w2 :: l))).
  rewrite (IH ltac:(done)), (join_with_cons _ w (w2 :: l)) by done. by rewrite !str_app_assoc.
Qed.

(** * Numbers *)

Lemma digit_of_digit_char d : (d < 10)%N → digit_of 10 (digit_char d) = Some d.
Proof.
  intros H. unfold digit_of, digit_char. rewrite N_ascii_embedding by lia.
  replace (48 + d - 48)%N with d by lia.
  destruct (N.leb_spec 48 (48 + d)); [|lia]. by destruct (N.ltb_spec d 10); [|lia].
Qed.

Lemma digit_char_graphic d : (d < 10)%N → graphic (digit_char d) = true.
Proof.
  intros H. apply graphic_range. unfold digit_char, nat_of_ascii. rewrite N_ascii_embedding by lia. lia.
Qed.

Lemma digit_char_bytes d :
  (d < 10)%N → byte_in 48 57 (digit_char d) = true.
Proof.
  intros H. unfold byte_in, digit_char, nat_of_ascii. rewrite N_ascii_embedding by lia.
  apply andb_true_iff. rewrite !Nat.leb_le. lia.
Qed.

Definition digits (s : string) : Prop := s ≠ EmptyString ∧ str_forall (byte_in 48 57) s = true.

Lemma number_digits_digits fuel n acc :
  str_forall (byte_in 48 57) acc = true → (fuel ≠ 0 ∨ acc ≠ EmptyString) →
  digits (number_digits fuel n acc).
Proof.
  revert n acc. induction fuel as [|fuel IH]; intros n acc Hacc Hne; simpl.
  - split; [naive_solver|done].
  - assert (Hd : (n `mod` 10 < 10)%N) by (apply N.mod_lt; lia).
    destruct (N.ltb_spec n 10).
    + split; [done|]. simpl. by rewrite digit_char_bytes.
    + apply IH; [|by right]. simpl. by rewrite digit_char_bytes.
Qed.

Lemma number_to_string_digits n : digits (number_to_string n).
Proof. apply number_digits_digits; [done|]. by left. Qed.

Lemma digits_chars (p : ascii → bool) s :
  (∀ a, byte_in 48 57 a = true → p a = true) → digits s → str_forall p s = true.
Proof. intros Hp [_ Hs]. by eapply str_forall_impl. Qed.

Lemma byte_in_range lo hi a : byte_in lo hi a = true ↔ lo ≤ nat_of_ascii a ≤ hi.
Proof. unfold byte_in. by rewrite andb_true_iff, !Nat.leb_le. Qed.

Lemma digits_not_char c s : (nat_of_ascii c < 48 ∨ 57 < nat_of_ascii c) → digits s →
  str_forall (not_char c) s = true.
Proof.
  intros Hc. apply digits_chars. intros a Ha%byte_in_range. apply not_char_true.
  intros ->. lia.
Qed.

Lemma digits_word s : digits s → word s.
Proof.
  intros Hs. split; [apply Hs|]. apply (digits_chars graphic); [|done].
  intros a Ha%byte_in_range. apply graphic_range. lia.
Qed.

Lemma size_div_10 n : (10 <= n)%N → (N.size (n / 10) < N.size n)%N.
Proof.
  intros Hn. assert (0 < n / 10)%N by (apply N.div_str_pos; lia). rewrite !N.size_log2 by lia.
  apply -> N.succ_lt_mono. apply N.log2_lt_pow2; [done|]. apply N.Div0.div_lt_upper_bound.
  destruct (N.log2_spec n) as [_ Hlog]; [lia|]. rewrite N.pow_succ_r' in Hlog. lia.
Qed.

(** The digits of [n] before [acc]: reading them continues from [n]. *)
Lemma parse_number_digits max fuel n acc :
  (N.size n < N.of_nat fuel)%N → (n <= max)%N →
  parse_digits 10 max 0 (number_digits fuel n acc) = parse_digits 10 max n acc.
Proof.
  revert n acc. induction fuel as [|fuel IH]; intros n acc Hf Hm; [lia|].
  cbn [number_digits]. assert (Hd : (n `mod` 10 < 10)%N) by (apply N.mod_lt; lia).
  pose proof (N.div_mod' n 10) as Hdm.
  destruct (N.ltb_spec n 10) as [Hn|Hn].
  - cbn [parse_digits]. rewrite digit_of_digit_char by done. rewrite N.mod_small by lia.
    replace (0 * 10 + n)%N with n by lia. by rewrite (proj2 (N.leb_le _ _) Hm).
  - pose proof (size_div_10 n Hn).
    rewrite IH; [|lia|etrans; [apply N.Div0.div_le_upper_bound|]; [|done]; lia].
    cbn [parse_digits]. rewrite digit_of_digit_char by done.
    replace (n / 10 * 10 + n mod 10)%N with n by lia. by rewrite (proj2 (N.leb_le _ _) Hm).
Qed.

(** A number is read back from its decimal form. *)
Lemma parse_number_to_string max n :
  (n <= max)%N → parse_unsigned 10 max (number_to_string n) = Some n.
Proof.
  intros H. pose proof (number_to_string_digits n) as [Hne Hs]. unfold parse_unsigned.
  destruct (number_to_string n) as [|c s] eqn:E; [done|].
  simpl in Hs. apply andb_true_iff in Hs as [Hc%byte_in_range _].
  rewrite decide_False.
  2:{ intros ->. simpl in Hc. unfold nat_of_ascii in Hc. simpl in Hc. lia. }
  rewrite <- E. unfold number_to_string. rewrite parse_number_digits; [done|lia|done].
Qed.
