(* ===== verification/Patch.v ===== *)
(** The patches of Bazel modules ([src/app/bz_common/src/bazel/bzlmod/patch.rs]): parsing unified
    diffs, finding where a hunk applies (with an offset, or ignoring lines at its ends), applying
    it, and the files of a directory before and after.

    A file is its text and its permissions, under the components of its path below the directory.  A
    directory is there when a file is below it; empty directories are not represented.  An operation on
    files fails where a file is in the place of a directory or the other way round, and wherever else the
    operating system says so ([IoFailures]). *)
From S2P Require Import Prelude.
From S2P Require Import RustStr.
Local Open Scope dice_scope.
Local Open Scope string_scope.
Local Open Scope nat_scope.
Local Open Scope list_scope.

Inductive PatchError :=
| NoUnifiedDiffHunk
| InvalidHunkLine (line : string)
| InvalidHunk (old_len new_len old_count new_count : N)
| InvalidHunkHeader (header : string)
| InvalidHunkRange
| InvalidHunkNumber (text : string)
| NoUsableTargetPath
| InvalidPatchPath (relative : string)
| PatchMismatch (target_path : string) (line : N)
| ReadError (path : list string)
| MetadataError (path : list string)
| DeleteError (path : list string)
| CreateDirError (path : list string)
| WriteError (path : list string)
| SetPermissionsError (path : list string).

(** A fallible computation that may panic. *)
Definition result (A : Type) : Type := outcome (A + PatchError).
Definition ok {A} (a : A) : result A := Ok (inl a).
Definition fail {A} (e : PatchError) : result A := Ok (inr e).
Definition result_bind {A B} (m : result A) (f : A → result B) : result B :=
  match m with Ok (inl a) => f a | Ok (inr e) => Ok (inr e) | Panic => Panic end.
Notation "x ←? m ; k" := (result_bind m (λ x, k))
  (at level 100, m at level 99, k at level 200, right associativity) : dice_scope.
Notation "' p ←? m ; k" := (result_bind m (λ x, match x with p => k end))
  (at level 100, p strict pattern, m at level 99, k at level 200, right associativity) : dice_scope.
Definition ok_or {A} (o : option A) (e : PatchError) : result A :=
  match o with Some a => ok a | None => fail e end.

Inductive NativePatchLine :=
| Context (line : string)
| Add (line : string)
| Remove (line : string).

Record NativePatchHunk := mkNativePatchHunk {
  ph_old_start : N;
  ph_lines : list NativePatchLine;
}.

Record NativePatchFile := mkNativePatchFile {
  pf_old_path : option string;
  pf_new_path : option string;
  pf_hunks : list NativePatchHunk;
  pf_file_mode : option N;
  pf_renames : bool;
}.

Definition NATIVE_BZLMOD_PATCH_FUZZ : nat := 2.

(** * Parsing *)

Definition empty_native_patch_file : NativePatchFile := mkNativePatchFile None None [] None false.

Definition finish_native_patch_file (files : list NativePatchFile)
    (file : option NativePatchFile) : list NativePatchFile :=
  match file with
  | Some file =>
      let no_change := bool_decide (pf_hunks file = []) && bool_decide (pf_file_mode file = None) in
      if no_change && bool_decide (pf_old_path file = pf_new_path file) then files
      else if no_change && negb (pf_renames file) then files
      else files ++ [file]
  | None => files
  end.

Definition parse_native_bzlmod_file_mode (mode : string) : option N :=
  word ← head (split_whitespace mode); parse_unsigned 8 u32_max_value word.

Definition patch_header_path (path : string) : string :=
  let field := default path (head (split_char (ascii_of_nat 9) path)) in
  trim_matches_char (ascii_of_nat 34) (default path (head (split_whitespace field))).

Definition parse_native_bzlmod_hunk_range (range : option string) (prefix : ascii) :
    result (N * N) :=
  range ←? ok_or (r ← range; strip_prefix (String prefix "") r) InvalidHunkRange;
  '(start, len) ←?
    match split_once_char "," range with
    | Some (start, len) =>
        len ←? ok_or (parse_unsigned 10 usize_max len) (InvalidHunkNumber len);
        ok (start, len)
    | None => ok (range, 1%N)
    end;
  start ←? ok_or (parse_unsigned 10 usize_max start) (InvalidHunkNumber start);
  ok (start, len).

Definition parse_native_bzlmod_hunk_header (header : string) : result (N * N * N) :=
  fields ←? ok_or (h ← strip_prefix "@@ " header; fst <$> split_once_str " @@" h)
              (InvalidHunkHeader header);
  let fields := split_whitespace fields in
  '(old_start, old_len) ←? parse_native_bzlmod_hunk_range (head fields) "-";
  '(_, new_len) ←? parse_native_bzlmod_hunk_range (head (tail fields)) "+";
  ok (old_start, old_len, new_len).

(** [line.split_at(min(1, line.len()))], which panics inside a character. *)
Definition is_continuation_byte (a : ascii) : bool := byte_in 128 191 a.

Definition split_kind (line : string) : outcome (string * string) :=
  match line with
  | EmptyString => Ok ("", "")
  | String k EmptyString => Ok (String k "", "")
  | String k (String b _ as text) =>
      if is_continuation_byte b then Panic else Ok (String k "", text)
  end.

(** The loop of [parse_native_bzlmod_hunk]: the lines of the hunk, the lines seen of the old and
    of the new file, and the lines that follow. *)
Fixpoint hunk_lines (lines : list string) (old_len new_len old_count new_count : N)
    (hunk : list NativePatchLine) : result (list NativePatchLine * N * N * list string) :=
  match lines with
  | [] => ok (hunk, old_count, new_count, [])
  | line :: rest =>
      if negb ((old_count <? old_len)%N || (new_count <? new_len)%N) then
        ok (hunk, old_count, new_count, lines)
      else if starts_with "\ " line then hunk_lines rest old_len new_len old_count new_count hunk
      else
        match split_kind line with
        | Panic => Panic
        | Ok (kind, text) =>
            if decide (kind = "+") then
              hunk_lines rest old_len new_len old_count (new_count + 1) (hunk ++ [Add text])
            else if decide (kind = "-") then
              hunk_lines rest old_len new_len (old_count + 1) new_count (hunk ++ [Remove text])
            else if decide (kind = " ") then
              hunk_lines rest old_len new_len (old_count + 1) (new_count + 1) (hunk ++ [Context text])
            else if decide (kind = "") then
              hunk_lines rest old_len new_len (old_count + 1) (new_count + 1) (hunk ++ [Context ""])
            else fail (InvalidHunkLine line)
        end
  end.

Definition parse_native_bzlmod_hunk (header : string) (rest : list string) :
    result (NativePatchHunk * list string) :=
  '(old_start, old_len, new_len) ←? parse_native_bzlmod_hunk_header header;
  '(hunk, old_count, new_count, rest) ←? hunk_lines rest old_len new_len 0 0 [];
  if negb (old_count =? old_len)%N || negb (new_count =? new_len)%N then
    fail (InvalidHunk old_len new_len old_count new_count)
  else ok (mkNativePatchHunk old_start hunk, rest).

Definition set_old_path (file : NativePatchFile) (path : string) : NativePatchFile :=
  mkNativePatchFile (Some path) (pf_new_path file) (pf_hunks file) (pf_file_mode file)
    (pf_renames file).
Definition set_new_path (file : NativePatchFile) (path : string) : NativePatchFile :=
  mkNativePatchFile (pf_old_path file) (Some path) (pf_hunks file) (pf_file_mode file)
    (pf_renames file).

(** The loop of [parse_native_bzlmod_patch]. *)
Fixpoint patch_loop (fuel : nat) (lines : list string) (files : list NativePatchFile)
    (current : option NativePatchFile) : result (list NativePatchFile) :=
  match lines with
  | [] => ok (finish_native_patch_file files current)
  | line :: rest =>
  match fuel with
  | 0 => Panic
  | S fuel =>
      let file := default empty_native_patch_file current in
      match strip_prefix "diff --git " line with
      | Some paths =>
          let paths := split_whitespace paths in
          patch_loop fuel rest (finish_native_patch_file files current)
            (Some (mkNativePatchFile (head paths) (head (tail paths)) [] None false))
      | None =>
      match match strip_prefix "new mode " line with
            | Some mode => Some mode | None => strip_prefix "new file mode " line end with
      | Some mode =>
          patch_loop fuel rest files
            (Some (mkNativePatchFile (pf_old_path file) (pf_new_path file) (pf_hunks file)
                     (parse_native_bzlmod_file_mode (trim mode)) (pf_renames file)))
      | None =>
      match strip_prefix "rename from " line with
      | Some old_path =>
          patch_loop fuel rest files
            (Some (mkNativePatchFile (Some (default (trim old_path) (pf_old_path file)))
                     (pf_new_path file) (pf_hunks file) (pf_file_mode file) true))
      | None =>
      match strip_prefix "rename to " line with
      | Some new_path =>
          patch_loop fuel rest files
            (Some (mkNativePatchFile (pf_old_path file)
                     (Some (default (trim new_path) (pf_new_path file))) (pf_hunks file)
                     (pf_file_mode file) true))
      | None =>
      match strip_prefix "--- " line with
      | Some old_path =>
          let '(files, file) :=
            if negb (bool_decide (pf_hunks file = [])) then
              (finish_native_patch_file files current, empty_native_patch_file)
            else (files, file) in
          let file := set_old_path file (patch_header_path old_path) in
          match rest with
          | next :: rest' =>
              match strip_prefix "+++ " next with
              | Some new_path =>
                  patch_loop fuel rest' files
                    (Some (set_new_path file (patch_header_path new_path)))
              | None => patch_loop fuel rest files (Some file)
              end
          | [] => patch_loop fuel rest files (Some file)
          end
      | None =>
      match strip_prefix "+++ " line with
      | Some new_path =>
          patch_loop fuel rest files (Some (set_new_path file (patch_header_path new_path)))
      | None =>
      if starts_with "@@ " line then
        '(hunk, rest) ←? parse_native_bzlmod_hunk line rest;
        patch_loop fuel rest files
          (Some (mkNativePatchFile (pf_old_path file) (pf_new_path file) (pf_hunks file ++ [hunk])
                   (pf_file_mode file) (pf_renames file)))
      else patch_loop fuel rest files current
      end end end end end end
  end
  end.

Definition parse_native_bzlmod_patch (patch : string) : result (list NativePatchFile) :=
  let lines := str_lines patch in patch_loop (length lines) lines [] None.

(** * Hunks *)

Definition native_bzlmod_patch_source_lines (hunk : NativePatchHunk) : list string :=
  omap (λ line, match line with Context l | Remove l => Some l | Add _ => None end) (ph_lines hunk).

Definition native_bzlmod_patch_target_lines (hunk : NativePatchHunk) : list string :=
  omap (λ line, match line with Context l | Add l => Some l | Remove _ => None end) (ph_lines hunk).

Definition checked_sub (a b : nat) : option nat := if b <=? a then Some (a - b) else None.

Definition native_bzlmod_patch_max_position (line_count source_line_count target_line_count fuzz : nat) :
    option nat :=
  source_end ← checked_sub source_line_count fuzz;
  target_end ← checked_sub target_line_count fuzz;
  if (source_end <? fuzz) || (target_end <? fuzz) then None
  else checked_sub line_count source_end.

Definition native_bzlmod_patch_source_matches (lines source_lines : list string)
    (position fuzz : nat) : bool :=
  match checked_sub (length source_lines) fuzz with
  | None => false
  | Some source_end =>
      if (source_end <? fuzz) || (length lines <? position + source_end) then false
      else forallb (λ index, bool_decide (lines !! (position + index) = source_lines !! index))
             (seq fuzz (source_end - fuzz))
  end.

(** [(0..=n).rev()] *)
Fixpoint find_down (p : nat → bool) (n : nat) : option nat :=
  if p n then Some n else match n with 0 => None | S n => find_down p n end.

(** The loop over the distances from [delta], [n] of them. *)
Fixpoint find_near (p : nat → bool) (default_position max_position delta n : nat) : option nat :=
  match n with
  | 0 => None
  | S n =>
      match (position ← checked_sub default_position delta;
             if p position then Some position else None) with
      | Some position => Some position
      | None =>
          let position := default_position + delta in
          if (position <=? max_position) && p position then Some position
          else find_near p default_position max_position (S delta) n
      end
  end.

(** The loop over the lines ignored at each end, from [fuzz] on, [n] of them. *)
Fixpoint fuzz_loop (lines source_lines target_lines : list string) (default_position fuzz n : nat) :
    option (nat * nat) :=
  match n with
  | 0 => None
  | S n =>
      max_position ← native_bzlmod_patch_max_position (length lines) (length source_lines)
                       (length target_lines) fuzz;
      let p position := native_bzlmod_patch_source_matches lines source_lines position fuzz in
      let found :=
        if (default_position <=? max_position) && p default_position then Some default_position
        else if max_position <? default_position then find_down p max_position
        else find_near p default_position max_position 1
               (Nat.max default_position (max_position - default_position)) in
      match found with
      | Some position => Some (position, fuzz)
      | None => fuzz_loop lines source_lines target_lines default_position (S fuzz) n
      end
  end.

Definition native_bzlmod_patch_hunk_position (lines : list string) (hunk : NativePatchHunk) :
    option (nat * nat) :=
  fuzz_loop lines (native_bzlmod_patch_source_lines hunk) (native_bzlmod_patch_target_lines hunk)
    (N.to_nat (ph_old_start hunk - 1)) 0 (S NATIVE_BZLMOD_PATCH_FUZZ).

(** [lines.splice(start..end_, new)], [target_lines[start..end_]] *)
Definition splice (lines : list string) (start end_ : nat) (new : list string) :
    outcome (list string) :=
  if (start <=? end_) && (end_ <=? length lines) then Ok (take start lines ++ new ++ drop end_ lines)
  else Panic.

Definition slice_lines (lines : list string) (start end_ : nat) : outcome (list string) :=
  if (start <=? end_) && (end_ <=? length lines) then Ok (take (end_ - start) (drop start lines))
  else Panic.

Definition apply_native_bzlmod_hunk_at (target_path : string) (lines : list string)
    (hunk : NativePatchHunk) (position fuzz : nat) : result (list string) :=
  let source_lines := native_bzlmod_patch_source_lines hunk in
  let target_lines := native_bzlmod_patch_target_lines hunk in
  let mismatch := PatchMismatch target_path (ph_old_start hunk) in
  source_end ←? ok_or (checked_sub (length source_lines) fuzz) mismatch;
  target_end ←? ok_or (checked_sub (length target_lines) fuzz) mismatch;
  match (new ← slice_lines target_lines fuzz target_end;
         splice lines (position + fuzz) (position + source_end) new) with
  | Ok lines => ok lines
  | Panic => Panic
  end.

(** [sort_by_key(|hunk| hunk.old_start)], which is stable. *)
Fixpoint insert_hunk (hunk : NativePatchHunk) (l : list NativePatchHunk) : list NativePatchHunk :=
  match l with
  | [] => [hunk]
  | h :: l' => if (ph_old_start hunk <=? ph_old_start h)%N then hunk :: l else h :: insert_hunk hunk l'
  end.
Definition sort_hunks (l : list NativePatchHunk) : list NativePatchHunk := foldr insert_hunk [] l.

Fixpoint apply_hunks_loop (target_path : string) (lines : list string)
    (hunks : list NativePatchHunk) : result (list string) :=
  match hunks with
  | [] => ok lines
  | hunk :: hunks =>
      '(position, fuzz) ←? ok_or (native_bzlmod_patch_hunk_position lines hunk)
                             (PatchMismatch target_path (ph_old_start hunk));
      lines ←? apply_native_bzlmod_hunk_at target_path lines hunk position fuzz;
      apply_hunks_loop target_path lines hunks
  end.

Definition apply_native_bzlmod_hunks (target_path : string) (old_lines : list string)
    (hunks : list NativePatchHunk) : result (list string) :=
  apply_hunks_loop target_path old_lines (rev (sort_hunks hunks)).

Definition split_native_patch_lines (text : string) : list string :=
  match text with
  | EmptyString => []
  | _ => split_char newline (default text (strip_suffix_char newline text))
  end.

Definition join_native_patch_lines (lines : list string) : string :=
  match lines with
  | [] => EmptyString
  | _ => join_with (String newline "") lines +:+ String newline ""
  end.

(** * Files *)

Definition patch_path_after_strip (path : string) (patch_strip : N) : option string :=
  path ← head (split_whitespace path);
  let path := trim_matches_char (ascii_of_nat 34) path in
  if decide (path = "/dev/null") then None else
  let stripped := join_with "/" (drop (N.to_nat patch_strip) (split_char "/" path)) in
  if is_empty_str stripped then None else Some stripped.

Definition native_bzlmod_patch_path (path : option string) (patch_strip : N) : option string :=
  path ← path;
  if decide (path = "/dev/null") then None else patch_path_after_strip path patch_strip.

(** [Path::components], when the path is relative and all are [Component::Normal]: only a first
    [.] counts as a component, and empty ones do not. *)
Definition normal_components (relative : string) : option (list string) :=
  let parts := split_char "/" relative in
  if starts_with "/" relative || bool_decide (head parts = Some ".") ||
     existsb (λ part, bool_decide (part = "..")) parts
  then None
  else Some (filter (λ part, part ≠ "" ∧ part ≠ ".") parts).

(** The path below the directory. *)
Definition safe_join_native_bzlmod_patch_path (relative : string) : result (list string) :=
  ok_or (normal_components relative) (InvalidPatchPath relative).

Record File := mkFile { file_text : string; file_mode : N }.
Global Instance file_eq_dec : EqDecision File.
Proof. solve_decision. Defined.
Notation FileSystem := (gmap (list string) File).

(** A path is a directory when a file is below it; there is nothing below a file. *)
Definition is_dir (fs : FileSystem) (p : list string) : bool :=
  bool_decide (Exists (λ q, p ≠ q ∧ p `prefix_of` q) (map_to_list fs).*1).
Definition below_file (fs : FileSystem) (p : list string) : bool :=
  bool_decide (Exists (λ q, q ≠ p ∧ q `prefix_of` p) (map_to_list fs).*1).

(** Which operations the operating system fails while one file of a patch is applied; a failed write
    leaves the text that is there, or another one. *)
Record IoFailures := mkIoFailures {
  io_read : bool; io_metadata : bool; io_remove : bool; io_create_dir : bool;
  io_write : option (option string); io_set_permissions : bool }.
Definition no_failures : IoFailures := mkIoFailures false false false false None false.

(** A fallible computation on the files, which keeps what it has changed when it fails. *)
Definition io (A : Type) : Type := FileSystem → outcome (FileSystem * (A + PatchError)).
Definition io_ret {A} (a : A) : io A := λ fs, Ok (fs, inl a).
Definition io_fail {A} (e : PatchError) : io A := λ fs, Ok (fs, inr e).
Definition io_bind {A B} (m : io A) (f : A → io B) : io B := λ fs,
  match m fs with Ok (fs, inl a) => f a fs | Ok (fs, inr e) => Ok (fs, inr e) | Panic => Panic end.
Definition io_result {A} (m : result A) : io A := λ fs,
  match m with Ok r => Ok (fs, r) | Panic => Panic end.
Notation "x ←! m ; k" := (io_bind m (λ x, k))
  (at level 100, m at level 99, k at level 200, right associativity) : dice_scope.

Section Apply.
(** The permissions of a file that [fs::write] creates. *)
Context (create_mode : N).

Definition path_exists (fs : FileSystem) (path : list string) : bool :=
  bool_decide (is_Some (fs !! path)) || is_dir fs path.

Definition fs_read_to_string (failures : IoFailures) (path : list string) : io string := λ fs,
  match fs !! path with
  | Some file => if io_read failures then io_fail (ReadError path) fs else io_ret (file_text file) fs
  | None => io_fail (ReadError path) fs
  end.

(** A path that is not there is not an error. *)
Definition fs_remove_file (failures : IoFailures) (path : list string) : io unit := λ fs,
  if io_remove failures then io_fail (DeleteError path) fs
  else
    match fs !! path with
    | Some _ => io_ret tt (delete path fs)
    | None => if is_dir fs path || below_file fs path then io_fail (DeleteError path) fs else io_ret tt fs
    end.

(** [fs::create_dir_all] of the parent of [path] *)
Definition fs_create_parent (failures : IoFailures) (path : list string) : io unit := λ fs,
  if io_create_dir failures || below_file fs path then io_fail (CreateDirError path) fs else io_ret tt fs.

Definition fs_write (failures : IoFailures) (path : list string) (text : string) : io unit := λ fs,
  let written text := <[path := mkFile text (default create_mode (file_mode <$> fs !! path))]> fs in
  if is_dir fs path || below_file fs path then io_fail (WriteError path) fs
  else
    match io_write failures with
    | None => io_ret tt (written text)
    | Some None => io_fail (WriteError path) fs
    | Some (Some remains) => io_fail (WriteError path) (written remains)
    end.

(** The type and permissions of a file, and the permissions that [chmod] sets. *)
Definition get_native_bzlmod_file_mode (failures : IoFailures) (path : list string) : io (option N) := λ fs,
  match fs !! path with
  | Some file =>
      if io_metadata failures then io_fail (MetadataError path) fs
      else io_ret (Some (N.lor 32768 (file_mode file))) fs
  | None => io_fail (MetadataError path) fs
  end.
Definition set_native_bzlmod_file_mode (failures : IoFailures) (path : list string) (mode : N) : io unit := λ fs,
  match fs !! path with
  | Some file =>
      if io_set_permissions failures then io_fail (SetPermissionsError path) fs
      else io_ret tt (<[path := mkFile (file_text file) (N.land mode 4095)]> fs)
  | None => io_fail (SetPermissionsError path) fs
  end.

Definition transpose_join (path : option string) : result (option (list string)) :=
  match path with
  | Some path => p ←? safe_join_native_bzlmod_patch_path path; ok (Some p)
  | None => ok None
  end.

(** [a.or(b)], [o.filter(|path| path.exists())] *)
Definition or_else {A} (a b : option A) : option A := match a with Some x => Some x | None => b end.
Definition existing (fs : FileSystem) (path : option (list string)) : option (list string) :=
  p ← path; if path_exists fs p then Some p else None.

Definition apply_native_bzlmod_file_patch (failures : IoFailures) (file_patch : NativePatchFile)
    (patch_strip : N) : io unit :=
  let old_target_path := native_bzlmod_patch_path (pf_old_path file_patch) patch_strip in
  let new_target_path := native_bzlmod_patch_path (pf_new_path file_patch) patch_strip in
  target_path ←! io_result (ok_or (or_else new_target_path old_target_path) NoUsableTargetPath);
  old_target ←! io_result (transpose_join old_target_path);
  new_target ←! io_result (transpose_join new_target_path);
  target ←! io_result (ok_or (or_else new_target old_target) NoUsableTargetPath);
  input_target ←! (λ fs, io_ret (or_else (existing fs old_target) (existing fs new_target)) fs);
  old_text ←! match input_target with
              | Some path => fs_read_to_string failures path
              | None => io_ret EmptyString
              end;
  input_file_mode ←! match input_target with
                     | Some path => get_native_bzlmod_file_mode failures path
                     | None => io_ret None
                     end;
  let output_file_mode := or_else (pf_file_mode file_patch) input_file_mode in
  let old_lines := split_native_patch_lines old_text in
  new_lines ←! io_result (apply_native_bzlmod_hunks target_path old_lines (pf_hunks file_patch));
  let deletes_file :=
    bool_decide (pf_new_path file_patch = Some "/dev/null") && bool_decide (new_lines = []) in
  _ ←! match old_target with
       | Some old_target => fs_remove_file failures old_target
       | None => io_ret tt
       end;
  if deletes_file then io_ret tt else
  _ ←! fs_create_parent failures target;
  _ ←! fs_write failures target (join_native_patch_lines new_lines);
  match output_file_mode with
  | Some mode => set_native_bzlmod_file_mode failures target mode
  | None => io_ret tt
  end.

(** Stops at the first error; the files patched before stay patched.  [failures i] is about the
    file of the patch with number [i]. *)
Fixpoint apply_files_loop (failures : nat → IoFailures) (file_patches : list NativePatchFile)
    (patch_strip : N) : io unit :=
  match file_patches with
  | [] => io_ret tt
  | file_patch :: file_patches =>
      _ ←! apply_native_bzlmod_file_patch (failures 0) file_patch patch_strip;
      apply_files_loop (λ i, failures (S i)) file_patches patch_strip
  end.

Definition apply_unified_patch (failures : nat → IoFailures) (patch : string) (patch_strip : N) : io unit :=
  file_patches ←! io_result (parse_native_bzlmod_patch patch);
  if bool_decide (file_patches = []) && negb (is_empty_str (trim patch)) then io_fail NoUnifiedDiffHunk
  else apply_files_loop failures file_patches patch_strip.
End Apply.

(** A patch applied where the operating system fails no operation, with the usual permissions. *)
Definition patched (patch : string) (patch_strip : N) (fs : FileSystem) :
    outcome (FileSystem * (unit + PatchError)) :=
  apply_unified_patch 420 (λ _, no_failures) patch patch_strip fs.

(** * Unit tests *)

Definition text_of (lines : list string) : string := join_native_patch_lines lines.
Definition one_file (name : string) (lines : list string) : FileSystem :=
  {[ [name] := mkFile (text_of lines) 365 ]}.
Definition read_lines (fs : FileSystem) (name : string) : option (list string * N) :=
  (λ f, (split_native_patch_lines (file_text f), file_mode f)) <$> fs !! [name].

Definition quote : string := String (ascii_of_nat 34) "".

Definition module_patch : string := text_of [
  "diff --git a/MODULE.bazel b/MODULE.bazel"; "--- a/MODULE.bazel"; "+++ b/MODULE.bazel";
  "@@ -1,2 +1,2 @@"; " module(name = demo)"; "-bazel_dep(name = old)"; "+bazel_dep(name = new)"].

(** Also that the permissions of a read-only file are kept. *)
Example test_native_bzlmod_patch_updates_file :
  match patched module_patch 1 (one_file "MODULE.bazel" ["module(name = demo)"; "bazel_dep(name = old)"]) with
  | Ok (fs, inl tt) =>
      read_lines fs "MODULE.bazel" = Some (["module(name = demo)"; "bazel_dep(name = new)"], 365%N)
  | _ => False
  end.
Proof. vm_compute. reflexivity. Qed.

Example test_native_bzlmod_patch_applies_hunk_with_line_offset :
  match patched module_patch 1
          (one_file "MODULE.bazel" ["# inserted upstream"; "module(name = demo)"; "bazel_dep(name = old)"]) with
  | Ok (fs, inl tt) =>
      fst <$> read_lines fs "MODULE.bazel" =
        Some ["# inserted upstream"; "module(name = demo)"; "bazel_dep(name = new)"]
  | _ => False
  end.
Proof. vm_compute. reflexivity. Qed.

Example test_native_bzlmod_patch_applies_hunk_with_context_fuzz :
  match patched
          (text_of ["diff --git a/foo.cc b/foo.cc"; "--- a/foo.cc"; "+++ b/foo.cc"; "@@ -2,4 +2,5 @@";
             " "; " void main(){"; "   printf(foo);"; "+  printf(patch);"; " WRONG CONTEXT LINE"]) 1
          (one_file "foo.cc" ["#include <stdio.h>"; ""; "void main(){"; "  printf(foo);"; "}"]) with
  | Ok (fs, inl tt) =>
      fst <$> read_lines fs "foo.cc" =
        Some ["#include <stdio.h>"; ""; "void main(){"; "  printf(foo);"; "  printf(patch);"; "}"]
  | _ => False
  end.
Proof. vm_compute. reflexivity. Qed.

Example test_native_bzlmod_patch_rejects_parent_directory_escape :
  match patched
          (text_of ["--- ../MODULE.bazel"; "+++ ../MODULE.bazel"; "@@ -0,0 +1 @@"; "+module(bad)"]) 0 ∅ with
  | Ok (fs, inr (InvalidPatchPath path)) => fs = ∅ ∧ path = "../MODULE.bazel"
  | _ => False
  end.
Proof. vm_compute. split; reflexivity. Qed.
