(* ===== verification/PatchHunks.v ===== *)
(** The hunks of [Patch]: the position that the search finds for one, what applying it there does,
    and that the hunks of an edit turn the old lines into the new ones. *)
From S2P Require Import Prelude.
From S2P Require Import RustStr.
From S2P Require Import Patch.
Local Open Scope dice_scope.
Local Open Scope string_scope.
Local Open Scope nat_scope.
Local Open Scope list_scope.

Notation source_of := native_bzlmod_patch_source_lines.
Notation target_of := native_bzlmod_patch_target_lines.

(** The lines without [f] at each end. *)
Definition core_of (f : nat) (l : list string) : list string := take (length l - 2 * f) (drop f l).

(** The source lines, but for [f] at each end, are the lines at [p]. *)
Definition window (lines source : list string) (p f : nat) : Prop :=
  2 * f ≤ length source ∧ p + length source ≤ length lines + f ∧
  take (length source - 2 * f) (drop (p + f) lines) = core_of f source.

Lemma checked_sub_Some a b c : checked_sub a b = Some c ↔ b ≤ a ∧ c = a - b.
Proof.
  unfold checked_sub. destruct (Nat.leb_spec b a); split.
  - by intros [= <-].
  - by intros [_ ->].
  - done.
  - lia.
Qed.

Lemma checked_sub_ge a b : b ≤ a → checked_sub a b = Some (a - b).
Proof. intros. by apply checked_sub_Some. Qed.

Lemma checked_sub_lt a b : a < b → checked_sub a b = None.
Proof. unfold checked_sub. intros. by destruct (Nat.leb_spec b a); [lia|]. Qed.

Lemma max_position_Some n s t f m :
  native_bzlmod_patch_max_position n s t f = Some m ↔
  2 * f ≤ s ∧ 2 * f ≤ t ∧ s ≤ n + f ∧ m = n + f - s.
Proof.
  unfold native_bzlmod_patch_max_position. split.
  - intros (se & [Hs ->]%checked_sub_Some & H)%bind_Some.
    apply bind_Some in H as (te & [Ht ->]%checked_sub_Some & H).
    destruct (Nat.ltb_spec (s - f) f), (Nat.ltb_spec (t - f) f); simpl in H; try done.
    apply checked_sub_Some in H. lia.
  - intros (Hs & Ht & Hn & ->). rewrite checked_sub_ge by lia. simpl.
    rewrite checked_sub_ge by lia. simpl.
    destruct (Nat.ltb_spec (s - f) f), (Nat.ltb_spec (t - f) f); try lia. simpl.
    rewrite checked_sub_ge by lia. f_equal. lia.
Qed.

Lemma window_lookup (lines source : list string) p f n :
  p + f + n ≤ length lines → f + n ≤ length source →
  take n (drop (p + f) lines) = take n (drop f source) ↔
  ∀ i, f ≤ i → i < f + n → lines !! (p + i) = source !! i.
Proof.
  intros Hl Hs. split.
  - intros H i Hi1 Hi2. apply (f_equal (lookup (i - f))) in H.
    rewrite !lookup_take_lt, !lookup_drop in H by lia.
    replace (p + f + (i - f)) with (p + i) in H by lia. by replace (f + (i - f)) with i in H by lia.
  - intros H. apply list_eq. intros i. destruct (decide (i < n)).
    + rewrite !lookup_take_lt, !lookup_drop by lia.
      replace (p + f + i) with (p + (f + i)) by lia. apply H; lia.
    + rewrite !lookup_take_ge by lia. done.
Qed.

Lemma source_matches_spec lines source p f :
  native_bzlmod_patch_source_matches lines source p f = true ↔ window lines source p f.
Proof.
  unfold native_bzlmod_patch_source_matches, window, core_of.
  destruct (decide (f ≤ length source)) as [Hf|Hf].
  2:{ rewrite checked_sub_lt by lia. split; [done|]. lia. }
  rewrite checked_sub_ge by lia.
  destruct (Nat.ltb_spec (length source - f) f); simpl; [split; [done|lia]|].
  destruct (Nat.ltb_spec (length lines) (p + (length source - f))); [split; [done|lia]|].
  rewrite window_lookup by lia. rewrite forallb_forall. split.
  - intros H'. split; [lia|]. split; [lia|]. intros i Hi1 Hi2. eapply bool_decide_eq_true, H'.
    apply in_seq. lia.
  - intros (_ & _ & H') i Hi%in_seq. apply bool_decide_eq_true, H'; lia.
Qed.

(** * The search *)

Definition distance (a b : nat) : nat := (a - b) + (b - a).

(** [k] is the closest to [d] of the positions up to [m] with [p], the first of two. *)
Definition nearest (p : nat → bool) (d m k : nat) : Prop :=
  k ≤ m ∧ p k = true ∧
  ∀ j, j ≤ m → p j = true → distance k d < distance j d ∨ (distance k d = distance j d ∧ k ≤ j).

Lemma find_down_spec p n :
  match find_down p n with
  | Some k => k ≤ n ∧ p k = true ∧ ∀ j, k < j → j ≤ n → p j = false
  | None => ∀ j, j ≤ n → p j = false
  end.
Proof.
  induction n as [|n IH]; simpl.
  - destruct (p 0) eqn:E; [split_and!; [lia|done|lia]|]. intros j Hj. by replace j with 0 by lia.
  - destruct (p (S n)) eqn:E; [split_and!; [lia|done|lia]|].
    destruct (find_down p n) as [k|].
    + destruct IH as (Hk & Hp & Hj). split_and!; [lia|done|]. intros j Hj1 Hj2.
      destruct (decide (j = S n)) as [->|]; [done|]. apply Hj; lia.
    + intros j Hj. destruct (decide (j = S n)) as [->|]; [done|]. apply IH. lia.
Qed.

(** The positions at distance [delta] from [d], up to [m]. *)
Lemma none_at_distance p d m delta :
  (∀ j, j ≤ m → distance j d < delta → p j = false) →
  (delta ≤ d → p (d - delta) = false) →
  (d + delta <=? m) && p (d + delta) = false →
  ∀ j, j ≤ m → distance j d < S delta → p j = false.
Proof.
  intros Hno Hleft Hright j Hj Hd. destruct (decide (distance j d < delta)); [by apply Hno|].
  unfold distance in *. destruct (decide (j < d)).
  - replace j with (d - delta) by lia. apply Hleft. lia.
  - replace j with (d + delta) by lia.
    apply andb_false_iff in Hright as [H%Nat.leb_gt|H]; [lia|done].
Qed.

Lemma nearest_at_distance p d m delta k :
  (∀ j, j ≤ m → distance j d < delta → p j = false) →
  k ≤ m → p k = true → distance k d = delta → (k < d ∨ (delta ≤ d → p (d - delta) = false)) →
  nearest p d m k.
Proof.
  intros Hno Hk Hp Hdist Hfirst. split_and!; [done|done|]. intros j Hj Hpj.
  destruct (decide (distance j d < delta)) as [Hlt|Hge]; [by rewrite Hno in Hpj|].
  destruct (decide (distance j d = delta)) as [He|]; [|left; lia].
  right. split; [lia|]. unfold distance in *. destruct Hfirst as [Hf|Hf]; [lia|].
  destruct (decide (j < d)) as [Hjd|]; [|lia].
  replace j with (d - delta) in Hpj by lia. rewrite Hf in Hpj; [done|lia].
Qed.

Lemma find_near_spec p d m delta n :
  d ≤ m → 0 < delta → (∀ j, j ≤ m → distance j d < delta → p j = false) →
  match find_near p d m delta n with
  | Some k => nearest p d m k
  | None => ∀ j, j ≤ m → distance j d < delta + n → p j = false
  end.
Proof.
  intros Hd. revert delta. induction n as [|n IH]; intros delta Hdelta Hno; simpl.
  { intros j Hj Hn. apply Hno; [done|lia]. }
  destruct (q ← checked_sub d delta; if p q then Some q else None) as [q|] eqn:Hq.
  - apply bind_Some in Hq as (q' & [Hq ->]%checked_sub_Some & Hp). case_match eqn:E; simplify_eq.
    apply (nearest_at_distance _ _ _ delta); try done; unfold distance; lia.
  - assert (Hleft : delta ≤ d → p (d - delta) = false).
    { intros Hle. rewrite checked_sub_ge in Hq by done. simpl in Hq. by destruct (p (d - delta)). }
    destruct ((d + delta <=? m) && p (d + delta)) eqn:E2.
    + apply andb_true_iff in E2 as [Hm%Nat.leb_le Hp].
      apply (nearest_at_distance _ _ _ delta); try done; [unfold distance; lia|]. by right.
    + specialize (IH (S delta) ltac:(lia) (none_at_distance _ _ _ _ Hno Hleft E2)).
      destruct (find_near p d m (S delta) n); [done|]. intros j Hj Hn. apply IH; [done|lia].
Qed.

(** The positions looked at with [f] lines ignored at each end are tried nearest first. *)
Lemma search_spec p d m :
  match (if (d <=? m) && p d then Some d
         else if m <? d then find_down p m
         else find_near p d m 1 (Nat.max d (m - d))) with
  | Some k => nearest p d m k
  | None => ∀ j, j ≤ m → p j = false
  end.
Proof.
  destruct ((d <=? m) && p d) eqn:E.
  { apply andb_true_iff in E as [Hd%Nat.leb_le Hp]. split_and!; [done|done|].
    intros j _ _. unfold distance. lia. }
  destruct (Nat.ltb_spec m d).
  - pose proof (find_down_spec p m) as Hs. destruct (find_down p m) as [k|]; [|done].
    destruct Hs as (Hk & Hp & Hno). split_and!; [done|done|]. intros j Hj Hpj.
    destruct (decide (k < j)); [by rewrite Hno in Hpj|]. unfold distance. lia.
  - rewrite (proj2 (Nat.leb_le _ _)) in E by done. simpl in E.
    assert (Hno : ∀ j, j ≤ m → distance j d < 1 → p j = false).
    { intros j _ Hj. unfold distance in Hj. by replace j with d by lia. }
    pose proof (find_near_spec p d m 1 (Nat.max d (m - d)) ltac:(done) ltac:(lia) Hno) as Hs.
    destruct (find_near _ _ _ _ _); [done|]. intros j Hj. apply Hs; [done|]. unfold distance. lia.
Qed.

(** What is found with the fewest lines ignored, at the position nearest to [d]; or why not. *)
Definition found_at (lines source target : list string) (d lo : nat) (r : option (nat * nat)) (n : nat) : Prop :=
  match r with
  | Some (p, f) =>
      lo ≤ f ∧ f < lo + n ∧ window lines source p f ∧ 2 * f ≤ length target ∧
      (∀ j, window lines source j f → distance p d < distance j d ∨ (distance p d = distance j d ∧ p ≤ j)) ∧
      (∀ j g, lo ≤ g → g < f → ¬ window lines source j g)
  | None =>
      ∃ f, lo ≤ f ∧ f ≤ lo + n ∧ (∀ j g, lo ≤ g → g < f → ¬ window lines source j g) ∧
      (f = lo + n ∨ length source < 2 * f ∨ length target < 2 * f ∨ length lines + f < length source)
  end.

Lemma fuzz_loop_spec lines source target d f n :
  found_at lines source target d f (fuzz_loop lines source target d f n) n.
Proof.
  revert f. induction n as [|n IH]; intros f; cbn [fuzz_loop].
  { exists f. split_and!; [lia|lia|lia|]. left. lia. }
  destruct (native_bzlmod_patch_max_position _ _ _ f) as [m|] eqn:Hm; cbn [mbind option_bind].
  2:{ exists f. split_and!; [lia|lia|lia|]. right.
      destruct (decide (2 * f ≤ length source)); [|lia].
      destruct (decide (2 * f ≤ length target)); [|lia].
      destruct (decide (length source ≤ length lines + f)); [|lia].
      by rewrite (proj2 (max_position_Some _ _ _ _ (length lines + f - length source))) in Hm. }
  apply max_position_Some in Hm as (Hs & Ht & Hl & ->).
  set (p := λ position, native_bzlmod_patch_source_matches lines source position f).
  pose proof (search_spec p d (length lines + f - length source)) as Hsearch. cbv zeta.
  assert (Hw : ∀ j, window lines source j f ↔ j ≤ length lines + f - length source ∧ p j = true).
  { intros j. unfold p. rewrite source_matches_spec. split; [|by intros [_ ?]].
    intros H. split; [|done]. destruct H as (_ & H & _). lia. }
  destruct (if (_ : bool) then _ else _) as [k|].
  - destruct Hsearch as (Hk & Hp & Hj). split_and!; [lia|lia|by apply Hw|done| |lia].
    intros j [Hj1 Hj2]%Hw. by apply Hj.
  - assert (Hno : ∀ j, ¬ window lines source j f).
    { intros j [Hj1 Hj2]%Hw. by rewrite Hsearch in Hj2. }
    assert (Hnog : ∀ hi, (∀ j g, S f ≤ g → g < hi → ¬ window lines source j g) →
                        ∀ j g, f ≤ g → g < hi → ¬ window lines source j g).
    { intros hi H j g H1 H2. destruct (decide (g = f)) as [->|]; [done|]. apply H; lia. }
    specialize (IH (S f)). unfold found_at in *.
    destruct (fuzz_loop lines source target d (S f) n) as [[k g]|].
    + destruct IH as (H1 & H2 & H3 & H4 & H5 & H6). split_and!; [lia|lia|done|done|done|].
      by apply Hnog.
    + destruct IH as (g & H1 & H2 & H3 & H4). exists g. split_and!; [lia|lia|by apply Hnog|].
      destruct H4 as [->|H4]; [left; lia|by right].
Qed.

(** * Applying a hunk *)

Lemma core_slice f l : 2 * f ≤ length l → slice_lines l f (length l - f) = Ok (core_of f l).
Proof.
  intros H. unfold slice_lines, core_of.
  rewrite (proj2 (Nat.leb_le f _)), (proj2 (Nat.leb_le (length l - f) _)) by lia. simpl.
  by replace (length l - f - f) with (length l - 2 * f) by lia.
Qed.

(** The window without its ends is replaced by the target lines without theirs. *)
Lemma apply_hunk_at_window path lines hunk p f :
  window lines (source_of hunk) p f → 2 * f ≤ length (target_of hunk) →
  apply_native_bzlmod_hunk_at path lines hunk p f =
  ok (take (p + f) lines ++ core_of f (target_of hunk) ++ drop (p + length (source_of hunk) - f) lines).
Proof.
  intros (H1 & H2 & _) Ht. unfold apply_native_bzlmod_hunk_at.
  rewrite !checked_sub_ge by lia. cbn [ok_or result_bind ok].
  rewrite core_slice by done. cbn [mbind outcome_bind]. unfold splice.
  rewrite (proj2 (Nat.leb_le (p + f) _)), (proj2 (Nat.leb_le _ (length lines))) by lia. simpl.
  by replace (p + (length (source_of hunk) - f)) with (p + length (source_of hunk) - f) by lia.
Qed.

(** Applying one hunk, as the loop of [apply_native_bzlmod_hunks] does. *)
Definition apply_hunk (path : string) (lines : list string) (hunk : NativePatchHunk) :
    result (list string) :=
  '(position, fuzz) ←? ok_or (native_bzlmod_patch_hunk_position lines hunk)
                         (PatchMismatch path (ph_old_start hunk));
  apply_native_bzlmod_hunk_at path lines hunk position fuzz.

Lemma hunk_position_spec lines hunk :
  found_at lines (source_of hunk) (target_of hunk) (N.to_nat (ph_old_start hunk - 1)) 0
    (native_bzlmod_patch_hunk_position lines hunk) 3.
Proof. apply fuzz_loop_spec. Qed.

(** C33. Where a hunk goes.  The search finds the fewest ignored lines at each end (at most two)
    with which the source lines occur in the file, and of the positions where they do the nearest
    to the line that the hunk names (the earlier of two); there the occurrence, without the ignored
    lines, becomes the target lines without theirs, and nothing else changes.  When it finds
    nothing, no number of ignored lines below some bound matches anywhere, the bound being three,
    or the first number that is too large for the hunk or with which the file is shorter than the
    hunk; the error names the file and the line.  No branch panics. *)
Theorem apply_hunk_correct path lines hunk :
  let source := source_of hunk in
  let target := target_of hunk in
  let d := N.to_nat (ph_old_start hunk - 1) in
  (∃ p f, f ≤ NATIVE_BZLMOD_PATCH_FUZZ ∧ window lines source p f ∧
     (∀ j g, g < f → ¬ window lines source j g) ∧
     (∀ j, window lines source j f →
        distance p d < distance j d ∨ (distance p d = distance j d ∧ p ≤ j)) ∧
     apply_hunk path lines hunk =
       ok (take (p + f) lines ++ core_of f target ++ drop (p + length source - f) lines)) ∨
  (∃ f, f ≤ S NATIVE_BZLMOD_PATCH_FUZZ ∧ (∀ j g, g < f → ¬ window lines source j g) ∧
     (f = S NATIVE_BZLMOD_PATCH_FUZZ ∨ length source < 2 * f ∨ length target < 2 * f ∨
      length lines + f < length source) ∧
     apply_hunk path lines hunk = fail (PatchMismatch path (ph_old_start hunk))).
Proof.
  cbv zeta. pose proof (hunk_position_spec lines hunk) as H. unfold apply_hunk, found_at in *.
  destruct (native_bzlmod_patch_hunk_position lines hunk) as [[p f]|]; cbn [ok_or result_bind ok fail].
  - left. destruct H as (_ & Hf & Hw & Ht & Hnear & Hless). exists p, f.
    split_and!; [unfold NATIVE_BZLMOD_PATCH_FUZZ; lia|done| |done|by apply apply_hunk_at_window].
    intros j g Hg. apply Hless; [lia|done].
  - right. destruct H as (f & _ & Hf & Hless & Hwhy). exists f.
    split_and!; [unfold NATIVE_BZLMOD_PATCH_FUZZ; lia| |done|done].
    intros j g Hg. apply Hless; [lia|done].
Qed.

Lemma apply_hunks_loop_cons path lines hunk hunks :
  apply_hunks_loop path lines (hunk :: hunks) =
  (lines ←? apply_hunk path lines hunk; apply_hunks_loop path lines hunks).
Proof.
  cbn [apply_hunks_loop]. unfold apply_hunk.
  by destruct (native_bzlmod_patch_hunk_position lines hunk) as [[p f]|].
Qed.

Lemma apply_hunks_loop_app path lines hunks1 hunks2 :
  apply_hunks_loop path lines (hunks1 ++ hunks2) =
  (lines ←? apply_hunks_loop path lines hunks1; apply_hunks_loop path lines hunks2).
Proof.
  revert lines. induction hunks1 as [|h hs IH]; intros lines; [done|].
  rewrite <- app_comm_cons, !apply_hunks_loop_cons.
  destruct (apply_hunk path lines h) as [[l|e]|]; cbn [result_bind]; [apply IH|done|done].
Qed.

(** * Edits *)

(** A hunk whose source lines are where it says. *)
Lemma apply_hunk_exact path before hunk after :
  N.to_nat (ph_old_start hunk - 1) = length before →
  apply_hunk path (before ++ source_of hunk ++ after) hunk =
  ok (before ++ target_of hunk ++ after).
Proof.
  intros Hd. set (lines := before ++ source_of hunk ++ after).
  assert (Hw : window lines (source_of hunk) (length before) 0).
  { unfold lines, window, core_of. rewrite !length_app. split_and!; [lia|lia|].
    by rewrite Nat.add_0_r, drop_app_length, Nat.mul_0_r, Nat.sub_0_r, drop_0, take_app_length, firstn_all. }
  pose proof (hunk_position_spec lines hunk) as H. unfold apply_hunk, found_at in *.
  destruct (native_bzlmod_patch_hunk_position lines hunk) as [[p f]|].
  - destruct H as (_ & _ & Hwin & Ht & Hnear & Hless).
    assert (f = 0) as -> by (destruct f; [done|]; by destruct (Hless (length before) 0 ltac:(lia) ltac:(lia))).
    assert (p = length before) as ->.
    { destruct (Hnear _ Hw) as [H|H]; unfold distance in H; lia. }
    cbn [ok_or result_bind ok]. rewrite apply_hunk_at_window by done. unfold core_of.
    rewrite Nat.add_0_r, Nat.mul_0_r, !Nat.sub_0_r, drop_0, firstn_all. unfold lines.
    rewrite take_app_length. do 3 f_equal. by rewrite app_assoc, <- length_app, drop_app_length.
  - exfalso. destruct H as (f & _ & _ & Hless & Hwhy). destruct f.
    + destruct Hw as (H1 & H2 & _). lia.
    + by destruct (Hless (length before) 0 ltac:(lia) ltac:(lia)).
Qed.

(** The unchanged lines before each changed place, and the lines of the hunk there. *)
Definition edits : Type := list (list string * list NativePatchLine).

Definition source_lines (h : list NativePatchLine) : list string := source_of (mkNativePatchHunk 0 h).
Definition target_lines (h : list NativePatchLine) : list string := target_of (mkNativePatchHunk 0 h).

Definition old_lines (es : edits) (tail : list string) : list string :=
  foldr (λ e l, e.1 ++ source_lines e.2 ++ l) tail es.
Definition new_lines (es : edits) (tail : list string) : list string :=
  foldr (λ e l, e.1 ++ target_lines e.2 ++ l) tail es.

(** The hunks, with the lines of the old file that they start at, after [k] lines. *)
Fixpoint hunks_of (k : nat) (es : edits) : list NativePatchHunk :=
  match es with
  | [] => []
  | (same, h) :: es =>
      mkNativePatchHunk (N.of_nat (k + length same + 1)) h ::
      hunks_of (k + length same + length (source_lines h)) es
  end.

Lemma apply_edits_loop path before es tail :
  apply_hunks_loop path (before ++ old_lines es tail) (rev (hunks_of (length before) es)) =
  ok (before ++ new_lines es tail).
Proof.
  revert before. induction es as [|[same h] es IH]; intros before; [done|].
  cbn [hunks_of rev old_lines new_lines foldr fst snd].
  fold (old_lines es tail). fold (new_lines es tail).
  rewrite apply_hunks_loop_app.
  replace (before ++ same ++ source_lines h ++ old_lines es tail)
    with ((before ++ same ++ source_lines h) ++ old_lines es tail) by (by rewrite <- !app_assoc).
  replace (length before + length same + length (source_lines h))
    with (length (before ++ same ++ source_lines h)) by (rewrite !length_app; lia).
  rewrite IH. cbn [result_bind ok]. rewrite apply_hunks_loop_cons.
  set (hunk := mkNativePatchHunk _ h).
  replace ((before ++ same ++ source_lines h) ++ new_lines es tail)
    with ((before ++ same) ++ source_of hunk ++ new_lines es tail) by (by rewrite <- !app_assoc).
  rewrite apply_hunk_exact.
  - cbn [result_bind ok apply_hunks_loop]. by rewrite <- !app_assoc.
  - rewrite length_app. simpl. lia.
Qed.

Lemma hunks_of_start k es : Forall (λ h, (N.of_nat k < ph_old_start h)%N) (hunks_of k es).
Proof.
  revert k. induction es as [|[same h] es IH]; intros k; simpl; [done|].
  constructor; simpl; [lia|]. eapply Forall_impl; [apply IH|]. simpl. lia.
Qed.

Lemma sort_hunks_of k es : sort_hunks (hunks_of k es) = hunks_of k es.
Proof.
  unfold sort_hunks. revert k. induction es as [|[same h] es IH]; intros k; [done|].
  cbn [hunks_of foldr]. rewrite IH.
  pose proof (hunks_of_start (k + length same + length (source_lines h)) es) as Hs.
  destruct Hs as [|h2 hs H2 _]; [done|]. cbn [insert_hunk ph_old_start].
  by rewrite (proj2 (N.leb_le _ _)) by lia.
Qed.

Lemma apply_edits path es tail :
  apply_native_bzlmod_hunks path (old_lines es tail) (hunks_of 0 es) = ok (new_lines es tail).
Proof.
  unfold apply_native_bzlmod_hunks. rewrite sort_hunks_of. apply (apply_edits_loop path [] es tail).
Qed.
