(* ===== verification/PatchSpec.v ===== *)
(** A patch in the format of [git diff], parsed and applied by [Patch], makes the changes that it was printed
    from. *)
From S2P Require Import Prelude.
From S2P Require Import RustStr.
From S2P Require Import RustStrSpec.
From S2P Require Import Patch.
From S2P Require Import PatchHunks.
Local Open Scope dice_scope.
Local Open Scope string_scope.
Local Open Scope nat_scope.
Local Open Scope list_scope.

(** * Printing *)

Definition print_line (line : NativePatchLine) : string :=
  match line with
  | Context l => String " " l
  | Add l => String "+" l
  | Remove l => String "-" l
  end.

Definition line_text (line : NativePatchLine) : string :=
  match line with Context l | Add l | Remove l => l end.

(** The length of a range is left out when it is one. *)
Definition print_range (start len : nat) : string :=
  if len =? 1 then number_to_string (N.of_nat start)
  else number_to_string (N.of_nat start) +:+ "," +:+ number_to_string (N.of_nat len).

Definition print_header (old_start old_len new_start new_len : nat) : string :=
  "@@ -" +:+ print_range old_start old_len +:+ " +" +:+ print_range new_start new_len +:+ " @@".

(** [k] and [k'] lines of the old and new file come before. *)
Fixpoint print_hunks (k k' : nat) (es : edits) : list string :=
  match es with
  | [] => []
  | (same, h) :: es =>
      let old_len := length (source_lines h) in
      let new_len := length (target_lines h) in
      print_header (k + length same + 1) old_len
        (if new_len =? 0 then k' + length same else k' + length same + 1) new_len ::
      map print_line h ++
      print_hunks (k + length same + old_len) (k' + length same + new_len) es
  end.

(** * Hunks *)

(** A line that [lines()] gives back, with a character first. *)
Definition text_ok (t : string) : Prop :=
  line_ok t ∧ match t with String b _ => is_continuation_byte b = false | EmptyString => True end.

Lemma split_kind_char k t : text_ok t → split_kind (String k t) = Ok (String k EmptyString, t).
Proof. intros [_ H]. destruct t as [|b t]; simpl; [done|]. by rewrite H. Qed.

Lemma length_source_lines l h :
  length (source_lines (l :: h)) = match l with Add _ => 0 | _ => 1 end + length (source_lines h).
Proof. by destruct l. Qed.

Lemma length_target_lines l h :
  length (target_lines (l :: h)) = match l with Remove _ => 0 | _ => 1 end + length (target_lines h).
Proof. by destruct l. Qed.

Lemma hunk_lines_print h rest old_len new_len oc nc acc :
  Forall (λ l, text_ok (line_text l)) h →
  old_len = (oc + N.of_nat (length (source_lines h)))%N →
  new_len = (nc + N.of_nat (length (target_lines h)))%N →
  hunk_lines (map print_line h ++ rest) old_len new_len oc nc acc =
  ok (acc ++ h, old_len, new_len, rest).
Proof.
  intros Hh. revert oc nc acc. induction Hh as [|l h Hl Hh IH]; intros oc nc acc Ho Hn.
  - simpl in Ho, Hn. rewrite N.add_0_r in Ho, Hn. subst. rewrite app_nil_r. simpl.
    destruct rest as [|r rest]; simpl; [done|]. by rewrite !N.ltb_irrefl.
  - rewrite length_source_lines in Ho. rewrite length_target_lines in Hn. cbn [map app hunk_lines].
    assert (Hmore : negb ((oc <? old_len)%N || (nc <? new_len)%N) = false).
    { apply negb_false_iff, orb_true_iff. rewrite !N.ltb_lt. destruct l; lia. }
    rewrite Hmore. destruct l as [t|t|t]; cbn [print_line line_text] in *;
      (replace (starts_with "\ " _) with false by done); rewrite (split_kind_char _ t Hl);
      repeat (rewrite decide_False by done); rewrite decide_True by done;
      rewrite IH by lia; by rewrite <- app_assoc.
Qed.

Lemma print_range_parse c start len :
  (N.of_nat start <= usize_max)%N → (N.of_nat len <= usize_max)%N →
  parse_native_bzlmod_hunk_range (Some (String c (print_range start len))) c =
  ok (N.of_nat start, N.of_nat len).
Proof.
  intros Hs Hl. unfold parse_native_bzlmod_hunk_range. simpl. rewrite decide_True by done.
  cbn [ok_or result_bind ok]. unfold print_range.
  pose proof (number_to_string_digits (N.of_nat start)) as Hd.
  assert (Hc : str_forall (not_char ",") (number_to_string (N.of_nat start)) = true).
  { apply digits_not_char; [|done]. left. vm_compute. lia. }
  destruct (Nat.eqb_spec len 1) as [->|Hne].
  - assert (Hnone : ∀ s, str_forall (not_char ",") s = true → split_once_char "," s = None).
    { induction s as [|a s IH]; simpl; [done|]. intros [Ha Hr]%andb_true_iff.
      rewrite decide_False by (by apply not_char_true). by rewrite (IH Hr). }
    rewrite (Hnone _ Hc). cbn [result_bind ok]. by rewrite parse_number_to_string.
  - change ("," +:+ number_to_string (N.of_nat len))
      with (String "," (number_to_string (N.of_nat len))).
    rewrite (split_once_char_app _ _ _ Hc), parse_number_to_string by done.
    cbn [result_bind ok ok_or]. by rewrite parse_number_to_string.
Qed.

Lemma print_range_chars (p : ascii → bool) start len :
  (∀ a, byte_in 48 57 a = true → p a = true) → p ","%char = true →
  str_forall p (print_range start len) = true.
Proof.
  intros Hp Hc. unfold print_range. case_match.
  - apply (digits_chars p); [done|]. apply number_to_string_digits.
  - rewrite str_forall_app. simpl. rewrite Hc. simpl.
    rewrite !(digits_chars p); try done; apply number_to_string_digits.
Qed.

Lemma print_range_word c start len : graphic c = true → word (String c (print_range start len)).
Proof.
  intros Hc. split; [done|]. simpl. rewrite Hc. simpl. apply print_range_chars; [|done].
  intros a Ha%byte_in_range. apply graphic_range. lia.
Qed.

Lemma print_range_no_space start len : str_forall (not_char " ") (print_range start len) = true.
Proof.
  apply print_range_chars; [|done]. intros a Ha%byte_in_range. apply not_char_true. intros ->.
  vm_compute in Ha. lia.
Qed.

Lemma parse_print_header os ol ns nl :
  (N.of_nat os <= usize_max)%N → (N.of_nat ol <= usize_max)%N →
  (N.of_nat ns <= usize_max)%N → (N.of_nat nl <= usize_max)%N →
  parse_native_bzlmod_hunk_header (print_header os ol ns nl) =
  ok (N.of_nat os, N.of_nat ol, N.of_nat nl).
Proof.
  intros Hos Hol Hns Hnl. unfold parse_native_bzlmod_hunk_header, print_header.
  change ("@@ -" +:+ print_range os ol +:+ " +" +:+ print_range ns nl +:+ " @@")
    with ("@@ " +:+ (String "-" (print_range os ol) +:+ (" +" +:+ (print_range ns nl +:+ " @@")))).
  rewrite strip_prefix_app. cbn [mbind option_bind].
  rewrite (split_once_str_skip " " "@@").
  2:{ simpl. by rewrite print_range_no_space. }
  assert (Hsecond : split_once_str " @@" (" +" +:+ (print_range ns nl +:+ " @@")) =
                    Some (" +" +:+ print_range ns nl, EmptyString)).
  { cbn -[print_range split_once_str]. cbn [split_once_str strip_prefix].
    rewrite decide_True, decide_False by done. cbn [split_once_str strip_prefix].
    rewrite decide_False by done. fold (split_once_str " @@").
    rewrite (split_once_str_skip " " "@@") by apply print_range_no_space. simpl.
    by rewrite str_app_nil. }
  rewrite Hsecond. cbn [fmap option_fmap option_map fst snd ok_or result_bind ok].
  change (" +" +:+ print_range ns nl) with (String " " (String "+" (print_range ns nl))).
  rewrite split_whitespace_word_space by (by apply print_range_word).
  rewrite split_whitespace_word by (by apply print_range_word).
  cbn [head tail]. rewrite !print_range_parse by done. done.
Qed.

Lemma parse_print_hunk os ns h rest :
  (N.of_nat os <= usize_max)%N → (N.of_nat ns <= usize_max)%N →
  (N.of_nat (length (source_lines h)) <= usize_max)%N →
  (N.of_nat (length (target_lines h)) <= usize_max)%N → Forall (λ l, text_ok (line_text l)) h →
  parse_native_bzlmod_hunk (print_header os (length (source_lines h)) ns (length (target_lines h)))
    (map print_line h ++ rest) =
  ok (mkNativePatchHunk (N.of_nat os) h, rest).
Proof.
  intros Hos Hns Hs Ht Hh. unfold parse_native_bzlmod_hunk.
  rewrite parse_print_header by done. cbn [result_bind ok].
  rewrite (hunk_lines_print h rest _ _ 0 0 []) by done. cbn [result_bind ok].
  by rewrite !N.eqb_refl.
Qed.

(** * Files *)

Inductive FileChange :=
| Modify (es : edits) (tail : list string)
| Create (lines : list string)
| Delete (lines : list string).

Definition path_text (p : list string) : string := join_with "/" p.

Definition git_line (p : list string) : string :=
  "diff --git " +:+ ("a/" +:+ path_text p) +:+ " " +:+ ("b/" +:+ path_text p).

Definition print_change (p : list string) (c : FileChange) : list string :=
  match c with
  | Modify es _ =>
      [git_line p; "--- " +:+ ("a/" +:+ path_text p); "+++ " +:+ ("b/" +:+ path_text p)] ++
      print_hunks 0 0 es
  | Create lines =>
      [git_line p; "new file mode 100644"; "--- /dev/null"; "+++ " +:+ ("b/" +:+ path_text p);
       print_header 0 0 1 (length lines)] ++ map (String "+") lines
  | Delete lines =>
      [git_line p; "deleted file mode 100644"; "--- " +:+ ("a/" +:+ path_text p); "+++ /dev/null";
       print_header 1 (length lines) 0 0] ++ map (String "-") lines
  end.

Definition print_changes (changes : list (list string * FileChange)) : string :=
  unlines (concat (map (λ pc, print_change pc.1 pc.2) changes)).

(** What the parser reads. *)
Definition parsed_change (p : list string) (c : FileChange) : NativePatchFile :=
  match c with
  | Modify es _ =>
      mkNativePatchFile (Some ("a/" +:+ path_text p)) (Some ("b/" +:+ path_text p)) (hunks_of 0 es)
        None false
  | Create lines =>
      mkNativePatchFile (Some "/dev/null") (Some ("b/" +:+ path_text p))
        [mkNativePatchHunk 0 (map Add lines)] (Some 33188%N) false
  | Delete lines =>
      mkNativePatchFile (Some ("a/" +:+ path_text p)) (Some "/dev/null")
        [mkNativePatchHunk 1 (map Remove lines)] None false
  end.

(** A component of a path: visible ASCII but for the separator and the quote. *)
Definition component_ok (w : string) : Prop :=
  word w ∧ str_forall (not_char "/") w = true ∧
  str_forall (not_char (ascii_of_nat 34)) w = true ∧ w ≠ "." ∧ w ≠ "..".
Definition path_ok (p : list string) : Prop := p ≠ [] ∧ Forall component_ok p.

Definition change_ok (c : FileChange) : Prop :=
  match c with
  | Modify es tail =>
      es ≠ [] ∧ Forall (λ e, source_lines e.2 ≠ [] ∧ Forall (λ l, text_ok (line_text l)) e.2) es ∧
      Forall (λ l, str_forall (not_char newline) l = true) (old_lines es tail) ∧
      (N.of_nat (length (old_lines es tail)) < usize_max)%N ∧
      (N.of_nat (length (new_lines es tail)) < usize_max)%N
  | Create lines | Delete lines =>
      lines ≠ [] ∧ Forall text_ok lines ∧ (N.of_nat (length lines) <= usize_max)%N
  end.

(** ** Paths *)

Lemma path_text_chars (p : ascii → bool) comps :
  p "/"%char = true → Forall (λ w, str_forall p w = true) comps →
  str_forall p (path_text comps) = true.
Proof.
  intros Hp. unfold path_text. induction 1 as [|w l Hw Hl IH]; [done|].
  destruct l as [|w2 l]; [done|]. rewrite join_with_cons by done.
  rewrite !str_forall_app, Hw, IH. simpl. by rewrite Hp.
Qed.

Lemma path_text_graphic comps : path_ok comps → str_forall graphic (path_text comps) = true.
Proof.
  intros [_ H]. apply path_text_chars; [done|]. eapply Forall_impl; [exact H|].
  by intros w [[_ Hw] _].
Qed.

Lemma path_text_no_quote comps :
  path_ok comps → str_forall (not_char (ascii_of_nat 34)) (path_text comps) = true.
Proof.
  intros [_ H]. apply path_text_chars; [done|]. eapply Forall_impl; [exact H|].
  by intros w (_ & _ & Hw & _).
Qed.

(** A side of a header: [a/] or [b/] and the path. *)
Definition side (c : ascii) (comps : list string) : string := String c (String "/" (path_text comps)).

Lemma side_word c comps : graphic c = true → path_ok comps → word (side c comps).
Proof. intros Hc Hp. split; [done|]. simpl. by rewrite Hc, path_text_graphic. Qed.

Lemma side_no_quote c comps :
  c ≠ ascii_of_nat 34 → path_ok comps → str_forall (not_char (ascii_of_nat 34)) (side c comps) = true.
Proof.
  intros Hc Hp. simpl. rewrite (proj2 (not_char_true _ _) Hc). by rewrite path_text_no_quote.
Qed.

Lemma patch_header_path_word w :
  word w → str_forall (not_char (ascii_of_nat 34)) w = true → patch_header_path w = w.
Proof.
  intros Hw Hq. unfold patch_header_path. rewrite split_char_one.
  - cbn [head default from_option id]. rewrite split_whitespace_word by done.
    by apply trim_matches_char_id.
  - apply (str_forall_impl graphic); [|apply Hw]. intros a Ha%graphic_range. apply not_char_true.
    intros ->. vm_compute in Ha. lia.
Qed.

Lemma component_no_slash comps :
  path_ok comps → Forall (λ w, str_forall (not_char "/") w = true) comps.
Proof. intros [_ H]. eapply Forall_impl; [exact H|]. by intros w (_ & Hw & _). Qed.

Lemma path_text_nonempty comps : path_ok comps → is_empty_str (path_text comps) = false.
Proof.
  intros [Hne H]. destruct H as [|w l [[Hw _] _] _]; [done|]. unfold path_text.
  destruct w; [done|]. by destruct l.
Qed.

Lemma native_path_side c comps :
  graphic c = true → c ≠ ascii_of_nat 34 → c ≠ "/"%char → path_ok comps →
  native_bzlmod_patch_path (Some (side c comps)) 1 = Some (path_text comps).
Proof.
  intros Hc Hq Hs Hp. unfold native_bzlmod_patch_path. cbn [mbind option_bind].
  assert (side c comps ≠ "/dev/null") as Hdev by (by intros [= -> _]).
  rewrite decide_False by done. unfold patch_path_after_strip.
  rewrite split_whitespace_word by (by apply side_word). cbn [head mbind option_bind].
  rewrite trim_matches_char_id by (by apply side_no_quote). rewrite decide_False by done.
  cbv zeta.
  assert (Hsplit : split_char "/" (side c comps) = String c EmptyString :: comps).
  { unfold side. change (String c (String "/" (path_text comps)))
      with (String c EmptyString +:+ String "/" (path_text comps)).
    rewrite split_char_app.
    - f_equal. unfold path_text. apply split_join_char; [apply Hp|]. by apply component_no_slash.
    - simpl. by rewrite (proj2 (not_char_true _ _) Hs). }
  rewrite Hsplit. change (N.to_nat 1) with 1. cbn [drop]. fold (path_text comps).
  by rewrite path_text_nonempty.
Qed.

Lemma safe_join_path comps : path_ok comps → safe_join_native_bzlmod_patch_path (path_text comps) = ok comps.
Proof.
  intros Hp. pose proof (component_no_slash comps Hp) as Hslash. destruct Hp as [Hne Hp].
  unfold safe_join_native_bzlmod_patch_path, normal_components.
  assert (Hsplit : split_char "/" (path_text comps) = comps) by (by apply split_join_char).
  assert (Habs : starts_with "/" (path_text comps) = false).
  { destruct Hp as [|w l [[Hw _] _] _]; [done|]. unfold path_text. inversion Hslash as [|? ? Hs]; subst.
    destruct w as [|a w]; [done|]. simpl in Hs. apply andb_true_iff in Hs as [Ha%not_char_true _].
    destruct l; unfold starts_with; simpl; by rewrite decide_False by congruence. }
  assert (Hdots : existsb (λ part, bool_decide (part = "..")) comps = false).
  { clear -Hp. induction Hp as [|w l (_ & _ & _ & _ & Hw) Hl IH]; simpl; [done|].
    by rewrite bool_decide_eq_false_2. }
  assert (Hfilter : filter (λ part, part ≠ "" ∧ part ≠ ".") comps = comps).
  { clear -Hp. induction Hp as [|w l ([Hw _] & _ & _ & Hd & _) Hl IH]; [done|].
    rewrite filter_cons_True by done. by rewrite IH. }
  cbv zeta. rewrite Hsplit, Habs, Hdots, Hfilter.
  rewrite bool_decide_eq_false_2; [done|].
  destruct Hp as [|w l (_ & _ & _ & Hd & _) Hl]; [done|]. simpl. congruence.
Qed.

(** ** Parsing the patch *)

(** A line that starts nothing is skipped: of the lines of [git diff], the mode of a deleted file. *)
Lemma skip_deleted fuel rest files current :
  patch_loop (S fuel) ("deleted file mode 100644" :: rest) files current =
  patch_loop fuel rest files current.
Proof. done. Qed.

Lemma step_git fuel p rest files current :
  path_ok p →
  patch_loop (S fuel) (git_line p :: rest) files current =
  patch_loop fuel rest (finish_native_patch_file files current)
    (Some (mkNativePatchFile (Some (side "a" p)) (Some (side "b" p)) [] None false)).
Proof.
  intros Hp. cbn [patch_loop]. unfold git_line at 1. rewrite strip_prefix_app.
  change (("a/" +:+ path_text p) +:+ " " +:+ ("b/" +:+ path_text p))
    with (side "a" p +:+ String " " (side "b" p)).
  rewrite split_whitespace_word_space by (by apply side_word).
  by rewrite split_whitespace_word by (by apply side_word).
Qed.

Lemma step_old_new fuel old new rest files file :
  patch_header_path old = old → patch_header_path new = new → pf_hunks file = [] →
  patch_loop (S fuel) (("--- " +:+ old) :: ("+++ " +:+ new) :: rest) files (Some file) =
  patch_loop fuel rest files
    (Some (mkNativePatchFile (Some old) (Some new) [] (pf_file_mode file) (pf_renames file))).
Proof.
  intros Ho Hn Hh. cbn [patch_loop].
  change (strip_prefix "diff --git " ("--- " +:+ old)) with (@None string).
  change (strip_prefix "new mode " ("--- " +:+ old)) with (@None string).
  change (strip_prefix "new file mode " ("--- " +:+ old)) with (@None string).
  change (strip_prefix "rename from " ("--- " +:+ old)) with (@None string).
  change (strip_prefix "rename to " ("--- " +:+ old)) with (@None string).
  rewrite !strip_prefix_app, Ho, Hn. cbn [default from_option id].
  rewrite (bool_decide_eq_true_2 (pf_hunks file = [])) by done.
  unfold set_new_path, set_old_path. cbn. by rewrite Hh.
Qed.

Lemma step_hunk fuel os ns h rest files file :
  (N.of_nat os <= usize_max)%N → (N.of_nat ns <= usize_max)%N →
  (N.of_nat (length (source_lines h)) <= usize_max)%N →
  (N.of_nat (length (target_lines h)) <= usize_max)%N → Forall (λ l, text_ok (line_text l)) h →
  patch_loop (S fuel)
    (print_header os (length (source_lines h)) ns (length (target_lines h)) ::
     map print_line h ++ rest) files (Some file) =
  patch_loop fuel rest files
    (Some (mkNativePatchFile (pf_old_path file) (pf_new_path file)
             (pf_hunks file ++ [mkNativePatchHunk (N.of_nat os) h]) (pf_file_mode file)
             (pf_renames file))).
Proof.
  intros Hos Hns Hs Ht Hh. cbn [patch_loop].
  pose proof (parse_print_hunk os ns h rest Hos Hns Hs Ht Hh) as Hparse.
  set (header := print_header _ _ _ _) in *.
  replace (strip_prefix "diff --git " header) with (@None string) by done.
  replace (strip_prefix "new mode " header) with (@None string) by done.
  replace (strip_prefix "new file mode " header) with (@None string) by done.
  replace (strip_prefix "rename from " header) with (@None string) by done.
  replace (strip_prefix "rename to " header) with (@None string) by done.
  replace (strip_prefix "--- " header) with (@None string) by done.
  replace (strip_prefix "+++ " header) with (@None string) by done.
  replace (starts_with "@@ " header) with true by done.
  by rewrite Hparse.
Qed.

Lemma length_old_lines_cons same h es tail :
  length (old_lines ((same, h) :: es) tail) =
  length same + length (source_lines h) + length (old_lines es tail).
Proof.
  change (old_lines ((same, h) :: es) tail) with (same ++ source_lines h ++ old_lines es tail).
  rewrite !length_app. lia.
Qed.

Lemma length_new_lines_cons same h es tail :
  length (new_lines ((same, h) :: es) tail) =
  length same + length (target_lines h) + length (new_lines es tail).
Proof.
  change (new_lines ((same, h) :: es) tail) with (same ++ target_lines h ++ new_lines es tail).
  rewrite !length_app. lia.
Qed.

(** The loop reads the lines [l] and comes to [rest] with the state [(files, current)]. *)
Definition reads (l : list string) (files files' : list NativePatchFile)
    (current current' : option NativePatchFile) : Prop :=
  ∀ rest fuel, length (l ++ rest) ≤ fuel →
  ∃ fuel', length rest ≤ fuel' ∧
    patch_loop fuel (l ++ rest) files current = patch_loop fuel' rest files' current'.

Lemma reads_nil files current : reads [] files files current current.
Proof. intros rest fuel H. by exists fuel. Qed.

Lemma reads_app l1 l2 f1 f2 f3 c1 c2 c3 :
  reads l1 f1 f2 c1 c2 → reads l2 f2 f3 c2 c3 → reads (l1 ++ l2) f1 f3 c1 c3.
Proof.
  intros H1 H2 rest fuel Hf. rewrite <- app_assoc in Hf |- *.
  destruct (H1 _ _ Hf) as (fuel1 & Hf1 & ->). apply (H2 _ _ Hf1).
Qed.

Lemma reads_step l files files' current current' :
  l ≠ [] →
  (∀ fuel rest, patch_loop (S fuel) (l ++ rest) files current = patch_loop fuel rest files' current') →
  reads l files files' current current'.
Proof.
  intros Hne Hstep rest fuel Hf. destruct fuel as [|fuel].
  { destruct l; [done|]. simpl in Hf. lia. }
  exists fuel. split; [|apply Hstep]. destruct l; [done|]. rewrite length_app in Hf. simpl in Hf. lia.
Qed.

Definition add_hunks (hs : list NativePatchHunk) (file : NativePatchFile) : NativePatchFile :=
  mkNativePatchFile (pf_old_path file) (pf_new_path file) (pf_hunks file ++ hs)
    (pf_file_mode file) (pf_renames file).

Lemma reads_hunks k k' es tail files file :
  Forall (λ e, source_lines e.2 ≠ [] ∧ Forall (λ l, text_ok (line_text l)) e.2) es →
  (N.of_nat (k + length (old_lines es tail)) < usize_max)%N →
  (N.of_nat (k' + length (new_lines es tail)) < usize_max)%N →
  reads (print_hunks k k' es) files files (Some file) (Some (add_hunks (hunks_of k es) file)).
Proof.
  intros Hes. revert k k' file.
  induction Hes as [|[same h] es [Hne Hh] Hes IH]; intros k k' file Ho Hn.
  { unfold add_hunks. simpl. rewrite app_nil_r. destruct file. apply reads_nil. }
  rewrite length_old_lines_cons in Ho. rewrite length_new_lines_cons in Hn.
  cbn [snd] in *. cbn [print_hunks hunks_of]. rewrite app_comm_cons. eapply reads_app.
  - apply reads_step; [done|]. intros fuel rest. rewrite <- app_comm_cons.
    apply step_hunk; try done; [lia| |lia|lia]. destruct (Nat.eqb_spec (length (target_lines h)) 0); lia.
  - replace (Some (add_hunks _ file)) with
      (Some (add_hunks (hunks_of (k + length same + length (source_lines h)) es)
         (add_hunks [mkNativePatchHunk (N.of_nat (k + length same + 1)) h] file)))
      by (unfold add_hunks; simpl; by rewrite <- app_assoc).
    apply IH; lia.
Qed.

Lemma reads_lines_hunk (f : string → NativePatchLine) os ns lines files file :
  (∀ t, line_text (f t) = t) → Forall text_ok lines →
  (N.of_nat os <= usize_max)%N → (N.of_nat ns <= usize_max)%N →
  (N.of_nat (length lines) <= usize_max)%N →
  reads (print_header os (length (source_lines (map f lines))) ns (length (target_lines (map f lines))) ::
         map print_line (map f lines)) files files (Some file)
    (Some (add_hunks [mkNativePatchHunk (N.of_nat os) (map f lines)] file)).
Proof.
  intros Hf Hl Hos Hns Hlen. apply reads_step; [done|]. intros fuel rest. rewrite <- app_comm_cons.
  assert (length (source_lines (map f lines)) ≤ length lines).
  { clear. induction lines as [|l ls IH]; [done|]. cbn [map]. rewrite length_source_lines.
    destruct (f l); simpl; lia. }
  assert (length (target_lines (map f lines)) ≤ length lines).
  { clear. induction lines as [|l ls IH]; [done|]. cbn [map]. rewrite length_target_lines.
    destruct (f l); simpl; lia. }
  apply step_hunk; try done; try lia. apply List.Forall_map. eapply Forall_impl; [exact Hl|].
  intros t Ht. by rewrite Hf.
Qed.

Lemma source_lines_add lines : source_lines (map Add lines) = [].
Proof. induction lines as [|l ls IH]; [done|]. exact IH. Qed.
Lemma target_lines_add lines : target_lines (map Add lines) = lines.
Proof. induction lines as [|l ls IH]; [done|]. cbn. f_equal. exact IH. Qed.
Lemma source_lines_remove lines : source_lines (map Remove lines) = lines.
Proof. induction lines as [|l ls IH]; [done|]. cbn. f_equal. exact IH. Qed.
Lemma target_lines_remove lines : target_lines (map Remove lines) = [].
Proof. induction lines as [|l ls IH]; [done|]. exact IH. Qed.

Lemma side_header_path c p :
  graphic c = true → c ≠ ascii_of_nat 34 → path_ok p → patch_header_path (side c p) = side c p.
Proof. intros. apply patch_header_path_word; [by apply side_word|by apply side_no_quote]. Qed.

Lemma reads_change p c files current :
  path_ok p → change_ok c →
  reads (print_change p c) files (finish_native_patch_file files current) current
    (Some (parsed_change p c)).
Proof.
  intros Hp Hc. pose proof (side_header_path "a" p ltac:(done) ltac:(done) Hp) as Ha.
  pose proof (side_header_path "b" p ltac:(done) ltac:(done) Hp) as Hb.
  destruct c as [es tail|lines|lines]; cbn [print_change].
  - destruct Hc as (Hne & Hes & Htext & Ho & Hn).
    eapply (reads_app [git_line p]).
    { apply reads_step; [done|]. intros fuel rest. by apply step_git. }
    eapply (reads_app ["--- " +:+ side "a" p; "+++ " +:+ side "b" p] _ _ _ _ _ _ _).
    { apply reads_step; [done|]. intros fuel rest. by apply step_old_new. }
    cbn [pf_file_mode pf_renames]. apply (reads_hunks 0 0 es tail); done.
  - destruct Hc as (Hne & Hlines & Hlen).
    eapply (reads_app [git_line p]).
    { apply reads_step; [done|]. intros fuel rest. by apply step_git. }
    apply (reads_app ["new file mode 100644"] _ _ (finish_native_patch_file files current) _ _
             (Some (mkNativePatchFile (Some (side "a" p)) (Some (side "b" p)) [] (Some 33188%N) false)) _).
    { by apply reads_step. }
    eapply (reads_app ["--- " +:+ "/dev/null"; "+++ " +:+ side "b" p] _ _ _ _ _ _ _).
    { apply reads_step; [done|]. intros fuel rest. by apply step_old_new. }
    pose proof (reads_lines_hunk Add 0 1 lines (finish_native_patch_file files current)
      (mkNativePatchFile (Some "/dev/null") (Some (side "b" p)) [] (Some 33188%N) false)
      ltac:(done) Hlines ltac:(done) ltac:(done) Hlen) as H.
    rewrite source_lines_add, target_lines_add, map_map in H. exact H.
  - destruct Hc as (Hne & Hlines & Hlen).
    eapply (reads_app [git_line p]).
    { apply reads_step; [done|]. intros fuel rest. by apply step_git. }
    apply (reads_app ["deleted file mode 100644"] _ _ (finish_native_patch_file files current) _ _
             (Some (mkNativePatchFile (Some (side "a" p)) (Some (side "b" p)) [] None false)) _).
    { apply reads_step; [done|]. intros fuel rest. apply skip_deleted. }
    eapply (reads_app ["--- " +:+ side "a" p; "+++ " +:+ "/dev/null"] _ _ _ _ _ _ _).
    { apply reads_step; [done|]. intros fuel rest. by apply step_old_new. }
    pose proof (reads_lines_hunk Remove 1 0 lines (finish_native_patch_file files current)
      (mkNativePatchFile (Some (side "a" p)) (Some "/dev/null") [] None false)
      ltac:(done) Hlines ltac:(done) ltac:(done) Hlen) as H.
    rewrite source_lines_remove, target_lines_remove, map_map in H. exact H.
Qed.

Lemma finish_parsed files p c :
  change_ok c → finish_native_patch_file files (Some (parsed_change p c)) = files ++ [parsed_change p c].
Proof.
  intros Hc. unfold finish_native_patch_file.
  assert (bool_decide (pf_hunks (parsed_change p c) = []) = false) as ->; [|done].
  apply bool_decide_eq_false. destruct c as [[|[same h] es] tail|lines|lines]; [|done..].
  by destruct Hc.
Qed.

Lemma patch_loop_changes changes fuel files current :
  Forall (λ pc, path_ok pc.1 ∧ change_ok pc.2) changes →
  length (concat (map (λ pc, print_change pc.1 pc.2) changes)) ≤ fuel →
  patch_loop fuel (concat (map (λ pc, print_change pc.1 pc.2) changes)) files current =
  ok (finish_native_patch_file files current ++ map (λ pc, parsed_change pc.1 pc.2) changes).
Proof.
  intros Hall. revert fuel files current.
  induction Hall as [|[p c] changes [Hp Hc] Hall IH]; intros fuel files current Hf.
  - rewrite app_nil_r. by destruct fuel.
  - cbn [map concat fst snd] in Hf |- *.
    destruct (reads_change p c files current Hp Hc _ fuel Hf) as (fuel' & Hf' & ->).
    rewrite IH by done. rewrite finish_parsed by done. by rewrite <- app_assoc.
Qed.

(** ** The lines of the patch *)

Definition plain (a : ascii) : bool := byte_in 32 126 a.

Lemma line_ok_plain s : str_forall plain s = true → line_ok s.
Proof.
  intros H. split.
  - eapply str_forall_impl; [|exact H]. intros a Ha%byte_in_range. apply not_char_true.
    intros ->. vm_compute in Ha. lia.
  - induction s as [|a s IH]; [done|]. simpl in H. apply andb_true_iff in H as [Ha Hs].
    simpl. destruct s as [|b s].
    + rewrite decide_False; [done|]. intros ->. by vm_compute in Ha.
    + by rewrite (IH Hs).
Qed.

Lemma line_ok_kind k t : plain k = true → line_ok t → line_ok (String k t).
Proof.
  intros Hk [Hn Hc]. apply byte_in_range in Hk. split.
  - simpl. rewrite Hn, andb_true_r. apply not_char_true. intros ->. vm_compute in Hk. lia.
  - simpl. destruct t as [|b t]; [|by rewrite Hc].
    rewrite decide_False; [done|]. intros ->. vm_compute in Hk. lia.
Qed.

Lemma print_header_ok os ol ns nl : line_ok (print_header os ol ns nl).
Proof.
  assert (Hrange : ∀ s l, str_forall plain (print_range s l) = true).
  { intros s l. apply print_range_chars; [|done]. intros a Ha%byte_in_range. apply byte_in_range. lia. }
  apply line_ok_plain. unfold print_header. rewrite !str_forall_app, !Hrange. done.
Qed.

Lemma print_line_ok l : text_ok (line_text l) → line_ok (print_line l).
Proof. intros [H _]. by destruct l; apply line_ok_kind. Qed.

Lemma print_hunks_ok k k' es :
  Forall (λ e, source_lines e.2 ≠ [] ∧ Forall (λ l, text_ok (line_text l)) e.2) es →
  Forall line_ok (print_hunks k k' es).
Proof.
  intros Hes. revert k k'. induction Hes as [|[same h] es [Hne Hh] Hes IH]; intros k k'; [constructor|].
  cbn [print_hunks]. constructor; [apply print_header_ok|]. apply Forall_app. split; [|apply IH].
  apply List.Forall_map. eapply Forall_impl; [exact Hh|]. apply print_line_ok.
Qed.

Lemma side_plain c p : plain c = true → path_ok p → str_forall plain (side c p) = true.
Proof.
  intros Hc Hp. simpl. rewrite Hc. simpl.
  apply (str_forall_impl graphic); [|by apply path_text_graphic].
  intros a Ha%graphic_range. apply byte_in_range. lia.
Qed.

Lemma print_change_ok p c : path_ok p → change_ok c → Forall line_ok (print_change p c).
Proof.
  intros Hp Hc. pose proof (side_plain "a" p ltac:(done) Hp) as Ha.
  pose proof (side_plain "b" p ltac:(done) Hp) as Hb.
  assert (Hgit : line_ok (git_line p)).
  { apply line_ok_plain. unfold git_line. rewrite !str_forall_app.
    change (str_forall plain ("a/" +:+ path_text p)) with (str_forall plain (side "a" p)).
    change (str_forall plain "a/" && str_forall plain (path_text p)) with (str_forall plain (side "a" p)).
    change (str_forall plain "b/" && str_forall plain (path_text p)) with (str_forall plain (side "b" p)).
    by rewrite Ha, Hb. }
  assert (Hminus : line_ok ("--- " +:+ ("a/" +:+ path_text p))).
  { apply line_ok_plain. rewrite str_forall_app.
    change ("a/" +:+ path_text p) with (side "a" p). by rewrite Ha. }
  assert (Hplus : line_ok ("+++ " +:+ ("b/" +:+ path_text p))).
  { apply line_ok_plain. rewrite str_forall_app.
    change ("b/" +:+ path_text p) with (side "b" p). by rewrite Hb. }
  assert (Hlines : ∀ k ls, plain k = true → Forall text_ok ls → Forall line_ok (map (String k) ls)).
  { intros k ls Hk Hls. apply List.Forall_map. eapply Forall_impl; [exact Hls|].
    intros t [Ht _]. by apply line_ok_kind. }
  destruct c as [es tail|lines|lines]; cbn [print_change app].
  - repeat (constructor; [done|]). apply print_hunks_ok. apply Hc.
  - repeat (constructor; [done || (by apply line_ok_plain) || apply print_header_ok|]).
    apply Hlines; [done|]. apply Hc.
  - repeat (constructor; [done || (by apply line_ok_plain) || apply print_header_ok|]).
    apply Hlines; [done|]. apply Hc.
Qed.

Definition changes_ok (changes : list (list string * FileChange)) : Prop :=
  NoDup changes.*1 ∧ Forall (λ pc, path_ok pc.1 ∧ change_ok pc.2) changes.

Lemma parse_print_changes changes :
  changes_ok changes →
  parse_native_bzlmod_patch (print_changes changes) = ok (map (λ pc, parsed_change pc.1 pc.2) changes).
Proof.
  intros [_ Hall]. unfold parse_native_bzlmod_patch, print_changes. rewrite str_lines_unlines.
  - by rewrite patch_loop_changes.
  - apply Forall_concat, List.Forall_map. eapply Forall_impl; [exact Hall|].
    intros [p c] [Hp Hc]. by apply print_change_ok.
Qed.

(** ** The files *)

Lemma split_join_lines l :
  Forall (λ w, str_forall (not_char newline) w = true) l →
  split_native_patch_lines (join_native_patch_lines l) = l.
Proof.
  intros H. destruct l as [|w l]; [done|]. unfold join_native_patch_lines.
  set (t := join_with (String newline EmptyString) (w :: l)).
  assert (Hne : ∃ a s, t +:+ String newline EmptyString = String a s) by (destruct t; simpl; eauto).
  unfold split_native_patch_lines. destruct Hne as (a & s & E). rewrite E, <- E.
  rewrite strip_suffix_char_app. cbn [default from_option id]. by apply split_join_char.
Qed.

(** The lines of a file before and after a change; no file is [None]. *)
Definition change_old (c : FileChange) : option (list string) :=
  match c with
  | Modify es tail => Some (old_lines es tail)
  | Create _ => None
  | Delete lines => Some lines
  end.
Definition change_new (c : FileChange) : option (list string) :=
  match c with
  | Modify es tail => Some (new_lines es tail)
  | Create lines => Some lines
  | Delete _ => None
  end.

(** The directory has the file that the change starts from, with the permissions [mode]. *)
Definition starts_from (fs : FileSystem) (p : list string) (c : FileChange) : Prop :=
  match change_old c with
  | Some lines => ∃ mode, (mode < 4096)%N ∧ fs !! p = Some (mkFile (join_native_patch_lines lines) mode)
  | None => fs !! p = None
  end.

(** The change made: permissions are kept, those of a new file are [-rw-r--r--]. *)
Definition make_change (fs : FileSystem) (p : list string) (c : FileChange) : FileSystem :=
  match change_new c with
  | Some lines =>
      <[p := mkFile (join_native_patch_lines lines) (default 420%N (file_mode <$> fs !! p))]> fs
  | None => delete p fs
  end.

Lemma mode_kept mode : (mode < 4096)%N → N.land (N.lor 32768 mode) 4095 = mode.
Proof.
  intros H. rewrite N.land_lor_distr_l. change (N.land 32768 4095) with 0%N. rewrite N.lor_0_l.
  change 4095%N with (N.ones 12). rewrite N.land_ones. by apply N.mod_small.
Qed.

Lemma apply_create path lines :
  apply_native_bzlmod_hunks path [] [mkNativePatchHunk 0 (map Add lines)] = ok lines.
Proof.
  pose proof (apply_hunk_exact path [] (mkNativePatchHunk 0 (map Add lines)) [] eq_refl) as H.
  change (source_of (mkNativePatchHunk 0 (map Add lines))) with (source_lines (map Add lines)) in H.
  change (target_of (mkNativePatchHunk 0 (map Add lines))) with (target_lines (map Add lines)) in H.
  rewrite source_lines_add, target_lines_add, !app_nil_r in H. cbn [app] in H.
  unfold apply_native_bzlmod_hunks. cbn [sort_hunks foldr insert_hunk rev app].
  rewrite apply_hunks_loop_cons, H. done.
Qed.

Lemma apply_delete path lines :
  apply_native_bzlmod_hunks path lines [mkNativePatchHunk 1 (map Remove lines)] = ok [].
Proof.
  pose proof (apply_edits path [([], map Remove lines)] []) as H.
  unfold old_lines, new_lines in H. cbn [foldr fst snd app] in H.
  rewrite source_lines_remove, target_lines_remove, !app_nil_r in H. exact H.
Qed.

(** No file is below [p], nor is [p] below a file. *)
Definition free_path (fs : FileSystem) (p : list string) : Prop :=
  ∀ q, is_Some (fs !! q) → q ≠ p → ¬ p `prefix_of` q ∧ ¬ q `prefix_of` p.

Lemma elem_of_keys (fs : FileSystem) q : q ∈ (map_to_list fs).*1 ↔ is_Some (fs !! q).
Proof.
  rewrite list_elem_of_fmap. split.
  - intros ([q' f] & -> & Hq%elem_of_map_to_list). by exists f.
  - intros [f Hf]. exists (q, f). by rewrite elem_of_map_to_list.
Qed.

Lemma is_dir_true fs p : is_dir fs p = true ↔ ∃ q, is_Some (fs !! q) ∧ p ≠ q ∧ p `prefix_of` q.
Proof.
  unfold is_dir. rewrite bool_decide_eq_true, Exists_exists. by setoid_rewrite elem_of_keys.
Qed.

Lemma below_file_true fs p : below_file fs p = true ↔ ∃ q, is_Some (fs !! q) ∧ q ≠ p ∧ q `prefix_of` p.
Proof.
  unfold below_file. rewrite bool_decide_eq_true, Exists_exists. by setoid_rewrite elem_of_keys.
Qed.

Lemma free_path_spec fs p : free_path fs p → is_dir fs p = false ∧ below_file fs p = false.
Proof.
  intros Hp. split; apply not_true_iff_false.
  - intros (q & Hq & Hne & Hpq)%is_dir_true. by destruct (Hp q Hq); [congruence|].
  - intros (q & Hq & Hne & Hpq)%below_file_true. by destruct (Hp q Hq Hne).
Qed.

Lemma free_path_delete fs p q : free_path fs p → free_path (delete q fs) p.
Proof. intros Hp q' [f [_ Hf]%lookup_delete_Some]. apply Hp. by exists f. Qed.

Lemma write_spec cm fs p text :
  free_path fs p →
  fs_create_parent no_failures p fs = io_ret tt fs ∧
  fs_write cm no_failures p text fs =
    io_ret tt (<[p := mkFile text (default cm (file_mode <$> fs !! p))]> fs).
Proof.
  intros [Hd Hb]%free_path_spec. unfold fs_create_parent, fs_write. by rewrite Hd, Hb.
Qed.

Lemma read_spec fs p file :
  fs !! p = Some file →
  fs_read_to_string no_failures p fs = io_ret (file_text file) fs ∧
  get_native_bzlmod_file_mode no_failures p fs = io_ret (Some (N.lor 32768 (file_mode file))) fs ∧
  fs_remove_file no_failures p fs = io_ret tt (delete p fs).
Proof. intros H. unfold fs_read_to_string, get_native_bzlmod_file_mode, fs_remove_file. by rewrite H. Qed.

Lemma set_mode_spec fs p file mode :
  set_native_bzlmod_file_mode no_failures p mode (<[p := file]> fs) =
  io_ret tt (<[p := mkFile (file_text file) (N.land mode 4095)]> fs).
Proof. unfold set_native_bzlmod_file_mode. by rewrite lookup_insert_eq, insert_insert_eq. Qed.

Lemma apply_change cm fs p c :
  path_ok p → change_ok c → starts_from fs p c → free_path fs p →
  apply_native_bzlmod_file_patch cm no_failures (parsed_change p c) 1 fs = io_ret tt (make_change fs p c).
Proof.
  intros Hp Hc Hfs Hfree. destruct (free_path_spec fs p Hfree) as [Hdir Hbelow].
  destruct (write_spec cm (delete p fs) p
    match change_new c with Some lines => join_native_patch_lines lines | None => "" end
    (free_path_delete fs p p Hfree)) as [Hmkdir Hwrite].
  destruct (write_spec cm fs p
    match change_new c with Some lines => join_native_patch_lines lines | None => "" end Hfree) as [Hmkdir' Hwrite'].
  unfold apply_native_bzlmod_file_patch, make_change, starts_from in *.
  destruct c as [es tail|lines|lines];
    cbn [parsed_change pf_old_path pf_new_path pf_hunks pf_file_mode change_old change_new] in *;
    change ("a/" +:+ path_text p) with (side "a" p); change ("b/" +:+ path_text p) with (side "b" p);
    rewrite ?(native_path_side _ p) by (done || by vm_compute);
    change (native_bzlmod_patch_path (Some "/dev/null") 1) with (@None string);
    unfold io_bind, io_result; cbn [or_else ok_or ok transpose_join result_bind]; rewrite ?safe_join_path by done;
    cbn [or_else ok_or ok result_bind io_ret]; unfold existing; cbn [mbind option_bind]; unfold path_exists.
  - destruct Hfs as (mode & Hmode & Hfile). destruct Hc as (_ & _ & Htext & _).
    rewrite (bool_decide_eq_true_2 (is_Some _)) by (by rewrite Hfile). cbn [orb or_else].
    destruct (read_spec fs p _ Hfile) as (-> & Hmode' & Hremove). cbn [io_ret file_text]. rewrite Hmode'. cbn [io_ret].
    rewrite split_join_lines by done. rewrite apply_edits. cbn [ok io_ret].
    rewrite (bool_decide_eq_false_2 (Some (side "b" p) = _)) by done. cbn [andb].
    rewrite Hremove. cbn [io_ret]. rewrite Hmkdir. cbn [io_ret]. rewrite Hwrite. cbn [io_ret or_else].
    rewrite set_mode_spec. cbn [file_text file_mode]. by rewrite insert_delete_eq, mode_kept, Hfile.
  - rewrite (bool_decide_eq_false_2 (is_Some _)) by (rewrite Hfs; by intros [? ?]). rewrite Hdir. cbn [orb or_else io_ret].
    change (split_native_patch_lines "") with (@nil string). rewrite apply_create. cbn [ok io_ret].
    rewrite (bool_decide_eq_false_2 (Some (side "b" p) = _)) by done. cbn [andb].
    rewrite Hmkdir'. cbn [io_ret]. rewrite Hwrite'. cbn [io_ret or_else].
    rewrite set_mode_spec, Hfs. done.
  - destruct Hfs as (mode & Hmode & Hfile). destruct Hc as (Hne & Hlines & Hlen).
    rewrite (bool_decide_eq_true_2 (is_Some _)) by (by rewrite Hfile). cbn [orb or_else].
    destruct (read_spec fs p _ Hfile) as (-> & Hmode' & Hremove). cbn [io_ret file_text]. rewrite Hmode'. cbn [io_ret].
    rewrite split_join_lines.
    2:{ eapply Forall_impl; [exact Hlines|]. by intros w [[Hw _] _]. }
    rewrite apply_delete. cbn [ok io_ret]. rewrite Hremove. cbn [io_ret]. by rewrite !bool_decide_eq_true_2.
Qed.

Lemma make_change_other fs p c q : q ≠ p → make_change fs p c !! q = fs !! q.
Proof.
  intros H. unfold make_change. destruct (change_new c).
  - by rewrite lookup_insert_ne.
  - by rewrite lookup_delete_ne.
Qed.

Definition make_changes (fs : FileSystem) (changes : list (list string * FileChange)) : FileSystem :=
  foldl (λ fs pc, make_change fs pc.1 pc.2) fs changes.

(** No path of a file, before or after, is below another one. *)
Definition paths_free (fs : FileSystem) (paths : list (list string)) : Prop :=
  ∀ p q, p ∈ paths → is_Some (fs !! q) ∨ q ∈ paths → q ≠ p → ¬ p `prefix_of` q ∧ ¬ q `prefix_of` p.

Lemma make_change_some fs p c q : is_Some (make_change fs p c !! q) → is_Some (fs !! q) ∨ q = p.
Proof. intros H. destruct (decide (q = p)) as [->|Hne]; [by right|]. left. by rewrite make_change_other in H. Qed.

Lemma apply_changes cm fs changes :
  changes_ok changes → Forall (λ pc, starts_from fs pc.1 pc.2) changes → paths_free fs changes.*1 →
  apply_files_loop cm (λ _, no_failures) (map (λ pc, parsed_change pc.1 pc.2) changes) 1 fs =
  io_ret tt (make_changes fs changes).
Proof.
  intros [Hdup Hok]. revert fs Hdup. induction Hok as [|[p c] changes [Hp Hc] Hok IH]; [done|].
  intros fs Hdup [Hfs Hstart]%Forall_cons Hfree. cbn [fmap list_fmap fst snd] in *.
  apply NoDup_cons in Hdup as [Hnew Hdup]. cbn [map apply_files_loop fst snd]. unfold io_bind.
  rewrite apply_change; [|done..|]; cbn [io_ret].
  2:{ intros q Hq Hne. apply (Hfree p q); [by left|by left|done]. }
  rewrite IH; [done|done| |].
  - apply Forall_forall. intros [q d] Hin. rewrite Forall_forall in Hstart.
    specialize (Hstart _ Hin). cbn [fst snd] in *. unfold starts_from in *.
    assert (q ≠ p). { intros ->. apply Hnew. apply list_elem_of_fmap. by exists (p, d). }
    by rewrite make_change_other.
  - intros p' q Hp' Hq Hne. apply Hfree; [by right| |done].
    destruct Hq as [[Hq| ->]%make_change_some|Hq]; [by left|right; by left|right; by right].
Qed.


Definition sample_changes : list (list string * FileChange) := [
  (["src"; "a.c"], Modify [(["one"; "two"], [Context "three"; Remove "-- four"; Add ""; Add "4"]);
                           (["five"], [Remove "six"])] ["seven"]);
  (["new.txt"], Create ["x"; "y"]);
  (["old.txt"], Delete ["z"])].
Definition sample_before : FileSystem :=
  {[ ["src"; "a.c"] := mkFile (join_native_patch_lines
       ["one"; "two"; "three"; "-- four"; "five"; "six"; "seven"]) 493;
     ["old.txt"] := mkFile (join_native_patch_lines ["z"]) 420;
     ["other"] := mkFile "same" 420 ]}.
Definition sample_after : FileSystem :=
  {[ ["src"; "a.c"] := mkFile (join_native_patch_lines
       ["one"; "two"; "three"; ""; "4"; "five"; "seven"]) 493;
     ["new.txt"] := mkFile (join_native_patch_lines ["x"; "y"]) 420;
     ["other"] := mkFile "same" 420 ]}.

Lemma component_ok_dec w :
  bool_decide (w ≠ EmptyString) && str_forall graphic w && str_forall (not_char "/") w &&
  str_forall (not_char (ascii_of_nat 34)) w && bool_decide (w ≠ ".") && bool_decide (w ≠ "..") = true →
  component_ok w.
Proof. unfold component_ok, word. rewrite !andb_true_iff, !bool_decide_eq_true. tauto. Qed.

(** [paths_free], decided. *)
Definition paths_free_dec (fs : FileSystem) (paths : list (list string)) : bool :=
  forallb (λ p, forallb (λ q, bool_decide (q = p) ||
      negb (bool_decide (p `prefix_of` q)) && negb (bool_decide (q `prefix_of` p)))
    ((map_to_list fs).*1 ++ paths)) paths.

Lemma paths_free_decided fs paths : paths_free_dec fs paths = true → paths_free fs paths.
Proof.
  unfold paths_free_dec. rewrite forallb_forall. intros H p q Hp Hq Hne.
  specialize (H p (proj1 (list_elem_of_In _ _) Hp)). rewrite forallb_forall in H.
  assert (q ∈ (map_to_list fs).*1 ++ paths) as Hin.
  { apply elem_of_app. destruct Hq as [Hq|Hq]; [left; by apply elem_of_keys|by right]. }
  specialize (H q (proj1 (list_elem_of_In _ _) Hin)).
  rewrite bool_decide_eq_false_2 in H by done. cbn [orb] in H.
  apply andb_true_iff in H as [H1%negb_true_iff%bool_decide_eq_false H2%negb_true_iff%bool_decide_eq_false]. done.
Qed.

