(* ===== verification/PatchSafe.v ===== *)
(** What applying a patch cannot do, whichever operations on files fail: panic (when no line starts with a
    character of several bytes), touch a file that it does not name, leave the directory; and where it does
    not do what the patch says. *)
From S2P Require Import Prelude.
From S2P Require Import RustStr.
From S2P Require Import RustStrSpec.
From S2P Require Import Patch.
From S2P Require Import PatchHunks.
From S2P Require Import PatchSpec.
Local Open Scope dice_scope.
Local Open Scope string_scope.
Local Open Scope nat_scope.
Local Open Scope list_scope.

(** * What a patch cannot do *)

Lemma hunk_lines_suffix lines ol nl oc nc acc h a b rest :
  hunk_lines lines ol nl oc nc acc = ok (h, a, b, rest) → rest `suffix_of` lines.
Proof.
  revert oc nc acc. induction lines as [|line lines IH]; intros oc nc acc; cbn [hunk_lines].
  { by intros [= _ _ _ <-]. }
  intros H. repeat case_match; simplify_eq; try done;
    match goal with H : hunk_lines _ _ _ _ _ _ = _ |- _ => apply IH in H; by apply suffix_cons_r end.
Qed.

Definition lines_start_with_char (lines : list string) : Prop :=
  Forall (λ line, split_kind line ≠ Panic) lines.

Lemma hunk_lines_total lines ol nl oc nc acc :
  lines_start_with_char lines → hunk_lines lines ol nl oc nc acc ≠ Panic.
Proof.
  intros H. revert oc nc acc. induction H as [|line lines Hl H IH]; intros oc nc acc; cbn [hunk_lines]; [done|].
  repeat case_match; try done; apply IH.
Qed.

Lemma result_bind_Panic {A B} (m : result A) (f : A → result B) :
  m ≠ Panic → (∀ a, m = ok a → f a ≠ Panic) → result_bind m f ≠ Panic.
Proof. intros H Hf. destruct m as [[a|e]|]; simpl; [by apply Hf|done|done]. Qed.

Lemma ok_or_total {A} (o : option A) e : ok_or o e ≠ Panic.
Proof. by destruct o. Qed.

Lemma parse_range_total r c : parse_native_bzlmod_hunk_range r c ≠ Panic.
Proof.
  unfold parse_native_bzlmod_hunk_range.
  repeat (first [apply result_bind_Panic | apply ok_or_total | case_match | intros ? ? | done]).
Qed.

Lemma parse_header_total s : parse_native_bzlmod_hunk_header s ≠ Panic.
Proof.
  unfold parse_native_bzlmod_hunk_header.
  repeat (first [apply result_bind_Panic | apply ok_or_total | apply parse_range_total | case_match
                | intros ? ? | done]).
Qed.

Lemma parse_hunk_total header rest :
  lines_start_with_char rest →
  parse_native_bzlmod_hunk header rest ≠ Panic ∧
  ∀ h rest', parse_native_bzlmod_hunk header rest = ok (h, rest') → rest' `suffix_of` rest.
Proof.
  intros H. unfold parse_native_bzlmod_hunk.
  pose proof (parse_header_total header) as Hh.
  destruct (parse_native_bzlmod_hunk_header header) as [[[[os ol] nl]|e]|]; cbn [result_bind ok]; [|done|done].
  pose proof (hunk_lines_total rest ol nl 0 0 [] H) as Hl.
  destruct (hunk_lines rest ol nl 0 0 []) as [[[[[hunk oc] nc] rest1]|e]|] eqn:E; cbn [result_bind ok]; [|done|done].
  split; [by case_match|]. intros h rest' H1. case_match; [done|]. injection H1 as _ <-.
  by apply hunk_lines_suffix in E.
Qed.

Lemma lines_start_suffix l1 l2 :
  l1 `suffix_of` l2 → lines_start_with_char l2 → lines_start_with_char l1.
Proof. intros [k ->] H. by apply Forall_app in H as [_ H]. Qed.

(** The fuel, the number of lines, is enough. *)
Lemma patch_loop_total fuel lines files current :
  length lines ≤ fuel → lines_start_with_char lines → patch_loop fuel lines files current ≠ Panic.
Proof.
  revert lines files current. induction fuel as [|fuel IH]; intros lines files current Hf Hl.
  { destruct lines; [done|]. simpl in Hf. lia. }
  destruct lines as [|line rest]; [done|]. inversion Hl as [|? ? Hline Hrest]; subst.
  simpl in Hf. assert (Hr : length rest ≤ fuel) by lia. cbn [patch_loop].
  repeat match goal with
  | |- match strip_prefix ?p ?s with _ => _ end ≠ Panic => destruct (strip_prefix p s)
  | |- match match strip_prefix ?p ?s with _ => _ end with _ => _ end ≠ Panic => destruct (strip_prefix p s)
  | |- patch_loop fuel rest _ _ ≠ Panic => by apply IH
  end.
  - destruct (if negb _ then _ else _) as [files' file']. destruct rest as [|next rest']; [by apply IH|].
    destruct (strip_prefix "+++ " next); [|by apply IH]. inversion Hrest; subst. apply IH; [|done].
    simpl in Hr. lia.
  - destruct (starts_with "@@ " line); [|by apply IH].
    destruct (parse_hunk_total line rest Hrest) as [Hp Hs].
    destruct (parse_native_bzlmod_hunk line rest) as [[[h rest']|e]|]; cbn [result_bind]; [|done|done].
    specialize (Hs _ _ eq_refl). apply IH; [|by eapply lines_start_suffix].
    apply suffix_length in Hs. lia.
Qed.

Lemma apply_hunk_total path lines hunk : apply_hunk path lines hunk ≠ Panic.
Proof.
  pose proof (hunk_position_spec lines hunk) as H. unfold apply_hunk, found_at in *.
  destruct (native_bzlmod_patch_hunk_position lines hunk) as [[p f]|]; [|done].
  destruct H as (_ & _ & Hw & Ht & _). cbn [ok_or result_bind ok]. by rewrite apply_hunk_at_window.
Qed.

Lemma apply_hunks_loop_total path lines hunks : apply_hunks_loop path lines hunks ≠ Panic.
Proof.
  revert lines. induction hunks as [|h hunks IH]; intros lines; [done|].
  rewrite apply_hunks_loop_cons. apply result_bind_Panic; [apply apply_hunk_total|]. intros. apply IH.
Qed.

(** The paths that a file of a patch names, below the directory. *)
Definition names (file : NativePatchFile) (patch_strip : N) (q : list string) : Prop :=
  ∃ side relative, (pf_old_path file = Some side ∨ pf_new_path file = Some side) ∧
    native_bzlmod_patch_path (Some side) patch_strip = Some relative ∧
    safe_join_native_bzlmod_patch_path relative = ok q.

Lemma transpose_join_names path strip q :
  transpose_join (native_bzlmod_patch_path path strip) = ok (Some q) →
  ∃ side relative, path = Some side ∧ native_bzlmod_patch_path (Some side) strip = Some relative ∧
    safe_join_native_bzlmod_patch_path relative = ok q.
Proof.
  intros H. destruct (native_bzlmod_patch_path path strip) as [relative|] eqn:E; [|done].
  destruct path as [side|]; [|done]. exists side, relative. split_and!; [done|done|].
  cbn in H. destruct (safe_join_native_bzlmod_patch_path relative) as [[p|]|]; [|done|done].
  by injection H as ->.
Qed.

Lemma transpose_join_total path : transpose_join path ≠ Panic.
Proof.
  destruct path; [|done]. cbn. apply result_bind_Panic; [apply ok_or_total|done].
Qed.

(** *** Computations on files *)

(** From files with [P] the computation does not panic, returns with [Q], or fails with [E]. *)
Definition io_triple {A : Type} (P : FileSystem → Prop) (m : io A) (Q : A → FileSystem → Prop)
    (E : PatchError → FileSystem → Prop) : Prop :=
  ∀ fs, P fs →
    match m fs with Ok (fs', inl a) => Q a fs' | Ok (fs', inr e) => E e fs' | Panic => False end.

Lemma io_triple_bind {A B : Type} (P : FileSystem → Prop) (m : io A) Q (f : A → io B) R E :
  io_triple P m Q E → (∀ a, io_triple (Q a) (f a) R E) → io_triple P (io_bind m f) R E.
Proof.
  intros Hm Hf fs HP. specialize (Hm fs HP). unfold io_bind.
  destruct (m fs) as [[fs' [a|e]]|]; [by apply Hf|done|done].
Qed.

Lemma io_triple_ret {A : Type} (P : FileSystem → Prop) (a : A) (Q : A → FileSystem → Prop) E : (∀ fs, P fs → Q a fs) → io_triple P (io_ret a) Q E.
Proof. intros H fs HP. by apply H. Qed.

Lemma io_triple_result {A : Type} (P : FileSystem → Prop) (m : result A) (E : PatchError → FileSystem → Prop) :
  m ≠ Panic → (∀ e fs, P fs → E e fs) → io_triple P (io_result m) (λ a fs, m = ok a ∧ P fs) E.
Proof. intros Hm HE fs HP. unfold io_result. destruct m as [[a|e]|]; [done|by apply HE|done]. Qed.

Lemma io_triple_pure {A : Type} (φ : Prop) (P : FileSystem → Prop) (m : io A) Q E :
  (φ → io_triple P m Q E) → io_triple (λ fs, φ ∧ P fs) m Q E.
Proof. intros H fs [Hφ HP]. by apply H. Qed.

(** No file is below another one. *)
Definition files_wf (fs : FileSystem) : Prop :=
  ∀ p q, is_Some (fs !! p) → is_Some (fs !! q) → p ≠ q → ¬ p `prefix_of` q.

Lemma files_wf_delete fs p : files_wf fs → files_wf (delete p fs).
Proof.
  intros H q q' [f [_ Hq]%lookup_delete_Some] [f' [_ Hq']%lookup_delete_Some]. apply H; [by exists f|by exists f'].
Qed.

Lemma files_wf_insert fs p f :
  is_dir fs p = false → below_file fs p = false → files_wf fs → files_wf (<[p := f]> fs).
Proof.
  intros Hd%not_true_iff_false Hb%not_true_iff_false H q q' [g Hq] [g' Hq'] Hne Hpre.
  apply lookup_insert_Some in Hq as [[-> _]|[Hnq Hq]], Hq' as [[-> _]|[Hnq' Hq']]; try done.
  - apply Hd, is_dir_true. exists q'. split_and!; [by exists g'|done|done].
  - apply Hb, below_file_true. exists q. split_and!; [by exists g|done|done].
  - by apply (H q q'); [exists g|exists g'|..].
Qed.

Lemma files_wf_keys fs fs' : (∀ q, is_Some (fs' !! q) → is_Some (fs !! q)) → files_wf fs → files_wf fs'.
Proof. intros Hk H q q' Hq Hq'. apply H; by apply Hk. Qed.

(** The errors of the operations that replace a file after the old one is removed. *)
Definition replacing (e : PatchError) : Prop :=
  match e with CreateDirError _ | WriteError _ | SetPermissionsError _ => True | _ => False end.

Section OneFile.
Context (cm : N) (failures : IoFailures) (file : NativePatchFile) (strip : N) (fs0 : FileSystem).

(** What one file of a patch may have done to the files [fs0]. *)
Definition changed (fs : FileSystem) : Prop :=
  (∀ q, fs !! q ≠ fs0 !! q → names file strip q) ∧ (files_wf fs0 → files_wf fs).
Definition failed (e : PatchError) (fs : FileSystem) : Prop := changed fs ∧ (fs = fs0 ∨ replacing e).

Lemma unchanged_failed e fs : fs = fs0 → failed e fs.
Proof. intros ->. by split; [|left]. Qed.

Lemma changed_update fs fs' p :
  changed fs → names file strip p → (∀ q, q ≠ p → fs' !! q = fs !! q) → (files_wf fs → files_wf fs') → changed fs'.
Proof.
  intros [Hn Hw] Hp Ho Hwf. split; [|auto]. intros q Hq. destruct (decide (q = p)) as [->|Hne]; [done|].
  apply Hn. by rewrite <- (Ho q Hne).
Qed.

Lemma read_triple p : io_triple (λ fs, fs = fs0) (fs_read_to_string failures p) (λ _ fs, fs = fs0) failed.
Proof.
  intros fs ->. unfold fs_read_to_string. destruct (fs0 !! p); [destruct (io_read failures)|]; cbn; try done; by apply unchanged_failed.
Qed.

Lemma get_mode_triple p : io_triple (λ fs, fs = fs0) (get_native_bzlmod_file_mode failures p) (λ _ fs, fs = fs0) failed.
Proof.
  intros fs ->. unfold get_native_bzlmod_file_mode. destruct (fs0 !! p); [destruct (io_metadata failures)|]; cbn; try done; by apply unchanged_failed.
Qed.

Lemma remove_triple p :
  names file strip p → io_triple (λ fs, fs = fs0) (fs_remove_file failures p) (λ _, changed) failed.
Proof.
  intros Hp fs ->. unfold fs_remove_file. destruct (io_remove failures); [by apply unchanged_failed|].
  destruct (fs0 !! p).
  - cbn. apply (changed_update fs0 _ p); [done|done| |apply files_wf_delete]. intros q Hq. by rewrite lookup_delete_ne.
  - destruct (is_dir fs0 p || below_file fs0 p); [by apply unchanged_failed|done].
Qed.

Lemma create_parent_triple p : io_triple changed (fs_create_parent failures p) (λ _, changed) failed.
Proof. intros fs H. unfold fs_create_parent. destruct (_ || _); cbn; [by split; [|right]|done]. Qed.

Lemma write_triple p text :
  names file strip p → io_triple changed (fs_write cm failures p text) (λ _, changed) failed.
Proof.
  intros Hp fs H. unfold fs_write.
  destruct (is_dir fs p || below_file fs p) eqn:E; [cbn; by split; [|right]|]. apply orb_false_iff in E as [Hd Hb].
  assert (Hw : ∀ t, changed (<[p:=mkFile t (default cm (file_mode <$> fs !! p))]> fs)).
  { intros t. apply (changed_update fs _ p); [done|done| |by apply files_wf_insert]. intros q Hq. by rewrite lookup_insert_ne. }
  destruct (io_write failures) as [[t|]|]; cbn; [by split; [|right]|by split; [|right]|apply Hw].
Qed.

Lemma set_mode_triple p mode :
  names file strip p → io_triple changed (set_native_bzlmod_file_mode failures p mode) (λ _, changed) failed.
Proof.
  intros Hp fs H. unfold set_native_bzlmod_file_mode. destruct (fs !! p) as [f|] eqn:Hf; [|cbn; by split; [|right]].
  destruct (io_set_permissions failures); cbn; [by split; [|right]|]. apply (changed_update fs _ p); [done|done| |].
  - intros q Hq. by rewrite lookup_insert_ne.
  - apply files_wf_keys. intros q Hq. destruct (decide (p = q)) as [->|Hne]; [by exists f|].
    by rewrite lookup_insert_ne in Hq.
Qed.

Lemma transpose_join_triple path :
  io_triple (λ fs, fs = fs0) (io_result (transpose_join path)) (λ o fs, transpose_join path = ok o ∧ fs = fs0) failed.
Proof. apply io_triple_result; [apply transpose_join_total|]. by intros; apply unchanged_failed. Qed.

Lemma result_triple {A : Type} (m : result A) :
  m ≠ Panic → io_triple (λ fs, fs = fs0) (io_result m) (λ a fs, m = ok a ∧ fs = fs0) failed.
Proof. intros Hm. apply io_triple_result; [done|]. intros e fs. apply unchanged_failed. Qed.

Lemma target_names old_target new_target target :
  transpose_join (native_bzlmod_patch_path (pf_old_path file) strip) = ok old_target →
  transpose_join (native_bzlmod_patch_path (pf_new_path file) strip) = ok new_target →
  (∀ p, old_target = Some p → names file strip p) ∧
  (ok_or (or_else new_target old_target) NoUsableTargetPath = ok target → names file strip target).
Proof.
  intros Hold Hnew.
  assert (Ho : ∀ p, old_target = Some p → names file strip p).
  { intros p ->. apply transpose_join_names in Hold as (side & rel & Hs & Hr & Hj). exists side, rel. auto. }
  split; [done|]. destruct new_target as [p|]; cbn [or_else].
  - intros [= ->]. apply transpose_join_names in Hnew as (side & rel & Hs & Hr & Hj). exists side, rel. auto.
  - destruct old_target as [p|]; [|done]. intros [= ->]. by apply Ho.
Qed.

(** The second half: the old file is removed and the new one written. *)
Lemma replace_triple old_target target text (deletes : bool) mode :
  (∀ p, old_target = Some p → names file strip p) → names file strip target →
  io_triple (λ fs, fs = fs0)
    (_ ←! match old_target with Some old_target => fs_remove_file failures old_target | None => io_ret tt end;
     if deletes then io_ret tt else
     _ ←! fs_create_parent failures target;
     _ ←! fs_write cm failures target text;
     match mode with
     | Some mode => set_native_bzlmod_file_mode failures target mode
     | None => io_ret tt
     end) (λ _, changed) failed.
Proof.
  intros Hold Htarget. eapply (io_triple_bind _ _ (λ _, changed)).
  { destruct old_target as [p|]; [by apply remove_triple, Hold|]. apply io_triple_ret. by intros fs ->. }
  intros _. destruct deletes; [by apply io_triple_ret|].
  eapply io_triple_bind; [apply create_parent_triple|]. intros ?.
  eapply io_triple_bind; [by apply write_triple|]. intros ?.
  destruct mode; [by apply set_mode_triple|by apply io_triple_ret].
Qed.

(** One file of a patch. *)
Lemma apply_file_triple :
  io_triple (λ fs, fs = fs0) (apply_native_bzlmod_file_patch cm failures file strip) (λ _, changed) failed.
Proof.
  unfold apply_native_bzlmod_file_patch.
  eapply io_triple_bind; [apply result_triple, ok_or_total|]. intros target_path. apply io_triple_pure. intros _.
  eapply io_triple_bind; [apply result_triple, transpose_join_total|]. intros old_target. apply io_triple_pure. intros Hold.
  eapply io_triple_bind; [apply result_triple, transpose_join_total|]. intros new_target. apply io_triple_pure. intros Hnew.
  eapply io_triple_bind; [apply result_triple, ok_or_total|]. intros target. apply io_triple_pure. intros Htarget.
  destruct (target_names _ _ target Hold Hnew) as [Ho Ht]. specialize (Ht Htarget).
  apply (io_triple_bind _ _ (λ _ fs, fs = fs0)); [by intros fs|]. intros input_target.
  apply (io_triple_bind _ _ (λ _ fs, fs = fs0)).
  { destruct input_target; [apply read_triple|by apply io_triple_ret]. }
  intros old_text. apply (io_triple_bind _ _ (λ _ fs, fs = fs0)).
  { destruct input_target; [apply get_mode_triple|by apply io_triple_ret]. }
  intros input_file_mode. cbv zeta.
  eapply io_triple_bind; [apply result_triple, apply_hunks_loop_total|]. intros new_lines. apply io_triple_pure. intros _.
  by apply replace_triple.
Qed.
End OneFile.

(** A component that neither goes up nor stays. *)
Definition normal (w : string) : Prop :=
  w ≠ "" ∧ w ≠ "." ∧ w ≠ ".." ∧ str_forall (not_char "/") w = true.

Lemma safe_join_normal relative q :
  safe_join_native_bzlmod_patch_path relative = ok q → relative ≠ "" → q ≠ [] ∧ Forall normal q.
Proof.
  unfold safe_join_native_bzlmod_patch_path, normal_components. intros H Hne. cbv zeta in H.
  destruct (_ || _) eqn:E; [done|]. injection H as <-.
  apply orb_false_iff in E as [E Hdots]. apply orb_false_iff in E as [Habs Hhead%bool_decide_eq_false].
  pose proof (split_char_no_sep "/" relative) as Hsplit.
  assert (Hd : ∀ w, w ∈ split_char "/" relative → w ≠ "..").
  { intros w Hw ->. assert (existsb (λ part, bool_decide (part = "..")) (split_char "/" relative) = true); [|congruence].
    apply existsb_exists. exists "..". split; [by apply list_elem_of_In|by apply bool_decide_eq_true]. }
  split.
  - destruct relative as [|a s]; [done|]. unfold starts_with in Habs. simpl in Habs, Hhead |- *.
    destruct (decide ("/"%char = a)) as [<-|Ha]; [done|]. rewrite decide_False in Hhead |- * by congruence.
    destruct (split_char "/" s) as [|w ws]; rewrite filter_cons_True; try done; simpl in Hhead;
      (split; [done|congruence]).
  - apply Forall_forall. intros w [[H1 H2] Hw]%list_elem_of_filter.
    split_and!; [done|done|by apply Hd|]. rewrite Forall_forall in Hsplit. by apply Hsplit.
Qed.

Lemma native_path_nonempty path strip relative :
  native_bzlmod_patch_path path strip = Some relative → relative ≠ "".
Proof.
  unfold native_bzlmod_patch_path, patch_path_after_strip. intros H.
  apply bind_Some in H as (p & _ & H). case_match; [done|].
  apply bind_Some in H as (w & _ & H). case_match; [done|]. cbv zeta in H.
  set (t := join_with _ _) in H. intros ->. destruct (is_empty_str t) eqn:E; [done|].
  injection H as H. by rewrite H in E.
Qed.

Lemma names_normal file strip q : names file strip q → q ≠ [] ∧ Forall normal q.
Proof.
  intros (side & rel & _ & Hr & Hj). eapply safe_join_normal; [exact Hj|].
  by eapply native_path_nonempty.
Qed.

Lemma apply_files_spec cm failures fs files strip :
  ∃ fs' r, apply_files_loop cm failures files strip fs = Ok (fs', r) ∧
    (files_wf fs → files_wf fs') ∧
    (∀ q, fs' !! q ≠ fs !! q → ∃ file, file ∈ files ∧ names file strip q) ∧
    match r with
    | inl _ => True
    | inr e => ∃ before file after fs1, files = before ++ file :: after ∧
        apply_files_loop cm failures before strip fs = Ok (fs1, inl tt) ∧
        apply_native_bzlmod_file_patch cm (failures (length before)) file strip fs1 = Ok (fs', inr e) ∧
        (fs' = fs1 ∨ replacing e ∧ ∀ q, fs' !! q ≠ fs1 !! q → names file strip q)
    end.
Proof.
  revert failures fs. induction files as [|file files IH]; intros failures fs; cbn [apply_files_loop].
  { exists fs, (inl tt). by split_and!. }
  pose proof (apply_file_triple cm (failures 0) file strip fs fs eq_refl) as Hfile. unfold io_bind.
  destruct (apply_native_bzlmod_file_patch cm (failures 0) file strip fs) as [[fs1 [[]|e]]|] eqn:E; [| |done].
  - destruct Hfile as [Hch Hwf].
    destruct (IH (λ i, failures (S i)) fs1) as (fs' & r & Hloop & Hwf' & Hnames & Herr). exists fs', r.
    split_and!; [done|auto| |].
    + intros q Hq. destruct (decide (fs1 !! q = fs !! q)) as [Heq|Hne].
      * destruct (Hnames q) as (f & Hf & Hn); [by rewrite Heq|]. exists f. split; [by right|done].
      * exists file. split; [by left|by apply Hch].
    + destruct r as [u|e]; [done|]. destruct Herr as (before & f & after & fs2 & -> & Hb & Hf & Hr).
      exists (file :: before), f, after, fs2. split_and!; [done| |done|done]. cbn [apply_files_loop]. unfold io_bind.
      by rewrite E.
  - destruct Hfile as [[Hch Hwf] Hr]. exists fs1, (inr e). split_and!; [done|done| |].
    + intros q Hq. exists file. split; [by left|by apply Hch].
    + exists [], file, files, fs. split_and!; [done|done|done|]. destruct Hr as [->|Hr]; [by left|by right].
Qed.

(** C11. A patch changes only what it names, below the directory, whichever operations the operating system
    fails.  When no line of the patch starts with a character that is not ASCII, applying it ends (the
    parser reads every line), without panic; each file changed, created or deleted is named by the header
    of a file of the patch under a path of normal components (not empty, none of them [.] or [..]), and no
    file ends below another one.  An error while parsing changes nothing.  An error at a file leaves those
    before it patched and those after it as they were; and the file itself too, unless the error is one of
    creating its directory, writing it or setting its permissions, which comes after the old file was
    removed. *)
Theorem apply_patch_safe cm failures fs patch strip :
  lines_start_with_char (str_lines patch) →
  ∃ fs' r, apply_unified_patch cm failures patch strip fs = Ok (fs', r) ∧
    (files_wf fs → files_wf fs') ∧
    match parse_native_bzlmod_patch patch with
    | Ok (inl files) =>
        (∀ q, fs' !! q ≠ fs !! q →
           q ≠ [] ∧ Forall normal q ∧ ∃ file, file ∈ files ∧ names file strip q) ∧
        (∀ e, r = inr e →
           (e = NoUnifiedDiffHunk ∧ files = [] ∧ fs' = fs) ∨
           ∃ before file after fs1, files = before ++ file :: after ∧
             apply_files_loop cm failures before strip fs = Ok (fs1, inl tt) ∧
             apply_native_bzlmod_file_patch cm (failures (length before)) file strip fs1 = Ok (fs', inr e) ∧
             (fs' = fs1 ∨ replacing e ∧ ∀ q, fs' !! q ≠ fs1 !! q → names file strip q))
    | Ok (inr e) => fs' = fs ∧ r = inr e
    | Panic => False
    end.
Proof.
  intros Hl. pose proof (patch_loop_total _ _ [] None (le_n _) Hl) as Hp.
  fold (parse_native_bzlmod_patch patch) in Hp. unfold apply_unified_patch, io_bind, io_result.
  destruct (parse_native_bzlmod_patch patch) as [[files|e]|]; [| |done].
  2:{ by exists fs, (inr e). }
  destruct (bool_decide (files = []) && _) eqn:E.
  { apply andb_true_iff in E as [->%bool_decide_eq_true _]. exists fs, (inr NoUnifiedDiffHunk).
    split_and!; [done|done|done|]. intros e [= <-]. by left. }
  destruct (apply_files_spec cm failures fs files strip) as (fs' & r & Hloop & Hwf & Hnames & Herr).
  exists fs', r. split_and!; [done|done| |].
  - intros q (file & Hf & Hn)%Hnames. destruct (names_normal _ _ _ Hn). by split_and!; [..|exists file].
  - intros e ->. right. exact Herr.
Qed.

Definition escape_patch : string := unlines [
  "--- a/ok"; "+++ b/ok"; "@@ -0,0 +1 @@"; "+fine";
  "--- a/../up"; "+++ b/../up"; "@@ -0,0 +1 @@"; "+bad"].

Lemma apply_patch_safe_witness :
  lines_start_with_char (str_lines escape_patch) ∧
  patched escape_patch 1 ∅ = Ok ({[ ["ok"] := mkFile (unlines ["fine"]) 420 ]}, inr (InvalidPatchPath "../up")) ∧
  ∃ fs', patched escape_patch 1 ∅ = Ok (fs', inr (InvalidPatchPath "../up")) ∧ files_wf fs' ∧
    ∀ q, fs' !! q ≠ None → Forall normal q.
Proof.
  assert (Hl : lines_start_with_char (str_lines escape_patch)).
  { unfold lines_start_with_char. repeat (apply Forall_cons; split; [done|]). done. }
  assert (Hrun : patched escape_patch 1 ∅ =
    Ok ({[ ["ok"] := mkFile (unlines ["fine"]) 420 ]}, inr (InvalidPatchPath "../up"))) by by vm_compute.
  split; [exact Hl|]. split; [exact Hrun|].
  destruct (apply_patch_safe 420 (λ _, no_failures) ∅ escape_patch 1 Hl) as (fs' & r & H & Hwf & Hspec).
  unfold patched in *. rewrite Hrun in H. injection H as Hfs' <-. exists fs'.
  split; [by rewrite <- Hfs'|].
  split. { apply Hwf. intros p q [f Hf]. by rewrite lookup_empty in Hf. }
  intros q Hq.
  destruct (parse_native_bzlmod_patch escape_patch) as [[files|e]|]; [| |done].
  - destruct Hspec as [Hn _]. by destruct (Hn q Hq) as (_ & Hnormal & _).
  - destruct Hspec as [Hfs _]. by rewrite Hfs in Hq.
Defined.

(** * Where applying a patch is not what the patch says *)

Definition apply_text (lines : list string) (hunk_lines : list string) : outcome (option (list string)) :=
  match patched (unlines (["--- a/f"; "+++ b/f"] ++ hunk_lines)) 1 (one_file "f" lines) with
  | Ok (fs, inl tt) => Ok (fst <$> read_lines fs "f")
  | Ok (_, inr _) => Ok None
  | Panic => Panic
  end.

(** The lines ignored at the ends of a hunk are ignored also when they are changes: the hunk does
    not match, is "applied" with one line ignored, inserts a context line and loses the added one. *)
Example fuzz_loses_added_line :
  apply_text ["x"; "y"; "z"] ["@@ -1,2 +1,3 @@"; " c1"; " c2"; "+added"] = Ok (Some ["x"; "c2"; "y"; "z"]).
Proof. vm_compute. reflexivity. Qed.

(** A hunk without old lines ([git diff -U0]) names the line after which it inserts; the lines are
    inserted before that line. *)
Example insert_without_context_too_early :
  apply_text ["one"; "two"; "three"] ["@@ -2,0 +3 @@"; "+after two"] =
  Ok (Some ["one"; "after two"; "two"; "three"]).
Proof. vm_compute. reflexivity. Qed.

(** A file shorter than the hunk is not searched with lines ignored, with which it would match. *)
Example short_file_not_searched :
  apply_text ["x"; "b"; "c"] ["@@ -1,4 +1,4 @@"; " a"; "-b"; "+B"; " c"; " d"] = Ok None ∧
  native_bzlmod_patch_source_matches ["x"; "b"; "c"] ["a"; "b"; "c"; "d"] 0 1 = true.
Proof. split; vm_compute; reflexivity. Qed.

(** A line of a hunk that starts with a character that is not ASCII. *)
Example hunk_line_panics :
  apply_text ["x"] ["@@ -1 +1 @@"; String (ascii_of_nat 195) (String (ascii_of_nat 169) "x")] = Panic.
Proof. vm_compute. reflexivity. Qed.

(** The carriage returns of a file are part of its lines, but not of the lines of a patch: the
    hunk does not match, and ignoring all of its lines it is "applied" without effect. *)
Example crlf_without_effect :
  let crlf w := w +:+ String carriage_return "" in
  apply_text [crlf "one"; crlf "two"] ["@@ -1,2 +1,2 @@"; crlf " one"; crlf "-two"; crlf "+2"] =
  Ok (Some [crlf "one"; crlf "two"]).
Proof. vm_compute. reflexivity. Qed.

(** [git diff] prints no hunk when an empty file is deleted. *)
Example empty_file_not_deleted :
  patched (unlines ["diff --git a/f b/f"; "deleted file mode 100644"; "diff --git a/g b/g"; "--- a/g";
              "+++ b/g"; "@@ -1 +1 @@"; "-x"; "+y"]) 1
    {[ ["f"] := mkFile "" 420; ["g"] := mkFile (unlines ["x"]) 420 ]} =
  Ok ({[ ["f"] := mkFile "" 420; ["g"] := mkFile (unlines ["y"]) 420 ]}, inl tt).
Proof. vm_compute. reflexivity. Qed.

(** The old file is removed before the directory of the new one is created and the new one is written: when
    one of them fails (here [d] is a file), the file is lost. *)
Example failed_rename_loses_file :
  patched (unlines ["--- a/f"; "+++ b/d/f"; "@@ -1 +1 @@"; "-x"; "+y"]) 1
    {[ ["f"] := mkFile (unlines ["x"]) 420; ["d"] := mkFile "" 420 ]} =
  Ok ({[ ["d"] := mkFile "" 420 ]}, inr (CreateDirError ["d"; "f"])).
Proof. vm_compute. reflexivity. Qed.
