(* ===== verification/RustOrd.v ===== *)
(** [Ord] of the standard library: total orders, with the orders of numbers, strings, pairs and
    lists, and the ordered maps and sets ([BTreeMap], [BTreeSet]) that iterate by them, as sorted
    association lists. *)
From S2P Require Import Prelude.
From S2P Require Import RustStr.
Local Open Scope dice_scope.

(** * Orders *)

Class RustOrd (A : Type) := rust_cmp : A → A → comparison.

(** [Ordering::then_with] *)
Definition then_with (c d : comparison) : comparison := match c with Eq => d | _ => c end.

Class TotalOrd (A : Type) `{RustOrd A} : Prop := {
  cmp_antisym (a b : A) : rust_cmp b a = CompOpp (rust_cmp a b);
  cmp_trans (a b c : A) : rust_cmp a b = Lt → rust_cmp b c = Lt → rust_cmp a c = Lt;
  cmp_eq (a b : A) : rust_cmp a b = Eq ↔ a = b;
}.

Section Order.
Context {A : Type} `{TotalOrd A}.

Lemma cmp_refl (a : A) : rust_cmp a a = Eq.
Proof. by apply cmp_eq. Qed.

Lemma cmp_gt (a b : A) : rust_cmp a b = Gt ↔ rust_cmp b a = Lt.
Proof. rewrite (cmp_antisym a b). by destruct (rust_cmp a b). Qed.

Lemma cmp_lt_irrefl (a : A) : rust_cmp a a ≠ Lt.
Proof. by rewrite cmp_refl. Qed.

Lemma cmp_trans_gt (a b c : A) : rust_cmp a b = Gt → rust_cmp b c = Gt → rust_cmp a c = Gt.
Proof. rewrite !cmp_gt. intros. by eapply cmp_trans. Qed.
End Order.

#[export] Instance N_ord : RustOrd N := N.compare.
#[export] Instance N_total : TotalOrd N.
Proof.
  split; unfold rust_cmp, N_ord.
  - intros a b. apply N.compare_antisym.
  - intros a b c. rewrite !N.compare_lt_iff. lia.
  - intros a b. apply N.compare_eq_iff.
Qed.

#[export] Instance pair_ord {A B} `{RustOrd A, RustOrd B} : RustOrd (A * B) :=
  λ x y, then_with (rust_cmp x.1 y.1) (rust_cmp x.2 y.2).

#[export] Instance pair_total {A B} `{TotalOrd A, TotalOrd B} : TotalOrd (A * B).
Proof.
  split; unfold rust_cmp, pair_ord, then_with.
  - intros [a1 b1] [a2 b2]. cbn [fst snd]. rewrite (cmp_antisym a1 a2), (cmp_antisym b1 b2).
    by destruct (rust_cmp a1 a2).
  - intros [a1 b1] [a2 b2] [a3 b3]. cbn [fst snd].
    destruct (rust_cmp a1 a2) eqn:E1, (rust_cmp a2 a3) eqn:E2; intros; try done;
      rewrite ?cmp_eq in *; subst.
    + rewrite cmp_refl. by eapply cmp_trans.
    + by rewrite E2.
    + by rewrite E1.
    + by rewrite (cmp_trans _ _ _ E1 E2).
  - intros [a1 b1] [a2 b2]. cbn [fst snd]. split.
    + destruct (rust_cmp a1 a2) eqn:E1; intros E2; [|done..].
      apply cmp_eq in E1, E2. by subst.
    + intros [= -> ->]. by rewrite !cmp_refl.
Qed.

(** Lexicographic: the first difference, or the shorter list first. *)
Fixpoint lex_cmp {A} `{RustOrd A} (l1 l2 : list A) : comparison :=
  match l1, l2 with
  | [], [] => Eq
  | [], _ :: _ => Lt
  | _ :: _, [] => Gt
  | a :: l1, b :: l2 => then_with (rust_cmp a b) (lex_cmp l1 l2)
  end.
#[export] Instance list_ord {A} `{RustOrd A} : RustOrd (list A) := lex_cmp.

#[export] Instance list_total {A} `{TotalOrd A} : TotalOrd (list A).
Proof.
  split; unfold rust_cmp, list_ord.
  - induction a as [|x a IH]; intros [|y b]; try done. cbn [lex_cmp]. unfold then_with.
    rewrite (cmp_antisym x y), (IH b). by destruct (rust_cmp x y).
  - induction a as [|x a IH]; intros [|y b] [|z c]; try done. cbn [lex_cmp]. unfold then_with.
    destruct (rust_cmp x y) eqn:E1, (rust_cmp y z) eqn:E2; intros; try done;
      rewrite ?cmp_eq in *; subst.
    + rewrite cmp_refl. by eapply IH.
    + by rewrite E2.
    + by rewrite E1.
    + by rewrite (cmp_trans _ _ _ E1 E2).
  - induction a as [|x a IH]; intros [|y b]; try done. cbn [lex_cmp]. unfold then_with. split.
    + destruct (rust_cmp x y) eqn:E; intros; try done. apply cmp_eq in E. subst. f_equal. by apply IH.
    + intros [= -> ->]. rewrite cmp_refl. by apply IH.
Qed.

(** The order of [str] is the one of the bytes. *)
Fixpoint str_bytes (s : string) : list N :=
  match s with EmptyString => [] | String a s => N_of_ascii a :: str_bytes s end.
#[export] Instance string_ord : RustOrd string := λ a b, lex_cmp (str_bytes a) (str_bytes b).

Lemma str_bytes_inj a b : str_bytes a = str_bytes b → a = b.
Proof.
  revert b. induction a as [|x a IH]; intros [|y b]; try done. cbn [str_bytes].
  intros [= Hx Hb]. f_equal; [|by apply IH].
  rewrite <- (ascii_N_embedding x), <- (ascii_N_embedding y). by rewrite Hx.
Qed.

#[export] Instance string_total : TotalOrd string.
Proof.
  split; unfold rust_cmp, string_ord.
  - intros a b. apply (cmp_antisym (str_bytes a)).
  - intros a b c. apply (cmp_trans (str_bytes a)).
  - intros a b. etrans; [apply (cmp_eq (str_bytes a) (str_bytes b))|]. split; [apply str_bytes_inj|by intros ->].
Qed.

(** * Ordered maps *)

Section Maps.
Context {K V : Type} `{TotalOrd K}.

Definition BTreeMap : Type := list (K * V).

Fixpoint btree_get (m : BTreeMap) (k : K) : option V :=
  match m with
  | [] => None
  | (k', v) :: m => match rust_cmp k k' with Lt => None | Eq => Some v | Gt => btree_get m k end
  end.

Fixpoint btree_insert (m : BTreeMap) (k : K) (v : V) : BTreeMap :=
  match m with
  | [] => [(k, v)]
  | (k', v') :: m' =>
      match rust_cmp k k' with
      | Lt => (k, v) :: m
      | Eq => (k', v) :: m'
      | Gt => (k', v') :: btree_insert m' k v
      end
  end.

Definition btree_keys (m : BTreeMap) : list K := m.*1.

(** Sorted, without repetition. *)
Inductive sorted_keys : list K → Prop :=
| sorted_nil : sorted_keys []
| sorted_cons k l : Forall (λ k', rust_cmp k k' = Lt) l → sorted_keys l → sorted_keys (k :: l).

Definition btree_wf (m : BTreeMap) : Prop := sorted_keys (btree_keys m).

Lemma btree_get_below m k :
  Forall (λ k', rust_cmp k k' = Lt) (btree_keys m) → btree_get m k = None.
Proof. destruct m as [|[k' v] m]; [done|]. intros [Hk _]%Forall_cons. simpl in *. by rewrite Hk. Qed.

Lemma btree_get_insert m k k' v :
  btree_wf m → btree_get (btree_insert m k v) k' =
  match rust_cmp k' k with Eq => Some v | _ => btree_get m k' end.
Proof.
  induction m as [|[k0 v0] m IH]; intros Hwf; simpl.
  { by destruct (rust_cmp k' k). }
  inversion Hwf as [|? ? Hlt Hm]; subst.
  destruct (rust_cmp k k0) eqn:E; simpl.
  - apply cmp_eq in E. subst. by destruct (rust_cmp k' k0).
  - destruct (rust_cmp k' k) eqn:E2; [done| |done]. by rewrite (cmp_trans _ _ _ E2 E).
  - destruct (rust_cmp k' k0) eqn:E2.
    + apply cmp_eq in E2. subst. apply cmp_gt in E. by rewrite E.
    + apply cmp_gt in E. rewrite (cmp_trans _ _ _ E2 E). done.
    + by apply IH.
Qed.

Lemma btree_get_insert_eq m k v : btree_wf m → btree_get (btree_insert m k v) k = Some v.
Proof. intros Hm. rewrite btree_get_insert by done. by rewrite cmp_refl. Qed.

Lemma btree_get_insert_ne m k k' v :
  btree_wf m → k' ≠ k → btree_get (btree_insert m k v) k' = btree_get m k'.
Proof.
  intros Hm Hne. rewrite btree_get_insert by done. destruct (rust_cmp k' k) eqn:E; try done.
  by apply cmp_eq in E.
Qed.

Lemma btree_insert_keys m k v k' :
  k' ∈ btree_keys (btree_insert m k v) ↔ k' = k ∨ k' ∈ btree_keys m.
Proof.
  unfold btree_keys. induction m as [|[k0 v0] m IH]; simpl; [by rewrite list_elem_of_singleton, elem_of_nil; intuition|].
  destruct (rust_cmp k k0) eqn:E; simpl; rewrite !elem_of_cons.
  - apply cmp_eq in E. subst. intuition.
  - intuition.
  - rewrite IH. intuition.
Qed.

Lemma btree_insert_wf m k v : btree_wf m → btree_wf (btree_insert m k v).
Proof.
  unfold btree_wf, btree_keys. induction m as [|[k0 v0] m IH]; simpl; intros Hm.
  { by repeat constructor. }
  inversion Hm as [|? ? Hlt Hm']; subst. destruct (rust_cmp k k0) eqn:E; simpl.
  - by constructor.
  - constructor; [|done]. constructor; [done|]. eapply Forall_impl; [exact Hlt|].
    intros k' Hk'. by eapply cmp_trans.
  - constructor; [|by apply IH]. apply Forall_forall. intros k' [->|Hk']%btree_insert_keys.
    + by apply cmp_gt.
    + rewrite Forall_forall in Hlt. by apply Hlt.
Qed.

Lemma btree_get_Some m k v : btree_wf m → btree_get m k = Some v ↔ (k, v) ∈ m.
Proof.
  unfold btree_wf, btree_keys. induction m as [|[k0 v0] m IH]; simpl; intros Hm.
  { by rewrite elem_of_nil. }
  inversion Hm as [|? ? Hlt Hm']; subst. rewrite elem_of_cons.
  assert (Hin : ∀ k' v', (k', v') ∈ m → rust_cmp k0 k' = Lt).
  { intros k' v' Hin. rewrite Forall_forall in Hlt. apply Hlt.
    apply list_elem_of_fmap. by exists (k', v'). }
  destruct (rust_cmp k k0) eqn:E.
  - apply cmp_eq in E. subst. split; [intros [= ->]; by left|].
    intros [[= ->]|Hk]; [done|]. apply Hin in Hk. by apply cmp_lt_irrefl in Hk.
  - split; [done|]. intros [[= -> ->]|Hk]; [by apply cmp_lt_irrefl in E|].
    apply Hin in Hk. apply (cmp_trans _ _ _ E) in Hk. by apply cmp_lt_irrefl in Hk.
  - rewrite IH by done. split; [by right|]. intros [[= -> ->]|Hk]; [|done].
    by rewrite cmp_refl in E.
Qed.

Lemma btree_get_key m k : btree_wf m → is_Some (btree_get m k) ↔ k ∈ btree_keys m.
Proof.
  intros Hm. unfold btree_keys. rewrite list_elem_of_fmap. split.
  - intros [v Hv%btree_get_Some]; [|done]. by exists (k, v).
  - intros ([k' v] & -> & Hv). exists v. by apply btree_get_Some.
Qed.

Lemma sorted_keys_NoDup l : sorted_keys l → NoDup l.
Proof.
  induction 1 as [|k l Hlt Hl IH]; constructor; [|done].
  intros Hk. rewrite Forall_forall in Hlt. apply Hlt in Hk. by apply cmp_lt_irrefl in Hk.
Qed.
End Maps.

Arguments BTreeMap : clear implicits.

(** * Ordered sets *)

Section Sets.
Context {K : Type} `{TotalOrd K}.

Fixpoint bset_contains (s : list K) (k : K) : bool :=
  match s with
  | [] => false
  | k' :: s => match rust_cmp k k' with Lt => false | Eq => true | Gt => bset_contains s k end
  end.

Fixpoint bset_insert (s : list K) (k : K) : list K :=
  match s with
  | [] => [k]
  | k' :: s' =>
      match rust_cmp k k' with
      | Lt => k :: s
      | Eq => s
      | Gt => k' :: bset_insert s' k
      end
  end.

Lemma bset_contains_spec s k : sorted_keys s → bset_contains s k = true ↔ k ∈ s.
Proof.
  induction 1 as [|k' s Hlt Hs IH]; simpl; [by rewrite elem_of_nil|]. rewrite elem_of_cons.
  rewrite Forall_forall in Hlt. destruct (rust_cmp k k') eqn:E.
  - apply cmp_eq in E. subst. intuition.
  - split; [done|]. intros [->|Hk]; [by apply cmp_lt_irrefl in E|].
    apply Hlt in Hk. apply (cmp_trans _ _ _ E) in Hk. by apply cmp_lt_irrefl in Hk.
  - rewrite IH. split; [by right|]. intros [->|]; [by rewrite cmp_refl in E|done].
Qed.

Lemma bset_contains_false s k : sorted_keys s → bset_contains s k = false ↔ k ∉ s.
Proof. intros Hs. rewrite <- (bset_contains_spec s k Hs). by destruct (bset_contains s k). Qed.

Lemma elem_of_bset_insert s k k' : k' ∈ bset_insert s k ↔ k' = k ∨ k' ∈ s.
Proof.
  induction s as [|k0 s IH]; simpl; [by rewrite list_elem_of_singleton, elem_of_nil; intuition|].
  destruct (rust_cmp k k0) eqn:E; rewrite ?elem_of_cons, ?IH; [|intuition..].
  apply cmp_eq in E. subst. intuition.
Qed.

Lemma bset_insert_sorted s k : sorted_keys s → sorted_keys (bset_insert s k).
Proof.
  induction 1 as [|k0 s Hlt Hs IH]; simpl; [by repeat constructor|].
  destruct (rust_cmp k k0) eqn:E.
  - by constructor.
  - constructor; [|by constructor]. constructor; [done|].
    eapply Forall_impl; [exact Hlt|]. intros k' Hk'. by eapply cmp_trans.
  - constructor; [|done]. apply Forall_forall. intros k' [->|Hk']%elem_of_bset_insert.
    + by apply cmp_gt.
    + rewrite Forall_forall in Hlt. by apply Hlt.
Qed.
End Sets.
