(* ===== verification/ModVersion.v ===== *)
(** Names and versions of Bazel modules ([src/app/bz_common/src/bazel/bzlmod/validation.rs]): which
    are valid, and the order of versions. *)
From S2P Require Import Prelude.
From S2P Require Import RustStr.
From S2P Require Import RustStrSpec.
From S2P Require Import RustOrd.
Local Open Scope dice_scope.
Local Open Scope string_scope.
Local Open Scope list_scope.

(** [is_ascii_lowercase], [is_ascii_digit], [is_ascii_alphanumeric]: the bytes of other characters
    satisfy none of them. *)
Definition is_ascii_lowercase (c : ascii) : bool := byte_in 97 122 c.
Definition is_ascii_digit (c : ascii) : bool := byte_in 48 57 c.
Definition is_ascii_alphanumeric (c : ascii) : bool :=
  is_ascii_digit c || byte_in 65 90 c || is_ascii_lowercase c.
Definition is_char (d c : ascii) : bool := bool_decide (c = d).

(** The loop over the characters after the first, with the last one seen. *)
Fixpoint name_rest (last : ascii) (s : string) : bool :=
  match s with
  | EmptyString => is_ascii_lowercase last || is_ascii_digit last
  | String ch s =>
      if negb (is_ascii_lowercase ch || is_ascii_digit ch || is_char "." ch || is_char "-" ch ||
               is_char "_" ch)
      then false else name_rest ch s
  end.

Definition is_valid_bzlmod_module_name (name : string) : bool :=
  match name with
  | EmptyString => false
  | String first chars => if negb (is_ascii_lowercase first) then false else name_rest first chars
  end.

Inductive BzlmodVersionIdentifier :=
| Digits (number : N) (raw : string)
| Text (text : string).

Record BzlmodVersion := mkBzlmodVersion {
  bv_release : list BzlmodVersionIdentifier;
  bv_prerelease : list BzlmodVersionIdentifier;
}.

Inductive BzlmodVersionError :=
| InvalidBuildMetadata (build : string)
| InvalidRelease (release : string)
| InvalidPrerelease (prerelease : string)
| EmptyIdentifier (value : string)
| IdentifierTooLarge (identifier : string).

(** A fallible computation. *)
Definition vresult (A : Type) : Type := A + BzlmodVersionError.
Definition vbind {A B} (m : vresult A) (f : A → vresult B) : vresult B :=
  match m with inl a => f a | inr e => inr e end.
Notation "x ←! m ; k" := (vbind m (λ x, k))
  (at level 100, m at level 99, k at level 200, right associativity) : dice_scope.

Definition parse_bzlmod_version_identifier (value identifier : string) :
    vresult BzlmodVersionIdentifier :=
  if is_empty_str identifier then inr (EmptyIdentifier value)
  else if str_forall is_ascii_digit identifier then
    match parse_unsigned 10 u64_max identifier with
    | Some number => inl (Digits number identifier)
    | None => inr (IdentifierTooLarge identifier)
    end
  else inl (Text identifier).

(** [map] and [collect] into a [Result]: the first error, in order. *)
Fixpoint collect_identifiers (value : string) (identifiers : list string) :
    vresult (list BzlmodVersionIdentifier) :=
  match identifiers with
  | [] => inl []
  | identifier :: identifiers =>
      i ←! parse_bzlmod_version_identifier value identifier;
      rest ←! collect_identifiers value identifiers;
      inl (i :: rest)
  end.

Definition parse_bzlmod_version_identifiers (value : string) : vresult (list BzlmodVersionIdentifier) :=
  collect_identifiers value (split_char "." value).

Definition parse_bzlmod_version (version : string) : vresult BzlmodVersion :=
  if is_empty_str version then inl (mkBzlmodVersion [] []) else
  let '(version, build) := default (version, "") (split_once_char "+" version) in
  if negb (is_empty_str build) &&
     negb (str_forall (λ ch, is_ascii_alphanumeric ch || is_char "." ch || is_char "-" ch) build)
  then inr (InvalidBuildMetadata build) else
  let '(release, prerelease) := default (version, "") (split_once_char "-" version) in
  if is_empty_str release || negb (str_forall (λ ch, is_ascii_alphanumeric ch || is_char "." ch) release)
  then inr (InvalidRelease release) else
  if negb (is_empty_str prerelease) &&
     negb (str_forall (λ ch, is_ascii_alphanumeric ch || is_char "." ch || is_char "-" ch) prerelease)
  then inr (InvalidPrerelease prerelease) else
  release ←! parse_bzlmod_version_identifiers release;
  prerelease ←! if is_empty_str prerelease then inl [] else parse_bzlmod_version_identifiers prerelease;
  inl (mkBzlmodVersion release prerelease).

Definition bzlmod_identifier_cmp (a b : BzlmodVersionIdentifier) : comparison :=
  match a, b with
  | Digits a_number a_raw, Digits b_number b_raw =>
      then_with (rust_cmp a_number b_number) (rust_cmp a_raw b_raw)
  | Digits _ _, Text _ => Lt
  | Text _, Digits _ _ => Gt
  | Text a, Text b => rust_cmp a b
  end.

(** The loop over the pairs, then the lengths. *)
Fixpoint first_difference (pairs : list (BzlmodVersionIdentifier * BzlmodVersionIdentifier)) :
    comparison :=
  match pairs with
  | [] => Eq
  | (a, b) :: pairs =>
      match bzlmod_identifier_cmp a b with Eq => first_difference pairs | cmp => cmp end
  end.

Definition bzlmod_identifier_lex_cmp (a b : list BzlmodVersionIdentifier) : comparison :=
  match first_difference (zip a b) with
  | Eq => Nat.compare (length a) (length b)
  | cmp => cmp
  end.

Definition is_nil {A} (l : list A) : bool := match l with [] => true | _ :: _ => false end.

(** [bzlmod_version_cmp] after parsing. *)
Definition bzlmod_parsed_cmp (a b : BzlmodVersion) : comparison :=
  match is_nil (bv_release a), is_nil (bv_release b) with
  | true, true => Eq
  | true, false => Gt
  | false, true => Lt
  | false, false =>
      match bzlmod_identifier_lex_cmp (bv_release a) (bv_release b) with
      | Eq =>
          match is_nil (bv_prerelease a), is_nil (bv_prerelease b) with
          | true, true => Eq
          | true, false => Gt
          | false, true => Lt
          | false, false => bzlmod_identifier_lex_cmp (bv_prerelease a) (bv_prerelease b)
          end
      | release => release
      end
  end.

Definition bzlmod_version_cmp (a b : string) : vresult comparison :=
  a ←! parse_bzlmod_version a;
  b ←! parse_bzlmod_version b;
  inl (bzlmod_parsed_cmp a b).

Example version_cmp_release : bzlmod_version_cmp "1.10.0" "1.9" = inl Gt.
Proof. vm_compute. reflexivity. Qed.
Example version_cmp_prerelease : bzlmod_version_cmp "1.0.0-rc2" "1.0.0" = inl Lt.
Proof. vm_compute. reflexivity. Qed.
Example version_cmp_empty : bzlmod_version_cmp "" "99" = inl Gt.
Proof. vm_compute. reflexivity. Qed.
Example version_cmp_build : bzlmod_version_cmp "1+a" "1+b" = inl Eq.
Proof. vm_compute. reflexivity. Qed.
Example version_invalid : parse_bzlmod_version "1..2" = inr (EmptyIdentifier "1..2").
Proof. vm_compute. reflexivity. Qed.
Example name_valid : is_valid_bzlmod_module_name "rules_go-1.x" = true.
Proof. vm_compute. reflexivity. Qed.
Example name_invalid : is_valid_bzlmod_module_name "rules_" = false.
Proof. vm_compute. reflexivity. Qed.

(** * The order *)

(** The reference: identifiers are ordered as pairs of a kind, a number and a text; sequences
    lexicographically; and a version by its release, then with no pre-release last, the empty version
    after all. *)
Definition identifier_rank (i : BzlmodVersionIdentifier) : N * (N * string) :=
  match i with Digits n raw => (0%N, (n, raw)) | Text t => (1%N, (0%N, t)) end.

Definition version_rank (v : BzlmodVersion) :
    N * (list (N * (N * string)) * (N * list (N * (N * string)))) :=
  match bv_release v with
  | [] => (1%N, ([], (0%N, [])))
  | release => (0%N, (map identifier_rank release,
                  (if is_nil (bv_prerelease v) then 1%N else 0%N, map identifier_rank (bv_prerelease v))))
  end.

Lemma identifier_cmp_rank a b : bzlmod_identifier_cmp a b = rust_cmp (identifier_rank a) (identifier_rank b).
Proof.
  destruct a as [n r|t], b as [m q|u]; cbn; unfold rust_cmp, pair_ord; cbn; [done..|].
  unfold then_with. done.
Qed.

#[export] Instance identifier_rank_inj : Inj (=) (=) identifier_rank.
Proof. intros a b. destruct a, b; simpl; by intros [=]; subst. Qed.

Lemma lex_cmp_rank a b :
  bzlmod_identifier_lex_cmp a b = rust_cmp (map identifier_rank a) (map identifier_rank b).
Proof.
  unfold bzlmod_identifier_lex_cmp. revert b.
  induction a as [|x a IH]; intros [|y b]; [done..|]. cbn [zip first_difference map length].
  unfold rust_cmp at 1, list_ord. cbn [lex_cmp]. rewrite <- identifier_cmp_rank.
  unfold then_with. destruct (bzlmod_identifier_cmp x y); [|done..].
  specialize (IH b). unfold rust_cmp, list_ord in IH. rewrite <- IH. done.
Qed.

Lemma pair_cmp {A B} `{RustOrd A, RustOrd B} (a1 a2 : A) (b1 b2 : B) :
  rust_cmp (a1, b1) (a2, b2) = then_with (rust_cmp a1 a2) (rust_cmp b1 b2).
Proof. done. Qed.

Lemma parsed_cmp_rank a b :
  bzlmod_parsed_cmp a b = rust_cmp (version_rank a) (version_rank b).
Proof.
  unfold bzlmod_parsed_cmp, version_rank. rewrite !lex_cmp_rank.
  destruct (bv_release a) as [|x ra], (bv_release b) as [|y rb]; [done..|].
  rewrite !pair_cmp. cbn [is_nil]. change (rust_cmp 0%N 0%N) with Eq. cbn [then_with].
  generalize (rust_cmp (map identifier_rank (x :: ra)) (map identifier_rank (y :: rb))).
  by intros []; destruct (bv_prerelease a) as [|u pa], (bv_prerelease b) as [|w pb].
Qed.

(** A parsed version without release is the empty one. *)
Lemma collect_identifiers_length value ids l :
  collect_identifiers value ids = inl l → length l = length ids.
Proof.
  revert l. induction ids as [|i ids IH]; intros l; simpl; [by intros [= <-]|].
  unfold vbind. repeat case_match; intros; simplify_eq. simpl. by rewrite (IH _ eq_refl).
Qed.

Lemma parse_identifiers_nonempty value l : parse_bzlmod_version_identifiers value = inl l → l ≠ [].
Proof.
  intros H%collect_identifiers_length ->. by destruct (split_char "." value) eqn:E;
    [apply split_char_nonempty in E|].
Qed.

Lemma parse_bzlmod_version_shape s v :
  parse_bzlmod_version s = inl v → bv_release v = [] → s = "" ∧ bv_prerelease v = [].
Proof.
  unfold parse_bzlmod_version. destruct (is_empty_str s) eqn:Es.
  { intros [= <-] _. by destruct s. }
  intros H Hv. exfalso. unfold vbind in H. repeat case_match; simplify_eq; simpl in Hv; subst;
    match goal with H : parse_bzlmod_version_identifiers _ = inl [] |- _ =>
      by apply parse_identifiers_nonempty in H end.
Qed.

Lemma version_rank_inj s t v w :
  parse_bzlmod_version s = inl v → parse_bzlmod_version t = inl w →
  version_rank v = version_rank w → v = w.
Proof.
  intros Hv Hw. pose proof (parse_bzlmod_version_shape s v Hv) as Sv.
  pose proof (parse_bzlmod_version_shape t w Hw) as Sw.
  destruct v as [rv pv], w as [rw pw]. simpl in *. unfold version_rank. simpl.
  destruct rv as [|x rv], rw as [|y rw]; [|done|done|].
  - intros _. destruct (Sv eq_refl) as [_ ->], (Sw eq_refl) as [_ ->]. done.
  - intros [= H1 H2 _ H3]. apply (inj identifier_rank) in H1. subst.
    apply (inj (fmap identifier_rank)) in H2, H3. by subst.
Qed.

(** Trichotomy of the order of the ranks. *)
Lemma rank_cmp_lt_trans s t u a b c :
  parse_bzlmod_version s = inl a → parse_bzlmod_version t = inl b → parse_bzlmod_version u = inl c →
  bzlmod_parsed_cmp a b ≠ Gt → bzlmod_parsed_cmp b c ≠ Gt →
  bzlmod_parsed_cmp a c ≠ Gt ∧ (bzlmod_parsed_cmp a c = Eq → bzlmod_parsed_cmp a b = Eq ∧ bzlmod_parsed_cmp b c = Eq).
Proof.
  intros Ha Hb Hc. rewrite !parsed_cmp_rank.
  destruct (rust_cmp (version_rank a) (version_rank b)) eqn:E1,
    (rust_cmp (version_rank b) (version_rank c)) eqn:E2; intros H1 H2; try done.
  - apply cmp_eq in E1, E2. rewrite E1, E2, cmp_refl. done.
  - apply cmp_eq in E1. rewrite E1, E2. done.
  - apply cmp_eq in E2. rewrite <- E2, E1. done.
  - rewrite (cmp_trans _ _ _ E1 E2). done.
Qed.

(** A version that can be parsed. *)
Definition valid_version (s : string) : Prop := ∃ v, parse_bzlmod_version s = inl v.

Lemma version_cmp_inl a b c :
  bzlmod_version_cmp a b = inl c ↔
  ∃ v w, parse_bzlmod_version a = inl v ∧ parse_bzlmod_version b = inl w ∧ c = bzlmod_parsed_cmp v w.
Proof.
  unfold bzlmod_version_cmp, vbind. destruct (parse_bzlmod_version a) as [v|], (parse_bzlmod_version b) as [w|];
    split; [intros [= <-]; by exists v, w|by intros (? & ? & [= <-] & [= <-] & ->)| | | | | |];
    try done; by intros (? & ? & ? & ? & ?).
Qed.

Lemma version_cmp_trans a b c ab bc :
  bzlmod_version_cmp a b = inl ab → bzlmod_version_cmp b c = inl bc → ab ≠ Gt → bc ≠ Gt →
  ∃ ac, bzlmod_version_cmp a c = inl ac ∧ ac ≠ Gt ∧ (ac = Eq → ab = Eq ∧ bc = Eq).
Proof.
  intros (v & w & Hv & Hw & ->)%version_cmp_inl (w' & x & Hw' & Hx & ->)%version_cmp_inl H1 H2.
  rewrite Hw in Hw'. injection Hw' as <-. exists (bzlmod_parsed_cmp v x).
  split; [apply version_cmp_inl; by exists v, x|].
  by apply (rank_cmp_lt_trans _ _ _ _ _ _ Hv Hw Hx).
Qed.

Lemma version_cmp_flip a b c :
  bzlmod_version_cmp a b = inl c → bzlmod_version_cmp b a = inl (CompOpp c).
Proof.
  intros (v & w & Hv & Hw & ->)%version_cmp_inl. apply version_cmp_inl.
  exists w, v. split_and!; [done|done|]. rewrite !parsed_cmp_rank. symmetry. apply cmp_antisym.
Qed.

(** C34. Versions are ordered: comparing fails exactly when one of the two is invalid, with the error
    of the first one that is; two versions compare equal when they parse to the same identifiers;
    swapping the arguments reverses the result; "at most" is transitive, strictly when one of the two
    is; and the empty version is above all others. *)
Theorem bzlmod_version_order :
  (∀ a b e, bzlmod_version_cmp a b = inr e ↔
     parse_bzlmod_version a = inr e ∨ (valid_version a ∧ parse_bzlmod_version b = inr e)) ∧
  (∀ a b, valid_version a → valid_version b →
     bzlmod_version_cmp a b = inl Eq ↔ parse_bzlmod_version a = parse_bzlmod_version b) ∧
  (∀ a b c, bzlmod_version_cmp a b = inl c ↔ bzlmod_version_cmp b a = inl (CompOpp c)) ∧
  (∀ a b c ab bc, bzlmod_version_cmp a b = inl ab → bzlmod_version_cmp b c = inl bc →
     ab ≠ Gt → bc ≠ Gt →
     ∃ ac, bzlmod_version_cmp a c = inl ac ∧ ac ≠ Gt ∧ (ac = Eq → ab = Eq ∧ bc = Eq)) ∧
  (∀ b, valid_version b → b ≠ "" → bzlmod_version_cmp "" b = inl Gt).
Proof.
  split_and!.
  - intros a b e. unfold bzlmod_version_cmp, vbind, valid_version.
    destruct (parse_bzlmod_version a) as [v|e1], (parse_bzlmod_version b) as [w|e2]; naive_solver.
  - intros a b [v Hv] [w Hw]. rewrite version_cmp_inl, Hv, Hw. split.
    + intros (v' & w' & [= <-] & [= <-] & H). symmetry in H. rewrite parsed_cmp_rank in H.
      apply cmp_eq in H. by rewrite (version_rank_inj _ _ _ _ Hv Hw H).
    + intros [= <-]. exists v, v. split_and!; [done|done|]. by rewrite parsed_cmp_rank, cmp_refl.
  - intros a b c. split; [apply version_cmp_flip|]. intros H%version_cmp_flip. by destruct c.
  - intros a b c ab bc. apply version_cmp_trans.
  - intros b [w Hw] Hb. apply version_cmp_inl. exists (mkBzlmodVersion [] []), w.
    split_and!; [done|done|]. unfold bzlmod_parsed_cmp. simpl.
    destruct (bv_release w) eqn:E; [|done]. by destruct (parse_bzlmod_version_shape b w Hw E).
Qed.

Lemma bzlmod_version_order_witness :
  bzlmod_version_cmp "1.9" "1.10-rc" = inl Lt ∧ bzlmod_version_cmp "1.10-rc" "1.10" = inl Lt ∧
  ∃ ac, bzlmod_version_cmp "1.9" "1.10" = inl ac ∧ ac ≠ Gt ∧ (ac = Eq → Lt = Eq ∧ Lt = Eq).
Proof.
  split; [by vm_compute|]. split; [by vm_compute|].
  destruct bzlmod_version_order as (_ & _ & _ & Htrans & _).
  by apply (Htrans "1.9" "1.10-rc" "1.10" Lt Lt); vm_compute.
Defined.

(** * Parsing *)

(** The grammar: identifiers separated by dots, and what may follow a dash and a plus. *)
Definition number_fits (i : string) : Prop :=
  str_forall is_ascii_digit i = true → is_Some (parse_unsigned 10 u64_max i).
Definition release_identifier (i : string) : Prop :=
  i ≠ "" ∧ str_forall is_ascii_alphanumeric i = true ∧ number_fits i.
Definition prerelease_char (ch : ascii) : bool := is_ascii_alphanumeric ch || is_char "-" ch.
Definition prerelease_identifier (i : string) : Prop :=
  i ≠ "" ∧ str_forall prerelease_char i = true ∧ number_fits i.
Definition build_char (ch : ascii) : bool := is_ascii_alphanumeric ch || is_char "." ch || is_char "-" ch.

Definition dashed (pre : option (list string)) : string :=
  match pre with Some ids => String "-" (join_with "." ids) | None => "" end.
Definition plussed (build : option string) : string :=
  match build with Some b => String "+" b | None => "" end.
Definition version_text (ids : list string) (pre : option (list string)) (build : option string) : string :=
  join_with "." ids +:+ dashed pre +:+ plussed build.

Definition identifier_of (i : string) : BzlmodVersionIdentifier :=
  if str_forall is_ascii_digit i then
    match parse_unsigned 10 u64_max i with Some n => Digits n i | None => Text i end
  else Text i.

Lemma collect_identifiers_spec value ids l :
  collect_identifiers value ids = inl l ↔
  Forall (λ i, i ≠ "" ∧ number_fits i) ids ∧ l = map identifier_of ids.
Proof.
  revert l. induction ids as [|i ids IH]; intros l; cbn [collect_identifiers map].
  { split; [by intros [= <-]|by intros [_ ->]]. }
  rewrite Forall_cons. unfold vbind, parse_bzlmod_version_identifier, identifier_of, number_fits.
  destruct (is_empty_str i) eqn:Ei.
  { split; [done|]. intros [[[Hi _] _] _]. by destruct i. }
  assert (i ≠ "") by (by intros ->).
  destruct (str_forall is_ascii_digit i) eqn:Ed; [destruct (parse_unsigned 10 u64_max i) as [n|] eqn:En|].
  - destruct (collect_identifiers value ids) as [l'|e] eqn:El.
    + destruct (proj1 (IH l') eq_refl) as [Hids ->]. split; [intros [= <-]|by intros [_ ->]].
      split; [|done]. split; [|done]. split; [done|]. first [by intros _; exists n|done].
    + split; [done|]. intros [[_ Hids] _]. pose proof (proj2 (IH _) (conj Hids eq_refl)). done.
  - split; [done|]. intros [[[_ Hi] _] _]. by destruct (Hi eq_refl).
  - destruct (collect_identifiers value ids) as [l'|e] eqn:El.
    + destruct (proj1 (IH l') eq_refl) as [Hids ->]. split; [intros [= <-]|by intros [_ ->]].
      split; [|done]. split; [|done]. split; [done|]. first [by intros _; exists n|done].
    + split; [done|]. intros [[_ Hids] _]. pose proof (proj2 (IH _) (conj Hids eq_refl)). done.
Qed.

Lemma split_once_char_spec c s :
  match split_once_char c s with
  | Some (a, b) => s = a +:+ String c b ∧ str_forall (not_char c) a = true
  | None => str_forall (not_char c) s = true
  end.
Proof.
  induction s as [|x s IH]; [done|]. cbn [split_once_char].
  destruct (decide (x = c)) as [->|Hx]; [done|]. apply not_char_true in Hx.
  destruct (split_once_char c s) as [[a b]|]; cbn.
  - destruct IH as [-> IH]. by rewrite Hx, IH.
  - by rewrite Hx, IH.
Qed.

Lemma split_once_char_none c s : str_forall (not_char c) s = true → split_once_char c s = None.
Proof.
  intros H. induction s as [|x s IH]; [done|]. cbn in H |- *. apply andb_true_iff in H as [Hx Hs].
  rewrite decide_False by (by apply not_char_true). by rewrite (IH Hs).
Qed.

Lemma str_forall_join p ids :
  str_forall (λ a, p a || is_char "." a) (join_with "." ids) = true ↔
  Forall (λ i, str_forall (λ a, p a || is_char "." a) i = true) ids.
Proof.
  induction ids as [|i ids IH]; [done|]. rewrite Forall_cons. destruct ids as [|i2 ids].
  - simpl. intuition.
  - rewrite join_with_cons by done. rewrite !str_forall_app, !andb_true_iff, <- IH.
    cbn [str_forall]. rewrite orb_true_r. intuition.
Qed.

Lemma str_forall_and p q s :
  str_forall (λ a, p a && q a) s = str_forall p s && str_forall q s.
Proof. induction s as [|a s IH]; simpl; [done|]. rewrite IH. by destruct (p a), (q a), (str_forall p s). Qed.

(** Identifiers hold no dot. *)
Lemma str_forall_no_dot p i :
  p "."%char = false →
  str_forall p i = true ↔ str_forall (λ a, p a || is_char "." a) i = true ∧ str_forall (not_char ".") i = true.
Proof.
  intros Hdot. rewrite <- andb_true_iff, <- str_forall_and.
  assert (H : ∀ a, p a = (p a || is_char "." a) && not_char "." a).
  { intros a. unfold is_char, not_char. destruct (decide (a = "."%char)) as [->|Ha].
    - by rewrite Hdot.
    - rewrite !bool_decide_eq_false_2 by done. simpl. by rewrite orb_false_r, andb_true_r. }
  induction i as [|a i IH]; simpl; [done|]. rewrite <- H, !andb_true_iff, IH. done.
Qed.

(** A text of the characters [p] and dots, split at the dots. *)
Lemma dotted_text p text ids :
  p "."%char = false → ids ≠ [] →
  (str_forall (λ a, p a || is_char "." a) text = true ∧ split_char "." text = ids) ↔
  (text = join_with "." ids ∧ Forall (λ i, str_forall p i = true) ids).
Proof.
  intros Hdot Hne. split.
  - intros [Ht <-]. split; [by rewrite (join_split_char "." text)|].
    rewrite <- (join_split_char "." text) in Ht. apply str_forall_join in Ht.
    pose proof (split_char_no_sep "." text) as Hno.
    apply Forall_forall. intros i Hi. rewrite Forall_forall in Ht, Hno.
    apply str_forall_no_dot; [done|]. split; [by apply Ht|by apply Hno].
  - intros [-> Hids].
    assert (H1 : Forall (λ i, str_forall (λ a, p a || is_char "." a) i = true) ids).
    { eapply Forall_impl; [exact Hids|]. intros i Hi. by apply (str_forall_no_dot p i Hdot) in Hi as [? _]. }
    assert (H2 : Forall (λ i, str_forall (not_char ".") i = true) ids).
    { eapply Forall_impl; [exact Hids|]. intros i Hi. by apply (str_forall_no_dot p i Hdot) in Hi as [_ ?]. }
    split; [by apply str_forall_join|]. by apply split_join_char.
Qed.

Lemma str_forall_ext (p q : ascii → bool) s : (∀ a, p a = q a) → str_forall p s = str_forall q s.
Proof. intros H. induction s as [|a s IH]; simpl; [done|]. by rewrite H, IH. Qed.

Lemma is_empty_str_true s : is_empty_str s = true ↔ s = "".
Proof. by destruct s. Qed.
Lemma is_empty_str_false s : is_empty_str s = false ↔ s ≠ "".
Proof. by destruct s. Qed.

(** The identifiers in a text of the characters [p] and dots. *)
Lemma parse_identifiers_spec p text l :
  p "."%char = false →
  (str_forall (λ a, p a || is_char "." a) text = true ∧ parse_bzlmod_version_identifiers text = inl l) ↔
  ∃ ids, ids ≠ [] ∧ text = join_with "." ids ∧ l = map identifier_of ids ∧
    Forall (λ i, i ≠ "" ∧ str_forall p i = true ∧ number_fits i) ids.
Proof.
  intros Hdot. unfold parse_bzlmod_version_identifiers. rewrite collect_identifiers_spec. split.
  - intros (Ht & Hids & ->). pose proof (split_char_nonempty "." text) as Hne.
    destruct (proj1 (dotted_text p text _ Hdot Hne) (conj Ht eq_refl)) as [Htext Hchars].
    exists (split_char "." text). split_and!; [done|done|done|].
    eapply Forall_impl; [by apply Forall_and; split; [exact Hids|exact Hchars]|]. naive_solver.
  - intros (ids & Hne & -> & -> & Hids).
    assert (Hchars : Forall (λ i, str_forall p i = true) ids) by (eapply Forall_impl; [exact Hids|naive_solver]).
    destruct (proj2 (dotted_text p _ ids Hdot Hne) (conj eq_refl Hchars)) as [Ht ->].
    split_and!; [done| |done]. eapply Forall_impl; [exact Hids|naive_solver].
Qed.

Lemma join_nonempty ids : ids ≠ [] → Forall (λ i, i ≠ "") ids → join_with "." ids ≠ "".
Proof. destruct 2 as [|i l Hi _]; [done|]. destruct i; [done|]. by destruct l. Qed.

(** Both parts split off. *)
Definition build_part (s : string) : string * option string :=
  match split_once_char "+" s with Some (v, b) => (v, Some b) | None => (s, None) end.
Definition prerelease_part (s : string) : string * option string :=
  match split_once_char "-" s with Some (r, p) => (r, Some p) | None => (s, None) end.

Definition pre_chars (ch : ascii) : bool := is_ascii_alphanumeric ch || is_char "." ch || is_char "-" ch.

Lemma checked_chars p s :
  negb (is_empty_str s) && negb (str_forall p s) = false ↔ str_forall p s = true.
Proof. destruct s as [|a s]; [done|]. simpl. by rewrite negb_false_iff. Qed.

Lemma parse_bzlmod_version_parts s v :
  s ≠ "" →
  parse_bzlmod_version s = inl v ↔
  ∃ version build release prerelease r p,
    build_part s = (version, build) ∧ prerelease_part version = (release, prerelease) ∧
    str_forall build_char (default "" build) = true ∧ release ≠ "" ∧
    str_forall (λ ch, is_ascii_alphanumeric ch || is_char "." ch) release = true ∧
    str_forall pre_chars (default "" prerelease) = true ∧
    parse_bzlmod_version_identifiers release = inl r ∧
    (if is_empty_str (default "" prerelease) then inl [] else parse_bzlmod_version_identifiers (default "" prerelease)) = inl p ∧
    v = mkBzlmodVersion r p.
Proof.
  intros Hs%is_empty_str_false. unfold parse_bzlmod_version. rewrite Hs.
  assert (Hb : default (s, "") (split_once_char "+" s) =
               ((build_part s).1, default "" (build_part s).2)).
  { unfold build_part. by destruct (split_once_char "+" s) as [[]|]. }
  rewrite Hb. destruct (build_part s) as [version build]. cbn [fst snd].
  assert (Hp : default (version, "") (split_once_char "-" version) =
               ((prerelease_part version).1, default "" (prerelease_part version).2)).
  { unfold prerelease_part. by destruct (split_once_char "-" version) as [[]|]. }
  rewrite Hp. destruct (prerelease_part version) as [release prerelease] eqn:Epre. cbn [fst snd].
  set (bs := default "" build). set (ps := default "" prerelease).
  change (λ ch : ascii, is_ascii_alphanumeric ch || is_char "." ch || is_char "-" ch) with build_char.
  destruct (negb (is_empty_str bs) && negb (str_forall build_char bs)) eqn:E1.
  { split; [done|]. intros (? & ? & ? & ? & ? & ? & [= <- <-] & _ & Hb1%checked_chars & _). unfold bs in E1. congruence. }
  apply checked_chars in E1.
  destruct (is_empty_str release || negb (str_forall (λ ch, is_ascii_alphanumeric ch || is_char "." ch) release)) eqn:E2.
  { split; [done|]. intros (? & ? & ? & ? & ? & ? & [= <- <-] & H & _ & Hr & Hr2 & _).
    rewrite Epre in H. injection H as <- <-. apply is_empty_str_false in Hr. by rewrite Hr, Hr2 in E2. }
  apply orb_false_iff in E2 as [Hr%is_empty_str_false Hr2%negb_false_iff].
  destruct (negb (is_empty_str ps) && negb (str_forall build_char ps)) eqn:E3.
  { split; [done|]. intros (? & ? & ? & ? & ? & ? & [= <- <-] & H & _ & _ & _ & Hp1%checked_chars & _).
    rewrite Epre in H. injection H as <- <-. change pre_chars with build_char in Hp1. unfold ps in E3. congruence. }
  apply checked_chars in E3. unfold vbind. split.
  - intros H. exists version, build, release, prerelease.
    destruct (parse_bzlmod_version_identifiers release) as [r|]; [|done].
    destruct (if is_empty_str ps then _ else _) as [p|] eqn:Ep; [|done]. injection H as <-.
    by exists r, p.
  - intros (? & ? & ? & ? & r & p & [= <- <-] & H & _ & _ & _ & _ & H1 & H2 & ->).
    rewrite Epre in H. injection H as <- <-. fold ps in H2. rewrite H1.
    destruct (is_empty_str ps); [by injection H2 as <-|by rewrite H2].
Qed.

Lemma str_forall_not_char_impl (p : ascii → bool) c s :
  p c = false → str_forall p s = true → str_forall (not_char c) s = true.
Proof.
  intros Hc. apply str_forall_impl. intros a Ha. apply not_char_true. intros ->. congruence.
Qed.

(** What is parsed: the empty text, and identifiers separated by dots, optionally a dash and more of
    them, which may hold dashes, and optionally a plus and text that is dropped.  An identifier of
    digits is a number that fits 64 bits, and keeps its text. *)
Theorem parse_bzlmod_version_correct s v :
  parse_bzlmod_version s = inl v ↔
  (s = "" ∧ v = mkBzlmodVersion [] []) ∨
  ∃ ids pre build, s = version_text ids pre build ∧ ids ≠ [] ∧
    Forall release_identifier ids ∧ Forall prerelease_identifier (default [] pre) ∧
    str_forall build_char (default "" build) = true ∧
    v = mkBzlmodVersion (map identifier_of ids) (map identifier_of (default [] pre)).
Proof.
  destruct (decide (s = "")) as [->|Hs].
  { split; [intros [= <-]; by left|]. intros [[_ ->]|(ids & pre & build & Ht & Hne & Hids & _)]; [done|].
    exfalso. symmetry in Ht. unfold version_text in Ht.
    assert (join_with "." ids ≠ "") as Hj.
    { apply join_nonempty; [done|]. eapply Forall_impl; [exact Hids|]. by intros i []. }
    by destruct (join_with "." ids). }
  rewrite parse_bzlmod_version_parts by done. split.
  - intros (version & build & release & prerelease & r & p & Hb & Hp & Hbuild & Hrne & Hr & Hpre & Hrel & Hids & ->).
    right. destruct (proj1 (parse_identifiers_spec is_ascii_alphanumeric release r eq_refl) (conj Hr Hrel))
      as (ids & Hne & -> & -> & Hall).
    assert (Hs1 : s = version +:+ plussed build).
    { unfold build_part in Hb. pose proof (split_once_char_spec "+" s) as H.
      destruct (split_once_char "+" s) as [[a b]|]; injection Hb as <- <-; simpl.
      - apply H.
      - by rewrite str_app_nil. }
    assert (Hs2 : version = join_with "." ids +:+ match prerelease with Some p => String "-" p | None => "" end).
    { unfold prerelease_part in Hp. pose proof (split_once_char_spec "-" version) as H.
      destruct (split_once_char "-" version) as [[a b]|]; injection Hp as <- <-.
      - apply H.
      - by rewrite str_app_nil. }
    assert (Hpids : ∃ pids, p = map identifier_of pids ∧ Forall prerelease_identifier pids ∧
              (∀ t, prerelease = Some t → t = join_with "." pids) ∧ (prerelease = None → pids = [])).
    { destruct (is_empty_str (default "" prerelease)) eqn:E.
      - injection Hids as <-. apply is_empty_str_true in E. exists []. split_and!; [done|by constructor| |done].
        intros t ->. exact E.
      - apply is_empty_str_false in E.
        rewrite (str_forall_ext pre_chars (λ a, prerelease_char a || is_char "." a)) in Hpre.
        2:{ intros a. unfold pre_chars, prerelease_char.
            by destruct (is_ascii_alphanumeric a), (is_char "." a), (is_char "-" a). }
        destruct (proj1 (parse_identifiers_spec prerelease_char _ p eq_refl) (conj Hpre Hids))
          as (pids & _ & Ht & -> & Hp'). exists pids. split_and!; [done|done| |].
        + intros t ->. exact Ht.
        + intros ->. done. }
    destruct Hpids as (pids & -> & Hpall & Hsome & Hnone).
    exists ids, (match prerelease with Some _ => Some pids | None => None end), build.
    split_and!; [|done|done| |done|].
    + rewrite Hs1, Hs2. unfold version_text. rewrite str_app_assoc. do 2 f_equal.
      destruct prerelease as [t|]; [|done]. simpl. by rewrite (Hsome t eq_refl).
    + destruct prerelease; [done|constructor].
    + destruct prerelease; [done|]. by rewrite (Hnone eq_refl).
  - intros [[? _]|(ids & pre & build & -> & Hne & Hids & Hpids & Hbuild & ->)]; [done|].
    destruct (proj2 (parse_identifiers_spec is_ascii_alphanumeric (join_with "." ids) (map identifier_of ids) eq_refl))
      as [Hr Hrel].
    { exists ids. split_and!; [done|done|done|]. eapply Forall_impl; [exact Hids|]. by intros i (? & ? & ?). }
    assert (Hpre : ∀ pids, Forall prerelease_identifier pids → pids ≠ [] →
              str_forall (λ a, prerelease_char a || is_char "." a) (join_with "." pids) = true ∧
              parse_bzlmod_version_identifiers (join_with "." pids) = inl (map identifier_of pids)).
    { intros pids H1 H2. apply (parse_identifiers_spec prerelease_char); [done|].
      exists pids. split_and!; [done|done|done|]. eapply Forall_impl; [exact H1|]. by intros i (? & ? & ?). }
    assert (Hprechars : str_forall pre_chars (join_with "." (default [] pre)) = true).
    { destruct pre as [[|i pids]|]; [done| |done]. cbn [default from_option id] in *.
      rewrite (str_forall_ext pre_chars (λ a, prerelease_char a || is_char "." a));
        [by apply Hpre|]. intros a. unfold pre_chars, prerelease_char.
      by destruct (is_ascii_alphanumeric a), (is_char "." a), (is_char "-" a). }
    exists (join_with "." ids +:+ dashed pre), build, (join_with "." ids),
      (match pre with Some pids => Some (join_with "." pids) | None => None end),
      (map identifier_of ids), (map identifier_of (default [] pre)).
    assert (Hplus : str_forall (not_char "+") (join_with "." ids +:+ dashed pre) = true).
    { rewrite str_forall_app. rewrite (str_forall_not_char_impl _ "+" _ eq_refl Hr). simpl.
      destruct pre as [pids|]; [|done]. simpl. cbn in Hprechars.
      by rewrite (str_forall_not_char_impl _ "+" _ eq_refl Hprechars). }
    split_and!; try done.
    + unfold build_part, version_text. destruct build as [b|]; simpl.
      * rewrite <- str_app_assoc. by rewrite split_once_char_app.
      * rewrite str_app_nil. by rewrite split_once_char_none.
    + unfold prerelease_part. pose proof (str_forall_not_char_impl _ "-" _ eq_refl Hr) as Hdash.
      destruct pre as [pids|]; simpl.
      * by rewrite split_once_char_app.
      * rewrite str_app_nil. by rewrite split_once_char_none.
    + apply join_nonempty; [done|]. eapply Forall_impl; [exact Hids|]. by intros i [].
    + by destruct pre.
    + destruct pre as [[|i pids]|]; [done| |done]. cbn [default from_option id] in *.
      destruct (is_empty_str (join_with "." (i :: pids))) eqn:E; [|by apply Hpre].
      apply is_empty_str_true in E. exfalso. revert E. apply join_nonempty; [done|].
      eapply Forall_impl; [exact Hpids|]. by intros j [].
Qed.
