(* ===== verification/ModSelect.v ===== *)
(** Resolution of Bazel modules ([src/app/bz_common/src/bazel/bzlmod.rs]): the modules that a root
    requires are discovered, one version of each name is selected, and the selected modules are
    ordered and named.

    Reading and evaluating a [MODULE.bazel] file is a parameter ([evaluate]); a round of fetches
    runs in parallel and is a list here. *)
From S2P Require Import Prelude.
From S2P Require Import RustStr.
From S2P Require Import RustStrSpec.
From S2P Require Import RustOrd.
From S2P Require Import ModVersion.
Local Open Scope dice_scope.
Local Open Scope string_scope.
Local Open Scope nat_scope.
Local Open Scope list_scope.

(** * Data *)

Record BazelDep := mkBazelDep {
  bd_name : string;
  bd_version : string;
  bd_apparent_name : option string;
}.

Record BzlmodUseRepoImport := mkImport { ui_alias : string; ui_repo_name : string }.
Record BzlmodRepoOverride := mkRepoOverride {
  ro_repo_name : string; ro_overriding_repo_name : string; ro_must_exist : bool }.
Record BzlmodExtensionTag := mkTag {
  tag_name : string; tag_bindings : list (string * string); tag_kwargs : list (string * string) }.

Record BzlmodExtensionUsage := mkUsage {
  eu_proxy_name : string;
  eu_extension_bzl_file : string;
  eu_extension_name : string;
  eu_dev_dependency : bool;
  eu_imports : list BzlmodUseRepoImport;
  eu_repo_overrides : list BzlmodRepoOverride;
  eu_tags : list BzlmodExtensionTag;
}.

Record BzlmodUseRepoRuleInvocation := mkInvocation {
  ri_rule_bzl_file : string; ri_rule_name : string; ri_repo_name : string;
  ri_attrs : list (string * string) }.

Record BcrSourceJson := mkSourceJson {
  sj_url : string;
  sj_urls : option (list string);
  sj_integrity : string;
  sj_strip_prefix : option string;
  sj_archive_type : option string;
  sj_patches : option (BTreeMap string string);
  sj_overlay : option (BTreeMap string string);
  sj_patch_strip : option N;
}.

Record DiscoveredBcrModule := mkDiscovered {
  dm_dep : BazelDep;
  dm_source_json : BcrSourceJson;
  dm_module_aliases : list string;
  dm_use_repo_aliases : list string;
  dm_extension_usages : list BzlmodExtensionUsage;
  dm_use_repo_rule_invocations : list BzlmodUseRepoRuleInvocation;
  dm_constants : list (string * string);
  dm_registered_toolchains : list string;
  dm_deps : list BazelDep;
}.

(** The name and the version of a module. *)
Notation ModuleKey := (string * string)%type.
Notation DiscoveredBcrModules := (BTreeMap ModuleKey DiscoveredBcrModule).

Record BzlmodRootPatch := mkRootPatch { rp_path : string; rp_content : string }.
Record BzlmodArchiveOverride := mkArchiveOverride {
  ao_module_name : string; ao_urls : list string; ao_integrity : string;
  ao_strip_prefix : option string; ao_archive_type : option string;
  ao_patches : list BzlmodRootPatch; ao_patch_strip : option N }.
Record BzlmodSingleVersionOverride := mkSingleVersionOverride {
  so_version : option string; so_patches : list BzlmodRootPatch; so_patch_strip : option N }.
Record BzlmodGitOverride := mkGitOverride {
  go_module_name : string; go_remote : string; go_commit : string }.
Record BzlmodLocalPathOverride := mkLocalPathOverride {
  lo_module_name : string; lo_path : string; lo_module_text : string;
  lo_included_module_texts : BTreeMap string string }.

(** The overrides of the root module, by the names of the modules. *)
Record Overrides := mkOverrides {
  archive_overrides : BTreeMap string BzlmodArchiveOverride;
  single_version_overrides : BTreeMap string BzlmodSingleVersionOverride;
  git_overrides : BTreeMap string BzlmodGitOverride;
  local_path_overrides : BTreeMap string BzlmodLocalPathOverride;
}.

Record BzlmodEvaluatedModuleFile := mkEvaluated {
  ev_aliases : list string;
  ev_deps : list BazelDep;
  ev_extension_usages : list BzlmodExtensionUsage;
  ev_use_repo_rule_invocations : list BzlmodUseRepoRuleInvocation;
  ev_registered_toolchains : list string;
}.

Definition bzlmod_use_repo_aliases_from_usages (usages : list BzlmodExtensionUsage) : list string :=
  map ui_alias (flat_map eu_imports usages).

Definition discovered_bzlmod_module_from_eval (dep : BazelDep) (source_json : BcrSourceJson)
    (evaluated : BzlmodEvaluatedModuleFile) : DiscoveredBcrModule :=
  mkDiscovered dep source_json (ev_aliases evaluated)
    (bzlmod_use_repo_aliases_from_usages (ev_extension_usages evaluated))
    (ev_extension_usages evaluated) (ev_use_repo_rule_invocations evaluated) []
    (ev_registered_toolchains evaluated) (ev_deps evaluated).

(** * Overrides *)

Definition contains_key {V} (m : BTreeMap string V) (name : string) : bool :=
  match btree_get m name with Some _ => true | None => false end.

(** The version that an override gives a dependency. *)
Definition overridden_version (o : Overrides) (dep : BazelDep) : string :=
  if contains_key (archive_overrides o) (bd_name dep) then ""
  else if contains_key (git_overrides o) (bd_name dep) then ""
  else if contains_key (local_path_overrides o) (bd_name dep) then ""
  else match btree_get (single_version_overrides o) (bd_name dep) with
       | Some version_override => default (bd_version dep) (so_version version_override)
       | None => bd_version dep
       end.

Definition apply_bzlmod_dep_override (o : Overrides) (dep : BazelDep) : BazelDep :=
  mkBazelDep (bd_name dep) (overridden_version o dep) (bd_apparent_name dep).

Definition apply_bzlmod_dep_overrides (deps : list BazelDep) (o : Overrides) : list BazelDep :=
  map (apply_bzlmod_dep_override o) deps.

Definition bzlmod_discovery_dep (dep : BazelDep) (root_module_name : string) (o : Overrides) :
    option BazelDep :=
  if decide (bd_name dep = root_module_name) then None
  else Some (apply_bzlmod_dep_override o dep).

Fixpoint merge_extra_bzlmod_root_deps (root_deps extra_root_deps : list BazelDep) : list BazelDep :=
  match extra_root_deps with
  | [] => root_deps
  | dep :: extra_root_deps =>
      if existsb (λ existing, bool_decide (bd_name existing = bd_name dep) &&
                    bool_decide (bd_apparent_name existing = bd_apparent_name dep)) root_deps
      then merge_extra_bzlmod_root_deps root_deps extra_root_deps
      else merge_extra_bzlmod_root_deps (root_deps ++ [dep]) extra_root_deps
  end.

Inductive ExtraDepError :=
| InvalidEntry (raw : string)
| InvalidEntryName (name : string)
| InvalidEntryVersion (name version : string) (e : BzlmodVersionError).

Definition parse_extra_bzlmod_root_dep (raw : string) : option BazelDep + ExtraDepError :=
  let raw := trim raw in
  if is_empty_str raw then inl None else
  match split_once_char "@" raw with
  | None => inr (InvalidEntry raw)
  | Some (name, version) =>
      let name := trim name in
      let version := trim version in
      if negb (is_valid_bzlmod_module_name name) then inr (InvalidEntryName name) else
      match parse_bzlmod_version version with
      | inr e => inr (InvalidEntryVersion name version e)
      | inl _ => inl (Some (mkBazelDep name version (Some name)))
      end
  end.

(** * Discovery *)

Section Discovery.
Context {E : Type}.
(** Reading, patching and evaluating the module file, in the registry or from an override. *)
Context (evaluate : ModuleKey → (BcrSourceJson * BzlmodEvaluatedModuleFile) + E).
Context (root_module_name : string) (overrides : Overrides).

(** [BzlmodModuleFileKey::compute] *)
Definition module_file (key : ModuleKey) : DiscoveredBcrModule + E :=
  match evaluate key with
  | inl (source_json, evaluated) =>
      inl (discovered_bzlmod_module_from_eval (mkBazelDep key.1 key.2 None) source_json evaluated)
  | inr e => inr e
  end.

Definition dep_key (dep : BazelDep) : ModuleKey := (bd_name dep, bd_version dep).

(** The state: the keys seen and those to fetch in the next round. *)
Definition schedule (st : list ModuleKey * list ModuleKey) (dep : BazelDep) :
    list ModuleKey * list ModuleKey :=
  match bzlmod_discovery_dep dep root_module_name overrides with
  | Some dep =>
      if bset_contains st.1 (dep_key dep) then st
      else (bset_insert st.1 (dep_key dep), st.2 ++ [dep_key dep])
  | None => st
  end.

(** [try_compute_join] *)
Fixpoint fetch_all (keys : list ModuleKey) : list DiscoveredBcrModule + E :=
  match keys with
  | [] => inl []
  | key :: keys =>
      match module_file key with
      | inl m => match fetch_all keys with inl ms => inl (m :: ms) | inr e => inr e end
      | inr e => inr e
      end
  end.

Definition discover_module (st : (list ModuleKey * list ModuleKey) * DiscoveredBcrModules)
    (m : DiscoveredBcrModule) : (list ModuleKey * list ModuleKey) * DiscoveredBcrModules :=
  (fold_left schedule (dm_deps m) st.1, btree_insert st.2 (dep_key (dm_dep m)) m).

(** A round for each unit of fuel; [None] when it runs out. *)
Fixpoint module_discovery_loop (fuel : nat) (scheduled frontier : list ModuleKey)
    (discovered : DiscoveredBcrModules) : option (DiscoveredBcrModules + E) :=
  match frontier with
  | [] => Some (inl discovered)
  | _ :: _ =>
      match fuel with
      | 0 => None
      | S fuel =>
          match fetch_all frontier with
          | inr e => Some (inr e)
          | inl modules =>
              let '((scheduled, frontier), discovered) :=
                fold_left discover_module modules ((scheduled, []), discovered) in
              module_discovery_loop fuel scheduled frontier discovered
          end
      end
  end.

(** [BzlmodDiscoveryKey::compute], when nothing is cached. *)
Definition bzlmod_discovery (fuel : nat) (root_deps builtin_deps : list BazelDep) :
    option (DiscoveredBcrModules + E) :=
  let '(scheduled, frontier) := fold_left schedule (root_deps ++ builtin_deps) ([], []) in
  module_discovery_loop fuel scheduled frontier [].
End Discovery.

(** * Selection *)

Inductive SelectError :=
| InvalidModuleVersion (name : string) (e : BzlmodVersionError)
| NotDiscovered (key : ModuleKey).

Record BzlmodSelectionResult := mkSelection {
  sr_discovered : DiscoveredBcrModules;
  sr_selected_keys : list ModuleKey;
  sr_selected_keys_in_bfs_order : list ModuleKey;
  sr_selected_keys_in_dependency_order : list ModuleKey;
  sr_canonical_repo_names_by_key : BTreeMap ModuleKey string;
}.

(** The loop over the discovered keys, in their order. *)
Fixpoint select_versions (keys : list ModuleKey) (selected_versions : BTreeMap string string) :
    BTreeMap string string + SelectError :=
  match keys with
  | [] => inl selected_versions
  | (name, version) :: keys =>
      match btree_get selected_versions name with
      | Some existing =>
          match bzlmod_version_cmp version existing with
          | inr e => inr (InvalidModuleVersion name e)
          | inl Gt => select_versions keys (btree_insert selected_versions name version)
          | inl _ => select_versions keys selected_versions
          end
      | None => select_versions keys (btree_insert selected_versions name version)
      end
  end.

(** The keys of the selected versions of dependencies. *)
Definition selected_deps (selected_versions : BTreeMap string string) (deps : list BazelDep) :
    list ModuleKey :=
  omap (λ dep, pair (bd_name dep) <$> btree_get selected_versions (bd_name dep)) deps.

Fixpoint select_loop (fuel : nat) (discovered : DiscoveredBcrModules)
    (selected_versions : BTreeMap string string) (visit selected_keys order : list ModuleKey) :
    option ((list ModuleKey * list ModuleKey) + SelectError) :=
  match visit with
  | [] => Some (inl (selected_keys, order))
  | key :: visit =>
      match fuel with
      | 0 => None
      | S fuel =>
          if bset_contains selected_keys key then
            select_loop fuel discovered selected_versions visit selected_keys order
          else
            match btree_get discovered key with
            | None => Some (inr (NotDiscovered key))
            | Some m =>
                select_loop fuel discovered selected_versions
                  (visit ++ selected_deps selected_versions (dm_deps m))
                  (bset_insert selected_keys key) (order ++ [key])
            end
      end
  end.

(** [visit] of [bzlmod_selected_keys_dependency_first], to a depth. *)
Fixpoint dependency_visit (depth : nat) (discovered : DiscoveredBcrModules)
    (selected_versions : BTreeMap string string) (selected_keys : list ModuleKey)
    (st : list ModuleKey * list ModuleKey) (key : ModuleKey) : list ModuleKey * list ModuleKey :=
  match depth with
  | 0 => st
  | S depth =>
      if negb (bset_contains selected_keys key) || bset_contains st.1 key then st
      else
        let st := (bset_insert st.1 key, st.2) in
        let st :=
          match btree_get discovered key with
          | Some m =>
              fold_left (dependency_visit depth discovered selected_versions selected_keys)
                (selected_deps selected_versions (dm_deps m)) st
          | None => st
          end in
        (st.1, st.2 ++ [key])
  end.

Definition bzlmod_selected_keys_dependency_first (discovered : DiscoveredBcrModules)
    (root_deps : list BazelDep) (selected_versions : BTreeMap string string)
    (selected_keys : list ModuleKey) : list ModuleKey :=
  (fold_left (dependency_visit (S (length selected_keys)) discovered selected_versions selected_keys)
     (selected_deps selected_versions root_deps ++ selected_keys) ([], [])).2.

Definition bzlmod_canonical_repo_name (module_name version : string) (multiple_versions : bool) : string :=
  if decide (module_name = "bazel_tools") then "bazel_tools"
  else if decide (module_name = "platforms") then "platforms"
  else if multiple_versions then module_name +:+ "+" +:+ version
  else module_name +:+ "+".

(** [entry(name).or_default().insert(version)] *)
Definition add_version (m : BTreeMap string (list string)) (key : ModuleKey) :
    BTreeMap string (list string) :=
  btree_insert m key.1 (bset_insert (default [] (btree_get m key.1)) key.2).

Definition bzlmod_canonical_repo_names_by_key (selected_keys : list ModuleKey) :
    BTreeMap ModuleKey string :=
  let selected_versions_by_name := fold_left add_version selected_keys [] in
  fold_left
    (λ names key,
      let multiple_versions :=
        match btree_get selected_versions_by_name key.1 with
        | Some versions => 1 <? length versions
        | None => false
        end in
      btree_insert names key (bzlmod_canonical_repo_name key.1 key.2 multiple_versions))
    selected_keys [].

(** One iteration for each dependency of a selected module, and each root. *)
Definition select_fuel (discovered : DiscoveredBcrModules) (root_deps : list BazelDep) : nat :=
  S (S (length root_deps + sum_list_with (λ km, length (dm_deps km.2)) discovered)).

Definition select_bzlmod_modules (root_deps : list BazelDep)
    (builtin_bazel_tools_module : DiscoveredBcrModule) (discovered : DiscoveredBcrModules) :
    option (BzlmodSelectionResult + SelectError) :=
  let discovered :=
    btree_insert discovered (dep_key (dm_dep builtin_bazel_tools_module)) builtin_bazel_tools_module in
  match select_versions (btree_keys discovered) [] with
  | inr e => Some (inr e)
  | inl selected_versions =>
      let visit :=
        selected_deps selected_versions root_deps ++
        match btree_get selected_versions "bazel_tools" with
        | Some version => [("bazel_tools", version)]
        | None => []
        end in
      match select_loop (select_fuel discovered root_deps) discovered selected_versions visit [] [] with
      | None => None
      | Some (inr e) => Some (inr e)
      | Some (inl (selected_keys, order)) =>
          Some (inl (mkSelection discovered selected_keys order
            (bzlmod_selected_keys_dependency_first discovered root_deps selected_versions selected_keys)
            (bzlmod_canonical_repo_names_by_key selected_keys)))
      end
  end.

(** [BzlmodModuleResolutionKey::compute], up to the selection. *)
Definition bzlmod_resolution {E} (evaluate : ModuleKey → (BcrSourceJson * BzlmodEvaluatedModuleFile) + E)
    (root_module_name : string) (overrides : Overrides) (fuel : nat) (root_deps : list BazelDep)
    (builtin_bazel_tools_module : DiscoveredBcrModule) :
    option (BzlmodSelectionResult + (SelectError + E)) :=
  match bzlmod_discovery evaluate root_module_name overrides fuel root_deps
          (dm_deps builtin_bazel_tools_module) with
  | None => None
  | Some (inr e) => Some (inr (inr e))
  | Some (inl discovered) =>
      match select_bzlmod_modules root_deps builtin_bazel_tools_module discovered with
      | None => None
      | Some (inr e) => Some (inr (inl e))
      | Some (inl selection) => Some (inl selection)
      end
  end.

Definition selected_versions_for_name (self : BzlmodSelectionResult) (name : string) : option string :=
  (λ p : nat * ModuleKey, p.2.2) <$>
    list_find (λ key : ModuleKey, key.1 = name) (sr_selected_keys self).

(** * Yanked versions *)

Record BzlmodAllowedYankedVersionsValue := mkAllowed {
  ay_allow_all : bool;
  ay_modules : list ModuleKey;
}.

Inductive AllowedError :=
| NotModuleVersion (value : string)
| InvalidAllowedName (name : string)
| InvalidAllowedVersion (name : string) (e : BzlmodVersionError).

Fixpoint allowed_loop (value : string) (pieces : list string) (modules : list ModuleKey) :
    BzlmodAllowedYankedVersionsValue + AllowedError :=
  match pieces with
  | [] => inl (mkAllowed false modules)
  | module :: pieces =>
      if is_empty_str module then allowed_loop value pieces modules
      else if decide (module = "all") then inl (mkAllowed true [])
      else
        match split_once_char "@" module with
        | None => inr (NotModuleVersion value)
        | Some (name, version) =>
            if negb (is_valid_bzlmod_module_name name) then inr (InvalidAllowedName name) else
            match parse_bzlmod_version version with
            | inr e => inr (InvalidAllowedVersion name e)
            | inl _ => allowed_loop value pieces (bset_insert modules (name, version))
            end
        end
  end.

Definition bzlmod_allowed_yanked_versions_from_env (value : option string) :
    BzlmodAllowedYankedVersionsValue + AllowedError :=
  match value with
  | None => inl (mkAllowed false [])
  | Some value => allowed_loop value (split_char "," value) []
  end.

Definition bzlmod_yanked_version_allowed (allowed : BzlmodAllowedYankedVersionsValue)
    (name version : string) : bool :=
  ay_allow_all allowed || bset_contains (ay_modules allowed) (name, version).
