(* ===== verification/ModDiscovery.v ===== *)
(** The discovery of [ModSelect] finds exactly the modules that the root requires, directly or not,
    or reports an error of one of them. *)
From S2P Require Import Prelude.
From S2P Require Import RustStr.
From S2P Require Import RustOrd.
From S2P Require Import ModVersion.
From S2P Require Import ModSelect.
Local Open Scope dice_scope.
Local Open Scope nat_scope.

Section Spec.
Context {E : Type}.
Context (evaluate : ModuleKey → (BcrSourceJson * BzlmodEvaluatedModuleFile) + E).
Context (root_module_name : string) (overrides : Overrides).

Notation module_file := (module_file evaluate).
Notation schedule := (schedule root_module_name overrides).
Notation discover_module := (discover_module root_module_name overrides).

(** The keys that dependencies stand for: overridden, without the root module itself. *)
Definition required_keys (deps : list BazelDep) : list ModuleKey :=
  omap (λ dep, dep_key <$> bzlmod_discovery_dep dep root_module_name overrides) deps.

Definition children (key : ModuleKey) : list ModuleKey :=
  match module_file key with inl m => required_keys (dm_deps m) | inr _ => [] end.

(** What the dependencies [roots] require. *)
Inductive required (roots : list BazelDep) : ModuleKey → Prop :=
| required_root k : k ∈ required_keys roots → required roots k
| required_child k k' : required roots k → k' ∈ children k → required roots k'.

(** [st'] is [st] with the keys [ks] seen, the new ones to be fetched. *)
Definition extends (ks : list ModuleKey) (st st' : list ModuleKey * list ModuleKey) : Prop :=
  sorted_keys st'.1 ∧ (∀ k, k ∈ st'.1 ↔ k ∈ st.1 ∨ k ∈ ks) ∧
  ∃ fresh, st'.2 = st.2 ++ fresh ∧ NoDup fresh ∧ ∀ k, k ∈ fresh ↔ k ∈ ks ∧ k ∉ st.1.

Lemma extends_nil st : sorted_keys st.1 → extends [] st st.
Proof.
  intros Hs. split; [done|]. split; [intros k; rewrite elem_of_nil; tauto|].
  exists []. rewrite app_nil_r. split_and!; [done|constructor|]. intros k. rewrite !elem_of_nil. tauto.
Qed.

Lemma extends_app ks1 ks2 st1 st2 st3 :
  extends ks1 st1 st2 → extends ks2 st2 st3 → extends (ks1 ++ ks2) st1 st3.
Proof.
  intros (_ & H1 & fresh1 & E1 & N1 & F1) (S2 & H2 & fresh2 & E2 & N2 & F2). split; [done|]. split.
  - intros k. rewrite H2, H1, elem_of_app. tauto.
  - exists (fresh1 ++ fresh2). split; [by rewrite E2, E1, app_assoc|]. split.
    + apply NoDup_app. split_and!; [done| |done]. intros k Hk1 Hk2.
      apply F2 in Hk2 as [_ Hk2]. apply Hk2. rewrite H1. right. by apply F1 in Hk1 as [? _].
    + intros k. rewrite !elem_of_app, F1, F2, H1. destruct (decide (k ∈ ks1)), (decide (k ∈ st1.1)); tauto.
Qed.

Lemma schedule_extends st dep :
  sorted_keys st.1 → extends (required_keys [dep]) st (schedule st dep).
Proof.
  intros Hs. unfold ModSelect.schedule, required_keys. simpl.
  destruct (bzlmod_discovery_dep dep root_module_name overrides) as [d|]; simpl; [|by apply extends_nil].
  destruct (bset_contains st.1 (dep_key d)) eqn:Ec.
  - apply bset_contains_spec in Ec; [|done]. split; [done|]. split.
    + intros k. rewrite list_elem_of_singleton. split; [by left|]. by intros [?| ->].
    + exists []. rewrite app_nil_r. split_and!; [done|constructor|].
      intros k. rewrite elem_of_nil, list_elem_of_singleton. split; [done|]. by intros [-> ?].
  - apply bset_contains_false in Ec; [|done]. split; [by apply bset_insert_sorted|]. split.
    + intros k. simpl. rewrite elem_of_bset_insert, list_elem_of_singleton. tauto.
    + exists [dep_key d]. split_and!; [done|apply NoDup_singleton|].
      intros k. rewrite list_elem_of_singleton. split; [by intros ->|tauto].
Qed.

Lemma fold_schedule deps st :
  sorted_keys st.1 → extends (required_keys deps) st (fold_left schedule deps st).
Proof.
  revert st. induction deps as [|dep deps IH]; intros st Hs; simpl; [by apply extends_nil|].
  pose proof (schedule_extends st dep Hs) as H1.
  pose proof (extends_app _ _ _ _ _ H1 (IH (schedule st dep) (proj1 H1))) as H.
  unfold required_keys in *. simpl in H.
  destruct (dep_key <$> bzlmod_discovery_dep dep root_module_name overrides); exact H.
Qed.

Lemma fetch_all_spec keys :
  match fetch_all evaluate keys with
  | inl ms => Forall2 (λ k m, module_file k = inl m) keys ms
  | inr e => ∃ k, k ∈ keys ∧ module_file k = inr e
  end.
Proof.
  induction keys as [|k keys IH]; simpl; [constructor|].
  destruct (module_file k) as [m|e] eqn:Ek.
  - destruct (fetch_all evaluate keys) as [ms|e].
    + by constructor.
    + destruct IH as (k' & Hk' & He). exists k'. split; [by right|done].
  - exists k. split; [by left|done].
Qed.

Lemma module_file_key k m : module_file k = inl m → dep_key (dm_dep m) = k.
Proof.
  unfold ModSelect.module_file. destruct (evaluate k) as [[sj ev]|e]; [|done].
  intros [= <-]. by destruct k.
Qed.

(** [d'] holds the modules of [d] and those of [keys]. *)
Definition adds (keys : list ModuleKey) (d d' : DiscoveredBcrModules) : Prop :=
  btree_wf d' ∧ ∀ k m, btree_get d' k = Some m ↔
    (k ∈ keys ∧ module_file k = inl m) ∨ (k ∉ keys ∧ btree_get d k = Some m).

Lemma fold_discover keys ms st d :
  Forall2 (λ k m, module_file k = inl m) keys ms → sorted_keys st.1 → btree_wf d →
  extends (concat (map children keys)) st (fold_left discover_module ms (st, d)).1 ∧
  adds keys d (fold_left discover_module ms (st, d)).2.
Proof.
  intros H. revert st d. induction H as [|k m keys ms Hk Hkeys IH]; intros st d Hs Hd; simpl.
  - split; [by apply extends_nil|]. split; [done|]. intros k m. rewrite elem_of_nil. tauto.
  - change (discover_module (st, d) m)
      with (fold_left schedule (dm_deps m) st, btree_insert d (dep_key (dm_dep m)) m).
    pose proof (fold_schedule (dm_deps m) st Hs) as H1.
    rewrite (module_file_key _ _ Hk).
    destruct (IH (fold_left schedule (dm_deps m) st) (btree_insert d k m) (proj1 H1)
                (btree_insert_wf d k m Hd)) as [H2 [Hwf H3]].
    split.
    + unfold children at 1. rewrite Hk. by eapply extends_app.
    + split; [done|]. intros k' m'. rewrite H3, elem_of_cons, btree_get_insert by done.
      destruct (decide (k' = k)) as [->|Hne].
      * rewrite cmp_refl. split.
        -- intros [[_ H]|[_ [= <-]]]; left; (split; [by left|done]).
        -- intros [[_ H]|[H _]]; [|tauto]. rewrite Hk in H. injection H as <-.
           destruct (decide (k ∈ keys)); [left|right]; done.
      * destruct (rust_cmp k' k) eqn:Ec; [by apply cmp_eq in Ec|tauto|tauto].
Qed.

(** * The loop *)

Record discovery_inv (roots : list BazelDep) (scheduled frontier : list ModuleKey)
    (d : DiscoveredBcrModules) : Prop := {
  di_sorted : sorted_keys scheduled;
  di_wf : btree_wf d;
  di_nodup : NoDup frontier;
  di_scheduled k : k ∈ scheduled ↔ k ∈ frontier ∨ is_Some (btree_get d k);
  di_disjoint k : k ∈ frontier → btree_get d k = None;
  di_required k : k ∈ scheduled → required roots k;
  di_roots k : k ∈ required_keys roots → k ∈ scheduled;
  di_module k m : btree_get d k = Some m → module_file k = inl m;
  di_children k k' : is_Some (btree_get d k) → k' ∈ children k → k' ∈ scheduled;
}.

Lemma discovery_start roots :
  let st := fold_left schedule roots ([], []) in discovery_inv roots st.1 st.2 [].
Proof.
  cbv zeta. pose proof (fold_schedule roots ([], []) sorted_nil) as (Hs & Hin & fresh & E1 & Hnd & Hf).
  simpl in Hin, E1, Hf. split; try done.
  - constructor.
  - by rewrite E1.
  - intros k. rewrite Hin, E1, Hf, !elem_of_nil. simpl. split; [intros [?|?]; tauto|].
    intros [?|[? ?]]; [tauto|done].
  - intros k Hk. apply required_root. apply Hin in Hk as [Hk%elem_of_nil|Hk]; done.
  - intros k Hk. apply Hin. by right.
  - intros k k' [m Hm]. done.
Qed.

Lemma discovery_round roots scheduled frontier d ms :
  discovery_inv roots scheduled frontier d →
  fetch_all evaluate frontier = inl ms →
  let st := fold_left discover_module ms ((scheduled, []), d) in
  discovery_inv roots st.1.1 st.1.2 st.2.
Proof.
  intros [Hs Hwf Hnd Hsch Hdis Hreq Hroots Hmod Hch] Hfetch. cbv zeta.
  pose proof (fetch_all_spec frontier) as Hms. rewrite Hfetch in Hms.
  destruct (fold_discover frontier ms (scheduled, []) d Hms Hs Hwf) as [Hext [Hwf' Hadds]].
  destruct (fold_left discover_module ms ((scheduled, []), d)) as [[s' f'] d']. cbn [fst snd] in *.
  destruct Hext as (Hs' & Hin & fresh & Ef & Hnd' & Hf). cbn [fst snd app] in *. subst f'.
  assert (Hfetched : ∀ k, k ∈ frontier → ∃ m, module_file k = inl m).
  { intros k Hk. apply list_elem_of_lookup in Hk as [i Hi].
    destruct (Forall2_lookup_l _ _ _ _ _ Hms Hi) as (m & _ & Hm). by exists m. }
  assert (Hget : ∀ k, is_Some (btree_get d' k) ↔ k ∈ frontier ∨ is_Some (btree_get d k)).
  { intros k. split.
    - intros [m [[Hk _]|[_ Hk]]%Hadds]; [by left|right; by exists m].
    - intros [Hk|[m Hm]].
      + destruct (Hfetched k Hk) as [m Hm]. exists m. apply Hadds. by left.
      + exists m. apply Hadds. right. split; [|done]. intros Hk. by rewrite Hdis in Hm. }
  assert (Hchild : ∀ k, k ∈ concat (map children frontier) ↔ ∃ k0, k0 ∈ frontier ∧ k ∈ children k0).
  { intros k. rewrite list_elem_of_In, in_concat. split.
    - intros (l & Hl & Hk). apply in_map_iff in Hl as (k0 & <- & Hk0).
      exists k0. by rewrite !list_elem_of_In.
    - intros (k0 & Hk0 & Hk). exists (children k0). rewrite <- list_elem_of_In. split; [|by rewrite <- list_elem_of_In].
      apply list_elem_of_fmap. by exists k0. }
  split; try done.
  - intros k. rewrite Hin, Hget, Hf, Hsch. destruct (decide (k ∈ scheduled)) as [Hk|Hk]; rewrite Hsch in Hk; tauto.
  - intros k [_ Hk]%Hf. rewrite Hsch in Hk. destruct (btree_get d' k) as [m|] eqn:E1; [|done].
    exfalso. apply Hk. apply Hget. by exists m.
  - intros k [Hk|(k0 & Hk0 & Hk)%Hchild]%Hin; [by apply Hreq|].
    eapply required_child; [|exact Hk]. apply Hreq, Hsch. by left.
  - intros k Hk. apply Hin. left. by apply Hroots.
  - intros k m [[_ Hm]|[_ Hm]]%Hadds; [done|by apply Hmod].
  - intros k k' [Hk|Hk]%Hget Hk'; apply Hin.
    + right. apply Hchild. by exists k.
    + left. by apply (Hch k).
Qed.

Lemma module_discovery_loop_spec universe roots fuel scheduled frontier d :
  (∀ k, required roots k → k ∈ universe) →
  discovery_inv roots scheduled frontier d → length universe ≤ fuel + length d →
  match module_discovery_loop evaluate root_module_name overrides fuel scheduled frontier d with
  | None => False
  | Some (inl d') => ∃ s', discovery_inv roots s' [] d'
  | Some (inr e) => ∃ k, required roots k ∧ module_file k = inr e
  end.
Proof.
  intros Huniverse. revert scheduled frontier d.
  assert (Hcount : ∀ scheduled frontier d, discovery_inv roots scheduled frontier d →
            length frontier + length d ≤ length universe).
  { intros scheduled frontier d [Hs Hwf Hnd Hsch Hdis Hreq _ _ _].
    replace (length frontier + length d) with (length (frontier ++ btree_keys d))
      by (unfold btree_keys; by rewrite length_app, length_fmap).
    apply submseteq_length, NoDup_submseteq.
    - apply NoDup_app. split_and!; [done| |by apply sorted_keys_NoDup].
      intros k Hk Hd%btree_get_key; [|done]. rewrite Hdis in Hd by done. by destruct Hd.
    - intros k Hk. apply Huniverse, Hreq, Hsch. apply elem_of_app in Hk as [?|?%btree_get_key]; auto. }
  induction fuel as [|fuel IH]; intros scheduled frontier d Hinv Hfuel;
    pose proof (Hcount _ _ _ Hinv) as Hc; destruct frontier as [|k frontier]; cbn [module_discovery_loop];
    try (by exists scheduled); [cbn [length] in Hc; lia|].
  pose proof (fetch_all_spec (k :: frontier)) as Hfetch.
  destruct (fetch_all evaluate (k :: frontier)) as [ms|e] eqn:Ef.
  - pose proof (discovery_round roots scheduled (k :: frontier) d ms Hinv Ef) as Hnext. cbv zeta in Hnext.
    assert (Hlen : length d < length (fold_left discover_module ms ((scheduled, []), d)).2).
    { destruct Hinv as [Hsorted Hwf Hnd _ Hdis _ _ Hmod _]. destruct Hnext as [_ Hwf' _ _ _ _ _ _ _].
      destruct (fold_discover (k :: frontier) ms (scheduled, []) d Hfetch) as [_ [_ Hadds]]; [done..|].
      set (d' := (fold_left discover_module ms ((scheduled, []), d)).2) in *.
      change (S (length d) ≤ length d').
      replace (S (length d)) with (length (k :: btree_keys d)) by (unfold btree_keys; simpl; by rewrite length_fmap).
      replace (length d') with (length (btree_keys d')) by (unfold btree_keys; by rewrite length_fmap).
      apply submseteq_length, NoDup_submseteq.
      - constructor; [|by apply sorted_keys_NoDup]. intros Hk%btree_get_key; [|done].
        rewrite Hdis in Hk by (by left). by destruct Hk.
      - intros k' Hk'. apply btree_get_key; [done|]. apply elem_of_cons in Hk' as [->|Hk'].
        + inversion Hfetch as [|? m ? ? Hm]; subst. exists m. apply Hadds. left. split; [by left|done].
        + apply btree_get_key in Hk' as [m Hm]; [|done]. exists m. apply Hadds.
          destruct (decide (k' ∈ k :: frontier)) as [Hin|Hin]; [left|by right].
          split; [done|by apply Hmod]. }
    destruct (fold_left discover_module ms ((scheduled, []), d)) as [[s' f'] d']. cbn [fst snd] in *.
    apply IH; [done|lia].
  - destruct Hfetch as (k' & Hk' & He). exists k'. split; [|done].
    destruct Hinv as [_ _ _ Hsch _ Hreq _ _ _]. apply Hreq, Hsch. by left.
Qed.

(** Discovery ends when finitely many modules are required, and finds them, or an error of one. *)
Lemma discovery_spec universe fuel root_deps builtin_deps :
  (∀ k, required (root_deps ++ builtin_deps) k → k ∈ universe) → length universe ≤ fuel →
  match bzlmod_discovery evaluate root_module_name overrides fuel root_deps builtin_deps with
  | None => False
  | Some (inl d) => btree_wf d ∧
      (∀ k m, btree_get d k = Some m ↔ required (root_deps ++ builtin_deps) k ∧ module_file k = inl m) ∧
      (∀ k, required (root_deps ++ builtin_deps) k → is_Some (btree_get d k))
  | Some (inr e) => ∃ k, required (root_deps ++ builtin_deps) k ∧ evaluate k = inr e
  end.
Proof.
  intros Huniverse Hfuel. unfold bzlmod_discovery.
  pose proof (discovery_start (root_deps ++ builtin_deps)) as Hstart. cbv zeta in Hstart.
  destruct (fold_left schedule (root_deps ++ builtin_deps) ([], [])) as [s f]. cbn [fst snd] in Hstart.
  pose proof (module_discovery_loop_spec universe _ fuel s f [] Huniverse Hstart) as Hloop.
  destruct (module_discovery_loop _ _ _ fuel s f []) as [[d|e]|]; [| |apply Hloop; simpl; lia].
  - destruct Hloop as (s' & [Hs Hwf _ Hsch _ Hreq Hroots Hmod Hch]); [simpl; lia|].
    assert (Hall : ∀ k, required (root_deps ++ builtin_deps) k → is_Some (btree_get d k)).
    { induction 1 as [k Hk|k k' Hk IH Hk'].
      - apply Hroots, Hsch in Hk as [Hk%elem_of_nil|Hk]; done.
      - apply (Hch k k' IH), Hsch in Hk' as [Hk'%elem_of_nil|Hk']; done. }
    split_and!; [done| |done]. intros k m. split.
    + intros Hk. split; [|by apply Hmod]. apply Hreq, Hsch. right. by exists m.
    + intros [Hk Hm]. destruct (Hall k Hk) as [m' Hm']. rewrite Hm'.
      apply Hmod in Hm'. rewrite Hm in Hm'. by injection Hm' as ->.
  - destruct Hloop as (k & Hk & He); [simpl; lia|]. exists k. split; [done|].
    unfold ModSelect.module_file in He. by destruct (evaluate k) as [[]|]; [|injection He as ->].
Qed.
End Spec.
