(* ===== verification/ModSelectSpec.v ===== *)
(** The selection of [ModSelect]: one version of each name, the greatest that was discovered; the
    modules that the root reaches through them, in the order of distance and with dependencies first;
    and different names for different modules. *)
From S2P Require Import Prelude.
From S2P Require Import RustStr.
From S2P Require Import RustStrSpec.
From S2P Require Import RustOrd.
From S2P Require Import ModVersion.
From S2P Require Import ModSelect.
From S2P Require Import ModDiscovery.
Local Open Scope dice_scope.
Local Open Scope nat_scope.

(** * The selected versions *)

(** [v] is the greatest of the versions of [n] in [keys]; of equal ones, the first as a string. *)
Definition best_version (keys : list ModuleKey) (n v : string) : Prop :=
  (n, v) ∈ keys ∧
  ∀ v', (n, v') ∈ keys → v' = v ∨
    ∃ c, bzlmod_version_cmp v' v = inl c ∧ c ≠ Gt ∧ (c = Eq → rust_cmp v v' = Lt).

Record versions_inv (keys : list ModuleKey) (sv : BTreeMap string string) : Prop := {
  vi_wf : btree_wf sv;
  vi_best n v : btree_get sv n = Some v → best_version keys n v;
  vi_all n v : (n, v) ∈ keys → is_Some (btree_get sv n);
}.

Lemma sorted_keys_app_lt (l1 l2 : list ModuleKey) k k' :
  sorted_keys (l1 ++ k :: l2) → k' ∈ l1 → rust_cmp k' k = Lt.
Proof.
  induction l1 as [|k0 l1 IH]; [by intros _ ?%elem_of_nil|]. simpl. intros Hs Hk.
  inversion Hs as [|? ? Hlt Hs']; subst. apply elem_of_cons in Hk as [->|Hk]; [|by apply IH].
  rewrite Forall_forall in Hlt. apply Hlt, elem_of_app. right. by left.
Qed.

Lemma same_name_lt (n v v' : string) : rust_cmp (n, v) (n, v') = Lt → rust_cmp v v' = Lt.
Proof. unfold rust_cmp at 1, pair_ord. simpl. by rewrite cmp_refl. Qed.

Lemma best_version_older seen n v version :
  best_version seen n v → rust_cmp v version = Lt →
  (∃ c, bzlmod_version_cmp version v = inl c ∧ c ≠ Gt) → best_version (seen ++ [(n, version)]) n v.
Proof.
  intros [Hin Hbest] Hlt (c & Hc & Hne). split; [apply elem_of_app; by left|].
  intros v' [Hv'|[= ->]%list_elem_of_singleton]%elem_of_app; [by apply Hbest|]. right. by exists c.
Qed.

Lemma best_version_newer seen n v version :
  best_version seen n v → bzlmod_version_cmp version v = inl Gt →
  best_version (seen ++ [(n, version)]) n version.
Proof.
  intros [Hin Hbest] Hgt. split; [apply elem_of_app; right; by left|].
  intros v' [Hv'|[= ->]%list_elem_of_singleton]%elem_of_app; [|by left]. right.
  pose proof (version_cmp_flip _ _ _ Hgt) as Hlt. simpl in Hlt.
  destruct (Hbest v' Hv') as [->|(c & Hc & Hne & _)]; [by exists Lt|].
  destruct (version_cmp_trans _ _ _ _ _ Hc Hlt Hne ltac:(done)) as (c' & Hc' & Hne' & Heq).
  exists c'. split_and!; [done|done|]. intros ->. by destruct (Heq eq_refl).
Qed.

Lemma best_version_other seen n n' v version :
  n' ≠ n → best_version seen n v → best_version (seen ++ [(n', version)]) n v.
Proof.
  intros Hn [Hin Hbest]. split; [apply elem_of_app; by left|].
  intros v' [Hv'|[= -> ->]%list_elem_of_singleton]%elem_of_app; [by apply Hbest|done].
Qed.

Lemma select_versions_loop seen keys sv :
  sorted_keys (seen ++ keys) → versions_inv seen sv →
  match select_versions keys sv with
  | inl sv' => versions_inv (seen ++ keys) sv'
  | inr e => ∃ n v v' err, e = InvalidModuleVersion n err ∧ (n, v) ∈ seen ++ keys ∧
      (n, v') ∈ seen ++ keys ∧ v ≠ v' ∧ bzlmod_version_cmp v' v = inr err
  end.
Proof.
  revert seen sv. induction keys as [|[n version] keys IH]; intros seen sv Hs Hinv; simpl.
  { by rewrite app_nil_r. }
  replace (seen ++ (n, version) :: keys) with ((seen ++ [(n, version)]) ++ keys) in *
    by (by rewrite <- app_assoc).
  assert (Hlt : ∀ v, (n, v) ∈ seen → rust_cmp v version = Lt).
  { intros v Hv. apply (same_name_lt n). eapply sorted_keys_app_lt; [|exact Hv].
    rewrite <- app_assoc in Hs. exact Hs. }
  destruct Hinv as [Hwf Hbest Hall].
  assert (Hother : ∀ n' v, n' ≠ n → btree_get sv n' = Some v → best_version (seen ++ [(n, version)]) n' v).
  { intros n' v Hn Hv. apply best_version_other; [done|]. by apply Hbest. }
  assert (Hset : best_version (seen ++ [(n, version)]) n version →
            versions_inv (seen ++ [(n, version)]) (btree_insert sv n version)).
  { intros Hb. split.
    - by apply btree_insert_wf.
    - intros n' v. destruct (decide (n' = n)) as [->|Hn].
      + rewrite btree_get_insert_eq by done. by intros [= <-].
      + rewrite btree_get_insert_ne by done. by apply Hother.
    - intros n' v Hin. destruct (decide (n' = n)) as [->|Hn].
      + rewrite btree_get_insert_eq by done. by eexists.
      + rewrite btree_get_insert_ne by done.
        apply elem_of_app in Hin as [Hin|[= -> ->]%list_elem_of_singleton]; [by eapply Hall|done]. }
  destruct (btree_get sv n) as [existing|] eqn:Hget.
  - pose proof (Hbest _ _ Hget) as Hb. pose proof (proj1 Hb) as Hin.
    assert (Hkeep : (∃ c, bzlmod_version_cmp version existing = inl c ∧ c ≠ Gt) →
              versions_inv (seen ++ [(n, version)]) sv).
    { intros Hc. split; [done| |].
      - intros n' v Hv. destruct (decide (n' = n)) as [->|Hn]; [|by apply Hother].
        rewrite Hget in Hv. injection Hv as <-. apply best_version_older; [done|by apply Hlt|done].
      - intros n' v [Hv|[= -> ->]%list_elem_of_singleton]%elem_of_app; [by eapply Hall|by exists existing]. }
    destruct (bzlmod_version_cmp version existing) as [[]|err] eqn:Hc.
    + apply IH; [done|]. apply Hkeep. by exists Eq.
    + apply IH; [done|]. apply Hkeep. by exists Lt.
    + apply IH; [done|]. apply Hset. by eapply best_version_newer.
    + exists n, existing, version, err. split_and!; [done|..| |done].
      1: by apply elem_of_app; left; apply elem_of_app; left.
      1: by apply elem_of_app; left; apply elem_of_app; right; left.
      intros ->. apply Hlt in Hin. by rewrite cmp_refl in Hin.
  - apply IH; [done|]. apply Hset. split; [apply elem_of_app; right; by left|].
    intros v' [Hv'|[= ->]%list_elem_of_singleton]%elem_of_app; [|by left].
    destruct (Hall _ _ Hv') as [v Hv]. by rewrite Hget in Hv.
Qed.

Lemma select_versions_spec keys :
  sorted_keys keys →
  match select_versions keys [] with
  | inl sv => versions_inv keys sv
  | inr e => ∃ n v v' err, e = InvalidModuleVersion n err ∧ (n, v) ∈ keys ∧ (n, v') ∈ keys ∧
      v ≠ v' ∧ bzlmod_version_cmp v' v = inr err
  end.
Proof.
  intros Hs. apply (select_versions_loop [] keys []); [done|]. split.
  - constructor.
  - by intros n v [=].
  - by intros n v ?%elem_of_nil.
Qed.

(** * The search *)

Section Search.
Context (discovered : DiscoveredBcrModules) (sv : BTreeMap string string).
Context (Hwf : btree_wf discovered) (Hsv : versions_inv (btree_keys discovered) sv).

(** The selected modules that a module depends on. *)
Definition successors (key : ModuleKey) : list ModuleKey :=
  match btree_get discovered key with Some m => selected_deps sv (dm_deps m) | None => [] end.

(** [k] is reached from [roots] in [n] steps. *)
Inductive steps (roots : list ModuleKey) : nat → ModuleKey → Prop :=
| steps_root k : k ∈ roots → steps roots 0 k
| steps_succ n k k' : steps roots n k → k' ∈ successors k → steps roots (S n) k'.

Lemma selected_deps_keys deps k : k ∈ selected_deps sv deps → btree_get sv k.1 = Some k.2.
Proof.
  unfold selected_deps. intros (dep & _ & H)%list_elem_of_omap.
  destruct (btree_get sv (bd_name dep)) as [v|] eqn:E; [|done]. simpl in H. by injection H as <-.
Qed.

Lemma selected_discovered n v : btree_get sv n = Some v → is_Some (btree_get discovered (n, v)).
Proof. intros Hv. apply btree_get_key; [done|]. by apply (vi_best _ _ Hsv). Qed.

Lemma length_selected_deps deps : length (selected_deps sv deps) ≤ length deps.
Proof.
  induction deps as [|d deps IH]; [done|].
  assert (selected_deps sv (d :: deps) =
          match btree_get sv (bd_name d) with
          | Some v => (bd_name d, v) :: selected_deps sv deps
          | None => selected_deps sv deps
          end) as -> by (unfold selected_deps; simpl; by destruct (btree_get sv (bd_name d))).
  destruct (btree_get sv (bd_name d)); simpl; lia.
Qed.

(** The queue and the order with the number of steps of each entry: it does not decrease, within
    the queue by one at most, and a step from the order leads to the order or the queue. *)
Record search_inv (roots : list ModuleKey) (queue out : list (ModuleKey * nat)) : Prop := {
  se_levels : ∃ m, Forall (λ x, x.2 ≤ m) out ∧ Forall (λ x, m ≤ x.2 ≤ S m) queue;
  se_out : StronglySorted le out.*2;
  se_queue : StronglySorted le queue.*2;
  se_nodup : NoDup out.*1;
  se_steps k n : (k, n) ∈ out ++ queue → steps roots n k;
  se_roots k : k ∈ roots → (k, 0) ∈ out ++ queue;
  se_edges k n k' : (k, n) ∈ out → k' ∈ successors k → ∃ n', n' ≤ S n ∧ (k', n') ∈ out ++ queue;
  se_keys k n : (k, n) ∈ queue → btree_get sv k.1 = Some k.2;
}.

Lemma StronglySorted_le_app l1 l2 :
  StronglySorted le l1 → StronglySorted le l2 → (∀ a b, a ∈ l1 → b ∈ l2 → a ≤ b) →
  StronglySorted le (l1 ++ l2).
Proof.
  induction 1 as [|a l1 H1 IH Ha]; intros H2 Hle; simpl; [done|]. constructor.
  - apply IH; [done|]. intros x y Hx Hy. apply Hle; [by right|done].
  - apply Forall_app. split; [done|]. apply Forall_forall. intros y Hy. apply Hle; [by left|done].
Qed.

Lemma search_skip roots k n queue out :
  search_inv roots ((k, n) :: queue) out → k ∈ out.*1 → search_inv roots queue out.
Proof.
  intros [(m & Hm1 & Hm2) Ho Hq Hnd Hst Hr He Hk] Hin. apply Forall_cons in Hm2 as [Hn Hm2]. simpl in Hn.
  apply list_elem_of_fmap in Hin as ([k0 n0] & ? & Hin). simpl in *. subst k0.
  assert (Hle : n0 ≤ n) by (rewrite Forall_forall in Hm1; specialize (Hm1 _ Hin); simpl in Hm1; lia).
  assert (Hmove : ∀ k' n', (k', n') ∈ out ++ (k, n) :: queue → ∃ n'', n'' ≤ n' ∧ (k', n'') ∈ out ++ queue).
  { intros k' n' [H|[[= -> ->]|H]%elem_of_cons]%elem_of_app.
    - exists n'. split; [done|]. apply elem_of_app. by left.
    - exists n0. split; [done|]. apply elem_of_app. by left.
    - exists n'. split; [done|]. apply elem_of_app. by right. }
  inversion Hq as [|? ? Hq' Hall]; subst. split; try done.
  - by exists m.
  - intros k' n' H. apply Hst. apply elem_of_app in H as [H|H]; apply elem_of_app; [by left|right; by right].
  - intros k' Hk'. apply Hr in Hk'. destruct (Hmove _ _ Hk') as (n' & Hn' & H).
    by replace n' with 0 in H by lia.
  - intros k1 n1 k' H1 H2. destruct (He _ _ _ H1 H2) as (n' & Hn' & H).
    destruct (Hmove _ _ H) as (n'' & Hn'' & H'). exists n''. split; [lia|done].
  - intros k' n' H. by apply (Hk k' n'); right.
Qed.

Lemma search_visit roots k n queue out :
  search_inv roots ((k, n) :: queue) out → k ∉ out.*1 →
  search_inv roots (queue ++ map (λ k', (k', S n)) (successors k)) (out ++ [(k, n)]).
Proof.
  intros [(m & Hm1 & Hm2) Ho Hq Hnd Hst Hr He Hk] Hnew. apply Forall_cons in Hm2 as [Hn Hm2]. simpl in Hn.
  inversion Hq as [|? ? Hq' Hall]; subst. fold (queue.*2) in Hall, Hq'. cbn [snd] in *.
  assert (Hmove : ∀ x, x ∈ out ++ (k, n) :: queue →
            x ∈ (out ++ [(k, n)]) ++ queue ++ map (λ k', (k', S n)) (successors k)).
  { intros x. rewrite <- app_assoc, !elem_of_app, !elem_of_cons. tauto. }
  assert (Hin : ∀ k', k' ∈ successors k → (k', S n) ∈ map (λ k', (k', S n)) (successors k)).
  { intros k' Hk'. apply (list_elem_of_fmap_2 (λ k', (k', S n)) _ _ Hk'). }
  split.
  - exists n. split.
    + apply Forall_app. split; [|by constructor; [simpl|constructor]].
      eapply Forall_impl; [exact Hm1|]. simpl. lia.
    + apply Forall_app. split.
      * rewrite Forall_forall in Hall. apply Forall_forall. intros x Hx.
        rewrite Forall_forall in Hm2. pose proof (Hm2 x Hx).
        pose proof (Hall x.2 (list_elem_of_fmap_2 snd _ _ Hx)). lia.
      * apply Forall_forall. intros x (k' & -> & _)%list_elem_of_fmap. simpl. lia.
  - rewrite fmap_app. apply StronglySorted_le_app; [done|by repeat constructor|].
    intros a b (x & -> & Hx)%list_elem_of_fmap ->%list_elem_of_singleton.
    rewrite Forall_forall in Hm1. specialize (Hm1 x Hx). simpl. lia.
  - rewrite fmap_app. apply StronglySorted_le_app; [done| |].
    + clear. induction (successors k) as [|k' l IH]; simpl; constructor; [done|].
      apply Forall_forall. intros a (x & -> & Hx)%list_elem_of_fmap.
      apply list_elem_of_fmap in Hx as (y & -> & _). done.
    + intros a b (x & -> & Hx)%list_elem_of_fmap (y & -> & Hy)%list_elem_of_fmap.
      apply list_elem_of_fmap in Hy as (z & -> & _). rewrite Forall_forall in Hm2.
      specialize (Hm2 x Hx). simpl. lia.
  - rewrite fmap_app. apply NoDup_app. split_and!; [done| |apply NoDup_singleton].
    by intros x Hx ->%list_elem_of_singleton.
  - intros k' n'. rewrite <- app_assoc. rewrite elem_of_app. intros [H|[[= -> ->]|H]%elem_of_cons].
    + apply Hst, elem_of_app. by left.
    + apply Hst, elem_of_app. right. by left.
    + apply elem_of_app in H as [H|H]; [apply Hst, elem_of_app; right; by right|].
      apply list_elem_of_fmap in H as (k0 & [= -> ->] & H). eapply steps_succ; [|exact H].
      apply Hst, elem_of_app. right. by left.
  - intros k' H. by apply Hmove, Hr.
  - intros k1 n1 k' [H1|[= -> ->]%list_elem_of_singleton]%elem_of_app H2.
    + destruct (He _ _ _ H1 H2) as (n' & Hn' & H). exists n'. split; [done|by apply Hmove].
    + exists (S n). split; [done|]. apply elem_of_app. right. apply elem_of_app. right. by apply Hin.
  - intros k' n' [H|H]%elem_of_app; [by apply (Hk k' n'); right|].
    apply list_elem_of_fmap in H as (k0 & [= -> ->] & H). unfold successors in H.
    destruct (btree_get discovered k); [by eapply selected_deps_keys|by apply elem_of_nil in H].
Qed.

Lemma fst_map_pair {A B} (c : B) (l : list A) : (map (λ k, (k, c)) l).*1 = l.
Proof. induction l as [|x l IH]; [done|]. cbn. f_equal. exact IH. Qed.

Lemma StronglySorted_le_lookup l i j a b :
  StronglySorted le l → i < j → l !! i = Some a → l !! j = Some b → a ≤ b.
Proof.
  intros Hs. revert i j. induction Hs as [|x l Hs IH Hx]; intros i j Hij Hi Hj; [done|].
  destruct j as [|j]; [lia|]. simpl in Hj. destruct i as [|i]; simpl in Hi.
  - injection Hi as ->. rewrite Forall_forall in Hx. apply Hx. by eapply list_elem_of_lookup_2.
  - apply (IH i j); [lia|done|done].
Qed.

Definition deps_cost (k : ModuleKey) : nat :=
  match btree_get discovered k with Some m => length (dm_deps m) | None => 0 end.

Lemma length_successors k : length (successors k) ≤ deps_cost k.
Proof.
  unfold successors, deps_cost. destruct (btree_get discovered k); [|done].
  apply length_selected_deps.
Qed.

Lemma select_loop_spec fuel roots queue out selected :
  search_inv roots queue out → sorted_keys selected → (∀ k, k ∈ selected ↔ k ∈ out.*1) →
  length queue + unseen deps_cost (btree_keys discovered) out.*1 ≤ fuel →
  ∃ selected' out', select_loop fuel discovered sv queue.*1 selected out.*1 =
      Some (inl (selected', out'.*1)) ∧
    search_inv roots [] out' ∧ sorted_keys selected' ∧ (∀ k, k ∈ selected' ↔ k ∈ out'.*1).
Proof.
  revert queue out selected. induction fuel as [|fuel IH]; intros queue out selected Hinv Hs Hsel Hfuel;
    destruct queue as [|[k n] queue]; cbn [fmap list_fmap fst snd select_loop];
    try (by exists selected, out); [simpl in Hfuel; lia|].
  destruct (bset_contains selected k) eqn:Ec.
  - apply bset_contains_spec, Hsel in Ec; [|done]. apply IH; [by eapply search_skip|done..|].
    simpl in Hfuel. lia.
  - apply bset_contains_false in Ec; [|done]. rewrite Hsel in Ec.
    pose proof (se_keys _ _ _ Hinv k n ltac:(by left)) as Hk. destruct k as [name version]. simpl in Hk.
    destruct (selected_discovered _ _ Hk) as [m Hm]. rewrite Hm.
    pose proof (search_visit _ _ _ _ _ Hinv Ec) as Hnext. set (k := (name, version)) in *.
    assert (Hsucc : successors k = selected_deps sv (dm_deps m)) by (unfold successors; by rewrite Hm).
    destruct (IH _ _ (bset_insert selected k) Hnext) as (s' & out' & Hloop & Hrest).
    + by apply bset_insert_sorted.
    + intros k'. rewrite elem_of_bset_insert, Hsel, fmap_app, elem_of_app. simpl.
      rewrite list_elem_of_singleton. tauto.
    + assert (Hin : k ∈ btree_keys discovered) by (apply btree_get_key; [done|by exists m]).
      pose proof (unseen_cons deps_cost (btree_keys discovered) out.*1 k
        (sorted_keys_NoDup _ Hwf) Hin Ec) as Hun.
      rewrite (unseen_ext _ _ (k :: out.*1) (out ++ [(k, n)]).*1) in Hun.
      * rewrite length_app, length_map. pose proof (length_successors k). simpl in Hfuel. lia.
      * intros v. rewrite fmap_app, elem_of_app, elem_of_cons. simpl. rewrite list_elem_of_singleton. tauto.
    + exists s', out'. split; [|done]. rewrite <- Hloop. rewrite !fmap_app. simpl.
      by rewrite <- Hsucc, fst_map_pair.
Qed.

Lemma search_inv_start (roots : list ModuleKey) :
  (∀ k, k ∈ roots → btree_get sv k.1 = Some k.2) →
  search_inv roots (map (λ k, (k, 0)) roots) [].
Proof.
  intros Hroots. split; simpl.
  - exists 0. split; [constructor|]. apply Forall_forall. intros x (k & -> & _)%list_elem_of_fmap. simpl. lia.
  - constructor.
  - clear. induction roots as [|k l IH]; simpl; constructor; [done|].
    apply Forall_forall. intros a (x & -> & Hx)%list_elem_of_fmap.
    apply list_elem_of_fmap in Hx as (y & -> & _). done.
  - constructor.
  - intros k n (k' & [= -> ->] & H)%list_elem_of_fmap. by constructor.
  - intros k H. apply (list_elem_of_fmap_2 (λ k, (k, 0)) _ _ H).
  - by intros k n k' ?%elem_of_nil.
  - intros k n (k' & [= -> ->] & H)%list_elem_of_fmap. by apply Hroots.
Qed.

Lemma search_end_steps roots out n k :
  search_inv roots [] out → steps roots n k → ∃ n', n' ≤ n ∧ (k, n') ∈ out.
Proof.
  intros Hinv. induction 1 as [k Hk|n k k' H (n' & Hn' & IH) Hk'].
  - exists 0. split; [done|]. apply (se_roots _ _ _ Hinv) in Hk. by rewrite app_nil_r in Hk.
  - destruct (se_edges _ _ _ Hinv _ _ _ IH Hk') as (n'' & Hn'' & H'). rewrite app_nil_r in H'.
    exists n''. split; [lia|done].
Qed.

(** Each key of [order] can be reached in at most as many steps as any later one. *)
Definition by_distance (roots order : list ModuleKey) : Prop :=
  ∀ i j k k' n, i ≤ j → order !! i = Some k → order !! j = Some k' → steps roots n k' →
  ∃ n', n' ≤ n ∧ steps roots n' k.

Lemma search_end roots out :
  search_inv roots [] out →
  NoDup out.*1 ∧ (∀ k, k ∈ out.*1 ↔ ∃ n, steps roots n k) ∧ by_distance roots out.*1.
Proof.
  intros Hinv. split; [apply Hinv|]. split.
  - intros k. split.
    + intros ([k0 n] & -> & H)%list_elem_of_fmap. exists n. apply (se_steps _ _ _ Hinv). by rewrite app_nil_r.
    + intros [n Hn]. destruct (search_end_steps _ _ _ _ Hinv Hn) as (n' & _ & H).
      by apply (list_elem_of_fmap_2 fst _ _ H).
  - intros i j k k' n Hij Hi Hj Hn. rewrite list_lookup_fmap in Hi, Hj.
    destruct (out !! i) as [[k0 l]|] eqn:Ei; [|done]. destruct (out !! j) as [[k1 l']|] eqn:Ej; [|done].
    simpl in Hi, Hj. injection Hi as ->. injection Hj as ->.
    exists l. split.
    + destruct (search_end_steps _ _ _ _ Hinv Hn) as (n' & Hn' & H).
      apply list_elem_of_lookup in H as [j' Hj'].
      assert (j' = j) as ->.
      { eapply NoDup_lookup; [apply (se_nodup _ _ _ Hinv)| |].
        - rewrite list_lookup_fmap, Hj'. done.
        - rewrite list_lookup_fmap, Ej. done. }
      rewrite Ej in Hj'. injection Hj' as ->. etrans; [|exact Hn'].
      destruct (decide (i = j)) as [->|Hne]; [rewrite Ei in Ej; injection Ej as _ E2; lia|].
      eapply (StronglySorted_le_lookup _ i j); [apply (se_out _ _ _ Hinv)|lia| |].
      * rewrite list_lookup_fmap, Ei. done.
      * rewrite list_lookup_fmap, Ej. done.
    + apply (se_steps _ _ _ Hinv). rewrite app_nil_r. by eapply list_elem_of_lookup_2.
Qed.
End Search.

(** * Dependencies first *)

Section Order.
Context (discovered : DiscoveredBcrModules) (sv : BTreeMap string string).
Context (selected : list ModuleKey) (Hselected : sorted_keys selected).
Context (Hclosed : ∀ k k', k ∈ selected → k' ∈ successors discovered sv k → k' ∈ selected).

Notation successors := (successors discovered sv).
Notation visit depth := (dependency_visit depth discovered sv selected).

Definition leads_to : ModuleKey → ModuleKey → Prop := rtc (λ a b, b ∈ successors a).

Definition before (y x : ModuleKey) (l : list ModuleKey) : Prop :=
  ∃ l1 l2, l = l1 ++ x :: l2 ∧ y ∈ l1.

Lemma before_app y x l l' : before y x l → before y x (l ++ l').
Proof. intros (l1 & l2 & -> & H). exists l1, (l2 ++ l'). by rewrite <- app_assoc. Qed.

Record visit_inv (st : list ModuleKey * list ModuleKey) : Prop := {
  dv_sorted : sorted_keys st.1;
  dv_nodup : NoDup st.2;
  dv_ordered k : k ∈ st.2 → k ∈ st.1;
  dv_selected k : k ∈ st.1 → k ∈ selected;
}.

(** On the stack. *)
Definition open (st : list ModuleKey * list ModuleKey) (k : ModuleKey) : Prop := k ∈ st.1 ∧ k ∉ st.2.

(** Visiting [ks] leads from [st] to [st']. *)
Definition visited (ks : list ModuleKey) (st st' : list ModuleKey * list ModuleKey) : Prop :=
  visit_inv st' ∧ (∀ k, k ∈ st.1 → k ∈ st'.1) ∧ (∀ k, k ∈ ks → k ∈ selected → k ∈ st'.1) ∧
  ∃ fresh, st'.2 = st.2 ++ fresh ∧ (∀ k, k ∈ fresh ↔ k ∈ st'.1 ∧ k ∉ st.1) ∧
    (∀ x, x ∈ fresh → ∃ k, k ∈ ks ∧ leads_to k x) ∧
    (∀ x y, x ∈ fresh → y ∈ successors x → before y x st'.2 ∨ open st y ∨ leads_to y x).

Lemma visited_nothing ks st :
  visit_inv st → (∀ k, k ∈ ks → k ∈ selected → k ∈ st.1) → visited ks st st.
Proof.
  intros Hinv Hks. split_and!; [done|done|done|]. exists []. rewrite app_nil_r.
  split_and!; [done| |by intros x ?%elem_of_nil|by intros x y ?%elem_of_nil].
  intros k. rewrite elem_of_nil. tauto.
Qed.

Lemma visited_open ks st st' k : visit_inv st → visited ks st st' → open st' k → open st k.
Proof.
  intros Hinv (_ & _ & _ & fresh & E & Hf & _) [H1 H2]. rewrite E, elem_of_app, Hf in H2.
  destruct (decide (k ∈ st.1)); [|tauto]. split; [done|]. tauto.
Qed.

Lemma visited_app ks1 ks2 st1 st2 st3 :
  visit_inv st1 → visited ks1 st1 st2 → visited ks2 st2 st3 → visited (ks1 ++ ks2) st1 st3.
Proof.
  intros Hinv H1 H2. pose proof (λ k, visited_open _ _ _ k Hinv H1) as Hopen.
  destruct H1 as (I1 & M1 & K1 & f1 & E1 & F1 & R1 & B1).
  destruct H2 as (I2 & M2 & K2 & f2 & E2 & F2 & R2 & B2).
  split_and!; [done|auto| |].
  { intros k [Hk|Hk]%elem_of_app Hs; [by apply M2, K1|by apply K2]. }
  exists (f1 ++ f2). split; [by rewrite E2, E1, app_assoc|]. split_and!.
  - intros k. rewrite elem_of_app, F1, F2. split.
    + intros [[? ?]|[? Hk]]; [auto|]. split; [done|]. intros Hk1. by apply Hk, M1.
    + intros [? ?]. destruct (decide (k ∈ st2.1)); tauto.
  - intros x [Hx|Hx]%elem_of_app.
    + destruct (R1 x Hx) as (k & Hk & Hl). exists k. split; [apply elem_of_app; by left|done].
    + destruct (R2 x Hx) as (k & Hk & Hl). exists k. split; [apply elem_of_app; by right|done].
  - intros x y [Hx|Hx]%elem_of_app Hy.
    + destruct (B1 x y Hx Hy) as [H|H]; [|by right]. left. rewrite E2. by apply before_app.
    + destruct (B2 x y Hx Hy) as [H|[H|H]]; [by left| |by right; right]. right. left. by apply Hopen.
Qed.

Lemma fold_visited (f : list ModuleKey * list ModuleKey → ModuleKey → list ModuleKey * list ModuleKey)
    (P : list ModuleKey * list ModuleKey → Prop) ks st :
  (∀ st k, visit_inv st → P st → k ∈ ks → visited [k] st (f st k)) →
  (∀ st st', visit_inv st → P st → (∀ k, k ∈ st.1 → k ∈ st'.1) → P st') →
  visit_inv st → P st → visited ks st (fold_left f ks st).
Proof.
  intros Hf HP. revert st. induction ks as [|k ks IH]; intros st Hinv Hp; simpl.
  { apply visited_nothing; [done|]. by intros k ?%elem_of_nil. }
  pose proof (Hf st k Hinv Hp ltac:(by left)) as H1.
  apply (visited_app [k] ks st (f st k)); [done|done|]. apply IH.
  - intros st' k' Hi Hp' Hk. apply Hf; [done|done|by right].
  - apply H1.
  - eapply HP; [exact Hinv|exact Hp|apply H1].
Qed.

(** Enough depth: one for each selected key that has not been seen. *)
Lemma dependency_visit_spec depth st k :
  visit_inv st → length selected < depth + length st.1 → visited [k] st (visit depth st k).
Proof.
  revert st k. induction depth as [|depth IH]; intros st k Hinv Hdepth.
  { exfalso. assert (length st.1 ≤ length selected); [|lia].
    apply submseteq_length, NoDup_submseteq; [apply sorted_keys_NoDup, Hinv|apply Hinv]. }
  cbn [dependency_visit]. destruct (negb (bset_contains selected k) || bset_contains st.1 k) eqn:Ec.
  { apply visited_nothing; [done|]. intros k' ->%list_elem_of_singleton Hk'.
    apply orb_true_iff in Ec as [Ec|Ec].
    - apply negb_true_iff, bset_contains_false in Ec; done.
    - by apply bset_contains_spec in Ec; [|apply Hinv]. }
  apply orb_false_iff in Ec as [Hsel%negb_false_iff Hnew].
  apply bset_contains_spec in Hsel; [|done]. apply bset_contains_false in Hnew; [|apply Hinv].
  set (st1 := (bset_insert st.1 k, st.2)).
  assert (Hinv1 : visit_inv st1).
  { destruct Hinv as [H1 H2 H3 H4]. split; simpl; [by apply bset_insert_sorted|done| |].
    - intros x Hx. apply elem_of_bset_insert. right. by apply H3.
    - intros x [->|Hx]%elem_of_bset_insert; [done|by apply H4]. }
  assert (Hlen : length st.1 < length st1.1).
  { change (length (k :: st.1) ≤ length st1.1). apply submseteq_length, NoDup_submseteq.
    - constructor; [done|apply sorted_keys_NoDup, Hinv].
    - intros x Hx. apply elem_of_bset_insert. by apply elem_of_cons in Hx. }
  set (st2 := match btree_get discovered k with Some m => _ | None => st1 end).
  assert (H2 : visited (successors k) st1 st2).
  { unfold st2, ModSelectSpec.successors. destruct (btree_get discovered k) as [m|].
    - apply (fold_visited _ (λ st, length selected < depth + length st.1)).
      + intros st' k' Hi Hd _. by apply IH.
      + intros sta stb Ha Hd Hsub. assert (length sta.1 ≤ length stb.1); [|lia].
        apply submseteq_length, NoDup_submseteq; [apply sorted_keys_NoDup, Ha|done].
      + done.
      + lia.
    - apply visited_nothing; [done|]. by intros x ?%elem_of_nil. }
  destruct H2 as (I2 & M2 & K2 & fresh & E2 & F2 & R2 & B2).
  change (st1.1) with (bset_insert st.1 k) in *. change (st1.2) with (st.2) in *.
  assert (Hk2 : k ∈ st2.1) by (apply M2, elem_of_bset_insert; by left).
  assert (Hko : k ∉ st2.2).
  { rewrite E2, elem_of_app, F2. intros [Hk|[_ Hk]].
    - by apply Hnew, (dv_ordered _ Hinv).
    - apply Hk, elem_of_bset_insert. by left. }
  split_and!.
  - destruct I2 as [S2 N2 O2 L2]. split; simpl; [done| | |done].
    + apply NoDup_app. split_and!; [done| |apply NoDup_singleton]. by intros x Hx ->%list_elem_of_singleton.
    + by intros x [Hx| ->%list_elem_of_singleton]%elem_of_app; [apply O2|].
  - intros x Hx. apply M2, elem_of_bset_insert. by right.
  - by intros x ->%list_elem_of_singleton _.
  - exists (fresh ++ [k]). simpl. split; [by rewrite E2, app_assoc|]. split_and!.
    + intros x. rewrite elem_of_app, F2, list_elem_of_singleton, elem_of_bset_insert. split.
      * intros [[? ?]| ->]; [tauto|done].
      * intros [? ?]. destruct (decide (x = k)); tauto.
    + intros x [Hx| ->%list_elem_of_singleton]%elem_of_app; exists k; (split; [by left|]); [|apply rtc_refl].
      destruct (R2 x Hx) as (c & Hc & Hl). eapply rtc_l; [exact Hc|exact Hl].
    + intros x y [Hx| ->%list_elem_of_singleton]%elem_of_app Hy.
      * destruct (B2 x y Hx Hy) as [H|[[Ho1 Ho2]|H]]; [left; by apply before_app| |by right; right].
        apply elem_of_bset_insert in Ho1 as [->|Ho1]; [|right; left; by split].
        right. right. destruct (R2 x Hx) as (c & Hc & Hl). eapply rtc_l; [exact Hc|exact Hl].
      * assert (Hysel : y ∈ selected) by (by apply (Hclosed k)).
        pose proof (K2 y Hy Hysel) as Hy2. destruct (decide (y ∈ st2.2)) as [Hyo|Hyo].
        -- left. by exists st2.2, [].
        -- rewrite E2, elem_of_app, F2, elem_of_bset_insert in Hyo.
           destruct (decide (y = k)) as [->|Hyk]; [right; right; apply rtc_refl|].
           right. left. unfold open. destruct (decide (y ∈ st.1)); tauto.
Qed.

(** The order of the selected modules, from the roots, then those that are left. *)
Lemma dependency_first_spec roots :
  let ordered := (fold_left (visit (S (length selected))) (roots ++ selected) ([], [])).2 in
  NoDup ordered ∧ (∀ k, k ∈ ordered ↔ k ∈ selected) ∧
  (∀ x y, x ∈ selected → y ∈ successors x → before y x ordered ∨ leads_to y x).
Proof.
  cbv zeta. set (st' := fold_left _ _ _).
  assert (Hinv0 : visit_inv ([], [])).
  { split; simpl; [constructor|constructor|by intros k ?%elem_of_nil|by intros k ?%elem_of_nil]. }
  assert (H : visited (roots ++ selected) ([], []) st').
  { apply (fold_visited _ (λ _, True)); try done. intros st k Hi _ _. apply dependency_visit_spec; [done|]. simpl. lia. }
  destruct H as (I & _ & K & fresh & E & F & R & B). cbn [fst snd app] in *.
  assert (Hin : ∀ k, k ∈ st'.2 ↔ k ∈ selected).
  { intros k. split.
    - intros Hk. by apply (dv_selected _ I), (dv_ordered _ I).
    - intros Hk. rewrite E, F. split; [|by intros ?%elem_of_nil].
      apply K; [|done]. apply elem_of_app. by right. }
  split_and!; [apply I|done|]. intros x y Hx Hy. rewrite <- Hin, E in Hx.
  destruct (B x y Hx Hy) as [H|[[H _]|H]]; [by left|by apply elem_of_nil in H|by right].
Qed.
End Order.

(** * Names *)

Lemma fold_btree_insert {K V} `{TotalOrd K, !EqDecision K} (f : K → V) (keys : list K) (m : BTreeMap K V) :
  btree_wf m →
  btree_wf (fold_left (λ m k, btree_insert m k (f k)) keys m) ∧
  ∀ k v, btree_get (fold_left (λ m k, btree_insert m k (f k)) keys m) k = Some v ↔
    (k ∈ keys ∧ v = f k) ∨ (k ∉ keys ∧ btree_get m k = Some v).
Proof.
  revert m. induction keys as [|k0 keys IH]; intros m Hm; simpl.
  { split; [done|]. intros k v. rewrite elem_of_nil. tauto. }
  destruct (IH _ (btree_insert_wf m k0 (f k0) Hm)) as [Hwf Hget]. split; [done|].
  intros k v. rewrite Hget, elem_of_cons, btree_get_insert by done.
  destruct (rust_cmp k k0) eqn:E.
  - apply cmp_eq in E. subst. split.
    + intros [[? ?]|[? [= <-]]]; left; auto.
    + intros [[_ ->]|[Hn _]]; [|tauto]. destruct (decide_rel (∈) k0 keys); [by left|by right].
  - assert (k ≠ k0) by (intros ->; by rewrite cmp_refl in E). tauto.
  - assert (k ≠ k0) by (intros ->; by rewrite cmp_refl in E). tauto.
Qed.

Definition versions_of (m : BTreeMap string (list string)) (n : string) : list string :=
  default [] (btree_get m n).

Lemma add_version_fold keys m :
  btree_wf m → (∀ n, sorted_keys (versions_of m n)) →
  btree_wf (fold_left add_version keys m) ∧
  (∀ n, sorted_keys (versions_of (fold_left add_version keys m) n)) ∧
  ∀ n v, v ∈ versions_of (fold_left add_version keys m) n ↔ (n, v) ∈ keys ∨ v ∈ versions_of m n.
Proof.
  revert m. induction keys as [|[n0 v0] keys IH]; intros m Hm Hs; simpl.
  { split_and!; [done|done|]. intros n v. rewrite elem_of_nil. tauto. }
  assert (Hget : ∀ n, versions_of (add_version m (n0, v0)) n =
            if decide (n = n0) then bset_insert (versions_of m n0) v0 else versions_of m n).
  { intros n. unfold versions_of at 1, add_version. simpl. destruct (decide (n = n0)) as [->|Hn].
    - by rewrite btree_get_insert_eq.
    - by rewrite btree_get_insert_ne. }
  destruct (IH (add_version m (n0, v0))) as (Hwf & Hsorted & Hin).
  { by apply btree_insert_wf. }
  { intros n. rewrite Hget. destruct (decide (n = n0)); [apply bset_insert_sorted|]; apply Hs. }
  split_and!; [done|done|]. intros n v. rewrite Hin, Hget, elem_of_cons.
  destruct (decide (n = n0)) as [->|Hn].
  - rewrite elem_of_bset_insert. split; [intros [?|[->|?]]; auto|]. intros [[[= ->]|?]|?]; auto.
  - split; [tauto|]. intros [[[= ? ?]|?]|?]; [done|auto|auto].
Qed.

(** One version of each name. *)
Definition one_version (keys : list ModuleKey) : Prop :=
  ∀ n v v', (n, v) ∈ keys → (n, v') ∈ keys → v = v'.

Lemma canonical_names_spec keys :
  one_version keys →
  ∀ k name, btree_get (bzlmod_canonical_repo_names_by_key keys) k = Some name ↔
    k ∈ keys ∧ name = bzlmod_canonical_repo_name k.1 k.2 false.
Proof.
  intros Hone k name. unfold bzlmod_canonical_repo_names_by_key.
  destruct (add_version_fold keys []) as (_ & Hsorted & Hin); [constructor|intros n; constructor|].
  set (f := λ key : ModuleKey, bzlmod_canonical_repo_name key.1 key.2
              (match btree_get (fold_left add_version keys []) key.1 with
               | Some versions => 1 <? length versions
               | None => false
               end)).
  change (fold_left _ keys []) with (fold_left (λ m k, btree_insert m k (f k)) keys []).
  destruct (fold_btree_insert f keys [] sorted_nil) as [_ Hget]. rewrite Hget.
  assert (Hf : k ∈ keys → f k = bzlmod_canonical_repo_name k.1 k.2 false).
  { intros Hk. unfold f. f_equal. specialize (Hsorted k.1). specialize (Hin k.1).
    unfold versions_of in Hsorted, Hin.
    destruct (btree_get (fold_left add_version keys []) k.1) as [[|v1 [|v2 vs]]|]; try done.
    exfalso. simpl in Hsorted, Hin. apply sorted_keys_NoDup, NoDup_cons in Hsorted as [Hne _].
    assert (v1 = v2) as ->; [|apply Hne; by left].
    apply (Hone k.1).
    - destruct (proj1 (Hin v1) ltac:(by left)) as [?|H]; [done|by apply elem_of_nil in H].
    - destruct (proj1 (Hin v2) ltac:(by right; left)) as [?|H]; [done|by apply elem_of_nil in H]. }
  split.
  - intros [[Hk ->]|[_ H]]; [|done]. split; [done|by apply Hf].
  - intros [Hk ->]. left. split; [done|by rewrite Hf].
Qed.

Lemma str_length_app s t : String.length (s +:+ t) = String.length s + String.length t.
Proof. induction s as [|a s IH]; simpl; [done|]. by rewrite IH. Qed.

Lemma str_app_inj_r (s t c : string) : s +:+ c = t +:+ c → s = t.
Proof.
  revert t. induction s as [|a s IH]; intros [|b t] H; [done|..].
  - apply (f_equal String.length) in H. rewrite !str_length_app in H. simpl in H. lia.
  - apply (f_equal String.length) in H. rewrite !str_length_app in H. simpl in H. lia.
  - simpl in H. injection H as -> H. f_equal. by apply IH.
Qed.

Lemma canonical_name_inj n v n' v' :
  bzlmod_canonical_repo_name n v false = bzlmod_canonical_repo_name n' v' false → n = n'.
Proof.
  assert (Hplus : ∀ s t, str_forall (not_char "+") t = true → s +:+ "+" ≠ t).
  { intros s t Ht <-. rewrite str_forall_app in Ht. simpl in Ht. by rewrite andb_false_r in Ht. }
  unfold bzlmod_canonical_repo_name.
  intros Heq. repeat case_decide; subst; try done; try (by apply str_app_inj_r in Heq);
    exfalso; (eapply Hplus; [|exact Heq || (symmetry; exact Heq)]); done.
Qed.
