(* ===== verification/ModResolution.v ===== *)
(** The contracts of the resolution of modules: what discovery finds, what selection selects, and
    that the selected modules meet every requirement of each other. *)
From S2P Require Import Prelude.
From S2P Require Import RustStr.
From S2P Require Import RustOrd.
From S2P Require Import ModVersion.
From S2P Require Import ModSelect.
From S2P Require Import ModDiscovery.
From S2P Require Import ModSelectSpec.
Local Open Scope dice_scope.
Local Open Scope nat_scope.

(** * Selection *)

Definition with_builtin (discovered : DiscoveredBcrModules) (builtin : DiscoveredBcrModule) :
    DiscoveredBcrModules :=
  btree_insert discovered (dep_key (dm_dep builtin)) builtin.

(** The selected versions of the modules that the root depends on, and of [bazel_tools]. *)
Definition selection_roots (sv : BTreeMap string string) (root_deps : list BazelDep) : list ModuleKey :=
  selected_deps sv root_deps ++
  match btree_get sv "bazel_tools"%string with
  | Some version => [("bazel_tools"%string, version)]
  | None => []
  end.

(** What is promised of a selection from [discovered], with the versions [sv]. *)
Record selection_of (discovered : DiscoveredBcrModules) (sv : BTreeMap string string)
    (root_deps : list BazelDep) (r : BzlmodSelectionResult) : Prop := {
  so_discovered : sr_discovered r = discovered;
  so_versions : versions_inv (btree_keys discovered) sv;
  so_sorted : sorted_keys (sr_selected_keys r);
  so_selected k : k ∈ sr_selected_keys r ↔
    ∃ n, steps discovered sv (selection_roots sv root_deps) n k;
  so_best n v : (n, v) ∈ sr_selected_keys r → btree_get sv n = Some v;
  so_bfs : NoDup (sr_selected_keys_in_bfs_order r) ∧
    (∀ k, k ∈ sr_selected_keys_in_bfs_order r ↔ k ∈ sr_selected_keys r) ∧
    by_distance discovered sv (selection_roots sv root_deps) (sr_selected_keys_in_bfs_order r);
  so_dependency : NoDup (sr_selected_keys_in_dependency_order r) ∧
    (∀ k, k ∈ sr_selected_keys_in_dependency_order r ↔ k ∈ sr_selected_keys r) ∧
    (∀ x y, x ∈ sr_selected_keys r → y ∈ successors discovered sv x →
       before y x (sr_selected_keys_in_dependency_order r) ∨ leads_to discovered sv y x);
  so_names k name : btree_get (sr_canonical_repo_names_by_key r) k = Some name ↔
    k ∈ sr_selected_keys r ∧ name = bzlmod_canonical_repo_name k.1 k.2 false;
}.

Lemma steps_best discovered sv root_deps n k :
  versions_inv (btree_keys discovered) sv →
  steps discovered sv (selection_roots sv root_deps) n k → btree_get sv k.1 = Some k.2.
Proof.
  intros Hsv. destruct 1 as [k Hk|n k k' _ Hk].
  - unfold selection_roots in Hk. apply elem_of_app in Hk as [Hk|Hk].
    + by eapply selected_deps_keys.
    + destruct (btree_get sv "bazel_tools"%string) eqn:E; [|by apply elem_of_nil in Hk].
      by apply list_elem_of_singleton in Hk as ->.
  - unfold successors in Hk. destruct (btree_get discovered k); [|by apply elem_of_nil in Hk].
    by eapply selected_deps_keys.
Qed.

Lemma unseen_cost_le discovered :
  btree_wf discovered →
  unseen (deps_cost discovered) (btree_keys discovered) [] ≤
  sum_list_with (λ km, length (dm_deps km.2)) discovered.
Proof.
  intros Hwf. unfold unseen, btree_keys.
  assert (H : ∀ l, (∀ k m, (k, m) ∈ l → btree_get discovered k = Some m) →
            sum_list_with (λ v, if decide (v ∈ []) then 0 else deps_cost discovered v) l.*1 ≤
            sum_list_with (λ km, length (dm_deps km.2)) l).
  { induction l as [|[k m] l IH]; intros Hl; [done|].
    change (((k, m) :: l).*1) with (k :: l.*1). cbn [sum_list_with snd].
    rewrite decide_False by apply not_elem_of_nil.
    unfold deps_cost at 1. rewrite (Hl k m) by (by left).
    assert (Hl' : ∀ k m, (k, m) ∈ l → btree_get discovered k = Some m) by (intros; apply Hl; by right).
    specialize (IH Hl'). lia. }
  apply H. intros k m Hk. by apply btree_get_Some.
Qed.

Lemma select_bzlmod_modules_spec root_deps builtin discovered0 :
  btree_wf discovered0 →
  let discovered := with_builtin discovered0 builtin in
  match select_bzlmod_modules root_deps builtin discovered0 with
  | None => False
  | Some (inr e) => ∃ n v v' err, e = InvalidModuleVersion n err ∧ v ≠ v' ∧
      is_Some (btree_get discovered (n, v)) ∧ is_Some (btree_get discovered (n, v')) ∧
      bzlmod_version_cmp v' v = inr err
  | Some (inl r) => ∃ sv, selection_of discovered sv root_deps r
  end.
Proof.
  intros Hwf0. cbv zeta. unfold select_bzlmod_modules. fold (with_builtin discovered0 builtin).
  set (discovered := with_builtin discovered0 builtin).
  assert (Hwf : btree_wf discovered) by (by apply btree_insert_wf).
  pose proof (select_versions_spec (btree_keys discovered) Hwf) as Hversions.
  destruct (select_versions (btree_keys discovered) []) as [sv|e].
  2:{ destruct Hversions as (n & v & v' & err & -> & Hv & Hv' & Hne & Herr). exists n, v, v', err.
      split_and!; [done|done|by apply btree_get_key..|done]. }
  fold (selection_roots sv root_deps). set (roots := selection_roots sv root_deps).
  assert (Hroots : ∀ k, k ∈ roots → btree_get sv k.1 = Some k.2).
  { intros k Hk. eapply (steps_best discovered sv root_deps 0); [exact Hversions|by constructor]. }
  assert (Hfuel : length roots + unseen (deps_cost discovered) (btree_keys discovered) [] ≤
            select_fuel discovered root_deps).
  { pose proof (unseen_cost_le discovered Hwf). unfold select_fuel, roots, selection_roots.
    rewrite length_app. pose proof (length_selected_deps sv root_deps).
    destruct (btree_get sv "bazel_tools"%string); simpl; lia. }
  destruct (select_loop_spec discovered sv Hwf Hversions (select_fuel discovered root_deps) roots
    (map (λ k, (k, 0)) roots) [] []) as (selected & out & Hloop & Hinv & Hsorted & Hsel).
  { by apply search_inv_start. }
  { constructor. }
  { done. }
  { by rewrite length_map. }
  rewrite fst_map_pair in Hloop. cbn [fmap list_fmap] in Hloop. rewrite Hloop. exists sv.
  destruct (search_end _ _ _ _ Hinv) as (Hnd & Hreach & Hdist).
  assert (Hbest : ∀ k, k ∈ selected → btree_get sv k.1 = Some k.2).
  { intros k Hk. apply Hsel, Hreach in Hk as [n Hn]. by eapply steps_best. }
  assert (Hclosed : ∀ k k', k ∈ selected → k' ∈ successors discovered sv k → k' ∈ selected).
  { intros k k' Hk Hk'. apply Hsel, Hreach in Hk as [n Hn]. apply Hsel, Hreach. exists (S n).
    by eapply steps_succ. }
  pose proof (dependency_first_spec discovered sv selected Hsorted Hclosed (selected_deps sv root_deps))
    as (Hd1 & Hd2 & Hd3).
  split; cbn [sr_discovered sr_selected_keys sr_selected_keys_in_bfs_order
    sr_selected_keys_in_dependency_order sr_canonical_repo_names_by_key]; try done.
  - intros k. by rewrite Hsel, Hreach.
  - intros n v Hk. by apply (Hbest (n, v)).
  - apply canonical_names_spec. intros n v v' H1%Hbest H2%Hbest. simpl in *. congruence.
Qed.

(** C31. Selection.  It ends, and fails only with the error of comparing two discovered versions of one
    module; a selected module is never missing.  Otherwise each name has one version, the greatest
    discovered one; the selected modules are those that the root and [bazel_tools] lead to through
    selected versions, listed once in the order of distance, and once with the modules that a
    module depends on before it, cycles apart; and different modules have different repository
    names. *)
Theorem selection_correct root_deps builtin discovered0 :
  btree_wf discovered0 →
  let discovered := with_builtin discovered0 builtin in
  match select_bzlmod_modules root_deps builtin discovered0 with
  | None => False
  | Some (inr e) => ∃ n v v' err, e = InvalidModuleVersion n err ∧ v ≠ v' ∧
      is_Some (btree_get discovered (n, v)) ∧ is_Some (btree_get discovered (n, v')) ∧
      bzlmod_version_cmp v' v = inr err
  | Some (inl r) =>
      (∃ sv, selection_of discovered sv root_deps r) ∧
      (∀ n v v', (n, v) ∈ sr_selected_keys r → (n, v') ∈ sr_selected_keys r → v = v') ∧
      (∀ k k' name, btree_get (sr_canonical_repo_names_by_key r) k = Some name →
         btree_get (sr_canonical_repo_names_by_key r) k' = Some name → k = k')
  end.
Proof.
  intros Hwf. cbv zeta. pose proof (select_bzlmod_modules_spec root_deps builtin discovered0 Hwf) as H.
  cbv zeta in H. destruct (select_bzlmod_modules root_deps builtin discovered0) as [[r|e]|]; [|done|done].
  destruct H as [sv H].
  assert (Hone : ∀ n v v', (n, v) ∈ sr_selected_keys r → (n, v') ∈ sr_selected_keys r → v = v').
  { intros n v v' H1%(so_best _ _ _ _ H) H2%(so_best _ _ _ _ H). congruence. }
  split_and!; [by exists sv|done|].
  intros [n v] [n' v'] name [H1 ->]%(so_names _ _ _ _ H) [H2 Hname]%(so_names _ _ _ _ H). simpl in *.
  apply canonical_name_inj in Hname as <-. by rewrite (Hone n v v').
Qed.

(** * Discovery and selection together *)

Section Resolution.
Context {E : Type}.
Context (evaluate : ModuleKey → (BcrSourceJson * BzlmodEvaluatedModuleFile) + E).
Context (root_module_name : string) (overrides : Overrides).

Notation required := (required evaluate root_module_name overrides).
Notation required_keys := (required_keys root_module_name overrides).
Notation resolution := (bzlmod_resolution evaluate root_module_name overrides).

Lemma elem_of_required_keys deps n v :
  (n, v) ∈ required_keys deps → ∃ dep, dep ∈ deps ∧ bd_name dep = n.
Proof.
  intros (dep & Hd & H)%list_elem_of_omap. unfold bzlmod_discovery_dep in H.
  case_decide; [done|]. simpl in H. injection H as <- _. by exists dep.
Qed.

(** A requirement of a discovered version: the selected version of the name is at least as great. *)
Lemma requirement_met (discovered : DiscoveredBcrModules) sv deps n v :
  versions_inv (btree_keys discovered) sv → (n, v) ∈ btree_keys discovered →
  (n, v) ∈ required_keys deps →
  ∃ w, (n, w) ∈ selected_deps sv deps ∧
    (v = w ∨ ∃ c, bzlmod_version_cmp v w = inl c ∧ c ≠ Gt).
Proof.
  intros Hsv Hin Hreq. destruct (vi_all _ _ Hsv n v Hin) as [w Hw]. exists w. split.
  - destruct (elem_of_required_keys _ _ _ Hreq) as (dep & Hdep & <-). apply list_elem_of_omap.
    exists dep. split; [done|]. by rewrite Hw.
  - destruct (proj2 (vi_best _ _ Hsv n w Hw) v Hin) as [->|(c & Hc & Hne & _)]; [by left|].
    right. by exists c.
Qed.

Lemma resolution_spec universe fuel root_deps builtin :
  let roots := root_deps ++ dm_deps builtin in
  (∀ k, required roots k → k ∈ universe) → length universe ≤ fuel →
  bd_name (dm_dep builtin) = "bazel_tools"%string →
  match resolution fuel root_deps builtin with
  | None => False
  | Some (inr (inr e)) => ∃ k, required roots k ∧ evaluate k = inr e
  | Some (inr (inl e)) => ∃ n v v' err, e = InvalidModuleVersion n err ∧ v ≠ v' ∧
      (required roots (n, v) ∨ (n, v) = dep_key (dm_dep builtin)) ∧
      (required roots (n, v') ∨ (n, v') = dep_key (dm_dep builtin)) ∧
      bzlmod_version_cmp v' v = inr err
  | Some (inl r) =>
      (∀ k, k ∈ sr_selected_keys r → required roots k ∨ k = dep_key (dm_dep builtin)) ∧
      (∀ n v, (n, v) ∈ required_keys root_deps ∨
         (∃ k m, k ∈ sr_selected_keys r ∧ btree_get (sr_discovered r) k = Some m ∧
            (n, v) ∈ required_keys (dm_deps m)) →
       ∃ w, (n, w) ∈ sr_selected_keys r ∧
         (v = w ∨ ∃ c, bzlmod_version_cmp v w = inl c ∧ c ≠ Gt))
  end.
Proof.
  cbv zeta. intros Huniverse Hfuel Hname. unfold bzlmod_resolution.
  pose proof (discovery_spec evaluate root_module_name overrides universe fuel root_deps
    (dm_deps builtin) Huniverse Hfuel) as Hd.
  destruct (bzlmod_discovery _ _ _ fuel root_deps (dm_deps builtin)) as [[d|e]|]; [|done|done].
  destruct Hd as (Hwf & Hmod & Hall).
  assert (Hkeys : ∀ k, is_Some (btree_get (with_builtin d builtin) k) ↔
            required (root_deps ++ dm_deps builtin) k ∨ k = dep_key (dm_dep builtin)).
  { intros k. unfold with_builtin. rewrite btree_get_insert by done.
    destruct (decide (k = dep_key (dm_dep builtin))) as [->|Hne].
    - rewrite cmp_refl. split; [by right|by eexists].
    - destruct (rust_cmp k (dep_key (dm_dep builtin))) eqn:Ec; [by apply cmp_eq in Ec|..];
        (split; [intros [m [Hm _]%Hmod]; by left|intros [Hk|?]; [by apply Hall|done]]). }
  pose proof (select_bzlmod_modules_spec root_deps builtin d Hwf) as Hs. cbv zeta in Hs.
  destruct (select_bzlmod_modules root_deps builtin d) as [[r|e]|]; [| |done].
  2:{ destruct Hs as (n & v & v' & err & He & Hne & Hv & Hv' & Herr). exists n, v, v', err.
      split_and!; [done|done|by apply Hkeys..|done]. }
  destruct Hs as [sv Hs]. pose proof (so_versions _ _ _ _ Hs) as Hsv.
  assert (Hwf' : btree_wf (with_builtin d builtin)) by (by apply btree_insert_wf).
  split.
  - intros [n v] Hk. apply Hkeys. apply (so_best _ _ _ _ Hs) in Hk.
    by eapply selected_discovered.
  - intros n v Hreq. rewrite (so_discovered _ _ _ _ Hs) in Hreq.
    assert (Hrequired : required (root_deps ++ dm_deps builtin) (n, v)).
    { destruct Hreq as [Hroot|(k & m & Hk & Hm & Hdep)].
      - apply required_root. unfold ModDiscovery.required_keys. rewrite omap_app. apply elem_of_app. by left.
      - unfold with_builtin in Hm. rewrite btree_get_insert in Hm by done.
        destruct (rust_cmp k (dep_key (dm_dep builtin))).
        + injection Hm as <-. apply required_root. unfold ModDiscovery.required_keys. rewrite omap_app.
          apply elem_of_app. by right.
        + apply Hmod in Hm as [Hk' Hm]. eapply required_child; [exact Hk'|]. unfold children. by rewrite Hm.
        + apply Hmod in Hm as [Hk' Hm]. eapply required_child; [exact Hk'|]. unfold children. by rewrite Hm. }
    assert (Hin : (n, v) ∈ btree_keys (with_builtin d builtin)).
    { apply btree_get_key; [done|]. apply Hkeys. by left. }
    destruct Hreq as [Hroot|(k & m & Hk & Hm & Hdep)].
    + destruct (requirement_met _ _ _ _ _ Hsv Hin Hroot) as (w & Hw & Hcmp). exists w. split; [|done].
      apply (so_selected _ _ _ _ Hs). exists 0. constructor. unfold selection_roots. apply elem_of_app. by left.
    + destruct (requirement_met _ _ _ _ _ Hsv Hin Hdep) as (w & Hw & Hcmp). exists w. split; [|done].
      apply (so_selected _ _ _ _ Hs). apply (so_selected _ _ _ _ Hs) in Hk as [j Hj]. exists (S j).
      eapply steps_succ; [exact Hj|]. unfold successors. by rewrite Hm.
Qed.
End Resolution.

(** Discovery ends when finitely many modules are required, directly or not: it returns exactly
    these, each evaluated with its own name and version, or the error of evaluating one of them.
    What is required takes overrides into account and leaves out the root module. *)
Theorem discovery_correct {E} (evaluate : ModuleKey → (BcrSourceJson * BzlmodEvaluatedModuleFile) + E)
    root_module_name overrides universe fuel root_deps builtin_deps :
  let required := required evaluate root_module_name overrides (root_deps ++ builtin_deps) in
  (∀ k, required k → k ∈ universe) → length universe ≤ fuel →
  match bzlmod_discovery evaluate root_module_name overrides fuel root_deps builtin_deps with
  | None => False
  | Some (inl d) => btree_wf d ∧
      (∀ k m, btree_get d k = Some m ↔ required k ∧ module_file evaluate k = inl m) ∧
      (∀ k, required k → is_Some (btree_get d k))
  | Some (inr e) => ∃ k, required k ∧ evaluate k = inr e
  end.
Proof. intros required Huniverse Hfuel. by apply (discovery_spec _ _ _ universe). Qed.

(** C7. Resolution meets the requirements: discovery and selection together end; every selected module
    is one that is required (or [bazel_tools]); and for every requirement of the root or of a selected
    module, after overrides, the module is selected in a version that is the required one or not
    below it.  Otherwise the error is one of evaluating a required module, or of comparing two
    required versions of one module. *)
Theorem resolution_correct {E} (evaluate : ModuleKey → (BcrSourceJson * BzlmodEvaluatedModuleFile) + E)
    root_module_name overrides universe fuel root_deps builtin :
  let roots := root_deps ++ dm_deps builtin in
  let required := required evaluate root_module_name overrides roots in
  let required_keys := required_keys root_module_name overrides in
  (∀ k, required k → k ∈ universe) → length universe ≤ fuel →
  bd_name (dm_dep builtin) = "bazel_tools"%string →
  match bzlmod_resolution evaluate root_module_name overrides fuel root_deps builtin with
  | None => False
  | Some (inr (inr e)) => ∃ k, required k ∧ evaluate k = inr e
  | Some (inr (inl e)) => ∃ n v v' err, e = InvalidModuleVersion n err ∧ v ≠ v' ∧
      (required (n, v) ∨ (n, v) = dep_key (dm_dep builtin)) ∧
      (required (n, v') ∨ (n, v') = dep_key (dm_dep builtin)) ∧
      bzlmod_version_cmp v' v = inr err
  | Some (inl r) =>
      (∀ k, k ∈ sr_selected_keys r → required k ∨ k = dep_key (dm_dep builtin)) ∧
      (∀ n v, (n, v) ∈ required_keys root_deps ∨
         (∃ k m, k ∈ sr_selected_keys r ∧ btree_get (sr_discovered r) k = Some m ∧
            (n, v) ∈ required_keys (dm_deps m)) →
       ∃ w, (n, w) ∈ sr_selected_keys r ∧
         (v = w ∨ ∃ c, bzlmod_version_cmp v w = inl c ∧ c ≠ Gt))
  end.
Proof. intros roots required required_keys Huniverse Hfuel Hname. by apply (resolution_spec _ _ _ universe). Qed.

(** * A registry *)

Local Open Scope string_scope.

Definition dep (name version : string) : BazelDep := mkBazelDep name version (Some name).
Definition no_source : BcrSourceJson := mkSourceJson "" None "" None None None None None.
Definition with_deps (deps : list BazelDep) : (BcrSourceJson * BzlmodEvaluatedModuleFile) + string :=
  inl (no_source, mkEvaluated [] deps [] [] []).

(** [a] and [b] require different versions of [c]; [d] is only required by the older one, and the
    newer one requires [a] again. *)
Definition registry (key : ModuleKey) : (BcrSourceJson * BzlmodEvaluatedModuleFile) + string :=
  if decide (key = ("a", "1.0")) then with_deps [dep "c" "1.9"]
  else if decide (key = ("b", "2.0")) then with_deps [dep "c" "1.10"; dep "my_root" "0"]
  else if decide (key = ("c", "1.9")) then with_deps [dep "d" "1"]
  else if decide (key = ("c", "1.10")) then with_deps [dep "a" "0.1"]
  else if decide (key = ("d", "1")) then with_deps []
  else inr ("no such module: " +:+ key.1).

Definition registry_overrides : Overrides :=
  mkOverrides [] [("a", mkSingleVersionOverride (Some "1.0") [] None)] [] [].
Definition registry_roots : list BazelDep := [dep "a" "0.5"; dep "b" "2.0"].
Definition registry_keys : list ModuleKey :=
  [("a", "1.0"); ("b", "2.0"); ("c", "1.9"); ("c", "1.10"); ("d", "1")].
Definition registry_builtin : DiscoveredBcrModule :=
  discovered_bzlmod_module_from_eval (mkBazelDep "bazel_tools" "" (Some "bazel_tools")) no_source
    (mkEvaluated [] [] [] [] []).

Definition registry_resolution : option (BzlmodSelectionResult + (SelectError + string)) :=
  bzlmod_resolution registry "my_root" registry_overrides 5 registry_roots registry_builtin.

Example registry_selected :
  (λ r, match r with
        | inl s => Some (sr_selected_keys_in_bfs_order s, sr_selected_keys_in_dependency_order s,
                         sr_canonical_repo_names_by_key s)
        | inr _ => None
        end) <$> registry_resolution =
  Some (Some ([("a", "1.0"); ("b", "2.0"); ("bazel_tools", ""); ("c", "1.10")],
              [("c", "1.10"); ("a", "1.0"); ("b", "2.0"); ("bazel_tools", "")],
              [(("a", "1.0"), "a+"); (("b", "2.0"), "b+"); (("bazel_tools", ""), "bazel_tools");
               (("c", "1.10"), "c+")])).
Proof. vm_compute. reflexivity. Qed.

(** A list that holds the roots and is closed under requirements holds what is required. *)
Lemma required_checked {E} (evaluate : ModuleKey → (BcrSourceJson * BzlmodEvaluatedModuleFile) + E)
    root_module_name overrides roots keys k :
  forallb (λ k, bool_decide (k ∈ keys)) (required_keys root_module_name overrides roots) = true →
  forallb (λ k, forallb (λ k', bool_decide (k' ∈ keys)) (children evaluate root_module_name overrides k))
    keys = true →
  required evaluate root_module_name overrides roots k → k ∈ keys.
Proof.
  rewrite !forallb_forall. intros Hroots Hchildren. induction 1 as [k Hk|k k' Hk IH Hk'].
  - eapply bool_decide_eq_true, Hroots. by apply list_elem_of_In.
  - apply list_elem_of_In, Hchildren in IH. rewrite forallb_forall in IH.
    eapply bool_decide_eq_true, IH. by apply list_elem_of_In.
Qed.

Lemma registry_finite k :
  required registry "my_root" registry_overrides (registry_roots ++ dm_deps registry_builtin) k →
  k ∈ registry_keys.
Proof. apply required_checked; vm_compute; reflexivity. Qed.

Lemma discovery_correct_witness :
  (∀ k, required registry "my_root" registry_overrides (registry_roots ++ []) k → k ∈ registry_keys) ∧
  (length registry_keys ≤ 5)%nat ∧
  match bzlmod_discovery registry "my_root" registry_overrides 5 registry_roots [] with
  | Some (inl d) => btree_keys d = [("a", "1.0"); ("b", "2.0"); ("c", "1.10"); ("c", "1.9"); ("d", "1")] ∧ btree_wf d
  | _ => False
  end.
Proof.
  split; [exact registry_finite|]. split; [vm_compute; lia|].
  pose proof (discovery_correct registry "my_root" registry_overrides registry_keys 5 registry_roots []
    registry_finite ltac:(vm_compute; lia)) as H.
  assert (Hkeys : (λ r, match r with inl d => Some (btree_keys d) | inr _ => None end) <$>
            bzlmod_discovery registry "my_root" registry_overrides 5 registry_roots [] =
          Some (Some [("a", "1.0"); ("b", "2.0"); ("c", "1.10"); ("c", "1.9"); ("d", "1")])).
  { vm_compute. reflexivity. }
  destruct (bzlmod_discovery registry "my_root" registry_overrides 5 registry_roots []) as [[d|e]|];
    [|done|done].
  split; [by injection Hkeys|apply H].
Defined.

Lemma resolution_correct_witness :
  match registry_resolution with
  | Some (inl r) => ∃ w, ("c", w) ∈ sr_selected_keys r ∧
      ("1.9" = w ∨ ∃ c, bzlmod_version_cmp "1.9" w = inl c ∧ c ≠ Gt)
  | _ => False
  end.
Proof.
  pose proof (resolution_correct registry "my_root" registry_overrides registry_keys 5 registry_roots
    registry_builtin registry_finite ltac:(vm_compute; lia) eq_refl) as H.
  fold registry_resolution in H.
  assert (Hsel : match registry_resolution with
            | Some (inl r) => ("a", "1.0") ∈ sr_selected_keys r ∧
                dm_deps <$> btree_get (sr_discovered r) ("a", "1.0") = Some [dep "c" "1.9"]
            | _ => False
            end).
  { vm_compute. split; [|reflexivity]. left. }
  destruct registry_resolution as [[r|e]|]; [|done|done]. destruct H as [_ H]. destruct Hsel as [Hk Hm].
  destruct (btree_get (sr_discovered r) ("a", "1.0")) as [m|] eqn:E; [|done]. simpl in Hm. injection Hm as Hm.
  apply (H "c" "1.9"). right. exists ("a", "1.0"), m. split; [exact Hk|]. split; [exact E|].
  rewrite Hm. vm_compute. left.
Defined.

Lemma selection_correct_witness :
  btree_wf ([] : DiscoveredBcrModules) ∧
  match select_bzlmod_modules [] registry_builtin [] with
  | Some (inl r) => ∃ sv, selection_of (with_builtin [] registry_builtin) sv [] r
  | _ => False
  end.
Proof.
  assert (Hwf : btree_wf ([] : DiscoveredBcrModules)) by constructor.
  split; [exact Hwf|]. pose proof (selection_correct [] registry_builtin [] Hwf) as H. cbv zeta in H.
  assert (Hok : match select_bzlmod_modules [] registry_builtin [] with Some (inl _) => True | _ => False end).
  { vm_compute. exact I. }
  destruct (select_bzlmod_modules [] registry_builtin []) as [[r|e]|]; [apply H|done|done].
Defined.
