(* ===== verification/ModGraph.v ===== *)
(** The dependency graph of resolved modules ([src/app/bz_common/src/bazel/bzlmod.rs]): the names
    under which each repository sees others, the labels of module extensions, unique names for the
    extensions, and the patterns of registered toolchains. *)
From stdpp Require Import gmap.
From S2P Require Import Prelude.
From S2P Require Import RustStr.
From S2P Require Import RustStrSpec.
From S2P Require Import RustOrd.
From S2P Require Import ModVersion.
From S2P Require Import ModSelect.
Local Open Scope dice_scope.
Local Open Scope string_scope.
Local Open Scope nat_scope.
Local Open Scope list_scope.

(** * Data *)

Record RootBzlmodModule := mkRoot {
  rm_name : string;
  rm_version : string;
  rm_repo_name : string;
  rm_canonical_repo_name : string;
  rm_lockfile_extension_generated_repos : BTreeMap string (list string);
  rm_lockfile_extension_facts : list string;
  rm_constants : list (string * string);
  rm_extension_usages : list BzlmodExtensionUsage;
  rm_use_repo_rule_invocations : list BzlmodUseRepoRuleInvocation;
  rm_registered_toolchains : list string;
}.

Record BzlmodExtensionId := mkExtensionId {
  xi_bzl_cell_name : string; xi_bzl_path : string; xi_extension_name : string }.

Definition extension_fields (id : BzlmodExtensionId) : string * (string * string) :=
  (xi_bzl_cell_name id, (xi_bzl_path id, xi_extension_name id)).
(** The derived order. *)
#[export] Instance extension_id_ord : RustOrd BzlmodExtensionId :=
  λ a b, rust_cmp (extension_fields a) (extension_fields b).

#[export] Instance extension_id_total : TotalOrd BzlmodExtensionId.
Proof.
  split; unfold rust_cmp, extension_id_ord.
  - intros a b. apply cmp_antisym.
  - intros a b c. apply cmp_trans.
  - intros [] []. etrans; [apply cmp_eq|]. unfold extension_fields. simpl.
    split; [by intros [= -> -> ->]|by intros [= -> -> ->]].
Qed.

#[export] Instance extension_id_eq_dec : EqDecision BzlmodExtensionId.
Proof. solve_decision. Defined.

Record BzlmodResolvedExtension := mkResolved { rx_id : BzlmodExtensionId; rx_unique_name : string }.

(** Cell, alias, cell that the alias stands for. *)
Notation BzlmodCellAliases := (gmap string (gmap string string)).

Record BzlmodDepGraph := mkDepGraph {
  dg_root_module : RootBzlmodModule;
  dg_discovered : DiscoveredBcrModules;
  dg_selected_keys : list ModuleKey;
  dg_selected_keys_in_bfs_order : list ModuleKey;
  dg_selected_keys_in_dependency_order : list ModuleKey;
  dg_canonical_repo_names_by_key : BTreeMap ModuleKey string;
  dg_canonical_repo_names_by_cell : BTreeMap string string;
  dg_root_aliases_by_key : BTreeMap ModuleKey (list string);
  dg_cell_aliases_by_cell : BzlmodCellAliases;
  dg_extension_eval_cell_aliases_by_cell : BzlmodCellAliases;
  dg_extension_unique_names : BTreeMap BzlmodExtensionId string;
}.

Inductive GraphError :=
| NoCanonicalName (name version : string)
| NotAbsoluteLabel (label : string)
| LabelUnknownRepo (label cell alias : string)
| EmptyTarget (label : string)
| NotModuleLabel (label : string)
| ExtensionUnknownCell (id : BzlmodExtensionId)
| NoUniqueName (bzl_file extension cell : string)
| OverrideNotVisible (id : BzlmodExtensionId) (repo_name overriding cell : string)
| ToolchainNotAbsolute (pattern cell : string)
| ToolchainUnknownRepo (pattern cell alias : string)
| CellWithoutName (cell : string)
| NoUsagesValue (id : BzlmodExtensionId)
| ImportsInjected (bzl_file extension parent repo_name target : string).

(** A [Result], a panic, or a loop that has run out of fuel. *)
Inductive gresult (A : Type) :=
| Done (a : A)
| Failed (e : GraphError)
| Panicked
| OutOfFuel.
Arguments Done {A} a.
Arguments Failed {A} e.
Arguments Panicked {A}.
Arguments OutOfFuel {A}.

#[export] Instance gresult_ret : MRet gresult := @Done.
#[export] Instance gresult_bind : MBind gresult := λ A B f m,
  match m with Done a => f a | Failed e => Failed e | Panicked => Panicked | OutOfFuel => OutOfFuel end.

Definition ok_or {A} (o : option A) (e : GraphError) : gresult A :=
  match o with Some a => Done a | None => Failed e end.

(** A loop that an error leaves. *)
Fixpoint try_fold {A S} (f : S → A → gresult S) (s : S) (l : list A) : gresult S :=
  match l with
  | [] => Done s
  | a :: l => s ← f s a; try_fold f s l
  end.

(** * Aliases *)

Definition add_bzlmod_cell_alias (aliases : BzlmodCellAliases) (cell alias target : string) :
    BzlmodCellAliases :=
  <[cell := <[alias := target]> (default ∅ (aliases !! cell))]> aliases.

Definition bzlmod_cell_alias_target (aliases : BzlmodCellAliases) (cell alias : string) : option string :=
  aliases !! cell ≫= λ m, m !! alias.

(** [src/app/bz_core/src/cells/external.rs] *)
Definition bzlmod_cell_name (canonical_repo_name : string) : string := canonical_repo_name.

Definition bzlmod_selected_canonical_repo_name (names : BTreeMap ModuleKey string) (name version : string) :
    gresult string :=
  ok_or (btree_get names (name, version)) (NoCanonicalName name version).

(** [entry(key).or_default().insert(alias)] *)
Definition add_key_alias (m : BTreeMap ModuleKey (list string)) (key : ModuleKey) (alias : string) :
    BTreeMap ModuleKey (list string) :=
  btree_insert m key (bset_insert (default [] (btree_get m key)) alias).

Definition add_bzlmod_dep_alias (dep : BazelDep) (selected_versions : BTreeMap string string)
    (aliases_by_key : BTreeMap ModuleKey (list string)) : BTreeMap ModuleKey (list string) :=
  match bd_apparent_name dep, btree_get selected_versions (bd_name dep) with
  | Some alias, Some version => add_key_alias aliases_by_key (bd_name dep, version) alias
  | _, _ => aliases_by_key
  end.

Definition add_bzlmod_dep_cell_alias (current_cell_name : string) (dep : BazelDep)
    (selected_versions : BTreeMap string string) (names : BTreeMap ModuleKey string)
    (aliases : BzlmodCellAliases) : gresult BzlmodCellAliases :=
  match bd_apparent_name dep, btree_get selected_versions (bd_name dep) with
  | Some alias, Some version =>
      canonical_repo_name ← bzlmod_selected_canonical_repo_name names (bd_name dep) version;
      mret (add_bzlmod_cell_alias aliases current_cell_name alias (bzlmod_cell_name canonical_repo_name))
  | _, _ => mret aliases
  end.

Definition add_bzlmod_root_generated_repo_alias (aliases : BzlmodCellAliases) (alias target : string) :
    BzlmodCellAliases :=
  <["root" := let m := default ∅ (aliases !! "root") in
              match m !! alias with Some _ => m | None => <[alias := target]> m end]> aliases.

(** * Labels of extensions *)

(** The part after the last [c]. *)
Definition rsplit_last (c : ascii) (s : string) : string := List.last (split_char c s) s.

Definition bzlmod_label_package_target_to_path (label package_and_target : string) : gresult string :=
  let '(package, target) :=
    match split_once_char ":" package_and_target with
    | Some (package, target) => (package, target)
    | None => (package_and_target, rsplit_last "/" package_and_target)
    end in
  if is_empty_str target then Failed (EmptyTarget label)
  else if is_empty_str package then mret target
  else mret (package +:+ "/" +:+ target).

Definition bzlmod_resolve_extension_bzl_label (current_cell_name label : string)
    (aliases : BzlmodCellAliases) : gresult (string * string) :=
  match strip_prefix "@@" label with
  | Some rest =>
      match split_once_str "//" rest with
      | None => Failed (NotAbsoluteLabel label)
      | Some (canonical_repo_name, package_and_target) =>
          let cell_name := if decide (canonical_repo_name = "bazel_tools") then "bazel_tools"
                           else bzlmod_cell_name canonical_repo_name in
          path ← bzlmod_label_package_target_to_path label package_and_target;
          mret (cell_name, path)
      end
  | None =>
  match strip_prefix "@" label with
  | Some rest =>
      match split_once_str "//" rest with
      | None => Failed (NotAbsoluteLabel label)
      | Some (alias, package_and_target) =>
          cell_name ← (if decide (alias = "bazel_tools") then mret "bazel_tools"
                       else ok_or (bzlmod_cell_alias_target aliases current_cell_name alias)
                              (LabelUnknownRepo label current_cell_name alias));
          path ← bzlmod_label_package_target_to_path label package_and_target;
          mret (cell_name, path)
      end
  | None =>
  match strip_prefix "//" label with
  | Some package_and_target =>
      path ← bzlmod_label_package_target_to_path label package_and_target;
      mret (current_cell_name, path)
  | None =>
  match strip_prefix ":" label with
  | Some target =>
      path ← bzlmod_label_package_target_to_path label (":" +:+ target);
      mret (current_cell_name, path)
  | None => Failed (NotModuleLabel label)
  end end end end.

Definition bzlmod_resolve_extension_id (current_cell_name : string) (usage : BzlmodExtensionUsage)
    (aliases : BzlmodCellAliases) : gresult BzlmodExtensionId :=
  '(bzl_cell_name, bzl_path) ←
    bzlmod_resolve_extension_bzl_label current_cell_name (eu_extension_bzl_file usage) aliases;
  mret (mkExtensionId bzl_cell_name bzl_path (eu_extension_name usage)).

Definition bzlmod_resolve_extension (current_cell_name : string) (usage : BzlmodExtensionUsage)
    (aliases : BzlmodCellAliases) (unique_names : BTreeMap BzlmodExtensionId string) :
    gresult BzlmodResolvedExtension :=
  id ← bzlmod_resolve_extension_id current_cell_name usage aliases;
  unique_name ← ok_or (btree_get unique_names id)
    (NoUniqueName (eu_extension_bzl_file usage) (eu_extension_name usage) current_cell_name);
  mret (mkResolved id unique_name).

(** * Unique names *)

Definition extension_candidate (extension_repo_name extension_name : string) (attempt : N) : string :=
  extension_repo_name +:+ "+" +:+ extension_name +:+
  (if (attempt =? 1)%N then "" else number_to_string attempt).

(** The first attempt that is not used. *)
Fixpoint unused_candidate (fuel : nat) (used_names : list string) (extension_repo_name extension_name : string)
    (attempt : N) : gresult string :=
  match fuel with
  | 0 => OutOfFuel
  | S fuel =>
      let candidate := extension_candidate extension_repo_name extension_name attempt in
      if bset_contains used_names candidate
      then unused_candidate fuel used_names extension_repo_name extension_name (attempt + 1)
      else mret candidate
  end.

(** The state: the names used and the names of the extensions. *)
Definition assign_unique_name (names_by_cell : BTreeMap string string)
    (st : list string * BTreeMap BzlmodExtensionId string) (id : BzlmodExtensionId) :
    gresult (list string * BTreeMap BzlmodExtensionId string) :=
  extension_repo_name ← ok_or (btree_get names_by_cell (xi_bzl_cell_name id)) (ExtensionUnknownCell id);
  candidate ← unused_candidate (S (length st.1)) st.1 extension_repo_name (xi_extension_name id) 1;
  mret (bset_insert st.1 candidate, btree_insert st.2 id candidate).

Definition insert_extension_id (cell : string) (aliases : BzlmodCellAliases)
    (ids : list BzlmodExtensionId) (usage : BzlmodExtensionUsage) : gresult (list BzlmodExtensionId) :=
  id ← bzlmod_resolve_extension_id cell usage aliases;
  mret (bset_insert ids id).

(** The loops over the usages of the root and of the selected modules that the source repeats. *)
Definition fold_usages {S} (discovered : DiscoveredBcrModules) (names : BTreeMap ModuleKey string)
    (f : string → S → BzlmodExtensionUsage → gresult S) (selected_keys : list ModuleKey) (s : S) : gresult S :=
  try_fold (λ s key,
    match btree_get discovered key with
    | None => mret s
    | Some m =>
        canonical_repo_name ← bzlmod_selected_canonical_repo_name names (bd_name (dm_dep m)) (bd_version (dm_dep m));
        try_fold (f (bzlmod_cell_name canonical_repo_name)) s (dm_extension_usages m)
    end) s selected_keys.

Definition bzlmod_extension_unique_names (root_module : RootBzlmodModule) (discovered : DiscoveredBcrModules)
    (selected_keys : list ModuleKey) (names : BTreeMap ModuleKey string) (aliases : BzlmodCellAliases)
    (names_by_cell : BTreeMap string string) : gresult (BTreeMap BzlmodExtensionId string) :=
  ids ← try_fold (insert_extension_id "root" aliases) [] (rm_extension_usages root_module);
  ids ← fold_usages discovered names (λ cell, insert_extension_id cell aliases) selected_keys ids;
  st ← try_fold (assign_unique_name names_by_cell) ([], []) ids;
  mret st.2.

(** * Repositories of extensions *)

Definition bzlmod_extension_unique_repo_canonical_repo_name (extension_unique_name repo_name : string) : string :=
  extension_unique_name +:+ "+" +:+ repo_name.

Definition bzlmod_extension_repo_canonical_repo_name (extension : BzlmodResolvedExtension) (repo_name : string) :
    string := bzlmod_extension_unique_repo_canonical_repo_name (rx_unique_name extension) repo_name.

Definition bzlmod_extension_repo_override_targets (usage : BzlmodExtensionUsage) (parent_cell_name : string)
    (aliases : BzlmodCellAliases) (resolved_extension : BzlmodResolvedExtension) :
    gresult (BTreeMap string string) :=
  try_fold (λ targets o,
    target ← ok_or (bzlmod_cell_alias_target aliases parent_cell_name (ro_overriding_repo_name o))
      (OverrideNotVisible (rx_id resolved_extension) (ro_repo_name o) (ro_overriding_repo_name o) parent_cell_name);
    mret (btree_insert targets (ro_repo_name o) target)) [] (eu_repo_overrides usage).

Definition add_bzlmod_extension_usage_eval_aliases (base_aliases : BzlmodCellAliases)
    (unique_names : BTreeMap BzlmodExtensionId string) (parent_cell_name : string)
    (aliases : BzlmodCellAliases) (usage : BzlmodExtensionUsage) : gresult BzlmodCellAliases :=
  resolved_extension ← bzlmod_resolve_extension parent_cell_name usage base_aliases unique_names;
  repo_override_targets ←
    bzlmod_extension_repo_override_targets usage parent_cell_name base_aliases resolved_extension;
  mret (fold_left (λ aliases import,
    add_bzlmod_cell_alias aliases parent_cell_name (ui_alias import)
      (default (bzlmod_cell_name (bzlmod_extension_repo_canonical_repo_name resolved_extension (ui_repo_name import)))
         (btree_get repo_override_targets (ui_repo_name import)))) (eu_imports usage) aliases).

Definition bzlmod_extension_eval_cell_aliases_by_cell (root_module : RootBzlmodModule)
    (discovered : DiscoveredBcrModules) (selected_keys : list ModuleKey) (names : BTreeMap ModuleKey string)
    (base_aliases : BzlmodCellAliases) (unique_names : BTreeMap BzlmodExtensionId string) :
    gresult BzlmodCellAliases :=
  aliases ← try_fold (add_bzlmod_extension_usage_eval_aliases base_aliases unique_names "root")
    base_aliases (rm_extension_usages root_module);
  fold_usages discovered names (add_bzlmod_extension_usage_eval_aliases base_aliases unique_names)
    selected_keys aliases.

(** * The graph *)

(** The aliases that the root sees by key, and those of every cell. *)
Definition AliasState : Type := BTreeMap ModuleKey (list string) * BzlmodCellAliases.

Definition add_root_dep (selected_versions : BTreeMap string string) (names : BTreeMap ModuleKey string)
    (st : AliasState) (dep : BazelDep) : gresult AliasState :=
  aliases ← add_bzlmod_dep_cell_alias "root" dep selected_versions names st.2;
  mret (add_bzlmod_dep_alias dep selected_versions st.1, aliases).

Definition add_module_dep (root_name cell_name : string) (selected_versions : BTreeMap string string)
    (names : BTreeMap ModuleKey string) (aliases : BzlmodCellAliases) (dep : BazelDep) :
    gresult BzlmodCellAliases :=
  if decide (bd_name dep = root_name) then
    mret match bd_apparent_name dep with
         | Some alias => add_bzlmod_cell_alias aliases cell_name alias "root"
         | None => aliases
         end
  else add_bzlmod_dep_cell_alias cell_name dep selected_versions names aliases.

(** The aliases of the module itself, where it is known. *)
Definition add_module_aliases (root_visible : bool) (key : ModuleKey) (m : DiscoveredBcrModule)
    (canonical_repo_name : string) (st : AliasState) : AliasState :=
  let cell_name := bzlmod_cell_name canonical_repo_name in
  let st := (st.1, add_bzlmod_cell_alias st.2 cell_name canonical_repo_name cell_name) in
  let st :=
    if root_visible then
      fold_left (λ st alias, (add_key_alias st.1 key alias, add_bzlmod_cell_alias st.2 "root" alias cell_name))
        (dm_module_aliases m) st
    else st in
  let st :=
    if decide (bd_name (dm_dep m) = "platforms") then
      (add_key_alias st.1 key "platforms", add_bzlmod_cell_alias st.2 "root" "platforms" cell_name)
    else st in
  (st.1, fold_left (λ aliases alias,
           add_bzlmod_cell_alias (add_bzlmod_cell_alias aliases cell_name alias cell_name)
             "bazel_tools" alias cell_name) (dm_module_aliases m) st.2).

Definition add_selected_module (root_name : string) (discovered : DiscoveredBcrModules)
    (root_visible_override_dep_keys : list ModuleKey) (selected_versions : BTreeMap string string)
    (names : BTreeMap ModuleKey string) (st : AliasState) (key : ModuleKey) : gresult AliasState :=
  match btree_get discovered key with
  | None => mret st
  | Some m =>
      canonical_repo_name ← bzlmod_selected_canonical_repo_name names (bd_name (dm_dep m)) (bd_version (dm_dep m));
      let st := add_module_aliases (bset_contains root_visible_override_dep_keys key) key m canonical_repo_name st in
      aliases ← try_fold (add_module_dep root_name (bzlmod_cell_name canonical_repo_name) selected_versions names)
        st.2 (dm_deps m);
      mret (st.1, aliases)
  end.

(** The dependencies of the root on overridden modules. *)
Definition root_visible_keys (root_deps : list BazelDep) (selected_versions : BTreeMap string string) :
    list ModuleKey :=
  fold_left (λ keys dep,
    match bd_apparent_name dep, btree_get selected_versions (bd_name dep) with
    | Some _, Some version =>
        if is_empty_str (bd_version dep) then bset_insert keys (bd_name dep, version) else keys
    | _, _ => keys
    end) root_deps [].

Definition names_by_cell_step (names : BTreeMap ModuleKey string) (names_by_cell : BTreeMap string string)
    (key : ModuleKey) : gresult (BTreeMap string string) :=
  match btree_get names key with
  | None => Panicked
  | Some canonical_repo_name =>
      mret (btree_insert names_by_cell (bzlmod_cell_name canonical_repo_name) canonical_repo_name)
  end.

(** The aliases at the start: the root's name for itself. *)
Definition root_self_alias (root_module : RootBzlmodModule) : BzlmodCellAliases :=
  if is_empty_str (rm_repo_name root_module) then ∅
  else add_bzlmod_cell_alias ∅ "root" (rm_repo_name root_module) "root".

Definition bzlmod_dep_graph_from_selection (root_deps : list BazelDep) (root_module : RootBzlmodModule)
    (discovered : DiscoveredBcrModules) (selection : BzlmodSelectionResult) : gresult BzlmodDepGraph :=
  let selected_keys := sr_selected_keys selection in
  let names := sr_canonical_repo_names_by_key selection in
  let selected_versions := fold_left (λ m key, btree_insert m key.1 key.2) selected_keys [] in
  let visible := root_visible_keys root_deps selected_versions in
  st ← try_fold (add_root_dep selected_versions names) ([], root_self_alias root_module) root_deps;
  st ← try_fold (add_selected_module (rm_name root_module) discovered visible selected_versions names)
    st selected_keys;
  let names_by_cell := btree_insert (btree_insert [] "bazel_tools" "bazel_tools")
    "root" (rm_canonical_repo_name root_module) in
  names_by_cell ← try_fold (names_by_cell_step names) names_by_cell selected_keys;
  unique_names ← bzlmod_extension_unique_names root_module discovered selected_keys names st.2 names_by_cell;
  eval_aliases ←
    bzlmod_extension_eval_cell_aliases_by_cell root_module discovered selected_keys names st.2 unique_names;
  mret (mkDepGraph root_module discovered selected_keys (sr_selected_keys_in_bfs_order selection)
    (sr_selected_keys_in_dependency_order selection) names names_by_cell st.1 st.2 eval_aliases unique_names).

(** * Registered toolchains *)

Definition qualify_bzlmod_registered_toolchain (aliases : BzlmodCellAliases) (module_cell_name pattern : string) :
    gresult string :=
  let pattern := trim pattern in
  match strip_prefix "//" pattern with
  | Some rest => mret (module_cell_name +:+ "//" +:+ rest)
  | None =>
  if starts_with "@@" pattern then mret pattern else
  match strip_prefix "@" pattern with
  | Some rest =>
      match split_once_str "//" rest with
      | None => Failed (ToolchainNotAbsolute pattern module_cell_name)
      | Some (alias, package_and_target) =>
          if is_empty_str alias then mret (module_cell_name +:+ "//" +:+ package_and_target)
          else if decide (alias = "bazel_tools") then mret ("bazel_tools//" +:+ package_and_target)
          else
            target_cell_name ← ok_or (bzlmod_cell_alias_target aliases module_cell_name alias)
              (ToolchainUnknownRepo pattern module_cell_name alias);
            mret (target_cell_name +:+ "//" +:+ package_and_target)
      end
  | None =>
      match split_once_str "//" pattern with
      | Some _ => mret pattern
      | None => Failed (ToolchainNotAbsolute pattern module_cell_name)
      end
  end end.

Definition push_toolchain (aliases : BzlmodCellAliases) (cell : string) (toolchains : list string)
    (pattern : string) : gresult (list string) :=
  toolchain ← qualify_bzlmod_registered_toolchain aliases cell pattern;
  mret (toolchains ++ [toolchain]).

(** [cell_aliases.rs] *)
Fixpoint dedup_loop (seen values : list string) : list string :=
  match values with
  | [] => []
  | v :: values =>
      if bset_contains seen v then dedup_loop seen values
      else v :: dedup_loop (bset_insert seen v) values
  end.
Definition dedup_preserve_order (values : list string) : list string := dedup_loop [] values.

Definition resolve_bzlmod_registered_toolchains (root_module : RootBzlmodModule)
    (discovered : DiscoveredBcrModules) (selected_keys : list ModuleKey) (names : BTreeMap ModuleKey string)
    (aliases : BzlmodCellAliases) : gresult (list string) :=
  toolchains ← try_fold (push_toolchain aliases "root") [] (rm_registered_toolchains root_module);
  toolchains ← try_fold (λ toolchains key,
    match btree_get discovered key with
    | None => mret toolchains
    | Some m =>
        canonical_repo_name ← bzlmod_selected_canonical_repo_name names (bd_name (dm_dep m)) (bd_version (dm_dep m));
        try_fold (push_toolchain aliases (bzlmod_cell_name canonical_repo_name)) toolchains
          (dm_registered_toolchains m)
    end) toolchains selected_keys;
  mret (dedup_preserve_order toolchains).
