(* ===== verification/ModGraphSpec.v ===== *)
(** Properties of the graph of [ModGraph]: the names that each repository sees, as the last of the
    declarations for its cell, and the unique names of extensions and their repositories. *)
From stdpp Require Import gmap.
From S2P Require Import Prelude.
From S2P Require Import RustStr.
From S2P Require Import RustStrSpec.
From S2P Require Import RustOrd.
From S2P Require Import ModVersion.
From S2P Require Import ModSelect.
From S2P Require Import ModDiscovery.
From S2P Require Import ModSelectSpec.
From S2P Require Import ModResolution.
From S2P Require Import ModGraph.
Local Open Scope dice_scope.
Local Open Scope string_scope.
Local Open Scope nat_scope.
Local Open Scope list_scope.

(** * The monad *)

(** No panic, enough fuel; [P] of the value or [E] of the error. *)
Definition gspec {A} (m : gresult A) (P : A → Prop) (E : GraphError → Prop) : Prop :=
  match m with Done a => P a | Failed e => E e | Panicked | OutOfFuel => False end.

Lemma gspec_bind {A B} (m : gresult A) (f : A → gresult B) P Q E :
  gspec m P E → (∀ a, P a → gspec (f a) Q E) → gspec (m ≫= f) Q E.
Proof. destruct m; simpl; auto. Qed.

Lemma gspec_mono {A} (m : gresult A) P (P' : A → Prop) E (E' : GraphError → Prop) :
  gspec m P E → (∀ a, P a → P' a) → (∀ e, E e → E' e) → gspec m P' E'.
Proof. destruct m; simpl; auto. Qed.

Lemma gspec_ok_or {A} (o : option A) e (P : A → Prop) (E : GraphError → Prop) :
  (∀ a, o = Some a → P a) → (o = None → E e) → gspec (ok_or o e) P E.
Proof. destruct o; simpl; auto. Qed.

Lemma gspec_try_fold {A S} (f : S → A → gresult S) (I : list A → S → Prop) E s l :
  I [] s → (∀ l1 a l2 s, l = l1 ++ a :: l2 → I l1 s → gspec (f s a) (I (l1 ++ [a])) E) →
  gspec (try_fold f s l) (I l) E.
Proof.
  intros Hs Hstep. assert (H : ∀ l1 l2 s, l = l1 ++ l2 → I l1 s → gspec (try_fold f s l2) (I l) E).
  { intros l1 l2. revert l1. induction l2 as [|a l2 IH]; intros l1 s' Hl HI; simpl.
    - rewrite app_nil_r in Hl. by subst.
    - eapply gspec_bind; [by eapply Hstep|]. intros s'' Hs''. apply (IH (l1 ++ [a])); [|done].
      by rewrite <- app_assoc. }
  by apply (H []).
Qed.

(** A loop whose steps do not fail. *)
Lemma try_fold_done {A S} (f : S → A → gresult S) (g : S → A → S) s l :
  (∀ s a, a ∈ l → f s a = Done (g s a)) → try_fold f s l = Done (fold_left g l s).
Proof.
  revert s. induction l as [|a l IH]; intros s Hf; simpl; [done|].
  rewrite Hf by (by left). simpl. apply IH. intros s' a' Ha. apply Hf. by right.
Qed.

(** * Declarations of aliases *)

(** Cell, alias, target. *)
Notation declaration := (string * string * string)%type.

Definition declare (m : BzlmodCellAliases) (ds : list declaration) : BzlmodCellAliases :=
  fold_left (λ m d, add_bzlmod_cell_alias m d.1.1 d.1.2 d.2) ds m.

Definition declared_in (cell : string) (ds : list declaration) : list (string * string) :=
  omap (λ d, if decide (d.1.1 = cell) then Some (d.1.2, d.2) else None) ds.

(** The last declaration of an alias is the one that counts. *)
Fixpoint last_target (ds : list (string * string)) (alias : string) : option string :=
  match ds with
  | [] => None
  | (a, t) :: ds =>
      match last_target ds alias with
      | Some t' => Some t'
      | None => if decide (a = alias) then Some t else None
      end
  end.

Lemma last_target_app ds1 ds2 a :
  last_target (ds1 ++ ds2) a =
  match last_target ds2 a with Some t => Some t | None => last_target ds1 a end.
Proof.
  induction ds1 as [|[b t] ds1 IH]; simpl; [by destruct (last_target ds2 a)|].
  rewrite IH. by destruct (last_target ds2 a).
Qed.

Lemma last_target_elem ds a t : last_target ds a = Some t → (a, t) ∈ ds.
Proof.
  induction ds as [|[b u] ds IH]; simpl; [done|]. destruct (last_target ds a).
  - intros [= ->]. right. by apply IH.
  - case_decide; intros [= ->]; subst. by left.
Qed.

Lemma last_target_is_Some ds a : is_Some (last_target ds a) ↔ a ∈ ds.*1.
Proof.
  induction ds as [|[b u] ds IH]; simpl.
  { split; [by intros [? ?]|intros H; by apply elem_of_nil in H]. }
  rewrite elem_of_cons, <- IH. destruct (last_target ds a); [intuition; by eexists|].
  case_decide; subst; split; [by left|by eexists|intros [? ?]; done|].
  intros [?|[? ?]]; [congruence|done].
Qed.

Lemma declared_in_app c ds1 ds2 : declared_in c (ds1 ++ ds2) = declared_in c ds1 ++ declared_in c ds2.
Proof. apply omap_app. Qed.

Lemma declared_in_flat_map {A} c (f : A → list declaration) l :
  declared_in c (flat_map f l) = flat_map (λ a, declared_in c (f a)) l.
Proof. induction l as [|a l IH]; simpl; [done|]. by rewrite declared_in_app, IH. Qed.

Lemma elem_of_declared_in c ds a t : (a, t) ∈ declared_in c ds ↔ (c, a, t) ∈ ds.
Proof.
  unfold declared_in. rewrite list_elem_of_omap. split.
  - intros ([[c' a'] t'] & Hd & H). simpl in H. case_decide; [|done]. by injection H as -> ->; subst.
  - intros Hd. exists (c, a, t). split; [done|]. simpl. by rewrite decide_True.
Qed.

Lemma declare_app m ds1 ds2 : declare m (ds1 ++ ds2) = declare (declare m ds1) ds2.
Proof. apply fold_left_app. Qed.

Lemma alias_target_add m c a t c' a' :
  bzlmod_cell_alias_target (add_bzlmod_cell_alias m c a t) c' a' =
  if decide (c = c' ∧ a = a') then Some t else bzlmod_cell_alias_target m c' a'.
Proof.
  unfold bzlmod_cell_alias_target, add_bzlmod_cell_alias. destruct (decide (c = c')) as [<-|Hc].
  - rewrite lookup_insert_eq. simpl. destruct (decide (a = a')) as [<-|Ha].
    + rewrite lookup_insert_eq. by rewrite decide_True.
    + rewrite lookup_insert_ne by done. rewrite decide_False by tauto. by destruct (m !! c).
  - rewrite lookup_insert_ne by done. by rewrite decide_False by tauto.
Qed.

Lemma alias_target_empty c a : bzlmod_cell_alias_target ∅ c a = None.
Proof. unfold bzlmod_cell_alias_target. by rewrite lookup_empty. Qed.

Lemma alias_target_declare m ds c a :
  bzlmod_cell_alias_target (declare m ds) c a =
  match last_target (declared_in c ds) a with
  | Some t => Some t
  | None => bzlmod_cell_alias_target m c a
  end.
Proof.
  revert m. induction ds as [|[[c' a'] t'] ds IH]; intros m; [done|].
  change (declare m (_ :: ds)) with (declare (add_bzlmod_cell_alias m c' a' t') ds). rewrite IH.
  rewrite alias_target_add. unfold declared_in at 2. cbn [omap list_omap fst snd].
  fold (declared_in c ds). destruct (decide (c' = c)) as [->|Hc]; cbn [last_target].
  - destruct (last_target (declared_in c ds) a); [done|]. destruct (decide (a' = a)) as [->|Ha].
    + by rewrite decide_True.
    + by rewrite decide_False by tauto.
  - destruct (last_target (declared_in c ds) a); [done|]. by rewrite decide_False by tauto.
Qed.

(** The last element that declares an alias decides it. *)
Lemma last_target_omap {A} (f : A → option (string * string)) l1 x l2 a t :
  f x = Some (a, t) → (∀ y u, y ∈ l2 → f y ≠ Some (a, u)) → last_target (omap f (l1 ++ x :: l2)) a = Some t.
Proof.
  intros Hx Hlater. rewrite omap_app, last_target_app. simpl. rewrite Hx. simpl.
  destruct (last_target (omap f l2) a) as [u|] eqn:Hu.
  - exfalso. apply last_target_elem, list_elem_of_omap in Hu as (y & Hy & Hf). by destruct (Hlater y u).
  - change (list_omap A _ f l2) with (omap f l2). rewrite Hu. by rewrite decide_True.
Qed.

(** * The graph *)

(** The repository of a selected module. *)
Definition module_cell (k : ModuleKey) : string := bzlmod_canonical_repo_name k.1 k.2 false.

Definition module_at (discovered : DiscoveredBcrModules) (k : ModuleKey) (m : DiscoveredBcrModule) : Prop :=
  btree_get discovered k = Some m.

(** What the graph takes from the steps before it. *)
Class Selection (discovered : DiscoveredBcrModules) (r : BzlmodSelectionResult) : Prop := {
  sel_wf : btree_wf discovered;
  sel_keyed k m : module_at discovered k m → dep_key (dm_dep m) = k;
  sel_sorted : sorted_keys (sr_selected_keys r);
  sel_found k : k ∈ sr_selected_keys r → ∃ m, module_at discovered k m;
  sel_one : one_version (sr_selected_keys r);
  sel_names k name : btree_get (sr_canonical_repo_names_by_key r) k = Some name ↔
    k ∈ sr_selected_keys r ∧ name = module_cell k;
  sel_bfs k : k ∈ sr_selected_keys_in_bfs_order r ↔ k ∈ sr_selected_keys r;
  sel_dependency k : k ∈ sr_selected_keys_in_dependency_order r ↔ k ∈ sr_selected_keys r;
}.

Lemma selection_of_Selection discovered sv root_deps r :
  btree_wf discovered → (∀ k m, module_at discovered k m → dep_key (dm_dep m) = k) →
  selection_of discovered sv root_deps r → Selection discovered r.
Proof.
  intros Hwf Hkeyed H. split.
  - done.
  - done.
  - apply H.
  - intros [n v] Hk%(so_best _ _ _ _ H). destruct (selected_discovered discovered sv Hwf (so_versions _ _ _ _ H) n v Hk) as [m Hm].
    by exists m.
  - intros n v v' H1%(so_best _ _ _ _ H) H2%(so_best _ _ _ _ H). congruence.
  - apply H.
  - apply H.
  - apply H.
Qed.

Section Graph.
Context (discovered : DiscoveredBcrModules) (r : BzlmodSelectionResult) `{HSel : !Selection discovered r}.
Context (root_deps : list BazelDep) (root_module : RootBzlmodModule).

Notation keys := (sr_selected_keys r).
Notation names := (sr_canonical_repo_names_by_key r).

Definition versions : BTreeMap string string := fold_left (λ m key, btree_insert m key.1 key.2) keys [].

Lemma fold_insert_pairs (l : list ModuleKey) (m : BTreeMap string string) :
  btree_wf m → one_version l → (∀ n v v', (n, v) ∈ l → btree_get m n = Some v' → v = v') →
  let m' := fold_left (λ m key, btree_insert m key.1 key.2) l m in
  btree_wf m' ∧ ∀ n v, btree_get m' n = Some v ↔ (n, v) ∈ l ∨ btree_get m n = Some v.
Proof.
  cbv zeta. revert m. induction l as [|[n0 v0] l IH]; intros m Hm Hone Hag; simpl.
  { split; [done|]. intros n v. rewrite elem_of_nil. tauto. }
  destruct (IH (btree_insert m n0 v0)) as [Hwf Hget].
  { by apply btree_insert_wf. }
  { intros n v v' H1 H2. apply (Hone n); by right. }
  { intros n v v' H1. destruct (decide (n = n0)) as [->|Hn].
    - rewrite btree_get_insert_eq by done. intros [= <-]. apply (Hone n0); [by right|by left].
    - rewrite btree_get_insert_ne by done. apply Hag. by right. }
  split; [done|]. intros n v. rewrite Hget, elem_of_cons. destruct (decide (n = n0)) as [->|Hn].
  - rewrite btree_get_insert_eq by done. split.
    + intros [?|[= ->]]; auto.
    + intros [[[= ->]|?]|H]; auto. right. f_equal. apply (Hag n0); [by left|done].
  - rewrite btree_get_insert_ne by done. split; [intros [?|?]; auto|].
    intros [[[= ? ?]|?]|?]; [done|auto|auto].
Qed.

Lemma versions_spec n v : btree_get versions n = Some v ↔ (n, v) ∈ keys.
Proof.
  destruct (fold_insert_pairs keys []) as [_ H]; [constructor|apply sel_one|done|].
  unfold versions. rewrite H. split; [by intros [?|?]|by left].
Qed.

Lemma canonical_repo_name_of k :
  k ∈ keys → bzlmod_selected_canonical_repo_name names k.1 k.2 = Done (module_cell k).
Proof.
  intros Hk. unfold bzlmod_selected_canonical_repo_name. rewrite <- surjective_pairing.
  by rewrite (proj2 (sel_names k (module_cell k))).
Qed.

Lemma module_repo_name k m :
  k ∈ keys → module_at discovered k m →
  bzlmod_selected_canonical_repo_name names (bd_name (dm_dep m)) (bd_version (dm_dep m)) = Done (module_cell k).
Proof.
  intros Hk Hm%sel_keyed. rewrite <- (canonical_repo_name_of k Hk). by subst k.
Qed.

(** What a dependency declares in a cell: its apparent name, for the selected version. *)
Definition dep_declaration (cell : string) (dep : BazelDep) : list declaration :=
  match bd_apparent_name dep, btree_get versions (bd_name dep) with
  | Some alias, Some version => [(cell, alias, module_cell (bd_name dep, version))]
  | _, _ => []
  end.

Definition module_dep_declaration (cell : string) (dep : BazelDep) : list declaration :=
  if decide (bd_name dep = rm_name root_module) then
    match bd_apparent_name dep with Some alias => [(cell, alias, "root")] | None => [] end
  else dep_declaration cell dep.

Definition root_visible (key : ModuleKey) : bool :=
  bset_contains (root_visible_keys root_deps versions) key.

Definition self_declarations (key : ModuleKey) (m : DiscoveredBcrModule) : list declaration :=
  let cell := module_cell key in
  (cell, cell, cell) ::
  (if root_visible key then map (λ alias, ("root", alias, cell)) (dm_module_aliases m) else []) ++
  (if decide (bd_name (dm_dep m) = "platforms") then [("root", "platforms", cell)] else []) ++
  flat_map (λ alias, [(cell, alias, cell); ("bazel_tools", alias, cell)]) (dm_module_aliases m).

Definition key_declarations (key : ModuleKey) : list declaration :=
  match btree_get discovered key with
  | None => []
  | Some m => self_declarations key m ++ flat_map (module_dep_declaration (module_cell key)) (dm_deps m)
  end.

Definition root_declarations : list declaration :=
  (if is_empty_str (rm_repo_name root_module) then [] else [("root", rm_repo_name root_module, "root")]) ++
  flat_map (dep_declaration "root") root_deps.

Definition graph_declarations : list declaration := root_declarations ++ flat_map key_declarations keys.

Lemma add_dep_cell_alias cell dep aliases :
  add_bzlmod_dep_cell_alias cell dep versions names aliases = Done (declare aliases (dep_declaration cell dep)).
Proof.
  unfold add_bzlmod_dep_cell_alias, dep_declaration.
  destruct (bd_apparent_name dep) as [alias|]; [|done].
  destruct (btree_get versions (bd_name dep)) as [v|] eqn:Hv; [|done].
  apply versions_spec in Hv. pose proof (canonical_repo_name_of _ Hv) as Hname. cbn [fst snd] in Hname.
  rewrite Hname. done.
Qed.

Lemma add_module_dep_done cell dep aliases :
  add_module_dep (rm_name root_module) cell versions names aliases dep =
  Done (declare aliases (module_dep_declaration cell dep)).
Proof.
  unfold add_module_dep, module_dep_declaration. case_decide.
  - by destruct (bd_apparent_name dep).
  - apply add_dep_cell_alias.
Qed.

Lemma fold_declare {A} (f : A → list declaration) l aliases :
  fold_left (λ aliases a, declare aliases (f a)) l aliases = declare aliases (flat_map f l).
Proof.
  revert aliases. induction l as [|a l IH]; intros aliases; simpl; [done|]. by rewrite IH, declare_app.
Qed.

Definition root_step (st : AliasState) (dep : BazelDep) : AliasState :=
  (add_bzlmod_dep_alias dep versions st.1, declare st.2 (dep_declaration "root" dep)).

Lemma fold_root_step st :
  (fold_left root_step root_deps st).2 = declare st.2 (flat_map (dep_declaration "root") root_deps).
Proof.
  rewrite <- fold_declare. revert st. induction root_deps as [|dep l IH]; intros st; simpl; [done|]. apply IH.
Qed.

Lemma add_module_aliases_declare key m st :
  (add_module_aliases (root_visible key) key m (module_cell key) st).2 =
  declare st.2 (self_declarations key m).
Proof.
  unfold add_module_aliases, self_declarations, bzlmod_cell_name. cbn [fst snd].
  assert (Hmod : ∀ l al, fold_left (λ aliases alias,
            add_bzlmod_cell_alias (add_bzlmod_cell_alias aliases (module_cell key) alias (module_cell key))
              "bazel_tools" alias (module_cell key)) l al =
          declare al (flat_map (λ alias, [(module_cell key, alias, module_cell key);
            ("bazel_tools", alias, module_cell key)]) l)).
  { intros l al. by rewrite <- fold_declare. }
  rewrite Hmod. change (?x :: ?a ++ ?b) with ([x] ++ a ++ b). rewrite !declare_app. f_equal.
  assert (Hvis : ∀ l (s : AliasState), (fold_left (λ st alias,
            (add_key_alias st.1 key alias, add_bzlmod_cell_alias st.2 "root" alias (module_cell key))) l s).2 =
          declare s.2 (map (λ alias, ("root", alias, module_cell key)) l)).
  { induction l as [|a l IH]; intros s; simpl; [done|]. by rewrite IH. }
  destruct (root_visible key); destruct (decide (bd_name (dm_dep m) = "platforms")); cbn [fst snd];
    rewrite ?Hvis; done.
Qed.

Definition key_step (st : AliasState) (key : ModuleKey) : AliasState :=
  match btree_get discovered key with
  | None => st
  | Some m => ((add_module_aliases (root_visible key) key m (module_cell key) st).1,
               declare st.2 (key_declarations key))
  end.

Lemma add_selected_module_done st key :
  key ∈ keys →
  add_selected_module (rm_name root_module) discovered (root_visible_keys root_deps versions) versions names
    st key = Done (key_step st key).
Proof.
  intros Hk. unfold add_selected_module, key_step, key_declarations.
  destruct (btree_get discovered key) as [m|] eqn:Hm; [|done].
  rewrite (module_repo_name key m Hk Hm). cbn [mbind gresult_bind].
  rewrite (try_fold_done _ (λ al dep, declare al (module_dep_declaration (bzlmod_cell_name (module_cell key)) dep)))
    by (intros; apply add_module_dep_done).
  rewrite fold_declare. fold (root_visible key). rewrite add_module_aliases_declare.
  cbn [mbind gresult_bind mret gresult_ret]. by rewrite declare_app.
Qed.

Lemma fold_key_step l st :
  (fold_left key_step l st).2 = declare st.2 (flat_map key_declarations l).
Proof.
  rewrite <- fold_declare. revert st. induction l as [|k l IH]; intros st; simpl; [done|]. rewrite IH. f_equal.
  unfold key_step, key_declarations. by destruct (btree_get discovered k).
Qed.

Definition graph_aliases : BzlmodCellAliases := declare ∅ graph_declarations.

Definition alias_state : AliasState :=
  fold_left key_step keys (fold_left root_step root_deps ([], root_self_alias root_module)).

Lemma alias_state_aliases : alias_state.2 = graph_aliases.
Proof.
  unfold alias_state, graph_aliases, graph_declarations, root_declarations.
  rewrite fold_key_step, fold_root_step, !declare_app. cbn [snd]. unfold root_self_alias.
  by destruct (is_empty_str (rm_repo_name root_module)).
Qed.

(** ** The names that a repository sees *)

(** What a dependency of a module stands for: the root, or the selected version. *)
Definition dep_target (dep : BazelDep) : option string :=
  if decide (bd_name dep = rm_name root_module) then Some "root"
  else (λ v, module_cell (bd_name dep, v)) <$> btree_get versions (bd_name dep).

Definition dep_mapping (dep : BazelDep) : option (string * string) :=
  alias ← bd_apparent_name dep; pair alias <$> dep_target dep.

(** The mapping of a module: itself, under its names, and its dependencies. *)
Definition module_mapping (key : ModuleKey) (m : DiscoveredBcrModule) : list (string * string) :=
  (module_cell key, module_cell key) :: map (λ alias, (alias, module_cell key)) (dm_module_aliases m) ++
  omap dep_mapping (dm_deps m).

Definition overridden_in_root (key : ModuleKey) : bool :=
  existsb (λ dep, bool_decide (bd_name dep = key.1) && is_empty_str (bd_version dep) &&
                  bool_decide (is_Some (bd_apparent_name dep))) root_deps.

(** What modules add to the mapping of the root: the names of those that it overrides, and
    [platforms]. *)
Definition module_names_in_root : list (string * string) :=
  flat_map (λ key,
    match btree_get discovered key with
    | None => []
    | Some m =>
        (if overridden_in_root key then map (λ alias, (alias, module_cell key)) (dm_module_aliases m) else []) ++
        (if decide (key.1 = "platforms") then [("platforms", module_cell key)] else [])
    end) keys.

(** The mapping of the root: itself, its dependencies, and what modules add. *)
Definition root_mapping : list (string * string) :=
  (if is_empty_str (rm_repo_name root_module) then [] else [(rm_repo_name root_module, "root")]) ++
  omap (λ dep, alias ← bd_apparent_name dep;
          (λ v, (alias, module_cell (bd_name dep, v))) <$> btree_get versions (bd_name dep)) root_deps ++
  module_names_in_root.

Lemma module_cell_not_root k : module_cell k ≠ "root".
Proof.
  unfold module_cell, bzlmod_canonical_repo_name. repeat case_decide; [done|done|].
  intros Heq. assert (Hf : str_forall (not_char "+") (k.1 +:+ "+") = true) by (by rewrite Heq).
  rewrite str_forall_app in Hf. simpl in Hf. by rewrite andb_false_r in Hf.
Qed.

Lemma module_cell_inj k k' : k ∈ keys → k' ∈ keys → module_cell k = module_cell k' → k = k'.
Proof.
  destruct k as [n v], k' as [n' v']. intros Hk Hk' Heq.
  assert (n = n') as <- by (by apply (canonical_name_inj n v n' v')). f_equal.
  by eapply (sel_one (discovered := discovered) (r := r) n).
Qed.

Lemma declared_in_dep c cell dep :
  declared_in c (dep_declaration cell dep) =
  if decide (cell = c) then
    option_list (alias ← bd_apparent_name dep;
      (λ v, (alias, module_cell (bd_name dep, v))) <$> btree_get versions (bd_name dep))
  else [].
Proof.
  unfold dep_declaration. destruct (bd_apparent_name dep), (btree_get versions (bd_name dep)); simpl;
    by case_decide.
Qed.

Lemma declared_in_module_dep c cell dep :
  declared_in c (module_dep_declaration cell dep) =
  if decide (cell = c) then option_list (dep_mapping dep) else [].
Proof.
  unfold module_dep_declaration, dep_mapping, dep_target. case_decide as Hr.
  - destruct (bd_apparent_name dep); simpl; by case_decide.
  - rewrite declared_in_dep. case_decide; [|done]. destruct (bd_apparent_name dep); simpl; [|done].
    by destruct (btree_get versions (bd_name dep)).
Qed.

Lemma flat_map_option_list {A B} (f : A → option B) l : flat_map (λ a, option_list (f a)) l = omap f l.
Proof. induction l as [|a l IH]; simpl; [done|]. rewrite IH. by destruct (f a). Qed.

Lemma flat_map_nil {A B} (f : A → list B) l : (∀ a, a ∈ l → f a = []) → flat_map f l = [].
Proof.
  induction l as [|a l IH]; intros Hf; simpl; [done|]. rewrite Hf by (by left). apply IH.
  intros b Hb. apply Hf. by right.
Qed.

Lemma flat_map_ext_in {A B} (f g : A → list B) l : (∀ a, a ∈ l → f a = g a) → flat_map f l = flat_map g l.
Proof.
  induction l as [|a l IH]; intros Hf; simpl; [done|]. rewrite Hf by (by left). f_equal. apply IH.
  intros b Hb. apply Hf. by right.
Qed.

Lemma declared_in_map c cell (t : string) l :
  declared_in c (map (λ alias, (cell, alias, t)) l) = if decide (cell = c) then map (λ alias, (alias, t)) l else [].
Proof.
  induction l as [|a l IH]; simpl; [by case_decide|]. unfold declared_in in *. simpl. rewrite IH. by case_decide.
Qed.

Lemma root_visible_spec k : k ∈ keys → root_visible k = overridden_in_root k.
Proof.
  intros Hk. unfold root_visible, overridden_in_root, root_visible_keys.
  set (f := λ keys dep, match bd_apparent_name dep, btree_get versions (bd_name dep) with
    | Some _, Some version =>
        if is_empty_str (bd_version dep) then bset_insert keys (bd_name dep, version) else keys
    | _, _ => keys end).
  assert (H : ∀ l s, sorted_keys s → sorted_keys (fold_left f l s) ∧
    ∀ k, k ∈ keys → k ∈ fold_left f l s ↔ k ∈ s ∨ existsb (λ dep, bool_decide (bd_name dep = k.1) &&
      is_empty_str (bd_version dep) && bool_decide (is_Some (bd_apparent_name dep))) l = true).
  { clear k Hk. induction l as [|dep l IH]; intros s Hs; simpl.
    { split; [done|]. intros k _. split; [by left|by intros [?|?]]. }
    destruct (IH (f s dep)) as [Hsort Hin].
    { unfold f. repeat case_match; try done. by apply bset_insert_sorted. }
    split; [done|]. intros [n v] Hk. rewrite (Hin _ Hk), orb_true_iff, !andb_true_iff, !bool_decide_eq_true. cbn [fst].
    rewrite <- Logic.or_assoc. apply or_iff_compat_r. unfold f.
    destruct (bd_apparent_name dep) as [a|].
    2:{ split; [by left|]. intros [?|[_ [? ?]]]; done. }
    destruct (btree_get versions (bd_name dep)) as [v'|] eqn:Hv.
    2:{ split; [by left|]. intros [?|[[Hn _] _]]; [done|]. rewrite Hn in Hv.
        apply versions_spec in Hk. congruence. }
    destruct (is_empty_str (bd_version dep)).
    - rewrite elem_of_bset_insert. split.
      + intros [[= -> ->]|?]; [right|by left]. split; [done|by eexists].
      + intros [?|[[<- _] _]]; [by right|left]. apply versions_spec in Hk. congruence.
    - split; [by left|]. intros [?|[[_ ?] _]]; done. }
  destruct (H root_deps [] ltac:(constructor)) as [Hsort Hin].
  apply eq_true_iff_eq. rewrite bset_contains_spec by done. rewrite (Hin k Hk).
  split; [by intros [?%elem_of_nil|?]|by right].
Qed.

Lemma declared_in_single c cell a t :
  declared_in c [(cell, a, t)] = if decide (cell = c) then [(a, t)] else [].
Proof. unfold declared_in. simpl. by case_decide. Qed.

Lemma declared_in_aliases c cell l :
  c ≠ "bazel_tools" →
  declared_in c (flat_map (λ alias, [(cell, alias, cell); ("bazel_tools", alias, cell)]) l) =
  if decide (cell = c) then map (λ alias, (alias, cell)) l else [].
Proof.
  intros Hc. induction l as [|a l IH]; [simpl; by case_decide|].
  change (flat_map ?f (a :: l)) with ([(cell, a, cell)] ++ [("bazel_tools", a, cell)] ++ flat_map f l).
  rewrite !declared_in_app, IH, !declared_in_single. rewrite (decide_False (P := "bazel_tools" = c)) by congruence.
  by case_decide.
Qed.

Lemma declared_in_nothing {A} c (f : A → list declaration) l :
  (∀ a, declared_in c (f a) = []) → declared_in c (flat_map f l) = [].
Proof. intros H. rewrite declared_in_flat_map. by apply flat_map_nil. Qed.

Lemma declared_in_deps c cell l :
  declared_in c (flat_map (module_dep_declaration cell) l) =
  if decide (cell = c) then omap dep_mapping l else [].
Proof.
  rewrite declared_in_flat_map, <- flat_map_option_list. case_decide as Hc.
  - apply flat_map_ext_in. intros dep _. rewrite declared_in_module_dep. by rewrite decide_True.
  - apply flat_map_nil. intros dep _. rewrite declared_in_module_dep. by rewrite decide_False.
Qed.

(** The declarations of a module for cells other than [bazel_tools]. *)
Lemma declared_in_key c k m :
  module_at discovered k m → c ≠ "bazel_tools" →
  declared_in c (key_declarations k) =
  if decide (module_cell k = c) then module_mapping k m
  else if decide (c = "root") then
    (if root_visible k then map (λ alias, (alias, module_cell k)) (dm_module_aliases m) else []) ++
    (if decide (k.1 = "platforms") then [("platforms", module_cell k)] else [])
  else [].
Proof.
  intros Hm Hc. unfold key_declarations, self_declarations. rewrite Hm.
  assert (Hname : bd_name (dm_dep m) = k.1) by (by rewrite <- (sel_keyed k m Hm)). rewrite Hname.
  change (?x :: ?b) with ([x] ++ b) at 1.
  rewrite !declared_in_app, declared_in_aliases, declared_in_deps, declared_in_single by done.
  assert (Hvis : declared_in c (if root_visible k then map (λ alias, ("root", alias, module_cell k)) (dm_module_aliases m) else []) =
    if decide ("root" = c) then if root_visible k then map (λ alias, (alias, module_cell k)) (dm_module_aliases m) else [] else []).
  { destruct (root_visible k); [apply declared_in_map|by case_decide]. }
  assert (Hplat : declared_in c (if decide (k.1 = "platforms") then [("root", "platforms", module_cell k)] else []) =
    if decide ("root" = c) then if decide (k.1 = "platforms") then [("platforms", module_cell k)] else [] else []).
  { destruct (decide (k.1 = "platforms")); [apply declared_in_single|by case_decide]. }
  rewrite Hvis, Hplat. unfold module_mapping. destruct (decide (module_cell k = c)) as [<-|Hk].
  - rewrite !(decide_False (P := "root" = _)) by (intros Heq; by eapply module_cell_not_root).
    done.
  - destruct (decide (c = "root")) as [->|Hr].
    + rewrite !(decide_True (P := "root" = "root")) by done. by rewrite !app_nil_r.
    + rewrite !(decide_False (P := "root" = c)) by congruence. done.
Qed.

Lemma declared_in_root_declarations c : c ≠ "root" → declared_in c root_declarations = [].
Proof.
  intros Hc. unfold root_declarations. rewrite declared_in_app.
  rewrite (declared_in_nothing c (dep_declaration "root")).
  2:{ intros dep. rewrite declared_in_dep. by rewrite decide_False by congruence. }
  destruct (is_empty_str (rm_repo_name root_module)); [done|].
  rewrite declared_in_single. by rewrite decide_False by congruence.
Qed.

Lemma flat_map_one {A B} (f : A → list B) l k :
  NoDup l → k ∈ l → (∀ k', k' ∈ l → k' ≠ k → f k' = []) → flat_map f l = f k.
Proof.
  intros Hnd Hk Hf. induction l as [|k0 l IH]; [by apply elem_of_nil in Hk|]. simpl.
  apply NoDup_cons in Hnd as [Hnotin Hnd]. apply elem_of_cons in Hk as [<-|Hk].
  - rewrite flat_map_nil; [by rewrite app_nil_r|]. intros k' Hk'. apply Hf; [by right|].
    by intros ->.
  - rewrite (Hf k0) by (by left || (intros ->; done)). apply IH; [done..|]. intros k' Hk'. apply Hf. by right.
Qed.

Lemma module_declarations k m :
  k ∈ keys → module_at discovered k m → module_cell k ≠ "bazel_tools" →
  declared_in (module_cell k) graph_declarations = module_mapping k m.
Proof.
  intros Hk Hm Hc. unfold graph_declarations.
  rewrite declared_in_app, declared_in_root_declarations by apply module_cell_not_root. simpl.
  rewrite declared_in_flat_map, (flat_map_one _ _ k); [|apply sorted_keys_NoDup, sel_sorted|done|].
  - rewrite (declared_in_key _ k m) by done. by rewrite decide_True.
  - intros k' Hk' Hne. destruct (sel_found k' Hk') as [m' Hm']. rewrite (declared_in_key _ k' m') by done.
    rewrite decide_False by (intros Heq; apply Hne; by apply module_cell_inj).
    rewrite decide_False by apply module_cell_not_root. done.
Qed.

Lemma root_declarations_mapping : declared_in "root" graph_declarations = root_mapping.
Proof.
  unfold graph_declarations, root_declarations, root_mapping. rewrite !declared_in_app, <- !app_assoc.
  f_equal; [destruct (is_empty_str (rm_repo_name root_module)); [done|by rewrite declared_in_single]|]. f_equal.
  - rewrite declared_in_flat_map, <- flat_map_option_list. apply flat_map_ext_in. intros dep _.
    rewrite declared_in_dep. by rewrite decide_True.
  - rewrite declared_in_flat_map. apply flat_map_ext_in. intros k Hk.
    destruct (sel_found k Hk) as [m Hm]. rewrite (declared_in_key _ k m) by done.
    rewrite decide_False by apply module_cell_not_root. rewrite decide_True by done.
    unfold module_at in Hm. rewrite Hm. by rewrite root_visible_spec.
Qed.

(** A repository that the resolution knows before any is generated. *)
Definition module_repo (c : string) : Prop := c = "root" ∨ ∃ k, k ∈ keys ∧ c = module_cell k.

Lemma dep_declaration_known cell dep c a t :
  (c, a, t) ∈ dep_declaration cell dep → module_repo t ∧ c = cell.
Proof.
  unfold dep_declaration. destruct (bd_apparent_name dep); [|by intros ?%elem_of_nil].
  destruct (btree_get versions (bd_name dep)) as [v|] eqn:Hv; [|by intros ?%elem_of_nil].
  apply versions_spec in Hv. intros [= -> -> ->]%list_elem_of_singleton. split; [|done]. right. by eexists.
Qed.

Lemma graph_declarations_known c a t :
  (c, a, t) ∈ graph_declarations → module_repo t ∧ (module_repo c ∨ c = "bazel_tools").
Proof.
  assert (Hroot : module_repo "root") by (by left).
  unfold graph_declarations, root_declarations. rewrite !elem_of_app, !list_elem_of_In, !in_flat_map.
  intros [[H|(dep & _ & H)]|(k & Hk & H)].
  - destruct (is_empty_str (rm_repo_name root_module)); [done|]. destruct H as [[= <- <- <-]|[]]. auto.
  - apply list_elem_of_In, dep_declaration_known in H as [? ->]. auto.
  - apply list_elem_of_In in Hk. destruct (sel_found k Hk) as [m Hm]. unfold key_declarations in H.
    rewrite Hm in H.
    assert (Hcell : module_repo (module_cell k)) by (right; by eexists).
    apply in_app_iff in H as [H|H].
    + unfold self_declarations in H. change (?x :: ?b) with ([x] ++ b) in H. rewrite !in_app_iff in H.
      destruct H as [[[= <- <- <-]|[]]|[H|[H|H]]]; [by auto| | |].
      * destruct (root_visible k); [|done]. apply in_map_iff in H as (? & [= <- <- <-] & _). auto.
      * case_decide; [|done]. destruct H as [[= <- <- <-]|[]]. auto.
      * apply in_flat_map in H as (? & _ & [[= <- <- <-]|[[= <- <- <-]|[]]]); auto.
    + apply in_flat_map in H as (dep & _ & H). unfold module_dep_declaration in H. case_decide.
      * destruct (bd_apparent_name dep); [|done]. destruct H as [[= <- <- <-]|[]]. auto.
      * apply list_elem_of_In, dep_declaration_known in H as [? ->]. auto.
Qed.
End Graph.
