(* ===== verification/ModNames.v ===== *)
(** The unique names of module extensions ([ModGraph.bzlmod_extension_unique_names]) and the names of
    the repositories that extensions generate. *)
From stdpp Require Import gmap.
From S2P Require Import Prelude.
From S2P Require Import RustStr.
From S2P Require Import RustStrSpec.
From S2P Require Import RustOrd.
From S2P Require Import ModVersion.
From S2P Require Import ModSelect.
From S2P Require Import ModSelectSpec.
From S2P Require Import ModGraph.
From S2P Require Import ModGraphSpec.
Local Open Scope dice_scope.
Local Open Scope string_scope.
Local Open Scope nat_scope.
Local Open Scope list_scope.

(** * Candidates *)

Lemma str_app_inj_l (c s t : string) : c +:+ s = c +:+ t → s = t.
Proof. induction c as [|a c IH]; simpl; [done|]. intros [= H]. by apply IH. Qed.

Lemma number_to_string_inj n m : number_to_string n = number_to_string m → n = m.
Proof.
  intros H. pose proof (parse_number_to_string (N.max n m) n ltac:(lia)) as Hn.
  pose proof (parse_number_to_string (N.max n m) m ltac:(lia)) as Hm. rewrite H in Hn. congruence.
Qed.

Lemma number_to_string_nonempty n : number_to_string n ≠ "".
Proof. by destruct (number_to_string_digits n) as [? _]. Qed.

Lemma extension_candidate_inj repo ext a b :
  extension_candidate repo ext a = extension_candidate repo ext b → a = b.
Proof.
  unfold extension_candidate. intros H%str_app_inj_l%str_app_inj_l%str_app_inj_l.
  destruct (a =? 1)%N eqn:Ea, (b =? 1)%N eqn:Eb; rewrite ?N.eqb_eq in *; [congruence|..].
  - symmetry in H. by apply number_to_string_nonempty in H.
  - by apply number_to_string_nonempty in H.
  - by apply number_to_string_inj.
Qed.

Lemma unused_candidate_spec fuel used repo ext attempt :
  sorted_keys used →
  match unused_candidate fuel used repo ext attempt with
  | Done c => c ∉ used ∧ ∃ a, c = extension_candidate repo ext a ∧ (attempt <= a)%N ∧
      ∀ b, (attempt <= b < a)%N → extension_candidate repo ext b ∈ used
  | OutOfFuel => ∀ i, i < fuel → extension_candidate repo ext (attempt + N.of_nat i) ∈ used
  | _ => False
  end.
Proof.
  intros Hused. revert attempt. induction fuel as [|fuel IH]; intros attempt; simpl; [intros; lia|].
  destruct (bset_contains used (extension_candidate repo ext attempt)) eqn:Hc.
  - apply bset_contains_spec in Hc; [|done]. specialize (IH (attempt + 1)%N).
    destruct (unused_candidate fuel used repo ext (attempt + 1)); [|done|done|].
    + destruct IH as (Hn & a' & -> & Ha & Hb). split; [done|]. exists a'. split_and!; [done|lia|].
      intros b Hb'. destruct (decide (b = attempt)) as [->|]; [done|]. apply Hb. lia.
    + intros [|i] Hi; [by rewrite N.add_0_r|].
      replace (attempt + N.of_nat (S i))%N with (attempt + 1 + N.of_nat i)%N by lia. apply IH. lia.
  - apply bset_contains_false in Hc; [|done]. split; [done|]. exists attempt.
    split_and!; [done|lia|intros; lia].
Qed.

(** One attempt more than there are names is enough. *)
Lemma unused_candidate_done used repo ext attempt :
  sorted_keys used →
  ∃ c a, unused_candidate (S (length used)) used repo ext attempt = Done c ∧ c ∉ used ∧
    c = extension_candidate repo ext a ∧ (attempt <= a)%N ∧
    ∀ b, (attempt <= b < a)%N → extension_candidate repo ext b ∈ used.
Proof.
  intros Hused. pose proof (unused_candidate_spec (S (length used)) used repo ext attempt Hused) as H.
  destruct (unused_candidate _ used repo ext attempt) as [c|e| |]; [|done|done|].
  - destruct H as (Hn & a & Ha). by exists c, a.
  - exfalso. set (l := map (λ i, extension_candidate repo ext (attempt + N.of_nat i)) (seq 0 (S (length used)))).
    assert (Hnd : NoDup l).
    { apply NoDup_fmap_2_strong; [|apply NoDup_seq]. intros i j _ _ Heq%extension_candidate_inj. lia. }
    assert (Hsub : l ⊆+ used).
    { apply NoDup_submseteq; [done|]. intros x (i & -> & Hi)%list_elem_of_fmap. apply elem_of_seq in Hi.
      apply H. lia. }
    apply submseteq_length in Hsub. unfold l in Hsub. rewrite length_map, length_seq in Hsub. lia.
Qed.

(** * Repositories *)

Lemma app_plus_suffix s t q :
  s +:+ "+" = t +:+ q → q = "" ∨ ∃ q', q = q' +:+ "+".
Proof.
  revert s. induction t as [|b t IH]; intros s H; simpl in H; [right; by exists s|].
  destruct s as [|a s]; simpl in H; injection H as _ H.
  - left. by destruct t.
  - by apply (IH s).
Qed.

Lemma no_plus_app s q : str_forall (not_char "+") (s +:+ "+" +:+ q) = false.
Proof. rewrite str_forall_app. simpl. by rewrite andb_false_r. Qed.

Lemma last_plus_inj s1 s2 q1 q2 :
  str_forall (not_char "+") q1 = true → str_forall (not_char "+") q2 = true →
  s1 +:+ "+" +:+ q1 = s2 +:+ "+" +:+ q2 → s1 = s2 ∧ q1 = q2.
Proof.
  intros H1 H2. revert s2. induction s1 as [|a s1 IH]; intros [|b s2] H; simpl in H.
  - injection H as ->. done.
  - injection H as _ ->. change (String "+" q2) with ("+" +:+ q2) in H1. by rewrite no_plus_app in H1.
  - injection H as _ <-. change (String "+" q1) with ("+" +:+ q1) in H2. by rewrite no_plus_app in H2.
  - injection H as -> H. destruct (IH s2 H) as [-> ->]. done.
Qed.

(** A generated repository is not the repository of a module. *)
Lemma generated_not_module unique q k :
  str_forall (not_char "+") q = true → q ≠ "" →
  bzlmod_extension_unique_repo_canonical_repo_name unique q ≠ module_cell k.
Proof.
  intros Hq Hne. unfold bzlmod_extension_unique_repo_canonical_repo_name, module_cell, bzlmod_canonical_repo_name.
  intros H. assert (Hplus : ∀ s, str_forall (not_char "+") s = true → unique +:+ "+" +:+ q ≠ s).
  { intros s Hs <-. by rewrite no_plus_app in Hs. }
  repeat case_decide; [by eapply Hplus; [|exact H]|by eapply Hplus; [|exact H]|].
  rewrite <- str_app_assoc in H. symmetry in H. apply app_plus_suffix in H as [->|[q' ->]]; [done|].
  rewrite str_forall_app in Hq. simpl in Hq. by rewrite andb_false_r in Hq.
Qed.

(** * The loops over usages *)

Section Names.
Context (discovered : DiscoveredBcrModules) (r : BzlmodSelectionResult) `{HSel : !Selection discovered r}.
Context (root_module : RootBzlmodModule).

Notation keys := (sr_selected_keys r).
Notation names := (sr_canonical_repo_names_by_key r).

Definition module_usages (k : ModuleKey) : list (string * BzlmodExtensionUsage) :=
  match btree_get discovered k with
  | Some m => map (pair (module_cell k)) (dm_extension_usages m)
  | None => []
  end.

(** The usages of the root and the selected modules, each with its cell. *)
Definition usages : list (string * BzlmodExtensionUsage) :=
  map (pair "root") (rm_extension_usages root_module) ++ flat_map module_usages keys.

Lemma try_fold_app {A S} (f : S → A → gresult S) s l1 l2 :
  try_fold f s (l1 ++ l2) = (try_fold f s l1 ≫= λ s, try_fold f s l2).
Proof. revert s. induction l1 as [|a l1 IH]; intros s; simpl; [done|]. by destruct (f s a); simpl. Qed.

Lemma try_fold_map {A B S} (f : S → B → gresult S) (g : A → B) s l :
  try_fold f s (map g l) = try_fold (λ s a, f s (g a)) s l.
Proof. revert s. induction l as [|a l IH]; intros s; simpl; [done|]. destruct (f s (g a)); simpl; auto. Qed.

Lemma fold_usages_eq {S} (f : string → S → BzlmodExtensionUsage → gresult S) l s :
  (∀ k, k ∈ l → k ∈ keys) →
  fold_usages discovered names f l s = try_fold (λ s cu, f cu.1 s cu.2) s (flat_map module_usages l).
Proof.
  revert s. induction l as [|k l IH]; intros s Hl; [done|].
  cbn [flat_map]. rewrite try_fold_app. unfold fold_usages. cbn [try_fold].
  assert (Hstep : match btree_get discovered k with
      | Some m => canonical_repo_name ← bzlmod_selected_canonical_repo_name names (bd_name (dm_dep m)) (bd_version (dm_dep m));
          try_fold (f (bzlmod_cell_name canonical_repo_name)) s (dm_extension_usages m)
      | None => mret s end = try_fold (λ s cu, f cu.1 s cu.2) s (module_usages k)).
  { unfold module_usages. destruct (btree_get discovered k) as [m|] eqn:Hm; [|done].
    rewrite (module_repo_name discovered r k m) by (done || apply Hl; by left).
    cbn [mbind gresult_bind]. by rewrite try_fold_map. }
  rewrite Hstep. destruct (try_fold _ s (module_usages k)); cbn [mbind gresult_bind]; [|done..].
  apply IH. intros k' Hk'. apply Hl. by right.
Qed.

Lemma all_usages_eq {S} (f : string → S → BzlmodExtensionUsage → gresult S) s :
  (s ← try_fold (f "root") s (rm_extension_usages root_module); fold_usages discovered names f keys s) =
  try_fold (λ s cu, f cu.1 s cu.2) s usages.
Proof.
  unfold usages. rewrite try_fold_app, try_fold_map.
  cbn [fst snd]. destruct (try_fold _ s (rm_extension_usages root_module)); cbn [mbind gresult_bind]; [|done..].
  by apply fold_usages_eq.
Qed.

(** * Unique names *)

Definition label_error (e : GraphError) : Prop :=
  match e with
  | NotAbsoluteLabel _ | LabelUnknownRepo _ _ _ | EmptyTarget _ | NotModuleLabel _ => True
  | _ => False
  end.

Lemma label_path_spec label s :
  gspec (bzlmod_label_package_target_to_path label s) (λ _, True) label_error.
Proof. unfold bzlmod_label_package_target_to_path. by repeat case_match. Qed.

Lemma resolve_label_spec cell label aliases :
  gspec (bzlmod_resolve_extension_bzl_label cell label aliases) (λ _, True) label_error.
Proof.
  assert (Hpath : ∀ c s, gspec (path ← bzlmod_label_package_target_to_path label s; mret (c, path) : gresult (string * string))
            (λ _, True) label_error).
  { intros c s. eapply gspec_bind; [apply label_path_spec|done]. }
  unfold bzlmod_resolve_extension_bzl_label.
  destruct (strip_prefix "@@" label) as [rest|].
  { destruct (split_once_str "//" rest) as [[repo s]|]; [apply Hpath|done]. }
  destruct (strip_prefix "@" label) as [rest|].
  { destruct (split_once_str "//" rest) as [[alias s]|]; [|done].
    eapply (gspec_bind _ _ (λ _, True)); [|intros c _; apply Hpath].
    case_decide; [done|]. by apply gspec_ok_or. }
  destruct (strip_prefix "//" label); [apply Hpath|].
  destruct (strip_prefix ":" label); [apply Hpath|done].
Qed.

Lemma resolve_extension_id_spec cell usage aliases :
  gspec (bzlmod_resolve_extension_id cell usage aliases) (λ _, True) label_error.
Proof.
  unfold bzlmod_resolve_extension_id. eapply gspec_bind; [apply resolve_label_spec|]. by intros [].
Qed.

(** The extensions that a module uses. *)
Definition used_extension (aliases : BzlmodCellAliases) (id : BzlmodExtensionId) : Prop :=
  ∃ cell usage, (cell, usage) ∈ usages ∧ bzlmod_resolve_extension_id cell usage aliases = Done id.

Lemma extension_ids_spec aliases :
  gspec (try_fold (λ ids cu, insert_extension_id cu.1 aliases ids cu.2) [] usages)
    (λ ids, sorted_keys ids ∧ ∀ id, id ∈ ids ↔ used_extension aliases id) label_error.
Proof.
  eapply gspec_mono.
  - apply (gspec_try_fold _ (λ l ids, sorted_keys ids ∧ ∀ id, id ∈ ids ↔
      ∃ cu, cu ∈ l ∧ bzlmod_resolve_extension_id cu.1 cu.2 aliases = Done id)).
    + split; [constructor|]. intros id. rewrite elem_of_nil. split; [done|].
      by intros (? & ?%elem_of_nil & _).
    + intros l1 [cell usage] l2 ids _ [Hs Hin]. unfold insert_extension_id. cbn [fst snd].
      pose proof (resolve_extension_id_spec cell usage aliases) as Hr.
      destruct (bzlmod_resolve_extension_id cell usage aliases) as [id0|e| |] eqn:Eid; [|exact Hr|done|done].
      cbn [mbind gresult_bind mret gresult_ret gspec]. split; [by apply bset_insert_sorted|].
      intros id. rewrite elem_of_bset_insert, Hin. split.
      * intros [->|(cu & Hcu & Hid)].
        -- exists (cell, usage). split; [|done]. apply elem_of_app. right. by left.
        -- exists cu. split; [|done]. apply elem_of_app. by left.
      * intros (cu & [Hcu| ->%list_elem_of_singleton]%elem_of_app & Hid); [right; by exists cu|left].
        simpl in Hid. congruence.
  - intros ids [Hs Hin]. split; [done|]. intros id. rewrite Hin. split.
    + intros ([cell usage] & ? & ?). by exists cell, usage.
    + intros (cell & usage & ? & ?). by exists (cell, usage).
  - done.
Qed.

(** What the map of unique names promises for the extensions [ids]. *)
Record unique_names_for (names_by_cell : BTreeMap string string) (ids : BzlmodExtensionId → Prop)
    (unique : BTreeMap BzlmodExtensionId string) : Prop := {
  un_domain id : is_Some (btree_get unique id) ↔ ids id;
  un_name id n : btree_get unique id = Some n →
    ∃ repo a, btree_get names_by_cell (xi_bzl_cell_name id) = Some repo ∧
      n = extension_candidate repo (xi_extension_name id) a;
  un_inj id1 id2 n : btree_get unique id1 = Some n → btree_get unique id2 = Some n → id1 = id2;
}.

Lemma assign_unique_names_spec names_by_cell ids :
  sorted_keys ids →
  gspec (try_fold (assign_unique_name names_by_cell) ([], []) ids)
    (λ st, unique_names_for names_by_cell (λ id, id ∈ ids) st.2) (λ e, ∃ id, id ∈ ids ∧ e = ExtensionUnknownCell id).
Proof.
  intros Hids. pose proof (sorted_keys_NoDup _ Hids) as Hnd. eapply gspec_mono.
  - apply (gspec_try_fold _ (λ l st, sorted_keys st.1 ∧ btree_wf st.2 ∧
      unique_names_for names_by_cell (λ id, id ∈ l) st.2 ∧ ∀ id n, btree_get st.2 id = Some n → n ∈ st.1)
      (λ e, ∃ id, id ∈ ids ∧ e = ExtensionUnknownCell id)).
    + split_and!; [constructor|constructor| |done]. split; [|done|done].
      intros id. rewrite elem_of_nil. split; [by intros []|done].
    + intros l1 id l2 [used unique] Hl (Hs & Hwf & [Hdom Hname Hinj] & Hused). cbn [fst snd] in *.
      unfold assign_unique_name. cbn [fst snd].
      destruct (btree_get names_by_cell (xi_bzl_cell_name id)) as [repo|] eqn:Hrepo;
        cbn [ok_or mbind gresult_bind].
      2:{ cbn [gspec]. exists id. split; [|done]. rewrite Hl. apply elem_of_app. right. by left. }
      destruct (unused_candidate_done used repo (xi_extension_name id) 1 Hs) as (c & a & Hc & Hn & Ha & _ & _).
      rewrite Hc. cbn [mbind gresult_bind mret gresult_ret gspec fst snd].
      assert (Hget : ∀ id', btree_get (btree_insert unique id c) id' =
                if decide (id' = id) then Some c else btree_get unique id').
      { intros id'. case_decide; [subst; by apply btree_get_insert_eq|by apply btree_get_insert_ne]. }
      split_and!; [by apply bset_insert_sorted|by apply btree_insert_wf| |].
      * split.
        -- intros id'. rewrite Hget, elem_of_app, list_elem_of_singleton. case_decide.
           ++ split; [by right|by eexists].
           ++ rewrite Hdom. split; [by left|by intros [?|?]].
        -- intros id' n. rewrite Hget. case_decide; [|apply Hname]. intros [= <-]. subst id'. by exists repo, a.
        -- intros id1 id2 n. rewrite !Hget. repeat case_decide; intros H1 H2; simplify_eq; try done.
           ++ by apply Hused in H2.
           ++ by apply Hused in H1.
           ++ by eapply Hinj.
      * intros id' n. rewrite Hget. rewrite elem_of_bset_insert. case_decide; [|right; by eapply Hused].
        intros [= <-]. by left.
  - by intros [used unique] (_ & _ & H & _).
  - done.
Qed.

Lemma extension_unique_names_spec aliases names_by_cell :
  gspec (bzlmod_extension_unique_names root_module discovered keys names aliases names_by_cell)
    (unique_names_for names_by_cell (used_extension aliases))
    (λ e, label_error e ∨ ∃ id, used_extension aliases id ∧ e = ExtensionUnknownCell id).
Proof.
  unfold bzlmod_extension_unique_names.
  pose proof (all_usages_eq (λ cell, insert_extension_id cell aliases) []) as Heq.
  destruct (try_fold (insert_extension_id "root" aliases) [] (rm_extension_usages root_module)) as [ids0|e| |];
    cbn [mbind gresult_bind] in *;
    [rewrite Heq|pose proof (extension_ids_spec aliases) as H; rewrite <- Heq in H; by try left..].
  eapply gspec_bind.
  { eapply gspec_mono; [apply extension_ids_spec|intros ids H; exact H|]. intros e He. by left. }
  intros ids [Hsorted Hin]. eapply gspec_bind.
  { eapply gspec_mono; [by apply assign_unique_names_spec|intros st H; exact H|].
    intros e (id & Hid%Hin & ->). right. by exists id. }
  intros st [Hdom Hname Hinj]. split; [|done|done]. intros id. by rewrite Hdom.
Qed.

(** ** Names of repositories by cell *)

Definition names_by_cell : BTreeMap string string :=
  fold_left (λ m k, btree_insert m (module_cell k) (module_cell k)) keys
    (btree_insert (btree_insert [] "bazel_tools" "bazel_tools") "root" (rm_canonical_repo_name root_module)).

Lemma names_by_cell_done :
  try_fold (names_by_cell_step names)
    (btree_insert (btree_insert [] "bazel_tools" "bazel_tools") "root" (rm_canonical_repo_name root_module)) keys =
  Done names_by_cell.
Proof.
  apply try_fold_done. intros m k Hk. unfold names_by_cell_step.
  by rewrite (proj2 (sel_names k (module_cell k))).
Qed.

Lemma fold_insert_cells l m :
  btree_wf m →
  let m' := fold_left (λ m (k : ModuleKey), btree_insert m (module_cell k) (module_cell k)) l m in
  btree_wf m' ∧ ∀ c, btree_get m' c =
    if decide (c ∈ map module_cell l) then Some c else btree_get m c.
Proof.
  cbv zeta. revert m. induction l as [|k l IH]; intros m Hm; [done|].
  destruct (IH (btree_insert m (module_cell k) (module_cell k))) as [Hwf Hget]; [by apply btree_insert_wf|].
  cbn [fold_left map]. split; [done|]. intros c. rewrite Hget. destruct (decide (c = module_cell k)) as [->|Hne].
  - rewrite btree_get_insert_eq by done. rewrite (decide_True (P := _ ∈ _ :: _)) by (by left). by case_decide.
  - rewrite btree_get_insert_ne by done. destruct (decide (c ∈ map module_cell l)).
    + by rewrite decide_True by (by right).
    + by rewrite decide_False by (intros [?|?]%elem_of_cons; done).
Qed.

(** The cells with a name: the root, [bazel_tools] and the selected modules. *)
Lemma names_by_cell_spec c :
  is_Some (btree_get names_by_cell c) ↔ module_repo r c ∨ c = "bazel_tools".
Proof.
  destruct (fold_insert_cells keys (btree_insert (btree_insert [] "bazel_tools" "bazel_tools") "root"
    (rm_canonical_repo_name root_module))) as [_ Hget]; [repeat apply btree_insert_wf; constructor|].
  unfold names_by_cell. rewrite Hget. unfold module_repo. destruct (decide (c ∈ map module_cell keys)) as [Hc|Hc].
  - split; [intros _|by eexists]. apply list_elem_of_fmap in Hc as (k & -> & Hk). left. right. by exists k.
  - rewrite btree_get_insert by (apply btree_insert_wf; constructor).
    destruct (rust_cmp c "root") eqn:Er.
    { apply cmp_eq in Er. split; [by left; left|by eexists]. }
    all: assert (c ≠ "root") by (intros ->; by rewrite cmp_refl in Er).
    all: rewrite btree_get_insert by constructor; destruct (rust_cmp c "bazel_tools") eqn:Eb;
      [apply cmp_eq in Eb; split; [by right|by eexists]|..].
    all: assert (c ≠ "bazel_tools") by (intros ->; by rewrite cmp_refl in Eb).
    all: split; [by intros [? ?]|].
    all: intros [[?|(k & Hk & ->)]|?]; [done| |done]; exfalso; apply Hc; apply list_elem_of_fmap; by exists k.
Qed.

(** ** Aliases while extensions are evaluated *)

(** What an import of a usage stands for: the repository that overrides it, or the one that the
    extension generates. *)
Definition import_target (aliases : BzlmodCellAliases) (unique : BTreeMap BzlmodExtensionId string)
    (cell alias target : string) : Prop :=
  ∃ usage import id n, (cell, usage) ∈ usages ∧ import ∈ eu_imports usage ∧ ui_alias import = alias ∧
    bzlmod_resolve_extension_id cell usage aliases = Done id ∧ btree_get unique id = Some n ∧
    (target = bzlmod_extension_unique_repo_canonical_repo_name n (ui_repo_name import) ∨
     ∃ o, o ∈ eu_repo_overrides usage ∧ ro_repo_name o = ui_repo_name import ∧
       bzlmod_cell_alias_target aliases cell (ro_overriding_repo_name o) = Some target).

Definition not_visible (e : GraphError) : Prop :=
  match e with OverrideNotVisible _ _ _ _ => True | _ => False end.

Lemma override_targets_spec usage cell aliases ext :
  gspec (bzlmod_extension_repo_override_targets usage cell aliases ext)
    (λ m, btree_wf m ∧ ∀ repo t, btree_get m repo = Some t → ∃ o, o ∈ eu_repo_overrides usage ∧ ro_repo_name o = repo ∧
      bzlmod_cell_alias_target aliases cell (ro_overriding_repo_name o) = Some t) not_visible.
Proof.
  unfold bzlmod_extension_repo_override_targets.
  apply (gspec_try_fold _ (λ l m, btree_wf m ∧ ∀ repo t, btree_get m repo = Some t → ∃ o, o ∈ l ∧
    ro_repo_name o = repo ∧ bzlmod_cell_alias_target aliases cell (ro_overriding_repo_name o) = Some t)).
  { split; [constructor|done]. }
  intros l1 o l2 m _ [Hwf Hm]. destruct (bzlmod_cell_alias_target aliases cell (ro_overriding_repo_name o)) as [t|] eqn:Ht;
    cbn [ok_or mbind gresult_bind mret gresult_ret gspec]; [|done].
  split; [by apply btree_insert_wf|]. intros repo t'. destruct (decide (repo = ro_repo_name o)) as [->|Hne].
  - rewrite btree_get_insert_eq by done. intros [= <-]. exists o. split; [|done]. apply elem_of_app. right. by left.
  - rewrite btree_get_insert_ne by done. intros (o' & Ho & H)%Hm. exists o'. split; [|done]. apply elem_of_app. by left.
Qed.

Lemma fold_import_declare (f : BzlmodUseRepoImport → string) cell l aliases :
  fold_left (λ aliases import, add_bzlmod_cell_alias aliases cell (ui_alias import) (f import)) l aliases =
  declare aliases (map (λ import, (cell, ui_alias import, f import)) l).
Proof. revert aliases. induction l as [|i l IH]; intros aliases; simpl; [done|]. apply IH. Qed.

Lemma eval_aliases_spec aliases unique :
  (∀ id, is_Some (btree_get unique id) ↔ used_extension aliases id) →
  (∀ cell usage, (cell, usage) ∈ usages → ∃ id, bzlmod_resolve_extension_id cell usage aliases = Done id) →
  gspec (bzlmod_extension_eval_cell_aliases_by_cell root_module discovered keys names aliases unique)
    (λ eval, ∃ ds, eval = declare aliases ds ∧
      (∀ c a t, (c, a, t) ∈ ds → import_target aliases unique c a t) ∧
      ∀ cell usage import, (cell, usage) ∈ usages → import ∈ eu_imports usage →
        ∃ t, (cell, ui_alias import, t) ∈ ds)
    not_visible.
Proof.
  intros Hunique Hresolve. unfold bzlmod_extension_eval_cell_aliases_by_cell.
  rewrite (all_usages_eq (add_bzlmod_extension_usage_eval_aliases aliases unique)).
  eapply gspec_mono; [apply (gspec_try_fold _ (λ l eval, ∃ ds, eval = declare aliases ds ∧
      (∀ c a t, (c, a, t) ∈ ds → import_target aliases unique c a t) ∧
      ∀ cell usage import, (cell, usage) ∈ l → import ∈ eu_imports usage → ∃ t, (cell, ui_alias import, t) ∈ ds)
    not_visible)|done|done].
  { exists []. split_and!; [done|by intros ? ? ? ?%elem_of_nil|by intros ? ? ? ?%elem_of_nil]. }
  intros l1 [cell usage] l2 eval Hl (ds & -> & Hds & Hall). cbn [fst snd].
  assert (Hu : (cell, usage) ∈ usages) by (rewrite Hl; apply elem_of_app; right; by left).
  destruct (Hresolve cell usage Hu) as [id Hid].
  destruct (proj2 (Hunique id)) as [n Hn]; [by exists cell, usage|].
  unfold add_bzlmod_extension_usage_eval_aliases, bzlmod_resolve_extension. rewrite Hid.
  cbn [mbind gresult_bind]. rewrite Hn. cbn [ok_or mbind gresult_bind mret gresult_ret].
  eapply gspec_bind; [apply override_targets_spec|]. intros m [_ Hm]. cbn [gspec].
  rewrite fold_import_declare, <- declare_app. eexists. split; [done|]. split.
  - intros c a t [H|H]%elem_of_app; [by apply Hds|].
    apply list_elem_of_fmap in H as (import & [= -> -> ->] & Himp). exists usage, import, id, n.
    split_and!; [done..|]. destruct (btree_get m (ui_repo_name import)) as [t|] eqn:Ht; simpl; [|by left].
    right. by apply Hm.
  - intros c u import [H|H]%elem_of_app Himp.
    + destruct (Hall c u import H Himp) as [t Ht]. exists t. apply elem_of_app. by left.
    + apply list_elem_of_singleton in H as [= -> ->]. eexists. apply elem_of_app. right.
      apply list_elem_of_fmap. by exists import.
Qed.
End Names.
