(* ===== verification/ModGraphCorrect.v ===== *)
(** The contract of [ModGraph.bzlmod_dep_graph_from_selection], and its unit tests. *)
From stdpp Require Import gmap.
From S2P Require Import Prelude.
From S2P Require Import RustStr.
From S2P Require Import RustStrSpec.
From S2P Require Import RustOrd.
From S2P Require Import ModVersion.
From S2P Require Import ModSelect.
From S2P Require Import ModDiscovery.
From S2P Require Import ModSelectSpec.
From S2P Require Import ModResolution.
From S2P Require Import ModGraph.
From S2P Require Import ModGraphSpec.
From S2P Require Import ModNames.
Local Open Scope dice_scope.
Local Open Scope string_scope.
Local Open Scope nat_scope.
Local Open Scope list_scope.

(** Every step of a loop that ends was made. *)
Lemma try_fold_steps {A S} (f : S → A → gresult S) s l s' a :
  try_fold f s l = Done s' → a ∈ l → ∃ s1 s2, f s1 a = Done s2.
Proof.
  revert s. induction l as [|b l IH]; intros s Hdone Ha; [by apply elem_of_nil in Ha|]. simpl in Hdone.
  destruct (f s b) as [s1| | |] eqn:Hb; try done. apply elem_of_cons in Ha as [->|Ha]; [by exists s, s1|].
  by eapply IH.
Qed.

Section Graph.
Context (discovered : DiscoveredBcrModules) (r : BzlmodSelectionResult) `{HSel : !Selection discovered r}.
Context (root_deps : list BazelDep) (root_module : RootBzlmodModule).

Notation keys := (sr_selected_keys r).
Notation names := (sr_canonical_repo_names_by_key r).
Notation graph_aliases := (graph_aliases discovered r root_deps root_module).
Notation usages := (usages discovered r root_module).

(** ** The aliases of the root by key *)

Definition keyed_aliases (m : BTreeMap ModuleKey (list string)) : Prop :=
  btree_wf m ∧ ∀ k, k ∈ btree_keys m → k ∈ keys.

Lemma add_key_alias_keyed m k a : keyed_aliases m → k ∈ keys → keyed_aliases (add_key_alias m k a).
Proof.
  intros [Hwf Hm] Hk. split; [by apply btree_insert_wf|].
  intros k' [->|Hk']%btree_insert_keys; [done|by apply Hm].
Qed.

Lemma fold_left_inv {A S} (f : S → A → S) (P : S → Prop) l s :
  P s → (∀ s a, a ∈ l → P s → P (f s a)) → P (fold_left f l s).
Proof.
  revert s. induction l as [|a l IH]; intros s Hs Hf; simpl; [done|]. apply IH; [apply Hf; [by left|done]|].
  intros s' a' Ha. apply Hf. by right.
Qed.

Lemma alias_state_keyed : keyed_aliases (alias_state discovered r root_deps root_module).1.
Proof.
  unfold alias_state. apply (fold_left_inv _ (λ st : AliasState, keyed_aliases st.1)).
  - apply (fold_left_inv _ (λ st : AliasState, keyed_aliases st.1)).
    + split; [constructor|]. by intros k ?%elem_of_nil.
    + intros [m al] dep _ Hm. cbn [fst root_step]. unfold add_bzlmod_dep_alias.
      destruct (bd_apparent_name dep); [|done]. destruct (btree_get (versions r) (bd_name dep)) as [v|] eqn:Hv; [|done].
      apply (versions_spec discovered r) in Hv. by apply add_key_alias_keyed.
  - intros [m al] k Hk Hm. unfold key_step. destruct (btree_get discovered k) as [dm|]; [|done].
    cbn [fst snd]. unfold add_module_aliases. cbn [fst snd].
    assert (Hvis : keyed_aliases (if root_visible r root_deps k then
              fold_left (λ (st : AliasState) alias, (add_key_alias st.1 k alias,
                add_bzlmod_cell_alias st.2 "root" alias (bzlmod_cell_name (module_cell k)))) (dm_module_aliases dm)
                (m, add_bzlmod_cell_alias al (bzlmod_cell_name (module_cell k)) (module_cell k) (bzlmod_cell_name (module_cell k)))
            else (m, add_bzlmod_cell_alias al (bzlmod_cell_name (module_cell k)) (module_cell k) (bzlmod_cell_name (module_cell k)))).1).
    { destruct (root_visible r root_deps k); [|done]. apply (fold_left_inv _ (λ st : AliasState, keyed_aliases st.1)); [done|].
      intros st a _ Hst. by apply add_key_alias_keyed. }
    case_decide; [by apply add_key_alias_keyed|done].
Qed.

(** ** The graph *)

Record graph_of (g : BzlmodDepGraph) : Prop := {
  go_root : dg_root_module g = root_module;
  go_discovered : dg_discovered g = discovered;
  go_keys : dg_selected_keys g = keys;
  go_bfs : dg_selected_keys_in_bfs_order g = sr_selected_keys_in_bfs_order r;
  go_dependency : dg_selected_keys_in_dependency_order g = sr_selected_keys_in_dependency_order r;
  go_names : dg_canonical_repo_names_by_key g = names;
  go_names_by_cell : dg_canonical_repo_names_by_cell g = names_by_cell r root_module;
  go_root_aliases : keyed_aliases (dg_root_aliases_by_key g);
  go_aliases : dg_cell_aliases_by_cell g = graph_aliases;
  go_resolved cell usage : (cell, usage) ∈ usages →
    ∃ id, bzlmod_resolve_extension_id cell usage graph_aliases = Done id;
  go_unique : unique_names_for (names_by_cell r root_module)
    (used_extension discovered r root_module graph_aliases) (dg_extension_unique_names g);
  go_eval : ∃ ds, dg_extension_eval_cell_aliases_by_cell g = declare graph_aliases ds ∧
    (∀ c a t, (c, a, t) ∈ ds →
      import_target discovered r root_module graph_aliases (dg_extension_unique_names g) c a t) ∧
    ∀ cell usage import, (cell, usage) ∈ usages → import ∈ eu_imports usage →
      ∃ t, (cell, ui_alias import, t) ∈ ds;
}.

(** The errors of the graph: labels of extensions that do not lead to a file of a known repository, and
    overrides by repositories that are not visible. *)
Definition graph_error (e : GraphError) : Prop :=
  label_error e ∨ (∃ id, e = ExtensionUnknownCell id) ∨ not_visible e.

Lemma dep_graph_spec :
  gspec (bzlmod_dep_graph_from_selection root_deps root_module discovered r) graph_of graph_error.
Proof.
  unfold bzlmod_dep_graph_from_selection. fold (versions r).
  rewrite (try_fold_done _ (root_step r)).
  2:{ intros st dep _. unfold add_root_dep, root_step. by rewrite (add_dep_cell_alias discovered r). }
  cbn [mbind gresult_bind].
  rewrite (try_fold_done _ (key_step discovered r root_deps root_module)).
  2:{ intros st k Hk. by apply add_selected_module_done. }
  cbn [mbind gresult_bind]. fold (alias_state discovered r root_deps root_module).
  rewrite (names_by_cell_done discovered r root_module). cbn [mbind gresult_bind].
  rewrite alias_state_aliases.
  pose proof (extension_unique_names_spec discovered r root_module graph_aliases (names_by_cell r root_module)) as Hu.
  pose proof (extension_ids_spec discovered r root_module graph_aliases) as Hids.
  assert (Hresolved : (∃ ids, try_fold (λ ids cu, insert_extension_id cu.1 graph_aliases ids cu.2) [] usages = Done ids) →
    ∀ cell usage, (cell, usage) ∈ usages → ∃ id, bzlmod_resolve_extension_id cell usage graph_aliases = Done id).
  { intros [ids Hdone] cell usage Hin. destruct (try_fold_steps _ _ _ _ _ Hdone Hin) as (s1 & s2 & Hstep).
    unfold insert_extension_id in Hstep. cbn [fst snd] in Hstep.
    destruct (bzlmod_resolve_extension_id cell usage graph_aliases) as [id| | |]; try done. by exists id. }
  destruct (bzlmod_extension_unique_names _ _ _ _ _ _) as [unique|e| |] eqn:Eu;
    cbn [gspec] in Hu; [| |done|done].
  2:{ cbn [mbind gresult_bind gspec]. destruct Hu as [?|(id & _ & ->)]; [by left|right; left; by exists id]. }
  assert (Hres : ∀ cell usage, (cell, usage) ∈ usages →
            ∃ id, bzlmod_resolve_extension_id cell usage graph_aliases = Done id).
  { apply Hresolved. unfold bzlmod_extension_unique_names in Eu.
    rewrite <- (all_usages_eq discovered r root_module (λ cell, insert_extension_id cell graph_aliases)).
    destruct (try_fold (insert_extension_id "root" graph_aliases) [] (rm_extension_usages root_module)); try done.
    cbn [mbind gresult_bind] in *.
    destruct (fold_usages _ _ (λ cell, insert_extension_id cell graph_aliases) keys _) as [ids| | |]; try done.
    by exists ids. }
  cbn [mbind gresult_bind gspec] in *.
  eapply gspec_bind.
  { eapply gspec_mono.
    - apply (eval_aliases_spec discovered r root_module graph_aliases unique); [|done].
      intros id. apply (un_domain _ _ _ Hu).
    - intros eval H. exact H.
    - intros e He. right. by right. }
  intros eval Heval. cbn [gspec]. by split; try apply alias_state_keyed.
Qed.

(** The names that a module and the root see. *)
Lemma module_target k m :
  k ∈ keys ∧ btree_get discovered k = Some m → module_cell k ≠ "bazel_tools" → ∀ a,
  bzlmod_cell_alias_target graph_aliases (module_cell k) a = last_target (module_mapping r root_module k m) a.
Proof.
  intros [Hk Hm] Hc a. unfold graph_aliases. rewrite alias_target_declare, alias_target_empty.
  rewrite (module_declarations _ _ _ _ k m) by done. by destruct (last_target _ a).
Qed.

Lemma root_target a :
  bzlmod_cell_alias_target graph_aliases "root" a = last_target (root_mapping discovered r root_deps root_module) a.
Proof.
  unfold graph_aliases. rewrite alias_target_declare, alias_target_empty, root_declarations_mapping by done.
  by destruct (last_target _ a).
Qed.
End Graph.

(** * After the resolution *)

Section Resolved.
Context {E : Type}.
Context (evaluate : ModuleKey → (BcrSourceJson * BzlmodEvaluatedModuleFile) + E).
Context (root_module : RootBzlmodModule) (overrides : Overrides) (universe : list ModuleKey) (fuel : nat).
Context (root_deps : list BazelDep) (builtin : DiscoveredBcrModule) (r : BzlmodSelectionResult).

(** The modules are resolved to [r], where finitely many are required. *)
Definition resolved : Prop :=
  (∀ k, required evaluate (rm_name root_module) overrides (root_deps ++ dm_deps builtin) k → k ∈ universe) ∧
  length universe ≤ fuel ∧
  bd_name (dm_dep builtin) = "bazel_tools" ∧
  bzlmod_resolution evaluate (rm_name root_module) overrides fuel root_deps builtin = Some (inl r).

Lemma resolved_Selection : resolved → Selection (sr_discovered r) r.
Proof.
  intros (Huniverse & Hfuel & Hname & Hres). unfold bzlmod_resolution in Hres.
  pose proof (discovery_spec evaluate (rm_name root_module) overrides universe fuel root_deps
    (dm_deps builtin) Huniverse Hfuel) as Hd.
  destruct (bzlmod_discovery _ _ _ fuel root_deps (dm_deps builtin)) as [[d|e]|]; [|done|done].
  destruct Hd as (Hwf & Hmod & Hall).
  pose proof (select_bzlmod_modules_spec root_deps builtin d Hwf) as Hs. cbv zeta in Hs.
  destruct (select_bzlmod_modules root_deps builtin d) as [[r'|e]|]; [|done|done].
  injection Hres as ->. destruct Hs as [sv Hs]. rewrite (so_discovered _ _ _ _ Hs).
  eapply selection_of_Selection; [by apply btree_insert_wf| |exact Hs].
  intros k m Hm. unfold module_at, with_builtin in Hm. rewrite btree_get_insert in Hm by done.
  destruct (rust_cmp k (dep_key (dm_dep builtin))) eqn:Ek.
  { apply cmp_eq in Ek. injection Hm as <-. done. }
  all: apply Hmod in Hm as [_ Hm]; unfold ModSelect.module_file in Hm;
    destruct (evaluate k) as [[src ev]|]; [|done]; injection Hm as <-; by destruct k.
Qed.

(** A dependency of the root or a selected module has a selected version, not below the required one. *)
Lemma resolved_dep dep :
  resolved →
  (dep ∈ root_deps ∨ ∃ k m, k ∈ sr_selected_keys r ∧ btree_get (sr_discovered r) k = Some m ∧ dep ∈ dm_deps m) →
  bd_name dep ≠ rm_name root_module →
  ∃ w, (bd_name dep, w) ∈ sr_selected_keys r ∧
    (overridden_version overrides dep = w ∨
     ∃ c, bzlmod_version_cmp (overridden_version overrides dep) w = inl c ∧ c ≠ Gt).
Proof.
  intros (Huniverse & Hfuel & Hname & Hres) Hdep Hne.
  pose proof (resolution_spec evaluate (rm_name root_module) overrides universe fuel root_deps builtin
    Huniverse Hfuel Hname) as H.
  rewrite Hres in H. destruct H as [_ H]. apply H.
  assert (Hreq : ∀ deps, dep ∈ deps →
    (bd_name dep, overridden_version overrides dep) ∈ required_keys (rm_name root_module) overrides deps).
  { intros deps Hin. apply list_elem_of_omap. exists dep. split; [done|]. unfold bzlmod_discovery_dep.
    by rewrite decide_False. }
  destruct Hdep as [Hin|(k & m & Hk & Hm & Hin)]; [left; by apply Hreq|right]. exists k, m. auto.
Qed.
End Resolved.

(** The selected version [w] meets the requirement [dep]: it is the version that is asked for, after
    overrides, or not below it. *)
Definition meets_dep (overrides : Overrides) (r : BzlmodSelectionResult) (dep : BazelDep) (w : string) : Prop :=
  (bd_name dep, w) ∈ sr_selected_keys r ∧
  (overridden_version overrides dep = w ∨
   ∃ c, bzlmod_version_cmp (overridden_version overrides dep) w = inl c ∧ c ≠ Gt).

(** The names of [deps] up to [dep]: [dep] is the last dependency under the apparent name [a]. *)
Definition last_dep_named (deps : list BazelDep) (dep : BazelDep) (a : string) : Prop :=
  ∃ l1 l2, deps = l1 ++ dep :: l2 ∧ bd_apparent_name dep = Some a ∧
    ∀ d, d ∈ l2 → bd_apparent_name d ≠ Some a.

Lemma last_dep_elem deps dep a : last_dep_named deps dep a → dep ∈ deps.
Proof. intros (l1 & l2 & -> & _). apply elem_of_app. right. by left. Qed.

(** The last dependency under a name decides the name, wherever the dependencies lead to. *)
Lemma last_dep_target (f : BazelDep → option (string * string)) deps dep a t :
  (∀ d b u, f d = Some (b, u) → bd_apparent_name d = Some b) →
  last_dep_named deps dep a → f dep = Some (a, t) → last_target (omap f deps) a = Some t.
Proof.
  intros Hname (l1 & l2 & -> & _ & Hlast) Ht. apply last_target_omap; [done|].
  intros d u Hd Hf. apply (Hlast d Hd). by eapply Hname.
Qed.

Lemma dep_mapping_name r root_module d b u :
  dep_mapping r root_module d = Some (b, u) → bd_apparent_name d = Some b.
Proof.
  unfold dep_mapping. destruct (bd_apparent_name d); [|done]. simpl.
  destruct (dep_target _ _ d); [|done]. by intros [= -> _].
Qed.

(** C9. Repository mappings.  For resolved modules the graph is built without a panic, or the error is one
    of a label of an extension or of an override by a repository that is not visible.  A selected module
    other than [bazel_tools] sees exactly the names that [module_mapping] declares, the last declaration of
    a name counting: itself under its own names, the root, and its dependencies under their apparent names;
    the root sees exactly those of [root_mapping]; and no alias leads to a repository that does not exist.
    Every dependency of the root or a selected module has a selected version that meets it.  In a module
    other than [bazel_tools] the apparent name of a dependency leads to that version, the last dependency
    under the name counting; so it does in the root, unless a module that the root overrides, or
    [platforms], takes the name. *)
Theorem repo_mappings_correct {E} (evaluate : ModuleKey → (BcrSourceJson * BzlmodEvaluatedModuleFile) + E)
    root_module overrides universe fuel root_deps builtin r :
  resolved evaluate root_module overrides universe fuel root_deps builtin r →
  match bzlmod_dep_graph_from_selection root_deps root_module (sr_discovered r) r with
  | Done g =>
      let target := bzlmod_cell_alias_target (dg_cell_aliases_by_cell g) in
      let selected k m := k ∈ sr_selected_keys r ∧ btree_get (sr_discovered r) k = Some m in
      (∀ k m, selected k m → module_cell k ≠ "bazel_tools" →
         ∀ a, target (module_cell k) a = last_target (module_mapping r root_module k m) a) ∧
      (∀ a, target "root" a = last_target (root_mapping (sr_discovered r) r root_deps root_module) a) ∧
      (∀ c a t, target c a = Some t → t = "root" ∨ ∃ k, k ∈ sr_selected_keys r ∧ t = module_cell k) ∧
      (∀ dep, dep ∈ root_deps ∨ (∃ k m, selected k m ∧ dep ∈ dm_deps m) →
         bd_name dep ≠ rm_name root_module → ∃ w, meets_dep overrides r dep w) ∧
      (∀ k m dep a, selected k m → module_cell k ≠ "bazel_tools" → last_dep_named (dm_deps m) dep a →
         if decide (bd_name dep = rm_name root_module) then target (module_cell k) a = Some "root"
         else ∃ w, target (module_cell k) a = Some (module_cell (bd_name dep, w)) ∧ meets_dep overrides r dep w) ∧
      (∀ dep a, last_dep_named root_deps dep a → bd_name dep ≠ rm_name root_module →
         a ∉ (module_names_in_root (sr_discovered r) r root_deps).*1 →
         ∃ w, target "root" a = Some (module_cell (bd_name dep, w)) ∧ meets_dep overrides r dep w)
  | Failed e => graph_error e
  | Panicked | OutOfFuel => False
  end.
Proof.
  intros Hres. pose proof (resolved_Selection _ _ _ _ _ _ _ _ Hres) as HSel.
  pose proof (dep_graph_spec (sr_discovered r) r root_deps root_module) as H.
  destruct (bzlmod_dep_graph_from_selection _ _ _ _) as [g|e| |]; [|exact H|done|done]. simpl in H.
  cbv zeta. rewrite (go_aliases _ _ _ _ _ H).
  assert (Hmeets : ∀ dep, dep ∈ root_deps ∨ (∃ k m, (k ∈ sr_selected_keys r ∧
            btree_get (sr_discovered r) k = Some m) ∧ dep ∈ dm_deps m) →
            bd_name dep ≠ rm_name root_module → ∃ w, meets_dep overrides r dep w).
  { intros dep Hdep Hne. eapply resolved_dep; [exact Hres| |done].
    destruct Hdep as [?|(k & m & [? ?] & ?)]; [by left|right; by exists k, m]. }
  assert (Hversion : ∀ dep w, meets_dep overrides r dep w → btree_get (versions r) (bd_name dep) = Some w)
    by (intros dep w [Hw _]; by apply (versions_spec (sr_discovered r) r)).
  pose proof (module_target (sr_discovered r) r root_deps root_module) as Hmodule.
  pose proof (root_target (sr_discovered r) r root_deps root_module) as Hroot.
  split_and!; [exact Hmodule|exact Hroot| |exact Hmeets| |].
  - intros c a t. unfold graph_aliases. rewrite alias_target_declare, alias_target_empty.
    destruct (last_target _ a) as [t'|] eqn:Ht; [|done]. intros [= <-].
    apply last_target_elem, elem_of_declared_in, graph_declarations_known in Ht as [Ht _]; [exact Ht|done].
  - intros k m dep a Hk Hc Hlast. rewrite (Hmodule k m Hk Hc a). unfold module_mapping.
    assert (Hdep : ∀ t, dep_target r root_module dep = Some t →
              last_target (module_mapping r root_module k m) a = Some t).
    { intros t Ht. unfold module_mapping. change (?x :: ?l ++ ?l') with ((x :: l) ++ l').
      rewrite last_target_app. rewrite (last_dep_target (dep_mapping r root_module) _ dep a t); try done.
      - apply dep_mapping_name.
      - destruct Hlast as (l1 & l2 & _ & Ha & _). unfold dep_mapping. rewrite Ha. simpl. by rewrite Ht. }
    unfold dep_target in Hdep. case_decide as Hr; [by apply Hdep|].
    destruct (Hmeets dep) as [w Hw]; [right; exists k, m; split; [done|by eapply last_dep_elem]|done|].
    exists w. split; [|done]. apply Hdep. by rewrite (Hversion dep w).
  - intros dep a Hlast Hne Hno. destruct (Hmeets dep) as [w Hw]; [left; by eapply last_dep_elem|done|].
    exists w. split; [|done]. rewrite Hroot. unfold root_mapping. rewrite !last_target_app.
    destruct (last_target (module_names_in_root _ _ _) a) eqn:Hv.
    { destruct Hno. apply last_target_is_Some. by eexists. }
    rewrite (last_dep_target _ _ dep a (module_cell (bd_name dep, w))); [done| |done|].
    + intros d b u. destruct (bd_apparent_name d); [|done]. simpl.
      destruct (btree_get _ _); [|done]. by intros [= -> _].
    + destruct Hlast as (l1 & l2 & _ & Ha & _). rewrite Ha. simpl. by rewrite (Hversion dep w).
Qed.

(** C32. Names of extensions.  In the graph of resolved modules, exactly the extensions that the root or a
    selected module uses have a unique name, made of the name of the repository of the extension, its own,
    and a number when the name was taken; different extensions have different names.  So two repositories of
    extensions (without [+] in their names) have the same name only if they are the same, and never the
    name of a module; and while extensions are evaluated, every import is an alias of the repository that it
    names, or of one that overrides it. *)
Theorem extension_names_correct {E} (evaluate : ModuleKey → (BcrSourceJson * BzlmodEvaluatedModuleFile) + E)
    root_module overrides universe fuel root_deps builtin r g :
  resolved evaluate root_module overrides universe fuel root_deps builtin r →
  bzlmod_dep_graph_from_selection root_deps root_module (sr_discovered r) r = Done g →
  let unique := dg_extension_unique_names g in
  let aliases := dg_cell_aliases_by_cell g in
  let usages := usages (sr_discovered r) r root_module in
  (∀ id, is_Some (btree_get unique id) ↔
     ∃ cell usage, (cell, usage) ∈ usages ∧ bzlmod_resolve_extension_id cell usage aliases = Done id) ∧
  (∀ id n, btree_get unique id = Some n →
     ∃ repo a, btree_get (dg_canonical_repo_names_by_cell g) (xi_bzl_cell_name id) = Some repo ∧
       n = extension_candidate repo (xi_extension_name id) a) ∧
  (∀ id1 id2 n, btree_get unique id1 = Some n → btree_get unique id2 = Some n → id1 = id2) ∧
  (∀ id1 id2 n1 n2 q1 q2, btree_get unique id1 = Some n1 → btree_get unique id2 = Some n2 →
     str_forall (not_char "+") q1 = true → str_forall (not_char "+") q2 = true →
     bzlmod_extension_unique_repo_canonical_repo_name n1 q1 =
     bzlmod_extension_unique_repo_canonical_repo_name n2 q2 → id1 = id2 ∧ q1 = q2) ∧
  (∀ n q k, str_forall (not_char "+") q = true → q ≠ "" → k ∈ sr_selected_keys r →
     bzlmod_extension_unique_repo_canonical_repo_name n q ≠ module_cell k) ∧
  (∀ cell usage import, (cell, usage) ∈ usages → import ∈ eu_imports usage →
     ∃ t, bzlmod_cell_alias_target (dg_extension_eval_cell_aliases_by_cell g) cell (ui_alias import) = Some t ∧
       import_target (sr_discovered r) r root_module aliases unique cell (ui_alias import) t).
Proof.
  intros Hres Hg. pose proof (resolved_Selection _ _ _ _ _ _ _ _ Hres) as HSel.
  pose proof (dep_graph_spec (sr_discovered r) r root_deps root_module) as H. rewrite Hg in H. simpl in H.
  cbv zeta. rewrite (go_aliases _ _ _ _ _ H), (go_names_by_cell _ _ _ _ _ H).
  pose proof (go_unique _ _ _ _ _ H) as [Hdom Hname Hinj]. split_and!; [done|done|done| | |].
  - intros id1 id2 n1 n2 q1 q2 H1 H2 Hq1 Hq2 Heq. destruct (last_plus_inj _ _ _ _ Hq1 Hq2 Heq) as [-> ->].
    split; [by eapply Hinj|done].
  - intros n q k Hq Hne _. by apply generated_not_module.
  - intros cell usage import Hu Hi. destruct (go_eval _ _ _ _ _ H) as (ds & -> & Hds & Hall).
    destruct (Hall cell usage import Hu Hi) as [t Ht]. rewrite alias_target_declare.
    assert (Hin : ui_alias import ∈ (declared_in cell ds).*1).
    { apply list_elem_of_fmap. exists (ui_alias import, t). split; [done|]. by apply elem_of_declared_in. }
    apply last_target_is_Some in Hin as [t' Ht']. rewrite Ht'. exists t'. split; [done|].
    apply Hds, elem_of_declared_in, last_target_elem, Ht'.
Qed.

(** * A graph *)

(** The modules of [registry] with names and extensions: [c] uses two extensions of [a] of the same name. *)
Definition usage_of (file name : string) (imports : list BzlmodUseRepoImport) : BzlmodExtensionUsage :=
  mkUsage name file name false imports [] [].
Definition registry_usages (name : string) : list BzlmodExtensionUsage :=
  if decide (name = "a") then [usage_of "//ext:ext.bzl" "ext" [mkImport "made" "made"]]
  else if decide (name = "c") then
    [usage_of "@a//ext:ext.bzl" "ext" [mkImport "theirs" "made"]; usage_of "@a//ext:other.bzl" "ext" [mkImport "other" "made"]]
  else [].
Definition named_registry (key : ModuleKey) : (BcrSourceJson * BzlmodEvaluatedModuleFile) + string :=
  match registry key with
  | inl (source, ev) => inl (source, mkEvaluated [key.1] (ev_deps ev) (registry_usages key.1) [] [])
  | inr e => inr e
  end.
Definition sample_root : RootBzlmodModule :=
  mkRoot "my_root" "" "my_root" "" [] [] [] [usage_of "@b//:gen.bzl" "gen" [mkImport "gen" "gen"]] []
    ["//:all"; "@b//toolchains:all"].
Definition sample_selection : BzlmodSelectionResult :=
  match bzlmod_resolution named_registry "my_root" registry_overrides 5 registry_roots registry_builtin with
  | Some (inl r) => r
  | _ => mkSelection [] [] [] [] []
  end.
Notation sample_graph :=
  (bzlmod_dep_graph_from_selection registry_roots sample_root (sr_discovered sample_selection) sample_selection).

Lemma sample_resolved :
  resolved named_registry sample_root registry_overrides registry_keys 5 registry_roots registry_builtin
    sample_selection.
Proof.
  split_and!; [|vm_compute; lia|done|vm_compute; reflexivity].
  intros k. apply required_checked; vm_compute; reflexivity.
Qed.

Definition sample_target (cell alias : string) : option string :=
  match sample_graph with
  | Done g => bzlmod_cell_alias_target (dg_cell_aliases_by_cell g) cell alias
  | _ => None
  end.
Definition sample_eval_target (cell alias : string) : option string :=
  match sample_graph with
  | Done g => bzlmod_cell_alias_target (dg_extension_eval_cell_aliases_by_cell g) cell alias
  | _ => None
  end.

Example sample_targets :
  (sample_target "b+" "c", sample_target "c+" "a", sample_target "root" "b", sample_target "b+" "my_root",
   sample_target "c+" "theirs", sample_eval_target "c+" "theirs", sample_eval_target "c+" "other",
   sample_eval_target "root" "gen") =
  (Some "c+", Some "a+", Some "b+", Some "root", None, Some "a++ext+made", Some "a++ext2+made", Some "b++gen+gen").
Proof. vm_compute. reflexivity. Qed.

Lemma repo_mappings_correct_witness :
  match sample_graph with
  | Done g => bzlmod_cell_alias_target (dg_cell_aliases_by_cell g) "b+" "c" = Some "c+" ∧
      ∀ c a t, bzlmod_cell_alias_target (dg_cell_aliases_by_cell g) c a = Some t →
        t = "root" ∨ ∃ k, k ∈ sr_selected_keys sample_selection ∧ t = module_cell k
  | _ => False
  end.
Proof.
  pose proof (repo_mappings_correct named_registry sample_root registry_overrides registry_keys 5 registry_roots
    registry_builtin sample_selection sample_resolved) as H.
  cbv zeta in H.
  assert (Hb : match sample_graph with
               | Done g => bzlmod_cell_alias_target (dg_cell_aliases_by_cell g) "b+" "c"
               | _ => None
               end = Some "c+") by (vm_compute; reflexivity).
  assert (Hok : match sample_graph with Done _ => True | _ => False end) by (vm_compute; exact I).
  destruct sample_graph as [g|e| |]; [|done|done|done]. split; [exact Hb|]. apply H.
Defined.

Lemma extension_names_correct_witness :
  match sample_graph with
  | Done g => (λ id_name, (xi_bzl_path id_name.1, id_name.2)) <$> dg_extension_unique_names g =
        [("ext/ext.bzl", "a++ext"); ("ext/other.bzl", "a++ext2"); ("gen.bzl", "b++gen")] ∧
      ∀ id1 id2 n, btree_get (dg_extension_unique_names g) id1 = Some n →
        btree_get (dg_extension_unique_names g) id2 = Some n → id1 = id2
  | _ => False
  end.
Proof.
  assert (Hok : match sample_graph with
      | Done g => (λ id_name, (xi_bzl_path id_name.1, id_name.2)) <$> dg_extension_unique_names g =
          [("ext/ext.bzl", "a++ext"); ("ext/other.bzl", "a++ext2"); ("gen.bzl", "b++gen")]
      | _ => False end) by (vm_compute; reflexivity).
  destruct sample_graph as [g|e| |] eqn:Hg; [|done|done|done].
  pose proof (extension_names_correct named_registry sample_root registry_overrides registry_keys 5 registry_roots
    registry_builtin sample_selection g sample_resolved Hg) as H.
  split; [exact Hok|]. apply H.
Defined.

(** * The unit tests *)

Definition rules_docker_key : ModuleKey := ("rules_docker", "").
Definition rules_docker : DiscoveredBcrModule :=
  mkDiscovered (mkBazelDep "rules_docker" "" None) no_source ["rules_docker"; "io_bazel_rules_docker"] [] [] [] [] [] [].
Definition plain_root : RootBzlmodModule := mkRoot "root" "" "root" "" [] [] [] [] [] [].

Example test_bzlmod_direct_override_dep_module_aliases_are_visible_in_root :
  match bzlmod_dep_graph_from_selection [mkBazelDep "rules_docker" "" (Some "io_bazel_rules_docker")] plain_root
          [(rules_docker_key, rules_docker)]
          (mkSelection [(rules_docker_key, rules_docker)] [rules_docker_key] [rules_docker_key] [rules_docker_key]
             (bzlmod_canonical_repo_names_by_key [rules_docker_key])) with
  | Done g => (bzlmod_cell_alias_target (dg_cell_aliases_by_cell g) "root" "io_bazel_rules_docker",
               bzlmod_cell_alias_target (dg_cell_aliases_by_cell g) "root" "rules_docker",
               (λ aliases, bset_contains aliases "rules_docker") <$>
                 btree_get (dg_root_aliases_by_key g) rules_docker_key)
  | _ => (None, None, None)
  end = (Some "rules_docker+", Some "rules_docker+", Some true).
Proof. vm_compute. reflexivity. Qed.

Example test_bzlmod_registered_toolchains_resolve_declaring_repo_mapping :
  let aliases := add_bzlmod_cell_alias ∅ "rules_go+0.57.0" "go_toolchains" "rules_go+0.57.0+go_sdk+go_toolchains" in
  (qualify_bzlmod_registered_toolchain aliases "rules_go+0.57.0" "@go_toolchains//:all",
   qualify_bzlmod_registered_toolchain aliases "rules_go+0.57.0" "//:all") =
  (Done "rules_go+0.57.0+go_sdk+go_toolchains//:all", Done "rules_go+0.57.0//:all").
Proof. vm_compute. reflexivity. Qed.

Example test_bzlmod_registered_toolchains_include_root_module :
  resolve_bzlmod_registered_toolchains
    (mkRoot "root" "" "root" "" [] [] [] [] [] ["@rust_toolchains//:all"; "//tools:toolchain"]) [] [] []
    (add_bzlmod_cell_alias ∅ "root" "rust_toolchains" "bzlmod_rules_rust__rust_rust_toolchains") =
  Done ["bzlmod_rules_rust__rust_rust_toolchains//:all"; "root//tools:toolchain"].
Proof. vm_compute. reflexivity. Qed.

(** * An alias that is overwritten *)

(** The root gives [b] the name [a], and overrides [a], which it calls [my_a]: the name of the module [a]
    takes the root's own alias. *)
Definition plain_module (name : string) : DiscoveredBcrModule :=
  mkDiscovered (mkBazelDep name "" None) no_source [name] [] [] [] [] [] [].

Example root_alias_overwritten :
  let keys := [("a", ""); ("b", "")] in
  let discovered := [(("a", ""), plain_module "a"); (("b", ""), plain_module "b")] in
  match bzlmod_dep_graph_from_selection [mkBazelDep "a" "" (Some "my_a"); mkBazelDep "b" "1" (Some "a")] plain_root
          discovered (mkSelection discovered keys keys keys (bzlmod_canonical_repo_names_by_key keys)) with
  | Done g => bzlmod_cell_alias_target (dg_cell_aliases_by_cell g) "root" "a"
  | _ => None
  end = Some "a+".
Proof. vm_compute. reflexivity. Qed.
