(* ===== verification/ModRepos.v ===== *)
(** The repositories of resolved modules ([src/app/bz_common/src/bazel/bzlmod.rs]): the external modules,
    the repositories that repository rules and module extensions generate, the names that those see, and
    the result of the resolution.

    Serialization to JSON and hashing are parameters ([Serializers]). *)
From stdpp Require Import gmap.
From S2P Require Import Prelude.
From S2P Require Import RustStr.
From S2P Require Import RustStrSpec.
From S2P Require Import RustOrd.
From S2P Require Import ModVersion.
From S2P Require Import ModSelect.
From S2P Require Import ModGraph.
Local Open Scope dice_scope.
Local Open Scope string_scope.
Local Open Scope nat_scope.
Local Open Scope list_scope.

(** * Data *)

Record BzlmodPatchConfig := mkPatchConfig {
  pc_url : string; pc_integrity : string; pc_path : option string; pc_content_sha256 : option string;
  pc_patch_strip : option N }.
Record BzlmodOverlayConfig := mkOverlayConfig { oc_path : string; oc_url : string; oc_integrity : string }.

Record BzlmodHostPlatformSetup := mkHostPlatform {
  hp_cpu_constraint : option string; hp_os_constraint : option string }.
Record BzlmodRepositoryRuleInvocationSetup := mkRuleInvocation {
  rr_repo_name : string; rr_rule_bzl_cell : string; rr_rule_bzl_path : string;
  rr_rule_bzl_build_file_cell : string; rr_rule_bzl_build_file_package : option string;
  rr_rule_name : string; rr_attrs : list (string * string) }.
Record BzlmodModuleExtensionRepoSetup := mkExtensionRepo {
  er_parent_canonical_repo_name : string; er_parent_is_root : bool; er_extension_bzl_file : string;
  er_extension_bzl_cell : string; er_extension_bzl_path : string; er_extension_unique_name : string;
  er_extension_name : string; er_repo_name : string; er_extension_usages_key : string;
  er_extension_usages_json : string }.

(** The kinds of generated repositories that the resolution makes. *)
Inductive BzlmodGeneratedCellGenerator :=
| BazelFeaturesGlobals (parent_canonical_repo_name bazel_version : string)
| BazelFeaturesVersion (bazel_version : string)
| HostPlatform (setup : BzlmodHostPlatformSetup)
| XcodeConfig
| ShellConfig
| RepositoryRuleInvocation (setup : BzlmodRepositoryRuleInvocationSetup)
| ModuleExtensionRepo (setup : BzlmodModuleExtensionRepoSetup).

Record BazelCompatRegistryModule := mkRegistryModule {
  xr_cell_name : string; xr_aliases : list string; xr_module_name : string; xr_version : string;
  xr_canonical_repo_name : string; xr_local_path : option string; xr_url : string; xr_urls_json : string;
  xr_integrity : string; xr_strip_prefix : option string; xr_archive_type : option string;
  xr_patches_json : string; xr_overlays_json : string; xr_patch_strip : N }.
Record BazelCompatGitModule := mkGitModule {
  xg_cell_name : string; xg_aliases : list string; xg_module_name : string; xg_version : string;
  xg_canonical_repo_name : string; xg_git_origin : string; xg_commit_hash : string }.
Record BazelCompatGeneratedModule := mkGeneratedModule {
  xx_cell_name : string; xx_aliases : list string; xx_canonical_repo_name : string; xx_generator_json : string }.

Inductive BazelCompatExternalModule :=
| Registry (m : BazelCompatRegistryModule)
| Git (m : BazelCompatGitModule)
| Generated (m : BazelCompatGeneratedModule).

Definition external_cell_name (m : BazelCompatExternalModule) : string :=
  match m with Registry m => xr_cell_name m | Git m => xg_cell_name m | Generated m => xx_cell_name m end.
Definition external_canonical_repo_name (m : BazelCompatExternalModule) : string :=
  match m with
  | Registry m => xr_canonical_repo_name m
  | Git m => xg_canonical_repo_name m
  | Generated m => xx_canonical_repo_name m
  end.

Record BcrResolution := mkResolution {
  br_external_modules : list BazelCompatExternalModule;
  br_root_aliases : list (string * string);
  br_cell_aliases : BTreeMap string (list (string * string));
  br_registered_toolchains : list string;
}.

(** [serde_json::to_string], SHA-256 in hexadecimal, and the key of the usages of an extension. *)
Record Serializers := mkSerializers {
  patches_to_json : list BzlmodPatchConfig → string;
  overlays_to_json : list BzlmodOverlayConfig → string;
  urls_to_json : list string → string;
  generator_to_json : BzlmodGeneratedCellGenerator → string;
  sha256_hex : string → string;
  extension_usages_key_from_json : string → string;
}.

(** * Names of repositories *)

(** [rsplit_once] *)
Fixpoint rsplit_once_char (c : ascii) (s : string) : option (string * string) :=
  match s with
  | EmptyString => None
  | String a s =>
      match rsplit_once_char c s with
      | Some (p, q) => Some (String a p, q)
      | None => if decide (a = c) then Some ("", s) else None
      end
  end.

Definition bzlmod_bzl_path_to_label_path (path : string) : string :=
  match rsplit_once_char "/" path with
  | Some (package, target) => package +:+ ":" +:+ target
  | None => ":" +:+ path
  end.

Definition bzlmod_lockfile_extension_key (extension_id : BzlmodExtensionId)
    (names_by_cell : BTreeMap string string) : gresult string :=
  canonical_repo_name ←
    (if decide (xi_bzl_cell_name extension_id = "root") then mret ""
     else ok_or (btree_get names_by_cell (xi_bzl_cell_name extension_id)) (ExtensionUnknownCell extension_id));
  let label := bzlmod_bzl_path_to_label_path (xi_bzl_path extension_id) +:+ "%" +:+
    xi_extension_name extension_id in
  mret (if is_empty_str canonical_repo_name then "//" +:+ label
        else "@@" +:+ canonical_repo_name +:+ "//" +:+ label).

(** The loop over the characters after the quote. *)
Fixpoint string_literal_loop (quote : ascii) (escaped : bool) (result s : string) : option string :=
  match s with
  | EmptyString => None
  | String ch s =>
      if escaped then string_literal_loop quote false (result +:+ String ch EmptyString) s
      else if decide (ch = "\"%char) then string_literal_loop quote true result s
      else if decide (ch = quote) then Some result
      else string_literal_loop quote false (result +:+ String ch EmptyString) s
  end.

Definition double_quote : ascii := ascii_of_nat 34.

Definition bzlmod_string_literal_prefix (value : string) : option string :=
  match value with
  | EmptyString => None
  | String quote s =>
      if decide (quote = double_quote ∨ quote = "'"%char) then string_literal_loop quote false "" s else None
  end.

(** The values of [name] and [repo_name] in the tags, sorted. *)
Definition bzlmod_extension_tag_repo_names (usage : BzlmodExtensionUsage) : list string :=
  fold_left bset_insert
    (omap (λ kv, if decide (kv.1 = "name" ∨ kv.1 = "repo_name") then bzlmod_string_literal_prefix (trim kv.2)
                 else None) (flat_map tag_kwargs (eu_tags usage))) [].

Definition bzlmod_use_repo_rule_canonical_repo_name (parent_canonical_repo_name : string) (parent_is_root : bool)
    (rule_name repo_name : string) : string :=
  bzlmod_extension_unique_repo_canonical_repo_name
    (if parent_is_root then "+" +:+ rule_name else parent_canonical_repo_name +:+ "+" +:+ rule_name) repo_name.

Definition bzlmod_extension_imports_from_usages (usages : list BzlmodExtensionUsage) (extension : string) :
    list BzlmodUseRepoImport :=
  flat_map eu_imports (filter (λ usage, eu_extension_name usage = extension) usages).

(** * Sources of modules *)

Definition bcr_source_urls (source_json : BcrSourceJson) : list string :=
  match sj_urls source_json with
  | Some (_ :: _ as urls) => urls
  | _ => [sj_url source_json]
  end.

Section Repos.
Context (ser : Serializers).

Definition root_patch_config (patch_strip : option N) (patch : BzlmodRootPatch) : BzlmodPatchConfig :=
  mkPatchConfig "" "" (Some (rp_path patch)) (Some (sha256_hex ser (rp_content patch))) patch_strip.

Definition bzlmod_patch_configs (registry : string) (dep : BazelDep) (source_json : BcrSourceJson)
    (archive_override : option BzlmodArchiveOverride)
    (single_version_override : option BzlmodSingleVersionOverride) : list BzlmodPatchConfig :=
  map (λ file_integrity,
    mkPatchConfig (registry +:+ "/modules/" +:+ bd_name dep +:+ "/" +:+ bd_version dep +:+ "/patches/" +:+
      file_integrity.1) file_integrity.2 None None (sj_patch_strip source_json))
    (default [] (sj_patches source_json)) ++
  match archive_override with
  | Some o => map (root_patch_config (ao_patch_strip o)) (ao_patches o)
  | None => []
  end ++
  match single_version_override with
  | Some o => map (root_patch_config (so_patch_strip o)) (so_patches o)
  | None => []
  end.

Definition bzlmod_overlay_configs (registry : string) (dep : BazelDep) (source_json : BcrSourceJson) :
    list BzlmodOverlayConfig :=
  map (λ path_integrity,
    mkOverlayConfig path_integrity.1 (registry +:+ "/modules/" +:+ bd_name dep +:+ "/" +:+ bd_version dep +:+
      "/overlay/" +:+ path_integrity.1) path_integrity.2) (default [] (sj_overlay source_json)).

(** The first that is set. *)
Definition or_else {A} (a b : option A) : option A := match a with Some _ => a | None => b end.

(** The external module of a selected module other than [bazel_tools]. *)
Definition external_module (registry : string) (o : Overrides) (aliases : list string)
    (canonical_repo_name : string) (m : DiscoveredBcrModule) : BazelCompatExternalModule :=
  let dep := dm_dep m in
  let source := dm_source_json m in
  let archive_override := btree_get (archive_overrides o) (bd_name dep) in
  let single_version_override := btree_get (single_version_overrides o) (bd_name dep) in
  let cell_name := bzlmod_cell_name canonical_repo_name in
  match btree_get (git_overrides o) (bd_name dep) with
  | Some git_override =>
      Git (mkGitModule cell_name aliases (bd_name dep) (bd_version dep) canonical_repo_name
        (go_remote git_override) (go_commit git_override))
  | None =>
      Registry (mkRegistryModule cell_name aliases (bd_name dep) (bd_version dep) canonical_repo_name
        (lo_path <$> btree_get (local_path_overrides o) (bd_name dep))
        (sj_url source) (urls_to_json ser (bcr_source_urls source)) (sj_integrity source)
        (sj_strip_prefix source) (sj_archive_type source)
        (patches_to_json ser (bzlmod_patch_configs registry dep source archive_override single_version_override))
        (overlays_to_json ser (bzlmod_overlay_configs registry dep source))
        (default 0%N (or_else (archive_override ≫= ao_patch_strip)
           (or_else (single_version_override ≫= so_patch_strip) (sj_patch_strip source)))))
  end.

(** * Generated repositories *)

Record GenState := mkGenState {
  gs_aliases : BzlmodCellAliases;
  gs_generated : list BazelCompatExternalModule;
  (** A generated cell and the cell whose names it sees. *)
  gs_declaring : list (string * string);
  (** The repositories of each extension, by its unique name. *)
  gs_groups : BTreeMap string (list (string * string));
  (** The repositories that replace some of them. *)
  gs_overrides : BTreeMap string (list (string * string));
}.

Definition with_aliases (st : GenState) (aliases : BzlmodCellAliases) : GenState :=
  mkGenState aliases (gs_generated st) (gs_declaring st) (gs_groups st) (gs_overrides st).

(** [entry(key).or_default().extend(values)] *)
Definition extend_group (m : BTreeMap string (list (string * string))) (key : string)
    (values : list (string * string)) : BTreeMap string (list (string * string)) :=
  btree_insert m key (default [] (btree_get m key) ++ values).

Definition push_group (st : GenState) (key : string) (repo : string * string) : GenState :=
  mkGenState (gs_aliases st) (gs_generated st) (gs_declaring st) (extend_group (gs_groups st) key [repo])
    (gs_overrides st).

Definition push_overrides (st : GenState) (key : string) (targets : BTreeMap string string) : GenState :=
  if decide (targets = []) then st
  else mkGenState (gs_aliases st) (gs_generated st) (gs_declaring st) (gs_groups st)
         (extend_group (gs_overrides st) key targets).

Definition add_unimported_generated_bzlmod_repo (st : GenState) (declaring_cell_name canonical_repo_name : string)
    (generator : BzlmodGeneratedCellGenerator) : GenState :=
  let cell_name := bzlmod_cell_name canonical_repo_name in
  mkGenState (gs_aliases st)
    (gs_generated st ++ [Generated (mkGeneratedModule cell_name [] canonical_repo_name (generator_to_json ser generator))])
    (gs_declaring st ++ [(cell_name, declaring_cell_name)]) (gs_groups st) (gs_overrides st).

Definition add_generated_bzlmod_repo_with_mapping_cell (st : GenState)
    (importing_cell_name alias mapping_cell_name canonical_repo_name : string)
    (generator : BzlmodGeneratedCellGenerator) : GenState :=
  add_unimported_generated_bzlmod_repo
    (with_aliases st (add_bzlmod_cell_alias (gs_aliases st) importing_cell_name alias
       (bzlmod_cell_name canonical_repo_name)))
    mapping_cell_name canonical_repo_name generator.

Definition add_generated_bzlmod_repo (st : GenState) (declaring_cell_name alias canonical_repo_name : string)
    (generator : BzlmodGeneratedCellGenerator) : GenState :=
  add_generated_bzlmod_repo_with_mapping_cell st declaring_cell_name alias declaring_cell_name
    canonical_repo_name generator.

(** [resolve_bzlmod_use_repo_rule_generated_repos] *)
Definition use_repo_rule_step (parent_canonical_repo_name parent_cell_name : string) (parent_is_root : bool)
    (st : GenState) (invocation : BzlmodUseRepoRuleInvocation) : gresult GenState :=
  '(rule_bzl_cell, rule_bzl_path) ←
    bzlmod_resolve_extension_bzl_label parent_cell_name (ri_rule_bzl_file invocation) (gs_aliases st);
  mret (add_generated_bzlmod_repo st parent_cell_name (ri_repo_name invocation)
    (bzlmod_use_repo_rule_canonical_repo_name parent_canonical_repo_name parent_is_root
       (ri_rule_name invocation) (ri_repo_name invocation))
    (RepositoryRuleInvocation (mkRuleInvocation (ri_repo_name invocation) rule_bzl_cell rule_bzl_path
       parent_cell_name (Some "") (ri_rule_name invocation) (ri_attrs invocation)))).

Definition resolve_bzlmod_use_repo_rule_generated_repos (invocations : list BzlmodUseRepoRuleInvocation)
    (parent_canonical_repo_name parent_cell_name : string) (parent_is_root : bool) (st : GenState) :
    gresult GenState :=
  try_fold (use_repo_rule_step parent_canonical_repo_name parent_cell_name parent_is_root) st invocations.

(** A map from a list: the last entry of a key counts. *)
Definition collect_map (l : list (string * string)) : gmap string string :=
  fold_left (λ m kv, <[kv.1 := kv.2]> m) l ∅.

Definition mirror_to_root (mirror : bool) (st : GenState) (alias target : string) : GenState :=
  if mirror then with_aliases st (add_bzlmod_root_generated_repo_alias (gs_aliases st) alias target) else st.

Definition bzlmod_module_extension_repo_config (resolved_extension : BzlmodResolvedExtension)
    (parent_canonical_repo_name : string) (parent_is_root : bool) (usage : BzlmodExtensionUsage)
    (repo_name extension_usages_json : string) : BzlmodGeneratedCellGenerator :=
  ModuleExtensionRepo (mkExtensionRepo parent_canonical_repo_name parent_is_root (eu_extension_bzl_file usage)
    (xi_bzl_cell_name (rx_id resolved_extension)) (xi_bzl_path (rx_id resolved_extension))
    (rx_unique_name resolved_extension) (eu_extension_name usage) repo_name
    (extension_usages_key_from_json ser extension_usages_json) extension_usages_json).

(** The state of the loops over the repositories of one usage: those generated before for the extension,
    and those still to be generated. *)
Definition UsageState : Type := GenState * gmap string string * list string.

Definition import_step (usage : BzlmodExtensionUsage) (parent_canonical_repo_name parent_cell_name : string)
    (parent_is_root mirror : bool) (resolved_extension : BzlmodResolvedExtension)
    (repo_override_targets : BTreeMap string string) (extension_usages_json : string)
    (st : UsageState) (import : BzlmodUseRepoImport) : gresult UsageState :=
  let '(gs, existing, repo_names) := st in
  match btree_get repo_override_targets (ui_repo_name import) with
  | Some target_cell_name =>
      if existsb (λ o, bool_decide (ro_repo_name o = ui_repo_name import) && negb (ro_must_exist o))
           (eu_repo_overrides usage)
      then Failed (ImportsInjected (eu_extension_bzl_file usage) (eu_extension_name usage)
             parent_canonical_repo_name (ui_repo_name import) target_cell_name)
      else
        let gs := with_aliases gs
          (add_bzlmod_cell_alias (gs_aliases gs) parent_cell_name (ui_alias import) target_cell_name) in
        mret (mirror_to_root mirror gs (ui_alias import) target_cell_name, existing, repo_names)
  | None =>
      let remaining := filter (λ n, n ≠ ui_repo_name import) repo_names in
      match existing !! ui_repo_name import with
      | Some generated_cell_name =>
          let gs := with_aliases gs
            (add_bzlmod_cell_alias (gs_aliases gs) parent_cell_name (ui_alias import) generated_cell_name) in
          mret (mirror_to_root mirror gs (ui_alias import) generated_cell_name, existing, remaining)
      | None =>
          let canonical_repo_name :=
            bzlmod_extension_repo_canonical_repo_name resolved_extension (ui_repo_name import) in
          let generated_cell_name := bzlmod_cell_name canonical_repo_name in
          let gs := add_generated_bzlmod_repo_with_mapping_cell gs parent_cell_name (ui_alias import)
            (xi_bzl_cell_name (rx_id resolved_extension)) canonical_repo_name
            (bzlmod_module_extension_repo_config resolved_extension parent_canonical_repo_name parent_is_root
               usage (ui_repo_name import) extension_usages_json) in
          let gs := mirror_to_root mirror gs (ui_alias import) generated_cell_name in
          let gs := push_group gs (rx_unique_name resolved_extension) (ui_repo_name import, generated_cell_name) in
          mret (gs, <[ui_repo_name import := generated_cell_name]> existing, remaining)
      end
  end.

Definition repo_step (usage : BzlmodExtensionUsage) (parent_canonical_repo_name : string) (parent_is_root : bool)
    (resolved_extension : BzlmodResolvedExtension) (extension_usages_json : string)
    (st : GenState * gmap string string) (repo_name : string) : GenState * gmap string string :=
  match st.2 !! repo_name with
  | Some _ => st
  | None =>
      let canonical_repo_name := bzlmod_extension_repo_canonical_repo_name resolved_extension repo_name in
      let gs := add_unimported_generated_bzlmod_repo st.1 (xi_bzl_cell_name (rx_id resolved_extension))
        canonical_repo_name
        (bzlmod_module_extension_repo_config resolved_extension parent_canonical_repo_name parent_is_root
           usage repo_name extension_usages_json) in
      (push_group gs (rx_unique_name resolved_extension) (repo_name, bzlmod_cell_name canonical_repo_name),
       <[repo_name := bzlmod_cell_name canonical_repo_name]> st.2)
  end.

(** The repositories of a usage that are known without evaluating the extension. *)
Definition static_repo_names (root_module : RootBzlmodModule) (usage : BzlmodExtensionUsage)
    (imports : list BzlmodUseRepoImport) (lockfile_extension_key : string) : list string :=
  fold_left bset_insert
    (map ui_repo_name imports ++ bzlmod_extension_tag_repo_names usage ++
     map ro_repo_name (filter (λ o, ro_must_exist o = true) (eu_repo_overrides usage)) ++
     default [] (btree_get (rm_lockfile_extension_generated_repos root_module) lockfile_extension_key)) [].

Definition resolve_bzlmod_extension_usage_generated_repos (usage : BzlmodExtensionUsage)
    (parent_canonical_repo_name parent_cell_name : string) (parent_is_root mirror_imports_to_root : bool)
    (root_module : RootBzlmodModule) (names_by_cell : BTreeMap string string)
    (unique_names usages_json : BTreeMap BzlmodExtensionId string) (st : GenState) : gresult GenState :=
  resolved_extension ← bzlmod_resolve_extension parent_cell_name usage (gs_aliases st) unique_names;
  let group := rx_unique_name resolved_extension in
  let existing := collect_map (default [] (btree_get (gs_groups st) group)) in
  let imports := filter (λ import,
    bzlmod_cell_alias_target (gs_aliases st) parent_cell_name (ui_alias import) = None) (eu_imports usage) in
  lockfile_extension_key ← bzlmod_lockfile_extension_key (rx_id resolved_extension) names_by_cell;
  let repo_names := static_repo_names root_module usage imports lockfile_extension_key in
  repo_override_targets ←
    bzlmod_extension_repo_override_targets usage parent_cell_name (gs_aliases st) resolved_extension;
  let st := push_overrides st group repo_override_targets in
  extension_usages_json ← ok_or (btree_get usages_json (rx_id resolved_extension))
    (NoUsagesValue (rx_id resolved_extension));
  if decide (repo_names = []) then mret st else
  '(st, existing, repo_names) ←
    try_fold (import_step usage parent_canonical_repo_name parent_cell_name parent_is_root
      mirror_imports_to_root resolved_extension repo_override_targets extension_usages_json)
      (st, existing, repo_names) imports;
  mret (fold_left (repo_step usage parent_canonical_repo_name parent_is_root resolved_extension
    extension_usages_json) repo_names (st, existing)).1.

(** ** The repositories of a module *)

Definition BZLMOD_BAZEL_COMPAT_VERSION : string := "9.1.0".

(** Known imports of [rules_shell], [platforms] and [bazel_features], without evaluation. *)
Definition shell_step (parent_canonical_repo_name parent_cell_name : string) (st : GenState) (alias : string) :
    GenState :=
  if decide (alias = "local_config_shell") then
    add_generated_bzlmod_repo st parent_cell_name alias
      (parent_canonical_repo_name +:+ "+sh_configure+" +:+ alias) ShellConfig
  else st.

Definition host_platform_import (setup : BzlmodHostPlatformSetup) (parent_canonical_repo_name parent_cell_name : string)
    (resolved_extension : BzlmodResolvedExtension) (st : GenState) (import : BzlmodUseRepoImport) : GenState :=
  if decide (ui_repo_name import = "host_platform") then
    let canonical_repo_name := parent_canonical_repo_name +:+ "+host_platform+" +:+ ui_repo_name import in
    push_group
      (add_generated_bzlmod_repo st parent_cell_name (ui_alias import) canonical_repo_name (HostPlatform setup))
      (rx_unique_name resolved_extension) (ui_repo_name import, bzlmod_cell_name canonical_repo_name)
  else st.

Definition host_platform_step (setup : BzlmodHostPlatformSetup) (parent_canonical_repo_name parent_cell_name : string)
    (unique_names : BTreeMap BzlmodExtensionId string) (st : GenState) (usage : BzlmodExtensionUsage) :
    gresult GenState :=
  resolved_extension ← bzlmod_resolve_extension parent_cell_name usage (gs_aliases st) unique_names;
  mret (fold_left (host_platform_import setup parent_canonical_repo_name parent_cell_name resolved_extension)
    (eu_imports usage) st).

Definition bazel_features_step (parent_canonical_repo_name parent_cell_name : string) (st : GenState)
    (import : BzlmodUseRepoImport) : GenState :=
  let generator :=
    if decide (ui_repo_name import = "bazel_features_globals") then
      Some (BazelFeaturesGlobals parent_canonical_repo_name BZLMOD_BAZEL_COMPAT_VERSION)
    else if decide (ui_repo_name import = "bazel_features_version") then
      Some (BazelFeaturesVersion BZLMOD_BAZEL_COMPAT_VERSION)
    else None in
  match generator with
  | Some generator =>
      add_generated_bzlmod_repo st parent_cell_name (ui_alias import)
        (parent_canonical_repo_name +:+ "+version_extension+" +:+ ui_repo_name import) generator
  | None => st
  end.

Definition known_imports (setup : BzlmodHostPlatformSetup) (m : DiscoveredBcrModule)
    (parent_canonical_repo_name parent_cell_name : string) (unique_names : BTreeMap BzlmodExtensionId string)
    (st : GenState) : gresult GenState :=
  let name := bd_name (dm_dep m) in
  let st :=
    if decide (name = "rules_shell") then
      fold_left (shell_step parent_canonical_repo_name parent_cell_name) (dm_use_repo_aliases m) st
    else st in
  st ← (if decide (name = "platforms") then
          try_fold (host_platform_step setup parent_canonical_repo_name parent_cell_name unique_names) st
            (filter (λ usage, eu_extension_name usage = "host_platform") (dm_extension_usages m))
        else mret st);
  mret (if decide (name = "bazel_features") then
          fold_left (bazel_features_step parent_canonical_repo_name parent_cell_name)
            (bzlmod_extension_imports_from_usages (dm_extension_usages m) "version_extension") st
        else st).

Section Generate.
Context (host_platform_setup : BzlmodHostPlatformSetup).
Context (root_module : RootBzlmodModule) (discovered : DiscoveredBcrModules).
Context (names : BTreeMap ModuleKey string) (direct_root_dep_cells : list string).
Context (names_by_cell : BTreeMap string string) (unique_names usages_json : BTreeMap BzlmodExtensionId string).

Definition module_repos_step (st : GenState) (key : ModuleKey) : gresult GenState :=
  match btree_get discovered key with
  | None => mret st
  | Some m =>
      parent_canonical_repo_name ←
        bzlmod_selected_canonical_repo_name names (bd_name (dm_dep m)) (bd_version (dm_dep m));
      let parent_cell_name := bzlmod_cell_name parent_canonical_repo_name in
      st ← resolve_bzlmod_use_repo_rule_generated_repos (dm_use_repo_rule_invocations m)
             parent_canonical_repo_name parent_cell_name false st;
      st ← known_imports host_platform_setup m parent_canonical_repo_name parent_cell_name unique_names st;
      try_fold (λ st usage,
        resolve_bzlmod_extension_usage_generated_repos usage parent_canonical_repo_name parent_cell_name false
          (bset_contains direct_root_dep_cells parent_cell_name) root_module names_by_cell unique_names
          usages_json st) st (dm_extension_usages m)
  end.

Definition xcode_config_repo : string := "bazel_tools+xcode_configure_extension+local_config_xcode".

(** The repository of the Xcode configuration, which the root and [bazel_tools] see. *)
Definition add_xcode_config (st : GenState) : GenState :=
  let st := add_unimported_generated_bzlmod_repo st "bazel_tools" xcode_config_repo XcodeConfig in
  let cell := bzlmod_cell_name xcode_config_repo in
  with_aliases st
    (add_bzlmod_cell_alias (add_bzlmod_cell_alias (gs_aliases st) "root" "local_config_xcode" cell)
       "bazel_tools" "local_config_xcode" cell).

Definition generate_repos (selected_keys_in_dependency_order : list ModuleKey) (aliases : BzlmodCellAliases) :
    gresult GenState :=
  st ← resolve_bzlmod_use_repo_rule_generated_repos (rm_use_repo_rule_invocations root_module)
         (rm_canonical_repo_name root_module) "root" true (mkGenState aliases [] [] [] []);
  st ← try_fold module_repos_step (add_xcode_config st) selected_keys_in_dependency_order;
  try_fold (λ st usage,
    resolve_bzlmod_extension_usage_generated_repos usage (rm_canonical_repo_name root_module) "root" true false
      root_module names_by_cell unique_names usages_json st) st (rm_extension_usages root_module).
End Generate.

(** ** What generated repositories see *)

(** The first loop: a generated repository sees what its declaring cell sees. *)
Definition map_declaring (st : list (string * string) * BzlmodCellAliases) (pair : string * string) :
    list (string * string) * BzlmodCellAliases :=
  let '(mapped, aliases) := st in
  if bset_contains mapped pair then st
  else
    (bset_insert mapped pair,
     match aliases !! pair.2 with
     | None => aliases
     | Some declaring_aliases =>
         <[pair.1 := declaring_aliases ∪ default ∅ (aliases !! pair.1)]> aliases
     end).

(** The second: it sees the other repositories of its extension. *)
Definition map_group (overrides : BTreeMap string (list (string * string))) (aliases : BzlmodCellAliases)
    (group : string * list (string * string)) : BzlmodCellAliases :=
  let generated_repos := collect_map group.2 in
  let visible_repos := fold_left (λ m kv, <[kv.1 := kv.2]> m) (default [] (btree_get overrides group.1)) generated_repos in
  fold_left (λ aliases cell,
    fold_left (λ aliases repo, add_bzlmod_cell_alias aliases cell repo.1 repo.2) (map_to_list visible_repos) aliases)
    (map_to_list generated_repos).*2 aliases.

Definition add_generated_bzlmod_repo_mappings (aliases : BzlmodCellAliases) (declaring : list (string * string))
    (groups overrides : BTreeMap string (list (string * string))) : BzlmodCellAliases :=
  let '(_, aliases) := fold_left map_declaring declaring ([], aliases) in
  fold_left (map_group overrides) groups aliases.

Definition resolve_generated_bzlmod_repos (host_platform_setup : BzlmodHostPlatformSetup)
    (root_module : RootBzlmodModule) (discovered : DiscoveredBcrModules)
    (selected_keys_in_dependency_order : list ModuleKey) (names : BTreeMap ModuleKey string)
    (direct_root_dep_cells : list string) (names_by_cell : BTreeMap string string)
    (unique_names usages_json : BTreeMap BzlmodExtensionId string) (aliases : BzlmodCellAliases) :
    gresult (list BazelCompatExternalModule * BzlmodCellAliases) :=
  st ← generate_repos host_platform_setup root_module discovered names direct_root_dep_cells names_by_cell
         unique_names usages_json selected_keys_in_dependency_order aliases;
  mret (gs_generated st,
    add_generated_bzlmod_repo_mappings (gs_aliases st) (gs_declaring st) (gs_groups st) (gs_overrides st)).

(** * The result *)

Definition btree_remove {V} (m : BTreeMap ModuleKey V) (key : ModuleKey) : BTreeMap ModuleKey V :=
  filter (λ kv, kv.1 ≠ key) m.

(** The external modules by cell, and the aliases of the root that are left. *)
Definition resolve_module_step (registry : string) (o : Overrides) (discovered : DiscoveredBcrModules)
    (names : BTreeMap ModuleKey string)
    (st : BTreeMap string BazelCompatExternalModule * BTreeMap ModuleKey (list string)) (key : ModuleKey) :
    gresult (BTreeMap string BazelCompatExternalModule * BTreeMap ModuleKey (list string)) :=
  match btree_get discovered key with
  | None => mret st
  | Some m =>
      let aliases := default [] (btree_get st.2 key) in
      let root_aliases_by_key := btree_remove st.2 key in
      canonical_repo_name ← bzlmod_selected_canonical_repo_name names (bd_name (dm_dep m)) (bd_version (dm_dep m));
      mret (if decide (bd_name (dm_dep m) = "bazel_tools") then (st.1, root_aliases_by_key)
            else (btree_insert st.1 (bzlmod_cell_name canonical_repo_name)
                    (external_module registry o aliases canonical_repo_name m), root_aliases_by_key))
  end.

Definition bzlmod_direct_root_dep_cells (names : BTreeMap ModuleKey string)
    (root_aliases_by_key : BTreeMap ModuleKey (list string)) : gresult (list string) :=
  try_fold (λ cells (key : ModuleKey),
    canonical_repo_name ← bzlmod_selected_canonical_repo_name names key.1 key.2;
    mret (bset_insert cells (bzlmod_cell_name canonical_repo_name))) [] (btree_keys root_aliases_by_key).

Definition bzlmod_cell_alias_map_to_vec (aliases : gmap string string) : list (string * string) :=
  map_to_list aliases.

Definition resolve_bcr_modules_from_dep_graph (registry : string) (dep_graph : BzlmodDepGraph) (o : Overrides)
    (usages_json : BTreeMap BzlmodExtensionId string) (host_platform_setup : BzlmodHostPlatformSetup) :
    gresult BcrResolution :=
  let names := dg_canonical_repo_names_by_key dep_graph in
  st ← try_fold (resolve_module_step registry o (dg_discovered dep_graph) names)
         ([], dg_root_aliases_by_key dep_graph) (dg_selected_keys dep_graph);
  direct_root_dep_cells ← bzlmod_direct_root_dep_cells names (dg_root_aliases_by_key dep_graph);
  '(generated, aliases) ←
    resolve_generated_bzlmod_repos host_platform_setup (dg_root_module dep_graph) (dg_discovered dep_graph)
      (dg_selected_keys_in_dependency_order dep_graph) names direct_root_dep_cells
      (dg_canonical_repo_names_by_cell dep_graph) (dg_extension_unique_names dep_graph) usages_json
      (dg_cell_aliases_by_cell dep_graph);
  registered_toolchains ← resolve_bzlmod_registered_toolchains (dg_root_module dep_graph)
    (dg_discovered dep_graph) (dg_selected_keys_in_bfs_order dep_graph) names aliases;
  mret (mkResolution (st.1.*2 ++ generated)
    (default [] (bzlmod_cell_alias_map_to_vec <$> (aliases !! "root")))
    (fold_left (λ m kv, btree_insert m kv.1 (bzlmod_cell_alias_map_to_vec kv.2))
       (map_to_list (delete "root" aliases)) [])
    registered_toolchains).
End Repos.

(** * Evaluation configurations of extensions *)

Record BzlmodModuleExtensionTagConfig := mkTagConfig {
  tc_tag_name : string; tc_dev_dependency : bool; tc_bindings : list (string * string);
  tc_kwargs : list (string * string) }.
Record BzlmodModuleExtensionModuleConfig := mkModuleConfig {
  mc_name : string; mc_version : string; mc_canonical_repo_name : string; mc_is_root : bool;
  mc_extension_bzl_file : string; mc_extension_name : string; mc_cell_aliases : list (string * string);
  mc_constants : list (string * string); mc_tags : list BzlmodModuleExtensionTagConfig }.
Record BzlmodModuleExtensionUsageConfig := mkUsageConfig {
  uc_imports : list BzlmodUseRepoImport; uc_repo_overrides : list BzlmodRepoOverride }.
Record BzlmodModuleExtensionEvaluationConfig := mkEvaluationConfig {
  ec_root_module_has_non_dev_dependency : bool;
  ec_modules : list BzlmodModuleExtensionModuleConfig;
  ec_usages : list BzlmodModuleExtensionUsageConfig;
  ec_repo_overrides : list (string * string);
}.

Definition bzlmod_canonical_repo_name_for_cell_name (cell_name : string) (names_by_cell : BTreeMap string string) :
    gresult string := ok_or (btree_get names_by_cell cell_name) (CellWithoutName cell_name).

(** [sort_unstable] and [dedup] of the aliases of a cell. *)
Definition bzlmod_module_extension_cell_aliases (aliases : BzlmodCellAliases) (cell_name : string) :
    list (string * string) :=
  fold_left bset_insert (map_to_list (default ∅ (aliases !! cell_name))) [].

(** What the usages of one module by one extension collect. *)
Record UsagesState := mkUsagesState {
  us_has_usage : bool;
  us_non_dev : bool;
  us_bzl_file : option string;
  us_name : option string;
  us_tags : list BzlmodModuleExtensionTagConfig;
  us_usages : list BzlmodModuleExtensionUsageConfig;
  us_overrides : BTreeMap string string;
}.

Definition tag_configs (usage : BzlmodExtensionUsage) : list BzlmodModuleExtensionTagConfig :=
  map (λ tag, mkTagConfig (tag_name tag) (eu_dev_dependency usage) (tag_bindings tag) (tag_kwargs tag)) (eu_tags usage).

Definition config_usage_step (aliases : BzlmodCellAliases) (unique_names : BTreeMap BzlmodExtensionId string)
    (names_by_cell : BTreeMap string string) (extension_id : BzlmodExtensionId) (cell : string)
    (st : UsagesState) (usage : BzlmodExtensionUsage) : gresult UsagesState :=
  resolved_extension ← bzlmod_resolve_extension cell usage aliases unique_names;
  if decide (rx_id resolved_extension = extension_id) then
    targets ← bzlmod_extension_repo_override_targets usage cell aliases resolved_extension;
    overrides ← try_fold (λ overrides (target : string * string),
      name ← bzlmod_canonical_repo_name_for_cell_name target.2 names_by_cell;
      mret (btree_insert overrides target.1 name)) (us_overrides st) targets;
    mret (mkUsagesState true (us_non_dev st || negb (eu_dev_dependency usage))
      (Some (default (eu_extension_bzl_file usage) (us_bzl_file st)))
      (Some (default (eu_extension_name usage) (us_name st)))
      (us_tags st ++ tag_configs usage)
      (us_usages st ++ [mkUsageConfig (eu_imports usage) (eu_repo_overrides usage)]) overrides)
  else mret st.

Definition fresh_module (st : UsagesState) : UsagesState :=
  mkUsagesState false (us_non_dev st) None None [] (us_usages st) (us_overrides st).

(** [bzlmod_module_extension_evaluation_config_json], before the serialization. *)
Definition bzlmod_module_extension_evaluation_config (root_module : RootBzlmodModule)
    (discovered : DiscoveredBcrModules) (selected_keys_in_bfs_order : list ModuleKey)
    (names : BTreeMap ModuleKey string) (names_by_cell : BTreeMap string string) (aliases : BzlmodCellAliases)
    (extension_id : BzlmodExtensionId) (unique_names : BTreeMap BzlmodExtensionId string) :
    gresult BzlmodModuleExtensionEvaluationConfig :=
  let step := config_usage_step aliases unique_names names_by_cell extension_id in
  root ← try_fold (step "root") (mkUsagesState false false None None [] [] []) (rm_extension_usages root_module);
  let modules :=
    if us_has_usage root then
      [mkModuleConfig (rm_name root_module) (rm_version root_module) (rm_canonical_repo_name root_module) true
         (default "" (us_bzl_file root)) (default "" (us_name root))
         (bzlmod_module_extension_cell_aliases aliases "root") (rm_constants root_module) (us_tags root)]
    else [] in
  '(modules, st) ← try_fold (λ acc key,
    match btree_get discovered key with
    | None => mret acc
    | Some m =>
        canonical_repo_name ← bzlmod_selected_canonical_repo_name names (bd_name (dm_dep m)) (bd_version (dm_dep m));
        let cell := bzlmod_cell_name canonical_repo_name in
        st ← try_fold (step cell) (fresh_module acc.2) (dm_extension_usages m);
        mret (if us_has_usage st then
                (acc.1 ++ [mkModuleConfig (bd_name (dm_dep m)) (bd_version (dm_dep m)) canonical_repo_name false
                   (default "" (us_bzl_file st)) (default "" (us_name st))
                   (bzlmod_module_extension_cell_aliases aliases cell) (dm_constants m) (us_tags st)], st)
              else (acc.1, st))
    end) (modules, fresh_module root) selected_keys_in_bfs_order;
  mret (mkEvaluationConfig (us_non_dev root) modules (us_usages st) (us_overrides st)).

Definition extension_overrides_step (dep_graph : BzlmodDepGraph) (extension_id : BzlmodExtensionId)
    (parent_cell_name : string) (targets : BTreeMap string string) (usage : BzlmodExtensionUsage) :
    gresult (BTreeMap string string) :=
  resolved_extension ← bzlmod_resolve_extension parent_cell_name usage (dg_cell_aliases_by_cell dep_graph)
    (dg_extension_unique_names dep_graph);
  if decide (rx_id resolved_extension = extension_id) then
    overrides ← bzlmod_extension_repo_override_targets usage parent_cell_name (dg_cell_aliases_by_cell dep_graph)
      resolved_extension;
    mret (fold_left (λ m (o : string * string), btree_insert m o.1 o.2) overrides targets)
  else mret targets.

Definition bzlmod_module_extension_repo_overrides_for_extension (dep_graph : BzlmodDepGraph)
    (extension_id : BzlmodExtensionId) : gresult (list (string * string)) :=
  targets ← try_fold (extension_overrides_step dep_graph extension_id "root") []
    (rm_extension_usages (dg_root_module dep_graph));
  fold_usages (dg_discovered dep_graph) (dg_canonical_repo_names_by_key dep_graph)
    (extension_overrides_step dep_graph extension_id) (dg_selected_keys dep_graph) targets.

(** * Aliases for the cells of the program *)

(** [raw.into_iter().flat_map(str::lines).map(str::trim)]: the last constraint of each kind counts. *)
Definition constraint_step (setup : BzlmodHostPlatformSetup) (line : string) : BzlmodHostPlatformSetup :=
  match strip_prefix "@platforms//cpu:" (trim line) with
  | Some cpu => mkHostPlatform (Some cpu) (hp_os_constraint setup)
  | None =>
      match strip_prefix "@platforms//os:" (trim line) with
      | Some os => mkHostPlatform (hp_cpu_constraint setup) (Some os)
      | None => setup
      end
  end.
Definition bzlmod_host_platform_setup_from_constraints (raw : option string) : BzlmodHostPlatformSetup :=
  fold_left constraint_step (match raw with Some raw => str_lines raw | None => [] end) (mkHostPlatform None None).

(** [cell_aliases.rs]; an alias is a pair of the alias and the name of the cell. *)
Record BazelModuleCellAliases := mkModuleCellAliases {
  ma_root_aliases : list (string * string);
  ma_cell_aliases : BTreeMap string (list (string * string));
  ma_external_modules : list BazelCompatExternalModule;
  ma_registered_toolchains : list string;
}.

Definition with_root_aliases (self : BazelModuleCellAliases) (aliases : list (string * string)) :
    BazelModuleCellAliases :=
  mkModuleCellAliases aliases (ma_cell_aliases self) (ma_external_modules self) (ma_registered_toolchains self).

Definition add_bzlmod_root_dep_aliases (self : BazelModuleCellAliases) (root_deps : list BazelDep) :
    BazelModuleCellAliases :=
  with_root_aliases self (ma_root_aliases self ++
    omap (λ dep,
      (λ alias, (alias, bzlmod_cell_name (bzlmod_canonical_repo_name (bd_name dep) (bd_version dep) false)))
        <$> bd_apparent_name dep) root_deps).

(** [BazelCompatCellAlias::with_actual_root_cell] *)
Definition with_actual_root_cell (root_cell_name : string) (alias : string * string) : string * string :=
  (alias.1, if decide (alias.2 = "root") then root_cell_name else alias.2).

Definition aliases_for_cell (self : BazelModuleCellAliases) (cell_name root_cell_name : string) :
    list (string * string) :=
  map (with_actual_root_cell root_cell_name)
    (if decide (cell_name = root_cell_name) then ma_root_aliases self
     else default [] (btree_get (ma_cell_aliases self) cell_name)).
