(* ===== verification/ModReposSpec.v ===== *)
(** Properties of [ModRepos]: while repositories are generated, every alias leads to a repository that
    exists, and aliases that are there stay. *)
From stdpp Require Import gmap.
From S2P Require Import Prelude.
From S2P Require Import RustStr.
From S2P Require Import RustStrSpec.
From S2P Require Import RustOrd.
From S2P Require Import ModVersion.
From S2P Require Import ModSelect.
From S2P Require Import ModSelectSpec.
From S2P Require Import ModResolution.
From S2P Require Import ModGraph.
From S2P Require Import ModGraphSpec.
From S2P Require Import ModNames.
From S2P Require Import ModGraphCorrect.
From S2P Require Import ModRepos.
Local Open Scope dice_scope.
Local Open Scope string_scope.
Local Open Scope nat_scope.
Local Open Scope list_scope.

Section Repos.
Context (ser : Serializers).
(** The cells that exist before any repository is generated. *)
Context (base : string → Prop).

Definition generated_cells (st : GenState) : list string := map external_cell_name (gs_generated st).
Definition known (st : GenState) (c : string) : Prop := base c ∨ c ∈ generated_cells st.

Notation target st := (bzlmod_cell_alias_target (gs_aliases st)).

Record gen_inv (st : GenState) : Prop := {
  gi_aliases c a t : target st c a = Some t → known st t;
  gi_groups_wf : btree_wf (gs_groups st);
  gi_groups key l r c : btree_get (gs_groups st) key = Some l → (r, c) ∈ l → c ∈ generated_cells st;
  gi_overrides_wf : btree_wf (gs_overrides st);
  gi_overrides key l r c : btree_get (gs_overrides st) key = Some l → (r, c) ∈ l → known st c;
  gi_generated m : m ∈ gs_generated st → ∃ x, m = Generated x ∧ xx_cell_name x = xx_canonical_repo_name x;
}.

(** Repositories and aliases are only added, or aliases made to stand for others. *)
Record grows (st st' : GenState) : Prop := {
  gr_cells c : c ∈ generated_cells st → c ∈ generated_cells st';
  gr_aliases c a : is_Some (target st c a) → is_Some (target st' c a);
}.

#[export] Instance grows_refl : Reflexive grows.
Proof. by split. Qed.
#[export] Instance grows_trans : Transitive grows.
Proof. intros st1 st2 st3 [H1 H2] [H3 H4]. split; auto. Qed.

Definition kept (st st' : GenState) : Prop := gen_inv st' ∧ grows st st'.

Lemma known_grows st st' c : grows st st' → known st c → known st' c.
Proof. intros H [?|?]; [by left|right; by apply H]. Qed.

Lemma kept_refl st : gen_inv st → kept st st.
Proof. by split. Qed.

Lemma kept_trans st1 st2 st3 : kept st1 st2 → kept st2 st3 → kept st1 st3.
Proof. intros [_ H1] [? H2]. split; [done|by etrans]. Qed.

(** ** Steps *)

(** A new alias for a known cell. *)
Lemma add_alias_kept st c a t :
  gen_inv st → known st t → kept st (with_aliases st (add_bzlmod_cell_alias (gs_aliases st) c a t)).
Proof.
  intros H Ht. split.
  - split; cbn; try apply H.
    intros c' a' t'. rewrite alias_target_add. case_decide; [intros [= <-]; exact Ht|apply H].
  - split; [done|]. intros c' a'. cbn. rewrite alias_target_add. case_decide; [by eexists|done].
Qed.

Lemma add_alias_target st c a t :
  target (with_aliases st (add_bzlmod_cell_alias (gs_aliases st) c a t)) c a = Some t.
Proof. cbn. rewrite alias_target_add. by rewrite decide_True. Qed.

Lemma root_alias_target al a t c' a' :
  bzlmod_cell_alias_target (add_bzlmod_root_generated_repo_alias al a t) c' a' =
  match bzlmod_cell_alias_target al c' a' with
  | Some t' => Some t'
  | None => if decide (c' = "root" ∧ a' = a) then Some t else None
  end.
Proof.
  unfold add_bzlmod_root_generated_repo_alias, bzlmod_cell_alias_target. cbv zeta.
  destruct (decide (c' = "root")) as [->|Hc].
  - rewrite lookup_insert_eq. simpl. destruct (al !! "root") as [m|]; simpl.
    + destruct (m !! a) as [u|] eqn:Ha.
      * destruct (m !! a') eqn:Ha'; [done|]. rewrite decide_False; [done|]. intros [_ ->]. congruence.
      * destruct (decide (a' = a)) as [->|Hne].
        -- rewrite lookup_insert_eq, Ha. by rewrite decide_True.
        -- rewrite lookup_insert_ne by done. destruct (m !! a'); [done|]. by rewrite decide_False by tauto.
    + rewrite lookup_empty. destruct (decide (a' = a)) as [->|Hne].
      * rewrite lookup_insert_eq. by rewrite decide_True.
      * rewrite lookup_insert_ne by done. rewrite lookup_empty. by rewrite decide_False by tauto.
  - rewrite lookup_insert_ne by done. destruct (al !! c') as [m|]; simpl; [|by rewrite decide_False by tauto].
    destruct (m !! a'); [done|]. by rewrite decide_False by tauto.
Qed.

Lemma mirror_kept b st a t : gen_inv st → known st t → kept st (mirror_to_root b st a t).
Proof.
  intros H Ht. unfold mirror_to_root. destruct b; [|by apply kept_refl]. split.
  - split; cbn; try apply H. intros c' a' t'. rewrite root_alias_target.
    destruct (target st c' a') as [u|] eqn:Hu; [intros [= <-]; exact (gi_aliases st H c' a' u Hu)|].
    case_decide; [intros [= <-]; exact Ht|done].
  - split; [done|]. intros c' a' [u Hu]. cbn. rewrite root_alias_target, Hu. by eexists.
Qed.

Lemma generated_cells_app st x :
  map external_cell_name (gs_generated st ++ [x]) = generated_cells st ++ [external_cell_name x].
Proof. unfold generated_cells. by rewrite map_app. Qed.

(** A new repository, without an alias. *)
Lemma unimported_kept st declaring name generator :
  gen_inv st →
  kept st (add_unimported_generated_bzlmod_repo ser st declaring name generator) ∧
  name ∈ generated_cells (add_unimported_generated_bzlmod_repo ser st declaring name generator).
Proof.
  intros H. set (st' := add_unimported_generated_bzlmod_repo ser st declaring name generator).
  assert (Hcells : generated_cells st' = generated_cells st ++ [name]) by apply generated_cells_app.
  assert (Hgrows : grows st st').
  { split; [|done]. intros c Hc. rewrite Hcells. apply elem_of_app. by left. }
  split; [split; [|done]|rewrite Hcells; apply elem_of_app; right; by left].
  split.
  - intros c a t Ht. eapply known_grows; [done|]. by eapply (gi_aliases st H).
  - apply (gi_groups_wf st H).
  - intros key l r c Hl Hr. apply Hgrows. by eapply (gi_groups st H).
  - apply (gi_overrides_wf st H).
  - intros key l r c Hl Hr. eapply known_grows; [done|]. by eapply (gi_overrides st H).
  - intros m [Hm|Hm]%elem_of_app; [by apply (gi_generated st H)|].
    apply list_elem_of_singleton in Hm as ->. eexists. split; [done|]. done.
Qed.

(** A new repository with an alias. *)
Lemma generated_kept st importing alias mapping name generator :
  gen_inv st →
  let st' := add_generated_bzlmod_repo_with_mapping_cell ser st importing alias mapping name generator in
  kept st st' ∧ name ∈ generated_cells st' ∧ target st' importing alias = Some name.
Proof.
  intros H. cbv zeta. unfold add_generated_bzlmod_repo_with_mapping_cell, bzlmod_cell_name.
  set (al := add_bzlmod_cell_alias (gs_aliases st) importing alias name).
  set (st' := add_unimported_generated_bzlmod_repo ser (with_aliases st al) mapping name generator).
  destruct (unimported_kept st mapping name generator H) as [[Hinv Hg] Hin].
  assert (Hcells : generated_cells st' =
    generated_cells (add_unimported_generated_bzlmod_repo ser st mapping name generator)) by done.
  assert (Halias : ∀ c a, target st' c a = if decide (importing = c ∧ alias = a) then Some name else target st c a).
  { intros c a. apply alias_target_add. }
  split_and!; [split; split|by rewrite Hcells|rewrite Halias; by rewrite decide_True].
  - intros c a t. rewrite Halias. case_decide.
    + intros [= <-]. right. by rewrite Hcells.
    + intros Ht. apply (gi_aliases _ Hinv c a t Ht).
  - apply Hinv.
  - apply (gi_groups _ Hinv).
  - apply Hinv.
  - apply (gi_overrides _ Hinv).
  - apply (gi_generated _ Hinv).
  - intros c Hc. rewrite Hcells. by apply Hg.
  - intros c a Ha. rewrite Halias. case_decide; [by eexists|done].
Qed.

Lemma extend_group_get m key values key' :
  btree_wf m → btree_get (extend_group m key values) key' =
  if decide (key' = key) then Some (default [] (btree_get m key) ++ values) else btree_get m key'.
Proof.
  intros Hm. unfold extend_group. case_decide; [subst; by apply btree_get_insert_eq|by apply btree_get_insert_ne].
Qed.

Lemma push_group_kept st key r c :
  gen_inv st → c ∈ generated_cells st → kept st (push_group st key (r, c)).
Proof.
  intros H Hc. split; [|by split]. split; try apply H.
  - apply btree_insert_wf, H.
  - intros key' l r' c'. cbn [push_group gs_groups]. rewrite extend_group_get by apply H. case_decide.
    + intros [= <-] [Hin|Hin]%elem_of_app.
      * destruct (btree_get (gs_groups st) key) as [l|] eqn:Hl; [|by apply elem_of_nil in Hin].
        by eapply (gi_groups st H).
      * apply list_elem_of_singleton in Hin as [= -> ->]. done.
    + apply (gi_groups st H).
Qed.

Lemma push_overrides_kept st key targets :
  gen_inv st → (∀ r c, (r, c) ∈ targets → known st c) → kept st (push_overrides st key targets).
Proof.
  intros H Ht. unfold push_overrides. case_decide; [by apply kept_refl|]. split; [|by split]. split; try apply H.
  - apply btree_insert_wf, H.
  - intros key' l r' c'. cbn [gs_overrides]. rewrite extend_group_get by apply H. case_decide.
    + intros [= <-] [Hin|Hin]%elem_of_app; [|by eapply Ht].
      destruct (btree_get (gs_overrides st) key) as [l|] eqn:Hl; [|by apply elem_of_nil in Hin].
      by eapply (gi_overrides st H).
    + apply (gi_overrides st H).
Qed.

(** ** Maps from lists *)

Lemma fold_insert_lookup (l : list (string * string)) (m : gmap string string) k v :
  fold_left (λ m kv, <[kv.1 := kv.2]> m) l m !! k = Some v → (k, v) ∈ l ∨ m !! k = Some v.
Proof.
  revert m. induction l as [|[k' v'] l IH]; intros m; simpl; [by right|].
  intros [H|H]%IH; [left; by right|]. apply lookup_insert_Some in H as [[-> ->]|[_ H]]; [left; by left|by right].
Qed.

Lemma fold_insert_is_Some (l : list (string * string)) (m : gmap string string) k :
  k ∈ l.*1 ∨ is_Some (m !! k) → is_Some (fold_left (λ m kv, <[kv.1 := kv.2]> m) l m !! k).
Proof.
  revert m. induction l as [|[k' v'] l IH]; intros m; simpl; [by intros [?%elem_of_nil|?]|].
  intros [[->|H]%elem_of_cons|H]; apply IH; [right; rewrite lookup_insert_eq; by eexists|by left|right].
  destruct (decide (k' = k)) as [->|Hne]; [rewrite lookup_insert_eq; by eexists|by rewrite lookup_insert_ne].
Qed.

Lemma collect_map_lookup l k v : collect_map l !! k = Some v → (k, v) ∈ l.
Proof. intros [?|H]%fold_insert_lookup; [done|]. by rewrite lookup_empty in H. Qed.

(** ** Loops *)

Lemma try_fold_kept {A} (f : GenState → A → gresult GenState) (Q : A → GenState → Prop) E l st :
  (∀ a st st', Q a st → grows st st' → Q a st') →
  (∀ st a, a ∈ l → gen_inv st → gspec (f st a) (λ st', kept st st' ∧ Q a st') E) →
  gen_inv st → gspec (try_fold f st l) (λ st', kept st st' ∧ ∀ a, a ∈ l → Q a st') E.
Proof.
  intros HQ Hstep Hinv.
  apply (gspec_try_fold _ (λ l st', kept st st' ∧ ∀ a, a ∈ l → Q a st')).
  - split; [by apply kept_refl|]. by intros a ?%elem_of_nil.
  - intros l1 a l2 st1 Hl [Hk Hq]. eapply gspec_mono; [apply Hstep| |done].
    + rewrite Hl. apply elem_of_app. right. by left.
    + apply Hk.
    + intros st2 [Hk2 Hq2]. split; [by eapply kept_trans|].
      intros b [Hb|Hb]%elem_of_app; [|apply list_elem_of_singleton in Hb as ->; done].
      eapply HQ; [by apply Hq|apply Hk2].
Qed.

Lemma fold_kept {A} (f : GenState → A → GenState) l st :
  (∀ st a, gen_inv st → kept st (f st a)) → gen_inv st → kept st (fold_left f l st).
Proof.
  intros Hstep. revert st. induction l as [|a l IH]; intros st Hinv; simpl; [by apply kept_refl|].
  eapply kept_trans; [by apply Hstep|]. apply IH. by apply Hstep.
Qed.

(** The errors that can remain. *)
Definition gen_error (e : GraphError) : Prop :=
  match e with
  | NoCanonicalName _ _ | ExtensionUnknownCell _ | CellWithoutName _ | NoUsagesValue _ => False
  | _ => True
  end.

Lemma label_gen_error e : label_error e → gen_error e.
Proof. by destruct e. Qed.

Lemma use_repo_rules_kept invocations parent cell is_root st :
  gen_inv st →
  gspec (resolve_bzlmod_use_repo_rule_generated_repos ser invocations parent cell is_root st) (kept st) gen_error.
Proof.
  intros Hinv. unfold resolve_bzlmod_use_repo_rule_generated_repos. eapply gspec_mono.
  - apply (try_fold_kept _ (λ _ _, True)); [done| |done]. intros st1 i _ H1. unfold use_repo_rule_step.
    eapply gspec_bind; [eapply gspec_mono; [apply resolve_label_spec|intros x Hx; exact Hx|apply label_gen_error]|].
    intros [c path] _. cbn [mret gresult_ret gspec]. split; [|done].
    by apply generated_kept.
  - by intros st' [? _].
  - done.
Qed.

(** ** Usages of extensions *)

Section Usages.
Context (root_module : RootBzlmodModule) (names_by_cell : BTreeMap string string).
Context (unique_names usages_json : BTreeMap BzlmodExtensionId string).
Hypothesis unique_in_cell : ∀ id, is_Some (btree_get unique_names id) →
  is_Some (btree_get names_by_cell (xi_bzl_cell_name id)).
Hypothesis unique_json : ∀ id, is_Some (btree_get unique_names id) → is_Some (btree_get usages_json id).

Lemma resolve_extension_gen cell usage aliases :
  gspec (bzlmod_resolve_extension cell usage aliases unique_names)
    (λ x, btree_get unique_names (rx_id x) = Some (rx_unique_name x)) gen_error.
Proof.
  unfold bzlmod_resolve_extension. eapply gspec_bind.
  { eapply gspec_mono; [apply resolve_extension_id_spec|intros x Hx; exact Hx|apply label_gen_error]. }
  intros id _. destruct (btree_get unique_names id) eqn:Hid; [|done]. exact Hid.
Qed.

Lemma lockfile_key_gen id :
  is_Some (btree_get unique_names id) →
  gspec (bzlmod_lockfile_extension_key id names_by_cell) (λ _, True) gen_error.
Proof.
  intros Hid%unique_in_cell. unfold bzlmod_lockfile_extension_key. case_decide; [done|].
  destruct Hid as [n ->]. done.
Qed.

(** Inside the loop over the imports of a usage. *)
Definition usage_inv (targets : BTreeMap string string) (us : UsageState) : Prop :=
  gen_inv us.1.1 ∧
  (∀ r c, us.1.2 !! r = Some c → c ∈ generated_cells us.1.1) ∧
  (∀ r t, btree_get targets r = Some t → known us.1.1 t).

Lemma import_step_spec usage parent cell is_root mirror x targets json us import :
  usage_inv targets us →
  gspec (import_step ser usage parent cell is_root mirror x targets json us import)
    (λ us', usage_inv targets us' ∧ kept us.1.1 us'.1.1 ∧ is_Some (target us'.1.1 cell (ui_alias import))) gen_error.
Proof.
  destruct us as [[gs existing] names]. intros (Hinv & Hex & Ht). cbn [fst snd] in *. unfold import_step.
  assert (Hlink : ∀ t names', known gs t →
    gspec (mret (mirror_to_root mirror (with_aliases gs (add_bzlmod_cell_alias (gs_aliases gs) cell (ui_alias import) t))
                   (ui_alias import) t, existing, names') : gresult UsageState)
      (λ us', usage_inv targets us' ∧ kept gs us'.1.1 ∧ is_Some (target us'.1.1 cell (ui_alias import))) gen_error).
  { intros t names' Hkn.
    pose proof (add_alias_kept gs cell (ui_alias import) t Hinv Hkn) as K1.
    assert (K2 := mirror_kept mirror _ (ui_alias import) t (proj1 K1) Hkn).
    pose proof (kept_trans _ _ _ K1 K2) as K. cbn [mret gresult_ret gspec fst snd]. split_and!; [split_and!|done|].
    - apply K.
    - intros r c Hc. apply K. by eapply Hex.
    - intros r t' Hr. eapply known_grows; [apply K|]. by eapply Ht.
    - apply (gr_aliases _ _ (proj2 K2)). rewrite add_alias_target. by eexists. }
  destruct (btree_get targets (ui_repo_name import)) as [t|] eqn:Htarget.
  { destruct (existsb _ (eu_repo_overrides usage)); [done|]. apply Hlink. by eapply Ht. }
  destruct (existing !! ui_repo_name import) as [c|] eqn:Hc; cbv zeta.
  { apply Hlink. right. by eapply Hex. }
  set (name := bzlmod_extension_repo_canonical_repo_name x (ui_repo_name import)). unfold bzlmod_cell_name.
  destruct (generated_kept gs cell (ui_alias import) (xi_bzl_cell_name (rx_id x)) name
    (bzlmod_module_extension_repo_config ser x parent is_root usage (ui_repo_name import) json) Hinv)
    as (K1 & Hin & Halias).
  set (gs1 := add_generated_bzlmod_repo_with_mapping_cell _ _ _ _ _ _ _) in *.
  assert (K2 := mirror_kept mirror gs1 (ui_alias import) name (proj1 K1) (or_intror Hin)).
  assert (Hin2 : name ∈ generated_cells (mirror_to_root mirror gs1 (ui_alias import) name)) by (by apply K2).
  assert (K3 := push_group_kept _ (rx_unique_name x) (ui_repo_name import) name (proj1 K2) Hin2).
  pose proof (kept_trans _ _ _ K1 (kept_trans _ _ _ K2 K3)) as K.
  cbn [mret gresult_ret gspec fst snd]. split_and!; [split_and!|done|].
  - apply K.
  - intros r c. cbn [fst snd]. intros [[_ <-]|[_ Hr]]%lookup_insert_Some; [exact Hin2|].
    apply K. by eapply Hex.
  - intros r t' Hr. eapply known_grows; [apply K|]. by eapply Ht.
  - apply (gr_aliases _ _ (proj2 K3)), (gr_aliases _ _ (proj2 K2)). rewrite Halias. by eexists.
Qed.

Lemma repo_step_kept usage parent is_root x json st name :
  gen_inv st.1 → kept st.1 (repo_step ser usage parent is_root x json st name).1.
Proof.
  intros Hinv. unfold repo_step. destruct (st.2 !! name); [by apply kept_refl|]. cbv zeta. cbn [fst].
  destruct (unimported_kept st.1 (xi_bzl_cell_name (rx_id x)) (bzlmod_extension_repo_canonical_repo_name x name)
    (bzlmod_module_extension_repo_config ser x parent is_root usage name json) Hinv) as [K Hin].
  eapply kept_trans; [exact K|]. by apply push_group_kept; [apply K|].
Qed.

Lemma elem_of_fold_bset_insert {A} `{TotalOrd A} (l s : list A) x :
  x ∈ fold_left bset_insert l s ↔ x ∈ l ∨ x ∈ s.
Proof.
  revert s. induction l as [|a l IH]; intros s; simpl; [rewrite elem_of_nil; tauto|].
  rewrite IH, elem_of_bset_insert, elem_of_cons. tauto.
Qed.

(** Every import of a usage is an alias afterwards. *)
Lemma usage_repos_spec usage parent cell is_root mirror st :
  gen_inv st →
  gspec (resolve_bzlmod_extension_usage_generated_repos ser usage parent cell is_root mirror root_module
           names_by_cell unique_names usages_json st)
    (λ st', kept st st' ∧ ∀ import, import ∈ eu_imports usage → is_Some (target st' cell (ui_alias import)))
    gen_error.
Proof.
  intros Hinv. unfold resolve_bzlmod_extension_usage_generated_repos.
  eapply gspec_bind; [apply resolve_extension_gen|]. intros x Hx. cbv beta in Hx.
  eapply gspec_bind; [apply lockfile_key_gen; eexists; exact Hx|]. intros key _. cbv zeta.
  eapply gspec_bind.
  { eapply gspec_mono; [apply override_targets_spec|intros m Hm; exact Hm|by intros []]. }
  intros targets [Hwf Htargets].
  assert (Hknown : ∀ r t, btree_get targets r = Some t → known st t).
  { intros r t (o & _ & _ & Ho)%Htargets. by eapply (gi_aliases st Hinv). }
  assert (K0 : kept st (push_overrides st (rx_unique_name x) targets)).
  { apply push_overrides_kept; [done|]. intros r c Hr. eapply (Hknown r). by apply btree_get_Some. }
  assert (Halias : gs_aliases (push_overrides st (rx_unique_name x) targets) = gs_aliases st).
  { unfold push_overrides. by case_decide. }
  assert (Hcells : generated_cells (push_overrides st (rx_unique_name x) targets) = generated_cells st).
  { unfold push_overrides. by case_decide. }
  set (st0 := push_overrides st (rx_unique_name x) targets) in *.
  set (imports := filter _ (eu_imports usage)).
  destruct (unique_json (rx_id x)) as [json Hjson]; [eexists; exact Hx|]. rewrite Hjson. cbn [ok_or mbind gresult_bind].
  assert (Hother : ∀ import, import ∈ eu_imports usage → import ∈ imports ∨ is_Some (target st cell (ui_alias import))).
  { intros import Hi. destruct (target st cell (ui_alias import)) eqn:E; [right; by eexists|left].
    apply list_elem_of_filter. done. }
  case_decide as Hnil.
  { cbn [mret gresult_ret gspec]. split; [done|]. intros import Hi. rewrite Halias.
    destruct (Hother import Hi) as [Hin|?]; [|done]. exfalso.
    assert (Hn : ui_repo_name import ∈ static_repo_names root_module usage imports key).
    { apply elem_of_fold_bset_insert. left. apply elem_of_app. left. apply list_elem_of_fmap. by exists import. }
    rewrite Hnil in Hn. by apply elem_of_nil in Hn. }
  assert (Husage : usage_inv targets (st0, collect_map (default [] (btree_get (gs_groups st) (rx_unique_name x))),
            static_repo_names root_module usage imports key)).
  { split_and!; [apply K0| |].
    - intros r c Hc%collect_map_lookup. cbn [fst snd]. rewrite Hcells.
      destruct (btree_get (gs_groups st) (rx_unique_name x)) as [l|] eqn:Hl; [|by apply elem_of_nil in Hc].
      by eapply (gi_groups st Hinv).
    - intros r t Ht. eapply known_grows; [apply K0|]. by eapply Hknown. }
  eapply gspec_bind.
  { apply (gspec_try_fold _ (λ l us, usage_inv targets us ∧ kept st us.1.1 ∧
      ∀ import, import ∈ l → is_Some (target us.1.1 cell (ui_alias import)))).
    - split_and!; [exact Husage|exact K0|by intros import ?%elem_of_nil].
    - intros l1 import l2 us _ (Hu & Hk & Hdone). eapply gspec_mono; [by apply import_step_spec| |done].
      intros us' (Hu' & Hk' & Himport). split_and!; [done|by eapply kept_trans|].
      intros i [Hi|Hi]%elem_of_app; [apply Hk'; by apply Hdone|by apply list_elem_of_singleton in Hi as ->]. }
  intros [[gs existing] names] (Hu & Hk & Hdone). cbn [fst snd] in *. cbn [mret gresult_ret gspec].
  assert (K : ∀ l s, gen_inv s.1 → kept s.1 (fold_left (repo_step ser usage parent is_root x json) l s).1).
  { induction l as [|n l IH]; intros s Hs; simpl; [by apply kept_refl|].
    pose proof (repo_step_kept usage parent is_root x json s n Hs) as K1. eapply kept_trans; [exact K1|].
    apply IH, K1. }
  specialize (K names (gs, existing) (proj1 Hk)). cbn [fst] in K. split; [by eapply kept_trans|].
  intros import Hi. apply K. destruct (Hother import Hi) as [Hin|Hsome]; [by apply Hdone|]. by apply Hk.
Qed.
End Usages.
End Repos.
