(* ===== verification/ModReposCorrect.v ===== *)
(** The contract of [ModRepos.resolve_bcr_modules_from_dep_graph]: every name that a repository sees leads to
    a repository of the result, and every import of an extension is seen. *)
From stdpp Require Import gmap.
From S2P Require Import Prelude.
From S2P Require Import RustStr.
From S2P Require Import RustStrSpec.
From S2P Require Import RustOrd.
From S2P Require Import ModVersion.
From S2P Require Import ModSelect.
From S2P Require Import ModSelectSpec.
From S2P Require Import ModResolution.
From S2P Require Import ModGraph.
From S2P Require Import ModGraphSpec.
From S2P Require Import ModNames.
From S2P Require Import ModGraphCorrect.
From S2P Require Import ModRepos.
From S2P Require Import ModReposSpec.
Local Open Scope dice_scope.
Local Open Scope string_scope.
Local Open Scope nat_scope.
Local Open Scope list_scope.

(** * What generated repositories see *)

(** All aliases lead to cells that satisfy [P]. *)
Definition closed (P : string → Prop) (al : BzlmodCellAliases) : Prop :=
  ∀ c a t, bzlmod_cell_alias_target al c a = Some t → P t.
(** No alias is lost. *)
Definition covers (al al' : BzlmodCellAliases) : Prop :=
  ∀ c a, is_Some (bzlmod_cell_alias_target al c a) → is_Some (bzlmod_cell_alias_target al' c a).

Definition extended (P : string → Prop) (al al' : BzlmodCellAliases) : Prop := closed P al' ∧ covers al al'.

Lemma extended_refl P al : closed P al → extended P al al.
Proof. intros H. split; [done|by intros c a]. Qed.
Lemma extended_trans P al1 al2 al3 : extended P al1 al2 → extended P al2 al3 → extended P al1 al3.
Proof. intros [_ H1] [H2 H3]. split; [done|]. intros c a Ha. by apply H3, H1. Qed.

Lemma extended_fold {A} P (f : BzlmodCellAliases → A → BzlmodCellAliases) l al :
  (∀ al a, a ∈ l → closed P al → extended P al (f al a)) → closed P al → extended P al (fold_left f l al).
Proof.
  revert al. induction l as [|a l IH]; intros al Hf Hal; simpl; [by apply extended_refl|].
  assert (H1 : extended P al (f al a)) by (apply Hf; [by left|done]).
  eapply extended_trans; [exact H1|]. apply IH; [|apply H1]. intros al' b Hb. apply Hf. by right.
Qed.

Lemma extended_add P al c a t : closed P al → P t → extended P al (add_bzlmod_cell_alias al c a t).
Proof.
  intros Hal Ht. split.
  - intros c' a' t'. rewrite alias_target_add. case_decide; [by intros [= <-]|apply Hal].
  - intros c' a'. rewrite alias_target_add. case_decide; [by eexists|done].
Qed.

(** A cell also sees what another one sees. *)
Lemma extended_union P (al : BzlmodCellAliases) c m :
  closed P al → (∀ a t, m !! a = Some t → P t) →
  extended P al (<[c := m ∪ default ∅ (al !! c)]> al).
Proof.
  intros Hal Hm. assert (Hc : ∀ a, (default ∅ (al !! c)) !! a = bzlmod_cell_alias_target al c a).
  { intros a. unfold bzlmod_cell_alias_target. destruct (al !! c); simpl; [done|apply lookup_empty]. }
  split; intros c' a; unfold bzlmod_cell_alias_target at 1; [intros t|unfold bzlmod_cell_alias_target];
    (destruct (decide (c' = c)) as [->|Hne]; [rewrite lookup_insert_eq|rewrite lookup_insert_ne by done]); simpl.
  - intros [H|[_ H]]%lookup_union_Some_raw; [by eapply Hm|]. rewrite Hc in H. by eapply Hal.
  - apply Hal.
  - intros H. apply lookup_union_is_Some. right. rewrite Hc. exact H.
  - done.
Qed.

Lemma map_declaring_extended P l mapped al :
  closed P al → extended P al (fold_left map_declaring l (mapped, al)).2.
Proof.
  revert mapped al. induction l as [|[g d] l IH]; intros mapped al Hal; simpl; [by apply extended_refl|].
  destruct (bset_contains mapped (g, d)); [by apply IH|].
  destruct (al !! d) as [m|] eqn:Hd; [|by apply IH].
  assert (H1 : extended P al (<[g := m ∪ default ∅ (al !! g)]> al)).
  { apply extended_union; [done|]. intros a t Ht. apply (Hal d a). unfold bzlmod_cell_alias_target. by rewrite Hd. }
  eapply extended_trans; [exact H1|]. apply IH, H1.
Qed.

Lemma map_group_extended P overrides al group :
  closed P al → (∀ r c, (r, c) ∈ group.2 → P c) →
  (∀ l r c, btree_get overrides group.1 = Some l → (r, c) ∈ l → P c) →
  extended P al (map_group overrides al group).
Proof.
  intros Hal Hgroup Hover. unfold map_group. cbv zeta. apply extended_fold; [|done].
  intros al1 cell _ Hal1. apply extended_fold; [|done].
  intros al2 [r c] Hr Hal2. apply extended_add; [done|]. cbn [snd].
  apply elem_of_map_to_list, fold_insert_lookup in Hr as [Hr|Hr%collect_map_lookup]; [|by eapply Hgroup].
  destruct (btree_get overrides group.1) as [l|] eqn:Hl; [|by apply elem_of_nil in Hr]. by eapply Hover.
Qed.

(** The mappings of generated repositories lead to known repositories. *)
Lemma mappings_extended base st :
  gen_inv base st →
  extended (known base st) (gs_aliases st)
    (add_generated_bzlmod_repo_mappings (gs_aliases st) (gs_declaring st) (gs_groups st) (gs_overrides st)).
Proof.
  intros Hinv. unfold add_generated_bzlmod_repo_mappings.
  assert (Hal : closed (known base st) (gs_aliases st)) by (intros c a t; apply (gi_aliases _ _ Hinv)).
  pose proof (map_declaring_extended _ (gs_declaring st) [] _ Hal) as H1.
  destruct (fold_left map_declaring (gs_declaring st) ([], gs_aliases st)) as [mapped al]. cbn [snd] in H1.
  eapply extended_trans; [exact H1|]. apply extended_fold; [|apply H1].
  intros al' [key l] Hl Hal'. apply map_group_extended; [done| |].
  - intros r c Hr. right. eapply (gi_groups _ _ Hinv key l); [|exact Hr]. apply btree_get_Some; [|done].
    apply (gi_groups_wf _ _ Hinv).
  - intros l' r c. apply (gi_overrides _ _ Hinv).
Qed.

(** * Generation *)

Section Generate.
Context (ser : Serializers) (setup : BzlmodHostPlatformSetup).
Context (discovered : DiscoveredBcrModules) (r : BzlmodSelectionResult) `{HSel : !Selection discovered r}.
Context (root_module : RootBzlmodModule) (base : string → Prop) (direct : list string).
Context (names_by_cell : BTreeMap string string).
Context (unique_names usages_json : BTreeMap BzlmodExtensionId string).
Hypothesis unique_in_cell : ∀ id, is_Some (btree_get unique_names id) →
  is_Some (btree_get names_by_cell (xi_bzl_cell_name id)).
Hypothesis unique_json : ∀ id, is_Some (btree_get unique_names id) → is_Some (btree_get usages_json id).

Notation keys := (sr_selected_keys r).
Notation names := (sr_canonical_repo_names_by_key r).
Notation gen_inv := (gen_inv base).
Notation kept := (kept base).
Notation target st := (bzlmod_cell_alias_target (gs_aliases st)).

Lemma host_platform_kept parent cell x st import :
  gen_inv st → kept st (host_platform_import ser setup parent cell x st import).
Proof.
  intros Hinv. unfold host_platform_import. case_decide; [|by apply kept_refl]. cbv zeta.
  match goal with |- kept _ (push_group (add_generated_bzlmod_repo _ _ ?c ?a ?n ?gen) _ _) =>
    destruct (generated_kept ser base st c a c n gen Hinv) as (K & Hin & _) end.
  eapply kept_trans; [exact K|]. by apply push_group_kept; [apply K|].
Qed.

Lemma known_imports_kept m parent cell st :
  gen_inv st → gspec (known_imports ser setup m parent cell unique_names st) (kept st) gen_error.
Proof.
  intros Hinv. unfold known_imports. cbv zeta.
  assert (K1 : kept st (if decide (bd_name (dm_dep m) = "rules_shell") then
            fold_left (shell_step ser parent cell) (dm_use_repo_aliases m) st else st)).
  { case_decide; [|by apply kept_refl]. apply fold_kept; [|done]. intros st' a Hst'. unfold shell_step.
    case_decide; [|by apply kept_refl]. by apply generated_kept. }
  set (st1 := if decide (bd_name (dm_dep m) = "rules_shell") then _ else st) in *.
  eapply gspec_bind.
  { assert (H : gspec (if decide (bd_name (dm_dep m) = "platforms") then
        try_fold (host_platform_step ser setup parent cell unique_names) st1
          (filter (λ usage, eu_extension_name usage = "host_platform") (dm_extension_usages m))
        else mret st1) (kept st1) gen_error); [|exact H].
    case_decide; [|by apply kept_refl, K1]. eapply gspec_mono.
    - apply (try_fold_kept base _ (λ _ _, True) gen_error); [done| |apply K1]. intros st' usage _ Hst'. unfold host_platform_step.
      eapply gspec_bind; [by apply resolve_extension_gen|]. intros x _. cbn [mret gresult_ret gspec]. split; [|done].
      apply fold_kept; [|done]. intros st2 import Hst2. by apply host_platform_kept.
    - by intros st' [? _].
    - done. }
  intros st2 K2. cbn [mret gresult_ret gspec]. pose proof (kept_trans _ _ _ _ K1 K2) as K.
  case_decide; [|done]. eapply kept_trans; [exact K|]. apply fold_kept; [|apply K].
  intros st' import Hst'. unfold bazel_features_step. cbv zeta.
  destruct (if decide (ui_repo_name import = "bazel_features_globals") then _ else _); [|by apply kept_refl].
  by apply generated_kept.
Qed.

(** The imports of the usages of a module are seen in its cell. *)
Definition imports_seen (cell : string) (usages : list BzlmodExtensionUsage) (st : GenState) : Prop :=
  ∀ usage import, usage ∈ usages → import ∈ eu_imports usage → is_Some (target st cell (ui_alias import)).

Lemma usages_kept parent cell is_root mirror l st :
  gen_inv st →
  gspec (try_fold (λ st usage,
    resolve_bzlmod_extension_usage_generated_repos ser usage parent cell is_root mirror root_module names_by_cell
      unique_names usages_json st) st l)
    (λ st', kept st st' ∧ imports_seen cell l st') gen_error.
Proof.
  intros Hinv. eapply gspec_mono.
  - apply (try_fold_kept base _ (λ usage st, ∀ import, import ∈ eu_imports usage → is_Some (target st cell (ui_alias import)))
      gen_error).
    + intros usage st1 st2 H Hg import Hi. by apply Hg, H.
    + intros st1 usage _ H1. by apply usage_repos_spec.
    + done.
  - intros st' [K H]. split; [done|]. intros usage import Hu. by apply H.
  - done.
Qed.

Definition key_imports_seen (key : ModuleKey) (st : GenState) : Prop :=
  ∀ m, btree_get discovered key = Some m → imports_seen (module_cell key) (dm_extension_usages m) st.

Lemma module_repos_kept key st :
  key ∈ keys → gen_inv st →
  gspec (module_repos_step ser setup root_module discovered names direct names_by_cell unique_names usages_json st key)
    (λ st', kept st st' ∧ key_imports_seen key st') gen_error.
Proof.
  intros Hk Hinv. unfold module_repos_step.
  destruct (btree_get discovered key) as [m|] eqn:Hm.
  2:{ split; [by apply kept_refl|]. intros m Hm'. congruence. }
  rewrite (module_repo_name discovered r key m Hk Hm). cbn [mbind gresult_bind]. cbv zeta.
  eapply gspec_bind; [by apply use_repo_rules_kept|]. intros st1 K1.
  eapply gspec_bind; [apply known_imports_kept, K1|]. intros st2 K2.
  eapply gspec_mono; [apply usages_kept, K2| |done]. intros st3 [K3 H3]. split.
  - eapply kept_trans; [exact K1|]. by eapply kept_trans.
  - intros m' Hm'. rewrite Hm in Hm'. injection Hm' as <-. exact H3.
Qed.

Lemma xcode_config_kept st : gen_inv st → kept st (add_xcode_config ser st).
Proof.
  intros Hinv. unfold add_xcode_config. cbv zeta.
  destruct (unimported_kept ser base st "bazel_tools" xcode_config_repo XcodeConfig Hinv) as [K Hin].
  set (st1 := add_unimported_generated_bzlmod_repo ser st "bazel_tools" xcode_config_repo XcodeConfig) in *.
  assert (K2 := add_alias_kept base st1 "root" "local_config_xcode" xcode_config_repo (proj1 K) (or_intror Hin)).
  assert (K3 := add_alias_kept base _ "bazel_tools" "local_config_xcode" xcode_config_repo (proj1 K2) (or_intror Hin)).
  eapply kept_trans; [exact K|]. eapply kept_trans; [exact K2|exact K3].
Qed.

Lemma generate_repos_spec order aliases :
  closed base aliases → (∀ k, k ∈ order ↔ k ∈ keys) →
  gspec (generate_repos ser setup root_module discovered names direct names_by_cell unique_names usages_json
           order aliases)
    (λ st, gen_inv st ∧ covers aliases (gs_aliases st) ∧
      ∀ cell usage import, (cell, usage) ∈ usages discovered r root_module → import ∈ eu_imports usage →
        is_Some (target st cell (ui_alias import))) gen_error.
Proof.
  intros Hal Horder. unfold generate_repos. set (st0 := mkGenState aliases [] [] [] []).
  assert (H0 : gen_inv st0).
  { split; cbn.
    - intros c a t Ht. left. by eapply Hal.
    - constructor.
    - done.
    - constructor.
    - done.
    - by intros m ?%elem_of_nil. }
  eapply gspec_bind; [by apply use_repo_rules_kept|]. intros st1 K1.
  pose proof (kept_trans _ _ _ _ K1 (xcode_config_kept st1 (proj1 K1))) as K2.
  eapply gspec_bind.
  { apply (try_fold_kept base _ key_imports_seen gen_error).
    - intros key s1 s2 H Hg m Hm usage import Hu Hi. apply Hg. exact (H m Hm usage import Hu Hi).
    - intros st key Hkey Hst. apply module_repos_kept; [by apply Horder|done].
    - apply K2. }
  intros st3 [K3 Hkeys]. eapply gspec_mono; [apply usages_kept, K3| |done].
  intros st4 [K4 Hroot]. pose proof (kept_trans _ _ _ _ K2 (kept_trans _ _ _ _ K3 K4)) as K.
  split_and!; [apply K|intros c a Ha; by apply K|].
  intros cell usage import [Hu|Hu]%elem_of_app Hi.
  - apply list_elem_of_fmap in Hu as (u & [= -> ->] & Hu). by eapply Hroot.
  - apply list_elem_of_In, in_flat_map in Hu as (key & Hkey & Hu). apply list_elem_of_In in Hkey.
    unfold module_usages in Hu. destruct (btree_get discovered key) as [m|] eqn:Hm; [|done].
    apply in_map_iff in Hu as (u & [= <- <-] & Hu). apply list_elem_of_In in Hu. apply K4.
    exact (Hkeys key (proj2 (Horder key) Hkey) m Hm u import Hu Hi).
Qed.
End Generate.

(** * The external modules *)

Lemma fold_insert_pairs_get {A B} (f : A → B) (l : list (string * A)) (m : BTreeMap string B) :
  NoDup l.*1 → btree_wf m →
  let m' := fold_left (λ m kv, btree_insert m kv.1 (f kv.2)) l m in
  btree_wf m' ∧ ∀ k v, btree_get m' k = Some v ↔
    (∃ x, (k, x) ∈ l ∧ v = f x) ∨ (k ∉ l.*1 ∧ btree_get m k = Some v).
Proof.
  cbv zeta. revert m. induction l as [|[k0 x0] l IH]; intros m Hnd Hm; simpl.
  { split; [done|]. intros k v. split; [right; split; [apply not_elem_of_nil|done]|].
    intros [(x & Hx & _)|[_ H]]; [by apply elem_of_nil in Hx|done]. }
  apply NoDup_cons in Hnd as [Hn Hnd]. destruct (IH (btree_insert m k0 (f x0)) Hnd) as [Hwf Hget];
    [by apply btree_insert_wf|].
  split; [done|]. intros k v. rewrite Hget. split.
  - intros [(x & Hx & ->)|[Hk Hv]]; [left; exists x; split; [by right|done]|].
    destruct (decide (k = k0)) as [->|Hne].
    + rewrite btree_get_insert_eq in Hv by done. injection Hv as <-. left. exists x0. split; [by left|done].
    + rewrite btree_get_insert_ne in Hv by done. right. split; [|done]. by intros [?|?]%elem_of_cons.
  - intros [(x & [[= -> ->]|Hx]%elem_of_cons & ->)|[[Hne Hk]%not_elem_of_cons Hv]].
    + right. split; [done|]. by apply btree_get_insert_eq.
    + left. by exists x.
    + right. split; [done|]. by rewrite btree_get_insert_ne.
Qed.

Lemma sorted_keys_filter {K} `{TotalOrd K} {V} (P : K * V → Prop) `{!∀ x, Decision (P x)} (m : list (K * V)) :
  btree_wf m → btree_wf (filter P m).
Proof.
  unfold btree_wf, btree_keys. induction m as [|[k v] m IH]; intros Hm; [done|].
  change ((((k, v) :: m).*1)) with (k :: m.*1) in Hm. inversion Hm as [|? ? Hlt Hm']; subst.
  rewrite filter_cons. case_decide; [|by apply IH]. constructor; [|by apply IH].
  apply Forall_forall. intros k' ([k2 v2] & -> & Hin)%list_elem_of_fmap.
  apply list_elem_of_filter in Hin as [_ Hin]. rewrite Forall_forall in Hlt. apply Hlt.
  apply list_elem_of_fmap. by exists (k2, v2).
Qed.

Lemma btree_get_remove {V} (m : BTreeMap ModuleKey V) k k' :
  btree_wf m → k' ≠ k → btree_get (btree_remove m k) k' = btree_get m k'.
Proof.
  intros Hm Hne. apply option_eq. intros v. unfold btree_remove.
  rewrite !btree_get_Some by (done || by apply sorted_keys_filter).
  rewrite list_elem_of_filter. cbn [fst]. tauto.
Qed.

Section Modules.
Context (ser : Serializers) (registry : string) (o : Overrides).
Context (discovered : DiscoveredBcrModules) (r : BzlmodSelectionResult) `{HSel : !Selection discovered r}.
Context (root_aliases : BTreeMap ModuleKey (list string)).

Notation keys := (sr_selected_keys r).
Notation names := (sr_canonical_repo_names_by_key r).

(** The external module of a selected module other than [bazel_tools]. *)
Definition module_external (k : ModuleKey) (x : BazelCompatExternalModule) : Prop :=
  ∃ m, btree_get discovered k = Some m ∧ bd_name (dm_dep m) ≠ "bazel_tools" ∧
    x = external_module ser registry o (default [] (btree_get root_aliases k)) (module_cell k) m.

Lemma external_module_cell aliases name m : external_cell_name (external_module ser registry o aliases name m) = name.
Proof. unfold external_module. cbv zeta. by destruct (btree_get (git_overrides o) _). Qed.

Lemma resolve_modules_spec :
  btree_wf root_aliases →
  gspec (try_fold (resolve_module_step ser registry o discovered names) ([], root_aliases) keys)
    (λ st, btree_wf st.1 ∧ (∀ c x, btree_get st.1 c = Some x ↔ ∃ k, k ∈ keys ∧ c = module_cell k ∧ module_external k x))
    (λ _, False).
Proof.
  intros Hwf. eapply gspec_mono.
  - apply (gspec_try_fold _ (λ l st, btree_wf st.1 ∧
      (∀ c x, btree_get st.1 c = Some x ↔ ∃ k, k ∈ l ∧ c = module_cell k ∧ module_external k x) ∧
      btree_wf st.2 ∧ ∀ k, k ∉ l → btree_get st.2 k = btree_get root_aliases k) (λ _, False)).
    + split_and!; [constructor| |done|done]. intros c x. split; [done|]. by intros (k & ?%elem_of_nil & _).
    + intros l1 k l2 [mods al] Hl (Hm & Hget & Hal & Hrest). cbn [fst snd] in *. unfold resolve_module_step.
      assert (Hk : k ∈ keys) by (rewrite Hl; apply elem_of_app; right; by left).
      assert (Hfresh : k ∉ l1).
      { pose proof (sorted_keys_NoDup _ (sel_sorted (discovered := discovered) (r := r))) as Hnd. rewrite Hl in Hnd.
        apply NoDup_app in Hnd as (_ & Hnd & _). intros Hin. apply (Hnd k Hin). by left. }
      destruct (sel_found k Hk) as [m Hmod]. unfold module_at in Hmod. rewrite Hmod.
      rewrite (module_repo_name discovered r k m Hk Hmod). cbn [mbind gresult_bind fst snd]. cbv zeta.
      rewrite (Hrest k Hfresh).
      assert (Hrest' : btree_wf (btree_remove al k) ∧
                ∀ k', k' ∉ l1 ++ [k] → btree_get (btree_remove al k) k' = btree_get root_aliases k').
      { split; [by apply sorted_keys_filter|].
        intros k' Hk'. rewrite elem_of_app, list_elem_of_singleton in Hk'. rewrite btree_get_remove by tauto.
        apply Hrest. tauto. }
      case_decide as Htools; cbn [mret gresult_ret gspec fst snd].
      * split_and!; [done| |apply Hrest'|apply Hrest']. intros c x. rewrite Hget. split.
        -- intros (k' & Hk' & H). exists k'. split; [|done]. apply elem_of_app. by left.
        -- intros (k' & [Hk'| ->%list_elem_of_singleton]%elem_of_app & Hc & Hx); [by exists k'|].
           destruct Hx as (m' & Hm' & Hne & _). congruence.
      * split_and!; [by apply btree_insert_wf| |apply Hrest'|apply Hrest']. intros c x. unfold bzlmod_cell_name.
        destruct (decide (c = module_cell k)) as [->|Hne].
        -- rewrite btree_get_insert_eq by done. split.
           ++ intros [= <-]. exists k. split_and!; [apply elem_of_app; right; by left|done|]. by exists m.
           ++ intros (k' & Hin & Hc & Hx).
              assert (k' ∈ keys) by (rewrite Hl; apply elem_of_app; apply elem_of_app in Hin as [?|?%list_elem_of_singleton];
                [by left|right; subst; by left]).
              assert (k' = k) as -> by (eapply module_cell_inj; eauto).
              destruct Hx as (m' & Hm' & _ & ->). congruence.
        -- rewrite btree_get_insert_ne by done. rewrite Hget. split.
           ++ intros (k' & Hk' & H). exists k'. split; [|done]. apply elem_of_app. by left.
           ++ intros (k' & [Hk'| ->%list_elem_of_singleton]%elem_of_app & Hc & Hx); [by exists k'|done].
  - intros [mods al] (Hm & Hget & _). by split.
  - done.
Qed.

Lemma direct_cells_done :
  (∀ k, k ∈ btree_keys root_aliases → k ∈ keys) →
  gspec (bzlmod_direct_root_dep_cells names root_aliases) (λ _, True) (λ _, False).
Proof.
  intros Hkeys. unfold bzlmod_direct_root_dep_cells. apply (gspec_try_fold _ (λ _ _, True)); [done|].
  intros l1 k l2 s Hl _. rewrite (canonical_repo_name_of discovered r k); [done|]. apply Hkeys. rewrite Hl.
  apply elem_of_app. right. by left.
Qed.
End Modules.

(** ** Toolchains *)

Lemma toolchain_spec aliases cell pattern :
  gspec (qualify_bzlmod_registered_toolchain aliases cell pattern) (λ _, True) gen_error.
Proof.
  unfold qualify_bzlmod_registered_toolchain. cbv zeta. destruct (strip_prefix "//" (trim pattern)); [done|].
  destruct (starts_with "@@" (trim pattern)); [done|].
  destruct (strip_prefix "@" (trim pattern)).
  - destruct (split_once_str "//" _) as [[alias target]|]; [|done]. destruct (is_empty_str alias); [done|].
    case_decide; [done|]. by destruct (bzlmod_cell_alias_target aliases cell alias).
  - by destruct (split_once_str "//" (trim pattern)).
Qed.

Lemma push_toolchains_spec aliases cell l s :
  gspec (try_fold (push_toolchain aliases cell) s l) (λ _, True) gen_error.
Proof.
  apply (gspec_try_fold _ (λ _ _, True)); [done|]. intros. unfold push_toolchain.
  eapply gspec_bind; [apply toolchain_spec|done].
Qed.

Lemma toolchains_spec discovered r `{!Selection discovered r} root_module order aliases :
  (∀ k, k ∈ order → k ∈ sr_selected_keys r) →
  gspec (resolve_bzlmod_registered_toolchains root_module discovered order (sr_canonical_repo_names_by_key r) aliases)
    (λ _, True) gen_error.
Proof.
  intros Horder. unfold resolve_bzlmod_registered_toolchains. eapply gspec_bind; [apply push_toolchains_spec|].
  intros ts _. eapply (gspec_bind _ _ (λ _, True)); [|done]. apply (gspec_try_fold _ (λ _ _, True)); [done|].
  intros l1 k l2 s Hl _. destruct (btree_get discovered k) as [m|] eqn:Hm; [|done].
  rewrite (module_repo_name discovered r k m); [apply push_toolchains_spec| |exact Hm]. apply Horder. rewrite Hl.
  apply elem_of_app. right. by left.
Qed.

(** * The result *)

(** In the result, [cell] sees [target] as [alias]. *)
Definition sees (res : BcrResolution) (cell alias target : string) : Prop :=
  if decide (cell = "root") then (alias, target) ∈ br_root_aliases res
  else ∃ l, btree_get (br_cell_aliases res) cell = Some l ∧ (alias, target) ∈ l.

Lemma sees_spec externals toolchains (al : BzlmodCellAliases) c a t :
  sees (mkResolution externals (default [] (bzlmod_cell_alias_map_to_vec <$> (al !! "root")))
          (fold_left (λ m kv, btree_insert m kv.1 (bzlmod_cell_alias_map_to_vec kv.2)) (map_to_list (delete "root" al)) [])
          toolchains) c a t ↔
  bzlmod_cell_alias_target al c a = Some t.
Proof.
  unfold sees, bzlmod_cell_alias_target, bzlmod_cell_alias_map_to_vec. cbn [br_root_aliases br_cell_aliases].
  case_decide as Hc.
  - subst c. destruct (al !! "root") as [m|]; simpl; [apply elem_of_map_to_list|].
    by rewrite elem_of_nil.
  - destruct (fold_insert_pairs_get (λ m : gmap string string, map_to_list m) (map_to_list (delete "root" al)) [])
      as [_ Hget]; [apply NoDup_fst_map_to_list|constructor|].
    transitivity (∃ m, al !! c = Some m ∧ m !! a = Some t).
    + split.
      * intros (l & Hl & Hin). apply Hget in Hl as [(m & Hm & ->)|[_ ?]]; [|done]. exists m.
        apply elem_of_map_to_list, lookup_delete_Some in Hm as [_ Hm]. split; [done|]. by apply elem_of_map_to_list.
      * intros (m & Hm & Ht). exists (map_to_list m). split; [|by apply elem_of_map_to_list].
        apply Hget. left. exists m. split; [|done]. apply elem_of_map_to_list, lookup_delete_Some. split; [congruence|done].
    + destruct (al !! c) as [m|]; simpl; [|by split; [intros (? & ? & ?)|]].
      split; [intros (? & [= <-] & ?)|intros ?; exists m]; done.
Qed.

Section Result.
Context (ser : Serializers) (registry : string) (o : Overrides) (setup : BzlmodHostPlatformSetup).
Context (discovered : DiscoveredBcrModules) (r : BzlmodSelectionResult) `{HSel : !Selection discovered r}.
Context (root_deps : list BazelDep) (root_module : RootBzlmodModule) (g : BzlmodDepGraph).
Context (usages_json : BTreeMap BzlmodExtensionId string).
Hypothesis Hgraph : graph_of discovered r root_deps root_module g.
Hypothesis Hjson : ∀ id, is_Some (btree_get (dg_extension_unique_names g) id) → is_Some (btree_get usages_json id).

Notation keys := (sr_selected_keys r).
Notation is_external := (module_external ser registry o discovered (dg_root_aliases_by_key g)).

Definition base_cell (c : string) : Prop := module_repo r c ∨ c = "bazel_tools".

Lemma graph_aliases_closed : closed base_cell (dg_cell_aliases_by_cell g).
Proof.
  intros c a t. rewrite (go_aliases _ _ _ _ _ Hgraph). unfold graph_aliases.
  rewrite alias_target_declare, alias_target_empty. destruct (last_target _ a) as [t'|] eqn:Ht; [|done].
  intros [= <-]. apply last_target_elem, elem_of_declared_in, graph_declarations_known in Ht as [Ht _]; [by left|done].
Qed.

Lemma unique_cells id :
  is_Some (btree_get (dg_extension_unique_names g) id) →
  is_Some (btree_get (dg_canonical_repo_names_by_cell g) (xi_bzl_cell_name id)).
Proof.
  intros [n Hn]. apply (un_name _ _ _ (go_unique _ _ _ _ _ Hgraph)) in Hn as (repo & a & Hrepo & _).
  rewrite (go_names_by_cell _ _ _ _ _ Hgraph), Hrepo. by eexists.
Qed.

(** The map of external modules, as [resolve_modules_spec] leaves it. *)
Context (mods : BTreeMap string BazelCompatExternalModule).
Hypothesis Hmwf : btree_wf mods.
Hypothesis Hmods : ∀ c x, btree_get mods c = Some x ↔ ∃ k, k ∈ keys ∧ c = module_cell k ∧ is_external k x.

Lemma modules_exact : NoDup (map external_cell_name mods.*2) ∧ ∀ x, x ∈ mods.*2 ↔ ∃ k, k ∈ keys ∧ is_external k x.
Proof.
  split.
  - assert (Hcells : map external_cell_name mods.*2 = mods.*1).
    { rewrite map_map. apply map_ext_in. intros [c x] Hin%list_elem_of_In. cbn [fst snd].
      apply btree_get_Some, Hmods in Hin as (k & _ & -> & m & _ & _ & ->); [|done]. apply external_module_cell. }
    rewrite Hcells. by apply sorted_keys_NoDup.
  - intros x. rewrite list_elem_of_fmap. split.
    + intros ([c y] & -> & Hin). apply btree_get_Some, Hmods in Hin as (k & Hk & _ & Hx); [|done]. by exists k.
    + intros (k & Hk & Hx). exists (module_cell k, x). split; [done|]. apply btree_get_Some; [done|].
      apply Hmods. by exists k.
Qed.

Lemma base_cell_exists c :
  base_cell c → c = "root" ∨ c = "bazel_tools" ∨ ∃ x, x ∈ mods.*2 ∧ external_cell_name x = c.
Proof.
  intros [[->|(k & Hk & ->)]| ->]; [by left| |by right; left].
  destruct (sel_found k Hk) as [m Hm]. unfold module_at in Hm. right.
  destruct (decide (bd_name (dm_dep m) = "bazel_tools")) as [Ht|Hne].
  - left. apply sel_keyed in Hm as <-. unfold module_cell. cbn [dep_key fst snd]. by rewrite Ht.
  - right. exists (external_module ser registry o (default [] (btree_get (dg_root_aliases_by_key g) k)) (module_cell k) m).
    split; [|apply external_module_cell]. apply modules_exact. exists k. split; [done|]. by exists m.
Qed.
End Result.

(** What the resolution returns. *)
Record result_of (ser : Serializers) (registry : string) (o : Overrides) (r : BzlmodSelectionResult)
    (root_module : RootBzlmodModule) (g : BzlmodDepGraph) (res : BcrResolution) : Prop := {
  rs_one c a t t' : sees res c a t → sees res c a t' → t = t';
  rs_exists c a t : sees res c a t → t = "root" ∨ t = "bazel_tools" ∨
    ∃ x, x ∈ br_external_modules res ∧ external_cell_name x = t;
  rs_graph c a t : bzlmod_cell_alias_target (dg_cell_aliases_by_cell g) c a = Some t → ∃ t', sees res c a t';
  rs_imports cell usage import : (cell, usage) ∈ usages (sr_discovered r) r root_module →
    import ∈ eu_imports usage → ∃ t, sees res cell (ui_alias import) t;
  rs_external : ∃ modules generated, br_external_modules res = modules ++ generated ∧
    NoDup (map external_cell_name modules) ∧
    (∀ x, x ∈ modules ↔ ∃ k, k ∈ sr_selected_keys r ∧
       module_external ser registry o (sr_discovered r) (dg_root_aliases_by_key g) k x) ∧
    (∀ x, x ∈ generated → ∃ y, x = Generated y ∧ xx_cell_name y = xx_canonical_repo_name y);
}.

Lemma resolve_bcr_modules_spec ser registry o setup r `{HSel : !Selection (sr_discovered r) r} root_deps
    root_module g usages_json :
  graph_of (sr_discovered r) r root_deps root_module g →
  (∀ id, is_Some (btree_get (dg_extension_unique_names g) id) → is_Some (btree_get usages_json id)) →
  gspec (resolve_bcr_modules_from_dep_graph ser registry g o usages_json setup)
    (result_of ser registry o r root_module g) gen_error.
Proof.
  intros H Hjson. destruct (go_root_aliases _ _ _ _ _ H) as [Hwf Hkeys].
  unfold resolve_bcr_modules_from_dep_graph. cbv zeta.
  rewrite (go_names _ _ _ _ _ H), (go_discovered _ _ _ _ _ H), (go_keys _ _ _ _ _ H), (go_root _ _ _ _ _ H),
    (go_dependency _ _ _ _ _ H), (go_bfs _ _ _ _ _ H).
  eapply gspec_bind.
  { eapply gspec_mono; [by apply (resolve_modules_spec ser registry o (sr_discovered r) r)|intros st Hst; exact Hst|done]. }
  intros [mods rest] [Hmwf Hmods]. cbn [fst] in *. eapply gspec_bind.
  { eapply gspec_mono; [by apply (direct_cells_done (sr_discovered r) r)|intros d Hd; exact Hd|done]. }
  intros direct _. unfold resolve_generated_bzlmod_repos.
  assert (Hgen := generate_repos_spec ser setup (sr_discovered r) r root_module (base_cell r) direct
    (dg_canonical_repo_names_by_cell g) (dg_extension_unique_names g) usages_json
    (unique_cells _ _ _ _ _ H) Hjson (sr_selected_keys_in_dependency_order r) (dg_cell_aliases_by_cell g)
    (graph_aliases_closed _ _ _ _ _ H) (sel_dependency (discovered := sr_discovered r) (r := r))).
  destruct (generate_repos _ _ _ _ _ _ _ _ _ _ _) as [st|e| |]; [|exact Hgen|done|done].
  destruct Hgen as (Hinv & Hcovers & Himports). cbn [mbind gresult_bind mret gresult_ret].
  pose proof (mappings_extended _ st Hinv) as [Hclosed Hmore].
  set (al := add_generated_bzlmod_repo_mappings _ _ _ _) in *. eapply gspec_bind.
  { apply (toolchains_spec (sr_discovered r) r), (sel_bfs (discovered := sr_discovered r) (r := r)). }
  intros toolchains _. cbn [mret gresult_ret gspec]. split; cbn [br_external_modules].
  - intros c a t t' H1%sees_spec H2%sees_spec. congruence.
  - intros c a t Ht%sees_spec. setoid_rewrite elem_of_app. apply Hclosed in Ht as [Ht|Hx].
    + eapply base_cell_exists in Ht as [?|[?|(x & ? & ?)]]; eauto 6.
    + apply list_elem_of_fmap in Hx as (x & -> & Hx). eauto 6.
  - intros c a t Ht. destruct (Hmore c a) as [t' Ht']; [apply Hcovers; by eexists|]. exists t'. by apply sees_spec.
  - intros cell usage import Hu Hi. destruct (Hmore cell (ui_alias import)) as [t Ht]; [by eapply Himports|].
    exists t. by apply sees_spec.
  - exists mods.*2, (gs_generated st). split; [done|].
    edestruct modules_exact as [Hnd Hin]; [exact Hmwf|exact Hmods|]. split_and!; [done|done|apply Hinv].
Qed.

(** C8. Generated repositories.  For the graph of resolved modules, when every extension in use has its
    usages, the resolution returns, without a panic, a result or an error of a label, an override or a
    toolchain.  In the result no name is ambiguous, and every name that any repository sees, modules
    and generated ones alike, leads to the root, to [bazel_tools], or to an external module of the result;
    no name of the graph is lost; every import of every extension of the root and the selected modules is
    seen; and the external modules are exactly one for each selected module but [bazel_tools], under its own
    name, and repositories that are generated. *)
Theorem generated_repos_correct {E} (ser : Serializers)
    (evaluate : ModuleKey → (BcrSourceJson * BzlmodEvaluatedModuleFile) + E)
    root_module overrides universe fuel root_deps builtin r g registry usages_json setup :
  resolved evaluate root_module overrides universe fuel root_deps builtin r →
  bzlmod_dep_graph_from_selection root_deps root_module (sr_discovered r) r = Done g →
  (∀ id, is_Some (btree_get (dg_extension_unique_names g) id) → is_Some (btree_get usages_json id)) →
  match resolve_bcr_modules_from_dep_graph ser registry g overrides usages_json setup with
  | Done res =>
      (∀ c a t t', sees res c a t → sees res c a t' → t = t') ∧
      (∀ c a t, sees res c a t → t = "root" ∨ t = "bazel_tools" ∨
         ∃ x, x ∈ br_external_modules res ∧ external_cell_name x = t) ∧
      (∀ c a t, bzlmod_cell_alias_target (dg_cell_aliases_by_cell g) c a = Some t → ∃ t', sees res c a t') ∧
      (∀ cell usage import, (cell, usage) ∈ usages (sr_discovered r) r root_module →
         import ∈ eu_imports usage → ∃ t, sees res cell (ui_alias import) t) ∧
      ∃ modules generated, br_external_modules res = modules ++ generated ∧
        NoDup (map external_cell_name modules) ∧
        (∀ x, x ∈ modules ↔ ∃ k, k ∈ sr_selected_keys r ∧
           module_external ser registry overrides (sr_discovered r) (dg_root_aliases_by_key g) k x) ∧
        (∀ x, x ∈ generated → ∃ y, x = Generated y ∧ xx_cell_name y = xx_canonical_repo_name y)
  | Failed e => gen_error e
  | Panicked | OutOfFuel => False
  end.
Proof.
  intros Hres Hg Hjson. pose proof (resolved_Selection _ _ _ _ _ _ _ _ Hres) as HSel.
  pose proof (dep_graph_spec (sr_discovered r) r root_deps root_module) as H. rewrite Hg in H. simpl in H.
  pose proof (resolve_bcr_modules_spec ser registry overrides setup r root_deps root_module g usages_json H Hjson) as Hspec.
  destruct (resolve_bcr_modules_from_dep_graph _ _ _ _ _ _) as [res|e| |]; [|exact Hspec|done|done].
  destruct Hspec as [Hone Hexists Hkept Himports Hexternal]. split_and!; done.
Qed.

(** * From end to end *)

(** Serializers that tell the kinds of repositories apart. *)
Definition plain_serializers : Serializers :=
  mkSerializers (λ _, "patches") (λ _, "overlays") (λ urls, join_with "," urls)
    (λ generator, match generator with
       | BazelFeaturesGlobals _ _ => "bazel_features_globals"
       | BazelFeaturesVersion _ => "bazel_features_version"
       | HostPlatform _ => "host_platform"
       | XcodeConfig => "xcode_config"
       | ShellConfig => "shell_config"
       | RepositoryRuleInvocation s => "rule " +:+ rr_rule_name s
       | ModuleExtensionRepo s => "extension " +:+ er_extension_unique_name s
       end) (λ s, s) (λ s, s).

Definition no_platform : BzlmodHostPlatformSetup := mkHostPlatform None None.

Definition sample_usages_json (g : BzlmodDepGraph) : BTreeMap BzlmodExtensionId string :=
  (λ id_name, (id_name.1, "usages of " +:+ id_name.2)) <$> dg_extension_unique_names g.

Lemma btree_get_fmap {K V W} `{TotalOrd K} (f : V → W) (m : BTreeMap K V) k :
  btree_get ((λ kv, (kv.1, f kv.2)) <$> m) k = f <$> btree_get m k.
Proof. induction m as [|[k' v] m IH]; simpl; [done|]. by destruct (rust_cmp k k'). Qed.

Notation sample_resolve g :=
  (resolve_bcr_modules_from_dep_graph plain_serializers "https://bcr.bazel.build" g registry_overrides
    (sample_usages_json g) no_platform).

Example sample_cells :
  match g ← sample_graph; sample_resolve g with
  | Done res => (map external_cell_name (br_external_modules res), br_registered_toolchains res)
  | _ => ([], [])
  end =
  (["a+"; "b+"; "c+"; "bazel_tools+xcode_configure_extension+local_config_xcode"; "a++ext+made"; "a++ext2+made";
    "b++gen+gen"], ["root//:all"; "b+//toolchains:all"]).
Proof. vm_compute. reflexivity. Qed.

Lemma sample_usages_known g id :
  is_Some (btree_get (dg_extension_unique_names g) id) → is_Some (btree_get (sample_usages_json g) id).
Proof.
  intros Hid. unfold sample_usages_json. rewrite (btree_get_fmap (λ n, "usages of " +:+ n)). by apply fmap_is_Some.
Qed.

Lemma sample_import :
  ∃ u i, ("c+", u) ∈ usages (sr_discovered sample_selection) sample_selection sample_root ∧
    i ∈ eu_imports u ∧ ui_alias i = "theirs".
Proof.
  assert (Husage : existsb (λ cu, bool_decide (cu.1 = "c+") && existsb (λ i, bool_decide (ui_alias i = "theirs"))
            (eu_imports cu.2)) (usages (sr_discovered sample_selection) sample_selection sample_root) = true)
    by (vm_compute; reflexivity).
  apply existsb_exists in Husage as ([cell u] & Hu & Hi). cbn [fst snd] in Hi.
  apply andb_true_iff in Hi as [Hc%bool_decide_eq_true (i & Hi & Ha%bool_decide_eq_true)%existsb_exists].
  subst cell. exists u, i. split_and!; [by apply list_elem_of_In..|done].
Qed.

Lemma generated_repos_correct_witness :
  match sample_graph with
  | Done g =>
      match sample_resolve g with
      | Done res => (∃ t, sees res "c+" "theirs" t) ∧ ∀ c a t, sees res c a t →
          t = "root" ∨ t = "bazel_tools" ∨ ∃ x, x ∈ br_external_modules res ∧ external_cell_name x = t
      | _ => False
      end
  | _ => False
  end.
Proof.
  assert (Hok : match sample_graph with
                | Done g => match sample_resolve g with Done _ => True | _ => False end
                | _ => False
                end) by (vm_compute; exact I).
  destruct sample_graph as [g|e| |] eqn:Hg; [|done|done|done].
  pose proof (generated_repos_correct plain_serializers named_registry sample_root registry_overrides registry_keys 5
    registry_roots registry_builtin sample_selection g "https://bcr.bazel.build" (sample_usages_json g) no_platform
    sample_resolved Hg (sample_usages_known g)) as H.
  destruct (sample_resolve g) as [res|e| |]; [|done|done|done].
  destruct H as (_ & Hexists & _ & Himports & _). split; [|exact Hexists].
  destruct sample_import as (u & i & Hu & Hi & <-). exact (Himports "c+" u i Hu Hi).
Defined.
