(* ===== verification/ModExamples.v ===== *)
(** The unit tests of the generated repositories of modules, and resolutions in which names lead to other
    repositories than they should. *)
From stdpp Require Import gmap.
From S2P Require Import Prelude.
From S2P Require Import RustStr.
From S2P Require Import RustStrSpec.
From S2P Require Import RustOrd.
From S2P Require Import ModVersion.
From S2P Require Import ModSelect.
From S2P Require Import ModSelectSpec.
From S2P Require Import ModResolution.
From S2P Require Import ModGraph.
From S2P Require Import ModGraphSpec.
From S2P Require Import ModNames.
From S2P Require Import ModGraphCorrect.
From S2P Require Import ModRepos.
From S2P Require Import ModReposSpec.
From S2P Require Import ModReposCorrect.
Local Open Scope dice_scope.
Local Open Scope string_scope.
Local Open Scope nat_scope.
Local Open Scope list_scope.

(** * The unit tests *)

Example test_bzlmod_extension_generated_repos_inherit_extension_host_repo_mapping :
  let aliases := add_bzlmod_cell_alias ∅ "gazelle+" "package_metadata" "package_metadata+" in
  let st := add_generated_bzlmod_repo_with_mapping_cell plain_serializers (mkGenState aliases [] [] [] [])
    "root" "com_github_example_dep" "gazelle+" "gazelle++go_deps+com_github_example_dep" XcodeConfig in
  let generated := "gazelle++go_deps+com_github_example_dep" in
  let aliases := add_generated_bzlmod_repo_mappings (gs_aliases st) (gs_declaring st)
    [("gazelle++go_deps", [("com_github_example_dep", generated)])]
    [("gazelle++go_deps", [("com_github_buildbuddy_io_buildbuddy", "root")])] in
  (bzlmod_cell_alias_target aliases "root" "com_github_example_dep",
   bzlmod_cell_alias_target aliases generated "package_metadata",
   bzlmod_cell_alias_target aliases generated "com_github_buildbuddy_io_buildbuddy",
   bzlmod_cell_alias_target aliases generated "com_github_example_dep") =
  (Some generated, Some "package_metadata+", Some "root", Some generated).
Proof. vm_compute. reflexivity. Qed.

Definition npm_usage : BzlmodExtensionUsage :=
  mkUsage "npm" "@aspect_rules_js//npm:extensions.bzl" "npm" false [mkImport "npm" "npm"] []
    [mkTag "npm_translate_lock" [] [("name", String double_quote "npm" +:+ String double_quote "")]].
Definition npm_id : BzlmodExtensionId := mkExtensionId "bzlmod_aspect_rules_js_" "npm/extensions.bzl" "npm".

(** The unit test expects [bzlmod_aspect_rules_js__npm_npm], a cell name of an older scheme: [bzlmod_cell_name]
    keeps the canonical name. *)
Example test_bzlmod_extension_without_lockfile_uses_static_repos :
  match resolve_bzlmod_extension_usage_generated_repos plain_serializers npm_usage "" "root" true false
          (mkRoot "buildbuddy" "" "buildbuddy" "" [] [] [] [npm_usage] [] [])
          [("bzlmod_aspect_rules_js_", "aspect_rules_js+")] [(npm_id, "aspect_rules_js++npm")] [(npm_id, "{}")]
          (mkGenState (add_bzlmod_cell_alias ∅ "root" "aspect_rules_js" "bzlmod_aspect_rules_js_") [] [] [] []) with
  | Done st => bzlmod_cell_alias_target (gs_aliases st) "root" "npm"
  | _ => None
  end = Some "aspect_rules_js++npm+npm".
Proof. vm_compute. reflexivity. Qed.

Definition go_sdk_usage : BzlmodExtensionUsage :=
  mkUsage "go_sdk" "@io_bazel_rules_go//go:extensions.bzl" "go_sdk" false [] []
    [mkTag "download" [] [("version", "1.24.0")]].
Definition go_sdk_id : BzlmodExtensionId := mkExtensionId "rules_go+" "go/extensions.bzl" "go_sdk".

Example test_bzlmod_root_tag_only_extension_without_lockfile_stays_demand_driven :
  match resolve_bzlmod_extension_usage_generated_repos plain_serializers go_sdk_usage "" "root" true false
          (mkRoot "bazelisk" "" "bazelisk" "" [] [] [] [go_sdk_usage] [] [])
          [("rules_go+", "rules_go+")] [(go_sdk_id, "rules_go++go_sdk")] [(go_sdk_id, "{}")]
          (mkGenState (add_bzlmod_cell_alias ∅ "root" "io_bazel_rules_go" "rules_go+") [] [] [] []) with
  | Done st => Some (gs_generated st)
  | _ => None
  end = Some [].
Proof. vm_compute. reflexivity. Qed.

Definition llvm_usage : BzlmodExtensionUsage :=
  mkUsage "llvm" "//extensions:llvm.bzl" "llvm" false [mkImport "llvm-project" "llvm-project"] [] [].
Definition llvm_id : BzlmodExtensionId := mkExtensionId "llvm+" "extensions/llvm.bzl" "llvm".

Example test_bzlmod_direct_root_dep_extension_import_alias_in_root :
  match resolve_bzlmod_extension_usage_generated_repos plain_serializers llvm_usage "llvm+" "llvm+" false true
          plain_root [("llvm+", "llvm+")] [(llvm_id, "llvm++llvm")] [(llvm_id, "{}")]
          (mkGenState (add_bzlmod_cell_alias ∅ "root" "llvm" "llvm+") [] [] [] []) with
  | Done st => (bzlmod_cell_alias_target (gs_aliases st) "llvm+" "llvm-project",
                bzlmod_cell_alias_target (gs_aliases st) "root" "llvm-project")
  | _ => (None, None)
  end = (Some "llvm++llvm+llvm-project", Some "llvm++llvm+llvm-project").
Proof. vm_compute. reflexivity. Qed.

Example test_bzlmod_lockfile_extension_key :
  (bzlmod_lockfile_extension_key (mkExtensionId "root" "repositories.bzl" "async_profiler_repos")
     [("rules_go+", "rules_go+")],
   bzlmod_lockfile_extension_key go_sdk_id [("rules_go+", "rules_go+")]) =
  (Done "//:repositories.bzl%async_profiler_repos", Done "@@rules_go+//go:extensions.bzl%go_sdk").
Proof. vm_compute. reflexivity. Qed.

(** * Names that lead elsewhere *)

(** The resolution of the modules [ms], which the root depends on, all selected. *)
Definition resolve_selected (root_deps : list BazelDep) (root_module : RootBzlmodModule)
    (discovered : DiscoveredBcrModules) : gresult BcrResolution :=
  let keys := btree_keys discovered in
  g ← bzlmod_dep_graph_from_selection root_deps root_module discovered
    (mkSelection discovered keys keys keys (bzlmod_canonical_repo_names_by_key keys));
  resolve_bcr_modules_from_dep_graph plain_serializers "https://bcr.bazel.build" g (mkOverrides [] [] [] [])
    (sample_usages_json g) no_platform.

Definition module_with (name : string) (usages : list BzlmodExtensionUsage) : DiscoveredBcrModule :=
  mkDiscovered (mkBazelDep name "1" None) no_source [name] (bzlmod_use_repo_aliases_from_usages usages) usages [] [] [] [].

(** The root and its dependency [a] both import a repository [tool], each from an extension of its own:
    the import of [a] is mirrored into the root first, and the root sees the repository of [a]; the
    repository that the root imports is not even generated. *)
Example root_import_shadowed :
  let root := mkRoot "root" "" "root" "" [] [] [] [usage_of "//:root.bzl" "root_ext" [mkImport "tool" "tool"]] [] [] in
  match resolve_selected [mkBazelDep "a" "1" (Some "a")] root
          [(("a", "1"), module_with "a" [usage_of "//:a.bzl" "a_ext" [mkImport "tool" "tool"]])] with
  | Done res => (filter (λ alias, alias.1 = "tool") (br_root_aliases res),
                 map external_cell_name (br_external_modules res))
  | _ => ([], [])
  end =
  ([("tool", "a++a_ext+tool")],
   ["a+"; "bazel_tools+xcode_configure_extension+local_config_xcode"; "a++a_ext+tool"]).
Proof. vm_compute. reflexivity. Qed.

(** The repositories of the result that are generated, with their generators. *)
Definition generated_of (res : BcrResolution) : list (string * string) :=
  omap (λ x, match x with
             | Generated m => Some (xx_cell_name m, xx_generator_json m)
             | _ => None
             end) (br_external_modules res).

(** When the lock file lists a repository of [bazel_features], it is generated twice under one cell name: as
    the known placeholder, and by the extension. *)
Example repository_generated_twice :
  let root := mkRoot "root" "" "root" ""
    [("@@bazel_features+//private:extensions.bzl%version_extension", ["bazel_features_version"])] [] [] [] [] [] in
  match resolve_selected [mkBazelDep "bazel_features" "1" (Some "bazel_features")] root
          [(("bazel_features", "1"), module_with "bazel_features"
             [usage_of "//private:extensions.bzl" "version_extension"
                [mkImport "bazel_features_version" "bazel_features_version"]])] with
  | Done res => generated_of res
  | _ => []
  end =
  [("bazel_tools+xcode_configure_extension+local_config_xcode", "xcode_config");
   ("bazel_features++version_extension+bazel_features_version", "bazel_features_version");
   ("bazel_features++version_extension+bazel_features_version", "extension bazel_features++version_extension")].
Proof. vm_compute. reflexivity. Qed.

(** A module makes a repository [lib] with a rule [fetch], and imports another [lib] from an extension [fetch]:
    both are one cell. *)
Example rule_and_extension_collide :
  let m := mkDiscovered (mkBazelDep "a" "1" None) no_source ["a"] []
    [usage_of "//:deps.bzl" "fetch" [mkImport "lib_of_extension" "lib"]]
    [mkInvocation "//:rules.bzl" "fetch" "lib" []] [] [] [] in
  match resolve_selected [mkBazelDep "a" "1" (Some "a")] plain_root [(("a", "1"), m)] with
  | Done res => generated_of res
  | _ => []
  end =
  [("bazel_tools+xcode_configure_extension+local_config_xcode", "xcode_config");
   ("a++fetch+lib", "rule fetch"); ("a++fetch+lib", "extension a++fetch")].
Proof. vm_compute. reflexivity. Qed.

(** * Aliases of cells *)

Example test_bzlmod_root_dep_alias_uses_repo_name :
  ma_root_aliases (add_bzlmod_root_dep_aliases (mkModuleCellAliases [] [] [] [])
    [mkBazelDep "rules_docker" "" (Some "io_bazel_rules_docker")]) = [("io_bazel_rules_docker", "rules_docker+")].
Proof. vm_compute. reflexivity. Qed.

Example test_bzlmod_host_platform_setup_from_constraints :
  bzlmod_host_platform_setup_from_constraints
    (Some ("@platforms//cpu:x86_64" +:+ String newline "@platforms//os:linux")) =
  mkHostPlatform (Some "x86_64") (Some "linux").
Proof. vm_compute. reflexivity. Qed.
