(* ===== verification/DirData.v ===== *)
(** Directories ([src/app/bz_directory/src/directory]): entries, shared, immutable and copy-on-write
    directories, the maps that hold their entries, and their content as a map from paths.

    A reference to a directory ([DirectoryRef]) is the directory it refers to; the [Arc] of a shared
    directory is its address. *)
From stdpp Require Import gmap list strings.
From S2P Require Import Prelude.
From S2P Require Import RustOrd.
Local Open Scope dice_scope.
Local Open Scope string_scope.
Local Open Scope nat_scope.
Local Open Scope list_scope.

(** * Maps of entries *)

(** [starlark_map::SmallMap]: keys in the order in which they were first inserted. *)
Notation SmallMap V := (list (string * V)).

Section SmallMap.
Context {V : Type}.

Fixpoint sm_get (m : SmallMap V) (k : string) : option V :=
  match m with
  | [] => None
  | (k', v) :: m => if decide (k = k') then Some v else sm_get m k
  end.

(** [insert]: the value of a key that is there is replaced and returned. *)
Fixpoint sm_insert (m : SmallMap V) (k : string) (v : V) : SmallMap V * option V :=
  match m with
  | [] => ([(k, v)], None)
  | (k', v') :: m =>
      if decide (k = k') then ((k', v) :: m, Some v')
      else let '(m, old) := sm_insert m k v in ((k', v') :: m, old)
  end.

Fixpoint sm_shift_remove (m : SmallMap V) (k : string) : SmallMap V * option V :=
  match m with
  | [] => ([], None)
  | (k', v') :: m =>
      if decide (k = k') then (m, Some v')
      else let '(m, old) := sm_shift_remove m k in ((k', v') :: m, old)
  end.

(** [collect]: insert the pairs in order. *)
Definition sm_collect (l : list (string * V)) : SmallMap V :=
  fold_left (λ m kv, (sm_insert m kv.1 kv.2).1) l [].
End SmallMap.

(** [SortedVectorMap]: sorted by key; [collect] keeps the last value of a key. *)
Definition svm_collect {V} (l : list (string * V)) : list (string * V) :=
  fold_left (λ m kv, btree_insert m kv.1 kv.2) l [].

(** * Directories *)

Inductive DirectoryEntry (D L : Type) := Dir (d : D) | Leaf (l : L).
Arguments Dir {_ _} _.
Arguments Leaf {_ _} _.

Definition map_dir {D U L} (f : D → U) (e : DirectoryEntry D L) : DirectoryEntry U L :=
  match e with Dir d => Dir (f d) | Leaf l => Leaf l end.

Definition map_entries {D U L} (f : D → U) (es : list (string * DirectoryEntry D L)) :
    list (string * DirectoryEntry U L) :=
  map (λ ke, (ke.1, map_dir f ke.2)) es.

Record DirectoryData (D L H : Type) := mkData {
  dd_entries : list (string * DirectoryEntry D L); dd_size : N; dd_fingerprint : H }.
Arguments mkData {_ _ _} _ _ _.
Arguments dd_entries {_ _ _} _.
Arguments dd_size {_ _ _} _.
Arguments dd_fingerprint {_ _ _} _.

Inductive SharedDirectory (L H : Type) :=
  mkShared (addr : nat) (data : DirectoryData (SharedDirectory L H) L H).
Arguments mkShared {_ _} _ _.

Definition sd_addr {L H} (d : SharedDirectory L H) : nat := match d with mkShared a _ => a end.
Definition sd_data {L H} (d : SharedDirectory L H) : DirectoryData (SharedDirectory L H) L H :=
  match d with mkShared _ data => data end.
Definition SharedDirectory_ptr_eq {L H} (d1 d2 : SharedDirectory L H) : bool :=
  bool_decide (sd_addr d1 = sd_addr d2).

(** An [ExclusiveDirectory] is its data. *)
Inductive ImmutableDirectory (L H : Type) :=
| Exclusive (data : DirectoryData (ImmutableDirectory L H) L H)
| Shared (d : SharedDirectory L H).
Arguments Exclusive {_ _} _.
Arguments Shared {_ _} _.

Inductive DirectoryBuilder (L H : Type) :=
| Mutable (entries : list (string * DirectoryEntry (DirectoryBuilder L H) L))
| Immutable (d : ImmutableDirectory L H).
Arguments Mutable {_ _} _.
Arguments Immutable {_ _} _.

(** What a path leads to. *)
Definition Node (L : Type) : Type := DirectoryEntry unit L.

(** What fingerprints are computed from; the hash and the sizes of leaves belong to the user of
    directories. *)
Class DirectoryDigester (L H : Type) := {
  hash_entries : list (string * DirectoryEntry (ImmutableDirectory L H) L) → H;
  leaf_size : L → N;
}.

Section Directories.
Context {L H : Type}.

Definition DirectoryBuilder_empty : DirectoryBuilder L H := Mutable [].

Definition SharedDirectory_into_builder (d : SharedDirectory L H) : DirectoryBuilder L H :=
  Immutable (Shared d).
Definition ImmutableDirectory_into_builder (d : ImmutableDirectory L H) : DirectoryBuilder L H :=
  match d with
  | Exclusive data => Immutable (Exclusive data)
  | Shared s => SharedDirectory_into_builder s
  end.

Definition ImmutableDirectory_len (d : ImmutableDirectory L H) : nat :=
  match d with
  | Exclusive data => length (dd_entries data)
  | Shared s => length (dd_entries (sd_data s))
  end.

Definition ImmutableDirectory_fingerprint (d : ImmutableDirectory L H) : H :=
  match d with
  | Exclusive data => dd_fingerprint data
  | Shared s => dd_fingerprint (sd_data s)
  end.

Definition ImmutableDirectory_size (d : ImmutableDirectory L H) : N :=
  match d with
  | Exclusive data => dd_size data
  | Shared s => dd_size (sd_data s)
  end.

Definition ImmutableDirectory_into_entries (d : ImmutableDirectory L H) :
    list (string * DirectoryEntry (DirectoryBuilder L H) L) :=
  match d with
  | Exclusive data => map_entries ImmutableDirectory_into_builder (dd_entries data)
  | Shared s => map_entries SharedDirectory_into_builder (dd_entries (sd_data s))
  end.

Definition DirectoryBuilder_into_entries (b : DirectoryBuilder L H) :
    list (string * DirectoryEntry (DirectoryBuilder L H) L) :=
  match b with
  | Mutable entries => entries
  | Immutable d => ImmutableDirectory_into_entries d
  end.

(** [as_mut]: the entries, in a map that can be changed. *)
Definition DirectoryBuilder_as_mut (b : DirectoryBuilder L H) :
    SmallMap (DirectoryEntry (DirectoryBuilder L H) L) :=
  match b with
  | Mutable entries => entries
  | Immutable d => sm_collect (ImmutableDirectory_into_entries d)
  end.

(** [DirectoryRef::get] *)
Definition DirectoryBuilder_get (b : DirectoryBuilder L H) (name : string) :
    option (DirectoryEntry (DirectoryBuilder L H) L) :=
  match b with
  | Mutable entries => sm_get entries name
  | Immutable (Exclusive data) => map_dir ImmutableDirectory_into_builder <$> btree_get (dd_entries data) name
  | Immutable (Shared s) => map_dir SharedDirectory_into_builder <$> btree_get (dd_entries (sd_data s)) name
  end.

(** * Fingerprints *)

Definition u64_saturating_add (a b : N) : N := N.min (a + b) (2 ^ 64 - 1).

Context `{DirectoryDigester L H}.

(** [DirectoryData::new] for the directories that a builder makes. *)
Definition DirectoryData_new (entries : list (string * DirectoryEntry (ImmutableDirectory L H) L)) :
    DirectoryData (ImmutableDirectory L H) L H :=
  mkData entries
    (fold_left u64_saturating_add
       (map (λ ke, match ke.2 with Leaf l => leaf_size l | Dir d => ImmutableDirectory_size d end) entries) 0%N)
    (hash_entries entries).

(** [DirectoryBuilder::fingerprint] *)
Fixpoint DirectoryBuilder_fingerprint (b : DirectoryBuilder L H) : ImmutableDirectory L H :=
  match b with
  | Mutable entries =>
      Exclusive (DirectoryData_new (svm_collect (map_entries DirectoryBuilder_fingerprint entries)))
  | Immutable c => c
  end.

(** * Well-formed directories *)

(** What the constructors of shared and exclusive directories maintain: sorted names, and the size and
    the fingerprint of the entries. *)
Definition data_wf {D} (into : D → ImmutableDirectory L H) (data : DirectoryData D L H) : Prop :=
  btree_wf (dd_entries data) ∧
  mkData (map_entries into (dd_entries data)) (dd_size data) (dd_fingerprint data) =
  DirectoryData_new (map_entries into (dd_entries data)).

Inductive shared_wf : SharedDirectory L H → Prop :=
| shared_wf_intro addr data :
    data_wf Shared data → (∀ k c, (k, Dir c) ∈ dd_entries data → shared_wf c) → shared_wf (mkShared addr data).

Inductive immutable_wf : ImmutableDirectory L H → Prop :=
| exclusive_wf data :
    data_wf id data → (∀ k c, (k, Dir c) ∈ dd_entries data → immutable_wf c) → immutable_wf (Exclusive data)
| shared_immutable_wf s : shared_wf s → immutable_wf (Shared s).

Inductive builder_wf : DirectoryBuilder L H → Prop :=
| mutable_wf entries :
    NoDup entries.*1 → (∀ k c, (k, Dir c) ∈ entries → builder_wf c) → builder_wf (Mutable entries)
| immutable_builder_wf d : immutable_wf d → builder_wf (Immutable d).

Definition entry_wf (e : DirectoryEntry (DirectoryBuilder L H) L) : Prop :=
  match e with Dir b => builder_wf b | Leaf _ => True end.

(** * Content *)

Definition node_of {D} (e : DirectoryEntry D L) : Node L := map_dir (λ _, tt) e.

(** What is at a path. *)
Fixpoint node_at (b : DirectoryBuilder L H) (path : list string) : option (Node L) :=
  match path with
  | [] => Some (Dir tt)
  | name :: rest =>
      match DirectoryBuilder_get b name with
      | Some (Dir d) => node_at d rest
      | Some (Leaf l) => match rest with [] => Some (Leaf l) | _ => None end
      | None => None
      end
  end.

(** What is at a path inside an entry. *)
Definition entry_at (e : DirectoryEntry (DirectoryBuilder L H) L) (path : list string) : option (Node L) :=
  match e with
  | Dir d => node_at d path
  | Leaf l => match path with [] => Some (Leaf l) | _ => None end
  end.

(** * Depth *)

Fixpoint shared_height (s : SharedDirectory L H) : nat :=
  S (max_list (map (λ ke, match ke.2 with Dir c => shared_height c | Leaf _ => 0 end) (dd_entries (sd_data s)))).

Fixpoint immutable_height (d : ImmutableDirectory L H) : nat :=
  match d with
  | Exclusive data =>
      S (max_list (map (λ ke, match ke.2 with Dir c => immutable_height c | Leaf _ => 0 end) (dd_entries data)))
  | Shared s => shared_height s
  end.

Fixpoint builder_height (b : DirectoryBuilder L H) : nat :=
  match b with
  | Mutable entries =>
      S (max_list (map (λ ke, match ke.2 with Dir c => builder_height c | Leaf _ => 0 end) entries))
  | Immutable d => immutable_height d
  end.
End Directories.

#[export] Instance builder_equiv {L H} : Equiv (DirectoryBuilder L H) :=
  λ b1 b2, ∀ path, node_at b1 path = node_at b2 path.
