(* ===== verification/DirSpec.v ===== *)
(** The laws of directories: maps of entries, well-formed directories, their content and their
    depth. *)
From stdpp Require Import gmap list strings.
From S2P Require Import Prelude.
From S2P Require Import RustOrd.
From S2P Require Import DirData.
Local Open Scope dice_scope.
Local Open Scope string_scope.
Local Open Scope nat_scope.
Local Open Scope list_scope.

(** * Maps *)

Lemma filter_Forall_all {A} (P : A → Prop) `{∀ x, Decision (P x)} (l : list A) : Forall P l → filter P l = l.
Proof. induction 1 as [|x l Hx _ IH]; [done|]. by rewrite filter_cons_True, IH. Qed.

Section SmallMap.
Context {V : Type}.
Implicit Types (m : list (string * V)).

Lemma sm_get_Some m k v : NoDup m.*1 → sm_get m k = Some v ↔ (k, v) ∈ m.
Proof.
  induction m as [|[k' v'] m IH]; simpl; [by rewrite elem_of_nil|].
  intros [Hk' Hm]%NoDup_cons. rewrite elem_of_cons. destruct (decide (k = k')) as [->|Hne].
  - split; [intros [= ->]; by left|]. intros [[= ->]|Hin]; [done|].
    destruct Hk'. apply list_elem_of_fmap. by exists (k', v).
  - rewrite IH by done. split; [by right|]. intros [[= -> ->]|Hin]; done.
Qed.

Lemma sm_get_None m k : sm_get m k = None ↔ k ∉ m.*1.
Proof.
  induction m as [|[k' v'] m IH]; simpl; [by rewrite elem_of_nil; intuition|].
  rewrite not_elem_of_cons. destruct (decide (k = k')); [naive_solver|]. rewrite IH. naive_solver.
Qed.

Lemma sm_get_insert m k k' v :
  sm_get (sm_insert m k v).1 k' = if decide (k' = k) then Some v else sm_get m k'.
Proof.
  induction m as [|[k0 v0] m IH]; simpl; [done|].
  destruct (decide (k = k0)) as [->|Hne]; simpl; [by repeat case_decide|].
  destruct (sm_insert m k v) as [m' old]; simpl in *. rewrite IH. repeat case_decide; congruence.
Qed.

Lemma sm_insert_old m k v : (sm_insert m k v).2 = sm_get m k.
Proof.
  induction m as [|[k0 v0] m IH]; simpl; [done|]. case_decide; [done|].
  by destruct (sm_insert m k v).
Qed.

Lemma sm_insert_keys m k v :
  (sm_insert m k v).1.*1 = if decide (k ∈ m.*1) then m.*1 else m.*1 ++ [k].
Proof.
  induction m as [|[k0 v0] m IH]; simpl; [done|].
  destruct (decide (k = k0)) as [->|Hne]; simpl.
  { rewrite decide_True by (by left). done. }
  destruct (sm_insert m k v) as [m' old]; simpl in *. change (list_fmap _ _ fst m') with (m'.*1). rewrite IH.
  destruct (decide (k ∈ m.*1)) as [Hin|Hnot].
  - by rewrite decide_True by (by right).
  - rewrite decide_False; [done|]. by rewrite elem_of_cons; intuition.
Qed.

Lemma sm_insert_NoDup m k v : NoDup m.*1 → NoDup (sm_insert m k v).1.*1.
Proof.
  intros Hm. rewrite sm_insert_keys. case_decide as Hk; [done|].
  apply NoDup_app. split; [done|]. split; [|apply NoDup_singleton].
  intros x Hx ->%list_elem_of_singleton. done.
Qed.

Lemma sm_insert_fresh m k v : k ∉ m.*1 → sm_insert m k v = (m ++ [(k, v)], None).
Proof.
  induction m as [|[k0 v0] m IH]; simpl; [done|].
  intros [Hne Hk]%not_elem_of_cons. rewrite decide_False by done. by rewrite IH.
Qed.

(** A value inserted at a key, or one that was there. *)
Lemma elem_of_sm_insert m k v k' v' :
  (k', v') ∈ (sm_insert m k v).1 → (k', v') = (k, v) ∨ (k', v') ∈ m.
Proof.
  induction m as [|[k0 v0] m IH]; simpl; [by rewrite list_elem_of_singleton; left|].
  destruct (decide (k = k0)) as [->|Hne]; simpl; rewrite !elem_of_cons; [intuition|].
  destruct (sm_insert m k v) as [m' old]; simpl in *. rewrite elem_of_cons. intuition.
Qed.

Lemma sm_shift_remove_old m k : (sm_shift_remove m k).2 = sm_get m k.
Proof.
  induction m as [|[k0 v0] m IH]; simpl; [done|]. case_decide; [done|].
  by destruct (sm_shift_remove m k).
Qed.

Lemma sm_shift_remove_filter m k :
  NoDup m.*1 → (sm_shift_remove m k).1 = filter (λ kv, kv.1 ≠ k) m.
Proof.
  induction m as [|[k0 v0] m IH]; [done|]. rewrite fmap_cons. intros [Hk0 Hm]%NoDup_cons.
  rewrite filter_cons. simpl. destruct (decide (k = k0)) as [->|Hne].
  - rewrite decide_False by auto. simpl. symmetry. apply filter_Forall_all.
    apply Forall_forall. intros kv Hin Hk. destruct Hk0. simpl. rewrite <- Hk. by apply list_elem_of_fmap_2.
  - rewrite decide_True by done. destruct (sm_shift_remove m k) as [m' old]; simpl in *. by rewrite <- IH.
Qed.

Lemma sm_get_filter m k k' :
  sm_get (filter (λ kv, kv.1 ≠ k) m) k' = if decide (k' = k) then None else sm_get m k'.
Proof.
  induction m as [|[k0 v0] m IH]; [by case_decide|].
  rewrite filter_cons. simpl. destruct (decide (k0 = k)) as [->|Hne].
  - rewrite decide_False by auto. rewrite IH. by repeat case_decide.
  - rewrite decide_True by done. simpl. rewrite IH. repeat case_decide; congruence.
Qed.

Lemma sm_filter_NoDup (P : string * V → Prop) `{∀ x, Decision (P x)} m : NoDup m.*1 → NoDup (filter P m).*1.
Proof.
  induction m as [|kv m IH]; [done|]. rewrite fmap_cons. intros [Hk Hm]%NoDup_cons.
  rewrite filter_cons. case_decide; [|by apply IH]. rewrite fmap_cons. apply NoDup_cons.
  split; [|by apply IH]. intros (kv' & Heq & Hin)%list_elem_of_fmap. apply Hk.
  apply list_elem_of_fmap. exists kv'. split; [done|]. by apply list_elem_of_filter in Hin as [_ ?].
Qed.

Lemma sm_get_app m1 m2 k : sm_get (m1 ++ m2) k = match sm_get m1 k with Some v => Some v | None => sm_get m2 k end.
Proof. induction m1 as [|[k0 v0] m1 IH]; simpl; [done|]. by case_decide. Qed.

Lemma sm_collect_step m (l : list (string * V)) :
  NoDup (m ++ l).*1 → fold_left (λ m kv, (sm_insert m kv.1 kv.2).1) l m = m ++ l.
Proof.
  revert m. induction l as [|[k v] l IH]; intros m Hnd; simpl; [by rewrite app_nil_r|].
  rewrite sm_insert_fresh; simpl.
  - rewrite IH; rewrite <- app_assoc; done.
  - rewrite fmap_app in Hnd. apply NoDup_app in Hnd as (_ & Hd & _). intros Hin.
    apply (Hd _ Hin). simpl. by left.
Qed.

Lemma sm_collect_id (l : list (string * V)) : NoDup l.*1 → sm_collect l = l.
Proof. intros Hl. by apply (sm_collect_step []). Qed.
End SmallMap.

Section SortedVectorMap.
Context {V : Type}.

Lemma svm_collect_wf (l : list (string * V)) : btree_wf (svm_collect l).
Proof.
  assert (Hm : ∀ m, btree_wf m → btree_wf (fold_left (λ m kv, btree_insert m kv.1 kv.2) l m)).
  { induction l as [|[k v] l IH]; intros m Hm; [done|]. by apply IH, btree_insert_wf. }
  apply Hm. constructor.
Qed.

Lemma svm_get_step (l m : list (string * V)) k :
  btree_wf m → NoDup l.*1 →
  btree_get (fold_left (λ m kv, btree_insert m kv.1 kv.2) l m) k =
  match sm_get l k with Some v => Some v | None => btree_get m k end.
Proof.
  revert m. induction l as [|[k0 v0] l IH]; intros m Hm; simpl; [done|].
  intros [Hk0 Hl]%NoDup_cons. rewrite IH by (done || by apply btree_insert_wf).
  destruct (decide (k = k0)) as [->|Hne].
  - rewrite (proj2 (sm_get_None l k0)) by done. by rewrite btree_get_insert_eq.
  - by rewrite btree_get_insert_ne by done.
Qed.

Lemma svm_collect_get (l : list (string * V)) k : NoDup l.*1 → btree_get (svm_collect l) k = sm_get l k.
Proof.
  intros Hl. unfold svm_collect. rewrite svm_get_step by (done || constructor).
  by destruct (sm_get l k).
Qed.

Lemma btree_wf_NoDup (m : list (string * V)) : btree_wf m → NoDup m.*1.
Proof. apply sorted_keys_NoDup. Qed.

Lemma btree_get_sm_get (m : list (string * V)) k : btree_wf m → btree_get m k = sm_get m k.
Proof.
  intros Hm. apply option_eq. intros v.
  rewrite btree_get_Some by done. by rewrite sm_get_Some by (by apply btree_wf_NoDup).
Qed.

(** Sorted maps with the same lookups are the same list. *)
Lemma btree_ext (m1 m2 : list (string * V)) :
  btree_wf m1 → btree_wf m2 → (∀ k, btree_get m1 k = btree_get m2 k) → m1 = m2.
Proof.
  unfold btree_wf, btree_keys. revert m2. induction m1 as [|[k1 v1] m1 IH]; intros [|[k2 v2] m2] H1 H2 Heq.
  - done.
  - specialize (Heq k2). simpl in Heq. by rewrite cmp_refl in Heq.
  - specialize (Heq k1). simpl in Heq. by rewrite cmp_refl in Heq.
  - simpl in H1, H2. inversion H1 as [|? ? Hlt1 Hs1]; inversion H2 as [|? ? Hlt2 Hs2]; subst.
    assert (Hk : k1 = k2).
    { pose proof (Heq k1) as E1. pose proof (Heq k2) as E2. simpl in E1, E2. rewrite cmp_refl in E1, E2.
      destruct (rust_cmp k1 k2) eqn:E; [by apply cmp_eq in E|done|].
      apply cmp_gt in E. by rewrite E in E2. }
    subst k2. pose proof (Heq k1) as E1. simpl in E1. rewrite cmp_refl in E1. injection E1 as <-.
    f_equal. apply IH; [done|done|]. intros k. specialize (Heq k). simpl in Heq.
    destruct (rust_cmp k k1) eqn:E; [|rewrite !btree_get_below; [done|..]|done].
    + apply cmp_eq in E. subst. rewrite !btree_get_below; done.
    + eapply Forall_impl; [exact Hlt2|]. intros k' ?. by eapply cmp_trans.
    + eapply Forall_impl; [exact Hlt1|]. intros k' ?. by eapply cmp_trans.
Qed.
End SortedVectorMap.

Section MapEntries.
Context {D U L : Type}.

Lemma map_entries_keys (f : D → U) (es : list (string * DirectoryEntry D L)) : (map_entries f es).*1 = es.*1.
Proof. induction es as [|[k e] es IH]; [done|]. unfold map_entries in *. simpl. by f_equal. Qed.

Lemma elem_of_map_entries (f : D → U) (es : list (string * DirectoryEntry D L)) k e :
  (k, e) ∈ map_entries f es ↔ ∃ e', (k, e') ∈ es ∧ e = map_dir f e'.
Proof.
  unfold map_entries. rewrite list_elem_of_fmap. split.
  - intros ([k' e'] & [= -> ->] & Hin). by exists e'.
  - intros (e' & Hin & ->). by exists (k, e').
Qed.

Lemma sm_get_map_entries (f : D → U) (es : list (string * DirectoryEntry D L)) k :
  sm_get (map_entries f es) k = map_dir f <$> sm_get es k.
Proof. induction es as [|[k0 e] es IH]; simpl; [done|]. by case_decide. Qed.

Lemma btree_get_map_entries (f : D → U) (es : list (string * DirectoryEntry D L)) k :
  btree_get (map_entries f es) k = map_dir f <$> btree_get es k.
Proof. induction es as [|[k0 e] es IH]; simpl; [done|]. by destruct (rust_cmp k k0). Qed.

Lemma btree_wf_map_entries (f : D → U) (es : list (string * DirectoryEntry D L)) :
  btree_wf (map_entries f es) ↔ btree_wf es.
Proof. unfold btree_wf, btree_keys. by rewrite map_entries_keys. Qed.

Lemma map_entries_ext (f g : D → U) (es : list (string * DirectoryEntry D L)) :
  (∀ k c, (k, Dir c) ∈ es → f c = g c) → map_entries f es = map_entries g es.
Proof.
  intros Hfg. apply map_ext_in. intros [k [d|l]] Hin; simpl; [|done]. do 2 f_equal.
  apply (Hfg k). by apply list_elem_of_In.
Qed.
End MapEntries.

Lemma map_dir_id {D L} (e : DirectoryEntry D L) : map_dir id e = e.
Proof. by destruct e. Qed.

Lemma map_dir_compose {D U W L} (f : D → U) (g : U → W) (e : DirectoryEntry D L) :
  map_dir g (map_dir f e) = map_dir (g ∘ f) e.
Proof. by destruct e. Qed.

Lemma map_entries_compose {D U W L} (f : D → U) (g : U → W) (es : list (string * DirectoryEntry D L)) :
  map_entries g (map_entries f es) = map_entries (g ∘ f) es.
Proof.
  unfold map_entries. rewrite map_map. apply map_ext. intros [k e]. simpl. by rewrite map_dir_compose.
Qed.

Lemma map_entries_id {D L} (es : list (string * DirectoryEntry D L)) : map_entries id es = es.
Proof. induction es as [|[k e] es IH]; [done|]. unfold map_entries in *. simpl. by rewrite map_dir_id, IH. Qed.

(** * Directories *)

Section Directories.
Context {L H : Type} `{DirectoryDigester L H}.
Implicit Types (b d : DirectoryBuilder L H) (e : DirectoryEntry (DirectoryBuilder L H) L).

Lemma immutable_into_builder (d : ImmutableDirectory L H) : ImmutableDirectory_into_builder d = Immutable d.
Proof. by destruct d. Qed.

Lemma data_wf_sorted {D} (into : D → ImmutableDirectory L H) data : data_wf into data → btree_wf (dd_entries data).
Proof. by intros [? _]. Qed.

Lemma into_entries_NoDup b : builder_wf b → NoDup (DirectoryBuilder_into_entries b).*1.
Proof.
  intros [m Hm _|d Hd]; [done|]. simpl. destruct Hd as [data Hw _|s [addr data Hw _]]; simpl;
    rewrite map_entries_keys; by eapply btree_wf_NoDup, data_wf_sorted.
Qed.

Lemma into_entries_wf b k e : builder_wf b → (k, e) ∈ DirectoryBuilder_into_entries b → entry_wf e.
Proof.
  intros Hb Hin. destruct e as [c|l]; [|done]. simpl. destruct Hb as [m _ Hm|d Hd]; [by eapply Hm|].
  simpl in Hin. destruct Hd as [data _ Hc|s [addr data _ Hc]];
    apply elem_of_map_entries in Hin as ([c'|] & Hin & [= ->]).
  - rewrite immutable_into_builder. constructor. by eapply Hc.
  - do 2 constructor. by eapply Hc.
Qed.

Lemma get_into_entries b k : builder_wf b → DirectoryBuilder_get b k = sm_get (DirectoryBuilder_into_entries b) k.
Proof.
  intros [m _ _|d Hd]; [done|]. simpl. destruct Hd as [data Hw _|s [addr data Hw _]]; simpl;
    rewrite sm_get_map_entries; f_equal; by eapply btree_get_sm_get, data_wf_sorted.
Qed.

Lemma get_Some b k e : builder_wf b → DirectoryBuilder_get b k = Some e ↔ (k, e) ∈ DirectoryBuilder_into_entries b.
Proof. intros Hb. rewrite get_into_entries by done. by apply sm_get_Some, into_entries_NoDup. Qed.

Lemma get_wf b k e : builder_wf b → DirectoryBuilder_get b k = Some e → entry_wf e.
Proof. intros Hb He. apply get_Some in He; [|done]. by eapply into_entries_wf. Qed.

Lemma as_mut_into_entries b : builder_wf b → DirectoryBuilder_as_mut b = DirectoryBuilder_into_entries b.
Proof. destruct b as [m|d]; [done|]. intros Hb. by apply sm_collect_id, (into_entries_NoDup (Immutable d)). Qed.

Lemma as_mut_get b k : builder_wf b → sm_get (DirectoryBuilder_as_mut b) k = DirectoryBuilder_get b k.
Proof. intros Hb. by rewrite as_mut_into_entries, get_into_entries. Qed.

Lemma as_mut_NoDup b : builder_wf b → NoDup (DirectoryBuilder_as_mut b).*1.
Proof. intros Hb. rewrite as_mut_into_entries by done. by apply into_entries_NoDup. Qed.

Lemma as_mut_wf b : builder_wf b → builder_wf (Mutable (DirectoryBuilder_as_mut b)).
Proof.
  intros Hb. constructor; [by apply as_mut_NoDup|]. intros k c Hin.
  rewrite as_mut_into_entries in Hin by done. by apply (into_entries_wf _ _ (Dir c) Hb Hin).
Qed.

Lemma builder_empty_wf : builder_wf (L:=L) (H:=H) DirectoryBuilder_empty.
Proof. constructor; [constructor|]. by intros k c Hin%elem_of_nil. Qed.

Lemma insert_wf m k e : builder_wf (Mutable m) → entry_wf e → builder_wf (Mutable (sm_insert m k e).1).
Proof.
  intros Hm He. inversion Hm as [? Hnd Hc|]; subst. constructor; [by apply sm_insert_NoDup|].
  intros k' c [[= -> <-]|Hin]%elem_of_sm_insert; [done|]. by eapply Hc.
Qed.

Lemma filter_wf (P : string * DirectoryEntry (DirectoryBuilder L H) L → Prop) `{∀ x, Decision (P x)} m :
  builder_wf (Mutable m) → builder_wf (Mutable (filter P m)).
Proof.
  intros Hm. inversion Hm as [? Hnd Hc|]; subst. constructor; [by apply sm_filter_NoDup|].
  intros k c [_ Hin]%list_elem_of_filter. by eapply Hc.
Qed.

(** * Content *)

Lemma node_at_nil b : node_at b [] = Some (Dir tt).
Proof. done. Qed.

Lemma node_at_cons b k path :
  node_at b (k :: path) = match DirectoryBuilder_get b k with Some e => entry_at e path | None => None end.
Proof. simpl. by destruct (DirectoryBuilder_get b k) as [[d|l]|]. Qed.

Lemma entry_at_nil e : entry_at e [] = Some (node_of e).
Proof. by destruct e. Qed.

Lemma node_at_as_mut b path : builder_wf b → node_at (Mutable (DirectoryBuilder_as_mut b)) path = node_at b path.
Proof. intros Hb. destruct path as [|k path]; [done|]. rewrite !node_at_cons. simpl. by rewrite as_mut_get. Qed.

Lemma node_at_insert m k e k' path :
  node_at (H:=H) (Mutable (sm_insert m k e).1) (k' :: path) =
  if decide (k' = k) then entry_at e path else node_at (Mutable m) (k' :: path).
Proof. rewrite !node_at_cons. simpl. rewrite sm_get_insert. by case_decide. Qed.

Lemma node_at_empty path :
  node_at (L:=L) (H:=H) DirectoryBuilder_empty path = match path with [] => Some (Dir tt) | _ => None end.
Proof. by destruct path. Qed.

(** Nothing is below a leaf. *)
Lemma node_at_below_leaf b path path' l :
  node_at b path = Some (Leaf l) → node_at b (path ++ path') ≠ None → path' = [].
Proof.
  revert b. induction path as [|k path IH]; intros b; [done|]. rewrite <- app_comm_cons, !node_at_cons.
  destruct (DirectoryBuilder_get b k) as [[d|l']|]; simpl; [by apply IH| |done].
  destruct path; [|done]. simpl. intros _. by destruct path'.
Qed.

(** What is above something is a directory. *)
Lemma node_at_prefix b path path' n :
  node_at b (path ++ path') = Some n → path' ≠ [] → node_at b path = Some (Dir tt).
Proof.
  revert b. induction path as [|k path IH]; intros b Hn Hne; [done|].
  rewrite <- app_comm_cons in Hn. rewrite node_at_cons in *.
  destruct (DirectoryBuilder_get b k) as [[d|l]|]; simpl in *; [by eapply IH| |done].
  destruct path, path'; done.
Qed.

(** Nothing is below a path that leads nowhere. *)
Lemma node_at_missing b path path' : node_at b path = None → node_at b (path ++ path') = None.
Proof.
  intros Hn. destruct (node_at b (path ++ path')) as [n|] eqn:E; [|done]. destruct path' as [|k path'].
  - rewrite app_nil_r in E. congruence.
  - eapply node_at_prefix in E; [|done]. congruence.
Qed.

#[export] Instance builder_equivalence : Equivalence (≡@{DirectoryBuilder L H}).
Proof.
  split.
  - by intros b path.
  - by intros b1 b2 Hb path.
  - intros b1 b2 b3 H1 H2 path. by rewrite (H1 path).
Qed.

#[export] Instance node_at_proper : Proper ((≡) ==> (=) ==> (=)) (node_at (L:=L) (H:=H)).
Proof. intros b1 b2 Hb path ? <-. apply Hb. Qed.

(** * Induction on directories *)

Lemma height_child {A} (f : A → nat) (es : list (string * A)) k (a : A) :
  (k, a) ∈ es → f a ≤ max_list (map (λ ke, f ke.2) es).
Proof.
  induction es as [|[k0 a0] es IH]; [by intros ?%elem_of_nil|].
  intros [[= <- <-]|Hin]%elem_of_cons; simpl; [lia|]. apply IH in Hin. lia.
Qed.

Lemma into_entries_height b k d : (k, Dir d) ∈ DirectoryBuilder_into_entries b → builder_height d < builder_height b.
Proof.
  destruct b as [m|[data|[addr data]]]; simpl; rewrite Nat.lt_succ_r.
  - apply (height_child (λ x : DirectoryEntry (DirectoryBuilder L H) L, match x with Dir c => builder_height c | Leaf _ => 0 end)).
  - intros ([c|] & Hin & [= ->])%elem_of_map_entries. rewrite immutable_into_builder. simpl.
    by apply (height_child (λ x : DirectoryEntry (ImmutableDirectory L H) L, match x with Dir c => immutable_height c | Leaf _ => 0 end)) in Hin.
  - intros ([c|] & Hin & [= ->])%elem_of_map_entries. simpl.
    by apply (height_child (λ x : DirectoryEntry (SharedDirectory L H) L, match x with Dir c => shared_height c | Leaf _ => 0 end)) in Hin.
Qed.

Lemma builder_height_pos b : 0 < builder_height b.
Proof. destruct b as [m|[data|[addr data]]]; simpl; lia. Qed.

Lemma get_height b k d : builder_wf b → DirectoryBuilder_get b k = Some (Dir d) → builder_height d < builder_height b.
Proof. intros Hb Hd. apply get_Some in Hd; [|done]. by eapply into_entries_height. Qed.

(** Induction on well-formed directories, shared, exclusive or mutable. *)
Lemma builder_ind (P : DirectoryBuilder L H → Prop) :
  (∀ b, builder_wf b → (∀ k d, DirectoryBuilder_get b k = Some (Dir d) → P d) → P b) →
  ∀ b, builder_wf b → P b.
Proof.
  intros Hstep b. remember (builder_height b) as n eqn:Hn. revert b Hn.
  induction n as [n IH] using lt_wf_ind. intros b -> Hb. apply Hstep; [done|].
  intros k d Hd. eapply IH; [by eapply get_height|done|]. by apply (get_wf _ _ _ Hb Hd).
Qed.
End Directories.

#[global] Arguments node_at : simpl never.
#[global] Arguments DirectoryBuilder_get {L H} b name : simpl nomatch.
