(* ===== verification/DirBuilder.v ===== *)
(** Building directories ([src/app/bz_directory/src/directory/builder.rs], [find.rs]): insertion, creation
    of directories, lookups and removal, on copy-on-write directories. *)
From stdpp Require Import gmap list strings.
From S2P Require Import Prelude.
From S2P Require Import RustStr.
From S2P Require Import RustOrd.
From S2P Require Import DirData.
From S2P Require Import DirSpec.
Local Open Scope dice_scope.
Local Open Scope string_scope.
Local Open Scope nat_scope.
Local Open Scope list_scope.

(** * Paths of errors *)

(** The components of a path, the last one first. *)
Definition PathAccumulator : Type := list string.
Definition PathAccumulator_new (p : string) : PathAccumulator := [p].
Definition PathAccumulator_with (self : PathAccumulator) (p : string) : PathAccumulator := self ++ [p].
Definition PathAccumulator_into_iter (self : PathAccumulator) : list string := rev self.
(** [Display] *)
Definition PathAccumulator_fmt (self : PathAccumulator) : string := join_with "/" (PathAccumulator_into_iter self).

Inductive DirectoryInsertError := EmptyPath | InsertCannotTraverseLeaf (path : PathAccumulator).
Inductive DirectoryMkdirError := MkdirCannotTraverseLeaf (path : PathAccumulator).
Inductive DirectoryFindError := FindCannotTraverseLeaf (path : PathAccumulator).

(** [Result::map_err] *)
Definition map_err {A E F} (f : E → F) (r : A + E) : A + F :=
  match r with inl a => inl a | inr e => inr (f e) end.

(** [split_last] of a path *)
Fixpoint split_last {A} (l : list A) : option (list A * A) :=
  match l with
  | [] => None
  | a :: l => match split_last l with Some (init, last) => Some (a :: init, last) | None => Some ([], a) end
  end.

(** * What a lookup reports when the path goes through a leaf *)

Class FindConflict (L A : Type) := {
  conflict_new : string → list string → L → A;
  conflict_with : A → string → A;
}.

#[export] Instance path_conflict {L} : FindConflict L PathAccumulator := {|
  conflict_new path _ _ := PathAccumulator_new path;
  conflict_with := PathAccumulator_with;
|}.

Record PrefixLookupContainer (L : Type) := mkPrefixLookup { pl_leaf : L; pl_path : list string }.
Arguments mkPrefixLookup {_} _ _.
Arguments pl_leaf {_} _.
Arguments pl_path {_} _.

#[export] Instance prefix_conflict {L} : FindConflict L (PrefixLookupContainer L) := {|
  conflict_new path remaining leaf := mkPrefixLookup leaf (path :: remaining);
  conflict_with self _ := self;
|}.

Section Builder.
Context {L H : Type}.
Notation Builder := (DirectoryBuilder L H).
Notation Entry := (DirectoryEntry (DirectoryBuilder L H) L).

(** * Insertion *)

Fixpoint insert_inner (self : Builder) (path_needle : string) (path_rest : list string) (val : Entry) :
    Builder * (option Entry + PathAccumulator) :=
  let entries := DirectoryBuilder_as_mut self in
  match path_rest with
  | next_path_needle :: path_rest =>
      match sm_get entries path_needle with
      | Some (Dir d) =>
          let '(d, r) := insert_inner d next_path_needle path_rest val in
          (Mutable (sm_insert entries path_needle (Dir d)).1,
           map_err (λ acc, PathAccumulator_with acc path_needle) r)
      | Some (Leaf _) => (Mutable entries, inr (PathAccumulator_new path_needle))
      | None =>
          let '(dir, r) := insert_inner DirectoryBuilder_empty next_path_needle path_rest val in
          match r with
          | inr acc => (Mutable entries, inr (PathAccumulator_with acc path_needle))
          | inl _ => (Mutable (sm_insert entries path_needle (Dir dir)).1, inl None)
          end
      end
  | [] => let '(entries, old) := sm_insert entries path_needle val in (Mutable entries, inl old)
  end.

Definition DirectoryBuilder_insert (self : Builder) (path : list string) (val : Entry) :
    Builder * (option Entry + DirectoryInsertError) :=
  match path with
  | [] => (self, inr EmptyPath)
  | path_needle :: path =>
      let '(self, r) := insert_inner self path_needle path val in
      (self, map_err InsertCannotTraverseLeaf r)
  end.

(** * Directories without entries *)

Fixpoint mkdir_inner (self : Builder) (path : list string) : Builder * (unit + PathAccumulator) :=
  let entries := DirectoryBuilder_as_mut self in
  match path with
  | [] => (Mutable entries, inl tt)
  | path_needle :: path =>
      match sm_get entries path_needle with
      | Some (Dir d) =>
          let '(d, r) := mkdir_inner d path in
          (Mutable (sm_insert entries path_needle (Dir d)).1,
           map_err (λ acc, PathAccumulator_with acc path_needle) r)
      | Some (Leaf _) => (Mutable entries, inr (PathAccumulator_new path_needle))
      | None =>
          let '(dir, r) := mkdir_inner DirectoryBuilder_empty path in
          match r with
          | inr acc => (Mutable entries, inr (PathAccumulator_with acc path_needle))
          | inl _ => (Mutable (sm_insert entries path_needle (Dir dir)).1, inl tt)
          end
      end
  end.

Definition DirectoryBuilder_mkdir (self : Builder) (path : list string) : Builder * (unit + DirectoryMkdirError) :=
  let '(self, r) := mkdir_inner self path in (self, map_err MkdirCannotTraverseLeaf r).

(** * Lookups *)

Fixpoint find_inner {A} `{FindConflict L A} (dir : Builder) (path_needle : string) (path_rest : list string) :
    option Entry + A :=
  match DirectoryBuilder_get dir path_needle with
  | None => inl None
  | Some entry =>
      match path_rest with
      | [] => inl (Some entry)
      | next_path_needle :: path_rest =>
          match entry with
          | Dir dir => map_err (λ acc, conflict_with acc path_needle) (find_inner dir next_path_needle path_rest)
          | Leaf leaf => inr (conflict_new next_path_needle path_rest leaf)
          end
      end
  end.

Definition find (dir : Builder) (path : list string) : option Entry + DirectoryFindError :=
  match path with
  | [] => inl (Some (Dir dir))
  | path_needle :: path => map_err FindCannotTraverseLeaf (find_inner (A:=PathAccumulator) dir path_needle path)
  end.

Definition find_prefix (dir : Builder) (path : list string) : option (Entry * list string) + DirectoryFindError :=
  match path with
  | [] => inl (Some (Dir dir, []))
  | path_needle :: path =>
      match find_inner (A:=PrefixLookupContainer L) dir path_needle path with
      | inl maybe_leaf => inl ((λ l, (l, [])) <$> maybe_leaf)
      | inr conflict => inl (Some (Leaf (pl_leaf conflict), pl_path conflict))
      end
  end.

(** * Removal *)

(** The loop of [do_remove_prefix], which follows [path] into the directory and removes [last] there. *)
Fixpoint remove_below (this : Builder) (path : list string) (last : string) : outcome (Builder * Entry) :=
  match path with
  | [] =>
      let '(entries, removed) := sm_shift_remove (DirectoryBuilder_as_mut this) last in
      removed ← expect removed; Ok (Mutable entries, removed)
  | name :: path =>
      let entries := DirectoryBuilder_as_mut this in
      entry ← expect (sm_get entries name);
      match entry with
      | Dir d => '(d, removed) ← remove_below d path last; Ok (Mutable (sm_insert entries name (Dir d)).1, removed)
      | Leaf _ => unreachable
      end
  end.

Definition do_remove_prefix (self : Builder) (path : list string) : outcome (Builder * Entry) :=
  match split_last path with
  | None => Ok (DirectoryBuilder_empty, Dir self)
  | Some (path, last) => remove_below self path last
  end.

Definition DirectoryBuilder_remove_prefix (self : Builder) (path : list string) :
    outcome (Builder * (option Entry + DirectoryFindError)) :=
  match find self path with
  | inr e => Ok (self, inr e)
  | inl None => Ok (self, inl None)
  | inl (Some _) => '(self, removed) ← do_remove_prefix self path; Ok (self, inl (Some removed))
  end.
End Builder.
