(* ===== verification/DirBuilderSpec.v ===== *)
(** What building directories does to their content: insertion, creation of directories, lookups and
    removal, as changes of the map from paths; the unit tests of the source. *)
From stdpp Require Import gmap list strings.
From S2P Require Import Prelude.
From S2P Require Import RustStr.
From S2P Require Import RustOrd.
From S2P Require Import DirData.
From S2P Require Import DirSpec.
From S2P Require Import DirBuilder.
Local Open Scope dice_scope.
Local Open Scope string_scope.
Local Open Scope nat_scope.
Local Open Scope list_scope.

(** * Paths *)

(** The rest of a path below another one. *)
Fixpoint strip_path (prefix path : list string) : option (list string) :=
  match prefix, path with
  | [], _ => Some path
  | p :: prefix, k :: path => if decide (k = p) then strip_path prefix path else None
  | _ :: _, [] => None
  end.

Lemma strip_path_Some prefix path rest : strip_path prefix path = Some rest ↔ path = prefix ++ rest.
Proof.
  revert path. induction prefix as [|p prefix IH]; intros path; simpl.
  - split; [by intros [= ->]|by intros ->].
  - destruct path as [|k path]; [done|]. case_decide as Hk.
    + rewrite IH. subst. split; [by intros ->|by intros [= ->]].
    + split; [done|]. by intros [= -> _].
Qed.

Lemma strip_path_None prefix path : strip_path prefix path = None ↔ ∀ rest, path ≠ prefix ++ rest.
Proof.
  split.
  - intros Hn rest Hp. by apply strip_path_Some in Hp as ?; congruence.
  - intros Hn. destruct (strip_path prefix path) as [rest|] eqn:E; [|done].
    apply strip_path_Some in E. by destruct (Hn rest).
Qed.

Lemma split_last_spec {A} (l : list A) :
  match split_last l with Some (init, last) => l = init ++ [last] | None => l = [] end.
Proof.
  induction l as [|a l IH]; simpl; [done|]. destruct (split_last l) as [[init last]|]; by subst.
Qed.

(** The content after an entry [e] is put at [path]: the directories on the way exist, the subtree is
    the one of the entry, the rest is as before. *)
Definition grafted {L H} (before : list string → option (Node L)) (path : list string)
    (e : DirectoryEntry (DirectoryBuilder L H) L) (q : list string) : option (Node L) :=
  match strip_path path q with
  | Some rest => entry_at e rest
  | None => match strip_path q path with Some _ => Some (Dir tt) | None => before q end
  end.

(** The content after the subtree at [path] is removed; the root stays a directory. *)
Definition pruned {L} (before : list string → option (Node L)) (path q : list string) : option (Node L) :=
  match q with
  | [] => Some (Dir tt)
  | _ => match strip_path path q with Some _ => None | None => before q end
  end.

(** A leaf at a prefix of a path with at least [n] components to go: a proper prefix for [1]. *)
Definition leaf_at_prefix {L} (n : nat) (content : list string → option (Node L)) (path above : list string) : Prop :=
  ∃ rest l, path = above ++ rest ∧ n ≤ length rest ∧ content above = Some (Leaf l).

Definition no_leaf_above {L} (n : nat) (content : list string → option (Node L)) (path : list string) : Prop :=
  ∀ above, ¬ leaf_at_prefix n content path above.

(** What is below [path], [None] if there is nothing. *)
Definition subtree_at {L H} (b : DirectoryBuilder L H) (path : list string)
    (o : option (DirectoryEntry (DirectoryBuilder L H) L)) : Prop :=
  match o with
  | Some e => ∀ q, entry_at e q = node_at b (path ++ q)
  | None => node_at b path = None
  end.

Section Spec.
Context {L H : Type} `{DirectoryDigester L H}.
Notation Builder := (DirectoryBuilder L H).
Notation Entry := (DirectoryEntry (DirectoryBuilder L H) L).
Implicit Types (b d : Builder) (e : Entry).

Lemma leaf_at_prefix_cons n b k d path above :
  DirectoryBuilder_get b k = Some (Dir d) →
  leaf_at_prefix n (node_at d) path above → leaf_at_prefix n (node_at b) (k :: path) (k :: above).
Proof.
  intros Hk (rest & l & -> & Hrest & Hl). exists rest, l. split_and!; [done|done|].
  rewrite node_at_cons, Hk. done.
Qed.

Lemma no_leaf_above_cons n b k d path :
  DirectoryBuilder_get b k = Some (Dir d) →
  no_leaf_above n (node_at d) path → no_leaf_above n (node_at b) (k :: path).
Proof.
  intros Hk Hno above (rest & l & Heq & Hrest & Hl). destruct above as [|k' above]; [done|].
  injection Heq as <- ->. rewrite node_at_cons, Hk in Hl. apply (Hno above). by exists rest, l.
Qed.

Lemma no_leaf_above_missing n b k path :
  DirectoryBuilder_get b k = None → no_leaf_above n (node_at b) (k :: path).
Proof.
  intros Hk above (rest & l & Heq & Hrest & Hl). destruct above as [|k' above]; [done|].
  injection Heq as <- ->. by rewrite node_at_cons, Hk in Hl.
Qed.

Lemma no_leaf_above_single b k : no_leaf_above 1 (node_at b) [k].
Proof.
  intros above (rest & l & Heq & Hrest & Hl). destruct above as [|k' above]; [done|].
  injection Heq as <- Heq. destruct above; [|done]. simpl in Heq. subst. simpl in *. lia.
Qed.

(** The content [after] below the name [k], and the content of [b] elsewhere. *)
Definition under (k : string) (after : list string → option (Node L)) b (q : list string) : option (Node L) :=
  match q with
  | [] => Some (Dir tt)
  | k' :: q => if decide (k' = k) then after q else node_at b (k' :: q)
  end.

(** The directory that a name leads to, or the empty one that is made for it. *)
Definition child_or_empty b (k : string) d : Prop :=
  DirectoryBuilder_get b k = Some (Dir d) ∨ DirectoryBuilder_get b k = None ∧ d = DirectoryBuilder_empty.

Lemma child_or_empty_at b k d q :
  child_or_empty b k d → q ≠ [] → node_at b (k :: q) = node_at d q.
Proof. rewrite node_at_cons. intros [->|[-> ->]]; [done|]. rewrite node_at_empty. by destruct q. Qed.

Lemma under_grafted b k d path e q :
  child_or_empty b k d → path ≠ [] → under k (grafted (node_at d) path e) b q = grafted (node_at b) (k :: path) e q.
Proof.
  intros Hk Hpath. unfold grafted. destruct q as [|k' q]; [done|]. simpl.
  destruct (decide (k' = k)) as [->|Hne]; [|by rewrite (decide_False (P:=k = k'))].
  rewrite decide_True by done. destruct (strip_path path q); [done|].
  destruct (strip_path q path) eqn:E; [done|]. destruct q as [|k' q]; [done|].
  by rewrite <- (child_or_empty_at b k d) by done.
Qed.

Lemma node_at_replaced b k d q :
  builder_wf b → node_at (H:=H) (Mutable (sm_insert (DirectoryBuilder_as_mut b) k (Dir d)).1) q = under k (node_at d) b q.
Proof.
  intros Hb. destruct q as [|k' q]; [done|]. rewrite node_at_insert. simpl under. case_decide; [done|].
  by rewrite node_at_as_mut.
Qed.

(** * Insertion *)

(** What a change of the directory that goes along [path] and ends with the content [after] does: it
    reports the first leaf on the way and changes nothing, or succeeds. *)
Definition along_path {R} (n : nat) b (path : list string) (after : list string → option (Node L)) (ok : R → Prop)
    (res : Builder * (R + PathAccumulator)) : Prop :=
  builder_wf res.1 ∧
  match res.2 with
  | inl r => no_leaf_above n (node_at b) path ∧ ok r ∧ ∀ q, node_at res.1 q = after q
  | inr acc => leaf_at_prefix n (node_at b) path (PathAccumulator_into_iter acc) ∧ ∀ q, node_at res.1 q = node_at b q
  end.

Lemma along_path_leaf {R} n b k l path after (ok : R → Prop) :
  builder_wf b → DirectoryBuilder_get b k = Some (Leaf l) → n ≤ length path →
  along_path n b (k :: path) after ok (Mutable (DirectoryBuilder_as_mut b), inr (PathAccumulator_new k)).
Proof.
  intros Hb Hk Hpath. split; [by apply as_mut_wf|]. simpl. split; [|by intros q; apply node_at_as_mut].
  exists path, l. split_and!; [done|done|]. by rewrite node_at_cons, Hk.
Qed.

Lemma along_path_dir {R} n b k d path after (ok : R → Prop) res :
  builder_wf b → DirectoryBuilder_get b k = Some (Dir d) → along_path n d path after ok res →
  along_path n b (k :: path) (under k after b) ok
    (Mutable (sm_insert (DirectoryBuilder_as_mut b) k (Dir res.1)).1,
     map_err (λ acc, PathAccumulator_with acc k) res.2).
Proof.
  intros Hb Hk [Hwf Hres]. split; [by apply insert_wf; [apply as_mut_wf|]|]. simpl.
  destruct res as [d' [r|acc]]; simpl in *.
  - destruct Hres as (Hno & Hr & Hafter). split_and!; [by eapply no_leaf_above_cons|done|].
    intros q. rewrite node_at_replaced by done. destruct q; [done|]. simpl. case_decide; [|done]. apply Hafter.
  - destruct Hres as (Hleaf & Hsame). unfold PathAccumulator_into_iter, PathAccumulator_with.
    rewrite rev_app_distr. simpl. split; [by eapply leaf_at_prefix_cons|].
    intros q. rewrite node_at_replaced by done. destruct q as [|k' q]; [done|]. simpl under.
    case_decide; [|done]. subst. by rewrite node_at_cons, Hk, Hsame.
Qed.

Lemma along_path_missing {R S} n b k path after (ok : S → Prop) (ok' : R → Prop) res (r : R) :
  builder_wf b → DirectoryBuilder_get b k = None → ok' r →
  along_path n DirectoryBuilder_empty path after ok res →
  along_path n b (k :: path) (under k after b) ok'
    match res.2 with
    | inr acc => (Mutable (DirectoryBuilder_as_mut b), inr (PathAccumulator_with acc k))
    | inl _ => (Mutable (sm_insert (DirectoryBuilder_as_mut b) k (Dir res.1)).1, inl r)
    end.
Proof.
  intros Hb Hk Hr [Hwf Hres]. destruct res as [d' [r'|acc]]; simpl in *.
  - destruct Hres as (_ & _ & Hafter). split; [by apply insert_wf; [apply as_mut_wf|]|]. simpl.
    split_and!; [by apply no_leaf_above_missing|done|].
    intros q. rewrite node_at_replaced by done. destruct q; [done|]. simpl. case_decide; [|done]. apply Hafter.
  - destruct Hres as ((rest & l & _ & _ & Hl) & _). rewrite node_at_empty in Hl. by case_match.
Qed.

Lemma along_path_ext {R} n b path after after' (ok ok' : R → Prop) res :
  along_path n b path after ok res → (∀ q, after q = after' q) → (∀ r, ok r → ok' r) → along_path n b path after' ok' res.
Proof.
  intros [Hwf Hres] Hafter Hok. split; [done|]. destruct (res.2) as [r|acc]; [|done].
  destruct Hres as (Hno & Hr & Hres). split_and!; [done|by apply Hok|]. intros q. by rewrite Hres.
Qed.

Lemma subtree_at_cons b k d path o :
  DirectoryBuilder_get b k = Some (Dir d) → subtree_at d path o → subtree_at b (k :: path) o.
Proof.
  intros Hk Ho. destruct o as [e|]; simpl in *.
  - intros q. by rewrite Ho, node_at_cons, Hk.
  - by rewrite node_at_cons, Hk.
Qed.

Lemma insert_inner_spec path k b e :
  builder_wf b → entry_wf e →
  along_path 1 b (k :: path) (grafted (node_at b) (k :: path) e) (subtree_at b (k :: path)) (insert_inner b k path e).
Proof.
  revert k b. induction path as [|k' path IH]; intros k b Hb He; simpl.
  - destruct (sm_insert (DirectoryBuilder_as_mut b) k e) as [m old] eqn:E.
    assert (Hm : m = (sm_insert (DirectoryBuilder_as_mut b) k e).1) by by rewrite E.
    assert (Hold : old = DirectoryBuilder_get b k) by (by rewrite <- as_mut_get, <- (sm_insert_old _ _ e), E).
    subst. split; simpl; [by apply insert_wf; [apply as_mut_wf|]|].
    split_and!; [apply no_leaf_above_single| |].
    + unfold subtree_at. destruct (DirectoryBuilder_get b k) as [e'|] eqn:Hk.
      * intros q. by rewrite <- app_comm_cons, node_at_cons, Hk.
      * by rewrite node_at_cons, Hk.
    + intros [|k' q]; [done|]. rewrite node_at_insert. unfold grafted. simpl.
      destruct (decide (k' = k)) as [->|Hne]; [done|]. rewrite (decide_False (P:=k = k')) by done.
      exact (node_at_as_mut b (k' :: q) Hb).
  - rewrite as_mut_get by done. destruct (DirectoryBuilder_get b k) as [[d|l]|] eqn:Hk.
    + assert (Hd : builder_wf d) by apply (get_wf _ _ _ Hb Hk).
      pose proof (along_path_dir 1 b k d _ _ _ _ Hb Hk (IH k' d Hd He)) as Hres.
      destruct (insert_inner d k' path e) as [d' r]. eapply along_path_ext; [exact Hres| |].
      * intros q. apply under_grafted; [by left|done].
      * intros o. by apply subtree_at_cons.
    + eapply along_path_leaf; [done|done|simpl; lia].
    + assert (Hnone : subtree_at b (k :: k' :: path) None) by (simpl; by rewrite node_at_cons, Hk).
      pose proof (along_path_missing 1 b k _ _ _ _ _ None Hb Hk Hnone
        (IH k' DirectoryBuilder_empty builder_empty_wf He)) as Hres.
      eapply along_path_ext in Hres; [|intros q; by apply under_grafted; [right|]|by intros r; exact id].
      by destruct (insert_inner DirectoryBuilder_empty k' path e) as [d' [r|acc]].
Qed.

(** * Creation of directories *)

(** The content after the directories along [path] are made. *)
Definition dirs_made (before : list string → option (Node L)) (path q : list string) : option (Node L) :=
  match before q with
  | Some n => Some n
  | None => match strip_path q path with Some _ => Some (Dir tt) | None => None end
  end.

Lemma under_dirs_made b k d path q :
  child_or_empty b k d → under k (dirs_made (node_at d) path) b q = dirs_made (node_at b) (k :: path) q.
Proof.
  intros Hk. unfold dirs_made. destruct q as [|k' q]; [done|]. simpl under.
  destruct (decide (k' = k)) as [->|Hne].
  - destruct q as [|k' q].
    + rewrite node_at_cons. simpl. rewrite decide_True by done. by destruct Hk as [->|[-> ->]].
    + rewrite <- (child_or_empty_at b k d) by done. simpl. by rewrite (decide_True (P:=k = k)).
  - simpl (strip_path _ _). rewrite (decide_False (P:=k = k')) by congruence. by destruct (node_at b (k' :: q)).
Qed.

Lemma mkdir_inner_spec path b :
  builder_wf b → along_path 0 b path (dirs_made (node_at b) path) (λ _, True) (mkdir_inner b path).
Proof.
  revert b. induction path as [|k path IH]; intros b Hb; simpl.
  { split; [by apply as_mut_wf|]. simpl. split_and!; [|done|].
    - intros above (rest & l & Heq & _ & Hl). by destruct above.
    - intros q. rewrite node_at_as_mut by done. unfold dirs_made. destruct (node_at b q) eqn:Hq; [done|].
      by destruct q. }
  rewrite as_mut_get by done. destruct (DirectoryBuilder_get b k) as [[d|l]|] eqn:Hk.
  - assert (Hd : builder_wf d) by apply (get_wf _ _ _ Hb Hk).
    pose proof (along_path_dir 0 b k d _ _ _ _ Hb Hk (IH d Hd)) as Hres.
    destruct (mkdir_inner d path) as [d' r]. eapply along_path_ext; [exact Hres| |done].
    intros q. apply under_dirs_made. by left.
  - eapply along_path_leaf; [done|done|simpl; lia].
  - pose proof (along_path_missing 0 b k _ _ _ (λ _, True) _ tt Hb Hk I
      (IH DirectoryBuilder_empty builder_empty_wf)) as Hres.
    eapply along_path_ext in Hres; [|intros q; by apply under_dirs_made; right|by intros r; exact id].
    by destruct (mkdir_inner DirectoryBuilder_empty path) as [d' [r|acc]].
Qed.

(** * Lookups *)

Lemma find_inner_spec {A} `{FindConflict L A} path b k :
  match find_inner (A:=A) b k path with
  | inl o => no_leaf_above 1 (node_at b) (k :: path) ∧ subtree_at b (k :: path) o
  | inr a => ∃ init name next rest l,
      k :: path = init ++ name :: next :: rest ∧ node_at b (init ++ [name]) = Some (Leaf l) ∧
      a = foldr (λ name acc, conflict_with acc name) (conflict_new next rest l) init
  end.
Proof.
  revert b k. induction path as [|k' path IH]; intros b k; simpl.
  - destruct (DirectoryBuilder_get b k) as [e|] eqn:Hk.
    + split; [apply no_leaf_above_single|]. intros q. simpl. by rewrite node_at_cons, Hk.
    + split; [by apply no_leaf_above_missing|]. simpl. by rewrite node_at_cons, Hk.
  - destruct (DirectoryBuilder_get b k) as [[d|l]|] eqn:Hk.
    + specialize (IH d k'). destruct (find_inner d k' path) as [o|a]; simpl.
      * destruct IH as [Hno Ho]. split; [by eapply no_leaf_above_cons|by eapply subtree_at_cons].
      * destruct IH as (init & name & next & rest & l & Heq & Hl & ->).
        exists (k :: init), name, next, rest, l. split_and!; [by rewrite Heq| |done].
        by rewrite <- app_comm_cons, node_at_cons, Hk.
    + exists [], k, k', path, l. split_and!; [done| |done]. simpl. by rewrite node_at_cons, Hk.
    + split; [by apply no_leaf_above_missing|]. simpl. by rewrite node_at_cons, Hk.
Qed.

Lemma path_conflict_components init next :
  PathAccumulator_into_iter
    (foldr (λ name acc, PathAccumulator_with acc name) (PathAccumulator_new next) init) = init ++ [next].
Proof.
  unfold PathAccumulator_into_iter, PathAccumulator_with. induction init as [|k init IH]; simpl; [done|].
  rewrite rev_app_distr. simpl. by rewrite IH.
Qed.

Lemma find_spec path b :
  match find b path with
  | inl o => no_leaf_above 1 (node_at b) path ∧ subtree_at b path o
  | inr (FindCannotTraverseLeaf acc) => ∃ init name next rest l,
      path = init ++ name :: next :: rest ∧ node_at b (init ++ [name]) = Some (Leaf l) ∧
      PathAccumulator_into_iter acc = init ++ [next]
  end.
Proof.
  destruct path as [|k path]; simpl.
  { split; [|by intros q]. intros above (rest & l & Heq & _ & Hl). by destruct above. }
  pose proof (find_inner_spec (A:=PathAccumulator) path b k) as Hf.
  destruct (find_inner b k path) as [o|acc]; simpl; [done|].
  destruct Hf as (init & name & next & rest & l & Heq & Hl & ->).
  exists init, name, next, rest, l. split_and!; [done|done|apply path_conflict_components].
Qed.

Lemma find_prefix_spec path b :
  ∃ o, find_prefix b path = inl o ∧
  match o with
  | Some (e, rest) => ∃ found, path = found ++ rest ∧ subtree_at b found (Some e) ∧
      (rest ≠ [] → ∃ l, e = Leaf l)
  | None => no_leaf_above 1 (node_at b) path ∧ node_at b path = None
  end.
Proof.
  destruct path as [|k path]; simpl.
  { eexists. split; [done|]. exists []. split_and!; [done|by intros q|done]. }
  pose proof (find_inner_spec (A:=PrefixLookupContainer L) path b k) as Hf.
  destruct (find_inner b k path) as [[e|]|acc]; simpl; (eexists; split; [reflexivity|]); simpl.
  - exists (k :: path). split_and!; [by rewrite app_nil_r|apply Hf|done].
  - done.
  - destruct Hf as (init & name & next & rest & l & Heq & Hl & ->). exists (init ++ [name]).
    assert (Ha : foldr (λ name acc, conflict_with acc name) (conflict_new next rest l) init = mkPrefixLookup l (next :: rest)).
    { clear. by induction init. }
    rewrite Ha. simpl. split_and!; [by rewrite <- app_assoc| |by exists l].
    intros [|k' q]; [by rewrite app_nil_r|]. simpl. symmetry.
    destruct (node_at b ((init ++ [name]) ++ k' :: q)) as [n|] eqn:Hn; [|done].
    exfalso. by eapply node_at_below_leaf in Hl; [|by rewrite Hn].
Qed.

(** * Removal *)

Lemma under_pruned b k d path q :
  builder_wf b → DirectoryBuilder_get b k = Some (Dir d) → path ≠ [] →
  under k (pruned (node_at d) path) b q = pruned (node_at b) (k :: path) q.
Proof.
  intros Hb Hk Hpath. unfold pruned. destruct q as [|k' q]; [done|]. simpl.
  destruct (decide (k' = k)) as [->|Hne]; [|by destruct q].
  rewrite node_at_cons, Hk. destruct q as [|k' q]; [by destruct path|]. done.
Qed.

Lemma remove_below_spec path b last :
  builder_wf b → node_at b (path ++ [last]) ≠ None →
  ∃ b' e, remove_below b path last = Ok (b', e) ∧ builder_wf b' ∧ subtree_at b (path ++ [last]) (Some e) ∧
    ∀ q, node_at b' q = pruned (node_at b) (path ++ [last]) q.
Proof.
  revert b. induction path as [|k path IH]; intros b Hb Hn; simpl.
  - simpl in Hn. rewrite node_at_cons in Hn. destruct (DirectoryBuilder_get b last) as [e|] eqn:Hk; [|done].
    destruct (sm_shift_remove (DirectoryBuilder_as_mut b) last) as [m old] eqn:E.
    assert (Hold : old = Some e) by (by rewrite <- Hk, <- as_mut_get, <- sm_shift_remove_old, E).
    assert (Hm : m = filter (λ kv, kv.1 ≠ last) (DirectoryBuilder_as_mut b)).
    { rewrite <- sm_shift_remove_filter by (by apply as_mut_NoDup). by rewrite E. }
    subst. exists (Mutable (filter (λ kv, kv.1 ≠ last) (DirectoryBuilder_as_mut b))), e. split_and!; [done| | |].
    + by apply filter_wf, as_mut_wf.
    + intros q. simpl. by rewrite node_at_cons, Hk.
    + intros [|k q]; [done|]. rewrite node_at_cons. simpl. rewrite sm_get_filter, as_mut_get by done.
      case_decide; [done|]. by rewrite node_at_cons.
  - rewrite <- app_comm_cons, node_at_cons in Hn. rewrite as_mut_get by done.
    destruct (DirectoryBuilder_get b k) as [[d|l]|] eqn:Hk; simpl; [| |done].
    + assert (Hd : builder_wf d) by apply (get_wf _ _ _ Hb Hk).
      destruct (IH d Hd Hn) as (d' & e & -> & Hd' & He & Hq). simpl.
      exists (Mutable (sm_insert (DirectoryBuilder_as_mut b) k (Dir d')).1), e. split_and!; [done| | |].
      * by apply insert_wf; [apply as_mut_wf|].
      * intros q. simpl. rewrite node_at_cons, Hk. apply He.
      * intros q. rewrite node_at_replaced by done. rewrite <- under_pruned with (d := d) by (done || by destruct path).
        destruct q as [|k' q]; [done|]. simpl. case_decide; [|done]. apply Hq.
    + by destruct path.
Qed.

Lemma remove_prefix_spec b path :
  builder_wf b →
  ∃ b' r, DirectoryBuilder_remove_prefix b path = Ok (b', r) ∧ builder_wf b' ∧
  match r with
  | inl o => subtree_at b path o ∧ no_leaf_above 1 (node_at b) path ∧ ∀ q, node_at b' q = pruned (node_at b) path q
  | inr e => find b path = inr e ∧ b' = b
  end.
Proof.
  intros Hb. unfold DirectoryBuilder_remove_prefix. pose proof (find_spec path b) as Hf.
  destruct (find b path) as [[e|]|acc] eqn:Hfind.
  - destruct Hf as [Hno He]. unfold do_remove_prefix. pose proof (split_last_spec path) as Hlast.
    destruct (split_last path) as [[init last]|]; subst.
    + destruct (remove_below_spec init b last Hb) as (b' & e' & -> & Hb' & He' & Hq).
      { specialize (He []). rewrite app_nil_r, entry_at_nil in He. by rewrite <- He. }
      simpl. by eexists _, _.
    + simpl. eexists _, _. split_and!; [done|apply builder_empty_wf|]. split_and!; [by intros q|done|].
      intros q. rewrite node_at_empty. by destruct q.
  - destruct Hf as [Hno Hn]. eexists _, _. split_and!; [done|done|]. split_and!; [done|done|].
    intros q. unfold pruned. destruct (strip_path path q) as [rest|] eqn:E; [|by destruct q].
    apply strip_path_Some in E as ->. destruct path as [|k path]; [done|]. by apply node_at_missing.
  - by eexists _, _.
Qed.
End Spec.
