(* ===== verification/DirFingerprint.v ===== *)
(** Fingerprints of directories: they do not depend on how a directory was built, and where digests have
    no collisions they identify its content. *)
From stdpp Require Import gmap list strings countable.
From S2P Require Import Prelude.
From S2P Require Import RustOrd.
From S2P Require Import DirData.
From S2P Require Import DirSpec.
Local Open Scope dice_scope.
Local Open Scope string_scope.
Local Open Scope nat_scope.
Local Open Scope list_scope.

(** What is promised of a digest: it depends on the names, the leaves and the fingerprints of the
    directories only, and it has no collisions. *)
Class CollisionFree (L H : Type) `{DirectoryDigester L H} : Prop :=
  hash_entries_eq (es1 es2 : list (string * DirectoryEntry (ImmutableDirectory L H) L)) :
    hash_entries es1 = hash_entries es2 ↔
    map_entries ImmutableDirectory_fingerprint es1 = map_entries ImmutableDirectory_fingerprint es2.

(** The entries of a shared or exclusive directory. *)
Definition immutable_entries {L H} (d : ImmutableDirectory L H) :
    list (string * DirectoryEntry (ImmutableDirectory L H) L) :=
  match d with
  | Exclusive data => dd_entries data
  | Shared s => map_entries Shared (dd_entries (sd_data s))
  end.

(** Entries with the same content. *)
Inductive entry_equiv {L H} : DirectoryEntry (DirectoryBuilder L H) L → DirectoryEntry (DirectoryBuilder L H) L → Prop :=
| dir_equiv b1 b2 : b1 ≡ b2 → entry_equiv (Dir b1) (Dir b2)
| leaf_equiv l : entry_equiv (Leaf l) (Leaf l).

Section Fingerprints.
Context {L H : Type} `{DirectoryDigester L H}.
Implicit Types (d : ImmutableDirectory L H).

Lemma entry_equiv_at (e1 e2 : DirectoryEntry (DirectoryBuilder L H) L) :
  entry_equiv e1 e2 ↔ ∀ q, entry_at e1 q = entry_at e2 q.
Proof.
  split.
  - by intros [b1 b2 Hb|l] q; [apply Hb|].
  - intros Heq. destruct e1 as [b1|l1], e2 as [b2|l2]; pose proof (Heq []) as E.
    + by constructor.
    + done.
    + done.
    + injection E as ->. constructor.
Qed.

(** Directories have the same content when their names lead to entries with the same content. *)
Lemma builder_equiv_get (b1 b2 : DirectoryBuilder L H) :
  b1 ≡ b2 ↔ ∀ k, option_Forall2 entry_equiv (DirectoryBuilder_get b1 k) (DirectoryBuilder_get b2 k).
Proof.
  split.
  - intros Hb k. assert (Hk : ∀ q, node_at b1 (k :: q) = node_at b2 (k :: q)) by (intros q; apply Hb).
    setoid_rewrite node_at_cons in Hk. pose proof (Hk []) as E.
    destruct (DirectoryBuilder_get b1 k) as [e1|], (DirectoryBuilder_get b2 k) as [e2|];
      rewrite ?entry_at_nil in E; try done; constructor. by apply entry_equiv_at.
  - intros Hk [|k q]; [done|]. rewrite !node_at_cons. destruct (Hk k) as [e1 e2 He|]; [|done].
    by apply entry_equiv_at.
Qed.

Lemma immutable_get d k :
  DirectoryBuilder_get (Immutable d) k = map_dir Immutable <$> btree_get (immutable_entries d) k.
Proof.
  destruct d as [data|s]; simpl.
  - destruct (btree_get _ k) as [[c|l]|]; simpl; [|done..]. by rewrite immutable_into_builder.
  - rewrite btree_get_map_entries. by destruct (btree_get _ k) as [[c|l]|].
Qed.

Lemma immutable_wf_entries d :
  immutable_wf d →
  btree_wf (immutable_entries d) ∧ ImmutableDirectory_fingerprint d = hash_entries (immutable_entries d) ∧
  ImmutableDirectory_size d = dd_size (DirectoryData_new (immutable_entries d)) ∧
  ∀ k c, (k, Dir c) ∈ immutable_entries d → immutable_wf c.
Proof.
  intros [data [Hs Heq] Hc|s [addr data [Hs Heq] Hc]]; simpl.
  - rewrite map_entries_id in Heq. injection Heq as Hsize Hfp. split_and!; [done|done|done|exact Hc].
  - injection Heq as Hsize Hfp. split_and!; [by apply btree_wf_map_entries|done|done|].
    intros k c ([c'|] & Hin & [= ->])%elem_of_map_entries. constructor. by eapply Hc.
Qed.

Lemma builder_wf_immutable d : builder_wf (Immutable d) → immutable_wf d.
Proof. by inversion 1. Qed.

(** * The fingerprint of a builder *)

Lemma fingerprint_mutable_entries (m : list (string * DirectoryEntry (DirectoryBuilder L H) L)) :
  NoDup m.*1 → ∀ k, btree_get (svm_collect (map_entries DirectoryBuilder_fingerprint m)) k =
    map_dir DirectoryBuilder_fingerprint <$> sm_get m k.
Proof.
  intros Hm k. rewrite svm_collect_get by (by rewrite map_entries_keys). apply sm_get_map_entries.
Qed.

Lemma fingerprint_wf b : builder_wf b → immutable_wf (DirectoryBuilder_fingerprint b).
Proof.
  revert b. apply builder_ind. intros [m|d] Hb IH; [|by apply builder_wf_immutable].
  assert (Hnd : NoDup m.*1) by (by inversion Hb).
  simpl. constructor.
  - split; [apply svm_collect_wf|]. rewrite map_entries_id. done.
  - simpl. intros k c Hin. apply btree_get_Some in Hin; [|apply svm_collect_wf].
    rewrite fingerprint_mutable_entries in Hin by done.
    destruct (sm_get m k) as [[b|l]|] eqn:Hk; simpl in Hin; [|done..]. injection Hin as <-. by apply (IH k).
Qed.

(** Fingerprinting keeps the content. *)
Lemma fingerprint_content b : builder_wf b → Immutable (DirectoryBuilder_fingerprint b) ≡ b.
Proof.
  revert b. apply builder_ind. intros [m|d] Hb IH; [|done].
  assert (Hnd : NoDup m.*1) by (by inversion Hb).
  apply builder_equiv_get. intros k. rewrite immutable_get. simpl (immutable_entries _).
  rewrite fingerprint_mutable_entries by done. simpl.
  destruct (sm_get m k) as [[b|l]|] eqn:Hk; simpl; constructor; constructor. by apply (IH k).
Qed.

(** * Fingerprints and content *)

Context `{!CollisionFree L H}.

(** Directories have the same fingerprint exactly when they have the same content. *)
Lemma fingerprint_equiv d1 d2 :
  immutable_wf d1 → immutable_wf d2 →
  ImmutableDirectory_fingerprint d1 = ImmutableDirectory_fingerprint d2 ↔ Immutable d1 ≡ Immutable d2.
Proof.
  intros Hd1. assert (Hb1 : builder_wf (Immutable d1)) by by constructor.
  clear Hd1. remember (Immutable d1) as b1 eqn:Heqb. revert b1 Hb1 d1 Heqb d2.
  apply (builder_ind (λ b1, ∀ d1, b1 = Immutable d1 → ∀ d2, immutable_wf d2 →
    ImmutableDirectory_fingerprint d1 = ImmutableDirectory_fingerprint d2 ↔ b1 ≡ Immutable d2)).
  intros b Hb IH d1 -> d2 Hd2. apply builder_wf_immutable in Hb as Hd1.
  destruct (immutable_wf_entries d1 Hd1) as (Hs1 & -> & _ & Hc1).
  destruct (immutable_wf_entries d2 Hd2) as (Hs2 & -> & _ & Hc2).
  rewrite hash_entries_eq, builder_equiv_get.
  assert (Hchild : ∀ k e1 e2, btree_get (immutable_entries d1) k = Some e1 → btree_get (immutable_entries d2) k = Some e2 →
    map_dir ImmutableDirectory_fingerprint e1 = map_dir ImmutableDirectory_fingerprint e2 ↔
    entry_equiv (map_dir Immutable e1) (map_dir Immutable e2)).
  { intros k [c1|l1] [c2|l2] He1 He2; simpl; (split; [intros [= Heq]|intros Heq; inversion Heq; subst]); try done.
    - constructor. eapply (IH k); [by rewrite immutable_get, He1|done| |done].
      apply btree_get_Some in He2; [by eapply Hc2|done].
    - f_equal. eapply (IH k); [by rewrite immutable_get, He1|done| |done].
      apply btree_get_Some in He2; [by eapply Hc2|done].
    - subst. constructor. }
  split.
  - intros Heq k. rewrite !immutable_get.
    assert (Hk : map_dir ImmutableDirectory_fingerprint <$> btree_get (immutable_entries d1) k =
      map_dir ImmutableDirectory_fingerprint <$> btree_get (immutable_entries d2) k)
      by (by rewrite <- !btree_get_map_entries, Heq).
    destruct (btree_get (immutable_entries d1) k) as [e1|] eqn:E1, (btree_get (immutable_entries d2) k) as [e2|] eqn:E2;
      simpl in *; try done; constructor. injection Hk as Hk. by apply (Hchild k).
  - intros Heq. apply btree_ext; [by apply btree_wf_map_entries..|]. intros k. rewrite !btree_get_map_entries.
    specialize (Heq k). rewrite !immutable_get in Heq.
    destruct (btree_get (immutable_entries d1) k) as [e1|] eqn:E1, (btree_get (immutable_entries d2) k) as [e2|] eqn:E2;
      simpl in *; try by inversion Heq. f_equal. apply (Hchild k); [done..|]. by inversion Heq.
Qed.
End Fingerprints.

(** * A digest for examples *)

(** Digests without collisions, over leaves that are strings of size one: the digest is the content. *)
Definition TestDigest : Type := gen_tree string.
#[export] Instance TestDigest_eq_dec : EqDecision TestDigest := _.

Definition digest_entry (ke : string * DirectoryEntry TestDigest string) : TestDigest :=
  match ke.2 with
  | Dir fingerprint => GenNode 0 [GenLeaf ke.1; fingerprint]
  | Leaf l => GenNode 1 [GenLeaf ke.1; GenLeaf l]
  end.

#[export] Instance TestHasher : DirectoryDigester string TestDigest := {|
  hash_entries es := GenNode 2 (map digest_entry (map_entries ImmutableDirectory_fingerprint es));
  leaf_size _ := 1%N;
|}.

#[export] Instance TestHasher_collision_free : CollisionFree string TestDigest.
Proof.
  intros es1 es2. split; [|by simpl; intros ->]. simpl. intros [= Heq].
  revert Heq. generalize (map_entries ImmutableDirectory_fingerprint es1) (map_entries ImmutableDirectory_fingerprint es2).
  induction l as [|[k1 [d1|l1]] l IH]; intros [|[k2 [d2|l2]] l']; simpl; try done.
  - intros [= -> -> Heq]. f_equal. by apply IH.
  - intros [= -> -> Heq]. f_equal. by apply IH.
Qed.

Notation TestBuilder := (DirectoryBuilder string TestDigest).
