(* ===== verification/DirBuilderCorrect.v ===== *)
(** The correctness of building directories: insertion, creation of directories, removal and lookups; the
    unit tests of the source. *)
From stdpp Require Import gmap list strings countable.
From S2P Require Import Prelude.
From S2P Require Import RustStr.
From S2P Require Import RustOrd.
From S2P Require Import DirData.
From S2P Require Import DirSpec.
From S2P Require Import DirBuilder.
From S2P Require Import DirBuilderSpec.
From S2P Require Import DirFingerprint.
Local Open Scope dice_scope.
Local Open Scope string_scope.
Local Open Scope nat_scope.
Local Open Scope list_scope.

Section Correct.
Context {L H : Type} `{DirectoryDigester L H}.
Notation Builder := (DirectoryBuilder L H).
Notation Entry := (DirectoryEntry (DirectoryBuilder L H) L).

Lemma insert_spec (b : Builder) (path : list string) (e : Entry) :
  builder_wf b → entry_wf e → path ≠ [] →
  ∃ b' r, DirectoryBuilder_insert b path e = (b', map_err InsertCannotTraverseLeaf r) ∧
    along_path 1 b path (grafted (node_at b) path e) (subtree_at b path) (b', r).
Proof.
  intros Hb He Hpath. destruct path as [|k path]; [done|]. simpl.
  pose proof (insert_inner_spec path k b e Hb He) as Hspec. destruct (insert_inner b k path e) as [b' r].
  by exists b', r.
Qed.

Lemma insert_keeps_wf (b : Builder) (path : list string) (e : Entry) :
  builder_wf b → entry_wf e → builder_wf (DirectoryBuilder_insert b path e).1.
Proof.
  intros Hb He. destruct path as [|k path]; [done|].
  destruct (insert_spec b (k :: path) e Hb He ltac:(done)) as (b' & r & -> & Hwf & _). done.
Qed.

(** C20. Insertion changes exactly the subtree at the path and makes the directories on the way, and
    returns what was there; a leaf on the way is reported with its path, and nothing changes. *)
Theorem insert_correct (b : Builder) (path : list string) (e : Entry) :
  builder_wf b → entry_wf e →
  let '(b', r) := DirectoryBuilder_insert b path e in
  builder_wf b' ∧
  match r with
  | inl old => path ≠ [] ∧ no_leaf_above 1 (node_at b) path ∧ subtree_at b path old ∧
      ∀ q, node_at b' q = grafted (node_at b) path e q
  | inr EmptyPath => path = [] ∧ b' = b
  | inr (InsertCannotTraverseLeaf acc) =>
      leaf_at_prefix 1 (node_at b) path (PathAccumulator_into_iter acc) ∧ b' ≡ b
  end.
Proof.
  intros Hb He. destruct (decide (path = [])) as [->|Hne]; [done|].
  destruct (insert_spec b path e Hb He Hne) as (b' & r & -> & Hwf & Hr). split; [done|].
  by destruct r as [old|acc]; simpl in *.
Qed.

(** C21. Making a directory adds the directories along the path, unless a leaf is on it; removing a
    path takes away exactly its subtree and returns it, and never panics. *)
Theorem mkdir_remove_correct (b : Builder) (path : list string) :
  builder_wf b →
  (let '(b', r) := DirectoryBuilder_mkdir b path in
   builder_wf b' ∧
   match r with
   | inl _ => no_leaf_above 0 (node_at b) path ∧ ∀ q, node_at b' q = dirs_made (node_at b) path q
   | inr (MkdirCannotTraverseLeaf acc) =>
       leaf_at_prefix 0 (node_at b) path (PathAccumulator_into_iter acc) ∧ b' ≡ b
   end) ∧
  (∃ b' r, DirectoryBuilder_remove_prefix b path = Ok (b', r) ∧ builder_wf b' ∧
   match r with
   | inl old => subtree_at b path old ∧ no_leaf_above 1 (node_at b) path ∧
       ∀ q, node_at b' q = pruned (node_at b) path q
   | inr e => find b path = inr e ∧ b' = b
   end).
Proof.
  intros Hb. split; [|by apply remove_prefix_spec]. unfold DirectoryBuilder_mkdir.
  pose proof (mkdir_inner_spec path b Hb) as [Hwf Hr]. destruct (mkdir_inner b path) as [b' [u|acc]]; simpl in *.
  - split; [done|]. by destruct Hr as (Hno & _ & Hq).
  - by split.
Qed.

(** C22. [find] returns what is at the path, and fails exactly when a leaf is on the way; then the path
    it reports has the name below the leaf in place of the leaf's own name.  [find_prefix] never fails: it
    returns the leaf on the way, with the rest of the path. *)
Theorem lookups_correct (b : Builder) (path : list string) :
  match find b path with
  | inl o => no_leaf_above 1 (node_at b) path ∧ subtree_at b path o
  | inr (FindCannotTraverseLeaf acc) => ∃ init name next rest l,
      path = init ++ name :: next :: rest ∧ node_at b (init ++ [name]) = Some (Leaf l) ∧
      PathAccumulator_into_iter acc = init ++ [next]
  end ∧
  ∃ o, find_prefix b path = inl o ∧
  match o with
  | Some (e, rest) => ∃ found, path = found ++ rest ∧ subtree_at b found (Some e) ∧ (rest ≠ [] → ∃ l, e = Leaf l)
  | None => no_leaf_above 1 (node_at b) path ∧ node_at b path = None
  end.
Proof. split; [apply find_spec|apply find_prefix_spec]. Qed.
End Correct.

(** * Examples *)

(** The directory with an empty file at each of the paths. *)
Definition dir_of (l : list (list string)) : TestBuilder :=
  fold_left (λ b p, (DirectoryBuilder_insert b p (Leaf "")).1) l DirectoryBuilder_empty.

Lemma dir_of_wf (l : list (list string)) : builder_wf (dir_of l).
Proof.
  assert (Hl : ∀ b : TestBuilder, builder_wf b →
    builder_wf (fold_left (λ b p, (DirectoryBuilder_insert b p (Leaf "")).1) l b)).
  { induction l as [|p l IH]; intros b Hb; [done|]. by apply IH, insert_keeps_wf. }
  apply Hl, builder_empty_wf.
Qed.

(** [a/b] is a leaf; inserting below it fails, replacing [a] returns the directory. *)
Lemma insert_correct_witness :
  (∃ b', DirectoryBuilder_insert (dir_of [["a"; "b"]]) ["a"; "b"; "c"] (Leaf "") =
     (b', inr (InsertCannotTraverseLeaf ["b"; "a"])) ∧ node_at b' ["a"; "b"] = Some (Leaf "")) ∧
  ∃ b' d, DirectoryBuilder_insert (dir_of [["a"; "b"]]) ["a"] (Leaf "") = (b', inl (Some (Dir d))) ∧
     node_at b' ["a"] = Some (Leaf "").
Proof.
  pose proof (insert_correct (dir_of [["a"; "b"]]) ["a"; "b"; "c"] (Leaf "") (dir_of_wf _) I) as H1.
  pose proof (insert_correct (dir_of [["a"; "b"]]) ["a"] (Leaf "") (dir_of_wf _) I) as H2.
  split.
  - destruct (DirectoryBuilder_insert _ ["a"; "b"; "c"] _) as [b' r] eqn:E1. exists b'.
    vm_compute in E1. injection E1 as Hb <-. split; [done|]. destruct H1 as (_ & _ & H1).
    rewrite (H1 ["a"; "b"]). reflexivity.
  - destruct (DirectoryBuilder_insert _ ["a"] _) as [b' r] eqn:E2.
    vm_compute in E2. injection E2 as Hb <-. eexists b', _. split; [done|]. destruct H2 as (_ & _ & _ & _ & H2).
    rewrite (H2 ["a"]). reflexivity.
Defined.

Lemma mkdir_remove_correct_witness :
  (DirectoryBuilder_mkdir (dir_of [["a"; "b"]]) ["a"; "b"; "c"]).2 = inr (MkdirCannotTraverseLeaf ["b"; "a"]) ∧
  ∃ b' d, DirectoryBuilder_remove_prefix (dir_of [["a"; "b"]; ["a"; "x"]]) ["a"; "b"] = Ok (b', inl (Some (Leaf d))) ∧
    node_at b' ["a"; "b"] = None ∧ node_at b' ["a"; "x"] = Some (Leaf "").
Proof.
  split; [vm_compute; reflexivity|].
  destruct (mkdir_remove_correct (dir_of [["a"; "b"]; ["a"; "x"]]) ["a"; "b"] (dir_of_wf _)) as [_ (b' & r & Heq & Hwf & Hr)].
  exists b', "". assert (Hold : r = inl (Some (Leaf ""))) by (vm_compute in Heq; by injection Heq as _ <-).
  subst. destruct Hr as (_ & _ & Hr). split_and!; [exact Heq|by rewrite Hr|by rewrite Hr].
Defined.

(** The error of [find] names a path where there is nothing, next to the leaf: for [x/a/b], where [x/a] is
    a leaf, it says [x/b]; insertion at the same path says [x/a]. *)
Lemma find_error_path :
  (∃ acc, find (dir_of [["x"; "a"]]) ["x"; "a"; "b"] = inr (FindCannotTraverseLeaf acc) ∧
     PathAccumulator_fmt acc = "x/b" ∧ node_at (dir_of [["x"; "a"]]) (PathAccumulator_into_iter acc) = None) ∧
  ∃ acc, (DirectoryBuilder_insert (dir_of [["x"; "a"]]) ["x"; "a"; "b"] (Leaf "")).2 = inr (InsertCannotTraverseLeaf acc) ∧
     PathAccumulator_fmt acc = "x/a".
Proof. split; eexists; split_and?; vm_compute; reflexivity. Qed.

(** [test_path_accumulator] *)
Example test_path_accumulator :
  PathAccumulator_fmt (PathAccumulator_new "foo") = "foo" ∧
  PathAccumulator_fmt (PathAccumulator_with (PathAccumulator_new "foo") "bar") = "bar/foo" ∧
  PathAccumulator_into_iter (PathAccumulator_with (PathAccumulator_new "foo") "bar") = ["bar"; "foo"].
Proof. done. Qed.

(** [test_find] *)
Example test_find :
  find (dir_of [["a"; "b"; "c"]]) ["a"; "b"; "c"] = inl (Some (Leaf "")) ∧
  (∃ d, find (dir_of [["a"; "b"; "c"]]) ["a"; "b"] = inl (Some (Dir d))) ∧
  find (dir_of [["a"; "b"; "c"]]) [] = inl (Some (Dir (dir_of [["a"; "b"; "c"]]))).
Proof. split_and!; [reflexivity|eexists; reflexivity|reflexivity]. Qed.

(** [test_find_prefix] *)
Example test_find_prefix :
  find_prefix (dir_of [["a"; "b"; "c"]]) ["a"; "b"; "c"] = inl (Some (Leaf "", [])) ∧
  (∃ d, find_prefix (dir_of [["a"; "b"; "c"]]) ["a"; "b"] = inl (Some (Dir d, []))) ∧
  find_prefix (dir_of [["a"; "b"; "c"]]) ["a"; "b"; "c"; "d"] = inl (Some (Leaf "", ["d"])) ∧
  find_prefix (dir_of [["a"; "b"; "c"]]) ["a"; "b"; "c"; "d"; "e"] = inl (Some (Leaf "", ["d"; "e"])).
Proof. split_and!; [reflexivity|eexists; reflexivity|reflexivity..]. Qed.

(** [test_mkdir_overwrite] *)
Example test_mkdir_overwrite :
  (DirectoryBuilder_mkdir (dir_of [["a"; "b"]]) ["a"; "b"; "c"]).2 = inr (MkdirCannotTraverseLeaf ["b"; "a"]) ∧
  PathAccumulator_fmt ["b"; "a"] = "a/b".
Proof. done. Qed.
