(* ===== verification/DirWalk.v ===== *)
(** Walking directories ([src/app/bz_directory/src/directory/walk.rs], [directory_iterator.rs]): the iterator
    with its stack of frames, and its laws: a walk ends, and it visits everything below the root once, in the
    order of paths when it is ordered.

    The stack is a list, the last frame first. *)
From stdpp Require Import gmap list strings sorting.
From S2P Require Import Prelude.
From S2P Require Import RustOrd.
From S2P Require Import DirData.
From S2P Require Import DirSpec.
From S2P Require Import DirBuilder.
From S2P Require Import DirBuilderSpec.
From S2P Require Import DirFingerprint.
Local Open Scope dice_scope.
Local Open Scope string_scope.
Local Open Scope nat_scope.
Local Open Scope list_scope.

(** [slice::sort_by_key], which keeps the order of equal keys. *)
Fixpoint sort_insert {A K} `{RustOrd K} (key : A → K) (a : A) (l : list A) : list A :=
  match l with
  | [] => [a]
  | b :: l' => match rust_cmp (key a) (key b) with Gt => b :: sort_insert key a l' | _ => a :: l end
  end.
Definition sort_by_key {A K} `{RustOrd K} (key : A → K) (l : list A) : list A := foldr (sort_insert key) [] l.

Section Walk.
Context {L H : Type}.
Notation Builder := (DirectoryBuilder L H).
Notation Entry := (DirectoryEntry (DirectoryBuilder L H) L).

(** [WalkType::directory_entries] *)
Definition unordered_entries (directory : Builder) : list (string * Entry) := DirectoryBuilder_into_entries directory.
Definition ordered_entries (directory : Builder) : list (string * Entry) :=
  sort_by_key fst (DirectoryBuilder_into_entries directory).

Record WalkFrame := mkWalkFrame { wf_name : option string; wf_entries : list (string * Entry) }.

(** [path] of the stack *)
Definition stack_path (stack : list WalkFrame) : list string := omap wf_name (rev stack).

Section Iterator.
Context (directory_entries : Builder → list (string * Entry)).

Definition Walk_new (directory : Builder) : list WalkFrame := [mkWalkFrame None (directory_entries directory)].

(** [next], with the path that the accessor gives. *)
Fixpoint Walk_next (stack : list WalkFrame) : option (list string * Entry * list WalkFrame) :=
  match stack with
  | [] => None
  | frame :: below =>
      match wf_entries frame with
      | (name, entry) :: entries =>
          let frame := mkWalkFrame (wf_name frame) entries in
          let '(stack, leaf_name) :=
            match entry with
            | Dir dir => (mkWalkFrame (Some name) (directory_entries dir) :: frame :: below, None)
            | Leaf _ => (frame :: below, Some name)
            end in
          Some (stack_path stack ++ option_list leaf_name, entry, stack)
      | [] => Walk_next below
      end
  end.

(** [with_paths], collected *)
Fixpoint with_paths (fuel : nat) (stack : list WalkFrame) : outcome (list (list string * Entry)) :=
  match fuel with
  | 0 => Panic
  | S fuel =>
      match Walk_next stack with
      | None => Ok []
      | Some (path, entry, stack) => rest ← with_paths fuel stack; Ok ((path, entry) :: rest)
      end
  end.
End Iterator.

Definition unordered_walk (fuel : nat) (directory : Builder) : outcome (list (list string * Entry)) :=
  with_paths unordered_entries fuel (Walk_new unordered_entries directory).
Definition ordered_walk (fuel : nat) (directory : Builder) : outcome (list (list string * Entry)) :=
  with_paths ordered_entries fuel (Walk_new ordered_entries directory).

(** [DirectoryIterator::leaves] *)
Definition walk_leaf (item : list string * Entry) : option (list string * L) :=
  match item.2 with Leaf l => Some (item.1, l) | Dir _ => None end.
Definition walk_leaves (items : list (list string * Entry)) : list (list string * L) := omap walk_leaf items.
Definition ordered_walk_leaves (fuel : nat) (directory : Builder) : outcome (list (list string * L)) :=
  items ← ordered_walk fuel directory; Ok (walk_leaves items).
Definition unordered_walk_leaves (fuel : nat) (directory : Builder) : outcome (list (list string * L)) :=
  items ← unordered_walk fuel directory; Ok (walk_leaves items).

(** [ordered_entry_walk]: the walk of an entry, which for a leaf gives the leaf, without a path. *)
Definition ordered_entry_walk (fuel : nat) (entry : Entry) : outcome (list (list string * Entry)) :=
  match entry with
  | Dir d => ordered_walk fuel d
  | Leaf l => Ok [([], Leaf l)]
  end.
End Walk.

(** * Sorting *)

Section Sort.
Context {A K : Type} `{TotalOrd K} (key : A → K).

Lemma sort_insert_perm a l : sort_insert key a l ≡ₚ a :: l.
Proof.
  induction l as [|b l IH]; simpl; [done|]. destruct (rust_cmp (key a) (key b)); [done..|].
  rewrite IH. apply Permutation_swap.
Qed.

Lemma sort_by_key_perm l : sort_by_key key l ≡ₚ l.
Proof. induction l as [|a l IH]; simpl; [done|]. by rewrite sort_insert_perm, IH. Qed.

Lemma sort_insert_sorted a l :
  sorted_keys (map key l) → key a ∉ map key l → sorted_keys (map key (sort_insert key a l)).
Proof.
  induction l as [|b l IH]; simpl; intros Hl Ha; [by repeat constructor|].
  apply not_elem_of_cons in Ha as [Hne Ha]. inversion Hl as [|? ? Hlt Hs]; subst.
  destruct (rust_cmp (key a) (key b)) eqn:E; simpl.
  - by apply cmp_eq in E.
  - constructor; [|done]. constructor; [done|]. eapply Forall_impl; [exact Hlt|].
    intros k Hk. by eapply cmp_trans.
  - constructor; [|by apply IH]. rewrite sort_insert_perm. simpl. constructor; [by apply cmp_gt|done].
Qed.

Lemma sort_by_key_sorted l : NoDup (map key l) → sorted_keys (map key (sort_by_key key l)).
Proof.
  induction l as [|a l IH]; simpl; [constructor|]. intros [Ha Hl]%NoDup_cons.
  apply sort_insert_sorted; [by apply IH|]. by rewrite sort_by_key_perm.
Qed.
End Sort.

(** * What a walk visits *)

Section Spec.
Context {L H : Type}.
Notation Builder := (DirectoryBuilder L H).
Notation Entry := (DirectoryEntry (DirectoryBuilder L H) L).

Section Visits.
Context (directory_entries : Builder → list (string * Entry)).
Context (Hentries : ∀ d, directory_entries d ≡ₚ DirectoryBuilder_into_entries d).

(** The visits of entries below a path, a directory before what is in it. *)
Fixpoint visits (n : nat) (prefix : list string) (es : list (string * Entry)) : list (list string * Entry) :=
  flat_map (λ ke, (prefix ++ [ke.1], ke.2) ::
    match ke.2, n with
    | Dir d, S n => visits n (prefix ++ [ke.1]) (directory_entries d)
    | _, _ => []
    end) es.

(** The visits below a directory. *)
Definition below (prefix : list string) (d : Builder) : list (list string * Entry) :=
  visits (builder_height d) prefix (directory_entries d).

Definition visit_entry (prefix : list string) (ke : string * Entry) : list (list string * Entry) :=
  (prefix ++ [ke.1], ke.2) :: match ke.2 with Dir d => below (prefix ++ [ke.1]) d | Leaf _ => [] end.

Lemma entries_height d k c : (k, Dir c) ∈ directory_entries d → builder_height c < builder_height d.
Proof. rewrite Hentries. apply into_entries_height. Qed.

Lemma flat_map_ext_elem {A B} (f g : A → list B) l : (∀ a, a ∈ l → f a = g a) → flat_map f l = flat_map g l.
Proof.
  induction l as [|a l IH]; intros Hfg; simpl; [done|]. f_equal; [apply Hfg; by left|].
  apply IH. intros a' Ha'. apply Hfg. by right.
Qed.

Lemma visits_fuel n m prefix es :
  (∀ k c, (k, Dir c) ∈ es → builder_height c ≤ n ∧ builder_height c ≤ m) → visits n prefix es = visits m prefix es.
Proof.
  revert m prefix es. induction n as [|n IH]; intros m prefix es Hes; destruct m as [|m]; simpl; [done|..];
    apply flat_map_ext_elem; intros [k [c|l]] Hin; simpl; try done;
    destruct (Hes k c Hin) as [Hn Hm]; pose proof (builder_height_pos c); [lia|lia|].
  f_equal. apply IH. intros k' c' Hc%entries_height. lia.
Qed.

Lemma visits_enough n prefix es :
  (∀ k c, (k, Dir c) ∈ es → builder_height c ≤ n) → visits n prefix es = flat_map (visit_entry prefix) es.
Proof.
  intros Hes. destruct n as [|n]; simpl; apply flat_map_ext_elem; intros [k [c|l]] Hin; simpl; try done;
    specialize (Hes k c Hin); pose proof (builder_height_pos c).
  - lia.
  - unfold visit_entry, below. simpl. f_equal. apply visits_fuel. intros k' c' Hc%entries_height. lia.
Qed.

Lemma below_eq prefix d : below prefix d = flat_map (visit_entry prefix) (directory_entries d).
Proof. apply visits_enough. intros k c Hc%entries_height. lia. Qed.

(** * The iterator visits them *)

(** What is still to come of a walk. *)
Fixpoint remaining (stack : list (WalkFrame (L:=L) (H:=H))) : list (list string * Entry) :=
  match stack with
  | [] => []
  | frame :: below => flat_map (visit_entry (stack_path stack)) (wf_entries frame) ++ remaining below
  end.

Lemma stack_path_cons frame (stack : list (WalkFrame (L:=L) (H:=H))) :
  stack_path (frame :: stack) = stack_path stack ++ option_list (wf_name frame).
Proof. unfold stack_path. simpl. rewrite omap_app. simpl. by destruct (wf_name frame). Qed.

Lemma Walk_next_spec stack :
  match Walk_next directory_entries stack with
  | None => remaining stack = []
  | Some (path, entry, stack') => remaining stack = (path, entry) :: remaining stack'
  end.
Proof.
  induction stack as [|[name [|[k e] es]] stack IH]; simpl; [done|done|].
  destruct e as [d|l]; simpl.
  - rewrite !stack_path_cons. simpl. unfold visit_entry at 1. simpl. rewrite below_eq, app_nil_r, <- !app_assoc. done.
  - rewrite !stack_path_cons. simpl. done.
Qed.

Lemma with_paths_spec fuel stack :
  length (remaining stack) < fuel → with_paths directory_entries fuel stack = Ok (remaining stack).
Proof.
  revert stack. induction fuel as [|fuel IH]; intros stack Hfuel; [lia|]. simpl.
  pose proof (Walk_next_spec stack) as Hnext. destruct (Walk_next directory_entries stack) as [[[path e] stack']|].
  - rewrite Hnext in *. simpl in *. rewrite IH by lia. done.
  - by rewrite Hnext.
Qed.

(** The walk of a directory. *)
Lemma walk_spec d fuel :
  length (below [] d) < fuel → with_paths directory_entries fuel (Walk_new directory_entries d) = Ok (below [] d).
Proof.
  intros Hfuel. rewrite with_paths_spec; unfold Walk_new; simpl; rewrite app_nil_r, <- below_eq; done.
Qed.
End Visits.
End Spec.
