(* ===== verification/DirWalkSpec.v ===== *)
(** The correctness of walks: everything below the root is visited once, in the order of paths, and the size
    of a directory is the size of the leaves that a walk gives. *)
From stdpp Require Import gmap list strings sorting.
From S2P Require Import Prelude.
From S2P Require Import RustOrd.
From S2P Require Import DirData.
From S2P Require Import DirSpec.
From S2P Require Import DirBuilder.
From S2P Require Import DirBuilderSpec.
From S2P Require Import DirFingerprint.
From S2P Require Import DirBuilderCorrect.
From S2P Require Import DirWalk.
Local Open Scope dice_scope.
Local Open Scope string_scope.
Local Open Scope nat_scope.
Local Open Scope list_scope.

(** * Sorted lists of paths *)

Lemma sorted_keys_app_iff {K} `{TotalOrd K} (l1 l2 : list K) :
  sorted_keys (l1 ++ l2) ↔
  sorted_keys l1 ∧ sorted_keys l2 ∧ ∀ a b, a ∈ l1 → b ∈ l2 → rust_cmp a b = Lt.
Proof.
  induction l1 as [|a l1 IH]; simpl.
  - split; [|by intros (_ & ? & _)]. intros Hl. split_and!; [constructor|done|]. by intros a b ?%elem_of_nil.
  - split.
    + intros Hl; inversion Hl as [|? ? Hlt Hs]; subst. apply Forall_app in Hlt as [Hlt1 Hlt2]. apply IH in Hs as (Hl1 & Hl2 & Hc).
      split_and!; [by constructor|done|]. intros x y [->|Hx]%elem_of_cons Hy; [|by apply Hc].
      rewrite Forall_forall in Hlt2. by apply Hlt2.
    + intros (Hl1 & Hl2 & Hc). inversion Hl1 as [|? ? Hlt Hs]; subst. constructor.
      * apply Forall_app. split; [done|]. apply Forall_forall. intros y Hy. apply Hc; [by left|done].
      * apply IH. split_and!; [done|done|]. intros x y Hx. apply Hc. by right.
Qed.

Lemma lex_prefix (prefix p q : list string) : rust_cmp (prefix ++ p) (prefix ++ q) = rust_cmp p q.
Proof.
  unfold rust_cmp, list_ord. induction prefix as [|k prefix IH]; [done|]. simpl. unfold then_with.
  by rewrite cmp_refl.
Qed.

Lemma lex_cons_lt (k1 k2 : string) (p q : list string) : rust_cmp k1 k2 = Lt → rust_cmp (k1 :: p) (k2 :: q) = Lt.
Proof. intros Hk. unfold rust_cmp, list_ord. simpl. unfold then_with. by rewrite Hk. Qed.

Lemma lex_below (k : string) (q : list string) : q ≠ [] → rust_cmp [k] (k :: q) = Lt.
Proof. intros Hq. unfold rust_cmp, list_ord. simpl. unfold then_with. rewrite cmp_refl. by destruct q. Qed.

Section Spec.
Context {L H : Type} `{DirectoryDigester L H}.
Notation Builder := (DirectoryBuilder L H).
Notation Entry := (DirectoryEntry (DirectoryBuilder L H) L).

Lemma find_entry_cons (b : Builder) k q (e : Entry) :
  find b (k :: q) = inl (Some e) ↔
  DirectoryBuilder_get b k = Some e ∧ q = [] ∨
  ∃ c, DirectoryBuilder_get b k = Some (Dir c) ∧ q ≠ [] ∧ find c q = inl (Some e).
Proof.
  unfold find at 1. destruct q as [|k' q]; simpl.
  - destruct (DirectoryBuilder_get b k) as [e'|]; simpl; [|naive_solver]. split.
    + intros [= ->]. by left.
    + by intros [[[= ->] _]|(c & _ & Hne & _)].
  - destruct (DirectoryBuilder_get b k) as [[c|l]|]; simpl; [|naive_solver..].
    destruct (find_inner c k' q) as [o|acc] eqn:E; simpl; split.
    + intros [= ->]. right. exists c. split_and!; [done|done|]. simpl. by rewrite E.
    + intros [[_ ?]|(c' & [= <-] & _ & Hf)]; [done|]. simpl in Hf. by rewrite E in Hf.
    + done.
    + intros [[_ ?]|(c' & [= <-] & _ & Hf)]; [done|]. simpl in Hf. by rewrite E in Hf.
Qed.

Lemma unordered_entries_perm (d : Builder) : unordered_entries d ≡ₚ DirectoryBuilder_into_entries d.
Proof. done. Qed.
Lemma ordered_entries_perm (d : Builder) : ordered_entries d ≡ₚ DirectoryBuilder_into_entries d.
Proof. apply sort_by_key_perm. Qed.

Lemma ordered_entries_sorted (d : Builder) : builder_wf d → sorted_keys (map fst (ordered_entries d)).
Proof. intros Hd. apply sort_by_key_sorted. by apply (into_entries_NoDup d). Qed.

Section Visits.
Context (directory_entries : Builder → list (string * Entry)).
Context (Hentries : ∀ d, directory_entries d ≡ₚ DirectoryBuilder_into_entries d).

Lemma entries_get (d : Builder) k e : builder_wf d → (k, e) ∈ directory_entries d ↔ DirectoryBuilder_get d k = Some e.
Proof. intros Hd. rewrite Hentries. by rewrite get_Some. Qed.

(** A walk visits what lookups find. *)
Lemma elem_of_below d : builder_wf d → ∀ prefix p e,
  (p, e) ∈ below directory_entries prefix d ↔ ∃ q, p = prefix ++ q ∧ q ≠ [] ∧ find d q = inl (Some e).
Proof.
  revert d. apply (builder_ind (λ d, ∀ prefix p e, (p, e) ∈ below directory_entries prefix d ↔
    ∃ q, p = prefix ++ q ∧ q ≠ [] ∧ find d q = inl (Some e))).
  intros d Hd IH prefix p e. rewrite below_eq by done. rewrite list_elem_of_In, in_flat_map.
  setoid_rewrite <- list_elem_of_In. split.
  - intros ([k e'] & Hk%entries_get & Hin); [|done]. unfold visit_entry in Hin. simpl in Hin.
    apply elem_of_cons in Hin as [[= -> ->]|Hin].
    + exists [k]. split_and!; [done|done|]. apply find_entry_cons. by left.
    + destruct e' as [c|l]; [|by apply elem_of_nil in Hin]. apply (IH k c Hk) in Hin as (q & -> & Hq & Hf).
      exists (k :: q). split_and!; [by rewrite <- app_assoc|done|]. apply find_entry_cons. right. by exists c.
  - intros ([|k q] & -> & Hq & Hf); [done|]. apply find_entry_cons in Hf as [[Hk ->]|(c & Hk & Hne & Hf)].
    + exists (k, e). split; [by apply entries_get|]. by left.
    + exists (k, Dir c). split; [by apply entries_get|]. right. apply (IH k c Hk). exists q.
      by rewrite <- app_assoc.
Qed.
End Visits.

(** Walks visit the same, whatever their order. *)
Lemma flat_map_perm {A B} (f g : A → list B) (l : list A) : (∀ a, a ∈ l → f a ≡ₚ g a) → flat_map f l ≡ₚ flat_map g l.
Proof.
  induction l as [|a l IH]; intros Hfg; simpl; [done|]. rewrite (Hfg a) by by left. rewrite IH; [done|].
  intros a' Ha'. apply Hfg. by right.
Qed.

Lemma below_perm d : builder_wf d → ∀ prefix, below unordered_entries prefix d ≡ₚ below ordered_entries prefix d.
Proof.
  revert d. apply (builder_ind (λ d, ∀ prefix, below unordered_entries prefix d ≡ₚ below ordered_entries prefix d)).
  intros d Hd IH prefix. rewrite !below_eq by (apply unordered_entries_perm || apply ordered_entries_perm).
  rewrite (Permutation_flat_map _ (ordered_entries_perm d)). apply flat_map_perm.
  intros [k [c|l]] Hin; unfold visit_entry; simpl; [|done].
  constructor. apply (IH k). by apply get_Some.
Qed.

(** The paths of an ordered walk are in strict order. *)
Lemma below_sorted d : builder_wf d → ∀ prefix, sorted_keys (below ordered_entries prefix d).*1.
Proof.
  intros Hd. apply (builder_ind (λ d, ∀ prefix, sorted_keys (below ordered_entries prefix d).*1)); [|done]. clear d Hd.
  intros d Hd IH prefix. rewrite below_eq by apply ordered_entries_perm.
  pose proof (ordered_entries_sorted d Hd) as Hsorted.
  assert (Hsub : ∀ k e, (k, e) ∈ ordered_entries d → DirectoryBuilder_get d k = Some e).
  { intros k e Hin. by apply (entries_get _ ordered_entries_perm) in Hin. }
  induction (ordered_entries d) as [|[k e] es IHes]; cbn [flat_map]; [constructor|].
  simpl in Hsorted. inversion Hsorted as [|? ? Hlt Hs]; subst. rewrite fmap_app.
  assert (Hke : DirectoryBuilder_get d k = Some e) by (apply Hsub; by left).
  assert (Hblock : ∀ k' e', DirectoryBuilder_get d k' = Some e' → ∀ p, p ∈ (visit_entry ordered_entries prefix (k', e')).*1 →
    ∃ q, p = prefix ++ k' :: q).
  { intros k' e' Hk' p (x & -> & Hx)%list_elem_of_fmap. unfold visit_entry in Hx. simpl in Hx.
    apply elem_of_cons in Hx as [->|Hx]; [by exists []|]. destruct e' as [c|l]; [|by apply elem_of_nil in Hx].
    destruct x as [p e'']. apply (elem_of_below _ ordered_entries_perm) in Hx as (q & -> & _ & _); [|apply (get_wf _ _ _ Hd Hk')].
    exists q. simpl. by rewrite <- app_assoc. }
  apply sorted_keys_app_iff. split_and!.
  - unfold visit_entry. simpl. destruct e as [c|l]; [|by repeat constructor].
    constructor; [|by apply (IH k)]. apply Forall_forall. intros p (x & -> & Hx)%list_elem_of_fmap. destruct x as [p e].
    apply (elem_of_below _ ordered_entries_perm) in Hx as (q & -> & Hq & _); [|apply (get_wf _ _ _ Hd Hke)].
    simpl. rewrite <- app_assoc, lex_prefix. by apply lex_below.
  - apply IHes; [done|]. intros k' e' Hin. apply Hsub. by right.
  - intros p p' Hp Hp'. apply (Hblock k e Hke) in Hp as (q & ->).
    apply list_elem_of_fmap in Hp' as (x & -> & Hx). apply list_elem_of_In, in_flat_map in Hx as ([k' e'] & Hin%list_elem_of_In & Hx%list_elem_of_In).
    assert (Hk' : DirectoryBuilder_get d k' = Some e') by (apply Hsub; by right).
    destruct (Hblock k' e' Hk' x.1) as (q' & ->); [by apply list_elem_of_fmap_2|].
    rewrite lex_prefix. apply lex_cons_lt. rewrite Forall_forall in Hlt. apply Hlt.
    apply list_elem_of_fmap. by exists (k', e').
Qed.

(** * Leaves and sizes *)

Lemma elem_of_walk_leaves (items : list (list string * Entry)) p l :
  (p, l) ∈ walk_leaves items ↔ (p, Leaf l) ∈ items.
Proof.
  unfold walk_leaves. rewrite list_elem_of_omap. split.
  - intros ([p' e] & Hin & Hl). unfold walk_leaf in Hl. simpl in Hl. destruct e; [done|]. by injection Hl as -> ->.
  - intros Hin. by exists (p, Leaf l).
Qed.

Definition sumN (l : list N) : N := foldr N.add 0%N l.

Lemma saturating_fold (l totals : list N) (acc : N) :
  (acc <= 2 ^ 64 - 1)%N → Forall2 (λ x t, N.min x (2 ^ 64 - 1) = N.min t (2 ^ 64 - 1)) l totals →
  fold_left u64_saturating_add l acc = N.min (acc + sumN totals) (2 ^ 64 - 1).
Proof.
  intros Hacc Hl. revert acc Hacc. induction Hl as [|x t l totals Hx Hl IH]; intros acc Hacc; simpl.
  - unfold sumN. simpl. lia.
  - rewrite IH; unfold u64_saturating_add; [|lia]. unfold sumN. simpl. lia.
Qed.

Lemma sumN_app (l1 l2 : list N) : sumN (l1 ++ l2) = (sumN l1 + sumN l2)%N.
Proof. unfold sumN. induction l1 as [|x l1 IH]; simpl; [done|]. rewrite IH. lia. Qed.

Lemma sumN_perm (l1 l2 : list N) : l1 ≡ₚ l2 → sumN l1 = sumN l2.
Proof. unfold sumN. induction 1; simpl; lia. Qed.

(** The size of the leaves among the visits. *)
Definition leaves_size (items : list (list string * Entry)) : N :=
  sumN (map (λ pl, leaf_size (H:=H) pl.2) (walk_leaves items)).

Lemma walk_leaves_app (i1 i2 : list (list string * Entry)) : walk_leaves (i1 ++ i2) = walk_leaves i1 ++ walk_leaves i2.
Proof. apply omap_app. Qed.

Lemma leaves_size_flat_map {A} (f : A → list (list string * Entry)) (l : list A) :
  leaves_size (flat_map f l) = sumN (map (λ a, leaves_size (f a)) l).
Proof.
  induction l as [|a l IH]; [done|]. simpl. unfold leaves_size at 1. rewrite walk_leaves_app, map_app, sumN_app.
  unfold leaves_size in *. by rewrite IH.
Qed.

Lemma leaves_size_perm i1 i2 : i1 ≡ₚ i2 → leaves_size i1 = leaves_size i2.
Proof. intros Hi. unfold leaves_size, walk_leaves. apply sumN_perm. by rewrite Hi. Qed.

Lemma into_entries_immutable (d : ImmutableDirectory L H) :
  DirectoryBuilder_into_entries (Immutable d) = map_entries Immutable (immutable_entries d).
Proof.
  destruct d as [data|s]; simpl.
  - apply map_entries_ext. intros k c _. apply immutable_into_builder.
  - by rewrite map_entries_compose.
Qed.

(** The size of a directory is the size of the leaves in it, up to the largest 64-bit number. *)
Lemma immutable_size (d : ImmutableDirectory L H) :
  immutable_wf d → ∀ prefix, ImmutableDirectory_size d =
    N.min (leaves_size (below unordered_entries prefix (Immutable d))) (2 ^ 64 - 1).
Proof.
  intros Hd. assert (Hb : builder_wf (Immutable d)) by by constructor. clear Hd.
  remember (Immutable d) as b eqn:Heq. revert b Hb d Heq.
  apply (builder_ind (λ b, ∀ d, b = Immutable d → ∀ prefix, ImmutableDirectory_size d =
    N.min (leaves_size (below unordered_entries prefix b)) (2 ^ 64 - 1))).
  intros b Hb IH d -> prefix. apply builder_wf_immutable in Hb as Hd.
  destruct (immutable_wf_entries d Hd) as (Hs & _ & -> & _). simpl.
  rewrite below_eq, leaves_size_flat_map by apply unordered_entries_perm.
  unfold unordered_entries. rewrite into_entries_immutable.
  apply (saturating_fold _ _ 0%N); [lia|]. unfold map_entries. rewrite map_map, Forall2_fmap.
  apply Forall_Forall2_diag, Forall_forall. intros [k e] Hin. apply btree_get_Some in Hin; [|done].
  unfold visit_entry. cbn [fst snd map_dir]. destruct e as [c|l]; cbn [map_dir].
  - rewrite (IH k (Immutable c)) with (prefix := prefix ++ [k]); [|by rewrite immutable_get, Hin|done].
    rewrite <- N.min_assoc, N.min_id. done.
  - f_equal. unfold leaves_size, sumN. simpl. lia.
Qed.

(** * The theorems *)

(** C19. A walk ends and visits everything below the root; an ordered one in the order of the paths, each
    once, and an unordered one the same in some order.  The leaves of a walk are the leaves of the
    directory. *)
Theorem walk_correct (d : Builder) :
  builder_wf d →
  ∃ n items items',
    (∀ fuel, n < fuel → ordered_walk fuel d = Ok items) ∧ sorted_keys items.*1 ∧
    (∀ p e, (p, e) ∈ items ↔ p ≠ [] ∧ find d p = inl (Some e)) ∧
    (∀ fuel, n < fuel → unordered_walk fuel d = Ok items') ∧ items' ≡ₚ items ∧
    ∀ fuel, n < fuel → ∃ leaves, ordered_walk_leaves fuel d = Ok leaves ∧
      ∀ p l, (p, l) ∈ leaves ↔ node_at d p = Some (Leaf l).
Proof.
  intros Hd. exists (length (below ordered_entries [] d)), (below ordered_entries [] d), (below unordered_entries [] d).
  assert (Helem : ∀ p e, (p, e) ∈ below ordered_entries [] d ↔ p ≠ [] ∧ find d p = inl (Some e)).
  { intros p e. rewrite (elem_of_below _ ordered_entries_perm) by done. naive_solver. }
  assert (Hwalk : ∀ fuel, length (below ordered_entries [] d) < fuel → ordered_walk fuel d = Ok (below ordered_entries [] d)).
  { intros fuel Hfuel. apply walk_spec; [apply ordered_entries_perm|done]. }
  split_and!; [done|by apply below_sorted|done| |by apply below_perm|].
  - intros fuel Hfuel. apply walk_spec; [apply unordered_entries_perm|]. by rewrite below_perm.
  - intros fuel Hfuel. exists (walk_leaves (below ordered_entries [] d)). unfold ordered_walk_leaves.
    rewrite Hwalk by done. split; [done|]. intros p l. rewrite elem_of_walk_leaves, Helem.
    pose proof (find_spec p d) as Hf. split.
    + intros [Hp Hl]. rewrite Hl in Hf. destruct Hf as [_ Hsub]. specialize (Hsub []). by rewrite app_nil_r in Hsub.
    + intros Hl. split; [by intros ->|]. destruct (find d p) as [[e|]|[acc]].
      * destruct Hf as [_ Hsub]. specialize (Hsub []). rewrite app_nil_r, Hl in Hsub. by destruct e; [|injection Hsub as ->].
      * destruct Hf as [_ Hsub]. simpl in Hsub. congruence.
      * destruct Hf as (init & name & next & rest & l' & -> & Hl' & _). exfalso.
        replace (init ++ name :: next :: rest) with ((init ++ [name]) ++ next :: rest) in Hl by by rewrite <- app_assoc.
        by eapply (node_at_below_leaf d (init ++ [name]) (next :: rest)) in Hl'; [|by rewrite Hl].
Qed.
End Spec.

(** C18. Fingerprinting keeps the content; two builders get the same fingerprint exactly when they
    have the same content, however they were built; the size is the one of the leaves that a walk gives, up
    to the largest 64-bit number. *)
Theorem fingerprint_correct {L H} `{DirectoryDigester L H, !CollisionFree L H} (b : DirectoryBuilder L H) :
  builder_wf b →
  immutable_wf (DirectoryBuilder_fingerprint b) ∧ Immutable (DirectoryBuilder_fingerprint b) ≡ b ∧
  (∀ b', builder_wf b' →
    ImmutableDirectory_fingerprint (DirectoryBuilder_fingerprint b) =
    ImmutableDirectory_fingerprint (DirectoryBuilder_fingerprint b') ↔ b ≡ b') ∧
  ∃ n leaves, (∀ fuel, n < fuel →
      unordered_walk_leaves fuel (Immutable (DirectoryBuilder_fingerprint b)) = Ok leaves) ∧
    ImmutableDirectory_size (DirectoryBuilder_fingerprint b) =
      N.min (sumN (map (λ pl, leaf_size (H:=H) pl.2) leaves)) (2 ^ 64 - 1).
Proof.
  intros Hb. pose proof (fingerprint_wf b Hb) as Hwf. pose proof (fingerprint_content b Hb) as Hc.
  split_and!; [done|done| |].
  - intros b' Hb'. rewrite fingerprint_equiv by (done || by apply fingerprint_wf).
    by rewrite Hc, (fingerprint_content b' Hb').
  - set (d := DirectoryBuilder_fingerprint b) in *.
    exists (length (below unordered_entries [] (Immutable d))), (walk_leaves (below unordered_entries [] (Immutable d))).
    split; [|by apply immutable_size]. intros fuel Hfuel. unfold unordered_walk_leaves, unordered_walk.
    by rewrite walk_spec by (apply unordered_entries_perm || done).
Qed.

(** * Examples *)

Lemma walk_correct_witness :
  builder_wf (dir_of [["b"; "c"]; ["a"; "b"]]) ∧
  (map fst <$> ordered_walk 9 (dir_of [["b"; "c"]; ["a"; "b"]])) = Ok [["a"]; ["a"; "b"]; ["b"]; ["b"; "c"]] ∧
  ∃ n items, ∀ fuel, n < fuel → ordered_walk fuel (dir_of [["b"; "c"]; ["a"; "b"]]) = Ok items.
Proof.
  split; [apply dir_of_wf|]. split; [vm_compute; reflexivity|].
  destruct (walk_correct (dir_of [["b"; "c"]; ["a"; "b"]]) (dir_of_wf _)) as (n & items & _ & Hwalk & _).
  by exists n, items.
Defined.

(** Two builders with the same content, built in different orders. *)
Lemma fingerprint_correct_witness :
  ImmutableDirectory_fingerprint (DirectoryBuilder_fingerprint (dir_of [["b"; "c"]; ["a"]])) =
  ImmutableDirectory_fingerprint (DirectoryBuilder_fingerprint (dir_of [["a"]; ["b"; "c"]])) ∧
  (dir_of [["b"; "c"]; ["a"]]) ≡ (dir_of [["a"]; ["b"; "c"]]).
Proof.
  assert (Heq : ImmutableDirectory_fingerprint (DirectoryBuilder_fingerprint (dir_of [["b"; "c"]; ["a"]])) =
    ImmutableDirectory_fingerprint (DirectoryBuilder_fingerprint (dir_of [["a"]; ["b"; "c"]]))) by (vm_compute; reflexivity).
  split; [exact Heq|].
  destruct (fingerprint_correct (dir_of [["b"; "c"]; ["a"]]) (dir_of_wf _)) as (_ & _ & Hfp & _).
  exact (proj1 (Hfp (dir_of [["a"]; ["b"; "c"]]) (dir_of_wf _)) Heq).
Defined.

(** The paths of a walk. *)
Definition walk_paths (b : TestBuilder) : outcome (list (list string)) :=
  items ← ordered_walk 100 b; Ok (map fst items).

(** [test_walk] *)
Example test_walk :
  let b := (DirectoryBuilder_insert (dir_of [["a"; "b"]]) ["b"] (Dir DirectoryBuilder_empty)).1 in
  walk_paths b = Ok [["a"]; ["a"; "b"]; ["b"]] ∧
  (items ← unordered_walk 100 b; Ok (sort_by_key id (map fst items))) = Ok [["a"]; ["a"; "b"]; ["b"]].
Proof. split; vm_compute; reflexivity. Qed.

(** [test_entry_walk] *)
Example test_entry_walk :
  ordered_entry_walk (L:=string) (H:=TestDigest) 100 (Leaf "") = Ok [([], Leaf "")] ∧
  ordered_entry_walk (L:=string) (H:=TestDigest) 100 (Dir DirectoryBuilder_empty) = Ok [].
Proof. done. Qed.

(** [test_mkdir] *)
Example test_mkdir :
  walk_paths (DirectoryBuilder_mkdir (DirectoryBuilder_mkdir (dir_of []) ["foo"; "bar"]).1 ["foo"]).1 =
  Ok [["foo"]; ["foo"; "bar"]].
Proof. vm_compute. reflexivity. Qed.

(** [test_copy_on_write] *)
Example test_copy_on_write :
  let empty := DirectoryBuilder_fingerprint (dir_of []) in
  let a := (DirectoryBuilder_insert (dir_of []) ["a"] (Dir (ImmutableDirectory_into_builder empty))).1 in
  walk_paths (DirectoryBuilder_insert a ["a"; "b"] (Leaf "")).1 = Ok [["a"]; ["a"; "b"]].
Proof. vm_compute. reflexivity. Qed.

(** [test_remove_prefix_error], [test_remove_prefix_leaf], [test_remove_prefix_tree] *)
Example test_remove_prefix :
  match DirectoryBuilder_remove_prefix (dir_of [["a"; "b"]]) ["a"; "b"; "c"] with
  | Ok (b, inr _) => walk_paths b
  | _ => Panic
  end = Ok [["a"]; ["a"; "b"]] ∧
  match DirectoryBuilder_remove_prefix (dir_of [["a"; "b"]; ["a"; "x"]]) ["a"; "b"] with
  | Ok (b, inl (Some _)) => walk_paths b
  | _ => Panic
  end = Ok [["a"]; ["a"; "x"]] ∧
  match DirectoryBuilder_remove_prefix (dir_of [["a"; "b"; "c"]; ["a"; "b"; "d"]; ["a"; "x"]]) ["a"; "b"] with
  | Ok (b, inl (Some _)) => walk_paths b
  | _ => Panic
  end = Ok [["a"]; ["a"; "x"]].
Proof. split_and!; vm_compute; reflexivity. Qed.
