(* ===== verification/DirSelector.v ===== *)
(** Selectors of directories ([src/app/bz_directory/src/directory/directory_selector.rs]): trees of paths that
    say what to keep of a directory or what to search in it. *)
From stdpp Require Import gmap list strings.
From S2P Require Import Prelude.
From S2P Require Import RustOrd.
From S2P Require Import DirData.
From S2P Require Import DirSpec.
From S2P Require Import DirBuilder.
From S2P Require Import DirBuilderSpec.
From S2P Require Import DirFingerprint.
From S2P Require Import DirBuilderCorrect.
From S2P Require Import DirWalk.
From S2P Require Import DirWalkSpec.
Local Open Scope dice_scope.
Local Open Scope string_scope.
Local Open Scope nat_scope.
Local Open Scope list_scope.

Inductive DirectorySelector :=
| Traverse (d : list (string * DirectorySelector))
| Take.

Inductive DirectoryFilterError := FilterCannotTraverseLeaf.
Inductive DirectorySearchError (L : Type) := SearchCannotTraverseLeaf (leaf : L).
Arguments SearchCannotTraverseLeaf {_} _.

Definition DirectorySearchError_into_leaf {L} (self : DirectorySearchError L) : L :=
  match self with SearchCannotTraverseLeaf leaf => leaf end.

Definition DirectorySelector_empty : DirectorySelector := Traverse [].

Definition DirectorySelector_is_empty (self : DirectorySelector) : bool :=
  match self with Traverse d => match d with [] => true | _ => false end | Take => false end.

(** [select]; the loop of [select_inner] over the path. *)
Fixpoint DirectorySelector_select (self : DirectorySelector) (path : list string) : DirectorySelector :=
  match path with
  | [] => Take
  | entry :: path =>
      match self with
      | Traverse s =>
          let inner := match sm_get s entry with Some inner => inner | None => DirectorySelector_empty end in
          Traverse (sm_insert s entry (DirectorySelector_select inner path)).1
      | Take => Take
      end
  end.

Fixpoint selector_height (s : DirectorySelector) : nat :=
  match s with
  | Traverse d => S (max_list (map (λ ks, selector_height ks.2) d))
  | Take => 1
  end.

Section Selector.
Context {L H : Type}.
Notation Builder := (DirectoryBuilder L H).
Notation Entry := (DirectoryEntry (DirectoryBuilder L H) L).
Notation FilterResult := (unit + DirectoryFilterError)%type.

(** * Filter *)

(** [filter_inner]: it goes on after an error, which it records in [res]; [fuel] bounds the depth of the
    selector. *)
Fixpoint filter_inner (fuel : nat) (dir : Builder) (filter : list (string * DirectorySelector)) (res : FilterResult) :
    outcome (Builder * FilterResult) :=
  match fuel with
  | 0 => Panic
  | S fuel =>
      '(dir, res) ← for_each
        (λ (st : list (string * Entry) * FilterResult) (kv : string * Entry),
          let '(dir, res) := st in
          let '(k, v) := kv in
          match sm_get filter k with
          | None => Ok st
          | Some Take => Ok ((sm_insert dir k v).1, res)
          | Some (Traverse next_map) =>
              match v with
              | Dir d => '(d, res) ← filter_inner fuel d next_map res; Ok ((sm_insert dir k (Dir d)).1, res)
              | Leaf _ => Ok ((sm_insert dir k v).1, inr FilterCannotTraverseLeaf)
              end
          end)
        ([], res) (DirectoryBuilder_as_mut dir);
      Ok (Mutable dir, res)
  end.

Definition DirectorySelector_filter (self : DirectorySelector) (dir : Builder) : outcome (Builder * FilterResult) :=
  match self with
  | Traverse filter => filter_inner (selector_height self) dir filter (inl tt)
  | Take => Ok (dir, inl tt)
  end.

(** * Search *)

Record SearchFrame := mkSearchFrame {
  sf_search : list (string * DirectorySelector); sf_name : option string; sf_entries : list (string * Entry) }.

Definition SearchItem : Type := Entry + DirectorySearchError L.

(** The stack, the last frame first. *)
Inductive SearchInner :=
| ReturnRoot (root : option Entry)
| SearchStack (stack : list SearchFrame).

Definition search_path (stack : list SearchFrame) : list string := omap sf_name (rev stack).

Section Iterator.
Context (directory_entries : Builder → list (string * Entry)).

Definition Search_new (selector : DirectorySelector) (root : Builder) : SearchInner :=
  match selector with
  | Traverse search => SearchStack [mkSearchFrame search None (directory_entries root)]
  | Take => ReturnRoot (Some (Dir root))
  end.

(** An iteration of the loop of [next]: it ends the search, returns an item or continues. *)
Inductive SearchStep :=
| SearchEnd
| SearchFound (path : list string) (item : SearchItem) (stack : list SearchFrame)
| SearchContinue (stack : list SearchFrame).

Definition search_step (stack : list SearchFrame) : SearchStep :=
  match stack with
  | [] => SearchEnd
  | frame :: below =>
      match sf_entries frame with
      | (name, entry) :: entries =>
          let stack := mkSearchFrame (sf_search frame) (sf_name frame) entries :: below in
          match sm_get (sf_search frame) name with
          | Some (Traverse t) =>
              match entry with
              | Dir d => SearchContinue (mkSearchFrame t (Some name) (directory_entries d) :: stack)
              | Leaf leaf => SearchFound (search_path stack ++ [name]) (inr (SearchCannotTraverseLeaf leaf)) stack
              end
          | Some Take => SearchFound (search_path stack ++ [name]) (inl entry) stack
          | None => SearchContinue stack
          end
      | [] => SearchContinue below
      end
  end.

Fixpoint search_loop (fuel : nat) (stack : list SearchFrame) :
    outcome (option (list string * SearchItem) * list SearchFrame) :=
  match fuel with
  | 0 => Panic
  | S fuel =>
      match search_step stack with
      | SearchEnd => Ok (None, stack)
      | SearchFound path item stack => Ok (Some (path, item), stack)
      | SearchContinue stack => search_loop fuel stack
      end
  end.

Definition Search_next (fuel : nat) (self : SearchInner) : outcome (option (list string * SearchItem) * SearchInner) :=
  match self with
  | ReturnRoot None => Ok (None, ReturnRoot None)
  | ReturnRoot (Some root) => Ok (Some ([], inl root), ReturnRoot None)
  | SearchStack stack => '(item, stack) ← search_loop fuel stack; Ok (item, SearchStack stack)
  end.

(** The items of a search, collected: at most [n] of them. *)
Fixpoint search_all (n fuel : nat) (self : SearchInner) : outcome (list (list string * SearchItem)) :=
  match n with
  | 0 => Panic
  | S n =>
      '(item, self) ← Search_next fuel self;
      match item with
      | None => Ok []
      | Some item => rest ← search_all n fuel self; Ok (item :: rest)
      end
  end.
End Iterator.

Definition unordered_search (fuel : nat) (selector : DirectorySelector) (dir : Builder) :
    outcome (list (list string * SearchItem)) :=
  search_all unordered_entries fuel fuel (Search_new unordered_entries selector dir).
Definition ordered_search (fuel : nat) (selector : DirectorySelector) (dir : Builder) :
    outcome (list (list string * SearchItem)) :=
  search_all ordered_entries fuel fuel (Search_new ordered_entries selector dir).
End Selector.
