(* ===== verification/DirSelectorSpec.v ===== *)
(** The correctness of selectors: what selecting paths means, and what filters keep and searches find. *)
From stdpp Require Import gmap list strings sorting.
From S2P Require Import Prelude.
From S2P Require Import RustOrd.
From S2P Require Import DirData.
From S2P Require Import DirSpec.
From S2P Require Import DirBuilder.
From S2P Require Import DirBuilderSpec.
From S2P Require Import DirFingerprint.
From S2P Require Import DirBuilderCorrect.
From S2P Require Import DirWalk.
From S2P Require Import DirWalkSpec.
From S2P Require Import DirSelector.
Local Open Scope dice_scope.
Local Open Scope string_scope.
Local Open Scope nat_scope.
Local Open Scope list_scope.

(** * What a selector says about a path *)

(** The part of the selector that is reached at a path. *)
Fixpoint sel_at (s : DirectorySelector) (path : list string) : option DirectorySelector :=
  match path with
  | [] => Some s
  | k :: path =>
      match s with
      | Traverse d => match sm_get d k with Some s => sel_at s path | None => None end
      | Take => None
      end
  end.

(** The path is taken, or inside what is taken. *)
Fixpoint takes (s : DirectorySelector) (path : list string) : bool :=
  match s, path with
  | Take, _ => true
  | Traverse _, [] => false
  | Traverse d, k :: path => match sm_get d k with Some s => takes s path | None => false end
  end.

(** The path is taken, inside what is taken, or on the way. *)
Fixpoint keeps (s : DirectorySelector) (path : list string) : bool :=
  match s, path with
  | Take, _ => true
  | Traverse _, [] => true
  | Traverse d, k :: path => match sm_get d k with Some s => keeps s path | None => false end
  end.

Definition path_prefix (prefix path : list string) : bool :=
  match strip_path prefix path with Some _ => true | None => false end.

Lemma takes_empty path : takes DirectorySelector_empty path = false.
Proof. by destruct path. Qed.
Lemma keeps_empty path : keeps DirectorySelector_empty path = match path with [] => true | _ => false end.
Proof. by destruct path. Qed.

Lemma path_prefix_cons k p k' q : path_prefix (k :: p) (k' :: q) = bool_decide (k' = k) && path_prefix p q.
Proof. unfold path_prefix. simpl. by case_decide; [rewrite bool_decide_eq_true_2|rewrite bool_decide_eq_false_2]. Qed.

(** Selecting a path adds it and what is below it. *)
Lemma takes_select path : ∀ s q, takes (DirectorySelector_select s path) q = takes s q || path_prefix path q.
Proof.
  induction path as [|k path IH]; intros s q; simpl; [by destruct q; rewrite orb_true_r|].
  destruct s as [d|]; [|by destruct q]. destruct q as [|k' q]; [done|]. simpl. rewrite sm_get_insert, path_prefix_cons.
  destruct (decide (k' = k)) as [->|Hne].
  - rewrite bool_decide_eq_true_2 by done. rewrite IH. simpl.
    by destruct (sm_get d k); [|rewrite takes_empty].
  - rewrite bool_decide_eq_false_2 by done. by rewrite orb_false_r.
Qed.

Lemma keeps_select path : ∀ s q, keeps (DirectorySelector_select s path) q =
  keeps s q || path_prefix path q || path_prefix q path.
Proof.
  induction path as [|k path IH]; intros s q; simpl; [by destruct q; rewrite orb_true_r|].
  destruct s as [d|]; [|by destruct q]. destruct q as [|k' q]; [done|]. simpl.
  rewrite sm_get_insert, !path_prefix_cons. destruct (decide (k' = k)) as [->|Hne].
  - rewrite !bool_decide_eq_true_2 by done. rewrite IH. simpl.
    destruct (sm_get d k); [done|]. rewrite keeps_empty. by destruct q; [rewrite !orb_true_r|].
  - rewrite !bool_decide_eq_false_2 by done. by rewrite !orb_false_r.
Qed.

Lemma selector_height_child d k s : sm_get d k = Some s → selector_height s ≤ max_list (map (λ ks, selector_height ks.2) d).
Proof.
  induction d as [|[k' s'] d IH]; simpl; [done|]. case_decide; [intros [= ->]; lia|]. intros Hs%IH. lia.
Qed.

(** * Filter *)

Section Filter.
Context {L H : Type} `{DirectoryDigester L H}.
Notation Builder := (DirectoryBuilder L H).
Notation Entry := (DirectoryEntry (DirectoryBuilder L H) L).

(** The selector goes through a leaf of the content. *)
Definition goes_through_leaf (s : DirectorySelector) (content : list string → option (Node L)) : Prop :=
  ∃ path d l, sel_at s path = Some (Traverse d) ∧ content path = Some (Leaf l).

Definition filtered_at (s : DirectorySelector) (content : list string → option (Node L)) (path : list string) : option (Node L) :=
  if keeps s path then content path else None.

(** What the loop has done with the entry [v] of the name [k], of which [o] is left. *)
Definition filtered_entry (f : list (string * DirectorySelector)) (kv : string * Entry) (o : option Entry) : Prop :=
  ∀ q, match o with Some e => entry_at e q | None => None end = filtered_at (Traverse f) (λ _, entry_at kv.2 q) (kv.1 :: q).

Definition entry_through_leaf (f : list (string * DirectorySelector)) (kv : string * Entry) : Prop :=
  ∃ q d l, sel_at (Traverse f) (kv.1 :: q) = Some (Traverse d) ∧ entry_at kv.2 q = Some (Leaf l).

Definition filter_inv (f : list (string * DirectorySelector)) (res : unit + DirectoryFilterError)
    (done : list (string * Entry)) (st : list (string * Entry) * (unit + DirectoryFilterError)) : Prop :=
  builder_wf (Mutable (H:=H) st.1) ∧ (∀ k, k ∉ done.*1 → sm_get st.1 k = None) ∧
  (∀ kv, kv ∈ done → filtered_entry f kv (sm_get st.1 kv.1)) ∧
  (st.2 = inr FilterCannotTraverseLeaf ↔ res = inr FilterCannotTraverseLeaf ∨ ∃ kv, kv ∈ done ∧ entry_through_leaf f kv).

Lemma filter_inv_skip f res done k v st :
  k ∉ done.*1 → sm_get f k = None → filter_inv f res done st → filter_inv f res (done ++ [(k, v)]) st.
Proof.
  intros Hk Hf (Hwf & Hnot & Hdone & Hres). split_and!; [done| | |].
  - intros k'. rewrite fmap_app. intros [? _]%not_elem_of_app. by apply Hnot.
  - intros kv [Hin| ->%list_elem_of_singleton]%elem_of_app; [by apply Hdone|].
    intros q. simpl. rewrite Hnot by done. unfold filtered_at. simpl. by rewrite Hf.
  - rewrite Hres. split; [intros [?|(kv & ? & ?)]; [by left|]; right; exists kv; rewrite elem_of_app; auto|].
    intros [?|(kv & [Hin| ->%list_elem_of_singleton]%elem_of_app & Hthrough)]; [by left|right; by exists kv|].
    destruct Hthrough as (q & d & l & Hs & _). simpl in Hs. by rewrite Hf in Hs.
Qed.

Lemma filter_inv_insert f res done k v e st res' :
  k ∉ done.*1 → entry_wf e → filtered_entry f (k, v) (Some e) →
  (res' = inr FilterCannotTraverseLeaf ↔ st.2 = inr FilterCannotTraverseLeaf ∨ entry_through_leaf f (k, v)) →
  filter_inv f res done st → filter_inv f res (done ++ [(k, v)]) ((sm_insert st.1 k e).1, res').
Proof.
  intros Hk He Hentry Hres' (Hwf & Hnot & Hdone & Hres). split_and!; simpl.
  - by apply insert_wf.
  - intros k'. rewrite fmap_app. intros [Hk' Hne]%not_elem_of_app. rewrite sm_get_insert, decide_False; [by apply Hnot|].
    simpl in Hne. by apply not_elem_of_cons in Hne as [? _].
  - intros kv [Hin| ->%list_elem_of_singleton]%elem_of_app.
    + rewrite sm_get_insert, decide_False; [by apply Hdone|]. intros <-. destruct Hk. by apply list_elem_of_fmap_2.
    + simpl. by rewrite sm_get_insert, decide_True.
  - rewrite Hres', Hres. split.
    + intros [[?|(kv & ? & ?)]|?]; [by left|right; exists kv|right; exists (k, v)]; rewrite elem_of_app; auto.
      split; [right; by apply list_elem_of_singleton|done].
    + intros [?|(kv & [Hin| ->%list_elem_of_singleton]%elem_of_app & ?)]; [by left; left|left; right; by exists kv|by right].
Qed.

(** What is known of the filter of the directories below. *)
Definition filter_below (rec : Builder → list (string * DirectorySelector) → unit + DirectoryFilterError →
    outcome (Builder * (unit + DirectoryFilterError))) (f : list (string * DirectorySelector)) : Prop :=
  ∀ k g d res, sm_get f k = Some (Traverse g) → builder_wf d →
    returns (rec d g res) (λ r, builder_wf r.1 ∧ (∀ q, node_at r.1 q = filtered_at (Traverse g) (node_at d) q) ∧
      (r.2 = inr FilterCannotTraverseLeaf ↔
       res = inr FilterCannotTraverseLeaf ∨ goes_through_leaf (Traverse g) (node_at d))).

Lemma filter_step_spec rec f res done k v st :
  filter_below rec f → k ∉ done.*1 → entry_wf v → filter_inv f res done st →
  returns
    (let '(dir, res) := st in
     match sm_get f k with
     | None => Ok st
     | Some Take => Ok ((sm_insert dir k v).1, res)
     | Some (Traverse next_map) =>
         match v with
         | Dir d => '(d, res) ← rec d next_map res; Ok ((sm_insert dir k (Dir d)).1, res)
         | Leaf _ => Ok ((sm_insert dir k v).1, inr FilterCannotTraverseLeaf)
         end
     end) (filter_inv f res (done ++ [(k, v)])).
Proof.
  intros Hrec Hk Hv Hinv. destruct st as [dir r]. destruct (sm_get f k) as [[g|]|] eqn:Hf.
  - destruct v as [d|l].
    + eapply returns_bind; [exact (Hrec k g d r Hf Hv)|]. intros [d' r'] (Hd' & Hc & Hr). simpl in *.
      apply (filter_inv_insert _ _ _ _ _ _ (dir, r)); [done|done| | |done].
      * intros q. simpl. rewrite Hc. unfold filtered_at. simpl. by rewrite Hf.
      * rewrite Hr. unfold entry_through_leaf, goes_through_leaf. simpl. by rewrite Hf.
    + simpl. apply (filter_inv_insert _ _ _ _ _ _ (dir, r)); [done|done| | |done].
      * intros q. unfold filtered_at. simpl. rewrite Hf. by destruct q; [|destruct (keeps (Traverse g) _)].
      * split; [|done]. intros _. right. exists [], g, l. simpl. by rewrite Hf.
  - simpl. apply (filter_inv_insert _ _ _ _ _ _ (dir, r)); [done|done| | |done].
    + intros q. unfold filtered_at. simpl. rewrite Hf. by destruct q.
    + split; [by left|]. intros [?|(q & d & l & Hs & _)]; [done|]. simpl in Hs. rewrite Hf in Hs. by destruct q.
  - by apply filter_inv_skip.
Qed.

Lemma filter_inner_spec fuel f (b : Builder) res :
  builder_wf b → selector_height (Traverse f) ≤ fuel →
  returns (filter_inner fuel b f res) (λ r, builder_wf r.1 ∧
    (∀ q, node_at r.1 q = filtered_at (Traverse f) (node_at b) q) ∧
    (r.2 = inr FilterCannotTraverseLeaf ↔
     res = inr FilterCannotTraverseLeaf ∨ goes_through_leaf (Traverse f) (node_at b))).
Proof.
  revert f b res. induction fuel as [|fuel IH]; intros f b res Hb Hfuel; [simpl in Hfuel; lia|].
  cbn [filter_inner]. eapply returns_bind.
  { apply (for_each_inv _ (filter_inv f res)).
    - split_and!; [by apply builder_empty_wf|done|by intros kv ?%elem_of_nil|].
      simpl. split; [by left|]. intros [?|(kv & ?%elem_of_nil & _)]; done.
    - intros done [k v] rest st Hsplit Hinv.
      assert (Hin : (k, v) ∈ DirectoryBuilder_as_mut b) by (rewrite Hsplit; apply elem_of_app; right; by left).
      apply filter_step_spec; [| | |done].
      + intros k' g d r Hg Hd. apply IH; [done|]. pose proof (selector_height_child f k' _ Hg). simpl in *. lia.
      + pose proof (as_mut_NoDup b Hb) as Hnd. rewrite Hsplit, fmap_app in Hnd.
        apply NoDup_app in Hnd as (_ & Hd & _). intros Hk. apply (Hd k Hk). by left.
      + rewrite as_mut_into_entries in Hin by done. by apply (into_entries_wf _ _ _ Hb Hin). }
  intros [dir r] (Hwf & Hnot & Hdone & Hres). simpl in *.
  assert (Hget : ∀ kv, kv ∈ DirectoryBuilder_as_mut b ↔ DirectoryBuilder_get b kv.1 = Some kv.2).
  { intros [k v]. rewrite as_mut_into_entries by done. by rewrite get_Some. }
  split_and!; [done| |].
  - intros [|k q]; [done|]. rewrite node_at_cons. simpl.
    destruct (DirectoryBuilder_get b k) as [v|] eqn:Hk.
    + pose proof (Hdone (k, v) (proj2 (Hget (k, v)) Hk) q) as Hq. simpl in Hq. rewrite Hq.
      unfold filtered_at. by rewrite node_at_cons, Hk.
    + rewrite Hnot.
      * unfold filtered_at. rewrite node_at_cons, Hk. by destruct (keeps _ _).
      * intros (kv & -> & Hin%Hget)%list_elem_of_fmap. congruence.
  - rewrite Hres. split.
    + intros [?|([k v] & Hk%Hget & q & d & l & Hs & Hl)]; [by left|right]. exists (k :: q), d, l. simpl in *.
      by rewrite node_at_cons, Hk.
    + intros [?|([|k q] & d & l & Hs & Hl)]; [by left|done|right]. rewrite node_at_cons in Hl.
      destruct (DirectoryBuilder_get b k) as [v|] eqn:Hk; [|done].
      exists (k, v). split; [by apply Hget|]. by exists q, d, l.
Qed.

Lemma filter_spec s (b : Builder) :
  builder_wf b →
  ∃ b' r, DirectorySelector_filter s b = Ok (b', r) ∧ builder_wf b' ∧
    (∀ q, node_at b' q = filtered_at s (node_at b) q) ∧
    (r = inr FilterCannotTraverseLeaf ↔ goes_through_leaf s (node_at b)).
Proof.
  intros Hb. destruct s as [f|].
  - pose proof (filter_inner_spec (selector_height (Traverse f)) f b (inl tt) Hb ltac:(lia)) as Hspec.
    apply returns_Ok in Hspec as ([b' r] & Heq & Hwf & Hc & Hr). exists b', r. simpl in *.
    split_and!; [done|done|done|]. rewrite Hr. split; [by intros [?|?]|by right].
  - exists b, (inl tt). split_and!; [done|done|by destruct q|]. split; [done|].
    intros ([|k q] & d & l & Hs & _); done.
Qed.
End Filter.

(** * Search *)

Section Search.
Context {L H : Type} `{DirectoryDigester L H}.
Notation Builder := (DirectoryBuilder L H).
Notation Entry := (DirectoryEntry (DirectoryBuilder L H) L).

(** What a search makes of a visit: it returns what is taken, and the leaves at which it would go on. *)
Definition select_item (s : DirectorySelector) (visit : list string * Entry) : option (list string * SearchItem) :=
  match sel_at s visit.1, visit.2 with
  | Some Take, e => Some (visit.1, inl e)
  | Some (Traverse _), Leaf l => Some (visit.1, inr (SearchCannotTraverseLeaf l))
  | _, _ => None
  end.

Lemma omap_cons_list {A B} (f : A → option B) (x : A) (l : list A) : omap f (x :: l) = option_list (f x) ++ omap f l.
Proof. change (match f x with Some y => y :: omap f l | None => omap f l end = option_list (f x) ++ omap f l). by destruct (f x). Qed.

Section Iterator.
Context (directory_entries : Builder → list (string * Entry)).
Context (Hentries : ∀ d, directory_entries d ≡ₚ DirectoryBuilder_into_entries d).

(** The items of visits below a path, relative to the selector there. *)
Definition select_below (s : DirectorySelector) (path : list string) (visits : list (list string * Entry)) :
    list (list string * SearchItem) :=
  map (λ i, (path ++ i.1, i.2)) (omap (select_item s) visits).

Lemma select_below_app s path v1 v2 : select_below s path (v1 ++ v2) = select_below s path v1 ++ select_below s path v2.
Proof. unfold select_below. by rewrite omap_app, map_app. Qed.

(** Visits below a longer path. *)
Lemma below_prefix d : builder_wf d → ∀ prefix,
  below directory_entries prefix d = map (λ v, (prefix ++ v.1, v.2)) (below directory_entries [] d).
Proof.
  revert d. apply (builder_ind (λ d, ∀ prefix, below directory_entries prefix d = map (λ v, (prefix ++ v.1, v.2)) (below directory_entries [] d))).
  intros d Hd IH prefix. rewrite !(below_eq _ Hentries), flat_map_concat_map, flat_map_concat_map, concat_map, map_map.
  f_equal. apply map_ext_in. intros [k e] Hin%list_elem_of_In. unfold visit_entry. simpl. f_equal.
  destruct e as [c|l]; [|done]. apply (entries_get _ Hentries) in Hin; [|done].
  rewrite (IH k c Hin), (IH k c Hin [k]), map_map. apply map_ext. intros v. simpl. by rewrite <- app_assoc.
Qed.

Lemma select_child search k (vs : list (list string * Entry)) :
  omap (select_item (Traverse search)) (map (λ v, (k :: v.1, v.2)) vs) =
  match sm_get search k with
  | Some t => map (λ i, (k :: i.1, i.2)) (omap (select_item t) vs)
  | None => []
  end.
Proof.
  induction vs as [|[q e] vs IH]; [by destruct (sm_get search k)|]. cbn [map]. rewrite omap_cons_list, IH.
  unfold select_item at 1. cbn [sel_at fst snd]. destruct (sm_get search k) as [t|]; [|done].
  rewrite omap_cons_list, map_app. unfold select_item at 2. cbn [fst snd]. by destruct (sel_at t q) as [[g|]|], e.
Qed.

Lemma select_taken (vs : list (list string * Entry)) : Forall (λ v, v.1 ≠ []) vs → omap (select_item Take) vs = [].
Proof. induction 1 as [|[[|k q] e] vs Hne _ IH]; [done|done|]. by rewrite omap_cons_list, IH. Qed.

Lemma below_not_root d : builder_wf d → Forall (λ v, v.1 ≠ []) (below directory_entries [] d).
Proof.
  intros Hd. apply Forall_forall. intros [p e] (q & -> & Hq & _)%(elem_of_below _ Hentries); [|done]. done.
Qed.

(** What the visit of an entry gives, in the part of the selector that its name leads to. *)
Lemma select_visit_entry search path k e :
  entry_wf e →
  select_below (Traverse search) path (visit_entry directory_entries [] (k, e)) =
  match sm_get search k with
  | None => []
  | Some Take => [(path ++ [k], inl e)]
  | Some (Traverse t) =>
      match e with
      | Leaf l => [(path ++ [k], inr (SearchCannotTraverseLeaf l))]
      | Dir d => select_below (Traverse t) (path ++ [k]) (below directory_entries [] d)
      end
  end.
Proof.
  intros He. unfold visit_entry, select_below. cbn [fst snd app].
  assert (Hrest : match e with Dir d => below directory_entries [k] d | Leaf _ => [] end =
    map (λ v, (k :: v.1, v.2)) match e with Dir d => below directory_entries [] d | Leaf _ => [] end).
  { destruct e as [d|l]; [|done]. by rewrite below_prefix. }
  rewrite Hrest, omap_cons_list, select_child, map_app. clear Hrest. unfold select_item at 1. simpl.
  destruct (sm_get search k) as [[t|]|]; [| |done].
  - destruct e as [d|l]; simpl; [|done]. rewrite map_map. apply map_ext. intros i. simpl. by rewrite <- app_assoc.
  - rewrite select_taken; [done|]. destruct e as [d|l]; [by apply below_not_root|done].
Qed.

(** * The iterator *)

(** What is still to come of a search, and a bound of the iterations of its loop. *)
Fixpoint search_remaining (stack : list (SearchFrame (L:=L) (H:=H))) : list (list string * SearchItem) :=
  match stack with
  | [] => []
  | frame :: below =>
      select_below (Traverse (sf_search frame)) (search_path stack)
        (flat_map (visit_entry directory_entries []) (sf_entries frame)) ++ search_remaining below
  end.

Fixpoint search_work (stack : list (SearchFrame (L:=L) (H:=H))) : nat :=
  match stack with
  | [] => 1
  | frame :: below => 1 + 2 * length (flat_map (visit_entry directory_entries []) (sf_entries frame)) + search_work below
  end.

Definition frame_wf (frame : SearchFrame (L:=L) (H:=H)) : Prop := ∀ k e, (k, e) ∈ sf_entries frame → entry_wf e.

Lemma search_path_cons frame (stack : list (SearchFrame (L:=L) (H:=H))) :
  search_path (frame :: stack) = search_path stack ++ option_list (sf_name frame).
Proof. unfold search_path. simpl. rewrite omap_app. simpl. by destruct (sf_name frame). Qed.

Lemma select_below_entries search path k e es :
  select_below (Traverse search) path (flat_map (visit_entry directory_entries []) ((k, e) :: es)) =
  select_below (Traverse search) path (visit_entry directory_entries [] (k, e)) ++
  select_below (Traverse search) path (flat_map (visit_entry directory_entries []) es).
Proof. simpl. by rewrite <- select_below_app. Qed.

Lemma entries_wf d k e : builder_wf d → (k, e) ∈ directory_entries d → entry_wf e.
Proof. intros Hd. rewrite Hentries. by apply into_entries_wf. Qed.

Lemma search_step_spec stack :
  Forall frame_wf stack →
  match search_step directory_entries stack with
  | SearchEnd => search_remaining stack = []
  | SearchFound path item stack' => Forall frame_wf stack' ∧ search_work stack' < search_work stack ∧
      search_remaining stack = (path, item) :: search_remaining stack'
  | SearchContinue stack' => Forall frame_wf stack' ∧ search_work stack' < search_work stack ∧
      search_remaining stack = search_remaining stack'
  end.
Proof.
  destruct stack as [|[search name [|[k e] es]] stack]; cbn [search_step sf_entries sf_search sf_name]; intros Hwf; [done| |].
  { apply Forall_cons in Hwf as [_ Hwf]. split_and!; [done|simpl; lia|done]. }
  apply Forall_cons in Hwf as [Hframe Hwf].
  assert (He : entry_wf e) by (apply (Hframe k); by left).
  assert (Hes : frame_wf (mkSearchFrame search name es)) by (intros k' e' Hin; apply (Hframe k'); by right).
  pose proof (select_visit_entry search (search_path stack ++ option_list name) k e He) as Hvisit.
  cbn [search_remaining sf_entries sf_search]. rewrite select_below_entries.
  rewrite (search_path_cons (mkSearchFrame search name ((k, e) :: es)) stack). cbn [sf_name].
  rewrite Hvisit. clear Hvisit.
  destruct (sm_get search k) as [[t|]|].
  - destruct e as [d|l].
    + split_and!; [| |].
      * constructor; [intros k' e'; by apply entries_wf|by constructor].
      * cbn [search_work sf_entries flat_map]. rewrite length_app. unfold visit_entry at 3. cbn [snd length fst].
        rewrite (below_prefix d He), length_map, <- below_eq by done. lia.
      * cbn [search_remaining sf_entries sf_search]. rewrite !search_path_cons. cbn [sf_name option_list].
        by rewrite <- below_eq, app_assoc by done.
    + split_and!; [by constructor|simpl; lia|]. cbn [search_remaining sf_entries sf_search].
      by rewrite search_path_cons.
  - split_and!; [by constructor|simpl; rewrite length_app; lia|]. cbn [search_remaining sf_entries sf_search].
    by rewrite search_path_cons.
  - split_and!; [by constructor|simpl; rewrite length_app; lia|]. cbn [search_remaining sf_entries sf_search].
    by rewrite search_path_cons.
Qed.

Lemma search_loop_spec fuel stack :
  Forall frame_wf stack → search_work stack ≤ fuel →
  ∃ item stack', search_loop directory_entries fuel stack = Ok (item, stack') ∧
  match item with
  | None => search_remaining stack = []
  | Some item => Forall frame_wf stack' ∧ search_work stack' ≤ search_work stack ∧
      search_remaining stack = item :: search_remaining stack'
  end.
Proof.
  revert stack. induction fuel as [|fuel IH]; intros stack Hwf Hfuel; [destruct stack; simpl in Hfuel; lia|].
  cbn [search_loop]. pose proof (search_step_spec stack Hwf) as Hstep.
  destruct (search_step directory_entries stack) as [|path item stack'|stack'].
  - by eexists None, _.
  - destruct Hstep as (Hwf' & Hwork & Hrem). eexists (Some _), _. split_and!; [done|done|lia|done].
  - destruct Hstep as (Hwf' & Hwork & Hrem). destruct (IH stack' Hwf' ltac:(lia)) as (item & stack'' & -> & Hitem).
    exists item, stack''. split; [done|]. rewrite Hrem. destruct item; [|done].
    destruct Hitem as (? & ? & ?). split_and!; [done|lia|done].
Qed.

Lemma search_all_spec n fuel stack :
  Forall frame_wf stack → search_work stack ≤ fuel → length (search_remaining stack) < n →
  search_all directory_entries n fuel (SearchStack stack) = Ok (search_remaining stack).
Proof.
  revert stack. induction n as [|n IH]; intros stack Hwf Hfuel Hn; [lia|]. cbn [search_all Search_next].
  destruct (search_loop_spec fuel stack Hwf Hfuel) as ([item|] & stack' & -> & Hitem); simpl.
  - destruct Hitem as (Hwf' & Hwork & Hrem). rewrite Hrem in Hn. simpl in Hn.
    rewrite IH by (done || lia). simpl. by rewrite Hrem.
  - by rewrite Hitem.
Qed.

(** The search of a directory: what the selector takes of a walk. *)
Definition search_items (s : DirectorySelector) (d : Builder) : list (list string * SearchItem) :=
  match s with
  | Traverse _ => omap (select_item s) (below directory_entries [] d)
  | Take => [([], inl (Dir d))]
  end.

Lemma search_walk_spec s d : builder_wf d →
  ∃ n, ∀ fuel, n < fuel → search_all directory_entries fuel fuel (Search_new directory_entries s d) = Ok (search_items s d).
Proof.
  intros Hd. destruct s as [search|].
  - set (stack := [mkSearchFrame search None (directory_entries d)]).
    assert (Hitems : search_remaining stack = search_items (Traverse search) d).
    { simpl. rewrite app_nil_r, <- below_eq by done. unfold select_below.
      change (search_path stack) with (@nil string). rewrite <- (map_id (omap _ _)) at 2.
      apply map_ext. by intros []. }
    exists (search_work stack + length (search_remaining stack)). intros fuel Hfuel.
    change (Search_new directory_entries (Traverse search) d) with (SearchStack stack).
    rewrite search_all_spec; [by rewrite Hitems| |lia|lia].
    constructor; [|constructor]. intros k e. by apply entries_wf.
  - exists 2. intros [|[|fuel]] Hfuel; [lia|lia|done].
Qed.
End Iterator.

(** What a search gives. *)
Lemma elem_of_search_items directory_entries s d p :
  (∀ d, directory_entries d ≡ₚ DirectoryBuilder_into_entries d) → builder_wf d →
  (∀ e, (p, inl e) ∈ search_items directory_entries s d ↔ sel_at s p = Some Take ∧ find d p = inl (Some e)) ∧
  (∀ l, (p, inr (SearchCannotTraverseLeaf l)) ∈ search_items directory_entries s d ↔
     ∃ g, sel_at s p = Some (Traverse g) ∧ find d p = inl (Some (Leaf l))).
Proof.
  intros Hentries Hd. destruct s as [g|]; unfold search_items.
  - setoid_rewrite list_elem_of_omap. split.
    + intros e. split.
      * intros ([q e'] & Hin & Hsel). unfold select_item in Hsel. simpl in Hsel.
        apply (elem_of_below _ Hentries) in Hin as (q' & -> & Hq & Hf); [|done].
        change ([] ++ q') with q' in Hsel. destruct (sel_at (Traverse g) q') as [[g'|]|] eqn:Hs, e' as [d'|l]; cbn in Hsel; simplify_eq; done.
      * intros [Hs Hf]. exists (p, e). split; [|unfold select_item; simpl; by rewrite Hs].
        apply (elem_of_below _ Hentries); [done|]. exists p. split_and!; [done| |done]. by intros ->.
    + intros l. split.
      * intros ([q e'] & Hin & Hsel). unfold select_item in Hsel. simpl in Hsel.
        apply (elem_of_below _ Hentries) in Hin as (q' & -> & Hq & Hf); [|done].
        change ([] ++ q') with q' in Hsel. destruct (sel_at (Traverse g) q') as [[g'|]|] eqn:Hs, e' as [d'|l']; cbn in Hsel; simplify_eq. by exists g'.
      * intros (g' & Hs & Hf). exists (p, Leaf l). split; [|unfold select_item; simpl; by rewrite Hs].
        apply (elem_of_below _ Hentries); [done|]. exists p. split_and!; [done| |done]. by intros ->.
  - split.
    + intros e. rewrite list_elem_of_singleton. destruct p as [|k p]; simpl; naive_solver.
    + intros l. rewrite list_elem_of_singleton. destruct p as [|k p]; simpl; naive_solver.
Qed.
End Search.

(** * Selectors made of paths *)

(** The paths selected, in any order. *)
Definition selector_of (paths : list (list string)) : DirectorySelector :=
  fold_left DirectorySelector_select paths DirectorySelector_empty.

(** At or below a selected path; above one. *)
Definition selected (paths : list (list string)) (q : list string) : bool := existsb (λ p, path_prefix p q) paths.
Definition on_the_way (paths : list (list string)) (q : list string) : bool :=
  match q with [] => true | _ => existsb (λ p, path_prefix q p) paths end.

Lemma takes_selector_of paths q : takes (selector_of paths) q = selected paths q.
Proof.
  unfold selector_of. assert (Hs : ∀ s, takes (fold_left DirectorySelector_select paths s) q = takes s q || selected paths q).
  { induction paths as [|p paths IH]; intros s; simpl; [by rewrite orb_false_r|].
    by rewrite IH, takes_select, orb_assoc. }
  by rewrite Hs, takes_empty.
Qed.

Lemma keeps_selector_of paths q : keeps (selector_of paths) q = selected paths q || on_the_way paths q.
Proof.
  unfold selector_of.
  assert (Hs : ∀ s, keeps (fold_left DirectorySelector_select paths s) q =
    keeps s q || selected paths q || existsb (λ p, path_prefix q p) paths).
  { induction paths as [|p paths IH]; intros s; simpl; [by rewrite !orb_false_r|].
    rewrite IH, keeps_select. by destruct (keeps s q), (path_prefix p q), (path_prefix q p), (selected paths q). }
  rewrite Hs, keeps_empty. destruct q as [|k q]; [by rewrite orb_true_r|done].
Qed.

(** The part of a selector reached at a path that is kept. *)
Lemma sel_at_Traverse s p : (∃ g, sel_at s p = Some (Traverse g)) ↔ keeps s p = true ∧ takes s p = false.
Proof.
  revert s. induction p as [|k p IH]; intros [g|]; simpl.
  - split; [done|]. by exists g.
  - split; [by intros []|by intros []].
  - destruct (sm_get g k) as [s|]; [apply IH|]. split; [by intros []|by intros []].
  - split; [by intros []|by intros []].
Qed.

Lemma sel_at_Take s p :
  sel_at s p = Some Take ↔ takes s p = true ∧ ∀ q r, p = q ++ r → r ≠ [] → takes s q = false.
Proof.
  revert s. induction p as [|k p IH]; intros [g|]; simpl.
  - split; [done|by intros [? _]].
  - split; [|done]. split; [done|]. by intros [|] [|].
  - destruct (sm_get g k) as [s|] eqn:Hk; [|split; [done|by intros [? _]]]. rewrite IH. split.
    + intros [Ht Hno]. split; [done|]. intros [|k' q] r Heq Hr; [done|]. injection Heq as <- ->. simpl. rewrite Hk. by eapply Hno.
    + intros [Ht Hno]. split; [done|]. intros q r -> Hr. specialize (Hno (k :: q) r eq_refl Hr). simpl in Hno. by rewrite Hk in Hno.
  - split; [done|]. intros [_ Hno]. specialize (Hno [] (k :: p) eq_refl ltac:(done)). done.
Qed.

Lemma sorted_keys_sublist {K} `{TotalOrd K} (l1 l2 : list K) : l1 `sublist_of` l2 → sorted_keys l2 → sorted_keys l1.
Proof.
  induction 1 as [|x l1 l2 Hsub IH|x l1 l2 Hsub IH]; intros Hs; [done| |]; inversion Hs as [|? ? Hlt Hs']; subst.
  - constructor; [|by apply IH]. apply Forall_forall. intros y Hy. rewrite Forall_forall in Hlt. apply Hlt.
    by eapply elem_of_submseteq, sublist_submseteq.
  - by apply IH.
Qed.

Section Correct.
Context {L H : Type} `{DirectoryDigester L H}.
Notation Builder := (DirectoryBuilder L H).
Notation Entry := (DirectoryEntry (DirectoryBuilder L H) L).

Lemma select_items_sublist s (vs : list (list string * Entry)) : (omap (select_item s) vs).*1 `sublist_of` vs.*1.
Proof.
  induction vs as [|[p e] vs IH]; [constructor|]. rewrite omap_cons_list, fmap_cons, fmap_app.
  unfold select_item at 1. simpl. destruct (sel_at s p) as [[g|]|], e; simpl; by constructor.
Qed.

(** C17. With the selector of some paths, a filter keeps exactly what is below or above a selected path,
    and a search gives the entries at the first selected paths, in order.  Both report a leaf with a selected
    path below it, and go on. *)
Theorem selector_correct (paths : list (list string)) (b : Builder) :
  builder_wf b →
  (∃ b' r, DirectorySelector_filter (selector_of paths) b = Ok (b', r) ∧ builder_wf b' ∧
   (∀ q, node_at b' q = if selected paths q || on_the_way paths q then node_at b q else None) ∧
   (r = inr FilterCannotTraverseLeaf ↔
    ∃ q l, node_at b q = Some (Leaf l) ∧ selected paths q = false ∧ on_the_way paths q = true)) ∧
  ∃ n items, (∀ fuel, n < fuel → ordered_search fuel (selector_of paths) b = Ok items) ∧ sorted_keys items.*1 ∧
   (∀ p e, (p, inl e) ∈ items ↔ find b p = inl (Some e) ∧ selected paths p = true ∧
      ∀ q r, p = q ++ r → r ≠ [] → selected paths q = false) ∧
   (∀ p l, (p, inr (SearchCannotTraverseLeaf l)) ∈ items ↔
      find b p = inl (Some (Leaf l)) ∧ selected paths p = false ∧ on_the_way paths p = true).
Proof.
  intros Hb. split.
  - destruct (filter_spec (selector_of paths) b Hb) as (b' & r & Heq & Hwf & Hc & Hr). exists b', r.
    split_and!; [done|done| |].
    + intros q. rewrite Hc. unfold filtered_at. by rewrite keeps_selector_of.
    + rewrite Hr. unfold goes_through_leaf. split.
      * intros (q & d & l & Hs & Hl). exists q, l. pose proof (proj1 (sel_at_Traverse (selector_of paths) q) (ex_intro _ d Hs)) as [Hk Ht].
        rewrite keeps_selector_of in Hk. rewrite takes_selector_of in Ht. by rewrite Ht in Hk.
      * intros (q & l & Hl & Ht & Hk). destruct (proj2 (sel_at_Traverse (selector_of paths) q)) as [d Hd]; [|by exists q, d, l].
        by rewrite keeps_selector_of, takes_selector_of, Ht, Hk.
  - destruct (search_walk_spec ordered_entries ordered_entries_perm (selector_of paths) b Hb) as [n Hn].
    exists n, (search_items ordered_entries (selector_of paths) b). split_and!; [done| | |].
    + destruct (selector_of paths); [|by repeat constructor]. simpl.
      eapply sorted_keys_sublist; [apply select_items_sublist|by apply below_sorted].
    + intros p e. rewrite (proj1 (elem_of_search_items _ _ _ p ordered_entries_perm Hb)), sel_at_Take, takes_selector_of.
      setoid_rewrite takes_selector_of. tauto.
    + intros p l. rewrite (proj2 (elem_of_search_items _ _ _ p ordered_entries_perm Hb)).
      pose proof (sel_at_Traverse (selector_of paths) p) as Hs. rewrite keeps_selector_of, takes_selector_of in Hs. split.
      * intros (g & Hg & Hf). destruct (proj1 Hs (ex_intro _ g Hg)) as [Hk Ht]. by rewrite Ht in Hk.
      * intros (Hf & Ht & Hk). destruct (proj2 Hs) as [g Hg]; [by rewrite Ht, Hk|]. by exists g.
Qed.
End Correct.

(** * Examples *)

Lemma selector_correct_witness :
  builder_wf (dir_of [["a"; "b"]; ["b"; "c"]]) ∧
  ordered_search 100 (selector_of [["a"; "b"; "c"]; ["b"; "c"]]) (dir_of [["a"; "b"]; ["b"; "c"]]) =
    Ok [(["a"; "b"], inr (SearchCannotTraverseLeaf "")); (["b"; "c"], inl (Leaf ""))] ∧
  ∃ b' r, DirectorySelector_filter (selector_of [["a"; "b"; "c"]; ["b"; "c"]]) (dir_of [["a"; "b"]; ["b"; "c"]]) = Ok (b', r) ∧
    node_at b' ["a"; "b"] = Some (Leaf "") ∧ r = inr FilterCannotTraverseLeaf.
Proof.
  split; [apply dir_of_wf|]. split; [vm_compute; reflexivity|].
  destruct (selector_correct [["a"; "b"; "c"]; ["b"; "c"]] (dir_of [["a"; "b"]; ["b"; "c"]]) (dir_of_wf _))
    as [(b' & r & Heq & _ & Hc & Hr) _].
  exists b', r. split_and!; [exact Heq|by rewrite Hc|]. apply Hr. exists ["a"; "b"], "". split_and!; reflexivity.
Defined.

(** [test_filter] *)
Example test_filter :
  match DirectorySelector_filter (selector_of [["a"]; ["b"; "b"]])
    (dir_of [["a"; "aa"]; ["a"; "a"]; ["b"; "b"]; ["b"; "bb"]; ["c"; "c"]; ["c"; "cc"]]) with
  | Ok (b, inl tt) => walk_paths b
  | _ => Panic
  end = Ok [["a"]; ["a"; "a"]; ["a"; "aa"]; ["b"]; ["b"; "b"]].
Proof. vm_compute. reflexivity. Qed.

(** [test_filter_continues_on_error] *)
Example test_filter_continues_on_error :
  match DirectorySelector_filter (selector_of [["a"; "aa"]; ["c"; "d"]])
    (dir_of [["a"; "aa"; "aaa"]; ["a"; "aa"; "bbb"]; ["a"; "bb"]; ["c"]]) with
  | Ok (b, inr _) => walk_paths b
  | _ => Panic
  end = Ok [["a"]; ["a"; "aa"]; ["a"; "aa"; "aaa"]; ["a"; "aa"; "bbb"]; ["c"]].
Proof. vm_compute. reflexivity. Qed.

(** [test_search] *)
Example test_search :
  let d := Immutable (DirectoryBuilder_fingerprint (dir_of [["a"; "b"]; ["b"; "c"]])) in
  ordered_search 100 (selector_of [["a"; "b"]]) d = Ok [(["a"; "b"], inl (Leaf ""))] ∧
  ordered_search 100 (selector_of [["a"; "b"; "c"]; ["b"; "c"]]) d =
    Ok [(["a"; "b"], inr (SearchCannotTraverseLeaf "")); (["b"; "c"], inl (Leaf ""))] ∧
  match ordered_search 100 (selector_of [["a"]]) d with Ok [(p, inl (Dir _))] => p = ["a"] | _ => False end.
Proof. split_and!; vm_compute; reflexivity. Qed.
