(* ===== verification/DirMerge.v ===== *)
(** Merging directories ([src/app/bz_directory/src/directory/builder.rs]): the implementation that reuses
    shared directories, and the old one.

    Both go down two directories at once; [fuel] bounds the depth. *)
From stdpp Require Import gmap list strings.
From S2P Require Import Prelude.
From S2P Require Import RustOrd.
From S2P Require Import DirData.
From S2P Require Import DirSpec.
From S2P Require Import DirBuilder.
Local Open Scope dice_scope.
Local Open Scope string_scope.
Local Open Scope nat_scope.
Local Open Scope list_scope.

Inductive DirectoryMergeError := MergeCannotTraverseLeaf (path : PathAccumulator).

Inductive MapEntryOperation (K O : Type) := Keep (k : K) | Overwrite (o : O).
Arguments Keep {_ _} _.
Arguments Overwrite {_ _} _.

Definition MapEntryOperation_into_inner {T} (self : MapEntryOperation T T) : T :=
  match self with Keep t => t | Overwrite t => t end.

(** [Iterator::try_for_each] *)
Fixpoint try_for_each {A S E} (f : S → A → S + E) (s : S) (l : list A) : S + E :=
  match l with
  | [] => inl s
  | a :: l => match f s a with inl s => try_for_each f s l | inr e => inr e end
  end.

(** A loop that returns at the first error, with the state it has reached. *)
Fixpoint for_until_error {A S E} (f : S → A → S * (unit + E)) (s : S) (l : list A) : S * (unit + E) :=
  match l with
  | [] => (s, inl tt)
  | a :: l => match f s a with (s, inl _) => for_until_error f s l | (s, inr e) => (s, inr e) end
  end.

(** An error of a merge; [None] when the fuel is used up. *)
Definition merge_error : Type := option PathAccumulator.
Definition error_with (needle : string) (e : merge_error) : merge_error :=
  (λ acc, PathAccumulator_with acc needle) <$> e.

Section Merge.
Context {L H : Type} `{EqDecision L, EqDecision H}.
Notation Builder := (DirectoryBuilder L H).
Notation Entry := (DirectoryEntry (DirectoryBuilder L H) L).

(** * Changing one entry *)

Section MapEntry.
Context {Ctx E : Type}.
Context (map_dir_entry : Ctx → Builder → string → MapEntryOperation Entry Entry + E).
Context (map_leaf_entry : Ctx → option L → string → MapEntryOperation unit Entry + E).

(** The entry that is there is a leaf with the same value, or a directory with the same fingerprint. *)
Definition same_leaf (new_entry : Entry) (l : L) : bool :=
  match new_entry with Leaf lnew => bool_decide (lnew = l) | Dir _ => false end.
Definition same_shared (new_entry : Entry) (d : SharedDirectory L H) : bool :=
  match new_entry with
  | Dir (Immutable (Shared sharednew)) => bool_decide (dd_fingerprint (sd_data sharednew) = dd_fingerprint (sd_data d))
  | _ => false
  end.

(** [Some]: [ControlFlow::Break]; [None]: [ControlFlow::Continue]. *)
Definition map_entry_fasttrack (self : Builder) (needle : string) (ctx : Ctx) : option (Builder + E) :=
  match self with
  | Immutable (Shared d) =>
      match btree_get (dd_entries (sd_data d)) needle with
      | None => None
      | Some (Leaf l) =>
          Some match map_leaf_entry ctx (Some l) needle with
               | inl (Overwrite lnew) =>
                   if same_leaf lnew l then inl self
                   else inl (Mutable (sm_insert (DirectoryBuilder_as_mut self) needle lnew).1)
               | inl (Keep _) => inl self
               | inr e => inr e
               end
      | Some (Dir c) =>
          Some match map_dir_entry ctx (SharedDirectory_into_builder c) needle with
               | inl (Overwrite dnew) =>
                   if same_shared dnew c then inl self
                   else inl (Mutable (sm_insert (DirectoryBuilder_as_mut self) needle dnew).1)
               | inl (Keep _) => inl self
               | inr e => inr e
               end
      end
  | _ => None
  end.

Definition map_entry (self : Builder) (needle : string) (ctx : Ctx) : Builder + E :=
  match map_entry_fasttrack self needle ctx with
  | Some v => v
  | None =>
      let s := DirectoryBuilder_as_mut self in
      match sm_get s needle with
      | Some (Dir v) =>
          match map_dir_entry ctx v needle with
          | inl vnew => inl (Mutable (sm_insert s needle (MapEntryOperation_into_inner vnew)).1)
          | inr e => inr e
          end
      | Some (Leaf l) =>
          match map_leaf_entry ctx (Some l) needle with
          | inl (Overwrite lnew) => inl (Mutable (sm_insert s needle lnew).1)
          | inl (Keep _) => inl (Mutable s)
          | inr e => inr e
          end
      | None =>
          match map_leaf_entry ctx None needle with
          | inl (Overwrite enew) => inl (Mutable (sm_insert s needle enew).1)
          | inl (Keep _) => inl (Mutable s)
          | inr e => inr e
          end
      end
  end.
End MapEntry.

(** * Merge *)

(** What [merge_inner] does first: it returns a result, or the directories in the order in which it
    merges them. *)
Definition merge_start (self other : Builder) (leaf_compatible : bool) : Builder + Builder * Builder :=
  let swap d1_len d2_len := (d1_len <? d2_len) && leaf_compatible in
  match self, other with
  | Immutable d1, Immutable d2 =>
      if decide (ImmutableDirectory_fingerprint d1 = ImmutableDirectory_fingerprint d2) then inl self
      else if swap (ImmutableDirectory_len d1) (ImmutableDirectory_len d2) then inr (other, self)
      else inr (self, other)
  | Immutable d1, Mutable m =>
      if swap (ImmutableDirectory_len d1) (length m) then inr (other, self) else inr (self, other)
  | Mutable [], _ => inl other
  | Mutable _, _ => inr (self, other)
  end.

Section Closures.
Context (leaf_compatible : bool) (leaf_covers_dir : L → bool).
Context (merge : Builder → Builder → Builder + merge_error).

(** The first closure of [merge_inner]: there is a directory. *)
Definition merge_into_dir (v : Entry) (dir_left : Builder) (needle : string) :
    MapEntryOperation Entry Entry + merge_error :=
  match v with
  | Dir dir_right =>
      match merge dir_left dir_right with
      | inl d => inl (Overwrite (Dir d))
      | inr e => inr (error_with needle e)
      end
  | Leaf leaf_right => inl (Overwrite (Leaf leaf_right))
  end.

(** The second one: there is a leaf, or nothing. *)
Definition merge_into_leaf (v : Entry) (leaf_left : option L) (needle : string) :
    MapEntryOperation unit Entry + merge_error :=
  match v with
  | Dir dir_right =>
      match leaf_left with
      | Some leaf =>
          if leaf_covers_dir leaf then inl (Keep tt) else inr (Some (PathAccumulator_new needle))
      | None => inl (Overwrite (Dir dir_right))
      end
  | Leaf leaf_right =>
      if leaf_compatible && (if leaf_left then true else false) then inl (Keep tt)
      else inl (Overwrite (Leaf leaf_right))
  end.
End Closures.

Fixpoint merge_inner (fuel : nat) (leaf_compatible : bool) (leaf_covers_dir : L → bool) (self other : Builder) :
    Builder + merge_error :=
  match fuel with
  | 0 => inr None
  | S fuel =>
      match merge_start self other leaf_compatible with
      | inl done => inl done
      | inr (self, other) =>
          try_for_each
            (λ self kv,
              map_entry
                (merge_into_dir (merge_inner fuel leaf_compatible leaf_covers_dir))
                (merge_into_leaf leaf_compatible leaf_covers_dir)
                self kv.1 kv.2)
            self (DirectoryBuilder_into_entries other)
      end
  end.

(** The body of the loop of [merge_inner_old]. *)
Definition merge_old_step (leaf_covers_dir : L → bool) (merge : Builder → Builder → Builder * (unit + merge_error))
    (entries : list (string * Entry)) (kv : string * Entry) : list (string * Entry) * (unit + merge_error) :=
  let '(k, v) := kv in
  match sm_get entries k with
  | Some entry =>
      match entry, v with
      | Dir d, Dir o =>
          let '(d, r) := merge d o in
          ((sm_insert entries k (Dir d)).1, map_err (error_with k) r)
      | _, Leaf o => ((sm_insert entries k (Leaf o)).1, inl tt)
      | Leaf l, Dir _ =>
          if leaf_covers_dir l then (entries, inl tt) else (entries, inr (Some (PathAccumulator_new k)))
      end
  | None => ((sm_insert entries k v).1, inl tt)
  end.

Definition same_fingerprint (self other : Builder) : bool :=
  match self, other with
  | Immutable d1, Immutable d2 =>
      bool_decide (ImmutableDirectory_fingerprint d1 = ImmutableDirectory_fingerprint d2)
  | _, _ => false
  end.

Fixpoint merge_inner_old (fuel : nat) (leaf_covers_dir : L → bool) (self other : Builder) :
    Builder * (unit + merge_error) :=
  match fuel with
  | 0 => (self, inr None)
  | S fuel =>
      if same_fingerprint self other then (self, inl tt)
      else
        let '(entries, r) :=
          for_until_error (merge_old_step leaf_covers_dir (merge_inner_old fuel leaf_covers_dir))
            (DirectoryBuilder_as_mut self) (DirectoryBuilder_as_mut other) in
        (Mutable entries, r)
  end.

(** The result of a merge; [Panic] stands for used up fuel. *)
Definition merge_result {R} (self : Builder) (r : R + merge_error) : outcome (Builder * (R + DirectoryMergeError)) :=
  match r with
  | inl a => Ok (self, inl a)
  | inr (Some path) => Ok (self, inr (MergeCannotTraverseLeaf path))
  | inr None => Panic
  end.

(** The new implementation takes the directory out of its place for the merge. *)
Definition merge_fast (leaf_compatible : bool) (leaf_covers_dir : L → bool) (self other : Builder) :
    outcome (Builder * (unit + DirectoryMergeError)) :=
  match merge_inner (builder_height self) leaf_compatible leaf_covers_dir self other with
  | inl v => Ok (v, inl tt)
  | inr e => merge_result DirectoryBuilder_empty (inr e)
  end.

Definition merge_old (leaf_covers_dir : L → bool) (self other : Builder) :
    outcome (Builder * (unit + DirectoryMergeError)) :=
  let '(self, r) := merge_inner_old (builder_height self) leaf_covers_dir self other in merge_result self r.

(** [faster]: what [faster_directories::is_enabled] says. *)
Definition merge_with_compatible_leaves_and_leaf_dir_conflict_handler (faster : bool) (self other : Builder)
    (leaf_covers_dir : L → bool) : outcome (Builder * (unit + DirectoryMergeError)) :=
  if negb faster then merge_old leaf_covers_dir self other else merge_fast true leaf_covers_dir self other.

Definition merge_with_compatible_leaves (faster : bool) (self other : Builder) :
    outcome (Builder * (unit + DirectoryMergeError)) :=
  merge_with_compatible_leaves_and_leaf_dir_conflict_handler faster self other (λ _, false).

Definition DirectoryBuilder_merge (faster : bool) (self other : Builder) :
    outcome (Builder * (unit + DirectoryMergeError)) :=
  if faster then merge_fast false (λ _, false) self other else merge_old (λ _, false) self other.
End Merge.
