(* ===== verification/DirMergeSpec.v ===== *)
(** What a merge does to the content of directories: both implementations, the swap of the new one and its
    reuse of shared directories. *)
From stdpp Require Import gmap list strings.
From S2P Require Import Prelude.
From S2P Require Import RustOrd.
From S2P Require Import DirData.
From S2P Require Import DirSpec.
From S2P Require Import DirBuilder.
From S2P Require Import DirBuilderSpec.
From S2P Require Import DirFingerprint.
From S2P Require Import DirMerge.
Local Open Scope dice_scope.
Local Open Scope string_scope.
Local Open Scope nat_scope.
Local Open Scope list_scope.

(** * The content of a merge *)

Definition is_leaf {L} (n : option (Node L)) : bool := match n with Some (Leaf _) => true | _ => false end.

(** There is a leaf at a proper prefix of the path. *)
Fixpoint leaf_above {L} (content : list string → option (Node L)) (path : list string) : bool :=
  match path with
  | [] => false
  | k :: path => is_leaf (content []) || leaf_above (λ q, content (k :: q)) path
  end.

(** The content of two directories merged: what is below a leaf of either goes away; of two leaves [keep]
    says whether the first one stays; a leaf stays where the other side has a directory. *)
Definition merge_at {L} (keep : bool) (left right : list string → option (Node L)) (path : list string) : option (Node L) :=
  if leaf_above left path || leaf_above right path then None
  else
    match left path, right path with
    | None, n | n, None => n
    | Some (Dir _), Some n => Some n
    | Some (Leaf l), Some (Leaf l') => Some (Leaf (if keep then l else l'))
    | Some (Leaf l), Some (Dir _) => Some (Leaf l)
    end.

(** A directory would have to be merged into a leaf that does not cover it. *)
Definition conflict {L} (covers : L → bool) (left right : list string → option (Node L)) (path : list string) : Prop :=
  ∃ l, left path = Some (Leaf l) ∧ right path = Some (Dir tt) ∧ covers l = false.

(** Directories that agree on their leaves, but for leaves that cover directories. *)
Definition agree {L} (covers : L → bool) (left right : list string → option (Node L)) : Prop :=
  ∀ path, match left path, right path with
          | Some (Leaf l), Some (Leaf l') => l = l'
          | Some (Leaf l), Some (Dir _) | Some (Dir _), Some (Leaf l) => covers l = true
          | _, _ => True
          end.

Section Content.
Context {L H : Type}.
Notation Builder := (DirectoryBuilder L H).
Notation Entry := (DirectoryEntry (DirectoryBuilder L H) L).

Lemma leaf_above_ext (n1 n2 : list string → option (Node L)) path :
  (∀ q, n1 q = n2 q) → leaf_above n1 path = leaf_above n2 path.
Proof.
  revert n1 n2. induction path as [|k path IH]; intros n1 n2 Hn; [done|]. simpl. rewrite Hn. f_equal.
  apply IH. intros q. apply Hn.
Qed.

Lemma merge_at_ext keep (l1 l2 r1 r2 : list string → option (Node L)) path :
  (∀ q, l1 q = l2 q) → (∀ q, r1 q = r2 q) → merge_at keep l1 r1 path = merge_at keep l2 r2 path.
Proof.
  intros Hl Hr. unfold merge_at. by rewrite (leaf_above_ext l1 l2), (leaf_above_ext r1 r2), Hl, Hr by done.
Qed.

Lemma leaf_above_cons (b : Builder) k path :
  leaf_above (node_at b) (k :: path) =
  match DirectoryBuilder_get b k with
  | Some (Dir d) => leaf_above (node_at d) path
  | Some (Leaf _) => match path with [] => false | _ => true end
  | None => false
  end.
Proof.
  simpl. destruct (DirectoryBuilder_get b k) as [[d|l]|] eqn:Hk.
  - apply leaf_above_ext. intros q. by rewrite node_at_cons, Hk.
  - destruct path; [done|]. simpl. by rewrite node_at_cons, Hk.
  - assert (Hn : ∀ n : list string → option (Node L), (∀ q, n q = None) → leaf_above n path = false).
    { clear. induction path as [|k path IH]; intros n Hn; [done|]. simpl. rewrite Hn. by apply IH. }
    apply Hn. intros q. by rewrite node_at_cons, Hk.
Qed.

Lemma leaf_above_missing (b : Builder) path : leaf_above (node_at b) path = true → node_at b path = None.
Proof.
  revert b. induction path as [|k path IH]; intros b; [done|]. rewrite leaf_above_cons, node_at_cons.
  destruct (DirectoryBuilder_get b k) as [[d|l]|]; simpl; [apply IH| |done]. by destruct path.
Qed.

(** The content of a merge, name by name. *)
Lemma merge_at_cons keep (b1 b2 : Builder) k path :
  merge_at keep (node_at b1) (node_at b2) (k :: path) =
  match DirectoryBuilder_get b1 k, DirectoryBuilder_get b2 k with
  | Some e, None | None, Some e => entry_at e path
  | Some (Dir d1), Some (Dir d2) => merge_at keep (node_at d1) (node_at d2) path
  | Some (Dir _), Some (Leaf l) => entry_at (H:=H) (Leaf l) path
  | Some (Leaf l), Some (Leaf l') => entry_at (H:=H) (Leaf (if keep then l else l')) path
  | Some (Leaf l), Some (Dir _) => entry_at (H:=H) (Leaf l) path
  | None, None => None
  end.
Proof.
  unfold merge_at. rewrite !leaf_above_cons, !node_at_cons.
  pose proof (λ d : Builder, leaf_above_missing d path) as Hmiss.
  destruct (DirectoryBuilder_get b1 k) as [[d1|l1]|], (DirectoryBuilder_get b2 k) as [[d2|l2]|];
    try (by destruct path); simpl; rewrite ?orb_false_r.
  - destruct path as [|k' path]; [done|]. rewrite orb_true_r. done.
  - destruct (leaf_above (node_at d1) path) eqn:E; [by rewrite (Hmiss d1)|]. by destruct (node_at d1 path) as [[]|].
  - destruct (leaf_above (node_at d2) path) eqn:E; [by rewrite (Hmiss d2)|]. done.
Qed.

Lemma conflict_cons covers (b1 b2 : Builder) k path :
  conflict covers (node_at b1) (node_at b2) (k :: path) ↔
  match DirectoryBuilder_get b1 k, DirectoryBuilder_get b2 k with
  | Some (Dir d1), Some (Dir d2) => conflict covers (node_at d1) (node_at d2) path
  | Some (Leaf l), Some (Dir _) => path = [] ∧ covers l = false
  | _, _ => False
  end.
Proof.
  unfold conflict. rewrite !node_at_cons.
  destruct (DirectoryBuilder_get b1 k) as [[d1|l1]|], (DirectoryBuilder_get b2 k) as [[d2|l2]|]; simpl;
    try done; split; try done; try (by intros (l & H1 & H2 & H3); destruct path).
  - intros (l & H1 & H2 & H3). destruct path; [|done]. by injection H1 as ->.
  - intros [-> Hl]. by exists l1.
Qed.

Lemma conflict_not_root covers (b1 b2 : Builder) path :
  conflict covers (node_at b1) (node_at b2) path → path ≠ [].
Proof. intros (l & H1 & _) ->. done. Qed.

Lemma agree_sym covers (n1 n2 : list string → option (Node L)) : agree covers n1 n2 → agree covers n2 n1.
Proof. intros Ha q. specialize (Ha q). destruct (n1 q) as [[]|], (n2 q) as [[]|]; done. Qed.

Lemma agree_no_conflict covers (n1 n2 : list string → option (Node L)) path : agree covers n1 n2 → ¬ conflict covers n1 n2 path.
Proof. intros Ha (l & H1 & H2 & H3). specialize (Ha path). rewrite H1, H2 in Ha. congruence. Qed.

(** Directories that agree can be merged in any order. *)
Lemma merge_at_sym covers keep keep' (n1 n2 : list string → option (Node L)) path :
  agree covers n1 n2 → merge_at keep n1 n2 path = merge_at keep' n2 n1 path.
Proof.
  intros Ha. unfold merge_at. rewrite orb_comm. case_match; [done|]. specialize (Ha path).
  destruct (n1 path) as [[[]|]|], (n2 path) as [[[]|]|]; try done. subst. by destruct keep, keep'.
Qed.

Lemma agree_child covers (b1 b2 d1 d2 : Builder) k :
  agree covers (node_at b1) (node_at b2) → DirectoryBuilder_get b1 k = Some (Dir d1) →
  DirectoryBuilder_get b2 k = Some (Dir d2) → agree covers (node_at d1) (node_at d2).
Proof. intros Ha H1 H2 q. specialize (Ha (k :: q)). by rewrite !node_at_cons, H1, H2 in Ha. Qed.

Lemma merge_at_same keep (b : Builder) path : merge_at keep (node_at b) (node_at b) path = node_at b path.
Proof.
  unfold merge_at. destruct (leaf_above (node_at b) path) eqn:E; simpl; [by rewrite leaf_above_missing|].
  destruct (node_at b path) as [[[]|l]|]; [done| |done]. by destruct keep.
Qed.

Lemma merge_at_empty keep (b : Builder) path :
  merge_at keep (node_at (H:=H) DirectoryBuilder_empty) (node_at b) path = node_at b path.
Proof.
  destruct path as [|k path]; [done|]. rewrite merge_at_cons, node_at_cons. simpl.
  by destruct (DirectoryBuilder_get b k).
Qed.
End Content.

(** * The merge of an entry *)

Section Merge.
Context {L H : Type} `{EqDecision L, EqDecision H, DirectoryDigester L H, !CollisionFree L H}.
Context (covers : L → bool).
Notation Builder := (DirectoryBuilder L H).
Notation Entry := (DirectoryEntry (DirectoryBuilder L H) L).

(** The result of a merge: the merged content, or the path of a conflict. *)
Definition merges (keep : bool) (b1 b2 : Builder) (r : Builder + merge_error) : Prop :=
  match r with
  | inl b => builder_wf b ∧ (∀ path, ¬ conflict covers (node_at b1) (node_at b2) path) ∧
      ∀ path, node_at b path = merge_at keep (node_at b1) (node_at b2) path
  | inr (Some acc) => conflict covers (node_at b1) (node_at b2) (PathAccumulator_into_iter acc)
  | inr None => False
  end.

(** The entry [e] that comes of merging [v] into what a name leads to. *)
Definition merged_entry (keep : bool) (o : option Entry) (v e : Entry) : Prop :=
  match o, v with
  | None, _ => entry_equiv e v
  | Some (Dir d1), Dir d2 => ∃ d, e = Dir d ∧ (∀ path, ¬ conflict covers (node_at d1) (node_at d2) path) ∧
      ∀ path, node_at d path = merge_at keep (node_at d1) (node_at d2) path
  | Some (Dir _), Leaf l => e = Leaf l
  | Some (Leaf l), Leaf l' => e = Leaf (if keep then l else l')
  | Some (Leaf l), Dir _ => e = Leaf l ∧ covers l = true
  end.

(** A conflict in an entry, at a path below its name. *)
Definition entry_conflict (o : option Entry) (v : Entry) (path : list string) : Prop :=
  match o, v with
  | Some (Dir d1), Dir d2 => conflict covers (node_at d1) (node_at d2) path
  | Some (Leaf l), Dir _ => path = [] ∧ covers l = false
  | _, _ => False
  end.

(** Merging [v] at the name [k]: only that name changes, or there is a conflict. *)
Definition merges_entry (keep : bool) (b : Builder) (kv : string * Entry) (r : Builder + merge_error) : Prop :=
  match r with
  | inl b' => builder_wf b' ∧ (∀ k, k ≠ kv.1 → DirectoryBuilder_get b' k = DirectoryBuilder_get b k) ∧
      ∃ e, DirectoryBuilder_get b' kv.1 = Some e ∧ merged_entry keep (DirectoryBuilder_get b kv.1) kv.2 e
  | inr (Some acc) => ∃ path, PathAccumulator_into_iter acc = kv.1 :: path ∧
      entry_conflict (DirectoryBuilder_get b kv.1) kv.2 path
  | inr None => False
  end.

Lemma entry_equiv_refl (e : Entry) : entry_equiv e e.
Proof. by apply entry_equiv_at. Qed.

Lemma into_iter_with acc k : PathAccumulator_into_iter (PathAccumulator_with acc k) = k :: PathAccumulator_into_iter acc.
Proof. unfold PathAccumulator_into_iter, PathAccumulator_with. by rewrite rev_app_distr. Qed.

Lemma merges_entry_insert keep b k v e :
  builder_wf b → entry_wf e → merged_entry keep (DirectoryBuilder_get b k) v e →
  merges_entry keep b (k, v) (inl (Mutable (sm_insert (DirectoryBuilder_as_mut b) k e).1)).
Proof.
  intros Hb He Hm. split_and!; simpl.
  - by apply insert_wf; [apply as_mut_wf|].
  - intros k' Hne. rewrite sm_get_insert, decide_False by done. by apply as_mut_get.
  - exists e. by rewrite sm_get_insert, decide_True by done.
Qed.

Lemma merges_entry_as_mut keep b k v e :
  builder_wf b → DirectoryBuilder_get b k = Some e → merged_entry keep (Some e) v e →
  merges_entry keep b (k, v) (inl (Mutable (DirectoryBuilder_as_mut b))).
Proof.
  intros Hb He Hm. split_and!; simpl.
  - by apply as_mut_wf.
  - intros k' Hne. by apply as_mut_get.
  - exists e. rewrite as_mut_get by done. by rewrite He.
Qed.

Lemma merges_entry_same keep b k v e :
  builder_wf b → DirectoryBuilder_get b k = Some e → merged_entry keep (Some e) v e →
  merges_entry keep b (k, v) (inl b).
Proof. intros Hb He Hm. split_and!; [done|done|]. exists e. simpl. by rewrite He. Qed.

(** What is assumed of the merge of the directories below. *)
Definition merge_below (keep : bool) (b other : Builder) (merge : Builder → Builder → Builder + merge_error) : Prop :=
  ∀ k d1 d2, DirectoryBuilder_get b k = Some (Dir d1) → (k, Dir d2) ∈ DirectoryBuilder_into_entries other →
    merges keep d1 d2 (merge d1 d2).

Lemma merge_into_dir_spec keep merge b k d v :
  builder_wf b → entry_wf v → DirectoryBuilder_get b k = Some (Dir d) →
  (∀ d2, v = Dir d2 → merges keep d d2 (merge d d2)) →
  match merge_into_dir merge v d k with
  | inl (Overwrite e) => entry_wf e ∧ merged_entry keep (Some (Dir d)) v e
  | inl (Keep _) => False
  | inr r => merges_entry keep b (k, v) (inr r)
  end.
Proof.
  intros Hb Hv Hk Hm. destruct v as [d2|l2]; simpl; [|done].
  specialize (Hm d2 eq_refl). destruct (merge d d2) as [d'|[acc|]]; simpl in *; [| |done].
  - destruct Hm as (Hd' & Hno & Hc). split; [done|]. by exists d'.
  - exists (PathAccumulator_into_iter acc). simpl. by rewrite into_iter_with, Hk.
Qed.

Lemma merge_into_leaf_spec keep b k o v :
  builder_wf b → entry_wf v → DirectoryBuilder_get b k = Leaf <$> o →
  match merge_into_leaf keep covers v o k with
  | inl (Overwrite e) => entry_wf e ∧ merged_entry keep (Leaf <$> o) v e
  | inl (Keep _) => ∃ l, o = Some l ∧ merged_entry keep (Some (Leaf l)) v (Leaf l)
  | inr r => merges_entry keep b (k, v) (inr r)
  end.
Proof.
  intros Hb Hv Hk. destruct v as [d2|l2], o as [l|]; simpl in *.
  - destruct (covers l) eqn:Hc.
    + by exists l.
    + exists []. simpl. by rewrite Hk.
  - split; [done|]. apply entry_equiv_refl.
  - destruct keep; simpl; [by exists l|done].
  - rewrite andb_false_r. split; [done|]. constructor.
Qed.

Lemma same_shared_equiv e s :
  entry_wf e → shared_wf s → same_shared e s = true → entry_equiv e (Dir (SharedDirectory_into_builder s)).
Proof.
  destruct e as [[m|[data|s']]|l]; simpl; try done. intros Hwf Hs Heq%bool_decide_eq_true. constructor.
  apply builder_wf_immutable in Hwf. apply (fingerprint_equiv (Shared s') (Shared s)); [done|by constructor|done].
Qed.

Lemma merged_entry_equiv keep d v e e' :
  entry_equiv e e' → merged_entry keep (Some (Dir d)) v e → merged_entry keep (Some (Dir d)) v e'.
Proof.
  intros He Hm. destruct v as [d2|l2]; simpl in *.
  - destruct Hm as (d' & -> & Hno & Hc). inversion He as [? d'' Hd|]; subst. exists d''.
    split_and!; [done|done|]. intros q. by rewrite <- (Hd q).
  - subst. by inversion He.
Qed.

Lemma fasttrack_spec keep merge b k v r :
  builder_wf b → entry_wf v →
  (∀ d1 d2, DirectoryBuilder_get b k = Some (Dir d1) → v = Dir d2 → merges keep d1 d2 (merge d1 d2)) →
  map_entry_fasttrack (merge_into_dir merge) (merge_into_leaf keep covers) b k v = Some r →
  merges_entry keep b (k, v) r.
Proof.
  intros Hb Hv Hm. destruct b as [m|[data|s]]; [done|done|]. cbn [map_entry_fasttrack].
  set (b := Immutable (Shared s)) in *.
  assert (Hget : DirectoryBuilder_get b k = map_dir SharedDirectory_into_builder <$> btree_get (dd_entries (sd_data s)) k) by done.
  clearbody b.
  destruct (btree_get (dd_entries (sd_data s)) k) as [[c|l]|] eqn:Hk; simpl in Hget; [| |done]; intros [= <-].
  - pose proof (get_wf _ _ _ Hb Hget) as Hc. simpl in Hc.
    pose proof (merge_into_dir_spec keep merge b k _ v Hb Hv Hget (λ d2, Hm _ d2 Hget)) as Hspec.
    destruct (merge_into_dir merge v (SharedDirectory_into_builder c) k) as [[e|e]|e]; [done| |done].
    destruct Hspec as [He Hmerged]. destruct (same_shared e c) eqn:Hsame.
    + eapply merges_entry_same; [done|exact Hget|]. eapply merged_entry_equiv; [|done].
      apply same_shared_equiv; [done| |done]. apply builder_wf_immutable in Hc. by inversion Hc.
    + apply merges_entry_insert; [done|done|]. by rewrite Hget.
  - pose proof (merge_into_leaf_spec keep b k (Some l) v Hb Hv Hget) as Hspec.
    destruct (merge_into_leaf keep covers v (Some l) k) as [[[]|e]|e]; [| |done].
    + destruct Hspec as (l' & [= <-] & Hmerged). by eapply merges_entry_same.
    + destruct Hspec as [He Hmerged]. destruct (same_leaf e l) eqn:Hsame.
      * destruct e as [d|l']; [done|]. apply bool_decide_eq_true in Hsame. subst. by eapply merges_entry_same.
      * apply merges_entry_insert; [done|done|]. by rewrite Hget.
Qed.

Lemma map_entry_spec keep merge b k v :
  builder_wf b → entry_wf v →
  (∀ d1 d2, DirectoryBuilder_get b k = Some (Dir d1) → v = Dir d2 → merges keep d1 d2 (merge d1 d2)) →
  merges_entry keep b (k, v) (map_entry (merge_into_dir merge) (merge_into_leaf keep covers) b k v).
Proof.
  intros Hb Hv Hm. unfold map_entry.
  destruct (map_entry_fasttrack _ _ b k v) as [r|] eqn:Hfast; [by eapply fasttrack_spec|]. clear Hfast.
  rewrite as_mut_get by done. destruct (DirectoryBuilder_get b k) as [[d|l]|] eqn:Hk.
  - pose proof (merge_into_dir_spec keep merge b k d v Hb Hv Hk (λ d2, Hm d d2 eq_refl)) as Hspec.
    destruct (merge_into_dir merge v d k) as [[e|e]|e]; [done| |done]. destruct Hspec as [He Hmerged].
    apply merges_entry_insert; [done|done|]. by rewrite Hk.
  - pose proof (merge_into_leaf_spec keep b k (Some l) v Hb Hv Hk) as Hspec.
    destruct (merge_into_leaf keep covers v (Some l) k) as [[[]|e]|e]; [| |done].
    + destruct Hspec as (l' & [= <-] & Hmerged). by eapply merges_entry_as_mut.
    + destruct Hspec as [He Hmerged]. apply merges_entry_insert; [done|done|]. by rewrite Hk.
  - pose proof (merge_into_leaf_spec keep b k None v Hb Hv Hk) as Hspec.
    destruct (merge_into_leaf keep covers v None k) as [[[]|e]|e]; [| |done].
    + by destruct Hspec as (l' & ? & _).
    + destruct Hspec as [He Hmerged]. apply merges_entry_insert; [done|done|]. by rewrite Hk.
Qed.

(** * The loop over the entries *)

Lemma merge_loop_spec keep (step : Builder → string * Entry → Builder + merge_error) b l :
  NoDup l.*1 → (∀ k v, (k, v) ∈ l → entry_wf v) →
  (∀ b' k v, builder_wf b' → (k, v) ∈ l → DirectoryBuilder_get b' k = DirectoryBuilder_get b k →
     merges_entry keep b' (k, v) (step b' (k, v))) →
  ∀ b', builder_wf b' → (∀ k, k ∈ l.*1 → DirectoryBuilder_get b' k = DirectoryBuilder_get b k) →
  match try_for_each step b' l with
  | inl r => builder_wf r ∧ (∀ k, k ∉ l.*1 → DirectoryBuilder_get r k = DirectoryBuilder_get b' k) ∧
      ∀ k v, (k, v) ∈ l → ∃ e, DirectoryBuilder_get r k = Some e ∧ merged_entry keep (DirectoryBuilder_get b k) v e
  | inr (Some acc) => ∃ k v path, (k, v) ∈ l ∧ PathAccumulator_into_iter acc = k :: path ∧
      entry_conflict (DirectoryBuilder_get b k) v path
  | inr None => False
  end.
Proof.
  induction l as [|[k v] l IH]; intros Hnd Hwf Hstep b' Hb' Hsame; simpl.
  { split_and!; [done|done|]. by intros k v ?%elem_of_nil. }
  rewrite fmap_cons in Hnd. apply NoDup_cons in Hnd as [Hk Hnd].
  assert (Hin : (k, v) ∈ (k, v) :: l) by by left.
  assert (Hkb : DirectoryBuilder_get b' k = DirectoryBuilder_get b k) by (apply Hsame; by left).
  pose proof (Hstep b' k v Hb' Hin Hkb) as Hs. destruct (step b' (k, v)) as [b''|[acc|]]; simpl in Hs; [| |done].
  - destruct Hs as (Hb'' & Hother & e & He & Hmerged).
    assert (Hrest : match try_for_each step b'' l with
      | inl r => builder_wf r ∧ (∀ k, k ∉ l.*1 → DirectoryBuilder_get r k = DirectoryBuilder_get b'' k) ∧
          ∀ k v, (k, v) ∈ l → ∃ e, DirectoryBuilder_get r k = Some e ∧ merged_entry keep (DirectoryBuilder_get b k) v e
      | inr (Some acc) => ∃ k v path, (k, v) ∈ l ∧ PathAccumulator_into_iter acc = k :: path ∧
          entry_conflict (DirectoryBuilder_get b k) v path
      | inr None => False
      end).
    { apply IH; [done| | |done|].
      - intros k' v' Hin'. eapply Hwf. by right.
      - intros b0 k' v' Hb0 Hin'. apply Hstep; [done|by right].
      - intros k' Hk'. rewrite Hother; [apply Hsame; by right|]. intros ->. done. }
    destruct (try_for_each step b'' l) as [r|[acc|]]; [| |done].
    + destruct Hrest as (Hr & Hnot & Hall). split_and!; [done| |].
      * intros k' [Hne Hk']%not_elem_of_cons. rewrite Hnot by done. by apply Hother.
      * intros k' v' [[= -> ->]|Hin']%elem_of_cons; [|by apply Hall].
        exists e. rewrite Hnot by done. split; [done|]. by rewrite <- Hkb.
    + destruct Hrest as (k' & v' & path & Hin' & Hacc & Hc). exists k', v', path. split; [by right|done].
  - destruct Hs as (path & Hacc & Hc). exists k, v, path. split; [done|]. by rewrite <- Hkb.
Qed.

(** The merge of all entries of a directory is the merge of the directory. *)
Lemma merges_of_entries keep b other r :
  builder_wf b → builder_wf other →
  match r with
  | inl r => builder_wf r ∧
      (∀ k, k ∉ (DirectoryBuilder_into_entries other).*1 → DirectoryBuilder_get r k = DirectoryBuilder_get b k) ∧
      ∀ k v, (k, v) ∈ DirectoryBuilder_into_entries other →
        ∃ e, DirectoryBuilder_get r k = Some e ∧ merged_entry keep (DirectoryBuilder_get b k) v e
  | inr (Some acc) => ∃ k v path, (k, v) ∈ DirectoryBuilder_into_entries other ∧
      PathAccumulator_into_iter acc = k :: path ∧ entry_conflict (DirectoryBuilder_get b k) v path
  | inr None => False
  end →
  merges keep b other r.
Proof.
  intros Hb Ho. destruct r as [r|[acc|]]; simpl; [| |done].
  - intros (Hr & Hnot & Hall).
    assert (Hmissing : ∀ k, DirectoryBuilder_get other k = None → DirectoryBuilder_get r k = DirectoryBuilder_get b k).
    { intros k Hk. apply Hnot, sm_get_None. by rewrite <- get_into_entries. }
    assert (Hpresent : ∀ k v, DirectoryBuilder_get other k = Some v →
      ∃ e, DirectoryBuilder_get r k = Some e ∧ merged_entry keep (DirectoryBuilder_get b k) v e).
    { intros k v Hk. apply Hall. by apply get_Some. }
    split_and!; [done| |].
    + intros [|k path] Hc; [by apply conflict_not_root in Hc|]. apply conflict_cons in Hc.
      destruct (DirectoryBuilder_get other k) as [v|] eqn:Hk; [|by destruct (DirectoryBuilder_get b k) as [[]|]].
      destruct (Hpresent k v Hk) as (e & _ & Hm).
      destruct (DirectoryBuilder_get b k) as [[d1|l1]|], v as [d2|l2]; simpl in Hm; try done.
      * destruct Hm as (d & _ & Hno & _). by eapply Hno.
      * destruct Hm as [_ Hm], Hc as [_ Hc]. congruence.
    + intros [|k path]; [done|]. rewrite merge_at_cons, node_at_cons.
      destruct (DirectoryBuilder_get other k) as [v|] eqn:Hk.
      * destruct (Hpresent k v Hk) as (e & -> & Hm).
        destruct (DirectoryBuilder_get b k) as [[d1|l1]|], v as [d2|l2]; simpl in Hm.
        -- destruct Hm as (d & -> & _ & Hd). apply Hd.
        -- by subst.
        -- by destruct Hm as [-> _].
        -- by subst.
        -- by rewrite (proj1 (entry_equiv_at _ _) Hm).
        -- by rewrite (proj1 (entry_equiv_at _ _) Hm).
      * rewrite (Hmissing k Hk). by destruct (DirectoryBuilder_get b k) as [[]|].
  - intros (k & v & path & Hin & Hacc & Hc). rewrite Hacc. apply conflict_cons.
    apply get_Some in Hin as ->; [|done]. by destruct (DirectoryBuilder_get b k) as [[]|], v.
Qed.

(** * The new implementation *)

Lemma merge_start_spec keep b1 b2 :
  builder_wf b1 → builder_wf b2 →
  match merge_start b1 b2 keep with
  | inl b => merges keep b1 b2 (inl b)
  | inr (self, other) => (self, other) = (b1, b2) ∨ keep = true ∧ (self, other) = (b2, b1)
  end.
Proof.
  intros H1 H2. destruct b1 as [[|e m1]|d1]; simpl; [|by left|].
  - split_and!; [done| |].
    + intros path (l & Hl & _). by destruct path.
    + intros path. symmetry. apply merge_at_empty.
  - destruct b2 as [m2|d2].
    + destruct (_ <? _), keep; simpl; auto.
    + case_decide as Hfp.
      * apply fingerprint_equiv in Hfp; [|by apply builder_wf_immutable..]. split_and!; [done| |].
        -- intros path (l & Hl & Hd & _). rewrite <- (Hfp path) in Hd. congruence.
        -- intros path. rewrite (merge_at_ext keep _ (node_at (Immutable d1)) _ (node_at (Immutable d1))); [|done|].
           ++ symmetry. apply merge_at_same.
           ++ intros q. by rewrite (Hfp q).
      * destruct (_ <? _), keep; simpl; auto.
Qed.

Lemma merges_swap keep b1 b2 r :
  agree covers (node_at b1) (node_at b2) → merges keep b2 b1 r → merges keep b1 b2 r.
Proof.
  intros Ha. destruct r as [r|[acc|]]; simpl; [| |done].
  - intros (Hr & _ & Hc). split_and!; [done|by intros path; apply agree_no_conflict|].
    intros path. rewrite Hc. by eapply merge_at_sym, agree_sym.
  - intros Hc. by apply agree_no_conflict in Hc; [|apply agree_sym].
Qed.

Lemma merges_ext keep b1 b1' b2 r : b1 ≡ b1' → merges keep b1 b2 r → merges keep b1' b2 r.
Proof.
  intros Hb. destruct r as [r|[acc|]]; simpl; [| |done].
  - intros (Hr & Hno & Hc). split_and!; [done| |].
    + intros path (l & Hl & Hd). rewrite <- (Hb path) in Hl. apply (Hno path). by exists l.
    + intros path. rewrite Hc. by apply merge_at_ext.
  - intros (l & Hl & Hd). exists l. by rewrite <- (Hb _).
Qed.

Lemma merge_inner_spec fuel keep b1 b2 :
  builder_wf b1 → builder_wf b2 → Nat.min (builder_height b1) (builder_height b2) ≤ fuel →
  (keep = true → agree covers (node_at b1) (node_at b2)) →
  merges keep b1 b2 (merge_inner fuel keep covers b1 b2).
Proof.
  revert b1 b2. induction fuel as [|fuel IH]; intros b1 b2 H1 H2 Hfuel Ha.
  { pose proof (builder_height_pos b1). pose proof (builder_height_pos b2). lia. }
  simpl. pose proof (merge_start_spec keep b1 b2 H1 H2) as Hstart.
  destruct (merge_start b1 b2 keep) as [b|[self other]]; [done|].
  assert (Hloop : ∀ b1 b2, builder_wf b1 → builder_wf b2 → Nat.min (builder_height b1) (builder_height b2) ≤ S fuel →
    (keep = true → agree covers (node_at b1) (node_at b2)) →
    merges keep b1 b2 (try_for_each (λ self kv,
      map_entry (merge_into_dir (merge_inner fuel keep covers)) (merge_into_leaf keep covers) self kv.1 kv.2)
      b1 (DirectoryBuilder_into_entries b2))).
  { clear b1 b2 H1 H2 Hfuel Ha self other Hstart. intros b1 b2 H1 H2 Hfuel Ha. apply merges_of_entries; [done|done|].
    apply merge_loop_spec; [by apply into_entries_NoDup| | |done|done].
    - intros k v. by apply into_entries_wf.
    - intros b' k v Hb' Hin Hsame. simpl. apply map_entry_spec; [done|exact (into_entries_wf _ _ _ H2 Hin)|].
      intros d1 d2 Hd1 ->. rewrite Hsame in Hd1. apply get_Some in Hin; [|done].
      apply IH.
      + apply (get_wf _ _ _ H1 Hd1).
      + apply (get_wf _ _ _ H2 Hin).
      + pose proof (get_height _ _ _ H1 Hd1). pose proof (get_height _ _ _ H2 Hin). lia.
      + intros Hk. eapply agree_child; [by apply Ha|done|done]. }
  destruct Hstart as [[= -> ->]|[-> [= -> ->]]]; [by apply Hloop|].
  apply merges_swap; [by apply Ha|]. apply Hloop; [done|done|lia|]. intros _. by apply agree_sym, Ha.
Qed.

(** * The old implementation *)

Definition state_or_error {S E} (r : S * (unit + E)) : S + E :=
  match r.2 with inl _ => inl r.1 | inr e => inr e end.

Lemma for_until_error_try {A S E} (f : S → A → S * (unit + E)) (s : S) (l : list A) :
  state_or_error (for_until_error f s l) = try_for_each (λ s a, state_or_error (f s a)) s l.
Proof.
  revert s. induction l as [|a l IH]; intros s; [done|]. simpl. unfold state_or_error at 2.
  destruct (f s a) as [s' [u|e]]; simpl; [apply IH|done].
Qed.

Lemma for_until_error_inv {A S E} (I : S → Prop) (f : S → A → S * (unit + E)) (s : S) (l : list A) :
  (∀ s a, a ∈ l → I s → I (f s a).1) → I s → I (for_until_error f s l).1.
Proof.
  revert s. induction l as [|a l IH]; intros s Hf Hs; [done|]. simpl.
  assert (Hfs : I (f s a).1) by (apply Hf; [by left|done]). destruct (f s a) as [s' [u|e]]; simpl in *; [|done].
  apply IH; [|done]. intros s'' a' Ha'. apply Hf. by right.
Qed.

(** One step of the loop, on the directory whose entries it changes. *)
Definition old_step (merge : Builder → Builder → Builder * (unit + merge_error)) (b : Builder) (kv : string * Entry) :
    Builder + merge_error :=
  match state_or_error (merge_old_step covers merge (DirectoryBuilder_as_mut b) kv) with
  | inl entries => inl (Mutable entries)
  | inr e => inr e
  end.

Lemma old_loop merge (l es : list (string * Entry)) :
  state_or_error (let '(entries, r) := for_until_error (merge_old_step covers merge) es l in
                  (Mutable (L:=L) (H:=H) entries, r)) =
  try_for_each (old_step merge) (Mutable es) l.
Proof.
  assert (Htry : match try_for_each (λ s a, state_or_error (merge_old_step covers merge s a)) es l with
    | inl es => inl (Mutable es) | inr e => inr e end = try_for_each (old_step merge) (Mutable es) l).
  { revert es. induction l as [|kv l IH]; intros es; [done|]. simpl. unfold old_step at 1. simpl.
    destruct (state_or_error _) as [es'|e]; [apply IH|done]. }
  rewrite <- Htry, <- for_until_error_try. by destruct (for_until_error _ es l) as [es' [u|e]].
Qed.

Lemma old_step_spec merge b k v :
  builder_wf b → entry_wf v →
  (∀ d1 d2, DirectoryBuilder_get b k = Some (Dir d1) → v = Dir d2 → merges false d1 d2 (state_or_error (merge d1 d2))) →
  merges_entry false b (k, v) (old_step merge b (k, v)).
Proof.
  intros Hb Hv Hm. unfold old_step. simpl. rewrite as_mut_get by done.
  destruct (DirectoryBuilder_get b k) as [[d1|l1]|] eqn:Hk.
  - destruct v as [d2|l2].
    + specialize (Hm d1 d2 eq_refl eq_refl). destruct (merge d1 d2) as [d [u|[acc|]]]; simpl in Hm; [| |done].
      * destruct Hm as (Hd & Hno & Hc). apply merges_entry_insert; [done|done|]. rewrite Hk. by exists d.
      * simpl. exists (PathAccumulator_into_iter acc). by rewrite into_iter_with, Hk.
    + apply merges_entry_insert; [done|done|]. by rewrite Hk.
  - destruct v as [d2|l2]; simpl.
    + destruct (covers l1) eqn:Hc.
      * by eapply (merges_entry_as_mut false b k _ _ Hb Hk).
      * simpl. exists []. by rewrite Hk.
    + apply merges_entry_insert; [done|done|]. by rewrite Hk.
  - apply merges_entry_insert; [done|done|]. rewrite Hk. by apply entry_equiv_refl.
Qed.

Lemma merge_inner_old_spec fuel b1 b2 :
  builder_wf b1 → builder_wf b2 → Nat.min (builder_height b1) (builder_height b2) ≤ fuel →
  merges false b1 b2 (state_or_error (merge_inner_old fuel covers b1 b2)).
Proof.
  revert b1 b2. induction fuel as [|fuel IH]; intros b1 b2 H1 H2 Hfuel.
  { pose proof (builder_height_pos b1). pose proof (builder_height_pos b2). lia. }
  simpl. destruct (same_fingerprint b1 b2) eqn:Hfp.
  - destruct b1 as [|d1], b2 as [|d2]; try done. apply bool_decide_eq_true in Hfp.
    pose proof (merge_start_spec false _ _ H1 H2) as Hstart. simpl in Hstart. by rewrite decide_True in Hstart by done.
  - rewrite old_loop, (as_mut_into_entries b2) by done.
    apply (merges_ext _ (Mutable (DirectoryBuilder_as_mut b1))); [intros q; by apply node_at_as_mut|].
    apply as_mut_wf in H1 as H1'.
    apply merges_of_entries; [done|done|]. apply merge_loop_spec; [by apply into_entries_NoDup| | |done|done].
    + intros k v. by apply into_entries_wf.
    + intros b' k v Hb' Hin Hsame. apply old_step_spec; [done|exact (into_entries_wf _ _ _ H2 Hin)|].
      intros d1 d2 Hd1 ->. rewrite Hsame in Hd1. simpl in Hd1. rewrite as_mut_get in Hd1 by done.
      apply get_Some in Hin; [|done]. apply IH.
      * apply (get_wf _ _ _ H1 Hd1).
      * apply (get_wf _ _ _ H2 Hin).
      * pose proof (get_height _ _ _ H1 Hd1). pose proof (get_height _ _ _ H2 Hin). lia.
Qed.

(** Whatever happens, the directory that the old implementation leaves is well-formed. *)
Lemma merge_inner_old_wf fuel b1 b2 : builder_wf b1 → builder_wf b2 → builder_wf (merge_inner_old fuel covers b1 b2).1.
Proof.
  revert b1 b2. induction fuel as [|fuel IH]; intros b1 b2 H1 H2; [done|]. simpl.
  destruct (same_fingerprint b1 b2); [done|].
  assert (Hwf : builder_wf (Mutable (for_until_error (merge_old_step covers (merge_inner_old fuel covers))
    (DirectoryBuilder_as_mut b1) (DirectoryBuilder_as_mut b2)).1)).
  { apply (for_until_error_inv (λ es, builder_wf (Mutable es))); [|by apply as_mut_wf].
    rewrite (as_mut_into_entries b2) by done. intros es [k v] Hin Hes. pose proof (into_entries_wf _ _ _ H2 Hin) as Hv.
    simpl. destruct (sm_get es k) as [[d|l]|] eqn:Hk.
    - destruct v as [o|l]; [|by apply insert_wf].
      pose proof (IH d o (get_wf (Mutable es) k (Dir d) Hes Hk) Hv) as Hd.
      destruct (merge_inner_old fuel covers d o) as [d' r]. by apply insert_wf.
    - destruct v as [o|l']; [by destruct (covers l)|by apply insert_wf].
    - by apply insert_wf. }
  by destruct (for_until_error _ _ _).
Qed.
End Merge.
