(* ===== verification/DirMergeCorrect.v ===== *)
(** The correctness of merging directories: the content of a merge, the agreement of the two
    implementations, and the reuse of shared directories. *)
From stdpp Require Import gmap list strings.
From S2P Require Import Prelude.
From S2P Require Import RustOrd.
From S2P Require Import DirData.
From S2P Require Import DirSpec.
From S2P Require Import DirBuilder.
From S2P Require Import DirBuilderSpec.
From S2P Require Import DirFingerprint.
From S2P Require Import DirBuilderCorrect.
From S2P Require Import DirMerge.
From S2P Require Import DirMergeSpec.
Local Open Scope dice_scope.
Local Open Scope string_scope.
Local Open Scope nat_scope.
Local Open Scope list_scope.

Section Merge.
Context {L H : Type} `{EqDecision L, EqDecision H, DirectoryDigester L H, !CollisionFree L H}.
Notation Builder := (DirectoryBuilder L H).

(** * Both implementations *)

Lemma merge_old_spec covers b1 b2 :
  builder_wf b1 → builder_wf b2 →
  ∃ b r, merge_old covers b1 b2 = Ok (b, r) ∧ builder_wf b ∧
  match r with
  | inl _ => merges covers false b1 b2 (inl b)
  | inr (MergeCannotTraverseLeaf acc) => merges covers false b1 b2 (inr (Some acc))
  end.
Proof.
  intros H1 H2. unfold merge_old.
  pose proof (merge_inner_old_spec covers (builder_height b1) b1 b2 H1 H2 ltac:(lia)) as Hspec.
  pose proof (merge_inner_old_wf covers (builder_height b1) b1 b2 H1 H2) as Hwf.
  destruct (merge_inner_old _ covers b1 b2) as [b [u|[acc|]]]; simpl in *; [| |done]; by eexists b, _.
Qed.

Lemma merge_fast_spec keep covers b1 b2 :
  builder_wf b1 → builder_wf b2 → (keep = true → agree covers (node_at b1) (node_at b2)) →
  ∃ b r, merge_fast keep covers b1 b2 = Ok (b, r) ∧ builder_wf b ∧
  match r with
  | inl _ => merges covers keep b1 b2 (inl b)
  | inr (MergeCannotTraverseLeaf acc) => b = DirectoryBuilder_empty ∧ merges covers keep b1 b2 (inr (Some acc))
  end.
Proof.
  intros H1 H2 Ha. unfold merge_fast.
  pose proof (merge_inner_spec covers (builder_height b1) keep b1 b2 H1 H2 ltac:(lia) Ha) as Hspec.
  destruct (merge_inner _ keep covers b1 b2) as [b|[acc|]]; [| |done]; eexists _, _; split_and!; try done.
  - by destruct Hspec.
  - apply builder_empty_wf.
Qed.

(** The content after a merge with compatible leaves. *)
Lemma merge_compatible_spec faster covers b1 b2 :
  builder_wf b1 → builder_wf b2 → agree covers (node_at b1) (node_at b2) →
  ∃ b, merge_with_compatible_leaves_and_leaf_dir_conflict_handler faster b1 b2 covers = Ok (b, inl tt) ∧
    builder_wf b ∧ ∀ path, node_at b path = merge_at true (node_at b1) (node_at b2) path.
Proof.
  intros H1 H2 Ha. unfold merge_with_compatible_leaves_and_leaf_dir_conflict_handler. destruct faster; simpl.
  - destruct (merge_fast_spec true covers b1 b2 H1 H2 (λ _, Ha)) as (b & [[]|[acc]] & -> & Hb & Hr).
    + exists b. split_and!; [done|done|]. apply Hr.
    + destruct Hr as [_ Hc]. by apply (agree_no_conflict _ _ _ _ Ha) in Hc.
  - destruct (merge_old_spec covers b1 b2 H1 H2) as (b & [[]|[acc]] & -> & Hb & Hr).
    + exists b. split_and!; [done|done|]. intros path. destruct Hr as (_ & _ & ->).
      rewrite (merge_at_sym covers false false) by done. by eapply merge_at_sym, agree_sym.
    + by apply (agree_no_conflict _ _ _ _ Ha) in Hr.
Qed.

(** * Reuse *)

(** Everything in the second directory is in the first one. *)
Definition included (b1 b2 : Builder) : Prop := ∀ path n, node_at b2 path = Some n → node_at b1 path = Some n.

Lemma included_entry b1 b2 k v :
  builder_wf b2 → included b1 b2 → (k, v) ∈ DirectoryBuilder_into_entries b2 →
  match v with
  | Dir d2 => ∃ d1, DirectoryBuilder_get b1 k = Some (Dir d1) ∧ included d1 d2
  | Leaf l => DirectoryBuilder_get b1 k = Some (Leaf l)
  end.
Proof.
  intros H2 Hincl Hk%get_Some; [|done].
  assert (Hsub : ∀ q n, entry_at v q = Some n → ∃ e, DirectoryBuilder_get b1 k = Some e ∧ entry_at e q = Some n).
  { intros q n Hn. pose proof (Hincl (k :: q) n) as Hq. rewrite !node_at_cons, Hk in Hq. specialize (Hq Hn).
    destruct (DirectoryBuilder_get b1 k) as [e|]; [by exists e|done]. }
  destruct (Hsub [] _ (entry_at_nil v)) as (e & He & Hnode). rewrite entry_at_nil in Hnode.
  destruct v as [d2|l2], e as [d1|l1]; try done.
  - exists d1. split; [done|]. intros q n Hn. destruct (Hsub q n Hn) as (e & He' & Hq). rewrite He in He'. by injection He' as <-.
  - rewrite He. by injection Hnode as ->.
Qed.

Lemma included_len d b2 :
  builder_wf (Immutable d) → builder_wf b2 → included (Immutable d) b2 →
  length (DirectoryBuilder_into_entries b2) ≤ ImmutableDirectory_len d.
Proof.
  intros Hd H2 Hincl.
  assert (Hlen : ImmutableDirectory_len d = length (DirectoryBuilder_into_entries (Immutable d)).*1).
  { destruct d; simpl; unfold map_entries; by rewrite length_fmap, length_map. }
  rewrite Hlen, <- (length_fmap fst (DirectoryBuilder_into_entries b2)).
  apply submseteq_length, NoDup_submseteq; [by apply into_entries_NoDup|].
  intros k ([k' v] & -> & Hin)%list_elem_of_fmap. pose proof (included_entry _ _ _ _ H2 Hincl Hin) as Hv.
  apply list_elem_of_fmap. destruct v as [d2|l].
  - destruct Hv as (d1 & Hd1%get_Some & _); [|done]. by exists (k', Dir d1).
  - apply get_Some in Hv; [|done]. by exists (k', Leaf l).
Qed.

Lemma try_for_each_same {A S E} (f : S → A → S + E) (s : S) (l : list A) :
  (∀ a, a ∈ l → f s a = inl s) → try_for_each f s l = inl s.
Proof.
  induction l as [|a l IH]; intros Hf; [done|]. simpl. rewrite Hf by by left. apply IH. intros a' Ha'. apply Hf. by right.
Qed.

Lemma merge_start_reuse keep d b2 :
  builder_wf (Immutable d) → builder_wf b2 → included (Immutable d) b2 →
  merge_start (Immutable d) b2 keep = inl (Immutable d) ∨ merge_start (Immutable d) b2 keep = inr (Immutable d, b2).
Proof.
  intros Hd H2 Hincl. pose proof (included_len d b2 Hd H2 Hincl) as Hlen.
  assert (Hswap : ∀ n, n = length (DirectoryBuilder_into_entries b2) → (ImmutableDirectory_len d <? n) = false).
  { intros n ->. by apply Nat.ltb_ge. }
  simpl. destruct b2 as [m2|d2].
  - right. by rewrite Hswap.
  - case_decide; [by left|right]. rewrite Hswap; [done|].
    destruct d2; simpl; unfold map_entries; by rewrite length_map.
Qed.

(** Merging what a shared directory has already gives that directory back, shared. *)
Lemma merge_inner_reuse keep covers fuel s b2 :
  shared_wf s → builder_wf b2 → included (Immutable (Shared s)) b2 → shared_height s ≤ fuel →
  merge_inner fuel keep covers (Immutable (Shared s)) b2 = inl (Immutable (Shared s)).
Proof.
  revert s b2. induction fuel as [|fuel IH]; intros s b2 Hs H2 Hincl Hfuel.
  { pose proof (builder_height_pos (Immutable (Shared s))). simpl in *. lia. }
  assert (Hb : builder_wf (Immutable (Shared s))) by by do 2 constructor.
  cbn [merge_inner]. destruct (merge_start_reuse keep (Shared s) b2 Hb H2 Hincl) as [->| ->]; [done|].
  apply try_for_each_same. intros [k v] Hin. pose proof (included_entry _ _ _ _ H2 Hincl Hin) as Hv.
  pose proof (into_entries_wf _ _ _ H2 Hin) as Hwf.
  unfold map_entry, map_entry_fasttrack. cbn [fst snd].
  destruct v as [d2|l].
  - destruct Hv as (d1 & Hk & Hsub). simpl in Hk.
    destruct (btree_get (dd_entries (sd_data s)) k) as [[c|l]|] eqn:Hc; simpl in Hk; [|done..]. injection Hk as <-.
    assert (Hk : DirectoryBuilder_get (Immutable (Shared s)) k = Some (Dir (SharedDirectory_into_builder c))) by (simpl; by rewrite Hc).
    pose proof (get_wf _ _ _ Hb Hk) as Hcwf. simpl in Hcwf. apply builder_wf_immutable in Hcwf. inversion Hcwf; subst.
    pose proof (get_height _ _ _ Hb Hk) as Hheight. simpl in Hheight.
    simpl. unfold SharedDirectory_into_builder. rewrite IH by (done || lia). simpl.
    by rewrite bool_decide_eq_true_2.
  - simpl in Hv. destruct (btree_get (dd_entries (sd_data s)) k) as [[c|l']|] eqn:Hc; simpl in Hv; [done| |done].
    injection Hv as ->. simpl. destruct keep; simpl; [done|]. by rewrite bool_decide_eq_true_2.
Qed.
End Merge.

Section Correct.
Context {L H : Type} `{EqDecision L, EqDecision H, DirectoryDigester L H, !CollisionFree L H}.
Notation Builder := (DirectoryBuilder L H).

(** C13. With either implementation a merge ends; it puts the second directory over the first one, or
    reports a leaf of the first one where the second one has a directory.  Merging what a shared directory
    already has gives the shared directory back. *)
Theorem merge_correct (faster : bool) (b1 b2 : Builder) :
  builder_wf b1 → builder_wf b2 →
  (∃ b r, DirectoryBuilder_merge faster b1 b2 = Ok (b, r) ∧ builder_wf b ∧
   match r with
   | inl _ => (∀ path, ¬ conflict (λ _, false) (node_at b1) (node_at b2) path) ∧
       ∀ path, node_at b path = merge_at false (node_at b1) (node_at b2) path
   | inr (MergeCannotTraverseLeaf acc) =>
       conflict (λ _, false) (node_at b1) (node_at b2) (PathAccumulator_into_iter acc) ∧
       (faster = true → b = DirectoryBuilder_empty)
   end) ∧
  (∀ s, faster = true → b1 = Immutable (Shared s) → included b1 b2 → DirectoryBuilder_merge faster b1 b2 = Ok (b1, inl tt)).
Proof.
  intros H1 H2. split.
  - destruct faster; simpl.
    + destruct (merge_fast_spec false (λ _, false) b1 b2 H1 H2 ltac:(done)) as (b & r & -> & Hb & Hr).
      exists b, r. split_and!; [done|done|]. destruct r as [u|[acc]]; [by destruct Hr as (_ & ? & ?)|].
      by destruct Hr as [-> Hc].
    + destruct (merge_old_spec (λ _, false) b1 b2 H1 H2) as (b & r & -> & Hb & Hr).
      exists b, r. split_and!; [done|done|]. destruct r as [u|[acc]]; [by destruct Hr as (_ & ? & ?)|done].
  - intros s -> -> Hincl. unfold DirectoryBuilder_merge, merge_fast.
    rewrite merge_inner_reuse; [done| |done|done|done].
    apply builder_wf_immutable in H1. by inversion H1.
Qed.

(** C16. Directories that agree on their leaves, but for leaves that cover directories, merge
    without errors, with either implementation and in either order, to the same content. *)
Theorem merge_compatible_correct (faster faster' : bool) (covers : L → bool) (b1 b2 : Builder) :
  builder_wf b1 → builder_wf b2 → agree covers (node_at b1) (node_at b2) →
  ∃ b b',
    merge_with_compatible_leaves_and_leaf_dir_conflict_handler faster b1 b2 covers = Ok (b, inl tt) ∧
    merge_with_compatible_leaves_and_leaf_dir_conflict_handler faster' b2 b1 covers = Ok (b', inl tt) ∧
    builder_wf b ∧ b ≡ b' ∧ ∀ path, node_at b path = merge_at true (node_at b1) (node_at b2) path.
Proof.
  intros H1 H2 Ha. destruct (merge_compatible_spec faster covers b1 b2 H1 H2 Ha) as (b & Hb & Hwf & Hc).
  destruct (merge_compatible_spec faster' covers b2 b1 H2 H1 (agree_sym _ _ _ Ha)) as (b' & Hb' & _ & Hc').
  exists b, b'. split_and!; [done|done|done| |done]. intros path. rewrite Hc, Hc'. by eapply merge_at_sym.
Qed.
End Correct.

(** * Examples *)

Notation merged_left := (DirectoryBuilder_insert (DirectoryBuilder_empty (L:=string) (H:=TestDigest)) ["a"; "b"] (Leaf "1")).1.
Notation merged_right := (DirectoryBuilder_insert (DirectoryBuilder_empty (L:=string) (H:=TestDigest)) ["a"; "c"] (Leaf "2")).1.

Lemma merge_correct_witness :
  ∃ b, DirectoryBuilder_merge true merged_left merged_right = Ok (b, inl tt) ∧
    node_at b ["a"; "b"] = Some (Leaf "1") ∧ node_at b ["a"; "c"] = Some (Leaf "2").
Proof.
  assert (H1 : builder_wf merged_left) by (apply insert_keeps_wf; [apply builder_empty_wf|done]).
  assert (H2 : builder_wf merged_right) by (apply insert_keeps_wf; [apply builder_empty_wf|done]).
  destruct (merge_correct true merged_left merged_right H1 H2) as [(b & r & Heq & Hwf & Hr) _].
  assert (Hok : r = inl tt) by (vm_compute in Heq; by injection Heq as _ <-). subst.
  exists b. destruct Hr as [_ Hr]. split_and!; [exact Heq|by rewrite Hr|by rewrite Hr].
Defined.

(** [a] is a leaf on the left that covers the directory on the right. *)
Notation covering := (DirectoryBuilder_insert (DirectoryBuilder_empty (L:=string) (H:=TestDigest)) ["a"] (Leaf "tree")).1.

Lemma covering_agrees : agree (λ l, bool_decide (l = "tree")) (node_at covering) (node_at merged_right).
Proof.
  intros [|k [|k' path]]; [done| |].
  - rewrite !node_at_cons. unfold DirectoryBuilder_get. simpl. by case_decide.
  - rewrite (node_at_cons covering). unfold DirectoryBuilder_get. simpl. by case_decide.
Qed.

Lemma merge_compatible_correct_witness :
  ∃ b b', merge_with_compatible_leaves_and_leaf_dir_conflict_handler true covering merged_right (λ l, bool_decide (l = "tree")) = Ok (b, inl tt) ∧
    merge_with_compatible_leaves_and_leaf_dir_conflict_handler false merged_right covering (λ l, bool_decide (l = "tree")) = Ok (b', inl tt) ∧
    b ≡ b' ∧ node_at b ["a"] = Some (Leaf "tree").
Proof.
  assert (H1 : builder_wf covering) by (apply insert_keeps_wf; [apply builder_empty_wf|done]).
  assert (H2 : builder_wf merged_right) by (apply insert_keeps_wf; [apply builder_empty_wf|done]).
  destruct (merge_compatible_correct true false _ covering merged_right H1 H2 covering_agrees)
    as (b & b' & Hb & Hb' & _ & Heq & Hc).
  exists b, b'. split_and!; [exact Hb|exact Hb'|exact Heq|by rewrite Hc].
Defined.
