(* ===== verification/DirLazy.v ===== *)
(** Lazy building of directories ([src/app/bz_directory/src/directory/builder_lazy.rs]): what is to be merged
    and inserted is collected, and put together at the end from the largest directory to the smallest. *)
From stdpp Require Import gmap list strings sorting countable.
From S2P Require Import Prelude.
From S2P Require Import RustStr.
From S2P Require Import RustOrd.
From S2P Require Import DirData.
From S2P Require Import DirSpec.
From S2P Require Import DirBuilder.
From S2P Require Import DirBuilderSpec.
From S2P Require Import DirFingerprint.
From S2P Require Import DirBuilderCorrect.
From S2P Require Import DirMerge.
From S2P Require Import DirMergeSpec.
From S2P Require Import DirMergeCorrect.
From S2P Require Import DirWalk.
Local Open Scope dice_scope.
Local Open Scope string_scope.
Local Open Scope nat_scope.
Local Open Scope list_scope.

(** [std::cmp::Reverse] *)
Record Reverse (A : Type) := mkReverse { reversed : A }.
Arguments mkReverse {_} _.
Arguments reversed {_} _.
#[export] Instance reverse_ord {A} `{RustOrd A} : RustOrd (Reverse A) := λ a b, rust_cmp (reversed b) (reversed a).

(** [Vec::dedup]: of equal elements that follow each other only the first one stays. *)
Fixpoint dedup_after {A} (eqb : A → A → bool) (prev : A) (l : list A) : list A :=
  match l with
  | [] => []
  | a :: l => if eqb a prev then dedup_after eqb prev l else a :: dedup_after eqb a l
  end.
Definition dedup {A} (eqb : A → A → bool) (l : list A) : list A :=
  match l with [] => [] | a :: l => a :: dedup_after eqb a l end.

Inductive FinalizeError := FinalizeMerge (e : DirectoryMergeError) | FinalizeInsert (e : DirectoryInsertError).

Section Lazy.
Context {L H : Type} `{EqDecision L, EqDecision H}.
Notation Builder := (DirectoryBuilder L H).

(** [PartialEq] of shared directories is the one of their fingerprints. *)
Definition shared_eqb (d1 d2 : SharedDirectory L H) : bool :=
  bool_decide (dd_fingerprint (sd_data d1) = dd_fingerprint (sd_data d2)).
Definition shared_entry_eqb (e1 e2 : DirectoryEntry (SharedDirectory L H) L) : bool :=
  match e1, e2 with
  | Dir d1, Dir d2 => shared_eqb d1 d2
  | Leaf l1, Leaf l2 => bool_decide (l1 = l2)
  | _, _ => false
  end.

Record LazyDirectoryBuilder := mkLazy {
  lb_builder : Builder;
  lb_to_merge : list (SharedDirectory L H);
  lb_to_insert : list (list string * DirectoryEntry (SharedDirectory L H) L);
}.

Definition LazyDirectoryBuilder_empty : LazyDirectoryBuilder := mkLazy DirectoryBuilder_empty [] [].

(** [faster]: what [faster_directories::is_enabled] says. *)
Definition LazyDirectoryBuilder_merge (faster : bool) (self : LazyDirectoryBuilder) (dir : SharedDirectory L H) :
    outcome (LazyDirectoryBuilder * (unit + DirectoryMergeError)) :=
  if faster then Ok (mkLazy (lb_builder self) (lb_to_merge self ++ [dir]) (lb_to_insert self), inl tt)
  else
    '(builder, r) ← merge_with_compatible_leaves faster (lb_builder self) (SharedDirectory_into_builder dir);
    Ok (mkLazy builder (lb_to_merge self) (lb_to_insert self), r).

Definition LazyDirectoryBuilder_insert (faster : bool) (self : LazyDirectoryBuilder) (path : list string)
    (entry : DirectoryEntry (SharedDirectory L H) L) : LazyDirectoryBuilder * (unit + DirectoryInsertError) :=
  if faster then (mkLazy (lb_builder self) (lb_to_merge self) (lb_to_insert self ++ [(path, entry)]), inl tt)
  else
    let '(builder, r) := DirectoryBuilder_insert (lb_builder self) path (map_dir SharedDirectory_into_builder entry) in
    (mkLazy builder (lb_to_merge self) (lb_to_insert self),
     match r with inl _ => inl tt | inr e => inr e end).

Definition lazy_insert_conflict_is_covered (builder : Builder) (error : DirectoryInsertError)
    (ignore_insert_conflict : L → bool) : bool :=
  match error with
  | InsertCannotTraverseLeaf path =>
      match find builder (PathAccumulator_into_iter path) with
      | inl (Some (Leaf leaf)) => ignore_insert_conflict leaf
      | _ => false
      end
  | EmptyPath => false
  end.

(** The loop over what is to be merged. *)
Fixpoint finalize_merges (faster : bool) (leaf_covers_dir : L → bool) (builder : Builder)
    (to_merge : list (SharedDirectory L H)) : outcome (Builder + FinalizeError) :=
  match to_merge with
  | [] => Ok (inl builder)
  | d :: to_merge =>
      '(builder, r) ← merge_with_compatible_leaves_and_leaf_dir_conflict_handler faster builder
        (SharedDirectory_into_builder d) leaf_covers_dir;
      match r with
      | inl _ => finalize_merges faster leaf_covers_dir builder to_merge
      | inr e => Ok (inr (FinalizeMerge e))
      end
  end.

(** The loop over what is to be inserted. *)
Fixpoint finalize_inserts (ignore_insert_conflict : L → bool) (builder : Builder)
    (to_insert : list (list string * DirectoryEntry (SharedDirectory L H) L)) : Builder + FinalizeError :=
  match to_insert with
  | [] => inl builder
  | (p, e) :: to_insert =>
      let '(builder, r) := DirectoryBuilder_insert builder p (map_dir SharedDirectory_into_builder e) in
      match r with
      | inl _ => finalize_inserts ignore_insert_conflict builder to_insert
      | inr error =>
          if lazy_insert_conflict_is_covered builder error ignore_insert_conflict
          then finalize_inserts ignore_insert_conflict builder to_insert
          else inr (FinalizeInsert error)
      end
  end.

(** The paths are compared as strings. *)
Definition LazyDirectoryBuilder_finalize_with_conflict_handlers (faster : bool) (self : LazyDirectoryBuilder)
    (ignore_insert_conflict leaf_covers_dir : L → bool) : outcome (Builder + FinalizeError) :=
  let to_merge := dedup shared_eqb (sort_by_key (λ d, mkReverse (dd_size (sd_data d))) (lb_to_merge self)) in
  let to_insert :=
    dedup (λ x y, bool_decide (x.1 = y.1) && shared_entry_eqb x.2 y.2)
      (sort_by_key (λ pe, join_with "/" pe.1) (lb_to_insert self)) in
  r ← finalize_merges faster leaf_covers_dir (lb_builder self) to_merge;
  match r with
  | inl builder => Ok (finalize_inserts ignore_insert_conflict builder to_insert)
  | inr e => Ok (inr e)
  end.

Definition LazyDirectoryBuilder_finalize_with_insert_conflict_handler (faster : bool) (self : LazyDirectoryBuilder)
    (ignore_insert_conflict : L → bool) : outcome (Builder + FinalizeError) :=
  LazyDirectoryBuilder_finalize_with_conflict_handlers faster self ignore_insert_conflict (λ _, false).

Definition LazyDirectoryBuilder_finalize (faster : bool) (self : LazyDirectoryBuilder) : outcome (Builder + FinalizeError) :=
  LazyDirectoryBuilder_finalize_with_insert_conflict_handler faster self (λ _, false).
End Lazy.
Arguments LazyDirectoryBuilder : clear implicits.

(** * Deduplication *)

Lemma dedup_after_covers {A} (eqb : A → A → bool) prev l a :
  a ∈ l → ∃ b, (b = prev ∨ b ∈ dedup_after eqb prev l) ∧ (a = b ∨ eqb a b = true).
Proof.
  revert prev. induction l as [|x l IH]; intros prev; [by intros ?%elem_of_nil|]. simpl.
  intros [->|Ha]%elem_of_cons.
  - destruct (eqb x prev) eqn:E; [exists prev; auto|]. exists x. split; [right; by left|by left].
  - destruct (eqb x prev) eqn:E.
    + destruct (IH prev Ha) as (b & Hb & Hab). by exists b.
    + destruct (IH x Ha) as (b & [->|Hb] & Hab).
      * exists x. split; [right; by left|done].
      * exists b. split; [right; by right|done].
Qed.

(** Every element is among those that stay, or equal to one of them. *)
Lemma dedup_covers {A} (eqb : A → A → bool) l a : a ∈ l → ∃ b, b ∈ dedup eqb l ∧ (a = b ∨ eqb a b = true).
Proof.
  destruct l as [|x l]; [by intros ?%elem_of_nil|]. simpl. intros [->|Ha]%elem_of_cons.
  - exists x. split; [by left|by left].
  - destruct (dedup_after_covers eqb x l a Ha) as (b & [->|Hb] & Hab).
    + exists x. split; [by left|done].
    + exists b. split; [by right|done].
Qed.

Lemma dedup_after_sub {A} (eqb : A → A → bool) prev l a : a ∈ dedup_after eqb prev l → a ∈ l.
Proof.
  revert prev. induction l as [|x l IH]; intros prev; [done|]. simpl. destruct (eqb x prev).
  - intros Ha. right. by eapply IH.
  - intros [->|Ha]%elem_of_cons; [by left|right; by eapply IH].
Qed.

Lemma dedup_sub {A} (eqb : A → A → bool) l a : a ∈ dedup eqb l → a ∈ l.
Proof.
  destruct l as [|x l]; [done|]. simpl. intros [->|Ha]%elem_of_cons; [by left|right].
  by eapply dedup_after_sub.
Qed.

(** * Consistent contents *)

Section Spec.
Context {L H : Type} `{EqDecision L, EqDecision H, DirectoryDigester L H, !CollisionFree L H}.
Notation Builder := (DirectoryBuilder L H).
Notation Content := (list string → option (Node L)).

(** Two contents that say the same of the paths that are in both. *)
Definition consistent (n1 n2 : Content) : Prop := ∀ q x y, n1 q = Some x → n2 q = Some y → x = y.

(** All that is in one of the contents, and the root. *)
Definition is_union (b : Builder) (contents : list Content) : Prop :=
  ∀ q x, node_at b q = Some x ↔ (q = [] ∧ x = Dir tt) ∨ ∃ n, n ∈ contents ∧ n q = Some x.

Lemma consistent_agree covers (b1 b2 : Builder) :
  consistent (node_at b1) (node_at b2) → agree covers (node_at b1) (node_at b2).
Proof.
  intros Hc q. specialize (Hc q). destruct (node_at b1 q) as [[]|], (node_at b2 q) as [[]|]; try done;
    specialize (Hc _ _ eq_refl eq_refl); by simplify_eq.
Qed.

Lemma leaf_above_prefix (n : Content) path : leaf_above n path = true → ∃ above, leaf_at_prefix 1 n path above.
Proof.
  revert n. induction path as [|k path IH]; intros n; simpl; [done|]. intros [Hl|Hl]%orb_prop.
  - exists [], (k :: path). destruct (n []) as [[|l]|]; try done. exists l. split_and!; [done|simpl; lia|done].
  - apply IH in Hl as (above & rest & l & -> & Hlen & Hl). exists (k :: above), rest, l. done.
Qed.

(** The merge of consistent directories is their union. *)
Lemma merge_at_union (b1 b2 : Builder) q :
  consistent (node_at b1) (node_at b2) →
  merge_at true (node_at b1) (node_at b2) q = match node_at b1 q with Some x => Some x | None => node_at b2 q end.
Proof.
  intros Hc. assert (Habove : ∀ b b' : Builder, consistent (node_at b) (node_at b') → leaf_above (node_at b) q = true →
    node_at b q = None ∧ node_at b' q = None).
  { intros b b' Hbb Hl. split; [by apply leaf_above_missing|]. apply leaf_above_prefix in Hl as (above & rest & l & -> & Hlen & Hl).
    destruct (node_at b' (above ++ rest)) as [x|] eqn:E; [|done].
    apply node_at_prefix in E; [|by destruct rest; simpl in Hlen; [lia|]]. by specialize (Hbb _ _ _ Hl E). }
  unfold merge_at. destruct (leaf_above (node_at b1) q) eqn:E1; simpl.
  { by destruct (Habove _ _ Hc E1) as [-> ->]. }
  destruct (leaf_above (node_at b2) q) eqn:E2.
  { destruct (Habove b2 b1) as [-> ->]; [|done|done]. intros q' x y Hx Hy. symmetry. by eapply Hc. }
  specialize (Hc q). destruct (node_at b1 q) as [[[]|l]|], (node_at b2 q) as [[[]|l']|]; try done;
    specialize (Hc _ _ eq_refl eq_refl); by simplify_eq.
Qed.

(** What the insertion of a leaf contributes. *)
Definition leaf_content (path : list string) (l : L) : Content :=
  grafted (node_at (H:=H) DirectoryBuilder_empty) path (Leaf (D:=Builder) l).

Lemma strip_path_above (q rest : list string) : rest ≠ [] → strip_path (q ++ rest) q = None.
Proof.
  intros Hne. apply strip_path_None. intros rest' Heq. rewrite <- app_assoc, <- (app_nil_r q) in Heq at 1.
  apply app_inv_head in Heq. by destruct rest.
Qed.

Lemma leaf_content_at path rest l :
  leaf_content path l (path ++ rest) = match rest with [] => Some (Leaf l) | _ => None end.
Proof. unfold leaf_content, grafted. by rewrite (proj2 (strip_path_Some path (path ++ rest) rest) eq_refl). Qed.

Lemma leaf_content_above q rest l : rest ≠ [] → leaf_content (q ++ rest) l q = Some (Dir tt).
Proof.
  intros Hne. unfold leaf_content, grafted. rewrite strip_path_above by done.
  by rewrite (proj2 (strip_path_Some q (q ++ rest) rest) eq_refl).
Qed.

Lemma leaf_content_other path q l : strip_path path q = None → strip_path q path = None → leaf_content path l q = None.
Proof.
  intros E1 E2. unfold leaf_content, grafted. rewrite E1, E2, node_at_empty. destruct q; [|done]. by destruct path.
Qed.

Lemma insert_consistent (b : Builder) path l :
  builder_wf b → path ≠ [] → consistent (node_at b) (leaf_content path l) →
  ∃ b' old, DirectoryBuilder_insert b path (Leaf l) = (b', inl old) ∧ builder_wf b' ∧
    ∀ q, node_at b' q = match node_at b q with Some x => Some x | None => leaf_content path l q end.
Proof.
  intros Hb Hpath Hc. destruct (insert_spec b path (Leaf l) Hb I Hpath) as (b' & r & -> & Hwf & Hr). simpl in *.
  destruct r as [old|acc].
  - destruct Hr as (_ & _ & Hq). exists b', old. split_and!; [done|done|]. intros q. rewrite Hq. unfold grafted.
    destruct (strip_path path q) as [rest|] eqn:E1; [|destruct (strip_path q path) as [rest|] eqn:E2].
    + apply strip_path_Some in E1 as ->. rewrite leaf_content_at.
      destruct (node_at b (path ++ rest)) as [x|] eqn:Hx; [|by destruct rest]. destruct rest as [|k rest]; simpl.
      * symmetry. f_equal. eapply Hc; [exact Hx|]. by rewrite leaf_content_at.
      * apply node_at_prefix in Hx; [|done]. exfalso. rewrite <- (app_nil_r path) in Hx.
        specialize (Hc _ _ (Leaf l) Hx). rewrite leaf_content_at in Hc. by specialize (Hc eq_refl).
    + apply strip_path_Some in E2 as ->. assert (Hne : rest ≠ []).
      { intros ->. rewrite app_nil_r in E1. apply (proj1 (strip_path_None _ _) E1 []). by rewrite app_nil_r. }
      rewrite leaf_content_above by done. destruct (node_at b q) as [x|] eqn:Hx; [|done].
      symmetry. f_equal. eapply Hc; [exact Hx|]. by apply leaf_content_above.
    + rewrite leaf_content_other by done. by destruct (node_at b q).
  - destruct Hr as ((rest & l' & -> & Hlen & Hl) & _). exfalso.
    specialize (Hc _ _ (Dir tt) Hl). rewrite leaf_content_above in Hc by (by destruct rest; simpl in Hlen; [lia|]).
    by specialize (Hc eq_refl).
Qed.

(** * Unions *)

Lemma is_union_empty : is_union DirectoryBuilder_empty [].
Proof.
  intros q x. rewrite node_at_empty. split.
  - destruct q; [intros [= <-]; by left|done].
  - intros [[-> ->]|(n & ?%elem_of_nil & _)]; done.
Qed.

Lemma is_union_add (b b' : Builder) contents n :
  is_union b contents → (∀ q, node_at b' q = match node_at b q with Some x => Some x | None => n q end) →
  consistent (node_at b) n → is_union b' (n :: contents).
Proof.
  intros Hb Hq Hc q x. rewrite Hq. split.
  - destruct (node_at b q) as [y|] eqn:Hy.
    + intros [= ->]. apply Hb in Hy as [?|(n' & ? & ?)]; [by left|right]. exists n'. split; [by right|done].
    + intros Hn. right. exists n. split; [by left|done].
  - intros Hx. destruct (node_at b q) as [y|] eqn:Hy.
    + f_equal. destruct Hx as [Hroot|(n' & [->|Hin]%elem_of_cons & Hn')]; [| |].
      * assert (Hx : node_at b q = Some x) by (apply Hb; by left). congruence.
      * by eapply Hc.
      * assert (Hx : node_at b q = Some x) by (apply Hb; right; by exists n'). congruence.
    + destruct Hx as [Hroot|(n' & [->|Hin]%elem_of_cons & Hn')]; [|done|].
      * assert (Hx : node_at b q = Some x) by (apply Hb; by left). congruence.
      * assert (Hx : node_at b q = Some x) by (apply Hb; right; by exists n'). congruence.
Qed.

(** A content that is consistent with all of a union, and has a directory at its root. *)
Lemma is_union_consistent (b : Builder) contents n :
  is_union b contents → n [] = Some (Dir tt) → (∀ n', n' ∈ contents → consistent n' n) → consistent (node_at b) n.
Proof.
  intros Hb Hroot Hall q x y Hx Hy. apply Hb in Hx as [[-> ->]|(n' & Hin & Hn')].
  - congruence.
  - by eapply Hall.
Qed.

(** Unions of the same contents are the same. *)
Lemma is_union_equiv (b1 b2 : Builder) c1 c2 :
  is_union b1 c1 → is_union b2 c2 → (∀ q x, (∃ n, n ∈ c1 ∧ n q = Some x) ↔ ∃ n, n ∈ c2 ∧ n q = Some x) → b1 ≡ b2.
Proof. intros H1 H2 Heq q. apply option_eq. intros x. by rewrite (H1 q x), (H2 q x), Heq. Qed.

Lemma is_union_ext (b : Builder) c1 c2 :
  is_union b c1 → (∀ q x, (∃ n, n ∈ c1 ∧ n q = Some x) ↔ ∃ n, n ∈ c2 ∧ n q = Some x) → is_union b c2.
Proof. intros H1 Heq q x. by rewrite (H1 q x), Heq. Qed.

(** * Finalization *)

Definition shared_content (d : SharedDirectory L H) : Content := node_at (SharedDirectory_into_builder d).

Lemma shared_into_builder_wf (d : SharedDirectory L H) : shared_wf d → builder_wf (SharedDirectory_into_builder d).
Proof. by do 2 constructor. Qed.

Lemma merge_union faster covers (b : Builder) contents d :
  builder_wf b → is_union b contents → shared_wf d → (∀ n, n ∈ contents → consistent n (shared_content d)) →
  ∃ b', merge_with_compatible_leaves_and_leaf_dir_conflict_handler faster b (SharedDirectory_into_builder d) covers =
      Ok (b', inl tt) ∧ builder_wf b' ∧ is_union b' (shared_content d :: contents).
Proof.
  intros Hb Hu Hd Hall. assert (Hc : consistent (node_at b) (shared_content d)) by by eapply is_union_consistent.
  destruct (merge_compatible_spec faster covers b (SharedDirectory_into_builder d) Hb (shared_into_builder_wf d Hd)
    (consistent_agree covers _ _ Hc)) as (b' & Heq & Hb' & Hq).
  exists b'. split_and!; [done|done|]. eapply is_union_add; [done| |done]. intros q. rewrite Hq. by apply merge_at_union.
Qed.

Lemma finalize_merges_spec faster covers ds (b : Builder) contents :
  builder_wf b → is_union b contents → Forall shared_wf ds →
  (∀ n d, n ∈ contents ++ map shared_content ds → d ∈ ds → consistent n (shared_content d)) →
  ∃ b', finalize_merges faster covers b ds = Ok (inl b') ∧ builder_wf b' ∧
    is_union b' (rev (map shared_content ds) ++ contents).
Proof.
  revert b contents. induction ds as [|d ds IH]; intros b contents Hb Hu Hds Hc; [by exists b|].
  apply Forall_cons in Hds as [Hd Hds]. simpl.
  destruct (merge_union faster covers b contents d Hb Hu Hd) as (b' & -> & Hb' & Hu').
  { intros n Hn. apply Hc; [apply elem_of_app; by left|by left]. }
  simpl. destruct (IH b' (shared_content d :: contents) Hb' Hu' Hds) as (b'' & Heq & Hb'' & Hu'').
  { intros n d' Hn Hd'. apply Hc; [|by right]. simpl. set_solver. }
  exists b''. split_and!; [done|done|]. by rewrite <- app_assoc.
Qed.

(** The leaves to be inserted. *)
Definition is_leaf_insert (pe : list string * DirectoryEntry (SharedDirectory L H) L) : Prop :=
  pe.1 ≠ [] ∧ ∃ l, pe.2 = Leaf l.
Definition insert_content (pe : list string * DirectoryEntry (SharedDirectory L H) L) : Content :=
  match pe.2 with Leaf l => leaf_content pe.1 l | Dir _ => λ _, None end.

Lemma leaf_content_root path l : path ≠ [] → leaf_content path l [] = Some (Dir tt).
Proof. intros Hp. by apply (leaf_content_above [] path). Qed.

Lemma finalize_inserts_spec ignore ins (b : Builder) contents :
  builder_wf b → is_union b contents → Forall is_leaf_insert ins →
  (∀ n pe, n ∈ contents ++ map insert_content ins → pe ∈ ins → consistent n (insert_content pe)) →
  ∃ b', finalize_inserts ignore b ins = inl b' ∧ builder_wf b' ∧ is_union b' (rev (map insert_content ins) ++ contents).
Proof.
  revert b contents. induction ins as [|[p e] ins IH]; intros b contents Hb Hu His Hc; [by exists b|].
  apply Forall_cons in His as [[Hp [l Hl]] His]. simpl in Hp, Hl. subst. simpl.
  assert (Hbc : consistent (node_at b) (leaf_content p l)).
  { eapply is_union_consistent; [done|by apply leaf_content_root|]. intros n Hn.
    apply (Hc n (p, Leaf l)); [apply elem_of_app; by left|by left]. }
  destruct (insert_consistent b p l Hb Hp Hbc) as (b' & old & -> & Hb' & Hq).
  destruct (IH b' (leaf_content p l :: contents) Hb' (is_union_add _ _ _ _ Hu Hq Hbc) His) as (b'' & Heq & Hb'' & Hu'').
  { intros n pe Hn Hpe. apply Hc; [|by right]. simpl. set_solver. }
  exists b''. split_and!; [done|done|]. by rewrite <- app_assoc.
Qed.

(** * Building *)

(** What is asked of a lazy builder: a directory to merge or a leaf to insert. *)
Inductive LazyOp := OpMerge (d : SharedDirectory L H) | OpInsert (path : list string) (l : L).

Definition op_wf (op : LazyOp) : Prop := match op with OpMerge d => shared_wf d | OpInsert path _ => path ≠ [] end.
Definition op_content (op : LazyOp) : Content :=
  match op with OpMerge d => shared_content d | OpInsert path l => leaf_content path l end.

Fixpoint lazy_ops (faster : bool) (self : LazyDirectoryBuilder L H) (ops : list LazyOp) :
    outcome (LazyDirectoryBuilder L H + FinalizeError) :=
  match ops with
  | [] => Ok (inl self)
  | OpMerge d :: ops =>
      '(self, r) ← LazyDirectoryBuilder_merge faster self d;
      match r with inl _ => lazy_ops faster self ops | inr e => Ok (inr (FinalizeMerge e)) end
  | OpInsert path l :: ops =>
      let '(self, r) := LazyDirectoryBuilder_insert faster self path (Leaf l) in
      match r with inl _ => lazy_ops faster self ops | inr e => Ok (inr (FinalizeInsert e)) end
  end.

(** Building a directory with a lazy builder. *)
Definition lazy_build (faster : bool) (ops : list LazyOp) (ignore_insert_conflict leaf_covers_dir : L → bool) :
    outcome (Builder + FinalizeError) :=
  self ← lazy_ops faster LazyDirectoryBuilder_empty ops;
  match self with
  | inl self =>
      LazyDirectoryBuilder_finalize_with_conflict_handlers faster self ignore_insert_conflict leaf_covers_dir
  | inr e => Ok (inr e)
  end.

(** The contents that a lazy builder holds. *)
Definition lazy_contents (contents : list Content) (self : LazyDirectoryBuilder L H) : list Content :=
  map insert_content (lb_to_insert self) ++ map shared_content (lb_to_merge self) ++ contents.

Definition lazy_inv (done : list LazyOp) (self : LazyDirectoryBuilder L H) : Prop :=
  ∃ contents, builder_wf (lb_builder self) ∧ is_union (lb_builder self) contents ∧
    Forall shared_wf (lb_to_merge self) ∧ Forall is_leaf_insert (lb_to_insert self) ∧
    ∀ n, n ∈ lazy_contents contents self ↔ n ∈ map op_content done.

Definition all_consistent (ops : list LazyOp) : Prop :=
  ∀ op op', op ∈ ops → op' ∈ ops → consistent (op_content op) (op_content op').

Lemma lazy_inv_consistent ops done self n op :
  lazy_inv done self → all_consistent ops → (∀ op, op ∈ done → op ∈ ops) → op ∈ ops →
  n ∈ map op_content done → consistent n (op_content op).
Proof. intros _ Hall Hsub Hop (op' & -> & Hop')%list_elem_of_fmap. apply Hall; [by apply Hsub|done]. Qed.

Lemma elem_of_snoc {A} (l : list A) (x y : A) : y ∈ l ++ [x] ↔ y = x ∨ y ∈ l.
Proof. rewrite elem_of_app, list_elem_of_singleton. tauto. Qed.

Lemma lazy_merge_spec faster ops done self d :
  lazy_inv done self → all_consistent ops → (∀ op, op ∈ done ++ [OpMerge d] → op ∈ ops) → shared_wf d →
  ∃ self', LazyDirectoryBuilder_merge faster self d = Ok (self', inl tt) ∧ lazy_inv (done ++ [OpMerge d]) self'.
Proof.
  intros (contents & Hb & Hu & Hm & Hi & Helem) Hall Hsub Hd. unfold LazyDirectoryBuilder_merge. destruct faster.
  - eexists. split; [done|]. exists contents. simpl. split_and!; [done|done|by apply Forall_app; auto|done|].
    intros n. rewrite map_app. simpl. rewrite elem_of_snoc, <- Helem. unfold lazy_contents. simpl.
    rewrite map_app, !elem_of_app. simpl. rewrite list_elem_of_singleton. tauto.
  - destruct (merge_union false (λ _, false) (lb_builder self) contents d Hb Hu Hd) as (b' & Heq & Hb' & Hu').
    { intros n Hn. assert (Hn' : n ∈ map op_content done).
      { apply Helem. unfold lazy_contents. rewrite !elem_of_app. tauto. }
      apply list_elem_of_fmap in Hn' as (op & -> & Hop).
      apply (Hall op (OpMerge d)); apply Hsub; rewrite elem_of_snoc; auto. }
    unfold merge_with_compatible_leaves. rewrite Heq. simpl. eexists. split; [done|].
    exists (shared_content d :: contents). simpl. split_and!; [done|done|done|done|].
    intros n. rewrite map_app. simpl. rewrite elem_of_snoc, <- Helem. unfold lazy_contents. simpl.
    rewrite !elem_of_app, elem_of_cons. tauto.
Qed.

Lemma lazy_insert_spec faster ops done self path l :
  lazy_inv done self → all_consistent ops → (∀ op, op ∈ done ++ [OpInsert path l] → op ∈ ops) → path ≠ [] →
  ∃ self', LazyDirectoryBuilder_insert faster self path (Leaf l) = (self', inl tt) ∧
    lazy_inv (done ++ [OpInsert path l]) self'.
Proof.
  intros (contents & Hb & Hu & Hm & Hi & Helem) Hall Hsub Hp. unfold LazyDirectoryBuilder_insert. destruct faster.
  - eexists. split; [done|]. exists contents. simpl. split_and!; [done|done|done| |].
    { apply Forall_app. split; [done|]. constructor; [|constructor]. split; [done|]. by exists l. }
    intros n. rewrite map_app. simpl. rewrite elem_of_snoc, <- Helem. unfold lazy_contents. simpl.
    rewrite map_app, !elem_of_app. simpl. rewrite list_elem_of_singleton. tauto.
  - assert (Hc : consistent (node_at (lb_builder self)) (leaf_content path l)).
    { eapply is_union_consistent; [done|by apply leaf_content_root|]. intros n Hn.
      assert (Hn' : n ∈ map op_content done).
      { apply Helem. unfold lazy_contents. rewrite !elem_of_app. tauto. }
      apply list_elem_of_fmap in Hn' as (op & -> & Hop).
      apply (Hall op (OpInsert path l)); apply Hsub; rewrite elem_of_snoc; auto. }
    simpl. destruct (insert_consistent (lb_builder self) path l Hb Hp Hc) as (b' & old & -> & Hb' & Hq).
    eexists. split; [done|]. exists (leaf_content path l :: contents). simpl.
    split_and!; [done|by eapply is_union_add|done|done|].
    intros n. rewrite map_app. simpl. rewrite elem_of_snoc, <- Helem. unfold lazy_contents. simpl.
    rewrite !elem_of_app, elem_of_cons. tauto.
Qed.

Lemma lazy_ops_spec faster all ops done self :
  lazy_inv done self → all_consistent all → (∀ op, op ∈ done ++ ops → op ∈ all) → Forall op_wf ops →
  ∃ self', lazy_ops faster self ops = Ok (inl self') ∧ lazy_inv (done ++ ops) self'.
Proof.
  revert done self. induction ops as [|op ops IH]; intros done self Hinv Hall Hsub Hwf.
  { exists self. by rewrite app_nil_r. }
  apply Forall_cons in Hwf as [Hop Hwf].
  assert (Hsub' : ∀ op', op' ∈ done ++ [op] → op' ∈ all).
  { intros op' Hin. apply Hsub. rewrite elem_of_snoc in Hin. rewrite elem_of_app, elem_of_cons. tauto. }
  destruct op as [d|path l]; simpl in *.
  - destruct (lazy_merge_spec faster all done self d Hinv Hall Hsub' Hop) as (self' & -> & Hinv'). simpl.
    destruct (IH _ self' Hinv' Hall) as (self'' & Heq & Hinv''); [by rewrite <- app_assoc|done|].
    exists self''. by rewrite <- app_assoc in Hinv''.
  - destruct (lazy_insert_spec faster all done self path l Hinv Hall Hsub' Hop) as (self' & -> & Hinv').
    destruct (IH _ self' Hinv' Hall) as (self'' & Heq & Hinv''); [by rewrite <- app_assoc|done|].
    exists self''. by rewrite <- app_assoc in Hinv''.
Qed.

Lemma contents_consistent ops n op :
  all_consistent ops → n ∈ map op_content ops → op ∈ map op_content ops → consistent n op.
Proof. intros Hall (o1 & -> & H1)%list_elem_of_fmap (o2 & -> & H2)%list_elem_of_fmap. by apply Hall. Qed.

(** Directories with the same fingerprint have the same content. *)
Lemma shared_eqb_content d1 d2 : shared_wf d1 → shared_wf d2 → shared_eqb d1 d2 = true → ∀ q, shared_content d1 q = shared_content d2 q.
Proof.
  intros H1 H2 Heq%bool_decide_eq_true q.
  apply (fingerprint_equiv (Shared d1) (Shared d2)); [by constructor..|done].
Qed.

(** What deduplication leaves says the same. *)
Lemma dedup_contents {A} (eqb : A → A → bool) (content : A → Content) (l l' : list A) (P : A → Prop) :
  l ≡ₚ l' → Forall P l → (∀ a b q, P a → P b → eqb a b = true → content a q = content b q) →
  (∀ a, a ∈ dedup eqb l' → a ∈ l) ∧
  ∀ a q x, a ∈ l → content a q = Some x → ∃ b, b ∈ dedup eqb l' ∧ content b q = Some x.
Proof.
  intros Hperm Hl Heqb. assert (Hsub : ∀ a, a ∈ dedup eqb l' → a ∈ l) by (intros a Ha%dedup_sub; by rewrite Hperm).
  split; [done|]. intros a q x Ha Hx. rewrite Forall_forall in Hl.
  destruct (dedup_covers eqb l' a) as (b & Hb & [->|Hab]); [by rewrite <- Hperm| |]; exists b; (split; [done|]); [done|].
  rewrite <- Hx. symmetry. apply Heqb; [by apply Hl|by apply Hl, Hsub|done].
Qed.

Lemma elem_of_rev {A} (l : list A) (x : A) : x ∈ rev l ↔ x ∈ l.
Proof. by rewrite !list_elem_of_In, <- in_rev. Qed.

Lemma elem_of_map {A B} (f : A → B) (l : list A) (y : B) : y ∈ map f l ↔ ∃ x, x ∈ l ∧ y = f x.
Proof. rewrite list_elem_of_fmap. naive_solver. Qed.

Lemma insert_eqb_content (pe1 pe2 : list string * DirectoryEntry (SharedDirectory L H) L) q :
  is_leaf_insert pe1 → is_leaf_insert pe2 →
  bool_decide (pe1.1 = pe2.1) && shared_entry_eqb pe1.2 pe2.2 = true → insert_content pe1 q = insert_content pe2 q.
Proof.
  destruct pe1 as [p1 e1], pe2 as [p2 e2]. intros [_ [l1 H1]] [_ [l2 H2]]. simpl in *. subst. simpl.
  intros [Hp%bool_decide_eq_true Hl%bool_decide_eq_true]%andb_prop. by subst.
Qed.

Lemma finalize_spec faster ignore covers done self :
  lazy_inv done self → all_consistent done →
  ∃ b, LazyDirectoryBuilder_finalize_with_conflict_handlers faster self ignore covers = Ok (inl b) ∧
    builder_wf b ∧ is_union b (map op_content done).
Proof.
  intros (contents & Hb & Hu & Hm & Hi & Helem) Hall. unfold LazyDirectoryBuilder_finalize_with_conflict_handlers.
  set (ds := dedup _ (sort_by_key _ (lb_to_merge self))). set (ins := dedup _ (sort_by_key _ (lb_to_insert self))).
  destruct (dedup_contents shared_eqb shared_content (lb_to_merge self) _ shared_wf
    (symmetry (sort_by_key_perm (λ d, mkReverse (dd_size (sd_data d))) (lb_to_merge self))) Hm) as [Hds Hds'].
  { intros d1 d2 q H1 H2 Heq. by apply shared_eqb_content. }
  destruct (dedup_contents (λ x y, bool_decide (x.1 = y.1) && shared_entry_eqb x.2 y.2) insert_content
    (lb_to_insert self) _ is_leaf_insert
    (symmetry (sort_by_key_perm (λ pe, join_with "/" pe.1) (lb_to_insert self))) Hi) as [Hins Hins'].
  { intros pe1 pe2 q. apply insert_eqb_content. }
  fold ds in Hds, Hds'. fold ins in Hins, Hins'.
  assert (Hsub : ∀ n, n ∈ map insert_content ins ++ map shared_content ds ++ contents → n ∈ map op_content done).
  { intros n Hn. apply Helem. unfold lazy_contents. rewrite !elem_of_app in *. setoid_rewrite elem_of_map in Hn.
    setoid_rewrite elem_of_map. naive_solver. }
  assert (Hcons : ∀ n n', n ∈ map insert_content ins ++ map shared_content ds ++ contents →
    n' ∈ map insert_content ins ++ map shared_content ds ++ contents → consistent n n').
  { intros n n' H1%Hsub H2%Hsub. by eapply contents_consistent. }
  assert (Hwf : Forall shared_wf ds).
  { apply Forall_forall. intros d Hd%Hds. rewrite Forall_forall in Hm. by apply Hm. }
  assert (Hleaf : Forall is_leaf_insert ins).
  { apply Forall_forall. intros pe Hpe%Hins. rewrite Forall_forall in Hi. by apply Hi. }
  destruct (finalize_merges_spec faster covers ds (lb_builder self) contents Hb Hu Hwf) as (b & -> & Hbwf & Hbu).
  { intros n d Hn Hd. apply Hcons; rewrite !elem_of_app in *; [tauto|right; left; by apply list_elem_of_fmap_2]. }
  simpl. destruct (finalize_inserts_spec ignore ins b _ Hbwf Hbu Hleaf) as (b' & -> & Hbwf' & Hbu').
  { intros n pe Hn Hpe. apply Hcons; rewrite !elem_of_app in *; [|left; by apply list_elem_of_fmap_2].
    rewrite elem_of_rev in Hn. tauto. }
  exists b'. split_and!; [done|done|]. eapply is_union_ext; [exact Hbu'|]. intros q x.
  setoid_rewrite elem_of_app. setoid_rewrite elem_of_app. setoid_rewrite elem_of_rev. split.
  - intros (n & Hn & Hx). exists n. split; [|done]. apply Hsub. rewrite !elem_of_app. tauto.
  - intros (n & Hn & Hx). apply Helem in Hn. unfold lazy_contents in Hn. rewrite !elem_of_app in Hn.
    destruct Hn as [(pe & Hpe & ->)%elem_of_map|[(d & Hd & ->)%elem_of_map|Hn]].
    + destruct (Hins' pe q x Hpe Hx) as (pe' & Hpe' & Hx'). exists (insert_content pe'). split; [|done].
      left. by apply list_elem_of_fmap_2.
    + destruct (Hds' d q x Hd Hx) as (d' & Hd' & Hx'). exists (shared_content d'). split; [|done].
      right. left. by apply list_elem_of_fmap_2.
    + exists n. tauto.
Qed.
End Spec.

Section Correct.
Context {L H : Type} `{EqDecision L, EqDecision H, DirectoryDigester L H, !CollisionFree L H}.

(** C15. A lazy builder that is asked to merge directories and insert leaves that do not contradict each
    other builds the directory with all of them, whatever the order and the repetitions, and whether it
    collects them or applies them at once. *)
Theorem lazy_builder_correct (ops : list (LazyOp (L:=L) (H:=H))) (ignore covers : L → bool) :
  Forall op_wf ops → all_consistent ops →
  ∃ b b',
    lazy_build true ops ignore covers = Ok (inl b) ∧ lazy_build false ops ignore covers = Ok (inl b') ∧
    builder_wf b ∧ builder_wf b' ∧ b ≡ b' ∧
    ∀ q x, node_at b q = Some x ↔ (q = [] ∧ x = Dir tt) ∨ ∃ op, op ∈ ops ∧ op_content op q = Some x.
Proof.
  intros Hwf Hall.
  assert (Hbuild : ∀ faster, ∃ b, lazy_build faster ops ignore covers = Ok (inl b) ∧ builder_wf b ∧ is_union b (map op_content ops)).
  { intros faster. unfold lazy_build.
    destruct (lazy_ops_spec faster ops ops [] LazyDirectoryBuilder_empty) as (self & -> & Hinv); [|done..|].
    - exists []. split_and!; [apply builder_empty_wf|apply is_union_empty|done|done|]. done.
    - simpl. by apply finalize_spec. }
  destruct (Hbuild true) as (b & Hb & Hbwf & Hu), (Hbuild false) as (b' & Hb' & Hbwf' & Hu').
  exists b, b'. split_and!; [done|done|done|done|by eapply is_union_equiv|].
  intros q x. rewrite (Hu q x). setoid_rewrite elem_of_map. naive_solver.
Qed.
End Correct.

(** * Examples *)

(** The shared directory with the one file [c] in [a]. *)
Notation shared_c := (mkShared 1 (mkData [("c", Leaf (D:=SharedDirectory string TestDigest) "2")] 1%N
  (hash_entries [("c", Leaf (D:=ImmutableDirectory string TestDigest) "2")]))).
Notation shared_a := (mkShared 2 (mkData [("a", Dir (L:=string) shared_c)] 1%N
  (hash_entries [("a", Dir (L:=string) (Shared shared_c))]))).

Lemma shared_a_wf : shared_wf (L:=string) shared_a.
Proof.
  constructor.
  - split; [repeat constructor|reflexivity].
  - intros k c [[= -> ->]|Hin]%elem_of_cons; [|by apply elem_of_nil in Hin]. constructor.
    + split; [repeat constructor|reflexivity].
    + intros k' c' [[= ]|Hin]%elem_of_cons. by apply elem_of_nil in Hin.
Qed.

Lemma consistent_refl {L} (n : list string → option (Node L)) : consistent n n.
Proof. intros q x y Hx Hy. congruence. Qed.
Lemma consistent_sym {L} (n1 n2 : list string → option (Node L)) : consistent n1 n2 → consistent n2 n1.
Proof. intros Hc q x y Hx Hy. symmetry. by eapply Hc. Qed.

Lemma leaf_shared_consistent : consistent (op_content (H:=TestDigest) (OpInsert ["a"; "b"] "1")) (op_content (OpMerge shared_a)).
Proof.
  intros [|k1 [|k2 [|k3 q]]] x y; simpl; unfold leaf_content, grafted, shared_content; rewrite ?node_at_cons; simpl;
    unfold DirectoryBuilder_get; simpl; repeat case_decide; simpl; try congruence; subst; simpl; try congruence;
    vm_compute; congruence.
Qed.

(** [a/b] is inserted and a directory with [a/c] is merged, twice ([test_smoke]). *)
Lemma lazy_builder_correct_witness :
  ∃ b, lazy_build true [OpInsert ["a"; "b"] "1"; OpMerge shared_a; OpMerge shared_a] (λ _, false) (λ _, false) = Ok (inl b) ∧
    node_at b ["a"; "b"] = Some (Leaf "1") ∧ node_at b ["a"; "c"] = Some (Leaf "2").
Proof.
  destruct (lazy_builder_correct [OpInsert ["a"; "b"] "1"; OpMerge shared_a; OpMerge shared_a] (λ _, false) (λ _, false))
    as (b & b' & Hb & _ & _ & _ & _ & Hu).
  - constructor; [done|]. constructor; [exact shared_a_wf|]. constructor; [exact shared_a_wf|constructor].
  - intros op op'. rewrite !elem_of_cons, !elem_of_nil.
    intros [->|[->|[->|[]]]] [->|[->|[->|[]]]]; try apply consistent_refl;
      first [exact leaf_shared_consistent|exact (consistent_sym _ _ leaf_shared_consistent)].
  - exists b. split; [exact Hb|]. split; apply Hu; right.
    + exists (OpInsert ["a"; "b"] "1"). split; [by left|reflexivity].
    + exists (OpMerge shared_a). split; [right; by left|reflexivity].
Defined.
