(* ===== verification/DirInterner.v ===== *)
(** The interner of shared directories ([src/app/bz_directory/src/directory/dashmap_directory_interner.rs],
    [ExclusiveDirectory::shared]): directories with the same fingerprint are shared, as long as one of them is
    alive.

    Each operation on the map is atomic, the map being locked for it.  The last release of a directory and the
    call of [dropped] that it causes are two steps, between which others can come. *)
From stdpp Require Import gmap list strings sorting countable.
From S2P Require Import Prelude.
From S2P Require Import RustOrd.
From S2P Require Import DirData.
From S2P Require Import DirSpec.
From S2P Require Import DirBuilder.
From S2P Require Import DirBuilderSpec.
From S2P Require Import DirFingerprint.
From S2P Require Import DirBuilderCorrect.
From S2P Require Import DirWalk.
From S2P Require Import DirWalkSpec.
Local Open Scope dice_scope.
Local Open Scope string_scope.
Local Open Scope nat_scope.
Local Open Scope list_scope.

Section Interner.
Context {L H : Type} `{Countable H}.
Notation Data := (DirectoryData (SharedDirectory L H) L H).

(** The map from fingerprints to weak pointers; the directories that are alive (their strong count is not
    zero); the ones that are not, and for which [dropped] has not run; the next new address. *)
Record Interner := mkInterner {
  in_inner : gmap H nat;
  in_live : gmap nat (SharedDirectory L H);
  in_dying : gmap nat (SharedDirectory L H);
  in_next : nat;
}.

Definition Interner_new : Interner := mkInterner ∅ ∅ ∅ 0.
Definition Interner_len (self : Interner) : nat := size (in_inner self).
Definition Interner_is_empty (self : Interner) : bool := bool_decide (in_inner self = ∅).

(** [Weak::upgrade] *)
Definition upgrade (self : Interner) (weak : nat) : option (SharedDirectory L H) := in_live self !! weak.

Definition Interner_get (self : Interner) (fingerprint : H) : option (SharedDirectory L H) :=
  weak ← in_inner self !! fingerprint; upgrade self weak.

(** [Arc::new], and the insertion of a weak pointer to it. *)
Definition insert_new (self : Interner) (data : Data) : SharedDirectory L H * Interner :=
  let new_inner := mkShared (in_next self) data in
  (new_inner,
   mkInterner (<[dd_fingerprint data := in_next self]> (in_inner self))
     (<[in_next self := new_inner]> (in_live self)) (in_dying self) (S (in_next self))).

Definition Interner_intern (self : Interner) (data : Data) : SharedDirectory L H * Interner :=
  match in_inner self !! dd_fingerprint data with
  | Some weak =>
      match upgrade self weak with
      | Some inner => (inner, self)
      | None => insert_new self data
      end
  | None => insert_new self data
  end.

(** The last strong pointer to a directory is released. *)
Definition Interner_release (self : Interner) (addr : nat) : Interner :=
  match in_live self !! addr with
  | Some d => mkInterner (in_inner self) (delete addr (in_live self)) (<[addr := d]> (in_dying self)) (in_next self)
  | None => self
  end.

(** [dropped], called when a directory is dropped. *)
Definition Interner_dropped (self : Interner) (addr : nat) : Interner :=
  match in_dying self !! addr with
  | Some d =>
      let fingerprint := dd_fingerprint (sd_data d) in
      let inner :=
        match in_inner self !! fingerprint with
        | Some weak => if upgrade self weak then in_inner self else delete fingerprint (in_inner self)
        | None => in_inner self
        end in
      mkInterner inner (in_live self) (delete addr (in_dying self)) (in_next self)
  | None => self
  end.

(** Share the directories among entries, in order. *)
Definition share_entries (share : ImmutableDirectory L H → Interner → SharedDirectory L H * Interner) :=
  fix go (es : list (string * DirectoryEntry (ImmutableDirectory L H) L)) (interner : Interner) :
      list (string * DirectoryEntry (SharedDirectory L H) L) * Interner :=
    match es with
    | [] => ([], interner)
    | (k, v) :: es =>
        let '(v, interner) :=
          match v with
          | Dir d => let '(d, interner) := share d interner in (Dir d, interner)
          | Leaf l => (Leaf l, interner)
          end in
        let '(es, interner) := go es interner in
        ((k, v) :: es, interner)
    end.

(** [ImmutableDirectory::shared], [ExclusiveDirectory::shared] *)
Fixpoint ImmutableDirectory_shared (self : ImmutableDirectory L H) (interner : Interner) : SharedDirectory L H * Interner :=
  match self with
  | Shared dir => (dir, interner)
  | Exclusive data =>
      match Interner_get interner (dd_fingerprint data) with
      | Some shared => (shared, interner)
      | None =>
          let '(entries, interner) := share_entries ImmutableDirectory_shared (dd_entries data) interner in
          Interner_intern interner (mkData (svm_collect entries) (dd_size data) (dd_fingerprint data))
      end
  end.

Context `{DirectoryDigester L H}.

(** The steps of the interner: interning a well-formed directory, the last release, and the drop.  Any
    directory that is alive may be released, which allows more than the program does: what is proved holds
    whoever else holds the directory. *)
Inductive interner_step (st : Interner) : Interner → Prop :=
| step_intern data : shared_wf (mkShared 0 data) → interner_step st (Interner_intern st data).2
| step_release addr : interner_step st (Interner_release st addr)
| step_dropped addr : interner_step st (Interner_dropped st addr).

Definition interner_reachable : Interner → Prop := rtc interner_step Interner_new.

(** * The invariant *)

Record interner_inv (st : Interner) : Prop := {
  inv_live a d : in_live st !! a = Some d →
    sd_addr d = a ∧ shared_wf d ∧ in_inner st !! dd_fingerprint (sd_data d) = Some a;
  inv_dying a d : in_dying st !! a = Some d → sd_addr d = a ∧ in_live st !! a = None;
  inv_inner f a : in_inner st !! f = Some a →
    ∃ d, (in_live st !! a = Some d ∨ in_dying st !! a = Some d) ∧ dd_fingerprint (sd_data d) = f;
  inv_next a : in_next st ≤ a → in_live st !! a = None ∧ in_dying st !! a = None;
}.

Lemma interner_inv_new : interner_inv Interner_new.
Proof. by split. Qed.

Lemma shared_wf_addr a a' (data : Data) : shared_wf (mkShared a data) → shared_wf (mkShared a' data).
Proof. inversion 1; subst. by constructor. Qed.

Lemma insert_new_inv st data :
  interner_inv st → shared_wf (mkShared 0 data) →
  (∀ a, in_inner st !! dd_fingerprint data = Some a → in_live st !! a = None) →
  interner_inv (insert_new st data).2.
Proof.
  intros [Hlive Hdying Hinner Hnext] Hwf Hdead. destruct (Hnext (in_next st) ltac:(lia)) as [Hn1 Hn2].
  split; simpl.
  - intros a d. rewrite lookup_insert_Some. intros [[<- <-]|[Hne Ha]].
    + split_and!; [done|by eapply shared_wf_addr|]. simpl. by rewrite lookup_insert_eq.
    + destruct (Hlive a d Ha) as (Haddr & Hd & Hf). split_and!; [done|done|]. rewrite lookup_insert_ne; [done|].
      intros Heq. rewrite <- Heq in Hf. apply Hdead in Hf. congruence.
  - intros a d Ha. destruct (Hdying a d Ha) as [Haddr Hl]. split; [done|]. rewrite lookup_insert_ne; [done|]. intros <-. congruence.
  - intros f a. rewrite lookup_insert_Some. intros [[<- <-]|[Hne Ha]].
    + exists (mkShared (in_next st) data). rewrite lookup_insert_eq. split; [by left|done].
    + destruct (Hinner f a Ha) as (d & Hd & Hf). exists d. split; [|done]. rewrite lookup_insert_ne; [done|].
      intros <-. rewrite Hn1, Hn2 in Hd. by destruct Hd.
  - intros a Ha. rewrite lookup_insert_ne by lia. apply Hnext. lia.
Qed.

Lemma intern_inv st data : interner_inv st → shared_wf (mkShared 0 data) → interner_inv (Interner_intern st data).2.
Proof.
  intros Hinv Hwf. unfold Interner_intern, upgrade.
  destruct (in_inner st !! dd_fingerprint data) as [weak|] eqn:Hf; [destruct (in_live st !! weak) as [d|] eqn:Hw|].
  - done.
  - apply insert_new_inv; [done|done|]. intros a Ha. congruence.
  - apply insert_new_inv; [done|done|]. intros a Ha. congruence.
Qed.

Lemma release_inv st addr : interner_inv st → interner_inv (Interner_release st addr).
Proof.
  intros [Hlive Hdying Hinner Hnext]. unfold Interner_release. destruct (in_live st !! addr) as [d|] eqn:Hd; [|done].
  split; simpl.
  - intros a d'. rewrite lookup_delete_Some. intros [_ Ha]. by apply Hlive.
  - intros a d'. rewrite lookup_insert_Some. intros [[<- <-]|[Hne Ha]].
    + split; [by apply (Hlive addr d Hd)|]. by rewrite lookup_delete_eq.
    + destruct (Hdying a d' Ha) as [? Hl]. split; [done|]. by rewrite lookup_delete_ne.
  - intros f a Ha. destruct (Hinner f a Ha) as (d' & Hd' & Hf). exists d'. split; [|done].
    destruct (decide (addr = a)) as [->|Hne].
    + right. rewrite lookup_insert_eq. destruct Hd' as [Hd'|Hd']; [congruence|]. apply Hdying in Hd' as [_ Hd']. congruence.
    + by rewrite lookup_delete_ne, lookup_insert_ne by done.
  - intros a Ha. destruct (Hnext a Ha) as [Hl Hdy]. assert (a ≠ addr) by (intros ->; congruence).
    by rewrite lookup_delete_ne, lookup_insert_ne by done.
Qed.

Lemma dropped_inv st addr : interner_inv st → interner_inv (Interner_dropped st addr).
Proof.
  intros [Hlive Hdying Hinner Hnext]. unfold Interner_dropped. destruct (in_dying st !! addr) as [d|] eqn:Hd; [|done].
  set (f := dd_fingerprint (sd_data d)).
  set (inner := match in_inner st !! f with
    | Some weak => if upgrade st weak then in_inner st else delete f (in_inner st)
    | None => in_inner st end).
  assert (Hkept : ∀ f' a, inner !! f' = Some a → in_inner st !! f' = Some a ∧ a ≠ addr).
  { intros f' a Ha. unfold inner, upgrade in Ha. pose proof (Hdying addr d Hd) as [_ Hdead].
    assert (Hold : in_inner st !! f' = Some a ∧ (f' = f → in_live st !! a ≠ None)).
    { destruct (in_inner st !! f) as [w|] eqn:Hw; [destruct (in_live st !! w) as [dw|] eqn:Hdw|]; simpl in Ha.
      - split; [done|]. intros ->. congruence.
      - apply lookup_delete_Some in Ha as [Hne Ha]. done.
      - split; [done|]. intros ->. congruence. }
    destruct Hold as [Hold Hlv]. split; [done|]. intros ->.
    destruct (Hinner f' addr Hold) as (d' & [Hd'|Hd'] & Hf'); [congruence|].
    rewrite Hd in Hd'. injection Hd' as <-. by apply Hlv. }
  split; simpl.
  - intros a d' Ha. destruct (Hlive a d' Ha) as (? & ? & Hf). split_and!; [done|done|].
    fold inner. unfold inner, upgrade. destruct (in_inner st !! f) as [w|] eqn:Hw; [|done].
    destruct (in_live st !! w) as [dw|] eqn:Hdw; [done|]. simpl. rewrite lookup_delete_ne; [done|].
    intros Heq. rewrite <- Heq in Hf. congruence.
  - intros a d'. rewrite lookup_delete_Some. intros [_ Ha]. by apply Hdying.
  - intros f' a Ha. destruct (Hkept f' a Ha) as [Hin Hne]. destruct (Hinner f' a Hin) as (d' & Hd' & Hf').
    exists d'. split; [|done]. by rewrite lookup_delete_ne by done.
  - intros a Ha. destruct (Hnext a Ha) as [? Hdy]. split; [done|]. by rewrite lookup_delete_None; right.
Qed.

Lemma interner_reachable_inv st : interner_reachable st → interner_inv st.
Proof.
  intros Hst. pose proof interner_inv_new as Hinv. unfold interner_reachable in Hst. revert Hinv.
  induction Hst as [st|st1 st2 st3 Hstep _ IH]; [done|]. intros Hinv. apply IH. destruct Hstep.
  - by apply intern_inv.
  - by apply release_inv.
  - by apply dropped_inv.
Qed.

(** In a well-formed state a directory that is alive is found by its fingerprint. *)
Lemma get_live st f d :
  interner_inv st → Interner_get st f = Some d ↔ in_live st !! sd_addr d = Some d ∧ dd_fingerprint (sd_data d) = f.
Proof.
  intros [Hlive Hdying Hinner Hnext]. unfold Interner_get, upgrade. split.
  - destruct (in_inner st !! f) as [a|] eqn:Hf; [|done]. simpl. intros Ha.
    destruct (Hlive a d Ha) as (<- & _ & Hd). split; [done|].
    destruct (Hinner f (sd_addr d) Hf) as (d' & [Hd'|Hd'] & Hf'); [congruence|]. apply Hdying in Hd' as [_ Hd']. congruence.
  - intros [Ha <-]. destruct (Hlive _ d Ha) as (_ & _ & ->). done.
Qed.

(** What interning gives, and what it keeps. *)
Definition keeps_live (st st' : Interner) : Prop := rtc interner_step st st' ∧ in_live st ⊆ in_live st'.

Lemma keeps_live_refl st : keeps_live st st.
Proof. by split. Qed.

Lemma keeps_live_trans st1 st2 st3 : keeps_live st1 st2 → keeps_live st2 st3 → keeps_live st1 st3.
Proof. intros [??] [??]. split; by etrans. Qed.

Lemma intern_live st data :
  interner_inv st → shared_wf (mkShared 0 data) →
  let '(s, st') := Interner_intern st data in
  keeps_live st st' ∧ in_live st' !! sd_addr s = Some s ∧ dd_fingerprint (sd_data s) = dd_fingerprint data.
Proof.
  intros Hinv Hwf. pose proof (step_intern st data Hwf) as Hstep. revert Hstep.
  unfold Interner_intern. pose proof (get_live st (dd_fingerprint data)) as Hget. unfold Interner_get in Hget.
  assert (Hnew : interner_step st (insert_new st data).2 →
    keeps_live st (insert_new st data).2 ∧ in_live (insert_new st data).2 !! in_next st = Some (mkShared (in_next st) data)).
  { intros Hstep. split; [split; [by apply rtc_once|]|]; simpl; [|by rewrite lookup_insert_eq].
    apply insert_subseteq. by apply (inv_next st Hinv). }
  destruct (in_inner st !! dd_fingerprint data) as [weak|]; [destruct (upgrade st weak) as [d|] eqn:Hw|]; simpl.
  - intros _. split; [apply keeps_live_refl|]. by apply Hget; [|simpl; rewrite Hw].
  - intros Hstep. by destruct (Hnew Hstep).
  - intros Hstep. by destruct (Hnew Hstep).
Qed.

(** * Sharing a directory *)

(** The shared directories in a directory. *)
Inductive shared_part : ImmutableDirectory L H → SharedDirectory L H → Prop :=
| part_here s : shared_part (Shared s) s
| part_below data k c s : (k, Dir c) ∈ dd_entries data → shared_part c s → shared_part (Exclusive data) s.

Context `{!CollisionFree L H}.

(** Directories with the same fingerprint have the same size. *)
Lemma fingerprint_size (d1 d2 : ImmutableDirectory L H) :
  immutable_wf d1 → immutable_wf d2 → ImmutableDirectory_fingerprint d1 = ImmutableDirectory_fingerprint d2 →
  ImmutableDirectory_size d1 = ImmutableDirectory_size d2.
Proof.
  intros Hd1. assert (Hb1 : builder_wf (Immutable d1)) by by constructor. clear Hd1.
  remember (Immutable d1) as b1 eqn:Heqb. revert b1 Hb1 d1 Heqb d2.
  apply (builder_ind (λ b1, ∀ d1, b1 = Immutable d1 → ∀ d2, immutable_wf d2 →
    ImmutableDirectory_fingerprint d1 = ImmutableDirectory_fingerprint d2 →
    ImmutableDirectory_size d1 = ImmutableDirectory_size d2)).
  intros b Hb IH d1 -> d2 Hd2. apply builder_wf_immutable in Hb as Hd1.
  destruct (immutable_wf_entries d1 Hd1) as (Hs1 & -> & -> & Hc1).
  destruct (immutable_wf_entries d2 Hd2) as (Hs2 & -> & -> & Hc2).
  rewrite hash_entries_eq. intros Heq. simpl. f_equal.
  assert (Hsub : ∀ k c1 c2, (k, Dir c1) ∈ immutable_entries d1 → (k, Dir c2) ∈ immutable_entries d2 →
    ImmutableDirectory_fingerprint c1 = ImmutableDirectory_fingerprint c2 →
    ImmutableDirectory_size c1 = ImmutableDirectory_size c2).
  { intros k c1 c2 Hin1 Hin2 Hf. apply (IH k (Immutable c1)); [|done|by eapply Hc2|done].
    apply btree_get_Some in Hin1; [|done]. by rewrite immutable_get, Hin1. }
  revert Heq Hsub. generalize (immutable_entries d1) (immutable_entries d2). clear.
  induction l as [|[k1 e1] l1 IH]; intros [|[k2 e2] l2]; simpl; try done.
  intros [= -> He Heq] Hsub. f_equal; [|apply IH; [done|]; intros k c1 c2 Hc1 Hc2; apply (Hsub k); by right].
  destruct e1 as [c1|x1], e2 as [c2|x2]; simpl in He; [|done|done|congruence].
  injection He as He. apply (Hsub k2); [by left..|done].
Qed.

(** A shared entry and the entry that it was made from. *)
Definition entry_shared (e : string * DirectoryEntry (ImmutableDirectory L H) L)
    (e' : string * DirectoryEntry (SharedDirectory L H) L) : Prop :=
  e'.1 = e.1 ∧
  match e.2, e'.2 with
  | Leaf l, Leaf l' => l' = l
  | Dir c, Dir s => shared_wf s ∧ dd_fingerprint (sd_data s) = ImmutableDirectory_fingerprint c
  | _, _ => False
  end.

(** Sharing keeps what is alive, and gives a directory that is alive and has the fingerprint. *)
Definition shares (d : ImmutableDirectory L H) : Prop :=
  ∀ st, interner_inv st → (∀ s, shared_part d s → in_live st !! sd_addr s = Some s) →
  let '(s, st') := ImmutableDirectory_shared d st in
  interner_inv st' ∧ keeps_live st st' ∧ in_live st' !! sd_addr s = Some s ∧ 
  dd_fingerprint (sd_data s) = ImmutableDirectory_fingerprint d.

Lemma share_entries_spec es : 
  (∀ k c, (k, Dir c) ∈ es → shares c) →
  ∀ st, interner_inv st → (∀ k c s, (k, Dir c) ∈ es → shared_part c s → in_live st !! sd_addr s = Some s) →
  let '(es', st') := share_entries ImmutableDirectory_shared es st in
  interner_inv st' ∧ keeps_live st st' ∧ Forall2 entry_shared es es'.
Proof.
  induction es as [|[k e] es IH]; intros Hes st Hinv Hparts; simpl.
  - by split_and!; [|apply keeps_live_refl|].
  - assert (Hhead : let '(v, st') := match e with
        | Dir d => let '(d, interner) := ImmutableDirectory_shared d st in (Dir d, interner)
        | Leaf l => (Leaf l, st) end in
      interner_inv st' ∧ keeps_live st st' ∧ entry_shared (k, e) (k, v)).
    { destruct e as [c|l]; [|by split_and!; [|apply keeps_live_refl|]].
      assert (Hc := Hes k c ltac:(by left) st Hinv ltac:(intros s; apply (Hparts k); by left)).
      destruct (ImmutableDirectory_shared c st) as [s st1]. destruct Hc as (Hinv1 & Hkeep & Hlive & Hf).
      split_and!; [done|done|]. by destruct (inv_live st1 Hinv1 _ _ Hlive) as (_ & ? & _). }
    destruct (match e with Dir _ => _ | Leaf _ => _ end) as [v st1]. destruct Hhead as (Hinv1 & Hkeep1 & He).
    assert (Hrest := IH ltac:(intros k' c ?; apply (Hes k'); by right) st1 Hinv1).
    destruct (share_entries _ es st1) as [es' st2]. destruct Hrest as (Hinv2 & Hkeep2 & Hes').
    { intros k' c s Hin Hs. eapply lookup_weaken; [|apply Hkeep1]. eapply Hparts; [right; exact Hin|done]. }
    split_and!; [done|by eapply keeps_live_trans|by constructor].
Qed.

Lemma svm_collect_sorted {V} (l : list (string * V)) : btree_wf l → svm_collect l = l.
Proof.
  intros Hl. apply btree_ext; [apply svm_collect_wf|done|]. intros k.
  by rewrite svm_collect_get, btree_get_sm_get by (done || by apply btree_wf_NoDup).
Qed.

Lemma shared_entries_wf data (es' : list (string * DirectoryEntry (SharedDirectory L H) L)) :
  immutable_wf (Exclusive data) → Forall2 entry_shared (dd_entries data) es' →
  shared_wf (mkShared 0 (mkData (svm_collect es') (dd_size data) (dd_fingerprint data))).
Proof.
  intros Hwf Hes. destruct (immutable_wf_entries _ Hwf) as (Hs & Hfp & Hsize & Hc). simpl in *.
  assert (Hkeys : es'.*1 = (dd_entries data).*1).
  { clear -Hes. induction Hes as [|[k e] [k' e'] es es' [Hk _] _ IH]; [done|]. simpl in *. by f_equal. }
  assert (Hs' : btree_wf es') by (unfold btree_wf, btree_keys in *; by rewrite <- Hkeys in Hs).
  rewrite svm_collect_sorted by done. constructor; simpl.
  - split; [done|]. simpl. unfold DirectoryData_new. f_equal; [rewrite Hsize; f_equal|rewrite Hfp].
    + clear -Hes Hc CollisionFree0. induction Hes as [|[k e] [k' e'] es es' [_ He] _ IH]; [done|]. simpl in *.
      f_equal; [|apply IH; intros k0 c ?; apply (Hc k0); by right].
      destruct e as [c|l], e' as [s|l']; simpl in *; [|done|done|congruence]. destruct He as [Hswf Hf].
      apply (fingerprint_size c (Shared s)); [apply (Hc k); by left|by constructor|done].
    + apply hash_entries_eq. clear -Hes. induction Hes as [|[k e] [k' e'] es es' [Hk He] _ IH]; [done|]. simpl in *.
      f_equal; [|done]. subst. destruct e as [c|l], e' as [s|l']; simpl in *; [|done|done|congruence].
      destruct He as [_ ->]. done.
  - intros k s Hin. apply list_elem_of_lookup in Hin as [i Hi].
    destruct (Forall2_lookup_r _ _ _ _ _ Hes Hi) as ([k' [c|l]] & _ & _ & He); simpl in He; [by destruct He|done].
Qed.

Lemma shared_spec d : immutable_wf d → shares d.
Proof.
  induction 1 as [data Hd Hc IH|s Hs]; intros st Hinv Hparts; simpl.
  - destruct (Interner_get st (dd_fingerprint data)) as [s|] eqn:Hget.
    + apply get_live in Hget as [Hl Hf]; [|done]. by split_and!; [|apply keeps_live_refl| |].
    + assert (Hes := share_entries_spec (dd_entries data) IH st Hinv ltac:(intros k c s Hin Hs; apply Hparts; by econstructor)).
      destruct (share_entries _ _ st) as [es' st1]. destruct Hes as (Hinv1 & Hkeep1 & Hes').
      assert (Hnew := shared_entries_wf data es' ltac:(by constructor) Hes').
      pose proof (intern_inv st1 _ Hinv1 Hnew) as Hinv2. pose proof (intern_live st1 _ Hinv1 Hnew) as Hlive.
      destruct (Interner_intern st1 _) as [s st2]. destruct Hlive as (Hkeep2 & Hl & Hf).
      split_and!; [done|by eapply keeps_live_trans|done|done].
  - split_and!; [done|apply keeps_live_refl| |done]. apply Hparts. constructor.
Qed.

(** A shared directory is well formed and found by its fingerprint. *)
Lemma live_unique st a1 a2 s1 s2 :
  interner_inv st → in_live st !! a1 = Some s1 → in_live st !! a2 = Some s2 →
  SharedDirectory_ptr_eq s1 s2 = true ↔ Immutable (Shared s1) ≡ Immutable (Shared s2).
Proof.
  intros Hinv Hs1 Hs2. unfold SharedDirectory_ptr_eq. rewrite bool_decide_eq_true.
  destruct (inv_live st Hinv _ _ Hs1) as (<- & Hwf1 & Hf1). destruct (inv_live st Hinv _ _ Hs2) as (<- & Hwf2 & Hf2).
  rewrite <- fingerprint_equiv by by constructor. simpl. split.
  - intros Heq. congruence.
  - intros Heq. rewrite Heq in Hf1. congruence.
Qed.

(** Directories with the content of one that is alive are shared with it. *)
Lemma shared_again st s d :
  interner_inv st → in_live st !! sd_addr s = Some s → immutable_wf d →
  (∀ s', shared_part d s' → in_live st !! sd_addr s' = Some s') →
  Immutable (Shared s) ≡ Immutable d → ImmutableDirectory_shared d st = (s, st).
Proof.
  intros Hinv Hs Hd Hparts Heq. destruct (inv_live st Hinv _ _ Hs) as (_ & Hwf & _).
  apply fingerprint_equiv in Heq; [|by constructor|done]. simpl in Heq.
  assert (Hget : Interner_get st (ImmutableDirectory_fingerprint d) = Some s) by (by apply get_live).
  destruct d as [data|s']; simpl in *; [by rewrite Hget|]. f_equal.
  assert (Hget' : Interner_get st (dd_fingerprint (sd_data s')) = Some s') by (apply get_live; [done|]; split; [apply Hparts; constructor|done]).
  congruence.
Qed.

(** When no drop is pending, the interner holds as many directories as are alive. *)
Lemma interner_no_leak st : interner_inv st → in_dying st = ∅ → Interner_len st = size (in_live st).
Proof.
  intros [Hlive Hdying Hinner Hnext] Hnone. unfold Interner_len.
  rewrite <- (length_map_to_list (in_live st)), <- size_dom.
  set (fp := λ ad : nat * SharedDirectory L H, dd_fingerprint (sd_data ad.2)).
  assert (Hdom : dom (in_inner st) = (list_to_set (fp <$> map_to_list (in_live st)) : gset H)).
  { apply set_eq. intros f. rewrite elem_of_dom, elem_of_list_to_set, list_elem_of_fmap. split.
    - intros [a Ha]. destruct (Hinner f a Ha) as (d & [Hd|Hd] & Hf); [|by rewrite Hnone in Hd].
      exists (a, d). by rewrite elem_of_map_to_list.
    - intros ([a d] & -> & Hd%elem_of_map_to_list). exists a. by apply Hlive. }
  rewrite Hdom, size_list_to_set, length_fmap; [done|].
  apply NoDup_fmap_2_strong; [|apply NoDup_map_to_list].
  intros [a1 d1] [a2 d2] H1in%elem_of_map_to_list H2in%elem_of_map_to_list Heq. unfold fp in Heq. simpl in Heq.
  destruct (Hlive _ _ H1in) as (_ & _ & Hf1). destruct (Hlive _ _ H2in) as (_ & _ & Hf2).
  rewrite Heq in Hf1. simplify_eq. done.
Qed.

(** * The theorem *)

(** C14. In every state that interning, last releases and drops lead to, in whatever order, two shared
    directories that are alive are the same pointer exactly when they have the same content, and when no
    drop is pending the map holds as many directories as are alive.  Sharing a directory leads to such a state,
    keeps what is alive, and gives a directory that is alive and has the content; sharing any directory of
    the same content then gives the same pointer and changes nothing. *)
Theorem interner_correct st :
  interner_reachable st →
  (∀ a1 a2 s1 s2, in_live st !! a1 = Some s1 → in_live st !! a2 = Some s2 →
    SharedDirectory_ptr_eq s1 s2 = true ↔ Immutable (Shared s1) ≡ Immutable (Shared s2)) ∧
  (in_dying st = ∅ → Interner_len st = size (in_live st)) ∧
  ∀ d, immutable_wf d → (∀ s, shared_part d s → in_live st !! sd_addr s = Some s) →
    let '(s, st') := ImmutableDirectory_shared d st in
    interner_reachable st' ∧ in_live st ⊆ in_live st' ∧ in_live st' !! sd_addr s = Some s ∧
    Immutable (Shared s) ≡ Immutable d ∧
    ∀ d', immutable_wf d' → (∀ s', shared_part d' s' → in_live st' !! sd_addr s' = Some s') →
      Immutable d ≡ Immutable d' → ImmutableDirectory_shared d' st' = (s, st').
Proof.
  intros Hst. pose proof (interner_reachable_inv st Hst) as Hinv. split_and!.
  - intros a1 a2 s1 s2. by apply live_unique.
  - by apply interner_no_leak.
  - intros d Hd Hparts. pose proof (shared_spec d Hd st Hinv Hparts) as Hs.
    destruct (ImmutableDirectory_shared d st) as [s st']. destruct Hs as (Hinv' & [Hsteps Hlive] & Hl & Hf).
    assert (Heq : Immutable (Shared s) ≡ Immutable d).
    { apply fingerprint_equiv; [|done|done]. constructor. by apply (inv_live st' Hinv' _ _ Hl). }
    split_and!; [by eapply rtc_trans|done|done|done|]. intros d' Hd' Hparts' Hdd'. apply shared_again; [done..|].
    intros p. etransitivity; [apply Heq|apply Hdd'].
Qed.
End Interner.

(** * Examples *)

(** Directories without a shared part. *)
Fixpoint all_exclusive {L H} (d : ImmutableDirectory L H) : bool :=
  match d with
  | Exclusive data => forallb (λ ke, match ke.2 with Dir c => all_exclusive c | Leaf _ => true end) (dd_entries data)
  | Shared _ => false
  end.

Lemma all_exclusive_parts {L H} (d : ImmutableDirectory L H) s : all_exclusive d = true → ¬ shared_part d s.
Proof.
  intros Hd Hs. induction Hs as [s|data k c s Hin _ IH]; [done|]. apply IH. simpl in Hd.
  rewrite forallb_forall in Hd. apply (Hd (k, Dir c)). by apply list_elem_of_In.
Qed.

(** The same directory, built twice, is shared. *)
Lemma interner_correct_witness :
  let d := DirectoryBuilder_fingerprint (dir_of [["b"; "c"]; ["a"]]) in
  let d' := DirectoryBuilder_fingerprint (dir_of [["a"]; ["b"; "c"]]) in
  interner_reachable (Interner_new (L:=string) (H:=TestDigest)) ∧ Immutable d ≡ Immutable d' ∧
  let '(s, st) := ImmutableDirectory_shared d Interner_new in
  interner_reachable st ∧ ImmutableDirectory_shared d' st = (s, st).
Proof.
  intros d d'. assert (Hnew : interner_reachable (Interner_new (L:=string) (H:=TestDigest))) by apply rtc_refl.
  assert (Hwf : immutable_wf d) by (apply fingerprint_wf, dir_of_wf).
  assert (Hwf' : immutable_wf d') by (apply fingerprint_wf, dir_of_wf).
  assert (Heq : Immutable d ≡ Immutable d') by (apply fingerprint_equiv; [done..|]; vm_compute; reflexivity).
  destruct (interner_correct Interner_new Hnew) as (_ & _ & Hshare).
  assert (Hd := Hshare d Hwf ltac:(by intros s Hs%all_exclusive_parts; [|vm_compute])).
  destruct (ImmutableDirectory_shared d Interner_new) as [s st]. destruct Hd as (Hst & _ & _ & _ & Hagain).
  split_and!; [done|done|done|]. apply Hagain; [done| |done].
  by intros s' Hs'%all_exclusive_parts; [|vm_compute].
Defined.

(** The unit tests: share directories, release the last pointer to one, and run the drops. *)
Definition share_leaves (paths : list (list string)) :
    Interner (L:=string) (H:=TestDigest) → SharedDirectory string TestDigest * Interner :=
  ImmutableDirectory_shared (DirectoryBuilder_fingerprint (dir_of paths)).

(** What a directory drops: itself, then its directories that nothing else holds. *)
Definition drop_all (addrs : list nat) (st : Interner (L:=string) (H:=TestDigest)) : Interner :=
  fold_left (λ st addr, Interner_dropped (Interner_release st addr) addr) addrs st.

Definition test_interner : bool * list nat :=
  let '(d1, st) := share_leaves [["a"; "b"]] Interner_new in
  let '(d2, st) := share_leaves [["a"; "b"]] st in
  (SharedDirectory_ptr_eq d1 d2,
   [Interner_len st; Interner_len (drop_all [sd_addr d2; 0] st)]).

Example test_directory_interner : test_interner = (true, [2; 0]).
Proof. vm_compute. reflexivity. Qed.

Definition test_interner_deep : list nat :=
  let '(d1, st) := share_leaves [["a"; "b"]] Interner_new in
  let '(d2, st) := share_leaves [["b"]] st in
  [Interner_len st; Interner_len (drop_all [sd_addr d1] st)].

Example test_directory_interner_deep : test_interner_deep = [2; 1].
Proof. vm_compute. reflexivity. Qed.
